(* ===== verification/_CoqProject ===== *)
-Q . S2P
Prelude.v
Reorder.v
Fence.v
Channel.v
Stream.v
GraphPlan.v
Fanin.v
Delivery.v
GraphWorkers.v
StreamStages.v
StreamRun.v
St3Ring.v
Deque.v
St3Lifo.v
St3Fifo.v
SleepCounters.v
Sleep.v
SleepLive.v
Config.v
Admission.v
GraphExec.v
Completion.v
ForkJoin.v
FusedTree.v
FusedPlan.v
HybridDispatch.v
FusedCollect.v
FusedStages.v
FusedReduce.v
ReduceDispatch.v
ParReduce.v
LeafTree.v
FilterPlace.v
FilterCompact.v
FusedPipe.v
PassThrough.v
FusedByRef.v
Scope.v
PoolCache.v
RingPos.v
BoundedQueue.v
RingGhost.v
ArrayQueue.v
ArrayQueueSpec.v
MpscQueue.v
MpscQueueSpec.v
MpscWrap.v
UnboundedFifo.v
Unbounded.v
UnboundedGhost.v
UnboundedSteps.v
UnboundedSpec.v
Latches.v
Sharded.v
