(* ===== verification/Prelude.v ===== *)
(** * Verification of youpipe

    youpipe is a Rust library for data pipelines on a work-stealing thread
    pool.  A user builds a pipeline and runs it on one of three engines:
    - the _fused_ engine ([Pipe], [TryPipe], [RangePipe], their borrowed and
      scoped forms [PipeRef], [TryPipeRef], [ScopedPipe], [ScopedTryPipe])
      compiles a chain of maps and filters into one operation and applies it to
      a batch on the pool, as a fork-join tree over shared slots;
    - the _streaming_ engine ([StreamPipe]) runs a thread group per stage,
      connected by channels, and restores the input order at the end;
    - the _graph_ engine ([GraphBuilder]) runs a DAG of nodes with fan-in and
      fan-out over channels.
    All three share the pool (its work-stealing deques, its sleep protocol, its
    join and its admission of long-running jobs) and the state structures
    (reorder buffer, fence).

    This library models the parts below, statement by statement where they
    compute and access by access where they synchronise, and proves them
    correct.  Paths are relative to [src/].

    ** Files, and the code they model

    Shared:
    - [Prelude] (this file): outcomes of imperative code, machine words, Rust
      indexing, and lemmas all files use.

    State structures ([crates/youpipe/src/state]):
    - [Reorder]: [reorder.rs], the re-sequencing buffer with growth, eviction
      and accounting, against a finite map of pending items;
    - [Fence]: [fence.rs], the chunked accumulator;
    - [Stream]: [stream.rs], the ordered and unordered terminal drains.

    Channels ([crates/youpipe/src/handoff],
    [crates/youpipe-crossfire/src/crossbeam]):
    - [Channel]: the receiver and sender traits as classes with laws
      ([RecvItem], [SendItem]), and the batched operations built on them.
      Drains, stage workers and graph workers are proved against these laws;
    - [Sharded]: [sharded.rs], the terminal of one ring per worker, and the
      drains of [stream.rs] over it;
    - [BoundedQueue]: what a bounded queue promises, an atomic FIFO object;
    - [RingPos], [RingGhost]: the arithmetic of lap stamps, and the history of
      a ring, which the proofs of both rings share;
    - [ArrayQueue], [ArrayQueueSpec]: [array_queue.rs], the ring of the bounded
      channels, and its refinement of [BoundedQueue];
    - [MpscQueue], [MpscQueueSpec], [MpscWrap]: [array_queue_mpsc.rs], the ring
      with cached cursors of the terminal channels, its refinement, and what
      happens when its 32-bit stamps wrap around.

    Graph engine ([crates/youpipe/src/graph]):
    - [GraphPlan]: [plan.rs], validation and topological order;
    - [Fanin], [Delivery]: [fanin.rs], fair claims over the input edges and
      delivery to the output edges;
    - [GraphWorkers]: the worker bodies of [exec.rs];
    - [GraphExec]: budget, edge table and spawn walk of [exec.rs];
    - [Completion]: how the caller waits for the jobs and re-raises the first
      panic, for the graph engine ([Done]) and the streaming engine
      ([Settle]).

    Streaming engine ([crates/youpipe/src/builder/typed/stream.rs]):
    - [StreamStages]: stage and expand workers, fence forwarder;
    - [StreamRun]: the feeder, chains of stages, and a whole ordered run;
    - [PassThrough]: the passes that run a chain of map stages on the fused core
      instead of on channels;
    - [Admission]: the parking slots of the pool and the lease of a run.

    Fused engine ([crates/youpipe/src/builder/typed]):
    - [ForkJoin]: a semantics of fork-join programs over shared slots, with
      total correctness under every interleaving ([always]) and its rules, and
      the pool's join ([pool/join.rs]);
    - [FusedTree]: slots ([slots.rs]), the leaves and the recursion
      [par_tree_rec] ([fused.rs]);
    - [FusedPlan]: the split plan;
    - [HybridDispatch]: the dispatcher, proved against the interface
      [StrategyLaws];
    - [FusedCollect]: the strategies with known output positions;
    - [FusedStages]: stage chains and reducers ([traits.rs]);
    - [FusedReduce], [ReduceDispatch], [ParReduce]: filter-collect trees,
      reduce trees, the cells the chunks publish to, and the dispatched
      reduces, owned and borrowed, infallible and fallible;
    - [LeafTree]: programs that allocate between their phases, and the
      recursion over numbered leaves that the borrowed filter collects share;
    - [FilterPlace], [FilterCompact]: the count-then-place and the
      write-then-compact filter collect ([fused.rs]);
    - [FusedPipe]: the owned and range builders and their terminals;
    - [FusedByRef]: the borrowed builders ([borrowed.rs]), the merge collect,
      the choice among the three filter collects and the by-reference entries
      of [fused.rs];
    - [Scope]: the scoped builders ([scope/pipeline_scope.rs]) and the scoped
      entries of [fused.rs].

    Pool ([crates/youpipe-st3], [crates/youpipe/src/pool],
    [crates/youpipe/src/executor]):
    - [St3Ring], [Deque], [St3Lifo], [St3Fifo]: the work-stealing queues and
      the abstract deque they refine;
    - [UnboundedFifo], [Unbounded], [UnboundedGhost], [UnboundedSteps],
      [UnboundedSpec]: the injector queue
      ([crates/youpipe-concurrent-queue/src/unbounded.rs]), what it promises,
      the history its proof keeps, its steps and its refinement;
    - [SleepCounters], [Sleep], [SleepLive]: parking and waking of workers;
    - [Latches]: [pool/latch.rs], the counting latch a thread outside the pool
      waits on;
    - [Config]: [builder/config.rs], the run configuration;
    - [PoolCache]: [executor/compute/pool_cache.rs], the recycling cache.

    ** How the code is modelled

    Sequential Rust is a function into [outcome]: a return, a panic, undefined
    behaviour or exhausted fuel; the theorems conclude with a return.  The
    build is one with debug assertions and overflow checks: a failing
    [debug_assert!] is a panic, so the theorems show that they hold (or, for a
    sequence number inserted twice into [Reorder], when they do not).  Integers
    are [Z] with their width where overflow matters: plain arithmetic panics on
    overflow, where a release build wraps; wrapping arithmetic wraps.  Memory that may be uninitialised is
    an [option]; reading it when empty is undefined behaviour.

    Lock-free code ([St3Lifo], [St3Fifo], [ArrayQueue], [MpscQueue],
    [Unbounded], [Sleep], [Latches], [Completion], the parking counter,
    [PoolCache]) is a step relation: a thread's program point is its local
    state between two accesses to shared memory, and one step performs one
    access or one critical section.  Memory is sequentially consistent;
    weak compare-exchanges may fail and condition variables may wake
    spuriously.  Theorems are invariants of all reachable states, simulations
    by an abstract machine, or statements that every reachable state can go on
    to completion.

    The fused engine's unsynchronised slot accesses are programs of
    [ForkJoin.prog]; an access to a slot in the wrong state is a fault, and
    [always] excludes faults and non-termination for every schedule.  Panics
    of user closures are values ([Unwind]).  A call that allocates a buffer
    whose size an earlier pass computed is a sequence of such programs
    ([LeafTree.phases]), each starting in the memory the last one left.

    Code outside the repository, and code the model leaves out, enters as an
    argument: the environment knobs, the clock, the number of cores, the
    channels (with their laws as a class and concrete instances in the
    witnesses), the growth policy of [Vec], the payload of an overflow panic.

    Loops that are not structural take fuel; the fuel is computed from the
    input (items left plus open receivers, slots of a ring, nodes of a plan)
    and the theorems show that the loops return before it is used up.  The
    stamps of the rings are words; the theorems on them bound the number of
    items so that they do not wrap around ([2 ^ 60] items for the 64-bit ring
    and the injector queue, [2 ^ 29] for the 32-bit ring); the work-stealing
    queues run for ever, but leave out a compare-exchange on a view that is a
    full cycle of the 32-bit counters old ([St3Lifo.fresh],
    [St3Fifo.fresh_at]).  Loops over lists and the trees, whose depth the split
    budget bounds, are structural.

    ** What is proved

    - Fused pipelines: [collect], [try_collect], [for_each] and the
      aggregations, fallible ones included, compute what a sequential loop over the batch computes, for
      every batch, options, split and interleaving, and leave no slot
      initialised that nobody owns ([FusedPipe]; [collect], [try_collect] and
      [for_each] under a condition on late panics, see below), over borrowed slices with
      each of the three filter collects too ([FusedByRef]); scoped pipelines
      run as ordinary ones ([Scope]); the split plan's bounds
      ([FusedPlan]); the soundness of the unchecked filter-free path
      ([FusedStages]).
    - Streams: an ordered run with a large enough window is the composed stage
      function mapped over the input in order ([StreamRun], [StreamStages],
      [Stream], [Reorder], [Fence]), on channels and on the fused core alike
      ([PassThrough]); with a smaller pinned window the drain accounts for every
      item ([Stream.drain_ordered_pinned_window_accounts]); the lease of a run covers its jobs and the pool is never
      oversubscribed ([Admission]).
    - Channels: every interleaving of the operations of either ring is one of
      an atomic bounded FIFO object, and the destructors drop what is left
      ([ArrayQueueSpec], [MpscQueueSpec]); the sharded terminal is transparent
      to the drains ([Sharded]).
    - Graphs: validation accepts exactly the acyclic well-formed plans
      ([GraphPlan]); the spawn walk wires every edge once ([GraphExec]); workers
      deliver all items in order ([GraphWorkers], [Fanin], [Delivery]); the
      caller gets through exactly when all jobs are done ([Completion]).
    - Pool: the queues refine atomic deques ([St3Lifo], [St3Fifo]); the
      injector is an atomic FIFO object, never touches a freed block and frees
      every block ([UnboundedSpec]); no job is
      stranded while workers sleep and no wake-up is lost ([SleepLive]); a
      counting latch outlives its last setter and its wait returns
      ([Latches]); the cache keeps the most recently used sizes and never joins a pool that is
      in use ([PoolCache]).

    ** Where the code departs from its comments

    - [Reorder.stale_index_stall]: a growth that hits the ceiling leaves the
      item at a stale index.  [Reorder.clean_growth] excludes it; the
      automatic and the pinned windows always satisfy it.
    - [FusedCollect.late_panic_drops_dead_slot]: when a worker runs the second
      half of its own join after the first half failed with a captured panic,
      and the second half panics too, the sibling guard drops slots that are
      already dead.  The theorems on [collect] and [for_each] therefore
      exclude a panic after a panic, those on [try_collect] one after a
      failure ([FusedPipe.no_second_panic],
      [FusedPipe.no_panic_after_failure]; the collects only for chains without
      filters), when the scheduler may let a worker run the second half of its
      own join.
    - [FusedCollect.nested_panic_is_swallowed]: a panic captured below a node
      loses against an operation's error on its left.
    - [FilterPlace.ctp_correct]: the place pass drops the outputs of completed
      siblings, which the documentation of the write-then-compact variant says
      it leaks.
    - [MpscWrap.mpsc_hint_wraps]: a batched pop across the point where the
      32-bit stamps wrap around stores a stale tail, and the next pop on the
      empty ring does not return.
    - [UnboundedSpec.is_empty_lags]: [is_empty] of the injector queue may be
      false for a queue that [len] has just found empty.
    - [GraphExec.merge_inputs_walk_order]: a node's receivers arrive in walk
      order, not in registration order.

    ** Not modelled

    - [fused.rs]: non-temporal stores are plain stores, and the lifetimes that
      make borrowing closures sound have no counterpart.
    - [stream.rs]: async stages, cancellation of terminals other than the
      modelled loops.  In [StreamRun.chain_run] a channel hands each item to
      exactly one of the next stage's workers and stays open while they run;
      that is what the queues of [ArrayQueueSpec] and [MpscQueueSpec] promise,
      but the two are not composed.  Stage functions return.
    - graph: async nodes, the bridge threads, the builder.
    - pool: thread creation and termination, [LockLatch::wait_and_reset], the
      type-erased job pointers.
    - [crates/youpipe-crossfire]: blocking, waking and selecting (the waiter
      registries and the front ends over the rings) and the other queue
      flavours; the engines are proved against the laws of [Channel].
    - [crates/youpipe-concurrent-queue]: the bounded and single-slot flavours,
      which the pool does not build.
    - The profiler, the platform layer, benchmarks and fuzz targets, which
      carry no logic of the pipelines. *)

From stdpp Require Export base tactics numbers list gmap sorting.

#[export] Set Default Goal Selector "!".
Local Open Scope Z_scope.

(** ** Outcomes of imperative code

    [Ret v] is a normal return.  [Panic] is a Rust panic: an index out of
    bounds, an [expect]/[unwrap] on the wrong variant, a failed [assert!], or
    an overflow of a plain [+]/[-]/[*] (the overflow checks of a debug build).
    [Undef] is undefined behaviour: reading or dropping a [MaybeUninit] slot
    that holds no value, or an unchecked access out of range.  [NoFuel] marks
    a loop that exhausted the iteration budget the model gave it.  Every
    correctness theorem concludes with a [Ret], so the other three are proved
    unreachable. *)
Inductive outcome (A : Type) : Type :=
  | Ret (a : A)
  | Panic
  | Undef
  | NoFuel.
Arguments Ret {A} a.
Arguments Panic {A}.
Arguments Undef {A}.
Arguments NoFuel {A}.

#[export] Instance outcome_mret : MRet outcome := @Ret.
#[export] Instance outcome_mbind : MBind outcome :=
  λ A B f m,
    match m with
    | Ret a => f a
    | Panic => Panic
    | Undef => Undef
    | NoFuel => NoFuel
    end.

(** [guard_panic b] is [assert!(b)] and every implicit check of the language. *)
Definition guard_panic (b : bool) : outcome unit := if b then Ret tt else Panic.

(** [assume_init o]: the payload of a [MaybeUninit] slot, [None] when the slot
    was never written (or was moved out). *)
Definition assume_init {A} (o : option A) : outcome A :=
  match o with Some a => Ret a | None => Undef end.

Lemma mbind_ret {A B} (f : A → outcome B) (a : A) : (Ret a ≫= f) = f a.
Proof. reflexivity. Qed.

Lemma mbind_mret {A B} (f : A → outcome B) (a : A) : (mret a ≫= f) = f a.
Proof. reflexivity. Qed.

Lemma mbind_ret_inv {A B} (m : outcome A) (f : A → outcome B) (b : B) :
  (m ≫= f) = Ret b → ∃ a, m = Ret a ∧ f a = Ret b.
Proof. destruct m; simpl; intros H; try discriminate; eauto. Qed.

Lemma outcome_bind_assoc {A B C} (m : outcome A) (f : A → outcome B) (g : B → outcome C) :
  ((m ≫= f) ≫= g) = (m ≫= λ a, f a ≫= g).
Proof. by destruct m. Qed.

(** ** Indexing a Rust [Vec] or slice: out of range panics *)

Definition vec_get {A} (l : list A) (i : Z) : outcome A :=
  if bool_decide (0 ≤ i) then
    match l !! Z.to_nat i with Some a => Ret a | None => Panic end
  else Panic.

Definition vec_set {A} (l : list A) (i : Z) (a : A) : outcome (list A) :=
  if bool_decide (0 ≤ i < Z.of_nat (length l)) then Ret (<[Z.to_nat i := a]> l)
  else Panic.

Lemma vec_get_ret {A} (l : list A) (i : Z) (a : A) :
  0 ≤ i → l !! Z.to_nat i = Some a → vec_get l i = Ret a.
Proof. intros Hi Hl. unfold vec_get. by rewrite bool_decide_eq_true_2, Hl. Qed.

Lemma vec_get_inv {A} (l : list A) (i : Z) (a : A) :
  vec_get l i = Ret a → 0 ≤ i ∧ l !! Z.to_nat i = Some a.
Proof.
  unfold vec_get. case_bool_decide; [|done]. destruct (l !! _); naive_solver.
Qed.

Lemma vec_get_total {A} (l : list A) (i : Z) :
  0 ≤ i < Z.of_nat (length l) →
  ∃ a, vec_get l i = Ret a ∧ l !! Z.to_nat i = Some a.
Proof.
  intros Hi. destruct (lookup_lt_is_Some_2 l (Z.to_nat i)) as [a Ha]; [lia|].
  exists a. split; [|done]. apply vec_get_ret; [lia|done].
Qed.

Lemma vec_set_ret {A} (l : list A) (i : Z) (a : A) :
  0 ≤ i < Z.of_nat (length l) → vec_set l i a = Ret (<[Z.to_nat i := a]> l).
Proof. intros Hi. unfold vec_set. by rewrite bool_decide_eq_true_2. Qed.

(** ** Machine words *)

(** A [w]-bit unsigned integer is a [Z] in [0, 2^w). *)
Definition wrap (w z : Z) : Z := z mod 2 ^ w.
Definition wrapping_add (w a b : Z) : Z := wrap w (a + b).
Definition wrapping_sub (w a b : Z) : Z := wrap w (a - b).

(** Plain [a + b], [a - b] and [a * b] on a [w]-bit unsigned type. *)
Definition checked_add (w a b : Z) : outcome Z :=
  if bool_decide (a + b < 2 ^ w) then Ret (a + b) else Panic.
Definition checked_sub (a b : Z) : outcome Z :=
  if bool_decide (b ≤ a) then Ret (a - b) else Panic.
Definition checked_mul (w a b : Z) : outcome Z :=
  if bool_decide (a * b < 2 ^ w) then Ret (a * b) else Panic.

(** [usize::next_power_of_two] of a [w]-bit type (0 on overflow, as in a
    release build). *)
Definition next_power_of_two (w n : Z) : Z := wrap w (2 ^ Z.log2_up n).

Definition is_word (w z : Z) : Prop := 0 ≤ z < 2 ^ w.

(** Powers of two, the only capacities the ring structures use. *)
Definition pow2 (c : Z) : Prop := ∃ k, 0 ≤ k ∧ c = 2 ^ k.

Lemma checked_add_ret w a b : a + b < 2 ^ w → checked_add w a b = Ret (a + b).
Proof. intros. unfold checked_add. by rewrite bool_decide_eq_true_2. Qed.
Lemma checked_sub_ret a b : b ≤ a → checked_sub a b = Ret (a - b).
Proof. intros. unfold checked_sub. by rewrite bool_decide_eq_true_2. Qed.
Lemma checked_mul_ret w a b : a * b < 2 ^ w → checked_mul w a b = Ret (a * b).
Proof. intros. unfold checked_mul. by rewrite bool_decide_eq_true_2. Qed.

Lemma pow2_pos c : pow2 c → 0 < c.
Proof. intros (k & Hk & ->). lia. Qed.

Lemma pow2_double c : pow2 c → pow2 (c * 2).
Proof.
  intros (k & Hk & ->). exists (k + 1). split; [lia|].
  rewrite Z.pow_add_r by lia. lia.
Qed.

Lemma land_mask c z : pow2 c → Z.land z (c - 1) = z mod c.
Proof.
  intros (k & Hk & ->). rewrite <- Z.land_ones by lia.
  by rewrite Z.ones_equiv, <- Z.sub_1_r.
Qed.

(** A larger power of two is a multiple of a smaller one. *)
Lemma pow2_divide c d : pow2 c → pow2 d → c ≤ d → (c | d).
Proof.
  intros (k & Hk & ->) (j & Hj & ->) Hle.
  apply Z.pow_le_mono_r_iff in Hle; [|lia..].
  exists (2 ^ (j - k)). rewrite <- Z.pow_add_r by lia. f_equal; lia.
Qed.

Lemma mod_mod_pow2 c d z : pow2 c → pow2 d → c ≤ d → (z mod d) mod c = z mod c.
Proof.
  intros Hc Hd Hle. pose proof (pow2_pos _ Hc). pose proof (pow2_pos _ Hd).
  apply Z.mod_mod_divide. by apply pow2_divide.
Qed.

Lemma pow2_lt_double c d : pow2 c → pow2 d → c < d → c * 2 ≤ d.
Proof.
  intros (k & Hk & ->) (j & Hj & ->) Hlt.
  apply Z.pow_lt_mono_r_iff in Hlt; [|lia..].
  replace (2 ^ k * 2) with (2 ^ (k + 1)) by (rewrite Z.pow_add_r by lia; lia).
  apply Z.pow_le_mono_r; lia.
Qed.

Lemma wrap_small w z : is_word w z → wrap w z = z.
Proof. intros [??]. unfold wrap. by rewrite Z.mod_small. Qed.

Lemma wrap_word w z : 0 ≤ w → is_word w (wrap w z).
Proof. intros. unfold is_word, wrap. apply Z.mod_pos_bound. lia. Qed.

(** [next_power_of_two] of a small enough argument is the least power of two
    above it. *)
Lemma next_power_of_two_spec w n :
  0 < w → 0 ≤ n ≤ 2 ^ (w - 1) →
  pow2 (next_power_of_two w n) ∧ n ≤ next_power_of_two w n ∧
  1 ≤ next_power_of_two w n ≤ 2 ^ (w - 1).
Proof.
  intros Hw Hn. unfold next_power_of_two.
  assert (0 ≤ Z.log2_up n ≤ w - 1) as Hk.
  { split; [apply Z.log2_up_nonneg|].
    destruct (decide (n ≤ 1)) as [H1|H1].
    - rewrite Z.log2_up_eqn0 by lia. lia.
    - apply Z.log2_up_le_pow2; lia. }
  assert (2 ^ Z.log2_up n ≤ 2 ^ (w - 1)) by (apply Z.pow_le_mono_r; lia).
  assert (2 ^ (w - 1) < 2 ^ w) by (apply Z.pow_lt_mono_r; lia).
  rewrite wrap_small by (split; lia).
  split; [exists (Z.log2_up n); lia|]. split; [|lia].
  destruct (decide (n ≤ 1)) as [H1|H1]; [lia|].
  pose proof (Z.log2_up_spec n). lia.
Qed.

(** ** Automation *)

Create HintDb words.
#[export] Hint Resolve pow2_pos pow2_double wrap_word : words.
#[export] Hint Rewrite @mbind_ret : outcome.
#[export] Hint Rewrite checked_add_ret checked_sub_ret checked_mul_ret using lia : outcome.

(** [ostep]: run the outcome monad through the operations that provably
    return. *)
Ltac ostep := autorewrite with outcome; simpl.

(** [oadd]: run the checked arithmetic at the head of the goal, whose bounds
    [lia] proves. *)
Ltac oadd :=
  repeat first [rewrite mbind_ret | rewrite mbind_mret | rewrite checked_add_ret by lia
               | rewrite checked_sub_ret by lia | rewrite checked_mul_ret by lia].

(** [destruct_ret H]: invert a chain of binds that ends in [Ret]. *)
Ltac destruct_ret H :=
  let a := fresh "v" in let E := fresh "E" in
  apply mbind_ret_inv in H as (a & E & H).
