(* ===== verification/Reorder.v ===== *)
(** * Reorder: the re-sequencing buffer of the ordered collectors

    Model of [ReorderBuffer] in [crates/youpipe/src/state/reorder.rs].  The
    state is the source's struct, field by field; a [MaybeUninit<T>] payload is
    an [option A].  [usize] and [u64] are 64-bit words.  [sink] is modelled by
    the list of the items it receives, in order.  As everywhere in the
    development the checks are those of a debug build: the [debug_assert!] on
    a sequence number that is already pending is a [Panic] (a release build
    drops the older item and counts it instead).

    The abstract view of a buffer is a finite map [m : gmap Z A] from pending
    sequence numbers to items ([Rep]); [flush_run] is the specification of a
    flush. *)

From S2P Require Import Prelude.
Local Open Scope Z_scope.

Definition UNOCCUPIED : Z := 0.

Record Slot (A : Type) : Type := mkSlot {
  tag : Z;
  item : option A;
}.
Arguments mkSlot {A} tag item.
Arguments tag {A} s.
Arguments item {A} s.

Record ReorderBuffer (A : Type) : Type := mkReorderBuffer {
  slots : list (Slot A);
  next_expected : Z;
  len : Z;
  mask : Z;
  max_capacity : Z;
  dropped : Z;
}.
Arguments mkReorderBuffer {A}.
Arguments slots {A} r.
Arguments next_expected {A} r.
Arguments len {A} r.
Arguments mask {A} r.
Arguments max_capacity {A} r.
Arguments dropped {A} r.

Section reorder.
Context {A : Type}.
Implicit Types (b : ReorderBuffer A) (m : gmap Z A).

Definition empty_slot : Slot A := mkSlot UNOCCUPIED None.

(** ** Operations *)

Definition with_max_inner (capacity : Z) (max_cap : option Z) : ReorderBuffer A :=
  let cap := next_power_of_two 64 (Z.max capacity 1) in
  let max :=
    match max_cap with
    | Some m => Z.max (next_power_of_two 64 (Z.max m 1)) cap
    | None => cap
    end in
  mkReorderBuffer [] 0 0 (cap - 1) max 0.

Definition new (capacity : Z) : ReorderBuffer A := with_max_inner capacity None.

Definition with_max (initial_capacity max_cap : Z) : ReorderBuffer A :=
  with_max_inner initial_capacity (Some max_cap).

Definition set_slots b (l : list (Slot A)) : ReorderBuffer A :=
  mkReorderBuffer l (next_expected b) (len b) (mask b) (max_capacity b) (dropped b).

Definition ensure_slots b : ReorderBuffer A :=
  match slots b with
  | [] => set_slots b (replicate (Z.to_nat (mask b + 1)) empty_slot)
  | _ :: _ => b
  end.

(** The [for slot in old] loop of [double]: re-place the occupied slots. *)
Fixpoint rehash (old : list (Slot A)) (new_cap : Z) (acc : list (Slot A)) :
    outcome (list (Slot A)) :=
  match old with
  | [] => Ret acc
  | slot :: old =>
      if bool_decide (tag slot ≠ UNOCCUPIED) then
        let idx := Z.land (wrapping_sub 64 (tag slot) 1) (new_cap - 1) in
        acc' ← vec_set acc idx slot;
        rehash old new_cap acc'
      else rehash old new_cap acc
  end.

Definition double b : outcome (ReorderBuffer A) :=
  let old := slots b in
  new_cap ← checked_mul 64 (mask b + 1) 2;
  l ← rehash old new_cap (replicate (Z.to_nat new_cap) empty_slot);
  mret (mkReorderBuffer l (next_expected b) (len b) (new_cap - 1)
          (max_capacity b) (dropped b)).

(** The [loop] of [grow_for]; every turn doubles the capacity, so
    [log2 max_capacity + 1] turns always reach the ceiling. *)
Fixpoint grow_loop (fuel : nat) (seq : Z) b : outcome (ReorderBuffer A * bool) :=
  match fuel with
  | O => NoFuel
  | S fuel =>
      if bool_decide (max_capacity b ≤ mask b + 1) then
        s ← vec_get (slots b) (Z.land seq (mask b));
        mret (b, bool_decide (tag s = UNOCCUPIED))
      else
        b' ← double b;
        s ← vec_get (slots b') (Z.land seq (mask b'));
        if bool_decide (tag s = UNOCCUPIED) then mret (b', true)
        else grow_loop fuel seq b'
  end.

Definition grow_for (seq : Z) b : outcome (ReorderBuffer A * bool) :=
  grow_loop (S (Z.to_nat (Z.log2 (max_capacity b)))) seq b.

(** The [loop] of [flush_ready_into]; every turn empties one occupied slot. *)
Fixpoint flush_loop (fuel : nat) b : outcome (ReorderBuffer A * list A) :=
  match fuel with
  | O => NoFuel
  | S fuel =>
      let idx := Z.land (next_expected b) (mask b) in
      s ← vec_get (slots b) idx;
      if bool_decide (tag s ≠ wrapping_add 64 (next_expected b) 1) then mret (b, [])
      else
        x ← assume_init (item s);
        l ← vec_set (slots b) idx empty_slot;
        n ← checked_sub (len b) 1;
        ne ← checked_add 64 (next_expected b) 1;
        '(b', out) ← flush_loop fuel
          (mkReorderBuffer l ne n (mask b) (max_capacity b) (dropped b));
        mret (b', x :: out)
  end.

Definition flush_ready_into b : outcome (ReorderBuffer A * list A) :=
  if bool_decide (len b = 0) then mret (b, [])
  else flush_loop (S (Z.to_nat (len b))) b.

(** Drop the older item of slot [idx], counting it. *)
Definition evict b (idx : Z) : outcome (ReorderBuffer A) :=
  s ← vec_get (slots b) idx;
  _ ← assume_init (item s);
  d ← checked_add 64 (dropped b) 1;
  n ← checked_sub (len b) 1;
  mret (mkReorderBuffer (slots b) (next_expected b) n (mask b) (max_capacity b) d).

(** The [if self.slots[idx].tag != UNOCCUPIED { ... }] block of
    [insert_into]: a sequence number that is already pending fails the
    [debug_assert!] (what follows it is the release build's path: the older
    item is dropped), an alias grows the array and is dropped only when growing
    did not free its slot.  Returns the index to write at. *)
Definition make_room b (seq idx : Z) : outcome (ReorderBuffer A * Z) :=
  let t := wrapping_add 64 seq 1 in
  s ← vec_get (slots b) idx;
  if bool_decide (tag s = UNOCCUPIED) then mret (b, idx)
  else
    '(b1, idx1) ←
      (if bool_decide (tag s = t) then
         _ ← guard_panic false;
         mret (b, idx)
       else
         '(b', freed) ← grow_for seq b;
         mret (b', if freed : bool then Z.land seq (mask b') else idx));
    s1 ← vec_get (slots b1) idx1;
    if bool_decide (tag s1 = UNOCCUPIED) then mret (b1, idx1)
    else
      b2 ← evict b1 idx1;
      mret (b2, idx1).

Definition insert_into b (seq : Z) (x : A) : outcome (ReorderBuffer A * list A) :=
  if bool_decide (seq = next_expected b ∧ len b = 0) then
    ne ← checked_add 64 (next_expected b) 1;
    mret (mkReorderBuffer (slots b) ne (len b) (mask b) (max_capacity b) (dropped b), [x])
  else
    let b1 := ensure_slots b in
    let t := wrapping_add 64 seq 1 in
    '(b2, idx) ← make_room b1 seq (Z.land seq (mask b1));
    l ← vec_set (slots b2) idx (mkSlot t (Some x));
    n ← checked_add 64 (len b2) 1;
    flush_ready_into
      (mkReorderBuffer l (next_expected b2) n (mask b2) (max_capacity b2) (dropped b2)).

(** [insert]: the convenience wrapper returning the run as a [Vec]. *)
Definition insert (b : ReorderBuffer A) (seq : Z) (x : A) :
    outcome (ReorderBuffer A * list A) :=
  '(b', ready) ← insert_into b seq x;
  mret (b', [] ++ ready).

(** The compaction loop of [flush_remaining]: [slots.swap(write, read)]. *)
Definition swap {B} (l : list B) (i j : nat) : outcome (list B) :=
  x ← vec_get l (Z.of_nat i);
  y ← vec_get l (Z.of_nat j);
  mret (<[j := x]> (<[i := y]> l)).

Fixpoint compact (fuel : nat) (l : list (Slot A)) (write read : nat) :
    outcome (list (Slot A) * nat) :=
  match fuel with
  | O => mret (l, write)
  | S fuel =>
      s ← vec_get l (Z.of_nat read);
      if bool_decide (tag s ≠ UNOCCUPIED) then
        l' ← swap l write read;
        compact fuel l' (S write) (S read)
      else compact fuel l write (S read)
  end.

Definition tag_le (s1 s2 : Slot A) : Prop := tag s1 ≤ tag s2.
#[export] Instance tag_le_dec : RelDecision tag_le.
Proof. intros s1 s2. unfold tag_le. apply _. Defined.

(** Reading out a sorted prefix: [assume_init_read], then clear the tag. *)
Fixpoint read_out (l : list (Slot A)) : outcome (list A) :=
  match l with
  | [] => mret []
  | s :: l => x ← assume_init (item s); xs ← read_out l; mret (x :: xs)
  end.

Definition flush_remaining b : outcome (ReorderBuffer A * list A) :=
  '(l, write) ← compact (length (slots b)) (slots b) 0 0;
  let sorted := merge_sort tag_le (take write l) in
  out ← read_out sorted;
  let l' := ((λ _, empty_slot) <$> sorted) ++ drop write l in
  mret (mkReorderBuffer l' (next_expected b) 0 (mask b) (max_capacity b) (dropped b), out).

Definition is_empty b : bool := bool_decide (len b = 0).
Definition capacity b : Z := mask b + 1.

(** Clear every occupied slot ([assume_init_drop] on its item). *)
Fixpoint drop_slots (l : list (Slot A)) : outcome (list (Slot A)) :=
  match l with
  | [] => mret []
  | s :: l =>
      s' ← (if bool_decide (tag s ≠ UNOCCUPIED)
            then _ ← assume_init (item s); mret (mkSlot UNOCCUPIED None)
            else mret s);
      l' ← drop_slots l;
      mret (s' :: l')
  end.

Definition reset b : outcome (ReorderBuffer A) :=
  l ← drop_slots (slots b);
  mret (mkReorderBuffer l 0 0 (mask b) (max_capacity b) 0).

(** ** Specification *)

(** Sequence numbers the buffer is meant for: the two topmost [u64] values are
    out of reach of a counter that starts at 0. *)
Definition seq_ok (s : Z) : Prop := 0 ≤ s < 2 ^ 64 - 2.

(** What a flush from [n] on must do to the pending map [m]: emit the maximal
    run of items at [n], [n+1], ... in order and keep everything else. *)
Record Flushed m (n : Z) (out : list A) (m' : gmap Z A) : Prop := {
  fl_run : ∀ i : nat, (i < length out)%nat → m !! (n + Z.of_nat i) = out !! i;
  fl_max : m !! (n + Z.of_nat (length out)) = None;
  fl_rest : ∀ s, m' !! s =
    if bool_decide (n ≤ s < n + Z.of_nat (length out)) then None else m !! s;
}.

(** The slot array [l] of capacity [c] holds exactly the items of [m], each at
    its sequence number modulo [c]. *)
Record SlotsRep (l : list (Slot A)) (c : Z) m : Prop := {
  sr_len : Z.of_nat (length l) = c;
  sr_in : ∀ s x, m !! s = Some x → l !! Z.to_nat (s mod c) = Some (mkSlot (s + 1) (Some x));
  sr_out : ∀ i sl, l !! i = Some sl →
    sl = empty_slot ∨
    ∃ s x, m !! s = Some x ∧ i = Z.to_nat (s mod c) ∧ sl = mkSlot (s + 1) (Some x);
  sr_ok : ∀ s x, m !! s = Some x → seq_ok s;
}.

Record Rep b m : Prop := {
  rep_cap : pow2 (mask b + 1);
  rep_max : pow2 (max_capacity b);
  rep_le : mask b + 1 ≤ max_capacity b ≤ 2 ^ 63;
  rep_slots : (slots b = [] ∧ m = ∅) ∨ SlotsRep (slots b) (mask b + 1) m;
  rep_len : len b = Z.of_nat (size m);
  rep_next : 0 ≤ next_expected b < 2 ^ 64 - 1;
}.

(** ** The slot array *)

Lemma land_cap c s : pow2 c → Z.land s (c - 1) = s mod c.
Proof. apply land_mask. Qed.

Lemma idx_land b s : pow2 (mask b + 1) → Z.land s (mask b) = s mod (mask b + 1).
Proof. intros H. rewrite <- land_mask by done. f_equal. lia. Qed.

Lemma seq_tag s : seq_ok s → wrapping_add 64 s 1 = s + 1.
Proof. intros [??]. apply wrap_small. split; lia. Qed.

Lemma seq_untag s : seq_ok s → wrapping_sub 64 (s + 1) 1 = s.
Proof.
  intros [??]. unfold wrapping_sub. rewrite wrap_small by (split; lia). lia.
Qed.

Lemma slot_at l c m s :
  0 < c → SlotsRep l c m →
  ∃ sl, vec_get l (s mod c) = Ret sl ∧ l !! Z.to_nat (s mod c) = Some sl ∧
    ((sl = empty_slot ∧ ∀ s' x', m !! s' = Some x' → s' mod c ≠ s mod c) ∨
     ∃ s' x', m !! s' = Some x' ∧ s' mod c = s mod c ∧ sl = mkSlot (s' + 1) (Some x')).
Proof.
  intros Hc HR. pose proof (Z.mod_pos_bound s c Hc) as Hb.
  destruct (vec_get_total l (s mod c)) as (sl & Hget & Hl).
  { by rewrite (sr_len _ _ _ HR). }
  exists sl. split_and!; [done..|].
  destruct (sr_out _ _ _ HR _ _ Hl) as [->|(s' & x' & Hm & Hi & ->)].
  - left. split; [done|]. intros s' x' Hm Hmod.
    pose proof (sr_in _ _ _ HR _ _ Hm) as Hin. rewrite Hmod, Hl in Hin.
    pose proof (sr_ok _ _ _ HR _ _ Hm) as [??].
    unfold empty_slot, UNOCCUPIED in Hin. injection Hin. lia.
  - right. exists s', x'. split_and!; [done| |done].
    pose proof (Z.mod_pos_bound s' c Hc). lia.
Qed.

Lemma sr_key_inj l c m s1 s2 x1 x2 :
  SlotsRep l c m → m !! s1 = Some x1 → m !! s2 = Some x2 →
  s1 mod c = s2 mod c → s1 = s2.
Proof.
  intros HR H1 H2 Hmod.
  pose proof (sr_in _ _ _ HR _ _ H1) as E1. pose proof (sr_in _ _ _ HR _ _ H2) as E2.
  rewrite Hmod, E2 in E1. injection E1. lia.
Qed.

Lemma sr_empty c : 0 < c → SlotsRep (replicate (Z.to_nat c) empty_slot) c ∅.
Proof.
  intros Hc. split.
  - rewrite length_replicate. lia.
  - intros s x. by rewrite lookup_empty.
  - intros i sl [-> _]%lookup_replicate. by left.
  - intros s x. by rewrite lookup_empty.
Qed.

Lemma sr_insert l c m s x :
  0 < c → SlotsRep l c m → seq_ok s →
  (∀ s' x', m !! s' = Some x' → s' mod c ≠ s mod c) →
  SlotsRep (<[Z.to_nat (s mod c) := mkSlot (s + 1) (Some x)]> l) c (<[s := x]> m).
Proof.
  intros Hc HR Hok Hfree. pose proof (Z.mod_pos_bound s c Hc) as Hb.
  assert (Z.to_nat (s mod c) < length l)%nat as Hlt by (rewrite <- (sr_len _ _ _ HR) in Hb at 3; lia).
  split.
  - rewrite length_insert. apply HR.
  - intros s' x' [[<- <-]|[Hne Hm]]%lookup_insert_Some; [by apply list_lookup_insert_eq|].
    rewrite list_lookup_insert_ne; [by apply HR|].
    pose proof (Hfree _ _ Hm). pose proof (Z.mod_pos_bound s' c Hc). lia.
  - intros i sl [(<- & <- & _)|[Hne Hl]]%list_lookup_insert_Some.
    + right. exists s, x. split_and!; [|done..]. by rewrite lookup_insert_eq.
    + destruct (sr_out _ _ _ HR _ _ Hl) as [->|(s' & x' & Hm & -> & ->)]; [by left|].
      right. exists s', x'. split_and!; [|done..].
      rewrite lookup_insert_ne; [done|]. intros <-. done.
  - intros s' x' [[<- <-]|[Hne Hm]]%lookup_insert_Some; [done|by eapply HR].
Qed.

Lemma sr_delete l c m s x :
  0 < c → SlotsRep l c m → m !! s = Some x →
  SlotsRep (<[Z.to_nat (s mod c) := empty_slot]> l) c (delete s m).
Proof.
  intros Hc HR Hs. split.
  - rewrite length_insert. apply HR.
  - intros s' x' [Hne Hm]%lookup_delete_Some.
    rewrite list_lookup_insert_ne; [by apply HR|].
    intros E. apply Hne. eapply sr_key_inj; [done..|].
    pose proof (Z.mod_pos_bound s c Hc). pose proof (Z.mod_pos_bound s' c Hc). lia.
  - intros i sl [(<- & <- & _)|[Hne Hl]]%list_lookup_insert_Some; [by left|].
    destruct (sr_out _ _ _ HR _ _ Hl) as [->|(s' & x' & Hm & -> & ->)]; [by left|].
    right. exists s', x'. split_and!; [|done..].
    rewrite lookup_delete_ne; [done|]. intros <-. done.
  - intros s' x' [_ Hm]%lookup_delete_Some. by eapply HR.
Qed.

(** The occupied slots of an array, as (sequence number, item) pairs. *)
Definition contents (l : list (Slot A)) : list (Z * A) :=
  omap (λ sl, (λ x, (tag sl - 1, x)) <$> item sl) l.

Lemma contents_length l : (length (contents l) <= length l)%nat.
Proof. induction l as [|[t [x|]] l IH]; simpl; unfold contents in *; simpl; lia. Qed.

Lemma elem_of_contents l s x :
  (s, x) ∈ contents l ↔ mkSlot (s + 1) (Some x) ∈ l.
Proof.
  unfold contents. rewrite list_elem_of_omap. split.
  - intros ([t [y|]] & Hin & Heq); simplify_eq/=. by replace (t - 1 + 1) with t by lia.
  - intros Hin. eexists. split; [done|]. simpl. do 2 f_equal. lia.
Qed.

(** Slots placed at increasing indices hold sequence numbers with distinct
    residues. *)
Lemma contents_residues l c k :
  (∀ i sl, l !! i = Some sl →
     item sl = None ∨ ((tag sl - 1) mod c = k + Z.of_nat i)) →
  NoDup ((λ p, p.1 mod c) <$> contents l) ∧
  ∀ p, p ∈ contents l → k ≤ p.1 mod c.
Proof.
  revert k. induction l as [|sl l IH]; intros k Hl; [split; [constructor|intros p []%not_elem_of_nil]|].
  destruct (IH (k + 1)) as [Hnd Hge].
  { intros i sl' Hi. destruct (Hl (S i) sl' Hi) as [?|?]; [by left|right; lia]. }
  pose proof (Hl O sl eq_refl) as H0.
  destruct sl as [t [x|]]; unfold contents in *; simpl in *; [|split; [done|]].
  - destruct H0 as [?|H0]; [done|]. split.
    + constructor; [|done]. rewrite list_elem_of_fmap. intros (p & E & Hp).
      apply Hge in Hp. simpl in E. lia.
    + intros p [->|Hp]%elem_of_cons; [simpl; lia|]. apply Hge in Hp. lia.
  - intros p Hp. apply Hge in Hp. lia.
Qed.

Lemma sr_residues l c m :
  0 < c → SlotsRep l c m → NoDup ((λ p, p.1 mod c) <$> contents l).
Proof.
  intros Hc HR. apply (contents_residues l c 0). intros i sl Hi.
  destruct (sr_out _ _ _ HR _ _ Hi) as [->|(s & x & Hm & -> & ->)]; [by left|right].
  simpl. pose proof (Z.mod_pos_bound s c Hc). replace (s + 1 - 1) with s by lia. lia.
Qed.

Lemma sr_contents l c m : 0 < c → SlotsRep l c m → contents l ≡ₚ map_to_list m.
Proof.
  intros Hc HR. apply NoDup_Permutation.
  - eapply NoDup_fmap_1, sr_residues; done.
  - apply NoDup_map_to_list.
  - intros [s x]. rewrite elem_of_contents, elem_of_map_to_list. split.
    + intros [i Hi]%list_elem_of_lookup.
      destruct (sr_out _ _ _ HR _ _ Hi) as [[=]|(s' & x' & Hm & _ & [= E ->])].
      by replace s with s' by lia.
    + intros Hm. apply list_elem_of_lookup. eexists. by apply HR.
Qed.

Lemma sr_size l c m : 0 < c → SlotsRep l c m → Z.of_nat (size m) ≤ c.
Proof.
  intros Hc HR. pose proof (contents_length l) as Hlen.
  rewrite (Permutation_length (sr_contents _ _ _ Hc HR)), length_map_to_list in Hlen.
  pose proof (sr_len _ _ _ HR). lia.
Qed.

Lemma sr_to_map l c m : 0 < c → SlotsRep l c m → list_to_map (contents l) = m.
Proof.
  intros Hc HR. rewrite <- (list_to_map_to_list m). apply list_to_map_proper.
  - eapply (NoDup_fmap_1 (λ k, k mod c)). rewrite <- list_fmap_compose.
    by eapply sr_residues.
  - by eapply sr_contents.
Qed.

(** Re-placing slots whose residues modulo the new capacity are distinct. *)
Lemma rehash_spec old c acc macc :
  pow2 c → SlotsRep acc c macc →
  (∀ sl, sl ∈ old → sl = empty_slot ∨ ∃ s x, sl = mkSlot (s + 1) (Some x) ∧ seq_ok s) →
  NoDup ((λ p, p.1 mod c) <$> contents old) →
  (∀ s x s' x', (s, x) ∈ contents old → macc !! s' = Some x' → s' mod c ≠ s mod c) →
  ∃ l, rehash old c acc = Ret l ∧ SlotsRep l c (list_to_map (contents old) ∪ macc).
Proof.
  intros Hc. pose proof (pow2_pos _ Hc) as Hpos. revert acc macc.
  induction old as [|sl old IH]; intros acc macc HR Hold Hnd Hdis.
  { exists acc. split; [done|]. simpl. by rewrite (left_id_L ∅ (∪)). }
  assert (∀ sl', sl' ∈ old → sl' = empty_slot ∨ ∃ s x, sl' = mkSlot (s + 1) (Some x) ∧ seq_ok s)
    as Hold' by (intros; apply Hold; by right).
  destruct (Hold sl) as [->|(s & x & -> & Hok)]; [by left| |]; cbn [rehash tag].
  { rewrite bool_decide_eq_false_2 by (unfold UNOCCUPIED; naive_solver). by apply IH. }
  rewrite bool_decide_eq_true_2 by (destruct Hok; unfold UNOCCUPIED; lia).
  rewrite seq_untag, land_mask by done. pose proof (Z.mod_pos_bound s c Hpos).
  rewrite vec_set_ret by (rewrite (sr_len _ _ _ HR); lia). rewrite mbind_ret.
  assert (contents (mkSlot (s + 1) (Some x) :: old) = (s, x) :: contents old) as Econt.
  { unfold contents. simpl. do 2 f_equal. lia. }
  rewrite Econt in Hnd, Hdis |- *. rewrite fmap_cons, NoDup_cons in Hnd. destruct Hnd as [Hs Hnd].
  destruct (IH _ _ (sr_insert _ _ _ s x Hpos HR Hok (λ s' x' H, Hdis s x s' x' ltac:(by left) H))
              Hold' Hnd) as (l & Hl & HRl).
  { intros s1 x1 s' x' H1 [[<- <-]|[Hne Hm]]%lookup_insert_Some.
    - intros E. apply Hs. rewrite list_elem_of_fmap. exists (s1, x1). done.
    - apply (Hdis s1 x1 s' x'); [by right|done]. }
  exists l. split; [done|]. simpl list_to_map.
  rewrite <- insert_union_l, insert_union_r; [done|].
  apply not_elem_of_list_to_map_1. rewrite list_elem_of_fmap. intros ([s1 x1] & -> & Hin).
  apply Hs. rewrite list_elem_of_fmap. by exists (s1, x1).
Qed.

(** ** Growth *)

(** [double] loses nothing: the doubled buffer holds the same items. *)
Lemma double_spec b m :
  Rep b m → slots b ≠ [] → mask b + 1 < max_capacity b →
  ∃ b', double b = Ret b' ∧ Rep b' m ∧ slots b' ≠ [] ∧
    mask b' + 1 = (mask b + 1) * 2 ∧ next_expected b' = next_expected b ∧
    max_capacity b' = max_capacity b ∧ dropped b' = dropped b ∧ len b' = len b.
Proof.
  intros HR Hne Hlt. destruct HR as [Hcap Hmax Hle Hsl Hlen Hnext].
  destruct Hsl as [[? _]|Hsl]; [done|].
  pose proof (pow2_pos _ Hcap) as Hpos.
  pose proof (pow2_lt_double _ _ Hcap Hmax Hlt) as Hdbl.
  unfold double. rewrite checked_mul_ret by lia. rewrite mbind_ret.
  pose proof (pow2_double _ Hcap) as Hcap2.
  edestruct (rehash_spec (slots b) ((mask b + 1) * 2)) as (l & Hl & HRl).
  - done.
  - apply sr_empty. lia.
  - intros sl [i Hi]%list_elem_of_lookup.
    destruct (sr_out _ _ _ Hsl _ _ Hi) as [->|(s & x & Hm & _ & ->)]; [by left|right].
    exists s, x. split; [done|]. by eapply Hsl.
  - pose proof (sr_residues _ _ _ Hpos Hsl) as Hnd.
    apply (NoDup_fmap_1 (λ r, r mod (mask b + 1))). rewrite <- list_fmap_compose.
    erewrite list_fmap_ext; [exact Hnd|]. intros i p _. simpl.
    apply mod_mod_pow2; [done..|lia].
  - intros s x s' x' _. by rewrite lookup_empty.
  - rewrite Hl, mbind_ret. eexists. split; [reflexivity|].
    rewrite (right_id_L ∅ (∪)), (sr_to_map _ _ _ Hpos Hsl) in HRl.
    split_and!; simpl; try done; try lia.
    + split; simpl; try done; try lia.
      * by replace ((mask b + 1) * 2 - 1 + 1) with ((mask b + 1) * 2) by lia.
      * right. by replace ((mask b + 1) * 2 - 1 + 1) with ((mask b + 1) * 2) by lia.
    + intros ->. pose proof (sr_len _ _ _ HRl) as E. simpl in E. lia.
Qed.

(** The part of the state no growth step touches. *)
Definition same_meta b b' : Prop :=
  next_expected b' = next_expected b ∧ max_capacity b' = max_capacity b ∧
  dropped b' = dropped b ∧ len b' = len b.

(** Growth keeps every item; it reports a free slot for [seq], or has reached
    the ceiling with an alias of [seq] still pending. *)
Lemma grow_loop_spec fuel seq b m :
  Rep b m → slots b ≠ [] →
  (0 < fuel)%nat → max_capacity b ≤ (mask b + 1) * 2 ^ (Z.of_nat fuel - 1) →
  ∃ b' freed, grow_loop fuel seq b = Ret (b', freed) ∧ Rep b' m ∧ slots b' ≠ [] ∧
    same_meta b b' ∧ (mask b + 1 = max_capacity b → b' = b) ∧
    if freed : bool
    then ∀ s' x', m !! s' = Some x' → s' mod (mask b' + 1) ≠ seq mod (mask b' + 1)
    else mask b' + 1 = max_capacity b' ∧
         ∃ s' x', m !! s' = Some x' ∧ s' mod max_capacity b = seq mod max_capacity b.
Proof.
  revert b. induction fuel as [|fuel IH]; intros b HR Hne Hf Hfuel; [lia|].
  pose proof (rep_le _ _ HR) as Hle. cbn [grow_loop].
  case_bool_decide as Hmax.
  - rewrite idx_land by apply HR.
    destruct (rep_slots _ _ HR) as [[? _]|Hsl]; [done|].
    destruct (slot_at _ _ _ seq (pow2_pos _ (rep_cap _ _ HR)) Hsl) as (sl & Hget & _ & Hcase).
    rewrite Hget, mbind_ret. eexists b, _. split; [reflexivity|].
    split_and!; [done|done|by repeat split|done|].
    destruct Hcase as [[-> Hfree]|(s' & x' & Hm & Hmod & ->)]; simpl.
    + done.
    + rewrite bool_decide_eq_false_2
        by (pose proof (sr_ok _ _ _ Hsl _ _ Hm) as [??]; unfold UNOCCUPIED; lia).
      split; [lia|]. exists s', x'. replace (max_capacity b) with (mask b + 1) by lia. done.
  - destruct (double_spec b m HR Hne ltac:(lia)) as
      (b1 & Hd & HR1 & Hne1 & Hm1 & Hn1 & Hx1 & Hdr1 & Hl1).
    rewrite Hd, mbind_ret, idx_land by apply HR1.
    destruct (rep_slots _ _ HR1) as [[? _]|Hsl]; [done|].
    destruct (slot_at _ _ _ seq (pow2_pos _ (rep_cap _ _ HR1)) Hsl) as (sl & Hget & _ & Hcase).
    rewrite Hget, mbind_ret. destruct Hcase as [[-> Hfree]|(s' & x' & Hm & Hmod & ->)]; simpl.
    + exists b1, true. split_and!; try done. intros; lia.
    + rewrite bool_decide_eq_false_2
        by (pose proof (sr_ok _ _ _ Hsl _ _ Hm) as [??]; unfold UNOCCUPIED; lia).
      destruct fuel as [|fuel]; [simpl in Hfuel; lia|].
      destruct (IH b1 HR1 Hne1) as (b2 & fr & -> & HR2 & Hne2 & (E1 & E2 & E3 & E4) & _ & Hres).
      { lia. }
      { rewrite Hx1, Hm1. replace (Z.of_nat (S (S fuel)) - 1) with (1 + (Z.of_nat (S fuel) - 1)) in Hfuel by lia.
        rewrite Z.pow_add_r in Hfuel by lia. lia. }
      exists b2, fr. split_and!; try done.
      * repeat split; congruence.
      * intros; lia.
      * rewrite <- Hx1. done.
Qed.

Lemma grow_for_spec seq b m :
  Rep b m → slots b ≠ [] →
  ∃ b' freed, grow_for seq b = Ret (b', freed) ∧ Rep b' m ∧ slots b' ≠ [] ∧
    same_meta b b' ∧ (mask b + 1 = max_capacity b → b' = b) ∧
    if freed : bool
    then ∀ s' x', m !! s' = Some x' → s' mod (mask b' + 1) ≠ seq mod (mask b' + 1)
    else mask b' + 1 = max_capacity b' ∧
         ∃ s' x', m !! s' = Some x' ∧ s' mod max_capacity b = seq mod max_capacity b.
Proof.
  intros HR Hne. apply grow_loop_spec; [done..|lia|].
  pose proof (pow2_pos _ (rep_cap _ _ HR)). destruct (rep_max _ _ HR) as (k & Hk & E).
  rewrite E, Z.log2_pow2 by lia. rewrite Nat2Z.inj_succ, Z2Nat.id by lia.
  replace (Z.succ k - 1) with k by lia. nia.
Qed.

(** ** Flushing *)

Lemma Flushed_nil m n : m !! n = None → Flushed m n [] m.
Proof.
  intros Hn. split; cbn [length].
  - intros i Hi. lia.
  - rewrite Z.add_0_r. done.
  - intros s. rewrite bool_decide_eq_false_2 by lia. done.
Qed.

Lemma Flushed_cons m n x out m' :
  m !! n = Some x → Flushed (delete n m) (n + 1) out m' → Flushed m n (x :: out) m'.
Proof.
  intros Hn [Hrun Hmax Hrest]. split.
  - intros [|i] Hi; cbn [length lookup list_lookup] in *; [by replace (n + Z.of_nat 0) with n by lia|].
    rewrite <- Hrun by lia. rewrite lookup_delete_ne by lia. f_equal. lia.
  - rewrite lookup_delete_ne in Hmax by lia. rewrite <- Hmax. f_equal. simpl. lia.
  - intros s. rewrite Hrest. simpl length. destruct (decide (s = n)) as [->|Hne].
    + rewrite lookup_delete_eq, bool_decide_eq_false_2, bool_decide_eq_true_2 by lia. done.
    + rewrite lookup_delete_ne by done.
      erewrite bool_decide_ext; [done|]. lia.
Qed.

Lemma flush_loop_spec fuel b m :
  Rep b m → slots b ≠ [] → (size m < fuel)%nat →
  ∃ b' out m', flush_loop fuel b = Ret (b', out) ∧ Flushed m (next_expected b) out m' ∧
    Rep b' m' ∧ next_expected b' = next_expected b + Z.of_nat (length out) ∧
    max_capacity b' = max_capacity b ∧ mask b' = mask b ∧ dropped b' = dropped b.
Proof.
  revert b m. induction fuel as [|fuel IH]; intros b m HR Hne Hf; [lia|]. cbn [flush_loop].
  pose proof HR as [Hcap Hmax Hle Hsl Hlen Hnext]. destruct Hsl as [[? _]|Hsl]; [done|].
  rewrite idx_land by done. pose proof (pow2_pos _ Hcap) as Hpos.
  assert (wrapping_add 64 (next_expected b) 1 = next_expected b + 1) as Ht
    by (apply wrap_small; split; lia).
  destruct (slot_at _ _ _ (next_expected b) Hpos Hsl) as (sl & Hget & Hlk & Hcase).
  rewrite Hget, mbind_ret, Ht.
  case_bool_decide as Htag.
  - exists b, [], m. split_and!; simpl; try done; [|lia]. apply Flushed_nil.
    destruct (m !! next_expected b) as [x|] eqn:Hx; [|done].
    pose proof (sr_in _ _ _ Hsl _ _ Hx) as E. rewrite Hlk in E. by simplify_eq/=.
  - destruct Hcase as [[-> _]|(s & x & Hm & Hmod & ->)]; simpl in *.
    { unfold UNOCCUPIED in Htag. lia. }
    assert (s = next_expected b) as -> by lia.
    pose proof (Z.mod_pos_bound (next_expected b) (mask b + 1) Hpos).
    assert (size (delete (next_expected b) m) = size m - 1 ∧ 0 < size m)%nat as [Hsz Hsz0].
    { rewrite map_size_delete_Some by eauto. destruct (size m) eqn:E; [|lia].
      apply map_size_empty_iff in E as ->. by rewrite lookup_empty in Hm. }
    rewrite vec_set_ret by (rewrite (sr_len _ _ _ Hsl); lia).
    rewrite mbind_ret, checked_sub_ret, mbind_ret, checked_add_ret, mbind_ret by lia.
    pose proof (sr_ok _ _ _ Hsl _ _ Hm) as [_ ?].
    edestruct (IH (mkReorderBuffer (<[Z.to_nat (next_expected b mod (mask b + 1)):=empty_slot]> (slots b))
                     (next_expected b + 1) (len b - 1) (mask b) (max_capacity b) (dropped b))
                  (delete (next_expected b) m)) as (b' & out & m' & -> & Hfl & HR' & Hn' & ?).
    + split; simpl; try done; [right; by eapply sr_delete|lia|lia].
    + simpl. intros E%(f_equal length). rewrite length_insert in E.
      pose proof (sr_len _ _ _ Hsl) as E'. rewrite E in E'. simpl in E'. lia.
    + lia.
    + exists b', (x :: out), m'. simpl in *. destruct_and!.
      split_and!; try done; [by apply Flushed_cons|lia].
Qed.

(** ** Insertion *)

(** The pending items an insert of [s] keeps: those that do not alias [s] at
    the capacity ceiling. *)
Definition survivors m (max s : Z) : gmap Z A :=
  filter (λ p, p.1 mod max ≠ s mod max) m.

(** Either the window is already at its ceiling, or nothing pending aliases
    [s] there.  Outside this condition [insert_into] reuses a slot index
    computed before the growth; see [stale_index_stall]. *)
Definition clean_growth b m (s : Z) : Prop :=
  mask b + 1 = max_capacity b ∨
  ∀ k x, m !! k = Some x → k ≠ s → k mod max_capacity b ≠ s mod max_capacity b.

Lemma survivors_fresh m max s : survivors m max s !! s = None.
Proof.
  unfold survivors. rewrite map_lookup_filter. destruct (m !! s); [|done]. simpl.
  rewrite option_guard_False; [done|]. intros H. by apply H.
Qed.

Lemma survivors_all m c max s :
  pow2 c → pow2 max → c ≤ max →
  (∀ k x, m !! k = Some x → k mod c ≠ s mod c) → survivors m max s = m.
Proof.
  intros Hc Hmax Hle Hfree. apply map_filter_id. intros k x Hk. simpl.
  intros E. apply (Hfree _ _ Hk).
  rewrite <- (mod_mod_pow2 c max k), <- (mod_mod_pow2 c max s) by done. congruence.
Qed.

Lemma survivors_delete l c m max s k x :
  pow2 c → pow2 max → c ≤ max → SlotsRep l c m →
  m !! k = Some x → k mod max = s mod max → survivors m max s = delete k m.
Proof.
  intros Hc Hmax Hle HR Hk Hmod. apply map_eq. intros j. unfold survivors.
  rewrite map_lookup_filter. destruct (decide (j = k)) as [->|Hne].
  - rewrite lookup_delete_eq, Hk. simpl. rewrite option_guard_False by naive_solver. done.
  - rewrite lookup_delete_ne by done. destruct (m !! j) as [y|] eqn:Hj; [|done]. simpl.
    rewrite option_guard_True; [done|]. simpl. intros E. apply Hne.
    eapply (sr_key_inj l c m); [done..|].
    rewrite <- (mod_mod_pow2 c max j), <- (mod_mod_pow2 c max k) by done. congruence.
Qed.

Lemma sr_replace l c m s k x y :
  0 < c → SlotsRep l c m → seq_ok s → m !! k = Some y → k mod c = s mod c →
  SlotsRep (<[Z.to_nat (s mod c) := mkSlot (s + 1) (Some x)]> l) c (<[s := x]> (delete k m)).
Proof.
  intros Hc HR Hok Hk Hmod. pose proof (sr_delete _ _ _ _ _ Hc HR Hk) as HR'.
  rewrite Hmod in HR'.
  rewrite <- (list_insert_insert_eq l (Z.to_nat (s mod c)) (mkSlot (s + 1) (Some x)) empty_slot).
  apply sr_insert; [done..|]. intros j z [Hne Hj]%lookup_delete_Some E.
  apply Hne. eapply (sr_key_inj l c m); [done..|]. congruence.
Qed.

(** What [make_room] hands to the slot write: a buffer [b2] whose slot for [s]
    may be overwritten, after which the array holds [s] and the survivors. *)
Record RoomMade b m (s : Z) (b2 : ReorderBuffer A) : Prop := {
  rm_slots : ∀ x, SlotsRep (<[Z.to_nat (s mod (mask b2 + 1)) := mkSlot (s + 1) (Some x)]> (slots b2))
                    (mask b2 + 1) (<[s := x]> (survivors m (max_capacity b) s));
  rm_cap : pow2 (mask b2 + 1);
  rm_le : mask b2 + 1 ≤ max_capacity b;
  rm_fix : mask b + 1 = max_capacity b → mask b2 = mask b;
  rm_next : next_expected b2 = next_expected b;
  rm_max : max_capacity b2 = max_capacity b;
  rm_len : len b2 = Z.of_nat (size (survivors m (max_capacity b) s));
  rm_dropped : dropped b2 = dropped b + Z.of_nat (size m - size (survivors m (max_capacity b) s));
}.

Lemma room_free b m b1 s :
  Rep b1 m → slots b1 ≠ [] → same_meta b b1 → seq_ok s →
  (mask b + 1 = max_capacity b → b1 = b) →
  (∀ k x, m !! k = Some x → k mod (mask b1 + 1) ≠ s mod (mask b1 + 1)) →
  RoomMade b m s b1.
Proof.
  intros HR Hne (En & Ex & Ed & El) Hok Hfix Hfree. pose proof HR as [Hcap Hmax Hle Hsl Hlen _].
  destruct Hsl as [[? _]|Hsl]; [done|].
  assert (survivors m (max_capacity b) s = m) as Es
    by (eapply survivors_all; [exact Hcap| |lia|done]; by rewrite <- Ex).
  split; rewrite ?Es; try done; try lia.
  - intros x. apply sr_insert; auto with words.
  - intros E. by rewrite Hfix.
Qed.

Lemma evict_spec b1 m k y :
  SlotsRep (slots b1) (mask b1 + 1) m → 0 < mask b1 + 1 → m !! k = Some y →
  0 ≤ dropped b1 < 2 ^ 64 - 1 → len b1 = Z.of_nat (size m) →
  evict b1 (k mod (mask b1 + 1)) =
    Ret (mkReorderBuffer (slots b1) (next_expected b1) (len b1 - 1) (mask b1)
           (max_capacity b1) (dropped b1 + 1)) ∧
  size (delete k m) = (size m - 1)%nat ∧ (0 < size m)%nat.
Proof.
  intros Hsl Hpos Hk Hd Hlen. pose proof (sr_in _ _ _ Hsl _ _ Hk) as Hin.
  pose proof (Z.mod_pos_bound k _ Hpos) as Hb.
  assert (0 < size m)%nat.
  { destruct (size m) eqn:E; [|lia]. apply map_size_empty_iff in E as ->.
    by rewrite lookup_empty in Hk. }
  unfold evict. rewrite (vec_get_ret _ _ _ (proj1 Hb) Hin), mbind_ret. simpl.
  rewrite checked_add_ret by lia. rewrite mbind_ret, checked_sub_ret by lia.
  split_and!; [done| |lia]. rewrite map_size_delete_Some by eauto. lia.
Qed.

Lemma room_evicted b m b1 s k y :
  Rep b1 m → slots b1 ≠ [] → same_meta b b1 → seq_ok s →
  (mask b + 1 = max_capacity b → b1 = b) → 0 ≤ dropped b < 2 ^ 64 - 1 →
  m !! k = Some y → k mod max_capacity b = s mod max_capacity b →
  ∃ b2, evict b1 (k mod (mask b1 + 1)) = Ret b2 ∧ mask b2 = mask b1 ∧ RoomMade b m s b2.
Proof.
  intros HR Hne (En & Ex & Ed & El) Hok Hfix Hdr Hk Hmod.
  pose proof HR as [Hcap Hmax Hle Hsl Hlen _]. destruct Hsl as [[? _]|Hsl]; [done|].
  pose proof (pow2_pos _ Hcap) as Hpos.
  destruct (evict_spec b1 m k y) as (-> & Hsz & ?); [done..|lia|lia|].
  eexists. split_and!; [done..|].
  assert (k mod (mask b1 + 1) = s mod (mask b1 + 1)) as Hmod1.
  { rewrite <- (mod_mod_pow2 (mask b1 + 1) (max_capacity b1) k) by (done || lia).
    rewrite <- (mod_mod_pow2 (mask b1 + 1) (max_capacity b1) s) by (done || lia). congruence. }
  assert (survivors m (max_capacity b) s = delete k m) as Es.
  { eapply survivors_delete; [exact Hcap|by rewrite <- Ex|lia|done..]. }
  split; rewrite ?Es; simpl; try done; try lia.
  - intros x. by eapply sr_replace.
  - intros E. by rewrite Hfix.
Qed.

Lemma make_room_spec b m s :
  Rep b m → slots b ≠ [] → seq_ok s → 0 ≤ dropped b < 2 ^ 64 - 1 → clean_growth b m s →
  m !! s = None →
  ∃ b2, make_room b s (s mod (mask b + 1)) = Ret (b2, s mod (mask b2 + 1)) ∧
        RoomMade b m s b2.
Proof.
  intros HR Hne Hok Hdr Hcl Hnew. pose proof HR as [Hcap Hmax Hle Hsl Hlen Hnext].
  destruct Hsl as [[? _]|Hsl]; [done|]. pose proof (pow2_pos _ Hcap) as Hpos.
  unfold make_room. rewrite seq_tag by done.
  destruct (slot_at _ _ _ s Hpos Hsl) as (sl & Hget & _ & Hcase). rewrite Hget, mbind_ret.
  destruct Hcase as [[-> Hfree]|(k & y & Hk & Hmod & ->)]; simpl.
  { exists b. split; [done|]. by apply room_free. }
  pose proof (sr_ok _ _ _ Hsl _ _ Hk) as [??].
  rewrite bool_decide_eq_false_2 by (unfold UNOCCUPIED; lia).
  case_bool_decide as Hdup.
  - (* duplicate *)
    assert (k = s) as -> by lia. congruence.
  - (* alias *)
    destruct (grow_for_spec s b m HR Hne) as
      (b1 & freed & -> & HR1 & Hne1 & Hmeta & Hfix & Hres). rewrite mbind_ret.
    pose proof (rep_slots _ _ HR1) as [[? _]|Hsl1]; [done|].
    pose proof (pow2_pos _ (rep_cap _ _ HR1)) as Hpos1.
    destruct freed.
    + rewrite mbind_ret, idx_land by apply HR1.
      destruct (slot_at _ _ _ s Hpos1 Hsl1) as (sl & Hget1 & _ & [[-> _]|(k' & y' & Hk' & Hmod' & _)]);
        [|by destruct (Hres _ _ Hk')].
      rewrite Hget1, mbind_ret. simpl. exists b1. split; [done|]. by apply room_free.
    + destruct Hres as (Hceil & k' & y' & Hk' & Hmod').
      destruct Hcl as [Hcl|Hcl].
      * rewrite Hfix in * by done. rewrite mbind_ret.
        assert (k' = k) as -> by (eapply sr_key_inj; [done..|]; congruence).
        rewrite Hget, mbind_ret. simpl. rewrite bool_decide_eq_false_2 by (unfold UNOCCUPIED; lia).
        destruct (room_evicted b m b s k y) as (b2 & Hev & Em & Hroom);
          [done..|].
        rewrite <- Hmod, Hev. exists b2. by rewrite mbind_ret, Em, Hmod.
      * exfalso. destruct (decide (k' = s)) as [->|]; [congruence|by eapply Hcl].
Qed.

(** A sequence number that is already pending fails the assertion. *)
Lemma make_room_duplicate b m s y :
  Rep b m → slots b ≠ [] → seq_ok s → m !! s = Some y →
  make_room b s (s mod (mask b + 1)) = Panic.
Proof.
  intros HR Hne Hok Hs. pose proof (pow2_pos _ (rep_cap _ _ HR)) as Hpos.
  destruct (rep_slots _ _ HR) as [[? _]|Hsl]; [done|].
  unfold make_room. rewrite seq_tag by done.
  rewrite (vec_get_ret _ _ _ (proj1 (Z.mod_pos_bound s _ Hpos)) (sr_in _ _ _ Hsl _ _ Hs)), mbind_ret.
  simpl. destruct Hok. rewrite bool_decide_eq_false_2 by (unfold UNOCCUPIED; lia).
  by rewrite bool_decide_eq_true_2 by done.
Qed.

Lemma ensure_slots_spec b m :
  Rep b m →
  Rep (ensure_slots b) m ∧ slots (ensure_slots b) ≠ [] ∧ mask (ensure_slots b) = mask b ∧
  same_meta b (ensure_slots b).
Proof.
  intros HR. pose proof HR as [Hcap Hmax Hle Hsl Hlen Hnext]. pose proof (pow2_pos _ Hcap).
  unfold ensure_slots. destruct (slots b) as [|sl l] eqn:E.
  - destruct Hsl as [[_ ->]|Hsl].
    + split_and!; [|simpl|done..].
      * split; simpl; try done. right. by apply sr_empty.
      * destruct (Z.to_nat (mask b + 1)) eqn:?; [lia|done].
    + pose proof (sr_len _ _ _ Hsl) as E'. simpl in E'. lia.
  - split_and!; [done|congruence|done..].
Qed.

Lemma Flushed_singleton s x : Flushed {[s := x]} s [x] ∅.
Proof.
  apply Flushed_cons; [by rewrite lookup_singleton_eq|].
  rewrite delete_singleton_eq. by apply Flushed_nil.
Qed.

(** Inserting a pending sequence number again panics. *)
Lemma insert_into_duplicate b m s x y :
  Rep b m → seq_ok s → m !! s = Some y → insert_into b s x = Panic.
Proof.
  intros HR Hok Hs. unfold insert_into. rewrite bool_decide_eq_false_2.
  - destruct (ensure_slots_spec b m HR) as (HR1 & Hne1 & _).
    rewrite idx_land by apply HR1. by rewrite (make_room_duplicate _ m s y).
  - intros [_ Hl]. rewrite (rep_len _ _ HR) in Hl.
    assert (m = ∅) as -> by (apply map_size_empty_iff; lia). by rewrite lookup_empty in Hs.
Qed.

Lemma insert_into_spec b m s x :
  Rep b m → seq_ok s → 0 ≤ dropped b < 2 ^ 64 - 1 → clean_growth b m s → m !! s = None →
  ∃ b' out m',
    insert_into b s x = Ret (b', out) ∧
    Flushed (<[s := x]> (survivors m (max_capacity b) s)) (next_expected b) out m' ∧
    Rep b' m' ∧
    next_expected b' = next_expected b + Z.of_nat (length out) ∧
    max_capacity b' = max_capacity b ∧
    dropped b' = dropped b + Z.of_nat (size m - size (survivors m (max_capacity b) s)) ∧
    (mask b + 1 = max_capacity b → mask b' + 1 = max_capacity b').
Proof.
  intros HR Hok Hdr Hcl Hnew. unfold insert_into. case_bool_decide as Hfast.
  - destruct Hfast as [-> Hl0]. pose proof HR as [Hcap Hmax Hle Hsl Hlen Hnext].
    assert (m = ∅) as -> by (apply map_size_empty_iff; lia).
    rewrite checked_add_ret by lia. rewrite mbind_ret.
    eexists _, [x], ∅. split; [done|]. unfold survivors. rewrite map_filter_empty, insert_empty.
    simpl. destruct Hok.
    split_and!; try done; try lia.
    + apply Flushed_singleton.
    + split; simpl; try done. lia.
  - destruct (ensure_slots_spec b m HR) as (HR1 & Hne1 & Em1 & En1 & Ex1 & Ed1 & El1).
    rewrite idx_land by apply HR1.
    destruct (make_room_spec (ensure_slots b) m s) as (b2 & -> & Hroom); try done; [lia| |].
    { unfold clean_growth. by rewrite Em1, Ex1. }
    destruct Hroom as [Hslots Hcap2 Hle2 Hfix2 Hn2 Hx2 Hl2 Hd2]. rewrite mbind_ret.
    pose proof (pow2_pos _ Hcap2) as Hpos. pose proof (Z.mod_pos_bound s _ Hpos).
    pose proof (rep_le _ _ HR). pose proof (rep_next _ _ HR). rewrite Ex1 in *.
    set (m1 := survivors m (max_capacity b) s) in *.
    assert (m1 !! s = None) as Hs1 by apply survivors_fresh.
    pose proof (sr_len _ _ _ (Hslots x)) as Hlen2. rewrite length_insert in Hlen2.
    pose proof (sr_size _ _ _ Hpos (Hslots x)) as Hsz.
    rewrite map_size_insert_None in Hsz by done.
    rewrite vec_set_ret by lia. rewrite mbind_ret, checked_add_ret by lia. rewrite mbind_ret.
    unfold flush_ready_into. cbn [len]. rewrite bool_decide_eq_false_2 by lia.
    rewrite (seq_tag s) by done.
    edestruct (flush_loop_spec (S (Z.to_nat (len b2 + 1)))) as
      (b' & out & m' & -> & Hfl & HR' & Hn' & Hx' & Hm' & Hd').
    + split; cbn; [done|rewrite Hx2; apply HR|lia|right; apply (Hslots x)| |lia].
      rewrite map_size_insert_None by done. lia.
    + cbn. intros E%(f_equal length). rewrite length_insert in E. simpl in E. lia.
    + rewrite map_size_insert_None by done. lia.
    + cbn in *. exists b', out, m'. split_and!; try done; try congruence.
      intros E. rewrite Hm', Hx', Hx2, Hfix2; lia.
Qed.

(** ** Accounting *)

(** The pending items, without their sequence numbers. *)
Definition pending m : list A := (map_to_list m).*2.

Lemma Flushed_tail m n x out m' :
  Flushed m n (x :: out) m' → m !! n = Some x ∧ Flushed (delete n m) (n + 1) out m'.
Proof.
  intros [Hrun Hmax Hrest]. cbn [length] in *. split; [|split].
  - pose proof (Hrun 0%nat ltac:(lia)) as Hn. by rewrite Z.add_0_r in Hn.
  - intros i Hi. rewrite lookup_delete_ne by lia.
    transitivity (m !! (n + Z.of_nat (S i))); [f_equal; lia|by rewrite Hrun by lia].
  - rewrite lookup_delete_ne by lia. rewrite <- Hmax. f_equal. lia.
  - intros s. rewrite Hrest. destruct (decide (s = n)) as [->|Hne].
    + rewrite lookup_delete_eq, bool_decide_eq_true_2 by lia. by case_bool_decide.
    + rewrite lookup_delete_ne by done. erewrite bool_decide_ext; [done|]. lia.
Qed.

(** A flush hands out some of the pending items and keeps the others. *)
Lemma Flushed_pending m n out m' : Flushed m n out m' → out ++ pending m' ≡ₚ pending m.
Proof.
  revert m n. induction out as [|x out IH]; intros m n Hfl.
  - simpl. assert (m' = m) as ->; [|done]. apply map_eq. intros s.
    rewrite (fl_rest _ _ _ _ Hfl). by rewrite bool_decide_eq_false_2 by (simpl; lia).
  - apply Flushed_tail in Hfl as [Hn Hfl]. simpl. rewrite (IH _ _ Hfl). unfold pending.
    by rewrite <- (map_to_list_delete m n x Hn).
Qed.

Lemma survivors_size m max s : (size (survivors m max s) <= size m)%nat.
Proof. apply map_subseteq_size, map_filter_subseteq. Qed.

Lemma pending_length m : length (pending m) = size m.
Proof. unfold pending. by rewrite length_fmap, length_map_to_list. Qed.

(** Emitted, buffered and dropped items are the items there were, insert by
    insert. *)
Lemma insert_accounting m max s x n out m' :
  Flushed (<[s := x]> (survivors m max s)) n out m' →
  ∃ lost, out ++ pending m' ++ lost ≡ₚ x :: pending m ∧
    length lost = (size m - size (survivors m max s))%nat.
Proof.
  intros Hfl%Flushed_pending.
  destruct (submseteq_Permutation (pending (survivors m max s)) (pending m)) as [lost Hlost].
  { apply fmap_submseteq, map_to_list_submseteq, map_filter_subseteq. }
  exists lost. split.
  - rewrite (assoc_L (++)), Hfl, Hlost. unfold pending at 1.
    by rewrite map_to_list_insert by apply survivors_fresh.
  - apply Permutation_length in Hlost. rewrite length_app, !pending_length in Hlost. lia.
Qed.

(** ** Closing the window *)

Lemma insert_exchange {B} (l : list B) i x y :
  l !! i = Some y → x :: l ≡ₚ y :: <[i := x]> l.
Proof.
  revert i. induction l as [|z l IH]; intros [|i] Hi; simplify_eq/=; [constructor|].
  etrans; [apply perm_swap|]. etrans; [|apply perm_swap]. constructor. by apply IH.
Qed.

Lemma swap_spec {B} (l : list B) i j x y :
  l !! i = Some x → l !! j = Some y →
  swap l i j = Ret (<[j := x]> (<[i := y]> l)) ∧ <[j := x]> (<[i := y]> l) ≡ₚ l.
Proof.
  intros Hi Hj. split.
  - unfold swap. rewrite (vec_get_ret l (Z.of_nat i) x), mbind_ret by (rewrite ?Nat2Z.id; done || lia).
    by rewrite (vec_get_ret l (Z.of_nat j) y), mbind_ret by (rewrite ?Nat2Z.id; done || lia).
  - symmetry. apply (Permutation_cons_inv (a := y)).
    rewrite (insert_exchange l i y x Hi). apply insert_exchange.
    destruct (decide (i = j)) as [->|Hne]; [|by rewrite list_lookup_insert_ne].
    apply list_lookup_insert_eq. by eapply lookup_lt_Some.
Qed.

(** The compaction partitions the array: occupied slots first. *)
Lemma compact_spec fuel l w r :
  (w <= r)%nat → (r + fuel = length l)%nat →
  (∀ i sl, l !! i = Some sl → (i < w)%nat → tag sl ≠ UNOCCUPIED) →
  (∀ i sl, l !! i = Some sl → (w <= i < r)%nat → tag sl = UNOCCUPIED) →
  ∃ l' w', compact fuel l w r = Ret (l', w') ∧ l' ≡ₚ l ∧
    Forall (λ sl, tag sl ≠ UNOCCUPIED) (take w' l') ∧
    Forall (λ sl, tag sl = UNOCCUPIED) (drop w' l').
Proof.
  revert l w r. induction fuel as [|fuel IH]; intros l w r Hwr Hlen Hocc Hun; cbn [compact].
  - exists l, w. split_and!; [done..| |]; apply Forall_lookup; intros i sl.
    + intros [Hi ?]%lookup_take_Some. by eapply Hocc.
    + rewrite lookup_drop. intros Hi. pose proof (lookup_lt_Some _ _ _ Hi). eapply Hun; [done|lia].
  - destruct (lookup_lt_is_Some_2 l r) as [sl Hsl]; [lia|].
    rewrite (vec_get_ret l (Z.of_nat r) sl), mbind_ret by (rewrite ?Nat2Z.id; done || lia).
    case_bool_decide as Htag.
    + destruct (lookup_lt_is_Some_2 l w) as [sw Hsw]; [lia|].
      destruct (swap_spec l w r sw sl Hsw Hsl) as [-> Hperm]. rewrite mbind_ret.
      destruct (IH (<[r := sw]> (<[w := sl]> l)) (S w) (S r)) as (l' & w' & -> & Hp & Ho & Hu).
      * lia.
      * rewrite !length_insert. lia.
      * intros i s [(<- & <- & _)|[Hne Hi]]%list_lookup_insert_Some Hlt.
        { assert (w = r) as -> by lia. congruence. }
        apply list_lookup_insert_Some in Hi as [(<- & <- & _)|[Hne' Hi]]; [done|].
        eapply Hocc; [done|lia].
      * intros i s [(<- & <- & _)|[Hne Hi]]%list_lookup_insert_Some Hb.
        { eapply Hun; [exact Hsw|lia]. }
        apply list_lookup_insert_Some in Hi as [(<- & <- & _)|[Hne' Hi]]; [lia|].
        eapply Hun; [done|lia].
      * exists l', w'. split_and!; try done. by rewrite Hp.
    + destruct (IH l w (S r)) as (l' & w' & -> & Hp & Ho & Hu); [lia..|done| |].
      * intros i s Hi Hb. destruct (decide (i = r)) as [->|]; [|eapply Hun; [done|lia]].
        rewrite Hsl in Hi. simplify_eq. destruct (decide (tag s = UNOCCUPIED)); [done|].
        by destruct Htag.
      * exists l', w'. done.
Qed.

#[local] Instance tag_le_trans : Transitive tag_le.
Proof. intros ???. unfold tag_le. lia. Qed.
#[local] Instance tag_le_total : Total tag_le.
Proof. intros ??. unfold tag_le. lia. Qed.

Definition key_le (p q : Z * A) : Prop := p.1 ≤ q.1.

Lemma read_out_spec l :
  Forall (λ sl, is_Some (item sl)) l → read_out l = Ret (contents l).*2.
Proof.
  induction 1 as [|[t [x|]] l [y Hy] HF IH]; [done| |done].
  cbn [read_out item assume_init]. rewrite mbind_ret, IH. done.
Qed.

Lemma contents_sorted l :
  Forall (λ sl, is_Some (item sl)) l → StronglySorted tag_le l →
  StronglySorted key_le (contents l).
Proof.
  induction 2 as [|[t [x|]] l HS IH Hall]; [constructor| |].
  - apply Forall_cons in H as [_ H]. unfold contents in *. simpl.
    constructor; [by apply IH|]. apply Forall_forall. intros [k y] Hin.
    apply list_elem_of_omap in Hin as ([t' [z|]] & Hin & E); simplify_eq/=.
    rewrite Forall_forall in Hall. apply Hall in Hin. unfold tag_le, key_le in *. simpl in *. lia.
  - apply Forall_cons in H as [[? [=]] _].
Qed.

Lemma contents_app l1 l2 : contents (l1 ++ l2) = contents l1 ++ contents l2.
Proof. apply omap_app. Qed.

Lemma contents_empty l : Forall (λ sl, sl = empty_slot) l → contents l = [].
Proof. induction 1 as [|? l -> HF IH]; [done|]. exact IH. Qed.

#[local] Instance contents_perm : Proper ((≡ₚ) ==> (≡ₚ)) contents.
Proof. intros l1 l2 H. by apply omap_Permutation. Qed.

(** Every slot of a represented array is empty or holds an item. *)
Lemma sr_slot_cases l c m sl :
  SlotsRep l c m → sl ∈ l →
  (tag sl = UNOCCUPIED → sl = empty_slot) ∧ (tag sl ≠ UNOCCUPIED → is_Some (item sl)).
Proof.
  intros HR [i Hi]%list_elem_of_lookup.
  destruct (sr_out _ _ _ HR _ _ Hi) as [->|(s & x & Hm & _ & ->)]; [done|].
  pose proof (sr_ok _ _ _ HR _ _ Hm) as [??]. unfold UNOCCUPIED. simpl.
  split; [lia|eauto].
Qed.

Lemma flush_remaining_spec b m :
  Rep b m →
  ∃ b' kvs, flush_remaining b = Ret (b', kvs.*2) ∧
    kvs ≡ₚ map_to_list m ∧ StronglySorted key_le kvs ∧
    Rep b' ∅ ∧ next_expected b' = next_expected b ∧ dropped b' = dropped b.
Proof.
  intros HR. pose proof HR as [Hcap Hmax Hle Hsl Hlen Hnext]. unfold flush_remaining.
  destruct Hsl as [[E ->]|Hsl].
  { rewrite E. eexists _, []. split_and!; [reflexivity|by rewrite map_to_list_empty|constructor| |done..].
    split; simpl; try done. by left. }
  destruct (compact_spec (length (slots b)) (slots b) 0 0) as (l & w & -> & Hp & Ho & Hu);
    [lia..|]. rewrite mbind_ret.
  set (srt := merge_sort tag_le (take w l)).
  assert (srt ≡ₚ take w l) as Hps by apply merge_sort_Permutation.
  assert (∀ sl, sl ∈ l → sl ∈ slots b) as Hin by (intros sl; by rewrite Hp).
  assert (Forall (λ sl, is_Some (item sl)) srt) as Hsome.
  { rewrite Hps. rewrite Forall_forall in Ho |- *. intros sl Hs.
    eapply (sr_slot_cases (slots b)); [done| |by apply Ho]. apply Hin. rewrite <- (take_drop w l), elem_of_app. by left. }
  assert (Forall (λ sl, sl = empty_slot) (drop w l)) as Hemp.
  { rewrite Forall_forall in Hu |- *. intros sl Hs.
    eapply (sr_slot_cases (slots b)); [done| |by apply Hu]. apply Hin. rewrite <- (take_drop w l), elem_of_app. by right. }
  rewrite (read_out_spec _ Hsome), mbind_ret.
  eexists _, (contents srt). split_and!; [reflexivity|..]; simpl; try done.
  - rewrite Hps, <- (sr_contents _ _ _ (pow2_pos _ Hcap) Hsl), <- Hp.
    rewrite <- (take_drop w l) at 2. by rewrite contents_app, (contents_empty (drop w l)), app_nil_r.
  - apply contents_sorted; [done|]. apply StronglySorted_merge_sort; apply _.
  - split; simpl; try done. right. split.
    + rewrite length_app, length_fmap, Hps, <- length_app, take_drop, Hp. apply Hsl.
    + intros s x. by rewrite lookup_empty.
    + intros i sl Hi. left. apply lookup_app_Some in Hi as [Hi|[_ Hi]].
      * apply list_lookup_fmap_Some in Hi as (? & -> & _). done.
      * rewrite Forall_forall in Hemp. eapply Hemp, list_elem_of_lookup_2, Hi.
    + intros s x. by rewrite lookup_empty.
Qed.

(** [reset] forgets everything but the capacities. *)
Lemma drop_slots_spec l c m :
  SlotsRep l c m → ∃ l', drop_slots l = Ret l' ∧ l' = replicate (length l) empty_slot.
Proof.
  intros HR. assert (∀ sl, sl ∈ l → (tag sl = UNOCCUPIED → sl = empty_slot) ∧
                                  (tag sl ≠ UNOCCUPIED → is_Some (item sl))) as Hc
    by (intros sl; by eapply sr_slot_cases).
  clear HR. induction l as [|sl l IH]; [eauto|].
  destruct (Hc sl) as [He Hs]; [by left|].
  destruct IH as (l' & Hl' & ->); [intros; apply Hc; by right|].
  cbn [drop_slots]. case_bool_decide as Ht.
  - destruct (Hs Ht) as [x Hx]. rewrite Hx. simpl. rewrite Hl'. eauto.
  - rewrite (He ltac:(by destruct (decide (tag sl = UNOCCUPIED)); [|destruct Ht])).
    simpl. rewrite Hl'. eauto.
Qed.

Lemma reset_spec b m :
  Rep b m → ∃ b', reset b = Ret b' ∧ Rep b' ∅ ∧ next_expected b' = 0 ∧ dropped b' = 0 ∧
    mask b' = mask b ∧ max_capacity b' = max_capacity b.
Proof.
  intros HR. pose proof HR as [Hcap Hmax Hle Hsl Hlen Hnext]. unfold reset.
  destruct Hsl as [[-> ->]|Hsl].
  { eexists. split_and!; [reflexivity| |done..]. split; simpl; try done. by left. }
  destruct (drop_slots_spec _ _ _ Hsl) as (l' & -> & ->). rewrite mbind_ret.
  eexists. split_and!; [reflexivity| |done..]. split; simpl; try done.
  right. pose proof (sr_empty (mask b + 1) (pow2_pos _ Hcap)) as He.
  rewrite <- (sr_len _ _ _ Hsl), Nat2Z.id in He at 1. done.
Qed.

(** ** Histories *)

(** A run of inserts, collecting what the sink receives. *)
Fixpoint insert_all b (l : list (Z * A)) : outcome (ReorderBuffer A * list A) :=
  match l with
  | [] => mret (b, [])
  | (s, x) :: l =>
      '(b1, out1) ← insert_into b s x;
      '(b2, out2) ← insert_all b1 l;
      mret (b2, out1 ++ out2)
  end.

Lemma insert_all_app b l1 l2 :
  insert_all b (l1 ++ l2) =
    ('(b1, out1) ← insert_all b l1; '(b2, out2) ← insert_all b1 l2; mret (b2, out1 ++ out2)).
Proof.
  revert b. induction l1 as [|[s x] l1 IH]; intros b; simpl.
  { destruct (insert_all b l2) as [[b2 out2]| | |]; done. }
  destruct (insert_into b s x) as [[b1 out1]| | |]; simpl; try done.
  rewrite IH. destruct (insert_all b1 l1) as [[b2 out2]| | |]; simpl; try done.
  destruct (insert_all b2 l2) as [[b3 out3]| | |]; simpl; try done. by rewrite (assoc_L (++)).
Qed.

Lemma with_max_Rep init max :
  init ≤ 2 ^ 63 → max ≤ 2 ^ 63 →
  Rep (with_max init max) ∅ ∧ max ≤ max_capacity (with_max init max) ∧
  dropped (with_max init max) = 0 ∧ next_expected (with_max init max) = 0.
Proof.
  intros Hi Hm.
  destruct (next_power_of_two_spec 64 (Z.max init 1)) as (Hp1 & Hge1 & Hb1); [lia..|].
  destruct (next_power_of_two_spec 64 (Z.max max 1)) as (Hp2 & Hge2 & Hb2); [lia..|].
  unfold with_max, with_max_inner. cbn [max_capacity dropped next_expected].
  split_and!; [|lia|done..]. split; simpl; try done.
  - by replace (_ - 1 + 1) with (next_power_of_two 64 (Z.max init 1)) by lia.
  - destruct (Z.max_spec (next_power_of_two 64 (Z.max max 1)) (next_power_of_two 64 (Z.max init 1)))
      as [[_ ->]|[_ ->]]; done.
  - change (2 ^ (64 - 1)) with (2 ^ 63) in *. lia.
  - by left.
Qed.

Lemma new_Rep cap :
  cap ≤ 2 ^ 63 →
  Rep (new cap) ∅ ∧ mask (new cap) + 1 = max_capacity (new cap) ∧ dropped (new cap) = 0.
Proof.
  intros Hc. destruct (next_power_of_two_spec 64 (Z.max cap 1)) as (Hp & Hge & Hb); [lia..|].
  unfold new, with_max_inner. cbn [max_capacity dropped mask]. split_and!; [|lia|done].
  split; simpl; try done.
  - by replace (_ - 1 + 1) with (next_power_of_two 64 (Z.max cap 1)) by lia.
  - change (2 ^ (64 - 1)) with (2 ^ 63) in *. lia.
  - by left.
Qed.

(** An insert at the ceiling evicts at most one item. *)
Lemma survivors_at_most_one b m s :
  Rep b m → mask b + 1 = max_capacity b →
  (size m - size (survivors m (max_capacity b) s) <= 1)%nat.
Proof.
  intros HR Hfix. destruct (rep_slots _ _ HR) as [[_ ->]|Hsl].
  { rewrite map_size_empty. lia. }
  destruct (slot_at _ _ _ s (pow2_pos _ (rep_cap _ _ HR)) Hsl) as
    (sl & _ & _ & [[_ Hfree]|(k & y & Hk & Hmod & _)]).
  - rewrite (survivors_all m (mask b + 1)); [lia|apply HR..|lia|done].
  - rewrite (survivors_delete (slots b) (mask b + 1) m _ _ k y);
      [|apply HR|apply HR|lia|done|done|by rewrite <- Hfix].
    rewrite map_size_delete_Some by eauto. lia.
Qed.

(** What a flush leaves behind was pending, or is the item just inserted. *)
Lemma Flushed_insert_subset m max s x n out m' k y :
  Flushed (<[s := x]> (survivors m max s)) n out m' → m' !! k = Some y →
  k = s ∨ m !! k = Some y.
Proof.
  intros Hfl. rewrite (fl_rest _ _ _ _ Hfl). case_bool_decide; [done|].
  intros [[<- _]|[_ Hk]]%lookup_insert_Some; [by left|right].
  by apply map_lookup_filter_Some in Hk as [? _].
Qed.

Lemma fixed_accounting b m l :
  Rep b m → mask b + 1 = max_capacity b → m !! next_expected b = None →
  Forall (λ p, seq_ok p.1) l → NoDup l.*1 → (∀ s, s ∈ l.*1 → m !! s = None) →
  0 ≤ dropped b → dropped b + Z.of_nat (length l) < 2 ^ 64 - 1 →
  ∃ b' out m' lost, insert_all b l = Ret (b', out) ∧ Rep b' m' ∧
    out ++ pending m' ++ lost ≡ₚ pending m ++ l.*2 ∧
    dropped b' = dropped b + Z.of_nat (length lost) ∧
    next_expected b' = next_expected b + Z.of_nat (length out) ∧
    m' !! next_expected b' = None.
Proof.
  intros HR Hfix Hq Hl. revert b m HR Hfix Hq.
  induction Hl as [|[s x] l Hs Hl IH]; intros b m HR Hfix Hq Hnd Hfr Hd0 Hd.
  { exists b, [], m, []. split_and!; [done..|simpl; lia|simpl; lia|done]. }
  apply NoDup_cons in Hnd as [Hsl Hnd]. cbn [fmap list_fmap fst] in Hsl, Hfr.
  assert (m !! s = None) as Hsm by (apply Hfr; by left).
  destruct (insert_into_spec b m s x HR Hs) as
    (b1 & out1 & m1 & E1 & Hfl & HR1 & Hn1 & Hx1 & Hdr1 & Hfix1);
    [simpl in Hd; lia|by left|done|].
  destruct (insert_accounting _ _ _ _ _ _ _ Hfl) as (lost1 & Hp1 & Hlost1).
  pose proof (survivors_at_most_one b m s HR Hfix).
  assert (m1 !! next_expected b1 = None) as Hq1.
  { rewrite (fl_rest _ _ _ _ Hfl), Hn1, bool_decide_eq_false_2 by lia. apply Hfl. }
  destruct (IH b1 m1 HR1 (Hfix1 Hfix) Hq1 Hnd) as
    (b2 & out2 & m2 & lost2 & E2 & HR2 & Hp2 & Hd2 & Hn2 & Hq2); [|lia|simpl length in Hd; lia|].
  { intros k Hk. destruct (m1 !! k) as [y|] eqn:Hm1; [|done].
    destruct (Flushed_insert_subset _ _ _ _ _ _ _ _ _ Hfl Hm1) as [->|Hm]; [done|].
    rewrite Hfr in Hm; [done|by right]. }
  exists b2, (out1 ++ out2), m2, (lost1 ++ lost2). cbn [insert_all]. rewrite E1, mbind_ret, E2, mbind_ret.
  rewrite !length_app. split_and!; try done; [|lia|lia].
  cbn [fmap list_fmap snd]. rewrite <- Permutation_middle, (app_comm_cons (pending m)), <- Hp1.
  rewrite <- !(assoc_L (++)). rewrite (Permutation_app_comm lost1 (l.*2)), (assoc_L (++) (pending m1)), <- Hp2.
  solve_Permutation.
Qed.

(** ** Re-sequencing a permutation

    [f s] is the item of sequence number [s]; [done] are the sequence numbers
    inserted so far. *)
Record Progress (f : Z → A) (n : Z) (done : list Z) b m : Prop := {
  pg_rep : Rep b m;
  pg_dropped : dropped b = 0;
  pg_max : n ≤ max_capacity b;
  pg_next : 0 ≤ next_expected b;
  pg_quiet : m !! next_expected b = None;
  pg_pending : ∀ s x, m !! s = Some x → x = f s ∧ s ∈ done ∧ next_expected b ≤ s;
  pg_done : ∀ s, s ∈ done → s < next_expected b ∨ m !! s = Some (f s);
  pg_below : ∀ s, 0 ≤ s < next_expected b → s ∈ done;
}.

Lemma Flushed_items f m n out m' :
  Flushed m n out m' → (∀ s x, m !! s = Some x → x = f s) →
  out = f <$> seqZ n (Z.of_nat (length out)).
Proof.
  intros Hfl Hf. apply list_eq. intros i. destruct (decide (i < length out)%nat) as [Hi|Hi].
  - rewrite list_lookup_fmap, lookup_seqZ_lt by lia. simpl.
    destruct (lookup_lt_is_Some_2 out i Hi) as [x Hx]. rewrite Hx. f_equal.
    rewrite <- (fl_run _ _ _ _ Hfl i Hi) in Hx. by apply Hf in Hx.
  - rewrite !lookup_ge_None_2; [done| |lia]. rewrite length_fmap, length_seqZ. lia.
Qed.

Lemma progress_step f n done b m s :
  Progress f n done b m → 0 ≤ s < n → n ≤ 2 ^ 63 → s ∉ done →
  Forall (λ k, 0 ≤ k < n) done →
  ∃ b' m' k, insert_into b s (f s) = Ret (b', f <$> seqZ (next_expected b) k) ∧ 0 ≤ k ∧
    next_expected b' = next_expected b + k ∧ Progress f n (s :: done) b' m'.
Proof.
  intros [HR Hd Hmax Hn0 Hq Hpend Hdone Hbelow] Hs Hn Hnew Hrange.
  rewrite Forall_forall in Hrange.
  assert (survivors m (max_capacity b) s = m) as Hsurv.
  { apply map_filter_id. intros k x Hk E. simpl in E. destruct (Hpend _ _ Hk) as (_ & Hin & _).
    pose proof (Hrange _ Hin). rewrite !Z.mod_small in E by lia. by subst. }
  destruct (insert_into_spec b m s (f s) HR) as
    (b' & out & m' & E & Hfl & HR' & Hn' & Hx' & Hdr' & _).
  - split; lia.
  - lia.
  - right. intros k x Hk Hne E. destruct (Hpend _ _ Hk) as (_ & Hin & _).
    pose proof (Hrange _ Hin). rewrite !Z.mod_small in E by lia. by subst.
  - destruct (m !! s) as [x|] eqn:E; [|done]. by destruct (Hpend _ _ E) as (_ & ? & _).
  - rewrite Hsurv in *.
    assert (∀ j x, <[s := f s]> m !! j = Some x → x = f j) as Hf.
    { intros j x [[<- <-]|[_ Hj]]%lookup_insert_Some; [done|]. by apply Hpend. }
    assert (next_expected b ≤ s) as Hge.
    { destruct (decide (s < next_expected b)); [|lia]. destruct Hnew. apply Hbelow. lia. }
    pose proof (fl_rest _ _ _ _ Hfl) as Hrest.
    rewrite (Flushed_items f _ _ _ _ Hfl Hf) in E. exists b', m', (Z.of_nat (length out)).
    split_and!; [done|lia|done|]. split; try done; try lia.
    + rewrite Hrest, bool_decide_eq_false_2, Hn' by lia. apply Hfl.
    + intros j x. rewrite Hrest. case_bool_decide as Hb; [done|]. intros Hj.
      split_and!; [by apply Hf| |].
      * apply lookup_insert_Some in Hj as [[<- _]|[_ Hj]]; [by left|right]. by destruct (Hpend _ _ Hj) as (_ & ? & _).
      * apply lookup_insert_Some in Hj as [[<- _]|[_ Hj]]; [lia|].
        apply Hpend in Hj as (_ & _ & ?). lia.
    + intros j Hj. rewrite Hrest. case_bool_decide as Hb; [left; lia|].
      apply elem_of_cons in Hj as [->|Hj]; [right; apply lookup_insert_eq|].
      destruct (Hdone _ Hj) as [?|?]; [left; lia|right].
      rewrite lookup_insert_ne; [done|]. intros <-. done.
    + intros j Hj. destruct (decide (j < next_expected b)); [right; apply Hbelow; lia|].
      pose proof (fl_run _ _ _ _ Hfl (Z.to_nat (j - next_expected b)) ltac:(lia)) as Hrun.
      destruct (lookup_lt_is_Some_2 out (Z.to_nat (j - next_expected b))) as [x Hx]; [lia|].
      rewrite Hx in Hrun. replace (next_expected b + _) with j in Hrun by lia.
      apply lookup_insert_Some in Hrun as [[<- _]|[_ Hj']]; [by left|right]. by destruct (Hpend _ _ Hj') as (_ & ? & _).
Qed.

Lemma progress_run f n l done b m :
  Progress f n done b m → NoDup (l ++ done) → Forall (λ k, 0 ≤ k < n) (l ++ done) → n ≤ 2 ^ 63 →
  ∃ b' m' k done', insert_all b ((λ s, (s, f s)) <$> l) = Ret (b', f <$> seqZ (next_expected b) k) ∧
    0 ≤ k ∧ next_expected b' = next_expected b + k ∧ Progress f n done' b' m' ∧
    done' ≡ₚ l ++ done.
Proof.
  revert done b m. induction l as [|s l IH]; intros done b m Hp Hnd Hr Hn.
  { exists b, m, 0, done. split_and!; [done|lia|lia|done..]. }
  simpl in Hnd, Hr. apply NoDup_cons in Hnd as [Hs Hnd]. apply Forall_cons in Hr as [Hsr Hr].
  assert (s ∉ done) by (rewrite elem_of_app in Hs; tauto).
  destruct (progress_step f n done b m s) as (b1 & m1 & k1 & E1 & Hk1 & Hn1 & Hp1); try done.
  { by apply Forall_app in Hr as [_ ?]. }
  assert (l ++ s :: done ≡ₚ s :: l ++ done) as Hperm by (symmetry; apply Permutation_middle).
  destruct (IH (s :: done) b1 m1 Hp1) as (b2 & m2 & k2 & done' & E2 & Hk2 & Hn2 & Hp2 & Hperm2).
  - rewrite Hperm. by constructor.
  - rewrite Hperm. by constructor.
  - done.
  - exists b2, m2, (k1 + k2), done'. cbn [insert_all fmap list_fmap].
    rewrite E1, mbind_ret. fold (fmap (M:=list) (λ s, (s, f s)) l). rewrite E2, mbind_ret.
    rewrite seqZ_app, fmap_app, Hn1 by lia. split_and!; try done; [lia..|by rewrite Hperm2].
Qed.

(** Inserting every sequence number of [0, n) once, in any order, into a
    window whose ceiling is at least [n]: everything comes out, in order. *)
Lemma insert_all_permutation f n p b :
  p ≡ₚ seqZ 0 n → 0 ≤ n ≤ 2 ^ 63 → Rep b ∅ → dropped b = 0 → next_expected b = 0 →
  n ≤ max_capacity b →
  ∃ b', insert_all b ((λ s, (s, f s)) <$> p) = Ret (b', f <$> seqZ 0 n) ∧
    Rep b' ∅ ∧ dropped b' = 0 ∧ next_expected b' = n.
Proof.
  intros Hp Hn HR Hd Hn0 Hmax.
  assert (∀ k, k ∈ p ↔ 0 ≤ k < n) as Hin by (intros k; rewrite Hp, elem_of_seqZ; lia).
  destruct (progress_run f n p [] b ∅) as (b' & m' & k & done' & E & Hk & Hn' & Hpg & Hperm).
  - split; try done; try lia. intros ? []%not_elem_of_nil.
  - rewrite app_nil_r, Hp. apply NoDup_seqZ.
  - rewrite app_nil_r. apply Forall_forall. intros j. by apply Hin.
  - lia.
  - rewrite app_nil_r in Hperm. destruct Hpg as [HR' Hd' _ _ Hq Hpend Hdone Hbelow].
    assert (∀ j, j ∈ done' ↔ 0 ≤ j < n) as Hin' by (intros j; by rewrite Hperm, Hin).
    assert (next_expected b' = n) as Hend.
    { destruct (decide (next_expected b' < n)) as [Hlt|Hge].
      - destruct (Hdone (next_expected b')) as [?|?]; [apply Hin'; lia|lia|congruence].
      - destruct (decide (n < next_expected b')); [|lia].
        pose proof (Hbelow n ltac:(lia)) as Hc%Hin'. lia. }
    assert (m' = ∅) as ->.
    { apply map_empty. intros j. destruct (m' !! j) as [x|] eqn:Hj; [|done].
      destruct (Hpend _ _ Hj) as (_ & Hj'%Hin' & ?). lia. }
    exists b'. rewrite Hn0 in *. replace k with n in E by lia. done.
Qed.

End reorder.

(** ** Theorems *)

(** C15: what an insert does.  For every well-formed buffer and every
    sequence number: if the number is already pending, [insert_into] fails its
    assertion.  Otherwise it returns (no uninitialised read, no exhausted
    growth or flush loop); the sink receives, in order, the maximal contiguous
    run of pending items starting at [next_expected]; everything that does not
    alias the new sequence number at the capacity ceiling stays pending; what
    was evicted is counted in [dropped]; and the buffer is well-formed again.
    The side condition [clean_growth] excludes an insert that grows a window
    which is still below its ceiling although some pending item aliases the
    new number at that ceiling; the automatic windows never do that (their
    ceiling is at least the number of items) and neither do the pinned ones
    (they start at their ceiling), and [stale_index_stall] shows that the
    conclusion fails there. *)
Theorem reorder_insert_exact {A} (b : ReorderBuffer A) (m : gmap Z A) (s : Z) (x : A) :
  Rep b m → seq_ok s → 0 ≤ dropped b < 2 ^ 64 - 1 → clean_growth b m s →
  match m !! s with
  | Some _ => insert_into b s x = Panic
  | None => ∃ b' out m',
      insert_into b s x = Ret (b', out) ∧
      Flushed (<[s := x]> (survivors m (max_capacity b) s)) (next_expected b) out m' ∧
      Rep b' m' ∧
      next_expected b' = next_expected b + Z.of_nat (length out) ∧
      dropped b' = dropped b + Z.of_nat (size m - size (survivors m (max_capacity b) s))
  end.
Proof.
  intros HR Hs Hd Hc. destruct (m !! s) as [y|] eqn:Hm.
  { by eapply insert_into_duplicate. }
  destruct (insert_into_spec b m s x HR Hs Hd Hc Hm) as (b' & out & m' & ? & ? & ? & ? & _ & ? & _).
  by exists b', out, m'.
Qed.

(** A buffer of capacity 2 that holds sequence number 1 only. *)
Definition one_pending : ReorderBuffer Z :=
  mkReorderBuffer [mkSlot 0 None; mkSlot 2 (Some 10)] 0 1 1 8 0.

Definition one_map : gmap Z Z := {[1 := 10]}.

Lemma one_pending_Rep : Rep one_pending one_map.
Proof.
  unfold one_map. split; simpl; [by exists 1|by exists 3|lia| |done|lia].
  right. split; simpl; [done|..].
  - intros s x [<- <-]%lookup_singleton_Some. done.
  - intros [|[|i]] sl Hi; simplify_eq/=; [by left|right].
    exists 1, 10. split_and!; [apply lookup_singleton_eq|done..].
  - intros s x [<- <-]%lookup_singleton_Some. done.
Qed.

Lemma reorder_insert_exact_witness :
  (∃ b' out m', insert_into one_pending 5 50 = Ret (b', out) ∧
    Flushed (<[5 := 50]> (survivors one_map 8 5)) 0 out m' ∧ Rep b' m' ∧
    next_expected b' = 0 + Z.of_nat (length out) ∧
    dropped b' = 0 + Z.of_nat (size one_map - size (survivors one_map 8 5))) ∧
  insert_into one_pending 1 50 = Panic.
Proof.
  split.
  - apply (reorder_insert_exact one_pending one_map 5 50 one_pending_Rep).
    + split; vm_compute; congruence.
    + split; vm_compute; congruence.
    + right. unfold one_map. intros k x [<- <-]%lookup_singleton_Some _. vm_compute. discriminate.
  - apply (reorder_insert_exact one_pending one_map 1 50 one_pending_Rep).
    + split; vm_compute; congruence.
    + split; vm_compute; congruence.
    + right. unfold one_map. by intros k x [<- <-]%lookup_singleton_Some ?.
Defined.

(** With a pinned window ([ReorderBuffer::new]) nothing is lost silently:
    for every history of distinct sequence numbers, however far ahead, the
    items emitted, the items of the final [flush_remaining] and a list of
    [dropped] lost items are together the items inserted, and nothing is
    left. *)
Theorem reorder_fixed_window_accounting {A} (cap : Z) (l : list (Z * A)) :
  cap ≤ 2 ^ 63 → Forall (λ p, seq_ok p.1) l → NoDup l.*1 → Z.of_nat (length l) < 2 ^ 64 - 1 →
  ∃ b out b' rest lost,
    insert_all (new cap) l = Ret (b, out) ∧ flush_remaining b = Ret (b', rest) ∧
    out ++ rest ++ lost ≡ₚ l.*2 ∧ dropped b' = Z.of_nat (length lost) ∧ len b' = 0.
Proof.
  intros Hcap Hl Hnd Hlen. destruct (@new_Rep A cap Hcap) as (HR & Hfix & Hd).
  destruct (fixed_accounting (new cap) ∅ l HR Hfix) as
    (b & out & m & lost & E & HRb & Hp & Hdb & _); [done|done|done|done|by rewrite Hd|lia|].
  destruct (flush_remaining_spec b m HRb) as (b' & kvs & E' & Hkvs & _ & HR' & _ & Hd').
  exists b, out, b', kvs.*2, lost. split_and!; [done|done| |lia|by rewrite (rep_len _ _ HR')].
  unfold pending in Hp. by rewrite Hkvs.
Qed.

(** The unit test [test_alias_drop_is_counted] of the source. *)
Lemma reorder_fixed_window_accounting_witness :
  ∃ b out b' rest lost,
    insert_all (new 2) [(0, 10); (3, 30); (1, 20)] = Ret (b, out) ∧
    flush_remaining b = Ret (b', rest) ∧
    out ++ rest ++ lost ≡ₚ [10; 30; 20] ∧ dropped b' = Z.of_nat (length lost) ∧ len b' = 0.
Proof.
  apply (reorder_fixed_window_accounting 2 [(0, 10); (3, 30); (1, 20)]).
  - lia.
  - repeat constructor; vm_compute; congruence.
  - cbn. repeat constructor; set_solver.
  - reflexivity.
Defined.

(** [flush_remaining] hands out every pending item exactly once, in
    increasing order of sequence number, and leaves an empty well-formed
    buffer with its counters untouched. *)
Theorem reorder_flush_remaining_sorted {A} (b : ReorderBuffer A) (m : gmap Z A) :
  Rep b m →
  ∃ b' kvs, flush_remaining b = Ret (b', kvs.*2) ∧
    kvs ≡ₚ map_to_list m ∧ StronglySorted key_le kvs ∧
    Rep b' ∅ ∧ next_expected b' = next_expected b ∧ dropped b' = dropped b.
Proof. apply flush_remaining_spec. Qed.

Lemma reorder_flush_remaining_sorted_witness :
  ∃ b' kvs, flush_remaining one_pending = Ret (b', kvs.*2) ∧
    kvs ≡ₚ map_to_list one_map ∧ StronglySorted key_le kvs ∧
    Rep b' ∅ ∧ next_expected b' = 0 ∧ dropped b' = 0.
Proof. apply (reorder_flush_remaining_sorted one_pending one_map one_pending_Rep). Defined.

(** A ceiling reached while growing. The slot index computed before the
    growth is reused for the write, so the item of sequence number 11 lands in
    a slot no flush looks at.  After 0..9 were delivered, inserting 19, 11 and
    10 into [with_max 2 8] delivers 10 only: 11 is buffered and in sequence,
    yet the stream stalls at 11 with nothing dropped. *)
Example stale_index_stall :
  ∃ b, insert_all (with_max 2 8) ((λ s, (s, s)) <$> [0;1;2;3;4;5;6;7;8;9;19;11;10])
         = Ret (b, [0;1;2;3;4;5;6;7;8;9;10]) ∧
       next_expected b = 11 ∧ dropped b = 0 ∧
       slots b !! 1%nat = Some (mkSlot 12 (Some 11)).
Proof. eexists. split; [vm_compute; reflexivity|]. done. Qed.
