(* ===== verification/Fence.v ===== *)
(** * Fence: the chunked accumulator between two streaming stages

    Model of [FenceMode] and [FenceBarrier] in
    [crates/youpipe/src/state/fence.rs].  A [Vec] carries its capacity, because
    [reuse] compares capacities; how much a [Vec] over-allocates when it grows
    is not specified by its documentation, so the growth policy [grow] is a
    parameter of the model and no theorem assumes anything about it. *)

From S2P Require Import Prelude.

(** A [Vec<T>]: contents and capacity. *)
Record Vec (A : Type) : Type := mkVec { vdata : list A; vcap : nat }.
Arguments mkVec {A}.
Arguments vdata {A} v.
Arguments vcap {A} v.

Inductive FenceMode : Type :=
  | Barrier
  | Chunked (k : nat).

(** [NonZeroUsize]: the chunk size is positive. *)
Definition mode_ok (mode : FenceMode) : Prop :=
  match mode with Barrier => True | Chunked k => 0 < k end.

Definition chunk_size_of (mode : FenceMode) : option nat :=
  match mode with
  | Barrier => None
  | Chunked k => Some k
  end.

Record FenceBarrier (A : Type) : Type := mkFence {
  chunk_size : option nat;
  buffer : Vec A;
  spare : option (Vec A);
}.
Arguments mkFence {A}.
Arguments chunk_size {A} f.
Arguments buffer {A} f.
Arguments spare {A} f.

Section fence.
Context {A : Type} (grow : nat → nat).
Implicit Types (f : FenceBarrier A) (v batch : Vec A).

(** ** [Vec] *)

Definition vec_new : Vec A := mkVec [] 0.
Definition vec_reserve v (n : nat) : Vec A :=
  let need := length (vdata v) + n in
  if bool_decide (need ≤ vcap v) then v else mkVec (vdata v) (need `max` grow (vcap v)).
Definition vec_push v (x : A) : Vec A :=
  let v := vec_reserve v 1 in mkVec (vdata v ++ [x]) (vcap v).
Definition vec_append v (other : Vec A) : Vec A * Vec A :=
  let v := vec_reserve v (length (vdata other)) in
  (mkVec (vdata v ++ vdata other) (vcap v), mkVec [] (vcap other)).

(** ** Operations *)

Definition fence_new (mode : FenceMode) : FenceBarrier A :=
  mkFence (chunk_size_of mode) vec_new None.

Definition fence_with_capacity (mode : FenceMode) (capacity : nat) : FenceBarrier A :=
  mkFence (chunk_size_of mode) (mkVec [] capacity) None.

Definition should_flush f : bool :=
  match chunk_size f with
  | Some cs => bool_decide (cs ≤ length (vdata (buffer f)))
  | None => false
  end.

Definition push f (x : A) : FenceBarrier A * option (Vec A) :=
  let f := mkFence (chunk_size f) (vec_push (buffer f) x) (spare f) in
  if should_flush f then
    match spare f with
    | Some s => (mkFence (chunk_size f) s None, Some (buffer f))
    | None => (mkFence (chunk_size f) vec_new None, Some (buffer f))
    end
  else (f, None).

Definition reuse f batch : FenceBarrier A :=
  let '(f, batch) :=
    match vdata batch with
    | [] => (f, batch)
    | _ :: _ =>
        let '(buf, batch') := vec_append (buffer f) batch in
        (mkFence (chunk_size f) buf (spare f), batch')
    end in
  match spare f with
  | None => mkFence (chunk_size f) (buffer f) (Some batch)
  | Some s =>
      if bool_decide (vcap s < vcap batch) then mkFence (chunk_size f) (buffer f) (Some batch)
      else f
  end.

Definition flush f : FenceBarrier A * option (Vec A) :=
  match vdata (buffer f) with
  | [] => (f, None)
  | _ :: _ => (mkFence (chunk_size f) vec_new (spare f), Some (buffer f))
  end.

(** ** Histories *)

Inductive fence_op : Type :=
  | OPush (x : A)
  | OReuse (batch : Vec A)
  | OFlush.

Definition fence_step f (op : fence_op) : FenceBarrier A * option (Vec A) :=
  match op with
  | OPush x => push f x
  | OReuse batch => (reuse f batch, None)
  | OFlush => flush f
  end.

Fixpoint fence_run f (ops : list fence_op) : FenceBarrier A * list (Vec A) :=
  match ops with
  | [] => (f, [])
  | op :: ops =>
      let '(f1, o) := fence_step f op in
      let '(f2, outs) := fence_run f1 ops in
      (f2, option_list o ++ outs)
  end.

(** What an operation feeds into the fence. *)
Definition op_input (op : fence_op) : list A :=
  match op with
  | OPush x => [x]
  | OReuse batch => vdata batch
  | OFlush => []
  end.

(** The recycled allocation never holds items. *)
Definition fence_wf f : Prop :=
  match spare f with Some s => vdata s = [] | None => True end.

Lemma vdata_reserve v n : vdata (vec_reserve v n) = vdata v.
Proof. unfold vec_reserve. by case_bool_decide. Qed.

Lemma vdata_push v x : vdata (vec_push v x) = vdata v ++ [x].
Proof. unfold vec_push. simpl. by rewrite vdata_reserve. Qed.

(** One operation: nothing lost, nothing invented, order kept. *)
Lemma fence_step_conserves f op f' o :
  fence_wf f → fence_step f op = (f', o) →
  fence_wf f' ∧ chunk_size f' = chunk_size f ∧
  vdata (buffer f) ++ op_input op = concat (vdata <$> option_list o) ++ vdata (buffer f').
Proof.
  intros Hwf. destruct op as [x|batch|]; simpl.
  - unfold push. cbn [spare chunk_size buffer]. case_match; [|intros; simplify_eq/=].
    + unfold fence_wf in Hwf. destruct (spare f) as [s|]; intros; simplify_eq;
        (split_and!; [done..|]); simpl; rewrite vdata_reserve, ?Hwf, !app_nil_r; done.
    + split_and!; [done..|]. simpl. by rewrite vdata_reserve.
  - intros; simplify_eq. unfold reuse, fence_wf in *.
    destruct (vdata batch) as [|y l] eqn:E; simpl.
    + destruct (spare f) as [s|] eqn:Es; simpl; rewrite ?app_nil_r; [|done].
      case_bool_decide; simpl; rewrite ?Es; done.
    + destruct (spare f) as [s|] eqn:Es; simpl; rewrite ?E, ?vdata_reserve;
        [|done]. case_bool_decide; simpl; done.
  - unfold flush. destruct (vdata (buffer f)) as [|y l] eqn:E; intros; simplify_eq/=.
    + by rewrite E.
    + by rewrite E, !app_nil_r.
Qed.

Lemma fence_run_conserves f ops f' outs :
  fence_wf f → fence_run f ops = (f', outs) →
  fence_wf f' ∧
  vdata (buffer f) ++ concat (op_input <$> ops) = concat (vdata <$> outs) ++ vdata (buffer f').
Proof.
  revert f outs. induction ops as [|op ops IH]; intros f outs Hwf; simpl.
  { intros. simplify_eq/=. by rewrite app_nil_r. }
  destruct (fence_step f op) as [f1 o] eqn:E1. destruct (fence_run f1 ops) as [f2 outs2] eqn:E2.
  intros. simplify_eq. destruct (fence_step_conserves f op f1 o Hwf E1) as (Hwf1 & _ & H1).
  destruct (IH f1 outs2 Hwf1 E2) as [Hwf2 H2]. split; [done|].
  rewrite fmap_app, concat_app, <- (assoc_L (++)), <- H2, !(assoc_L (++)). by rewrite H1.
Qed.

(** Chunk sizes: with drained batches only, and no explicit flush, batches are
    full chunks and fewer than a chunk stay behind. *)
Definition drained (op : fence_op) : Prop :=
  match op with OPush _ => True | OReuse batch => vdata batch = [] | OFlush => False end.

Lemma fence_step_chunks f op k f' o :
  fence_wf f → chunk_size f = Some k → 0 < k → length (vdata (buffer f)) < k → drained op →
  fence_step f op = (f', o) →
  length (vdata (buffer f')) < k ∧ Forall (λ v, length (vdata v) = k) (option_list o).
Proof.
  intros Hwf Hk Hpos Hlt Hop. destruct op as [x|batch|]; simpl in *; [| |done].
  - unfold push, should_flush, fence_wf in *. cbn [chunk_size buffer spare]. rewrite Hk.
    rewrite vdata_push, length_app. simpl. case_bool_decide as Hc.
    + assert (length (vdata (buffer f)) + 1 = k) as Hlen by lia.
      destruct (spare f) as [s|]; intros; simplify_eq/=; rewrite ?Hwf; simpl;
        (split; [lia|repeat constructor]); simpl; by rewrite vdata_reserve, length_app.
    + intros; simplify_eq/=. rewrite vdata_reserve, length_app. simpl. split; [lia|constructor].
  - intros; simplify_eq. split; [|constructor]. unfold reuse. rewrite Hop.
    destruct (spare f); simpl; [case_bool_decide|]; done.
Qed.

Lemma fence_run_chunks f ops k f' outs :
  fence_wf f → chunk_size f = Some k → 0 < k → length (vdata (buffer f)) < k →
  Forall drained ops → fence_run f ops = (f', outs) →
  length (vdata (buffer f')) < k ∧ Forall (λ v, length (vdata v) = k) outs.
Proof.
  intros Hwf Hk Hpos Hlt Hd. revert f Hwf Hk Hlt outs.
  induction Hd as [|op ops Hop Hd IH]; intros f Hwf Hk Hlt outs; simpl.
  { intros. by simplify_eq/=. }
  destruct (fence_step f op) as [f1 o] eqn:E1. destruct (fence_run f1 ops) as [f2 outs2] eqn:E2.
  intros. simplify_eq. destruct (fence_step_conserves f op f1 o Hwf E1) as (Hwf1 & Hk1 & _).
  destruct (fence_step_chunks f op k f1 o) as [Hlt1 HF1]; try done.
  destruct (IH f1 Hwf1 ltac:(congruence) Hlt1 outs2 E2) as [Hlt2 HF2].
  split; [done|]. by apply Forall_app.
Qed.

Lemma barrier_holds f ops f' outs :
  fence_wf f → chunk_size f = None → Forall drained ops → fence_run f ops = (f', outs) →
  outs = [].
Proof.
  intros Hwf Hk Hd. revert f Hwf Hk outs. induction Hd as [|op ops Hop Hd IH]; intros f Hwf Hk outs; simpl.
  { intros. by simplify_eq/=. }
  destruct (fence_step f op) as [f1 o] eqn:E1. destruct (fence_run f1 ops) as [f2 outs2] eqn:E2.
  intros. simplify_eq. destruct (fence_step_conserves f op f1 o Hwf E1) as (Hwf1 & Hk1 & _).
  rewrite (IH f1 Hwf1 ltac:(congruence) outs2 E2), app_nil_r.
  destruct op as [x|batch|]; simpl in *; [|by simplify_eq|done].
  unfold push, should_flush in E1. simpl in E1. rewrite Hk in E1. by simplify_eq.
Qed.

(** ** The forwarder's steady state: push, and hand a drained batch back *)

Definition forward f (x : A) : FenceBarrier A * option (list A) :=
  match push f x with
  | (f', None) => (f', None)
  | (f', Some batch) => (reuse f' (mkVec [] (vcap batch)), Some (vdata batch))
  end.

Definition steady (k : nat) f : Prop :=
  chunk_size f = Some k ∧ length (vdata (buffer f)) < k ∧ k ≤ vcap (buffer f) ∧
  ∃ s, spare f = Some s ∧ vdata s = [] ∧ k ≤ vcap s.

Lemma forward_steady k f x f' o :
  steady k f → forward f x = (f', o) →
  steady k f' ∧ vec_reserve (buffer f) 1 = buffer f ∧
  o = (if bool_decide (length (vdata (buffer f)) + 1 = k) then Some (vdata (buffer f) ++ [x]) else None).
Proof.
  intros (Hk & Hlt & Hcap & s & Hs & Hsd & Hsc).
  assert (vec_reserve (buffer f) 1 = buffer f) as Hres
    by (unfold vec_reserve; by rewrite bool_decide_eq_true_2 by lia).
  unfold forward, push, should_flush. cbn [chunk_size buffer spare].
  rewrite Hk, vdata_push, length_app, Hs. simpl. case_bool_decide as Hc.
  - rewrite bool_decide_eq_true_2 by lia. intros [= <- <-]. rewrite Hres. cbn.
    split_and!; [|done..]. unfold steady. cbn. rewrite Hsd. simpl.
    split_and!; [done|lia|done|]. eexists. split_and!; [done..|]. simpl. lia.
  - rewrite bool_decide_eq_false_2 by lia. intros [= <- <-]. split_and!; try done.
    unfold steady. cbn. rewrite vdata_reserve, Hres, length_app. simpl.
    split_and!; [done|lia|lia|eauto].
Qed.

End fence.

Arguments fence_op : clear implicits.

(** ** Theorems *)

(** A fence loses nothing, duplicates nothing and keeps the order: after
    any sequence of [push], [reuse] (drained or, by misuse, still full) and
    [flush], the released batches followed by the items still buffered are
    exactly the items fed in, in the order they were fed. *)
Theorem fence_conservation {A} (grow : nat → nat) (mode : FenceMode) (cap : nat)
    (ops : list (fence_op A)) f' outs :
  fence_run grow (fence_with_capacity mode cap) ops = (f', outs) →
  concat (op_input <$> ops) = concat (vdata <$> outs) ++ vdata (buffer f').
Proof. intros E. by eapply (fence_run_conserves grow (fence_with_capacity mode cap)) in E as [_ E]. Qed.

Lemma fence_conservation_witness :
  concat (op_input <$> [OPush 1; OPush 2; OReuse (mkVec [1;2] 4); OPush 5])
  = concat (vdata <$> (fence_run S (fence_with_capacity (Chunked 2) 0)
      [OPush 1; OPush 2; OReuse (mkVec [1;2] 4); OPush 5]).2)
    ++ vdata (buffer (fence_run S (fence_with_capacity (Chunked 2) 0)
      [OPush 1; OPush 2; OReuse (mkVec [1;2] 4); OPush 5]).1).
Proof.
  apply (fence_conservation S (Chunked 2) 0 [OPush 1; OPush 2; OReuse (mkVec [1;2] 4); OPush 5]).
  vm_compute. reflexivity.
Defined.

(** In [Chunked(k)] mode every batch [push] releases holds exactly [k]
    items and fewer than [k] items stay behind; in [Barrier] mode nothing is
    released before an explicit [flush]. *)
Theorem fence_releases_full_chunks {A} (grow : nat → nat) (mode : FenceMode)
    (ops : list (fence_op A)) f' outs :
  mode_ok mode → Forall drained ops → fence_run grow (fence_new mode) ops = (f', outs) →
  match mode with
  | Barrier => outs = []
  | Chunked k => length (vdata (buffer f')) < k ∧ Forall (λ v, length (vdata v) = k) outs
  end.
Proof.
  intros Hmode Hd E. destruct mode as [|k].
  - by eapply (barrier_holds grow (fence_new Barrier)).
  - eapply (fence_run_chunks grow (fence_new (Chunked k))); done.
Qed.

Lemma fence_releases_full_chunks_witness :
  length (vdata (buffer (fence_run S (fence_new (Chunked 3)) [OPush 1; OPush 2; OPush 3; OPush 4]).1)) < 3 ∧
  Forall (λ v, length (vdata v) = 3)
    (fence_run S (fence_new (Chunked 3)) [OPush 1; OPush 2; OPush 3; OPush 4]).2.
Proof.
  apply (fence_releases_full_chunks S (Chunked 3) [OPush 1; OPush 2; OPush 3; OPush 4]).
  - simpl. lia.
  - repeat constructor.
  - vm_compute. reflexivity.
Defined.

(** Once the buffer and the recycled spare both hold a chunk's capacity, a
    forwarder that drains each batch and hands the [Vec] back never allocates
    again: every push finds room, every k-th push releases the full batch, and
    the steady state is re-established. *)
Theorem fence_steady_state_no_alloc {A} (grow : nat → nat) (k : nat) (f : FenceBarrier A) x f' o :
  steady k f → forward grow f x = (f', o) →
  steady k f' ∧ vec_reserve grow (buffer f) 1 = buffer f ∧
  o = (if bool_decide (length (vdata (buffer f)) + 1 = k)
       then Some (vdata (buffer f) ++ [x]) else None).
Proof. apply forward_steady. Qed.

Definition steady_example : FenceBarrier Z := mkFence (Some 2) (mkVec [7%Z] 2) (Some (mkVec [] 3)).

Lemma fence_steady_state_no_alloc_witness :
  steady 2 (forward S steady_example 8%Z).1 ∧
  vec_reserve S (buffer steady_example) 1 = buffer steady_example ∧
  (forward S steady_example 8%Z).2 = Some [7%Z; 8%Z].
Proof.
  apply (fence_steady_state_no_alloc S 2 steady_example 8%Z).
  - split_and!; simpl; [done|lia|lia|]. eexists. split_and!; [done..|]. simpl. lia.
  - vm_compute. reflexivity.
Defined.
