(* ===== verification/Channel.v ===== *)
(** * Channel: the endpoints of the handoff layer

    Model of the shared parts of [crates/youpipe/src/handoff/channel.rs]: the
    receiver trait [RecvItem], the sender trait [SendItem] with its provided
    methods ([try_send_batch], [send_batch]), the staging of a batch through
    [MaybeUninit] slots ([stage_batch]) and the non-blocking claim
    ([claim_poll]).

    The two traits are interfaces: a class holds the operations and a second
    class the laws a client relies on.  A receiver hands out one fixed sequence
    of arrivals, in order, and reports [Closed] only once it is exhausted; when
    and how often a poll finds the ring momentarily empty is left to it.  A
    sender appends to the log of its edge; it refuses an item only when the
    edge is closed, and a closed edge stays closed.  How many free slots a
    batch finds, and when a receiver goes away, are left to the channel. *)

From S2P Require Import Prelude.

(** ** Cancellation *)

(** A token is observed at a worker's checks only: [Some k] is a token that the
    [k]-th check from now on finds fired, [None] one that no check finds
    fired. *)
Definition token : Type := option nat.

(** [cancel_active]: the answer of one check. *)
Definition cancel_active (c : token) : bool * token :=
  match c with
  | Some 0 => (true, Some 0)
  | Some (S k) => (false, Some k)
  | None => (false, None)
  end.

Definition fired (c : token) : Prop := c = Some 0.

Lemma cancel_fired c c1 : cancel_active c = (true, c1) → fired c1.
Proof. destruct c as [[|k]|]; intros; by simplify_eq/=. Qed.

Lemma cancel_none c b c1 : cancel_active c = (b, c1) → c = None → c1 = None.
Proof. destruct c as [[|k]|]; intros; by simplify_eq/=. Qed.

(** ** Receivers *)

(** [Result<T, TryRecvError>]. *)
Inductive try_recv_result (T : Type) : Type :=
  | Got (x : T)
  | Empty
  | Closed.
Arguments Got {T} x.
Arguments Empty {T}.
Arguments Closed {T}.

Class RecvItem (C T : Type) : Type := {
  try_recv : C → C * try_recv_result T;
  recv : C → C * option T;
  try_recv_batch : C → nat → C * list T;
  is_disconnected : C → bool;
}.

(** [arrivals c l]: [l] is what the receiver in state [c] will still hand out. *)
Class RecvLaws (C T : Type) `{RecvItem C T} (arrivals : C → list T → Prop) : Prop := {
  try_recv_got c l c' x : arrivals c l → try_recv c = (c', Got x) →
    ∃ l', l = x :: l' ∧ arrivals c' l';
  try_recv_empty c l c' : arrivals c l → try_recv c = (c', Empty) → arrivals c' l;
  try_recv_closed c l c' : arrivals c l → try_recv c = (c', Closed) → l = [];
  recv_some c l c' x : arrivals c l → recv c = (c', Some x) →
    ∃ l', l = x :: l' ∧ arrivals c' l';
  recv_none c l c' : arrivals c l → recv c = (c', None) → l = [];
  try_recv_batch_prefix c l cap c' xs : arrivals c l → try_recv_batch c cap = (c', xs) →
    (length xs <= cap)%nat ∧ ∃ l', l = xs ++ l' ∧ arrivals c' l';
}.

(** *** One non-blocking claim *)

Inductive Claim : Type :=
  | Ready (n : nat)
  | ClaimEmpty
  | ClaimClosed.

#[export] Instance Claim_eq_dec : EqDecision Claim.
Proof. solve_decision. Defined.

Section claim.
Context {C T : Type} `{RecvItem C T}.

(** [claim_poll rx scratch batch_cap]; [spare] is the capacity of the (empty)
    scratch vector.  Returns the receiver, the scratch and the verdict. *)
Definition claim_poll (c : C) (scratch : list T) (spare batch_cap : nat) :
    outcome (C * list T * Claim) :=
  _ ← guard_panic (bool_decide (length scratch = 0));
  let single (c : C) : outcome (C * list T * Claim) :=
    match try_recv c with
    | (c', Got x) => mret (c', [x], Ready 1)
    | (c', Empty) => mret (c', scratch, ClaimEmpty)
    | (c', Closed) => mret (c', scratch, ClaimClosed)
    end in
  if bool_decide (0 < batch_cap) then
    let '(c1, xs) := try_recv_batch c spare in
    if bool_decide (0 < length xs) then mret (c1, xs, Ready (length xs))
    else if negb (is_disconnected c1) then mret (c1, scratch, ClaimEmpty)
    else single c1
  else single c.

(** What a claim did to a receiver that still had [l] to hand out. *)
Definition Claimed (arrivals : C → list T → Prop) (l : list T) (spare : nat)
    (c' : C) (scratch : list T) (v : Claim) : Prop :=
  match v with
  | Ready n => n = length scratch ∧ 0 < n ≤ spare `max` 1 ∧
      ∃ l', l = scratch ++ l' ∧ arrivals c' l'
  | ClaimEmpty => scratch = [] ∧ arrivals c' l
  | ClaimClosed => scratch = [] ∧ l = []
  end.

Lemma claim_poll_spec arrivals `{!RecvLaws C T arrivals} c l spare batch_cap :
  arrivals c l →
  ∃ c' scratch v, claim_poll c [] spare batch_cap = Ret (c', scratch, v) ∧
    Claimed arrivals l spare c' scratch v.
Proof.
  intros Ha. unfold claim_poll. rewrite (bool_decide_eq_true_2 (length [] = 0)) by done. cbn [guard_panic mbind outcome_mbind].
  assert (∀ c0, arrivals c0 l → ∃ c' scratch v,
    match try_recv c0 with
    | (c', Got x) => mret (c', [x], Ready 1)
    | (c', Empty) => mret (c', [], ClaimEmpty)
    | (c', Closed) => mret (c', [], ClaimClosed)
    end = Ret (c', scratch, v) ∧ Claimed arrivals l spare c' scratch v) as Hone.
  { intros c0 H0. destruct (try_recv c0) as [c' [x| |]] eqn:E; eexists _, _, _; (split; [done|]); simpl.
    - destruct (try_recv_got _ _ _ _ H0 E) as (l' & -> & ?). split_and!; [done|lia|lia|]. by exists l'.
    - split; [done|]. by eapply try_recv_empty.
    - split; [done|]. by eapply try_recv_closed. }
  case_bool_decide; [|by apply Hone].
  destruct (try_recv_batch c spare) as [c1 xs] eqn:E.
  destruct (try_recv_batch_prefix _ _ _ _ _ Ha E) as (Hle & l' & -> & Ha').
  destruct xs as [|x xs]; simpl.
  - destruct (negb _); [by eexists _, _, _|]. by apply Hone.
  - eexists _, _, _. split; [done|]. simpl in *. split_and!; [done|lia|lia|]. by exists l'.
Qed.

End claim.

(** *** A concrete receiver *)

(** A receiver driven by a schedule: [Some x] is an item in the ring, [None] a
    poll that finds the ring momentarily empty. *)
#[export] Instance sched_recv (T : Type) : RecvItem (list (option T)) T := {
  try_recv c := match c with
                | [] => ([], Closed)
                | None :: c => (c, Empty)
                | Some x :: c => (c, Got x)
                end;
  recv := fix go c := match c with
                      | [] => ([], None)
                      | None :: c => go c
                      | Some x :: c => (c, Some x)
                      end;
  try_recv_batch := fix go c cap {struct c} :=
    match cap, c with
    | S cap, Some x :: c => let '(c', xs) := go c cap in (c', x :: xs)
    | _, None :: c => (c, [])
    | _, _ => (c, [])
    end;
  is_disconnected c := bool_decide (omap id c = []);
}.

Definition sched_arrivals {T} (c : list (option T)) (l : list T) : Prop := omap id c = l.

#[export] Instance sched_laws (T : Type) : RecvLaws (list (option T)) T sched_arrivals.
Proof.
  split; unfold sched_arrivals.
  - intros [|[y|] c] l c' x <- E; simplify_eq/=; eauto.
  - intros [|[y|] c] l c' <- E; by simplify_eq/=.
  - intros [|[y|] c] l c' <- E; by simplify_eq/=.
  - intros c l c' x <-. induction c as [|[y|] c IH]; intros E; simplify_eq/=; eauto.
  - intros c l c' <-. induction c as [|[y|] c IH]; intros E; simplify_eq/=; eauto.
  - intros c l cap c' xs <-. revert cap c' xs.
    induction c as [|[y|] c IH]; intros [|cap] c' xs E; simplify_eq/=; split; simpl; try lia; eauto.
    + destruct (try_recv_batch c cap) as [c1 xs1] eqn:E1. simpl in E1. rewrite E1 in E. simplify_eq/=.
      destruct (IH _ _ _ E1). lia.
    + destruct (try_recv_batch c cap) as [c1 xs1] eqn:E1. simpl in E1. rewrite E1 in E. simplify_eq/=.
      destruct (IH _ _ _ E1) as [_ (l' & -> & ?)]. eauto.
Qed.

(** ** Senders *)

(** [Result<(), TrySendError<T>>]: the item comes back with the error. *)
Inductive try_send_result (T : Type) : Type :=
  | Sent
  | Full (x : T)
  | SendClosed (x : T).
Arguments Sent {T}.
Arguments Full {T} x.
Arguments SendClosed {T} x.

(** [W] is the state of the channels a worker sends into, [H] its sender
    handles.  [send] returns [true] for [Ok]; [send_run] is the native batch
    operation of the ring: how many of the items it took. *)
Class SendItem (W H T : Type) : Type := {
  send : W → H → T → W * bool;
  try_send : W → H → T → W * try_send_result T;
  send_run : W → H → list T → W * nat;
}.

(** What an operation on the edge [h] leaves alone: the logs of the other
    edges, and the closed edges. *)
Definition edge_frame {W H T} (log : W → H → list T) (closed : W → H → Prop) (h : H) (w w' : W) : Prop :=
  (∀ h', h' ≠ h → log w' h' = log w h') ∧ (∀ h', closed w h' → closed w' h').

(** [log w h]: the items the edge [h] has accepted from this worker. *)
Class SendLaws (W H T : Type) `{SendItem W H T}
    (log : W → H → list T) (closed : W → H → Prop) : Prop := {
  send_frame w h x w' ok : send w h x = (w', ok) → edge_frame log closed h w w';
  send_ok w h x w' : send w h x = (w', true) → log w' h = log w h ++ [x];
  send_err w h x w' : send w h x = (w', false) → log w' h = log w h ∧ closed w' h;
  try_send_frame w h x w' r : try_send w h x = (w', r) → edge_frame log closed h w w';
  try_send_sent w h x w' : try_send w h x = (w', Sent) → log w' h = log w h ++ [x];
  try_send_full w h x w' y : try_send w h x = (w', Full y) → y = x ∧ log w' h = log w h;
  try_send_closed w h x w' y : try_send w h x = (w', SendClosed y) → y = x ∧ log w' h = log w h;
  send_run_frame w h xs w' n : send_run w h xs = (w', n) → edge_frame log closed h w w';
  send_run_prefix w h xs w' n : send_run w h xs = (w', n) →
    n ≤ length xs ∧ log w' h = log w h ++ take n xs;
}.

(** ** Staging *)

(** A [Vec<MaybeUninit<T>>]: [Some] is an initialised slot. *)
Notation staging T := (list (option T)) (only parsing).

(** [assume_init_read] of slot [j]: the slot is moved out. *)
Definition read_slot {T} (l : staging T) (j : nat) : outcome (staging T * T) :=
  o ← vec_get l (Z.of_nat j);
  x ← assume_init o;
  l' ← vec_set l (Z.of_nat j) None;
  mret (l', x).

(** The pointer loop of [stage_batch]: slot [i] of [batch] moves to slot [i] of
    [staged]. *)
Fixpoint stage_loop {T} (i n : nat) (src dst : staging T) : outcome (staging T * staging T) :=
  match n with
  | O => mret (src, dst)
  | S n =>
      '(src', x) ← read_slot src i;
      dst' ← vec_set dst (Z.of_nat i) (Some x);
      stage_loop (S i) n src' dst'
  end.

(** [stage_batch batch staged]: [staged.clear()], [reserve(n)], the moves, then
    [set_len(n)] and [batch.set_len(0)].  The old staged slots are discarded
    without running destructors.  Returns [batch] and [staged]. *)
Definition stage_batch {T} (batch : list T) (staged : staging T) : outcome (list T * staging T) :=
  let n := length batch in
  '(_, dst) ← stage_loop 0 n (Some <$> batch) (replicate n None);
  mret ([], dst).

Lemma read_slot_spec {T} (l1 l2 : staging T) x :
  read_slot (l1 ++ Some x :: l2) (length l1) = Ret (l1 ++ None :: l2, x).
Proof.
  unfold read_slot. rewrite (vec_get_ret _ _ (Some x)); [|lia|].
  2: { by rewrite Nat2Z.id, list_lookup_middle. }
  simpl. rewrite vec_set_ret by (rewrite length_app; simpl; lia). simpl.
  by rewrite Nat2Z.id, insert_app_r_alt, Nat.sub_diag by lia.
Qed.

Lemma stage_loop_spec {T} (xs : list T) i (src dst : staging T) :
  length src = i → length dst = i →
  stage_loop i (length xs) (src ++ (Some <$> xs)) (dst ++ replicate (length xs) None) =
    Ret (src ++ replicate (length xs) None, dst ++ (Some <$> xs)).
Proof.
  revert i src dst. induction xs as [|x xs IH]; intros i src dst Hs Hd; simpl; [done|].
  rewrite <- Hs at 1. rewrite read_slot_spec. simpl.
  rewrite vec_set_ret by (rewrite length_app; simpl; lia). simpl.
  rewrite Nat2Z.id, insert_app_r_alt by lia. rewrite Hd, Nat.sub_diag. simpl.
  specialize (IH (S i) (src ++ [None]) (dst ++ [Some x])). rewrite <- !(assoc_L (++)) in IH.
  apply IH; rewrite length_app; simpl; lia.
Qed.

Lemma stage_batch_spec {T} (batch : list T) staged :
  stage_batch batch staged = Ret ([], Some <$> batch).
Proof.
  unfold stage_batch. pose proof (stage_loop_spec batch 0 [] []) as E. simpl in E.
  by rewrite E.
Qed.

(** Every slot must be initialised: the contract of [try_send_batch]. *)
Fixpoint init_all {T} (l : staging T) : outcome (list T) :=
  match l with
  | [] => mret []
  | o :: l => x ← assume_init o; xs ← init_all l; mret (x :: xs)
  end.

Lemma init_all_some {T} (xs : list T) : init_all (Some <$> xs) = Ret xs.
Proof. induction xs as [|x xs IH]; [done|]. rewrite fmap_cons. cbn [init_all]. by rewrite IH. Qed.

(** [assume_init_drop] of every slot of a slice; returns the dropped items. *)
Definition drop_staged {T} (slots : staging T) : outcome (list T) := init_all slots.

Section send.
Context {W H T : Type} `{SendItem W H T}.
Implicit Types (w : W) (h : H).

(** The native [try_send_batch]: the sent prefix is moved out of [staged]. *)
Definition try_send_batch w h (staged : staging T) : outcome (W * staging T * nat) :=
  xs ← init_all staged;
  let '(w', n) := send_run w h xs in
  mret (w', replicate n None ++ drop n staged, n).

(** The provided [try_send_batch] of the trait: [try_send] item by item from
    slot [n] on. *)
Fixpoint try_send_batch_loop (fuel : nat) w h (values : staging T) (n : nat) :
    outcome (W * staging T * nat) :=
  match fuel with
  | O => NoFuel
  | S fuel =>
      if bool_decide (n < length values) then
        '(values1, item) ← read_slot values n;
        match try_send w h item with
        | (w', Sent) => try_send_batch_loop fuel w' h values1 (S n)
        | (w', Full item') | (w', SendClosed item') =>
            values2 ← vec_set values1 (Z.of_nat n) (Some item');
            mret (w', values2, n)
        end
      else mret (w, values, n)
  end.

Definition try_send_batch_default w h (values : staging T) : outcome (W * staging T * nat) :=
  try_send_batch_loop (S (length values)) w h values 0.

(** The blocking remainder of a staged batch, from slot [j] on; [false] when a
    send reports the edge closed, the rest being dropped.  Returns the dropped
    items too. *)
Fixpoint flush_rest (fuel : nat) w h (staged : staging T) (j : nat) :
    outcome (W * staging T * list T * bool) :=
  match fuel with
  | O => NoFuel
  | S fuel =>
      if bool_decide (j < length staged) then
        '(staged1, item) ← read_slot staged j;
        match send w h item with
        | (w', true) => flush_rest fuel w' h staged1 (S j)
        | (w', false) =>
            dropped ← drop_staged (drop (S j) staged1);
            mret (w', take (S j) staged1 ++ replicate (length staged1 - S j) None,
                  item :: dropped, false)
        end
      else mret (w, staged, [], true)
  end.

(** [flush_staged]: the free prefix in one [try_send_batch], the remainder per
    item. *)
Definition flush_staged w h (staged : staging T) : outcome (W * staging T * list T * bool) :=
  '(w1, staged1, sent) ← try_send_batch w h staged;
  flush_rest (S (length staged1)) w1 h staged1 sent.

(** [SendItem::send_batch]. *)
Definition send_batch w h (batch : list T) (staged : staging T) :
    outcome (W * list T * staging T * list T * bool) :=
  if bool_decide (length batch = 0) then mret (w, batch, staged, [], true)
  else
    '(batch1, staged1) ← stage_batch batch staged;
    '(w1, staged2, dropped, ok) ← flush_staged w h staged1;
    mret (w1, batch1, staged2, dropped, ok).

(** ** What the batched sends do *)

Context (log : W → H → list T) (closed : W → H → Prop) `{!SendLaws W H T log closed}.

Lemma edge_frame_refl h w : edge_frame log closed h w w.
Proof. split; eauto. Qed.

Lemma edge_frame_trans h w1 w2 w3 :
  edge_frame log closed h w1 w2 → edge_frame log closed h w2 w3 → edge_frame log closed h w1 w3.
Proof. intros [F1 G1] [F2 G2]. split; [|eauto]. intros h' Hh. by rewrite F2, F1. Qed.

(** A flush hands the edge [xs] whole, or a prefix of it when the edge turns
    out closed; what was not sent is dropped, and no slot stays initialised. *)
Definition Flushed (h : H) (xs : list T) w w' (staged : staging T) (dropped : list T) (ok : bool) : Prop :=
  edge_frame log closed h w w' ∧ Forall (λ o, o = None) staged ∧
  ∃ p, xs = p ++ dropped ∧ log w' h = log w h ++ p ∧
    (ok = true → dropped = []) ∧ (ok = false → closed w' h).

Lemma flush_rest_spec fuel w h k xs :
  length xs < fuel →
  ∃ w' staged dropped ok,
    flush_rest fuel w h (replicate k None ++ (Some <$> xs)) k = Ret (w', staged, dropped, ok) ∧
    Flushed h xs w w' staged dropped ok.
Proof.
  revert w k xs. induction fuel as [|fuel IH]; intros w k xs Hf; [lia|]. cbn [flush_rest].
  rewrite length_app, length_replicate, length_fmap.
  destruct xs as [|x xs]; rewrite ?fmap_nil, ?fmap_cons; cbn [length].
  - rewrite bool_decide_eq_false_2 by lia. eexists _, _, _, _. split; [done|].
    split_and!; [apply edge_frame_refl|rewrite app_nil_r; by apply Forall_replicate|].
    exists []. split_and!; [done|by rewrite app_nil_r|done..].
  - rewrite bool_decide_eq_true_2 by lia.
    pose proof (read_slot_spec (replicate k None) (Some <$> xs) x) as R.
    rewrite length_replicate in R. rewrite R. cbn [mbind outcome_mbind].
    destruct (send w h x) as [w' [|]] eqn:E.
    + rewrite cons_middle, (assoc_L (++)).
      replace (replicate k None ++ [None]) with (replicate (S k) (@None T))
        by (by rewrite <- replicate_cons_app).
      destruct (IH w' (S k) xs) as (w2 & st & dr & ok & -> & F2 & Hn & p & -> & Hlog & Hok & Hcl);
        [simpl in Hf; lia|].
      eexists _, _, _, _. split; [done|]. split_and!; [|done|].
      * eapply edge_frame_trans; [by eapply send_frame|done].
      * exists (x :: p). split_and!; try done. rewrite Hlog, (send_ok _ _ _ _ E), <- (assoc_L (++)). done.
    + destruct (send_err _ _ _ _ E) as [Hlog Hcl].
      rewrite cons_middle, (assoc_L (++)), drop_app_length' by (rewrite length_app, length_replicate; simpl; lia).
      unfold drop_staged. rewrite init_all_some. simpl.
      eexists _, _, _, _. split; [done|]. split_and!; [by eapply send_frame| |].
      * rewrite take_app_length' by (rewrite length_app, length_replicate; simpl; lia).
        rewrite !Forall_app. split_and!; [by apply Forall_replicate|by constructor|by apply Forall_replicate].
      * exists []. simpl. by rewrite app_nil_r.
Qed.

Lemma flush_staged_spec w h xs :
  ∃ w' staged dropped ok, flush_staged w h (Some <$> xs) = Ret (w', staged, dropped, ok) ∧
    Flushed h xs w w' staged dropped ok.
Proof.
  unfold flush_staged, try_send_batch. rewrite init_all_some, mbind_ret.
  destruct (send_run w h xs) as [w1 n] eqn:E. destruct (send_run_prefix _ _ _ _ _ E) as [Hn Hlog].
  pose proof (send_run_frame _ _ _ _ _ E) as F1.
  cbn [mbind outcome_mbind mret outcome_mret]. rewrite <- fmap_drop.
  destruct (flush_rest_spec (S (length (replicate n None ++ (Some <$> drop n xs)))) w1 h n (drop n xs))
    as (w' & st & dr & ok & -> & F2 & Hnone & p & Hp & Hlog2 & Hok).
  { rewrite length_app, length_fmap. lia. }
  eexists _, _, _, _. split; [done|]. split_and!; [by eapply edge_frame_trans|done|].
  exists (take n xs ++ p). split_and!; [|by rewrite Hlog2, Hlog, (assoc_L (++))|apply Hok..].
  by rewrite <- (assoc_L (++)), <- Hp, take_drop.
Qed.

Lemma send_batch_spec w h batch staged :
  ∃ w' staged' dropped ok, send_batch w h batch staged = Ret (w', [], staged', dropped, ok) ∧
    edge_frame log closed h w w' ∧
    ∃ p, batch = p ++ dropped ∧ log w' h = log w h ++ p ∧
      (ok = true → dropped = []) ∧ (ok = false → closed w' h).
Proof.
  unfold send_batch. case_bool_decide as E.
  - apply nil_length_inv in E as ->. eexists _, _, _, _. split; [done|]. split; [apply edge_frame_refl|].
    exists []. split_and!; by rewrite ?app_nil_r.
  - rewrite stage_batch_spec, mbind_ret.
    destruct (flush_staged_spec w h batch) as (w' & st & dr & ok & -> & F & _ & Hp). rewrite mbind_ret.
    by eexists _, _, _, _.
Qed.

Lemma try_send_batch_loop_spec fuel w h k xs :
  length xs < fuel →
  ∃ w' n, try_send_batch_loop fuel w h (replicate k None ++ (Some <$> xs)) k =
      Ret (w', replicate (k + n) None ++ (Some <$> drop n xs), k + n) ∧
    n ≤ length xs ∧ log w' h = log w h ++ take n xs ∧ edge_frame log closed h w w'.
Proof.
  revert w k xs. induction fuel as [|fuel IH]; intros w k xs Hf; [lia|]. cbn [try_send_batch_loop].
  rewrite length_app, length_replicate, length_fmap. destruct xs as [|x xs]; rewrite ?fmap_nil, ?fmap_cons; cbn [length].
  - rewrite bool_decide_eq_false_2 by lia. exists w, 0. rewrite Nat.add_0_r, drop_nil, take_nil, fmap_nil, !app_nil_r.
    split_and!; [done..|apply edge_frame_refl].
  - rewrite bool_decide_eq_true_2 by lia.
    pose proof (read_slot_spec (replicate k None) (Some <$> xs) x) as R.
    rewrite length_replicate in R. rewrite R. cbn [mbind outcome_mbind].
    assert (∀ w' r, try_send w h x = (w', r) → log w' h = log w h →
      ∃ w2 n, (values2 ← vec_set (replicate k None ++ None :: (Some <$> xs)) (Z.of_nat k) (Some x);
               mret (w', values2, k)) =
        Ret (w2, replicate (k + n) None ++ (Some <$> drop n (x :: xs)), k + n) ∧
        n ≤ S (length xs) ∧ log w2 h = log w h ++ take n (x :: xs) ∧ edge_frame log closed h w w2) as Hback.
    { intros w' r E Hlog. exists w', 0. rewrite Nat.add_0_r.
      rewrite vec_set_ret by (rewrite length_app, length_replicate; simpl; lia). rewrite mbind_ret.
      rewrite Nat2Z.id, insert_app_r_alt, length_replicate, Nat.sub_diag by (rewrite length_replicate; lia).
      rewrite drop_0, take_0, fmap_cons, app_nil_r. split_and!; [done|lia|done|by eapply try_send_frame]. }
    destruct (try_send w h x) as [w' [|y|y]] eqn:E.
    + rewrite cons_middle, (assoc_L (++)).
      replace (replicate k None ++ [None]) with (replicate (S k) (@None T))
        by (by rewrite <- replicate_cons_app).
      destruct (IH w' (S k) xs) as (w2 & n & -> & Hn & Hlog & F2); [simpl in Hf; lia|].
      exists w2, (S n). rewrite Nat.add_succ_r. split_and!; [done|lia| |].
      * rewrite Hlog, (try_send_sent _ _ _ _ E), <- (assoc_L (++)). done.
      * eapply edge_frame_trans; [by eapply try_send_frame|done].
    + destruct (try_send_full _ _ _ _ _ E) as [-> Hlog]. by eapply Hback.
    + destruct (try_send_closed _ _ _ _ _ E) as [-> Hlog]. by eapply Hback.
Qed.

End send.
