(* ===== verification/Stream.v ===== *)
(** * Stream: the ordered and unordered terminal drains

    Model of [crates/youpipe/src/state/stream.rs]: the window sizing
    ([OrderedWindow]), the burst-drain loop every streaming terminal shares
    (the [drain_loop!] template), [drain_unordered_with], [drain_ordered_with]
    with its accounting check, and [run_ordered_collect].

    The receiver is the interface [RecvItem] of [Channel] with its laws; the
    theorems hold for every receiver that satisfies them. *)

From S2P Require Import Prelude Reorder Channel.
Local Open Scope Z_scope.

(** ** Window sizing *)

Record OrderedWindow : Type := mkWindow { initial : Z; max : Z }.

Definition auto (n in_flight : Z) : OrderedWindow :=
  let m := next_power_of_two 64 (Z.max n 1) in
  mkWindow (Z.min m (Z.max (Z.shiftl 1 10) in_flight)) m.

Definition fixed (n window : Z) : OrderedWindow :=
  let m := next_power_of_two 64 (Z.min window (next_power_of_two 64 (Z.max n 1))) in
  mkWindow m m.

Definition open (expected : Z) : OrderedWindow :=
  mkWindow (Z.min (Z.max (next_power_of_two 64 (Z.max expected 1)) (Z.shiftl 1 10)) (Z.shiftl 1 20))
           (Z.shiftl 1 63).

(** ** The [drain_loop!] template *)

Section drain.
Context {C T St : Type} `{RecvItem C T}.
Context (ins : St → T → outcome St).

Fixpoint insert_list (st : St) (l : list T) : outcome St :=
  match l with
  | [] => mret st
  | x :: l => st' ← ins st x; insert_list st' l
  end.

(** Per-item burst: [try_recv] until empty; [true] when it found [Closed]. *)
Fixpoint burst_items (fuel : nat) (c : C) (st : St) : outcome (C * St * bool) :=
  match fuel with
  | O => NoFuel
  | S fuel =>
      match try_recv c with
      | (c', Got x) => st' ← ins st x; burst_items fuel c' st'
      | (c', Empty) => mret (c', st, false)
      | (c', Closed) => mret (c', st, true)
      end
  end.

(** Batch burst: claim ready runs until a claim comes back empty. *)
Fixpoint burst_batches (fuel : nat) (batch_cap : nat) (c : C) (st : St) : outcome (C * St) :=
  match fuel with
  | O => NoFuel
  | S fuel =>
      match try_recv_batch c batch_cap with
      | (c', []) => mret (c', st)
      | (c', xs) => st' ← insert_list st xs; burst_batches fuel batch_cap c' st'
      end
  end.

(** One turn of the outer [loop] after the burst: [Some] to go on, [None] at
    end of stream. *)
Definition anchor_turn (c : C) (st : St) : outcome (option (C * St) * St) :=
  match recv c with
  | (c', Some x) => st' ← ins st x; mret (Some (c', st'), st')
  | (_, None) => mret (None, st)
  end.

Definition after_burst (batch_cap : nat) (c : C) (st : St) : outcome (option (C * St) * St) :=
  if bool_decide (0 < batch_cap)%nat && is_disconnected c then
    match try_recv c with
    | (c', Got x) => st' ← ins st x; mret (Some (c', st'), st')
    | (c', Empty) => anchor_turn c' st
    | (c', Closed) => mret (None, st)
    end
  else anchor_turn c st.

Fixpoint drain_loop (fuel inner : nat) (batch_cap : nat) (c : C) (st : St) : outcome St :=
  match fuel with
  | O => NoFuel
  | S fuel =>
      '(c1, st1, closed) ←
        (if bool_decide (0 < batch_cap)%nat
         then '(c1, st1) ← burst_batches inner batch_cap c st; mret (c1, st1, false)
         else burst_items inner c st);
      if closed : bool then mret st1
      else
        '(next, st2) ← after_burst batch_cap c1 st1;
        match next with
        | Some (c2, st3) => drain_loop fuel inner batch_cap c2 st3
        | None => mret st2
        end
  end.

(** ** The drain inserts every arrival once, in arrival order *)

Context (arrivals : C → list T → Prop) `{!RecvLaws C T arrivals}.

Lemma insert_list_app st l1 l2 :
  insert_list st (l1 ++ l2) = (st' ← insert_list st l1; insert_list st' l2).
Proof.
  revert st. induction l1 as [|x l1 IH]; intros st; simpl; [done|].
  destruct (ins st x); simpl; [apply IH|done..].
Qed.

Lemma insert_list_cons_inv st x l st' :
  insert_list st (x :: l) = Ret st' → ∃ st1, ins st x = Ret st1 ∧ insert_list st1 l = Ret st'.
Proof. simpl. intros E. by apply mbind_ret_inv in E. Qed.

Lemma burst_items_spec fuel c l st st' :
  arrivals c l → (length l < fuel)%nat → insert_list st l = Ret st' →
  ∃ c1 st1 l1 closed, burst_items fuel c st = Ret (c1, st1, closed) ∧
    (length l1 <= length l)%nat ∧ insert_list st1 l1 = Ret st' ∧
    if closed : bool then l1 = [] else arrivals c1 l1.
Proof.
  revert c l st. induction fuel as [|fuel IH]; intros c l st Ha Hf Hl; [lia|]. simpl.
  destruct (try_recv c) as [c' [x| |]] eqn:E.
  - destruct (try_recv_got _ _ _ _ Ha E) as (l' & -> & Ha').
    destruct (insert_list_cons_inv _ _ _ _ Hl) as (st1 & E1 & Hl'). rewrite E1, mbind_ret.
    destruct (IH c' l' st1 Ha') as (c2 & st2 & l2 & cl & E2 & Hle & Hl2 & Hc); [simpl in Hf; lia|done|].
    exists c2, st2, l2, cl. split_and!; [done|simpl; lia|done..].
  - pose proof (try_recv_empty _ _ _ Ha E). by exists c', st, l, false.
  - pose proof (try_recv_closed _ _ _ Ha E) as ->. by exists c', st, [], true.
Qed.

Lemma burst_batches_spec fuel cap c l st st' :
  arrivals c l → (length l < fuel)%nat → insert_list st l = Ret st' →
  ∃ c1 st1 l1, burst_batches fuel cap c st = Ret (c1, st1) ∧
    (length l1 <= length l)%nat ∧ insert_list st1 l1 = Ret st' ∧ arrivals c1 l1.
Proof.
  revert c l st. induction fuel as [|fuel IH]; intros c l st Ha Hf Hl; [lia|]. simpl.
  destruct (try_recv_batch c cap) as [c' xs] eqn:E.
  destruct (try_recv_batch_prefix _ _ _ _ _ Ha E) as (_ & l' & -> & Ha').
  destruct xs as [|x xs]; [by exists c', st, l'|].
  rewrite insert_list_app in Hl. apply mbind_ret_inv in Hl as (st1 & E1 & Hl).
  rewrite E1, mbind_ret. rewrite length_app in *. simpl in *.
  destruct (IH c' l' st1 Ha') as (c2 & st2 & l2 & -> & Hle & Hl2 & Ha2); [lia|done|].
  exists c2, st2, l2. split_and!; [done|lia|done..].
Qed.

Lemma anchor_turn_spec c l st st' :
  arrivals c l → insert_list st l = Ret st' →
  ∃ next st1, anchor_turn c st = Ret (next, st1) ∧
    match next with
    | Some (c1, st2) => ∃ l1, (length l1 < length l)%nat ∧ arrivals c1 l1 ∧ insert_list st2 l1 = Ret st'
    | None => st1 = st'
    end.
Proof.
  intros Ha Hl. unfold anchor_turn. destruct (recv c) as [c' [x|]] eqn:E.
  - destruct (recv_some _ _ _ _ Ha E) as (l' & -> & Ha').
    destruct (insert_list_cons_inv _ _ _ _ Hl) as (st1 & E1 & Hl'). rewrite E1, mbind_ret.
    eexists _, _. split; [reflexivity|]. exists l'. split_and!; [simpl; lia|done..].
  - pose proof (recv_none _ _ _ Ha E) as ->. eexists None, st. split; [done|].
    simpl in Hl. by injection Hl.
Qed.

Lemma after_burst_spec cap c l st st' :
  arrivals c l → insert_list st l = Ret st' →
  ∃ next st1, after_burst cap c st = Ret (next, st1) ∧
    match next with
    | Some (c1, st2) => ∃ l1, (length l1 < length l)%nat ∧ arrivals c1 l1 ∧ insert_list st2 l1 = Ret st'
    | None => st1 = st'
    end.
Proof.
  intros Ha Hl. unfold after_burst. destruct (_ && _); [|by apply (anchor_turn_spec _ l)].
  destruct (try_recv c) as [c' [x| |]] eqn:E.
  - destruct (try_recv_got _ _ _ _ Ha E) as (l' & -> & Ha').
    destruct (insert_list_cons_inv _ _ _ _ Hl) as (st1 & E1 & Hl'). rewrite E1, mbind_ret.
    eexists _, _. split; [reflexivity|]. exists l'. split_and!; [simpl; lia|done..].
  - apply (anchor_turn_spec _ l); [|done]. by eapply try_recv_empty.
  - pose proof (try_recv_closed _ _ _ Ha E) as ->. eexists None, st. split; [done|].
    simpl in Hl. by injection Hl.
Qed.

Lemma drain_loop_spec fuel inner cap c l st st' :
  arrivals c l → (length l < fuel)%nat → (length l < inner)%nat →
  insert_list st l = Ret st' → drain_loop fuel inner cap c st = Ret st'.
Proof.
  revert c l st. induction fuel as [|fuel IH]; intros c l st Ha Hf Hi Hl; [lia|]. cbn [drain_loop].
  assert (∃ c1 st1 l1 closed,
    (if bool_decide (0 < cap)%nat
     then '(c1, st1) ← burst_batches inner cap c st; mret (c1, st1, false)
     else burst_items inner c st) = Ret (c1, st1, closed) ∧
    (length l1 <= length l)%nat ∧ insert_list st1 l1 = Ret st' ∧
    if closed : bool then l1 = [] else arrivals c1 l1) as (c1 & st1 & l1 & cl & -> & Hle & Hl1 & Hc).
  { case_bool_decide; [|by apply burst_items_spec].
    destruct (burst_batches_spec inner cap c l st st' Ha Hi Hl) as (c1 & st1 & l1 & -> & ? & ? & ?).
    by exists c1, st1, l1, false. }
  rewrite mbind_ret. destruct cl; [subst l1; simpl in Hl1; by injection Hl1 as ->|].
  destruct (after_burst_spec cap c1 l1 st1 st' Hc Hl1) as (next & st2 & -> & Hn).
  rewrite mbind_ret. destruct next as [[c2 st3]|]; [|by subst].
  destruct Hn as (l2 & Hlt & Ha2 & Hl2). apply (IH c2 l2); [done|lia|lia|done].
Qed.

End drain.

(** ** The drains *)

(** Whether a run validates its accounting; [Some b]: a cancel token is
    attached and [b] tells whether it fired. *)
Inductive OrderedAccounting : Type :=
  | Validate (cancel : option bool)
  | Skip.

(** The two [debug_assert!]s of [verify_ordered_accounting]. *)
Definition verify_ordered_accounting {A} (b : ReorderBuffer A) (emitted expected : Z)
    (cancel : option bool) : outcome unit :=
  _ ← guard_panic (bool_decide (emitted + dropped b ≤ expected));
  guard_panic (bool_decide (cancel = Some true) || bool_decide (emitted + dropped b = expected)).

Section drains.
Context {C A : Type} `{RecvItem C (Z * A)}.

(** [sink] appends to the output. *)
Definition ordered_ins (st : ReorderBuffer A * list A) (p : Z * A) :
    outcome (ReorderBuffer A * list A) :=
  '(b, out) ← insert_into st.1 p.1 p.2;
  mret (b, st.2 ++ out).

Definition drain_ordered_with (fuel : nat) (c : C) (expected : Z) (window : OrderedWindow)
    (accounting : OrderedAccounting) (batch_cap : nat) : outcome (list A) :=
  '(b, out) ← drain_loop ordered_ins fuel fuel batch_cap c
                 (with_max (initial window) (max window), []);
  '(b', rest) ← flush_remaining b;
  let out' := out ++ rest in
  _ ← (match accounting with
       | Validate cancel => verify_ordered_accounting b' (Z.of_nat (length out')) expected cancel
       | Skip => mret tt
       end);
  mret out'.

Definition unordered_ins (out : list A) (p : Z * A) : outcome (list A) := mret (out ++ [p.2]).

Definition drain_unordered_with (fuel : nat) (c : C) (batch_cap : nat) : outcome (list A) :=
  drain_loop unordered_ins fuel fuel batch_cap c [].

Definition run_ordered_collect (fuel : nat) (c : C) (expected batch_cap : Z) : outcome (list A) :=
  drain_ordered_with fuel c expected (open expected) Skip (Z.to_nat batch_cap).

Lemma insert_list_ordered b out l b' out' :
  insert_all b l = Ret (b', out') →
  insert_list ordered_ins (b, out) l = Ret (b', out ++ out').
Proof.
  revert b out out'. induction l as [|[s x] l IH]; intros b out out' E; simpl in *.
  { injection E as -> <-. by rewrite app_nil_r. }
  apply mbind_ret_inv in E as ([b1 o1] & E1 & E). simpl in E.
  apply mbind_ret_inv in E as ([b2 o2] & E2 & E). simpl in E. injection E as -> <-.
  assert (ordered_ins (b, out) (s, x) = Ret (b1, out ++ o1)) as ->
    by (unfold ordered_ins; simpl; by rewrite E1).
  simpl. rewrite (IH _ _ _ E2). by rewrite (assoc_L (++)).
Qed.

Lemma insert_list_unordered out (l : list (Z * A)) :
  insert_list unordered_ins out l = Ret (out ++ l.*2).
Proof.
  revert out. induction l as [|p l IH]; intros out; simpl; [by rewrite app_nil_r|].
  rewrite IH. by rewrite <- (assoc_L (++)).
Qed.

(** An ordered drain is one run of inserts and a closing flush. *)
Lemma drain_ordered_run arrivals `{!RecvLaws C (Z * A) arrivals} fuel c l w acc cap n b out b' rest :
  arrivals c l → (length l < fuel)%nat →
  insert_all (with_max (initial w) (max w)) l = Ret (b, out) →
  flush_remaining b = Ret (b', rest) →
  Z.of_nat (length (out ++ rest)) + dropped b' = n →
  drain_ordered_with fuel c n w acc cap = Ret (out ++ rest).
Proof.
  intros Ha Hf E Ef Hn. unfold drain_ordered_with.
  rewrite (drain_loop_spec ordered_ins arrivals fuel fuel cap c l _ (b, [] ++ out) Ha Hf Hf)
    by (by apply insert_list_ordered).
  rewrite mbind_ret. simpl. rewrite Ef. simpl. destruct acc as [cancel|]; [|done].
  unfold verify_ordered_accounting.
  rewrite (bool_decide_eq_true_2 (_ ≤ n)) by lia. simpl.
  rewrite (bool_decide_eq_true_2 (_ + dropped b' = n)) by lia. by rewrite orb_true_r.
Qed.

End drains.

(** A window whose ceiling is large enough for [n] items, so that it never has
    to drop one: every automatic window for [n] items, every open one, and a
    pinned one that was asked for at least [n] slots. *)
Definition window_covers (n : Z) (w : OrderedWindow) : Prop :=
  initial w ≤ 2 ^ 63 ∧ n ≤ max w ≤ 2 ^ 63.

Lemma auto_covers n in_flight :
  0 ≤ n ≤ 2 ^ 63 → in_flight ≤ 2 ^ 63 → window_covers n (auto n in_flight).
Proof.
  intros Hn Hf. destruct (next_power_of_two_spec 64 (Z.max n 1)) as (_ & ? & ?); [lia..|].
  change (2 ^ (64 - 1)) with (2 ^ 63) in *. unfold window_covers, auto. simpl. lia.
Qed.

Lemma open_covers n expected : n ≤ 2 ^ 63 → window_covers n (open expected).
Proof.
  intros Hn. unfold window_covers, open. cbn [initial max].
  change (Z.shiftl 1 20) with (2 ^ 20). change (Z.shiftl 1 63) with (2 ^ 63). lia.
Qed.

Lemma fixed_covers n window : 0 ≤ n ≤ 2 ^ 63 → n ≤ window → window_covers n (fixed n window).
Proof.
  intros Hn Hw. destruct (next_power_of_two_spec 64 (Z.max n 1)) as (_ & ? & ?); [lia..|].
  destruct (next_power_of_two_spec 64 (Z.min window (next_power_of_two 64 (Z.max n 1)))) as (_ & ? & ?);
    [lia..|].
  change (2 ^ (64 - 1)) with (2 ^ 63) in *. unfold window_covers, fixed. cbn [initial max]. lia.
Qed.

Lemma next_power_of_two_id c :
  pow2 c → c ≤ 2 ^ 63 → next_power_of_two 64 c = c.
Proof.
  intros (k & Hk & ->) Hle. unfold next_power_of_two. rewrite Z.log2_up_pow2 by done.
  apply wrap_small. split; [lia|]. assert (2 ^ 63 < 2 ^ 64) by lia. lia.
Qed.

Lemma fixed_window {A} n w :
  0 ≤ n ≤ 2 ^ 63 → 0 ≤ w →
  Rep (with_max (initial (fixed n w)) (max (fixed n w)) : ReorderBuffer A) ∅ ∧
  let b : ReorderBuffer A := with_max (initial (fixed n w)) (max (fixed n w)) in
  mask b + 1 = max_capacity b ∧ dropped b = 0 ∧ next_expected b = 0.
Proof.
  intros Hn Hw. destruct (next_power_of_two_spec 64 (Z.max n 1)) as (_ & ? & ?); [lia..|].
  destruct (next_power_of_two_spec 64 (Z.min w (next_power_of_two 64 (Z.max n 1)))) as (Hp & ? & ?);
    [lia..|].
  change (2 ^ (64 - 1)) with (2 ^ 63) in *.
  set (c := next_power_of_two 64 (Z.min w (next_power_of_two 64 (Z.max n 1)))) in *.
  assert (fixed n w = mkWindow c c) as -> by done. cbn [initial max].
  destruct (@with_max_Rep A c c) as (HR & _ & Hd & Hn0); [lia..|].
  split_and!; try done. unfold with_max, with_max_inner. cbn [mask max_capacity].
  rewrite Z.max_l, next_power_of_two_id by (done || lia). lia.
Qed.

Lemma drain_ordered_permutation {C A} `{RecvItem C (Z * A)} arrivals
    `{!RecvLaws C (Z * A) arrivals} (f : Z → A) (n : Z) (w : OrderedWindow) (p : list Z) (c : C)
    (cancel : option bool) (batch_cap fuel : nat) :
  p ≡ₚ seqZ 0 n → 0 ≤ n → window_covers n w →
  arrivals c ((λ s, (s, f s)) <$> p) → (length p < fuel)%nat →
  drain_ordered_with fuel c n w (Validate cancel) batch_cap = Ret (f <$> seqZ 0 n).
Proof.
  intros Hp Hn (Hi & Hm) Ha Hfuel.
  destruct (@with_max_Rep A (initial w) (max w)) as (HR & Hmax & Hd & Hn0); [lia..|].
  destruct (insert_all_permutation f n p _ Hp ltac:(lia) HR Hd Hn0) as (b & E & HRb & Hdb & _); [lia|].
  destruct (flush_remaining_spec b ∅ HRb) as (b' & kvs & Ef & Hkvs & _ & _ & _ & Hdb').
  rewrite map_to_list_empty in Hkvs. apply Permutation_nil_r in Hkvs as ->.
  rewrite <- (app_nil_r (f <$> seqZ 0 n)).
  eapply (drain_ordered_run arrivals); [exact Ha|by rewrite length_fmap|exact E|exact Ef|].
  simpl. rewrite app_nil_r, length_fmap, length_seqZ. lia.
Qed.

(** ** Theorems *)

(** C2: an ordered terminal returns its input in order.  However the workers
    interleave (the arrivals are any permutation of the sequence numbers
    0..n-1, delivered by any receiver that satisfies the trait's contract),
    whatever the batch cap and the polling schedule, the drain over a window
    whose ceiling is at least [n] terminates and returns exactly the items of
    0, 1, ..., n-1 in this order; the post-run accounting assertion holds and
    nothing is dropped.  [auto_covers], [open_covers] and [fixed_covers] give
    the side condition for the automatic window, the open one and a pinned one
    of at least [n] slots; a smaller pinned window may drop items, see
    [drain_ordered_pinned_window_accounts]. *)
Theorem drain_ordered_restores_input_order {C A} `{RecvItem C (Z * A)} arrivals
    `{!RecvLaws C (Z * A) arrivals} (f : Z → A) (n : Z) (w : OrderedWindow) (p : list Z) (c : C)
    (cancel : option bool) (batch_cap fuel : nat) :
  p ≡ₚ seqZ 0 n → 0 ≤ n → window_covers n w →
  arrivals c ((λ s, (s, f s)) <$> p) → (length p < fuel)%nat →
  drain_ordered_with fuel c n w (Validate cancel) batch_cap = Ret (f <$> seqZ 0 n).
Proof. apply (drain_ordered_permutation arrivals). Qed.

Lemma drain_ordered_restores_input_order_witness :
  drain_ordered_with 9 [Some (2, 20); None; Some (0, 0); Some (3, 30); None; Some (1, 10)]
    4 (auto 4 0) (Validate None) 2 = Ret [0; 10; 20; 30].
Proof.
  apply (drain_ordered_restores_input_order sched_arrivals (λ s, s * 10) 4 (auto 4 0) [2; 0; 3; 1]).
  - change (seqZ 0 4) with [0; 1; 2; 3]. by apply (Permutation_trans (l' := [0; 2; 3; 1])); [apply perm_swap|];
      constructor; apply (Permutation_trans (l' := [2; 1; 3])); [constructor; apply perm_swap|apply perm_swap].
  - lia.
  - split; vm_compute; intuition congruence.
  - reflexivity.
  - simpl. lia.
Defined.

(** C29: with a user-pinned window, however small, nothing is lost silently:
    whatever distinct sequence numbers arrive in whatever order, the drain
    returns, so its [emitted + dropped == expected] assertion holds (the drain
    would panic otherwise), and the items handed to the sink together with some
    lost ones are the arrivals: nothing is invented or handed out twice, and as
    many items are lost as the window counted. *)
Theorem drain_ordered_pinned_window_accounts {C A} `{RecvItem C (Z * A)} arrivals
    `{!RecvLaws C (Z * A) arrivals} (window : Z) (l : list (Z * A)) (c : C)
    (cancel : option bool) (batch_cap fuel : nat) :
  0 < window → Z.of_nat (length l) ≤ 2 ^ 63 → Forall (λ p, seq_ok p.1) l → NoDup l.*1 →
  arrivals c l → (length l < fuel)%nat →
  ∃ out lost, drain_ordered_with fuel c (Z.of_nat (length l)) (fixed (Z.of_nat (length l)) window)
           (Validate cancel) batch_cap = Ret out ∧ out ++ lost ≡ₚ l.*2.
Proof.
  intros Hw Hn Hl Hnd Ha Hf.
  destruct (@fixed_window A (Z.of_nat (length l)) window) as (HR & Hfix & Hd & Hn0); [lia..|].
  destruct (fixed_accounting _ ∅ l HR Hfix) as (b & out & m & lost & E & HRb & Hp & Hdb & _);
    [done|done|done|done|rewrite Hd; lia|rewrite Hd; lia|].
  destruct (flush_remaining_spec b m HRb) as (b' & kvs & Ef & Hkvs & _ & HR' & _ & Hdb').
  assert ((out ++ kvs.*2) ++ lost ≡ₚ l.*2) as Hall.
  { unfold pending in Hp. rewrite Hkvs, <- (assoc_L (++)). exact Hp. }
  exists (out ++ kvs.*2), lost. split; [|done].
  eapply (drain_ordered_run arrivals); [done..|].
  apply Permutation_length in Hall. rewrite length_app, length_fmap in Hall. lia.
Qed.

Lemma drain_ordered_pinned_window_accounts_witness :
  ∃ out lost, drain_ordered_with 9 [Some (0, 10); Some (3, 30); None; Some (1, 20)]
           3 (fixed 3 2) (Validate None) 0 = Ret out ∧ out ++ lost ≡ₚ [10; 30; 20].
Proof.
  apply (drain_ordered_pinned_window_accounts sched_arrivals 2 [(0, 10); (3, 30); (1, 20)]).
  - lia.
  - simpl. lia.
  - repeat constructor; vm_compute; congruence.
  - cbn. repeat constructor; set_solver.
  - reflexivity.
  - simpl. lia.
Defined.

(** An unordered terminal hands every arriving item to the sink exactly
    once, in arrival order, for every receiver and batch cap. *)
Theorem drain_unordered_delivers_all {C A} `{RecvItem C (Z * A)} arrivals
    `{!RecvLaws C (Z * A) arrivals} (l : list (Z * A)) (c : C) (batch_cap fuel : nat) :
  arrivals c l → (length l < fuel)%nat →
  drain_unordered_with fuel c batch_cap = Ret l.*2.
Proof.
  intros Ha Hf. apply (drain_loop_spec unordered_ins arrivals fuel fuel batch_cap c l); try done.
  apply (insert_list_unordered []).
Qed.

Lemma drain_unordered_delivers_all_witness :
  drain_unordered_with 5 [Some (2, 7); None; Some (0, 8)] 4 = Ret [7; 8].
Proof.
  apply (drain_unordered_delivers_all sched_arrivals [(2, 7); (0, 8)]).
  - reflexivity.
  - simpl. lia.
Defined.
