(* ===== verification/GraphPlan.v ===== *)
(** * GraphPlan: topology validation and ordering of the DAG engine

    Model of [crates/youpipe/src/graph/plan.rs]: node kinds, the plan under
    construction ([push_node], [edge]) and [GraphPlan::validate_and_order] as a
    whole, with its error list.  A spawn step and an edge connector are closures the
    validation never runs; they are left out of the records.  The formatted
    message of an error is [render].  [in_deg], [out_deg] and [adjacency] are
    the source's vectors, with panicking indexing; [deg[down] -= 1] panics on
    underflow. *)

From stdpp Require Import strings pretty relations.
From S2P Require Import Prelude.
Local Open Scope nat_scope.

Inductive NodeKind : Type :=
  | Source | SourceAsync | Sync | Expand | Async | Sink.

#[export] Instance NodeKind_eq_dec : EqDecision NodeKind.
Proof. solve_decision. Defined.

Inductive Fanout : Type := Move | Broadcast.

#[export] Instance Fanout_eq_dec : EqDecision Fanout.
Proof. solve_decision. Defined.

Definition is_source (k : NodeKind) : bool :=
  match k with Source | SourceAsync => true | _ => false end.

Definition is_async (k : NodeKind) : bool :=
  match k with SourceAsync | Async => true | _ => false end.

(** Option pins; the values are [NonZeroUsize]. *)
Record NodeOpts : Type := mkOpts {
  opt_workers : option Z;
  opt_buffer : option Z;
  opt_io_concurrency : option Z;
}.

Definition default_opts : NodeOpts := mkOpts None None None.

Record NodePlan : Type := mkNode { name : string; kind : NodeKind; fanout : Fanout; opts : NodeOpts }.
Record EdgePlan : Type := mkEdge { up : nat; down : nat }.
#[export] Instance EdgePlan_eq_dec : EqDecision EdgePlan.
Proof. solve_decision. Defined.

Record GraphPlan : Type := mkPlan { nodes : list NodePlan; edges : list EdgePlan }.

Definition push_node (g : GraphPlan) (n : NodePlan) : GraphPlan * nat :=
  (mkPlan (nodes g ++ [n]) (edges g), length (nodes g)).

(** ** Errors *)

Inductive PlanError : Type :=
  | DuplicateName (n : string)
  | DuplicateEdge (u d : string)
  | SourceHasInput (n : string)
  | NodeNeedsInput (n : string)
  | SinkHasOutput (n : string)
  | NodeNeedsOutput (n : string)
  | MoveFansOut (n : string) (deg : nat)
  | Cycle (ns : list string).

Fixpoint join (sep : string) (l : list string) : string :=
  match l with
  | [] => ""
  | [s] => s
  | s :: l => s +:+ sep +:+ join sep l
  end%string.

Definition render (e : PlanError) : string :=
  match e with
  | DuplicateName n => "duplicate node name `" +:+ n +:+ "`"
  | DuplicateEdge u d => "duplicate edge `" +:+ u +:+ "->" +:+ d +:+ "`"
  | SourceHasInput n => "source `" +:+ n +:+ "` must not have incoming edges"
  | NodeNeedsInput n => "node `" +:+ n +:+ "` requires at least one incoming edge"
  | SinkHasOutput n => "sink `" +:+ n +:+ "` must not have outgoing edges"
  | NodeNeedsOutput n => "node `" +:+ n +:+
      "` requires at least one outgoing edge (unconsumed output truncates the upstream run)"
  | MoveFansOut n d => "move-only node `" +:+ n +:+ "` must not have " +:+ pretty d +:+
      " outgoing edges; use a `_broadcast` registration to fan out"
  | Cycle ns => "cycle detected involving: " +:+ join ", " ns
  end%string.

(** ** [validate_and_order] *)

(** The [HashSet] pass over the node names. *)
Fixpoint check_names (seen : gset string) (l : list NodePlan) : list PlanError :=
  match l with
  | [] => []
  | n :: l =>
      (if bool_decide (name n ∈ seen) then [DuplicateName (name n)] else [])
      ++ check_names ({[name n]} ∪ seen) l
  end.

Record Tables : Type := mkTables {
  pairs : gset (nat * nat);
  in_deg : list nat;
  out_deg : list nat;
  adjacency : list (list nat);
}.

Definition bump (l : list nat) (i : nat) : outcome (list nat) :=
  d ← vec_get l (Z.of_nat i); vec_set l (Z.of_nat i) (S d).

(** One turn of the [for edge in &self.edges] loop. *)
Definition edge_turn (g : GraphPlan) (t : Tables) (e : EdgePlan) :
    outcome (Tables * list PlanError) :=
  errs ← (if bool_decide ((up e, down e) ∈ pairs t) then
            u ← vec_get (nodes g) (Z.of_nat (up e));
            d ← vec_get (nodes g) (Z.of_nat (down e));
            mret [DuplicateEdge (name u) (name d)]
          else mret []);
  ind ← bump (in_deg t) (down e);
  outd ← bump (out_deg t) (up e);
  a ← vec_get (adjacency t) (Z.of_nat (up e));
  adj ← vec_set (adjacency t) (Z.of_nat (up e)) (a ++ [down e]);
  mret (mkTables ({[(up e, down e)]} ∪ pairs t) ind outd adj, errs).

Fixpoint edge_pass (g : GraphPlan) (t : Tables) (l : list EdgePlan) :
    outcome (Tables * list PlanError) :=
  match l with
  | [] => mret (t, [])
  | e :: l =>
      '(t1, errs1) ← edge_turn g t e;
      '(t2, errs2) ← edge_pass g t1 l;
      mret (t2, errs1 ++ errs2)
  end.

(** The per-node checks of the [for (i, node)] loop. *)
Definition node_errors (n : NodePlan) (ind outd : nat) : list PlanError :=
  (if is_source (kind n) then
     (if bool_decide (0 < ind) then [SourceHasInput (name n)] else [])
   else if bool_decide (ind = 0) then [NodeNeedsInput (name n)] else [])
  ++ (if bool_decide (kind n = Sink ∧ 0 < outd) then [SinkHasOutput (name n)] else [])
  ++ (if bool_decide (kind n ≠ Sink ∧ outd = 0) then [NodeNeedsOutput (name n)] else [])
  ++ (if bool_decide (fanout n = Move ∧ 1 < outd) then [MoveFansOut (name n) outd] else []).

Fixpoint check_nodes (i : nat) (l : list NodePlan) (t : Tables) : outcome (list PlanError) :=
  match l with
  | [] => mret []
  | n :: l =>
      ind ← vec_get (in_deg t) (Z.of_nat i);
      outd ← vec_get (out_deg t) (Z.of_nat i);
      errs ← check_nodes (S i) l t;
      mret (node_errors n ind outd ++ errs)
  end.

(** Kahn: relax the out-edges of one node. *)
Fixpoint relax (ds : list nat) (deg queue : list nat) : outcome (list nat * list nat) :=
  match ds with
  | [] => mret (deg, queue)
  | d :: ds =>
      x ← vec_get deg (Z.of_nat d);
      x' ← (match x with S x' => mret x' | O => Panic end);
      deg' ← vec_set deg (Z.of_nat d) x';
      relax ds deg' (if bool_decide (x' = 0) then queue ++ [d] else queue)
  end.

(** The [while let Some(u) = queue.pop_front()] loop.  Every node is popped at
    most once, so [n + 1] turns are enough. *)
Fixpoint kahn (fuel : nat) (adj : list (list nat)) (deg queue order : list nat) :
    outcome (list nat * list nat) :=
  match fuel with
  | O => NoFuel
  | S fuel =>
      match queue with
      | [] => mret (deg, order)
      | u :: queue =>
          ds ← vec_get adj (Z.of_nat u);
          '(deg', queue') ← relax ds deg queue;
          kahn fuel adj deg' queue' (order ++ [u])
      end
  end.

(** [(0..n).filter(|&i| deg[i] == 0)]. *)
Definition zero_degrees (deg : list nat) : list nat :=
  filter (λ i, deg !! i = Some 0) (seq 0 (length deg)).

Definition stuck_names (g : GraphPlan) (deg : list nat) : list string :=
  omap (λ i, match deg !! i, nodes g !! i with
             | Some (S _), Some n => Some (name n)
             | _, _ => None
             end) (seq 0 (length (nodes g))).

Definition validate_and_order (g : GraphPlan) : outcome (list PlanError + list nat) :=
  let n := length (nodes g) in
  let errs0 := check_names ∅ (nodes g) in
  '(t, errs1) ← edge_pass g (mkTables ∅ (replicate n 0) (replicate n 0) (replicate n [])) (edges g);
  errs2 ← check_nodes 0 (nodes g) t;
  let queue := zero_degrees (in_deg t) in
  '(deg, order) ← kahn (S n) (adjacency t) (in_deg t) queue [];
  let errs3 := if bool_decide (length order < n) then [Cycle (stuck_names g deg)] else [] in
  let errors := errs0 ++ errs1 ++ errs2 ++ errs3 in
  mret (match errors with [] => inr order | _ => inl errors end).

(** ** Specification *)

Definition has_edge (g : GraphPlan) (u d : nat) : Prop := mkEdge u d ∈ edges g.

(** [edge()] only accepts handles this builder minted. *)
Definition edges_in_range (g : GraphPlan) : Prop :=
  Forall (λ e, up e < length (nodes g) ∧ down e < length (nodes g)) (edges g).

Definition in_edges (l : list EdgePlan) (i : nat) : list EdgePlan := filter (λ e, down e = i) l.
Definition out_edges (l : list EdgePlan) (i : nat) : list EdgePlan := filter (λ e, up e = i) l.

Record node_ok (n : NodePlan) (ind outd : nat) : Prop := {
  ok_source : is_source (kind n) = true → ind = 0;
  ok_input : is_source (kind n) = false → 0 < ind;
  ok_sink : kind n = Sink → outd = 0;
  ok_output : kind n ≠ Sink → 0 < outd;
  ok_move : fanout n = Move → outd ≤ 1;
}.

Definition acyclic (g : GraphPlan) : Prop := ∀ i, ¬ tc (has_edge g) i i.

(** The graphs [run()] promises to accept. *)
Record Valid (g : GraphPlan) : Prop := {
  v_names : NoDup (name <$> nodes g);
  v_edges : NoDup (edges g);
  v_nodes : ∀ i n, nodes g !! i = Some n →
    node_ok n (length (in_edges (edges g) i)) (length (out_edges (edges g) i));
  v_acyclic : acyclic g;
}.

(** A node is stuck when it sits on a cycle or downstream of one. *)
Definition below_cycle (g : GraphPlan) (i : nat) : Prop :=
  ∃ j, tc (has_edge g) j j ∧ rtc (has_edge g) j i.

(** The defects of a plan, as the documentation of [run()] enumerates them. *)
Inductive reports (g : GraphPlan) : PlanError → Prop :=
  | report_name i j a b :
      i < j → nodes g !! i = Some a → nodes g !! j = Some b → name a = name b →
      reports g (DuplicateName (name b))
  | report_edge i j e a b :
      i < j → edges g !! i = Some e → edges g !! j = Some e →
      nodes g !! up e = Some a → nodes g !! down e = Some b →
      reports g (DuplicateEdge (name a) (name b))
  | report_source_input i nd :
      nodes g !! i = Some nd → is_source (kind nd) = true → in_edges (edges g) i ≠ [] →
      reports g (SourceHasInput (name nd))
  | report_needs_input i nd :
      nodes g !! i = Some nd → is_source (kind nd) = false → in_edges (edges g) i = [] →
      reports g (NodeNeedsInput (name nd))
  | report_sink_output i nd :
      nodes g !! i = Some nd → kind nd = Sink → out_edges (edges g) i ≠ [] →
      reports g (SinkHasOutput (name nd))
  | report_needs_output i nd :
      nodes g !! i = Some nd → kind nd ≠ Sink → out_edges (edges g) i = [] →
      reports g (NodeNeedsOutput (name nd))
  | report_move i nd :
      nodes g !! i = Some nd → fanout nd = Move → 1 < length (out_edges (edges g) i) →
      reports g (MoveFansOut (name nd) (length (out_edges (edges g) i)))
  | report_cycle ids :
      ids ≠ [] → StronglySorted lt ids → (∀ i, i ∈ ids ↔ below_cycle g i) →
      reports g (Cycle (omap (λ i, name <$> nodes g !! i) ids)).

(** ** Counting *)

Definition cnt (d : nat) (l : list nat) : nat := length (filter (λ x, x = d) l).

Lemma cnt_cons d x l : cnt d (x :: l) = (if bool_decide (x = d) then 1 else 0) + cnt d l.
Proof. unfold cnt. rewrite filter_cons. case_decide; case_bool_decide; done. Qed.

Lemma cnt_pos d l : 0 < cnt d l ↔ d ∈ l.
Proof.
  induction l as [|x l IH].
  - split; [unfold cnt; simpl; lia|by intros ?%not_elem_of_nil].
  - rewrite cnt_cons, elem_of_cons, <- IH. case_bool_decide as Hx; [subst; split; [by left|lia]|].
    split; [by right|intros [?|?]; [by destruct Hx|lia]].
Qed.

Lemma not_NoDup_lookup {B} `{EqDecision B} (l : list B) :
  ¬ NoDup l ↔ ∃ i j x, i < j ∧ l !! i = Some x ∧ l !! j = Some x.
Proof.
  split.
  - induction l as [|y l IH]; intros Hnd; [destruct Hnd; constructor|].
    destruct (decide (y ∈ l)) as [Hin|Hne].
    + apply list_elem_of_lookup in Hin as [j Hj]. exists 0, (S j), y. split_and!; [lia|done..].
    + destruct IH as (i & j & x & Hij & Hi & Hj); [intros H; apply Hnd; by constructor|].
      exists (S i), (S j), x. split_and!; [lia|done..].
  - intros (i & j & x & Hij & Hi & Hj) Hnd. pose proof (NoDup_lookup _ _ _ _ Hnd Hi Hj). lia.
Qed.

Lemma list_fmap_const_seq {B} (x : B) i n : replicate n x = (λ _, x) <$> seq i n.
Proof. revert i. induction n as [|n IH]; intros i; [done|]. simpl. f_equal. apply IH. Qed.

Lemma list_filter_iff_seq (P Q : nat → Prop) `{∀ x, Decision (P x), ∀ x, Decision (Q x)} n :
  (∀ i, i < n → P i ↔ Q i) → filter P (seq 0 n) = filter Q (seq 0 n).
Proof.
  intros H1. assert (∀ i, i ∈ seq 0 n → P i ↔ Q i) as H2
    by (intros i Hi%elem_of_seq; apply H1; lia).
  clear H1. induction (seq 0 n) as [|x l IH]; [done|]. rewrite !filter_cons, IH
    by (intros; apply H2; by right).
  assert (P x ↔ Q x) as Hx by (apply H2; by left). do 2 case_decide; tauto.
Qed.

(** ** The name and node checks *)

Lemma check_names_elem seen l er :
  er ∈ check_names seen l ↔
  ∃ j b, l !! j = Some b ∧ er = DuplicateName (name b) ∧
    (name b ∈ seen ∨ ∃ i a, i < j ∧ l !! i = Some a ∧ name a = name b).
Proof.
  revert seen. induction l as [|n l IH]; intros seen; simpl.
  { split; [by intros ?%not_elem_of_nil|]. by intros (j & b & H & _). }
  rewrite elem_of_app, IH. split.
  - intros [H|(j & b & Hj & -> & H)].
    + case_bool_decide; [apply list_elem_of_singleton in H as ->|by apply not_elem_of_nil in H].
      exists 0, n. split_and!; [done..|]. by left.
    + exists (S j), b. split_and!; [done..|]. rewrite elem_of_union, elem_of_singleton in H.
      destruct H as [[E|Hs]|(i & a & Hij & Ha & E)].
      * right. exists 0, n. split_and!; [lia|done..].
      * by left.
      * right. exists (S i), a. split_and!; [lia|done..].
  - intros ([|j] & b & Hj & -> & H); simplify_eq/=.
    + left. rewrite bool_decide_eq_true_2; [by left|].
      destruct H as [?|(i & a & Hi & _)]; [done|lia].
    + right. exists j, b. split_and!; [done..|]. rewrite elem_of_union, elem_of_singleton.
      destruct H as [Hs|([|i] & a & Hij & Ha & E)]; [by left; right| |]; simplify_eq/=.
      * by left; left.
      * right. exists i, a. split_and!; [lia|done..].
Qed.

Lemma elem_of_if {B} (P : Prop) `{Decision P} (x y : B) :
  y ∈ (if bool_decide P then [x] else []) ↔ P ∧ y = x.
Proof.
  case_bool_decide; rewrite ?list_elem_of_singleton, ?elem_of_nil; naive_solver.
Qed.

(** ** The edge pass builds the degree and adjacency tables *)

Record TablesRep (n : nat) (p : list EdgePlan) (t : Tables) : Prop := {
  tr_pairs : ∀ u d, (u, d) ∈ pairs t ↔ mkEdge u d ∈ p;
  tr_in : in_deg t = (λ i, length (in_edges p i)) <$> seq 0 n;
  tr_out : out_deg t = (λ i, length (out_edges p i)) <$> seq 0 n;
  tr_adj : adjacency t = (λ i, down <$> out_edges p i) <$> seq 0 n;
}.

Lemma lookup_tab {B} (f : nat → B) n i : i < n → (f <$> seq 0 n) !! i = Some (f i).
Proof. intros Hi. by rewrite list_lookup_fmap, lookup_seq_lt by done. Qed.

Lemma insert_tab {B} (f f' : nat → B) n i :
  i < n → (∀ j, j ≠ i → f' j = f j) → <[i := f' i]> (f <$> seq 0 n) = f' <$> seq 0 n.
Proof.
  intros Hi Hne. apply list_eq. intros j. destruct (decide (j < n)) as [Hj|Hj].
  - rewrite (lookup_tab f') by done. destruct (decide (j = i)) as [->|Hji].
    + apply list_lookup_insert_eq. by rewrite length_fmap, length_seq.
    + rewrite list_lookup_insert_ne by done. rewrite lookup_tab by done. by rewrite Hne.
  - rewrite !lookup_ge_None_2; [done|..]; rewrite ?length_insert, length_fmap, length_seq; lia.
Qed.

Lemma vec_get_tab {B} (f : nat → B) n i :
  i < n → vec_get (f <$> seq 0 n) (Z.of_nat i) = Ret (f i).
Proof. intros Hi. apply vec_get_ret; [lia|]. rewrite Nat2Z.id. by apply lookup_tab. Qed.

Lemma vec_set_tab {B} (f f' : nat → B) n i :
  i < n → (∀ j, j ≠ i → f' j = f j) →
  vec_set (f <$> seq 0 n) (Z.of_nat i) (f' i) = Ret (f' <$> seq 0 n).
Proof.
  intros Hi Hne. rewrite vec_set_ret by (rewrite length_fmap, length_seq; lia).
  rewrite Nat2Z.id. f_equal. by apply insert_tab.
Qed.

Lemma bump_tab (f f' : nat → nat) n i :
  i < n → f' i = S (f i) → (∀ j, j ≠ i → f' j = f j) →
  bump (f <$> seq 0 n) i = Ret (f' <$> seq 0 n).
Proof.
  intros Hi Hs Hne. unfold bump. rewrite vec_get_tab by done. rewrite mbind_ret, <- Hs.
  by apply vec_set_tab.
Qed.

Lemma filter_add_last {B} (keep : B → Prop) `{∀ b, Decision (keep b)} (es : list B) e :
  filter keep (es ++ [e]) = if decide (keep e) then filter keep es ++ [e] else filter keep es.
Proof. rewrite filter_app, filter_cons, filter_nil. case_decide; [done|apply app_nil_r]. Qed.

Definition edge_reported (g : GraphPlan) (e : EdgePlan) (er : PlanError) : Prop :=
  ∃ a b, nodes g !! up e = Some a ∧ nodes g !! down e = Some b ∧
    er = DuplicateEdge (name a) (name b).

Lemma edge_turn_spec g n p t e :
  length (nodes g) = n → up e < n → down e < n → TablesRep n p t →
  ∃ t' errs, edge_turn g t e = Ret (t', errs) ∧ TablesRep n (p ++ [e]) t' ∧
    ∀ er, er ∈ errs ↔ e ∈ p ∧ edge_reported g e er.
Proof.
  intros Hn Hu Hd [Hp Hi Ho Ha]. unfold edge_turn.
  assert (∃ errs,
    (if bool_decide ((up e, down e) ∈ pairs t) then
       u ← vec_get (nodes g) (Z.of_nat (up e));
       d ← vec_get (nodes g) (Z.of_nat (down e));
       mret [DuplicateEdge (name u) (name d)]
     else mret []) = Ret errs ∧ ∀ er, er ∈ errs ↔ e ∈ p ∧ edge_reported g e er)
    as (errs & -> & Herrs).
  { unfold edge_reported.
    case_bool_decide as Hin; rewrite Hp in Hin; destruct e as [u d]; simpl in *.
    - destruct (lookup_lt_is_Some_2 (nodes g) u) as [nu Hnu]; [lia|].
      destruct (lookup_lt_is_Some_2 (nodes g) d) as [nd Hnd]; [lia|].
      rewrite (vec_get_ret (nodes g) (Z.of_nat u) nu), mbind_ret by (rewrite ?Nat2Z.id; done || lia).
      rewrite (vec_get_ret (nodes g) (Z.of_nat d) nd), mbind_ret by (rewrite ?Nat2Z.id; done || lia).
      eexists. split; [reflexivity|]. intros er. rewrite list_elem_of_singleton. naive_solver.
    - exists []. split; [done|]. intros er. rewrite elem_of_nil. naive_solver. }
  rewrite mbind_ret, Hi, Ho, Ha.
  rewrite (bump_tab _ (λ i, length (in_edges (p ++ [e]) i)) n (down e)), mbind_ret; [|done|..].
  2: { unfold in_edges. rewrite filter_add_last, decide_True, length_app by done. simpl. lia. }
  2: { intros j Hj. unfold in_edges. by rewrite filter_add_last, decide_False by done. }
  rewrite (bump_tab _ (λ i, length (out_edges (p ++ [e]) i)) n (up e)), mbind_ret; [|done|..].
  2: { unfold out_edges. rewrite filter_add_last, decide_True, length_app by done. simpl. lia. }
  2: { intros j Hj. unfold out_edges. by rewrite filter_add_last, decide_False by done. }
  rewrite (vec_get_tab (λ i, down <$> out_edges p i) n (up e)), mbind_ret by done.
  replace ((down <$> out_edges p (up e)) ++ [down e]) with (down <$> out_edges (p ++ [e]) (up e))
    by (unfold out_edges; by rewrite filter_add_last, decide_True, fmap_app by done).
  rewrite (vec_set_tab _ (λ i, down <$> out_edges (p ++ [e]) i)), mbind_ret; [|done|].
  2: { intros j Hj. unfold out_edges. by rewrite filter_add_last, decide_False by done. }
  eexists _, _. split; [reflexivity|]. split; [|done]. split; simpl; try done.
  intros u d. rewrite elem_of_union, elem_of_singleton, Hp, elem_of_app, list_elem_of_singleton.
  destruct e; naive_solver.
Qed.

Lemma edge_pass_spec g n p t l :
  length (nodes g) = n → Forall (λ e, up e < n ∧ down e < n) l → TablesRep n p t →
  ∃ t' errs, edge_pass g t l = Ret (t', errs) ∧ TablesRep n (p ++ l) t' ∧
    ∀ er, er ∈ errs ↔ ∃ i j e, i < j ∧ length p ≤ j ∧ (p ++ l) !! i = Some e ∧
      (p ++ l) !! j = Some e ∧ edge_reported g e er.
Proof.
  intros Hn Hl. revert p t. induction Hl as [|e l [Hu Hd] Hl IH]; intros p t Ht; simpl.
  { exists t, []. rewrite app_nil_r. split_and!; [done..|]. intros er. rewrite elem_of_nil.
    split; [done|]. intros (i & j & e & _ & Hj & _ & Hl & _). apply lookup_lt_Some in Hl. lia. }
  destruct (edge_turn_spec g n p t e Hn Hu Hd Ht) as (t1 & errs1 & -> & Ht1 & He1).
  rewrite mbind_ret. destruct (IH _ _ Ht1) as (t2 & errs2 & -> & Ht2 & He2). rewrite mbind_ret.
  rewrite <- (assoc_L (++)) in Ht2, He2. simpl in *.
  eexists _, _. split_and!; [reflexivity|done|]. intros er. rewrite elem_of_app, He1, He2.
  rewrite length_app. simpl. split.
  - intros [[Hin Hr]|(i & j & e' & Hij & Hj & H)]; [|exists i, j, e'; split_and!; [lia|lia|naive_solver..]].
    apply list_elem_of_lookup in Hin as [i Hi]. pose proof (lookup_lt_Some _ _ _ Hi).
    exists i, (length p), e. split_and!; [lia|lia|by apply lookup_app_l_Some| |done].
    by rewrite list_lookup_middle.
  - intros (i & j & e' & Hij & Hj & Hi & Hj' & Hr). destruct (decide (j = length p)) as [->|Hne].
    + rewrite list_lookup_middle in Hj' by done. simplify_eq. left. split; [|done].
      rewrite lookup_app_l in Hi by done. by eapply list_elem_of_lookup_2.
    + right. exists i, j, e'. split_and!; [lia|lia|done..].
Qed.

Lemma check_nodes_spec i l t p n :
  TablesRep n p t → i + length l = n →
  ∃ errs, check_nodes i l t = Ret errs ∧
    ∀ er, er ∈ errs ↔ ∃ j nd, l !! j = Some nd ∧
      er ∈ node_errors nd (length (in_edges p (i + j))) (length (out_edges p (i + j))).
Proof.
  intros Ht. revert i. induction l as [|nd l IH]; intros i Hlen; simpl.
  { exists []. split; [done|]. intros er. rewrite elem_of_nil. naive_solver. }
  rewrite (tr_in _ _ _ Ht), (tr_out _ _ _ Ht). simpl in Hlen.
  rewrite !vec_get_tab, mbind_ret by lia. rewrite mbind_ret.
  destruct (IH (S i)) as (errs & -> & He); [lia|]. rewrite mbind_ret.
  eexists. split; [reflexivity|]. intros er. rewrite elem_of_app, He. split.
  - intros [H|(j & nd' & Hj & H)].
    + exists 0, nd. by rewrite Nat.add_0_r.
    + exists (S j), nd'. by rewrite Nat.add_succ_r.
  - intros ([|j] & nd' & Hj & H); simplify_eq/=.
    + left. by rewrite Nat.add_0_r in H.
    + right. exists j, nd'. by rewrite Nat.add_succ_r in H.
Qed.

(** ** Kahn's algorithm *)

Lemma relax_spec ds deg q :
  (∀ d, d ∈ ds → d < length deg) → (∀ d x, deg !! d = Some x → cnt d ds ≤ x) →
  ∃ deg' new, relax ds deg q = Ret (deg', q ++ new) ∧
    (∀ d, deg' !! d = (λ x, x - cnt d ds) <$> deg !! d) ∧
    NoDup new ∧ ∀ d, d ∈ new ↔ d ∈ ds ∧ deg !! d = Some (cnt d ds).
Proof.
  revert deg q. induction ds as [|d ds IH]; intros deg q Hlt Hge.
  { exists deg, []. simpl. rewrite app_nil_r. split_and!; [done| |constructor|].
    - intros d. unfold cnt. simpl. destruct (deg !! d); simpl; [f_equal; lia|done].
    - intros d. split; [by intros ?%not_elem_of_nil|by intros [?%not_elem_of_nil _]]. }
  destruct (lookup_lt_is_Some_2 deg d) as [x Hx]; [apply Hlt; by left|].
  pose proof (Hge _ _ Hx) as Hx1. rewrite cnt_cons, bool_decide_eq_true_2 in Hx1 by done.
  destruct x as [|x]; [lia|]. cbn [relax].
  rewrite (vec_get_ret deg (Z.of_nat d) (S x)) by (rewrite ?Nat2Z.id; done || lia).
  rewrite mbind_ret. simpl. rewrite vec_set_ret by (apply lookup_lt_Some in Hx; lia).
  rewrite mbind_ret, Nat2Z.id.
  destruct (IH (<[d := x]> deg) (if bool_decide (x = 0) then q ++ [d] else q)) as
    (deg' & new & -> & Hdeg & Hnd & Hnew).
  - intros d' Hd'. rewrite length_insert. apply Hlt. by right.
  - intros d' y [(<- & <- & _)|[Hne Hy]]%list_lookup_insert_Some; [lia|].
    pose proof (Hge _ _ Hy) as H. rewrite cnt_cons, bool_decide_eq_false_2 in H by done. lia.
  - exists deg', ((if bool_decide (x = 0) then [d] else []) ++ new). split_and!.
    + f_equal. f_equal. case_bool_decide; [by rewrite <- (assoc_L (++))|done].
    + intros d'. rewrite Hdeg, cnt_cons. destruct (decide (d' = d)) as [->|Hne].
      * rewrite list_lookup_insert_eq, Hx by (by eapply lookup_lt_Some). simpl.
        rewrite bool_decide_eq_true_2 by done. f_equal.
      * rewrite list_lookup_insert_ne, bool_decide_eq_false_2 by congruence. done.
    + case_bool_decide as Hx0; [|done]. constructor; [|done].
      rewrite Hnew. intros [Hin%cnt_pos _]. lia.
    + intros d'. rewrite elem_of_app, Hnew, elem_of_cons, cnt_cons.
      destruct (decide (d' = d)) as [->|Hne].
      * rewrite list_lookup_insert_eq, Hx by (by eapply lookup_lt_Some).
        rewrite (bool_decide_eq_true_2 (d = d)) by done. rewrite <- (cnt_pos d ds).
        case_bool_decide as Hx0; rewrite ?list_elem_of_singleton; split.
        -- intros _. split; [by left|]. f_equal. lia.
        -- intros _. by left.
        -- intros [?%not_elem_of_nil|[_ [= ->]]]; [done|]. split; [by left|done].
        -- intros [_ [= ->]]. right. split; [lia|done].
      * rewrite list_lookup_insert_ne, (bool_decide_eq_false_2 (d = d')) by congruence. simpl.
        case_bool_decide; rewrite ?list_elem_of_singleton, ?elem_of_nil; naive_solver.
Qed.

Section kahn.
Context (n : nat) (es : list EdgePlan).
Hypothesis es_range : Forall (λ e, up e < n ∧ down e < n) es.

(** Edges into [d] whose source has not been emitted yet. *)
Definition pending_in (order : list nat) (d : nat) : list EdgePlan :=
  filter (λ e, down e = d ∧ up e ∉ order) es.

Record KahnInv (deg queue order : list nat) : Prop := {
  ki_deg : deg = (λ d, length (pending_in order d)) <$> seq 0 n;
  ki_nodup : NoDup (order ++ queue);
  ki_range : ∀ d, d ∈ order ++ queue → d < n;
  ki_ready : ∀ d, d < n → pending_in order d = [] ↔ d ∈ order ++ queue;
  ki_topo : ∀ k d u, order !! k = Some d → mkEdge u d ∈ es →
    ∃ j, j < k ∧ order !! j = Some u;
}.

Lemma pending_in_cons order u d :
  u ∉ order →
  length (pending_in order d) =
    length (pending_in (order ++ [u]) d) + cnt d (down <$> out_edges es u).
Proof.
  intros Hu. unfold pending_in, out_edges, cnt. clear es_range.
  induction es as [|e l IH]; [done|]. rewrite !filter_cons.
  assert (up e ∉ order ++ [u] ↔ up e ∉ order ∧ up e ≠ u) as Hiff
    by (rewrite elem_of_app, list_elem_of_singleton; tauto).
  destruct (decide (up e = u)) as [Eu|Eu].
  - rewrite fmap_cons, filter_cons, (decide_False (P := down e = d ∧ up e ∉ order ++ [u])) by tauto.
    destruct (decide (down e = d)) as [Ed|Ed].
    + rewrite decide_True by (subst; tauto). simpl. rewrite IH. lia.
    + rewrite decide_False by tauto. done.
  - destruct (decide (down e = d ∧ up e ∉ order)) as [H|H].
    + rewrite decide_True by tauto. simpl. rewrite IH. lia.
    + rewrite decide_False by tauto. done.
Qed.

Lemma pending_in_nil order d :
  pending_in order d = [] ↔ ∀ u, mkEdge u d ∈ es → u ∈ order.
Proof.
  unfold pending_in. split.
  - intros Hnil u Hin. destruct (decide (u ∈ order)); [done|].
    assert (mkEdge u d ∈ filter (λ e, down e = d ∧ up e ∉ order) es) as H
      by (by apply list_elem_of_filter).
    rewrite Hnil in H. by apply not_elem_of_nil in H.
  - intros H. destruct (filter _ es) as [|[u d'] l] eqn:E; [done|].
    assert (mkEdge u d' ∈ filter (λ e, down e = d ∧ up e ∉ order) es) as Hin
      by (rewrite E; by left).
    apply list_elem_of_filter in Hin as [[Hd Hu] Hin]. simpl in *. subst d'. destruct Hu. by apply H.
Qed.

Lemma out_elem u d : d ∈ down <$> out_edges es u ↔ mkEdge u d ∈ es.
Proof.
  rewrite list_elem_of_fmap. unfold out_edges. setoid_rewrite list_elem_of_filter.
  split; [intros ([u' d'] & -> & <- & ?); done|]. intros Hin. by exists (mkEdge u d).
Qed.

Lemma down_range u d : mkEdge u d ∈ es → d < n.
Proof. intros Hin. by destruct (proj1 (Forall_forall _ _) es_range _ Hin). Qed.

(** Everything emitted or queued has all its inputs emitted. *)
Lemma ready_closed deg queue order d v :
  KahnInv deg queue order → d ∈ order ++ queue → mkEdge v d ∈ es → v ∈ order.
Proof.
  intros Hinv Hd Hv. pose proof (ki_range _ _ _ Hinv d Hd) as Hlt.
  apply (ki_ready _ _ _ Hinv d Hlt) in Hd. rewrite pending_in_nil in Hd. by apply Hd.
Qed.

Lemma relax_pending deg u queue order :
  KahnInv deg (u :: queue) order → u ∉ order →
  ∃ deg' new,
    relax (down <$> out_edges es u) deg queue = Ret (deg', queue ++ new) ∧
    deg' = (λ d, length (pending_in (order ++ [u]) d)) <$> seq 0 n ∧
    NoDup new ∧ ∀ d, d ∈ new ↔ mkEdge u d ∈ es ∧ pending_in (order ++ [u]) d = [].
Proof.
  intros [Hdeg Hnd Hrange Hready Htopo] Huo.
  assert (∀ d, d < n → deg !! d = Some (length (pending_in order d))) as Hlk
    by (intros; rewrite Hdeg; by apply (lookup_tab (λ d, length (pending_in order d)))).
  destruct (relax_spec (down <$> out_edges es u) deg queue) as (deg' & new & -> & Hdeg' & Hndn & Hnew).
  - intros d Hd%out_elem%down_range. by rewrite Hdeg, length_fmap, length_seq.
  - intros d x Hx. rewrite Hdeg, list_lookup_fmap in Hx.
    destruct (seq 0 n !! d) eqn:E; simplify_eq/=. apply lookup_seq in E as [-> _]. simpl.
    rewrite (pending_in_cons order u) by done. lia.
  - exists deg', new. split_and!; [done| |done|].
    + apply list_eq. intros d. rewrite Hdeg'. destruct (decide (d < n)) as [Hd|Hd].
      * rewrite Hlk, lookup_tab by done. simpl. f_equal.
        rewrite (pending_in_cons order u) by done. lia.
      * rewrite Hdeg, !list_lookup_fmap, lookup_seq_ge by lia. done.
    + intros d. rewrite Hnew, out_elem. split; intros [Hin Hc]; split; try done;
        rewrite Hlk in * by (by eapply down_range).
      * injection Hc as Hc. rewrite (pending_in_cons order u) in Hc by done.
        apply length_zero_iff_nil. lia.
      * f_equal. rewrite (pending_in_cons order u), Hc by done. done.
Qed.

Lemma turn_nodup deg u queue order new :
  KahnInv deg (u :: queue) order → NoDup new → (∀ d, d ∈ new → mkEdge u d ∈ es) →
  NoDup ((order ++ [u]) ++ queue ++ new).
Proof.
  intros Hinv Hndn Hnew. rewrite <- (assoc_L (++)). simpl.
  replace (order ++ u :: queue ++ new) with ((order ++ u :: queue) ++ new)
    by (by rewrite <- (assoc_L (++))).
  pose proof (ki_nodup _ _ _ Hinv) as Hnd. apply NoDup_app. split_and!; [done| |done].
  intros d Hd Hin%Hnew. pose proof (ready_closed _ _ _ _ _ Hinv Hd Hin) as Hu.
  apply NoDup_app in Hnd as (_ & Hdis & _). apply (Hdis u Hu). by left.
Qed.

Lemma turn_ready deg u queue order new :
  KahnInv deg (u :: queue) order →
  (∀ d, d ∈ new ↔ mkEdge u d ∈ es ∧ pending_in (order ++ [u]) d = []) →
  ∀ d, d < n → pending_in (order ++ [u]) d = [] ↔ d ∈ (order ++ [u]) ++ queue ++ new.
Proof.
  intros Hinv Hnew d Hd. rewrite !elem_of_app, list_elem_of_singleton, Hnew. split.
  - intros Hnil. destruct (decide (mkEdge u d ∈ es)) as [|Hne]; [by auto|].
    assert (d ∈ order ++ u :: queue) as H.
    { apply (ki_ready _ _ _ Hinv); [done|]. apply pending_in_nil. intros v Hv.
      rewrite pending_in_nil in Hnil. apply Hnil in Hv as Hv'.
      rewrite elem_of_app, list_elem_of_singleton in Hv'. destruct Hv' as [?| ->]; done. }
    rewrite elem_of_app, elem_of_cons in H. tauto.
  - intros H. assert (d ∈ new ∨ d ∈ order ++ u :: queue) as [H'|H'].
    { rewrite elem_of_app, elem_of_cons, Hnew. tauto. }
    + by apply Hnew in H' as [_ ?].
    + apply pending_in_nil. intros v Hv. rewrite elem_of_app. left.
      by apply (ready_closed _ _ _ _ _ Hinv H' Hv).
Qed.

Lemma turn_topo deg u queue order :
  KahnInv deg (u :: queue) order →
  ∀ k d v, (order ++ [u]) !! k = Some d → mkEdge v d ∈ es →
    ∃ j, j < k ∧ (order ++ [u]) !! j = Some v.
Proof.
  intros Hinv k d v Hk Hv. destruct (decide (k < length order)) as [Hlt|Hge].
  - rewrite lookup_app_l in Hk by done.
    destruct (ki_topo _ _ _ Hinv k d v Hk Hv) as (j & Hj & Hjv).
    exists j. split; [done|]. by apply lookup_app_l_Some.
  - rewrite lookup_app_r in Hk by lia. apply list_lookup_singleton_Some in Hk as [Hk <-].
    assert (u ∈ order ++ u :: queue) as H by (rewrite elem_of_app; right; by left).
    apply (ready_closed _ _ _ _ _ Hinv H) in Hv.
    apply list_elem_of_lookup in Hv as [j Hj]. exists j. pose proof (lookup_lt_Some _ _ _ Hj).
    split; [lia|]. by apply lookup_app_l_Some.
Qed.

Lemma kahn_turn deg u queue order :
  KahnInv deg (u :: queue) order →
  ∃ deg' new,
    relax (down <$> out_edges es u) deg queue = Ret (deg', queue ++ new) ∧
    KahnInv deg' (queue ++ new) (order ++ [u]).
Proof.
  intros Hinv. pose proof (ki_nodup _ _ _ Hinv) as Hnd.
  assert (u ∉ order) as Huo.
  { intros Hin. apply NoDup_app in Hnd as (_ & Hdis & _). apply (Hdis u Hin). by left. }
  destruct (relax_pending deg u queue order Hinv Huo) as (deg' & new & -> & Hdeg & Hndn & Hnew).
  exists deg', new. split; [done|]. split; [done|..].
  - eapply turn_nodup; [done..|]. by intros d [? _]%Hnew.
  - intros d. rewrite !elem_of_app, list_elem_of_singleton, Hnew. intros Hd.
    destruct Hd as [Hd|[Hd|[Hd _]]]; [..|by eapply down_range];
      apply (ki_range _ _ _ Hinv); rewrite elem_of_app, elem_of_cons; tauto.
  - by eapply turn_ready.
  - by eapply turn_topo.
Qed.

Lemma kahn_spec fuel deg queue order :
  KahnInv deg queue order → n - length order < fuel →
  ∃ deg' order', kahn fuel ((λ u, down <$> out_edges es u) <$> seq 0 n) deg queue order
                   = Ret (deg', order') ∧
    KahnInv deg' [] order' ∧ ∃ tl, order' = order ++ queue ++ tl.
Proof.
  revert deg queue order. induction fuel as [|fuel IH]; intros deg queue order Hinv Hf; [lia|].
  cbn [kahn]. destruct queue as [|u queue].
  { exists deg, order. split_and!; [done..|]. exists []. by rewrite app_nil_r. }
  assert (u < n) as Hu by (eapply ki_range; [done|]; rewrite elem_of_app; right; by left).
  rewrite vec_get_tab, mbind_ret by done.
  destruct (kahn_turn deg u queue order Hinv) as (deg1 & new & -> & Hinv1). rewrite mbind_ret.
  assert (length order < n) as Hlen.
  { pose proof (ki_nodup _ _ _ Hinv) as Hnd.
    assert (length (order ++ u :: queue) ≤ length (seq 0 n)) as H.
    { apply submseteq_length, NoDup_submseteq; [done|]. intros d Hd.
      apply elem_of_seq. pose proof (ki_range _ _ _ Hinv d Hd). lia. }
    rewrite length_app, length_seq in H. simpl in H. lia. }
  destruct (IH deg1 (queue ++ new) (order ++ [u]) Hinv1) as (deg2 & order2 & -> & Hinv2 & tl & ->).
  { rewrite length_app. simpl. lia. }
  exists deg2, ((order ++ [u]) ++ (queue ++ new) ++ tl). split_and!; [done..|].
  exists (new ++ tl). by rewrite <- !(assoc_L (++)).
Qed.

End kahn.

Lemma tc_first {B} (R : relation B) x y : tc R x y → ∃ z, R x z.
Proof. intros H. destruct H; eauto. Qed.

(** ** Emitted nodes are exactly those with no cycle above them *)

Section order.
Context (g : GraphPlan) (deg order : list nat).
Hypothesis range : edges_in_range g.
Hypothesis inv : KahnInv (length (nodes g)) (edges g) deg [] order.

Lemma tc_position u d k :
  tc (has_edge g) u d → order !! k = Some d → ∃ j, j < k ∧ order !! j = Some u.
Proof.
  intros Htc. revert k. induction Htc as [u d He|u v d He Htc IH]; intros k Hk.
  - by apply (ki_topo _ _ _ _ _ inv k d u).
  - destruct (IH k Hk) as (j & Hj & Hv).
    destruct (ki_topo _ _ _ _ _ inv j v u Hv He) as (i & Hi & Hu). exists i. split; [lia|done].
Qed.

Lemma emitted_not_below_cycle d : d ∈ order → ¬ below_cycle g d.
Proof.
  intros Hd (j & Hjj & Hjd).
  assert (tc (has_edge g) j d) as Htc by (by eapply tc_rtc_r).
  apply list_elem_of_lookup in Hd as [k Hk].
  destruct (tc_position j d k Htc Hk) as (m & _ & Hm).
  destruct (tc_position j j m Hjj Hm) as (m' & Hlt & Hm').
  pose proof (ki_nodup _ _ _ _ _ inv) as Hnd. rewrite app_nil_r in Hnd.
  pose proof (NoDup_lookup _ _ _ _ Hnd Hm Hm'). lia.
Qed.

(** A backward chain of stuck nodes, farthest ancestor first. *)
Definition stuck_chain (d : nat) (l : list nat) : Prop :=
  (∀ x, x ∈ l → x < length (nodes g) ∧ rtc (has_edge g) x d) ∧
  (∃ x, head l = Some x ∧ x ∉ order) ∧
  ∀ i j x y, i < j → l !! i = Some x → l !! j = Some y → tc (has_edge g) x y.

Lemma stuck_has_stuck_input x :
  x < length (nodes g) → x ∉ order → ∃ u, has_edge g u x ∧ u ∉ order.
Proof.
  intros Hlt Hx. unfold has_edge.
  destruct (filter (λ e, down e = x ∧ up e ∉ order) (edges g)) as [|[u d] l] eqn:E.
  - destruct Hx. pose proof (ki_ready _ _ _ _ _ inv x Hlt) as H. rewrite app_nil_r in H.
    by apply H.
  - assert (mkEdge u d ∈ filter (λ e, down e = x ∧ up e ∉ order) (edges g)) as Hin
      by (rewrite E; by left).
    apply list_elem_of_filter in Hin as [[Hd Hu] Hin]. simpl in *. subst. by exists u.
Qed.

Lemma stuck_chain_step d l : stuck_chain d l → ∃ x, stuck_chain d (x :: l).
Proof.
  intros (Hrange & (x & Hhd & Hx) & Htc).
  destruct l as [|x' l]; [done|]. simplify_eq/=.
  destruct (Hrange x) as [Hlt Hxd]; [by left|].
  destruct (stuck_has_stuck_input x Hlt Hx) as (u & He & Hu).
  exists u. split_and!.
  - intros y [->|Hy]%elem_of_cons; [|by apply Hrange].
    split; [by destruct (proj1 (Forall_forall _ _) range _ He)|by eapply rtc_l].
  - by exists u.
  - intros [|i] [|j] y z Hij Hy Hz; simplify_eq/=; [lia| |lia|by apply (Htc i j); [lia|..]].
    destruct j as [|j]; simplify_eq/=; [by apply tc_once|].
    eapply tc_l; [done|]. by apply (Htc 0 (S j)); [lia|..].
Qed.

Lemma stuck_chain_long d k :
  d < length (nodes g) → d ∉ order → ∃ l, length l = S k ∧ stuck_chain d l.
Proof.
  intros Hd Hne. induction k as [|k (l & Hl & Hc)].
  - exists [d]. split; [done|]. split_and!.
    + by intros x ->%list_elem_of_singleton.
    + by exists d.
    + intros [|i] [|j] x y Hij Hx Hy; simplify_eq/=; lia.
  - destruct (stuck_chain_step d l Hc) as [x Hx]. exists (x :: l). simpl. by rewrite Hl.
Qed.

Lemma stuck_below_cycle d : d < length (nodes g) → d ∉ order → below_cycle g d.
Proof.
  intros Hd Hne.
  destruct (stuck_chain_long d (length (nodes g)) Hd Hne) as (l & Hl & Hrange & _ & Htc).
  destruct (decide (NoDup l)) as [Hnd|Hdup].
  { assert (length l ≤ length (seq 0 (length (nodes g)))) as H.
    { apply submseteq_length, NoDup_submseteq; [done|]. intros y [Hy _]%Hrange. apply elem_of_seq. lia. }
    rewrite length_seq in H. lia. }
  apply not_NoDup_lookup in Hdup as (i & j & x & Hij & Hi & Hj).
  exists x. split; [by apply (Htc i j)|]. apply Hrange. by eapply list_elem_of_lookup_2.
Qed.

Lemma stuck_iff_below_cycle d : d < length (nodes g) → d ∉ order ↔ below_cycle g d.
Proof.
  intros Hd. split; [by apply stuck_below_cycle|]. intros H Hin.
  by apply (emitted_not_below_cycle d).
Qed.

Lemma order_full : length order = length (nodes g) ↔ order ≡ₚ seq 0 (length (nodes g)).
Proof.
  split; [|intros ->; apply length_seq]. intros Hlen.
  pose proof (ki_nodup _ _ _ _ _ inv) as Hnd. rewrite app_nil_r in Hnd.
  apply submseteq_length_Permutation; [|rewrite length_seq; lia].
  apply NoDup_submseteq; [done|]. intros x Hx. apply elem_of_seq.
  pose proof (ki_range _ _ _ _ _ inv x) as H. rewrite app_nil_r in H. apply H in Hx. lia.
Qed.

Lemma order_full_acyclic : length order = length (nodes g) ↔ acyclic g.
Proof.
  rewrite order_full. split.
  - intros Hp i Hi. assert (i < length (nodes g)) as Hlt.
    { destruct (tc_first _ _ _ Hi) as (v & Hv).
      by destruct (proj1 (Forall_forall _ _) range _ Hv). }
    apply (emitted_not_below_cycle i); [rewrite Hp; apply elem_of_seq; lia|]. by exists i.
  - intros Hac. pose proof (ki_nodup _ _ _ _ _ inv) as Hnd. rewrite app_nil_r in Hnd.
    apply NoDup_Permutation; [done|apply NoDup_seq|]. intros x. rewrite elem_of_seq. split.
    + pose proof (ki_range _ _ _ _ _ inv x) as H. rewrite app_nil_r in H. intros Hx%H. lia.
    + intros [_ Hx]. destruct (decide (x ∈ order)) as [|Hne]; [done|].
      apply stuck_below_cycle in Hne as (j & Hj & _); [by apply Hac in Hj|lia].
Qed.

End order.

(** ** The report is exact *)

Lemma length_pos {B} (l : list B) : 0 < length l ↔ l ≠ [].
Proof. destruct l; simpl; split; try done; lia. Qed.

Lemma node_errors_reports g er :
  (∃ i nd, nodes g !! i = Some nd ∧
     er ∈ node_errors nd (length (in_edges (edges g) i)) (length (out_edges (edges g) i))) →
  reports g er.
Proof.
  intros (i & nd & Hi & Her). unfold node_errors in Her.
  rewrite !elem_of_app, !elem_of_if in Her.
  destruct Her as [Her|[[[Hk Ho%length_pos] ->]|[[[Hk Ho%length_zero_iff_nil] ->]|[[Hm Ho] ->]]]].
  - destruct (is_source (kind nd)) eqn:Hs; apply elem_of_if in Her as [Hl ->].
    + apply length_pos in Hl. by econstructor.
    + apply length_zero_iff_nil in Hl. by econstructor.
  - by econstructor.
  - by econstructor.
  - by econstructor.
Qed.

Lemma sorted_seq i n : StronglySorted lt (seq i n).
Proof.
  revert i. induction n as [|n IH]; intros i; simpl; constructor; [done|].
  apply Forall_forall. intros x Hx%elem_of_seq. lia.
Qed.

Lemma sorted_filter (P : nat → Prop) `{∀ x, Decision (P x)} l :
  StronglySorted lt l → StronglySorted lt (filter P l).
Proof.
  induction 1 as [|x l Hs IH Hx]; [constructor|]. rewrite filter_cons. case_decide; [|done].
  constructor; [done|]. rewrite Forall_forall in *.
  intros y [_ Hy]%list_elem_of_filter. by apply Hx.
Qed.

Lemma sorted_ext (l k : list nat) :
  StronglySorted lt l → StronglySorted lt k → (∀ x, x ∈ l ↔ x ∈ k) → l = k.
Proof.
  intros Hl. revert k. induction Hl as [|x l Hl IH Hx]; intros [|y k] Hk Heq; [done|..].
  - destruct (not_elem_of_nil y). apply Heq. by left.
  - destruct (not_elem_of_nil x). apply Heq. by left.
  - inversion Hk as [|? ? Hk' Hy]; subst. rewrite Forall_forall in Hx, Hy.
    assert (x = y) as ->.
    { assert (x ∈ y :: k) as [->|H1%Hy]%elem_of_cons by (apply Heq; by left); [done|].
      assert (y ∈ x :: l) as [->|H2%Hx]%elem_of_cons by (apply Heq; by left); [done|]. lia. }
    f_equal. apply IH; [done|]. intros z. specialize (Heq z). rewrite !elem_of_cons in Heq.
    specialize (Hx z). specialize (Hy z). split.
    + intros Hz. destruct (proj1 Heq) as [?|?]; [by right| |done]. specialize (Hx Hz). lia.
    + intros Hz. destruct (proj2 Heq) as [?|?]; [by right| |done]. specialize (Hy Hz). lia.
Qed.

Section report.
Context (g : GraphPlan) (deg order : list nat).
Hypothesis range : edges_in_range g.
Hypothesis inv : KahnInv (length (nodes g)) (edges g) deg [] order.

Lemma below_cycle_lt i : below_cycle g i → i < length (nodes g).
Proof.
  intros (j & Hjj & Hji). assert (tc (has_edge g) j i) as H by (by eapply tc_rtc_r).
  clear Hjj Hji. induction H as [x y He|]; [|done].
  by destruct (proj1 (Forall_forall _ _) range _ He).
Qed.

Lemma order_length : length order ≤ length (nodes g).
Proof.
  rewrite <- (length_seq (length (nodes g)) 0).
  pose proof (ki_nodup _ _ _ _ _ inv) as Hnd. rewrite app_nil_r in Hnd.
  apply submseteq_length, NoDup_submseteq; [done|]. intros x Hx. apply elem_of_seq.
  pose proof (ki_range _ _ _ _ _ inv x) as H. rewrite app_nil_r in H. apply H in Hx. lia.
Qed.

Lemma stuck_names_spec :
  stuck_names g deg =
    omap (λ i, name <$> nodes g !! i) (filter (λ i, i ∉ order) (seq 0 (length (nodes g)))).
Proof.
  unfold stuck_names.
  assert (∀ i, i ∈ seq 0 (length (nodes g)) → i < length (nodes g)) as H
    by (intros i Hi%elem_of_seq; lia).
  revert H. generalize (seq 0 (length (nodes g))) as l.
  induction l as [|i l IH]; intros Hl; [done|]. rewrite filter_cons. cbn [omap list_omap].
  rewrite IH by (intros; apply Hl; by right).
  assert (i < length (nodes g)) as Hi by (apply Hl; by left).
  rewrite (ki_deg _ _ _ _ _ inv), lookup_tab by done.
  pose proof (ki_ready _ _ _ _ _ inv i Hi) as Hr. rewrite app_nil_r in Hr.
  destruct (lookup_lt_is_Some_2 (nodes g) i Hi) as [nd Hnd]. case_decide as Ho.
  - cbn [omap list_omap]. rewrite Hnd. simpl. destruct (length (pending_in _ _ _)) eqn:E; [|done].
    apply length_zero_iff_nil, Hr in E. done.
  - apply Hr in Ho. by rewrite Ho.
Qed.

Lemma cycle_reported er :
  er ∈ (if bool_decide (length order < length (nodes g)) then [Cycle (stuck_names g deg)] else [])
  ↔ ∃ ids, ids ≠ [] ∧ StronglySorted lt ids ∧ (∀ i, i ∈ ids ↔ below_cycle g i) ∧
      er = Cycle (omap (λ i, name <$> nodes g !! i) ids).
Proof.
  rewrite elem_of_if, stuck_names_spec.
  set (st := filter (λ i, i ∉ order) (seq 0 (length (nodes g)))).
  assert (∀ i, i ∈ st ↔ below_cycle g i) as Hst.
  { intros i. unfold st. rewrite list_elem_of_filter, elem_of_seq. split.
    - intros [Hi ?]. apply (stuck_iff_below_cycle g deg order range inv); [lia|done].
    - intros H. pose proof (below_cycle_lt i H). split; [|lia].
      by apply (stuck_iff_below_cycle g deg order range inv). }
  assert (StronglySorted lt st) as Hss by apply sorted_filter, sorted_seq.
  assert (length order < length (nodes g) ↔ st ≠ []) as Hlen.
  { pose proof order_length as Hle.
    pose proof (order_full_acyclic g deg order range inv) as Hac. split.
    - intros Hlt Hnil. assert (length order = length (nodes g)); [|lia].
      apply Hac. intros i Hi. assert (i ∈ st) as H by (apply Hst; by exists i).
      rewrite Hnil in H. by apply not_elem_of_nil in H.
    - intros Hne. destruct (decide (length order = length (nodes g))) as [E|]; [|lia].
      destruct st as [|x st']; [done|]. destruct (proj1 (Hst x)) as (j & Hj & _); [by left|].
      by apply Hac in E; apply E in Hj. }
  rewrite Hlen. split.
  - intros [Hne ->]. by exists st.
  - intros (ids & Hne & His & Hin & ->).
    assert (ids = st) as -> by (apply sorted_ext; [done..|]; intros; by rewrite Hin, Hst). done.
Qed.

End report.

Lemma tables_init n :
  TablesRep n [] (mkTables ∅ (replicate n 0) (replicate n 0) (replicate n [])).
Proof.
  split; simpl.
  - intros u d. rewrite elem_of_empty, elem_of_nil. done.
  - apply list_fmap_const_seq.
  - apply list_fmap_const_seq.
  - apply list_fmap_const_seq.
Qed.

Lemma zero_degrees_tab (l : list EdgePlan) n :
  zero_degrees ((λ i, length (in_edges l i)) <$> seq 0 n) =
    filter (λ i, in_edges l i = []) (seq 0 n).
Proof.
  unfold zero_degrees. rewrite length_fmap, length_seq. apply list_filter_iff_seq.
  intros i Hi. rewrite lookup_tab by done. rewrite (inj_iff Some), length_zero_iff_nil. done.
Qed.

Lemma kahn_init g :
  KahnInv (length (nodes g)) (edges g)
    ((λ i, length (in_edges (edges g) i)) <$> seq 0 (length (nodes g)))
    (filter (λ i, in_edges (edges g) i = []) (seq 0 (length (nodes g)))) [].
Proof.
  assert (∀ d, pending_in (edges g) [] d = in_edges (edges g) d) as Hp.
  { intros d. apply list_filter_iff. intros e. rewrite elem_of_nil. tauto. }
  split; simpl.
  - apply list_fmap_ext. intros i x _. by rewrite Hp.
  - apply NoDup_filter, NoDup_seq.
  - intros d [_ Hd%elem_of_seq]%list_elem_of_filter. lia.
  - intros d Hd. rewrite Hp, list_elem_of_filter, elem_of_seq. split; [intros; split; [done|lia]|tauto].
  - done.
Qed.

Lemma reports_split g er :
  reports g er ↔
  (∃ j b, nodes g !! j = Some b ∧ er = DuplicateName (name b) ∧
     (name b ∈ (∅ : gset string) ∨ ∃ i a, i < j ∧ nodes g !! i = Some a ∧ name a = name b)) ∨
  (∃ i j e, i < j ∧ length (@nil EdgePlan) ≤ j ∧ ([] ++ edges g) !! i = Some e ∧
     ([] ++ edges g) !! j = Some e ∧ edge_reported g e er) ∨
  (∃ j nd, nodes g !! j = Some nd ∧
     er ∈ node_errors nd (length (in_edges (edges g) (0 + j)))
                         (length (out_edges (edges g) (0 + j)))) ∨
  (∃ ids, ids ≠ [] ∧ StronglySorted lt ids ∧ (∀ i, i ∈ ids ↔ below_cycle g i) ∧
     er = Cycle (omap (λ i, name <$> nodes g !! i) ids)).
Proof.
  simpl. split.
  - assert (∀ i nd, nodes g !! i = Some nd →
      er ∈ node_errors nd (length (in_edges (edges g) i)) (length (out_edges (edges g) i)) →
      ∃ j nd, nodes g !! j = Some nd ∧
        er ∈ node_errors nd (length (in_edges (edges g) j)) (length (out_edges (edges g) j)))
      as Hnode by eauto.
    intros Hrep. inversion Hrep as
      [i j a b Hij Ha Hb Hab|i j e a b Hij Hi Hj Ha Hb|i nd Hi Hk Hl|i nd Hi Hk Hl|i nd Hi Hk Hl
      |i nd Hi Hk Hl|i nd Hi Hk Hl|ids Hne Hs Hids]; subst.
    + left. exists j, b. eauto 10.
    + right; left. exists i, j, e. split_and!; [done|lia|done|done|]. by exists a, b.
    + right; right; left. apply (Hnode i nd Hi). unfold node_errors. rewrite Hk. cbn iota.
      rewrite !elem_of_app, !elem_of_if, length_pos. tauto.
    + right; right; left. apply (Hnode i nd Hi). unfold node_errors. rewrite Hk. cbn iota.
      rewrite !elem_of_app, !elem_of_if, length_zero_iff_nil. tauto.
    + right; right; left. apply (Hnode i nd Hi). unfold node_errors.
      rewrite !elem_of_app, !elem_of_if, (length_pos (out_edges _ _)). tauto.
    + right; right; left. apply (Hnode i nd Hi). unfold node_errors.
      rewrite !elem_of_app, !elem_of_if, (length_zero_iff_nil (out_edges _ _)). tauto.
    + right; right; left. apply (Hnode i nd Hi). unfold node_errors.
      rewrite !elem_of_app, !elem_of_if. tauto.
    + right; right; right. by exists ids.
  - intros [(j & b & Hb & -> & [?%elem_of_empty|(i & a & Hij & Ha & E)])
      |[(i & j & e & Hij & _ & Hi & Hj & a & b & Ha & Hb & ->)
      |[Hnode|(ids & Hne & Hs & Hids & ->)]]].
    + done.
    + by eapply report_name.
    + by eapply report_edge.
    + by apply node_errors_reports.
    + by apply report_cycle.
Qed.

Lemma validate_spec g :
  edges_in_range g →
  ∃ errors deg order tl,
    validate_and_order g = Ret (match errors with [] => inr order | _ => inl errors end) ∧
    KahnInv (length (nodes g)) (edges g) deg [] order ∧
    order = filter (λ i, in_edges (edges g) i = []) (seq 0 (length (nodes g))) ++ tl ∧
    ∀ er, er ∈ errors ↔ reports g er.
Proof.
  intros Hr. unfold validate_and_order. cbv zeta.
  destruct (edge_pass_spec g (length (nodes g)) [] _
    (edges g) eq_refl Hr (tables_init _)) as (t & errs1 & -> & Ht & Herrs1).
  rewrite mbind_ret. simpl in Ht.
  destruct (check_nodes_spec 0 (nodes g) t (edges g) (length (nodes g)) Ht) as (errs2 & -> & Herrs2); [done|].
  rewrite mbind_ret, (tr_in _ _ _ Ht), (tr_adj _ _ _ Ht), zero_degrees_tab.
  destruct (kahn_spec _ (edges g) Hr (S (length (nodes g))) _ _ [] (kahn_init g)) as (deg & order & -> & Hinv & tl & Heq);
    [simpl; lia|].
  rewrite mbind_ret. eexists _, deg, order, tl. split_and!; [reflexivity|done|done|].
  intros er. rewrite !elem_of_app, check_names_elem, Herrs1, Herrs2.
  rewrite (cycle_reported g deg order Hr Hinv). by rewrite reports_split.
Qed.

Lemma valid_no_reports g deg order :
  edges_in_range g → KahnInv (length (nodes g)) (edges g) deg [] order →
  (∀ er, ¬ reports g er) ↔ Valid g.
Proof.
  intros Hr Hinv. split.
  - intros Hno. split.
    + apply dec_stable. intros (i & j & x & Hij & Hi & Hj)%not_NoDup_lookup.
      rewrite list_lookup_fmap in Hi, Hj. apply fmap_Some in Hi as (a & Ha & ->). apply fmap_Some in Hj as (b & Hb & E).
      exact (Hno _ (report_name g i j a b Hij Ha Hb E)).
    + apply dec_stable. intros (i & j & e & Hij & Hi & Hj)%not_NoDup_lookup.
      destruct (proj1 (Forall_forall _ _) Hr e) as [Hu Hd]; [by eapply list_elem_of_lookup_2|].
      destruct (lookup_lt_is_Some_2 _ _ Hu) as [a Ha], (lookup_lt_is_Some_2 _ _ Hd) as [b Hb].
      exact (Hno _ (report_edge g i j e a b Hij Hi Hj Ha Hb)).
    + intros i nd Hi. split; rewrite ?length_pos, ?length_zero_iff_nil.
      * intros Hk. apply dec_stable. intros H. exact (Hno _ (report_source_input g i nd Hi Hk H)).
      * intros Hk H. exact (Hno _ (report_needs_input g i nd Hi Hk H)).
      * intros Hk. apply dec_stable. intros H. exact (Hno _ (report_sink_output g i nd Hi Hk H)).
      * intros Hk H. exact (Hno _ (report_needs_output g i nd Hi Hk H)).
      * intros Hm. apply Nat.nlt_ge. intros H. exact (Hno _ (report_move g i nd Hi Hm H)).
    + apply (order_full_acyclic g deg order Hr Hinv). apply dec_stable. intros Hne.
      assert (length order < length (nodes g)) as Hlt.
      { pose proof (order_length g deg order Hinv). lia. }
      destruct (proj1 (cycle_reported g deg order Hr Hinv (Cycle (stuck_names g deg))))
        as (ids & H1 & H2 & H3 & _); [by apply elem_of_if|].
      exact (Hno _ (report_cycle g ids H1 H2 H3)).
  - intros [Hn He Hnd Hac] er Hrep. destruct Hrep as
      [i j a b Hij Ha Hb Hab|i j e a b Hij Hi Hj Ha Hb|i nd Hi Hk Hl|i nd Hi Hk Hl|i nd Hi Hk Hl
      |i nd Hi Hk Hl|i nd Hi Hk Hl|ids Hne Hs Hids];
      try (apply Hnd in Hi; destruct Hi as [Hs Hin Hsk Hout Hm]).
    + revert Hn. apply not_NoDup_lookup. exists i, j, (name a).
      rewrite !list_lookup_fmap, Ha, Hb. simpl. by rewrite Hab.
    + revert He. apply not_NoDup_lookup. exists i, j, e. done.
    + apply Hl, length_zero_iff_nil. auto.
    + apply Hin in Hk. rewrite Hl in Hk. simpl in Hk. lia.
    + apply Hl, length_zero_iff_nil. auto.
    + apply Hout in Hk. rewrite Hl in Hk. simpl in Hk. lia.
    + apply Hm in Hk. lia.
    + destruct ids as [|x ids]; [done|]. destruct (proj1 (Hids x)) as (j & Hj & _); [by left|].
      by apply Hac in Hj.
Qed.

(** The order of a valid plan: all the nodes, upstream ends first. *)
Lemma validate_returns g :
  edges_in_range g →
  ∃ r, validate_and_order g = Ret r ∧
    match r with
    | inr order => Valid g ∧ order ≡ₚ seq 0 (length (nodes g)) ∧
        ∀ k d u, order !! k = Some d → has_edge g u d → ∃ j, j < k ∧ order !! j = Some u
    | inl _ => ¬ Valid g
    end.
Proof.
  intros Hr. destruct (validate_spec g Hr) as (errors & deg & order & tl & -> & Hinv & _ & Her).
  pose proof (valid_no_reports g deg order Hr Hinv) as Hv. eexists. split; [reflexivity|].
  destruct errors as [|er errors].
  - assert (Valid g) as HV by (apply Hv; intros er Hrep%Her; by apply not_elem_of_nil in Hrep).
    split_and!; [done| |apply (ki_topo _ _ _ _ _ Hinv)].
    by apply (order_full g deg order Hinv), (order_full_acyclic g deg order Hr Hinv), v_acyclic.
  - intros HV. apply (proj2 Hv HV er), Her. by left.
Qed.

(** C13: for every plan whose edges name registered nodes, [validate_and_order]
    neither panics nor diverges; it accepts exactly the valid plans (unique
    names, no duplicate edge, degree and fan-out rules, no cycle), and the
    order it returns is a permutation of the nodes that starts with the nodes
    without inputs in registration order and puts the upstream end of every
    edge before its downstream end. *)
Theorem validate_and_order_correct (g : GraphPlan) (Hr : edges_in_range g) :
  match validate_and_order g with
  | Ret (inr order) =>
      Valid g ∧ order ≡ₚ seq 0 (length (nodes g)) ∧
      (∃ tl, order = filter (λ i, in_edges (edges g) i = []) (seq 0 (length (nodes g))) ++ tl) ∧
      ∀ u d, has_edge g u d → ∃ i j, i < j ∧ order !! i = Some u ∧ order !! j = Some d
  | Ret (inl errors) => ¬ Valid g
  | _ => False
  end.
Proof.
  destruct (validate_spec g Hr) as (errors & deg & order & tl & -> & Hinv & Htl & Her).
  pose proof (valid_no_reports g deg order Hr Hinv) as Hv. destruct errors as [|er errors].
  - assert (Valid g) as HV by (apply Hv; intros er Hrep%Her; by apply not_elem_of_nil in Hrep).
    assert (order ≡ₚ seq 0 (length (nodes g))) as Hp.
    { by apply (order_full g deg order Hinv), (order_full_acyclic g deg order Hr Hinv), v_acyclic. }
    split_and!; [done|done|by exists tl|]. intros u d He.
    assert (d ∈ order) as [j Hj]%list_elem_of_lookup.
    { rewrite Hp, elem_of_seq. destruct (proj1 (Forall_forall _ _) Hr _ He). simpl in *. lia. }
    destruct (ki_topo _ _ _ _ _ Hinv j d u Hj He) as (i & Hi & Hu). by exists i, j.
  - intros HV. apply (proj2 Hv HV er), Her. by left.
Qed.

Definition demo_plan : GraphPlan :=
  mkPlan [mkNode "src" Source Broadcast default_opts; mkNode "a" Sync Move default_opts; mkNode "b" Async Move default_opts;
          mkNode "sink" Sink Move default_opts]
         [mkEdge 0 2; mkEdge 0 1; mkEdge 1 3; mkEdge 2 3].

Lemma validate_and_order_correct_witness :
  validate_and_order demo_plan = Ret (inr [0; 2; 1; 3]) ∧ Valid demo_plan.
Proof.
  assert (edges_in_range demo_plan) as Hr
    by (unfold edges_in_range; repeat constructor; simpl; lia).
  assert (validate_and_order demo_plan = Ret (inr [0; 2; 1; 3])) as E by (vm_compute; reflexivity).
  split; [exact E|].
  pose proof (validate_and_order_correct demo_plan Hr) as H. rewrite E in H. exact (proj1 H).
Defined.

(** C30: the error report is exact: an error is listed iff the plan has that
    defect ([reports]).  In particular the cycle error is raised iff a cycle
    exists and lists, in registration order, precisely the nodes on a cycle or
    downstream of one; a rejected plan has a non-empty report. *)
Theorem validate_errors_exact (g : GraphPlan) (Hr : edges_in_range g) :
  match validate_and_order g with
  | Ret (inr order) => ∀ er, ¬ reports g er
  | Ret (inl errors) => errors ≠ [] ∧ ∀ er, er ∈ errors ↔ reports g er
  | _ => False
  end.
Proof.
  destruct (validate_spec g Hr) as (errors & deg & order & tl & -> & _ & _ & Her).
  destruct errors as [|er errors]; [|done].
  intros er Hrep%Her. by apply not_elem_of_nil in Hrep.
Qed.

Definition cyclic_plan : GraphPlan :=
  mkPlan [mkNode "src" Source Move default_opts; mkNode "a" Sync Broadcast default_opts; mkNode "b" Sync Broadcast default_opts;
          mkNode "sink" Sink Move default_opts; mkNode "a" Sink Move default_opts]
         [mkEdge 0 1; mkEdge 1 2; mkEdge 2 1; mkEdge 2 3; mkEdge 1 3].

Lemma validate_errors_exact_witness :
  validate_and_order cyclic_plan =
    Ret (inl [DuplicateName "a"; NodeNeedsInput "a"; Cycle ["a"; "b"; "sink"]%string])
  ∧ reports cyclic_plan (Cycle ["a"; "b"; "sink"]%string).
Proof.
  assert (edges_in_range cyclic_plan) as Hr
    by (unfold edges_in_range; repeat constructor; simpl; lia).
  assert (validate_and_order cyclic_plan =
    Ret (inl [DuplicateName "a"; NodeNeedsInput "a"; Cycle ["a"; "b"; "sink"]%string])) as E
    by (vm_compute; reflexivity).
  split; [exact E|].
  pose proof (validate_errors_exact cyclic_plan Hr) as H. rewrite E in H.
  apply (proj2 H). set_solver.
Defined.
