(* ===== verification/Fanin.v ===== *)
(** * Fanin: fair claims over the input edges of a graph node

    Model of [FanIn] and [RoundSpin] of [crates/youpipe/src/graph/fanin.rs]:
    the non-blocking round, the spin before parking with its adaptive budget,
    and the blocking anchor over every open input.

    Receivers are the interface [RecvItem] of [Channel]; the any-of-N wait of
    [crossfire::select] is the interface [SelectItem].  What the clock shows is
    an argument: [expired] answers the checks [start.elapsed() >= window] of a
    spin by poll number, [parked] is the latency of a blocking anchor in
    nanoseconds. *)

From S2P Require Import Prelude Channel.

(** ** The adaptive spin budget *)

Module RoundSpin.
Local Open Scope Z_scope.

(** Both fields are [u32]. *)
Record RoundSpin : Type := mkSpin { budget_us : Z; max_us : Z }.

Definition SPIN_ROUNDS_PER_US : Z := 64.
Definition MAX_POLL_PAUSES : Z := 64.

Definition new (max_us : Z) : RoundSpin := mkSpin 0 max_us.

Definition initial (max_us : Z) : Z := Z.max (max_us / 16) 1.

(** [u32::saturating_mul]. *)
Definition saturating_mul (a b : Z) : Z := Z.min (a * b) (2 ^ 32 - 1).

(** [parked] in nanoseconds. *)
Definition note_park (s : RoundSpin) (parked : Z) : RoundSpin :=
  let live_below := max_us s * 4 * 1000 in
  if bool_decide (parked ≤ live_below) then
    mkSpin (Z.min (Z.max (saturating_mul (budget_us s) 2) (initial (max_us s))) (max_us s)) (max_us s)
  else mkSpin (budget_us s / 4) (max_us s).

Definition spin_ok (s : RoundSpin) : Prop := 0 ≤ budget_us s ≤ max_us s ∧ max_us s < 2 ^ 32.

Lemma note_park_ok s parked : spin_ok s → spin_ok (note_park s parked).
Proof.
  intros [Hb Hm]. unfold note_park, spin_ok, saturating_mul, initial.
  case_bool_decide; simpl; [lia|]. split; [|done]. split; [apply Z.div_pos; lia|].
  pose proof (Z.div_le_upper_bound (budget_us s) 4 (max_us s)). lia.
Qed.

Lemma note_park_live s parked :
  spin_ok s → parked ≤ max_us s * 4 * 1000 →
  budget_us (note_park s parked) =
    Z.min (Z.max (budget_us s * 2) (initial (max_us s))) (max_us s) ∧
  max_us (note_park s parked) = max_us s.
Proof.
  intros [Hb Hm] Hp. unfold note_park, saturating_mul. rewrite bool_decide_eq_true_2 by done. simpl. lia.
Qed.

(** Anchors that each return within the live window. *)
Definition live_parks (s : RoundSpin) (parks : list Z) : RoundSpin := foldl note_park s parks.

Lemma live_parks_grow s parks :
  spin_ok s → Forall (λ p, p ≤ max_us s * 4 * 1000) parks →
  spin_ok (live_parks s parks) ∧ max_us (live_parks s parks) = max_us s ∧
  (parks = [] ∨
   Z.min (max_us s) (2 ^ Z.of_nat (length parks - 1) * initial (max_us s)) ≤ budget_us (live_parks s parks)).
Proof.
  intros Hs. induction parks as [|p parks IH] using rev_ind; intros Hp; [split; [done|]; split; [done|by left]|].
  apply Forall_app in Hp as [Hps [Hp _]%Forall_cons]. destruct (IH Hps) as (Hok & Hmax & Hb).
  unfold live_parks in *. rewrite foldl_app. simpl.
  destruct (note_park_live (foldl note_park s parks) p Hok) as [-> ->]; [by rewrite Hmax|].
  split; [by apply note_park_ok|]. split; [done|]. right. rewrite Hmax, length_app. simpl.
  destruct Hb as [->|Hb]; [simpl; lia|].
  destruct parks as [|q parks]; [simpl; lia|]. simpl in Hb |- *.
  replace (length parks + 1 - 0)%nat with (S (length parks)) by lia.
  rewrite Nat2Z.inj_succ, Z.pow_succ_r, <- Z.mul_assoc by lia. rewrite Nat.sub_0_r in Hb.
  destruct Hok. lia.
Qed.

End RoundSpin.
Import RoundSpin (RoundSpin, mkSpin, budget_us, max_us, note_park).

(** ** The any-of-N wait *)

(** [select cs] blocks on the registered receivers [cs]; it returns the slot of
    the winner, its new state, and its item or [None] for a close event;
    [None] when no receiver is registered. *)
Class SelectItem (C T : Type) : Type := {
  select : list C → option (nat * C * option T);
}.

Class SelectLaws (C T : Type) `{SelectItem C T} (arrivals : C → list T → Prop) : Prop := {
  select_returns (cs : list C) : cs ≠ [] → is_Some (select cs);
  select_slot cs slot c' r : select cs = Some (slot, c', r) → slot < length cs;
  select_item cs slot c c' x l : select cs = Some (slot, c', Some x) → cs !! slot = Some c →
    arrivals c l → ∃ l', l = x :: l' ∧ arrivals c' l';
  select_close cs slot c c' l : select cs = Some (slot, c', None) → cs !! slot = Some c →
    arrivals c l → l = [];
}.

(** What one claim sees of the clock. *)
Record Clock : Type := mkClock { expired : Z → bool; parked : Z }.

(** ** [FanIn] *)

Record FanIn (C : Type) : Type := mkFanIn {
  rxs : list C;
  closed : list bool;
  cursor : nat;
  open : nat;
}.
Arguments mkFanIn {C}.
Arguments rxs {C} f.
Arguments closed {C} f.
Arguments cursor {C} f.
Arguments open {C} f.

Section fanin.
Context {C T : Type} `{RecvItem C T} `{SelectItem C T}.
(** The capacity of the scratch vector and the batch cap of a claim. *)
Context (spare claim_cap : nat).
Implicit Types (f : FanIn C) (scratch : list T).

Definition fanin_new (rxs : list C) : FanIn C :=
  mkFanIn rxs (replicate (length rxs) false) 0 (length rxs).

(** [self.closed[i] = true; self.open -= 1]. *)
Definition mark_closed f (i : nat) : outcome (FanIn C) :=
  cl ← vec_set (closed f) (Z.of_nat i) true;
  match open f with
  | O => Panic
  | S o => mret (mkFanIn (rxs f) cl (cursor f) o)
  end.

(** The receiver behind [self.rxs[i]] moved to state [c]. *)
Definition set_rx f (i : nat) (c : C) : outcome (FanIn C) :=
  l ← vec_set (rxs f) (Z.of_nat i) c;
  mret (mkFanIn l (closed f) (cursor f) (open f)).

Definition set_cursor f (i : nat) : FanIn C :=
  mkFanIn (rxs f) (closed f) ((i + 1) mod length (rxs f)) (open f).

(** The [for k in 0..n] loop of [round], [todo] turns from [k] on. *)
Fixpoint round_from (k todo : nat) f scratch : outcome (FanIn C * list T * option nat) :=
  match todo with
  | O => mret (f, scratch, None)
  | S todo =>
      let i := (cursor f + k) mod length (rxs f) in
      is_closed ← vec_get (closed f) (Z.of_nat i);
      if is_closed : bool then round_from (S k) todo f scratch
      else
        c ← vec_get (rxs f) (Z.of_nat i);
        '(c', scratch1, verdict) ← claim_poll c scratch spare claim_cap;
        f1 ← set_rx f i c';
        match verdict with
        | Ready m => mret (set_cursor f1 i, scratch1, Some m)
        | ClaimClosed => f2 ← mark_closed f1 i; round_from (S k) todo f2 scratch1
        | ClaimEmpty => round_from (S k) todo f1 scratch1
        end
  end.

Definition round f scratch : outcome (FanIn C * list T * option nat) :=
  round_from 0 (length (rxs f)) f scratch.

(** [RoundSpin::spin_rounds]: the poll loop. *)
Fixpoint spin_loop (fuel : nat) (late : Z → bool) (max_polls pauses polls : Z) f scratch :
    outcome (FanIn C * list T * option nat) :=
  match fuel with
  | O => NoFuel
  | S fuel =>
      '(f1, scratch1, r) ← round f scratch;
      match r with
      | Some m => mret (f1, scratch1, Some m)
      | None =>
          if bool_decide (max_polls ≤ polls)%Z || (bool_decide (Z.land polls 7 = 7%Z) && late polls)
          then mret (f1, scratch1, None)
          else spin_loop fuel late max_polls
                 (Z.min (RoundSpin.saturating_mul pauses 2) RoundSpin.MAX_POLL_PAUSES)
                 (polls + 1)%Z f1 scratch1
      end
  end.

Definition spin_rounds (spin : RoundSpin) (late : Z → bool) f scratch :
    outcome (FanIn C * list T * option nat) :=
  if bool_decide (budget_us spin = 0%Z) then mret (f, scratch, None)
  else
    let max_polls := (budget_us spin * RoundSpin.SPIN_ROUNDS_PER_US)%Z in
    spin_loop (S (Z.to_nat max_polls)) late max_polls 1 0 f scratch.

(** The [for k in 0..n] loop of [anchor_single]. *)
Fixpoint anchor_single_from (k todo : nat) f scratch : outcome (FanIn C * list T * nat) :=
  match todo with
  | O => mret (f, scratch, 0)
  | S todo =>
      let i := (cursor f + k) mod length (rxs f) in
      is_closed ← vec_get (closed f) (Z.of_nat i);
      if is_closed : bool then anchor_single_from (S k) todo f scratch
      else
        c ← vec_get (rxs f) (Z.of_nat i);
        let '(c', r) := recv c in
        f1 ← set_rx f i c';
        match r with
        | Some item => mret (set_cursor f1 i, scratch ++ [item], 1)
        | None => f2 ← mark_closed f1 i; anchor_single_from (S k) todo f2 scratch
        end
  end.

Definition anchor_single f scratch : outcome (FanIn C * list T * nat) :=
  anchor_single_from 0 (length (rxs f)) f scratch.

(** The registration order: the open inputs from the cursor on. *)
Definition anchor_order f : list nat :=
  filter (λ i, closed f !! i = Some false)
    ((λ k, (cursor f + k) mod length (rxs f)) <$> seq 0 (length (rxs f))).

(** The [loop] of [anchor]: each turn that does not return closes an input. *)
Fixpoint anchor_loop (fuel : nat) f scratch : outcome (FanIn C * list T * nat) :=
  match fuel with
  | O => NoFuel
  | S fuel =>
      if bool_decide (open f = 0) then mret (f, scratch, 0)
      else
        let order := anchor_order f in
        match select (omap (λ i, rxs f !! i) order) with
        | None => Panic
        | Some (slot, c', r) =>
            ring ← vec_get order (Z.of_nat slot);
            f1 ← set_rx f ring c';
            match r with
            | Some item => mret (set_cursor f1 ring, scratch ++ [item], 1)
            | None => f2 ← mark_closed f1 ring; anchor_loop fuel f2 scratch
            end
        end
  end.

Definition anchor f scratch : outcome (FanIn C * list T * nat) :=
  if bool_decide (open f = 1) then anchor_single f scratch
  else anchor_loop (S (open f)) f scratch.

(** [claim]: a round, then a spin, then the blocking anchor; 0 is end of
    stream. *)
Definition claim (clock : Clock) f scratch (spin : RoundSpin) :
    outcome (FanIn C * list T * RoundSpin * nat) :=
  '(f1, s1, r1) ← round f scratch;
  match r1 with
  | Some m => mret (f1, s1, spin, m)
  | None =>
      '(f2, s2, r2) ← spin_rounds spin (expired clock) f1 s1;
      match r2 with
      | Some m => mret (f2, s2, spin, m)
      | None =>
          if bool_decide (open f2 = 0) then mret (f2, s2, spin, 0)
          else
            '(f3, s3, got) ← anchor f2 s2;
            let spin' := if bool_decide (0 < max_us spin)%Z && bool_decide (0 < got)
                         then note_park spin (parked clock) else spin in
            mret (f3, s3, spin', got)
      end
  end.

(** ** The state invariant *)

Context (arrivals : C → list T → Prop) `{!RecvLaws C T arrivals} `{!SelectLaws C T arrivals}.

(** [FanOk f ls]: input [i] still has [ls !! i] to hand out, the closed ones
    nothing, and [open] counts the others. *)
Record FanOk f (ls : list (list T)) : Prop := {
  fo_closed : length (closed f) = length (rxs f);
  fo_ls : length ls = length (rxs f);
  fo_open : open f = length (filter (λ b, b = false) (closed f));
  fo_cursor : cursor f < length (rxs f) ∨ rxs f = [];
  fo_input i c b l : rxs f !! i = Some c → closed f !! i = Some b → ls !! i = Some l →
    if b : bool then l = [] else arrivals c l;
}.

(** Some items of one input were handed out, the other inputs are untouched. *)
Definition Took (ls : list (list T)) (scratch : list T) (ls' : list (list T)) : Prop :=
  ∃ i l', ls !! i = Some (scratch ++ l') ∧ ls' = <[i := l']> ls.

(** The result of a round: a nonempty claim of bounded size, or nothing. *)
Definition Rounded (ls : list (list T)) f' (scratch : list T) (r : option nat) : Prop :=
  match r with
  | Some m => m = length scratch ∧ 0 < m ≤ spare `max` 1 ∧ ∃ ls', Took ls scratch ls' ∧ FanOk f' ls'
  | None => scratch = [] ∧ FanOk f' ls
  end.

Lemma fanin_new_ok cs ls : Forall2 arrivals cs ls → FanOk (fanin_new cs) ls.
Proof.
  intros Hf. pose proof (Forall2_length _ _ _ Hf) as Hlen. split; simpl.
  - apply length_replicate.
  - done.
  - clear. induction (length cs) as [|n IH]; simpl; [done|]. by rewrite <- IH.
  - destruct cs; [by right|left; simpl; lia].
  - intros i c b l Hc Hb Hl. apply lookup_replicate in Hb as [-> _].
    by eapply Forall2_lookup_lr.
Qed.

Lemma fan_lookup f ls i : FanOk f ls → i < length (rxs f) →
  ∃ c b l, rxs f !! i = Some c ∧ closed f !! i = Some b ∧ ls !! i = Some l.
Proof.
  intros [Hc Hl _ _ _] Hi.
  destruct (lookup_lt_is_Some_2 (rxs f) i) as [c ?]; [lia|].
  destruct (lookup_lt_is_Some_2 (closed f) i) as [b ?]; [lia|].
  destruct (lookup_lt_is_Some_2 ls i) as [l ?]; [lia|]. eauto 10.
Qed.

Lemma filter_close (cl : list bool) i :
  cl !! i = Some false →
  length (filter (λ b, b = false) cl) = S (length (filter (λ b, b = false) (<[i := true]> cl))).
Proof.
  revert i. induction cl as [|b cl IH]; intros [|i] Hi; simplify_eq/=.
  - done.
  - rewrite !filter_cons. case_decide; simpl; by rewrite (IH i).
Qed.

Lemma no_open_input f ls i l : FanOk f ls → open f = 0 → ls !! i = Some l → l = [].
Proof.
  intros HF Ho Hl. pose proof (lookup_lt_Some _ _ _ Hl) as Hi. rewrite (fo_ls _ _ HF) in Hi.
  destruct (fan_lookup f ls i HF Hi) as (c & b & l1 & Hc & Hb & Hl1). simplify_eq.
  pose proof (fo_input _ _ HF _ _ _ _ Hc Hb Hl) as Hin. destruct b; [done|].
  pose proof (fo_open _ _ HF) as Hn. rewrite Ho, (filter_close _ _ Hb) in Hn. lia.
Qed.

Lemma open_input f ls i c l :
  FanOk f ls → rxs f !! i = Some c → closed f !! i = Some false → ls !! i = Some l → arrivals c l.
Proof. intros HF Hc Hb Hl. apply (fo_input _ _ HF _ _ _ _ Hc Hb Hl). Qed.

(** The receiver of an open input moves on to what it has left. *)
Lemma set_rx_ok f ls i c' l' :
  FanOk f ls → closed f !! i = Some false → arrivals c' l' →
  ∃ f1, set_rx f i c' = Ret f1 ∧ FanOk f1 (<[i := l']> ls) ∧
    rxs f1 = <[i := c']> (rxs f) ∧ closed f1 = closed f ∧ cursor f1 = cursor f ∧ open f1 = open f.
Proof.
  intros HF Hb Ha. pose proof (lookup_lt_Some _ _ _ Hb) as Hi. destruct HF as [Hc Hl Ho Hcur Hin].
  unfold set_rx. rewrite vec_set_ret by lia. rewrite Nat2Z.id. eexists. split; [reflexivity|].
  split; [|done]. split; simpl; rewrite ?length_insert; try done.
  { destruct Hcur as [?| ->]; [by left|]. right. by destruct i. }
  intros j c b l Hc' Hb' Hl'. destruct (decide (j = i)) as [->|Hne].
  - rewrite list_lookup_insert_eq in Hc' by lia. rewrite list_lookup_insert_eq in Hl' by lia. by simplify_eq.
  - rewrite list_lookup_insert_ne in Hc' by done. rewrite list_lookup_insert_ne in Hl' by done. by apply (Hin j c b l).
Qed.

(** An exhausted input is marked closed. *)
Lemma close_ok f ls i c' :
  FanOk f ls → closed f !! i = Some false → ls !! i = Some [] →
  ∃ f1 f2, set_rx f i c' = Ret f1 ∧ mark_closed f1 i = Ret f2 ∧ FanOk f2 ls ∧
    rxs f2 = <[i := c']> (rxs f) ∧ closed f2 = <[i := true]> (closed f) ∧
    cursor f2 = cursor f ∧ S (open f2) = open f.
Proof.
  intros HF Hb Hnil. pose proof (lookup_lt_Some _ _ _ Hb) as Hi. destruct HF as [Hc Hl Ho Hcur Hin].
  unfold set_rx. rewrite vec_set_ret by lia. rewrite Nat2Z.id.
  pose proof (filter_close _ _ Hb) as Hfil.
  eexists _, (mkFanIn (<[i := c']> (rxs f)) (<[i := true]> (closed f)) (cursor f) (open f - 1)).
  split; [reflexivity|]. unfold mark_closed. cbn [closed open rxs cursor].
  rewrite vec_set_ret, Nat2Z.id, mbind_ret by lia.
  destruct (open f) as [|o] eqn:Eo; [lia|]. rewrite Nat.sub_succ, Nat.sub_0_r.
  split; [done|]. split; [|done]. split; simpl; rewrite ?length_insert; try done; [lia|..].
  { destruct Hcur as [?| ->]; [by left|]. right. by destruct i. }
  intros j c b l Hc' Hb' Hl'. destruct (decide (j = i)) as [->|Hne].
  - rewrite list_lookup_insert_eq in Hb' by lia. by simplify_eq.
  - rewrite list_lookup_insert_ne in Hc' by done. rewrite list_lookup_insert_ne in Hb' by done. by apply (Hin j c b l).
Qed.

Lemma set_cursor_ok f ls i : FanOk f ls → i < length (rxs f) → FanOk (set_cursor f i) ls.
Proof.
  intros [Hc Hl Ho Hcur Hin] Hi. split; simpl; try done. left. apply Nat.mod_upper_bound. lia.
Qed.

(** *** Rounds *)

(** One poll of an open input. *)
Lemma poll_ok f ls i c l :
  FanOk f ls → rxs f !! i = Some c → closed f !! i = Some false → ls !! i = Some l →
  ∃ c' scratch v, claim_poll c [] spare claim_cap = Ret (c', scratch, v) ∧
    Claimed arrivals l spare c' scratch v.
Proof. intros HF Hc Hb Hl. by apply (claim_poll_spec arrivals), (open_input f ls i c l). Qed.

Lemma vec_get_nth {A} (l : list A) i x : l !! i = Some x → vec_get l (Z.of_nat i) = Ret x.
Proof. intros Hl. apply vec_get_ret; [lia|by rewrite Nat2Z.id]. Qed.

Lemma took_insert (ls : list (list T)) i scratch l' :
  ls !! i = Some (scratch ++ l') → Took ls scratch (<[i := l']> ls).
Proof. intros. by exists i, l'. Qed.

Lemma round_from_spec k todo f ls :
  FanOk f ls → todo ≤ length (rxs f) →
  ∃ f' scratch r, round_from k todo f [] = Ret (f', scratch, r) ∧
    length (rxs f') = length (rxs f) ∧ Rounded ls f' scratch r.
Proof.
  revert k f. induction todo as [|todo IH]; intros k f HF Hle; cbn [round_from]; [by eexists _, _, _|].
  set (i := (cursor f + k) mod length (rxs f)).
  assert (i < length (rxs f)) as Hi by (apply Nat.mod_upper_bound; lia).
  destruct (fan_lookup f ls i HF Hi) as (c & b & l & Hc & Hb & Hl).
  rewrite (vec_get_nth _ _ _ Hb), mbind_ret. destruct b; [apply IH; [done|lia]|].
  rewrite (vec_get_nth _ _ _ Hc), mbind_ret.
  destruct (poll_ok f ls i c l HF Hc Hb Hl) as (c' & s & v & -> & Hv). rewrite mbind_ret.
  destruct v as [m| |]; simpl in Hv.
  - destruct Hv as (-> & Hm & l' & -> & Ha).
    destruct (set_rx_ok f ls i c' l' HF Hb Ha) as (f1 & -> & HF1 & Hr & _). rewrite mbind_ret.
    eexists _, _, _. split; [done|]. simpl. rewrite Hr, length_insert. split; [done|].
    split; [done|]. split; [done|]. exists (<[i := l']> ls). split; [by apply took_insert|].
    apply set_cursor_ok; [done|]. by rewrite Hr, length_insert.
  - destruct Hv as [-> Ha].
    destruct (set_rx_ok f ls i c' l HF Hb Ha) as (f1 & -> & HF1 & Hr & _). rewrite mbind_ret.
    rewrite list_insert_id in HF1 by done.
    destruct (IH (S k) f1 HF1) as (f' & s & r & -> & Hlen & HR); [rewrite Hr, length_insert; lia|].
    eexists _, _, _. split; [done|]. split; [|done]. by rewrite Hlen, Hr, length_insert.
  - destruct Hv as [-> ->].
    destruct (close_ok f ls i c' HF Hb Hl) as (f1 & f2 & -> & E2 & HF2 & Hr & _).
    rewrite mbind_ret, E2, mbind_ret.
    destruct (IH (S k) f2 HF2) as (f' & s & r & -> & Hlen & HR); [rewrite Hr, length_insert; lia|].
    eexists _, _, _. split; [done|]. split; [|done]. by rewrite Hlen, Hr, length_insert.
Qed.

Lemma round_spec f ls :
  FanOk f ls → ∃ f' scratch r, round f [] = Ret (f', scratch, r) ∧ Rounded ls f' scratch r.
Proof.
  intros HF. destruct (round_from_spec 0 (length (rxs f)) f ls HF) as (f' & s & r & E & _ & HR); [done|].
  by exists f', s, r.
Qed.

(** *** Spinning *)

Lemma spin_loop_spec fuel late max_polls pauses polls f ls :
  FanOk f ls → (max_polls - polls < Z.of_nat fuel)%Z → 0 < fuel →
  ∃ f' scratch r, spin_loop fuel late max_polls pauses polls f [] = Ret (f', scratch, r) ∧
    Rounded ls f' scratch r.
Proof.
  revert pauses polls f. induction fuel as [|fuel IH]; intros pauses polls f HF Hf H0'; [lia|].
  cbn [spin_loop]. destruct (round_spec f ls HF) as (f1 & s & r & -> & HR). rewrite mbind_ret.
  destruct r as [m|]; [by eexists _, _, _|]. destruct HR as [-> HF1].
  destruct (bool_decide (max_polls ≤ polls)%Z) eqn:E; [by eexists _, _, _|].
  apply bool_decide_eq_false in E. destruct (_ && _); [by eexists _, _, _|]. apply IH; [done|lia|lia].
Qed.

Lemma spin_rounds_spec spin late f ls :
  FanOk f ls →
  ∃ f' scratch r, spin_rounds spin late f [] = Ret (f', scratch, r) ∧ Rounded ls f' scratch r.
Proof.
  intros HF. unfold spin_rounds. case_bool_decide; [by eexists _, _, _|].
  apply spin_loop_spec; [done|lia|lia].
Qed.

(** *** The anchor *)

(** The result of a blocking wait: one item, or end of stream. *)
Definition Anchored (ls : list (list T)) f' (scratch : list T) (got : nat) : Prop :=
  (got = 1 ∧ length scratch = 1 ∧ ∃ ls', Took ls scratch ls' ∧ FanOk f' ls') ∨
  (got = 0 ∧ scratch = [] ∧ FanOk f' ls ∧ open f' = 0).

Lemma got_item f ls i c' x l' :
  FanOk f ls → closed f !! i = Some false → ls !! i = Some (x :: l') → arrivals c' l' →
  ∃ f1, set_rx f i c' = Ret f1 ∧ Anchored ls (set_cursor f1 i) [x] 1.
Proof.
  intros HF Hb Hl Ha. pose proof (lookup_lt_Some _ _ _ Hb) as Hi. rewrite (fo_closed _ _ HF) in Hi.
  destruct (set_rx_ok f ls i c' l' HF Hb Ha) as (f1 & -> & HF1 & Hr & _). eexists. split; [done|].
  left. split; [done|]. split; [done|]. exists (<[i := l']> ls). split; [by apply took_insert|].
  apply set_cursor_ok; [done|]. by rewrite Hr, length_insert.
Qed.

(** Every input from turn [k] on, once polled, is closed or hands out an item. *)
Lemma anchor_single_from_spec k todo f ls :
  FanOk f ls → todo ≤ length (rxs f) →
  (∀ i, closed f !! i = Some false → ∃ d, d < todo ∧ i = (cursor f + (k + d)) mod length (rxs f)) →
  ∃ f' scratch got, anchor_single_from k todo f [] = Ret (f', scratch, got) ∧ Anchored ls f' scratch got.
Proof.
  revert k f. induction todo as [|todo IH]; intros k f HF Hle Hopen; cbn [anchor_single_from].
  { eexists _, _, _. split; [done|]. right. split_and!; [done..|].
    rewrite (fo_open _ _ HF). destruct (filter _ _) as [|b bs] eqn:E; [done|].
    assert (b ∈ filter (λ b, b = false) (closed f)) as Hin by (rewrite E; left).
    apply list_elem_of_filter in Hin as [-> [i Hi]%list_elem_of_lookup].
    destruct (Hopen i Hi) as (d & ? & _). lia. }
  set (i := (cursor f + k) mod length (rxs f)).
  assert (i < length (rxs f)) as Hi by (apply Nat.mod_upper_bound; lia).
  assert (∀ f2, rxs f2 = rxs f ∨ (∃ c, rxs f2 = <[i := c]> (rxs f)) → cursor f2 = cursor f →
    (∀ j, closed f2 !! j = Some false → j ≠ i ∧ closed f !! j = Some false) →
    ∀ j, closed f2 !! j = Some false → ∃ d, d < todo ∧ j = (cursor f2 + (S k + d)) mod length (rxs f2)) as Hnext.
  { intros f2 Hrx Hcur Hcl j [Hne Hj]%Hcl.
    assert (length (rxs f2) = length (rxs f)) as ->.
    { destruct Hrx as [->|[c ->]]; [done|apply length_insert]. }
    rewrite Hcur. destruct (Hopen j Hj) as ([|d] & Hd & ->).
    - destruct Hne. unfold i. f_equal. lia.
    - exists d. split; [lia|]. f_equal. lia. }
  destruct (fan_lookup f ls i HF Hi) as (c & b & l & Hc & Hb & Hl).
  rewrite (vec_get_nth _ _ _ Hb), mbind_ret. destruct b.
  { apply IH; [done|lia|]. apply Hnext; [by left|done|]. intros j Hj. split; [|done]. congruence. }
  rewrite (vec_get_nth _ _ _ Hc), mbind_ret. pose proof (open_input f ls i c l HF Hc Hb Hl) as Ha.
  destruct (recv c) as [c' [x|]] eqn:E.
  - destruct (recv_some _ _ _ _ Ha E) as (l' & -> & Ha').
    destruct (got_item f ls i c' x l' HF Hb Hl Ha') as (f1 & -> & HA). by eexists _, _, _.
  - pose proof (recv_none _ _ _ Ha E) as ->.
    destruct (close_ok f ls i c' HF Hb Hl) as (f1 & f2 & -> & E2 & HF2 & Hr & Hcl & Hcur & _).
    rewrite mbind_ret, E2, mbind_ret. apply IH; [done|rewrite Hr, length_insert; lia|].
    apply Hnext; [right; by eexists|done|]. rewrite Hcl. intros j Hj.
    destruct (decide (j = i)) as [->|Hne].
    + rewrite list_lookup_insert_eq in Hj by (rewrite (fo_closed _ _ HF); lia). done.
    + by rewrite list_lookup_insert_ne in Hj by done.
Qed.

(** Rotating the indices by the cursor reaches every input. *)
Lemma rotation_covers n cur i : i < n → cur < n → ∃ d, d < n ∧ i = (cur + d) mod n.
Proof.
  intros Hi Hc. destruct (decide (cur ≤ i)) as [Hle|Hgt].
  - exists (i - cur). split; [lia|]. replace (cur + (i - cur)) with i by lia. by rewrite Nat.mod_small.
  - exists (i + n - cur). split; [lia|]. replace (cur + (i + n - cur)) with (i + 1 * n) by lia.
    by rewrite Nat.Div0.mod_add, Nat.mod_small.
Qed.

Lemma anchor_single_spec f ls :
  FanOk f ls →
  ∃ f' scratch got, anchor_single f [] = Ret (f', scratch, got) ∧ Anchored ls f' scratch got.
Proof.
  intros HF. apply anchor_single_from_spec; [done|done|]. intros i Hi.
  pose proof (lookup_lt_Some _ _ _ Hi) as Hlt. rewrite (fo_closed _ _ HF) in Hlt.
  destruct (fo_cursor _ _ HF) as [Hcur| Hnil]; [|rewrite Hnil in Hlt; simpl in Hlt; lia].
  by apply rotation_covers.
Qed.

Lemma anchor_order_elem f ls i :
  FanOk f ls → i ∈ anchor_order f ↔ closed f !! i = Some false.
Proof.
  intros HF. unfold anchor_order. rewrite list_elem_of_filter. split; [by intros [? _]|]. intros Hi.
  split; [done|]. pose proof (lookup_lt_Some _ _ _ Hi) as Hlt. rewrite (fo_closed _ _ HF) in Hlt.
  destruct (fo_cursor _ _ HF) as [Hcur| Hnil]; [|rewrite Hnil in Hlt; simpl in Hlt; lia].
  destruct (rotation_covers _ _ _ Hlt Hcur) as (d & Hd & ->).
  apply list_elem_of_fmap. exists d. split; [done|]. apply elem_of_seq. lia.
Qed.

Lemma open_order f ls : FanOk f ls → open f ≠ 0 → anchor_order f ≠ [].
Proof.
  intros HF Ho Hnil. apply Ho. rewrite (fo_open _ _ HF).
  destruct (filter _ _) as [|b bs] eqn:E; [done|].
  assert (b ∈ filter (λ b, b = false) (closed f)) as Hin by (rewrite E; left).
  apply list_elem_of_filter in Hin as [-> [i Hi]%list_elem_of_lookup].
  apply (anchor_order_elem f ls i HF) in Hi. rewrite Hnil in Hi. by apply not_elem_of_nil in Hi.
Qed.

(** Every registered index is in range, so slots and indices agree. *)
Lemma registered_slot f ls slot :
  FanOk f ls → slot < length (omap (λ i, rxs f !! i) (anchor_order f)) →
  ∃ ring c, anchor_order f !! slot = Some ring ∧ rxs f !! ring = Some c ∧
    omap (λ i, rxs f !! i) (anchor_order f) !! slot = Some c ∧ closed f !! ring = Some false.
Proof.
  intros HF Hs.
  assert (Forall (λ i, closed f !! i = Some false) (anchor_order f)) as Hall.
  { apply Forall_forall. intros i. by apply (anchor_order_elem f ls i HF). }
  revert slot Hs. induction Hall as [|i order Hi _ IH]; intros slot Hs; [by apply Nat.nlt_0_r in Hs|].
  simpl in *.
  pose proof (lookup_lt_Some _ _ _ Hi) as Hlt. rewrite (fo_closed _ _ HF) in Hlt.
  destruct (lookup_lt_is_Some_2 (rxs f) i Hlt) as [c Hc]. rewrite Hc in *. simpl in *.
  destruct slot as [|slot]; [by exists i, c|]. apply IH. by apply Nat.succ_lt_mono in Hs.
Qed.

Lemma anchor_loop_spec fuel f ls :
  FanOk f ls → open f < fuel →
  ∃ f' scratch got, anchor_loop fuel f [] = Ret (f', scratch, got) ∧ Anchored ls f' scratch got.
Proof.
  revert f. induction fuel as [|fuel IH]; intros f HF Hf; [lia|]. cbn [anchor_loop].
  case_bool_decide as Ho; [eexists _, _, _; split; [done|]; by right|].
  pose proof (open_order f ls HF Ho) as Hne.
  destruct (select_returns (omap (λ i, rxs f !! i) (anchor_order f))) as [[[slot c'] r] Es].
  { intros Hnil. destruct (anchor_order f) as [|i order] eqn:Eo; [done|].
    assert (closed f !! i = Some false) as Hi by (apply (anchor_order_elem f ls i HF); rewrite Eo; left).
    apply lookup_lt_Some in Hi. rewrite (fo_closed _ _ HF) in Hi.
    destruct (lookup_lt_is_Some_2 (rxs f) i Hi) as [c Hc]. simpl in Hnil. by rewrite Hc in Hnil. }
  rewrite Es. pose proof (select_slot _ _ _ _ Es) as Hs.
  destruct (registered_slot f ls slot HF Hs) as (ring & c & Hring & Hc & Hcs & Hb).
  rewrite (vec_get_nth _ _ _ Hring), mbind_ret.
  destruct (fan_lookup f ls ring HF) as (c1 & b & l & Hc1 & Hb1 & Hl); [by eapply lookup_lt_Some|].
  simplify_eq. pose proof (open_input f ls ring c l HF Hc Hb Hl) as Ha. destruct r as [x|].
  - destruct (select_item _ _ _ _ _ _ Es Hcs Ha) as (l' & -> & Ha').
    destruct (got_item f ls ring c' x l' HF Hb Hl Ha') as (f1 & -> & HA). by eexists _, _, _.
  - pose proof (select_close _ _ _ _ _ Es Hcs Ha) as ->.
    destruct (close_ok f ls ring c' HF Hb Hl) as (f1 & f2 & -> & E2 & HF2 & _ & _ & _ & Hopen).
    rewrite mbind_ret, E2, mbind_ret. apply IH; [done|lia].
Qed.

Lemma anchor_spec f ls :
  FanOk f ls → ∃ f' scratch got, anchor f [] = Ret (f', scratch, got) ∧ Anchored ls f' scratch got.
Proof.
  intros HF. unfold anchor. case_bool_decide; [by apply anchor_single_spec|].
  apply anchor_loop_spec; [done|lia].
Qed.

(** *** Claims *)

(** A claim takes a bounded nonempty run of one input, or returns 0 when every
    input is exhausted. *)
Definition ClaimDone (ls : list (list T)) f' (scratch : list T) (m : nat) : Prop :=
  m = length scratch ∧ m ≤ spare `max` 1 ∧
  ∃ ls', FanOk f' ls' ∧ if bool_decide (0 < m) then Took ls scratch ls'
                       else ls' = ls ∧ ∀ i l, ls !! i = Some l → l = [].

Lemma rounded_claim ls f' scratch m : Rounded ls f' scratch (Some m) → ClaimDone ls f' scratch m.
Proof.
  intros (-> & Hm & ls' & HT & HF). split; [done|]. split; [lia|]. exists ls'.
  rewrite bool_decide_eq_true_2 by lia. done.
Qed.

Lemma claim_spec clock f ls spin :
  FanOk f ls → RoundSpin.spin_ok spin →
  ∃ f' scratch spin' m, claim clock f [] spin = Ret (f', scratch, spin', m) ∧
    ClaimDone ls f' scratch m ∧ RoundSpin.spin_ok spin'.
Proof.
  intros HF Hs. unfold claim. destruct (round_spec f ls HF) as (f1 & s1 & r1 & -> & HR1). rewrite mbind_ret.
  destruct r1 as [m|]; [by eexists _, _, _, _; split_and!; [|apply rounded_claim|]|]. destruct HR1 as [-> HF1].
  destruct (spin_rounds_spec spin (expired clock) f1 ls HF1) as (f2 & s2 & r2 & -> & HR2). rewrite mbind_ret.
  destruct r2 as [m|]; [by eexists _, _, _, _; split_and!; [|apply rounded_claim|]|]. destruct HR2 as [-> HF2].
  case_bool_decide as Ho.
  { eexists _, _, _, _. split; [done|]. split; [|done]. split; [done|]. split; [lia|]. exists ls.
    split; [done|]. simpl. split; [done|]. intros i l. by apply (no_open_input f2). }
  destruct (anchor_spec f2 ls HF2) as (f3 & s3 & got & -> & HA). rewrite mbind_ret.
  eexists _, _, _, _. split; [done|]. split.
  - destruct HA as [(-> & Hlen & ls' & HT & HF3)|(-> & -> & HF3 & Ho3)].
    + split; [done|]. split; [lia|]. by exists ls'.
    + split; [done|]. split; [lia|]. exists ls. split; [done|]. simpl. split; [done|].
      intros i l. by apply (no_open_input f3).
  - destruct (_ && _); [by apply RoundSpin.note_park_ok|done].
Qed.

(** *** Fairness *)

(** Consecutive rounds, the scratch drained after each. *)
Fixpoint run_rounds (k : nat) f : outcome (FanIn C * list (list T)) :=
  match k with
  | O => mret (f, [])
  | S k =>
      '(f1, scratch, _) ← round f [];
      '(f2, outs) ← run_rounds k f1;
      mret (f2, scratch :: outs)
  end.

Lemma mod_distinct n a d : 0 < d < n → a mod n ≠ (a + d) mod n.
Proof.
  intros Hd E. pose proof (Nat.Div0.div_mod a n) as Ha. pose proof (Nat.Div0.div_mod (a + d) n) as Hb.
  rewrite <- E in Hb.
  assert (n * ((a + d) `div` n) = n * (a `div` n) + d) as H1 by lia.
  assert ((a + d) `div` n = a `div` n ∨ a `div` n + 1 ≤ (a + d) `div` n) as [He|Hge].
  { pose proof (Nat.Div0.div_le_mono a (a + d) n). lia. }
  - rewrite He in H1. lia.
  - pose proof (Nat.mul_le_mono_l _ _ n Hge). lia.
Qed.

(** Input [j], [d] turns away, will be ready: the round serves it or an input
    before it, leaving [j] alone and closer to the cursor. *)
Lemma round_from_ready k todo f ls j d c c' xs m :
  FanOk f ls → d < todo ≤ length (rxs f) → j = (cursor f + (k + d)) mod length (rxs f) →
  rxs f !! j = Some c → closed f !! j = Some false →
  claim_poll c [] spare claim_cap = Ret (c', xs, Ready m) →
  ∃ f' s r, round_from k todo f [] = Ret (f', s, Some r) ∧
    ((s = xs ∧ rxs f' !! j = Some c') ∨
     ∃ d', d' < d ∧ cursor f' = (cursor f + (k + d') + 1) mod length (rxs f) ∧
       length (rxs f') = length (rxs f) ∧ rxs f' !! j = Some c ∧ closed f' !! j = Some false).
Proof.
  intros HF Hd Hj Hc Hb Hp. revert k d f HF Hd Hj Hc Hb.
  induction todo as [|todo IH]; intros k d f HF Hd Hj Hc Hb; [lia|]. cbn [round_from].
  set (n := length (rxs f)) in *. set (i := (cursor f + k) mod n).
  assert (i < n) as Hi by (apply Nat.mod_upper_bound; lia).
  destruct d as [|d].
  { assert (i = j) as -> by (subst j; unfold i; f_equal; lia).
    rewrite (vec_get_nth _ _ _ Hb), mbind_ret, (vec_get_nth _ _ _ Hc), mbind_ret, Hp, mbind_ret.
    unfold set_rx. rewrite vec_set_ret by (fold n; lia). rewrite !mbind_ret, Nat2Z.id.
    eexists _, _, _. split; [done|]. left. split; [done|]. simpl. by rewrite list_lookup_insert_eq. }
  assert (i ≠ j) as Hij.
  { subst j. unfold i. replace (cursor f + (k + S d)) with (cursor f + k + S d) by lia.
    apply mod_distinct. lia. }
  assert (∀ f2, FanOk f2 ls → length (rxs f2) = n → cursor f2 = cursor f → rxs f2 !! j = Some c →
    closed f2 !! j = Some false →
    ∃ f' s r, round_from (S k) todo f2 [] = Ret (f', s, Some r) ∧
    ((s = xs ∧ rxs f' !! j = Some c') ∨
     ∃ d', d' < S d ∧ cursor f' = (cursor f + (k + d') + 1) mod n ∧
       length (rxs f') = n ∧ rxs f' !! j = Some c ∧ closed f' !! j = Some false)) as Hnext.
  { intros f2 HF2 Hl2 Hcur2 Hc2 Hb2.
    destruct (IH (S k) d f2 HF2) as (f' & s & r & -> & Hres); [lia| |done..|].
    { rewrite Hl2, Hcur2, Hj. f_equal. lia. }
    eexists _, _, _. split; [done|]. destruct Hres as [?|(d' & Hd' & Hcur & ?)]; [by left|]. right.
    exists (S d'). rewrite Hl2, Hcur2 in *. split; [lia|]. split; [|done]. rewrite Hcur. f_equal. lia. }
  destruct (fan_lookup f ls i HF Hi) as (ci & b & l & Hci & Hbi & Hl).
  rewrite (vec_get_nth _ _ _ Hbi), mbind_ret. destruct b; [by apply Hnext|].
  rewrite (vec_get_nth _ _ _ Hci), mbind_ret.
  destruct (poll_ok f ls i ci l HF Hci Hbi Hl) as (c1 & s & v & -> & Hv). rewrite mbind_ret.
  destruct v as [m'| |]; simpl in Hv.
  - destruct Hv as (-> & _ & l' & -> & Ha).
    destruct (set_rx_ok f ls i c1 l' HF Hbi Ha) as (f1 & -> & HF1 & Hr & Hcl & Hcur & _). rewrite mbind_ret.
    eexists _, _, _. split; [done|]. right. exists 0. simpl. rewrite Hr, Hcl, length_insert. fold n.
    split; [lia|]. split.
    { rewrite Nat.add_0_r. unfold i. by rewrite Nat.Div0.add_mod_idemp_l. }
    split; [done|]. by rewrite list_lookup_insert_ne.
  - destruct Hv as [-> Ha].
    destruct (set_rx_ok f ls i c1 l HF Hbi Ha) as (f1 & -> & HF1 & Hr & Hcl & Hcur & _). rewrite mbind_ret.
    rewrite list_insert_id in HF1 by done.
    apply Hnext; rewrite ?Hr, ?Hcl, ?length_insert, ?list_lookup_insert_ne; done.
  - destruct Hv as [-> ->].
    destruct (close_ok f ls i c1 HF Hbi Hl) as (f1 & f2 & -> & E2 & HF2 & Hr & Hcl & Hcur & _).
    rewrite mbind_ret, E2, mbind_ret.
    apply Hnext; rewrite ?Hr, ?Hcl, ?length_insert, ?list_lookup_insert_ne; done.
Qed.

Lemma rounds_reach d f ls j c c' xs m :
  FanOk f ls → d < length (rxs f) → j = (cursor f + d) mod length (rxs f) →
  rxs f !! j = Some c → closed f !! j = Some false →
  claim_poll c [] spare claim_cap = Ret (c', xs, Ready m) →
  ∃ k f' outs, k ≤ d ∧ run_rounds (S k) f = Ret (f', outs ++ [xs]) ∧ length outs = k ∧
    rxs f' !! j = Some c'.
Proof.
  revert f ls. induction d as [d IH] using lt_wf_ind. intros f ls HF Hd Hj Hc Hb Hp.
  destruct (round_from_ready 0 (length (rxs f)) f ls j d c c' xs m HF) as (f1 & s & r & E & Hres); [lia|done..|].
  destruct (round_from_spec 0 (length (rxs f)) f ls HF) as (f1' & s' & r' & E' & _ & HR); [done|].
  rewrite E in E'. injection E' as <- <- <-. destruct HR as (_ & _ & ls1 & _ & HF1).
  destruct Hres as [[-> Hc1]|(d' & Hd' & Hcur & Hlen & Hc1 & Hb1)].
  - exists 0, f1, []. cbn [run_rounds]. unfold round. rewrite E, mbind_ret. split_and!; [lia|done..].
  - destruct (IH (d - d' - 1)) with (f := f1) (ls := ls1) as (k & f' & outs & Hk & E2 & Hl & Hc2);
      [lia|done|lia| |done..|].
    { rewrite Hlen, Hcur, Nat.Div0.add_mod_idemp_l, Hj. f_equal. lia. }
    exists (S k), f', (s :: outs).
    change (run_rounds (S (S k)) f) with
      ('(f1, scratch, _) ← round f []; '(f2, outs) ← run_rounds (S k) f1; mret (f2, scratch :: outs)).
    unfold round at 1. rewrite E, mbind_ret, E2, mbind_ret. split_and!; [lia|done|simpl; lia|done].
Qed.

End fanin.

(** ** Theorems *)

(** C20: a claim of a fan-in worker, with any number of inputs, any spin budget
    and any clock, always returns.  It hands out a nonempty run of the next
    items of exactly one input, at most the scratch capacity, and leaves the
    other inputs alone; it returns 0, the end-of-stream signal, only when every
    input is closed and exhausted.  The bookkeeping ([closed], [open],
    [cursor]) stays consistent. *)
Theorem fanin_claim_exact {C T} `{RecvItem C T} `{SelectItem C T} (arrivals : C → list T → Prop)
    `{!RecvLaws C T arrivals} `{!SelectLaws C T arrivals} (spare claim_cap : nat)
    (clock : Clock) (f : FanIn C) (ls : list (list T)) (spin : RoundSpin) :
  FanOk arrivals f ls → RoundSpin.spin_ok spin →
  ∃ f' scratch spin' m, claim spare claim_cap clock f [] spin = Ret (f', scratch, spin', m) ∧
    m = length scratch ∧ m ≤ spare `max` 1 ∧ RoundSpin.spin_ok spin' ∧
    ∃ ls', FanOk arrivals f' ls' ∧
      if bool_decide (0 < m)
      then ∃ i l', ls !! i = Some (scratch ++ l') ∧ ls' = <[i := l']> ls
      else ls' = ls ∧ ∀ i l, ls !! i = Some l → l = [].
Proof.
  intros HF Hs. destruct (claim_spec spare claim_cap arrivals clock f ls spin HF Hs)
    as (f' & s & spin' & m & E & (Hm & Hle & ls' & HF' & HT) & Hs').
  exists f', s, spin', m. split_and!; try done. by exists ls'.
Qed.

(** The wait wins at the first registered receiver. *)
#[export] Instance sched_select (T : Type) : SelectItem (list (option T)) T := {
  select cs := match cs with
               | [] => None
               | c :: _ => let '(c', r) := recv c in Some (0, c', r)
               end;
}.

#[export] Instance sched_select_laws (T : Type) : SelectLaws (list (option T)) T sched_arrivals.
Proof.
  split.
  - intros [|c cs] Hne; [done|]. unfold select, sched_select. destruct (recv c). by eexists.
  - intros [|c cs] slot c' r E; [done|]. unfold select, sched_select in E. destruct (recv c).
    simplify_eq/=. lia.
  - intros [|c0 cs] slot c c' x l E Hc Ha; [done|]. unfold select, sched_select in E.
    destruct (recv c0) as [c1 r] eqn:Er. simplify_eq/=. by eapply recv_some.
  - intros [|c0 cs] slot c c' l E Hc Ha; [done|]. unfold select, sched_select in E.
    destruct (recv c0) as [c1 r] eqn:Er. simplify_eq/=. by eapply recv_none.
Qed.

Definition quiet_clock : Clock := mkClock (λ _, false) 0.

Lemma fanin_claim_exact_witness :
  ∃ f' scratch spin' m,
    claim 4 2 quiet_clock (fanin_new [[None; Some 1]; [Some 7; Some 8; None; Some 9]]) [] (mkSpin 1 4)
      = Ret (f', scratch, spin', m) ∧
    m = length scratch ∧ m ≤ 4 `max` 1 ∧ RoundSpin.spin_ok spin' ∧
    ∃ ls', FanOk sched_arrivals f' ls' ∧
      if bool_decide (0 < m)
      then ∃ i l', [[1]; [7; 8; 9]] !! i = Some (scratch ++ l') ∧ ls' = <[i := l']> [[1]; [7; 8; 9]]
      else ls' = [[1]; [7; 8; 9]] ∧ ∀ i l, [[1]; [7; 8; 9]] !! i = Some l → l = [].
Proof.
  apply (fanin_claim_exact sched_arrivals 4 2 quiet_clock _ [[1]; [7; 8; 9]]).
  - apply fanin_new_ok. repeat constructor.
  - split; simpl; lia.
Defined.

(** No ready input waits behind the others for more than one rotation.  If
    input [j] is open and a poll of it would claim [xs], then one of the next
    [n] rounds over the [n] inputs returns exactly [xs], whatever the other
    inputs hold. *)
Theorem fanin_round_fair {C T} `{RecvItem C T} (arrivals : C → list T → Prop)
    `{!RecvLaws C T arrivals} (spare claim_cap : nat)
    (f : FanIn C) (ls : list (list T)) (j : nat) (c c' : C) (xs : list T) (m : nat) :
  FanOk arrivals f ls → rxs f !! j = Some c → closed f !! j = Some false →
  claim_poll c [] spare claim_cap = Ret (c', xs, Ready m) →
  ∃ k f' outs, k < length (rxs f) ∧
    run_rounds spare claim_cap (S k) f = Ret (f', outs ++ [xs]) ∧ length outs = k ∧
    rxs f' !! j = Some c'.
Proof.
  intros HF Hc Hb Hp. pose proof (lookup_lt_Some _ _ _ Hc) as Hj.
  destruct (fo_cursor _ _ _ HF) as [Hcur|Hnil]; [|rewrite Hnil in Hj; simpl in Hj; lia].
  destruct (rotation_covers _ _ _ Hj Hcur) as (d & Hd & Ej).
  destruct (rounds_reach spare claim_cap arrivals d f ls j c c' xs m HF Hd Ej Hc Hb Hp)
    as (k & f' & outs & Hk & E & Hl & Hc').
  exists k, f', outs. split_and!; [lia|done..].
Qed.

Lemma fanin_round_fair_witness :
  ∃ k f' outs, k < 3 ∧
    run_rounds 2 2 (S k) (fanin_new [[Some 1; Some 2; Some 3]; [Some 4; Some 5]; [Some 6]])
      = Ret (f', outs ++ [[6]]) ∧ length outs = k ∧ rxs f' !! 2 = Some [].
Proof.
  apply (fanin_round_fair sched_arrivals 2 2
           (fanin_new [[Some 1; Some 2; Some 3]; [Some 4; Some 5]; [Some 6]]) [[1; 2; 3]; [4; 5]; [6]] 2 [Some 6] [] [6] 1).
  - apply fanin_new_ok. repeat constructor.
  - reflexivity.
  - reflexivity.
  - reflexivity.
Defined.

(** The pre-anchor spin budget is a [u32] that never leaves
    [0, max_us], and six consecutive live anchors open it fully. *)
Theorem spin_budget_bounds (s : RoundSpin) (parks : list Z) :
  RoundSpin.spin_ok s →
  RoundSpin.spin_ok (foldl note_park s parks) ∧
  (6 ≤ length parks → Forall (λ p, p ≤ max_us s * 4 * 1000)%Z parks →
   budget_us (RoundSpin.live_parks s parks) = max_us s).
Proof.
  intros Hs. split.
  { clear -Hs. revert s Hs. induction parks as [|p parks IH]; intros s Hs; [done|].
    by apply IH, RoundSpin.note_park_ok. }
  intros Hlen Hp. destruct (RoundSpin.live_parks_grow s parks Hs Hp) as ([[_ Hle] _] & Hmax & Hb).
  destruct Hb as [->|Hb]; [simpl in Hlen; lia|]. destruct Hs as [Hs0 Hs1]. rewrite Hmax in Hle.
  assert (max_us s ≤ 2 ^ Z.of_nat (length parks - 1) * RoundSpin.initial (max_us s))%Z; [|lia].
  assert (2 ^ 5 ≤ 2 ^ Z.of_nat (length parks - 1))%Z by (apply Z.pow_le_mono_r; lia).
  unfold RoundSpin.initial. pose proof (Z.div_mod (max_us s) 16). pose proof (Z.mod_pos_bound (max_us s) 16). nia.
Qed.

Lemma spin_budget_bounds_witness :
  RoundSpin.spin_ok (foldl note_park (mkSpin 0 31) (replicate 6 90000%Z)) ∧
  (6 ≤ 6 → Forall (λ p, p ≤ 31 * 4 * 1000)%Z (replicate 6 90000%Z) →
   budget_us (RoundSpin.live_parks (mkSpin 0 31) (replicate 6 90000%Z)) = 31%Z).
Proof.
  apply (spin_budget_bounds (mkSpin 0 31) (replicate 6 90000%Z)). split; simpl; lia.
Defined.
