(* ===== verification/Delivery.v ===== *)
(** * Delivery: handing one worker's outputs to the outgoing edges

    Model of the [Delivery] trait of [crates/youpipe/src/graph/fanin.rs] with
    its two strategies, [Unicast] (one edge, the items move) and [Broadcast]
    (a clone to every open edge, the owned item to the last one).  Senders are
    the interface [SendItem] of [Channel].  A clone is the value itself.  The
    [batch] and [staged] vectors are scratch space: every caller clears them
    before the next use, so what is left in them is not returned. *)

From S2P Require Import Prelude Channel.

(** [Vec::swap_remove], the removed element dropped. *)
Definition swap_remove {A} (l : list A) (i : nat) : outcome (list A) :=
  match l !! i, last l with
  | Some _, Some y => mret (take (length l - 1) (<[i := y]> l))
  | _, _ => Panic
  end.

Lemma swap_remove_last {A} (l : list A) x : swap_remove (l ++ [x]) (length l) = Ret l.
Proof.
  unfold swap_remove. rewrite list_lookup_middle, last_snoc by done.
  rewrite insert_app_r_alt, Nat.sub_diag by lia. simpl. rewrite length_app. simpl.
  by rewrite take_app_length' by lia.
Qed.

Lemma swap_remove_mid {A} (l1 l2 : list A) x y :
  swap_remove (l1 ++ x :: l2 ++ [y]) (length l1) = Ret (l1 ++ y :: l2).
Proof.
  unfold swap_remove. rewrite list_lookup_middle by done.
  rewrite app_comm_cons, (assoc_L (++)), last_snoc. rewrite <- (assoc_L (++)).
  rewrite insert_app_r_alt, Nat.sub_diag by lia. simpl.
  change (y :: l2 ++ [y]) with ((y :: l2) ++ [y]). rewrite (assoc_L (++)), take_app_length'; [done|].
  rewrite !length_app. simpl. rewrite ?length_app. simpl. lia.
Qed.

(** ** The interface *)

Class Delivery (W H T D : Type) : Type := {
  d_new : list H → outcome D;
  d_send : W → D → T → outcome (W * D * bool);
  d_send_batch : W → D → list T → outcome (W * D * bool);
}.

Section delivered.
Context {W H T : Type} `{EqDecision H} (log : W → H → list T) (closed : W → H → Prop).

(** [Delivered edges edges' xs w w']: the edges of [edges'] took all of [xs];
    the others are closed and took a prefix of it; nothing else changed. *)
Record Delivered (edges edges' : list H) (xs : list T) (w w' : W) : Prop := {
  del_nodup : NoDup edges';
  del_sub : edges' ⊆ edges;
  del_other h : h ∉ edges → log w' h = log w h;
  del_closed h : closed w h → closed w' h;
  del_took h : h ∈ edges' → log w' h = log w h ++ xs;
  del_gone h : h ∈ edges → h ∉ edges' →
    closed w' h ∧ ∃ p, p `prefix_of` xs ∧ log w' h = log w h ++ p;
}.

Lemma delivered_nil edges w : NoDup edges → Delivered edges edges [] w w.
Proof. split; intros; rewrite ?app_nil_r; done. Qed.

Lemma delivered_app e1 e2 e3 xs ys w1 w2 w3 :
  Delivered e1 e2 xs w1 w2 → Delivered e2 e3 ys w2 w3 → Delivered e1 e3 (xs ++ ys) w1 w3.
Proof.
  intros D1 D2. split.
  - apply D2.
  - etrans; [apply D2|apply D1].
  - intros h Hh. rewrite (del_other _ _ _ _ _ D2), (del_other _ _ _ _ _ D1); [done..|].
    intros Hin. by apply Hh, (del_sub _ _ _ _ _ D1).
  - intros h Hh. by apply (del_closed _ _ _ _ _ D2), (del_closed _ _ _ _ _ D1).
  - intros h Hh. rewrite (del_took _ _ _ _ _ D2 h Hh), (del_took _ _ _ _ _ D1), (assoc_L (++)); [done|].
    by apply (del_sub _ _ _ _ _ D2).
  - intros h Hh1 Hh3. destruct (decide (h ∈ e2)) as [Hh2|Hh2].
    + destruct (del_gone _ _ _ _ _ D2 h Hh2 Hh3) as (Hc & p & Hp & ->). split; [done|].
      exists (xs ++ p). split; [by apply prefix_app|].
      by rewrite (del_took _ _ _ _ _ D1 h Hh2), (assoc_L (++)).
    + destruct (del_gone _ _ _ _ _ D1 h Hh1 Hh2) as (Hc & p & Hp & Hlog).
      split; [by apply (del_closed _ _ _ _ _ D2)|]. exists p. split; [by apply prefix_app_r|].
      by rewrite (del_other _ _ _ _ _ D2).
Qed.

(** The edges that are still open at the end took everything. *)
Lemma delivered_edge edges edges' xs w w' h :
  Delivered edges edges' xs w w' → h ∈ edges →
  ∃ p, p `prefix_of` xs ∧ log w' h = log w h ++ p ∧ (closed w' h ∨ p = xs).
Proof.
  intros D Hh. destruct (decide (h ∈ edges')) as [Hin|Hout].
  - exists xs. split_and!; [done|by apply (del_took _ _ _ _ _ D)|by right].
  - destruct (del_gone _ _ _ _ _ D h Hh Hout) as (? & p & ? & ?). exists p. auto.
Qed.

Lemma delivered_none edges xs w w' h :
  Delivered edges [] xs w w' → h ∈ edges → closed w' h.
Proof. intros D Hh. apply (del_gone _ _ _ _ _ D h Hh), not_elem_of_nil. Qed.

End delivered.

(** [edges_of d]: the edges a delivery still serves.  Both operations deliver
    to some of them; [true] means that at least one is left and that the
    delivery now serves these. *)
Class DeliveryLaws (W H T D : Type) `{Delivery W H T D}
    (log : W → H → list T) (closed : W → H → Prop) (edges_of : D → list H) : Prop := {
  d_send_law w d x : NoDup (edges_of d) →
    ∃ w' d' ok edges', d_send w d x = Ret (w', d', ok) ∧
      Delivered log closed (edges_of d) edges' [x] w w' ∧
      if ok : bool then edges_of d' = edges' ∧ edges' ≠ [] else edges' = [];
  d_send_batch_law w d xs : NoDup (edges_of d) →
    ∃ w' d' ok edges', d_send_batch w d xs = Ret (w', d', ok) ∧
      Delivered log closed (edges_of d) edges' xs w w' ∧
      if ok : bool then edges_of d' = edges' ∧ edges' ≠ [] else edges' = [];
}.

Section strategies.
Context {W H T : Type} `{EqDecision H} `{SendItem W H T}.
Implicit Types (w : W) (h : H).

(** ** Unicast *)

Record Unicast : Type := mkUnicast { tx : H }.

(** [stage_batch] then [flush_staged]. *)
Definition stage_and_flush w h (batch : list T) : outcome (W * bool) :=
  '(_, staged) ← stage_batch batch [];
  '(w1, _, _, ok) ← flush_staged w h staged;
  mret (w1, ok).

#[export] Instance unicast_delivery : Delivery W H T Unicast := {
  d_new txs := match txs with [h] => mret (mkUnicast h) | _ => Panic end;
  d_send w d x := let '(w', ok) := send w (tx d) x in mret (w', d, ok);
  d_send_batch w d batch := '(w', ok) ← stage_and_flush w (tx d) batch; mret (w', d, ok);
}.

(** ** Broadcast *)

Record Broadcast : Type := mkBroadcast { txs : list H }.

(** The [while i + 1 < self.txs.len()] loop of both broadcast sends; [act]
    serves one edge. *)
Fixpoint edge_loop (fuel : nat) (act : W → H → outcome (W * bool)) w (txs : list H) (i : nat) :
    outcome (W * list H) :=
  match fuel with
  | O => NoFuel
  | S fuel =>
      if bool_decide (i + 1 < length txs) then
        h ← vec_get txs (Z.of_nat i);
        '(w', ok) ← act w h;
        if ok : bool then edge_loop fuel act w' txs (i + 1)
        else txs' ← swap_remove txs i; edge_loop fuel act w' txs' i
      else mret (w, txs)
  end.

(** The loop, then the last surviving edge with [act_last]. *)
Definition serve_edges (act act_last : W → H → outcome (W * bool)) w (txs : list H) :
    outcome (W * list H * bool) :=
  '(w1, txs1) ← edge_loop (S (length txs)) act w txs 0;
  if bool_decide (length txs1 = 0) then mret (w1, txs1, false)
  else
    let i := length txs1 - 1 in
    h ← vec_get txs1 (Z.of_nat i);
    '(w2, ok) ← act_last w1 h;
    txs2 ← (if ok : bool then mret txs1 else swap_remove txs1 i);
    mret (w2, txs2, negb (bool_decide (length txs2 = 0))).

(** One [send] on one edge. *)
Definition send_edge (item : T) w h : outcome (W * bool) := mret (send w h item).

(** [staged.clear(); staged.extend(batch.iter().cloned())], then the flush. *)
Definition clone_and_flush (batch : list T) w h : outcome (W * bool) :=
  '(w1, _, _, ok) ← flush_staged w h (Some <$> batch);
  mret (w1, ok).

Definition broadcast_send w (d : Broadcast) (item : T) : outcome (W * Broadcast * bool) :=
  '(w', txs', ok) ← serve_edges (send_edge item) (send_edge item) w (txs d);
  mret (w', mkBroadcast txs', ok).

Definition broadcast_send_batch w (d : Broadcast) (batch : list T) : outcome (W * Broadcast * bool) :=
  '(w', txs', ok) ← serve_edges (clone_and_flush batch) (λ w h, stage_and_flush w h batch) w (txs d);
  mret (w', mkBroadcast txs', ok).

#[export] Instance broadcast_delivery : Delivery W H T Broadcast := {
  d_new txs := mret (mkBroadcast txs);
  d_send := broadcast_send;
  d_send_batch := broadcast_send_batch;
}.

(** ** Correctness *)

Context (log : W → H → list T) (closed : W → H → Prop) `{!SendLaws W H T log closed}.

(** What serving one edge with the items [xs] does. *)
Definition EdgeServed (xs : list T) h w w' (ok : bool) : Prop :=
  edge_frame log closed h w w' ∧
  if ok then log w' h = log w h ++ xs
  else closed w' h ∧ ∃ p, p `prefix_of` xs ∧ log w' h = log w h ++ p.

Definition Serves (xs : list T) (act : W → H → outcome (W * bool)) : Prop :=
  ∀ w h, ∃ w' ok, act w h = Ret (w', ok) ∧ EdgeServed xs h w w' ok.

Lemma send_edge_serves x : Serves [x] (send_edge x).
Proof.
  intros w h. unfold send_edge. destruct (send w h x) as [w' ok] eqn:E. eexists _, _. split; [done|].
  split; [by eapply send_frame|]. destruct ok; [by eapply send_ok|].
  destruct (send_err _ _ _ _ E) as [Hlog ?]. split; [done|]. exists []. split; [apply prefix_nil|].
  by rewrite app_nil_r.
Qed.

Lemma flush_serves xs w h :
  ∃ w' st dr ok, flush_staged w h (Some <$> xs) = Ret (w', st, dr, ok) ∧ EdgeServed xs h w w' ok.
Proof.
  destruct (flush_staged_spec log closed w h xs) as (w' & st & dr & ok & E & F & _ & p & Hp & Hlog & Hok & Hcl).
  exists w', st, dr, ok. split; [done|]. split; [done|]. destruct ok.
  - rewrite Hok in Hp by done. rewrite app_nil_r in Hp. by subst.
  - split; [by apply Hcl|]. exists p. split; [|done]. by exists dr.
Qed.

Lemma clone_and_flush_serves xs : Serves xs (clone_and_flush xs).
Proof.
  intros w h. unfold clone_and_flush. destruct (flush_serves xs w h) as (w' & st & dr & ok & -> & HE).
  by exists w', ok.
Qed.

Lemma stage_and_flush_serves xs : Serves xs (λ w h, stage_and_flush w h xs).
Proof.
  intros w h. unfold stage_and_flush. rewrite stage_batch_spec, mbind_ret.
  destruct (flush_serves xs w h) as (w' & st & dr & ok & -> & HE). by exists w', ok.
Qed.

(** The loop serves all the edges but one: [kept] took [xs], [gone] were found
    closed, [hl] was not touched. *)
Lemma edge_loop_spec fuel act xs w don todo :
  Serves xs act → NoDup (don ++ todo) → todo ≠ [] → length todo < fuel →
  ∃ w' kept hl gone, edge_loop fuel act w (don ++ todo) (length don) = Ret (w', don ++ kept ++ [hl]) ∧
    kept ++ hl :: gone ≡ₚ todo ∧
    (∀ h, h ∉ kept → h ∉ gone → log w' h = log w h) ∧ (∀ h, closed w h → closed w' h) ∧
    (∀ h, h ∈ kept → log w' h = log w h ++ xs) ∧
    (∀ h, h ∈ gone → closed w' h ∧ ∃ p, p `prefix_of` xs ∧ log w' h = log w h ++ p).
Proof.
  intros Hact. revert w don todo. induction fuel as [|fuel IH]; intros w don todo Hnd Hne Hf; [lia|].
  cbn [edge_loop]. destruct todo as [|h [|h2 rest]]; [done| |].
  { rewrite bool_decide_eq_false_2 by (rewrite length_app; simpl; lia).
    exists w, [], h, []. split_and!; try done; intros ? []%not_elem_of_nil. }
  rewrite bool_decide_eq_true_2 by (rewrite length_app; simpl; lia).
  rewrite (vec_get_ret _ _ h), mbind_ret by (rewrite ?Nat2Z.id, ?list_lookup_middle; done || lia).
  destruct (Hact w h) as (w1 & ok & -> & [F1 F2] & Hok). rewrite mbind_ret.
  assert (h ∉ don ∧ h ∉ h2 :: rest) as [Hd Hr].
  { apply NoDup_app in Hnd as (_ & Hdis & [Hr _]%NoDup_cons). split; [|done].
    intros Hd. apply (Hdis h Hd). left. }
  destruct ok.
  - destruct (IH w1 (don ++ [h]) (h2 :: rest)) as (w' & kept & hl & gone & E & Hp & Ho & Hc & Hk & Hg);
      [by rewrite <- (assoc_L (++))|done|simpl in *; lia|].
    rewrite <- (assoc_L (++)), length_app in E. simpl in E. rewrite E.
    assert (h ∉ kept ∧ h ∉ gone) as [Hhk Hhg].
    { split; intros Hin; apply Hr; rewrite <- Hp, elem_of_app, elem_of_cons; auto. }
    exists w', (h :: kept), hl, gone. split_and!; [by rewrite <- (assoc_L (++))| | | | |].
    + simpl. by rewrite Hp.
    + intros h' [Hne1 Hn1]%not_elem_of_cons Hn2. by rewrite Ho, F1.
    + eauto.
    + intros h' [->|Hin]%elem_of_cons; [by rewrite Ho, Hok|]. rewrite Hk, F1; [done|congruence|done].
    + intros h' Hin. destruct (Hg h' Hin) as (? & p & ? & Hlog). split; [done|]. exists p. split; [done|].
      rewrite Hlog, F1; [done|congruence].
  - destruct Hok as (Hcl & p & Hpre & Hlog).
    destruct (exists_last (l := h2 :: rest)) as (mid & y & Emid); [done|]. rewrite Emid.
    rewrite swap_remove_mid, mbind_ret.
    assert (y :: mid ≡ₚ h2 :: rest) as Hym by (rewrite Emid; by rewrite <- Permutation_cons_append).
    destruct (IH w1 don (y :: mid)) as (w' & kept & hl & gone & -> & Hp & Ho & Hc & Hk & Hg).
    { rewrite Hym. apply NoDup_app in Hnd as (? & Hdis & [_ ?]%NoDup_cons). apply NoDup_app.
      split_and!; [done| |done]. intros z Hz ?. apply (Hdis z Hz). by right. }
    { done. }
    { apply Permutation_length in Hym. simpl in *. lia. }
    assert (h ∉ kept ∧ h ∉ gone) as [Hhk Hhg].
    { split; intros Hin; apply Hr; rewrite <- Hym, <- Hp, elem_of_app, elem_of_cons; auto. }
    exists w', kept, hl, (h :: gone). split_and!; [done| | | | |].
    + rewrite <- Emid, <- Hym, <- Hp. by rewrite (Permutation_swap h hl), <- Permutation_middle.
    + intros h' Hn1 [Hne1 Hn2]%not_elem_of_cons. by rewrite Ho, F1.
    + eauto.
    + intros h' Hin. rewrite Hk, F1; [done|congruence|done].
    + intros h' [->|Hin]%elem_of_cons.
      * split; [by apply Hc|]. exists p. by rewrite Ho.
      * destruct (Hg h' Hin) as (? & q & ? & Hlog'). split; [done|]. exists q. split; [done|].
        rewrite Hlog', F1; [done|congruence].
Qed.

Lemma serve_edges_spec act act_last xs w txs :
  Serves xs act → Serves xs act_last → NoDup txs →
  ∃ w' txs' ok, serve_edges act act_last w txs = Ret (w', txs', ok) ∧
    Delivered log closed txs txs' xs w w' ∧ ok = negb (bool_decide (txs' = [])).
Proof.
  intros Ha Hl Hnd. unfold serve_edges. destruct (decide (txs = [])) as [->|Hne].
  { simpl. eexists _, _, _. split; [done|]. split; [|done].
    split; try done; try by intros ? []%not_elem_of_nil. }
  destruct (edge_loop_spec (S (length txs)) act xs w [] txs) as
    (w1 & kept & hl & gone & E & Hp & Ho & Hc & Hk & Hg); [done|done|done|lia|].
  change ([] ++ txs) with txs in E. change (length []) with 0 in E. rewrite E, mbind_ret. cbn [app].
  rewrite bool_decide_eq_false_2 by (rewrite length_app; simpl; lia).
  rewrite length_app, Nat.add_sub. cbn [length].
  rewrite (vec_get_ret _ _ hl), mbind_ret by (rewrite ?Nat2Z.id, ?list_lookup_middle; done || lia).
  destruct (Hl w1 hl) as (w2 & ok & -> & [F1 F2] & Hok). rewrite mbind_ret.
  rewrite <- Hp in Hnd. apply NoDup_app in Hnd as (Hndk & Hdis & [Hhl Hndg]%NoDup_cons).
  assert (hl ∉ kept) as Hhk by (intros Hin; apply (Hdis hl Hin); left).
  assert (∀ h, h ∈ kept → h ∉ gone) as Hkg by (intros h Hh ?; apply (Hdis h Hh); by right).
  assert (∀ h, h ∈ txs ↔ h ∈ kept ∨ h = hl ∨ h ∈ gone) as Hin.
  { intros h. rewrite <- Hp, elem_of_app, elem_of_cons. done. }
  assert (∀ h, h ∈ kept → log w2 h = log w h ++ xs) as Hk2.
  { intros h Hh. rewrite F1, Hk; [done|done|congruence]. }
  assert (∀ h, h ∈ gone → closed w2 h ∧ ∃ p, p `prefix_of` xs ∧ log w2 h = log w h ++ p) as Hg2.
  { intros h Hh. destruct (Hg h Hh) as (? & p & ? & ?). split; [auto|]. exists p. split; [done|].
    rewrite F1; [done|congruence]. }
  assert (∀ h, h ∉ txs → log w2 h = log w h) as Ho2.
  { intros h Hh. rewrite Hin in Hh. rewrite F1, Ho; [done|naive_solver..]. }
  destruct ok; simpl.
  - eexists _, _, _. split; [done|]. split.
    2: { rewrite !bool_decide_eq_false_2; [done|by destruct kept|]. rewrite length_app. simpl. lia. }
    split; try done.
    + apply NoDup_app. split_and!; [done| |apply NoDup_singleton]. intros h Hh ->%list_elem_of_singleton. done.
    + intros h. rewrite Hin, elem_of_app, list_elem_of_singleton. tauto.
    + eauto.
    + intros h [Hh| ->%list_elem_of_singleton]%elem_of_app; [auto|]. by rewrite Hok, Ho.
    + intros h Hh Hn. apply Hg2. rewrite elem_of_app, list_elem_of_singleton in Hn. apply Hin in Hh. tauto.
  - rewrite swap_remove_last, mbind_ret. destruct Hok as (Hcl & p & Hpre & Hlog).
    eexists _, _, _. split; [done|]. split.
    2: { f_equal. apply bool_decide_ext. destruct kept; simpl; naive_solver. }
    split; try done.
    + intros h Hh. apply Hin. by left.
    + eauto.
    + intros h Hh Hn. apply Hin in Hh as [?|[->|?]]; [done| |auto]. split; [done|]. exists p.
      split; [done|]. by rewrite Hlog, Ho.
Qed.

#[export] Instance broadcast_laws : DeliveryLaws W H T Broadcast log closed txs.
Proof.
  assert (∀ act act_last xs w d, Serves xs act → Serves xs act_last → NoDup (txs d) →
    ∃ w' d' ok edges',
      ('(w', txs', ok) ← serve_edges act act_last w (txs d); mret (w', mkBroadcast txs', ok)) =
        Ret (w', d', ok) ∧ Delivered log closed (txs d) edges' xs w w' ∧
      if ok : bool then txs d' = edges' ∧ edges' ≠ [] else edges' = []) as Hall.
  { intros act act_last xs w d Ha Hl Hnd.
    destruct (serve_edges_spec act act_last xs w (txs d) Ha Hl Hnd) as (w' & txs' & ok & -> & HD & ->).
    eexists _, _, _, txs'. split; [done|]. split; [done|]. by case_bool_decide. }
  split; intros w d x Hnd.
  - apply Hall; [apply send_edge_serves..|done].
  - apply Hall; [apply clone_and_flush_serves|apply stage_and_flush_serves|done].
Qed.

#[export] Instance unicast_laws : DeliveryLaws W H T Unicast log closed (λ d, [tx d]).
Proof.
  assert (∀ d xs w w' ok, EdgeServed xs (tx d) w w' ok →
    ∃ edges', Delivered log closed [tx d] edges' xs w w' ∧
      if ok : bool then [tx d] = edges' ∧ edges' ≠ [] else edges' = []) as Hone.
  { intros d xs w w' ok [[F1 F2] Hok]. destruct ok; [exists [tx d]|exists []]; (split; [|done]).
    - split; try done; [apply NoDup_singleton|..].
      + intros h Hh%not_elem_of_cons. naive_solver.
      + by intros h ->%list_elem_of_singleton.
    - split; try done; [apply NoDup_nil_2|apply list_subseteq_nil|..].
      + intros h Hh%not_elem_of_cons. naive_solver.
      + by intros h []%not_elem_of_nil.
      + by intros h ->%list_elem_of_singleton. }
  split; intros w d x _; simpl.
  - destruct (send_edge_serves x w (tx d)) as (w' & ok & E & HE).
    unfold send_edge in E. injection E as E. rewrite E. destruct (Hone d _ _ _ _ HE) as (e & ?).
    by exists w', d, ok, e.
  - destruct (stage_and_flush_serves x w (tx d)) as (w' & ok & -> & HE).
    destruct (Hone d _ _ _ _ HE) as (e & ?). by exists w', d, ok, e.
Qed.

End strategies.

(** ** Theorems *)

(** C21: a batched broadcast, whatever the ring pressure of each edge (how long
    a prefix [try_send_batch] takes) and whenever receivers go away, never
    panics and never touches an uninitialised slot; every edge it keeps got
    the whole batch in order behind what it had, every edge it drops is closed
    and got a prefix, other edges are untouched, and it returns [false] exactly
    when no edge is left. *)
Theorem broadcast_batch_delivers {W H T} `{EqDecision H} `{SendItem W H T}
    (log : W → H → list T) (closed : W → H → Prop) `{!SendLaws W H T log closed}
    (w : W) (d : Broadcast) (batch : list T) :
  NoDup (txs d) →
  ∃ w' d' ok, broadcast_send_batch w d batch = Ret (w', d', ok) ∧
    Delivered log closed (txs d) (txs d') batch w w' ∧ ok = negb (bool_decide (txs d' = [])).
Proof.
  intros Hnd. unfold broadcast_send_batch.
  destruct (serve_edges_spec log closed (clone_and_flush batch) (λ w h, stage_and_flush w h batch)
    batch w (txs d)) as (w' & txs' & ok & -> & HD & ->);
    [by apply clone_and_flush_serves|by apply stage_and_flush_serves|done|].
  by eexists _, (mkBroadcast txs'), _.
Qed.

(** Edges by number: the items each took, and after how many more its receiver
    goes away ([None]: never); a batch finds at most two free slots. *)
Notation edges_state := (gmap nat (list Z * option nat)).

Definition edge_put (w : edges_state) (h : nat) (x : Z) : edges_state * bool :=
  match w !! h with
  | Some (l, None) => (<[h := (l ++ [x], None)]> w, true)
  | Some (l, Some (S k)) => (<[h := (l ++ [x], Some k)]> w, true)
  | _ => (w, false)
  end.

Fixpoint edge_puts (w : edges_state) (h : nat) (xs : list Z) : edges_state * nat :=
  match xs with
  | [] => (w, 0)
  | x :: xs => match edge_put w h x with
               | (w', true) => let '(w2, n) := edge_puts w' h xs in (w2, S n)
               | (w', false) => (w', 0)
               end
  end.

#[export] Instance edges_send : SendItem edges_state nat Z := {
  send := edge_put;
  try_send w h x := match edge_put w h x with
                    | (w', true) => (w', Sent)
                    | (w', false) => (w', SendClosed x)
                    end;
  send_run w h xs := edge_puts w h (take 2 xs);
}.

Definition edge_log (w : edges_state) (h : nat) : list Z :=
  match w !! h with Some (l, _) => l | None => [] end.
Definition edge_closed (w : edges_state) (h : nat) : Prop :=
  match w !! h with Some (_, Some 0) | None => True | _ => False end.

Lemma edge_put_spec w h x w' ok :
  edge_put w h x = (w', ok) →
  edge_frame edge_log edge_closed h w w' ∧
  if ok then edge_log w' h = edge_log w h ++ [x] else w' = w ∧ edge_closed w h.
Proof.
  unfold edge_put, edge_frame, edge_log, edge_closed.
  destruct (w !! h) as [[l [[|k]|]]|] eqn:E; intros [= <- <-].
  - split; [split; auto|done].
  - split; [split|].
    + intros h' Hh. by rewrite lookup_insert_ne by done.
    + intros h'. destruct (decide (h' = h)) as [->|Hne]; [by rewrite E|by rewrite lookup_insert_ne].
    + by rewrite lookup_insert_eq.
  - split; [split|].
    + intros h' Hh. by rewrite lookup_insert_ne by done.
    + intros h'. destruct (decide (h' = h)) as [->|Hne]; [by rewrite E|by rewrite lookup_insert_ne].
    + by rewrite lookup_insert_eq.
  - split; [split; auto|done].
Qed.

Lemma edge_puts_spec w h xs w' n :
  edge_puts w h xs = (w', n) →
  edge_frame edge_log edge_closed h w w' ∧ n ≤ length xs ∧ edge_log w' h = edge_log w h ++ take n xs.
Proof.
  revert w w' n. induction xs as [|x xs IH]; intros w w' n E; simpl in E.
  { injection E as <- <-. rewrite app_nil_r. split; [by split|]. split; [simpl; lia|done]. }
  destruct (edge_put w h x) as [w1 [|]] eqn:E1; destruct (edge_put_spec _ _ _ _ _ E1) as [F1 Hlog].
  - destruct (edge_puts w1 h xs) as [w2 m] eqn:E2. injection E as <- <-.
    destruct (IH _ _ _ E2) as (F2 & Hm & Hlog2). split; [by eapply edge_frame_trans|].
    split; [simpl; lia|]. by rewrite Hlog2, Hlog, <- (assoc_L (++)).
  - injection E as <- <-. destruct Hlog as [-> _]. rewrite app_nil_r. split; [done|]. split; [simpl; lia|done].
Qed.

#[export] Instance edges_laws : SendLaws edges_state nat Z edge_log edge_closed.
Proof.
  split.
  - intros w h x w' ok E. by apply (edge_put_spec w h x w' ok).
  - intros w h x w' E. by apply (edge_put_spec w h x w' true).
  - intros w h x w' E. by destruct (edge_put_spec w h x w' false E) as [_ [-> ?]].
  - intros w h x w' r E. simpl in E. destruct (edge_put w h x) as [w1 [|]] eqn:E1;
      injection E as <- <-; by apply edge_put_spec in E1 as [].
  - intros w h x w' E. simpl in E. destruct (edge_put w h x) as [w1 [|]] eqn:E1; [|done].
    injection E as <-. by apply edge_put_spec in E1 as [].
  - intros w h x w' y E. simpl in E. by destruct (edge_put w h x) as [w1 [|]].
  - intros w h x w' y E. simpl in E. destruct (edge_put w h x) as [w1 [|]] eqn:E1; [done|].
    injection E as <- <-. by apply edge_put_spec in E1 as [_ [-> _]].
  - intros w h xs w' n E. by apply edge_puts_spec in E as [].
  - intros w h xs w' n E. destruct (edge_puts_spec _ _ _ _ _ E) as (_ & Hn & Hlog).
    rewrite length_take in Hn. rewrite take_take in Hlog. split; [lia|]. rewrite Hlog. do 2 f_equal. lia.
Qed.

(** Three edges; the receiver of the second goes away after one more item. *)
Definition three_edges : edges_state :=
  {[ 0 := ([5%Z], None); 1 := ([], Some 1); 2 := ([], None) ]}.

Lemma broadcast_batch_delivers_witness :
  ∃ w' d' ok, broadcast_send_batch three_edges (mkBroadcast [0; 1; 2]) [1; 2; 3]%Z = Ret (w', d', ok) ∧
    Delivered edge_log edge_closed [0; 1; 2] (txs d') [1; 2; 3]%Z three_edges w' ∧
    ok = negb (bool_decide (txs d' = [])).
Proof.
  apply (broadcast_batch_delivers edge_log edge_closed three_edges (mkBroadcast [0; 1; 2])).
  simpl. repeat constructor; set_solver.
Defined.
