(* ===== verification/GraphWorkers.v ===== *)
(** * GraphWorkers: the worker bodies of the graph engine

    Model of the worker loops of [crates/youpipe/src/graph/exec.rs]
    ([source_feeder_worker], [node_worker], [expand_worker], [sink_worker],
    [collect_worker]) over the fan-in of [Fanin] and the delivery of
    [Delivery], with [GraphCore::claim_cap].

    The process-wide knobs ([graph_tx_batch], [batch_recv_cap],
    [spin_anchor_us]) are arguments.  The user's closures are
    total functions: a panicking closure ends its worker through
    [dispatch_jobs] and is not modelled here. *)

From S2P Require Import Prelude Channel Fanin Delivery.

(** [GraphCore::claim_cap]. *)
Definition claim_cap (batch_cap workers : nat) : nat :=
  if bool_decide (batch_cap = 0) then 0 else (batch_cap `div` (workers `max` 1)) `max` 1.

(** ** The claim loop every consuming worker runs *)

Section claim_loop.
Context {C I : Type} `{RecvItem C I} `{SelectItem C I}.
Context {St : Type} (handle : St → list I → outcome (St * bool)).
(** Scratch capacity, claim cap, and the clock of each claim. *)
Context (spare cap : nat) (clock : nat → Clock).

(** [handle] is the body after a claim; [false] is an early return.  Returns
    the fan-in and the worker's state at its exit. *)
Fixpoint claim_loop (fuel k : nat) (fan : FanIn C) (spin : RoundSpin.RoundSpin) (st : St) :
    outcome (FanIn C * St) :=
  match fuel with
  | O => NoFuel
  | S fuel =>
      '(fan1, scratch, spin1, claimed) ← claim spare cap (clock k) fan [] spin;
      if bool_decide (claimed = 0) then mret (fan1, st)
      else
        '(st1, go) ← handle st scratch;
        if go : bool then claim_loop fuel (S k) fan1 spin1 st1 else mret (fan1, st1)
  end.

(** The claims a loop made, as (input, batch), and how the body took them. *)
Inductive handled : St → list (nat * list I) → St → bool → Prop :=
  | handled_nil st : handled st [] st true
  | handled_stop st i b st' : handle st b = Ret (st', false) → handled st [(i, b)] st' false
  | handled_go st i b st1 bs st2 go : handle st b = Ret (st1, true) → handled st1 bs st2 go →
      handled st ((i, b) :: bs) st2 go.

(** The items of input [i] among the claims. *)
Definition from_input (i : nat) (bs : list (nat * list I)) : list I :=
  concat (snd <$> filter (λ p, p.1 = i) bs).

Context (arrivals : C → list I → Prop) `{!RecvLaws C I arrivals} `{!SelectLaws C I arrivals}.

Lemma from_input_cons i j b bs :
  from_input i ((j, b) :: bs) = (if decide (j = i) then b else []) ++ from_input i bs.
Proof. unfold from_input. rewrite filter_cons. simpl. by case_decide. Qed.

Definition total (ls : list (list I)) : nat := length (concat ls).

Lemma total_insert ls i b (l : list I) :
  ls !! i = Some (b ++ l) → total ls = length b + total (<[i := l]> ls).
Proof.
  unfold total. revert i. induction ls as [|l0 ls IH]; intros [|i] Hl; simplify_eq/=.
  - rewrite !length_app. lia.
  - rewrite !length_app, (IH i Hl). lia.
Qed.

(** The loop terminates: it needs one turn per item at most.  Its claims are
    the inputs' items in order, and all of them unless the body stopped. *)
Lemma claim_loop_spec (P : St → Prop) fuel k fan ls spin st :
  (∀ st b, P st → ∃ st' go, handle st b = Ret (st', go) ∧ (go = true → P st')) →
  FanOk arrivals fan ls → RoundSpin.spin_ok spin → P st → total ls < fuel →
  ∃ fan' st' bs go rest, claim_loop fuel k fan spin st = Ret (fan', st') ∧
    handled st bs st' go ∧ FanOk arrivals fan' rest ∧ length rest = length ls ∧
    (∀ i l, ls !! i = Some l → ∃ r, rest !! i = Some r ∧ l = from_input i bs ++ r) ∧
    (go = true → ∀ i r, rest !! i = Some r → r = []).
Proof.
  intros Hh. revert k fan ls spin st. induction fuel as [|fuel IH]; intros k fan ls spin st HF Hs HP Hf; [lia|].
  cbn [claim_loop].
  destruct (claim_spec spare cap arrivals (clock k) fan ls spin HF Hs)
    as (f1 & b & spin1 & m & -> & (Hm & _ & ls1 & HF1 & HT) & Hs1). rewrite mbind_ret.
  destruct (bool_decide (m = 0)) eqn:E0.
  { apply bool_decide_eq_true in E0. rewrite E0 in HT. simpl in HT. destruct HT as [-> Hnil].
    exists f1, st, [], true, ls. split_and!; [done|constructor|done|done| |done].
    intros i l Hl. by exists l. }
  apply bool_decide_eq_false in E0. rewrite bool_decide_eq_true_2 in HT by lia.
  destruct HT as (i & l' & Hl & ->). pose proof (total_insert _ _ _ _ Hl) as Htot.
  destruct (Hh st b HP) as (st1 & go & E1 & HP1). rewrite E1, mbind_ret.
  assert (∀ bs j l (rest : list (list I)), ls !! j = Some l →
    (∀ l2, <[i := l']> ls !! j = Some l2 → ∃ r, rest !! j = Some r ∧ l2 = from_input j bs ++ r) →
    ∃ r, rest !! j = Some r ∧ l = from_input j ((i, b) :: bs) ++ r) as Hstep.
  { intros bs j l rest Hj Hr. rewrite from_input_cons. case_decide as Hij.
    - subst j. rewrite list_lookup_insert_eq in Hr by (by eapply lookup_lt_Some).
      destruct (Hr l' eq_refl) as (r & ? & ->). simplify_eq. exists r. by rewrite <- (assoc_L (++)).
    - rewrite list_lookup_insert_ne in Hr by done. by apply Hr. }
  destruct go.
  - destruct (IH (S k) f1 _ spin1 st1 HF1 Hs1 (HP1 eq_refl)) as (fan' & st' & bs & go & rest & -> & Hhd & HF' & Hlen & Hin & Hgo);
      [lia|].
    exists fan', st', ((i, b) :: bs), go, rest. split_and!; [done|by econstructor|done| | |done].
    + by rewrite Hlen, length_insert.
    + intros j l Hj. eapply Hstep; [done|]. intros l2 Hl2. by apply Hin.
  - exists f1, st1, [(i, b)], false, (<[i := l']> ls). split_and!; [done|by constructor|done| | |done].
    + by rewrite length_insert.
    + intros j l Hj. eapply Hstep; [done|]. intros l2 Hl2. by exists l2.
Qed.

End claim_loop.

(** ** Producing workers *)

Section producers.
Context {W H Out D : Type} `{EqDecision H} `{Delivery W H Out D}.
(** The state of a producing worker: channels, delivery handle, token. *)
Implicit Types (w : W) (d : D) (c : token).

Definition out_state : Type := W * D * token.

(** [for item in scratch.drain(..)]: check the token, then deliver the outputs
    of the item one by one; [false] is an early return. *)
Fixpoint send_all w d (outs : list Out) : outcome (W * D * bool) :=
  match outs with
  | [] => mret (w, d, true)
  | o :: outs =>
      '(w1, d1, ok) ← d_send w d o;
      if ok : bool then send_all w1 d1 outs else mret (w1, d1, false)
  end.

Context {I : Type}.

Fixpoint each_item (f : I → list Out) (st : out_state) (items : list I) : outcome (out_state * bool) :=
  match items with
  | [] => mret (st, true)
  | x :: items =>
      let '(w, d, c) := st in
      let '(stop, c1) := cancel_active c in
      if stop : bool then mret ((w, d, c1), false)
      else
        '(w1, d1, ok) ← send_all w d (f x);
        if ok : bool then each_item f (w1, d1, c1) items else mret ((w1, d1, c1), false)
  end.

(** The batched arm of [node_worker]. *)
Definition node_batch (f : I → Out) (st : out_state) (scratch : list I) : outcome (out_state * bool) :=
  let '(w, d, c) := st in
  let '(stop, c1) := cancel_active c in
  if stop : bool then mret ((w, d, c1), false)
  else
    '(w1, d1, ok) ← d_send_batch w d (f <$> scratch);
    mret ((w1, d1, c1), ok).

(** The body of [node_worker] after a claim. *)
Definition node_body (tx_batch : bool) (f : I → Out) (st : out_state) (scratch : list I) :
    outcome (out_state * bool) :=
  if tx_batch then node_batch f st scratch else each_item (λ x, [f x]) st scratch.

(** The batched arm of [expand_worker]: the staged outputs go out whenever they
    reach [flush_cap]. *)
Fixpoint expand_items (f : I → list Out) (flush_cap : nat) w d (mapped : list Out) (items : list I) :
    outcome (W * D * list Out * bool) :=
  match items with
  | [] => mret (w, d, mapped, true)
  | x :: items =>
      let mapped1 := mapped ++ f x in
      if bool_decide (flush_cap ≤ length mapped1) then
        '(w1, d1, ok) ← d_send_batch w d mapped1;
        if ok : bool then expand_items f flush_cap w1 d1 [] items else mret (w1, d1, [], false)
      else expand_items f flush_cap w d mapped1 items
  end.

Definition expand_batch (f : I → list Out) (flush_cap : nat) (st : out_state) (scratch : list I) :
    outcome (out_state * bool) :=
  let '(w, d, c) := st in
  let '(stop, c1) := cancel_active c in
  if stop : bool then mret ((w, d, c1), false)
  else
    '(w1, d1, mapped, go) ← expand_items f flush_cap w d [] scratch;
    if go : bool then
      if bool_decide (length mapped = 0) then mret ((w1, d1, c1), true)
      else '(w2, d2, ok) ← d_send_batch w1 d1 mapped; mret ((w2, d2, c1), ok)
    else mret ((w1, d1, c1), false).

Definition expand_body (tx_batch : bool) (flush_cap : nat) (f : I → list Out) (st : out_state)
    (scratch : list I) : outcome (out_state * bool) :=
  if tx_batch then expand_batch f flush_cap st scratch else each_item f st scratch.

(** [node_worker] and [expand_worker]: the knobs are [graph_tx_batch], the
    spin window and [batch_recv_cap]; [spare] is the capacity of the scratch
    vector, at least [max(claim_cap, 1)]. *)
Context {C : Type} `{RecvItem C I} `{SelectItem C I}.

Definition node_worker (fuel spare : nat) (clock : nat → Clock) (graph_tx_batch : bool)
    (spin_anchor_us : Z) (f : I → Out) (fanin : FanIn C) (cap : nat) (st : out_state) :
    outcome (FanIn C * out_state) :=
  let tx_batch := graph_tx_batch && bool_decide (0 < cap) in
  claim_loop (node_body tx_batch f) spare cap clock fuel 0 fanin (RoundSpin.new spin_anchor_us) st.

Definition expand_worker (fuel spare : nat) (clock : nat → Clock) (graph_tx_batch : bool)
    (spin_anchor_us : Z) (batch_recv_cap : nat) (f : I → list Out) (fanin : FanIn C) (cap : nat)
    (st : out_state) : outcome (FanIn C * out_state) :=
  let tx_batch := graph_tx_batch && bool_decide (0 < cap) in
  let flush_cap := (batch_recv_cap `max` cap) `max` 1 in
  claim_loop (expand_body tx_batch flush_cap f) spare cap clock fuel 0 fanin
    (RoundSpin.new spin_anchor_us) st.

(** [source_feeder_worker]: per item when batching is off, else in batches of
    [cap] items. *)
Fixpoint feed_batches (fuel cap : nat) (items : list Out) (st : out_state) : outcome out_state :=
  match fuel with
  | O => NoFuel
  | S fuel =>
      let batch := take cap items in
      if bool_decide (length batch = 0) then mret st
      else
        let '(w, d, c) := st in
        let '(stop, c1) := cancel_active c in
        if stop : bool then mret (w, d, c1)
        else
          '(w1, d1, ok) ← d_send_batch w d batch;
          if ok : bool then feed_batches fuel cap (drop cap items) (w1, d1, c1)
          else mret (w1, d1, c1)
  end.

Fixpoint feed_items (items : list Out) (st : out_state) : outcome out_state :=
  match items with
  | [] => mret st
  | x :: items =>
      let '(w, d, c) := st in
      let '(stop, c1) := cancel_active c in
      if stop : bool then mret (w, d, c1)
      else
        '(w1, d1, ok) ← d_send w d x;
        if ok : bool then feed_items items (w1, d1, c1) else mret (w1, d1, c1)
  end.

Definition source_feeder_worker (graph_tx_batch : bool) (batch_recv_cap : nat) (items : list Out)
    (st : out_state) : outcome out_state :=
  let cap := if graph_tx_batch then batch_recv_cap else 0 in
  if bool_decide (cap = 0) then feed_items items st
  else feed_batches (S (length items)) cap items st.

(** ** What the producing workers emit *)

Context (log : W → H → list Out) (closed : W → H → Prop) (edges_of : D → list H).
Context `{!DeliveryLaws W H Out D log closed edges_of}.

Definition st_edges (st : out_state) : list H := edges_of st.1.2.

(** [xs] was handed to the edges; a worker that goes on serves the remaining
    ones, a worker that returns early saw the token fired or no edge left. *)
Definition Progress (st st' : out_state) (xs : list Out) (go : bool) : Prop :=
  ∃ edges', Delivered log closed (st_edges st) edges' xs st.1.1 st'.1.1 ∧
    if go then st_edges st' = edges' else fired st'.2 ∨ edges' = [].

Lemma progress_nil st : NoDup (st_edges st) → Progress st st [] true.
Proof. intros Hnd. exists (st_edges st). split; [by apply delivered_nil|done]. Qed.

Lemma progress_nodup st st' xs : Progress st st' xs true → NoDup (st_edges st').
Proof. intros (e & HD & <-). apply HD. Qed.

Lemma progress_app st1 st2 st3 xs ys go :
  Progress st1 st2 xs true → Progress st2 st3 ys go → Progress st1 st3 (xs ++ ys) go.
Proof.
  intros (e1 & HD1 & <-) (e2 & HD2 & Hgo). exists e2. split; [|done]. by eapply delivered_app.
Qed.

(** Once every edge is closed the rest of a batch is lost anyway. *)
Lemma delivered_more e xs ys w w' :
  Delivered log closed e [] xs w w' → Delivered log closed e [] (xs ++ ys) w w'.
Proof.
  intros HD. split; try apply HD.
  - by intros h []%not_elem_of_nil.
  - intros h Hh Hn. destruct (del_gone _ _ _ _ _ _ _ HD h Hh Hn) as (? & p & ? & ?).
    split; [done|]. exists p. split; [by apply prefix_app_r|done].
Qed.

Lemma send_all_spec w d outs c :
  NoDup (edges_of d) →
  ∃ w' d' ok, send_all w d outs = Ret (w', d', ok) ∧
    ∃ edges', Delivered log closed (edges_of d) edges' outs w w' ∧
      if ok then Progress (w, d, c) (w', d', c) outs true else edges' = [].
Proof.
  revert w d. induction outs as [|o outs IH]; intros w d Hnd; cbn [send_all].
  { eexists _, _, _. split; [done|]. exists (edges_of d). split; [by apply delivered_nil|].
    by apply progress_nil. }
  destruct (d_send_law w d o Hnd) as (w1 & d1 & ok & e1 & -> & HD1 & Hok). rewrite mbind_ret. destruct ok.
  - destruct Hok as [He1 _]. subst e1.
    destruct (IH w1 d1) as (w' & d' & ok & -> & e2 & HD2 & Hok2); [apply HD1|].
    eexists _, _, _. split; [done|]. exists e2.
    assert (Delivered log closed (edges_of d) e2 (o :: outs) w w') as HD by (by eapply (delivered_app _ _ _ _ _ [o])).
    split; [done|]. destruct ok; [|done]. destruct Hok2 as (e3 & HD3 & He3). exists e3. split; [|done].
    by eapply (delivered_app _ _ _ _ _ [o]).
  - subst e1. eexists _, _, _. split; [done|]. exists []. split; [|done]. by apply (delivered_more _ [o]).
Qed.

(** A body takes a prefix of the claimed items, all of them when it goes on. *)
Definition BodyOk (f : I → list Out) (body : out_state → list I → outcome (out_state * bool)) : Prop :=
  ∀ st items, NoDup (st_edges st) →
    ∃ st' go acc rest, body st items = Ret (st', go) ∧ items = acc ++ rest ∧
      Progress st st' (acc ≫= f) go ∧ (go = true → rest = []).

(** A token check that stops the worker. *)
Lemma stop_progress w d c c1 : cancel_active c = (true, c1) → NoDup (edges_of d) →
  Progress (w, d, c) (w, d, c1) [] false.
Proof.
  intros Hc Hnd. exists (edges_of d). split; [by apply delivered_nil|]. left.
  destruct c as [[|k]|]; by simplify_eq/=.
Qed.

Lemma each_item_ok f : BodyOk f (each_item f).
Proof.
  intros st items. revert st. induction items as [|x items IH]; intros [[w d] c] Hnd; cbn [each_item].
  { exists (w, d, c), true, [], []. split_and!; try done. by apply progress_nil. }
  destruct (cancel_active c) as [[|] c1] eqn:Ec.
  { exists (w, d, c1), false, [], (x :: items). split_and!; try done. by eapply stop_progress. }
  destruct (send_all_spec w d (f x) c Hnd) as (w1 & d1 & ok & -> & e & HD & Hok). rewrite mbind_ret.
  destruct ok.
  - assert (Progress (w, d, c) (w1, d1, c1) (f x) true) as HP by done.
    destruct (IH (w1, d1, c1)) as (st' & go & acc & rest & -> & -> & HP' & Hr); [by eapply progress_nodup|].
    exists st', go, (x :: acc), rest. split_and!; try done. simpl. by eapply progress_app.
  - subst e. exists (w1, d1, c1), false, [x], items. split_and!; try done.
    exists []. split; [|by right]. simpl. by rewrite app_nil_r.
Qed.

Lemma bind_singletons (g : I → Out) (l : list I) : (l ≫= λ x, [g x]) = g <$> l.
Proof. induction l as [|x l IH]; [done|]. rewrite fmap_cons, <- IH. done. Qed.

(** A batch handed to the delivery. *)
Lemma batch_progress w d c c1 outs :
  NoDup (edges_of d) →
  ∃ w1 d1 ok, d_send_batch w d outs = Ret (w1, d1, ok) ∧ Progress (w, d, c) (w1, d1, c1) outs ok.
Proof.
  intros Hnd. destruct (d_send_batch_law w d outs Hnd) as (w1 & d1 & ok & e & -> & HD & Hok).
  eexists _, _, _. split; [done|]. exists e. split; [done|]. destruct ok; [apply Hok|by right].
Qed.

Lemma node_body_ok tx_batch f : BodyOk (λ x, [f x]) (node_body tx_batch f).
Proof.
  unfold node_body. destruct tx_batch; [|apply each_item_ok]. intros [[w d] c] items Hnd.
  unfold node_batch. destruct (cancel_active c) as [[|] c1] eqn:Ec.
  { exists (w, d, c1), false, [], items. split_and!; try done. by eapply stop_progress. }
  destruct (batch_progress w d c c1 (f <$> items) Hnd) as (w1 & d1 & ok & -> & HP). rewrite mbind_ret.
  exists (w1, d1, c1), ok, items, []. split_and!; [done|by rewrite app_nil_r| |done].
  by rewrite bind_singletons.
Qed.

Lemma expand_items_spec f flush_cap w d c mapped items :
  NoDup (edges_of d) →
  ∃ w' d' mapped' go, expand_items f flush_cap w d mapped items = Ret (w', d', mapped', go) ∧
    if go then ∃ ys, mapped ++ (items ≫= f) = ys ++ mapped' ∧ Progress (w, d, c) (w', d', c) ys true
    else Delivered log closed (edges_of d) [] (mapped ++ (items ≫= f)) w w'.
Proof.
  revert w d mapped. induction items as [|x items IH]; intros w d mapped Hnd; cbn [expand_items].
  { eexists _, _, _, _. split; [done|]. exists []. simpl. rewrite app_nil_r. split; [done|].
    by apply progress_nil. }
  simpl. rewrite (assoc_L (++)). case_bool_decide.
  - destruct (d_send_batch_law w d (mapped ++ f x) Hnd) as (w1 & d1 & ok & e & -> & HD & Hok).
    rewrite mbind_ret. destruct ok.
    + destruct Hok as [<- _].
      destruct (IH w1 d1 [] (del_nodup _ _ _ _ _ _ _ HD)) as (w' & d' & mapped' & go & -> & Hgo).
      eexists _, _, _, _. split; [done|]. destruct go.
      * destruct Hgo as (ys & Hys & HP). exists ((mapped ++ f x) ++ ys). split.
        { rewrite <- (assoc_L (++) _ ys). exact (f_equal (app (mapped ++ f x)) Hys). }
        destruct HP as (e2 & HD2 & He2). exists e2. split; [|done]. by eapply delivered_app.
      * by eapply delivered_app.
    + subst e. eexists _, _, _, _. split; [done|]. by apply delivered_more.
  - apply IH. done.
Qed.

Lemma expand_body_ok tx_batch flush_cap f : BodyOk f (expand_body tx_batch flush_cap f).
Proof.
  unfold expand_body. destruct tx_batch; [|apply each_item_ok]. intros [[w d] c] items Hnd.
  unfold expand_batch. destruct (cancel_active c) as [[|] c1] eqn:Ec.
  { exists (w, d, c1), false, [], items. split_and!; try done. by eapply stop_progress. }
  destruct (expand_items_spec f flush_cap w d c1 [] items Hnd) as (w1 & d1 & mapped & go & -> & Hgo).
  rewrite mbind_ret. destruct go.
  2: { exists (w1, d1, c1), false, items, []. split_and!; [done|by rewrite app_nil_r| |done].
       exists []. split; [done|by right]. }
  destruct Hgo as (ys & Hys & HP). change (items ≫= f = ys ++ mapped) in Hys.
  assert (Progress (w, d, c) (w1, d1, c1) ys true) as HP' by done. clear HP.
  case_bool_decide as Hlen.
  - apply nil_length_inv in Hlen as ->. rewrite app_nil_r in Hys.
    exists (w1, d1, c1), true, items, []. split_and!; [done|by rewrite app_nil_r|by rewrite Hys|done].
  - destruct (batch_progress w1 d1 c1 c1 mapped) as (w2 & d2 & ok & -> & HP2).
    { apply (progress_nodup _ _ _ HP'). }
    rewrite mbind_ret. exists (w2, d2, c1), ok, items, []. split_and!; [done|by rewrite app_nil_r| |done].
    rewrite Hys. by eapply progress_app.
Qed.

Lemma handled_progress f body st bs st' go :
  BodyOk f body → handled body st bs st' go → NoDup (st_edges st) →
  ∃ acc rest, concat bs.*2 = acc ++ rest ∧ Progress st st' (acc ≫= f) go ∧ (go = true → rest = []).
Proof.
  intros Hb. induction 1 as [st|st i b st' E|st i b st1 bs st2 go E _ IH]; intros Hnd;
    rewrite ?fmap_cons, ?fmap_nil; cbn [concat snd].
  - exists [], []. split_and!; try done. by apply progress_nil.
  - destruct (Hb st b Hnd) as (st1 & go & acc & rest & E' & -> & HP & _). rewrite E in E'. simplify_eq.
    exists acc, rest. by rewrite app_nil_r.
  - destruct (Hb st b Hnd) as (st1' & go' & acc & rest & E' & -> & HP & Hr). rewrite E in E'. simplify_eq.
    rewrite Hr, app_nil_r by done.
    destruct IH as (acc' & rest' & -> & HP' & Hr'); [by eapply progress_nodup|].
    exists (acc ++ acc'), rest'. rewrite <- (assoc_L (++)). split_and!; [done| |done].
    rewrite bind_app. by eapply progress_app.
Qed.

(** The run of a producing worker over the inputs [ls]: [bs] are its claims,
    [acc] the items it accepted. *)
Definition WorkerRan (f : I → list Out) (ls : list (list I)) (st st' : out_state) : Prop :=
  ∃ bs acc rest, concat bs.*2 = acc ++ rest ∧
    (∀ i l, ls !! i = Some l → from_input i bs `prefix_of` l) ∧
    (∀ h, h ∈ st_edges st → ∃ p, p `prefix_of` (acc ≫= f) ∧
       log st'.1.1 h = log st.1.1 h ++ p ∧ (closed st'.1.1 h ∨ p = acc ≫= f)) ∧
    (∀ h, h ∉ st_edges st → log st'.1.1 h = log st.1.1 h) ∧
    (fired st'.2 ∨ (∀ h, h ∈ st_edges st → closed st'.1.1 h) ∨
     rest = [] ∧ ∀ i l, ls !! i = Some l → from_input i bs = l).

Lemma worker_ran f body fuel spare cap clock spin fan ls st (arrivals : C → list I → Prop)
    `{!RecvLaws C I arrivals} `{!SelectLaws C I arrivals} :
  BodyOk f body → FanOk arrivals fan ls → RoundSpin.spin_ok spin → NoDup (st_edges st) →
  total ls < fuel →
  ∃ fan' st', claim_loop body spare cap clock fuel 0 fan spin st = Ret (fan', st') ∧
    WorkerRan f ls st st'.
Proof.
  intros Hb HF Hs Hnd Hf.
  destruct (claim_loop_spec body spare cap clock arrivals (λ st, NoDup (st_edges st))
    fuel 0 fan ls spin st) as (fan' & st' & bs & go & rest & E & Hh & _ & _ & Hin & Hgo); [|done..|].
  { intros st1 b Hn. destruct (Hb st1 b Hn) as (st2 & go & acc & rest & -> & _ & HP & _).
    eexists _, _. split; [done|]. intros ->. by eapply progress_nodup. }
  destruct (handled_progress f body st bs st' go Hb Hh Hnd) as (acc & left & Hc & (e & HD & Hlive) & Hleft).
  exists fan', st'. split; [done|]. exists bs, acc, left. split_and!; [done| | | |].
  - intros i l Hl. destruct (Hin i l Hl) as (r & _ & ->). by apply prefix_app_r.
  - intros h Hh'. by eapply delivered_edge.
  - intros h Hh'. by apply (del_other _ _ _ _ _ _ _ HD).
  - destruct go.
    + right; right. split; [by apply Hleft|]. intros i l Hl. destruct (Hin i l Hl) as (r & Hr & ->).
      by rewrite (Hgo eq_refl i r Hr), app_nil_r.
    + destruct Hlive as [?|He]; [by left|]. right; left. subst e. intros h. by eapply delivered_none.
Qed.

Lemma feed_items_spec items st :
  NoDup (st_edges st) →
  ∃ st' acc rest go, feed_items items st = Ret st' ∧ items = acc ++ rest ∧
    Progress st st' acc go ∧ (go = true → rest = []).
Proof.
  revert st. induction items as [|x items IH]; intros [[w d] c] Hnd; cbn [feed_items].
  { exists (w, d, c), [], [], true. split_and!; try done. by apply progress_nil. }
  destruct (cancel_active c) as [[|] c1] eqn:Ec.
  { exists (w, d, c1), [], (x :: items), false. split_and!; try done. by eapply stop_progress. }
  destruct (d_send_law w d x Hnd) as (w1 & d1 & ok & e & -> & HD & Hok). rewrite mbind_ret. destruct ok.
  - destruct Hok as [<- _]. assert (Progress (w, d, c) (w1, d1, c1) [x] true) as HP by (by eexists).
    destruct (IH (w1, d1, c1)) as (st' & acc & rest & go & -> & -> & HP' & Hr); [by eapply progress_nodup|].
    exists st', (x :: acc), rest, go. split_and!; try done. by eapply (progress_app _ _ _ [x]).
  - subst e. exists (w1, d1, c1), [x], items, false. split_and!; try done. exists []. split; [done|by right].
Qed.

Lemma feed_batches_spec fuel cap items st :
  0 < cap → length items < fuel → NoDup (st_edges st) →
  ∃ st' acc rest go, feed_batches fuel cap items st = Ret st' ∧ items = acc ++ rest ∧
    Progress st st' acc go ∧ (go = true → rest = []).
Proof.
  intros Hcap. revert items st. induction fuel as [|fuel IH]; intros items [[w d] c] Hf Hnd; [lia|].
  cbn [feed_batches]. case_bool_decide as Hlen.
  { rewrite length_take in Hlen. assert (items = []) as -> by (apply nil_length_inv; lia).
    exists (w, d, c), [], [], true. split_and!; try done. by apply progress_nil. }
  rewrite length_take in Hlen. destruct (cancel_active c) as [[|] c1] eqn:Ec.
  { exists (w, d, c1), [], items, false. split_and!; try done. by eapply stop_progress. }
  destruct (batch_progress w d c c1 (take cap items) Hnd) as (w1 & d1 & ok & -> & HP). rewrite mbind_ret.
  destruct ok.
  - destruct (IH (drop cap items) (w1, d1, c1)) as (st' & acc & rest & go & -> & Hd & HP' & Hr);
      [rewrite length_drop; lia|by eapply progress_nodup|].
    exists st', (take cap items ++ acc), rest, go. split_and!; [done| |by eapply progress_app|done].
    by rewrite <- (assoc_L (++)), <- Hd, take_drop.
  - exists (w1, d1, c1), (take cap items), (drop cap items), false.
    split_and!; [done|by rewrite take_drop|done|done].
Qed.

End producers.

(** ** Consuming workers without outputs *)

Section sinks.
Context {C I : Type} `{RecvItem C I} `{SelectItem C I}.

(** The items a sink's closure was called on, or a collect sink's buffer. *)
Fixpoint consume (st : list I * token) (items : list I) : outcome ((list I * token) * bool) :=
  match items with
  | [] => mret (st, true)
  | x :: items =>
      let '(stop, c1) := cancel_active st.2 in
      if stop : bool then mret ((st.1, c1), false) else consume (st.1 ++ [x], c1) items
  end.

Definition sink_worker (fuel spare : nat) (clock : nat → Clock) (spin_anchor_us : Z)
    (fanin : FanIn C) (cap : nat) (c : token) : outcome (FanIn C * (list I * token)) :=
  claim_loop consume spare cap clock fuel 0 fanin (RoundSpin.new spin_anchor_us) ([], c).

Definition collect_worker (fuel spare : nat) (clock : nat → Clock) (spin_anchor_us : Z)
    (buf : list I) (fanin : FanIn C) (cap : nat) (c : token) : outcome (FanIn C * (list I * token)) :=
  claim_loop consume spare cap clock fuel 0 fanin (RoundSpin.new spin_anchor_us) (buf, c).

Context (arrivals : C → list I → Prop) `{!RecvLaws C I arrivals} `{!SelectLaws C I arrivals}.

Lemma consume_spec st items :
  ∃ st' go acc rest, consume st items = Ret (st', go) ∧ items = acc ++ rest ∧ st'.1 = st.1 ++ acc ∧
    if go then rest = [] else fired st'.2.
Proof.
  revert st. induction items as [|x items IH]; intros [l c]; cbn [consume].
  { exists (l, c), true, [], []. simpl. by rewrite app_nil_r. }
  simpl. destruct (cancel_active c) as [[|] c1] eqn:Ec.
  - exists (l, c1), false, [], (x :: items). simpl. rewrite app_nil_r. split_and!; try done.
    destruct c as [[|k]|]; by simplify_eq/=.
  - destruct (IH (l ++ [x], c1)) as (st' & go & acc & rest & -> & -> & Hl & Hgo).
    exists st', go, (x :: acc), rest. split_and!; try done. simpl in Hl. by rewrite Hl, <- (assoc_L (++)).
Qed.

Lemma handled_consume st bs st' go :
  handled consume st bs st' go →
  ∃ acc rest, concat bs.*2 = acc ++ rest ∧ st'.1 = st.1 ++ acc ∧ if go then rest = [] else fired st'.2.
Proof.
  induction 1 as [st|st i b st' E|st i b st1 bs st2 go E _ IH];
    rewrite ?fmap_cons, ?fmap_nil; cbn [concat snd].
  - exists [], []. split_and!; [done|by rewrite app_nil_r|done].
  - destruct (consume_spec st b) as (st1 & go & acc & rest & E' & -> & Hl & Hgo).
    rewrite E in E'. simplify_eq. exists acc, rest. by rewrite app_nil_r.
  - destruct (consume_spec st b) as (st1' & go' & acc & rest & E' & -> & Hl & Hgo).
    rewrite E in E'. simplify_eq. destruct IH as (acc' & rest' & -> & Hl' & Hgo').
    exists (acc ++ acc'), rest'. rewrite app_nil_r, <- (assoc_L (++)). split_and!; [done| |done].
    by rewrite Hl', Hl, (assoc_L (++)).
Qed.

(** A sink that runs to the end of its inputs consumed each item once. *)
Lemma sink_ran fuel spare cap clock spin fan ls st :
  FanOk arrivals fan ls → RoundSpin.spin_ok spin → total ls < fuel →
  ∃ fan' st' bs acc rest, claim_loop consume spare cap clock fuel 0 fan spin st = Ret (fan', st') ∧
    concat bs.*2 = acc ++ rest ∧ st'.1 = st.1 ++ acc ∧
    (∀ i l, ls !! i = Some l → from_input i bs `prefix_of` l) ∧
    (fired st'.2 ∨ rest = [] ∧ ∀ i l, ls !! i = Some l → from_input i bs = l).
Proof.
  intros HF Hs Hf.
  destruct (claim_loop_spec consume spare cap clock arrivals (λ _, True)
    fuel 0 fan ls spin st) as (fan' & st' & bs & go & left & E & Hh & _ & _ & Hin & Hgo); [|done..|].
  { intros st1 b _. destruct (consume_spec st1 b) as (st2 & go & acc & rest & -> & _). by eexists _, _. }
  destruct (handled_consume st bs st' go Hh) as (acc & rest & Hc & Hl & Hlive).
  exists fan', st', bs, acc, rest. split_and!; [done..| |].
  - intros i l Hl'. destruct (Hin i l Hl') as (r & _ & ->). by apply prefix_app_r.
  - destruct go; [right|by left]. split; [done|]. intros i l Hl'. destruct (Hin i l Hl') as (r & Hr & ->).
    by rewrite (Hgo eq_refl i r Hr), app_nil_r.
Qed.

End sinks.

(** ** Theorems *)

Lemma spin_new_ok us : (0 ≤ us < 2 ^ 32)%Z → RoundSpin.spin_ok (RoundSpin.new us).
Proof. intros ?. split; simpl; lia. Qed.

(** C14: a node worker terminates and conserves its items.  For any inputs,
    delivery strategy, knobs, clock and cancellation, its claims take each
    input's items in order; every output edge that is still open at the end
    got exactly the images of the accepted items, in claim order, behind what
    it had (a closed one a prefix), and no other edge changed.  Unless the
    token fired or every edge closed, all the items of all the inputs were
    claimed and accepted. *)
Theorem node_worker_delivers {W H O D I C} `{EqDecision H} `{Delivery W H O D}
    (log : W → H → list O) (closed : W → H → Prop) (edges_of : D → list H)
    `{!DeliveryLaws W H O D log closed edges_of}
    `{RecvItem C I} `{SelectItem C I} (arrivals : C → list I → Prop)
    `{!RecvLaws C I arrivals} `{!SelectLaws C I arrivals}
    (fuel spare cap : nat) (clock : nat → Clock) (tx_batch : bool) (us : Z) (f : I → O)
    (cs : list C) (ls : list (list I)) (st : out_state) :
  Forall2 arrivals cs ls → NoDup (edges_of st.1.2) → (0 ≤ us < 2 ^ 32)%Z → total ls < fuel →
  ∃ fan' st', node_worker fuel spare clock tx_batch us f (fanin_new cs) cap st = Ret (fan', st') ∧
    WorkerRan log closed edges_of (λ x, [f x]) ls st st'.
Proof.
  intros Hc Hnd Hus Hf. apply (worker_ran log closed edges_of _ _ fuel spare cap clock _ _ ls st arrivals).
  - by apply node_body_ok.
  - by apply fanin_new_ok.
  - by apply spin_new_ok.
  - done.
  - done.
Qed.

(** Two inputs, two output edges, batched sends; the token fires at the third
    check. *)
Lemma node_worker_delivers_witness :
  ∃ fan' st',
    node_worker 9 4 (λ _, quiet_clock) true 0 (Z.add 100)
      (fanin_new [[Some 1; None; Some 2; Some 3]; [None; Some 7]]%Z) 2
      (three_edges, mkBroadcast [0; 2], Some 2) = Ret (fan', st') ∧
    WorkerRan edge_log edge_closed txs (λ x, [100 + x]%Z) [[1; 2; 3]; [7]]%Z
      (three_edges, mkBroadcast [0; 2], Some 2) st'.
Proof.
  apply (node_worker_delivers edge_log edge_closed txs sched_arrivals).
  - repeat constructor.
  - simpl. repeat constructor; set_solver.
  - lia.
  - vm_compute. lia.
Defined.

(** An expansion worker delivers the concatenated expansions of the items
    it accepted, in claim order, to every edge that is still open, whether the
    outputs go out one by one or staged and flushed at the cap. *)
Theorem expand_worker_delivers {W H O D I C} `{EqDecision H} `{Delivery W H O D}
    (log : W → H → list O) (closed : W → H → Prop) (edges_of : D → list H)
    `{!DeliveryLaws W H O D log closed edges_of}
    `{RecvItem C I} `{SelectItem C I} (arrivals : C → list I → Prop)
    `{!RecvLaws C I arrivals} `{!SelectLaws C I arrivals}
    (fuel spare cap batch_cap : nat) (clock : nat → Clock) (tx_batch : bool) (us : Z) (f : I → list O)
    (cs : list C) (ls : list (list I)) (st : out_state) :
  Forall2 arrivals cs ls → NoDup (edges_of st.1.2) → (0 ≤ us < 2 ^ 32)%Z → total ls < fuel →
  ∃ fan' st',
    expand_worker fuel spare clock tx_batch us batch_cap f (fanin_new cs) cap st = Ret (fan', st') ∧
    WorkerRan log closed edges_of f ls st st'.
Proof.
  intros Hc Hnd Hus Hf. apply (worker_ran log closed edges_of _ _ fuel spare cap clock _ _ ls st arrivals).
  - by apply expand_body_ok.
  - by apply fanin_new_ok.
  - by apply spin_new_ok.
  - done.
  - done.
Qed.

Lemma expand_worker_delivers_witness :
  ∃ fan' st',
    expand_worker 9 4 (λ _, quiet_clock) true 0 2 (λ x, repeat x (Z.to_nat x))
      (fanin_new [[Some 1; Some 2; Some 3]; [None; Some 0]]%Z) 3
      (three_edges, mkBroadcast [2; 0], None) = Ret (fan', st') ∧
    WorkerRan edge_log edge_closed txs (λ x, repeat x (Z.to_nat x)) [[1; 2; 3]; [0]]%Z
      (three_edges, mkBroadcast [2; 0], None) st'.
Proof.
  apply (expand_worker_delivers edge_log edge_closed txs sched_arrivals).
  - repeat constructor.
  - simpl. repeat constructor; set_solver.
  - lia.
  - vm_compute. lia.
Defined.

(** A source feeder, batched or per item, delivers a prefix [acc] of its
    iterator in order: every edge that is still open got exactly [acc], and
    [acc] is the whole iterator unless the token fired or every edge closed. *)
Theorem source_feeder_delivers {W H O D} `{EqDecision H} `{Delivery W H O D}
    (log : W → H → list O) (closed : W → H → Prop) (edges_of : D → list H)
    `{!DeliveryLaws W H O D log closed edges_of}
    (tx_batch : bool) (batch_cap : nat) (items : list O) (st : out_state) :
  NoDup (edges_of st.1.2) →
  ∃ st' acc rest, source_feeder_worker tx_batch batch_cap items st = Ret st' ∧ items = acc ++ rest ∧
    (∀ h, h ∈ edges_of st.1.2 → ∃ p, p `prefix_of` acc ∧ log st'.1.1 h = log st.1.1 h ++ p ∧
       (closed st'.1.1 h ∨ p = acc)) ∧
    (fired st'.2 ∨ (∀ h, h ∈ edges_of st.1.2 → closed st'.1.1 h) ∨ rest = []).
Proof.
  intros Hnd. unfold source_feeder_worker.
  assert (∃ st' acc rest go,
    (if bool_decide ((if tx_batch then batch_cap else 0) = 0) then feed_items items st
     else feed_batches (S (length items)) (if tx_batch then batch_cap else 0) items st) = Ret st' ∧
    items = acc ++ rest ∧ Progress log closed edges_of st st' acc go ∧ (go = true → rest = []))
    as (st' & acc & rest & go & E & -> & (e & HD & Hgo) & Hr).
  { case_bool_decide; [by apply feed_items_spec|]. apply feed_batches_spec; [done|destruct tx_batch; lia|lia|done]. }
  exists st', acc, rest. split; [done|]. split; [done|]. split.
  - intros h Hh. by eapply delivered_edge.
  - destruct go; [auto|]. destruct Hgo as [?| ->]; [by left|]. right; left. intros h. by eapply delivered_none.
Qed.

Lemma source_feeder_delivers_witness :
  ∃ st' acc rest, source_feeder_worker true 2 [1; 2; 3; 4; 5]%Z (three_edges, mkUnicast 1, None) = Ret st' ∧
    [1; 2; 3; 4; 5]%Z = acc ++ rest ∧
    (∀ h, h ∈ [1] → ∃ p, p `prefix_of` acc ∧ edge_log st'.1.1 h = edge_log three_edges h ++ p ∧
       (edge_closed st'.1.1 h ∨ p = acc)) ∧
    (fired st'.2 ∨ (∀ h, h ∈ [1] → edge_closed st'.1.1 h) ∨ rest = []).
Proof.
  apply (source_feeder_delivers edge_log edge_closed (λ d, [tx d]) true 2
           [1; 2; 3; 4; 5]%Z (three_edges, mkUnicast 1, None)).
  apply NoDup_singleton.
Defined.

(** A collect sink gathers every item of every input exactly once, each
    input's items in their order, behind what the buffer held, unless the
    token fires first; then it holds a prefix of its claims. *)
Theorem collect_worker_collects {I C} `{RecvItem C I} `{SelectItem C I} (arrivals : C → list I → Prop)
    `{!RecvLaws C I arrivals} `{!SelectLaws C I arrivals}
    (fuel spare cap : nat) (clock : nat → Clock) (us : Z) (buf : list I)
    (cs : list C) (ls : list (list I)) (c : token) :
  Forall2 arrivals cs ls → (0 ≤ us < 2 ^ 32)%Z → total ls < fuel →
  ∃ fan' out c' bs acc rest,
    collect_worker fuel spare clock us buf (fanin_new cs) cap c = Ret (fan', (out, c')) ∧
    out = buf ++ acc ∧ concat bs.*2 = acc ++ rest ∧
    (∀ i l, ls !! i = Some l → from_input i bs `prefix_of` l) ∧
    (fired c' ∨ rest = [] ∧ ∀ i l, ls !! i = Some l → from_input i bs = l).
Proof.
  intros Hc Hus Hf.
  destruct (sink_ran arrivals fuel spare cap clock (RoundSpin.new us) (fanin_new cs) ls (buf, c))
    as (fan' & [out c'] & bs & acc & rest & E & Hbs & Hout & Hin & Hlive);
    [by apply fanin_new_ok|by apply spin_new_ok|done|].
  exists fan', out, c', bs, acc, rest. split_and!; done.
Qed.

Lemma collect_worker_collects_witness :
  ∃ fan' out c' bs acc rest,
    collect_worker 9 1 (λ _, quiet_clock) 0 [0]%Z
      (fanin_new [[Some 1; None; Some 2]; [None; Some 7]; []]%Z) 0 None = Ret (fan', (out, c')) ∧
    out = [0]%Z ++ acc ∧ concat bs.*2 = acc ++ rest ∧
    (∀ i l, [[1; 2]; [7]; []]%Z !! i = Some l → from_input i bs `prefix_of` l) ∧
    (fired c' ∨ rest = [] ∧ ∀ i l, [[1; 2]; [7]; []]%Z !! i = Some l → from_input i bs = l).
Proof.
  apply (collect_worker_collects sched_arrivals 9 1 0 (λ _, quiet_clock) 0 [0]%Z
    [[Some 1; None; Some 2]; [None; Some 7]; []]%Z [[1; 2]; [7]; []]%Z None).
  - repeat constructor.
  - lia.
  - vm_compute. lia.
Defined.
