(* ===== verification/StreamStages.v ===== *)
(** * StreamStages: the stage workers and the fence of a stream

    Model of the threads of a streaming run of
    [crates/youpipe/src/builder/typed/stream.rs]: the anchored claim every
    consumer starts with
    ([anchor_claim] with the spin of [AnchorSpin]), the worker bodies of
    [spawn_stage_fanout] and [spawn_expand_stage_fanout], and the fence
    forwarder ([forward_fenced], [fence_batch_send]) over [FenceBarrier].

    Channels are the interfaces of [Channel]; the process-wide knobs
    ([batch_recv_cap], [stream_tx_batch], [fwd_batch_enabled],
    [spin_anchor_us]) are arguments, and so is what the clock shows.  The
    user's closures are total functions.  A worker's staging vector is cleared
    by every batched send, so each send starts from an empty one. *)

From S2P Require Import Prelude Channel Fence Fanin Reorder Stream.

(** ** The anchored claim *)

(** [AnchorSpin] has the fields and the policy of the graph engine's
    [RoundSpin]. *)
Definition AnchorSpin : Type := RoundSpin.RoundSpin.
Definition anchor_spin_new (max_us : Z) : AnchorSpin := RoundSpin.new max_us.
Definition anchor_note_park (s : AnchorSpin) (parked : Z) : AnchorSpin := RoundSpin.note_park s parked.

Section anchor.
Context {C T : Type} `{RecvItem C T}.
(** The capacity of the scratch vector and the batch cap of a claim. *)
Context (spare_cap batch_cap : nat).

Fixpoint spin_polls (fuel : nat) (late : Z → bool) (max_polls pauses polls : Z) (c : C) (scratch : list T) :
    outcome (C * list T * Claim) :=
  match fuel with
  | O => NoFuel
  | S fuel =>
      '(c1, s1, v) ← claim_poll c scratch spare_cap batch_cap;
      match v with
      | Ready n => mret (c1, s1, Ready n)
      | ClaimClosed => mret (c1, s1, ClaimClosed)
      | ClaimEmpty =>
          if bool_decide (max_polls ≤ polls)%Z || (bool_decide (Z.land polls 7 = 7%Z) && late polls)
          then mret (c1, s1, ClaimEmpty)
          else spin_polls fuel late max_polls
                 (Z.min (RoundSpin.saturating_mul pauses 2) RoundSpin.MAX_POLL_PAUSES)
                 (polls + 1)%Z c1 s1
      end
  end.

Definition spin_claim (spin : AnchorSpin) (late : Z → bool) (c : C) (scratch : list T) :
    outcome (C * list T * Claim) :=
  if bool_decide (RoundSpin.budget_us spin = 0%Z) then mret (c, scratch, ClaimEmpty)
  else
    let max_polls := (RoundSpin.budget_us spin * RoundSpin.SPIN_ROUNDS_PER_US)%Z in
    spin_polls (S (Z.to_nat max_polls)) late max_polls 1 0 c scratch.

(** A poll, then a spin, then the blocking receive; 0 is end of stream. *)
Definition anchor_claim (clock : Clock) (spin : AnchorSpin) (c : C) (scratch : list T) :
    outcome (C * list T * AnchorSpin * nat) :=
  '(c1, s1, v1) ← claim_poll c scratch spare_cap batch_cap;
  match v1 with
  | Ready n => mret (c1, s1, spin, n)
  | ClaimClosed => mret (c1, s1, spin, 0)
  | ClaimEmpty =>
      '(c2, s2, v2) ← spin_claim spin (expired clock) c1 s1;
      match v2 with
      | Ready n => mret (c2, s2, spin, n)
      | ClaimClosed => mret (c2, s2, spin, 0)
      | ClaimEmpty =>
          match recv c2 with
          | (c3, Some item) =>
              let spin' := if bool_decide (0 < RoundSpin.max_us spin)%Z
                           then anchor_note_park spin (parked clock) else spin in
              mret (c3, [item], spin', 1)
          | (c3, None) => mret (c3, s2, spin, 0)
          end
      end
  end.

Context (arrivals : C → list T → Prop) `{!RecvLaws C T arrivals}.

Lemma spin_polls_spec fuel late max_polls pauses polls c l :
  arrivals c l → (0 ≤ polls)%Z → (Z.to_nat (max_polls - polls) < fuel)%nat →
  ∃ c' s v, spin_polls fuel late max_polls pauses polls c [] = Ret (c', s, v) ∧
    Claimed arrivals l spare_cap c' s v.
Proof.
  revert pauses polls c. induction fuel as [|fuel IH]; intros pauses polls c Ha H0 Hf; [lia|].
  cbn [spin_polls]. destruct (claim_poll_spec arrivals c l spare_cap batch_cap Ha) as (c1 & s & v & -> & Hv).
  rewrite mbind_ret. destruct v as [n| |]; [by eexists _, _, _| |by eexists _, _, _].
  destruct (_ || _) eqn:E; [by eexists _, _, _|]. apply orb_false_iff in E as [E _].
  apply bool_decide_eq_false in E. destruct Hv as [-> Ha1]. apply IH; [done|lia|lia].
Qed.

Lemma spin_claim_spec spin late c l :
  arrivals c l → RoundSpin.spin_ok spin →
  ∃ c' s v, spin_claim spin late c [] = Ret (c', s, v) ∧ Claimed arrivals l spare_cap c' s v.
Proof.
  intros Ha Hs. unfold spin_claim. case_bool_decide; [by eexists _, _, _|].
  apply spin_polls_spec; [done|lia|lia].
Qed.

(** The claim returns; it takes a nonempty prefix of what is still to arrive,
    or nothing when nothing is. *)
Lemma anchor_claim_spec clock spin c l :
  arrivals c l → RoundSpin.spin_ok spin →
  ∃ c' s spin' n, anchor_claim clock spin c [] = Ret (c', s, spin', n) ∧ n = length s ∧
    RoundSpin.spin_ok spin' ∧
    if bool_decide (n = 0) then l = [] else ∃ l', l = s ++ l' ∧ arrivals c' l'.
Proof.
  intros Ha Hs. unfold anchor_claim.
  assert (∀ c' s v, Claimed arrivals l spare_cap c' s v → v ≠ ClaimEmpty →
    ∃ n, n = length s ∧ v = (if bool_decide (n = 0) then ClaimClosed else Ready n) ∧
      if bool_decide (n = 0) then l = [] else ∃ l', l = s ++ l' ∧ arrivals c' l') as Hdone.
  { intros c' s [n| |] Hv Hne; simpl in Hv; [|done|].
    - destruct Hv as (-> & Hn & Hl). exists (length s). rewrite bool_decide_eq_false_2 by lia. done.
    - destruct Hv as [-> ->]. by exists 0. }
  destruct (claim_poll_spec arrivals c l spare_cap batch_cap Ha) as (c1 & s1 & v1 & -> & Hv1). rewrite mbind_ret.
  destruct (decide (v1 = ClaimEmpty)) as [->|Hne].
  2: { destruct (Hdone _ _ _ Hv1 Hne) as (n & Hn & -> & Hl). exists c1, s1, spin, n.
       split_and!; [|done..]. by case_bool_decide as E; [rewrite E|]. }
  destruct Hv1 as [-> Ha1].
  destruct (spin_claim_spec spin (expired clock) c1 l Ha1 Hs) as (c2 & s2 & v2 & -> & Hv2). rewrite mbind_ret.
  destruct (decide (v2 = ClaimEmpty)) as [->|Hne].
  2: { destruct (Hdone _ _ _ Hv2 Hne) as (n & Hn & -> & Hl). exists c2, s2, spin, n.
       split_and!; [|done..]. by case_bool_decide as E; [rewrite E|]. }
  destruct Hv2 as [-> Ha2]. destruct (recv c2) as [c3 [x|]] eqn:E.
  - destruct (recv_some _ _ _ _ Ha2 E) as (l' & -> & Ha3). eexists c3, [x], _, 1. split; [done|].
    split_and!; [done| |by exists l']. case_bool_decide; [by apply RoundSpin.note_park_ok|done].
  - exists c3, [], spin, 0. split_and!; [done..|]. by apply (recv_none _ _ _ Ha2 E).
Qed.

End anchor.

(** ** The consumer loop *)

Section recv_loop.
Context {C T St : Type} `{RecvItem C T} (handle : St → list T → outcome (St * bool)).
Context (spare_cap batch_cap : nat) (clock : nat → Clock).

(** [handle] is the body after a claim; [false] is an early return.  Returns
    [true] when the loop ended because the input is exhausted. *)
Fixpoint recv_loop (fuel k : nat) (c : C) (spin : AnchorSpin) (st : St) : outcome (C * St * bool) :=
  match fuel with
  | O => NoFuel
  | S fuel =>
      '(c1, scratch, spin1, claimed) ← anchor_claim spare_cap batch_cap (clock k) spin c [];
      if bool_decide (claimed = 0) then mret (c1, st, true)
      else
        '(st1, go) ← handle st scratch;
        if go : bool then recv_loop fuel (S k) c1 spin1 st1 else mret (c1, st1, false)
  end.

Context (arrivals : C → list T → Prop) `{!RecvLaws C T arrivals}.
(** What a body did with the items it accepted, composed batch after batch. *)
Context (ok : St → Prop) (progress : St → list T → St → bool → Prop).
Context (progress_nil : ∀ st, ok st → progress st [] st true).
Context (progress_app : ∀ st1 st2 st3 xs ys go,
  progress st1 xs st2 true → progress st2 ys st3 go → progress st1 (xs ++ ys) st3 go).

(** A body takes a prefix of the claimed items, all of them when it goes on. *)
Definition HandlesOk : Prop :=
  ∀ st items, ok st →
    ∃ st' go acc rest, handle st items = Ret (st', go) ∧ items = acc ++ rest ∧
      progress st acc st' go ∧ (go = true → rest = [] ∧ ok st').

(** The loop terminates: each turn takes an item, ends it or leaves it. *)
Lemma recv_loop_spec fuel k c l spin st :
  HandlesOk → arrivals c l → RoundSpin.spin_ok spin → ok st → length l < fuel →
  ∃ c' st' go acc rest, recv_loop fuel k c spin st = Ret (c', st', go) ∧ l = acc ++ rest ∧
    progress st acc st' go ∧ (go = true → rest = [] ∧ ok st').
Proof.
  intros Hh. revert k c l spin st. induction fuel as [|fuel IH]; intros k c l spin st Ha Hs Hok Hf; [lia|].
  cbn [recv_loop].
  destruct (anchor_claim_spec spare_cap batch_cap arrivals (clock k) spin c l Ha Hs)
    as (c1 & s & spin1 & n & -> & Hn & Hs1 & Hl). rewrite mbind_ret. case_bool_decide as E.
  { subst l. exists c1, st, true, [], []. split_and!; [done..|by apply progress_nil|done]. }
  destruct Hl as (l' & -> & Ha1). rewrite length_app in Hf.
  destruct (Hh st s Hok) as (st1 & go & acc & rest & -> & Es & HP & Hgo). rewrite mbind_ret.
  destruct go.
  - destruct (Hgo eq_refl) as [-> Hok1]. rewrite app_nil_r in Es. subst acc.
    destruct (IH (S k) c1 l' spin1 st1 Ha1 Hs1 Hok1) as (c' & st' & go & acc & rest & -> & -> & HP' & Hgo');
      [lia|].
    exists c', st', go, (s ++ acc), rest. split_and!; [done|by rewrite (assoc_L (++))|by eapply progress_app|done].
  - exists c1, st1, false, acc, (rest ++ l'). split_and!; [done| |done|done].
    by rewrite Es, <- (assoc_L (++)).
Qed.

End recv_loop.

(** ** Stage workers *)

Section stages.
Context {W H Out A : Type} `{SendItem W H Out}.
Implicit Types (w : W) (h : H) (c : token) (st : W * token).

(** Blocking sends, one per item, up to the first refusal. *)
Fixpoint send_each w h (outs : list Out) : W * bool :=
  match outs with
  | [] => (w, true)
  | o :: outs =>
      match send w h o with
      | (w', true) => send_each w' h outs
      | (w', false) => (w', false)
      end
  end.

(** The per-item arm: check the token, apply the stage, send its outputs. *)
Fixpoint item_arm h (f : A → list Out) st (items : list A) : outcome ((W * token) * bool) :=
  match items with
  | [] => mret (st, true)
  | x :: items =>
      let '(stop, c1) := cancel_active st.2 in
      if stop : bool then mret ((st.1, c1), false)
      else
        let '(w1, open) := send_each st.1 h (f x) in
        if open : bool then item_arm h f (w1, c1) items else mret ((w1, c1), false)
  end.

(** The batched arm of a map stage: the token is checked before every stage
    call; what was mapped is delivered even on cancel. *)
Fixpoint map_items (f : A → Out) c (items : list A) : list Out * bool * token :=
  match items with
  | [] => ([], false, c)
  | x :: items =>
      let '(stop, c1) := cancel_active c in
      if stop : bool then ([], true, c1)
      else let '(mapped, cancelled, c2) := map_items f c1 items in (f x :: mapped, cancelled, c2)
  end.

Definition map_arm h (f : A → Out) st (items : list A) : outcome ((W * token) * bool) :=
  let '(mapped, cancelled, c1) := map_items f st.2 items in
  '(w1, _, _, _, open) ← send_batch st.1 h mapped [];
  mret ((w1, c1), open && negb cancelled).

(** The batched arm of an expand stage flushes whenever the staged outputs
    reach [flush_cap].  Returns the staged outputs, whether the token stopped
    it and whether the edge is still open. *)
Fixpoint expand_flush h (f : A → list Out) (flush_cap : nat) w c (mapped : list Out) (items : list A) :
    outcome (W * token * list Out * bool * bool) :=
  match items with
  | [] => mret (w, c, mapped, false, true)
  | x :: items =>
      let '(stop, c1) := cancel_active c in
      if stop : bool then mret (w, c1, mapped, true, true)
      else
        let mapped1 := mapped ++ f x in
        if bool_decide (flush_cap ≤ length mapped1) then
          '(w1, mapped2, _, _, open) ← send_batch w h mapped1 [];
          if open : bool then expand_flush h f flush_cap w1 c1 mapped2 items
          else mret (w1, c1, mapped2, false, false)
        else expand_flush h f flush_cap w c1 mapped1 items
  end.

Definition expand_arm h (f : A → list Out) (flush_cap : nat) st (items : list A) :
    outcome ((W * token) * bool) :=
  '(w1, c1, mapped, cancelled, open) ← expand_flush h f flush_cap st.1 st.2 [] items;
  if open : bool then
    '(w2, _, _, _, open2) ← send_batch w1 h mapped [];
    mret ((w2, c1), open2 && negb cancelled)
  else mret ((w1, c1), false).

(** The share of the batch cap one of [workers] workers claims at once. *)
Definition fanout_claim_cap (batch_recv_cap workers : nat) : nat :=
  if bool_decide (batch_recv_cap = 0) then 0 else (batch_recv_cap `div` (workers `max` 1)) `max` 1.

(** *** What a stage sends *)

Context (log : W → H → list Out) (closed : W → H → Prop) `{!SendLaws W H Out log closed}.

(** The edge got the outputs of the accepted items; a prefix of them only when
    it was closed.  A worker that stops saw the token fired or the edge
    closed. *)
Definition Forwarded h (f : A → list Out) st (xs : list A) (st' : W * token) (go : bool) : Prop :=
  edge_frame log closed h st.1 st'.1 ∧ (st.2 = None → st'.2 = None) ∧
  ∃ p, p `prefix_of` (xs ≫= f) ∧ log st'.1 h = log st.1 h ++ p ∧
    if go then p = xs ≫= f else (fired st'.2 ∧ p = xs ≫= f) ∨ closed st'.1 h.

Lemma forwarded_nil h f st : Forwarded h f st [] st true.
Proof. split; [by apply edge_frame_refl|]. split; [done|]. exists []. by rewrite app_nil_r. Qed.

Lemma forwarded_app h f st1 st2 st3 xs ys go :
  Forwarded h f st1 xs st2 true → Forwarded h f st2 ys st3 go → Forwarded h f st1 (xs ++ ys) st3 go.
Proof.
  intros (F1 & N1 & p1 & _ & L1 & ->) (F2 & N2 & p2 & Hp & L2 & Hgo).
  split; [by eapply edge_frame_trans|]. split; [auto|].
  exists ((xs ≫= f) ++ p2). rewrite bind_app. split_and!.
  - by apply prefix_app.
  - by rewrite L2, L1, (assoc_L (++)).
  - destruct go; [by subst|]. destruct Hgo as [[? ->]|?]; [by left|by right].
Qed.

Lemma forwarded_stop h f w c c1 : cancel_active c = (true, c1) → Forwarded h f (w, c) [] (w, c1) false.
Proof.
  intros Hc. split; [by apply edge_frame_refl|]. split; [by eapply cancel_none|].
  exists []. split_and!; [done|by rewrite app_nil_r|]. left. split; [by eapply cancel_fired|done].
Qed.

Lemma forwarded_check h f w c b c1 : cancel_active c = (b, c1) → Forwarded h f (w, c) [] (w, c1) true.
Proof.
  intros Hc. split; [by apply edge_frame_refl|]. split; [by eapply cancel_none|]. exists []. by rewrite app_nil_r.
Qed.

Lemma send_each_spec w h outs w' ok :
  send_each w h outs = (w', ok) →
  edge_frame log closed h w w' ∧ ∃ p, p `prefix_of` outs ∧ log w' h = log w h ++ p ∧
    if ok then p = outs else closed w' h.
Proof.
  revert w. induction outs as [|o outs IH]; intros w; cbn [send_each].
  { intros [= <- <-]. split; [by apply edge_frame_refl|]. exists []. by rewrite app_nil_r. }
  destruct (send w h o) as [w1 [|]] eqn:E.
  - intros (F & p & Hp & L & Hok)%IH. split; [eapply edge_frame_trans; [by eapply send_frame|done]|].
    exists (o :: p). split_and!; [by apply prefix_cons| |by destruct ok; subst].
    by rewrite L, (send_ok _ _ _ _ E), <- (assoc_L (++)).
  - intros [= <- <-]. split; [by eapply send_frame|]. destruct (send_err _ _ _ _ E) as [L Hc].
    exists []. rewrite app_nil_r. split_and!; [apply prefix_nil|done..].
Qed.

(** Every body of a stage worker. *)
Notation stage_ok h f body := (HandlesOk body (λ _, True) (Forwarded h f)).

Lemma item_arm_ok h f : stage_ok h f (item_arm h f).
Proof.
  intros st items _. revert st. induction items as [|x items IH]; intros [w c]; cbn [item_arm fst snd].
  { exists (w, c), true, [], []. split_and!; try done. apply forwarded_nil. }
  destruct (cancel_active c) as [[|] c1] eqn:Ec.
  { exists (w, c1), false, [], (x :: items). split_and!; try done. by apply forwarded_stop. }
  destruct (send_each w h (f x)) as [w1 ok] eqn:E.
  destruct (send_each_spec _ _ _ _ _ E) as (F & p & Hp & L & Hok).
  assert (Forwarded h f (w, c) [x] (w1, c1) ok) as HF.
  { split; [done|]. split; [by eapply cancel_none|]. exists p. simpl. rewrite app_nil_r. split_and!; [done..|]. destruct ok; [done|by right]. }
  destruct ok.
  - destruct (IH (w1, c1)) as (st' & go & acc & rest & -> & -> & HP & Hgo).
    exists st', go, (x :: acc), rest. split_and!; try done. by eapply (forwarded_app _ _ _ _ _ [x]).
  - exists (w1, c1), false, [x], items. by split_and!.
Qed.

Lemma map_items_spec f c items mapped cancelled c1 :
  map_items f c items = (mapped, cancelled, c1) →
  ∃ acc rest, items = acc ++ rest ∧ mapped = f <$> acc ∧
    (if cancelled then fired c1 else rest = []) ∧ (c = None → c1 = None).
Proof.
  revert c mapped. induction items as [|x items IH]; intros c mapped; cbn [map_items].
  { intros [= <- <- <-]. by exists [], []. }
  destruct (cancel_active c) as [[|] c2] eqn:Ec.
  { intros [= <- <- <-]. exists [], (x :: items). split_and!; [done..|by eapply cancel_fired|by eapply cancel_none]. }
  destruct (map_items f c2 items) as [[m k] c3] eqn:E. intros [= <- <- <-].
  destruct (IH _ _ E) as (acc & rest & -> & -> & Hr & Hn). exists (x :: acc), rest. split_and!; [done..|].
  intros ->. apply Hn. by eapply cancel_none.
Qed.

Lemma bind_single (g : A → Out) (l : list A) : (l ≫= λ x, [g x]) = g <$> l.
Proof. induction l as [|x l IH]; [done|]. rewrite fmap_cons, <- IH. done. Qed.

(** A delivered batch: the outputs of the items accepted since the last one. *)
Lemma batch_forwarded h f w c xs c1 (cancelled : bool) :
  (if cancelled then fired c1 else True) → (c = None → c1 = None) →
  ∃ w1 dropped ok, send_batch w h (xs ≫= f) [] = Ret (w1, [], dropped.1, dropped.2, ok) ∧
    Forwarded h f (w, c) xs (w1, c1) (ok && negb cancelled).
Proof.
  intros Hc Hn. destruct (send_batch_spec log closed w h (xs ≫= f) []) as (w1 & stg & dr & ok & -> & F & p & Hx & L & Hok & Hcl).
  exists w1, (stg, dr), ok. split; [done|]. split; [done|]. split; [done|]. exists p. simpl. split_and!; [|done|].
  - rewrite Hx. by apply prefix_app_r.
  - destruct ok; simpl.
    + rewrite Hok, app_nil_r in Hx by done. destruct cancelled; simpl; [by left|done].
    + right. by apply Hcl.
Qed.

Lemma map_arm_ok h f : stage_ok h (λ x, [f x]) (map_arm h f).
Proof.
  intros [w c] items _. unfold map_arm. cbn [fst snd].
  destruct (map_items f c items) as [[mapped cancelled] c1] eqn:E.
  destruct (map_items_spec _ _ _ _ _ _ E) as (acc & rest & -> & -> & Hr & Htok).
  destruct (batch_forwarded h (λ x, [f x]) w c acc c1 cancelled) as (w1 & [stg dr] & ok & Es & HF);
    [by destruct cancelled|done|].
  rewrite bind_single in Es. rewrite Es, mbind_ret.
  exists (w1, c1), (ok && negb cancelled), acc, rest. split_and!; [done..|].
  intros [_ Hn]%andb_true_iff. destruct cancelled; [done|]. by split.
Qed.

Lemma expand_flush_spec h f flush_cap w c pre items :
  ∃ w1 c1 acc2 cancelled open acc rest,
    expand_flush h f flush_cap w c (pre ≫= f) items = Ret (w1, c1, acc2 ≫= f, cancelled, open) ∧
    items = acc ++ rest ∧ (open = true → if cancelled then fired c1 else rest = []) ∧
    if open then ∃ acc1, pre ++ acc = acc1 ++ acc2 ∧ Forwarded h f (w, c) acc1 (w1, c1) true
    else Forwarded h f (w, c) (pre ++ acc) (w1, c1) false.
Proof.
  revert w c pre. induction items as [|x items IH]; intros w c pre; cbn [expand_flush].
  { exists w, c, pre, false, true, [], []. split_and!; [done..|]. exists []. rewrite app_nil_r.
    split; [done|apply forwarded_nil]. }
  destruct (cancel_active c) as [[|] c1] eqn:Ec.
  { exists w, c1, pre, true, true, [], (x :: items). split_and!; [done..|by intros _; eapply cancel_fired|].
    exists []. rewrite app_nil_r. split; [done|]. by eapply forwarded_check. }
  assert ((pre ≫= f) ++ f x = (pre ++ [x]) ≫= f) as -> by (rewrite bind_app; simpl; by rewrite app_nil_r).
  case_bool_decide.
  - destruct (batch_forwarded h f w c (pre ++ [x]) c1 false I (cancel_none _ _ _ Ec)) as (w1 & [stg dr] & ok & Es & HF).
    rewrite Es, mbind_ret. cbn [fst snd]. rewrite andb_true_r in HF. destruct ok.
    + destruct (IH w1 c1 []) as (w2 & c2 & acc2 & cancelled & open & acc & rest & E & -> & Hc & Ho).
      change ([] ≫= f) with (@nil Out) in E. rewrite E.
      exists w2, c2, acc2, cancelled, open, (x :: acc), rest. split_and!; [done..|].
      rewrite cons_middle, (assoc_L (++)). destruct open.
      * destruct Ho as (acc1 & Ha & HF2). exists ((pre ++ [x]) ++ acc1).
        rewrite <- (assoc_L (++) _ acc1), <- Ha. split; [done|]. by eapply forwarded_app.
      * by eapply forwarded_app.
    + exists w1, c1, [], false, false, [x], items. by split_and!.
  - destruct (IH w c1 (pre ++ [x])) as (w2 & c2 & acc2 & cancelled & open & acc & rest & -> & -> & Hc & Ho).
    exists w2, c2, acc2, cancelled, open, (x :: acc), rest. split_and!; [done..|].
    rewrite cons_middle, (assoc_L (++)). pose proof (forwarded_check h f w c _ c1 Ec) as HF0. destruct open.
    + destruct Ho as (acc1 & Ha & HF). exists acc1. split; [done|]. by eapply (forwarded_app _ _ _ _ _ []).
    + by eapply (forwarded_app _ _ _ _ _ []).
Qed.

Lemma expand_arm_ok h f flush_cap : stage_ok h f (expand_arm h f flush_cap).
Proof.
  intros [w c] items _. unfold expand_arm. cbn [fst snd].
  destruct (expand_flush_spec h f flush_cap w c [] items)
    as (w1 & c1 & acc2 & cancelled & open & acc & rest & E & -> & Hc & Ho).
  change ([] ≫= f) with (@nil Out) in E. rewrite E, mbind_ret. destruct open.
  - destruct Ho as (acc1 & Ha & HF). change (acc = acc1 ++ acc2) in Ha. subst acc. specialize (Hc eq_refl).
    destruct (batch_forwarded h f w1 c1 acc2 c1 cancelled) as (w2 & [stg dr] & ok & Es & HF2);
      [by destruct cancelled|done|]. rewrite Es, mbind_ret.
    exists (w2, c1), (ok && negb cancelled), (acc1 ++ acc2), rest. split_and!; [done..|by eapply forwarded_app|].
    intros [_ Hn]%andb_true_iff. destruct cancelled; [done|]. by split.
  - exists (w1, c1), false, acc, rest. by split_and!.
Qed.

End stages.

(** *** The worker jobs *)

Section workers.
Context {W H C A B : Type} `{SendItem W H (Z * B)} `{RecvItem C (Z * A)}.
(** Scratch capacity, clock, and the knobs [stream_tx_batch] and
    [spin_anchor_us]. *)
Context (spare_cap : nat) (clock : nat → Clock) (stream_tx_batch has_async_stage : bool)
  (spin_anchor_us : Z).

Definition use_tx_batch (claim_cap : nat) : bool :=
  stream_tx_batch && bool_decide (0 < claim_cap) && negb has_async_stage.

(** The outputs of one tagged item keep its sequence number. *)
Definition tag_map (stage : A → B) (x : Z * A) : Z * B := (x.1, stage x.2).
Definition tag_expand (expand : A → list B) (x : Z * A) : list (Z * B) := pair x.1 <$> expand x.2.

(** A worker of [spawn_stage_fanout]. *)
Definition stage_worker (fuel claim_cap : nat) (stage : A → B) (c : C) (h : H) (st : W * token) :
    outcome (C * (W * token) * bool) :=
  let body := if use_tx_batch claim_cap then map_arm h (tag_map stage)
              else item_arm h (λ x, [tag_map stage x]) in
  recv_loop body spare_cap claim_cap clock fuel 0 c (anchor_spin_new spin_anchor_us) st.

(** A worker of [spawn_expand_stage_fanout]. *)
Definition expand_stage_worker (fuel batch_recv_cap claim_cap : nat) (expand : A → list B) (c : C) (h : H)
    (st : W * token) : outcome (C * (W * token) * bool) :=
  let flush_cap := batch_recv_cap `max` claim_cap `max` 1 in
  let body := if use_tx_batch claim_cap then expand_arm h (tag_expand expand) flush_cap
              else item_arm h (tag_expand expand) in
  recv_loop body spare_cap claim_cap clock fuel 0 c (anchor_spin_new spin_anchor_us) st.

Context (log : W → H → list (Z * B)) (closed : W → H → Prop) `{!SendLaws W H (Z * B) log closed}.
Context (arrivals : C → list (Z * A) → Prop) `{!RecvLaws C (Z * A) arrivals}.

(** The run of a stage worker over the arrivals [l]. *)
Definition StageRan (h : H) (f : Z * A → list (Z * B)) (l : list (Z * A)) (st st' : W * token) : Prop :=
  ∃ acc rest go, l = acc ++ rest ∧ Forwarded log closed h f st acc st' go ∧ (go = true → rest = []).

Lemma stage_loop_ran h f body fuel cap c l st :
  HandlesOk body (λ _, True) (Forwarded log closed h f) → arrivals c l → (0 ≤ spin_anchor_us < 2 ^ 32)%Z →
  length l < fuel →
  ∃ c' st' go, recv_loop body spare_cap cap clock fuel 0 c (anchor_spin_new spin_anchor_us) st = Ret (c', st', go) ∧
    StageRan h f l st st'.
Proof.
  intros Hb Ha Hus Hf.
  destruct (recv_loop_spec body spare_cap cap clock arrivals (λ _, True) (Forwarded log closed h f)
    (λ st _, forwarded_nil log closed h f st) (forwarded_app log closed h f)
    fuel 0 c l (anchor_spin_new spin_anchor_us) st Hb Ha) as (c' & st' & go & acc & rest & -> & -> & HF & Hgo);
    [by split; simpl; lia|done|done|].
  eexists _, _, _. split; [done|]. exists acc, rest, go. split_and!; [done..|]. by intros [-> _]%Hgo.
Qed.

Lemma stage_worker_spec fuel claim_cap stage c h l st :
  arrivals c l → (0 ≤ spin_anchor_us < 2 ^ 32)%Z → length l < fuel →
  ∃ c' st' go, stage_worker fuel claim_cap stage c h st = Ret (c', st', go) ∧
    StageRan h (λ x, [tag_map stage x]) l st st'.
Proof.
  intros Ha Hus Hf. unfold stage_worker. apply stage_loop_ran; [|done..].
  destruct (use_tx_batch claim_cap); [by apply map_arm_ok|by apply item_arm_ok].
Qed.

Lemma expand_stage_worker_spec fuel batch_cap claim_cap expand c h l st :
  arrivals c l → (0 ≤ spin_anchor_us < 2 ^ 32)%Z → length l < fuel →
  ∃ c' st' go, expand_stage_worker fuel batch_cap claim_cap expand c h st = Ret (c', st', go) ∧
    StageRan h (tag_expand expand) l st st'.
Proof.
  intros Ha Hus Hf. unfold expand_stage_worker. apply stage_loop_ran; [|done..].
  destruct (use_tx_batch claim_cap); [by apply expand_arm_ok|by apply item_arm_ok].
Qed.

End workers.

(** ** The fence forwarder *)

Section fence.
Context {W H C T : Type} `{SendItem W H T} `{RecvItem C T} (grow : nat → nat).
Context (spare_cap : nat) (clock : nat → Clock) (fwd_batch_enabled : bool) (spin_anchor_us : Z).
Implicit Types (fence : FenceBarrier T) (w : W) (h : H).

(** The released batch ends empty either way and keeps its allocation. *)
Definition fence_batch_send w h (batch : Vec T) : outcome (W * Vec T * bool) :=
  if fwd_batch_enabled then
    '(w1, rest, _, _, ok) ← send_batch w h (vdata batch) [];
    mret (w1, mkVec rest (vcap batch), ok)
  else
    let '(w1, ok) := send_each w h (vdata batch) in
    mret (w1, mkVec [] (vcap batch), ok).

(** [fwd]: one item through the fence. *)
Definition fwd fence w h (item : T) : outcome (FenceBarrier T * W * bool) :=
  match Fence.push grow fence item with
  | (fence1, Some batch) =>
      '(w1, batch1, ok) ← fence_batch_send w h batch;
      if ok : bool then mret (reuse grow fence1 batch1, w1, true) else mret (fence1, w1, false)
  | (fence1, None) => mret (fence1, w, true)
  end.

(** The loop over a claimed batch. *)
Fixpoint fence_items h (st : FenceBarrier T * (W * token)) (items : list T) :
    outcome ((FenceBarrier T * (W * token)) * bool) :=
  match items with
  | [] => mret (st, true)
  | x :: items =>
      let '(fence, (w, c)) := st in
      let '(stop, c1) := cancel_active c in
      if stop : bool then mret ((fence, (w, c1)), false)
      else
        '(fence1, w1, ok) ← fwd fence w h x;
        if ok : bool then fence_items h (fence1, (w1, c1)) items
        else mret ((fence1, (w1, c1)), false)
  end.

(** The draining loop, up to the end of the input or an early return. *)
Definition fence_drain (fuel batch_recv_cap : nat) (mode : FenceMode) (expected : nat) (c : C) h (st : W * token) :
    outcome (C * (FenceBarrier T * (W * token)) * bool) :=
  let fence := match mode with
               | Barrier => fence_with_capacity mode expected
               | Chunked _ => fence_new mode
               end in
  recv_loop (fence_items h) spare_cap batch_recv_cap clock fuel 0 c (anchor_spin_new spin_anchor_us) (fence, st).

Definition forward_fenced (fuel batch_recv_cap : nat) (mode : FenceMode) (expected : nat) (c : C) h (st : W * token) :
    outcome (W * token) :=
  '(_, (fence, (w, tok)), ended) ← fence_drain fuel batch_recv_cap mode expected c h st;
  if ended : bool then
    match flush fence with
    | (_, Some remaining) => '(w1, _, _) ← fence_batch_send w h remaining; mret (w1, tok)
    | (_, None) => mret (w, tok)
    end
  else mret (w, tok).

Context (log : W → H → list T) (closed : W → H → Prop) `{!SendLaws W H T log closed}.
Context (arrivals : C → list T → Prop) `{!RecvLaws C T arrivals}.

Lemma fence_batch_send_spec w h batch :
  ∃ w1 ok, fence_batch_send w h batch = Ret (w1, mkVec [] (vcap batch), ok) ∧
    edge_frame log closed h w w1 ∧ ∃ p, p `prefix_of` vdata batch ∧ log w1 h = log w h ++ p ∧
      if ok then p = vdata batch else closed w1 h.
Proof.
  unfold fence_batch_send. destruct fwd_batch_enabled.
  - destruct (send_batch_spec log closed w h (vdata batch) []) as (w1 & stg & dr & ok & -> & F & p & Hx & L & Hok & Hcl).
    rewrite mbind_ret. exists w1, ok. split; [done|]. split; [done|]. exists p. split_and!; [|done|].
    + rewrite Hx. by apply prefix_app_r.
    + destruct ok; [|by apply Hcl]. by rewrite Hx, Hok, app_nil_r.
  - destruct (send_each w h (vdata batch)) as [w1 ok] eqn:E. exists w1, ok. split; [done|].
    by apply (send_each_spec log closed) in E.
Qed.

(** What went in comes out in order: sent, or still in the fence.  [quiet]: in
    barrier mode no push releases anything. *)
Definition Fenced h (st : FenceBarrier T * (W * token)) (xs : list T) (st' : FenceBarrier T * (W * token))
    (go : bool) : Prop :=
  edge_frame log closed h st.2.1 st'.2.1 ∧ (st.2.2 = None → st'.2.2 = None) ∧ chunk_size st'.1 = chunk_size st.1 ∧
  (chunk_size st.1 = None → st'.2.1 = st.2.1) ∧
  ∃ p, log st'.2.1 h = log st.2.1 h ++ p ∧
    if go then vdata (buffer st.1) ++ xs = p ++ vdata (buffer st'.1)
    else p `prefix_of` (vdata (buffer st.1) ++ xs) ∧ (fired st'.2.2 ∨ closed st'.2.1 h).

Lemma fenced_nil h st : Fenced h st [] st true.
Proof.
  split_and!; [by apply edge_frame_refl|done..|]. exists []. by rewrite !app_nil_r.
Qed.

Lemma fenced_app h st1 st2 st3 xs ys go :
  Fenced h st1 xs st2 true → Fenced h st2 ys st3 go → Fenced h st1 (xs ++ ys) st3 go.
Proof.
  intros (F1 & N1 & C1 & Q1 & p1 & L1 & E1) (F2 & N2 & C2 & Q2 & p2 & L2 & E2).
  split_and!; [by eapply edge_frame_trans|auto|congruence|intros Hc; rewrite Q2, Q1; congruence|].
  exists (p1 ++ p2). split; [by rewrite L2, L1, (assoc_L (++))|]. rewrite (assoc_L (++)), E1.
  destruct go; [by rewrite <- !(assoc_L (++)), E2|]. destruct E2 as [Hp ?]. split; [|done].
  rewrite <- (assoc_L (++)). by apply prefix_app.
Qed.

Lemma fwd_spec fence w c c1 h x :
  fence_wf fence → (c = None → c1 = None) →
  ∃ fence1 w1 ok, fwd fence w h x = Ret (fence1, w1, ok) ∧
    Fenced h (fence, (w, c)) [x] (fence1, (w1, c1)) ok ∧ (ok = true → fence_wf fence1).
Proof.
  intros Hwf Htok. unfold fwd. destruct (Fence.push grow fence x) as [fence1 o] eqn:Ep.
  destruct (fence_step_conserves grow fence (OPush x) fence1 o Hwf Ep) as (Hwf1 & Hcs & Hcons). simpl in Hcons.
  destruct o as [batch|]; simpl in Hcons.
  2: { exists fence1, w, true. split; [done|]. split; [|done]. split_and!; [by apply edge_frame_refl|done..|].
       exists []. rewrite app_nil_r. by split. }
  rewrite app_nil_r in Hcons.
  destruct (fence_batch_send_spec w h batch) as (w1 & ok & -> & F & p & Hp & L & Hok). rewrite mbind_ret.
  assert (chunk_size fence = None → w1 = w) as Hq.
  { intros Hn. revert Ep. unfold Fence.push, should_flush. simpl. rewrite Hn. by intros. }
  destruct ok.
  - subst p. eexists _, w1, true. split; [done|].
    destruct (fence_step_conserves grow fence1 (OReuse (mkVec [] (vcap batch))) _ _ Hwf1 eq_refl)
      as (Hwf2 & Hcs2 & Hc2). simpl in Hc2. rewrite app_nil_r in Hc2. split; [|done].
    split_and!; [done|done|simpl; congruence|done|]. exists (vdata batch). split; [done|]. simpl. by rewrite <- Hc2.
  - exists fence1, w1, false. split; [done|]. split; [|done]. split_and!; [done..|]. exists p. split; [done|].
    split; [|by right]. simpl. rewrite Hcons. by apply prefix_app_r.
Qed.

Lemma fence_items_ok h : HandlesOk (fence_items h) (λ st, fence_wf st.1) (Fenced h).
Proof.
  intros st items. revert st. induction items as [|x items IH]; intros [fence [w c]] Hwf; cbn [fence_items].
  { exists (fence, (w, c)), true, [], []. split_and!; try done. apply fenced_nil. }
  destruct (cancel_active c) as [[|] c1] eqn:Ec.
  { exists (fence, (w, c1)), false, [], (x :: items). split_and!; try done.
    split_and!; [by apply edge_frame_refl|by eapply cancel_none|done..|]. exists []. simpl. rewrite !app_nil_r.
    split; [done|]. split; [apply prefix_nil|]. left. by eapply cancel_fired. }
  destruct (fwd_spec fence w c c1 h x Hwf (cancel_none _ _ _ Ec)) as (f1 & w1 & ok & -> & HF & Hwf1). rewrite mbind_ret. destruct ok.
  - destruct (IH (f1, (w1, c1)) (Hwf1 eq_refl)) as (st' & go & acc & rest & -> & -> & HP & Hgo).
    exists st', go, (x :: acc), rest. split_and!; try done. by eapply (fenced_app _ _ _ _ [x]).
  - exists (f1, (w1, c1)), false, [x], items. by split_and!.
Qed.

(** The forwarder: the draining loop, then the final flush. *)
Lemma forward_fenced_spec fuel batch_cap mode expected c h l w tok :
  arrivals c l → (0 ≤ spin_anchor_us < 2 ^ 32)%Z → length l < fuel →
  ∃ c1 fence1 w1 tok1 ended,
    fence_drain fuel batch_cap mode expected c h (w, tok) = Ret (c1, (fence1, (w1, tok1)), ended) ∧
    (mode = Barrier → w1 = w) ∧
    ∃ w2 p, forward_fenced fuel batch_cap mode expected c h (w, tok) = Ret (w2, tok1) ∧
      edge_frame log closed h w w2 ∧ (tok = None → tok1 = None) ∧ p `prefix_of` l ∧ log w2 h = log w h ++ p ∧
      (if ended then p = l ∨ closed w2 h else w2 = w1 ∧ (fired tok1 ∨ closed w2 h)).
Proof.
  intros Ha Hus Hf. unfold forward_fenced, fence_drain. cbv zeta.
  set (fence := match mode with Barrier => _ | _ => _ end).
  assert (fence_wf fence ∧ vdata (buffer fence) = [] ∧ chunk_size fence = chunk_size_of mode) as (Hwf & Hb & Hcs)
    by (unfold fence; destruct mode; done).
  destruct (recv_loop_spec (fence_items h) spare_cap batch_cap clock arrivals (λ st, fence_wf st.1) (Fenced h)
    (λ st _, fenced_nil h st) (fenced_app h) fuel 0 c l (anchor_spin_new spin_anchor_us) (fence, (w, tok))
    (fence_items_ok h) Ha) as (c1 & [f1 [w1 t1]] & go & acc & rest & -> & -> & HF & Hgo);
    [by split; simpl; lia|done|done|].
  destruct HF as (F & Hn & _ & Q & p & L & Hp). simpl in *. rewrite Hb in Hp.
  exists c1, f1, w1, t1, go. split; [done|].
  split; [intros ->; by apply Q|]. destruct go.
  2: { destruct Hp as [Hp Hstop]. exists w1, p. split_and!; try done. by apply prefix_app_r. }
  destruct (Hgo eq_refl) as [-> Hwf1]. rewrite app_nil_r. simpl in Hp.
  destruct (flush f1) as [f2 o] eqn:Ef. unfold flush in Ef.
  destruct (vdata (buffer f1)) as [|y ys] eqn:Eb; simplify_eq/=.
  { rewrite app_nil_r. exists w1, p. by split_and!; try by left. }
  destruct (fence_batch_send_spec w1 h (buffer f1)) as (w2 & ok & -> & F2 & q & Hq & L2 & Hok).
  rewrite mbind_ret. rewrite Eb in Hq, Hok. exists w2, (p ++ q). split_and!; [done|by eapply edge_frame_trans|done|by apply prefix_app| |].
  - by rewrite L2, L, (assoc_L (++)).
  - destruct ok; [left; by subst|by right].
Qed.

End fence.

(** ** Theorems *)

(** C18: a stage worker terminates and conserves its items.  For any receiver,
    sender, knobs, clock and cancellation, a map worker and an expand worker
    accept a prefix of their arrivals and send the outputs of the accepted
    items, each with its item's sequence number, in arrival order and behind
    what the channel already got from them — all of them unless the channel was
    closed.  Without a cancellation token, and with the channel open, everything
    that arrives is accepted.  Nothing else of the channels changes. *)
Theorem stage_workers_deliver {W H C A B} `{SendItem W H (Z * B)} `{RecvItem C (Z * A)}
    (log : W → H → list (Z * B)) (closed : W → H → Prop) `{!SendLaws W H (Z * B) log closed}
    (arrivals : C → list (Z * A) → Prop) `{!RecvLaws C (Z * A) arrivals}
    (spare_cap batch_cap claim_cap fuel : nat) (clock : nat → Clock) (tx_batch has_async : bool) (us : Z)
    (stage : A → B) (expand : A → list B) (c : C) (h : H) (l : list (Z * A)) (st : W * token) :
  arrivals c l → (0 ≤ us < 2 ^ 32)%Z → length l < fuel →
  let ran (f : Z * A → list (Z * B)) (r : outcome (C * (W * token) * bool)) : Prop :=
    ∃ c' st' go acc rest p, r = Ret (c', st', go) ∧ l = acc ++ rest ∧
      edge_frame log closed h st.1 st'.1 ∧ log st'.1 h = log st.1 h ++ p ∧ p `prefix_of` (acc ≫= f) ∧
      (closed st'.1 h ∨ p = acc ≫= f) ∧
      (st.2 = None → closed st'.1 h ∨ rest = []) in
  ran (λ x, [tag_map stage x])
    (stage_worker spare_cap clock tx_batch has_async us fuel claim_cap stage c h st) ∧
  ran (tag_expand expand)
    (expand_stage_worker spare_cap clock tx_batch has_async us fuel batch_cap claim_cap expand c h st).
Proof.
  intros Ha Hus Hf ran.
  assert (∀ f r, (∃ c' st' go, r = Ret (c', st', go) ∧ StageRan log closed h f l st st') → ran f r) as Hran.
  { intros f r (c' & st' & go & -> & acc & rest & go2 & -> & (F & Hn & p & Hp & L & Hgo) & Hr).
    exists c', st', go, acc, rest, p. split_and!; try done.
    - destruct go2; [by right|]. destruct Hgo as [[_ ?]|?]; [by right|by left].
    - intros Hnone. destruct go2; [right; by apply Hr|]. destruct Hgo as [[Hfi _]|?]; [|by left].
      by rewrite Hn in Hfi. }
  split; apply Hran; [by eapply stage_worker_spec|by eapply expand_stage_worker_spec].
Qed.

(** An edge that closes after three items. *)
Definition short_edge : Type := nat * list (Z * Z).
#[export] Instance short_send : SendItem short_edge unit (Z * Z) := {
  send w _ x := match w.1 with
                | O => (w, false)
                | S k => ((k, w.2 ++ [x]), true)
                end;
  try_send w _ x := match w.1 with
                    | O => (w, SendClosed x)
                    | S k => ((k, w.2 ++ [x]), Sent)
                    end;
  send_run w _ xs := let n := w.1 `min` length xs in ((w.1 - n, w.2 ++ take n xs), n);
}.

Lemma short_frame (w w' : short_edge) (h : unit) :
  (w.1 = 0 → w'.1 = 0) → edge_frame (λ w _, w.2) (λ w _, w.1 = 0) h w w'.
Proof. intros Hc. destruct h. split; [intros [] Hne; by destruct Hne|done]. Qed.

#[export] Instance short_laws : SendLaws short_edge unit (Z * Z) (λ w _, w.2) (λ w _, w.1 = 0).
Proof.
  split.
  - intros [[|k] l] h x w' ok E; simplify_eq/=; by apply short_frame.
  - intros [[|k] l] h x w' E; by simplify_eq/=.
  - intros [[|k] l] h x w' E; by simplify_eq/=.
  - intros [[|k] l] h x w' r E; simplify_eq/=; by apply short_frame.
  - intros [[|k] l] h x w' E; by simplify_eq/=.
  - intros [[|k] l] h x w' y E; by simplify_eq/=.
  - intros [[|k] l] h x w' y E; by simplify_eq/=.
  - intros [k l] h xs w' n E; simplify_eq/=. apply short_frame. simpl. lia.
  - intros [k l] h xs w' n E; simplify_eq/=. split; [lia|done].
Qed.

Lemma stage_workers_deliver_witness :
  ∃ c' st' go acc rest p,
    stage_worker 4 (λ _, quiet_clock) true false 3 9 2 (Z.add 10)
      [Some (0, 1); None; Some (1, 2); Some (2, 3); Some (3, 4)]%Z tt ((3, []) : short_edge, None)
      = Ret (c', st', go) ∧
    [(0, 1); (1, 2); (2, 3); (3, 4)]%Z = acc ++ rest ∧
    st'.1.2 = p ∧ p `prefix_of` (acc ≫= λ x, [tag_map (Z.add 10) x]).
Proof.
  destruct (stage_workers_deliver (λ (w : short_edge) (_ : unit), w.2) (λ w _, w.1 = 0) sched_arrivals
    4 4 2 9 (λ _, quiet_clock) true false 3 (Z.add 10) (λ x, [x; x])
    [Some (0, 1); None; Some (1, 2); Some (2, 3); Some (3, 4)]%Z tt
    [(0, 1); (1, 2); (2, 3); (3, 4)]%Z ((3, []), None)) as [(c' & st' & go & acc & rest & p & E & Hl & _ & L & Hp & _) _];
    [reflexivity|lia|simpl; lia|].
  exists c', st', go, acc, rest, p. split; [exact E|]. split; [exact Hl|]. split; [exact L|exact Hp].
Defined.

(** C19: the fence forwarder terminates and never reorders, duplicates or loses
    an item: it sends a prefix of its arrivals, in order, and all of them when
    it is not cancelled and the channel stays open — the rest in the final
    flush, whatever the chunk size, the batching knob and the allocator.  In
    barrier mode nothing at all is sent before the input is exhausted: the
    channels are untouched when the draining loop ends. *)
Theorem forward_fenced_in_order {W H C T} `{SendItem W H T} `{RecvItem C T}
    (log : W → H → list T) (closed : W → H → Prop) `{!SendLaws W H T log closed}
    (arrivals : C → list T → Prop) `{!RecvLaws C T arrivals}
    (grow : nat → nat) (spare_cap batch_cap fuel expected : nat) (clock : nat → Clock) (batched : bool) (us : Z)
    (mode : FenceMode) (c : C) (h : H) (l : list T) (w : W) (tok : token) :
  arrivals c l → (0 ≤ us < 2 ^ 32)%Z → length l < fuel →
  ∃ c1 fence1 w1 tok1 ended w2 p,
    fence_drain grow spare_cap clock batched us fuel batch_cap mode expected c h (w, tok)
      = Ret (c1, (fence1, (w1, tok1)), ended) ∧
    forward_fenced grow spare_cap clock batched us fuel batch_cap mode expected c h (w, tok)
      = Ret (w2, tok1) ∧
    (mode = Barrier → w1 = w) ∧ (ended = false → w2 = w1) ∧
    edge_frame log closed h w w2 ∧ log w2 h = log w h ++ p ∧ p `prefix_of` l ∧
    (p = l ∨ closed w2 h ∨ fired tok1 ∧ tok ≠ None).
Proof.
  intros Ha Hus Hf.
  destruct (forward_fenced_spec grow spare_cap clock batched us log closed arrivals fuel batch_cap mode expected
    c h l w tok Ha Hus Hf) as (c1 & f1 & w1 & t1 & ended & E1 & Hb & w2 & p & E2 & F & Hn & Hp & L & Hend).
  exists c1, f1, w1, t1, ended, w2, p. split_and!; try done.
  - intros ->. by destruct Hend.
  - destruct ended; [destruct Hend; auto|]. destruct Hend as [_ [Hfi|?]]; [|auto].
    right; right. split; [done|]. intros Hnone. by rewrite Hn in Hfi.
Qed.

Lemma forward_fenced_in_order_witness :
  ∃ w2 tok1 p,
    forward_fenced (λ n, n * 2) 4 (λ _, quiet_clock) true 0 9 2 (Chunked 2) 3
      [Some (0, 5); None; Some (1, 6); Some (2, 7)]%Z tt ((5, []) : short_edge, None) = Ret (w2, tok1) ∧
    w2.2 = p ∧ p = [(0, 5); (1, 6); (2, 7)]%Z.
Proof.
  destruct (forward_fenced_in_order (λ (w : short_edge) (_ : unit), w.2) (λ w _, w.1 = 0) sched_arrivals
    (λ n, n * 2) 4 2 9 3 (λ _, quiet_clock) true 0 (Chunked 2)
    [Some (0, 5); None; Some (1, 6); Some (2, 7)]%Z tt [(0, 5); (1, 6); (2, 7)]%Z (5, []) None)
    as (c1 & f1 & w1 & tok1 & ended & w2 & p & _ & E & _ & _ & _ & L & _ & Hp); [reflexivity|lia|simpl; lia|].
  exists w2, tok1, p. split; [exact E|]. split; [exact L|].
  destruct Hp as [Hp|[Hc|[_ Hne]]]; [exact Hp| |by destruct Hne].
  vm_compute in E. injection E as <- _. discriminate Hc.
Defined.
