(* ===== verification/StreamRun.v ===== *)
(** * StreamRun: from the feeder to the ordered terminal

    The feeder's push loop of [crates/youpipe/src/builder/typed/stream.rs]
    ([push_items]) and the composition of a streaming run: the feeder tags every
    item with its position, stage workers and fence forwarders
    ([StreamStages]) hand the tagged items on, and the ordered terminal
    ([Stream]) puts them back into input order.

    How the items of a channel spread over the workers of a stage, and how the
    workers' outputs interleave in the next channel, is left open: any
    distribution is allowed. *)

From S2P Require Import Prelude Channel Fence Fanin Reorder Stream StreamStages.

(** [iter.enumerate()] from [k] on; the index is cast to the [u64] tag. *)
Fixpoint enumerate {A} (k : Z) (l : list A) : list (Z * A) :=
  match l with
  | [] => []
  | x :: l => (k, x) :: enumerate (k + 1) l
  end.

(** ** The feeder *)

Section feeder.
Context {W H T : Type} `{SendItem W H T}.
Implicit Types (w : W) (h : H) (c : token).

(** Batching off: check the token, send, per item. *)
Fixpoint push_each w h c (items : list T) : W * token :=
  match items with
  | [] => (w, c)
  | x :: items =>
      let '(stop, c1) := cancel_active c in
      if stop : bool then (w, c1)
      else match send w h x with
           | (w1, true) => push_each w1 h c1 items
           | (w1, false) => (w1, c1)
           end
  end.

(** The staging loop: up to [cap] items; a fired token ends it.  Returns the
    staged slots, what the iterator still holds, and whether it was stopped. *)
Fixpoint fill_stage (cap : nat) c (staged : staging T) (items : list T) :
    staging T * list T * token * bool :=
  match items with
  | [] => (staged, [], c, false)
  | x :: items =>
      let '(stop, c1) := cancel_active c in
      if stop : bool then (staged, items, c1, true)
      else
        let staged1 := staged ++ [Some x] in
        if bool_decide (length staged1 = cap) then (staged1, items, c1, false)
        else fill_stage cap c1 staged1 items
  end.

(** The unsent slots from [i] on: check the token, send.  Returns the dropped
    items and whether the push loop goes on. *)
Fixpoint push_rest (fuel : nat) w h c (staged : staging T) (i : nat) : outcome (W * token * list T * bool) :=
  match fuel with
  | O => NoFuel
  | S fuel =>
      if bool_decide (i < length staged) then
        let '(stop, c1) := cancel_active c in
        if stop : bool then
          dropped ← drop_staged (drop i staged); mret (w, c1, dropped, false)
        else
          '(staged1, item) ← read_slot staged i;
          match send w h item with
          | (w1, true) => push_rest fuel w1 h c1 staged1 (S i)
          | (w1, false) =>
              dropped ← drop_staged (drop (S i) staged1); mret (w1, c1, item :: dropped, false)
          end
      else mret (w, c, [], true)
  end.

Fixpoint push_batches (fuel cap : nat) w h c (items : list T) : outcome (W * token * list T) :=
  match fuel with
  | O => NoFuel
  | S fuel =>
      let '(staged, rest, c1, cancelled) := fill_stage cap c [] items in
      if cancelled : bool then dropped ← drop_staged staged; mret (w, c1, dropped)
      else if bool_decide (length staged = 0) then mret (w, c1, [])
      else
        '(w1, staged1, sent) ← try_send_batch w h staged;
        '(w2, c2, dropped, go) ← push_rest (S (length staged1)) w1 h c1 staged1 sent;
        if go : bool then push_batches fuel cap w2 h c2 rest else mret (w2, c2, dropped)
  end.

(** [push_items] after tagging; [cap] is [batch_recv_cap()]. *)
Definition push_items (cap : nat) w h c (items : list T) : outcome (W * token * list T) :=
  if bool_decide (cap = 0) then let '(w1, c1) := push_each w h c items in mret (w1, c1, [])
  else push_batches (S (length items)) cap w h c items.

Context (log : W → H → list T) (closed : W → H → Prop) `{!SendLaws W H T log closed}.

(** [p] went out, [dropped] was dropped from the staging slots, and the whole
    input went out unless the token fired or the edge closed. *)
Definition Pushed h (items : list T) w c w' c' (p dropped rest : list T) : Prop :=
  items = p ++ rest ∧ edge_frame log closed h w w' ∧ log w' h = log w h ++ p ∧
  (c = None → c' = None) ∧ dropped `prefix_of` rest ∧ (rest = [] ∨ fired c' ∨ closed w' h).

Lemma push_each_spec w h c items w' c' :
  push_each w h c items = (w', c') → ∃ p rest, Pushed h items w c w' c' p [] rest.
Proof.
  revert w c. induction items as [|x items IH]; intros w c; cbn [push_each].
  { intros [= <- <-]. exists [], []. split_and!; try done; [by rewrite app_nil_r|by left]. }
  destruct (cancel_active c) as [[|] c1] eqn:Ec.
  { intros [= <- <-]. exists [], (x :: items).
    split_and!; [done|by apply edge_frame_refl|by rewrite app_nil_r|by eapply cancel_none|apply prefix_nil|].
    right; left. by eapply cancel_fired. }
  destruct (send w h x) as [w1 [|]] eqn:E.
  - intros (p & rest & -> & F & L & Hn & Hd & Hr)%IH. exists (x :: p), rest.
    split_and!; [done|eapply edge_frame_trans; [by eapply send_frame|done]| | |done|done].
    + by rewrite L, (send_ok _ _ _ _ E), <- (assoc_L (++)).
    + intros ->. apply Hn. by eapply cancel_none.
  - intros [= <- <-]. destruct (send_err _ _ _ _ E) as [L Hc]. exists [], (x :: items).
    split_and!; [done|by eapply send_frame|by rewrite app_nil_r|by eapply cancel_none|apply prefix_nil|by right; right].
Qed.

Lemma fill_stage_spec cap c pre items staged rest c1 cancelled :
  length pre < cap →
  fill_stage cap c (Some <$> pre) items = (staged, rest, c1, cancelled) →
  ∃ xs, staged = Some <$> (pre ++ xs) ∧ (c = None → c1 = None) ∧
    if cancelled then fired c1 ∧ ∃ x, items = xs ++ x :: rest
    else items = xs ++ rest ∧ (xs = [] → items = []).
Proof.
  revert c pre. induction items as [|x items IH]; intros c pre Hlt; cbn [fill_stage].
  { intros [= <- <- <- <-]. exists []. by rewrite app_nil_r. }
  destruct (cancel_active c) as [[|] c2] eqn:Ec.
  { intros [= <- <- <- <-]. exists []. rewrite app_nil_r. split_and!; [done|by eapply cancel_none|by eapply cancel_fired|by exists x]. }
  assert ((Some <$> pre) ++ [Some x] = Some <$> (pre ++ [x])) as -> by (by rewrite fmap_app).
  rewrite length_fmap, length_app. simpl. case_bool_decide as Hl.
  { intros [= <- <- <- <-]. exists [x]. split_and!; [done|by eapply cancel_none|done|done]. }
  intros (xs & -> & Hn & Hr)%IH; [|rewrite length_app; simpl; lia]. exists (x :: xs).
  rewrite <- (assoc_L (++)). split_and!; [done| |].
  - intros ->. apply Hn. by eapply cancel_none.
  - destruct cancelled.
    + destruct Hr as (? & y & ->). split; [done|]. by exists y.
    + destruct Hr as [-> _]. done.
Qed.

Lemma push_rest_spec fuel w h c k xs :
  length xs < fuel →
  ∃ w' c' p dropped go, push_rest fuel w h c (replicate k None ++ (Some <$> xs)) k = Ret (w', c', dropped, go) ∧
    Pushed h xs w c w' c' p dropped dropped ∧ (go = true ↔ dropped = []).
Proof.
  revert w c k xs. induction fuel as [|fuel IH]; intros w c k xs Hf; [lia|]. cbn [push_rest].
  rewrite length_app, length_replicate, length_fmap.
  destruct xs as [|x xs]; rewrite ?fmap_nil, ?fmap_cons; cbn [length].
  { rewrite bool_decide_eq_false_2 by lia. exists w, c, [], [], true. split; [done|].
    split; [|done]. split_and!; try done; [by rewrite app_nil_r|by left]. }
  rewrite bool_decide_eq_true_2 by lia. destruct (cancel_active c) as [[|] c1] eqn:Ec.
  { rewrite drop_app_length' by (by rewrite length_replicate). unfold drop_staged.
    rewrite <- fmap_cons, init_all_some, mbind_ret. exists w, c1, [], (x :: xs), false. split; [done|].
    split; [|done]. split_and!; [done|by apply edge_frame_refl|by rewrite app_nil_r|by eapply cancel_none|done|].
    right; left. by eapply cancel_fired. }
  pose proof (read_slot_spec (replicate k None) (Some <$> xs) x) as R.
  rewrite length_replicate in R. rewrite R, mbind_ret. destruct (send w h x) as [w1 [|]] eqn:E.
  - rewrite cons_middle, (assoc_L (++)).
    replace (replicate k None ++ [None]) with (replicate (S k) (@None T)) by (by rewrite <- replicate_cons_app).
    destruct (IH w1 c1 (S k) xs) as (w' & c' & p & dr & go & -> & (-> & F & L & Hn & Hd & Hr) & Hgo); [simpl in Hf; lia|].
    exists w', c', (x :: p), dr, go. split; [done|]. split; [|done].
    split_and!; [done|eapply edge_frame_trans; [by eapply send_frame|done]| | |done|done].
    + by rewrite L, (send_ok _ _ _ _ E), <- (assoc_L (++)).
    + intros ->. apply Hn. by eapply cancel_none.
  - destruct (send_err _ _ _ _ E) as [L Hc].
    rewrite cons_middle, (assoc_L (++)), drop_app_length' by (rewrite length_app, length_replicate; simpl; lia).
    unfold drop_staged. rewrite init_all_some, mbind_ret. exists w1, c1, [], (x :: xs), false. split; [done|].
    split; [|done]. split_and!; [done|by eapply send_frame|by rewrite app_nil_r|by eapply cancel_none|done|by right; right].
Qed.

Lemma push_batches_spec fuel cap w h c items :
  0 < cap → length items < fuel →
  ∃ w' c' p dropped rest, push_batches fuel cap w h c items = Ret (w', c', dropped) ∧
    Pushed h items w c w' c' p dropped rest.
Proof.
  intros Hcap. revert w c items. induction fuel as [|fuel IH]; intros w c items Hf; [lia|]. cbn [push_batches].
  destruct (fill_stage cap c [] items) as [[[staged rest] c1] cancelled] eqn:E.
  apply (fill_stage_spec cap c []) in E as (xs & -> & Hn & Hx); [|done]. rewrite app_nil_l.
  destruct cancelled.
  { destruct Hx as (Hfd & x & ->). unfold drop_staged. rewrite init_all_some, mbind_ret.
    exists w, c1, [], xs, (xs ++ x :: rest). split; [done|].
    split_and!; [done|by apply edge_frame_refl|by rewrite app_nil_r|done|by apply prefix_app_r|by right; left]. }
  destruct Hx as [-> Hnil]. rewrite length_fmap. case_bool_decide as El.
  { apply nil_length_inv in El as ->. specialize (Hnil eq_refl). simpl in Hnil. subst rest.
    exists w, c1, [], [], []. split; [done|].
    split_and!; try done; [by rewrite app_nil_r|by left]. }
  unfold try_send_batch. rewrite init_all_some, mbind_ret. destruct (send_run w h xs) as [w1 n] eqn:Er.
  destruct (send_run_prefix _ _ _ _ _ Er) as [Hle L1]. pose proof (send_run_frame _ _ _ _ _ Er) as F1.
  cbn [mbind outcome_mbind mret outcome_mret]. rewrite <- fmap_drop.
  destruct (push_rest_spec (S (length (replicate n None ++ (Some <$> drop n xs)))) w1 h c1 n (drop n xs))
    as (w2 & c2 & p & dr & go & -> & (Hp & F2 & L2 & Hn2 & Hd & Hr) & Hgo).
  { rewrite length_app, length_fmap. lia. }
  cbn [mbind outcome_mbind].
  assert (log w2 h = log w h ++ (take n xs ++ p)) as L by (by rewrite L2, L1, (assoc_L (++))).
  assert (xs = (take n xs ++ p) ++ dr) as Hxs by (by rewrite <- (assoc_L (++)), <- Hp, take_drop).
  pose proof (edge_frame_trans log closed h _ _ _ F1 F2) as F.
  destruct go.
  - rewrite (proj1 Hgo), app_nil_r in Hxs by done.
    destruct (IH w2 c2 rest) as (w3 & c3 & q & dr3 & rest3 & -> & (-> & F3 & L3 & Hn3 & Hd3 & Hr3)).
    { rewrite length_app in Hf. lia. }
    exists w3, c3, (xs ++ q), dr3, rest3. split; [done|].
    split_and!; [by rewrite (assoc_L (++))|by eapply edge_frame_trans| |auto|done|done].
    rewrite L3, L, <- Hxs. by rewrite (assoc_L (++)).
  - exists w2, c2, (take n xs ++ p), dr, (dr ++ rest). split; [done|].
    split_and!; [by rewrite (assoc_L (++)), <- Hxs|done|done|auto|by apply prefix_app_r|].
    destruct Hr as [Hdr|Hr]; [|by right]. by apply Hgo in Hdr.
Qed.

Lemma push_items_spec cap w h c items :
  ∃ w' c' p dropped rest, push_items cap w h c items = Ret (w', c', dropped) ∧
    Pushed h items w c w' c' p dropped rest.
Proof.
  unfold push_items. case_bool_decide.
  - destruct (push_each w h c items) as [w' c'] eqn:E.
    destruct (push_each_spec _ _ _ _ _ _ E) as (p & rest & HP). by exists w', c', p, [], rest.
  - apply push_batches_spec; lia.
Qed.

End feeder.

(** ** Composition *)

(** An open channel: how many free slots each batched send finds, and what was
    sent. *)
Notation pipe T := (list nat * list T)%type (only parsing).

#[export] Instance pipe_send (T : Type) : SendItem (pipe T) unit T := {
  send w _ x := ((w.1, w.2 ++ [x]), true);
  try_send w _ x := ((w.1, w.2 ++ [x]), Sent);
  send_run w _ xs :=
    match w.1 with
    | [] => (w, 0)
    | k :: free => ((free, w.2 ++ take (k `min` length xs) xs), k `min` length xs)
    end;
}.

#[export] Instance pipe_laws (T : Type) :
  SendLaws (pipe T) unit T (λ w _, w.2) (λ _ _, False).
Proof.
  assert (∀ (w w' : pipe T) (h : unit), edge_frame (λ w _, w.2) (λ _ _, False) h w w') as HF
    by (intros w w' []; split; [intros [] Hne; by destruct Hne|done]).
  split; simpl; intros; simplify_eq/=; try done.
  - destruct w as [[|k free] l]; simplify_eq/=.
    + split; [lia|]. by rewrite take_0, app_nil_r.
    + split; [lia|done].
Qed.

(** One worker of a map stage, uncancelled, took [share] from its input and
    sent [out]. *)
Definition worker_sent {A B} (f : A → B) (share : list (Z * A)) (out : list (Z * B)) : Prop :=
  ∃ spare_cap clock tx_batch has_async us fuel claim_cap c free c' w' tok' go,
    sched_arrivals c share ∧ (0 ≤ us < 2 ^ 32)%Z ∧ length share < fuel ∧
    stage_worker spare_cap clock tx_batch has_async us fuel claim_cap f c tt ((free, []) : pipe (Z * B), None)
      = Ret (c', (w', tok'), go) ∧ w'.2 = out.

(** A fence forwarder, uncancelled, took [l] and sent [out]. *)
Definition fence_sent {A} (mode : FenceMode) (l out : list (Z * A)) : Prop :=
  ∃ grow spare_cap clock batched us fuel cap expected c free w' tok',
    sched_arrivals c l ∧ (0 ≤ us < 2 ^ 32)%Z ∧ length l < fuel ∧
    forward_fenced grow spare_cap clock batched us fuel cap mode expected c tt ((free, []) : pipe (Z * A), None)
      = Ret (w', tok') ∧ w'.2 = out.

(** The options of a map stage that concern its topology. *)
Record SyncStageOptions : Type := mkStageOptions {
  workers : option Z;
  buffer : option Z;
}.

(** The stages of a pipeline, as the builder nests them: the last one is the
    outermost, and each holds the ones before it.  [SyncStage] applies a
    function to every item, [FenceStage] holds items back. *)
Inductive StreamChain : Type → Type → Type :=
  | StreamStart (I : Type) : StreamChain I I
  | SyncStage (I M O : Type) (prev : StreamChain I M) (opts : SyncStageOptions) (f : M → O) : StreamChain I O
  | FenceStage (I M : Type) (prev : StreamChain I M) (mode : FenceMode) : StreamChain I M.
Arguments StreamStart {I}.
Arguments SyncStage {I M O} prev opts f.
Arguments FenceStage {I M} prev mode.

(** A run of a chain, from what enters its first channel to what arrives in its
    last one: the workers of a stage share its input in any way, each item
    going to one of them, and their outputs interleave in any way. *)
Fixpoint chain_run {I O} (chain : StreamChain I O) : list (Z * I) → list (Z * O) → Prop :=
  match chain with
  | StreamStart => λ l l', l' = l
  | SyncStage prev _ f => λ l l', ∃ l1 shares outs, chain_run prev l l1 ∧
      concat shares ≡ₚ l1 ∧ Forall2 (worker_sent f) shares outs ∧ l' ≡ₚ concat outs
  | FenceStage prev mode => λ l l', ∃ l1, chain_run prev l l1 ∧ fence_sent mode l1 l'
  end.

(** What the chain computes on one item. *)
Fixpoint chain_fun {I O} (chain : StreamChain I O) : I → O :=
  match chain with
  | StreamStart => λ x, x
  | SyncStage prev _ f => λ x, f (chain_fun prev x)
  | FenceStage prev _ => chain_fun prev
  end.

Lemma worker_sent_map {A B} (f : A → B) share out : worker_sent f share out → out = tag_map f <$> share.
Proof.
  intros (spare_cap & clock & txb & has_async & us & fuel & cap & c & free & c' & w' & tok' & go & Ha & Hus & Hf & E & <-).
  destruct (stage_worker_spec spare_cap clock txb has_async us (λ w _, w.2) (λ _ _, False) sched_arrivals
    fuel cap f c tt share ((free, []), None) Ha Hus Hf) as (c1 & st1 & go1 & E1 & acc & rest & go2 & -> & HF & Hgo).
  rewrite E in E1. simplify_eq. destruct HF as (_ & Hn & p & _ & L & Hp). cbn [fst snd] in *.
  rewrite Hn in Hp by done. destruct go2; [|by destruct Hp as [[? _]|[]]].
  rewrite Hgo, app_nil_r, L by done. subst p. apply bind_single.
Qed.

Lemma workers_sent_map {A B} (f : A → B) shares outs :
  Forall2 (worker_sent f) shares outs → concat outs = tag_map f <$> concat shares.
Proof.
  induction 1 as [|s o shares outs Hso _ IH]; [done|]. cbn [concat].
  by rewrite fmap_app, <- IH, (worker_sent_map _ _ _ Hso).
Qed.

Lemma fence_sent_all {A} mode (l out : list (Z * A)) : fence_sent mode l out → out = l.
Proof.
  intros (grow & spare_cap & clock & batched & us & fuel & cap & expected & c & free & w' & tok' & Ha & Hus & Hf & E & <-).
  destruct (forward_fenced_spec grow spare_cap clock batched us (λ w _, w.2) (λ _ _, False) sched_arrivals
    fuel cap mode expected c tt l (free, []) None Ha Hus Hf)
    as (c1 & f1 & w1 & t1 & ended & _ & _ & w2 & p & E2 & _ & Hn & _ & L & Hend).
  pose proof (eq_trans (eq_sym E) E2) as EE. simplify_eq. simpl in L. rewrite L. rewrite Hn in Hend by done.
  destruct ended; [by destruct Hend|]. by destruct Hend as [_ [?|[]]].
Qed.

Lemma chain_run_perm {I O} (chain : StreamChain I O) l l' :
  chain_run chain l l' → l' ≡ₚ tag_map (chain_fun chain) <$> l.
Proof.
  induction chain as [I|I M O prev IH opts f|I M prev IH mode]; cbn.
  - intros ->. assert (tag_map (λ x : I, x) <$> l = l) as ->; [|done].
    rewrite <- (list_fmap_id l) at 2. apply list_fmap_ext. by intros i [s x] _.
  - intros (l1 & shares & outs & Hrun%IH & Hs & Hw & ->).
    rewrite (workers_sent_map _ _ _ Hw), Hs, Hrun. by rewrite <- list_fmap_compose.
  - intros (l1 & Hrun%IH & ->%fence_sent_all). done.
Qed.

Lemma enumerate_seqZ {A} (d : A) k (l : list A) :
  enumerate k l = (λ s, (s, nth (Z.to_nat (s - k)) l d)) <$> seqZ k (Z.of_nat (length l)).
Proof.
  revert k. induction l as [|x l IH]; intros k; [done|]. cbn [enumerate length].
  rewrite Nat2Z.inj_succ, seqZ_cons by lia. rewrite fmap_cons, Z.pred_succ, IH.
  change (Z.succ k) with (k + 1)%Z. f_equal.
  - by rewrite Z.sub_diag.
  - apply list_fmap_ext. intros i s Hs. apply lookup_seqZ in Hs as [-> _].
    replace (Z.to_nat (k + 1 + Z.of_nat i - (k + 1))) with i by lia.
    replace (Z.to_nat (k + 1 + Z.of_nat i - k)) with (S i) by lia. done.
Qed.

(** The ordered terminal on what a chain hands over. *)
Lemma chain_drain {C I O} `{!Inhabited I} `{RecvItem C (Z * O)} arrivals `{!RecvLaws C (Z * O) arrivals}
    (links : StreamChain I O) (items : list I) final (c : C) (w : OrderedWindow) (cancel : option bool)
    (batch_cap fuel : nat) :
  window_covers (Z.of_nat (length items)) w →
  chain_run links (enumerate 0 items) final → arrivals c final → length items < fuel →
  drain_ordered_with fuel c (Z.of_nat (length items)) w (Validate cancel) batch_cap
    = Ret (chain_fun links <$> items).
Proof.
  intros Hw Hrun%chain_run_perm Ha Hf.
  set (f := λ s, chain_fun links (nth (Z.to_nat s) items inhabitant)).
  assert (tag_map (chain_fun links) <$> enumerate 0 items = (λ s, (s, f s)) <$> seqZ 0 (Z.of_nat (length items))) as E.
  { rewrite (enumerate_seqZ inhabitant), <- list_fmap_compose. apply list_fmap_ext.
    intros i s _. unfold f, tag_map. simpl. by rewrite Z.sub_0_r. }
  rewrite E in Hrun. apply Permutation_map_inv in Hrun as (p & -> & Hp).
  assert (f <$> seqZ 0 (Z.of_nat (length items)) = chain_fun links <$> items) as <-.
  { apply (f_equal (fmap snd)) in E. rewrite <- !list_fmap_compose in E.
    transitivity ((snd ∘ tag_map (chain_fun links)) <$> enumerate 0 items); [symmetry; exact E|].
    clear. generalize 0%Z. induction items as [|x items IH]; intros k; [done|].
    cbn [enumerate]. by rewrite !fmap_cons, IH. }
  eapply (drain_ordered_permutation arrivals f _ w p); [by symmetry|lia|done|exact Ha|].
  rewrite <- Hp, length_seqZ. lia.
Qed.

(** ** Theorems *)

(** C3: an uncancelled ordered streaming run whose reorder window is large
    enough returns what the sequential program returns.  For any input, any
    chain of map stages and fences and any window whose ceiling is at least the number of items (the automatic one always is:
    [auto_covers]; a smaller [with_reorder_window] may drop items, see
    [Stream.drain_ordered_pinned_window_accounts]), whatever the batch caps,
    free slots, claim sizes, clocks, numbers of workers, distribution of the
    items over the workers and interleaving of their outputs, the feeder hands
    over every item with its position, and any receiver of what the chain's
    last channel holds makes the ordered terminal return exactly the composed
    stage functions applied to the input, in input order.  That a channel
    between two stages delivers each item once to one of the workers and stays
    open while they run is part of [chain_run].  Chains that the engine runs on
    the fused core instead are the subject of [PassThrough]. *)
Theorem stream_run_is_map {I O} `{!Inhabited I} (links : StreamChain I O) (items : list I)
    (cap : nat) (free : list nat) (window : OrderedWindow) :
  window_covers (Z.of_nat (length items)) window →
  ∃ w tok, push_items cap ((free, []) : pipe (Z * I)) tt None (enumerate 0 items) = Ret (w, tok, []) ∧
    ∀ final sched batch_cap fuel,
      chain_run links w.2 final → sched_arrivals sched final → length items < fuel →
      drain_ordered_with fuel sched (Z.of_nat (length items)) window (Validate None) batch_cap
        = Ret (chain_fun links <$> items).
Proof.
  intros Hw.
  destruct (push_items_spec (λ w _, w.2) (λ _ _, False) cap ((free, []) : pipe (Z * I)) tt None (enumerate 0 items))
    as (w & tok & p & dropped & rest & E & Hp & _ & L & Htok & Hd & Hr).
  rewrite Htok in Hr by done. destruct Hr as [->|[?|[]]]; [|done]. apply prefix_nil_inv in Hd as ->.
  exists w, tok. split; [exact E|]. intros final sched batch_cap fuel Hrun Ha Hf.
  rewrite app_nil_r in Hp. simpl in L. rewrite L, <- Hp in Hrun.
  by apply (chain_drain sched_arrivals links items final).
Qed.

(** Two workers of a stage behind a fence, arriving out of order. *)
Definition no_options : SyncStageOptions := mkStageOptions None None.
Definition demo_links : StreamChain Z (Z * bool) :=
  SyncStage (FenceStage StreamStart (Chunked 2)) no_options (λ x, (2 * x, Z.even x)%Z).

Lemma demo_chain :
  chain_run demo_links [(0, 5); (1, 6); (2, 7)]%Z [(2, (14, false)); (0, (10, false)); (1, (12, true))]%Z.
Proof.
  exists [(0, 5); (1, 6); (2, 7)]%Z, [[(0, 5); (1, 6)]; [(2, 7)]]%Z,
    [[(0, (10, false)); (1, (12, true))]; [(2, (14, false))]]%Z.
  split_and!.
  - exists [(0, 5); (1, 6); (2, 7)]%Z. split; [done|].
    exists (λ n, n * 2), 4, (λ _, quiet_clock), true, 0%Z, 9, 2, 3,
      [None; Some (0, 5); Some (1, 6); None; Some (2, 7)]%Z, [1], ([], [(0, 5); (1, 6); (2, 7)]%Z), None.
    split_and!; [reflexivity|lia|lia|simpl; lia|vm_compute; reflexivity|reflexivity].
  - reflexivity.
  - constructor; [|constructor; [|constructor]].
    + exists 4, (λ _, quiet_clock), true, false, 0%Z, 9, 2, [Some (0, 5); None; Some (1, 6)]%Z, [2],
        [], ([], [(0, (10, false)); (1, (12, true))]%Z), None, true.
      split_and!; [reflexivity|lia|lia|simpl; lia|vm_compute; reflexivity|reflexivity].
    + exists 1, (λ _, quiet_clock), false, false, 0%Z, 9, 0, [Some (2, 7)]%Z, [],
        [], ([], [(2, (14, false))]%Z), None, true.
      split_and!; [reflexivity|lia|lia|simpl; lia|vm_compute; reflexivity|reflexivity].
  - apply (Permutation_middle [(0, (10, false)); (1, (12, true))]%Z []).
Qed.

Lemma stream_run_is_map_witness :
  drain_ordered_with 9 [Some (2, (14, false)); Some (0, (10, false)); None; Some (1, (12, true))]%Z 3
    (auto 3 0) (Validate None) 2 = Ret [(10, false); (12, true); (14, false)]%Z.
Proof.
  destruct (stream_run_is_map demo_links [5; 6; 7]%Z 2 [1] (auto 3 0)) as (w & tok & E & H);
    [split; vm_compute; intuition congruence|].
  vm_compute in E. injection E as <- _.
  apply (H [(2, (14, false)); (0, (10, false)); (1, (12, true))]%Z); [exact demo_chain|reflexivity|simpl; lia].
Defined.

(** The feeder hands over its items in order, per item or in batches.  What
    it sends is a prefix of the input behind what the channel already holds,
    and the whole input unless the token fired or the channel closed (without a
    token, unless the channel closed); every staged item it does not send is
    dropped, none is read twice or left in a slot. *)
Theorem push_items_feeds {W H T} `{SendItem W H T} (log : W → H → list T) (closed : W → H → Prop)
    `{!SendLaws W H T log closed} (cap : nat) (w : W) (h : H) (tok : token) (items : list T) :
  ∃ w' tok' p dropped rest, push_items cap w h tok items = Ret (w', tok', dropped) ∧
    items = p ++ rest ∧ log w' h = log w h ++ p ∧ edge_frame log closed h w w' ∧
    dropped `prefix_of` rest ∧ (rest = [] ∨ closed w' h ∨ fired tok' ∧ tok ≠ None).
Proof.
  destruct (push_items_spec log closed cap w h tok items)
    as (w' & tok' & p & dr & rest & -> & -> & F & L & Hn & Hd & Hr).
  exists w', tok', p, dr, rest. split_and!; [done..|].
  destruct Hr as [?|[Hfi|?]]; [by left| |by right; left]. right; right. split; [done|].
  intros Hnone. by rewrite Hn in Hfi.
Qed.

(** Batches of two into an edge that closes after three items. *)
Lemma push_items_feeds_witness :
  ∃ w' tok' p dropped rest,
    push_items 2 ((3, []) : short_edge) tt None [(0, 5); (1, 6); (2, 7); (3, 8); (4, 9)]%Z
      = Ret (w', tok', dropped) ∧
    [(0, 5); (1, 6); (2, 7); (3, 8); (4, 9)]%Z = p ++ rest ∧ w'.2 = p ∧ dropped `prefix_of` rest.
Proof.
  destruct (push_items_feeds (λ (w : short_edge) (_ : unit), w.2) (λ w _, w.1 = 0) 2 (3, []) tt None
    [(0, 5); (1, 6); (2, 7); (3, 8); (4, 9)]%Z) as (w' & tok' & p & dropped & rest & E & Hp & L & _ & Hd & _).
  exists w', tok', p, dropped, rest. split; [exact E|]. split; [exact Hp|]. split; [exact L|exact Hd].
Defined.
