(* ===== verification/St3Ring.v ===== *)
(** * St3Ring: the ring buffers of the work-stealing deques

    Model of [crates/youpipe-st3/src/lib.rs] (packing of two short counters in
    one long word, buffer allocation) and [transfer.rs] (the bulk transfer of
    stolen items between two rings, or within one).

    Buffers live in a shared memory ([Mem]), a function from buffer identities
    to slots, so that a transfer from a queue to itself is expressed as it is in
    the code: two references to the same buffer.  A slot is a
    [MaybeUninit<T>]: [None] when it was never written or its item has been
    moved out.  Reading an item moves it out, so a second read of the same
    item is [Undef], as is any access outside the buffer. *)

From stdpp Require Export functions.
From S2P Require Import Prelude.
Local Open Scope Z_scope.

(** [UnsignedShort::BITS] on targets with 64-bit atomics. *)
Definition SHORT : Z := 32.

Definition pack (value1 value2 : Z) : Z := Z.lor (Z.shiftl value1 SHORT) value2.

Definition unpack (value : Z) : Z * Z := (wrap SHORT (Z.shiftr value SHORT), wrap SHORT value).

#[global] Arguments pack : simpl never.
#[global] Arguments unpack : simpl never.
#[global] Arguments wrap : simpl never.
#[global] Arguments wrapping_add : simpl never.
#[global] Arguments wrapping_sub : simpl never.

Inductive StealError : Type := Empty | Busy.

Definition MAX_CAPACITY : Z := 2 ^ (SHORT - 1).

(** The least value from [cur] upward whose word is [w]. *)
Definition adv (cur w : Z) : Z := cur + wrap SHORT (w - cur).

(** ** Shared memory *)

Notation Mem A := (nat → list (option A)).

Definition allocate_buffer {A} (len : Z) : list (option A) := replicate (Z.to_nat len) None.

Section cells.
Context {A : Type}.
Implicit Types (m : Mem A) (l : nat).

(** [buffer[i].read().assume_init()] through a raw pointer. *)
Definition cell_read m l (i : Z) : outcome (A * Mem A) :=
  if bool_decide (0 ≤ i) then
    match m l !! Z.to_nat i with
    | Some (Some x) => mret (x, <[l := <[Z.to_nat i := None]> (m l)]> m)
    | _ => Undef
    end
  else Undef.

Definition cell_write m l (i : Z) (x : A) : outcome (Mem A) :=
  if bool_decide (0 ≤ i < Z.of_nat (length (m l)))
  then mret (<[l := <[Z.to_nat i := Some x]> (m l)]> m)
  else Undef.

(** [buffer.len()]. *)
Definition buf_len m l : Z := Z.of_nat (length (m l)).

(** [Queue::read_at] and [Queue::write_at], with their debug assertion. *)
Definition read_at m l (mask position : Z) : outcome (A * Mem A) :=
  let index := Z.land position mask in
  guard_panic (bool_decide (index < buf_len m l));;
  cell_read m l index.

Definition write_at m l (mask position : Z) (item : A) : outcome (Mem A) :=
  let index := Z.land position mask in
  guard_panic (bool_decide (index < buf_len m l));;
  cell_write m l index item.

(** ** Transfer *)

Definition SMALL_CHUNK : Z := 8.

(** [for i in 0..len { dst.add(i).write(src.add(i).read()) }]. *)
Fixpoint copy_items m (src : nat) (si : Z) (dst : nat) (di : Z) (len : nat) : outcome (Mem A) :=
  match len with
  | O => mret m
  | S len =>
      '(x, m1) ← cell_read m src si;
      m2 ← cell_write m1 dst di x;
      copy_items m2 src (si + 1) dst (di + 1) len
  end.

(** [ptr::copy_nonoverlapping]: undefined when the two ranges of one
    allocation overlap. *)
Definition copy_nonoverlapping m (src : nat) (si : Z) (dst : nat) (di : Z) (len : Z) :
    outcome (Mem A) :=
  if bool_decide (src = dst ∧ si < di + len ∧ di < si + len) then Undef
  else copy_items m src si dst di (Z.to_nat len).

(** The body of [for (start, end) in [(0, lo), (lo, hi), (hi, n)]]. *)
Definition copy_chunk m (src : nat) (cap src_idx : Z) (dst : nat) (dcap dst_idx : Z)
    (start end_ : Z) : outcome (Mem A) :=
  let len := end_ - start in
  if bool_decide (len = 0) then mret m
  else
    let src_chunk := Z.land (src_idx + start) (cap - 1) in
    let dst_chunk := Z.land (dst_idx + start) (dcap - 1) in
    if bool_decide (len ≤ SMALL_CHUNK)
    then copy_items m src src_chunk dst dst_chunk (Z.to_nat len)
    else copy_nonoverlapping m src src_chunk dst dst_chunk len.

(** The debug assertion that the chunks of a self-steal are disjoint. *)
Definition chunks_disjoint (cap src_idx dcap dst_idx lo hi n : Z) : bool :=
  let chunks := [(0, lo); (lo, hi); (hi, n)] in
  forallb (λ '(a_start, a_end), forallb (λ '(b_start, b_end),
    let a0 := Z.land (src_idx + a_start) (cap - 1) in
    let b0 := Z.land (dst_idx + b_start) (dcap - 1) in
    bool_decide (a0 + (a_end - a_start) ≤ b0 ∨ b0 + (b_end - b_start) ≤ a0)) chunks) chunks.

(** [is_power_of_two] of a [usize]. *)
Definition is_power_of_two (x : Z) : bool := bool_decide (0 < x ∧ Z.land x (x - 1) = 0).

Definition transfer_items m (src : nat) (src_mask src_pos : Z)
    (dst : nat) (dst_mask dst_pos count : Z) : outcome (Mem A) :=
  let cap := src_mask + 1 in
  let dcap := dst_mask + 1 in
  let src_idx := Z.land src_pos src_mask in
  let dst_idx := Z.land dst_pos dst_mask in
  let n := count in
  guard_panic (bool_decide (cap = buf_len m src ∧ dcap = buf_len m dst));;
  guard_panic (is_power_of_two cap && is_power_of_two dcap);;
  if bool_decide (n ≤ 1) then
    if bool_decide (n = 1) then
      '(x, m1) ← cell_read m src src_idx;
      cell_write m1 dst dst_idx x
    else mret m
  else
    let s := Z.min (cap - src_idx) n in
    let d := Z.min (dcap - dst_idx) n in
    let lo := if bool_decide (s ≤ d) then s else d in
    let hi := if bool_decide (s ≤ d) then d else s in
    guard_panic (negb (bool_decide (src = dst)) ||
                 chunks_disjoint cap src_idx dcap dst_idx lo hi n);;
    m1 ← copy_chunk m src cap src_idx dst dcap dst_idx 0 lo;
    m2 ← copy_chunk m1 src cap src_idx dst dcap dst_idx lo hi;
    copy_chunk m2 src cap src_idx dst dcap dst_idx hi n.

(** The per-element version ([cfg(st3_loom)]), the reference for the bulk one. *)
Fixpoint transfer_loom m (src : nat) (src_mask src_pos : Z)
    (dst : nat) (dst_mask dst_pos : Z) (offset : Z) (count : nat) : outcome (Mem A) :=
  match count with
  | O => mret m
  | S count =>
      '(item, m1) ← cell_read m src (Z.land (wrapping_add SHORT src_pos offset) src_mask);
      m2 ← cell_write m1 dst (Z.land (wrapping_add SHORT dst_pos offset) dst_mask) item;
      transfer_loom m2 src src_mask src_pos dst dst_mask dst_pos (offset + 1) count
  end.

End cells.

(** ** Packing *)

Lemma unpack_pack v1 v2 : is_word SHORT v1 → is_word SHORT v2 → unpack (pack v1 v2) = (v1, v2).
Proof.
  intros [H1 H1'] [H2 H2']. unfold unpack, pack, wrap, SHORT in *.
  rewrite Z.shiftr_lor, Z.shiftr_shiftl_l, Z.sub_diag, Z.shiftl_0_r by lia.
  rewrite (Z.shiftr_div_pow2 v2), (Z.div_small v2), Z.lor_0_r, (Z.mod_small v1) by lia.
  f_equal. rewrite <- Z.land_ones, Z.land_lor_distr_l, !Z.land_ones by lia.
  rewrite Z.shiftl_mul_pow2, Z.mod_mul, Z.lor_0_l by lia. by apply Z.mod_small.
Qed.

Lemma is_word_wrap z : is_word SHORT (wrap SHORT z).
Proof. apply wrap_word. unfold SHORT. lia. Qed.
#[export] Hint Resolve is_word_wrap : words.

Lemma unpack_pack_wrap a b :
  unpack (pack (wrap SHORT a) (wrap SHORT b)) = (wrap SHORT a, wrap SHORT b).
Proof. apply unpack_pack; apply is_word_wrap. Qed.

(** Two positions less than a full cycle apart are equal iff their words are. *)
Lemma wrap_inj a b : - 2 ^ SHORT < a - b < 2 ^ SHORT → wrap SHORT a = wrap SHORT b → a = b.
Proof.
  unfold wrap. intros Hd Heq. assert (0 < 2 ^ SHORT) as Hp by (unfold SHORT; lia).
  revert Hd Heq Hp. generalize (2 ^ SHORT) as M. intros M Hd Heq Hp.
  pose proof (Z.div_mod a M ltac:(lia)) as Ea. pose proof (Z.div_mod b M ltac:(lia)) as Eb.
  rewrite Heq in Ea. assert (a / M = b / M) as E by nia. rewrite E in Ea. lia.
Qed.

Lemma wrapping_sub_wrap a b : wrapping_sub SHORT (wrap SHORT a) (wrap SHORT b) = wrap SHORT (a - b).
Proof. unfold wrapping_sub, wrap. symmetry. apply Zminus_mod. Qed.

Lemma wrapping_add_wrap a b : wrapping_add SHORT (wrap SHORT a) b = wrap SHORT (a + b).
Proof. unfold wrapping_add, wrap. by rewrite Zplus_mod_idemp_l. Qed.

Lemma wrapping_add_wrap2 a b :
  wrapping_add SHORT (wrap SHORT a) (wrap SHORT b) = wrap SHORT (a + b).
Proof. unfold wrapping_add, wrap. symmetry. apply Zplus_mod. Qed.

Lemma wrapping_sub_wrap_l a b : wrapping_sub SHORT (wrap SHORT a) b = wrap SHORT (a - b).
Proof. unfold wrapping_sub, wrap. by rewrite Zminus_mod_idemp_l. Qed.

Lemma pack_inj a b a' b' :
  pack (wrap SHORT a) (wrap SHORT b) = pack (wrap SHORT a') (wrap SHORT b') →
  wrap SHORT a = wrap SHORT a' ∧ wrap SHORT b = wrap SHORT b'.
Proof.
  intros E. assert (unpack (pack (wrap SHORT a) (wrap SHORT b)) =
    unpack (pack (wrap SHORT a') (wrap SHORT b'))) as E' by congruence.
  rewrite !unpack_pack_wrap in E'. by simplify_eq.
Qed.

Lemma wrap_between a b k :
  0 ≤ a - b → a - b ≤ k → 2 * k ≤ 2 ^ SHORT → 0 < k → wrap SHORT (a - b) = a - b.
Proof. intros. apply wrap_small. split; lia. Qed.

Lemma adv_wrap s s' : 0 ≤ s' - s < 2 ^ SHORT → adv s (wrap SHORT s') = s'.
Proof.
  intros H. unfold adv, wrap. rewrite Zminus_mod_idemp_l, Z.mod_small by done. lia.
Qed.

(** A capacity: a power of two that leaves one spare bit in a short word. *)
Definition st3_cap (cap : Z) : Prop := pow2 cap ∧ cap ≤ 2 ^ (SHORT - 1).

Lemma st3_cap_pos cap : st3_cap cap → 0 < cap.
Proof. intros [? _]. by apply pow2_pos. Qed.

Lemma st3_cap_lt cap : st3_cap cap → 2 * cap ≤ 2 ^ SHORT.
Proof. intros [_ H]. unfold SHORT in *. lia. Qed.

(** The index of a position is its word masked. *)
Lemma land_wrap cap p : st3_cap cap → Z.land (wrap SHORT p) (cap - 1) = p mod cap.
Proof.
  intros Hc. destruct Hc as [Hp Hle]. rewrite land_mask by done. unfold wrap.
  apply mod_mod_pow2; [done|by exists SHORT|unfold SHORT in *; lia].
Qed.

(** The capacity both constructors compute. *)
Lemma new_capacity n :
  0 ≤ n ≤ MAX_CAPACITY →
  pow2 (next_power_of_two 64 n) ∧ n ≤ next_power_of_two 64 n ∧
  next_power_of_two 64 n ≤ 2 ^ (SHORT - 1).
Proof.
  unfold MAX_CAPACITY. intros H.
  destruct (next_power_of_two_spec 64 n) as (Hp & Hle & H1); [lia|unfold SHORT in H; lia|].
  split_and!; [done..|].
  assert (0 ≤ Z.log2_up n ≤ SHORT - 1) as Hlog.
  { split; [apply Z.log2_up_nonneg|].
    destruct (decide (n ≤ 1)); [rewrite Z.log2_up_eqn0; unfold SHORT; lia|].
    apply Z.log2_up_le_pow2; [lia|]. apply H. }
  unfold next_power_of_two, wrap. rewrite Z.mod_small.
  - apply Z.pow_le_mono_r; lia.
  - split; [lia|]. apply Z.pow_lt_mono_r; unfold SHORT in *; lia.
Qed.

Lemma is_power_of_two_pow2 c : pow2 c → is_power_of_two c = true.
Proof.
  intros Hc. unfold is_power_of_two. apply bool_decide_eq_true_2.
  pose proof (pow2_pos _ Hc). split; [done|]. rewrite land_mask by done. apply Z.mod_same. lia.
Qed.

(** ** Rings *)

(** [RingRep cap buf lo items]: the buffer holds [items] at positions
    [lo], [lo + 1], ..., a [None] being a vacant slot; every slot past the last
    item is vacant. *)
Record RingRep {A} (cap : Z) (buf : list (option A)) (lo : Z) (items : list (option A)) : Prop := {
  rr_len : Z.of_nat (length buf) = cap;
  rr_items : Z.of_nat (length items) ≤ cap;
  rr_slot i : 0 ≤ i < cap →
    buf !! Z.to_nat ((lo + i) mod cap) = Some (mjoin (items !! Z.to_nat i));
}.

Lemma ring_idx_inj cap lo i j :
  0 ≤ i < cap → 0 ≤ j < cap → (lo + i) mod cap = (lo + j) mod cap → i = j.
Proof.
  intros Hi Hj Heq. pose proof (Z.div_mod (lo + i) cap ltac:(lia)) as Ei.
  pose proof (Z.div_mod (lo + j) cap ltac:(lia)) as Ej. rewrite Heq in Ei.
  assert ((lo + i) / cap = (lo + j) / cap) as E by nia. rewrite E in Ei. lia.
Qed.

Lemma ring_init {A} cap lo : 0 < cap → RingRep cap (allocate_buffer (A := A) cap) lo [].
Proof.
  intros Hc. unfold allocate_buffer. split.
  - rewrite length_replicate. lia.
  - simpl. lia.
  - intros i Hi. rewrite lookup_nil. apply lookup_replicate_2.
    pose proof (Z.mod_pos_bound (lo + i) cap). lia.
Qed.

Lemma ring_idx_bound cap p : 0 < cap → 0 ≤ p mod cap < cap.
Proof. intros. apply Z.mod_pos_bound. lia. Qed.

Lemma ring_insert {A} cap (buf : list (option A)) p x j :
  0 < cap → Z.of_nat (length buf) = cap → 0 ≤ p < cap → 0 ≤ j < cap →
  <[Z.to_nat p := x]> buf !! Z.to_nat j =
    if decide (j = p) then Some x else buf !! Z.to_nat j.
Proof.
  intros Hc Hl Hp Hj. case_decide as Hd.
  - subst j. apply list_lookup_insert_eq. lia.
  - apply list_lookup_insert_ne. lia.
Qed.

Lemma ring_set {A} cap (buf : list (option A)) lo items (i : nat) y :
  0 < cap → RingRep cap buf lo items → (i < length items)%nat →
  RingRep cap (<[Z.to_nat ((lo + Z.of_nat i) mod cap) := y]> buf) lo (<[i := y]> items).
Proof.
  intros Hc [Hlen Hit Hslot] Hi. split; rewrite ?length_insert; [done|done|]. intros j Hj.
  rewrite (ring_insert cap); [|done..|by apply ring_idx_bound|by apply ring_idx_bound].
  case_decide as Hd.
  - apply ring_idx_inj in Hd; [|lia|lia]. subst j. by rewrite Nat2Z.id, list_lookup_insert_eq.
  - rewrite Hslot, list_lookup_insert_ne; [done| |done]. intros ->. destruct Hd. by rewrite Z2Nat.id by lia.
Qed.

Lemma ring_snoc_none {A} cap (buf : list (option A)) lo items :
  Z.of_nat (length items) < cap →
  RingRep cap buf lo items ↔ RingRep cap buf lo (items ++ [None]).
Proof.
  intros Hlt. assert (∀ i, mjoin ((items ++ [None]) !! i) = mjoin (items !! i)) as E.
  { intros i. destruct (decide (i < length items)%nat); [by rewrite lookup_app_l|].
    rewrite lookup_app_r, (lookup_ge_None_2 items) by lia.
    by destruct (i - length items)%nat. }
  split; intros [Hlen Hit Hslot]; split; rewrite ?length_app in *; simpl in *; try lia;
    intros i Hi; rewrite Hslot by done; by rewrite E.
Qed.

Lemma ring_cons_none {A} cap (buf : list (option A)) lo items :
  0 < cap → RingRep cap buf lo (None :: items) → RingRep cap buf (lo + 1) items.
Proof.
  intros Hc [Hlen Hit Hslot]. simpl in Hit. split; [done|lia|]. intros i Hi.
  destruct (decide (i = cap - 1)) as [->|Hne].
  - replace (lo + 1 + (cap - 1)) with (lo + 0 + 1 * cap) by lia. rewrite Z.mod_add, Hslot by lia.
    simpl. f_equal. by rewrite lookup_ge_None_2 by lia.
  - replace (lo + 1 + i) with (lo + (i + 1)) by lia. rewrite Hslot by lia.
    by replace (Z.to_nat (i + 1)) with (S (Z.to_nat i)) by lia.
Qed.

Lemma nonempty_last {A} (l : list A) : l ≠ [] → ∃ l' x, l = l' ++ [x].
Proof. intros H. destruct (exists_last H) as (l' & x & E). eauto. Qed.

(** ** Reading and writing at a position *)

Lemma ring_read {A} cap (m : Mem A) l lo items (i : nat) x :
  0 < cap → RingRep cap (m l) lo items → items !! i = Some (Some x) →
  ∃ buf, cell_read m l ((lo + Z.of_nat i) mod cap) = Ret (x, <[l := buf]> m) ∧
    RingRep cap buf lo (<[i := None]> items).
Proof.
  intros Hc Hr Hi. pose proof (lookup_lt_Some _ _ _ Hi) as Hlt.
  pose proof (rr_items _ _ _ _ Hr). unfold cell_read.
  rewrite bool_decide_eq_true_2, (rr_slot _ _ _ _ Hr), Nat2Z.id, Hi
    by (lia || by apply ring_idx_bound).
  eexists. split; [done|]. by apply ring_set.
Qed.

Lemma ring_write {A} cap (m : Mem A) l lo items x :
  0 < cap → RingRep cap (m l) lo items → Z.of_nat (length items) < cap →
  ∃ buf, cell_write m l ((lo + Z.of_nat (length items)) mod cap) x = Ret (<[l := buf]> m) ∧
    RingRep cap buf lo (items ++ [Some x]).
Proof.
  intros Hc Hr Hlt. unfold cell_write. rewrite bool_decide_eq_true_2.
  - eexists. split; [done|]. apply (ring_snoc_none cap) in Hr; [|done].
    apply (ring_set cap _ _ _ (length items) (Some x)) in Hr; [|done|rewrite length_app; simpl; lia].
    by rewrite insert_app_r_alt, Nat.sub_diag in Hr by lia.
  - rewrite (rr_len _ _ _ _ Hr). by apply ring_idx_bound.
Qed.

Section at_position.
Context {A : Type} (cap : Z) (m : Mem A) (l : nat) (lo : Z).
Context (Hcap : st3_cap cap).

Lemma at_index p items :
  RingRep cap (m l) lo items →
  Z.land (wrap SHORT p) (cap - 1) = p mod cap ∧ p mod cap < buf_len m l.
Proof.
  intros Hr. unfold buf_len. rewrite (rr_len _ _ _ _ Hr), land_wrap by done. split; [done|].
  by apply ring_idx_bound, st3_cap_pos.
Qed.

Lemma read_at_ring items (i : nat) x :
  RingRep cap (m l) lo items → items !! i = Some (Some x) →
  ∃ buf, read_at m l (cap - 1) (wrap SHORT (lo + Z.of_nat i)) = Ret (x, <[l := buf]> m) ∧
    RingRep cap buf lo (<[i := None]> items).
Proof.
  intros Hr Hi. destruct (at_index (lo + Z.of_nat i) items Hr) as [E Hb]. unfold read_at.
  rewrite E, bool_decide_eq_true_2 by done. simpl. apply ring_read; [by apply st3_cap_pos|done..].
Qed.

Lemma read_at_front x items :
  RingRep cap (m l) lo (Some x :: items) →
  ∃ buf, read_at m l (cap - 1) (wrap SHORT lo) = Ret (x, <[l := buf]> m) ∧
    RingRep cap buf (lo + 1) items.
Proof.
  intros Hr. destruct (read_at_ring _ 0%nat x Hr) as (buf & E & Hr'); [done|].
  rewrite Z.add_0_r in E. exists buf. split; [done|].
  apply ring_cons_none; [by apply st3_cap_pos|done].
Qed.

Lemma read_at_back x items :
  RingRep cap (m l) lo (items ++ [Some x]) →
  ∃ buf, read_at m l (cap - 1) (wrap SHORT (lo + Z.of_nat (length items))) = Ret (x, <[l := buf]> m) ∧
    RingRep cap buf lo items.
Proof.
  intros Hr. pose proof (rr_items _ _ _ _ Hr) as Hlen. rewrite length_app in Hlen. simpl in Hlen.
  destruct (read_at_ring _ (length items) x Hr) as (buf & E & Hr'); [by apply list_lookup_middle|].
  exists buf. split; [done|]. apply ring_snoc_none; [lia|].
  by rewrite insert_app_r_alt, Nat.sub_diag in Hr' by lia.
Qed.

Lemma write_at_back x items :
  RingRep cap (m l) lo items → Z.of_nat (length items) < cap →
  ∃ buf, write_at m l (cap - 1) (wrap SHORT (lo + Z.of_nat (length items))) x = Ret (<[l := buf]> m) ∧
    RingRep cap buf lo (items ++ [Some x]).
Proof.
  intros Hr Hlt. destruct (at_index (lo + Z.of_nat (length items)) items Hr) as [E Hb].
  unfold write_at. rewrite E, bool_decide_eq_true_2 by done. simpl.
  apply ring_write; [by apply st3_cap_pos|done..].
Qed.

End at_position.

(** ** Windows

    The slots of the last [cap] positions below [hi], as a function of the
    position. *)
Record WinRep {A} (cap : Z) (buf : list (option A)) (hi : Z) (f : Z → option A) : Prop := {
  wr_len : Z.of_nat (length buf) = cap;
  wr_slot p : hi - cap ≤ p < hi → buf !! Z.to_nat (p mod cap) = Some (f p);
}.

Lemma win_inj cap hi p p' :
  hi - cap ≤ p < hi → hi - cap ≤ p' < hi → p mod cap = p' mod cap → p = p'.
Proof.
  intros Hp Hp' E. enough (p - (hi - cap) = p' - (hi - cap)) by lia.
  apply (ring_idx_inj cap (hi - cap)); [lia|lia|].
  by replace (hi - cap + (p - (hi - cap))) with p by lia;
    replace (hi - cap + (p' - (hi - cap))) with p' by lia.
Qed.

Lemma win_init {A} cap hi : 0 < cap → WinRep cap (allocate_buffer (A := A) cap) hi (λ _, None).
Proof.
  intros Hc. unfold allocate_buffer. split; [rewrite length_replicate; lia|].
  intros p Hp. apply lookup_replicate_2. pose proof (ring_idx_bound cap p Hc). lia.
Qed.

Lemma win_set {A} cap (buf : list (option A)) hi f p y :
  0 < cap → WinRep cap buf hi f → hi - cap ≤ p < hi →
  WinRep cap (<[Z.to_nat (p mod cap) := y]> buf) hi (<[p := y]> f).
Proof.
  intros Hc [Hlen Hslot] Hp. split; [by rewrite length_insert|]. intros p' Hp'.
  rewrite (ring_insert cap); [|done..|by apply ring_idx_bound|by apply ring_idx_bound].
  destruct (decide (p = p')) as [<-|Hne].
  - by rewrite fn_lookup_insert, decide_True.
  - rewrite fn_lookup_insert_ne, decide_False by (done || intros E; apply (win_inj cap hi) in E; lia).
    by apply Hslot.
Qed.

(** Opening the next position recycles the oldest slot. *)
Lemma win_next {A} cap (buf : list (option A)) hi f x :
  0 < cap → WinRep cap buf hi f →
  WinRep cap (<[Z.to_nat (hi mod cap) := x]> buf) (hi + 1) (<[hi := x]> f).
Proof.
  intros Hc [Hlen Hslot]. split; [by rewrite length_insert|]. intros p' Hp'.
  rewrite (ring_insert cap); [|done..|by apply ring_idx_bound|by apply ring_idx_bound].
  destruct (decide (hi = p')) as [<-|Hne].
  - by rewrite fn_lookup_insert, decide_True.
  - rewrite fn_lookup_insert_ne, decide_False
      by (done || intros E; apply (win_inj cap (hi + 1)) in E; lia).
    apply Hslot. lia.
Qed.

Lemma win_read_at {A} cap (m : Mem A) l hi f p x :
  st3_cap cap → WinRep cap (m l) hi f → hi - cap ≤ p < hi → f p = Some x →
  ∃ buf, read_at m l (cap - 1) (wrap SHORT p) = Ret (x, <[l := buf]> m) ∧
    WinRep cap buf hi (<[p := None]> f).
Proof.
  intros Hcap Hw Hp Hx. pose proof (st3_cap_pos _ Hcap) as Hc. pose proof (ring_idx_bound cap p Hc).
  unfold read_at, buf_len. rewrite land_wrap, (wr_len _ _ _ _ Hw), bool_decide_eq_true_2 by (done || lia).
  simpl. unfold cell_read. rewrite bool_decide_eq_true_2, (wr_slot _ _ _ _ Hw), Hx by (done || lia).
  eexists. split; [done|]. by apply win_set.
Qed.

Lemma win_write_at {A} cap (m : Mem A) l hi f x :
  st3_cap cap → WinRep cap (m l) hi f →
  ∃ buf, write_at m l (cap - 1) (wrap SHORT hi) x = Ret (<[l := buf]> m) ∧
    WinRep cap buf (hi + 1) (<[hi := Some x]> f).
Proof.
  intros Hcap Hw. pose proof (st3_cap_pos _ Hcap) as Hc. pose proof (ring_idx_bound cap hi Hc).
  unfold write_at, buf_len. rewrite land_wrap, (wr_len _ _ _ _ Hw), bool_decide_eq_true_2 by (done || lia).
  simpl. unfold cell_write. rewrite bool_decide_eq_true_2 by (rewrite (wr_len _ _ _ _ Hw); lia).
  eexists. split; [done|]. by apply win_next.
Qed.

(** [l] lies in the slots from position [p] on. *)
Definition at_slots {A} (f : Z → option A) (p : Z) (l : list A) : Prop :=
  ∀ i x, l !! i = Some x → f (p + Z.of_nat i) = Some x.

Lemma at_slots_upd {A} (f : Z → option A) p l p' y :
  at_slots f p l → (p' < p ∨ p + Z.of_nat (length l) ≤ p') → at_slots (<[p' := y]> f) p l.
Proof.
  intros H Hp' i x Hi. pose proof (lookup_lt_Some _ _ _ Hi).
  rewrite fn_lookup_insert_ne by lia. by apply H.
Qed.

Lemma at_slots_app {A} (f : Z → option A) p l k :
  at_slots f p (l ++ k) ↔ at_slots f p l ∧ at_slots f (p + Z.of_nat (length l)) k.
Proof.
  split.
  - intros H. split; intros i x Hi.
    + apply H. by apply lookup_app_l_Some.
    + replace (p + Z.of_nat (length l) + Z.of_nat i) with (p + Z.of_nat (length l + i)) by lia.
      apply H. rewrite lookup_app_r by lia. by replace (length l + i - length l)%nat with i by lia.
  - intros [Hl Hk] i x. rewrite lookup_app_Some. intros [Hi|[Hge Hi]]; [by apply Hl|].
    replace (p + Z.of_nat i) with (p + Z.of_nat (length l) + Z.of_nat (i - length l)) by lia. by apply Hk.
Qed.

Lemma at_slots_one {A} (f : Z → option A) p x : at_slots f p [x] ↔ f p = Some x.
Proof.
  split.
  - intros H. specialize (H 0%nat x). rewrite Z.add_0_r in H. by apply H.
  - intros H [|i] y Hi; simplify_eq/=. by rewrite Z.add_0_r.
Qed.

Lemma at_slots_nil {A} (f : Z → option A) p : at_slots f p [].
Proof. intros i x Hi. done. Qed.

Lemma at_slots_cons {A} (f : Z → option A) p x l :
  at_slots f p (x :: l) ↔ f p = Some x ∧ at_slots f (p + 1) l.
Proof. rewrite (at_slots_app f p [x] l), at_slots_one. done. Qed.

(** ** The bulk transfer is the per-element one *)

(** A run of [len] positions from [p] that does not cross the wrap point. *)
Definition contiguous (cap p len : Z) : Prop := p mod cap + len ≤ cap.

Lemma contiguous_step cap p len :
  0 < cap → contiguous cap p len → 1 < len → (p + 1) mod cap = p mod cap + 1.
Proof.
  unfold contiguous. intros Hc Hlen H1. pose proof (ring_idx_bound cap p Hc).
  rewrite Zplus_mod. destruct (decide (cap = 1)) as [->|]; [lia|].
  rewrite (Z.mod_small 1) by lia. apply Z.mod_small. lia.
Qed.

(** The three chunks are contiguous on the side whose run is [s]: [e] is the
    run of the other side. *)
Lemma chunks_contiguous cap H n e start stop :
  0 < cap → 0 ≤ n ≤ cap → 0 ≤ e ≤ n →
  let s := Z.min (cap - H mod cap) n in
  (start, stop) = (0, Z.min s e) ∨ (start, stop) = (Z.min s e, Z.max s e) ∨
  (start, stop) = (Z.max s e, n) →
  0 ≤ start ≤ stop ∧ stop ≤ n ∧ (start < stop → contiguous cap (H + start) (stop - start)).
Proof.
  intros Hc Hn He s Hcase. pose proof (ring_idx_bound cap H Hc) as Hb. unfold contiguous.
  assert (0 ≤ start ≤ stop ∧ stop ≤ n) as [Hle1 Hle2]
    by (unfold s in *; destruct Hcase as [[= -> ->]|[[= -> ->]|[= -> ->]]]; lia).
  split_and!; [lia..|]. intros Hlt.
  assert ((H + start) mod cap = (H mod cap + start) mod cap) as -> by (by rewrite Zplus_mod_idemp_l).
  destruct (decide (H mod cap + start < cap)) as [Hsm|Hge].
  - rewrite Z.mod_small by lia.
    unfold s in *; destruct Hcase as [[= -> ->]|[[= -> ->]|[= -> ->]]]; lia.
  - replace (H mod cap + start) with (H mod cap + start - cap + 1 * cap) by lia.
    rewrite Z.mod_add, Z.mod_small by lia. lia.
Qed.

(** Runs of one ring that follow each other are physically disjoint. *)
Lemma runs_disjoint cap p a q b :
  0 < cap → 0 ≤ a → 0 ≤ b → p + a ≤ q → q + b ≤ p + cap →
  p mod cap + a ≤ q mod cap ∨ q mod cap + b ≤ p mod cap.
Proof.
  intros Hc Ha Hb H1 H2.
  pose proof (ring_idx_bound cap p Hc). pose proof (ring_idx_bound cap q Hc).
  pose proof (Z.div_mod p cap ltac:(lia)) as Ep. pose proof (Z.div_mod q cap ltac:(lia)) as Eq.
  assert (q / cap = p / cap ∨ q / cap = p / cap + 1) as [E|E] by nia; rewrite E in Eq; nia.
Qed.

Section transfer.
Context {A : Type} (src dst : nat) (cap dcap H T : Z).
Context (Hcap : st3_cap cap) (Hdcap : st3_cap dcap).
Implicit Types (m : Mem A).

Local Definition loom m (off : Z) (k : nat) : outcome (Mem A) :=
  transfer_loom m src (cap - 1) (wrap SHORT H) dst (dcap - 1) (wrap SHORT T) off k.

Lemma loom_S m off k :
  loom m off (S k) =
    ('(x, m1) ← cell_read m src ((H + off) mod cap);
     m2 ← cell_write m1 dst ((T + off) mod dcap) x;
     loom m2 (off + 1) k).
Proof. unfold loom. simpl. by rewrite !wrapping_add_wrap, !land_wrap. Qed.

Lemma loom_app m off a b :
  loom m off (a + b) = (m1 ← loom m off a; loom m1 (off + Z.of_nat a) b).
Proof.
  revert m off. induction a as [|a IH]; intros m off.
  { change (loom m off 0) with (Ret m). by rewrite mbind_ret, Z.add_0_r. }
  replace (S a + b)%nat with (S (a + b)) by lia. rewrite !loom_S.
  destruct (cell_read m src _) as [[x m1]| | |]; [|done..]. rewrite !mbind_ret.
  destruct (cell_write m1 dst _ x) as [m2| | |]; [|done..]. rewrite !mbind_ret, IH.
  by replace (off + 1 + Z.of_nat a) with (off + Z.of_nat (S a)) by lia.
Qed.

Lemma copy_items_loom m off k :
  contiguous cap (H + off) (Z.of_nat k) → contiguous dcap (T + off) (Z.of_nat k) →
  copy_items m src ((H + off) mod cap) dst ((T + off) mod dcap) k = loom m off k.
Proof.
  pose proof (st3_cap_pos _ Hcap) as Hc. pose proof (st3_cap_pos _ Hdcap) as Hd.
  revert m off. induction k as [|k IH]; intros m off H1 H2; [done|]. rewrite loom_S.
  cbn [copy_items].
  destruct (cell_read m src _) as [[x m1]| | |]; [|done..]. rewrite !mbind_ret.
  destruct (cell_write m1 dst _ x) as [m2| | |]; [|done..]. rewrite !mbind_ret.
  destruct k as [|k]; [done|].
  rewrite <- (contiguous_step cap _ _ Hc H1), <- (contiguous_step dcap _ _ Hd H2) by lia.
  rewrite <- !Z.add_assoc. apply IH; unfold contiguous in *; rewrite Z.add_assoc.
  - rewrite (contiguous_step cap (H + off) (Z.of_nat (S (S k)))) by (done || lia). lia.
  - rewrite (contiguous_step dcap (T + off) (Z.of_nat (S (S k)))) by (done || lia). lia.
Qed.

Hypothesis self_steal : src = dst → cap = dcap.

Lemma copy_chunk_loom m start stop n :
  0 ≤ start ≤ stop → stop ≤ n → (src = dst → H + n ≤ T ∧ T + n ≤ H + cap) →
  (start < stop → contiguous cap (H + start) (stop - start)) →
  (start < stop → contiguous dcap (T + start) (stop - start)) →
  copy_chunk m src cap (H mod cap) dst dcap (T mod dcap) start stop =
    loom m start (Z.to_nat (stop - start)).
Proof.
  pose proof (st3_cap_pos _ Hcap) as Hc. pose proof (st3_cap_pos _ Hdcap) as Hd.
  intros Hle Hn Hself H1 H2. unfold copy_chunk. case_bool_decide as H0; [by rewrite H0|].
  assert (∀ c p, st3_cap c → Z.land (p mod c + start) (c - 1) = (p + start) mod c) as Hidx.
  { intros c p Hsc. destruct Hsc as [Hp _]. rewrite land_mask by done. by rewrite Zplus_mod_idemp_l. }
  rewrite !Hidx by done.
  assert (copy_items m src ((H + start) mod cap) dst ((T + start) mod dcap) (Z.to_nat (stop - start))
    = loom m start (Z.to_nat (stop - start))) as Hcopy.
  { apply copy_items_loom; rewrite Z2Nat.id by lia; [apply H1|apply H2]; lia. }
  case_bool_decide; [done|]. unfold copy_nonoverlapping. rewrite bool_decide_eq_false_2; [done|].
  intros (E & Ha & Hb). specialize (Hself E). rewrite <- (self_steal E) in Ha, Hb.
  destruct (runs_disjoint cap (H + start) (stop - start) (T + start) (stop - start)); lia.
Qed.

Lemma chunks_disjoint_self n lo hi :
  src = dst → H + n ≤ T → T + n ≤ H + cap → 0 ≤ lo ≤ hi → hi ≤ n →
  chunks_disjoint cap (H mod cap) dcap (T mod dcap) lo hi n = true.
Proof.
  pose proof (st3_cap_pos _ Hcap) as Hc.
  intros E H1 H2 Hlo Hhi. rewrite <- (self_steal E). unfold chunks_disjoint.
  apply forallb_forall. intros [a0 a1] Ha. apply forallb_forall. intros [b0 b1] Hb.
  apply bool_decide_eq_true_2. rewrite <- list_elem_of_In in Ha, Hb.
  rewrite !land_mask, !Zplus_mod_idemp_l by apply Hcap.
  assert (∀ x y, (x, y) ∈ [(0, lo); (lo, hi); (hi, n)] → 0 ≤ x ≤ y ∧ y ≤ n) as Hc3.
  { intros x y. rewrite !elem_of_cons, elem_of_nil. intros [[= -> ->]|[[= -> ->]|[[= -> ->]|[]]]]; lia. }
  apply Hc3 in Ha. apply Hc3 in Hb. apply runs_disjoint; lia.
Qed.

Lemma transfer_chunks m n lo hi :
  0 ≤ lo ≤ hi → hi ≤ n → (src = dst → H + n ≤ T ∧ T + n ≤ H + cap) →
  (∀ start stop, (start, stop) = (0, lo) ∨ (start, stop) = (lo, hi) ∨ (start, stop) = (hi, n) →
    start < stop →
    contiguous cap (H + start) (stop - start) ∧ contiguous dcap (T + start) (stop - start)) →
  (m1 ← copy_chunk m src cap (H mod cap) dst dcap (T mod dcap) 0 lo;
   m2 ← copy_chunk m1 src cap (H mod cap) dst dcap (T mod dcap) lo hi;
   copy_chunk m2 src cap (H mod cap) dst dcap (T mod dcap) hi n) = loom m 0 (Z.to_nat n).
Proof.
  intros Hlo Hhi Hself Hch.
  assert (∀ m start stop, (start, stop) = (0, lo) ∨ (start, stop) = (lo, hi) ∨ (start, stop) = (hi, n) →
    copy_chunk m src cap (H mod cap) dst dcap (T mod dcap) start stop =
      loom m start (Z.to_nat (stop - start))) as Hcc.
  { intros m' start stop Hcase. pose proof (Hch start stop Hcase) as Hc.
    apply copy_chunk_loom with n; try tauto; destruct Hcase as [[= -> ->]|[[= -> ->]|[= -> ->]]]; lia. }
  rewrite (Hcc m 0 lo) by auto.
  replace (Z.to_nat n) with (Z.to_nat (lo - 0) + (Z.to_nat (hi - lo) + Z.to_nat (n - hi)))%nat by lia.
  rewrite loom_app. destruct (loom m 0 (Z.to_nat (lo - 0))) as [m1| | |]; [|done..].
  rewrite !mbind_ret, (Hcc m1 lo hi), loom_app by auto.
  replace (0 + Z.of_nat (Z.to_nat (lo - 0))) with lo by lia.
  destruct (loom m1 lo _) as [m2| | |]; [|done..]. rewrite !mbind_ret.
  replace (lo + Z.of_nat (Z.to_nat (hi - lo))) with hi by lia. by apply Hcc; auto.
Qed.

Lemma transfer_items_eq m n :
  buf_len m src = cap → buf_len m dst = dcap → 0 ≤ n → n ≤ cap → n ≤ dcap →
  (src = dst → H + n ≤ T ∧ T + n ≤ H + cap) →
  transfer_items m src (cap - 1) (wrap SHORT H) dst (dcap - 1) (wrap SHORT T) n =
    loom m 0 (Z.to_nat n).
Proof.
  pose proof (st3_cap_pos _ Hcap) as Hc. pose proof (st3_cap_pos _ Hdcap) as Hd.
  intros Hb1 Hb2 H0 Hn Hdn Hself. unfold transfer_items. rewrite !Z.sub_add, !land_wrap by done.
  rewrite Hb1, Hb2, (bool_decide_eq_true_2 (cap = cap ∧ dcap = dcap)) by done.
  rewrite !is_power_of_two_pow2 by (apply Hcap || apply Hdcap).
  simpl. case_bool_decide as Hsm.
  { case_bool_decide as H1.
    - subst n. replace (Z.to_nat 1) with 1%nat by lia. rewrite loom_S, !Z.add_0_r.
      destruct (cell_read m src _) as [[x m1]| | |]; [|done..]. rewrite !mbind_ret.
      by destruct (cell_write m1 dst _ x).
    - by replace (Z.to_nat n) with 0%nat by lia. }
  set (s := Z.min (cap - H mod cap) n). set (d := Z.min (dcap - T mod dcap) n).
  assert ((if bool_decide (s ≤ d) then s else d) = Z.min s d) as -> by (case_bool_decide; lia).
  assert ((if bool_decide (s ≤ d) then d else s) = Z.max s d) as -> by (case_bool_decide; lia).
  pose proof (ring_idx_bound cap H Hc). pose proof (ring_idx_bound dcap T Hd).
  assert (negb (bool_decide (src = dst)) ||
    chunks_disjoint cap (H mod cap) dcap (T mod dcap) (Z.min s d) (Z.max s d) n = true) as ->.
  { case_bool_decide as E; [|done]. destruct (Hself E). apply chunks_disjoint_self; lia. }
  apply transfer_chunks; [lia|lia|done|].
  intros start stop Hcase Hlt. split.
  - destruct (chunks_contiguous cap H n d start stop) as (_ & _ & Hct); [done|lia|lia|done|auto].
  - destruct (chunks_contiguous dcap T n s start stop) as (_ & _ & Hct); [done|lia|lia| |auto].
    fold d. by rewrite (Z.min_comm d s), (Z.max_comm d s).
Qed.

End transfer.

(** The bulk transfer (an inline move for one item, otherwise at most three
    contiguous chunks, scalar or [copy_nonoverlapping]) performs exactly the
    per-element loop, whatever the memory holds: it never trips its debug
    assertions nor overlaps two ranges, also when a queue steals from itself. *)
Theorem transfer_bulk_is_elementwise {A} (m : Mem A) (src dst : nat) (cap dcap H T n : Z)
  (Hc : st3_cap cap) (Hd : st3_cap dcap)
  (Hlen : buf_len m src = cap ∧ buf_len m dst = dcap)
  (Hn : 0 ≤ n ≤ cap ∧ n ≤ dcap)
  (Hself : src = dst → H + n ≤ T ∧ T + n ≤ H + cap) :
  transfer_items m src (cap - 1) (wrap SHORT H) dst (dcap - 1) (wrap SHORT T) n =
  transfer_loom m src (cap - 1) (wrap SHORT H) dst (dcap - 1) (wrap SHORT T) 0 (Z.to_nat n).
Proof.
  destruct Hlen as [H1 H2]. apply transfer_items_eq; try done; try lia.
  intros <-. congruence.
Qed.

(** Sixteen items in a ring of thirty-two slots. *)
Definition demo_mem : Mem Z := λ _, (Some <$> seqZ 10 16) ++ replicate 16 None.

Lemma transfer_bulk_is_elementwise_witness :
  transfer_items demo_mem 0 31 (wrap SHORT 0) 0 31 (wrap SHORT 20) 12 =
  transfer_loom demo_mem 0 31 (wrap SHORT 0) 0 31 (wrap SHORT 20) 0 12.
Proof.
  apply (transfer_bulk_is_elementwise demo_mem 0 0 32 32 0 20 12).
  - split; [exists 5; lia|unfold SHORT; lia].
  - split; [exists 5; lia|unfold SHORT; lia].
  - split; vm_compute; reflexivity.
  - lia.
  - lia.
Defined.

(** C33: the packed word of two counters is a faithful encoding: unpacking what
    was packed gives back both counters, and packing what was unpacked gives
    back the word, for every pair of 32-bit counters and every 64-bit word; so
    a compare-exchange on the packed word compares both counters exactly. *)
Theorem pack_unpack_roundtrip (v1 v2 w : Z) :
  is_word SHORT v1 → is_word SHORT v2 → is_word (2 * SHORT) w →
  unpack (pack v1 v2) = (v1, v2) ∧ pack (unpack w).1 (unpack w).2 = w.
Proof.
  intros H1 H2 [H0 Hw]. split; [by apply unpack_pack|]. unfold unpack, pack, wrap. cbn [fst snd].
  change (2 * SHORT) with (SHORT + SHORT) in Hw. rewrite Z.pow_add_r in Hw by (unfold SHORT; lia).
  assert (0 < 2 ^ SHORT) by (unfold SHORT; lia).
  rewrite (Z.mod_small (Z.shiftr w SHORT)).
  2: { rewrite Z.shiftr_div_pow2 by (unfold SHORT; lia). split; [apply Z.div_pos; lia|].
       apply Z.div_lt_upper_bound; lia. }
  rewrite <- Z.land_ones by (unfold SHORT; lia). rewrite <- Z.ldiff_ones_r by (unfold SHORT; lia).
  apply Z.bits_inj'. intros k Hk. rewrite Z.lor_spec, Z.ldiff_spec, Z.land_spec.
  by destruct (Z.testbit w k), (Z.testbit (Z.ones SHORT) k).
Qed.

Lemma pack_unpack_roundtrip_witness :
  unpack (pack 7 (2 ^ 32 - 1)) = (7, 2 ^ 32 - 1) ∧
  pack (unpack (2 ^ 64 - 5)).1 (unpack (2 ^ 64 - 5)).2 = 2 ^ 64 - 5.
Proof.
  apply (pack_unpack_roundtrip 7 (2 ^ 32 - 1) (2 ^ 64 - 5)); split; unfold SHORT; lia.
Defined.
