(* ===== verification/Deque.v ===== *)
(** * Deque: what a work-stealing deque promises

    The abstract specification the St³ queues refine.  A system of [N]
    workers, each owning one queue: the state is the list of available items
    of each queue, the items each thread has claimed but not yet handed on,
    and the logs of the items accepted from and returned to the clients.  The
    abstract operations are atomic.  The owner pops from the back of its queue
    in the LIFO variant and from the front in the FIFO variant; stealers
    always claim from the front. *)

From S2P Require Import Prelude St3Ring.

Inductive discipline : Type := LIFO | FIFO.

Record Deques (A : Type) : Type := mkDeques {
  avail : nat → list A;
  hand : nat → list A;
  ins : list A;
  outs : list A;
}.
Arguments mkDeques {A} _ _ _ _.
Arguments avail {A} _ _.
Arguments hand {A} _ _.
Arguments ins {A} _.
Arguments outs {A} _.

(** What an implementation step shows to the outside. *)
Inductive event (A : Type) : Type :=
  | Tau
  | In (xs : list A)
  | Out (x : A)
  | Nothing (t : nat).   (* thread [t] found its queue empty *)
Arguments Tau {A}.
Arguments Nothing {A} t.
Arguments In {A} xs.
Arguments Out {A} x.

Section spec.
Context {A : Type} (d : discipline) (N : nat).

Definition popped (l : list A) (x : A) (l' : list A) : Prop :=
  match d with LIFO => l = l' ++ [x] | FIFO => l = x :: l' end.

Inductive dstep : Deques A → event A → Deques A → Prop :=
  | d_stutter a a' :
      (∀ q, avail a q = avail a' q) → (∀ t, hand a t = hand a' t) →
      ins a = ins a' → outs a = outs a' → dstep a Tau a'
  | d_push a t xs a' :
      t < N →
      (∀ q, avail a' q = <[t := avail a t ++ xs]> (avail a) q) →
      (∀ u, hand a' u = hand a u) →
      ins a' = ins a ++ xs → outs a' = outs a → dstep a (In xs) a'
  | d_pop a t x l a' :
      t < N → hand a t = [] → popped (avail a t) x l →
      (∀ q, avail a' q = <[t := l]> (avail a) q) →
      (∀ u, hand a' u = <[t := [x]]> (hand a) u) →
      ins a' = ins a → outs a' = outs a → dstep a Tau a'
  | d_nothing a t a' :
      avail a t = [] → (∀ q, avail a' q = avail a q) → (∀ u, hand a' u = hand a u) →
      ins a' = ins a → outs a' = outs a → dstep a (Nothing t) a'
  | d_claim a t q xs l a' :
      t < N → q < N → xs ≠ [] → hand a t = [] → avail a q = xs ++ l →
      (∀ q', avail a' q' = <[q := l]> (avail a) q') →
      (∀ u, hand a' u = <[t := xs]> (hand a) u) →
      ins a' = ins a → outs a' = outs a → dstep a Tau a'
  | d_deliver a t a' :
      t < N →
      (∀ q, avail a' q = <[t := avail a t ++ hand a t]> (avail a) q) →
      (∀ u, hand a' u = <[t := []]> (hand a) u) →
      ins a' = ins a → outs a' = outs a → dstep a Tau a'
  | d_return a t l1 x l2 a' :
      t < N → hand a t = l1 ++ x :: l2 →
      (∀ q, avail a' q = avail a q) →
      (∀ u, hand a' u = <[t := l1 ++ l2]> (hand a) u) →
      ins a' = ins a → outs a' = outs a ++ [x] → dstep a (Out x) a'.

(** ** Simulation

    [sim t av h e av' h']: from available items [av] and [h] in the hands of
    [t], the event [e] of [t] leads to [av'] and [h']. *)
Definition sim (t : nat) (av : nat → list A) (h : list A) (e : event A)
    (av' : nat → list A) (h' : list A) : Prop :=
  ∀ a, (∀ q, avail a q = av q) → hand a t = h →
  ∃ a', dstep a e a' ∧ (∀ q, avail a' q = av' q) ∧ hand a' t = h' ∧
    ∀ t', t' ≠ t → hand a' t' = hand a t'.

Lemma sim_stutter t av h av' h' : (∀ q, av' q = av q) → h' = h → sim t av h Tau av' h'.
Proof.
  intros Hav -> a Ha Hat. exists a. split_and!; [by apply d_stutter| |done|done].
  intros q. by rewrite Hav.
Qed.

Lemma sim_nothing t av h av' h' : av t = [] → (∀ q, av' q = av q) → h' = h → sim t av h (Nothing t) av' h'.
Proof.
  intros He Hav -> a Ha Hat. exists a. split_and!; [|intros q; by rewrite Hav|done|done].
  apply d_nothing; try done. by rewrite Ha.
Qed.

Lemma sim_push t av h xs av' h' :
  t < N → (∀ q, av' q = <[t := av t ++ xs]> av q) → h' = h → sim t av h (In xs) av' h'.
Proof.
  intros Ht Hav -> a Ha Hat. exists (mkDeques av' (hand a) (ins a ++ xs) (outs a)).
  split_and!; [|done..]. apply (d_push _ t); simpl; try done. intros q. rewrite Hav, Ha.
  unfold insert, fn_insert. by case_decide.
Qed.

Lemma sim_pop t av h x l av' h' :
  t < N → h = [] → popped (av t) x l → (∀ q, av' q = <[t := l]> av q) → h' = [x] →
  sim t av h Tau av' h'.
Proof.
  intros Ht -> Hl Hav -> a Ha Hat. exists (mkDeques av' (<[t := [x]]> (hand a)) (ins a) (outs a)).
  split_and!; [|done|by simpl; rewrite fn_lookup_insert|intros; by apply fn_lookup_insert_ne].
  apply (d_pop _ t x l); simpl; try done; [by rewrite Ha|].
  intros q. rewrite Hav. unfold insert, fn_insert. by case_decide.
Qed.

Lemma sim_claim t q av h xs l av' h' :
  t < N → q < N → xs ≠ [] → h = [] → av q = xs ++ l → (∀ q', av' q' = <[q := l]> av q') → h' = xs →
  sim t av h Tau av' h'.
Proof.
  intros Ht Hq Hxs -> Hl Hav -> a Ha Hat. exists (mkDeques av' (<[t := xs]> (hand a)) (ins a) (outs a)).
  split_and!; [|done|by simpl; rewrite fn_lookup_insert|intros; by apply fn_lookup_insert_ne].
  apply (d_claim _ t q xs l); simpl; try done; [by rewrite Ha|].
  intros q'. rewrite Hav. unfold insert, fn_insert. by case_decide.
Qed.

Lemma sim_deliver t av h av' h' :
  t < N → (∀ q, av' q = <[t := av t ++ h]> av q) → h' = [] → sim t av h Tau av' h'.
Proof.
  intros Ht Hav -> a Ha Hat. exists (mkDeques av' (<[t := []]> (hand a)) (ins a) (outs a)).
  split_and!; [|done|by simpl; rewrite fn_lookup_insert|intros; by apply fn_lookup_insert_ne].
  apply (d_deliver _ t); simpl; try done. intros q. rewrite Hav, Ha, Hat.
  unfold insert, fn_insert. by case_decide.
Qed.

Lemma sim_return t av h l1 x l2 av' h' :
  t < N → h = l1 ++ x :: l2 → (∀ q, av' q = av q) → h' = l1 ++ l2 → sim t av h (Out x) av' h'.
Proof.
  intros Ht Hx Hav -> a Ha Hat. exists (mkDeques av' (<[t := l1 ++ l2]> (hand a)) (ins a) (outs a ++ [x])).
  split_and!; [|done|by simpl; rewrite fn_lookup_insert|intros; by apply fn_lookup_insert_ne].
  apply (d_return _ t l1 x l2); simpl; try done; [by rewrite Hat|].
  intros q. by rewrite Hav, Ha.
Qed.

Inductive dsteps : Deques A → list (event A) → Deques A → Prop :=
  | dsteps_nil a : dsteps a [] a
  | dsteps_snoc a es a' e a'' : dsteps a es a' → dstep a' e a'' → dsteps a (es ++ [e]) a''.

(** ** Conservation *)

Definition gather (f : nat → list A) (n : nat) : list A := concat (f <$> seq 0 n).

Lemma gather_S f n : gather f (S n) = gather f n ++ f n.
Proof.
  unfold gather. rewrite seq_S, fmap_app, concat_app. simpl. by rewrite app_nil_r.
Qed.

Lemma gather_ext f f' n : (∀ i, i < n → f i = f' i) → gather f n = gather f' n.
Proof.
  induction n as [|n IH]; intros H; [done|]. rewrite !gather_S, IH, H by (auto with lia). done.
Qed.

Lemma gather_insert f i x n : i < n → gather (<[i := x]> f) n ++ f i ≡ₚ gather f n ++ x.
Proof.
  induction n as [|n IH]; intros Hi; [lia|]. rewrite !gather_S.
  destruct (decide (i = n)) as [->|Hne].
  - rewrite fn_lookup_insert, (gather_ext (<[n:=x]> f) f).
    + rewrite <- !(assoc_L (++)). by rewrite (Permutation_app_comm x).
    + intros j Hj. apply fn_lookup_insert_ne. lia.
  - rewrite fn_lookup_insert_ne by done. rewrite <- !(assoc_L (++)).
    rewrite (Permutation_app_comm (f n) (f i)), (Permutation_app_comm (f n) x).
    rewrite !(assoc_L (++)), IH by lia. done.
Qed.

Lemma gather_grow f i x n : i < n → gather (<[i := f i ++ x]> f) n ≡ₚ gather f n ++ x.
Proof.
  intros Hi. apply (Permutation_app_inv_r (f i)). rewrite gather_insert by done.
  rewrite <- (assoc_L (++)). f_equiv. apply Permutation_app_comm.
Qed.

Lemma gather_shrink f i x l n :
  i < n → f i ≡ₚ x ++ l → gather f n ≡ₚ x ++ gather (<[i := l]> f) n.
Proof.
  intros Hi Hf. pose proof (gather_insert f i l n Hi) as H. rewrite Hf in H.
  rewrite (assoc_L (++)) in H. apply Permutation_app_inv_r in H.
  rewrite <- H. apply Permutation_app_comm.
Qed.

(** Everything accepted is returned, in some thread's hands, or available. *)
Definition conserved (a : Deques A) : Prop :=
  ins a ≡ₚ outs a ++ gather (hand a) N ++ gather (avail a) N.

Lemma dstep_conserved a e a' : dstep a e a' → conserved a → conserved a'.
Proof.
  unfold conserved. intros H Hc.
  destruct H as [a a' Ha Hh Hi Ho|a t xs a' Ht Ha Hh Hi Ho|a t x l a' Ht Hn Hp Ha Hh Hi Ho
    |a t a' He Ha Hh Hi Ho|a t q xs l a' Ht Hq Hxs Hn Hq' Ha Hh Hi Ho|a t a' Ht Ha Hh Hi Ho|a t l1 x l2 a' Ht Hx Ha Hh Hi Ho].
  - rewrite <- Hi, <- Ho, Hc. f_equiv. rewrite (gather_ext (hand a) (hand a')) by auto.
    by rewrite (gather_ext (avail a) (avail a')) by auto.
  - rewrite Hi, Ho, Hc, (gather_ext (avail a') _ N (λ i _, Ha i)), gather_grow by done.
    rewrite (gather_ext (hand a') (hand a)) by auto. by rewrite <- !(assoc_L (++)).
  - rewrite Hi, Ho, Hc, (gather_ext (avail a') _ N (λ i _, Ha i)), (gather_ext (hand a') _ N (λ i _, Hh i)).
    assert (avail a t ≡ₚ [x] ++ l) as Hp'.
    { unfold popped in Hp. destruct d; rewrite Hp; [apply Permutation_app_comm|done]. }
    rewrite (gather_shrink (avail a) t [x] l) by done.
    pose proof (gather_grow (hand a) t [x] N Ht) as Hg. rewrite Hn in Hg. simpl in Hg.
    rewrite Hg. by rewrite <- (assoc_L (++)).
  - rewrite Hi, Ho, Hc, (gather_ext (avail a') (avail a)) by auto.
    by rewrite (gather_ext (hand a') (hand a)) by auto.
  - rewrite Hi, Ho, Hc, (gather_ext (avail a') _ N (λ i _, Ha i)), (gather_ext (hand a') _ N (λ i _, Hh i)).
    rewrite (gather_shrink (avail a) q xs l) by (done || by rewrite Hq').
    pose proof (gather_grow (hand a) t xs N Ht) as Hg. rewrite Hn in Hg. simpl in Hg.
    rewrite Hg. by rewrite <- (assoc_L (++)).
  - rewrite Hi, Ho, Hc, (gather_ext (avail a') _ N (λ i _, Ha i)), (gather_ext (hand a') _ N (λ i _, Hh i)).
    rewrite gather_grow by done.
    rewrite (gather_shrink (hand a) t (hand a t) []) by (done || by rewrite app_nil_r).
    f_equiv. rewrite <- (assoc_L (++)), (Permutation_app_comm (hand a t)). by rewrite <- (assoc_L (++)).
  - rewrite Hi, Ho, Hc, (gather_ext (avail a') (avail a)), (gather_ext (hand a') _ N (λ i _, Hh i)) by auto.
    rewrite (gather_shrink (hand a) t [x] (l1 ++ l2)).
    + by rewrite <- !(assoc_L (++)).
    + done.
    + rewrite Hx. simpl. by rewrite Permutation_middle.
Qed.

Lemma dsteps_conserved a es a' : dsteps a es a' → conserved a → conserved a'.
Proof. induction 1; eauto using dstep_conserved. Qed.

(** The logs of a run are the items its events mention. *)
Definition ev_ins (es : list (event A)) : list A :=
  concat ((λ e, match e with In xs => xs | _ => [] end) <$> es).
Definition ev_outs (es : list (event A)) : list A :=
  concat ((λ e, match e with Out x => [x] | _ => [] end) <$> es).

Lemma dsteps_logs a es a' :
  dsteps a es a' → ins a' = ins a ++ ev_ins es ∧ outs a' = outs a ++ ev_outs es.
Proof.
  induction 1 as [a|a es a' e a'' Hss [IHi IHo] Hs]; [by rewrite !app_nil_r|].
  unfold ev_ins, ev_outs. rewrite !fmap_app, !concat_app. simpl. rewrite !app_nil_r, !(assoc_L (++)).
  fold (ev_ins es) (ev_outs es). rewrite <- IHi, <- IHo.
  by destruct Hs; rewrite ?app_nil_r.
Qed.

End spec.

Definition no_deques {A} : Deques A := mkDeques (λ _, []) (λ _, []) [] [].

Lemma gather_nil {A} N : gather (λ _, [] : list A) N = [].
Proof. induction N as [|N IH]; [done|]. by rewrite gather_S, IH. Qed.

Lemma no_deques_conserved {A} N : conserved N (no_deques (A := A)).
Proof. unfold conserved, no_deques. simpl. by rewrite gather_nil. Qed.
