(* ===== verification/St3Lifo.v ===== *)
(** * St3Lifo: the LIFO work-stealing queue, one atomic access at a time

    Model of [crates/youpipe-st3/src/lifo.rs].  A system of queues, each owned
    by the thread of the same number.  Threads run the operations of [Worker]
    and [Stealer] interleaved at every access to shared memory: a program
    point ([Pc]) is the local state of an operation between two accesses, and
    [code_step] performs the next access to an atomic and the computation that
    follows it.  Memory is sequentially consistent.  A transfer is interleaved
    item by item.

    - the value of the closure [count_fn] is chosen by the environment at every
      call, so stateful closures are covered;
    - [compare_exchange_weak] may fail spuriously, as chosen by the environment;
    - a [Drain] is a thread of its own: its owner may use the worker meanwhile;
    - debug assertions and checked arithmetic panic.

    The counters of the code wrap at 2^32.  Alongside the words the machine
    keeps unwrapped [Shadow] counters, which the code never reads; they serve
    to state how stale a thread's view may be when its compare-exchange
    succeeds ([fresh]). *)

From S2P Require Import Prelude St3Ring Deque.
Local Open Scope Z_scope.

(** [Queue]; the buffer of queue [q] is buffer [q] of the memory. *)
Record Queue : Type := mkQueue {
  push_count : Z;
  pop_count_and_head : Z;
  head : Z;
  mask : Z;
}.

Definition set_push (Q : Queue) (v : Z) : Queue :=
  mkQueue v (pop_count_and_head Q) (head Q) (mask Q).
Definition set_pch (Q : Queue) (v : Z) : Queue :=
  mkQueue (push_count Q) v (head Q) (mask Q).
Definition set_head (Q : Queue) (v : Z) : Queue :=
  mkQueue (push_count Q) (pop_count_and_head Q) v (mask Q).

Definition capacity (Q : Queue) : Z := wrapping_add SHORT (mask Q) 1.

(** [Worker::new]: the queue and its buffer. *)
Definition new {A} (min_capacity : Z) : outcome (Queue * list (option A)) :=
  guard_panic (bool_decide (min_capacity ≤ MAX_CAPACITY));;
  let capacity := next_power_of_two 64 min_capacity in
  let buffer := allocate_buffer capacity in
  mask ← checked_sub (wrap SHORT capacity) 1;
  mret (mkQueue 0 0 0 mask, buffer).

(** [tail = push_count.wrapping_sub(pop_count)]. *)
Definition tail_of (Q : Queue) : Z :=
  wrapping_sub SHORT (push_count Q) (unpack (pop_count_and_head Q)).1.

Definition spare_capacity (Q : Queue) : outcome Z :=
  let len := wrapping_sub SHORT (tail_of Q) (head Q) in
  checked_sub (capacity Q) len.

Definition is_empty (Q : Queue) : bool :=
  bool_decide (tail_of Q = (unpack (pop_count_and_head Q)).2).

(** ** Operations as program points *)

Inductive op (A : Type) : Type :=
  | OpPush (item : A)
  | OpExtend (iter : list A)
  | OpPop
  | OpSteal (src : nat)
  | OpStealAndPop (src : nat)
  | OpDrain (src : nat).
Arguments OpPush {A} item.
Arguments OpExtend {A} iter.
Arguments OpPop {A}.
Arguments OpSteal {A} src.
Arguments OpStealAndPop {A} src.
Arguments OpDrain {A} src.

Inductive result (A : Type) : Type :=
  | RNone
  | RPush (r : option A)   (* [Some item]: the queue was full *)
  | RPop (r : option A)
  | RSteal (r : StealError + Z)
  | RStealAndPop (r : StealError + A * Z)
  | RDrain (r : option StealError).
Arguments RNone {A}.
Arguments RPush {A} r.
Arguments RPop {A} r.
Arguments RSteal {A} r.
Arguments RStealAndPop {A} r.
Arguments RDrain {A} r.

(** Which caller of [book_items] is running. *)
Inductive booker : Type := BSteal | BStealAndPop | BDrain.

#[export] Instance booker_eq_dec : EqDecision booker.
Proof. solve_decision. Defined.

(** The locals of [steal], [steal_and_pop] and [drain] at the booking. *)
Record Booking : Type := mkBooking {
  bk : booker;
  src : nat;
  dest_push_count : Z;
  dest_tail : Z;
  max_count : Z;
}.

Inductive Pc (A : Type) : Type :=
  | Done (r : result A)
  | Push1 (item : A)
  | Push2 (item : A) (push_count : Z)
  | Push3 (item : A) (push_count tail : Z)
  | Push4 (item : A) (push_count tail : Z)
  | Push5 (item : A) (push_count : Z)
  | Ext1 (iter : list A)
  | Ext2 (iter : list A) (push_count : Z)
  | Ext3 (iter : list A) (pop_count tail : Z)
  | ExtLoop (iter : list A) (pop_count tail max_tail : Z) (written : list A)
  | Pop1
  | Pop2 (pch : Z)
  | Pop3 (pch tail new_pop_count : Z)
  | Pop4 (tail : Z)
  | Likely1 (k : booker) (s : nat)
  | Likely2 (k : booker) (s : nat) (push_count : Z)
  | Dest1 (k : booker) (s : nat)
  | Dest2 (k : booker) (s : nat) (dest_push_count : Z)
  | Dest3 (k : booker) (s : nat) (dest_push_count dest_tail : Z)
  | Book1 (b : Booking)
  | Book2 (b : Booking) (pch : Z)
  | Book3 (b : Booking) (pch old_head : Z)
  | Book4 (b : Booking) (pch old_head count : Z)
  | Move (b : Booking) (old_head new_head offset transfer_count : Z)
  | ReadLast (b : Booking) (old_head new_head transfer_count : Z)
  | Publish (b : Booking) (new_head transfer_count : Z) (r : result A)
  | Release (b : Booking) (new_head : Z) (r : result A)
  | DrainNext (b : Booking) (current end_ : Z).
Arguments Done {A} r.
Arguments Push1 {A} item.
Arguments Push2 {A} item push_count.
Arguments Push3 {A} item push_count tail.
Arguments Push4 {A} item push_count tail.
Arguments Push5 {A} item push_count.
Arguments Ext1 {A} iter.
Arguments Ext2 {A} iter push_count.
Arguments Ext3 {A} iter pop_count tail.
Arguments ExtLoop {A} iter pop_count tail max_tail written.
Arguments Pop1 {A}.
Arguments Pop2 {A} pch.
Arguments Pop3 {A} pch tail new_pop_count.
Arguments Pop4 {A} tail.
Arguments Likely1 {A} k s.
Arguments Likely2 {A} k s push_count.
Arguments Dest1 {A} k s.
Arguments Dest2 {A} k s dest_push_count.
Arguments Dest3 {A} k s dest_push_count dest_tail.
Arguments Book1 {A} b.
Arguments Book2 {A} b pch.
Arguments Book3 {A} b pch old_head.
Arguments Book4 {A} b pch old_head count.
Arguments Move {A} b old_head new_head offset transfer_count.
Arguments ReadLast {A} b old_head new_head transfer_count.
Arguments Publish {A} b new_head transfer_count r.
Arguments Release {A} b new_head r.
Arguments DrainNext {A} b current end_.

(** What the environment chooses at a step: the operation an idle thread
    starts, the result of [count_fn], whether a weak compare-exchange fails
    spuriously. *)
Inductive choice (A : Type) : Type :=
  | Start (o : op A)
  | Go (count : Z) (spurious : bool).
Arguments Start {A} o.
Arguments Go {A} count spurious.

Definition entry {A} (o : op A) : Pc A :=
  match o with
  | OpPush x => Push1 x
  | OpExtend xs => Ext1 xs
  | OpPop => Pop1
  | OpSteal s => Likely1 BSteal s
  | OpStealAndPop s => Likely1 BStealAndPop s
  | OpDrain s => Book1 (mkBooking BDrain s 0 0 (2 ^ SHORT - 1))
  end.

Definition steal_error {A} (k : booker) (e : StealError) : result A :=
  match k with
  | BSteal => RSteal (inl e)
  | BStealAndPop => RStealAndPop (inl e)
  | BDrain => RDrain (Some e)
  end.

(** Shared memory as the code sees it. *)
Record Shared (A : Type) : Type := mkShared { qs : nat → Queue; mem : Mem A }.
Arguments mkShared {A} _ _.
Arguments qs {A} _ _.
Arguments mem {A} _ _.

Section steps.
Context {A : Type}.
Implicit Types (c : Shared A) (t : nat).

Definition set_q c (q : nat) (Q : Queue) : Shared A := mkShared (<[q := Q]> (qs c)) (mem c).

(** [push]. *)
Definition push_step c t (p : Pc A) : outcome (Shared A * Pc A * event A) :=
  let Q := qs c t in
  match p with
  | Push1 item => mret (c, Push2 item (push_count Q), Tau)
  | Push2 item pc =>
      let pop_count := (unpack (pop_count_and_head Q)).1 in
      mret (c, Push3 item pc (wrapping_sub SHORT pc pop_count), Tau)
  | Push3 item pc tail =>
      if bool_decide (mask Q < wrapping_sub SHORT tail (head Q))
      then mret (c, Done (RPush (Some item)), Tau)
      else mret (c, Push4 item pc tail, Tau)
  | Push4 item pc tail =>
      m ← write_at (mem c) t (mask Q) tail item;
      mret (mkShared (qs c) m, Push5 item pc, Tau)
  | Push5 item pc =>
      mret (set_q c t (set_push Q (wrapping_add SHORT pc 1)), Done (RPush None), In [item])
  | _ => mret (c, p, Tau)
  end.

(** [extend]. *)
Definition extend_step c t (p : Pc A) : outcome (Shared A * Pc A * event A) :=
  let Q := qs c t in
  match p with
  | Ext1 iter => mret (c, Ext2 iter (push_count Q), Tau)
  | Ext2 iter pc =>
      let pop_count := (unpack (pop_count_and_head Q)).1 in
      mret (c, Ext3 iter pop_count (wrapping_sub SHORT pc pop_count), Tau)
  | Ext3 iter pop_count tail =>
      mret (c, ExtLoop iter pop_count tail (wrapping_add SHORT (head Q) (capacity Q)) [], Tau)
  | ExtLoop iter pop_count tail max_tail written =>
      match iter with
      | item :: iter =>
          if bool_decide (tail = max_tail)
          then mret (set_q c t (set_push Q (wrapping_add SHORT tail pop_count)), Done RNone, In written)
          else
            m ← write_at (mem c) t (mask Q) tail item;
            mret (mkShared (qs c) m,
                  ExtLoop iter pop_count (wrapping_add SHORT tail 1) max_tail (written ++ [item]), Tau)
      | [] => mret (set_q c t (set_push Q (wrapping_add SHORT tail pop_count)), Done RNone, In written)
      end
  | _ => mret (c, p, Tau)
  end.

(** [pop]. *)
Definition pop_step c t (spurious : bool) (p : Pc A) : outcome (Shared A * Pc A * event A) :=
  let Q := qs c t in
  match p with
  | Pop1 => mret (c, Pop2 (pop_count_and_head Q), Tau)
  | Pop2 pch =>
      let pop_count := (unpack pch).1 in
      mret (c, Pop3 pch (wrapping_sub SHORT (push_count Q) pop_count) (wrapping_add SHORT pop_count 1), Tau)
  | Pop3 pch tail new_pop_count =>
      let head := (unpack pch).2 in
      if bool_decide (tail = head) then mret (c, Done (RPop None), Nothing t)
      else if bool_decide (pop_count_and_head Q = pch) && negb spurious
      then mret (set_q c t (set_pch Q (pack new_pop_count head)), Pop4 tail, Tau)
      else mret (c, Pop3 (pop_count_and_head Q) tail new_pop_count, Tau)
  | Pop4 tail =>
      '(x, m) ← read_at (mem c) t (mask Q) (wrapping_sub SHORT tail 1);
      mret (mkShared (qs c) m, Done (RPop (Some x)), Out x)
  | _ => mret (c, p, Tau)
  end.

(** [is_likely_empty], the fast path of [steal] and [steal_and_pop]. *)
Definition likely_step c (p : Pc A) : outcome (Shared A * Pc A * event A) :=
  match p with
  | Likely1 k s => mret (c, Likely2 k s (push_count (qs c s)), Tau)
  | Likely2 k s pc =>
      let '(pop_count, head) := unpack (pop_count_and_head (qs c s)) in
      if bool_decide (wrapping_sub SHORT pc pop_count = head)
      then mret (c, Done (steal_error k Empty), Tau)
      else mret (c, Dest1 k s, Tau)
  | _ => mret (c, p, Tau)
  end.

(** The free capacity of the destination. *)
Definition dest_step c t (p : Pc A) : outcome (Shared A * Pc A * event A) :=
  let D := qs c t in
  match p with
  | Dest1 k s => mret (c, Dest2 k s (push_count D), Tau)
  | Dest2 k s dpc =>
      let dest_pop_count := (unpack (pop_count_and_head D)).1 in
      mret (c, Dest3 k s dpc (wrapping_sub SHORT dpc dest_pop_count), Tau)
  | Dest3 k s dpc dtail =>
      free ← checked_sub (capacity D) (wrapping_sub SHORT dtail (head D));
      guard_panic (bool_decide (free ≤ capacity D));;
      max ← (match k with BStealAndPop => checked_add SHORT free 1 | _ => mret free end);
      mret (c, Book1 (mkBooking k s dpc dtail max), Tau)
  | _ => mret (c, p, Tau)
  end.

(** [book_items], and what its caller does with the booking. *)
Definition booked {B} (b : Booking) (head new_head count : Z) : outcome (Pc B) :=
  match bk b with
  | BSteal =>
      guard_panic (bool_decide (count ≤ max_count b));;
      mret (Move b head new_head 0 count)
  | BStealAndPop =>
      transfer_count ← checked_sub count 1;
      free ← checked_sub (max_count b) 1;
      guard_panic (bool_decide (transfer_count ≤ free));;
      mret (Move b head new_head 0 transfer_count)
  | BDrain => mret (DrainNext b head new_head)
  end.

Definition book_step c (n : Z) (spurious : bool) (p : Pc A) : outcome (Shared A * Pc A * event A) :=
  match p with
  | Book1 b => mret (c, Book2 b (pop_count_and_head (qs c (src b))), Tau)
  | Book2 b pch => mret (c, Book3 b pch (head (qs c (src b))), Tau)
  | Book3 b pch old_head =>
      let '(pop_count, head) := unpack pch in
      if bool_decide (old_head ≠ head) then mret (c, Done (steal_error (bk b) Busy), Tau)
      else
        let tail := wrapping_sub SHORT (push_count (qs c (src b))) pop_count in
        let item_count := wrapping_sub SHORT tail head in
        if bool_decide (item_count = 0) then mret (c, Done (steal_error (bk b) Empty), Tau)
        else
          let count := Z.min (wrap SHORT (Z.min n (max_count b))) item_count in
          if bool_decide (count = 0) then mret (c, Done (steal_error (bk b) Empty), Tau)
          else mret (c, Book4 b pch old_head count, Tau)
  | Book4 b pch old_head count =>
      let '(pop_count, head) := unpack pch in
      let new_head := wrapping_add SHORT head count in
      let Q := qs c (src b) in
      if bool_decide (pop_count_and_head Q = pch) && negb spurious
      then
        p' ← booked b head new_head count;
        mret (set_q c (src b) (set_pch Q (pack pop_count new_head)), p', Tau)
      else mret (c, Book3 b (pop_count_and_head Q) old_head, Tau)
  | _ => mret (c, p, Tau)
  end.

(** The transfer of [steal] and [steal_and_pop], item by item. *)
Definition transfer_step c t (p : Pc A) : outcome (Shared A * Pc A * event A) :=
  match p with
  | Move b old_head new_head offset n =>
      if bool_decide (offset < n) then
        '(x, m1) ← read_at (mem c) (src b) (mask (qs c (src b))) (wrapping_add SHORT old_head offset);
        m2 ← write_at m1 t (mask (qs c t)) (wrapping_add SHORT (dest_tail b) offset) x;
        mret (mkShared (qs c) m2, Move b old_head new_head (offset + 1) n, Tau)
      else
        match bk b with
        | BSteal => mret (c, Publish b new_head n (RSteal (inr n)), Tau)
        | _ => mret (c, ReadLast b old_head new_head n, Tau)
        end
  | _ => mret (c, p, Tau)
  end.

(** [steal_and_pop]: the last booked item is returned directly. *)
Definition read_last_step c (p : Pc A) : outcome (Shared A * Pc A * event A) :=
  match p with
  | ReadLast b old_head new_head n =>
      '(x, m) ← read_at (mem c) (src b) (mask (qs c (src b))) (wrapping_add SHORT old_head n);
      mret (mkShared (qs c) m, Publish b new_head n (RStealAndPop (inr (x, n))), Out x)
  | _ => mret (c, p, Tau)
  end.

(** The two releasing stores: the destination's push count, the source's head. *)
Definition finish_step c t (p : Pc A) : outcome (Shared A * Pc A * event A) :=
  match p with
  | Publish b new_head n r =>
      mret (set_q c t (set_push (qs c t) (wrapping_add SHORT (dest_push_count b) n)),
            Release b new_head r, Tau)
  | Release b new_head r =>
      mret (set_q c (src b) (set_head (qs c (src b)) new_head), Done r, Tau)
  | _ => mret (c, p, Tau)
  end.

(** [Drain::next]. *)
Definition drain_next_step c (p : Pc A) : outcome (Shared A * Pc A * event A) :=
  match p with
  | DrainNext b current end_ =>
      if bool_decide (current = end_) then mret (c, Done (RDrain None), Tau)
      else
        '(x, m) ← read_at (mem c) (src b) (mask (qs c (src b))) current;
        let current' := wrapping_add SHORT current 1 in
        mret (mkShared (qs c) m,
              (if bool_decide (current' = end_) then Release b end_ (RDrain None)
               else DrainNext b current' end_), Out x)
  | _ => mret (c, p, Tau)
  end.

Definition code_step c t (ch : choice A) (p : Pc A) : outcome (Shared A * Pc A * event A) :=
  let n := match ch with Go n _ => n | _ => 0 end in
  let spurious := match ch with Go _ s => s | _ => false end in
  match p with
  | Done r => match ch with
              | Start o => mret (c, entry o, Tau)
              | _ => mret (c, p, Tau)
              end
  | Push1 _ | Push2 _ _ | Push3 _ _ _ | Push4 _ _ _ | Push5 _ _ => push_step c t p
  | Ext1 _ | Ext2 _ _ | Ext3 _ _ _ | ExtLoop _ _ _ _ _ => extend_step c t p
  | Pop1 | Pop2 _ | Pop3 _ _ _ | Pop4 _ => pop_step c t spurious p
  | Likely1 _ _ | Likely2 _ _ _ => likely_step c p
  | Dest1 _ _ | Dest2 _ _ _ | Dest3 _ _ _ _ => dest_step c t p
  | Book1 _ | Book2 _ _ | Book3 _ _ _ | Book4 _ _ _ _ => book_step c n spurious p
  | Move _ _ _ _ _ => transfer_step c t p
  | ReadLast _ _ _ _ => read_last_step c p
  | Publish _ _ _ _ | Release _ _ _ => finish_step c t p
  | DrainNext _ _ _ => drain_next_step c p
  end.

End steps.

(** ** The interleaved system *)

(** Unwrapped counters: pushes, pops, booked head and released head. *)
Record Shadow : Type := mkShadow { s_push : Z; s_pop : Z; s_booked : Z; s_head : Z }.

Definition advance (s : Shadow) (Q : Queue) : Shadow :=
  let '(pop, booked) := unpack (pop_count_and_head Q) in
  mkShadow (adv (s_push s) (push_count Q)) (adv (s_pop s) pop)
           (adv (s_booked s) booked) (adv (s_head s) (head Q)).

(** What a booking thread has last read: pop count, booked head, head. *)
Record Seen : Type := mkSeen { seen_pop : Z; seen_booked : Z; seen_head : Z }.

Definition observe {A} (sh : nat → Shadow) (p p' : Pc A) (sn : Seen) : Seen :=
  match p, p' with
  | Book1 b, _ => mkSeen (s_pop (sh (src b))) (s_booked (sh (src b))) (seen_head sn)
  | Book2 b _, _ => mkSeen (seen_pop sn) (seen_booked sn) (s_head (sh (src b)))
  | Book4 b _ _ _, Book3 _ _ _ =>
      mkSeen (s_pop (sh (src b))) (s_booked (sh (src b))) (seen_head sn)
  | _, _ => sn
  end.

Record State (A : Type) : Type := mkState {
  shared : Shared A;
  shadow : nat → Shadow;
  thread : nat → Pc A;
  seen : nat → Seen;
}.
Arguments mkState {A} _ _ _ _.
Arguments shared {A} _.
Arguments shadow {A} _ _.
Arguments thread {A} _ _.
Arguments seen {A} _ _.

(** A booking whose compare-exchange is next must not be older than a full
    cycle of the 32-bit counters.  The code does not check this: a stealer
    suspended between its loads and its compare-exchange while [2 ^ 32] items
    pass through the queue could succeed on the recurring words (ABA).  The
    steps of the model leave that one case out. *)
Definition fresh {A} (σ : State A) (t : nat) : Prop :=
  match thread σ t with
  | Book4 b _ _ _ =>
      let s := shadow σ (src b) in
      s_pop s - seen_pop (seen σ t) < 2 ^ SHORT ∧
      s_booked s - seen_booked (seen σ t) < 2 ^ SHORT ∧
      s_booked s - seen_head (seen σ t) < 2 ^ SHORT
  | _ => True
  end.

Definition choice_ok {A} (N : nat) (ch : choice A) : Prop :=
  match ch with
  | Start (OpSteal s) | Start (OpStealAndPop s) | Start (OpDrain s) => (s < N)%nat
  | Start _ => True
  | Go n _ => 0 ≤ n
  end.

(** One step of thread [t]. *)
Inductive step {A} (N : nat) : State A → event A → State A → Prop :=
  | step_intro σ t ch c' p' e :
      (t < N)%nat → choice_ok N ch → fresh σ t →
      code_step (shared σ) t ch (thread σ t) = Ret (c', p', e) →
      step N σ e (mkState c' (λ q, advance (shadow σ q) (qs c' q))
                    (<[t := p']> (thread σ))
                    (<[t := observe (shadow σ) (thread σ t) p' (seen σ t)]> (seen σ))).

Inductive steps {A} (N : nat) : State A → list (event A) → State A → Prop :=
  | steps_nil σ : steps N σ [] σ
  | steps_snoc σ es σ' e σ'' : steps N σ es σ' → step N σ' e σ'' → steps N σ (es ++ [e]) σ''.

(** [Queue::drop]: the items the queue still holds. *)
Fixpoint drop_loop {A} (m : Mem A) (q : nat) (mask head offset : Z) (n : nat) : outcome (list A) :=
  match n with
  | O => mret []
  | S n =>
      '(x, m') ← read_at m q mask (wrapping_add SHORT head offset);
      l ← drop_loop m' q mask head (offset + 1) n;
      mret (x :: l)
  end.

Definition drop_queue {A} (c : Shared A) (q : nat) : outcome (list A) :=
  let Q := qs c q in
  let count := wrapping_sub SHORT (tail_of Q) (head Q) in
  drop_loop (mem c) q (mask Q) (head Q) 0 (Z.to_nat count).

(** Freshly created queues, idle threads. *)
Definition init {A} (Q : nat → Queue) (m : Mem A) : State A :=
  mkState (mkShared Q m) (λ _, mkShadow 0 0 0 0) (λ _, Done RNone) (λ _, mkSeen 0 0 0).

Definition created {A} (min_capacity : nat → Z) (Q : nat → Queue) (m : Mem A) : Prop :=
  ∀ q, new (min_capacity q) = Ret (Q q, m q).

(** ** Words and shadows *)

Definition tail (s : Shadow) : Z := s_push s - s_pop s.

Record words (Q : Queue) (s : Shadow) : Prop := {
  w_push : push_count Q = wrap SHORT (s_push s);
  w_pch : pop_count_and_head Q = pack (wrap SHORT (s_pop s)) (wrap SHORT (s_booked s));
  w_head : head Q = wrap SHORT (s_head s);
}.

(** [s'] is reached from [s] without skipping a full cycle. *)
Record near (s s' : Shadow) : Prop := {
  n_push : 0 ≤ s_push s' - s_push s < 2 ^ SHORT;
  n_pop : 0 ≤ s_pop s' - s_pop s < 2 ^ SHORT;
  n_booked : 0 ≤ s_booked s' - s_booked s < 2 ^ SHORT;
  n_head : 0 ≤ s_head s' - s_head s < 2 ^ SHORT;
}.

Lemma advance_words Q s s' : words Q s' → near s s' → advance s Q = s'.
Proof.
  intros [H1 H2 H3] [N1 N2 N3 N4]. unfold advance. rewrite H1, H2, H3, unpack_pack_wrap.
  rewrite !adv_wrap by done. by destruct s'.
Qed.

Lemma near_refl s : near s s.
Proof. split; rewrite Z.sub_diag; unfold SHORT; lia. Qed.

(** ** The invariant *)

(** Ghost state of a queue: position of the first item still in the buffer,
    items booked by the stealer that holds the queue, available items, and
    items in slots past the tail (written but not published, or popped but not
    yet read). *)
Record GQ (A : Type) : Type := mkGQ {
  g_lo : Z;
  g_book : list A;
  g_avail : list A;
  g_pend : list A;
  g_holder : option nat;
}.
Arguments mkGQ {A} _ _ _ _ _.
Arguments g_lo {A} _.
Arguments g_book {A} _.
Arguments g_avail {A} _.
Arguments g_pend {A} _.
Arguments g_holder {A} _.

#[local] Opaque pack unpack.

Section inv.
Context {A : Type} (N : nat) (cap : nat → Z).
Implicit Types (c : Shared A) (sh : nat → Shadow) (g : nat → GQ A) (t q : nat).

Record QInv (k : Z) (Q : Queue) (s : Shadow) (G : GQ A) (buf : list (option A)) : Prop := {
  qi_cap : st3_cap k;
  qi_mask : mask Q = k - 1;
  qi_words : words Q s;
  qi_head : s_head s ≤ g_lo G;
  qi_book : g_lo G + Z.of_nat (length (g_book G)) = s_booked s;
  qi_avail : s_booked s + Z.of_nat (length (g_avail G)) = tail s;
  qi_pend : tail s + Z.of_nat (length (g_pend G)) ≤ s_head s + k;
  qi_ring : RingRep k buf (g_lo G) (Some <$> (g_book G ++ g_avail G ++ g_pend G));
  qi_holder : g_holder G = None ↔ s_head s = s_booked s;
}.

Definition Good c sh g : Prop := ∀ q, QInv (cap q) (qs c q) (sh q) (g q) (mem c q).

(** [t] holds exactly the queue [o]. *)
Definition holds g t (o : option nat) : Prop := ∀ q, g_holder (g q) = Some t ↔ o = Some q.

(** The destination has room for [n] more items and its locals are current. *)
Definition dest_ok sh t (b : Booking) (n : Z) : Prop :=
  dest_push_count b = wrap SHORT (s_push (sh t)) ∧
  dest_tail b = wrap SHORT (tail (sh t)) ∧
  tail (sh t) + n ≤ s_head (sh t) + cap t.

Definition booking_ok sh t (b : Booking) : Prop :=
  (src b < N)%nat ∧ 0 ≤ max_count b < 2 ^ SHORT ∧
  match bk b with
  | BSteal => dest_ok sh t b (max_count b)
  | BStealAndPop => 1 ≤ max_count b ∧ dest_ok sh t b (max_count b - 1)
  | BDrain => True
  end.

(** How many items beyond the transferred ones the booking covers. *)
Definition extra (b : Booking) : Z := match bk b with BStealAndPop => 1 | _ => 0 end.

Definition read_view sh (b : Booking) (pch : Z) (sn : Seen) : Prop :=
  pch = pack (wrap SHORT (seen_pop sn)) (wrap SHORT (seen_booked sn)) ∧
  seen_pop sn ≤ s_pop (sh (src b)) ∧ seen_booked sn ≤ s_booked (sh (src b)).

Definition pop_view sh t (pch : Z) : Prop :=
  ∃ b0, pch = pack (wrap SHORT (s_pop (sh t))) (wrap SHORT b0) ∧
    b0 ≤ s_booked (sh t) ∧ tail (sh t) - b0 ≤ cap t.

Definition owns g t (pend : list A) (o : option nat) : Prop :=
  g_pend (g t) = pend ∧ holds g t o.

(** The assertion of thread [t] at program point [p]. *)
Definition TI sh g t (p : Pc A) (sn : Seen) : Prop :=
  let s := sh t in
  match p with
  | Done _ | Push1 _ | Ext1 _ | Pop1 => owns g t [] None
  | Likely1 k x | Likely2 k x _ | Dest1 k x => k ≠ BDrain ∧ (x < N)%nat ∧ owns g t [] None
  | Push2 _ u | Ext2 _ u => owns g t [] None ∧ u = wrap SHORT (s_push s)
  | Push3 _ u tl => owns g t [] None ∧ u = wrap SHORT (s_push s) ∧ tl = wrap SHORT (tail s)
  | Push4 _ u tl =>
      owns g t [] None ∧ u = wrap SHORT (s_push s) ∧ tl = wrap SHORT (tail s) ∧
      tail s < s_head s + cap t
  | Push5 x u => owns g t [x] None ∧ u = wrap SHORT (s_push s)
  | Ext3 _ pc tl => owns g t [] None ∧ pc = wrap SHORT (s_pop s) ∧ tl = wrap SHORT (tail s)
  | ExtLoop _ pc tl mx w =>
      owns g t w None ∧ pc = wrap SHORT (s_pop s) ∧
      tl = wrap SHORT (tail s + Z.of_nat (length w)) ∧
      ∃ m, mx = wrap SHORT m ∧ m ≤ s_head s + cap t ∧ m - tail s ≤ cap t ∧
        tail s + Z.of_nat (length w) ≤ m
  | Pop2 pch => owns g t [] None ∧ pop_view sh t pch
  | Pop3 pch tl np =>
      owns g t [] None ∧ pop_view sh t pch ∧ tl = wrap SHORT (tail s) ∧ np = wrap SHORT (s_pop s + 1)
  | Pop4 tl => ∃ x, owns g t [x] None ∧ tl = wrap SHORT (tail s + 1)
  | Dest2 k x u => k ≠ BDrain ∧ (x < N)%nat ∧ owns g t [] None ∧ u = wrap SHORT (s_push s)
  | Dest3 k x u tl =>
      k ≠ BDrain ∧ (x < N)%nat ∧ owns g t [] None ∧
      u = wrap SHORT (s_push s) ∧ tl = wrap SHORT (tail s)
  | Book1 b => booking_ok sh t b ∧ owns g t [] None
  | Book2 b pch => booking_ok sh t b ∧ owns g t [] None ∧ read_view sh b pch sn
  | Book3 b pch oh =>
      booking_ok sh t b ∧ owns g t [] None ∧ read_view sh b pch sn ∧
      oh = wrap SHORT (seen_head sn) ∧ seen_head sn ≤ s_head (sh (src b))
  | Book4 b pch oh count =>
      booking_ok sh t b ∧ owns g t [] None ∧ read_view sh b pch sn ∧
      oh = wrap SHORT (seen_head sn) ∧ wrap SHORT (seen_head sn) = wrap SHORT (seen_booked sn) ∧
      seen_head sn ≤ s_head (sh (src b)) ∧ 1 ≤ count ≤ max_count b ∧
      (s_pop (sh (src b)) = seen_pop sn → s_booked (sh (src b)) = seen_booked sn →
       count ≤ tail (sh (src b)) - s_booked (sh (src b)))
  | Move b oh nh off n =>
      bk b ≠ BDrain ∧ (src b < N)%nat ∧ 0 ≤ off ≤ n ∧ dest_ok sh t b n ∧
      oh = wrap SHORT (g_lo (g (src b)) - off) ∧ nh = wrap SHORT (s_booked (sh (src b))) ∧
      Z.of_nat (length (g_book (g (src b)))) = n - off + extra b ∧
      ∃ w, owns g t w (Some (src b)) ∧ Z.of_nat (length w) = off
  | ReadLast b oh nh n =>
      (src b < N)%nat ∧ 0 ≤ n ∧ dest_ok sh t b n ∧
      oh = wrap SHORT (g_lo (g (src b)) - n) ∧ nh = wrap SHORT (s_booked (sh (src b))) ∧
      length (g_book (g (src b))) = 1%nat ∧
      ∃ w, owns g t w (Some (src b)) ∧ Z.of_nat (length w) = n
  | Publish b nh n _ =>
      0 ≤ n ∧ dest_push_count b = wrap SHORT (s_push s) ∧
      nh = wrap SHORT (s_booked (sh (src b))) ∧ g_book (g (src b)) = [] ∧
      ∃ w, owns g t w (Some (src b)) ∧ Z.of_nat (length w) = n
  | Release b nh _ =>
      nh = wrap SHORT (s_booked (sh (src b))) ∧ g_book (g (src b)) = [] ∧
      owns g t [] (Some (src b))
  | DrainNext b cur nh =>
      cur = wrap SHORT (g_lo (g (src b))) ∧ nh = wrap SHORT (s_booked (sh (src b))) ∧
      g_book (g (src b)) ≠ [] ∧ owns g t [] (Some (src b))
  end.

(** The items a thread has claimed and not yet handed on. *)
Definition handf g t (p : Pc A) : list A :=
  match p with
  | Pop4 _ | Publish _ _ _ _ => g_pend (g t)
  | Move b _ _ _ _ | ReadLast b _ _ _ => g_pend (g t) ++ g_book (g (src b))
  | DrainNext b _ _ => g_book (g (src b))
  | _ => []
  end.

(** ** Interference *)

(** What the steps of other threads may do, as seen by [t]. *)
Record env t sh g sh' g' : Prop := {
  e_push : s_push (sh' t) = s_push (sh t);
  e_pop : s_pop (sh' t) = s_pop (sh t);
  e_pend : g_pend (g' t) = g_pend (g t);
  e_pop_le q : s_pop (sh q) ≤ s_pop (sh' q);
  e_booked_le q : s_booked (sh q) ≤ s_booked (sh' q);
  e_head_le q : s_head (sh q) ≤ s_head (sh' q);
  e_tail q : s_pop (sh' q) = s_pop (sh q) → s_booked (sh' q) = s_booked (sh q) →
    tail (sh q) ≤ tail (sh' q);
  e_holder q : g_holder (g q) = Some t ↔ g_holder (g' q) = Some t;
  e_held q : g_holder (g q) = Some t →
    g_lo (g' q) = g_lo (g q) ∧ g_book (g' q) = g_book (g q) ∧ s_booked (sh' q) = s_booked (sh q);
}.

Lemma env_owns t sh g sh' g' pend o : env t sh g sh' g' → owns g t pend o → owns g' t pend o.
Proof.
  intros He [Hp Hh]. split; [by rewrite (e_pend _ _ _ _ _ He)|]. intros q.
  rewrite <- (e_holder _ _ _ _ _ He). apply Hh.
Qed.

Lemma env_own t sh g sh' g' :
  env t sh g sh' g' →
  s_push (sh' t) = s_push (sh t) ∧ s_pop (sh' t) = s_pop (sh t) ∧ tail (sh' t) = tail (sh t) ∧
  s_head (sh t) ≤ s_head (sh' t) ∧ s_booked (sh t) ≤ s_booked (sh' t).
Proof.
  intros He. pose proof (e_push _ _ _ _ _ He) as H1. pose proof (e_pop _ _ _ _ _ He) as H2.
  unfold tail. rewrite H1, H2. split_and!; [done..|by eapply e_head_le|by eapply e_booked_le].
Qed.

Lemma env_dest t sh g sh' g' b n : env t sh g sh' g' → dest_ok sh t b n → dest_ok sh' t b n.
Proof.
  intros He (H1 & H2 & H3). destruct (env_own _ _ _ _ _ He) as (E1 & E2 & E3 & E4 & _).
  unfold dest_ok. rewrite E1, E3. split_and!; [done..|lia].
Qed.

Lemma env_booking t sh g sh' g' b : env t sh g sh' g' → booking_ok sh t b → booking_ok sh' t b.
Proof.
  intros He (H1 & H2 & H3). split; [done|]. split; [done|].
  destruct (bk b); [by eapply env_dest| |done]. destruct H3. split; [done|by eapply env_dest].
Qed.

Lemma env_read t sh g sh' g' b pch sn :
  env t sh g sh' g' → read_view sh b pch sn → read_view sh' b pch sn.
Proof.
  intros He (H1 & H2 & H3). pose proof (e_pop_le _ _ _ _ _ He (src b)).
  pose proof (e_booked_le _ _ _ _ _ He (src b)). split_and!; [done|lia|lia].
Qed.

Lemma env_pop t sh g sh' g' pch : env t sh g sh' g' → pop_view sh t pch → pop_view sh' t pch.
Proof.
  intros He (b0 & H1 & H2 & H3). destruct (env_own _ _ _ _ _ He) as (E1 & E2 & E3 & E4 & E5).
  exists b0. rewrite E2, E3. split_and!; [done|lia|lia].
Qed.

Create HintDb st3.
#[local] Hint Resolve env_owns env_dest env_booking env_read env_pop : st3.

(** Assertions survive the steps of other threads. *)
Lemma TI_env t sh g sh' g' p sn : env t sh g sh' g' → TI sh g t p sn → TI sh' g' t p sn.
Proof.
  intros He Hti. destruct (env_own _ _ _ _ _ He) as (E1 & E2 & E3 & E4 & E5).
  assert (∀ q o pend, owns g t pend o → o = Some q →
    g_lo (g' q) = g_lo (g q) ∧ g_book (g' q) = g_book (g q) ∧ s_booked (sh' q) = s_booked (sh q))
    as Hheld.
  { intros q o pend [_ Hh] Ho. apply (e_held _ _ _ _ _ He). by apply Hh. }
  destruct p; simpl in *; rewrite ?E1, ?E2, ?E3; try (by eauto with st3);
    try (destruct_and! Hti; split_and!; by eauto with st3).
  - destruct Hti as (? & ? & ? & ?). split_and!; eauto with st3; lia.
  - destruct Hti as (? & ? & ? & m & ? & ? & ? & ?). split_and!; eauto with st3.
    exists m. split_and!; [done|lia..].
  - destruct Hti as (x & ? & ?). eauto with st3.
  - destruct Hti as (? & ? & ? & ? & ?). split_and!; eauto with st3.
    pose proof (e_head_le _ _ _ _ _ He (src b)). lia.
  - destruct Hti as (? & ? & Hrv & ? & ? & ? & ? & Hc).
    pose proof (e_head_le _ _ _ _ _ He (src b)). pose proof (e_pop_le _ _ _ _ _ He (src b)).
    pose proof (e_booked_le _ _ _ _ _ He (src b)). pose proof (e_tail _ _ _ _ _ He (src b)).
    pose proof Hrv as (_ & Hp & Hb). split_and!; eauto with st3; lia.
  - destruct Hti as (? & ? & ? & ? & ? & ? & ? & w & Hw & ?).
    destruct (Hheld _ _ _ Hw eq_refl) as (-> & -> & ->). split_and!; eauto with st3; lia.
  - destruct Hti as (? & ? & ? & ? & ? & ? & w & Hw & ?).
    destruct (Hheld _ _ _ Hw eq_refl) as (-> & -> & ->). split_and!; eauto with st3.
  - destruct Hti as (? & ? & ? & ? & w & Hw & ?).
    destruct (Hheld _ _ _ Hw eq_refl) as (_ & -> & ->). split_and!; eauto with st3.
  - destruct Hti as (? & ? & Hw).
    destruct (Hheld _ _ _ Hw eq_refl) as (_ & -> & ->). split_and!; eauto with st3.
  - destruct Hti as (? & ? & ? & Hw).
    destruct (Hheld _ _ _ Hw eq_refl) as (-> & -> & ->). split_and!; eauto with st3.
Qed.

(** What a step of [t] may do to one queue. *)
Record upd t q (s : Shadow) (G : GQ A) (s' : Shadow) (G' : GQ A) : Prop := {
  u_own : q = t ∨ s_push s' = s_push s ∧ s_pop s' = s_pop s ∧ g_pend G' = g_pend G;
  u_pop : s_pop s ≤ s_pop s';
  u_booked : s_booked s ≤ s_booked s';
  u_head : s_head s ≤ s_head s';
  u_tail : s_pop s' = s_pop s → s_booked s' = s_booked s → tail s ≤ tail s';
  u_holder t' : t' ≠ t → g_holder G = Some t' ↔ g_holder G' = Some t';
  u_held t' : t' ≠ t → g_holder G = Some t' →
    g_lo G' = g_lo G ∧ g_book G' = g_book G ∧ s_booked s' = s_booked s;
}.

Lemma env_upd t t' q sh g sh' g' :
  t' ≠ t → (∀ q', q' ≠ q → sh' q' = sh q' ∧ g' q' = g q') →
  upd t q (sh q) (g q) (sh' q) (g' q) → env t' sh g sh' g'.
Proof.
  intros Hne Hframe [Hown Hp Hb Hh Ht Hho Hhe].
  assert (∀ q', q' = q ∨ sh' q' = sh q' ∧ g' q' = g q') as Hq.
  { intros q'. destruct (decide (q' = q)); auto. }
  assert (s_push (sh' t') = s_push (sh t') ∧ s_pop (sh' t') = s_pop (sh t') ∧
    g_pend (g' t') = g_pend (g t')) as (H1 & H2 & H3).
  { destruct (Hq t') as [->|[-> ->]]; [|done]. by destruct Hown. }
  split; [done..| | | | | |]; intros q'; destruct (Hq q') as [->|[Es Eg]]; rewrite ?Es, ?Eg;
    first [done | lia | by apply Hho | by apply Hhe | by apply Ht].
Qed.

Lemma env_trans t sh g sh1 g1 sh2 g2 :
  env t sh g sh1 g1 → env t sh1 g1 sh2 g2 → env t sh g sh2 g2.
Proof.
  intros [A1 A2 A3 A4 A5 A6 A7 A8 A9] [B1 B2 B3 B4 B5 B6 B7 B8 B9]. split; try congruence.
  - intros q. specialize (A4 q). specialize (B4 q). lia.
  - intros q. specialize (A5 q). specialize (B5 q). lia.
  - intros q. specialize (A6 q). specialize (B6 q). lia.
  - intros q H1 H2. specialize (A4 q). specialize (B4 q). specialize (A5 q). specialize (B5 q).
    specialize (A7 q). specialize (B7 q). lia.
  - intros q. by rewrite A8.
  - intros q H. destruct (A9 q H) as (E1 & E2 & E3). destruct (B9 q) as (F1 & F2 & F3).
    { by apply A8. }
    by rewrite F1, F2, F3.
Qed.

Lemma env_refl t sh g : env t sh g sh g.
Proof. split; auto; lia. Qed.

(** ** Updates of one queue *)

Lemma Good_mem c sh g q G' buf' :
  Good c sh g → QInv (cap q) (qs c q) (sh q) G' buf' →
  Good (mkShared (qs c) (<[q := buf']> (mem c))) sh (<[q := G']> g).
Proof.
  intros HG HQ q'. simpl. destruct (decide (q' = q)) as [->|Hne].
  - by rewrite !fn_lookup_insert.
  - by rewrite !fn_lookup_insert_ne.
Qed.

Lemma Good_word c sh g q Q' s' G' :
  Good c sh g → QInv (cap q) Q' s' G' (mem c q) →
  Good (set_q c q Q') (<[q := s']> sh) (<[q := G']> g).
Proof.
  intros HG HQ q'. simpl. destruct (decide (q' = q)) as [->|Hne].
  - by rewrite !fn_lookup_insert.
  - by rewrite !fn_lookup_insert_ne.
Qed.

Definition with_pend (G : GQ A) (pend : list A) : GQ A :=
  mkGQ (g_lo G) (g_book G) (g_avail G) pend (g_holder G).

(** Write one more item past the tail. *)
Lemma q_write c sh g q x :
  Good c sh g →
  tail (sh q) + Z.of_nat (length (g_pend (g q))) < s_head (sh q) + cap q →
  ∃ buf, write_at (mem c) q (mask (qs c q))
           (wrap SHORT (tail (sh q) + Z.of_nat (length (g_pend (g q))))) x
         = Ret (<[q := buf]> (mem c)) ∧
    Good (mkShared (qs c) (<[q := buf]> (mem c))) sh
      (<[q := with_pend (g q) (g_pend (g q) ++ [x])]> g).
Proof.
  intros HG Hlt. pose proof (HG q) as [Hc Hm Hw Hh Hb Ha Hp Hr Hho].
  pose proof (write_at_back (cap q) (mem c) q (g_lo (g q)) Hc x _ Hr) as (buf & E & Hr').
  { rewrite length_fmap, !length_app. lia. }
  exists buf. rewrite Hm. split.
  - rewrite <- E. f_equal. f_equal. rewrite length_fmap, !length_app. lia.
  - apply Good_mem; [done|]. split; simpl; try done.
    + rewrite length_app. simpl. lia.
    + by rewrite !(assoc_L (++)), fmap_app, <- !(assoc_L (++)).
Qed.

(** Read back the last item past the tail. *)
Lemma q_unpend c sh g q pend x :
  Good c sh g → g_pend (g q) = pend ++ [x] →
  ∃ buf, read_at (mem c) q (mask (qs c q)) (wrap SHORT (tail (sh q) + Z.of_nat (length pend)))
         = Ret (x, <[q := buf]> (mem c)) ∧
    Good (mkShared (qs c) (<[q := buf]> (mem c))) sh (<[q := with_pend (g q) pend]> g).
Proof.
  intros HG Hpend. pose proof (HG q) as [Hc Hm Hw Hh Hb Ha Hp Hr Hho]. rewrite Hpend in *.
  rewrite length_app in Hp. simpl in Hp. rewrite !(assoc_L (++)), fmap_app in Hr.
  pose proof (read_at_back (cap q) (mem c) q (g_lo (g q)) Hc x _ Hr) as (buf & E & Hr').
  exists buf. rewrite Hm. split.
  - rewrite <- E. f_equal. f_equal. rewrite length_fmap, !length_app. lia.
  - apply Good_mem; [done|]. split; simpl; try done; [lia|]. by rewrite <- (assoc_L (++)) in Hr'.
Qed.

(** Move the first booked item out. *)
Lemma q_unbook c sh g q x l :
  Good c sh g → g_book (g q) = x :: l →
  ∃ buf, read_at (mem c) q (mask (qs c q)) (wrap SHORT (g_lo (g q))) = Ret (x, <[q := buf]> (mem c)) ∧
    Good (mkShared (qs c) (<[q := buf]> (mem c))) sh
      (<[q := mkGQ (g_lo (g q) + 1) l (g_avail (g q)) (g_pend (g q)) (g_holder (g q))]> g).
Proof.
  intros HG Hbook. pose proof (HG q) as [Hc Hm Hw Hh Hb Ha Hp Hr Hho]. rewrite Hbook in *. simpl in *.
  pose proof (read_at_front (cap q) (mem c) q (g_lo (g q)) Hc x _ Hr) as (buf & E & Hr').
  exists buf. rewrite Hm. split; [done|]. apply Good_mem; [done|]. split; simpl; try done; lia.
Qed.

(** Publish the pending items: the store of the push count. *)
Lemma q_publish c sh g q :
  Good c sh g →
  let n := Z.of_nat (length (g_pend (g q))) in
  let s := sh q in
  Good (set_q c q (set_push (qs c q) (wrap SHORT (s_push s + n))))
    (<[q := mkShadow (s_push s + n) (s_pop s) (s_booked s) (s_head s)]> sh)
    (<[q := mkGQ (g_lo (g q)) (g_book (g q)) (g_avail (g q) ++ g_pend (g q)) [] (g_holder (g q))]> g).
Proof.
  intros HG n s. pose proof (HG q) as [Hc Hm [W1 W2 W3] Hh Hb Ha Hp Hr Hho].
  unfold n, s, tail in *. apply Good_word; [done|]. split; simpl; try done.
  - rewrite length_app. unfold tail. simpl. lia.
  - unfold tail. simpl. lia.
  - by rewrite app_nil_r.
Qed.

(** The pop's compare-exchange: the last available item becomes pending. *)
Lemma q_pop c sh g q l x :
  Good c sh g → g_pend (g q) = [] → g_avail (g q) = l ++ [x] →
  let s := sh q in
  Good (set_q c q (set_pch (qs c q) (pack (wrap SHORT (s_pop s + 1)) (wrap SHORT (s_booked s)))))
    (<[q := mkShadow (s_push s) (s_pop s + 1) (s_booked s) (s_head s)]> sh)
    (<[q := mkGQ (g_lo (g q)) (g_book (g q)) l [x] (g_holder (g q))]> g).
Proof.
  intros HG Hpend Hav s. pose proof (HG q) as [Hc Hm [W1 W2 W3] Hh Hb Ha Hp Hr Hho].
  unfold s, tail in *. rewrite Hpend, Hav in *. rewrite length_app in Ha. simpl in *.
  rewrite app_nil_r in Hr. apply Good_word; [done|]. split; simpl; try done; unfold tail; simpl; lia.
Qed.

(** The booking's compare-exchange. *)
Lemma q_book c sh g q t xs l :
  Good c sh g → s_head (sh q) = s_booked (sh q) → g_avail (g q) = xs ++ l → xs ≠ [] →
  let s := sh q in
  let B := s_booked s + Z.of_nat (length xs) in
  Good (set_q c q (set_pch (qs c q) (pack (wrap SHORT (s_pop s)) (wrap SHORT B))))
    (<[q := mkShadow (s_push s) (s_pop s) B (s_head s)]> sh)
    (<[q := mkGQ (g_lo (g q)) xs l (g_pend (g q)) (Some t)]> g).
Proof.
  intros HG Heq Hav Hne s B. pose proof (HG q) as [Hc Hm [W1 W2 W3] Hh Hb Ha Hp Hr Hho].
  assert (g_book (g q) = []) as Hnil by (apply length_zero_iff_nil; lia).
  subst s B. unfold tail in *. rewrite Hav, Hnil in *. rewrite length_app in Ha. simpl in *.
  apply Good_word; [done|]. split; simpl; try done; unfold tail; simpl; [lia..| |].
  - by rewrite <- (assoc_L (++)) in Hr.
  - destruct xs; [done|]. split; [done|simpl; lia].
Qed.

(** The final store of the head. *)
Lemma q_release c sh g q :
  Good c sh g → g_book (g q) = [] →
  let s := sh q in
  Good (set_q c q (set_head (qs c q) (wrap SHORT (s_booked s))))
    (<[q := mkShadow (s_push s) (s_pop s) (s_booked s) (s_booked s)]> sh)
    (<[q := mkGQ (g_lo (g q)) [] (g_avail (g q)) (g_pend (g q)) None]> g).
Proof.
  intros HG Hnil s. pose proof (HG q) as [Hc Hm [W1 W2 W3] Hh Hb Ha Hp Hr Hho].
  unfold s, tail in *. rewrite Hnil in *. simpl in *.
  apply Good_word; [done|]. split; simpl; try done; unfold tail; simpl; lia.
Qed.

(** ** Every step is safe, keeps the invariant and simulates the deques *)

(** The abstract counterpart of a step of [t]. *)
Definition Sim g t (p : Pc A) (e : event A) g' (p' : Pc A) : Prop :=
  sim LIFO N t (λ q, g_avail (g q)) (handf g t p) e (λ q, g_avail (g' q)) (handf g' t p').

Definition StepOK c sh g t ch (p : Pc A) (sn : Seen) : Prop :=
  ∃ c' p' e sh' g',
    code_step c t ch p = Ret (c', p', e) ∧ Good c' sh' g' ∧
    TI sh' g' t p' (observe sh p p' sn) ∧
    (∀ t', t' ≠ t → env t' sh g sh' g') ∧ (∀ q, near (sh q) (sh' q)) ∧
    Sim g t p e g' p'.

Lemma step_local c sh g t ch p p' sn :
  Good c sh g → code_step c t ch p = Ret (c, p', Tau) →
  TI sh g t p' (observe sh p p' sn) → handf g t p' = handf g t p →
  StepOK c sh g t ch p sn.
Proof.
  intros HG E HT Hh. exists c, p', Tau, sh, g. split_and!; [done..|intros; apply env_refl|
    intros; apply near_refl|by apply sim_stutter].
Qed.

(** A step that only touches memory cells and ghosts of queue [q]. *)
Lemma env_mem t q sh g G' :
  upd t q (sh q) (g q) (sh q) G' → ∀ t', t' ≠ t → env t' sh g sh (<[q := G']> g).
Proof.
  intros Hu t' Hne. apply (env_upd t t' q); [done| |by rewrite fn_lookup_insert].
  intros q' Hq. by rewrite fn_lookup_insert_ne.
Qed.

Lemma env_word t q sh g s' G' :
  upd t q (sh q) (g q) s' G' → ∀ t', t' ≠ t → env t' sh g (<[q := s']> sh) (<[q := G']> g).
Proof.
  intros Hu t' Hne. apply (env_upd t t' q); [done| |by rewrite !fn_lookup_insert].
  intros q' Hq. by rewrite !fn_lookup_insert_ne.
Qed.

Lemma near_word q sh s' : near (sh q) s' → ∀ q', near (sh q') (<[q := s']> sh q').
Proof.
  intros Hn q'. destruct (decide (q = q')) as [->|Hne]; [by rewrite fn_lookup_insert|].
  rewrite fn_lookup_insert_ne by done. apply near_refl.
Qed.

Lemma unpack_words Q s :
  words Q s → unpack (pop_count_and_head Q) = (wrap SHORT (s_pop s), wrap SHORT (s_booked s)).
Proof. intros [_ E _]. by rewrite E, unpack_pack_wrap. Qed.

Lemma capacity_mask k Q : st3_cap k → mask Q = k - 1 → capacity Q = k.
Proof.
  intros Hk E. unfold capacity, wrapping_add. rewrite E, Z.sub_add.
  pose proof (st3_cap_pos _ Hk). pose proof (st3_cap_lt _ Hk). apply wrap_small. split; lia.
Qed.

(** The bounds every proof uses. *)
Lemma good_bounds c sh g q :
  Good c sh g →
  0 < cap q ∧ 2 * cap q ≤ 2 ^ SHORT ∧ s_head (sh q) ≤ s_booked (sh q) ≤ tail (sh q) ∧
  tail (sh q) ≤ s_head (sh q) + cap q.
Proof.
  intros HG. destruct (HG q) as [Hc Hm Hw Hh Hb Ha Hp Hr Hho].
  pose proof (st3_cap_pos _ Hc). pose proof (st3_cap_lt _ Hc). lia.
Qed.

Lemma holds_upd g t q G' o : holds g t o → g_holder G' = g_holder (g q) → holds (<[q := G']> g) t o.
Proof.
  intros Hh E q'. destruct (decide (q = q')) as [->|Hne].
  - rewrite fn_lookup_insert, E. apply Hh.
  - rewrite fn_lookup_insert_ne by done. apply Hh.
Qed.

Lemma avail_upd g q G' q' :
  g_avail G' = g_avail (g q) → g_avail (<[q := G']> g q') = g_avail (g q').
Proof.
  intros E. destruct (decide (q = q')) as [->|Hne]; [by rewrite fn_lookup_insert|].
  by rewrite fn_lookup_insert_ne.
Qed.

(** The available items after an update of queue [q]. *)
Lemma avail_set g q G' q' :
  g_avail (<[q := G']> g q') = <[q := g_avail G']> (λ q, g_avail (g q)) q'.
Proof. unfold insert, fn_insert. by case_decide. Qed.

(** [local p']: the step only reads, and continues at [p']. *)
Ltac local p' := apply (step_local _ _ _ _ _ _ p'); [done|simpl|simpl|done].

(** The owner's store of the push count publishes what it has written. *)
Lemma publish_ok c sh g t ch p sn w r :
  (t < N)%nat → Good c sh g → owns g t w None → handf g t p = [] →
  code_step c t ch p = Ret (set_q c t (set_push (qs c t) (wrap SHORT (s_push (sh t) + Z.of_nat (length w)))),
                            Done r, In w) →
  StepOK c sh g t ch p sn.
Proof.
  intros Ht HG [Hpd Hho] Hh E. pose proof (q_publish c sh g t HG) as HG'. simpl in HG'.
  rewrite Hpd in HG'. destruct (good_bounds c sh g t HG) as (Hc & Hc2 & Hhb & Htl).
  pose proof (qi_pend _ _ _ _ _ (HG t)) as Hlen. rewrite Hpd in Hlen.
  eexists _, (Done r), (In w), _, _. split_and!; [exact E|done| | | |].
  - simpl. split; [by rewrite fn_lookup_insert|]. by apply holds_upd.
  - apply env_word. split; simpl; auto; unfold tail; simpl; lia.
  - apply near_word. split; simpl; unfold tail, SHORT in *; lia.
  - apply sim_push; [done| |by rewrite Hh]. intros q. by rewrite avail_set.
Qed.

Lemma push_ok c sh g t ch p sn :
  (t < N)%nat → Good c sh g → TI sh g t p sn →
  match p with Push1 _ | Push2 _ _ | Push3 _ _ _ | Push4 _ _ _ | Push5 _ _ => True | _ => False end →
  StepOK c sh g t ch p sn.
Proof.
  intros Ht HG HT Hp. pose proof (HG t) as HQ. pose proof (qi_words _ _ _ _ _ HQ) as HW.
  destruct (good_bounds c sh g t HG) as (Hc & Hc2 & Hhb & Htl).
  destruct p as [|item|item u|item u tl|item u tl|item u| | | | | | | | | | | | | | | | | | | | | |];
    try done; clear Hp; simpl in HT.
  - local (Push2 item (push_count (qs c t))); [done|]. split; [done|]. by apply w_push.
  - destruct HT as (Ho & ->). local (Push3 item (wrap SHORT (s_push (sh t))) (wrap SHORT (tail (sh t)))); [|done].
    rewrite (unpack_words _ _ HW). simpl. by rewrite wrapping_sub_wrap.
  - destruct HT as (Ho & Hu & ->).
    destruct (decide (mask (qs c t) < wrapping_sub SHORT (wrap SHORT (tail (sh t))) (head (qs c t)))) as [Hf|Hf].
    + local (Done (RPush (Some item))); [|done]. by rewrite bool_decide_eq_true_2 by done.
    + local (Push4 item u (wrap SHORT (tail (sh t)))); [by rewrite bool_decide_eq_false_2 by done|].
      split_and!; [done..|]. rewrite (w_head _ _ HW), wrapping_sub_wrap in Hf.
      rewrite (wrap_between _ _ (cap t)) in Hf by lia.
      rewrite (qi_mask _ _ _ _ _ HQ) in Hf. lia.
  - destruct HT as ([Hpd Hho] & Hu & -> & Hlt).
    destruct (q_write c sh g t item HG) as (buf & E & HG'); [rewrite Hpd; simpl; lia|].
    rewrite Hpd in E, HG'. simpl in E. rewrite Z.add_0_r in E.
    eexists _, (Push5 item u), Tau, sh, _. split_and!; [|done| | | |].
    + simpl. by rewrite E.
    + simpl. split; [|done]. split; [by rewrite fn_lookup_insert|]. by apply holds_upd.
    + apply env_mem. split; simpl; auto; lia.
    + intros q. apply near_refl.
    + apply sim_stutter; [|done]. intros q. by apply avail_upd.
  - destruct HT as (Ho & ->). apply publish_ok with [item] (RPush None); try done.
    simpl. by rewrite wrapping_add_wrap.
Qed.

Lemma extend_ok c sh g t ch p sn :
  (t < N)%nat → Good c sh g → TI sh g t p sn →
  match p with Ext1 _ | Ext2 _ _ | Ext3 _ _ _ | ExtLoop _ _ _ _ _ => True | _ => False end →
  StepOK c sh g t ch p sn.
Proof.
  intros Ht HG HT Hp. pose proof (HG t) as HQ. pose proof (qi_words _ _ _ _ _ HQ) as HW.
  destruct (good_bounds c sh g t HG) as (Hc & Hc2 & Hhb & Htl).
  destruct p as [| | | | | |it|it u|it pc tl|it pc tl mx w| | | | | | | | | | | | | | | | | |];
    try done; clear Hp; simpl in HT.
  - local (Ext2 it (push_count (qs c t))); [done|]. split; [done|]. by apply w_push.
  - destruct HT as (Ho & ->). local (Ext3 it (wrap SHORT (s_pop (sh t))) (wrap SHORT (tail (sh t)))); [|done].
    rewrite (unpack_words _ _ HW). simpl. by rewrite wrapping_sub_wrap.
  - destruct HT as (Ho & -> & ->).
    local (ExtLoop it (wrap SHORT (s_pop (sh t))) (wrap SHORT (tail (sh t)))
             (wrap SHORT (s_head (sh t) + cap t)) []).
    + rewrite (w_head _ _ HW), (capacity_mask _ _ (qi_cap _ _ _ _ _ HQ) (qi_mask _ _ _ _ _ HQ)).
      by rewrite wrapping_add_wrap.
    + split_and!; [done..|by rewrite Z.add_0_r|]. exists (s_head (sh t) + cap t). split_and!; [done|lia..].
  - destruct HT as ([Hpd Hho] & -> & -> & m & -> & Hm1 & Hm2 & Hm3).
    assert (wrapping_add SHORT (wrap SHORT (tail (sh t) + Z.of_nat (length w))) (wrap SHORT (s_pop (sh t)))
      = wrap SHORT (s_push (sh t) + Z.of_nat (length w))) as Est.
    { rewrite wrapping_add_wrap2. f_equal. unfold tail. lia. }
    destruct it as [|x it].
    { apply publish_ok with w RNone; try done. simpl. by rewrite Est. }
    destruct (decide (wrap SHORT (tail (sh t) + Z.of_nat (length w)) = wrap SHORT m)) as [E|Hne].
    { apply publish_ok with w RNone; try done. simpl. rewrite bool_decide_eq_true_2 by done. by rewrite Est. }
    destruct (q_write c sh g t x HG) as (buf & E & HG').
    { rewrite Hpd. assert (tail (sh t) + Z.of_nat (length w) ≠ m) by congruence. lia. }
    rewrite Hpd in E, HG'.
    eexists _, (ExtLoop it _ (wrap SHORT (tail (sh t) + Z.of_nat (length w) + 1)) _ (w ++ [x])), Tau, sh, _.
    split_and!; [|done| | | |].
    + simpl. rewrite bool_decide_eq_false_2 by done. rewrite E. simpl. by rewrite wrapping_add_wrap.
    + simpl. split; [split; [by rewrite fn_lookup_insert|by apply holds_upd]|]. split; [done|]. split.
      * rewrite length_app. simpl. f_equal. lia.
      * exists m. split_and!; [done|lia|lia|]. rewrite length_app. simpl.
        assert (tail (sh t) + Z.of_nat (length w) ≠ m) by congruence. lia.
    + apply env_mem. split; simpl; auto; lia.
    + intros q. apply near_refl.
    + apply sim_stutter; [|done]. intros q. by apply avail_upd.
Qed.

Lemma pop_ok c sh g t ch p sn :
  (t < N)%nat → Good c sh g → TI sh g t p sn →
  match p with Pop1 | Pop2 _ | Pop3 _ _ _ | Pop4 _ => True | _ => False end →
  StepOK c sh g t ch p sn.
Proof.
  intros Ht HG HT Hp. pose proof (HG t) as HQ. pose proof (qi_words _ _ _ _ _ HQ) as HW.
  destruct (good_bounds c sh g t HG) as (Hc & Hc2 & Hhb & Htl).
  assert (pop_view sh t (pop_count_and_head (qs c t))) as Hpv.
  { exists (s_booked (sh t)). split_and!; [by apply w_pch|lia..]. }
  destruct p as [| | | | | | | | | | |pch|pch tl np|tl| | | | | | | | | | | | | |];
    try done; clear Hp; simpl in HT.
  - by local (Pop2 (A := A) (pop_count_and_head (qs c t))).
  - destruct HT as (Ho & b0 & -> & Hb & Hcap).
    local (Pop3 (A := A) (pack (wrap SHORT (s_pop (sh t))) (wrap SHORT b0)) (wrap SHORT (tail (sh t)))
      (wrap SHORT (s_pop (sh t) + 1))).
    + rewrite unpack_pack_wrap. simpl. by rewrite (w_push _ _ HW), wrapping_sub_wrap, wrapping_add_wrap.
    + split_and!; [done..| |done|done]. by exists b0.
  - destruct HT as (Ho & (b0 & -> & Hb & Hcap) & -> & ->). simpl.
    destruct (decide (wrap SHORT (tail (sh t)) = wrap SHORT b0)) as [Heq|Hneq].
    { apply wrap_inj in Heq; [|lia].
      exists c, (Done (RPop None)), (Nothing t), sh, g. split_and!; [|done..| | |].
      - simpl. rewrite unpack_pack_wrap. simpl. by rewrite bool_decide_eq_true_2 by (by rewrite Heq).
      - intros. apply env_refl.
      - intros. apply near_refl.
      - apply sim_nothing; try done.
        pose proof (qi_avail _ _ _ _ _ HQ). apply length_zero_iff_nil. lia. }
    destruct (bool_decide (pop_count_and_head (qs c t) = pack (wrap SHORT (s_pop (sh t))) (wrap SHORT b0)) &&
      negb (match ch with Go _ s => s | _ => false end)) eqn:Ecas.
    + apply andb_true_iff in Ecas as [Ecas Hsp]. apply bool_decide_eq_true in Ecas as Ew.
      rewrite (w_pch _ _ HW) in Ew. apply pack_inj in Ew as [_ Ew].
      apply wrap_inj in Ew; [|lia]. subst b0. pose proof (qi_avail _ _ _ _ _ HQ) as Hav.
      destruct (nonempty_last (g_avail (g t))) as (l & x & Hl).
      { intros Hnil. rewrite Hnil in Hav. simpl in Hav. destruct Hneq. f_equal. lia. }
      destruct Ho as [Hpd Hho]. pose proof (q_pop c sh g t l x HG Hpd Hl) as HG'. simpl in HG'.
      eexists _, (Pop4 (wrap SHORT (tail (sh t)))), Tau, _, _. split_and!; [|exact HG'| | | |].
      * simpl. rewrite unpack_pack_wrap. simpl. by rewrite bool_decide_eq_false_2, Ecas, Hsp by done.
      * simpl. exists x. rewrite !fn_lookup_insert. split.
        -- split; [by rewrite fn_lookup_insert|]. by apply holds_upd.
        -- unfold tail. simpl. f_equal. lia.
      * apply env_word. split; simpl; auto; unfold tail; simpl; lia.
      * apply near_word. split; simpl; unfold SHORT; lia.
      * apply sim_pop with x l; [done..| |simpl; by rewrite fn_lookup_insert].
        intros q. by rewrite avail_set.
    + local (Pop3 (A := A) (pop_count_and_head (qs c t)) (wrap SHORT (tail (sh t)))
        (wrap SHORT (s_pop (sh t) + 1))); [|by split_and!].
      rewrite unpack_pack_wrap. simpl. by rewrite bool_decide_eq_false_2, Ecas by done.
  - destruct HT as (x & [Hpd Hho] & ->).
    destruct (q_unpend c sh g t [] x HG Hpd) as (buf & E & HG'). simpl in E. rewrite Z.add_0_r in E.
    eexists _, (Done (RPop (Some x))), (Out x), sh, _. split_and!; [|done| | | |].
    + simpl. rewrite wrapping_sub_wrap_l, Z.add_simpl_r, E. done.
    + simpl. split; [by rewrite fn_lookup_insert|]. by apply holds_upd.
    + apply env_mem. split; simpl; auto; lia.
    + intros q. apply near_refl.
    + apply sim_return with [] []; [done|by simpl; rewrite Hpd| |done].
      intros q. by apply avail_upd.
Qed.

Lemma dest_step_ok c sh g t ch p sn :
  (t < N)%nat → Good c sh g → TI sh g t p sn →
  match p with
  | Likely1 _ _ | Likely2 _ _ _ | Dest1 _ _ | Dest2 _ _ _ | Dest3 _ _ _ _ => True | _ => False end →
  StepOK c sh g t ch p sn.
Proof.
  intros Ht HG HT Hp. pose proof (HG t) as HQ. pose proof (qi_words _ _ _ _ _ HQ) as HW.
  destruct (good_bounds c sh g t HG) as (Hc & Hc2 & Hhb & Htl).
  destruct p as [| | | | | | | | | | | | | |k x|k x u|k x|k x u|k x u tl| | | | | | | | |];
    try done; clear Hp; simpl in HT.
  - by local (Likely2 (A := A) k x (push_count (qs c x))).
  - destruct (unpack (pop_count_and_head (qs c x))) as [pp hh] eqn:Eu.
    destruct (decide (wrapping_sub SHORT u pp = hh)).
    + local (Done (A := A) (steal_error k Empty)); [|by apply HT].
      rewrite Eu. by rewrite bool_decide_eq_true_2 by done.
    + local (Dest1 (A := A) k x); [|done]. rewrite Eu. by rewrite bool_decide_eq_false_2 by done.
  - local (Dest2 (A := A) k x (push_count (qs c t))); [done|].
    destruct HT as (? & ? & ?). split_and!; try done. by apply w_push.
  - destruct HT as (? & ? & Ho & ->).
    local (Dest3 (A := A) k x (wrap SHORT (s_push (sh t))) (wrap SHORT (tail (sh t)))); [|done].
    rewrite (unpack_words _ _ HW). simpl. by rewrite wrapping_sub_wrap.
  - destruct HT as (Hk & Hx & Ho & -> & ->).
    set (free := cap t - (tail (sh t) - s_head (sh t))).
    set (mx := match k with BStealAndPop => free + 1 | _ => free end).
    local (Book1 (A := A) (mkBooking k x (wrap SHORT (s_push (sh t))) (wrap SHORT (tail (sh t))) mx)).
    + rewrite (w_head _ _ HW), (capacity_mask _ _ (qi_cap _ _ _ _ _ HQ) (qi_mask _ _ _ _ _ HQ)).
      rewrite wrapping_sub_wrap, (wrap_between _ _ (cap t)) by lia.
      rewrite checked_sub_ret by lia. simpl. rewrite bool_decide_eq_true_2 by lia. simpl.
      unfold mx, free. destruct k; [done| |done]. by rewrite checked_add_ret by (unfold SHORT in *; lia).
    + split; [|done]. unfold booking_ok, dest_ok, mx, free, SHORT in *. simpl. destruct k; [| |done];
        split_and!; try done; lia.
Qed.

(** The staleness bound at a booking's compare-exchange. *)
Definition fresh_at sh (p : Pc A) (sn : Seen) : Prop :=
  match p with
  | Book4 b _ _ _ =>
      s_pop (sh (src b)) - seen_pop sn < 2 ^ SHORT ∧
      s_booked (sh (src b)) - seen_booked sn < 2 ^ SHORT ∧
      s_booked (sh (src b)) - seen_head sn < 2 ^ SHORT
  | _ => True
  end.

(** A successful compare-exchange acts on a current view: nothing was popped
    or booked since the loads, and no other steal is under way. *)
Lemma book_current c sh g b pch sn :
  Good c sh g → read_view sh b pch sn →
  wrap SHORT (seen_head sn) = wrap SHORT (seen_booked sn) →
  seen_head sn ≤ s_head (sh (src b)) → pop_count_and_head (qs c (src b)) = pch →
  fresh_at sh (Book4 b pch 0 0) sn →
  s_pop (sh (src b)) = seen_pop sn ∧ s_booked (sh (src b)) = seen_booked sn ∧
  s_head (sh (src b)) = s_booked (sh (src b)).
Proof.
  intros HG (-> & Hp & Hb) Hw Hh Ecas (F1 & F2 & F3).
  destruct (good_bounds c sh g (src b) HG) as (Hc & Hc2 & Hhb & Htl).
  rewrite (w_pch _ _ (qi_words _ _ _ _ _ (HG (src b)))) in Ecas. apply pack_inj in Ecas as [E1 E2].
  apply wrap_inj in E1; [|lia]. apply wrap_inj in E2; [|lia].
  rewrite <- E2 in Hw. apply wrap_inj in Hw; [|lia]. lia.
Qed.

Lemma holds_book g t q G' :
  holds g t None → g_holder G' = Some t → holds (<[q := G']> g) t (Some q).
Proof.
  intros Hh E q'. destruct (decide (q = q')) as [->|Hne].
  - rewrite fn_lookup_insert, E. done.
  - rewrite fn_lookup_insert_ne by done. rewrite (Hh q'). split; [done|congruence].
Qed.

Lemma holds_release g t q G' :
  holds g t (Some q) → g_holder G' = None → holds (<[q := G']> g) t None.
Proof.
  intros Hh E q'. destruct (decide (q = q')) as [->|Hne].
  - rewrite fn_lookup_insert, E. done.
  - rewrite fn_lookup_insert_ne by done. rewrite (Hh q'). split; [congruence|done].
Qed.

Lemma dest_le sh t b n n' : n ≤ n' → dest_ok sh t b n' → dest_ok sh t b n.
Proof. intros Hle (H1 & H2 & H3). split_and!; [done..|lia]. Qed.

Lemma dest_ok_upd sh t b n q s' :
  s_push s' = s_push (sh q) → s_pop s' = s_pop (sh q) → s_head (sh q) ≤ s_head s' →
  dest_ok sh t b n → dest_ok (<[q := s']> sh) t b n.
Proof.
  intros E1 E2 E3 (H1 & H2 & H3). unfold dest_ok, tail in *.
  destruct (decide (q = t)) as [->|Hne].
  - rewrite fn_lookup_insert, E1, E2. split_and!; [done..|lia].
  - by rewrite fn_lookup_insert_ne.
Qed.

(** The caller of a successful booking goes on to the transfer, or to the
    drain, with the booked items in hand. *)
Lemma booked_ok sh' g' t b sn xs B count :
  booking_ok sh' t b → owns g' t [] (Some (src b)) → g_book (g' (src b)) = xs →
  g_lo (g' (src b)) = B → s_booked (sh' (src b)) = B + count →
  1 ≤ count ≤ max_count b → Z.of_nat (length xs) = count →
  ∃ p', booked b (wrap SHORT B) (wrap SHORT (B + count)) count = Ret p' ∧
    TI sh' g' t p' sn ∧ handf g' t p' = xs.
Proof.
  intros (Hsrc & Hmax & Hdest) [Hpd Hho] Hbk Hlo Es Hcnt Hxs.
  unfold booked. destruct (bk b) eqn:Ebk.
  - rewrite bool_decide_eq_true_2 by lia. simpl. eexists. split; [done|]. simpl.
    rewrite Es, Hbk, Hlo, Hpd, Ebk, Z.sub_0_r. unfold extra. rewrite Ebk.
    split; [|done]. split_and!; try done; try lia; [|by exists []].
    apply (dest_le _ _ _ _ (max_count b)); [lia|done].
  - destruct Hdest as [Hm1 Hdest].
    rewrite !checked_sub_ret by lia. simpl. rewrite bool_decide_eq_true_2 by lia. simpl.
    eexists. split; [done|]. simpl. rewrite Es, Hbk, Hlo, Hpd, Ebk, Z.sub_0_r. unfold extra. rewrite Ebk.
    split; [|done]. split_and!; try done; try lia; [|by exists []].
    apply (dest_le _ _ _ _ (max_count b - 1)); [lia|done].
  - eexists. split; [done|]. simpl. rewrite Es, Hbk, Hlo. split; [|done]. split_and!; try done.
    intros E. rewrite E in Hxs. simpl in Hxs. lia.
Qed.

Lemma book_cas c sh g t b sn count :
  (t < N)%nat → Good c sh g → booking_ok sh t b → owns g t [] None →
  let q := src b in
  let s := sh q in
  s_head s = s_booked s → 1 ≤ count ≤ max_count b → count ≤ tail s - s_booked s →
  ∃ p' sh' g',
    booked b (wrap SHORT (s_booked s)) (wrap SHORT (s_booked s + count)) count = Ret p' ∧
    Good (set_q c q (set_pch (qs c q) (pack (wrap SHORT (s_pop s)) (wrap SHORT (s_booked s + count)))))
      sh' g' ∧
    TI sh' g' t p' sn ∧ (∀ t', t' ≠ t → env t' sh g sh' g') ∧ (∀ q', near (sh q') (sh' q')) ∧
    ∀ p, handf g t p = [] → Sim g t p Tau g' p'.
Proof.
  intros Ht HG (Hsrc & Hmax & Hdest) [Hpd Hho] q s Heq Hcnt Hav. pose proof (HG q) as HQ.
  destruct (good_bounds c sh g q HG) as (Hc & Hc2 & Hhb & Htl).
  pose proof (qi_avail _ _ _ _ _ HQ) as Hlen. pose proof (qi_book _ _ _ _ _ HQ) as Hbk.
  pose proof (qi_head _ _ _ _ _ HQ) as Hlo.
  assert (g_holder (g q) = None) as Hnone by (by apply (qi_holder _ _ _ _ _ HQ)).
  subst q s. set (xs := take (Z.to_nat count) (g_avail (g (src b)))).
  set (l := drop (Z.to_nat count) (g_avail (g (src b)))).
  assert (g_avail (g (src b)) = xs ++ l) as Hxl by (symmetry; apply take_drop).
  assert (Z.of_nat (length xs) = count) as Hxs by (unfold xs; rewrite length_take; lia).
  assert (xs ≠ []) as Hne by (intros E; rewrite E in Hxs; simpl in Hxs; lia).
  pose proof (q_book c sh g (src b) t xs l HG Heq Hxl Hne) as HG'. simpl in HG'. rewrite Hxs in HG'.
  set (sh' := <[src b := _]> sh) in HG'. set (g' := <[src b := _]> g) in HG'.
  destruct (booked_ok sh' g' t b sn xs (s_booked (sh (src b))) count) as (p' & Ep & HT & Hh); try done.
  - split; [done|]. split; [done|].
    destruct (bk b); [by apply dest_ok_upd| |done]. destruct Hdest. split; [done|by apply dest_ok_upd].
  - split; [|by apply holds_book]. unfold g', insert, fn_insert. case_decide as E; [by rewrite E|done].
  - unfold g'. by rewrite fn_lookup_insert.
  - unfold g'. rewrite fn_lookup_insert. simpl. lia.
  - unfold sh'. by rewrite fn_lookup_insert.
  - exists p', sh', g'. split_and!; try done.
    + apply env_word. split; simpl; auto; try (unfold tail; simpl; lia); intros t' Hne'; rewrite Hnone.
      * split; [done|congruence].
      * done.
    + apply near_word. split; simpl; unfold SHORT in *; lia.
    + intros p Hp. apply sim_claim with (src b) xs l; try done. intros q'. unfold g'. by rewrite avail_set.
Qed.

(** The loop body up to the compare-exchange. *)
Lemma book_count_ok c sh g t ch b pch oh sn :
  choice_ok N ch → Good c sh g → TI sh g t (Book3 b pch oh) sn →
  StepOK c sh g t ch (Book3 b pch oh) sn.
Proof.
  intros Hch HG (Hbk & Ho & Hrv & -> & Hh). pose proof (qi_words _ _ _ _ _ (HG (src b))) as HW.
  destruct (good_bounds c sh g (src b) HG) as (Hc & Hc2 & Hhb & Htl).
  pose proof Hrv as (-> & Hp & Hb). pose proof Hbk as (_ & Hmax & _).
  set (pch := pack _ _) in *. set (n := match ch with Go n _ => n | _ => 0 end).
  assert (0 ≤ n) as Hn by (unfold n; destruct ch; simpl in *; lia).
  assert (unpack pch = (wrap SHORT (seen_pop sn), wrap SHORT (seen_booked sn))) as Eu
    by apply unpack_pack_wrap.
  set (items := wrapping_sub SHORT (wrapping_sub SHORT (push_count (qs c (src b))) (wrap SHORT (seen_pop sn)))
                  (wrap SHORT (seen_booked sn))).
  assert (is_word SHORT items) as Hit by (apply wrap_word; unfold SHORT; lia).
  set (count := Z.min (wrap SHORT (Z.min n (max_count b))) items).
  assert (wrap SHORT (Z.min n (max_count b)) = Z.min n (max_count b)) as Emin
    by (apply wrap_small; split; lia).
  destruct (decide (wrap SHORT (seen_head sn) = wrap SHORT (seen_booked sn))) as [Hw|Hw].
  2: { local (Done (A := A) (steal_error (bk b) Busy)); [|done].
       rewrite Eu. by rewrite bool_decide_eq_true_2 by done. }
  destruct (decide (items = 0)) as [Hi|Hi].
  { local (Done (A := A) (steal_error (bk b) Empty)); [|done]. rewrite Eu.
    rewrite bool_decide_eq_false_2 by (by intros []). fold items. by rewrite bool_decide_eq_true_2 by done. }
  destruct (decide (count = 0)) as [H0|H0].
  { local (Done (A := A) (steal_error (bk b) Empty)); [|done]. rewrite Eu.
    rewrite bool_decide_eq_false_2 by (by intros []). fold items n count.
    rewrite bool_decide_eq_false_2 by done. by rewrite bool_decide_eq_true_2 by done. }
  local (Book4 (A := A) b pch (wrap SHORT (seen_head sn)) count).
  - rewrite Eu. rewrite bool_decide_eq_false_2 by (by intros []). fold items n count.
    by rewrite !bool_decide_eq_false_2 by done.
  - destruct Hit. split_and!; try done; try (unfold count in *; lia).
    intros E1 E2. enough (items = tail (sh (src b)) - s_booked (sh (src b))) by (unfold count; lia).
    unfold items. rewrite (w_push _ _ HW), !wrapping_sub_wrap, <- E1, <- E2.
    fold (tail (sh (src b))). by rewrite (wrap_between _ _ (cap (src b))) by lia.
Qed.

Lemma booked_observe sh b b' x y z h nh count (p' : Pc A) sn :
  booked b h nh count = Ret p' → observe sh (Book4 b' x y z) p' sn = sn.
Proof.
  unfold booked. intros E. destruct (bk b).
  - destruct_ret E. by injection E as <-.
  - destruct_ret E. destruct_ret E. destruct_ret E. by injection E as <-.
  - by injection E as <-.
Qed.

Lemma book_ok c sh g t ch p sn :
  (t < N)%nat → choice_ok N ch → Good c sh g → TI sh g t p sn → fresh_at sh p sn →
  match p with Book1 _ | Book2 _ _ | Book3 _ _ _ | Book4 _ _ _ _ => True | _ => False end →
  StepOK c sh g t ch p sn.
Proof.
  intros Ht Hch HG HT Hf Hp.
  destruct p as [| | | | | | | | | | | | | | | | | | |b|b pch|b pch oh|b pch oh count| | | | |];
    try done; clear Hp; simpl in HT; pose proof (qi_words _ _ _ _ _ (HG (src b))) as HW.
  - local (Book2 (A := A) b (pop_count_and_head (qs c (src b)))); [done|].
    destruct HT. split_and!; try done. split_and!; simpl; [by apply w_pch|lia..].
  - local (Book3 (A := A) b pch (head (qs c (src b)))); [done|].
    destruct HT as (? & ? & ?). split_and!; try done. by apply w_head.
  - by apply book_count_ok.
  - destruct HT as (Hbk & Ho & Hrv & Hoh & Hw & Hh & Hcnt & Hav).
    destruct (bool_decide (pop_count_and_head (qs c (src b)) = pch) &&
      negb (match ch with Go _ s => s | _ => false end)) eqn:Ecas.
    + apply andb_true_iff in Ecas as [Ecas Hsp]. apply bool_decide_eq_true in Ecas as Ew.
      destruct (book_current c sh g b pch sn) as (E1 & E2 & E3); try done.
      destruct (book_cas c sh g t b sn count) as (p' & sh' & g' & Ep & HG' & HT' & Henv & Hnear & Hsim);
        try done; [by apply Hav|].
      eexists _, p', Tau, sh', g'. split_and!; [|exact HG'| |done|done|by apply Hsim].
      * simpl. rewrite <- Ew, (unpack_words _ _ HW), wrapping_add_wrap.
        rewrite bool_decide_eq_true_2 by done. rewrite Hsp. simpl. by rewrite Ep.
      * rewrite (booked_observe _ _ _ _ _ _ _ _ _ _ _ Ep). done.
    + local (Book3 (A := A) b (pop_count_and_head (qs c (src b))) oh).
      * destruct (unpack pch) as [pp hh]. by rewrite Ecas.
      * split_and!; try done. split_and!; simpl; [by apply w_pch|lia..].
Qed.

(** Changing what is pending on [t] changes nothing else. *)
Lemma with_pend_upd g t w q :
  g_lo (<[t := with_pend (g t) w]> g q) = g_lo (g q) ∧
  g_book (<[t := with_pend (g t) w]> g q) = g_book (g q) ∧
  g_avail (<[t := with_pend (g t) w]> g q) = g_avail (g q) ∧
  g_holder (<[t := with_pend (g t) w]> g q) = g_holder (g q).
Proof. unfold insert, fn_insert. case_decide as E; [by rewrite E|done]. Qed.

(** The first booked item of a held queue leaves it. *)
Lemma unbook_env t q sh g x l :
  holds g t (Some q) → g_book (g q) = x :: l →
  let g' := <[q := mkGQ (g_lo (g q) + 1) l (g_avail (g q)) (g_pend (g q)) (g_holder (g q))]> g in
  (∀ t', t' ≠ t → env t' sh g sh g') ∧ owns g' t (g_pend (g t)) (Some q) ∧
  g_lo (g' q) = g_lo (g q) + 1 ∧ g_book (g' q) = l ∧ ∀ q', g_avail (g' q') = g_avail (g q').
Proof.
  intros Hh Hb g'. assert (g_holder (g q) = Some t) as Ht by (by apply Hh). split_and!.
  - apply env_mem. split; simpl; auto; try lia. intros t' Hne E. congruence.
  - split; [|by apply holds_upd]. unfold g', insert, fn_insert. case_decide as E; [by rewrite E|done].
  - unfold g'. by rewrite fn_lookup_insert.
  - unfold g'. by rewrite fn_lookup_insert.
  - intros q'. by apply avail_upd.
Qed.

Lemma move_item_ok c sh g t ch b oh nh off n sn :
  (t < N)%nat → Good c sh g → TI sh g t (Move b oh nh off n) sn → off < n →
  StepOK c sh g t ch (Move b oh nh off n) sn.
Proof.
  intros Ht HG (Hbk & Hsrc & Hoff & Hd & -> & -> & Hlen & w & [Hpd Hho] & Hw) Hlt.
  assert (0 ≤ extra b) by (unfold extra; destruct (bk b); lia).
  destruct (g_book (g (src b))) as [|x l] eqn:Eb; [simpl in Hlen; lia|].
  destruct (q_unbook c sh g (src b) x l HG Eb) as (buf & Er & HG1).
  destruct (unbook_env t (src b) sh g x l Hho Eb) as (Henv1 & [Hpd1 Hho1] & Elo & Ebk & Eav).
  set (g1 := <[src b := _]> g) in *. simpl in Hpd1. fold g1 in Hpd1. rewrite Hpd in Hpd1.
  pose proof Hd as (_ & Edt & Hroom).
  destruct (q_write _ sh g1 t x HG1) as (buf2 & Ew & HG2); [rewrite Hpd1; lia|].
  rewrite Hpd1 in Ew, HG2. simpl in Ew, HG2.
  destruct (with_pend_upd g1 t (w ++ [x]) (src b)) as (F1 & F2 & _ & _).
  eexists _, (Move b _ _ (off + 1) n), Tau, sh, _. split_and!; [|exact HG2| | | |].
  - simpl. rewrite bool_decide_eq_true_2 by done. rewrite wrapping_add_wrap, Z.sub_add, Er. simpl.
    rewrite Edt, wrapping_add_wrap, <- Hw, Ew. by rewrite Hw.
  - simpl. rewrite F1, F2, Elo, Ebk. simpl in Hlen. split_and!; try done; try lia.
    + f_equal. lia.
    + exists (w ++ [x]). split; [|rewrite length_app; simpl; lia].
      split; [by rewrite fn_lookup_insert|]. by apply holds_upd.
  - intros t' Hne. eapply env_trans; [by apply Henv1|]. apply (env_mem t); [|done].
    split; simpl; auto; lia.
  - intros q. apply near_refl.
  - apply sim_stutter.
    + intros q. rewrite <- Eav. by apply avail_upd.
    + simpl. rewrite F2, Ebk, fn_lookup_insert, Hpd, Eb. simpl. by rewrite <- (assoc_L (++)).
Qed.

Lemma read_last_ok c sh g t ch b oh nh n sn :
  (t < N)%nat → Good c sh g → TI sh g t (ReadLast b oh nh n) sn →
  StepOK c sh g t ch (ReadLast b oh nh n) sn.
Proof.
  intros Ht HG (Hsrc & Hn & Hd & -> & -> & Hlen & w & [Hpd Hho] & Hw).
  destruct (g_book (g (src b))) as [|x [|y l]] eqn:Eb; [done| |done].
  destruct (q_unbook c sh g (src b) x [] HG Eb) as (buf & Er & HG1).
  destruct (unbook_env t (src b) sh g x [] Hho Eb) as (Henv & Ho & Elo & Ebk & Eav).
  eexists _, (Publish b _ n (RStealAndPop (inr (x, n)))), (Out x), sh, _.
  split_and!; [|exact HG1| |exact Henv|intros; apply near_refl|].
  - simpl. by rewrite wrapping_add_wrap, Z.sub_add, Er.
  - destruct Hd as (Hd & _ & _). simpl. split_and!; try done. exists w. rewrite Hpd in Ho. done.
  - apply sim_return with w []; [done|simpl; by rewrite Hpd, Eb|done|].
    destruct Ho as [Ho _]. simpl. rewrite Ho, Hpd. by rewrite app_nil_r.
Qed.

Lemma publish_dest_ok c sh g t ch b nh n r sn :
  (t < N)%nat → Good c sh g → TI sh g t (Publish b nh n r) sn →
  StepOK c sh g t ch (Publish b nh n r) sn.
Proof.
  intros Ht HG (Hn & Hd & -> & Eb & w & [Hpd Hho] & Hw).
  pose proof (q_publish c sh g t HG) as HG'. simpl in HG'. rewrite Hpd, Hw in HG'.
  destruct (good_bounds c sh g t HG) as (Hc & Hc2 & Hhb & Htl).
  pose proof (qi_pend _ _ _ _ _ (HG t)) as Hlen. rewrite Hpd in Hlen.
  eexists _, (Release b _ r), Tau, _, _. split_and!; [|exact HG'| | | |].
  - simpl. by rewrite Hd, wrapping_add_wrap.
  - simpl. split_and!.
    + f_equal. unfold insert, fn_insert. case_decide as E; [by rewrite E|done].
    + unfold insert, fn_insert. case_decide as E; [by rewrite E|done].
    + split; [by rewrite fn_lookup_insert|by apply holds_upd].
  - apply env_word. split; simpl; auto; unfold tail; simpl; lia.
  - apply near_word. split; simpl; unfold tail, SHORT in *; lia.
  - apply sim_deliver; [done| |done]. intros q. simpl. rewrite avail_set, Hpd. done.
Qed.

Lemma release_ok c sh g t ch b nh r sn :
  (t < N)%nat → Good c sh g → TI sh g t (Release b nh r) sn →
  StepOK c sh g t ch (Release b nh r) sn.
Proof.
  intros Ht HG (-> & Eb & [Hpd Hho]). pose proof (q_release c sh g (src b) HG Eb) as HG'. simpl in HG'.
  destruct (good_bounds c sh g (src b) HG) as (Hc & Hc2 & Hhb & Htl).
  assert (g_holder (g (src b)) = Some t) as Hh by (by apply Hho).
  eexists _, (Done r), Tau, _, _. split_and!; [done|exact HG'| | | |].
  - simpl. split; [|by eapply holds_release]. unfold insert, fn_insert.
    case_decide as E; [by rewrite E|done].
  - apply env_word. split; simpl; auto; try (unfold tail; simpl; lia); intros t' Hne;
      first [congruence|split; [congruence|done]].
  - apply near_word. split; simpl; unfold SHORT in *; lia.
  - apply sim_stutter; [|done]. intros q. by apply avail_upd.
Qed.

Lemma drain_next_ok c sh g t ch b cur nh sn :
  (t < N)%nat → Good c sh g → TI sh g t (DrainNext b cur nh) sn →
  StepOK c sh g t ch (DrainNext b cur nh) sn.
Proof.
  intros Ht HG (-> & -> & Hne & [Hpd Hho]).
  destruct (good_bounds c sh g (src b) HG) as (Hc & Hc2 & Hhb & Htl).
  pose proof (qi_book _ _ _ _ _ (HG (src b))) as Hlo.
  pose proof (qi_head _ _ _ _ _ (HG (src b))) as Hhd.
  destruct (g_book (g (src b))) as [|x l] eqn:Eb; [done|]. simpl in Hlo.
  destruct (q_unbook c sh g (src b) x l HG Eb) as (buf & Er & HG1).
  destruct (unbook_env t (src b) sh g x l Hho Eb) as (Henv & Ho & Elo & Ebk & Eav).
  assert (wrap SHORT (g_lo (g (src b))) ≠ wrap SHORT (s_booked (sh (src b)))) as Hcur.
  { intros E. apply wrap_inj in E; lia. }
  assert (wrap SHORT (g_lo (g (src b)) + 1) = wrap SHORT (s_booked (sh (src b))) ↔ l = []) as Hend.
  { split; [|intros ->; f_equal; simpl in Hlo; lia]. intros E. apply wrap_inj in E; [|lia].
    apply length_zero_iff_nil. lia. }
  eexists _, (if bool_decide (l = []) then Release b _ (RDrain None) else DrainNext b _ _), (Out x), sh, _.
  split_and!; [|exact HG1| |exact Henv|intros; apply near_refl|].
  - simpl. rewrite bool_decide_eq_false_2 by done. rewrite Er. simpl. rewrite wrapping_add_wrap.
    f_equal. f_equal. f_equal. by rewrite (bool_decide_ext _ _ Hend).
  - rewrite Hpd in Ho. case_bool_decide as Hl; simpl.
    + by rewrite Ebk.
    + by rewrite Ebk, Elo.
  - apply sim_return with [] l; [done|simpl; by rewrite Eb|done|].
    case_bool_decide as Hl; simpl; [by rewrite Hl|done].
Qed.

Lemma move_ok c sh g t ch p sn :
  (t < N)%nat → Good c sh g → TI sh g t p sn →
  match p with
  | Move _ _ _ _ _ | ReadLast _ _ _ _ | Publish _ _ _ _ | Release _ _ _ | DrainNext _ _ _ => True
  | _ => False end →
  StepOK c sh g t ch p sn.
Proof.
  intros Ht HG HT Hp.
  destruct p as [| | | | | | | | | | | | | | | | | | | | | | |b oh nh off n|b oh nh n|b nh n r|b nh r|b cur nh];
    try done; clear Hp.
  - destruct (decide (off < n)) as [Hlt|Hge]; [by apply move_item_ok|].
    destruct HT as (Hbk & Hsrc & Hoff & Hd & -> & -> & Hlen & w & Ho & Hw).
    assert (off = n) as -> by lia. unfold extra in Hlen. destruct (bk b) eqn:Ek; [| |done].
    + assert (g_book (g (src b)) = []) as Eb by (apply length_zero_iff_nil; lia).
      apply (step_local _ _ _ _ _ _ (Publish b (wrap SHORT (s_booked (sh (src b)))) n (RSteal (inr n))));
        simpl; [done| | |].
      * rewrite bool_decide_eq_false_2 by lia. by rewrite Ek.
      * destruct Hd as (? & _). split_and!; try done; [lia|]. by exists w.
      * by rewrite Eb, app_nil_r.
    + apply (step_local _ _ _ _ _ _ (ReadLast b (wrap SHORT (g_lo (g (src b)) - n)) (wrap SHORT (s_booked (sh (src b)))) n));
        simpl; [done| | |done].
      * rewrite bool_decide_eq_false_2 by lia. by rewrite Ek.
      * split_and!; try done; try lia. by exists w.
  - by apply read_last_ok.
  - by apply publish_dest_ok.
  - by apply release_ok.
  - by apply drain_next_ok.
Qed.

Lemma entry_ok sh g t (o : op A) sn :
  choice_ok N (Start o) → owns g t [] None → TI sh g t (entry o) sn ∧ handf g t (entry o) = [].
Proof.
  intros Hc Ho. by destruct o.
Qed.

Lemma step_ok c sh g t ch p sn :
  (t < N)%nat → choice_ok N ch → Good c sh g → TI sh g t p sn → fresh_at sh p sn →
  StepOK c sh g t ch p sn.
Proof.
  intros Ht Hch HG HT Hf.
  destruct p; try (by apply push_ok); try (by apply extend_ok); try (by apply pop_ok);
    try (by apply dest_step_ok); try (by apply book_ok); try (by apply move_ok).
  destruct ch as [o|n sp].
  - destruct (entry_ok sh g t o sn Hch HT). by apply (step_local _ _ _ _ _ _ (entry o)).
  - by apply (step_local _ _ _ _ _ _ (Done r)).
Qed.

(** ** Whole runs *)

Definition Inv (σ : State A) (a : Deques A) : Prop :=
  ∃ g, Good (shared σ) (shadow σ) g ∧
    (∀ t, TI (shadow σ) g t (thread σ t) (seen σ t)) ∧
    (∀ q, avail a q = g_avail (g q)) ∧
    (∀ t, hand a t = handf g t (thread σ t)).

Lemma env_ext t sh sh' g : (∀ q, sh' q = sh q) → env t sh g sh' g.
Proof. intros E. split; intros; rewrite ?E; auto; done || lia. Qed.

Lemma hand_env t sh g sh' g' p sn :
  env t sh g sh' g' → TI sh g t p sn → handf g' t p = handf g t p.
Proof.
  intros He HT. pose proof (e_pend _ _ _ _ _ He) as Ep.
  assert (∀ q w, owns g t w (Some q) → g_book (g' q) = g_book (g q)) as Hb.
  { intros q w [_ Hh]. apply (e_held _ _ _ _ _ He). by apply Hh. }
  destruct p; simpl in *; try done.
  - destruct HT as (_ & _ & _ & _ & _ & _ & _ & w & Ho & _). by rewrite Ep, (Hb _ _ Ho).
  - destruct HT as (_ & _ & _ & _ & _ & _ & w & Ho & _). by rewrite Ep, (Hb _ _ Ho).
  - destruct HT as (_ & _ & _ & Ho). by rewrite (Hb _ _ Ho).
Qed.

Lemma inv_step σ a e σ' : Inv σ a → step N σ e σ' → ∃ a', dstep LIFO N a e a' ∧ Inv σ' a'.
Proof.
  intros (g & HG & HT & Hav & Hha) Hs. destruct Hs as [σ t ch c' p' e Ht Hch Hf Ec].
  assert (fresh_at (shadow σ) (thread σ t) (seen σ t)) as Hfa
    by (unfold fresh in Hf; by destruct (thread σ t)).
  destruct (step_ok _ _ _ t ch _ _ Ht Hch HG (HT t) Hfa)
    as (c1 & p1 & e1 & sh' & g' & Ec1 & HG' & HT' & Henv & Hnear & Hsim).
  rewrite Ec in Ec1. simplify_eq.
  assert (∀ q, advance (shadow σ q) (qs c1 q) = sh' q) as Esh.
  { intros q. apply advance_words; [by apply (qi_words _ _ _ _ _ (HG' q))|done]. }
  destruct (Hsim a Hav (Hha t)) as (a' & Hd & Hav' & Hht & Hho). exists a'. split; [done|].
  exists g'. simpl. split_and!; [|intros t'|done|intros t'].
  - intros q. simpl. rewrite Esh. apply HG'.
  - apply (TI_env t' sh' g'); [by apply env_ext|]. destruct (decide (t' = t)) as [->|Hne].
    + by rewrite !fn_lookup_insert.
    + rewrite !fn_lookup_insert_ne by done. eapply TI_env; [by apply Henv|done].
  - destruct (decide (t' = t)) as [->|Hne]; [by rewrite fn_lookup_insert|].
    rewrite fn_lookup_insert_ne, Hho, Hha by done. symmetry. eapply hand_env; [by apply Henv|done].
Qed.

Lemma inv_steps σ a es σ' :
  Inv σ a → steps N σ es σ' → ∃ a', dsteps LIFO N a es a' ∧ Inv σ' a'.
Proof.
  intros HI Hs. induction Hs as [σ|σ es σ' e σ'' Hs IH Hst]; [exists a; split; [constructor|done]|].
  destruct (IH HI) as (a' & Hd & HI'). destruct (inv_step _ _ _ _ HI' Hst) as (a'' & Hd' & HI'').
  exists a''. split; [by econstructor|done].
Qed.

End inv.

(** ** Creation and destruction *)

Lemma new_spec {A} (min_capacity : Z) :
  0 ≤ min_capacity ≤ MAX_CAPACITY →
  ∃ k, new (A := A) min_capacity = Ret (mkQueue 0 0 0 (k - 1), allocate_buffer k) ∧
    st3_cap k ∧ min_capacity ≤ k.
Proof.
  intros H. unfold new, MAX_CAPACITY in *. rewrite bool_decide_eq_true_2 by lia. simpl.
  destruct (new_capacity min_capacity H) as (Hp & Hle & Hk). pose proof (pow2_pos _ Hp).
  exists (next_power_of_two 64 min_capacity). rewrite wrap_small by (unfold is_word, SHORT in *; lia).
  rewrite checked_sub_ret by lia. simpl. done.
Qed.

Lemma inv_init {A} N (mins : nat → Z) Q (m : Mem A) :
  (∀ q, 0 ≤ mins q ≤ MAX_CAPACITY) → created mins Q m →
  ∃ cap, Inv N cap (init Q m) no_deques.
Proof.
  intros Hm Hc. exists (λ q, mask (Q q) + 1), (λ _, mkGQ 0 [] [] [] None). simpl. split_and!; try done.
  intros q. simpl. destruct (new_spec (A := A) (mins q) (Hm q)) as (k & E & Hk & _).
  rewrite (Hc q) in E. injection E as EQ Em. rewrite EQ, Em. simpl. rewrite Z.sub_add.
  pose proof (st3_cap_pos _ Hk). split; simpl; try done; unfold tail; simpl; try lia.
  by apply ring_init.
Qed.

Lemma drop_loop_spec {A} cap (m : Mem A) q lo off l items :
  st3_cap cap → RingRep cap (m q) (lo + off) (Some <$> l ++ items) →
  drop_loop m q (cap - 1) (wrap SHORT lo) off (length l) = Ret l.
Proof.
  intros Hc. revert m off. induction l as [|x l IH]; intros m off Hr; [done|]. simpl in Hr |- *.
  destruct (read_at_front cap m q (lo + off) Hc x _ Hr) as (buf & E & Hr').
  rewrite wrapping_add_wrap, E. simpl. rewrite IH; [done|].
  rewrite fn_lookup_insert. by rewrite Z.add_assoc.
Qed.

(** A queue with no operation under way drops what it has available. *)
Lemma drop_queue_spec {A} cap (c : Shared A) sh g q :
  Good cap c sh g → g_pend (g q) = [] → g_holder (g q) = None →
  drop_queue c q = Ret (g_avail (g q)).
Proof.
  intros HG Hpd Hho. destruct (HG q) as [Hc Hm Hw Hh Hb Ha Hp Hr Hhol].
  destruct (good_bounds cap c sh g q HG) as (Hc1 & Hc2 & Hhb & Htl).
  apply Hhol in Hho. assert (g_book (g q) = []) as Hbk by (apply length_zero_iff_nil; lia).
  rewrite Hpd, Hbk, app_nil_r in Hr. rewrite Hbk in Hb. simpl in Hb, Hr.
  unfold drop_queue, tail_of. rewrite (unpack_words _ _ Hw), (w_push _ _ Hw), (w_head _ _ Hw). simpl.
  rewrite !wrapping_sub_wrap, Hm, (wrap_between _ _ (cap q)) by (fold (tail (sh q)); lia).
  fold (tail (sh q)). replace (Z.to_nat (tail (sh q) - s_head (sh q))) with (length (g_avail (g q))) by lia.
  apply drop_loop_spec with []; [done|]. rewrite app_nil_r, Z.add_0_r.
  by replace (s_head (sh q)) with (g_lo (g q)) by lia.
Qed.

(** ** Executable schedules *)

Definition freshb {A} (σ : State A) (t : nat) : bool :=
  match thread σ t with
  | Book4 b _ _ _ =>
      let s := shadow σ (src b) in
      bool_decide (s_pop s - seen_pop (seen σ t) < 2 ^ SHORT ∧
      s_booked s - seen_booked (seen σ t) < 2 ^ SHORT ∧
      s_booked s - seen_head (seen σ t) < 2 ^ SHORT)
  | _ => true
  end.

Definition choice_okb {A} (N : nat) (ch : choice A) : bool :=
  match ch with
  | Start (OpSteal s) | Start (OpStealAndPop s) | Start (OpDrain s) => bool_decide (s < N)%nat
  | Start _ => true
  | Go n _ => bool_decide (0 ≤ n)
  end.

(** Run a schedule: which thread moves, and what the environment chooses. *)
Fixpoint run {A} (N : nat) (sched : list (nat * choice A)) (σ : State A) (es : list (event A)) :
    outcome (State A * list (event A)) :=
  match sched with
  | [] => mret (σ, es)
  | (t, ch) :: sched =>
      guard_panic (bool_decide (t < N)%nat && choice_okb N ch && freshb σ t);;
      '(c', p', e) ← code_step (shared σ) t ch (thread σ t);
      run N sched (mkState c' (λ q, advance (shadow σ q) (qs c' q)) (<[t := p']> (thread σ))
                     (<[t := observe (shadow σ) (thread σ t) p' (seen σ t)]> (seen σ))) (es ++ [e])
  end.

Lemma run_steps {A} N sched (σ0 σ σ' : State A) es es' :
  steps N σ0 es σ → run N sched σ es = Ret (σ', es') → steps N σ0 es' σ'.
Proof.
  revert σ es. induction sched as [|[t ch] sched IH]; intros σ es Hs E; simpl in E; [by injection E as <- <-|].
  destruct (bool_decide (t < N)%nat && choice_okb N ch && freshb σ t) eqn:Eg; [|done]. simpl in E.
  apply andb_true_iff in Eg as [Eg Ef]. apply andb_true_iff in Eg as [Et Ec].
  apply bool_decide_eq_true in Et. destruct_ret E. destruct v as [[c' p'] e].
  eapply IH; [|exact E]. eapply steps_snoc; [done|]. eapply step_intro; try done.
  - destruct ch as [[]|]; simpl in *; try done; by apply bool_decide_eq_true in Ec.
  - unfold fresh, freshb in *. destruct (thread σ t); try done. by apply bool_decide_eq_true in Ef.
Qed.

Definition go {A} (t n : nat) : list (nat * choice A) := replicate n (t, Go 2 false).

(** Two queues of capacity 4. *)
Definition demo_queue : Queue := mkQueue 0 0 0 3.
Definition demo_state : State Z := init (λ _, demo_queue) (λ _, allocate_buffer 4).

(** Worker 0 pushes 7 and 8; while it pushes 9, worker 1 steals two items and
    both pop. *)
Definition demo_sched : list (nat * choice Z) :=
  (0%nat, Start (OpPush 7)) :: go 0 5 ++ (0%nat, Start (OpPush 8)) :: go 0 5 ++
  (0%nat, Start (OpPush 9)) :: (1%nat, Start (OpSteal 0)) :: go 1 8 ++ go 0 3 ++ go 1 3 ++ go 0 2 ++
  go 1 5 ++ (1%nat, Start OpPop) :: go 1 4.

Definition quiescent {A} (σ : State A) : Prop := ∀ t, ∃ r, thread σ t = Done r.

Lemma quiescent_drop {A} N cap (σ : State A) a q :
  Inv N cap σ a → quiescent σ → drop_queue (shared σ) q = Ret (avail a q) ∧ hand a q = [].
Proof.
  intros (g & HG & HT & Hav & Hha) Hq. assert (∀ t, owns g t [] None) as Ho.
  { intros t. destruct (Hq t) as [r E]. specialize (HT t). by rewrite E in HT. }
  split.
  - rewrite Hav. eapply drop_queue_spec; [done|by apply Ho|].
    destruct (g_holder (g q)) as [t|] eqn:E; [|done]. apply (Ho t) in E. done.
  - rewrite Hha. by destruct (Hq q) as [r ->].
Qed.

(** C4: the LIFO queue refines the abstract work-stealing deques.  Every
    interleaving of pushes, pops, batch steals and drains on [N] freshly
    created queues, in which no stealer's view is older than a full cycle of the
    32-bit counters at its compare-exchange, is matched event for event by a
    run of the atomic deques: owners push and pop at the back, stealers claim
    from the front, a pop reports an empty queue only when it is empty.  When
    all operations have completed, dropping a queue yields exactly the items
    the abstract deque holds. *)
Theorem lifo_refines_deque {A} (N : nat) (mins : nat → Z) (Q : nat → Queue) (m : Mem A)
  (es : list (event A)) (σ : State A)
  (Hm : ∀ q, 0 ≤ mins q ≤ MAX_CAPACITY) (Hc : created mins Q m)
  (Hs : steps N (init Q m) es σ) :
  ∃ a, dsteps LIFO N no_deques es a ∧
    (quiescent σ → ∀ q, drop_queue (shared σ) q = Ret (avail a q)).
Proof.
  destruct (inv_init N mins Q m Hm Hc) as (cap & HI).
  destruct (inv_steps N cap _ _ _ _ HI Hs) as (a & Hd & HI'). exists a. split; [done|].
  intros Hq q. by eapply quiescent_drop.
Qed.

Lemma demo_created : created (λ _, 4) (λ _, demo_queue) (λ _, allocate_buffer (A := Z) 4).
Proof. intros q. vm_compute. reflexivity. Qed.

Lemma demo_mins (q : nat) : 0 ≤ (λ _ : nat, 4) q ≤ MAX_CAPACITY.
Proof. unfold MAX_CAPACITY, SHORT. lia. Qed.

Definition demo_final : State Z * list (event Z) :=
  match run 2 demo_sched demo_state [] with Ret r => r | _ => (demo_state, []) end.

Lemma demo_steps : steps 2 demo_state demo_final.2 demo_final.1.
Proof.
  unfold demo_final. destruct (run 2 demo_sched demo_state []) as [[σ es]| | |] eqn:E;
    [|apply steps_nil..]. eapply run_steps; [apply steps_nil|exact E].
Qed.

Lemma lifo_refines_deque_witness :
  ev_outs demo_final.2 = [8] ∧ ∃ a, dsteps LIFO 2 no_deques demo_final.2 a.
Proof.
  split; [vm_compute; reflexivity|].
  destruct (lifo_refines_deque 2 (λ _, 4) (λ _, demo_queue) (λ _, allocate_buffer 4)
    demo_final.2 demo_final.1 demo_mins demo_created demo_steps) as (a & Ha & _).
  exists a. exact Ha.
Defined.

(** No interleaving panics or has undefined behaviour: whatever thread moves
    next and whatever the environment chooses, the step returns.  In particular
    no slot is read before it is written or after its item moved out, no index
    is out of range, and no checked subtraction or debug assertion fails. *)
Theorem lifo_steps_safe {A} (N : nat) (mins : nat → Z) (Q : nat → Queue) (m : Mem A)
  (es : list (event A)) (σ : State A) (t : nat) (ch : choice A)
  (Hm : ∀ q, 0 ≤ mins q ≤ MAX_CAPACITY) (Hc : created mins Q m)
  (Hs : steps N (init Q m) es σ)
  (Ht : (t < N)%nat) (Hch : choice_ok N ch) (Hf : fresh σ t) :
  ∃ c' p' e, code_step (shared σ) t ch (thread σ t) = Ret (c', p', e).
Proof.
  destruct (inv_init N mins Q m Hm Hc) as (cap & HI).
  destruct (inv_steps N cap _ _ _ _ HI Hs) as (a & Hd & g & HG & HT & _).
  assert (fresh_at (shadow σ) (thread σ t) (seen σ t)) as Hfa
    by (unfold fresh in Hf; by destruct (thread σ t)).
  destruct (step_ok N cap _ _ _ t ch _ _ Ht Hch HG (HT t) Hfa) as (c' & p' & e & _ & _ & E & _).
  eauto.
Qed.

Lemma lifo_steps_safe_witness :
  ∃ c' p' e, code_step (shared demo_final.1) 1 (Start (OpDrain 1)) (thread demo_final.1 1) = Ret (c', p', e).
Proof.
  apply (lifo_steps_safe 2 (λ _, 4) (λ _, demo_queue) (λ _, allocate_buffer 4)
    demo_final.2 demo_final.1 1 (Start (OpDrain 1)) demo_mins demo_created demo_steps).
  - lia.
  - simpl. lia.
  - vm_compute. exact I.
Defined.

(** Work conservation.  Once all operations have completed, the items
    accepted by pushes and extends are, up to order, the items returned by pops,
    steals and drains together with the items left in the queues: nothing is
    lost, duplicated or invented by concurrent stealing. *)
Theorem lifo_conserves_items {A} (N : nat) (mins : nat → Z) (Q : nat → Queue) (m : Mem A)
  (es : list (event A)) (σ : State A)
  (Hm : ∀ q, 0 ≤ mins q ≤ MAX_CAPACITY) (Hc : created mins Q m)
  (Hs : steps N (init Q m) es σ) (Hq : quiescent σ) :
  ∃ left : nat → list A, (∀ q, drop_queue (shared σ) q = Ret (left q)) ∧
    ev_ins es ≡ₚ ev_outs es ++ gather left N.
Proof.
  destruct (inv_init N mins Q m Hm Hc) as (cap & HI).
  destruct (inv_steps N cap _ _ _ _ HI Hs) as (a & Hd & HI'). exists (avail a). split.
  { intros q. by eapply quiescent_drop. }
  pose proof (dsteps_conserved LIFO N _ _ _ Hd (no_deques_conserved N)) as Hcons.
  destruct (dsteps_logs LIFO N _ _ _ Hd) as [Hi Ho]. unfold conserved in Hcons.
  rewrite Hi, Ho in Hcons. simpl in Hcons. rewrite Hcons. f_equiv.
  rewrite (gather_ext (hand a) (λ _, [])), gather_nil; [done|].
  intros t _. by eapply quiescent_drop.
Qed.

Lemma lifo_conserves_items_witness :
  ∃ left : nat → list Z, left 0%nat = [9] ∧ left 1%nat = [7] ∧
    ev_ins demo_final.2 ≡ₚ ev_outs demo_final.2 ++ gather left 2.
Proof.
  assert (quiescent demo_final.1) as Hq.
  { intros [|[|t]]; vm_compute; eexists; reflexivity. }
  destruct (lifo_conserves_items 2 (λ _, 4) (λ _, demo_queue) (λ _, allocate_buffer 4)
    demo_final.2 demo_final.1 demo_mins demo_created demo_steps Hq) as (left & Hl & Hp).
  exists left. split; [|split; [|exact Hp]].
  - pose proof (Hl 0%nat) as H. vm_compute in H. by injection H as <-.
  - pose proof (Hl 1%nat) as H. vm_compute in H. by injection H as <-.
Defined.
