(* ===== verification/St3Fifo.v ===== *)
(** * St3Fifo: the FIFO work-stealing queue, one atomic access at a time

    Model of [crates/youpipe-st3/src/fifo.rs], in the style of [St3Lifo]: the
    operations of [Worker] and [Stealer] as program points, interleaved at every
    access to an atomic.  Here both ends that consume, the owner's pop and the
    stealers' bookings, move the worker head; the stealer head follows when a
    steal completes.  A pop may overtake a steal under way, which leaves a gap
    between the items the stealer is still moving and the available ones.

    A booking's compare-exchange is the only one exposed to reuse of a counter
    value ([fresh]): pops and completions compute the new word from the word
    they replace. *)

From S2P Require Import Prelude St3Ring Deque.
Local Open Scope Z_scope.

(** [Queue]; [heads] packs the worker head and the stealer head. *)
Record Queue : Type := mkQueue { heads : Z; tail : Z; mask : Z }.

Definition set_heads (Q : Queue) (v : Z) : Queue := mkQueue v (tail Q) (mask Q).
Definition set_tail (Q : Queue) (v : Z) : Queue := mkQueue (heads Q) v (mask Q).

Definition capacity (Q : Queue) : Z := wrapping_add SHORT (mask Q) 1.

(** [Worker::new]: the queue and its buffer. *)
Definition new {A} (min_capacity : Z) : outcome (Queue * list (option A)) :=
  guard_panic (bool_decide (min_capacity ≤ MAX_CAPACITY));;
  let capacity := next_power_of_two 64 min_capacity in
  let buffer := allocate_buffer capacity in
  mask ← checked_sub (wrap SHORT capacity) 1;
  mret (mkQueue 0 0 mask, buffer).

Definition spare_capacity (Q : Queue) : outcome Z :=
  let len := wrapping_sub SHORT (tail Q) (unpack (heads Q)).2 in
  checked_sub (capacity Q) len.

Definition is_empty (Q : Queue) : bool := bool_decide (tail Q = (unpack (heads Q)).1).

(** ** Operations as program points *)

Inductive op (A : Type) : Type :=
  | OpPush (item : A)
  | OpExtend (iter : list A)
  | OpPop
  | OpSteal (src : nat)
  | OpStealAndPop (src : nat)
  | OpDrain (src : nat).
Arguments OpPush {A} item.
Arguments OpExtend {A} iter.
Arguments OpPop {A}.
Arguments OpSteal {A} src.
Arguments OpStealAndPop {A} src.
Arguments OpDrain {A} src.

Inductive result (A : Type) : Type :=
  | RNone
  | RPush (r : option A)   (* [Some item]: the queue was full *)
  | RPop (r : option A)
  | RSteal (r : StealError + Z)
  | RStealAndPop (r : StealError + A * Z)
  | RDrain (r : option StealError).
Arguments RNone {A}.
Arguments RPush {A} r.
Arguments RPop {A} r.
Arguments RSteal {A} r.
Arguments RStealAndPop {A} r.
Arguments RDrain {A} r.

(** Which caller of [book_items] is running. *)
Inductive booker : Type := BSteal | BStealAndPop | BDrain.

(** The locals of [steal], [steal_and_pop] and [drain] at the booking. *)
Record Booking : Type := mkBooking { bk : booker; src : nat; dest_tail : Z; max_count : Z }.

Inductive Pc (A : Type) : Type :=
  | Done (r : result A)
  | Push1 (item : A)
  | Push2 (item : A) (stealer_head : Z)
  | Push3 (item : A) (tail : Z)
  | Push4 (item : A) (tail : Z)
  | Ext1 (iter : list A)
  | Ext2 (iter : list A) (stealer_head : Z)
  | ExtLoop (iter : list A) (tail max_tail : Z) (written : list A)
  | Pop1
  | Pop2 (heads : Z)
  | Pop3 (heads tail : Z)
  | Pop4 (prev_worker_head : Z)
  | Likely1 (k : booker) (s : nat)
  | Likely2 (k : booker) (s : nat) (worker_head : Z)
  | Dest1 (k : booker) (s : nat)
  | Dest2 (k : booker) (s : nat) (dest_tail : Z)
  | Book1 (b : Booking)
  | Book2 (b : Booking) (heads : Z)
  | Book3 (b : Booking) (heads count : Z)
  | Move (b : Booking) (stealer_head offset transfer_count : Z)
  | ReadLast (b : Booking) (stealer_head transfer_count : Z)
  | Publish (b : Booking) (stealer_head transfer_count : Z) (r : result A)
  | Finish1 (b : Booking) (stealer_head : Z) (r : result A)
  | Finish2 (b : Booking) (stealer_head heads : Z) (r : result A)
  | DrainNext (b : Booking) (head from_head to_head : Z).
Arguments Done {A} r.
Arguments Push1 {A} item.
Arguments Push2 {A} item stealer_head.
Arguments Push3 {A} item tail.
Arguments Push4 {A} item tail.
Arguments Ext1 {A} iter.
Arguments Ext2 {A} iter stealer_head.
Arguments ExtLoop {A} iter tail max_tail written.
Arguments Pop1 {A}.
Arguments Pop2 {A} heads.
Arguments Pop3 {A} heads tail.
Arguments Pop4 {A} prev_worker_head.
Arguments Likely1 {A} k s.
Arguments Likely2 {A} k s worker_head.
Arguments Dest1 {A} k s.
Arguments Dest2 {A} k s dest_tail.
Arguments Book1 {A} b.
Arguments Book2 {A} b heads.
Arguments Book3 {A} b heads count.
Arguments Move {A} b stealer_head offset transfer_count.
Arguments ReadLast {A} b stealer_head transfer_count.
Arguments Publish {A} b stealer_head transfer_count r.
Arguments Finish1 {A} b stealer_head r.
Arguments Finish2 {A} b stealer_head heads r.
Arguments DrainNext {A} b head from_head to_head.

(** What the environment chooses at a step. *)
Inductive choice (A : Type) : Type :=
  | Start (o : op A)
  | Go (count : Z) (spurious : bool).
Arguments Start {A} o.
Arguments Go {A} count spurious.

Definition entry {A} (o : op A) : Pc A :=
  match o with
  | OpPush x => Push1 x
  | OpExtend xs => Ext1 xs
  | OpPop => Pop1
  | OpSteal s => Likely1 BSteal s
  | OpStealAndPop s => Likely1 BStealAndPop s
  | OpDrain s => Book1 (mkBooking BDrain s 0 (2 ^ SHORT - 1))
  end.

Definition steal_error {A} (k : booker) (e : StealError) : result A :=
  match k with
  | BSteal => RSteal (inl e)
  | BStealAndPop => RStealAndPop (inl e)
  | BDrain => RDrain (Some e)
  end.

Record Shared (A : Type) : Type := mkShared { qs : nat → Queue; mem : Mem A }.
Arguments mkShared {A} _ _.
Arguments qs {A} _ _.
Arguments mem {A} _ _.

Section steps.
Context {A : Type}.
Implicit Types (c : Shared A) (t : nat).

Definition set_q c (q : nat) (Q : Queue) : Shared A := mkShared (<[q := Q]> (qs c)) (mem c).

(** [push]. *)
Definition push_step c t (p : Pc A) : outcome (Shared A * Pc A * event A) :=
  let Q := qs c t in
  match p with
  | Push1 item => mret (c, Push2 item (unpack (heads Q)).2, Tau)
  | Push2 item stealer_head =>
      if bool_decide (mask Q < wrapping_sub SHORT (tail Q) stealer_head)
      then mret (c, Done (RPush (Some item)), Tau)
      else mret (c, Push3 item (tail Q), Tau)
  | Push3 item tl =>
      m ← write_at (mem c) t (mask Q) tl item;
      mret (mkShared (qs c) m, Push4 item tl, Tau)
  | Push4 item tl =>
      mret (set_q c t (set_tail Q (wrapping_add SHORT tl 1)), Done (RPush None), In [item])
  | _ => mret (c, p, Tau)
  end.

(** [extend]. *)
Definition extend_step c t (p : Pc A) : outcome (Shared A * Pc A * event A) :=
  let Q := qs c t in
  match p with
  | Ext1 iter => mret (c, Ext2 iter (unpack (heads Q)).2, Tau)
  | Ext2 iter stealer_head =>
      mret (c, ExtLoop iter (tail Q) (wrapping_add SHORT stealer_head (capacity Q)) [], Tau)
  | ExtLoop iter tl max_tail written =>
      match iter with
      | item :: iter =>
          if bool_decide (tl = max_tail)
          then mret (set_q c t (set_tail Q tl), Done RNone, In written)
          else
            m ← write_at (mem c) t (mask Q) tl item;
            mret (mkShared (qs c) m,
                  ExtLoop iter (wrapping_add SHORT tl 1) max_tail (written ++ [item]), Tau)
      | [] => mret (set_q c t (set_tail Q tl), Done RNone, In written)
      end
  | _ => mret (c, p, Tau)
  end.

(** [pop]: the worker head advances; so does the stealer head when no steal is
    under way. *)
Definition pop_heads (worker_head stealer_head : Z) : Z :=
  pack (wrapping_add SHORT worker_head 1)
       (wrapping_add SHORT stealer_head (if bool_decide (stealer_head = worker_head) then 1 else 0)).

Definition pop_step c t (spurious : bool) (p : Pc A) : outcome (Shared A * Pc A * event A) :=
  let Q := qs c t in
  match p with
  | Pop1 => mret (c, Pop2 (heads Q), Tau)
  | Pop2 hd => mret (c, Pop3 hd (tail Q), Tau)
  | Pop3 hd tl =>
      let '(worker_head, stealer_head) := unpack hd in
      if bool_decide (tl = worker_head) then mret (c, Done (RPop None), Nothing t)
      else if bool_decide (heads Q = hd) && negb spurious
      then mret (set_q c t (set_heads Q (pop_heads worker_head stealer_head)), Pop4 worker_head, Tau)
      else mret (c, Pop3 (heads Q) tl, Tau)
  | Pop4 prev =>
      '(x, m) ← read_at (mem c) t (mask Q) prev;
      mret (mkShared (qs c) m, Done (RPop (Some x)), Out x)
  | _ => mret (c, p, Tau)
  end.

(** [is_likely_empty]. *)
Definition likely_step c (p : Pc A) : outcome (Shared A * Pc A * event A) :=
  match p with
  | Likely1 k s => mret (c, Likely2 k s (unpack (heads (qs c s))).1, Tau)
  | Likely2 k s worker_head =>
      if bool_decide (tail (qs c s) = worker_head)
      then mret (c, Done (steal_error k Empty), Tau)
      else mret (c, Dest1 k s, Tau)
  | _ => mret (c, p, Tau)
  end.

(** The free capacity of the destination. *)
Definition dest_step c t (p : Pc A) : outcome (Shared A * Pc A * event A) :=
  let D := qs c t in
  match p with
  | Dest1 k s => mret (c, Dest2 k s (tail D), Tau)
  | Dest2 k s dtail =>
      let dest_stealer_head := (unpack (heads D)).2 in
      free ← checked_sub (capacity D) (wrapping_sub SHORT dtail dest_stealer_head);
      guard_panic (bool_decide (free ≤ capacity D));;
      max ← (match k with BStealAndPop => checked_add SHORT free 1 | _ => mret free end);
      mret (c, Book1 (mkBooking k s dtail max), Tau)
  | _ => mret (c, p, Tau)
  end.

(** What the caller of [book_items] does with the booking. *)
Definition booked {B} (b : Booking) (stealer_head count : Z) : outcome (Pc B) :=
  match bk b with
  | BSteal =>
      guard_panic (bool_decide (count ≤ max_count b));;
      mret (Move b stealer_head 0 count)
  | BStealAndPop =>
      transfer_count ← checked_sub count 1;
      free ← checked_sub (max_count b) 1;
      guard_panic (bool_decide (transfer_count ≤ free));;
      mret (Move b stealer_head 0 transfer_count)
  | BDrain => mret (DrainNext b stealer_head stealer_head (wrapping_add SHORT stealer_head count))
  end.

(** [book_items]. *)
Definition book_step c (n : Z) (spurious : bool) (p : Pc A) : outcome (Shared A * Pc A * event A) :=
  match p with
  | Book1 b => mret (c, Book2 b (heads (qs c (src b))), Tau)
  | Book2 b hd =>
      let '(worker_head, stealer_head) := unpack hd in
      if bool_decide (stealer_head ≠ worker_head) then mret (c, Done (steal_error (bk b) Busy), Tau)
      else
        let item_count := wrapping_sub SHORT (tail (qs c (src b))) worker_head in
        if bool_decide (item_count = 0) then mret (c, Done (steal_error (bk b) Empty), Tau)
        else
          let count := Z.min (wrap SHORT (Z.min n (max_count b))) item_count in
          if bool_decide (count = 0) then mret (c, Done (steal_error (bk b) Empty), Tau)
          else mret (c, Book3 b hd count, Tau)
  | Book3 b hd count =>
      let '(worker_head, stealer_head) := unpack hd in
      let Q := qs c (src b) in
      if bool_decide (heads Q = hd) && negb spurious
      then
        p' ← booked b stealer_head count;
        mret (set_q c (src b) (set_heads Q (pack (wrapping_add SHORT worker_head count) stealer_head)),
              p', Tau)
      else mret (c, Book2 b (heads Q), Tau)
  | _ => mret (c, p, Tau)
  end.

(** The transfer of [steal] and [steal_and_pop], item by item. *)
Definition transfer_step c t (p : Pc A) : outcome (Shared A * Pc A * event A) :=
  match p with
  | Move b stealer_head offset n =>
      if bool_decide (offset < n) then
        '(x, m1) ← read_at (mem c) (src b) (mask (qs c (src b))) (wrapping_add SHORT stealer_head offset);
        m2 ← write_at m1 t (mask (qs c t)) (wrapping_add SHORT (dest_tail b) offset) x;
        mret (mkShared (qs c) m2, Move b stealer_head (offset + 1) n, Tau)
      else
        match bk b with
        | BSteal => mret (c, Publish b stealer_head n (RSteal (inr n)), Tau)
        | _ => mret (c, ReadLast b stealer_head n, Tau)
        end
  | _ => mret (c, p, Tau)
  end.

(** [steal_and_pop]: the last booked item is returned directly. *)
Definition read_last_step c (p : Pc A) : outcome (Shared A * Pc A * event A) :=
  match p with
  | ReadLast b stealer_head n =>
      '(x, m) ← read_at (mem c) (src b) (mask (qs c (src b))) (wrapping_add SHORT stealer_head n);
      mret (mkShared (qs c) m, Publish b stealer_head n (RStealAndPop (inr (x, n))), Out x)
  | _ => mret (c, p, Tau)
  end.

(** The store of the destination's tail, then the loop that moves the source's
    stealer head up to its worker head. *)
Definition finish_step c t (spurious : bool) (p : Pc A) : outcome (Shared A * Pc A * event A) :=
  match p with
  | Publish b stealer_head n r =>
      mret (set_q c t (set_tail (qs c t) (wrapping_add SHORT (dest_tail b) n)),
            Finish1 b stealer_head r, Tau)
  | Finish1 b stealer_head r => mret (c, Finish2 b stealer_head (heads (qs c (src b))) r, Tau)
  | Finish2 b stealer_head hd r =>
      let '(worker_head, sh) := unpack hd in
      guard_panic (bool_decide (stealer_head = sh));;
      let Q := qs c (src b) in
      if bool_decide (heads Q = hd) && negb spurious
      then mret (set_q c (src b) (set_heads Q (pack worker_head worker_head)), Done r, Tau)
      else mret (c, Finish2 b stealer_head (heads Q) r, Tau)
  | _ => mret (c, p, Tau)
  end.

(** [Drain::next]. *)
Definition drain_next_step c (p : Pc A) : outcome (Shared A * Pc A * event A) :=
  match p with
  | DrainNext b head from_head to_head =>
      if bool_decide (head = to_head) then mret (c, Done (RDrain None), Tau)
      else
        '(x, m) ← read_at (mem c) (src b) (mask (qs c (src b))) head;
        let head' := wrapping_add SHORT head 1 in
        mret (mkShared (qs c) m,
              (if bool_decide (head' = to_head) then Finish1 b from_head (RDrain None)
               else DrainNext b head' from_head to_head), Out x)
  | _ => mret (c, p, Tau)
  end.

Definition code_step c t (ch : choice A) (p : Pc A) : outcome (Shared A * Pc A * event A) :=
  let n := match ch with Go n _ => n | _ => 0 end in
  let spurious := match ch with Go _ s => s | _ => false end in
  match p with
  | Done r => match ch with
              | Start o => mret (c, entry o, Tau)
              | _ => mret (c, p, Tau)
              end
  | Push1 _ | Push2 _ _ | Push3 _ _ | Push4 _ _ => push_step c t p
  | Ext1 _ | Ext2 _ _ | ExtLoop _ _ _ _ => extend_step c t p
  | Pop1 | Pop2 _ | Pop3 _ _ | Pop4 _ => pop_step c t spurious p
  | Likely1 _ _ | Likely2 _ _ _ => likely_step c p
  | Dest1 _ _ | Dest2 _ _ _ => dest_step c t p
  | Book1 _ | Book2 _ _ | Book3 _ _ _ => book_step c n spurious p
  | Move _ _ _ _ => transfer_step c t p
  | ReadLast _ _ _ => read_last_step c p
  | Publish _ _ _ _ | Finish1 _ _ _ | Finish2 _ _ _ _ => finish_step c t spurious p
  | DrainNext _ _ _ _ => drain_next_step c p
  end.

End steps.

(** [Queue::drop]: the items the queue still holds. *)
Fixpoint drop_loop {A} (m : Mem A) (q : nat) (mask head offset : Z) (n : nat) : outcome (list A) :=
  match n with
  | O => mret []
  | S n =>
      '(x, m') ← read_at m q mask (wrapping_add SHORT head offset);
      l ← drop_loop m' q mask head (offset + 1) n;
      mret (x :: l)
  end.

Definition drop_queue {A} (c : Shared A) (q : nat) : outcome (list A) :=
  let Q := qs c q in
  let worker_head := (unpack (heads Q)).1 in
  let count := wrapping_sub SHORT (tail Q) worker_head in
  drop_loop (mem c) q (mask Q) worker_head 0 (Z.to_nat count).

(** ** The interleaved system *)

(** Unwrapped counters: worker head, stealer head, tail. *)
Record Shadow : Type := mkShadow { s_worker : Z; s_stealer : Z; s_tail : Z }.

Definition advance (s : Shadow) (Q : Queue) : Shadow :=
  let '(w, st) := unpack (heads Q) in
  mkShadow (adv (s_worker s) w) (adv (s_stealer s) st) (adv (s_tail s) (tail Q)).

(** The worker head a booking thread has last read. *)
Definition observe {A} (sh : nat → Shadow) (p p' : Pc A) (sn : Z) : Z :=
  match p, p' with
  | Book1 b, _ => s_worker (sh (src b))
  | Book3 b _ _, Book2 _ _ => s_worker (sh (src b))
  | _, _ => sn
  end.

Record State (A : Type) : Type := mkState {
  shared : Shared A;
  shadow : nat → Shadow;
  thread : nat → Pc A;
  seen : nat → Z;
}.
Arguments mkState {A} _ _ _ _.
Arguments shared {A} _.
Arguments shadow {A} _ _.
Arguments thread {A} _ _.
Arguments seen {A} _ _.

(** A booking whose compare-exchange is next must not be older than a full
    cycle of the 32-bit worker head.  The code does not check this: a thread
    suspended between its load and its compare-exchange while [2 ^ 32] items
    pass through the queue could succeed on the recurring word (ABA).  The
    steps of the model leave that one case out. *)
Definition fresh_at {A} (sh : nat → Shadow) (p : Pc A) (sn : Z) : Prop :=
  match p with
  | Book3 b _ _ => s_worker (sh (src b)) - sn < 2 ^ SHORT
  | _ => True
  end.

#[export] Instance fresh_at_dec {A} sh (p : Pc A) sn : Decision (fresh_at sh p sn).
Proof. destruct p; simpl; apply _. Defined.

Definition choice_ok {A} (N : nat) (ch : choice A) : Prop :=
  match ch with
  | Start (OpSteal s) | Start (OpStealAndPop s) | Start (OpDrain s) => (s < N)%nat
  | Start _ => True
  | Go n _ => 0 ≤ n
  end.

#[export] Instance choice_ok_dec {A} N (ch : choice A) : Decision (choice_ok N ch).
Proof. destruct ch as [[]|]; simpl; apply _. Defined.

(** One step of thread [t]. *)
Inductive step {A} (N : nat) : State A → event A → State A → Prop :=
  | step_intro σ t ch c' p' e :
      (t < N)%nat → choice_ok N ch → fresh_at (shadow σ) (thread σ t) (seen σ t) →
      code_step (shared σ) t ch (thread σ t) = Ret (c', p', e) →
      step N σ e (mkState c' (λ q, advance (shadow σ q) (qs c' q))
                    (<[t := p']> (thread σ))
                    (<[t := observe (shadow σ) (thread σ t) p' (seen σ t)]> (seen σ))).

Inductive steps {A} (N : nat) : State A → list (event A) → State A → Prop :=
  | steps_nil σ : steps N σ [] σ
  | steps_snoc σ es σ' e σ'' : steps N σ es σ' → step N σ' e σ'' → steps N σ (es ++ [e]) σ''.

(** Freshly created queues, idle threads. *)
Definition init {A} (Q : nat → Queue) (m : Mem A) : State A :=
  mkState (mkShared Q m) (λ _, mkShadow 0 0 0) (λ _, Done RNone) (λ _, 0).

Definition created {A} (min_capacity : nat → Z) (Q : nat → Queue) (m : Mem A) : Prop :=
  ∀ q, new (min_capacity q) = Ret (Q q, m q).

Definition quiescent {A} (σ : State A) : Prop := ∀ t, ∃ r, thread σ t = Done r.

(** Run a schedule: which thread moves, and what the environment chooses. *)
Fixpoint run {A} (N : nat) (sched : list (nat * choice A)) (σ : State A) (es : list (event A)) :
    outcome (State A * list (event A)) :=
  match sched with
  | [] => mret (σ, es)
  | (t, ch) :: sched =>
      guard_panic (bool_decide ((t < N)%nat ∧ choice_ok N ch ∧
                                fresh_at (shadow σ) (thread σ t) (seen σ t)));;
      '(c', p', e) ← code_step (shared σ) t ch (thread σ t);
      run N sched (mkState c' (λ q, advance (shadow σ q) (qs c' q)) (<[t := p']> (thread σ))
                     (<[t := observe (shadow σ) (thread σ t) p' (seen σ t)]> (seen σ))) (es ++ [e])
  end.

(** ** Words and shadows *)

Record words (Q : Queue) (s : Shadow) : Prop := {
  w_heads : heads Q = pack (wrap SHORT (s_worker s)) (wrap SHORT (s_stealer s));
  w_tail : tail Q = wrap SHORT (s_tail s);
}.

(** [s'] is reached from [s] without skipping a full cycle. *)
Record near (s s' : Shadow) : Prop := {
  n_worker : 0 ≤ s_worker s' - s_worker s < 2 ^ SHORT;
  n_stealer : 0 ≤ s_stealer s' - s_stealer s < 2 ^ SHORT;
  n_tail : 0 ≤ s_tail s' - s_tail s < 2 ^ SHORT;
}.

Lemma f_advance_words Q s s' : words Q s' → near s s' → advance s Q = s'.
Proof.
  intros [H1 H2] [N1 N2 N3]. unfold advance. rewrite H1, H2, unpack_pack_wrap.
  rewrite !adv_wrap by done. by destruct s'.
Qed.

Lemma f_near_refl s : near s s.
Proof. split; rewrite Z.sub_diag; unfold SHORT; lia. Qed.

(** ** The invariant *)

(** Ghost state of a queue: the contents of the slots by position; position and
    list of the items the holding stealer has still to move; available items;
    items written but not published; the position and item the owner has popped
    but not yet read; the holder. *)
Record GQ (A : Type) : Type := mkGQ {
  g_slot : Z → option A;
  g_lo : Z;
  g_book : list A;
  g_avail : list A;
  g_pend : list A;
  g_claim : option (Z * A);
  g_holder : option nat;
}.
Arguments mkGQ {A} _ _ _ _ _ _ _.
Arguments g_slot {A} _ _.
Arguments g_lo {A} _.
Arguments g_book {A} _.
Arguments g_avail {A} _.
Arguments g_pend {A} _.
Arguments g_claim {A} _.
Arguments g_holder {A} _.

#[local] Opaque pack unpack.

Section inv.
Context {A : Type} (N : nat) (cap : nat → Z).
Implicit Types (c : Shared A) (sh : nat → Shadow) (g : nat → GQ A) (t q : nat).

Definition blen (l : list A) : Z := Z.of_nat (length l).

Record QInv (k : Z) (Q : Queue) (s : Shadow) (G : GQ A) (buf : list (option A)) : Prop := {
  qi_cap : st3_cap k;
  qi_mask : mask Q = k - 1;
  qi_words : words Q s;
  qi_lo : s_stealer s ≤ g_lo G;
  qi_book : g_lo G + blen (g_book G) ≤ s_worker s;
  qi_avail : s_worker s + blen (g_avail G) = s_tail s;
  qi_pend : s_tail s + blen (g_pend G) ≤ s_stealer s + k;
  qi_holder : g_holder G = None ↔ s_stealer s = s_worker s;
  qi_win : WinRep k buf (s_tail s + blen (g_pend G)) (g_slot G);
  qi_slot_book : at_slots (g_slot G) (g_lo G) (g_book G);
  qi_slot_avail : at_slots (g_slot G) (s_worker s) (g_avail G);
  qi_slot_pend : at_slots (g_slot G) (s_tail s) (g_pend G);
  qi_claim p x : g_claim G = Some (p, x) →
    g_slot G p = Some x ∧ s_tail s - k ≤ p < s_worker s ∧ g_pend G = [] ∧
    (p < g_lo G ∨ g_lo G + blen (g_book G) ≤ p);
}.

Definition Good c sh g : Prop := ∀ q, QInv (cap q) (qs c q) (sh q) (g q) (mem c q).

(** [t] holds exactly the queue [o]. *)
Definition holds g t (o : option nat) : Prop := ∀ q, g_holder (g q) = Some t ↔ o = Some q.

(** What [t] has written, popped and holds. *)
Definition owns g t (pend : list A) (claim : option (Z * A)) (o : option nat) : Prop :=
  g_pend (g t) = pend ∧ g_claim (g t) = claim ∧ holds g t o.

Definition idle g t : Prop := owns g t [] None None.

(** The destination has room for [n] more items and its tail is current. *)
Definition dest_ok sh t (b : Booking) (n : Z) : Prop :=
  dest_tail b = wrap SHORT (s_tail (sh t)) ∧ s_tail (sh t) + n ≤ s_stealer (sh t) + cap t.

Definition booking_ok sh t (b : Booking) : Prop :=
  (src b < N)%nat ∧ 0 ≤ max_count b < 2 ^ SHORT ∧
  match bk b with
  | BSteal => dest_ok sh t b (max_count b)
  | BStealAndPop => 1 ≤ max_count b ∧ dest_ok sh t b (max_count b - 1)
  | BDrain => True
  end.

(** How many items beyond the transferred ones the booking covers. *)
Definition extra (b : Booking) : Z := match bk b with BStealAndPop => 1 | _ => 0 end.

Definition old_stealer_head sh t (w : Z) : Prop :=
  ∃ s0, w = wrap SHORT s0 ∧ s0 ≤ s_stealer (sh t) ∧ s_tail (sh t) - s0 ≤ cap t.

Definition pop_view sh t (hd : Z) : Prop :=
  ∃ w0 s0, hd = pack (wrap SHORT w0) (wrap SHORT s0) ∧ w0 ≤ s_worker (sh t) ∧
    s_tail (sh t) - w0 ≤ cap t.

Definition read_view sh (b : Booking) (hd sn : Z) : Prop :=
  (∃ s0, hd = pack (wrap SHORT sn) (wrap SHORT s0)) ∧ sn ≤ s_worker (sh (src b)).

(** [t] holds the source of [b], whose stealer head it remembers. *)
Definition holding sh g t (b : Booking) (stealer_head : Z) : Prop :=
  stealer_head = wrap SHORT (s_stealer (sh (src b))) ∧ g_holder (g (src b)) = Some t.

(** The assertion of thread [t] at program point [p]. *)
Definition TI sh g t (p : Pc A) (sn : Z) : Prop :=
  let s := sh t in
  match p with
  | Done _ | Push1 _ | Ext1 _ | Pop1 => idle g t
  | Likely1 k x | Likely2 k x _ | Dest1 k x => k ≠ BDrain ∧ (x < N)%nat ∧ idle g t
  | Push2 _ w | Ext2 _ w => idle g t ∧ old_stealer_head sh t w
  | Push3 _ tl => idle g t ∧ tl = wrap SHORT (s_tail s) ∧ s_tail s < s_stealer s + cap t
  | Push4 x tl => owns g t [x] None None ∧ tl = wrap SHORT (s_tail s)
  | ExtLoop _ tl mx w =>
      owns g t w None None ∧ tl = wrap SHORT (s_tail s + blen w) ∧
      ∃ m, mx = wrap SHORT m ∧ m ≤ s_stealer s + cap t ∧ m - s_tail s ≤ cap t ∧ s_tail s + blen w ≤ m
  | Pop2 hd => idle g t ∧ pop_view sh t hd
  | Pop3 hd tl => idle g t ∧ pop_view sh t hd ∧ tl = wrap SHORT (s_tail s)
  | Pop4 prev => ∃ p x, owns g t [] (Some (p, x)) None ∧ prev = wrap SHORT p
  | Dest2 k x tl => k ≠ BDrain ∧ (x < N)%nat ∧ idle g t ∧ tl = wrap SHORT (s_tail s)
  | Book1 b => booking_ok sh t b ∧ idle g t
  | Book2 b hd => booking_ok sh t b ∧ idle g t ∧ read_view sh b hd sn
  | Book3 b hd count =>
      booking_ok sh t b ∧ idle g t ∧ hd = pack (wrap SHORT sn) (wrap SHORT sn) ∧
      sn ≤ s_worker (sh (src b)) ∧ 1 ≤ count ≤ max_count b ∧
      (s_worker (sh (src b)) = sn → count ≤ s_tail (sh (src b)) - s_worker (sh (src b)))
  | Move b sth off n =>
      bk b ≠ BDrain ∧ 0 ≤ off ≤ n ∧ dest_ok sh t b n ∧ holding sh g t b sth ∧
      g_lo (g (src b)) = s_stealer (sh (src b)) + off ∧
      blen (g_book (g (src b))) = n - off + extra b ∧
      ∃ w, owns g t w None (Some (src b)) ∧ blen w = off
  | ReadLast b sth n =>
      dest_ok sh t b n ∧ holding sh g t b sth ∧ 0 ≤ n ∧
      g_lo (g (src b)) = s_stealer (sh (src b)) + n ∧ blen (g_book (g (src b))) = 1 ∧
      ∃ w, owns g t w None (Some (src b)) ∧ blen w = n
  | Publish b sth n _ =>
      dest_tail b = wrap SHORT (s_tail s) ∧ holding sh g t b sth ∧ g_book (g (src b)) = [] ∧
      ∃ w, owns g t w None (Some (src b)) ∧ blen w = n
  | Finish1 b sth _ =>
      holding sh g t b sth ∧ g_book (g (src b)) = [] ∧ owns g t [] None (Some (src b))
  | Finish2 b sth hd _ =>
      holding sh g t b sth ∧ g_book (g (src b)) = [] ∧ owns g t [] None (Some (src b)) ∧
      ∃ w0, hd = pack w0 sth ∧ is_word SHORT w0
  | DrainNext b h from to =>
      h = wrap SHORT (g_lo (g (src b))) ∧ holding sh g t b from ∧
      to = wrap SHORT (g_lo (g (src b)) + blen (g_book (g (src b)))) ∧
      g_book (g (src b)) ≠ [] ∧ owns g t [] None (Some (src b))
  end.

(** The items a thread has claimed and not yet handed on. *)
Definition handf g t (p : Pc A) : list A :=
  match p with
  | Pop4 _ => match g_claim (g t) with Some (_, x) => [x] | None => [] end
  | Publish _ _ _ _ => g_pend (g t)
  | Move b _ _ _ | ReadLast b _ _ => g_pend (g t) ++ g_book (g (src b))
  | DrainNext b _ _ _ => g_book (g (src b))
  | _ => []
  end.

(** ** Interference *)

(** What the steps of other threads may do, as seen by [t]. *)
Record env t sh g sh' g' : Prop := {
  e_tail_own : s_tail (sh' t) = s_tail (sh t);
  e_pend : g_pend (g' t) = g_pend (g t);
  e_claim : g_claim (g' t) = g_claim (g t);
  e_worker q : s_worker (sh q) ≤ s_worker (sh' q);
  e_stealer q : s_stealer (sh q) ≤ s_stealer (sh' q);
  e_tail q : s_tail (sh q) ≤ s_tail (sh' q);
  e_holder q : g_holder (g q) = Some t ↔ g_holder (g' q) = Some t;
  e_held q : g_holder (g q) = Some t →
    g_lo (g' q) = g_lo (g q) ∧ g_book (g' q) = g_book (g q) ∧ s_stealer (sh' q) = s_stealer (sh q);
}.

Lemma f_env_owns t sh g sh' g' pend cl o :
  env t sh g sh' g' → owns g t pend cl o → owns g' t pend cl o.
Proof.
  intros He (Hp & Hc & Hh). split_and!; [by rewrite (e_pend _ _ _ _ _ He)|by rewrite (e_claim _ _ _ _ _ He)|].
  intros q. rewrite <- (e_holder _ _ _ _ _ He). apply Hh.
Qed.

Lemma f_env_idle t sh g sh' g' : env t sh g sh' g' → idle g t → idle g' t.
Proof. apply f_env_owns. Qed.

Lemma f_env_dest t sh g sh' g' b n : env t sh g sh' g' → dest_ok sh t b n → dest_ok sh' t b n.
Proof.
  intros He (H2 & H3). pose proof (e_stealer _ _ _ _ _ He t).
  unfold dest_ok. rewrite (e_tail_own _ _ _ _ _ He). split; [done|lia].
Qed.

Lemma f_env_booking t sh g sh' g' b : env t sh g sh' g' → booking_ok sh t b → booking_ok sh' t b.
Proof.
  intros He (H1 & H2 & H3). split; [done|]. split; [done|].
  destruct (bk b); [by eapply f_env_dest| |done]. destruct H3. split; [done|by eapply f_env_dest].
Qed.

Lemma f_env_read t sh g sh' g' b hd sn :
  env t sh g sh' g' → read_view sh b hd sn → read_view sh' b hd sn.
Proof. intros He (H1 & H2). pose proof (e_worker _ _ _ _ _ He (src b)). split; [done|lia]. Qed.

Lemma f_env_pop t sh g sh' g' hd : env t sh g sh' g' → pop_view sh t hd → pop_view sh' t hd.
Proof.
  intros He (w0 & s0 & H1 & H2 & H3). pose proof (e_worker _ _ _ _ _ He t).
  exists w0, s0. rewrite (e_tail_own _ _ _ _ _ He). split_and!; [done|lia|lia].
Qed.

Lemma f_env_old t sh g sh' g' w :
  env t sh g sh' g' → old_stealer_head sh t w → old_stealer_head sh' t w.
Proof.
  intros He (s0 & H1 & H2 & H3). pose proof (e_stealer _ _ _ _ _ He t).
  exists s0. rewrite (e_tail_own _ _ _ _ _ He). split_and!; [done|lia|lia].
Qed.

Lemma f_env_holding t sh g sh' g' b sth :
  env t sh g sh' g' → holding sh g t b sth →
  holding sh' g' t b sth ∧ g_lo (g' (src b)) = g_lo (g (src b)) ∧
  g_book (g' (src b)) = g_book (g (src b)) ∧ s_stealer (sh' (src b)) = s_stealer (sh (src b)).
Proof.
  intros He (-> & Hh). destruct (e_held _ _ _ _ _ He _ Hh) as (E1 & E2 & E3).
  split_and!; try done. split; [by rewrite E3|]. by apply (e_holder _ _ _ _ _ He).
Qed.

Create HintDb st3.
#[local] Hint Resolve f_env_owns f_env_idle f_env_dest f_env_booking f_env_read f_env_pop f_env_old : st3.

(** Assertions survive the steps of other threads. *)
Lemma f_TI_env t sh g sh' g' p sn : env t sh g sh' g' → TI sh g t p sn → TI sh' g' t p sn.
Proof.
  intros He Hti. pose proof (e_tail_own _ _ _ _ _ He) as E1.
  pose proof (e_stealer _ _ _ _ _ He t) as E2.
  destruct p; simpl in *; rewrite ?E1; try (by eauto with st3);
    try (destruct_and! Hti; split_and!; by eauto with st3).
  - destruct Hti as (? & ? & ?). split_and!; eauto with st3; lia.
  - destruct Hti as (? & ? & m & ? & ? & ? & ?). split_and!; eauto with st3.
    exists m. split_and!; [done|lia..].
  - destruct Hti as (q & x & ? & ?). eauto with st3.
  - destruct Hti as (? & ? & ? & ? & ? & Hc).
    pose proof (e_worker _ _ _ _ _ He (src b)). pose proof (e_tail _ _ _ _ _ He (src b)).
    split_and!; eauto with st3; lia.
  - destruct Hti as (? & ? & ? & Hho & ? & ? & w & Hw & ?).
    destruct (f_env_holding _ _ _ _ _ _ _ He Hho) as (? & -> & -> & ->).
    split_and!; eauto with st3; lia.
  - destruct Hti as (? & Hho & ? & ? & ? & w & Hw & ?).
    destruct (f_env_holding _ _ _ _ _ _ _ He Hho) as (? & -> & -> & ->). split_and!; eauto with st3.
  - destruct Hti as (? & Hho & ? & w & Hw & ?).
    destruct (f_env_holding _ _ _ _ _ _ _ He Hho) as (? & _ & -> & _). split_and!; eauto with st3.
  - destruct Hti as (Hho & ? & ?).
    destruct (f_env_holding _ _ _ _ _ _ _ He Hho) as (? & _ & -> & _). split_and!; eauto with st3.
  - destruct Hti as (Hho & ? & ? & ?).
    destruct (f_env_holding _ _ _ _ _ _ _ He Hho) as (? & _ & -> & _). split_and!; eauto with st3.
  - destruct Hti as (? & Hho & ? & ? & ?).
    destruct (f_env_holding _ _ _ _ _ _ _ He Hho) as (? & -> & -> & _). split_and!; eauto with st3.
Qed.

(** What a step of [t] may do to one queue. *)
Record upd t q (s : Shadow) (G : GQ A) (s' : Shadow) (G' : GQ A) : Prop := {
  u_own : q = t ∨ s_tail s' = s_tail s ∧ g_pend G' = g_pend G ∧ g_claim G' = g_claim G;
  u_worker : s_worker s ≤ s_worker s';
  u_stealer : s_stealer s ≤ s_stealer s';
  u_tail : s_tail s ≤ s_tail s';
  u_holder t' : t' ≠ t → g_holder G = Some t' ↔ g_holder G' = Some t';
  u_held t' : t' ≠ t → g_holder G = Some t' →
    g_lo G' = g_lo G ∧ g_book G' = g_book G ∧ s_stealer s' = s_stealer s;
}.

Lemma f_env_upd t t' q sh g sh' g' :
  t' ≠ t → (∀ q', q' ≠ q → sh' q' = sh q' ∧ g' q' = g q') →
  upd t q (sh q) (g q) (sh' q) (g' q) → env t' sh g sh' g'.
Proof.
  intros Hne Hframe [Hown Hp Hb Hh Hho Hhe].
  assert (∀ q', q' = q ∨ sh' q' = sh q' ∧ g' q' = g q') as Hq.
  { intros q'. destruct (decide (q' = q)); auto. }
  assert (s_tail (sh' t') = s_tail (sh t') ∧ g_pend (g' t') = g_pend (g t') ∧
    g_claim (g' t') = g_claim (g t')) as (H1 & H2 & H3).
  { destruct (Hq t') as [->|[-> ->]]; [|done]. by destruct Hown. }
  split; [done..| | | | |]; intros q'; destruct (Hq q') as [->|[Es Eg]]; rewrite ?Es, ?Eg;
    first [done | lia | by apply Hho | by apply Hhe].
Qed.

Lemma f_env_trans t sh g sh1 g1 sh2 g2 :
  env t sh g sh1 g1 → env t sh1 g1 sh2 g2 → env t sh g sh2 g2.
Proof.
  intros [A1 A2 A3 A4 A5 A6 A7 A8] [B1 B2 B3 B4 B5 B6 B7 B8]. split; try congruence.
  - intros q. specialize (A4 q). specialize (B4 q). lia.
  - intros q. specialize (A5 q). specialize (B5 q). lia.
  - intros q. specialize (A6 q). specialize (B6 q). lia.
  - intros q. by rewrite A7.
  - intros q H. destruct (A8 q H) as (E1 & E2 & E3). destruct (B8 q) as (F1 & F2 & F3).
    { by apply A7. }
    by rewrite F1, F2, F3.
Qed.

Lemma f_env_refl t sh g : env t sh g sh g.
Proof. split; auto; lia. Qed.

(** ** Updates of one queue *)

Lemma f_Good_mem c sh g q G' buf' :
  Good c sh g → QInv (cap q) (qs c q) (sh q) G' buf' →
  Good (mkShared (qs c) (<[q := buf']> (mem c))) sh (<[q := G']> g).
Proof.
  intros HG HQ q'. simpl. destruct (decide (q' = q)) as [->|Hne].
  - by rewrite !fn_lookup_insert.
  - by rewrite !fn_lookup_insert_ne.
Qed.

Lemma f_Good_word c sh g q Q' s' G' :
  Good c sh g → QInv (cap q) Q' s' G' (mem c q) →
  Good (set_q c q Q') (<[q := s']> sh) (<[q := G']> g).
Proof.
  intros HG HQ q'. simpl. destruct (decide (q' = q)) as [->|Hne].
  - by rewrite !fn_lookup_insert.
  - by rewrite !fn_lookup_insert_ne.
Qed.

Lemma blen_app l k : blen (l ++ k) = blen l + blen k.
Proof. unfold blen. rewrite length_app. lia. Qed.
Lemma blen_cons x l : blen (x :: l) = 1 + blen l.
Proof. unfold blen. simpl. lia. Qed.
Lemma blen_nonneg l : 0 ≤ blen l.
Proof. unfold blen. lia. Qed.
Lemma blen_nil l : blen l = 0 ↔ l = [].
Proof. unfold blen. rewrite <- length_zero_iff_nil. lia. Qed.

Lemma f_good_bounds c sh g q :
  Good c sh g →
  0 < cap q ∧ 2 * cap q ≤ 2 ^ SHORT ∧ s_stealer (sh q) ≤ s_worker (sh q) ≤ s_tail (sh q) ∧
  s_tail (sh q) ≤ s_stealer (sh q) + cap q.
Proof.
  intros HG. destruct (HG q) as [Hc Hm Hw Hlo Hb Ha Hp Hh _ _ _ _ _].
  pose proof (st3_cap_pos _ Hc). pose proof (st3_cap_lt _ Hc).
  pose proof (blen_nonneg (g_book (g q))). pose proof (blen_nonneg (g_avail (g q))).
  pose proof (blen_nonneg (g_pend (g q))). lia.
Qed.

(** Write one more item past the tail. *)
Lemma f_q_write c sh g q x :
  Good c sh g → g_claim (g q) = None →
  s_tail (sh q) + blen (g_pend (g q)) < s_stealer (sh q) + cap q →
  let G := g q in
  ∃ buf f, write_at (mem c) q (mask (qs c q)) (wrap SHORT (s_tail (sh q) + blen (g_pend G))) x
         = Ret (<[q := buf]> (mem c)) ∧
    Good (mkShared (qs c) (<[q := buf]> (mem c))) sh
      (<[q := mkGQ f (g_lo G) (g_book G) (g_avail G) (g_pend G ++ [x]) None (g_holder G)]> g).
Proof.
  intros HG Hcl Hlt. cbv zeta. pose proof (HG q) as [Hc Hm Hw Hlo Hb Ha Hp Hh HW S1 S2 S3 _].
  destruct (win_write_at (cap q) (mem c) q _ _ x Hc HW) as (buf & E & HW').
  exists buf, (<[s_tail (sh q) + blen (g_pend (g q)) := Some x]> (g_slot (g q))). rewrite Hm. split; [exact E|]. apply f_Good_mem; [done|].
  pose proof (blen_nonneg (g_pend (g q))). pose proof (blen_nonneg (g_avail (g q))).
  split; simpl; rewrite ?blen_app; try done.
  - unfold blen at 2. simpl. lia.
  - by replace (s_tail (sh q) + (blen (g_pend (g q)) + blen [x])) with
      (s_tail (sh q) + blen (g_pend (g q)) + 1) by (unfold blen; simpl; lia).
  - apply at_slots_upd; [done|]. right. fold (blen (g_book (g q))). lia.
  - apply at_slots_upd; [done|]. right. fold (blen (g_avail (g q))). lia.
  - apply at_slots_app. split; [|apply at_slots_one, fn_lookup_insert].
    apply at_slots_upd; [done|]. right. fold (blen (g_pend (g q))). lia.
Qed.

(** Read a live slot of the queue. *)
Lemma f_q_read c sh g q p x :
  Good c sh g → s_tail (sh q) + blen (g_pend (g q)) - cap q ≤ p < s_tail (sh q) + blen (g_pend (g q)) →
  g_slot (g q) p = Some x →
  ∃ buf, read_at (mem c) q (mask (qs c q)) (wrap SHORT p) = Ret (x, <[q := buf]> (mem c)) ∧
    WinRep (cap q) buf (s_tail (sh q) + blen (g_pend (g q))) (<[p := None]> (g_slot (g q))).
Proof.
  intros HG Hp Hx. pose proof (HG q) as HQ. rewrite (qi_mask _ _ _ _ _ HQ).
  apply win_read_at with (2 := qi_win _ _ _ _ _ HQ); [by apply HQ|done|done].
Qed.

(** Move the first booked item out. *)
Lemma f_q_unbook c sh g q x l :
  Good c sh g → g_book (g q) = x :: l →
  let G := g q in
  ∃ buf f, read_at (mem c) q (mask (qs c q)) (wrap SHORT (g_lo G)) = Ret (x, <[q := buf]> (mem c)) ∧
    Good (mkShared (qs c) (<[q := buf]> (mem c))) sh
      (<[q := mkGQ f (g_lo G + 1) l (g_avail G) (g_pend G) (g_claim G) (g_holder G)]> g).
Proof.
  intros HG Hbook. cbv zeta. pose proof (HG q) as [Hc Hm Hw Hlo Hb Ha Hp Hh HW S1 S2 S3 Hcl].
  rewrite Hbook in *. rewrite blen_cons in *. apply at_slots_cons in S1 as [Hx S1].
  pose proof (blen_nonneg (g_pend (g q))). pose proof (blen_nonneg (g_avail (g q))). pose proof (blen_nonneg l).
  destruct (f_q_read c sh g q (g_lo (g q)) x HG) as (buf & E & HW'); [lia|done|].
  exists buf, (<[g_lo (g q) := None]> (g_slot (g q))). split; [exact E|]. apply f_Good_mem; [done|]. split; simpl; try done; try lia.
  - apply at_slots_upd; [done|]. lia.
  - apply at_slots_upd; [done|]. lia.
  - apply at_slots_upd; [done|]. lia.
  - intros p y Hpy. destruct (Hcl p y Hpy) as (C1 & C2 & C3 & C4).
    rewrite fn_lookup_insert_ne by lia. split_and!; try done; lia.
Qed.

(** Read the popped item. *)
Lemma f_q_unclaim c sh g q p x :
  Good c sh g → g_claim (g q) = Some (p, x) →
  let G := g q in
  ∃ buf f, read_at (mem c) q (mask (qs c q)) (wrap SHORT p) = Ret (x, <[q := buf]> (mem c)) ∧
    Good (mkShared (qs c) (<[q := buf]> (mem c))) sh
      (<[q := mkGQ f (g_lo G) (g_book G) (g_avail G) [] None (g_holder G)]> g).
Proof.
  intros HG Hclaim. cbv zeta. pose proof (HG q) as [Hc Hm Hw Hlo Hb Ha Hp Hh HW S1 S2 S3 Hcl].
  destruct (Hcl p x Hclaim) as (C1 & C2 & C3 & C4).
  pose proof (blen_nonneg (g_avail (g q))). assert (blen (g_pend (g q)) = 0) as Hp0 by (by apply blen_nil).
  destruct (f_q_read c sh g q p x HG) as (buf & E & HW'); [lia|done|].
  exists buf, (<[p := None]> (g_slot (g q))). split; [exact E|]. rewrite C3 in *.
  apply f_Good_mem; [done|]. split; simpl; try done.
  - apply at_slots_upd; [done|]. fold (blen (g_book (g q))). lia.
  - apply at_slots_upd; [done|]. left. lia.
Qed.

(** Publish the pending items: the store of the tail. *)
Lemma f_q_publish c sh g q :
  Good c sh g → g_claim (g q) = None →
  let G := g q in
  let s := sh q in
  let n := blen (g_pend G) in
  Good (set_q c q (set_tail (qs c q) (wrap SHORT (s_tail s + n))))
    (<[q := mkShadow (s_worker s) (s_stealer s) (s_tail s + n)]> sh)
    (<[q := mkGQ (g_slot G) (g_lo G) (g_book G) (g_avail G ++ g_pend G) [] None (g_holder G)]> g).
Proof.
  intros HG Hcl. cbv zeta.
  pose proof (HG q) as [Hc Hm [W1 W2] Hlo Hb Ha Hp Hh HW S1 S2 S3 _].
  apply f_Good_word; [done|]. split; simpl; rewrite ?blen_app; try done; try (unfold blen in *; simpl; lia).
  - by rewrite (proj2 (blen_nil [])), Z.add_0_r.
  - apply at_slots_app. split; [done|]. fold (blen (g_avail (g q))). by rewrite Ha.
Qed.

(** The pop's compare-exchange claims the first available item. *)
Lemma f_q_pop c sh g q x l :
  Good c sh g → g_pend (g q) = [] → g_claim (g q) = None → g_avail (g q) = x :: l →
  let G := g q in
  let s := sh q in
  let st := if decide (s_stealer s = s_worker s) then s_stealer s + 1 else s_stealer s in
  Good (set_q c q (set_heads (qs c q) (pop_heads (wrap SHORT (s_worker s)) (wrap SHORT (s_stealer s)))))
    (<[q := mkShadow (s_worker s + 1) st (s_tail s)]> sh)
    (<[q := mkGQ (g_slot G) (if decide (s_stealer s = s_worker s) then s_worker s + 1 else g_lo G)
              (g_book G) l [] (Some (s_worker s, x)) (g_holder G)]> g).
Proof.
  intros HG Hpd Hcl Hav. cbv zeta.
  destruct (f_good_bounds c sh g q HG) as (B1 & B2 & B3 & B4).
  pose proof (HG q) as [Hc Hm [W1 W2] Hlo Hb Ha Hp Hh HW S1 S2 S3 _].
  rewrite Hav, Hpd in *. rewrite blen_cons in Ha. apply at_slots_cons in S2 as [Hx S2].
  pose proof (blen_nonneg l). pose proof (blen_nonneg (g_book (g q))).
  assert (s_stealer (sh q) = s_worker (sh q) → g_book (g q) = []) as Hbk.
  { intros E. apply blen_nil. lia. }
  apply f_Good_word; [done|]. split; simpl; try done.
  - split; simpl; [|done]. unfold pop_heads. rewrite wrapping_add_wrap. f_equal.
    case_bool_decide as E.
    + apply wrap_inj in E; [|lia]. rewrite decide_True by done. by rewrite wrapping_add_wrap.
    + rewrite decide_False by congruence. by rewrite wrapping_add_wrap, Z.add_0_r.
  - case_decide; lia.
  - case_decide as E; [rewrite (Hbk E); unfold blen; simpl; lia|lia].
  - lia.
  - case_decide; unfold blen in *; simpl in *; lia.
  - case_decide as E; rewrite Hh; split; intros; lia.
  - case_decide as E; [rewrite (Hbk E); apply at_slots_nil|done].
  - intros p y [= <- <-]. split_and!; [done| |lia|done|].
    + unfold blen in Hp. simpl in Hp. lia.
    + case_decide; lia.
Qed.

(** The booking's compare-exchange. *)
Lemma f_q_book c sh g q t xs l :
  Good c sh g → s_stealer (sh q) = s_worker (sh q) → g_avail (g q) = xs ++ l → xs ≠ [] →
  let G := g q in
  let s := sh q in
  let W := s_worker s + blen xs in
  Good (set_q c q (set_heads (qs c q) (pack (wrap SHORT W) (wrap SHORT (s_stealer s)))))
    (<[q := mkShadow W (s_stealer s) (s_tail s)]> sh)
    (<[q := mkGQ (g_slot G) (s_worker s) xs l (g_pend G) (g_claim G) (Some t)]> g).
Proof.
  intros HG Heq Hav Hne. cbv zeta.
  pose proof (HG q) as [Hc Hm [W1 W2] Hlo Hb Ha Hp Hh HW S1 S2 S3 Hcl].
  rewrite Hav in *. rewrite blen_app in Ha. apply at_slots_app in S2 as [S2 S2'].
  pose proof (blen_nonneg xs). assert (blen xs ≠ 0) by (by rewrite blen_nil).
  apply f_Good_word; [done|]. split; simpl; try done; try lia.
  - split; [done|]. lia.
  - intros p y Hpy. destruct (Hcl p y Hpy) as (C1 & C2 & C3 & C4). split_and!; try done; lia.
Qed.

(** The completion of a steal: the stealer head catches up. *)
Lemma f_q_finish c sh g q :
  Good c sh g → g_book (g q) = [] →
  let G := g q in
  let s := sh q in
  Good (set_q c q (set_heads (qs c q) (pack (wrap SHORT (s_worker s)) (wrap SHORT (s_worker s)))))
    (<[q := mkShadow (s_worker s) (s_worker s) (s_tail s)]> sh)
    (<[q := mkGQ (g_slot G) (s_worker s) [] (g_avail G) (g_pend G) (g_claim G) None]> g).
Proof.
  intros HG Hnil. cbv zeta.
  destruct (f_good_bounds c sh g q HG) as (B1 & B2 & B3 & B4).
  pose proof (HG q) as [Hc Hm [W1 W2] Hlo Hb Ha Hp Hh HW S1 S2 S3 Hcl].
  apply f_Good_word; [done|]. split; simpl; try done; try lia.
  - unfold blen. simpl. lia.
  - intros p y Hpy. destruct (Hcl p y Hpy) as (C1 & C2 & C3 & C4). split_and!; try done; lia.
Qed.

(** ** Every step is safe, keeps the invariant and simulates the deques *)

Definition Sim g t (p : Pc A) (e : event A) g' (p' : Pc A) : Prop :=
  sim FIFO N t (λ q, g_avail (g q)) (handf g t p) e (λ q, g_avail (g' q)) (handf g' t p').

Definition StepOK c sh g t ch (p : Pc A) (sn : Z) : Prop :=
  ∃ c' p' e sh' g',
    code_step c t ch p = Ret (c', p', e) ∧ Good c' sh' g' ∧
    TI sh' g' t p' (observe sh p p' sn) ∧
    (∀ t', t' ≠ t → env t' sh g sh' g') ∧ (∀ q, near (sh q) (sh' q)) ∧
    Sim g t p e g' p'.

Lemma f_step_local c sh g t ch p p' sn :
  Good c sh g → code_step c t ch p = Ret (c, p', Tau) →
  TI sh g t p' (observe sh p p' sn) → handf g t p' = handf g t p →
  StepOK c sh g t ch p sn.
Proof.
  intros HG E HT Hh. exists c, p', Tau, sh, g. split_and!; [done..|intros; apply f_env_refl|
    intros; apply f_near_refl|by apply sim_stutter].
Qed.

Lemma f_env_mem t q sh g G' :
  upd t q (sh q) (g q) (sh q) G' → ∀ t', t' ≠ t → env t' sh g sh (<[q := G']> g).
Proof.
  intros Hu t' Hne. apply (f_env_upd t t' q); [done| |by rewrite fn_lookup_insert].
  intros q' Hq. by rewrite fn_lookup_insert_ne.
Qed.

Lemma f_env_word t q sh g s' G' :
  upd t q (sh q) (g q) s' G' → ∀ t', t' ≠ t → env t' sh g (<[q := s']> sh) (<[q := G']> g).
Proof.
  intros Hu t' Hne. apply (f_env_upd t t' q); [done| |by rewrite !fn_lookup_insert].
  intros q' Hq. by rewrite !fn_lookup_insert_ne.
Qed.

Lemma f_near_word q sh s' : near (sh q) s' → ∀ q', near (sh q') (<[q := s']> sh q').
Proof.
  intros Hn q'. destruct (decide (q = q')) as [->|Hne]; [by rewrite fn_lookup_insert|].
  rewrite fn_lookup_insert_ne by done. apply f_near_refl.
Qed.

Lemma f_unpack_words Q s :
  words Q s → unpack (heads Q) = (wrap SHORT (s_worker s), wrap SHORT (s_stealer s)).
Proof. intros [E _]. by rewrite E, unpack_pack_wrap. Qed.

Lemma f_capacity_mask k Q : st3_cap k → mask Q = k - 1 → capacity Q = k.
Proof.
  intros Hk E. unfold capacity, wrapping_add. rewrite E, Z.sub_add.
  pose proof (st3_cap_pos _ Hk). pose proof (st3_cap_lt _ Hk). apply wrap_small. split; lia.
Qed.

Lemma f_holds_upd g t q G' o : holds g t o → g_holder G' = g_holder (g q) → holds (<[q := G']> g) t o.
Proof.
  intros Hh E q'. destruct (decide (q = q')) as [->|Hne].
  - rewrite fn_lookup_insert, E. apply Hh.
  - rewrite fn_lookup_insert_ne by done. apply Hh.
Qed.

(** What [t] owns after an update of its own queue. *)
Lemma f_owns_self g t G' o :
  holds g t o → g_holder G' = g_holder (g t) → owns (<[t := G']> g) t (g_pend G') (g_claim G') o.
Proof. intros Hh E. split_and!; [by rewrite fn_lookup_insert..|by apply f_holds_upd]. Qed.

Lemma f_avail_upd g q G' q' :
  g_avail G' = g_avail (g q) → g_avail (<[q := G']> g q') = g_avail (g q').
Proof.
  intros E. destruct (decide (q = q')) as [->|Hne]; [by rewrite fn_lookup_insert|].
  by rewrite fn_lookup_insert_ne.
Qed.

Lemma f_avail_set g q G' q' :
  g_avail (<[q := G']> g q') = <[q := g_avail G']> (λ q, g_avail (g q)) q'.
Proof. unfold insert, fn_insert. by case_decide. Qed.

Lemma f_old_head c sh g t : Good c sh g → old_stealer_head sh t (unpack (heads (qs c t))).2.
Proof.
  intros HG. destruct (f_good_bounds c sh g t HG) as (Hc & Hc2 & Hhb & Htl).
  rewrite (f_unpack_words _ _ (qi_words _ _ _ _ _ (HG t))).
  exists (s_stealer (sh t)). split_and!; [done|lia..].
Qed.

(** [local p']: the step only reads, and continues at [p']. *)
Ltac local p' := apply (f_step_local _ _ _ _ _ _ p'); [done|simpl|simpl|done].

(** The owner's store of the tail publishes what it has written. *)
Lemma f_publish_ok c sh g t ch p sn w r :
  (t < N)%nat → Good c sh g → owns g t w None None → handf g t p = [] →
  code_step c t ch p = Ret (set_q c t (set_tail (qs c t) (wrap SHORT (s_tail (sh t) + blen w))),
                            Done r, In w) →
  StepOK c sh g t ch p sn.
Proof.
  intros Ht HG (Hpd & Hcl & Hho) Hh E. pose proof (f_q_publish c sh g t HG Hcl) as HG'. simpl in HG'.
  rewrite Hpd in HG'. destruct (f_good_bounds c sh g t HG) as (Hc & Hc2 & Hhb & Htl).
  pose proof (qi_pend _ _ _ _ _ (HG t)) as Hlen. rewrite Hpd in Hlen. pose proof (blen_nonneg w).
  eexists _, (Done r), (In w), _, _. split_and!; [exact E|done| | | |].
  - by apply f_owns_self.
  - apply f_env_word. split; simpl; auto; lia.
  - apply f_near_word. split; simpl; unfold SHORT in *; lia.
  - apply sim_push; [done| |by rewrite Hh]. intros q. by rewrite f_avail_set.
Qed.

Lemma f_push_ok c sh g t ch p sn :
  (t < N)%nat → Good c sh g → TI sh g t p sn →
  match p with Push1 _ | Push2 _ _ | Push3 _ _ | Push4 _ _ => True | _ => False end →
  StepOK c sh g t ch p sn.
Proof.
  intros Ht HG HT Hp. pose proof (HG t) as HQ. pose proof (qi_words _ _ _ _ _ HQ) as HW.
  destruct (f_good_bounds c sh g t HG) as (Hc & Hc2 & Hhb & Htl).
  destruct p as [|item|item w|item tl|item tl| | | | | | | | | | | | | | | | | | | |];
    try done; clear Hp; simpl in HT.
  - local (Push2 item (unpack (heads (qs c t))).2); [done|]. split; [done|by eapply f_old_head].
  - destruct HT as (Ho & s0 & -> & Hs0 & Hs1). pose proof (w_tail _ _ HW) as Et.
    destruct (decide (mask (qs c t) < wrapping_sub SHORT (tail (qs c t)) (wrap SHORT s0))) as [Hf|Hf].
    + local (Done (RPush (Some item))); [|done]. by rewrite bool_decide_eq_true_2 by done.
    + local (Push3 item (tail (qs c t))); [by rewrite bool_decide_eq_false_2 by done|].
      split_and!; try done. rewrite Et, wrapping_sub_wrap, (qi_mask _ _ _ _ _ HQ) in Hf.
      rewrite (wrap_between _ _ (cap t)) in Hf by lia. lia.
  - destruct HT as ((Hpd & Hcl & Hho) & -> & Hlt).
    destruct (f_q_write c sh g t item HG Hcl) as (buf & f & E & HG'); [rewrite Hpd; unfold blen; simpl; lia|].
    rewrite Hpd in E, HG'. simpl in E, HG'. unfold blen in E at 1. simpl in E. rewrite Z.add_0_r in E.
    eexists _, (Push4 item _), Tau, sh, _. split_and!; [simpl; by rewrite E|done| | | |].
    + split; [by apply f_owns_self|done].
    + apply f_env_mem. split; simpl; auto; lia.
    + intros q. apply f_near_refl.
    + apply sim_stutter; [|done]. intros q. by apply f_avail_upd.
  - destruct HT as (Ho & ->). apply f_publish_ok with [item] (RPush None); try done.
    simpl. by rewrite wrapping_add_wrap.
Qed.

Lemma f_extend_ok c sh g t ch p sn :
  (t < N)%nat → Good c sh g → TI sh g t p sn →
  match p with Ext1 _ | Ext2 _ _ | ExtLoop _ _ _ _ => True | _ => False end →
  StepOK c sh g t ch p sn.
Proof.
  intros Ht HG HT Hp. pose proof (HG t) as HQ. pose proof (qi_words _ _ _ _ _ HQ) as HW.
  destruct (f_good_bounds c sh g t HG) as (Hc & Hc2 & Hhb & Htl).
  destruct p as [| | | | |it|it w|it tl mx w| | | | | | | | | | | | | | | | |];
    try done; clear Hp; simpl in HT.
  - local (Ext2 it (unpack (heads (qs c t))).2); [done|]. split; [done|by eapply f_old_head].
  - destruct HT as (Ho & s0 & -> & Hs0 & Hs1).
    local (ExtLoop it (tail (qs c t)) (wrap SHORT (s0 + cap t)) []).
    + rewrite (f_capacity_mask _ _ (qi_cap _ _ _ _ _ HQ) (qi_mask _ _ _ _ _ HQ)). by rewrite wrapping_add_wrap.
    + split; [done|]. unfold blen. simpl. rewrite Z.add_0_r. split; [by apply w_tail|].
      exists (s0 + cap t). split_and!; [done|lia..].
  - destruct HT as ((Hpd & Hcl & Hho) & -> & m & -> & Hm1 & Hm2 & Hm3). pose proof (blen_nonneg w).
    destruct it as [|x it]; [by apply f_publish_ok with w RNone|].
    destruct (decide (wrap SHORT (s_tail (sh t) + blen w) = wrap SHORT m)) as [E|Hne].
    { apply f_publish_ok with w RNone; try done. simpl. by rewrite bool_decide_eq_true_2 by done. }
    assert (s_tail (sh t) + blen w ≠ m) by congruence.
    destruct (f_q_write c sh g t x HG Hcl) as (buf & f & E & HG'); [rewrite Hpd; lia|].
    rewrite Hpd in E, HG'.
    eexists _, (ExtLoop it (wrap SHORT (s_tail (sh t) + blen w + 1)) _ (w ++ [x])), Tau, sh, _.
    split_and!; [|done| | | |].
    + simpl. rewrite bool_decide_eq_false_2 by done. rewrite E. simpl. by rewrite wrapping_add_wrap.
    + split; [by apply f_owns_self|]. rewrite blen_app, (blen_cons x []), (proj2 (blen_nil [])) by done.
      split; [f_equal; lia|]. exists m. split_and!; [done|lia..].
    + apply f_env_mem. split; simpl; auto; lia.
    + intros q. apply f_near_refl.
    + apply sim_stutter; [|done]. intros q. by apply f_avail_upd.
Qed.

Lemma f_pop_cas c sh g t x l prev :
  (t < N)%nat → Good c sh g → idle g t → g_avail (g t) = x :: l → prev = wrap SHORT (s_worker (sh t)) →
  ∃ sh' g',
    Good (set_q c t (set_heads (qs c t) (pop_heads (wrap SHORT (s_worker (sh t))) (wrap SHORT (s_stealer (sh t))))))
      sh' g' ∧ (∀ sn, TI sh' g' t (Pop4 prev) sn) ∧ (∀ t', t' ≠ t → env t' sh g sh' g') ∧
    (∀ q, near (sh q) (sh' q)) ∧ ∀ p, handf g t p = [] → Sim g t p Tau g' (Pop4 prev).
Proof.
  intros Ht HG (Hpd & Hcl & Hho) Hl ->. pose proof (f_q_pop c sh g t x l HG Hpd Hcl Hl) as HG'.
  cbv zeta in HG'. destruct (f_good_bounds c sh g t HG) as (Hc & Hc2 & Hhb & Htl).
  assert (s_stealer (sh t) = s_worker (sh t) ↔ g_holder (g t) = None) as Hhold
    by (symmetry; apply (HG t)).
  eexists _, _. split_and!; [exact HG'| | | |].
  - intros sn. exists (s_worker (sh t)), x. split; [by apply f_owns_self|done].
  - apply f_env_word. split; simpl; auto; try lia; try (case_decide; lia).
    intros t' Hne Hh. rewrite !decide_False; [done|..]; intros E; apply Hhold in E; congruence.
  - apply f_near_word. split; simpl; try case_decide; unfold SHORT in *; lia.
  - intros p Hp. apply sim_pop with x l; [done|done|done| |simpl; by rewrite fn_lookup_insert].
    intros q. by rewrite f_avail_set.
Qed.

Lemma f_pop_ok c sh g t ch p sn :
  (t < N)%nat → Good c sh g → TI sh g t p sn →
  match p with Pop1 | Pop2 _ | Pop3 _ _ | Pop4 _ => True | _ => False end →
  StepOK c sh g t ch p sn.
Proof.
  intros Ht HG HT Hp. pose proof (HG t) as HQ. pose proof (qi_words _ _ _ _ _ HQ) as HW.
  destruct (f_good_bounds c sh g t HG) as (Hc & Hc2 & Hhb & Htl).
  assert (pop_view sh t (heads (qs c t))) as Hpv.
  { exists (s_worker (sh t)), (s_stealer (sh t)). split_and!; [by apply w_heads|lia..]. }
  destruct p as [| | | | | | | | |hd|hd tl|prev| | | | | | | | | | | | |];
    try done; clear Hp; simpl in HT.
  - by local (Pop2 (A := A) (heads (qs c t))).
  - destruct HT as (Ho & Hv). local (Pop3 (A := A) hd (tail (qs c t))); [done|].
    split_and!; try done. by apply w_tail.
  - destruct HT as (Ho & (w0 & s0 & -> & Hw0 & Hcap) & ->). pose proof (qi_avail _ _ _ _ _ HQ) as Hav.
    destruct (decide (wrap SHORT (s_tail (sh t)) = wrap SHORT w0)) as [Heq|Hneq].
    { apply wrap_inj in Heq; [|lia].
      exists c, (Done (RPop None)), (Nothing t), sh, g. split_and!; [|done..| | |].
      - simpl. rewrite unpack_pack_wrap. by rewrite bool_decide_eq_true_2 by (by rewrite Heq).
      - intros. apply f_env_refl.
      - intros. apply f_near_refl.
      - apply sim_nothing; try done. apply blen_nil. lia. }
    destruct (bool_decide (heads (qs c t) = pack (wrap SHORT w0) (wrap SHORT s0)) &&
      negb (match ch with Go _ s => s | _ => false end)) eqn:Ecas.
    + apply andb_true_iff in Ecas as [Ecas Hsp]. apply bool_decide_eq_true in Ecas as Ew.
      rewrite (w_heads _ _ HW) in Ew. apply pack_inj in Ew as [E1 E2]. rewrite <- E1 in Hneq.
      destruct (g_avail (g t)) as [|x l] eqn:El.
      { destruct Hneq. unfold blen in Hav. simpl in Hav. f_equal. lia. }
      destruct (f_pop_cas c sh g t x l (wrap SHORT w0)) as (sh' & g' & HG' & HT' & Henv & Hnear & Hsim); try done.
      eexists _, (Pop4 (wrap SHORT w0)), Tau, sh', g'. split_and!; [|exact HG'|done|done|done|by apply Hsim].
      simpl. rewrite unpack_pack_wrap, <- E1, <- E2. rewrite bool_decide_eq_false_2 by done.
      rewrite bool_decide_eq_true_2 by (by apply w_heads). by rewrite Hsp.
    + local (Pop3 (A := A) (heads (qs c t)) (wrap SHORT (s_tail (sh t)))); [|done].
      rewrite unpack_pack_wrap. rewrite bool_decide_eq_false_2 by done. by rewrite Ecas.
  - destruct HT as (p & x & (Hpd & Hcl & Hho) & ->).
    destruct (f_q_unclaim c sh g t p x HG Hcl) as (buf & f & E & HG').
    eexists _, (Done (RPop (Some x))), (Out x), sh, _. split_and!; [simpl; by rewrite E|done| | | |].
    + by apply f_owns_self.
    + apply f_env_mem. split; simpl; auto; lia.
    + intros q. apply f_near_refl.
    + apply sim_return with [] []; [done|by simpl; rewrite Hcl| |done].
      intros q. by apply f_avail_upd.
Qed.

Lemma f_dest_step_ok c sh g t ch p sn :
  (t < N)%nat → Good c sh g → TI sh g t p sn →
  match p with
  | Likely1 _ _ | Likely2 _ _ _ | Dest1 _ _ | Dest2 _ _ _ => True | _ => False end →
  StepOK c sh g t ch p sn.
Proof.
  intros Ht HG HT Hp. pose proof (HG t) as HQ. pose proof (qi_words _ _ _ _ _ HQ) as HW.
  destruct (f_good_bounds c sh g t HG) as (Hc & Hc2 & Hhb & Htl).
  destruct p as [| | | | | | | | | | | |k x|k x w|k x|k x tl| | | | | | | | |];
    try done; clear Hp; simpl in HT.
  - by local (Likely2 (A := A) k x (unpack (heads (qs c x))).1).
  - destruct (decide (tail (qs c x) = w)).
    + local (Done (A := A) (steal_error k Empty)); [|by apply HT]. by rewrite bool_decide_eq_true_2 by done.
    + local (Dest1 (A := A) k x); [|done]. by rewrite bool_decide_eq_false_2 by done.
  - local (Dest2 (A := A) k x (tail (qs c t))); [done|].
    destruct HT as (? & ? & ?). split_and!; try done. by apply w_tail.
  - destruct HT as (Hk & Hx & Ho & ->).
    set (free := cap t - (s_tail (sh t) - s_stealer (sh t))).
    set (mx := match k with BStealAndPop => free + 1 | _ => free end).
    local (Book1 (A := A) (mkBooking k x (wrap SHORT (s_tail (sh t))) mx)).
    + rewrite (f_unpack_words _ _ HW). simpl.
      rewrite (f_capacity_mask _ _ (qi_cap _ _ _ _ _ HQ) (qi_mask _ _ _ _ _ HQ)).
      rewrite wrapping_sub_wrap, (wrap_between _ _ (cap t)) by lia.
      rewrite checked_sub_ret by lia. simpl. rewrite bool_decide_eq_true_2 by lia. simpl.
      unfold mx, free. destruct k; [done| |done]. by rewrite checked_add_ret by (unfold SHORT in *; lia).
    + split; [|done]. unfold booking_ok, dest_ok, mx, free, SHORT in *. simpl. destruct k; [| |done];
        split_and!; try done; lia.
Qed.

Lemma f_holds_book g t q G' :
  holds g t None → g_holder G' = Some t → holds (<[q := G']> g) t (Some q).
Proof.
  intros Hh E q'. destruct (decide (q = q')) as [->|Hne].
  - rewrite fn_lookup_insert, E. done.
  - rewrite fn_lookup_insert_ne by done. rewrite (Hh q'). split; [done|congruence].
Qed.

Lemma f_holds_release g t q G' :
  holds g t (Some q) → g_holder G' = None → holds (<[q := G']> g) t None.
Proof.
  intros Hh E q'. destruct (decide (q = q')) as [->|Hne].
  - rewrite fn_lookup_insert, E. done.
  - rewrite fn_lookup_insert_ne by done. rewrite (Hh q'). split; [congruence|done].
Qed.

Lemma f_dest_le sh t b n n' : n ≤ n' → dest_ok sh t b n' → dest_ok sh t b n.
Proof. intros Hle (H2 & H3). split; [done|lia]. Qed.

Lemma f_dest_ok_upd sh t b n q s' :
  s_tail s' = s_tail (sh q) → s_stealer (sh q) ≤ s_stealer s' →
  dest_ok sh t b n → dest_ok (<[q := s']> sh) t b n.
Proof.
  intros E1 E3 (H2 & H3). unfold dest_ok in *. destruct (decide (q = t)) as [->|Hne].
  - rewrite fn_lookup_insert, E1. split; [done|lia].
  - by rewrite fn_lookup_insert_ne.
Qed.

Lemma f_booked_ok sh' g' t b sn xs count :
  booking_ok sh' t b → owns g' t [] None (Some (src b)) → g_book (g' (src b)) = xs →
  g_lo (g' (src b)) = s_stealer (sh' (src b)) → 1 ≤ count ≤ max_count b → blen xs = count →
  ∃ p', booked b (wrap SHORT (s_stealer (sh' (src b)))) count = Ret p' ∧
    TI sh' g' t p' sn ∧ handf g' t p' = xs.
Proof.
  intros (Hsrc & Hmax & Hdest) Ho Hbk Hlo Hcnt Hxs. pose proof Ho as (Hpd & _ & Hho).
  assert (holding sh' g' t b (wrap SHORT (s_stealer (sh' (src b))))) as Hh by (split; [done|by apply Hho]).
  unfold booked. destruct (bk b) eqn:Ebk.
  - rewrite bool_decide_eq_true_2 by lia. simpl. eexists. split; [done|]. simpl.
    rewrite Hbk, Hlo, Hpd, Ebk. unfold extra. rewrite Ebk.
    split; [|done]. split_and!; try done; try lia; [|by exists []].
    apply (f_dest_le _ _ _ _ (max_count b)); [lia|done].
  - destruct Hdest as [Hm1 Hdest].
    rewrite !checked_sub_ret by lia. simpl. rewrite bool_decide_eq_true_2 by lia. simpl.
    eexists. split; [done|]. simpl. rewrite Hbk, Hlo, Hpd, Ebk. unfold extra. rewrite Ebk.
    split; [|done]. split_and!; try done; try lia; [|by exists []].
    apply (f_dest_le _ _ _ _ (max_count b - 1)); [lia|done].
  - eexists. split; [done|]. simpl. rewrite Hbk, Hlo, Hxs, wrapping_add_wrap. split; [|done].
    split_and!; try done. intros E. rewrite E in Hxs. unfold blen in Hxs. simpl in Hxs. lia.
Qed.

Lemma f_book_cas c sh g t b sn count :
  (t < N)%nat → Good c sh g → booking_ok sh t b → idle g t →
  let q := src b in
  let s := sh q in
  s_stealer s = s_worker s → 1 ≤ count ≤ max_count b → count ≤ s_tail s - s_worker s →
  ∃ p' sh' g',
    booked b (wrap SHORT (s_stealer s)) count = Ret p' ∧
    Good (set_q c q (set_heads (qs c q) (pack (wrap SHORT (s_worker s + count)) (wrap SHORT (s_stealer s)))))
      sh' g' ∧
    TI sh' g' t p' sn ∧ (∀ t', t' ≠ t → env t' sh g sh' g') ∧ (∀ q', near (sh q') (sh' q')) ∧
    ∀ p, handf g t p = [] → Sim g t p Tau g' p'.
Proof.
  intros Ht HG (Hsrc & Hmax & Hdest) (Hpd & Hcl & Hho) q s Heq Hcnt Hav. pose proof (HG q) as HQ.
  destruct (f_good_bounds c sh g q HG) as (Hc & Hc2 & Hhb & Htl).
  pose proof (qi_avail _ _ _ _ _ HQ) as Hlen.
  assert (g_holder (g q) = None) as Hnone by (by apply (qi_holder _ _ _ _ _ HQ)).
  subst q s. set (xs := take (Z.to_nat count) (g_avail (g (src b)))).
  set (l := drop (Z.to_nat count) (g_avail (g (src b)))).
  assert (g_avail (g (src b)) = xs ++ l) as Hxl by (symmetry; apply take_drop).
  assert (blen xs = count) as Hxs by (unfold xs, blen in *; rewrite length_take; lia).
  assert (xs ≠ []) as Hne by (intros E; apply blen_nil in E; lia).
  pose proof (f_q_book c sh g (src b) t xs l HG Heq Hxl Hne) as HG'. cbv zeta in HG'. rewrite Hxs in HG'.
  set (sh' := <[src b := _]> sh) in HG'. set (g' := <[src b := _]> g) in HG'.
  assert (s_stealer (sh' (src b)) = s_stealer (sh (src b))) as Es
    by (unfold sh'; by rewrite fn_lookup_insert).
  destruct (f_booked_ok sh' g' t b sn xs count) as (p' & Ep & HT & Hh); try done.
  - split; [done|]. split; [done|].
    destruct (bk b); [by apply f_dest_ok_upd| |done]. destruct Hdest. split; [done|by apply f_dest_ok_upd].
  - split_and!; [| |by apply f_holds_book]; unfold g', insert, fn_insert;
      case_decide as E; (by rewrite E) || done.
  - unfold g'. by rewrite fn_lookup_insert.
  - rewrite Es. unfold g'. by rewrite fn_lookup_insert.
  - rewrite Es in Ep. exists p', sh', g'. split_and!; try done.
    + apply f_env_word. split; simpl; auto; try lia; intros t' Hne'; rewrite Hnone.
      * split; [done|congruence].
      * done.
    + apply f_near_word. split; simpl; unfold SHORT in *; lia.
    + intros p Hp. apply sim_claim with (src b) xs l; try done. intros q'. unfold g'. by rewrite f_avail_set.
Qed.

(** The loop body up to the compare-exchange. *)
Lemma f_book_count_ok c sh g t ch b hd sn :
  choice_ok N ch → Good c sh g → TI sh g t (Book2 b hd) sn → StepOK c sh g t ch (Book2 b hd) sn.
Proof.
  intros Hch HG (Hbk & Ho & (s0 & ->) & Hsn). pose proof (qi_words _ _ _ _ _ (HG (src b))) as HW.
  destruct (f_good_bounds c sh g (src b) HG) as (Hc & Hc2 & Hhb & Htl).
  pose proof Hbk as (_ & Hmax & _).
  set (n := match ch with Go n _ => n | _ => 0 end).
  assert (0 ≤ n) as Hn by (unfold n; destruct ch; simpl in *; lia).
  set (hd := pack _ _). assert (unpack hd = (wrap SHORT sn, wrap SHORT s0)) as Eu by apply unpack_pack_wrap.
  set (items := wrapping_sub SHORT (tail (qs c (src b))) (wrap SHORT sn)).
  assert (is_word SHORT items) as Hit by (apply wrap_word; unfold SHORT; lia).
  set (count := Z.min (wrap SHORT (Z.min n (max_count b))) items).
  assert (wrap SHORT (Z.min n (max_count b)) = Z.min n (max_count b)) as Emin
    by (apply wrap_small; split; lia).
  destruct (decide (wrap SHORT s0 = wrap SHORT sn)) as [Hw|Hw].
  2: { local (Done (A := A) (steal_error (bk b) Busy)); [|done].
       rewrite Eu. by rewrite bool_decide_eq_true_2 by done. }
  destruct (decide (items = 0)) as [Hi|Hi].
  { local (Done (A := A) (steal_error (bk b) Empty)); [|done]. rewrite Eu.
    rewrite bool_decide_eq_false_2 by (by intros []). fold items. by rewrite bool_decide_eq_true_2 by done. }
  destruct (decide (count = 0)) as [H0|H0].
  { local (Done (A := A) (steal_error (bk b) Empty)); [|done]. rewrite Eu.
    rewrite bool_decide_eq_false_2 by (by intros []). fold items n count.
    rewrite bool_decide_eq_false_2 by done. by rewrite bool_decide_eq_true_2 by done. }
  local (Book3 (A := A) b hd count).
  - rewrite Eu. rewrite bool_decide_eq_false_2 by (by intros []). fold items n count.
    by rewrite !bool_decide_eq_false_2 by done.
  - destruct Hit. split_and!; try done; try (unfold count in *; lia).
    + unfold hd. by rewrite Hw.
    + intros E1. enough (items = s_tail (sh (src b)) - s_worker (sh (src b))) by (unfold count; lia).
      unfold items. rewrite (w_tail _ _ HW), wrapping_sub_wrap, <- E1.
      by rewrite (wrap_between _ _ (cap (src b))) by lia.
Qed.

Lemma f_booked_observe sh b b' x y h count (p' : Pc A) sn :
  booked b h count = Ret p' → observe sh (Book3 b' x y) p' sn = sn.
Proof.
  unfold booked. intros E. destruct (bk b).
  - destruct_ret E. by injection E as <-.
  - destruct_ret E. destruct_ret E. destruct_ret E. by injection E as <-.
  - by injection E as <-.
Qed.

Lemma f_book_ok c sh g t ch p sn :
  (t < N)%nat → choice_ok N ch → Good c sh g → TI sh g t p sn → fresh_at sh p sn →
  match p with Book1 _ | Book2 _ _ | Book3 _ _ _ => True | _ => False end →
  StepOK c sh g t ch p sn.
Proof.
  intros Ht Hch HG HT Hf Hp.
  destruct p as [| | | | | | | | | | | | | | | |b|b hd|b hd count| | | | | |];
    try done; clear Hp; simpl in HT; pose proof (qi_words _ _ _ _ _ (HG (src b))) as HW;
    assert (read_view sh b (heads (qs c (src b))) (s_worker (sh (src b)))) as Hrv
      by (split; [exists (s_stealer (sh (src b))); by apply w_heads|done]).
  - local (Book2 (A := A) b (heads (qs c (src b)))); [done|]. destruct HT. by split_and!.
  - by apply f_book_count_ok.
  - destruct HT as (Hbk & Ho & -> & Hsn & Hcnt & Hav). simpl in Hf.
    destruct (f_good_bounds c sh g (src b) HG) as (Hc & Hc2 & Hhb & Htl).
    destruct (bool_decide (heads (qs c (src b)) = pack (wrap SHORT sn) (wrap SHORT sn)) &&
      negb (match ch with Go _ s => s | _ => false end)) eqn:Ecas.
    + apply andb_true_iff in Ecas as [Ecas Hsp]. apply bool_decide_eq_true in Ecas as Ew.
      rewrite (w_heads _ _ HW) in Ew. apply pack_inj in Ew as [E1 E2].
      rewrite <- E1 in E2. apply wrap_inj in E2; [|lia]. apply wrap_inj in E1; [|lia].
      destruct (f_book_cas c sh g t b sn count) as (p' & sh' & g' & Ep & HG' & HT' & Henv & Hnear & Hsim);
        try done; [by apply Hav|].
      eexists _, p', Tau, sh', g'. split_and!; [|exact HG'| |done|done|by apply Hsim].
      * simpl. rewrite unpack_pack_wrap, Ecas, Hsp. simpl. rewrite E2, E1 in Ep. rewrite Ep. simpl.
        by rewrite wrapping_add_wrap, E2, E1.
      * by rewrite (f_booked_observe _ _ _ _ _ _ _ _ _ Ep).
    + local (Book2 (A := A) b (heads (qs c (src b)))).
      * rewrite unpack_pack_wrap. by rewrite Ecas.
      * by split_and!.
Qed.

(** ** Transfers *)

(** An update of queue [q] that keeps a field keeps it everywhere. *)
Lemma f_field_upd {B} (f : GQ A → B) g q G' q' : f G' = f (g q) → f (<[q := G']> g q') = f (g q').
Proof.
  intros E. destruct (decide (q = q')) as [->|Hne]; [by rewrite fn_lookup_insert|].
  by rewrite fn_lookup_insert_ne.
Qed.

(** Moving a booked item out is invisible to the other threads. *)
Lemma f_unbook_env t q sh g x l f :
  holds g t (Some q) → g_book (g q) = x :: l →
  let G := g q in
  let g' := <[q := mkGQ f (g_lo G + 1) l (g_avail G) (g_pend G) (g_claim G) (g_holder G)]> g in
  (∀ t', t' ≠ t → env t' sh g sh g') ∧ owns g' t (g_pend (g t)) (g_claim (g t)) (Some q) ∧
  g_lo (g' q) = g_lo (g q) + 1 ∧ g_book (g' q) = l ∧ ∀ q', g_avail (g' q') = g_avail (g q').
Proof.
  intros Hh Hb G g'. assert (g_holder (g q) = Some t) as Ht by (by apply Hh).
  split; [|split; [|split; [|split]]].
  - apply f_env_mem. split; simpl; auto; try lia. intros t' Hne E. unfold G in *. congruence.
  - split; [|split; [|by apply f_holds_upd]]; by apply f_field_upd.
  - unfold g'. by rewrite fn_lookup_insert.
  - unfold g'. by rewrite fn_lookup_insert.
  - intros q'. by apply f_field_upd.
Qed.

Lemma f_move_item_ok c sh g t ch b sth off n sn :
  (t < N)%nat → Good c sh g → TI sh g t (Move b sth off n) sn → off < n →
  StepOK c sh g t ch (Move b sth off n) sn.
Proof.
  intros Ht HG (Hbk & Hoff & Hd & [-> Hhr] & Hlo & Hlen & w & (Hpd & Hcl & Hho) & Hw) Hlt.
  assert (0 ≤ extra b) by (unfold extra; destruct (bk b); lia).
  destruct (g_book (g (src b))) as [|x l] eqn:Eb; [unfold blen in Hlen; simpl in Hlen; lia|].
  rewrite blen_cons in Hlen.
  destruct (f_q_unbook c sh g (src b) x l HG Eb) as (buf & f & Er & HG1).
  destruct (f_unbook_env t (src b) sh g x l f Hho Eb) as (Henv1 & (Hpd1 & Hcl1 & Hho1) & Elo & Ebk & Eav).
  cbv zeta in Hpd1, Hcl1, Hho1, Elo, Ebk, Eav, Henv1. set (g1 := <[src b := _]> g) in *.
  rewrite Hpd in Hpd1. rewrite Hcl in Hcl1. pose proof Hd as (Edt & Hroom).
  destruct (f_q_write _ sh g1 t x HG1 Hcl1) as (buf2 & f2 & Ew & HG2); [rewrite Hpd1; lia|].
  rewrite Hpd1 in Ew, HG2. simpl in Ew, HG2.
  eexists _, (Move b _ (off + 1) n), Tau, sh, _. split_and!; [|exact HG2| | | |].
  - simpl. rewrite bool_decide_eq_true_2 by done. rewrite wrapping_add_wrap, <- Hlo, Er. simpl.
    rewrite Edt, wrapping_add_wrap, <- Hw, Ew. done.
  - simpl. rewrite !(f_field_upd g_lo), !(f_field_upd g_book), Elo, Ebk by done.
    split_and!; try done; try lia.
    + split; [done|]. by rewrite (f_field_upd g_holder), (Hho1 (src b)).
    + exists (w ++ [x]). split; [by apply f_owns_self|]. rewrite blen_app, blen_cons. unfold blen at 2. simpl. lia.
  - intros t' Hne. eapply f_env_trans; [by apply Henv1|]. apply (f_env_mem t); [|done].
    split; simpl; auto; lia.
  - intros q. apply f_near_refl.
  - apply sim_stutter.
    + intros q. rewrite <- Eav. by apply f_avail_upd.
    + simpl. rewrite (f_field_upd g_book), Ebk, fn_lookup_insert, Hpd, Eb by done. simpl.
      by rewrite <- (assoc_L (++)).
Qed.

Lemma f_read_last_ok c sh g t ch b sth n sn :
  (t < N)%nat → Good c sh g → TI sh g t (ReadLast b sth n) sn →
  StepOK c sh g t ch (ReadLast b sth n) sn.
Proof.
  intros Ht HG (Hd & [-> Hhr] & Hn & Hlo & Hlen & w & (Hpd & Hcl & Hho) & Hw).
  destruct (g_book (g (src b))) as [|x [|y l]] eqn:Eb; [done| |rewrite !blen_cons in Hlen; pose proof (blen_nonneg l); lia].
  destruct (f_q_unbook c sh g (src b) x [] HG Eb) as (buf & f & Er & HG1).
  destruct (f_unbook_env t (src b) sh g x [] f Hho Eb) as (Henv & Ho & Elo & Ebk & Eav).
  rewrite Hpd, Hcl in Ho. pose proof Ho as (Ho1 & _ & Ho3). simpl in *.
  eexists _, (Publish b _ n (RStealAndPop (inr (x, n)))), (Out x), sh, _.
  split_and!; [|exact HG1| |exact Henv|intros; apply f_near_refl|].
  - simpl. by rewrite wrapping_add_wrap, <- Hlo, Er.
  - destruct Hd as (Hd & _). simpl. split_and!; try done; [|by exists w].
    split; [done|]. by apply Ho3.
  - apply sim_return with w []; [done|simpl; by rewrite Hpd, Eb|done|]. simpl. by rewrite Ho1, app_nil_r.
Qed.

Lemma f_publish_dest_ok c sh g t ch b sth n r sn :
  (t < N)%nat → Good c sh g → TI sh g t (Publish b sth n r) sn →
  StepOK c sh g t ch (Publish b sth n r) sn.
Proof.
  intros Ht HG (Hd & [-> Hhr] & Eb & w & (Hpd & Hcl & Hho) & Hw).
  pose proof (f_q_publish c sh g t HG Hcl) as HG'. simpl in HG'. rewrite Hpd, Hw in HG'.
  destruct (f_good_bounds c sh g t HG) as (Hc & Hc2 & Hhb & Htl).
  pose proof (qi_pend _ _ _ _ _ (HG t)) as Hlen. rewrite Hpd in Hlen. pose proof (blen_nonneg w).
  eexists _, (Finish1 b _ r), Tau, _, _. split_and!; [|exact HG'| | | |].
  - simpl. by rewrite Hd, wrapping_add_wrap.
  - simpl. split_and!.
    + split; [|by rewrite (f_field_upd g_holder)].
      f_equal. unfold insert, fn_insert. case_decide as E; [by rewrite E|done].
    + by rewrite (f_field_upd g_book).
    + by apply f_owns_self.
  - apply f_env_word. split; simpl; auto; lia.
  - apply f_near_word. split; simpl; unfold SHORT in *; lia.
  - apply sim_deliver; [done| |done]. intros q. simpl. rewrite f_avail_set, Hpd. done.
Qed.

(** The completion loop: its compare-exchange can only fail because the owner
    popped, and its assertion on the stealer head holds. *)
Lemma f_finish_ok c sh g t ch b sth hd r sn :
  (t < N)%nat → Good c sh g → TI sh g t (Finish2 b sth hd r) sn →
  StepOK c sh g t ch (Finish2 b sth hd r) sn.
Proof.
  intros Ht HG ([-> Hhr] & Eb & Ho & w0 & -> & Hw0). pose proof Ho as (Hpd & Hcl & Hho).
  pose proof (qi_words _ _ _ _ _ (HG (src b))) as HW.
  destruct (f_good_bounds c sh g (src b) HG) as (Hc & Hc2 & Hhb & Htl).
  pose proof (f_q_finish c sh g (src b) HG Eb) as HG'. simpl in HG'.
  assert (is_word SHORT (wrap SHORT (s_stealer (sh (src b))))) as Hsw by (apply wrap_word; unfold SHORT; lia).
  pose proof (unpack_pack w0 (wrap SHORT (s_stealer (sh (src b)))) Hw0 Hsw) as Eu.
  destruct (bool_decide (heads (qs c (src b)) = pack w0 (wrap SHORT (s_stealer (sh (src b))))) &&
    negb (match ch with Go _ s => s | _ => false end)) eqn:Ecas.
  - apply andb_true_iff in Ecas as [Ecas Hsp]. apply bool_decide_eq_true in Ecas as Ew.
    rewrite (w_heads _ _ HW) in Ew. assert (w0 = wrap SHORT (s_worker (sh (src b)))) as ->.
    { apply (f_equal unpack) in Ew. rewrite unpack_pack_wrap, Eu in Ew. by injection Ew. }
    eexists _, (Done r), Tau, _, _. split_and!; [|exact HG'| | | |].
    + simpl. rewrite Eu. rewrite Ecas, Hsp. by rewrite bool_decide_eq_true_2 by done.
    + split_and!; [by rewrite (f_field_upd g_pend)|by rewrite (f_field_upd g_claim)|by eapply f_holds_release].
    + apply f_env_word. split; simpl; auto; try lia; intros t' Hne; [split; congruence|congruence].
    + apply f_near_word. split; simpl; unfold SHORT in *; lia.
    + apply sim_stutter; [|done]. intros q. by apply f_avail_upd.
  - local (Finish2 (A := A) b (wrap SHORT (s_stealer (sh (src b)))) (heads (qs c (src b))) r).
    + rewrite Eu, Ecas. by rewrite bool_decide_eq_true_2 by done.
    + split_and!; try done. eexists. split; [by apply w_heads|]. apply wrap_word. unfold SHORT. lia.
Qed.

Lemma f_drain_next_ok c sh g t ch b h from to sn :
  (t < N)%nat → Good c sh g → TI sh g t (DrainNext b h from to) sn →
  StepOK c sh g t ch (DrainNext b h from to) sn.
Proof.
  intros Ht HG (-> & [-> Hhr] & -> & Hne & (Hpd & Hcl & Hho)).
  destruct (f_good_bounds c sh g (src b) HG) as (Hc & Hc2 & Hhb & Htl).
  pose proof (qi_book _ _ _ _ _ (HG (src b))) as Hbb. pose proof (qi_lo _ _ _ _ _ (HG (src b))) as Hlo.
  destruct (g_book (g (src b))) as [|x l] eqn:Eb; [done|]. rewrite blen_cons in *. pose proof (blen_nonneg l).
  destruct (f_q_unbook c sh g (src b) x l HG Eb) as (buf & f & Er & HG1).
  destruct (f_unbook_env t (src b) sh g x l f Hho Eb) as (Henv & Ho & Elo & Ebk & Eav).
  rewrite Hpd, Hcl in Ho. pose proof Ho as (_ & _ & Ho3). simpl in *.
  set (end_ := g_lo (g (src b)) + (1 + blen l)).
  assert (wrap SHORT (g_lo (g (src b))) ≠ wrap SHORT end_) as Hcur.
  { unfold end_. intros E. apply wrap_inj in E; lia. }
  assert (wrap SHORT (g_lo (g (src b)) + 1) = wrap SHORT end_ ↔ l = []) as Hend.
  { unfold end_. split; [|intros ->; f_equal; unfold blen; simpl; lia]. intros E. apply wrap_inj in E; [|lia].
    apply blen_nil. lia. }
  assert (holding sh (<[src b := _]> g) t b (wrap SHORT (s_stealer (sh (src b))))) as Hh
    by (split; [done|by apply Ho3]).
  eexists _, (if bool_decide (l = []) then Finish1 b _ (RDrain None) else DrainNext b _ _ _), (Out x), sh, _.
  split_and!; [|exact HG1| |exact Henv|intros; apply f_near_refl|].
  - simpl. rewrite bool_decide_eq_false_2 by done. rewrite Er. simpl. rewrite wrapping_add_wrap.
    f_equal. f_equal. f_equal. by rewrite (bool_decide_ext _ _ Hend).
  - case_bool_decide as Hl; simpl; rewrite Ebk; [done|].
    rewrite Elo. split_and!; try done. unfold end_. f_equal. lia.
  - apply sim_return with [] l; [done|simpl; by rewrite Eb|done|].
    case_bool_decide as Hl; simpl; [by rewrite Hl|done].
Qed.

Lemma f_move_ok c sh g t ch p sn :
  (t < N)%nat → Good c sh g → TI sh g t p sn →
  match p with
  | Move _ _ _ _ | ReadLast _ _ _ | Publish _ _ _ _ | Finish1 _ _ _ | Finish2 _ _ _ _
  | DrainNext _ _ _ _ => True
  | _ => False end →
  StepOK c sh g t ch p sn.
Proof.
  intros Ht HG HT Hp.
  destruct p as [| | | | | | | | | | | | | | | | | | |b sth off n|b sth n|b sth n r|b sth r|b sth hd r|b h fr to];
    try done; clear Hp.
  - destruct (decide (off < n)) as [Hlt|Hge]; [by apply f_move_item_ok|].
    destruct HT as (Hbk & Hoff & Hd & Hhr & Hlo & Hlen & w & Ho & Hw).
    assert (off = n) as -> by lia. unfold extra in Hlen. destruct (bk b) eqn:Ek; [| |done].
    + assert (g_book (g (src b)) = []) as Eb by (apply blen_nil; lia).
      apply (f_step_local _ _ _ _ _ _ (Publish b sth n (RSteal (inr n)))); simpl; [done| | |].
      * rewrite bool_decide_eq_false_2 by lia. by rewrite Ek.
      * destruct Hd as (? & _). split_and!; try done. by exists w.
      * by rewrite Eb, app_nil_r.
    + local (ReadLast (A := A) b sth n).
      * rewrite bool_decide_eq_false_2 by lia. by rewrite Ek.
      * split_and!; try done; try lia. by exists w.
  - by apply f_read_last_ok.
  - by apply f_publish_dest_ok.
  - destruct HT as ([-> Hhr] & Eb & Ho). pose proof (qi_words _ _ _ _ _ (HG (src b))) as HW.
    local (Finish2 (A := A) b (wrap SHORT (s_stealer (sh (src b)))) (heads (qs c (src b))) r); [done|].
    split_and!; try done. eexists. split; [by apply w_heads|]. apply wrap_word. unfold SHORT. lia.
  - by apply f_finish_ok.
  - by apply f_drain_next_ok.
Qed.

Lemma f_entry_ok sh g t (o : op A) sn :
  choice_ok N (Start o) → idle g t → TI sh g t (entry o) sn ∧ handf g t (entry o) = [].
Proof. intros Hc Ho. by destruct o. Qed.

Lemma f_step_ok c sh g t ch p sn :
  (t < N)%nat → choice_ok N ch → Good c sh g → TI sh g t p sn → fresh_at sh p sn →
  StepOK c sh g t ch p sn.
Proof.
  intros Ht Hch HG HT Hf.
  destruct p; try (by apply f_push_ok); try (by apply f_extend_ok); try (by apply f_pop_ok);
    try (by apply f_dest_step_ok); try (by apply f_book_ok); try (by apply f_move_ok).
  destruct ch as [o|n sp].
  - destruct (f_entry_ok sh g t o sn Hch HT). by apply (f_step_local _ _ _ _ _ _ (entry o)).
  - by apply (f_step_local _ _ _ _ _ _ (Done r)).
Qed.

(** ** Whole runs *)

Definition Inv (σ : State A) (a : Deques A) : Prop :=
  ∃ g, Good (shared σ) (shadow σ) g ∧
    (∀ t, TI (shadow σ) g t (thread σ t) (seen σ t)) ∧
    (∀ q, avail a q = g_avail (g q)) ∧
    (∀ t, hand a t = handf g t (thread σ t)).

Lemma f_env_ext t sh sh' g : (∀ q, sh' q = sh q) → env t sh g sh' g.
Proof. intros E. split; intros; rewrite ?E; auto; done || lia. Qed.

Lemma f_hand_env t sh g sh' g' p sn :
  env t sh g sh' g' → TI sh g t p sn → handf g' t p = handf g t p.
Proof.
  intros He HT. pose proof (e_pend _ _ _ _ _ He) as Ep. pose proof (e_claim _ _ _ _ _ He) as Ec.
  assert (∀ b sth, holding sh g t b sth → g_book (g' (src b)) = g_book (g (src b))) as Hb.
  { intros b sth Hh. by apply (f_env_holding _ _ _ _ _ _ _ He Hh). }
  destruct p; simpl in *; rewrite ?Ec; try done.
  - destruct HT as (_ & _ & _ & Hh & _). by rewrite Ep, (Hb _ _ Hh).
  - destruct HT as (_ & Hh & _). by rewrite Ep, (Hb _ _ Hh).
  - destruct HT as (_ & Hh & _). by rewrite (Hb _ _ Hh).
Qed.

Lemma f_inv_step σ a e σ' : Inv σ a → step N σ e σ' → ∃ a', dstep FIFO N a e a' ∧ Inv σ' a'.
Proof.
  intros (g & HG & HT & Hav & Hha) Hs. destruct Hs as [σ t ch c' p' e Ht Hch Hf Ec].
  destruct (f_step_ok _ _ _ t ch _ _ Ht Hch HG (HT t) Hf)
    as (c1 & p1 & e1 & sh' & g' & Ec1 & HG' & HT' & Henv & Hnear & Hsim).
  rewrite Ec in Ec1. simplify_eq.
  assert (∀ q, advance (shadow σ q) (qs c1 q) = sh' q) as Esh.
  { intros q. apply f_advance_words; [by apply (qi_words _ _ _ _ _ (HG' q))|done]. }
  destruct (Hsim a Hav (Hha t)) as (a' & Hd & Hav' & Hht & Hho). exists a'. split; [done|].
  exists g'. simpl. split_and!; [|intros t'|done|intros t'].
  - intros q. simpl. rewrite Esh. apply HG'.
  - apply (f_TI_env t' sh' g'); [by apply f_env_ext|]. destruct (decide (t' = t)) as [->|Hne].
    + by rewrite !fn_lookup_insert.
    + rewrite !fn_lookup_insert_ne by done. eapply f_TI_env; [by apply Henv|done].
  - destruct (decide (t' = t)) as [->|Hne]; [by rewrite fn_lookup_insert|].
    rewrite fn_lookup_insert_ne, Hho, Hha by done. symmetry. eapply f_hand_env; [by apply Henv|done].
Qed.

Lemma f_inv_steps σ a es σ' :
  Inv σ a → steps N σ es σ' → ∃ a', dsteps FIFO N a es a' ∧ Inv σ' a'.
Proof.
  intros HI Hs. induction Hs as [σ|σ es σ' e σ'' Hs IH Hst]; [exists a; split; [constructor|done]|].
  destruct (IH HI) as (a' & Hd & HI'). destruct (f_inv_step _ _ _ _ HI' Hst) as (a'' & Hd' & HI'').
  exists a''. split; [by econstructor|done].
Qed.

End inv.

(** ** Creation and destruction *)

Lemma f_new_spec {A} (min_capacity : Z) :
  0 ≤ min_capacity ≤ MAX_CAPACITY →
  ∃ k, new (A := A) min_capacity = Ret (mkQueue 0 0 (k - 1), allocate_buffer k) ∧
    st3_cap k ∧ min_capacity ≤ k.
Proof.
  intros H. unfold new, MAX_CAPACITY in *. rewrite bool_decide_eq_true_2 by lia. simpl.
  destruct (new_capacity min_capacity H) as (Hp & Hle & Hk). pose proof (pow2_pos _ Hp).
  exists (next_power_of_two 64 min_capacity). rewrite wrap_small by (unfold is_word, SHORT in *; lia).
  rewrite checked_sub_ret by lia. simpl. done.
Qed.

Lemma f_inv_init {A} N (mins : nat → Z) Q (m : Mem A) :
  (∀ q, 0 ≤ mins q ≤ MAX_CAPACITY) → created mins Q m →
  ∃ cap, Inv N cap (init Q m) no_deques.
Proof.
  intros Hm Hc. exists (λ q, mask (Q q) + 1), (λ _, mkGQ (λ _, None) 0 [] [] [] None None).
  simpl. split_and!; try done.
  intros q. simpl. destruct (f_new_spec (A := A) (mins q) (Hm q)) as (k & E & Hk & _).
  rewrite (Hc q) in E. injection E as EQ Em. rewrite EQ, Em. simpl. rewrite Z.sub_add.
  pose proof (st3_cap_pos _ Hk). split; simpl; try done; unfold blen; simpl; try lia.
  by apply win_init.
Qed.

Lemma f_drop_loop_spec {A} cap (m : Mem A) q hi f lo off (l : list A) :
  st3_cap cap → WinRep cap (m q) hi f → at_slots f (lo + off) l →
  hi - cap ≤ lo + off → lo + off + Z.of_nat (length l) ≤ hi →
  drop_loop m q (cap - 1) (wrap SHORT lo) off (length l) = Ret l.
Proof.
  intros Hc. revert m f off. induction l as [|x l IH]; intros m f off Hw Hs Hlo Hhi; [done|]. simpl in *.
  apply at_slots_cons in Hs as [Hx Hs].
  destruct (win_read_at cap m q hi f (lo + off) x Hc Hw) as (buf & E & Hw'); [lia|done|].
  rewrite wrapping_add_wrap, E. simpl. rewrite (IH _ (<[lo + off := None]> f)); [done|..]; try lia.
  - by rewrite fn_lookup_insert.
  - rewrite Z.add_assoc. apply at_slots_upd; [done|lia].
Qed.

(** A queue with no operation under way drops what it has available. *)
Lemma f_drop_queue_spec {A} cap (c : Shared A) sh g q :
  Good cap c sh g → g_pend (g q) = [] → drop_queue c q = Ret (g_avail (g q)).
Proof.
  intros HG Hpd. destruct (f_good_bounds cap c sh g q HG) as (Hc1 & Hc2 & Hhb & Htl).
  destruct (HG q) as [Hc Hm Hw _ _ Ha _ _ HW _ S2 _ _]. rewrite Hpd in HW. unfold blen in *. simpl in HW.
  unfold drop_queue. rewrite (f_unpack_words _ _ Hw), (w_tail _ _ Hw). simpl.
  rewrite wrapping_sub_wrap, Hm, (wrap_between _ _ (cap q)) by lia.
  replace (Z.to_nat (s_tail (sh q) - s_worker (sh q))) with (length (g_avail (g q))) by lia.
  apply f_drop_loop_spec with (s_tail (sh q)) (g_slot (g q)); rewrite ?Z.add_0_r in *; done || lia.
Qed.

Lemma f_run_steps {A} N sched (σ0 σ σ' : State A) es es' :
  steps N σ0 es σ → run N sched σ es = Ret (σ', es') → steps N σ0 es' σ'.
Proof.
  revert σ es. induction sched as [|[t ch] sched IH]; intros σ es Hs E; simpl in E; [by injection E as <- <-|].
  case_bool_decide as Hg; [|done]. destruct Hg as (Ht & Hch & Hf). simpl in E.
  destruct_ret E. destruct v as [[c' p'] e].
  eapply IH; [|exact E]. eapply steps_snoc; [done|]. by eapply step_intro.
Qed.

Lemma f_quiescent_drop {A} N cap (σ : State A) a q :
  Inv N cap σ a → quiescent σ → drop_queue (shared σ) q = Ret (avail a q) ∧ hand a q = [].
Proof.
  intros (g & HG & HT & Hav & Hha) Hq. destruct (Hq q) as [r E]. pose proof (HT q) as Hi. rewrite E in Hi.
  split; [|by rewrite Hha, E]. rewrite Hav. eapply f_drop_queue_spec; [done|by apply Hi].
Qed.

(** ** A concrete schedule *)

Definition go {A} (t n : nat) : list (nat * choice A) := replicate n (t, Go 2 false).

(** Two queues of capacity 4. *)
Definition fifo_queue : Queue := mkQueue 0 0 3.
Definition fifo_state : State Z := init (λ _, fifo_queue) (λ _, allocate_buffer 4).

(** Worker 0 pushes 7, 8 and 9; worker 1 steals two items, and while it is
    moving them worker 0 pops the third. *)
Definition fifo_sched : list (nat * choice Z) :=
  (0%nat, Start (OpExtend [7; 8; 9])) :: go 0 6 ++ (1%nat, Start (OpSteal 0)) :: go 1 8 ++
  (0%nat, Start OpPop) :: go 0 4 ++ go 1 5 ++ (1%nat, Start OpPop) :: go 1 4.

Definition fifo_final : State Z * list (event Z) :=
  match run 2 fifo_sched fifo_state [] with Ret r => r | _ => (fifo_state, []) end.

Lemma fifo_created : created (λ _, 4) (λ _, fifo_queue) (λ _, allocate_buffer (A := Z) 4).
Proof. intros q. vm_compute. reflexivity. Qed.

Lemma fifo_mins (q : nat) : 0 ≤ (λ _ : nat, 4) q ≤ MAX_CAPACITY.
Proof. unfold MAX_CAPACITY, SHORT. lia. Qed.

Lemma fifo_run : steps 2 fifo_state fifo_final.2 fifo_final.1.
Proof.
  unfold fifo_final. destruct (run 2 fifo_sched fifo_state []) as [[σ es]| | |] eqn:E;
    [|apply steps_nil..]. eapply f_run_steps; [apply steps_nil|exact E].
Qed.

(** C5: the FIFO queue refines the abstract work-stealing deques.  Every
    interleaving of pushes, extends, pops, batch steals and drains on [N]
    freshly created queues, in which no booking is older than a full cycle of
    the 32-bit worker head at its compare-exchange, is matched event for event
    by a run of the atomic deques, in which owners push at the back and both
    owners and stealers take from the front; a pop reports an empty queue only
    when nothing is available.  When all operations have completed, dropping a
    queue yields exactly the items the abstract deque holds. *)
Theorem fifo_refines_deque {A} (N : nat) (mins : nat → Z) (Q : nat → Queue) (m : Mem A)
  (es : list (event A)) (σ : State A)
  (Hm : ∀ q, 0 ≤ mins q ≤ MAX_CAPACITY) (Hc : created mins Q m)
  (Hs : steps N (init Q m) es σ) :
  ∃ a, dsteps FIFO N no_deques es a ∧
    (quiescent σ → ∀ q, drop_queue (shared σ) q = Ret (avail a q)).
Proof.
  destruct (f_inv_init N mins Q m Hm Hc) as (cap & HI).
  destruct (f_inv_steps N cap _ _ _ _ HI Hs) as (a & Hd & HI'). exists a. split; [done|].
  intros Hq q. by eapply f_quiescent_drop.
Qed.

Lemma fifo_refines_deque_witness :
  ev_outs fifo_final.2 = [9; 7] ∧ ∃ a, dsteps FIFO 2 no_deques fifo_final.2 a.
Proof.
  split; [vm_compute; reflexivity|].
  destruct (fifo_refines_deque 2 (λ _, 4) (λ _, fifo_queue) (λ _, allocate_buffer 4)
    fifo_final.2 fifo_final.1 fifo_mins fifo_created fifo_run) as (a & Ha & _).
  exists a. exact Ha.
Defined.

(** No interleaving of the FIFO queue panics or has undefined behaviour:
    whatever thread moves next and whatever the environment chooses, the step
    returns.  No slot is read before it is written or after its item moved out,
    also when the owner's pops overtake a steal under way, and the assertion
    that the stealer head is unchanged when the steal completes holds. *)
Theorem fifo_steps_safe {A} (N : nat) (mins : nat → Z) (Q : nat → Queue) (m : Mem A)
  (es : list (event A)) (σ : State A) (t : nat) (ch : choice A)
  (Hm : ∀ q, 0 ≤ mins q ≤ MAX_CAPACITY) (Hc : created mins Q m)
  (Hs : steps N (init Q m) es σ)
  (Ht : (t < N)%nat) (Hch : choice_ok N ch) (Hf : fresh_at (shadow σ) (thread σ t) (seen σ t)) :
  ∃ c' p' e, code_step (shared σ) t ch (thread σ t) = Ret (c', p', e).
Proof.
  destruct (f_inv_init N mins Q m Hm Hc) as (cap & HI).
  destruct (f_inv_steps N cap _ _ _ _ HI Hs) as (a & Hd & g & HG & HT & _).
  destruct (f_step_ok N cap _ _ _ t ch _ _ Ht Hch HG (HT t) Hf) as (c' & p' & e & _ & _ & E & _).
  eauto.
Qed.

Lemma fifo_steps_safe_witness :
  ∃ c' p' e, code_step (shared fifo_final.1) 1 (Start (OpDrain 1)) (thread fifo_final.1 1) = Ret (c', p', e).
Proof.
  apply (fifo_steps_safe 2 (λ _, 4) (λ _, fifo_queue) (λ _, allocate_buffer 4)
    fifo_final.2 fifo_final.1 1 (Start (OpDrain 1)) fifo_mins fifo_created fifo_run).
  - lia.
  - simpl. lia.
  - vm_compute. exact I.
Defined.

(** Work conservation for the FIFO queue.  Once all operations have
    completed, the items accepted by pushes and extends are, up to order, the
    items returned by pops, steals and drains together with the items left in
    the queues. *)
Theorem fifo_conserves_items {A} (N : nat) (mins : nat → Z) (Q : nat → Queue) (m : Mem A)
  (es : list (event A)) (σ : State A)
  (Hm : ∀ q, 0 ≤ mins q ≤ MAX_CAPACITY) (Hc : created mins Q m)
  (Hs : steps N (init Q m) es σ) (Hq : quiescent σ) :
  ∃ left : nat → list A, (∀ q, drop_queue (shared σ) q = Ret (left q)) ∧
    ev_ins es ≡ₚ ev_outs es ++ gather left N.
Proof.
  destruct (f_inv_init N mins Q m Hm Hc) as (cap & HI).
  destruct (f_inv_steps N cap _ _ _ _ HI Hs) as (a & Hd & HI'). exists (avail a). split.
  { intros q. by eapply f_quiescent_drop. }
  pose proof (dsteps_conserved FIFO N _ _ _ Hd (no_deques_conserved N)) as Hcons.
  destruct (dsteps_logs FIFO N _ _ _ Hd) as [Hi Ho]. unfold conserved in Hcons.
  rewrite Hi, Ho in Hcons. simpl in Hcons. rewrite Hcons. f_equiv.
  rewrite (gather_ext (hand a) (λ _, [])), gather_nil; [done|].
  intros t _. by eapply f_quiescent_drop.
Qed.

Lemma fifo_conserves_items_witness :
  ∃ left : nat → list Z, left 0%nat = [] ∧ left 1%nat = [8] ∧
    ev_ins fifo_final.2 ≡ₚ ev_outs fifo_final.2 ++ gather left 2.
Proof.
  assert (quiescent fifo_final.1) as Hq.
  { intros [|[|t]]; vm_compute; eexists; reflexivity. }
  destruct (fifo_conserves_items 2 (λ _, 4) (λ _, fifo_queue) (λ _, allocate_buffer 4)
    fifo_final.2 fifo_final.1 fifo_mins fifo_created fifo_run Hq) as (left & Hl & Hp).
  exists left. split; [|split; [|exact Hp]].
  - pose proof (Hl 0%nat) as H. vm_compute in H. by injection H as <-.
  - pose proof (Hl 1%nat) as H. vm_compute in H. by injection H as <-.
Defined.
