(* ===== verification/SleepCounters.v ===== *)
(** * SleepCounters: the words of the sleep protocol

    Model of the data of [crates/youpipe/src/pool/sleep.rs] (the packed
    [AtomicCounters] word on a 64-bit target, [IdleTuning]),
    [pool/sleep_mask.rs] (the sleeping bitmask) and [pool/latch.rs]
    ([CoreLatch]).  Each function is the effect of one atomic access on the
    word it accesses; [Sleep] interleaves them. *)

From S2P Require Import Prelude.
Local Open Scope Z_scope.

(** ** Packed counters *)

Definition USIZE : Z := 64.
Definition THREADS_BITS : Z := 9.
Definition THREADS_MAX : Z := Z.shiftl 1 THREADS_BITS - 1.
Definition SLEEPING_SHIFT : Z := 0.
Definition INACTIVE_SHIFT : Z := THREADS_BITS.
Definition JEC_SHIFT : Z := 2 * THREADS_BITS.
Definition ONE_SLEEPING : Z := 1.
Definition ONE_INACTIVE : Z := Z.shiftl 1 INACTIVE_SHIFT.
Definition ONE_JEC : Z := Z.shiftl 1 JEC_SHIFT.

Definition select_thread (word shift : Z) : Z := Z.land (Z.shiftr word shift) THREADS_MAX.
Definition select_jec (word : Z) : Z := Z.shiftr word JEC_SHIFT.

(** [JobsEventCounter]. *)
Definition DUMMY : Z := 2 ^ USIZE - 1.
Definition is_sleepy (jec : Z) : bool := bool_decide (Z.land jec 1 = 0).
Definition is_active (jec : Z) : bool := negb (is_sleepy jec).

(** [Counters]. *)
Definition jobs_counter (word : Z) : Z := select_jec word.
Definition inactive_threads (word : Z) : Z := select_thread word INACTIVE_SHIFT.
Definition sleeping_threads (word : Z) : Z := select_thread word SLEEPING_SHIFT.
Definition awake_but_idle_threads (word : Z) : outcome Z :=
  guard_panic (bool_decide (sleeping_threads word ≤ inactive_threads word));;
  checked_sub (inactive_threads word) (sleeping_threads word).

(** [AtomicCounters]: the read-modify-write operations, as functions of the
    current word. *)
Definition add_inactive_thread (word : Z) : Z := wrapping_add USIZE word ONE_INACTIVE.
Definition sub_inactive_thread (word : Z) : Z * Z :=
  (wrapping_sub USIZE word ONE_INACTIVE, Z.min (sleeping_threads word) 2).
Definition sub_sleeping_thread (word : Z) : Z := wrapping_sub USIZE word ONE_SLEEPING.

(** The new value [increment_jobs_event_counter_if] tries to install. *)
Definition incremented_jec (word : Z) : Z := wrapping_add USIZE word ONE_JEC.
(** The new value [try_add_sleeping_thread] tries to install. *)
Definition with_sleeping (word : Z) : outcome Z := checked_add USIZE word ONE_SLEEPING.

(** How many sleepers [new_jobs] wakes, from the counters it observed. *)
Definition new_jobs_target (word num_jobs : Z) (queue_was_empty : bool) : outcome Z :=
  idle ← awake_but_idle_threads word;
  let num_awake_but_idle := wrap 32 idle in
  let num_sleepers := wrap 32 (sleeping_threads word) in
  if bool_decide (num_sleepers = 0) then mret 0
  else if negb queue_was_empty then mret (Z.min num_jobs num_sleepers)
  else if bool_decide (num_awake_but_idle < num_jobs)
  then d ← checked_sub num_jobs num_awake_but_idle; mret (Z.min d num_sleepers)
  else mret 0.

(** ** Idle tuning *)

Record IdleTuning : Type := mkTuning { spin : Z; yield_rounds : Z }.

Definition sleepy_round (t : IdleTuning) : outcome Z := checked_add 32 (spin t) (yield_rounds t).

(** ** The sleeping bitmask *)

Definition BITS_PER_WORD : nat := 64.
Definition MASK_WORDS : nat := 8.

Definition div_ceil (a b : nat) : nat := (a + b - 1) / b.

Definition split_index (worker_index : nat) : nat * Z :=
  ((worker_index / BITS_PER_WORD)%nat, Z.shiftl 1 (Z.of_nat (worker_index `mod` BITS_PER_WORD))).

Definition mask_new : list Z := replicate MASK_WORDS 0.

(** [!bit] on 64 bits. *)
Definition not64 (z : Z) : Z := Z.lxor z (2 ^ 64 - 1).

Definition mask_upd (words : list Z) (word : nat) (f : Z → Z) : outcome (list Z) :=
  match words !! word with
  | Some w => mret (<[word := f w]> words)
  | None => Panic
  end.

Definition mask_set (words : list Z) (worker_index : nat) : outcome (list Z) :=
  let '(word, bit) := split_index worker_index in mask_upd words word (λ w, Z.lor w bit).

Definition mask_clear (words : list Z) (worker_index : nat) : outcome (list Z) :=
  let '(word, bit) := split_index worker_index in mask_upd words word (λ w, Z.land w (not64 bit)).

(** [u64::trailing_zeros]. *)
Fixpoint trailing_zeros_from (n : nat) (k : Z) (bits : Z) : Z :=
  match n with
  | O => k
  | S n => if Z.testbit bits k then k else trailing_zeros_from n (k + 1) bits
  end.
Definition trailing_zeros (bits : Z) : Z := trailing_zeros_from 64 0 bits.

(** The next worker of a scanned word, and the bits left to scan. *)
Definition next_bit (w : nat) (bits : Z) : nat * Z :=
  let bit_pos := trailing_zeros bits in
  ((w * BITS_PER_WORD + Z.to_nat bit_pos)%nat, Z.land bits (not64 (Z.shiftl 1 bit_pos))).

(** ** Core latches *)

Definition UNSET : Z := 0.
Definition SLEEPY : Z := 1.
Definition SLEEPING : Z := 2.
Definition SET : Z := 3.

Definition compare_exchange (state current new : Z) : Z * bool :=
  if bool_decide (state = current) then (new, true) else (state, false).

Definition get_sleepy (state : Z) : Z * bool := compare_exchange state UNSET SLEEPY.
Definition fall_asleep (state : Z) : Z * bool := compare_exchange state SLEEPY SLEEPING.
Definition latch_set (state : Z) : Z * bool := (SET, bool_decide (state = SLEEPING)).
Definition probe (state : Z) : bool := bool_decide (state = SET).
(** The second access of [wake_up], after an unsuccessful [probe]. *)
Definition wake_up_exchange (state : Z) : Z := (compare_exchange state SLEEPING UNSET).1.

(** ** Lemmas: the packed word *)

(** The word that holds the event counter [J], [I] inactive and [S] sleeping
    threads. *)
Definition enc (J I S : Z) : Z := J * 2 ^ 18 + I * 2 ^ 9 + S.

Definition enc_ok (J I S : Z) : Prop := 0 ≤ J < 2 ^ 46 ∧ 0 ≤ I ≤ 511 ∧ 0 ≤ S ≤ 511.

Lemma land_511 z : Z.land z 511 = z mod 512.
Proof. change 511 with (Z.ones 9). by rewrite Z.land_ones. Qed.

Lemma enc_sleeping J I S : enc_ok J I S → sleeping_threads (enc J I S) = S.
Proof.
  intros (HJ & HI & HS). unfold sleeping_threads, select_thread, SLEEPING_SHIFT.
  change THREADS_MAX with 511. rewrite land_511, Z.shiftr_0_r. unfold enc.
  rewrite <- (Z.mod_small S 512) at 2 by lia.
  replace (J * 2 ^ 18 + I * 2 ^ 9 + S) with (S + (J * 2 ^ 9 + I) * 512) by lia.
  apply Z.mod_add. lia.
Qed.

Lemma enc_shiftr9 J I S : enc_ok J I S → Z.shiftr (enc J I S) 9 = J * 2 ^ 9 + I.
Proof.
  intros (HJ & HI & HS). rewrite Z.shiftr_div_pow2 by lia. unfold enc.
  replace (J * 2 ^ 18 + I * 2 ^ 9 + S) with (S + (J * 2 ^ 9 + I) * 2 ^ 9) by lia.
  rewrite Z.div_add by lia. rewrite Z.div_small by lia. lia.
Qed.

Lemma enc_inactive J I S : enc_ok J I S → inactive_threads (enc J I S) = I.
Proof.
  intros H. unfold inactive_threads, select_thread, INACTIVE_SHIFT, THREADS_BITS.
  rewrite enc_shiftr9 by done. change THREADS_MAX with 511. rewrite land_511.
  destruct H as (HJ & HI & HS). rewrite <- (Z.mod_small I 512) at 2 by lia.
  replace (J * 2 ^ 9 + I) with (I + J * 512) by lia. apply Z.mod_add. lia.
Qed.

Lemma enc_jec J I S : enc_ok J I S → jobs_counter (enc J I S) = J.
Proof.
  intros (HJ & HI & HS). unfold jobs_counter, select_jec, JEC_SHIFT, THREADS_BITS.
  rewrite Z.shiftr_div_pow2 by lia. unfold enc.
  change (2 ^ (2 * 9)) with (2 ^ 18).
  replace (J * 2 ^ 18 + I * 2 ^ 9 + S) with (I * 2 ^ 9 + S + J * 2 ^ 18) by lia.
  rewrite Z.div_add by lia. rewrite Z.div_small by lia. lia.
Qed.

Lemma enc_word J I S : enc_ok J I S → 0 ≤ enc J I S < 2 ^ 64.
Proof. unfold enc_ok, enc. lia. Qed.

Lemma enc_add_inactive J I S :
  enc_ok J I S → I < 511 → add_inactive_thread (enc J I S) = enc J (I + 1) S.
Proof.
  intros H HI. unfold add_inactive_thread, wrapping_add, USIZE. change ONE_INACTIVE with (2 ^ 9).
  assert (enc_ok J (I + 1) S) as H' by (unfold enc_ok in *; lia). apply enc_word in H'.
  unfold enc in *. rewrite wrap_small by (split; lia). lia.
Qed.

Lemma enc_sub_inactive J I S :
  enc_ok J I S → 0 < I → sub_inactive_thread (enc J I S) = (enc J (I - 1) S, Z.min S 2).
Proof.
  intros H HI. unfold sub_inactive_thread, wrapping_sub, USIZE. rewrite enc_sleeping by done.
  change ONE_INACTIVE with (2 ^ 9). f_equal.
  assert (enc_ok J (I - 1) S) as H' by (unfold enc_ok in *; lia). apply enc_word in H'.
  unfold enc in *. rewrite wrap_small by (split; lia). lia.
Qed.

Lemma enc_sub_sleeping J I S :
  enc_ok J I S → 0 < S → sub_sleeping_thread (enc J I S) = enc J I (S - 1).
Proof.
  intros H HS. unfold sub_sleeping_thread, wrapping_sub, USIZE. change ONE_SLEEPING with 1.
  assert (enc_ok J I (S - 1)) as H' by (unfold enc_ok in *; lia). apply enc_word in H'.
  unfold enc in *. rewrite wrap_small by (split; lia). lia.
Qed.

Lemma enc_with_sleeping J I S :
  enc_ok J I S → S < 511 → with_sleeping (enc J I S) = Ret (enc J I (S + 1)).
Proof.
  intros H HS. unfold with_sleeping, USIZE. change ONE_SLEEPING with 1.
  assert (enc_ok J I (S + 1)) as H' by (unfold enc_ok in *; lia). apply enc_word in H'.
  unfold enc in *. rewrite checked_add_ret by lia. f_equal. lia.
Qed.

(** The event counter wraps without touching the thread counts. *)
Lemma enc_incremented J I S :
  enc_ok J I S → incremented_jec (enc J I S) = enc ((J + 1) mod 2 ^ 46) I S.
Proof.
  intros H. unfold incremented_jec, wrapping_add, wrap, USIZE. change ONE_JEC with (2 ^ 18).
  pose proof (enc_word _ _ _ H) as Hw. destruct H as (HJ & HI & HS).
  destruct (decide (J + 1 = 2 ^ 46)) as [E|E].
  - rewrite E, Z.mod_same by lia. unfold enc in *.
    replace (J * 2 ^ 18 + I * 2 ^ 9 + S + 2 ^ 18) with (I * 2 ^ 9 + S + 1 * 2 ^ 64) by lia.
    rewrite Z.mod_add by lia. rewrite Z.mod_small; lia.
  - rewrite (Z.mod_small (J + 1)) by lia. unfold enc in *. rewrite Z.mod_small; lia.
Qed.

Lemma enc_awake J I S : enc_ok J I S → S ≤ I → awake_but_idle_threads (enc J I S) = Ret (I - S).
Proof.
  intros H HS. unfold awake_but_idle_threads. rewrite enc_sleeping, enc_inactive by done.
  rewrite bool_decide_eq_true_2 by done. simpl. by rewrite checked_sub_ret.
Qed.

Lemma enc_inj J I S J' I' S' :
  enc_ok J I S → enc_ok J' I' S' → enc J I S = enc J' I' S' → J = J' ∧ I = I' ∧ S = S'.
Proof.
  intros H H' E. split_and!.
  - rewrite <- (enc_jec J I S), <- (enc_jec J' I' S') by done. by rewrite E.
  - rewrite <- (enc_inactive J I S), <- (enc_inactive J' I' S') by done. by rewrite E.
  - rewrite <- (enc_sleeping J I S), <- (enc_sleeping J' I' S') by done. by rewrite E.
Qed.

(** What a poster decides from consistent counters. *)
Lemma new_jobs_target_spec J I S k e :
  enc_ok J I S → S ≤ I → 0 ≤ k →
  ∃ target, new_jobs_target (enc J I S) k e = Ret target ∧ 0 ≤ target ≤ S ∧
    (1 ≤ S → 1 ≤ k → I = S → 1 ≤ target).
Proof.
  intros H HS Hk. unfold new_jobs_target. rewrite enc_awake, enc_sleeping by done. simpl.
  destruct H as (HJ & HI & HS'). rewrite !wrap_small by (split; lia).
  case_bool_decide; [eexists; split; [reflexivity|]; lia|]. destruct e; simpl.
  - case_bool_decide; [|eexists; split; [reflexivity|]; lia].
    rewrite checked_sub_ret by lia. simpl. eexists. split; [reflexivity|]. lia.
  - eexists. split; [reflexivity|]. lia.
Qed.

(** ** Lemmas: the mask *)

(** Bit [i] of the mask. *)
Definition mask_bit (words : list Z) (i : nat) : bool :=
  match words !! (i / BITS_PER_WORD)%nat with
  | Some w => Z.testbit w (Z.of_nat (i `mod` BITS_PER_WORD))
  | None => false
  end.

Definition mask_ok (words : list Z) : Prop := length words = MASK_WORDS ∧ Forall (is_word 64) words.

Lemma testbit_word w k : is_word 64 w → 64 ≤ k → Z.testbit w k = false.
Proof.
  intros [H0 H1] Hk. destruct (decide (w = 0)) as [->|Hne]; [apply Z.bits_0|].
  pose proof (Z.pow_le_mono_r 2 64 k ltac:(lia) Hk).
  apply Z.bits_above_log2, Z.log2_lt_pow2; lia.
Qed.

Lemma word_of_testbit w : 0 ≤ w → (∀ k, 64 ≤ k → Z.testbit w k = false) → is_word 64 w.
Proof.
  intros H0 Hk. split; [done|]. destruct (decide (w = 0)) as [->|Hne]; [lia|].
  apply Z.log2_lt_pow2; [lia|]. destruct (decide (Z.log2 w < 64)); [done|].
  specialize (Hk (Z.log2 w) ltac:(lia)). rewrite Z.bit_log2 in Hk by lia. done.
Qed.

Lemma testbit_one k j : 0 ≤ k → Z.testbit (Z.shiftl 1 k) j = bool_decide (j = k).
Proof.
  intros Hk. rewrite Z.shiftl_1_l. case_bool_decide as E.
  - subst. by apply Z.pow2_bits_true.
  - apply Z.pow2_bits_false. lia.
Qed.

Lemma testbit_not64 z k : 0 ≤ k < 64 → Z.testbit (not64 z) k = negb (Z.testbit z k).
Proof.
  intros Hk. unfold not64. rewrite Z.lxor_spec. change (2 ^ 64 - 1) with (Z.ones 64).
  rewrite Z.ones_spec_low by lia. by destruct (Z.testbit z k).
Qed.

Lemma word_lor w k : is_word 64 w → 0 ≤ k < 64 → is_word 64 (Z.lor w (Z.shiftl 1 k)).
Proof.
  intros Hw Hk. apply word_of_testbit.
  - apply Z.lor_nonneg. split; [apply Hw|]. apply Z.shiftl_nonneg. lia.
  - intros j Hj. rewrite Z.lor_spec, testbit_one by lia. rewrite (testbit_word w) by done.
    rewrite bool_decide_eq_false_2 by lia. done.
Qed.

Lemma word_land w z : is_word 64 w → is_word 64 (Z.land w z).
Proof.
  intros Hw. apply word_of_testbit.
  - apply Z.land_nonneg. left. apply Hw.
  - intros j Hj. rewrite Z.land_spec, (testbit_word w) by done. done.
Qed.

Lemma trailing_zeros_spec n k bits :
  0 ≤ k → (∃ j, k ≤ j < k + Z.of_nat n ∧ Z.testbit bits j = true) →
  k ≤ trailing_zeros_from n k bits < k + Z.of_nat n ∧
  Z.testbit bits (trailing_zeros_from n k bits) = true.
Proof.
  revert k. induction n as [|n IH]; intros k Hk (j & Hj & Hb); [lia|]. simpl.
  destruct (Z.testbit bits k) eqn:E; [split; [lia|done]|].
  destruct (IH (k + 1)) as [H1 H2]; [lia| |split; [lia|done]].
  exists j. split; [|done]. destruct (decide (j = k)); [congruence|lia].
Qed.

Lemma word_nonzero_bit w : is_word 64 w → w ≠ 0 → ∃ j, 0 ≤ j < 64 ∧ Z.testbit w j = true.
Proof.
  intros Hw Hne. exists (Z.log2 w). destruct Hw. split; [|apply Z.bit_log2; lia].
  split; [apply Z.log2_nonneg|]. apply Z.log2_lt_pow2; lia.
Qed.

Lemma trailing_zeros_bit w :
  is_word 64 w → w ≠ 0 → 0 ≤ trailing_zeros w < 64 ∧ Z.testbit w (trailing_zeros w) = true.
Proof.
  intros Hw Hne. destruct (word_nonzero_bit w Hw Hne) as (j & Hj & Hb).
  destruct (trailing_zeros_spec 64 0 w) as [H1 H2]; [lia|exists j; split; [lia|done]|].
  by split.
Qed.

Lemma index_split (i j : nat) :
  (i / BITS_PER_WORD = j / BITS_PER_WORD → i `mod` BITS_PER_WORD = j `mod` BITS_PER_WORD → i = j)%nat.
Proof.
  unfold BITS_PER_WORD. intros E1 E2.
  rewrite (Nat.div_mod_eq i 64), (Nat.div_mod_eq j 64). by rewrite E1, E2.
Qed.

Lemma mask_upd_bit words i f (b : bool) :
  mask_ok words → (i < 512)%nat →
  (∀ w, is_word 64 w → is_word 64 (f w)) →
  (∀ w k, 0 ≤ k < 64 → Z.testbit (f w) k =
     if bool_decide (k = Z.of_nat (i `mod` BITS_PER_WORD)) then b else Z.testbit w k) →
  ∃ words', mask_upd words (i / BITS_PER_WORD)%nat f = Ret words' ∧ mask_ok words' ∧
    ∀ j, mask_bit words' j = if decide (j = i) then b else mask_bit words j.
Proof.
  intros [Hl HF] Hi Hf Hb. unfold mask_upd.
  assert (i / BITS_PER_WORD < 8)%nat as Hw by (apply Nat.Div0.div_lt_upper_bound; unfold BITS_PER_WORD; lia).
  destruct (lookup_lt_is_Some_2 words (i / BITS_PER_WORD)%nat) as [w Ew]; [unfold MASK_WORDS in Hl; lia|].
  rewrite Ew. eexists. split; [done|]. split.
  { split; [by rewrite length_insert|]. apply Forall_insert; [done|].
    apply Hf. by eapply Forall_lookup_1. }
  intros j. unfold mask_bit. pose proof (Nat.mod_upper_bound j BITS_PER_WORD ltac:(done)) as Hm.
  unfold BITS_PER_WORD at 2 in Hm.
  destruct (decide (i / BITS_PER_WORD = j / BITS_PER_WORD)%nat) as [Eq|Hne].
  - rewrite <- Eq, list_lookup_insert_eq, Ew by (apply lookup_lt_Some in Ew; lia).
    rewrite Hb by lia. case_bool_decide as E2.
    + rewrite decide_True; [done|]. apply index_split; [done|]. lia.
    + rewrite decide_False; [done|]. congruence.
  - rewrite list_lookup_insert_ne by done. rewrite decide_False by congruence. done.
Qed.

Lemma mask_set_bit words i :
  mask_ok words → (i < 512)%nat →
  ∃ words', mask_set words i = Ret words' ∧ mask_ok words' ∧
    ∀ j, mask_bit words' j = if decide (j = i) then true else mask_bit words j.
Proof.
  intros Hok Hi. pose proof (Nat.mod_upper_bound i BITS_PER_WORD ltac:(done)) as Hm.
  unfold BITS_PER_WORD in Hm at 2. apply mask_upd_bit; [done|done| |].
  - intros w Hw. apply word_lor; [done|lia].
  - intros w k Hk. rewrite Z.lor_spec, testbit_one by lia. case_bool_decide; [|by rewrite orb_false_r].
    by rewrite orb_true_r.
Qed.

Lemma mask_clear_bit words i :
  mask_ok words → (i < 512)%nat →
  ∃ words', mask_clear words i = Ret words' ∧ mask_ok words' ∧
    ∀ j, mask_bit words' j = if decide (j = i) then false else mask_bit words j.
Proof.
  intros Hok Hi. pose proof (Nat.mod_upper_bound i BITS_PER_WORD ltac:(done)) as Hm.
  unfold BITS_PER_WORD in Hm at 2. apply mask_upd_bit; [done|done| |].
  - intros w Hw. by apply word_land.
  - intros w k Hk. rewrite Z.land_spec, testbit_not64, testbit_one by lia.
    case_bool_decide; [by rewrite andb_false_r|by rewrite andb_true_r].
Qed.

Lemma mask_new_ok : mask_ok mask_new.
Proof. split; [done|]. apply Forall_replicate. split; lia. Qed.

Lemma mask_new_bit i : mask_bit mask_new i = false.
Proof.
  unfold mask_bit, mask_new. destruct (replicate _ _ !! _) as [w|] eqn:E; [|done].
  apply lookup_replicate in E as [-> _]. apply Z.bits_0.
Qed.

(** The worker a scan proposes has its bit in the scanned bits. *)
Lemma next_bit_spec w bits :
  is_word 64 bits → bits ≠ 0 →
  let '(i, rest) := next_bit w bits in
  (i / BITS_PER_WORD = w)%nat ∧ Z.testbit bits (Z.of_nat (i `mod` BITS_PER_WORD)) = true ∧
  is_word 64 rest ∧
  ∀ k, 0 ≤ k < 64 → Z.testbit rest k = true → Z.testbit bits k = true.
Proof.
  intros Hw Hne. unfold next_bit. destruct (trailing_zeros_bit bits Hw Hne) as [Ht Hb].
  set (p := trailing_zeros bits) in *.
  assert (((w * BITS_PER_WORD + Z.to_nat p) / BITS_PER_WORD = w)%nat) as E1.
  { unfold BITS_PER_WORD. rewrite Nat.div_add_l by lia. rewrite Nat.div_small by lia. lia. }
  assert (((w * BITS_PER_WORD + Z.to_nat p) `mod` BITS_PER_WORD = Z.to_nat p)%nat) as E2.
  { unfold BITS_PER_WORD. rewrite Nat.add_comm, Nat.Div0.mod_add. apply Nat.mod_small. lia. }
  split_and!; [done| |by apply word_land|].
  - rewrite E2, Z2Nat.id by lia. done.
  - intros k Hk. rewrite Z.land_spec. by intros [? _]%andb_true_iff.
Qed.
