(* ===== verification/Sleep.v ===== *)
(** * Sleep: parking and waking the workers of a pool

    Model of the protocol of [crates/youpipe/src/pool/sleep.rs] with the wait
    loop of [pool/registry.rs] around it, interleaved at every access to shared
    memory, which is sequentially consistent.  Threads [0 .. n-1] are the
    workers of the pool; any other number is a thread outside of it.  Between
    operations a thread is [Active] (it runs jobs or client code) and may
    start:
    - [OpWait l], worker only: wait on latch [l], looking for work and
      eventually parking ([wait_until]);
    - [OpInject k]: queue [k] jobs in the injector and tell the sleepers
      ([Registry::inject], [inject_batch]);
    - [OpInternal k e]: announce [k] jobs pushed on a local deque that was
      empty or not ([new_internal_jobs]);
    - [OpSet l]: set latch [l] and wake its owner if it sleeps;
    - [OpPop]: take a job from the injector ([pop_injected_job]).
    The injector is the number of jobs it holds.  Local deques are left to the
    environment, which decides whether a worker finds a job in its own or a
    peer's deque.  A condition variable may wake spuriously.  Executing a job
    inside the wait loop returns to its head, which is [OpWait] again. *)

From stdpp Require Import functions relations.
From S2P Require Import Prelude SleepCounters.
Local Open Scope Z_scope.

(** [IdleState]. *)
Record IdleState : Type := mkIdle {
  worker_index : nat;
  rounds : Z;
  tuning : IdleTuning;
  idle_jec : Z;
}.

Definition wake_fully (idle : IdleState) : IdleState :=
  mkIdle (worker_index idle) 0 (tuning idle) DUMMY.

Definition wake_partly (idle : IdleState) : outcome IdleState :=
  r ← sleepy_round (tuning idle); mret (mkIdle (worker_index idle) r (tuning idle) DUMMY).

Definition next_round (idle : IdleState) : outcome IdleState :=
  r ← checked_add 32 (rounds idle) 1;
  mret (mkIdle (worker_index idle) r (tuning idle) (idle_jec idle)).

Definition with_jec (idle : IdleState) (jec : Z) : IdleState :=
  mkIdle (worker_index idle) (rounds idle) (tuning idle) jec.

(** A suspended [wake_scan]: the locals of the scan. *)
Record Scan : Type := mkScan { target : Z; woken : Z; scan_word : nat; scan_bits : Z }.

Inductive Pc : Type :=
  | Active
  (* [wait_until], [wait_until_cold], [find_work] *)
  | WProbe (l : nat)
  | WLocal (l : nat)
  | LProbe (l : nat) (idle : IdleState)
  | LLocal (l : nat) (idle : IdleState)
  | LEmpty (l : nat) (idle : IdleState)
  | LPop (l : nat) (idle : IdleState)
  | LSteal (l : nat) (idle : IdleState)
  | NoWork (l : nat) (idle : IdleState)
  (* [announce_sleepy] *)
  | Ann1 (l : nat) (idle : IdleState)
  | Ann2 (l : nat) (idle : IdleState) (old : Z)
  (* [sleep] *)
  | GetSleepy (l : nat) (idle : IdleState)
  | LockSelf (l : nat) (idle : IdleState)
  | FallAsleep (l : nat) (idle : IdleState)
  | MaskSet (l : nat) (idle : IdleState)
  | LoadCtr (l : nat) (idle : IdleState)
  | AddSleeping (l : nat) (idle : IdleState) (ctr : Z)
  | JecClear (l : nat) (idle : IdleState)
  | FinalCheck (l : nat) (idle : IdleState)
  | SubSelf (l : nat) (idle : IdleState)
  | ClearSelf (l : nat) (idle : IdleState)
  | SetBlocked (l : nat) (idle : IdleState)
  | WaitLoop (l : nat) (idle : IdleState)
  | Parked (l : nat) (idle : IdleState)
  | Relock (l : nat) (idle : IdleState)
  | WakeUp1 (l : nat) (idle : IdleState)
  | WakeUp2 (l : nat) (idle : IdleState)
  | UnlockSelf (l : nat) (idle : IdleState)
  (* [work_found] *)
  | WorkFound
  (* [inject_batch], [new_jobs] *)
  | InjEmpty (k : Z)
  | InjPush (k : Z) (queue_was_empty : bool)
  | NewJobs1 (k : Z) (queue_was_empty : bool)
  | NewJobs2 (k : Z) (queue_was_empty : bool) (old : Z)
  (* [SpinLatch::set] *)
  | SetLatch (l : nat)
  (* [wake_scan] *)
  | ScanW (target woken : Z) (w : nat)
  | ScanB (target woken : Z) (w : nat) (bits : Z)
  (* [wake_specific_thread], called by a scan or for a latch *)
  | WkLock (i : nat) (k : option Scan)
  | WkCheck (i : nat) (k : option Scan)
  | WkClear (i : nat) (k : option Scan)
  | WkSub (i : nat) (k : option Scan)
  | WkUnlock (i : nat) (k : option Scan) (r : bool)
  | WkNotify (i : nat) (k : option Scan)
  (* [pop_injected_job] *)
  | PopEmpty
  | PopTake.

Inductive op : Type :=
  | OpWait (l : nat)
  | OpInject (k : Z)
  | OpInternal (k : Z) (queue_was_empty : bool)
  | OpSet (l : nat)
  | OpPop.

(** What the environment chooses: the operation an active thread starts;
    whether a worker finds a job in a deque; whether a wait wakes spuriously. *)
Inductive choice : Type :=
  | Start (o : op)
  | Go (b : bool).

(** Shared memory: the counters, the mask, per worker the mutex-protected flag
    [is_blocked], the holder of that mutex and whether it waits on its
    condition variable; the latches; the number of injected jobs. *)
Record Shared : Type := mkShared {
  word : Z;
  words : list Z;
  blocked : nat → bool;
  lock : nat → option nat;
  waiter : nat → bool;
  latch : nat → Z;
  jobs : Z;
}.

Definition set_word (c : Shared) (v : Z) : Shared :=
   mkShared v (words c) (blocked c) (lock c) (waiter c) (latch c) (jobs c).
Definition set_words (c : Shared) (v : list Z) : Shared :=
   mkShared (word c) v (blocked c) (lock c) (waiter c) (latch c) (jobs c).
Definition set_blocked (c : Shared) (i : nat) (b : bool) : Shared :=
  mkShared (word c) (words c) (<[i := b]> (blocked c)) (lock c) (waiter c) (latch c) (jobs c).
Definition set_lock (c : Shared) (i : nat) (o : option nat) : Shared :=
  mkShared (word c) (words c) (blocked c) (<[i := o]> (lock c)) (waiter c) (latch c) (jobs c).
Definition set_waiter (c : Shared) (i : nat) (b : bool) : Shared :=
  mkShared (word c) (words c) (blocked c) (lock c) (<[i := b]> (waiter c)) (latch c) (jobs c).
Definition set_latch (c : Shared) (l : nat) (v : Z) : Shared :=
  mkShared (word c) (words c) (blocked c) (lock c) (waiter c) (<[l := v]> (latch c)) (jobs c).
Definition set_jobs (c : Shared) (v : Z) : Shared :=
   mkShared (word c) (words c) (blocked c) (lock c) (waiter c) (latch c) v.

Section code.
Variables (n : nat) (env_tuning : IdleTuning) (owner : nat → nat).
Implicit Types (c : Shared) (t l i : nat).

(** [start_looking]. *)
Definition start_looking t : IdleState := mkIdle t 0 env_tuning DUMMY.

(** [wait_until], [wait_until_cold] and [find_work]. *)
Definition wait_step c t (b : bool) (p : Pc) : outcome (Shared * Pc) :=
  match p with
  | WProbe l => mret (c, if probe (latch c l) then Active else WLocal l)
  | WLocal l =>
      if b then mret (c, Active)
      else mret (set_word c (add_inactive_thread (word c)), LProbe l (start_looking t))
  | LProbe l idle => mret (c, if probe (latch c l) then WorkFound else LLocal l idle)
  | LLocal l idle => mret (c, if b then WorkFound else LEmpty l idle)
  | LEmpty l idle => mret (c, if bool_decide (jobs c = 0) then LSteal l idle else LPop l idle)
  | LPop l idle =>
      if bool_decide (jobs c = 0) then mret (c, LSteal l idle)
      else mret (set_jobs c (jobs c - 1), WorkFound)
  | LSteal l idle => mret (c, if b then WorkFound else NoWork l idle)
  | _ => mret (c, p)
  end.

(** [no_work_found] up to its calls, and [announce_sleepy]. *)
Definition no_work_step c (p : Pc) : outcome (Shared * Pc) :=
  match p with
  | NoWork l idle =>
      sleepy ← sleepy_round (tuning idle);
      if bool_decide (rounds idle < spin (tuning idle))
      then idle' ← next_round idle; mret (c, LProbe l idle')
      else if bool_decide (rounds idle < sleepy)
      then idle' ← next_round idle; mret (c, LProbe l idle')
      else if bool_decide (rounds idle = sleepy) then mret (c, Ann1 l idle)
      else mret (c, GetSleepy l idle)
  | Ann1 l idle =>
      let old := word c in
      if is_active (jobs_counter old) then mret (c, Ann2 l idle old)
      else idle' ← next_round (with_jec idle (jobs_counter old)); mret (c, LProbe l idle')
  | Ann2 l idle old =>
      let new := incremented_jec old in
      if bool_decide (word c = old)
      then idle' ← next_round (with_jec idle (jobs_counter new)); mret (set_word c new, LProbe l idle')
      else mret (c, Ann1 l idle)
  | _ => mret (c, p)
  end.

(** [sleep]; the guard of the mutex is dropped at [UnlockSelf]. *)
Definition sleep_step c t (b : bool) (p : Pc) : outcome (Shared * Pc) :=
  match p with
  | GetSleepy l idle =>
      let '(st, ok) := get_sleepy (latch c l) in
      mret (set_latch c l st, if ok then LockSelf l idle else LProbe l idle)
  | LockSelf l idle =>
      guard_panic (bool_decide (worker_index idle < n)%nat);;
      match lock c (worker_index idle) with
      | None => mret (set_lock c (worker_index idle) (Some t), FallAsleep l idle)
      | Some _ => mret (c, p)
      end
  | FallAsleep l idle =>
      let '(st, ok) := fall_asleep (latch c l) in
      mret (set_latch c l st, if ok then MaskSet l idle else UnlockSelf l (wake_fully idle))
  | MaskSet l idle =>
      m ← mask_set (words c) (worker_index idle); mret (set_words c m, LoadCtr l idle)
  | LoadCtr l idle =>
      let counters := word c in
      if bool_decide (jobs_counter counters ≠ idle_jec idle) then mret (c, JecClear l idle)
      else mret (c, AddSleeping l idle counters)
  | AddSleeping l idle counters =>
      new ← with_sleeping counters;
      if bool_decide (word c = counters) then mret (set_word c new, FinalCheck l idle)
      else mret (c, LoadCtr l idle)
  | JecClear l idle =>
      m ← mask_clear (words c) (worker_index idle);
      idle' ← wake_partly idle; mret (set_words c m, WakeUp1 l idle')
  | FinalCheck l idle =>
      mret (c, if bool_decide (jobs c = 0) then SetBlocked l idle else SubSelf l idle)
  | SubSelf l idle => mret (set_word c (sub_sleeping_thread (word c)), ClearSelf l idle)
  | ClearSelf l idle =>
      m ← mask_clear (words c) (worker_index idle); mret (set_words c m, WakeUp1 l (wake_fully idle))
  | SetBlocked l idle => mret (set_blocked c (worker_index idle) true, WaitLoop l idle)
  | WaitLoop l idle =>
      if blocked c (worker_index idle)
      then mret (set_lock (set_waiter c (worker_index idle) true) (worker_index idle) None, Parked l idle)
      else mret (c, WakeUp1 l (wake_fully idle))
  | Parked l idle =>
      if b || negb (waiter c (worker_index idle))
      then mret (set_waiter c (worker_index idle) false, Relock l idle)
      else mret (c, p)
  | Relock l idle =>
      match lock c (worker_index idle) with
      | None => mret (set_lock c (worker_index idle) (Some t), WaitLoop l idle)
      | Some _ => mret (c, p)
      end
  | WakeUp1 l idle => mret (c, if probe (latch c l) then UnlockSelf l idle else WakeUp2 l idle)
  | WakeUp2 l idle => mret (set_latch c l (wake_up_exchange (latch c l)), UnlockSelf l idle)
  | UnlockSelf l idle => mret (set_lock c (worker_index idle) None, LProbe l idle)
  | _ => mret (c, p)
  end.

(** [wake_scan]: [wake_any_threads] with [num_to_wake] as its target. *)
Definition wake_any_threads (num_to_wake : Z) : Pc :=
  if bool_decide (num_to_wake = 0) then Active else ScanW num_to_wake 0 0.

(** Back in the caller of [wake_specific_thread]. *)
Definition woke (k : option Scan) (r : bool) : outcome Pc :=
  match k with
  | None => mret Active
  | Some s =>
      if r then
        wk ← checked_add 32 (woken s) 1;
        if bool_decide (target s ≤ wk) then mret Active
        else mret (ScanB (target s) wk (scan_word s) (scan_bits s))
      else if bool_decide (woken s < target s) then mret (ScanW (target s) (woken s) 0)
      else mret Active
  end.

Definition scan_step c (p : Pc) : outcome (Shared * Pc) :=
  match p with
  | ScanW tg wk w =>
      if bool_decide (w < div_ceil n BITS_PER_WORD)%nat
      then match words c !! w with
           | Some bits => mret (c, ScanB tg wk w bits)
           | None => mret (c, Active)
           end
      else mret (c, Active)
  | ScanB tg wk w bits =>
      if bool_decide (bits = 0) then mret (c, ScanW tg wk (S w))
      else let '(i, rest) := next_bit w bits in mret (c, WkLock i (Some (mkScan tg wk w rest)))
  | _ => mret (c, p)
  end.

(** [wake_specific_thread]. *)
Definition wake_step c t (p : Pc) : outcome (Shared * Pc) :=
  match p with
  | WkLock i k =>
      guard_panic (bool_decide (i < n)%nat);;
      match lock c i with
      | None => mret (set_lock c i (Some t), WkCheck i k)
      | Some _ => mret (c, p)
      end
  | WkCheck i k =>
      if blocked c i then mret (set_blocked c i false, WkClear i k)
      else mret (c, WkUnlock i k false)
  | WkClear i k => m ← mask_clear (words c) i; mret (set_words c m, WkSub i k)
  | WkSub i k => mret (set_word c (sub_sleeping_thread (word c)), WkUnlock i k true)
  | WkUnlock i k r =>
      if r then mret (set_lock c i None, WkNotify i k)
      else p' ← woke k false; mret (set_lock c i None, p')
  | WkNotify i k => p' ← woke k true; mret (set_waiter c i false, p')
  | _ => mret (c, p)
  end.

(** [inject_batch], [new_injected_jobs] and [new_jobs]. *)
Definition post_step c (p : Pc) : outcome (Shared * Pc) :=
  match p with
  | InjEmpty k => mret (c, InjPush k (bool_decide (jobs c = 0)))
  | InjPush k e => mret (set_jobs c (jobs c + k), NewJobs1 k e)
  | NewJobs1 k e =>
      let old := word c in
      if is_sleepy (jobs_counter old) then mret (c, NewJobs2 k e old)
      else tg ← new_jobs_target old k e; mret (c, wake_any_threads tg)
  | NewJobs2 k e old =>
      let new := incremented_jec old in
      if bool_decide (word c = old)
      then tg ← new_jobs_target new k e; mret (set_word c new, wake_any_threads tg)
      else mret (c, NewJobs1 k e)
  | _ => mret (c, p)
  end.

(** [work_found]. *)
Definition work_found_step c : outcome (Shared * Pc) :=
  let '(w, threads_to_wake) := sub_inactive_thread (word c) in
  mret (set_word c w, wake_any_threads (wrap 32 threads_to_wake)).

(** [SpinLatch::set], [OnceLatch::set_and_tickle_one]. *)
Definition set_latch_step c l : outcome (Shared * Pc) :=
  let '(st, was_sleeping) := latch_set (latch c l) in
  mret (set_latch c l st, if was_sleeping then WkLock (owner l) None else Active).

(** [pop_injected_job]. *)
Definition pop_step c (p : Pc) : outcome (Shared * Pc) :=
  match p with
  | PopEmpty => mret (c, if bool_decide (jobs c = 0) then Active else PopTake)
  | PopTake => mret (if bool_decide (jobs c = 0) then c else set_jobs c (jobs c - 1), Active)
  | _ => mret (c, p)
  end.

Definition entry (o : op) : Pc :=
  match o with
  | OpWait l => WProbe l
  | OpInject k => InjEmpty k
  | OpInternal k e => NewJobs1 k e
  | OpSet l => SetLatch l
  | OpPop => PopEmpty
  end.

Definition code_step c t (ch : choice) (p : Pc) : outcome (Shared * Pc) :=
  let b := match ch with Go b => b | _ => false end in
  match p with
  | Active => mret (c, match ch with Start o => entry o | _ => Active end)
  | WProbe _ | WLocal _ | LProbe _ _ | LLocal _ _ | LEmpty _ _ | LPop _ _ | LSteal _ _ => wait_step c t b p
  | NoWork _ _ | Ann1 _ _ | Ann2 _ _ _ => no_work_step c p
  | WorkFound => work_found_step c
  | InjEmpty _ | InjPush _ _ | NewJobs1 _ _ | NewJobs2 _ _ _ => post_step c p
  | SetLatch l => set_latch_step c l
  | ScanW _ _ _ | ScanB _ _ _ _ => scan_step c p
  | WkLock _ _ | WkCheck _ _ | WkClear _ _ | WkSub _ _ | WkUnlock _ _ _ | WkNotify _ _ => wake_step c t p
  | PopEmpty | PopTake => pop_step c p
  | _ => sleep_step c t b p
  end.

(** ** The interleaved system *)

Record State : Type := mkState { shared : Shared; pc : nat → Pc }.

(** Operations respect their contracts: a worker waits on latches of its own,
    latches belong to workers, at least one job and fewer than 2^32 are
    injected at a time. *)
Definition choice_ok t (ch : choice) : Prop :=
  match ch with
  | Start (OpWait l) => (t < n)%nat ∧ owner l = t
  | Start (OpInject k) => 1 ≤ k < 2 ^ 32
  | Start (OpInternal k _) => 0 ≤ k < 2 ^ 32
  | Start (OpSet l) => (owner l < n)%nat
  | _ => True
  end.

Inductive step : State → State → Prop :=
  | step_intro σ t ch c' p' :
      choice_ok t ch → code_step (shared σ) t ch (pc σ t) = Ret (c', p') →
      step σ (mkState c' (<[t := p']> (pc σ))).

(** [Sleep::new], all threads active, latches unset. *)
Definition init : State :=
  mkState (mkShared 0 mask_new (λ _, false) (λ _, None) (λ _, false) (λ _, UNSET) 0) (λ _, Active).

Definition reachable (σ : State) : Prop := rtc step init σ.

End code.

(** ** Counting workers *)

Definition count (n : nat) (f : nat → bool) : Z := Z.of_nat (length (filter (λ i, f i = true) (seq 0 n))).

Lemma count_S n f : count (S n) f = count n f + Z.b2z (f n).
Proof.
  unfold count. rewrite seq_S, filter_app, length_app. simpl. rewrite filter_cons, filter_nil.
  destruct (f n); simpl; lia.
Qed.

Lemma count_ext n f g : (∀ i, (i < n)%nat → f i = g i) → count n f = count n g.
Proof.
  induction n as [|n IH]; intros H; [done|]. rewrite !count_S, (H n) by lia. rewrite IH; [done|].
  intros i Hi. apply H. lia.
Qed.

Lemma count_le n f g : (∀ i, (i < n)%nat → f i = true → g i = true) → count n f ≤ count n g.
Proof.
  induction n as [|n IH]; intros H; [done|]. rewrite !count_S.
  assert (count n f ≤ count n g) by (apply IH; intros i Hi; apply H; lia).
  specialize (H n ltac:(lia)). destruct (f n), (g n); simpl; lia.
Qed.

Lemma count_bounds n f : 0 ≤ count n f ≤ Z.of_nat n.
Proof. induction n as [|n IH]; [done|]. rewrite count_S. destruct (f n); simpl; lia. Qed.

Lemma count_upd n f g j :
  (∀ i, i ≠ j → f i = g i) → (j < n)%nat → count n g = count n f - Z.b2z (f j) + Z.b2z (g j).
Proof.
  intros Heq. induction n as [|n IH]; intros Hj; [lia|]. rewrite !count_S.
  destruct (decide (j = n)) as [->|Hne].
  - rewrite (count_ext n f g); [lia|]. intros i Hi. apply Heq. lia.
  - rewrite IH by lia. rewrite (Heq n) by done. lia.
Qed.

Lemma count_all n f : (∀ i, (i < n)%nat → f i = true) → count n f = Z.of_nat n.
Proof.
  induction n as [|n IH]; intros H; [done|]. rewrite count_S, (H n) by lia. rewrite IH; [simpl; lia|].
  intros i Hi. apply H. lia.
Qed.

Lemma count_none n f : (∀ i, (i < n)%nat → f i = false) → count n f = 0.
Proof.
  induction n as [|n IH]; intros H; [done|]. rewrite count_S, (H n) by lia. rewrite IH; [done|].
  intros i Hi. apply H. lia.
Qed.

Lemma count_lt n f j : (j < n)%nat → f j = false → count n f < Z.of_nat n.
Proof.
  intros Hj E. rewrite (count_upd n (λ i, if decide (i = j) then true else f i) f j).
  - simpl. rewrite decide_True, E by done. simpl. pose proof (count_bounds n (λ i, if decide (i = j) then true else f i)). lia.
  - intros i Hi. by rewrite decide_False.
  - done.
Qed.

(** ** Classes of program points *)

(** The mutex thread [t] holds. *)
Definition hold_of (t : nat) (p : Pc) : option nat :=
  match p with
  | FallAsleep _ _ | MaskSet _ _ | LoadCtr _ _ | AddSleeping _ _ _ | JecClear _ _ | FinalCheck _ _
  | SubSelf _ _ | ClearSelf _ _ | SetBlocked _ _ | WaitLoop _ _ | WakeUp1 _ _ | WakeUp2 _ _
  | UnlockSelf _ _ => Some t
  | WkCheck i _ | WkClear i _ | WkSub i _ | WkUnlock i _ _ => Some i
  | _ => None
  end.

(** A waker that has unblocked a worker has to clear its bit, then its count. *)
Inductive stage : Type := SNone | SClear | SSub.

Definition stage_of (p : Pc) : stage :=
  match p with WkClear _ _ => SClear | WkSub _ _ => SSub | _ => SNone end.

(** The worker's own bit and registration, while it is not parked. *)
Definition own_bit (p : Pc) : bool :=
  match p with
  | LoadCtr _ _ | AddSleeping _ _ _ | JecClear _ _ | FinalCheck _ _ | SubSelf _ _ | ClearSelf _ _
  | SetBlocked _ _ => true
  | _ => false
  end.

Definition own_reg (p : Pc) : bool :=
  match p with FinalCheck _ _ | SubSelf _ _ | SetBlocked _ _ => true | _ => false end.

(** Inside an idle episode. *)
Definition idle_pc (p : Pc) : bool :=
  match p with
  | LProbe _ _ | LLocal _ _ | LEmpty _ _ | LPop _ _ | LSteal _ _ | NoWork _ _ | Ann1 _ _ | Ann2 _ _ _
  | GetSleepy _ _ | LockSelf _ _ | FallAsleep _ _ | MaskSet _ _ | LoadCtr _ _ | AddSleeping _ _ _
  | JecClear _ _ | FinalCheck _ _ | SubSelf _ _ | ClearSelf _ _ | SetBlocked _ _ | WaitLoop _ _
  | Parked _ _ | Relock _ _ | WakeUp1 _ _ | WakeUp2 _ _ | UnlockSelf _ _ | WorkFound => true
  | _ => false
  end.

(** In the wait loop; waiting without the mutex. *)
Definition waiting (p : Pc) : bool :=
  match p with Parked _ _ | Relock _ _ => true | _ => false end.
Definition parkish (p : Pc) : bool :=
  match p with WaitLoop _ _ | Parked _ _ | Relock _ _ => true | _ => false end.

Definition stage_at (lk : nat → option nat) (pcs : nat → Pc) (i : nat) : stage :=
  match lk i with Some t => stage_of (pcs t) | None => SNone end.

(** The bit of a worker in the mask, and whether it is counted as sleeping. *)
Definition bit_of (b : bool) (s : stage) (p : Pc) : bool :=
  b || match s with SClear => true | _ => false end || own_bit p.
Definition reg_of (b : bool) (s : stage) (p : Pc) : bool :=
  b || match s with SNone => false | _ => true end || own_reg p.

Definition registered (σ : State) (i : nat) : bool :=
  reg_of (blocked (shared σ) i) (stage_at (lock (shared σ)) (pc σ) i) (pc σ i).
Definition idle (σ : State) (i : nat) : bool := idle_pc (pc σ i).

(** One worker's flag, the stage of its waker, its program point and its bit
    agree. *)
Record cell (b : bool) (s : stage) (p : Pc) (bit : bool) : Prop := {
  c_blocked : b = true → parkish p = true ∧ s = SNone;
  c_stage : s ≠ SNone → waiting p = true;
  c_bit : bit = bit_of b s p;
}.

Section inv.
Context (n : nat) (tun : IdleTuning) (owner : nat → nat).

Definition sleepy : Z := spin tun + yield_rounds tun.

Definition idle_ok (t l : nat) (i : IdleState) : Prop :=
  (t < n)%nat ∧ owner l = t ∧ worker_index i = t ∧ tuning i = tun ∧ 0 ≤ rounds i ≤ sleepy + 1.

Definition bits_ok (w : nat) (bits : Z) : Prop :=
  is_word 64 bits ∧
  ∀ k, 0 ≤ k < 64 → Z.testbit bits k = true → (w * BITS_PER_WORD + Z.to_nat k < n)%nat.

Definition scan_ok (tg wk : Z) : Prop := 0 ≤ wk < tg ∧ tg ≤ 511.

Definition cont_ok (k : option Scan) : Prop :=
  match k with
  | Some s => scan_ok (target s) (woken s) ∧ bits_ok (scan_word s) (scan_bits s)
  | None => True
  end.

(** Local well-formedness of thread [t] at [p]. *)
Definition pc_ok (t : nat) (p : Pc) : Prop :=
  match p with
  | Active | PopEmpty | PopTake => True
  | WProbe l | WLocal l => (t < n)%nat ∧ owner l = t
  | LProbe l i | LLocal l i | LEmpty l i | LPop l i | LSteal l i | NoWork l i
  | GetSleepy l i | LockSelf l i | FallAsleep l i | MaskSet l i | LoadCtr l i | JecClear l i
  | FinalCheck l i | SubSelf l i | ClearSelf l i | SetBlocked l i | WaitLoop l i | Parked l i
  | Relock l i | WakeUp1 l i | WakeUp2 l i | UnlockSelf l i => idle_ok t l i
  | Ann1 l i | Ann2 l i _ => idle_ok t l i ∧ rounds i = sleepy
  | AddSleeping l i ctr =>
      idle_ok t l i ∧ ∃ J I S, ctr = enc J I S ∧ enc_ok J I S ∧ S < 511
  | WorkFound => (t < n)%nat
  | InjEmpty k | InjPush k _ => 1 ≤ k < 2 ^ 32
  | NewJobs1 k _ | NewJobs2 k _ _ => 0 ≤ k < 2 ^ 32
  | SetLatch l => (owner l < n)%nat
  | ScanW tg wk _ => scan_ok tg wk
  | ScanB tg wk w bits => scan_ok tg wk ∧ bits_ok w bits
  | WkLock i k | WkCheck i k | WkClear i k | WkSub i k | WkUnlock i k _ | WkNotify i k =>
      (i < n)%nat ∧ cont_ok k
  end.

Record Inv (σ : State) : Prop := {
  i_pc t : pc_ok t (pc σ t);
  i_lock i t : lock (shared σ) i = Some t ↔ hold_of t (pc σ t) = Some i;
  i_cell i : cell (blocked (shared σ) i) (stage_at (lock (shared σ)) (pc σ) i) (pc σ i)
               (mask_bit (words (shared σ)) i);
  i_mask : mask_ok (words (shared σ));
  i_word : ∃ J, 0 ≤ J < 2 ^ 46 ∧
             word (shared σ) = enc J (count n (idle σ)) (count n (registered σ));
  i_jobs : 0 ≤ jobs (shared σ);
}.

Context (Hn : (1 ≤ n ≤ 511)%nat)
  (Htun : 0 ≤ spin tun ∧ 0 ≤ yield_rounds tun ∧ sleepy + 1 < 2 ^ 32).

Implicit Types (σ : State) (c : Shared) (t i j l : nat) (p : Pc).

(** ** Frame lemmas *)

Lemma stage_frame σ t lk' p' i :
  Inv σ → lk' i = lock (shared σ) i → hold_of t (pc σ t) ≠ Some i →
  stage_at lk' (<[t := p']> (pc σ)) i = stage_at (lock (shared σ)) (pc σ) i.
Proof.
  intros HI E Hne. unfold stage_at. rewrite E. destruct (lock (shared σ) i) as [u|] eqn:El; [|done].
  destruct (decide (t = u)) as [->|Htu]; [|by rewrite fn_lookup_insert_ne].
  by apply (i_lock _ HI) in El.
Qed.

Lemma registered_idle σ i : Inv σ → registered σ i = true → idle σ i = true.
Proof.
  intros HI. destruct (i_cell _ HI i) as [Hb Hs _]. unfold registered, idle, reg_of.
  intros [[H|H]%orb_true_iff|H]%orb_true_iff.
  - apply Hb in H as [H _]. by destruct (pc σ i).
  - assert (waiting (pc σ i) = true) as Hw by (apply Hs; by intros E; rewrite E in H). by destruct (pc σ i).
  - by destruct (pc σ i).
Qed.

Lemma counts_ok σ : Inv σ →
  0 ≤ count n (registered σ) ≤ count n (idle σ) ∧ count n (idle σ) ≤ 511.
Proof.
  intros HI. pose proof (count_bounds n (idle σ)). pose proof (count_bounds n (registered σ)).
  assert (count n (registered σ) ≤ count n (idle σ)) by (apply count_le; intros; by apply registered_idle).
  lia.
Qed.

Lemma enc_ok_inv σ J : Inv σ → 0 ≤ J < 2 ^ 46 → enc_ok J (count n (idle σ)) (count n (registered σ)).
Proof. intros HI HJ. pose proof (counts_ok _ HI). unfold enc_ok. lia. Qed.

(** A step of [t] that only touches the cell of worker [j]. *)
Lemma inv_update σ t j c' p' J :
  Inv σ → (j < n)%nat → pc_ok t p' →
  (∀ i, i ≠ j → lock c' i = lock (shared σ) i ∧ blocked c' i = blocked (shared σ) i ∧
                mask_bit (words c') i = mask_bit (words (shared σ)) i) →
  (hold_of t (pc σ t) = None ∨ hold_of t (pc σ t) = Some j) →
  (hold_of t p' = None ∧ (lock c' j = lock (shared σ) j ∧ hold_of t (pc σ t) = None ∨
                          lock c' j = None ∧ hold_of t (pc σ t) = Some j) ∨
   hold_of t p' = Some j ∧ lock c' j = Some t ∧
     (lock (shared σ) j = None ∨ lock (shared σ) j = Some t)) →
  (t = j ∨ own_bit p' = own_bit (pc σ t) ∧ own_reg p' = own_reg (pc σ t) ∧
           idle_pc p' = idle_pc (pc σ t) ∧ waiting p' = waiting (pc σ t) ∧ parkish p' = parkish (pc σ t)) →
  let pcs := <[t := p']> (pc σ) in
  let s' := stage_at (lock c') pcs j in
  cell (blocked c' j) s' (pcs j) (mask_bit (words c') j) →
  mask_ok (words c') → 0 ≤ jobs c' → 0 ≤ J < 2 ^ 46 →
  word c' = enc J (count n (idle σ) - Z.b2z (idle σ j) + Z.b2z (idle_pc (pcs j)))
              (count n (registered σ) - Z.b2z (registered σ j) +
               Z.b2z (reg_of (blocked c' j) s' (pcs j))) →
  Inv (mkState c' pcs).
Proof.
  intros HI Hj Hp Hfr Hh0 Hh1 Hcls pcs s' Hcell Hm Hjobs HJ Hw.
  assert (∀ i, i ≠ j → stage_at (lock c') pcs i = stage_at (lock (shared σ)) (pc σ) i) as Hst.
  { intros i Hi. apply stage_frame; [done|by apply Hfr|]. destruct Hh0 as [-> | ->]; congruence. }
  assert (∀ i, i ≠ j → own_bit (pcs i) = own_bit (pc σ i) ∧ own_reg (pcs i) = own_reg (pc σ i) ∧
    idle_pc (pcs i) = idle_pc (pc σ i) ∧ waiting (pcs i) = waiting (pc σ i) ∧
    parkish (pcs i) = parkish (pc σ i)) as Hpc.
  { intros i Hi. unfold pcs. destruct (decide (t = i)) as [->|Hne]; [|by rewrite fn_lookup_insert_ne].
    rewrite fn_lookup_insert. by destruct Hcls. }
  split; simpl.
  - intros u. unfold pcs. destruct (decide (t = u)) as [->|Hne]; [by rewrite fn_lookup_insert|].
    rewrite fn_lookup_insert_ne by done. apply HI.
  - intros i u. unfold pcs. pose proof (i_lock _ HI i u) as Hl. destruct (decide (i = j)) as [->|Hi].
    + destruct (decide (t = u)) as [->|Hne]; [rewrite fn_lookup_insert|rewrite fn_lookup_insert_ne by done].
      * destruct Hh1 as [[-> [[-> E]|[-> E]]]|(-> & -> & _)]; [rewrite Hl, E; done|done|done].
      * rewrite <- Hl. destruct Hh1 as [[_ [[-> _]|[-> E]]]|(_ & -> & Hor)]; [done| |].
        -- apply (i_lock _ HI) in E. split; congruence.
        -- destruct Hor as [-> | ->]; split; congruence.
    + destruct (Hfr i Hi) as [-> _]. rewrite Hl.
      destruct (decide (t = u)) as [->|Hne]; [rewrite fn_lookup_insert|by rewrite fn_lookup_insert_ne].
      destruct Hh0 as [-> | ->], Hh1 as [[-> _]|[-> _]]; split; congruence.
  - intros i. destruct (decide (i = j)) as [->|Hi]; [done|].
    destruct (Hfr i Hi) as (_ & -> & ->). rewrite Hst by done.
    destruct (Hpc i Hi) as (E1 & E2 & E3 & E4 & E5). destruct (i_cell _ HI i) as [C1 C2 C3].
    split; [by rewrite E5|by rewrite E4|]. rewrite C3. unfold bit_of. by rewrite E1.
  - done.
  - exists J. split; [done|]. rewrite Hw.
    assert (∀ i, i ≠ j → idle σ i = idle (mkState c' pcs) i) as HiF.
    { intros i Hi. unfold idle. simpl. symmetry. by apply Hpc. }
    assert (∀ i, i ≠ j → registered σ i = registered (mkState c' pcs) i) as HrF.
    { intros i Hi. unfold registered, reg_of. simpl. rewrite Hst by done.
      destruct (Hfr i Hi) as (_ & -> & _). destruct (Hpc i Hi) as (_ & -> & _). done. }
    by rewrite (count_upd n _ _ j HiF Hj), (count_upd n _ _ j HrF Hj).
  - done.
Qed.

(** A step that changes no cell, and at most the event counter. *)
Lemma inv_frame σ t c' p' :
  Inv σ → pc_ok t p' →
  lock c' = lock (shared σ) → blocked c' = blocked (shared σ) → words c' = words (shared σ) →
  (word c' = word (shared σ) ∨ word c' = incremented_jec (word (shared σ))) → 0 ≤ jobs c' →
  hold_of t p' = hold_of t (pc σ t) → stage_of p' = stage_of (pc σ t) →
  own_bit p' = own_bit (pc σ t) → own_reg p' = own_reg (pc σ t) →
  idle_pc p' = idle_pc (pc σ t) → waiting p' = waiting (pc σ t) → parkish p' = parkish (pc σ t) →
  Inv (mkState c' (<[t := p']> (pc σ))).
Proof.
  intros HI Hp El Eb Em Hw Hj F1 F2 F3 F4 F5 F6 F7.
  assert (∀ i, stage_at (lock (shared σ)) (<[t := p']> (pc σ)) i = stage_at (lock (shared σ)) (pc σ) i) as Hst.
  { intros i. unfold stage_at. destruct (lock (shared σ) i) as [u|]; [|done].
    destruct (decide (t = u)) as [->|Hne]; [by rewrite fn_lookup_insert|by rewrite fn_lookup_insert_ne]. }
  assert (∀ {B} (f : Pc → B) i, f p' = f (pc σ t) → f (<[t := p']> (pc σ) i) = f (pc σ i)) as Hf.
  { intros B f i E. destruct (decide (t = i)) as [->|Hne]; [by rewrite fn_lookup_insert|by rewrite fn_lookup_insert_ne]. }
  assert (∀ i, idle (mkState c' (<[t := p']> (pc σ))) i = idle σ i) as Hidle
    by (intros i; unfold idle; simpl; by apply Hf).
  assert (∀ i, registered (mkState c' (<[t := p']> (pc σ))) i = registered σ i) as Hreg.
  { intros i. unfold registered, reg_of. simpl. by rewrite El, Eb, Hst, (Hf _ own_reg). }
  split; simpl; rewrite ?El, ?Eb, ?Em.
  - intros u. destruct (decide (t = u)) as [->|Hne]; [by rewrite fn_lookup_insert|].
    rewrite fn_lookup_insert_ne by done. apply HI.
  - intros i u. rewrite (i_lock _ HI i u). destruct (decide (t = u)) as [->|Hne].
    + by rewrite fn_lookup_insert, F1.
    + by rewrite fn_lookup_insert_ne.
  - intros i. rewrite Hst. destruct (i_cell _ HI i) as [C1 C2 C3].
    split; [by rewrite (Hf _ parkish)|by rewrite (Hf _ waiting)|]. rewrite C3. unfold bit_of. by rewrite (Hf _ own_bit).
  - apply HI.
  - destruct (i_word _ HI) as (J & HJ & E).
    rewrite (count_ext n _ (idle σ)), (count_ext n (registered _) (registered σ)) by auto.
    destruct Hw as [Hw|Hw]; rewrite Hw, E; [by exists J|].
    exists ((J + 1) mod 2 ^ 46). split; [apply Z.mod_pos_bound; lia|].
    apply enc_incremented. by apply enc_ok_inv.
  - done.
Qed.

(** ** Every step returns and keeps the invariant *)

Definition StepOK σ t ch p : Prop :=
  ∃ c' p', code_step n tun owner (shared σ) t ch p = Ret (c', p') ∧ Inv (mkState c' (<[t := p']> (pc σ))).

(** [frame c p' E]: the step from [pc σ t] (equation [E]) to [p'] touches no
    cell. *)
Ltac frame c p' E :=
  exists c, p'; split; [simpl; try done|apply inv_frame; rewrite ?E; simpl; auto; try done].

Lemma wait_ok σ t ch p :
  Inv σ → pc σ t = p → choice_ok n owner t ch →
  match p with
  | WProbe _ | LProbe _ _ | LLocal _ _ | LEmpty _ _ | LPop _ _ | LSteal _ _ => True
  | _ => False end → StepOK σ t ch p.
Proof.
  intros HI Ep Hch Hp. pose proof (i_pc _ HI t) as Hok. pose proof (i_jobs _ HI) as Hj. rewrite Ep in Hok.
  destruct p as [ |l| |l i|l i|l i|l i|l i| | | | | | | | | | | | | | | | | | | | | | | | | | | | | | | | | | | | ];
    try done; clear Hp; simpl in Hok.
  - frame (shared σ) (if probe (latch (shared σ) l) then Active else WLocal l) Ep; by destruct (probe _).
  - frame (shared σ) (if probe (latch (shared σ) l) then WorkFound else LLocal l i) Ep;
      destruct (probe _); try done; by destruct Hok.
  - destruct (match ch with Go b => b | _ => false end) eqn:Eb.
    + frame (shared σ) WorkFound Ep; [by rewrite Eb|by destruct Hok].
    + frame (shared σ) (LEmpty l i) Ep. by rewrite Eb.
  - frame (shared σ) (if bool_decide (jobs (shared σ) = 0) then LSteal l i else LPop l i) Ep;
      by destruct (bool_decide _).
  - destruct (decide (jobs (shared σ) = 0)) as [E|E].
    + frame (shared σ) (LSteal l i) Ep. by rewrite bool_decide_eq_true_2.
    + frame (set_jobs (shared σ) (jobs (shared σ) - 1)) WorkFound Ep; [|by destruct Hok|lia].
      by rewrite bool_decide_eq_false_2.
  - destruct (match ch with Go b => b | _ => false end) eqn:Eb.
    + frame (shared σ) WorkFound Ep; [by rewrite Eb|by destruct Hok].
    + frame (shared σ) (NoWork l i) Ep. by rewrite Eb.
Qed.

Lemma next_round_ok t l (i : IdleState) :
  idle_ok t l i → rounds i ≤ sleepy → ∃ i' : IdleState, next_round i = Ret i' ∧ idle_ok t l i' ∧ rounds i' = rounds i + 1.
Proof.
  intros (H1 & H2 & H3 & H4 & H5) Hr. unfold next_round. rewrite checked_add_ret by lia. simpl.
  eexists. split; [done|]. split; [|done]. unfold idle_ok. simpl. split_and!; done || lia.
Qed.

Lemma sleepy_round_ok t l (i : IdleState) : idle_ok t l i → sleepy_round (tuning i) = Ret sleepy.
Proof.
  intros (_ & _ & _ & E & _). unfold sleepy_round. rewrite E. apply checked_add_ret. unfold sleepy in Htun. lia.
Qed.

Lemma no_work_ok σ t ch p :
  Inv σ → pc σ t = p →
  match p with NoWork _ _ | Ann1 _ _ | Ann2 _ _ _ => True | _ => False end → StepOK σ t ch p.
Proof.
  intros HI Ep Hp. pose proof (i_pc _ HI t) as Hok. pose proof (i_jobs _ HI) as Hj. rewrite Ep in Hok.
  destruct p as [ | | | | | | | |l i|l i|l i old| | | | | | | | | | | | | | | | | | | | | | | | | | | | | | | | | ];
    try done; clear Hp; simpl in Hok.
  - pose proof (sleepy_round_ok _ _ _ Hok) as Es. pose proof Hok as (_ & _ & _ & Et & Hr).
    destruct (decide (rounds i < sleepy)) as [Hlt|Hge].
    + destruct (next_round_ok _ _ _ Hok) as (i' & E & Hi' & _); [lia|].
      frame (shared σ) (LProbe l i') Ep. rewrite Es. simpl. rewrite E. simpl.
      case_bool_decide; [done|]. by rewrite bool_decide_eq_true_2.
    + assert (¬ rounds i < spin (tuning i)) by (rewrite Et; unfold sleepy in *; lia).
      destruct (decide (rounds i = sleepy)) as [Heq|Hne].
      * frame (shared σ) (Ann1 l i) Ep. rewrite Es. simpl. rewrite !bool_decide_eq_false_2 by lia.
        by rewrite bool_decide_eq_true_2.
      * frame (shared σ) (GetSleepy l i) Ep. rewrite Es. simpl. by rewrite !bool_decide_eq_false_2 by lia.
  - destruct Hok as [Hok Hr]. destruct (is_active (jobs_counter (word (shared σ)))) eqn:Ea.
    + frame (shared σ) (Ann2 l i (word (shared σ))) Ep. by rewrite Ea.
    + destruct (next_round_ok t l (with_jec i (jobs_counter (word (shared σ))))) as (i' & E & Hi' & _);
        [done|simpl; lia|].
      frame (shared σ) (LProbe l i') Ep. rewrite Ea, E. done.
  - destruct Hok as [Hok Hr]. destruct (decide (word (shared σ) = old)) as [Ew|Ew].
    + destruct (next_round_ok t l (with_jec i (jobs_counter (incremented_jec old)))) as (i' & E & Hi' & _);
        [done|simpl; lia|].
      frame (set_word (shared σ) (incremented_jec old)) (LProbe l i') Ep.
      * rewrite bool_decide_eq_true_2 by done. rewrite E. done.
      * rewrite Ew. auto.
    + frame (shared σ) (Ann1 l i) Ep. by rewrite bool_decide_eq_false_2.
Qed.

Lemma post_ok σ t ch p :
  Inv σ → pc σ t = p →
  match p with InjEmpty _ | InjPush _ _ | NewJobs1 _ _ | NewJobs2 _ _ _ => True | _ => False end →
  StepOK σ t ch p.
Proof.
  intros HI Ep Hp. pose proof (i_pc _ HI t) as Hok. pose proof (i_jobs _ HI) as Hj. rewrite Ep in Hok.
  assert (∀ k e w, 0 ≤ k → w = word (shared σ) ∨ w = incremented_jec (word (shared σ)) →
    ∃ tg, new_jobs_target w k e = Ret tg ∧ pc_ok t (wake_any_threads tg)) as Htg.
  { intros k e w Hk Hw. destruct (i_word _ HI) as (J & HJ & E). pose proof (counts_ok _ HI) as Hc.
    pose proof (enc_ok_inv _ _ HI HJ) as Hen.
    destruct (new_jobs_target_spec J (count n (idle σ)) (count n (registered σ)) k e) as (tg & Et & Hb & _); try done; [lia|].
    destruct (new_jobs_target_spec ((J + 1) mod 2 ^ 46) (count n (idle σ)) (count n (registered σ)) k e)
      as (tg' & Et' & Hb' & _); try done; [|lia|].
    { apply enc_ok_inv; [done|]. apply Z.mod_pos_bound. lia. }
    rewrite <- enc_incremented, <- E in Et' by done. rewrite <- E in Et.
    destruct Hw as [-> | ->]; eexists; (split; [done|]); unfold wake_any_threads;
      case_bool_decide; simpl; unfold scan_ok; lia || done. }
  assert (∀ tg, hold_of t (wake_any_threads tg) = None ∧ stage_of (wake_any_threads tg) = SNone ∧
    own_bit (wake_any_threads tg) = false ∧ own_reg (wake_any_threads tg) = false ∧
    idle_pc (wake_any_threads tg) = false ∧ waiting (wake_any_threads tg) = false ∧
    parkish (wake_any_threads tg) = false) as Hcls.
  { intros tg. unfold wake_any_threads. by case_bool_decide. }
  destruct p as [ | | | | | | | | | | | | | | | | | | | | | | | | | | | | |k|k e|k e|k e old| | | | | | | | | | | ];
    try done; clear Hp; simpl in Hok.
  - by frame (shared σ) (InjPush k (bool_decide (jobs (shared σ) = 0))) Ep.
  - frame (set_jobs (shared σ) (jobs (shared σ) + k)) (NewJobs1 k e) Ep; lia.
  - destruct (Htg k e (word (shared σ))) as (tg & E & Hp'); [lia|auto|].
    destruct (Hcls tg) as (F1 & F2 & F3 & F4 & F5 & F6 & F7).
    destruct (is_sleepy (jobs_counter (word (shared σ)))) eqn:Es.
    + frame (shared σ) (NewJobs2 k e (word (shared σ))) Ep. by rewrite Es.
    + frame (shared σ) (wake_any_threads tg) Ep. by rewrite Es, E.
  - destruct (decide (word (shared σ) = old)) as [Ew|Ew].
    + destruct (Htg k e (incremented_jec old)) as (tg & E & Hp'); [lia|rewrite Ew; auto|].
      destruct (Hcls tg) as (F1 & F2 & F3 & F4 & F5 & F6 & F7).
      frame (set_word (shared σ) (incremented_jec old)) (wake_any_threads tg) Ep.
      * rewrite bool_decide_eq_true_2 by done. by rewrite E.
      * rewrite Ew. auto.
    + frame (shared σ) (NewJobs1 k e) Ep. by rewrite bool_decide_eq_false_2.
Qed.

(** A step of worker [t] on its own cell. *)
Lemma inv_self σ t c' p p' J s s' :
  Inv σ → pc σ t = p → (t < n)%nat → pc_ok t p' →
  (∀ i, i ≠ t → lock c' i = lock (shared σ) i ∧ blocked c' i = blocked (shared σ) i ∧
                mask_bit (words c') i = mask_bit (words (shared σ)) i) →
  (hold_of t p = None ∨ hold_of t p = Some t) →
  (hold_of t p' = None ∧ (lock c' t = lock (shared σ) t ∧ hold_of t p = None ∨
                          lock c' t = None ∧ hold_of t p = Some t) ∨
   hold_of t p' = Some t ∧ lock c' t = Some t ∧
     (lock (shared σ) t = None ∨ lock (shared σ) t = Some t)) →
  stage_at (lock (shared σ)) (pc σ) t = s → stage_at (lock c') (<[t := p']> (pc σ)) t = s' →
  cell (blocked c' t) s' p' (mask_bit (words c') t) →
  mask_ok (words c') → 0 ≤ jobs c' → 0 ≤ J < 2 ^ 46 →
  word c' = enc J (count n (idle σ) - Z.b2z (idle_pc p) + Z.b2z (idle_pc p'))
              (count n (registered σ) - Z.b2z (reg_of (blocked (shared σ) t) s p) +
               Z.b2z (reg_of (blocked c' t) s' p')) →
  Inv (mkState c' (<[t := p']> (pc σ))).
Proof.
  intros HI <- Ht Hp Hfr Hh0 Hh1 Hs Hs' Hcell Hm Hj HJ Hw.
  apply (inv_update σ t t c' p' J); try done; [by left|rewrite fn_lookup_insert; by rewrite Hs'|].
  rewrite fn_lookup_insert, Hs', Hw. unfold idle, registered. by rewrite Hs.
Qed.

(** Worker [t] holding its own mutex. *)
Lemma own_stage σ t p : Inv σ → pc σ t = p → hold_of t p = Some t → stage_of p = SNone →
  lock (shared σ) t = Some t ∧ stage_at (lock (shared σ)) (pc σ) t = SNone.
Proof.
  intros HI <- Hh Hs. apply (i_lock _ HI) in Hh. unfold stage_at. by rewrite Hh.
Qed.

Lemma not_blocked σ t p : Inv σ → pc σ t = p → parkish p = false → blocked (shared σ) t = false.
Proof.
  intros HI <- Hp. destruct (blocked (shared σ) t) eqn:E; [|done].
  apply (c_blocked _ _ _ _ (i_cell _ HI t)) in E as [E _]. congruence.
Qed.

Lemma inv_own σ t c' p p' J :
  Inv σ → pc σ t = p → (t < n)%nat → pc_ok t p' →
  hold_of t p = Some t → stage_of p = SNone → hold_of t p' = Some t → stage_of p' = SNone →
  lock c' = lock (shared σ) →
  (∀ i, i ≠ t → blocked c' i = blocked (shared σ) i ∧
                mask_bit (words c') i = mask_bit (words (shared σ)) i) →
  cell (blocked c' t) SNone p' (mask_bit (words c') t) →
  idle_pc p' = idle_pc p → mask_ok (words c') → 0 ≤ jobs c' → 0 ≤ J < 2 ^ 46 →
  word c' = enc J (count n (idle σ))
              (count n (registered σ) - Z.b2z (reg_of (blocked (shared σ) t) SNone p) +
               Z.b2z (reg_of (blocked c' t) SNone p')) →
  Inv (mkState c' (<[t := p']> (pc σ))).
Proof.
  intros HI Ep Ht Hp Hh Hs Hh' Hs' El Hfr Hcell Hi Hm Hj HJ Hw.
  destruct (own_stage σ t p HI Ep Hh Hs) as [Hlk Hst].
  apply (inv_self σ t c' p p' J SNone SNone); try done.
  - intros i Hne. rewrite El. by destruct (Hfr i Hne).
  - by right.
  - right. rewrite El. auto.
  - unfold stage_at. rewrite El, Hlk. by rewrite fn_lookup_insert.
  - rewrite Hw, Hi. f_equal. lia.
Qed.

(** A step of waker [t] on the cell of worker [j]. *)
Lemma inv_wake σ t j c' p p' J s s' :
  Inv σ → pc σ t = p → (j < n)%nat → pc_ok t p' →
  (∀ i, i ≠ j → lock c' i = lock (shared σ) i ∧ blocked c' i = blocked (shared σ) i ∧
                mask_bit (words c') i = mask_bit (words (shared σ)) i) →
  (hold_of t p = None ∨ hold_of t p = Some j) →
  (hold_of t p' = None ∧ lock c' j = None ∧ hold_of t p = Some j ∨
   hold_of t p' = Some j ∧ lock c' j = Some t ∧
     (lock (shared σ) j = None ∨ lock (shared σ) j = Some t)) →
  own_bit p' = own_bit p → own_reg p' = own_reg p → idle_pc p' = idle_pc p →
  waiting p' = waiting p → parkish p' = parkish p →
  stage_at (lock (shared σ)) (pc σ) j = s → stage_at (lock c') (<[t := p']> (pc σ)) j = s' →
  (blocked c' j = true → parkish (pc σ j) = true ∧ s' = SNone) →
  (s' ≠ SNone → waiting (pc σ j) = true) →
  mask_bit (words c') j = bit_of (blocked c' j) s' (pc σ j) →
  mask_ok (words c') → 0 ≤ jobs c' → 0 ≤ J < 2 ^ 46 →
  word c' = enc J (count n (idle σ))
              (count n (registered σ) - Z.b2z (reg_of (blocked (shared σ) j) s (pc σ j)) +
               Z.b2z (reg_of (blocked c' j) s' (pc σ j))) →
  Inv (mkState c' (<[t := p']> (pc σ))).
Proof.
  intros HI <- Hj Hp Hfr Hh0 Hh1 F1 F2 F3 F4 F5 Hs Hs' C1 C2 C3 Hm Hjobs HJ Hw.
  assert (∀ {B} (f : Pc → B), f p' = f (pc σ t) → f (<[t := p']> (pc σ) j) = f (pc σ j)) as Hf.
  { intros B f E. destruct (decide (t = j)) as [->|Hne]; [by rewrite fn_lookup_insert|by rewrite fn_lookup_insert_ne]. }
  apply (inv_update σ t j c' p' J); try done; [|by right|..].
  - destruct Hh1 as [(? & ? & ?)|?]; [left|right]; auto.
  - rewrite Hs'. split; [by rewrite (Hf _ parkish)|by rewrite (Hf _ waiting)|]. rewrite C3.
    unfold bit_of. by rewrite (Hf _ own_bit).
  - rewrite Hs', Hw. unfold registered. rewrite Hs. unfold idle. rewrite (Hf _ idle_pc) by done.
    unfold reg_of. rewrite (Hf _ own_reg) by done. f_equal. lia.
Qed.

(** Entering and leaving an idle episode. *)
Lemma wlocal_ok σ t ch l : Inv σ → pc σ t = WLocal l → StepOK σ t ch (WLocal l).
Proof.
  intros HI Ep. pose proof (i_pc _ HI t) as Hok. rewrite Ep in Hok. destruct Hok as [Ht Ho].
  pose proof (i_jobs _ HI) as Hj. destruct (match ch with Go b => b | _ => false end) eqn:Eb.
  { frame (shared σ) Active Ep. by rewrite Eb. }
  destruct (i_word _ HI) as (J & HJ & Ew). pose proof (enc_ok_inv _ _ HI HJ) as Hen.
  pose proof (not_blocked _ _ _ HI Ep eq_refl) as Hb. pose proof (i_cell _ HI t) as [_ Hst Hbit].
  assert (stage_at (lock (shared σ)) (pc σ) t = SNone) as Es.
  { destruct (stage_at _ _ _); [done|..]; rewrite Ep in Hst; by specialize (Hst ltac:(done)). }
  assert (count n (idle σ) < Z.of_nat n) by (apply (count_lt n _ t); [done|unfold idle; by rewrite Ep]).
  exists (set_word (shared σ) (add_inactive_thread (word (shared σ)))), (LProbe l (start_looking tun t)).
  split; [simpl; by rewrite Eb|].
  apply (inv_self σ t _ (WLocal l) _ J SNone SNone); simpl; try done; auto.
  - unfold idle_ok, start_looking. simpl. split_and!; try done; unfold sleepy in *; lia.
  - rewrite <- Es. apply stage_frame; [done|done|by rewrite Ep].
  - rewrite Es, Hb, Ep in Hbit. rewrite Hb. by split.
  - apply HI.
  - rewrite Hb, Ew. simpl. rewrite enc_add_inactive by (done || lia). f_equal; lia.
Qed.

Lemma work_found_ok σ t ch : Inv σ → pc σ t = WorkFound → StepOK σ t ch WorkFound.
Proof.
  intros HI Ep. pose proof (i_pc _ HI t) as Ht. rewrite Ep in Ht. simpl in Ht.
  pose proof (i_jobs _ HI) as Hj.
  destruct (i_word _ HI) as (J & HJ & Ew). pose proof (enc_ok_inv _ _ HI HJ) as Hen.
  pose proof (not_blocked _ _ _ HI Ep eq_refl) as Hb. pose proof (i_cell _ HI t) as [_ Hst Hbit].
  assert (stage_at (lock (shared σ)) (pc σ) t = SNone) as Es.
  { destruct (stage_at _ _ _); [done|..]; rewrite Ep in Hst; by specialize (Hst ltac:(done)). }
  assert (0 < count n (idle σ)) as Hpos.
  { rewrite (count_upd n (λ i, if decide (i = t) then false else idle σ i) (idle σ) t).
    - rewrite decide_True by done. unfold idle at 2. rewrite Ep. simpl.
      pose proof (count_bounds n (λ i, if decide (i = t) then false else idle σ i)). lia.
    - intros i Hi. by rewrite decide_False.
    - done. }
  pose proof (enc_sub_inactive _ _ _ Hen Hpos) as Esub. rewrite <- Ew in Esub.
  set (tg := wrap 32 (Z.min (count n (registered σ)) 2)).
  assert (0 ≤ tg ≤ 2) as Htg.
  { pose proof (counts_ok _ HI). unfold tg. rewrite wrap_small by (split; lia). lia. }
  exists (set_word (shared σ) (enc J (count n (idle σ) - 1) (count n (registered σ)))), (wake_any_threads tg).
  split; [simpl; unfold work_found_step; by rewrite Esub|].
  assert (∀ f : Pc → bool, f Active = false → f (ScanW tg 0 0) = false → f (wake_any_threads tg) = false) as Hf.
  { intros f E1 E2. unfold wake_any_threads. by case_bool_decide. }
  assert (hold_of t (wake_any_threads tg) = None) as Hh by (unfold wake_any_threads; by case_bool_decide).
  apply (inv_self σ t _ WorkFound _ J SNone SNone); simpl; try done; auto.
  - unfold wake_any_threads. case_bool_decide; simpl; unfold scan_ok; done || lia.
  - rewrite <- Es. apply stage_frame; [done|done|by rewrite Ep].
  - rewrite Es, Hb, Ep in Hbit. rewrite Hb, Hbit. split; [done|done|]. unfold bit_of. simpl. by rewrite Hf.
  - apply HI.
  - rewrite Hb, (Hf idle_pc) by done. unfold reg_of. rewrite (Hf own_reg) by done. simpl. f_equal; lia.
Qed.

(** Taking and releasing the worker's own mutex. *)
Lemma lock_self_ok σ t ch l (i : IdleState) : Inv σ → pc σ t = LockSelf l i → StepOK σ t ch (LockSelf l i).
Proof.
  intros HI Ep. pose proof (i_pc _ HI t) as Hok. rewrite Ep in Hok. pose proof Hok as (Ht & _ & Ei & _).
  pose proof (i_jobs _ HI) as Hj. destruct (lock (shared σ) t) as [u|] eqn:El.
  { frame (shared σ) (LockSelf l i) Ep. rewrite Ei, bool_decide_eq_true_2, El; done. }
  pose proof (not_blocked _ _ _ HI Ep eq_refl) as Hb. pose proof (i_cell _ HI t) as [_ _ Hbit].
  destruct (i_word _ HI) as (J & HJ & Ew).
  assert (stage_at (lock (shared σ)) (pc σ) t = SNone) as Es by (unfold stage_at; by rewrite El).
  exists (set_lock (shared σ) t (Some t)), (FallAsleep l i).
  split; [simpl; rewrite Ei, bool_decide_eq_true_2, El by done; done|].
  apply (inv_self σ t _ (LockSelf l i) _ J SNone SNone); simpl; try done; auto.
  - intros k Hk. by rewrite fn_lookup_insert_ne.
  - right. rewrite fn_lookup_insert. auto.
  - unfold stage_at. simpl. by rewrite !fn_lookup_insert.
  - rewrite Es, Hb, Ep in Hbit. rewrite Hb. by split.
  - apply HI.
  - rewrite Hb, Ew. simpl. f_equal; lia.
Qed.

Lemma unlock_self_ok σ t ch l (i : IdleState) : Inv σ → pc σ t = UnlockSelf l i → StepOK σ t ch (UnlockSelf l i).
Proof.
  intros HI Ep. pose proof (i_pc _ HI t) as Hok. rewrite Ep in Hok. pose proof Hok as (Ht & _ & Ei & _).
  pose proof (i_jobs _ HI) as Hj. destruct (own_stage _ _ _ HI Ep eq_refl eq_refl) as [El Es].
  pose proof (not_blocked _ _ _ HI Ep eq_refl) as Hb. pose proof (i_cell _ HI t) as [_ _ Hbit].
  destruct (i_word _ HI) as (J & HJ & Ew).
  exists (set_lock (shared σ) t None), (LProbe l i). split; [simpl; by rewrite Ei|].
  apply (inv_self σ t _ (UnlockSelf l i) _ J SNone SNone); simpl; try done; auto.
  - intros k Hk. by rewrite fn_lookup_insert_ne.
  - left. rewrite fn_lookup_insert. auto.
  - unfold stage_at. simpl. by rewrite !fn_lookup_insert.
  - rewrite Es, Hb, Ep in Hbit. rewrite Hb. by split.
  - apply HI.
  - rewrite Hb, Ew. simpl. f_equal; lia.
Qed.

(** The wait loop: releasing the mutex to wait, taking it back, leaving. *)
Lemma wait_loop_ok σ t ch l (i : IdleState) : Inv σ → pc σ t = WaitLoop l i → StepOK σ t ch (WaitLoop l i).
Proof.
  intros HI Ep. pose proof (i_pc _ HI t) as Hok. rewrite Ep in Hok. pose proof Hok as (Ht & Ho & Ei & Et & Hr).
  pose proof (i_jobs _ HI) as Hj. destruct (own_stage _ _ _ HI Ep eq_refl eq_refl) as [El Es].
  pose proof (i_cell _ HI t) as [_ _ Hbit]. rewrite Es, Ep in Hbit.
  destruct (i_word _ HI) as (J & HJ & Ew). destruct (blocked (shared σ) t) eqn:Hb.
  - exists (set_lock (set_waiter (shared σ) t true) t None), (Parked l i). split; [simpl; by rewrite Ei, Hb|].
    apply (inv_self σ t _ (WaitLoop l i) _ J SNone SNone); simpl; try done; auto.
    + intros k Hk. by rewrite fn_lookup_insert_ne.
    + left. rewrite fn_lookup_insert. auto.
    + unfold stage_at. simpl. by rewrite !fn_lookup_insert.
    + by rewrite Hb.
    + apply HI.
    + rewrite Hb, Ew. simpl. f_equal; lia.
  - exists (shared σ), (WakeUp1 l (wake_fully i)). split; [simpl; by rewrite Ei, Hb|].
    apply (inv_own σ t _ (WaitLoop l i) _ J); simpl; try done; auto.
    + unfold idle_ok, wake_fully. simpl. split_and!; try done; unfold sleepy in *; lia.
    + rewrite Hb. by split.
    + apply HI.
    + rewrite Hb, Ew. simpl. f_equal; lia.
Qed.

Lemma relock_ok σ t ch l (i : IdleState) : Inv σ → pc σ t = Relock l i → StepOK σ t ch (Relock l i).
Proof.
  intros HI Ep. pose proof (i_pc _ HI t) as Hok. rewrite Ep in Hok. pose proof Hok as (Ht & _ & Ei & _).
  pose proof (i_jobs _ HI) as Hj. destruct (lock (shared σ) t) as [u|] eqn:El.
  { frame (shared σ) (Relock l i) Ep. by rewrite Ei, El. }
  pose proof (i_cell _ HI t) as [_ _ Hbit]. destruct (i_word _ HI) as (J & HJ & Ew).
  assert (stage_at (lock (shared σ)) (pc σ) t = SNone) as Es by (unfold stage_at; by rewrite El).
  rewrite Es, Ep in Hbit.
  exists (set_lock (shared σ) t (Some t)), (WaitLoop l i). split; [simpl; by rewrite Ei, El|].
  apply (inv_self σ t _ (Relock l i) _ J SNone SNone); simpl; try done; auto.
  - intros k Hk. by rewrite fn_lookup_insert_ne.
  - right. rewrite fn_lookup_insert. auto.
  - unfold stage_at. simpl. by rewrite !fn_lookup_insert.
  - apply HI.
  - rewrite Ew. unfold reg_of. simpl. f_equal; lia.
Qed.

(** Steps of [sleep] under the mutex that touch the mask, the counters or the
    flag. *)
Lemma idle_fully t l (i : IdleState) : idle_ok t l i → idle_ok t l (wake_fully i).
Proof.
  intros (H1 & H2 & H3 & H4 & H5). unfold idle_ok, wake_fully. simpl.
  split_and!; try done; unfold sleepy in *; lia.
Qed.

Lemma idle_partly t l (i : IdleState) :
  idle_ok t l i → ∃ i' : IdleState, wake_partly i = Ret i' ∧ idle_ok t l i'.
Proof.
  intros Hi. unfold wake_partly. rewrite (sleepy_round_ok _ _ _ Hi). simpl. eexists. split; [done|].
  destruct Hi as (H1 & H2 & H3 & H4 & H5). unfold idle_ok. simpl. split_and!; try done; unfold sleepy in *; lia.
Qed.

Lemma sleep_mask_ok σ t ch p :
  Inv σ → pc σ t = p →
  match p with MaskSet _ _ | JecClear _ _ | ClearSelf _ _ => True | _ => False end → StepOK σ t ch p.
Proof.
  intros HI Ep Hp. pose proof (i_pc _ HI t) as Hok. pose proof (i_jobs _ HI) as Hj. rewrite Ep in Hok.
  destruct (i_word _ HI) as (J & HJ & Ew).
  destruct p as [ | | | | | | | | | | | | | |l i| | |l i| | |l i| | | | | | | | | | | | | | | | | | | | | | | ]; try done; clear Hp; simpl in Hok;
    pose proof Hok as (Ht & _ & Ei & _);
    pose proof (not_blocked _ _ _ HI Ep eq_refl) as Hb.
  - destruct (mask_set_bit (words (shared σ)) t) as (m & E & Hm & Hbit); [apply HI|lia|].
    exists (set_words (shared σ) m), (LoadCtr l i). split; [simpl; by rewrite Ei, E|].
    apply (inv_own σ t _ (MaskSet l i) _ J); simpl; try done; auto.
    + intros k Hk. by rewrite Hbit, decide_False.
    + rewrite Hb, Hbit, decide_True by done. by split.
    + rewrite Hb, Ew. simpl. f_equal; lia.
  - destruct (mask_clear_bit (words (shared σ)) t) as (m & E & Hm & Hbit); [apply HI|lia|].
    destruct (idle_partly _ _ _ Hok) as (i' & Ep' & Hi').
    exists (set_words (shared σ) m), (WakeUp1 l i'). split; [simpl; by rewrite Ei, E; simpl; rewrite Ep'|].
    apply (inv_own σ t _ (JecClear l i) _ J); simpl; try done; auto.
    + intros k Hk. by rewrite Hbit, decide_False.
    + rewrite Hb, Hbit, decide_True by done. by split.
    + rewrite Hb, Ew. simpl. f_equal; lia.
  - destruct (mask_clear_bit (words (shared σ)) t) as (m & E & Hm & Hbit); [apply HI|lia|].
    exists (set_words (shared σ) m), (WakeUp1 l (wake_fully i)). split; [simpl; by rewrite Ei, E|].
    apply (inv_own σ t _ (ClearSelf l i) _ J); simpl; try done; auto.
    + by apply idle_fully.
    + intros k Hk. by rewrite Hbit, decide_False.
    + rewrite Hb, Hbit, decide_True by done. by split.
    + rewrite Hb, Ew. simpl. f_equal; lia.
Qed.

(** An unregistered worker leaves room in the sleeping count. *)
Lemma unregistered_room σ t : Inv σ → (t < n)%nat → registered σ t = false → count n (registered σ) < 511.
Proof. intros HI Ht Hr. pose proof (count_lt n (registered σ) t Ht Hr). lia. Qed.

Lemma registered_pos σ t : (t < n)%nat → registered σ t = true → 0 < count n (registered σ).
Proof.
  intros Ht Hr. rewrite (count_upd n (λ i, if decide (i = t) then false else registered σ i) _ t).
  - rewrite decide_True, Hr by done. simpl.
    pose proof (count_bounds n (λ i, if decide (i = t) then false else registered σ i)). lia.
  - intros i Hi. by rewrite decide_False.
  - done.
Qed.

Lemma sleep_counter_ok σ t ch p :
  Inv σ → pc σ t = p →
  match p with LoadCtr _ _ | AddSleeping _ _ _ | SubSelf _ _ | SetBlocked _ _ => True | _ => False end →
  StepOK σ t ch p.
Proof.
  intros HI Ep Hp. pose proof (i_pc _ HI t) as Hok. pose proof (i_jobs _ HI) as Hj. rewrite Ep in Hok.
  destruct (i_word _ HI) as (J & HJ & Ew). pose proof (enc_ok_inv _ _ HI HJ) as Hen.
  pose proof (counts_ok _ HI) as Hc.
  destruct p as [ | | | | | | | | | | | | | | |l i|l i ctr| | |l i| |l i| | | | | | | | | | | | | | | | | | | | | | ]; try done; clear Hp; simpl in Hok;
    pose proof (not_blocked _ _ _ HI Ep eq_refl) as Hb;
    destruct (own_stage _ _ _ HI Ep eq_refl eq_refl) as [El Es];
    pose proof (i_cell _ HI t) as [_ _ Hbit]; rewrite Es, Hb, Ep in Hbit;
    assert (registered σ t = own_reg (pc σ t)) as Hreg
      by (unfold registered, reg_of; by rewrite Es, Hb); rewrite Ep in Hreg; simpl in Hreg.
  - pose proof Hok as (Ht & _). pose proof (unregistered_room σ t HI Ht Hreg) as Hroom.
    destruct (decide (jobs_counter (word (shared σ)) = idle_jec i)) as [E|E].
    + frame (shared σ) (AddSleeping l i (word (shared σ))) Ep; [by rewrite bool_decide_eq_false_2 by auto|].
      split; [done|]. by exists J, (count n (idle σ)), (count n (registered σ)).
    + frame (shared σ) (JecClear l i) Ep. by rewrite bool_decide_eq_true_2.
  - destruct Hok as [Hok (J' & I' & S' & -> & Hen' & HS')]. pose proof Hok as (Ht & _).
    pose proof (enc_with_sleeping _ _ _ Hen' HS') as Ews.
    destruct (decide (word (shared σ) = enc J' I' S')) as [E|E].
    + rewrite Ew in E. apply enc_inj in E as (<- & <- & <-); [|done..].
      exists (set_word (shared σ) (enc J (count n (idle σ)) (count n (registered σ) + 1))), (FinalCheck l i).
      split; [simpl; rewrite Ews; simpl; by rewrite bool_decide_eq_true_2 by done|].
      apply (inv_own σ t _ _ _ J HI Ep); simpl; try done; auto.
      * rewrite Hb. by split.
      * apply HI.
      * rewrite Hb. simpl. f_equal; lia.
    + frame (shared σ) (LoadCtr l i) Ep. rewrite Ews. simpl. by rewrite bool_decide_eq_false_2 by done.
  - pose proof Hok as (Ht & _). pose proof (registered_pos σ t Ht Hreg) as Hpos.
    exists (set_word (shared σ) (sub_sleeping_thread (word (shared σ)))), (ClearSelf l i). split; [done|].
    apply (inv_own σ t _ (SubSelf l i) _ J); simpl; try done; auto.
    + rewrite Hb. by split.
    + apply HI.
    + rewrite Hb, Ew, enc_sub_sleeping by done. simpl. f_equal; lia.
  - pose proof Hok as (Ht & _ & Ei & _).
    exists (set_blocked (shared σ) t true), (WaitLoop l i). split; [simpl; by rewrite Ei|].
    apply (inv_own σ t _ (SetBlocked l i) _ J); simpl; try done; auto.
    + intros k Hk. by rewrite fn_lookup_insert_ne.
    + rewrite fn_lookup_insert. by split.
    + apply HI.
    + rewrite fn_lookup_insert, Hb, Ew. simpl. f_equal; lia.
Qed.

(** Steps of [sleep] that change no cell. *)
Lemma sleep_frame_ok σ t ch p :
  Inv σ → pc σ t = p →
  match p with
  | GetSleepy _ _ | FallAsleep _ _ | FinalCheck _ _ | Parked _ _ | WakeUp1 _ _ | WakeUp2 _ _ => True
  | _ => False end → StepOK σ t ch p.
Proof.
  intros HI Ep Hp. pose proof (i_pc _ HI t) as Hok. pose proof (i_jobs _ HI) as Hj. rewrite Ep in Hok.
  destruct p as [ | | | | | | | | | | |l i| |l i| | | | |l i| | | | |l i| |l i|l i| | | | | | | | | | | | | | | | | ];
    try done; clear Hp; simpl in Hok.
  - destruct (get_sleepy (latch (shared σ) l)) as [st ok] eqn:E.
    frame (set_latch (shared σ) l st) (if ok then LockSelf l i else LProbe l i) Ep; [by rewrite E|by destruct ok..].
  - destruct (fall_asleep (latch (shared σ) l)) as [st ok] eqn:E. pose proof (idle_fully _ _ _ Hok).
    frame (set_latch (shared σ) l st) (if ok then MaskSet l i else UnlockSelf l (wake_fully i)) Ep;
      [by rewrite E|by destruct ok..].
  - frame (shared σ) (if bool_decide (jobs (shared σ) = 0) then SetBlocked l i else SubSelf l i) Ep;
      by case_bool_decide.
  - pose proof Hok as (_ & _ & Ei & _).
    destruct (match ch with Go b => b | _ => false end || negb (waiter (shared σ) t)) eqn:E.
    + frame (set_waiter (shared σ) t false) (Relock l i) Ep. by rewrite Ei, E.
    + frame (shared σ) (Parked l i) Ep. by rewrite Ei, E.
  - frame (shared σ) (if probe (latch (shared σ) l) then UnlockSelf l i else WakeUp2 l i) Ep; by destruct (probe _).
  - by frame (set_latch (shared σ) l (wake_up_exchange (latch (shared σ) l))) (UnlockSelf l i) Ep.
Qed.

(** The bits of a mask word belong to workers of the pool. *)
Lemma mask_bit_worker σ i : Inv σ → mask_bit (words (shared σ)) i = true → (i < n)%nat.
Proof.
  intros HI Hb. destruct (i_cell _ HI i) as [C1 C2 C3]. rewrite Hb in C3. symmetry in C3.
  pose proof (i_pc _ HI i) as Hp. unfold bit_of in C3.
  assert (parkish (pc σ i) = true ∨ own_bit (pc σ i) = true) as Hor.
  { apply orb_true_iff in C3 as [[C3|C3]%orb_true_iff|C3]; [left; by apply C1|left|by right].
    assert (waiting (pc σ i) = true) as Hw by (apply C2; by intros E; rewrite E in C3).
    by destruct (pc σ i). }
  destruct (pc σ i); simpl in *; try (by destruct Hor); unfold idle_ok in Hp; tauto || (by apply Hp).
Qed.

Lemma load_bits_ok σ w bits : Inv σ → words (shared σ) !! w = Some bits → bits_ok w bits.
Proof.
  intros HI E. destruct (i_mask _ HI) as [_ HF]. split; [by eapply Forall_lookup_1|].
  intros k Hk Hb. apply (mask_bit_worker σ); [done|]. unfold mask_bit, BITS_PER_WORD.
  rewrite Nat.div_add_l, Nat.div_small by lia. rewrite Nat.add_0_r, E.
  rewrite Nat.add_comm, Nat.Div0.mod_add, Nat.mod_small by lia. by rewrite Z2Nat.id by lia.
Qed.

Lemma next_bit_ok w bits :
  bits_ok w bits → bits ≠ 0 →
  let '(i, rest) := next_bit w bits in (i < n)%nat ∧ bits_ok w rest.
Proof.
  intros [Hw Hk] Hne. pose proof (next_bit_spec w bits Hw Hne) as Hs.
  destruct (next_bit w bits) as [i rest]. destruct Hs as (E1 & E2 & Hr & Hsub).
  pose proof (Nat.mod_upper_bound i BITS_PER_WORD ltac:(done)) as Hm. unfold BITS_PER_WORD at 2 in Hm.
  split.
  - specialize (Hk (Z.of_nat (i `mod` BITS_PER_WORD)) ltac:(lia) E2). rewrite Nat2Z.id in Hk.
    rewrite (Nat.div_mod_eq i BITS_PER_WORD), E1. lia.
  - split; [done|]. intros k H0 Hb. by apply Hk, Hsub.
Qed.

Lemma scan_step_ok σ t ch p :
  Inv σ → pc σ t = p → match p with ScanW _ _ _ | ScanB _ _ _ _ => True | _ => False end → StepOK σ t ch p.
Proof.
  intros HI Ep Hp. pose proof (i_pc _ HI t) as Hok. pose proof (i_jobs _ HI) as Hj. rewrite Ep in Hok.
  destruct p as [ | | | | | | | | | | | | | | | | | | | | | | | | | | | | | | | | | |tg wk w|tg wk w bits| | | | | | | | ]; try done; clear Hp; simpl in Hok.
  - destruct (decide (w < div_ceil n BITS_PER_WORD)%nat) as [Hw|Hw].
    + destruct (words (shared σ) !! w) as [bits|] eqn:E.
      * pose proof (load_bits_ok _ _ _ HI E).
        frame (shared σ) (ScanB tg wk w bits) Ep. by rewrite bool_decide_eq_true_2, E by done.
      * frame (shared σ) Active Ep. by rewrite bool_decide_eq_true_2, E by done.
    + frame (shared σ) Active Ep. by rewrite bool_decide_eq_false_2 by done.
  - destruct Hok as [Hs Hb]. destruct (decide (bits = 0)) as [->|Hne].
    + by frame (shared σ) (ScanW tg wk (S w)) Ep.
    + pose proof (next_bit_ok w bits Hb Hne) as Hn'. destruct (next_bit w bits) as [i rest] eqn:En.
      frame (shared σ) (WkLock i (Some (mkScan tg wk w rest))) Ep; [|by destruct Hn'].
      rewrite bool_decide_eq_false_2 by done. unfold next_bit in En. by injection En as <- <-.
Qed.

(** The continuation of a wake-up holds no mutex and is no worker state. *)
Lemma woke_ok t k r : cont_ok k → ∃ p', woke k r = Ret p' ∧ pc_ok t p' ∧
  hold_of t p' = None ∧ stage_of p' = SNone ∧ own_bit p' = false ∧ own_reg p' = false ∧
  idle_pc p' = false ∧ waiting p' = false ∧ parkish p' = false.
Proof.
  intros Hk. destruct k as [s|]; simpl; [|by exists Active].
  destruct Hk as [[Hw Ht] Hb]. destruct r.
  - rewrite checked_add_ret by lia. simpl. case_bool_decide as Hle; [by exists Active|].
    eexists. split; [done|]. simpl. unfold scan_ok. split_and!; done || lia.
  - rewrite bool_decide_eq_true_2 by lia. by eexists.
Qed.

(** Taking and releasing a sleeper's mutex to wake it. *)
Lemma wk_lock_ok σ t ch j k : Inv σ → pc σ t = WkLock j k → StepOK σ t ch (WkLock j k).
Proof.
  intros HI Ep. pose proof (i_pc _ HI t) as Hok. rewrite Ep in Hok. pose proof Hok as (Hjn & Hk).
  pose proof (i_jobs _ HI) as Hj. destruct (lock (shared σ) j) as [u|] eqn:El.
  { frame (shared σ) (WkLock j k) Ep. rewrite bool_decide_eq_true_2, El; done. }
  pose proof (i_cell _ HI j) as [C1 C2 C3]. destruct (i_word _ HI) as (J & HJ & Ew).
  assert (stage_at (lock (shared σ)) (pc σ) j = SNone) as Es by (unfold stage_at; by rewrite El).
  rewrite Es in C1, C2, C3.
  exists (set_lock (shared σ) j (Some t)), (WkCheck j k).
  split; [simpl; rewrite bool_decide_eq_true_2, El by done; done|].
  apply (inv_wake σ t j _ _ _ J SNone SNone HI Ep); simpl; try done; auto.
  - intros i Hi. by rewrite fn_lookup_insert_ne.
  - right. rewrite fn_lookup_insert. auto.
  - unfold stage_at. simpl. by rewrite !fn_lookup_insert.
  - apply HI.
  - rewrite Ew. f_equal; lia.
Qed.

(** [wake_specific_thread] under the mutex. *)
Lemma wk_held σ t j p : Inv σ → pc σ t = p → hold_of t p = Some j →
  lock (shared σ) j = Some t ∧ stage_at (lock (shared σ)) (pc σ) j = stage_of p.
Proof.
  intros HI <- Hh. apply (i_lock _ HI) in Hh. split; [done|]. unfold stage_at. by rewrite Hh.
Qed.

Lemma wk_check_ok σ t ch j k : Inv σ → pc σ t = WkCheck j k → StepOK σ t ch (WkCheck j k).
Proof.
  intros HI Ep. pose proof (i_pc _ HI t) as Hok. rewrite Ep in Hok. pose proof Hok as (Hjn & Hk).
  pose proof (i_jobs _ HI) as Hj. destruct (blocked (shared σ) j) eqn:Hb.
  2: { frame (shared σ) (WkUnlock j k false) Ep. by rewrite Hb. }
  destruct (wk_held _ _ _ _ HI Ep eq_refl) as [El Es]. simpl in Es.
  pose proof (i_cell _ HI j) as [C1 C2 C3]. rewrite Es, Hb in C1, C3.
  destruct (C1 eq_refl) as [Hpk _]. destruct (i_word _ HI) as (J & HJ & Ew).
  assert (waiting (pc σ j) = true) as Hwt.
  { destruct (pc σ j) eqn:E; try done. simpl in Hpk.
    assert (lock (shared σ) j = Some j) as El' by (apply (i_lock _ HI); by rewrite E). congruence. }
  exists (set_blocked (shared σ) j false), (WkClear j k). split; [simpl; by rewrite Hb|].
  apply (inv_wake σ t j _ _ _ J SNone SClear HI Ep); simpl; try done; auto.
  - intros i Hi. by rewrite fn_lookup_insert_ne.
  - unfold stage_at. rewrite El. by rewrite fn_lookup_insert.
  - by rewrite fn_lookup_insert.
  - rewrite fn_lookup_insert, C3. done.
  - apply HI.
  - rewrite Ew, Hb, fn_lookup_insert. simpl. f_equal; lia.
Qed.

Lemma wk_clear_ok σ t ch j k : Inv σ → pc σ t = WkClear j k → StepOK σ t ch (WkClear j k).
Proof.
  intros HI Ep. pose proof (i_pc _ HI t) as Hok. rewrite Ep in Hok. pose proof Hok as (Hjn & Hk).
  pose proof (i_jobs _ HI) as Hj. destruct (wk_held _ _ _ _ HI Ep eq_refl) as [El Es]. simpl in Es.
  pose proof (i_cell _ HI j) as [C1 C2 C3]. rewrite Es in C1, C2, C3. specialize (C2 ltac:(done)).
  assert (blocked (shared σ) j = false) as Hb.
  { destruct (blocked (shared σ) j); [by destruct (C1 eq_refl)|done]. }
  destruct (i_word _ HI) as (J & HJ & Ew).
  destruct (mask_clear_bit (words (shared σ)) j) as (m & E & Hm & Hbit); [apply HI|lia|].
  exists (set_words (shared σ) m), (WkSub j k). split; [simpl; by rewrite E|].
  apply (inv_wake σ t j _ _ _ J SClear SSub HI Ep); simpl; try done; auto.
  - intros i Hi. by rewrite Hbit, decide_False.
  - unfold stage_at. rewrite El. by rewrite fn_lookup_insert.
  - rewrite Hb. done.
  - rewrite Hbit, decide_True, Hb by done. by destruct (pc σ j).
  - rewrite Ew, Hb. f_equal; simpl; lia.
Qed.

Lemma wk_sub_ok σ t ch j k : Inv σ → pc σ t = WkSub j k → StepOK σ t ch (WkSub j k).
Proof.
  intros HI Ep. pose proof (i_pc _ HI t) as Hok. rewrite Ep in Hok. pose proof Hok as (Hjn & Hk).
  pose proof (i_jobs _ HI) as Hj. destruct (wk_held _ _ _ _ HI Ep eq_refl) as [El Es]. simpl in Es.
  pose proof (i_cell _ HI j) as [C1 C2 C3]. rewrite Es in C1, C2, C3. specialize (C2 ltac:(done)).
  assert (blocked (shared σ) j = false) as Hb.
  { destruct (blocked (shared σ) j); [by destruct (C1 eq_refl)|done]. }
  destruct (i_word _ HI) as (J & HJ & Ew). pose proof (enc_ok_inv _ _ HI HJ) as Hen.
  assert (registered σ j = true) as Hr by (unfold registered, reg_of; rewrite Es; by destruct (blocked _ _)).
  pose proof (registered_pos σ j Hjn Hr) as Hpos.
  assert (own_reg (pc σ j) = false) as Hor by (by destruct (pc σ j)).
  exists (set_word (shared σ) (sub_sleeping_thread (word (shared σ)))), (WkUnlock j k true).
  split; [done|].
  apply (inv_wake σ t j _ _ _ J SSub SNone HI Ep); simpl; try done; auto.
  - unfold stage_at. rewrite El. by rewrite fn_lookup_insert.
  - rewrite Hb. done.
  - apply HI.
  - rewrite Ew, Hb, enc_sub_sleeping by done. unfold reg_of. rewrite Hor. simpl. f_equal; lia.
Qed.

Lemma wk_unlock_ok σ t ch j k r : Inv σ → pc σ t = WkUnlock j k r → StepOK σ t ch (WkUnlock j k r).
Proof.
  intros HI Ep. pose proof (i_pc _ HI t) as Hok. rewrite Ep in Hok. pose proof Hok as (Hjn & Hk).
  pose proof (i_jobs _ HI) as Hj. destruct (wk_held _ _ _ _ HI Ep eq_refl) as [El Es]. simpl in Es.
  pose proof (i_cell _ HI j) as [C1 C2 C3]. rewrite Es in C1, C2, C3.
  destruct (i_word _ HI) as (J & HJ & Ew).
  assert (∃ p', (if r then Ret (WkNotify j k) else woke k false) = Ret p' ∧ pc_ok t p' ∧
    hold_of t p' = None ∧ stage_of p' = SNone ∧ own_bit p' = false ∧ own_reg p' = false ∧
    idle_pc p' = false ∧ waiting p' = false ∧ parkish p' = false) as (p' & E & Hp' & F1 & F2 & F3 & F4 & F5 & F6 & F7).
  { destruct r; [by eexists|by apply woke_ok]. }
  exists (set_lock (shared σ) j None), p'. split.
  { simpl. destruct r; [by injection E as <-|by rewrite E]. }
  apply (inv_wake σ t j _ _ _ J SNone SNone HI Ep); simpl; try done; auto.
  - intros i Hi. by rewrite fn_lookup_insert_ne.
  - left. rewrite fn_lookup_insert. auto.
  - unfold stage_at. simpl. by rewrite !fn_lookup_insert.
  - apply HI.
  - rewrite Ew. f_equal; lia.
Qed.

Lemma wk_notify_ok σ t ch j k : Inv σ → pc σ t = WkNotify j k → StepOK σ t ch (WkNotify j k).
Proof.
  intros HI Ep. pose proof (i_pc _ HI t) as Hok. rewrite Ep in Hok. pose proof Hok as (Hjn & Hk).
  pose proof (i_jobs _ HI) as Hj.
  destruct (woke_ok t k true Hk) as (p' & E & Hp' & F1 & F2 & F3 & F4 & F5 & F6 & F7).
  frame (set_waiter (shared σ) j false) p' Ep. by rewrite E.
Qed.

Lemma entry_pc_ok t ch : choice_ok n owner t ch → pc_ok t (match ch with Start o => entry o | _ => Active end).
Proof. destruct ch as [[]|]; simpl; try done; lia. Qed.

(** Every step returns and keeps the invariant. *)
Lemma all_step_ok σ t ch : Inv σ → choice_ok n owner t ch → StepOK σ t ch (pc σ t).
Proof.
  intros HI Hch. pose proof (i_pc _ HI t) as Hok. pose proof (i_jobs _ HI) as Hj.
  destruct (pc σ t) eqn:Ep;
    first [by apply wait_ok|by apply no_work_ok|by apply post_ok|by apply sleep_mask_ok
      |by apply sleep_counter_ok|by apply sleep_frame_ok|by apply scan_step_ok|by apply wlocal_ok
      |by apply work_found_ok|by apply lock_self_ok|by apply unlock_self_ok|by apply wait_loop_ok
      |by apply relock_ok|by apply wk_lock_ok|by apply wk_check_ok|by apply wk_clear_ok|by apply wk_sub_ok
      |by apply wk_unlock_ok|by apply wk_notify_ok|idtac].
  - pose proof (entry_pc_ok t ch Hch).
    frame (shared σ) (match ch with Start o => entry o | _ => Active end) Ep; destruct ch as [[]|]; done.
  - simpl in Hok. frame (set_latch (shared σ) l SET)
      (if bool_decide (latch (shared σ) l = SLEEPING) then WkLock (owner l) None else Active) Ep;
      by case_bool_decide.
  - frame (shared σ) (if bool_decide (jobs (shared σ) = 0) then Active else PopTake) Ep; by case_bool_decide.
  - destruct (decide (jobs (shared σ) = 0)) as [E|E].
    + frame (shared σ) Active Ep. by rewrite bool_decide_eq_true_2.
    + frame (set_jobs (shared σ) (jobs (shared σ) - 1)) Active Ep; [|lia]. by rewrite bool_decide_eq_false_2.
Qed.

Lemma sleep_inv_step σ σ' : Inv σ → step n tun owner σ σ' → Inv σ'.
Proof.
  intros HI Hs. destruct Hs as [σ t ch c' p' Hch E].
  destruct (all_step_ok σ t ch HI Hch) as (c1 & p1 & E1 & HI'). rewrite E in E1. by injection E1 as <- <-.
Qed.

Lemma sleep_inv_init : Inv init.
Proof.
  split; simpl; try done.
  - intros i. rewrite mask_new_bit. by split.
  - apply mask_new_ok.
  - exists 0. split; [lia|]. by rewrite (count_none n (idle init)), (count_none n (registered init)).
Qed.

Lemma inv_reachable σ : reachable n tun owner σ → Inv σ.
Proof.
  apply (rtc_ind_r (λ σ, Inv σ) init); [apply sleep_inv_init|]. intros σ1 σ2 _ Hs HI. by eapply sleep_inv_step.
Qed.

End inv.
