(* ===== verification/SleepLive.v ===== *)
(** * SleepLive: no wake-up is lost

    The second layer of invariants of [Sleep]: what the latches say about
    sleeping workers, who is about to wake whom, and who is responsible for a
    queued job while every worker sleeps. *)

From stdpp Require Import functions relations.
From S2P Require Import Prelude SleepCounters Sleep.
Local Open Scope Z_scope.

(** The latch a worker is falling asleep on, and whether it has reached the
    [SLEEPING] state. *)
Definition lat_of (p : Pc) : option (nat * bool) :=
  match p with
  | LockSelf l _ | FallAsleep l _ => Some (l, false)
  | MaskSet l _ | LoadCtr l _ | AddSleeping l _ _ | JecClear l _ | FinalCheck l _ | SubSelf l _
  | ClearSelf l _ | SetBlocked l _ | WaitLoop l _ | Parked l _ | Relock l _ | WakeUp1 l _
  | WakeUp2 l _ => Some (l, true)
  | _ => None
  end.

Definition lat_ok (l : nat) (p : Pc) (v : Z) : Prop :=
  match lat_of p with
  | Some (l', b) => if decide (l' = l) then v = (if b then SLEEPING else SLEEPY) ∨ v = SET
                    else v = UNSET ∨ v = SET
  | None => v = UNSET ∨ v = SET
  end.

(** The worker is bound to block on [l], or blocked on it. *)
Definition will_block (l : nat) (p : Pc) (b : bool) : bool :=
  match p with
  | MaskSet l' _ | LoadCtr l' _ | AddSleeping l' _ _ | FinalCheck l' _ | SetBlocked l' _ =>
      bool_decide (l' = l)
  | WaitLoop l' _ | Parked l' _ | Relock l' _ => bool_decide (l' = l) && b
  | _ => false
  end.

(** A thread about to unblock worker [i] if it is blocked. *)
Definition will_check (i : nat) (p : Pc) : bool :=
  match p with WkLock j _ | WkCheck j _ => bool_decide (j = i) | _ => false end.

(** A thread that unblocked worker [i] and has not notified it yet. *)
Definition will_notify (i : nat) (p : Pc) : bool :=
  match p with
  | WkClear j _ | WkSub j _ | WkUnlock j _ true | WkNotify j _ => bool_decide (j = i)
  | _ => false
  end.

Definition parked (p : Pc) : bool := match p with Parked _ _ => true | _ => false end.

(** Worker [i] sleeps, or has decided to: it found the injector empty. *)
Definition asleep (σ : State) (i : nat) : bool :=
  blocked (shared σ) i || match pc σ i with SetBlocked _ _ => true | _ => false end.

(** A thread in [new_jobs] or the scan it started, before its first success. *)
Definition responsible (p : Pc) : bool :=
  match p with
  | NewJobs1 k _ | NewJobs2 k _ _ => bool_decide (1 ≤ k)
  | ScanW _ _ w => bool_decide (w = 0%nat)
  | ScanB _ _ w bits => bool_decide (w = 0%nat) && bool_decide (bits ≠ 0)
  | WkLock _ (Some _) | WkCheck _ (Some _) => true
  | _ => false
  end.

Section live.
Context (n : nat) (tun : IdleTuning) (owner : nat → nat).
Context (Hn : (1 ≤ n ≤ 511)%nat)
  (Htun : 0 ≤ spin tun ∧ 0 ≤ yield_rounds tun ∧ sleepy tun + 1 < 2 ^ 32).
Implicit Types (σ : State) (t i l : nat) (p : Pc).
Notation Inv := (Inv n tun owner).
Notation code_step := (code_step n tun owner).

Record LInv σ : Prop := {
  l_latch l : lat_ok l (pc σ (owner l)) (latch (shared σ) l);
  l_set l : latch (shared σ) l = SET →
    will_block l (pc σ (owner l)) (blocked (shared σ) (owner l)) = true →
    ∃ t, will_check (owner l) (pc σ t) = true;
  l_wait i : waiter (shared σ) i = true → parked (pc σ i) = true;
  l_note i : waiter (shared σ) i = true → blocked (shared σ) i = false →
    ∃ t, will_notify i (pc σ t) = true;
  l_job : jobs (shared σ) ≠ 0 → (∀ i, (i < n)%nat → asleep σ i = true) →
    ∃ t, responsible (pc σ t) = true;
}.

(** [inv_code E]: the outcomes of a step, case by case. *)
Ltac inv_code E :=
  cbn [Sleep.code_step wait_step no_work_step sleep_step scan_step wake_step post_step pop_step] in E;
  unfold work_found_step, set_latch_step, wake_any_threads, mret, outcome_mret in E;
  repeat
    match type of E with
    | Ret _ = Ret _ => injection E as <- <-
    | Panic = Ret _ => discriminate E
    | (_ ≫= _) = Ret _ => apply mbind_ret_inv in E as (? & ? & E)
    | context [match ?x with _ => _ end] => destruct x eqn:?
    end;
  repeat match goal with |- context [if ?b then _ else _] => destruct b eqn:? end.

(** The continuation of a wake-up is no worker program point. *)
Lemma woke_cases k r p : woke k r = Ret p →
  p = Active ∨ (∃ tg wk w bits, r = true ∧ p = ScanB tg wk w bits) ∨ (∃ tg wk, r = false ∧ p = ScanW tg wk 0).
Proof.
  destruct k as [s|]; simpl; intros E; [|left; by injection E as <-]. destruct r.
  - destruct_ret E. case_bool_decide; injection E as <-; [by left|right; left; by eexists _, _, _, _].
  - case_bool_decide; injection E as <-; [right; right; by eexists _, _|by left].
Qed.

Ltac woke_case :=
  match goal with H : woke _ _ = Ret _ |- _ =>
    apply woke_cases in H as [->|[(? & ? & ? & ? & ? & ->)|(? & ? & ? & ->)]] end.

Lemma lat_none l p v : lat_of p = None → v = UNSET ∨ v = SET → lat_ok l p v.
Proof. unfold lat_ok. by intros ->. Qed.

(** Latches: only the owner moves a latch between unset and sleeping. *)
Lemma latch_step σ t ch c' p' l :
  Inv σ → LInv σ → code_step (shared σ) t ch (pc σ t) = Ret (c', p') →
  lat_ok l (<[t := p']> (pc σ) (owner l)) (latch c' l).
Proof.
  intros HI HL E. pose proof (l_latch _ HL l) as Hl. pose proof (i_pc _ _ _ _ HI t) as Hp.
  destruct (decide (t = owner l)) as [Ht|Ht].
  - rewrite Ht, fn_lookup_insert. rewrite <- Ht in Hl. clear Ht.
    destruct (pc σ t) eqn:Ep; inv_code E; try woke_case; try exact Hl; try (by destruct ch as [[]|]);
      unfold lat_ok, get_sleepy, fall_asleep, wake_up_exchange, latch_set, probe, compare_exchange in *;
      cbn [lat_of latch set_latch] in *.
    all: repeat first [case_bool_decide | case_decide]; simplify_eq/=;
      rewrite ?fn_lookup_insert, ?fn_lookup_insert_ne by done; auto.
    all: try match goal with |- context [<[?l0 := _]> _ ?l1] =>
      destruct (decide (l0 = l1)) as [->|]; [rewrite fn_lookup_insert|rewrite fn_lookup_insert_ne by done] end; auto.
    all: tauto.
  - rewrite fn_lookup_insert_ne by done.
    destruct (pc σ t) eqn:Ep; inv_code E; try exact Hl; cbn [latch set_latch pc_ok] in *;
      match goal with |- context [<[?l0 := _]> _ ?l1] =>
        destruct (decide (l0 = l1)) as [->|]; [rewrite fn_lookup_insert|by rewrite fn_lookup_insert_ne] end;
      try (destruct Hp as (_ & Ho & _); congruence).
    match goal with H : latch_set _ = _ |- _ => injection H as <- _ end.
    unfold lat_ok. destruct (lat_of _) as [[]|]; [case_decide|]; auto.
Qed.

(** ** Wake-ups *)

(** A witness other than the stepping thread is still there. *)
Lemma witness_frame (f : Pc → bool) σ t p' u :
  f (pc σ u) = true → f (pc σ t) = false ∨ f p' = true → ∃ u, f (<[t := p']> (pc σ) u) = true.
Proof.
  intros Hu Hor. destruct (decide (t = u)) as [->|Hne].
  - exists u. rewrite fn_lookup_insert. destruct Hor; congruence.
  - exists u. by rewrite fn_lookup_insert_ne.
Qed.

(** A worker that holds its own mutex is not being woken. *)
Lemma held_not σ t j : Inv σ → hold_of t (pc σ t) = Some j → t ≠ j → hold_of j (pc σ j) ≠ Some j.
Proof.
  intros HI Ht Hne Hj. apply (i_lock _ _ _ _ HI) in Ht, Hj. congruence.
Qed.

(** What a step leaves alone in the cells of other workers. *)
Lemma other_effects σ t ch c' p' :
  Inv σ → code_step (shared σ) t ch (pc σ t) = Ret (c', p') →
  (∀ l, owner l ≠ t → latch c' l = latch (shared σ) l ∨ pc σ t = SetLatch l) ∧
  (∀ i, i ≠ t → blocked c' i = true → blocked (shared σ) i = true) ∧
  (∀ i, i ≠ t → waiter c' i = true → waiter (shared σ) i = true).
Proof.
  intros HI E. pose proof (i_pc _ _ _ _ HI t) as Hp.
  destruct (pc σ t) eqn:Ep; inv_code E; split_and!; auto; intros j Hj;
    cbn [latch blocked waiter set_latch set_blocked set_waiter set_lock pc_ok] in *;
    try match goal with |- context [<[?i := _]> _ j] =>
      destruct (decide (i = j)) as [Heq|]; [rewrite Heq, fn_lookup_insert|rewrite fn_lookup_insert_ne by done] end;
    auto; try (destruct Hp as (_ & H1 & H2 & _); congruence); try congruence.
Qed.

Lemma will_block_mono l p b b' : (b' = true → b = true) → will_block l p b' = true → will_block l p b = true.
Proof. intros Hb. destruct p; simpl; try done; intros [H1 H2]%andb_true_iff; by rewrite H1, Hb. Qed.

Lemma will_block_lat l p b : will_block l p b = true → lat_of p = Some (l, true).
Proof.
  destruct p; simpl; try done; intros H; try (apply andb_true_iff in H as [H _]);
    by apply bool_decide_eq_true in H as ->.
Qed.

Lemma check_not_bound σ t j k l :
  Inv σ → pc σ t = WkCheck j k → t ≠ j → will_block l (pc σ j) false = true → False.
Proof.
  intros HI Ep Hne Hb. apply (held_not σ t j HI); [by rewrite Ep|done|].
  destruct (pc σ j); simpl in *; rewrite ?andb_false_r in Hb; done.
Qed.

Lemma set_step σ t ch c' p' l :
  Inv σ → LInv σ → code_step (shared σ) t ch (pc σ t) = Ret (c', p') →
  latch c' l = SET → will_block l (<[t := p']> (pc σ) (owner l)) (blocked c' (owner l)) = true →
  ∃ u, will_check (owner l) (<[t := p']> (pc σ) u) = true.
Proof.
  intros HI HL E. pose proof (l_set _ HL l) as Hl. pose proof (l_latch _ HL l) as Hlat.
  pose proof (i_pc _ _ _ _ HI t) as Hp.
  destruct (decide (t = owner l)) as [Ht|Ht].
  - rewrite <- Ht, fn_lookup_insert in *. intros Hs Hb.
    assert (latch (shared σ) l = SET ∧ will_block l (pc σ t) (blocked (shared σ) t) = true) as [H1 H2].
    { clear Hl. revert Hs Hb.
      destruct (pc σ t) eqn:Ep; inv_code E; try woke_case; try (by destruct ch as [[]|]); try done;
        intros Hs Hb; cbn [latch blocked set_latch set_blocked pc_ok will_block] in *.
      - match goal with H : fall_asleep _ = _ |- _ => unfold fall_asleep, compare_exchange in H end.
        apply bool_decide_eq_true in Hb as ->. rewrite fn_lookup_insert in Hs. by case_bool_decide; simplify_eq.
      - by apply andb_true_iff in Hb as [-> _]. }
    destruct (Hl H1 H2) as [u Hu]. eapply witness_frame; [done|]. left. by destruct (pc σ t).
  - rewrite fn_lookup_insert_ne by done. intros Hs Hb.
    destruct (other_effects _ _ _ _ _ HI E) as (F1 & F2 & _).
    assert (will_block l (pc σ (owner l)) (blocked (shared σ) (owner l)) = true) as Hb0.
    { revert Hb. apply will_block_mono, F2. done. }
    destruct (F1 l) as [F|F]; [done| |].
    + rewrite F in Hs. destruct (Hl Hs Hb0) as [u Hu]. eapply witness_frame; [done|].
      destruct (pc σ t) eqn:Ep; try (by left); inv_code E; auto; simpl.
      * destruct (bool_decide (i = owner l)); [by right|by left].
      * destruct (bool_decide (i = owner l)); [by right|by left].
      * left. apply bool_decide_eq_false. intros ->. cbn [blocked set_blocked] in Hb.
        rewrite fn_lookup_insert in Hb. by eapply check_not_bound.
      * left. apply bool_decide_eq_false. intros ->. rewrite Heqb in Hb. by eapply check_not_bound.
    + rewrite F in E. inv_code E.
      * exists t. rewrite fn_lookup_insert. by apply bool_decide_eq_true.
      * unfold lat_ok in Hlat. rewrite (will_block_lat _ _ _ Hb0), decide_True in Hlat by done.
        destruct Hlat as [Hlat|Hlat].
        -- unfold latch_set in *. rewrite bool_decide_eq_true_2 in * by done. congruence.
        -- destruct (Hl Hlat Hb0) as [u Hu]. eapply witness_frame; [done|]. rewrite F. by left.
Qed.

(** Only a parked worker waits on its condition variable. *)
Lemma waiter_step σ t ch c' p' i :
  Inv σ → LInv σ → code_step (shared σ) t ch (pc σ t) = Ret (c', p') →
  waiter c' i = true → parked (<[t := p']> (pc σ) i) = true.
Proof.
  intros HI HL E Hw. pose proof (l_wait _ HL i) as Hl. destruct (decide (t = i)) as [->|Hne].
  - rewrite fn_lookup_insert. pose proof (i_pc _ _ _ _ HI i) as Hp. revert Hw.
    destruct (pc σ i) eqn:Ep; inv_code E; intros Hw; cbn [waiter set_waiter set_lock pc_ok] in *; try done;
      try (by specialize (Hl Hw)).
    + destruct Hp as (_ & _ & E2 & _). rewrite E2, fn_lookup_insert in Hw. done.
    + exfalso. destruct (decide (i0 = i)) as [->|]; [by rewrite fn_lookup_insert in Hw|].
      rewrite fn_lookup_insert_ne in Hw by done. by specialize (Hl Hw).
  - rewrite fn_lookup_insert_ne by done. apply Hl. by eapply (other_effects _ _ _ _ _ HI E).
Qed.

(** An unblocked worker that still waits is about to be notified. *)
Lemma note_step σ t ch c' p' i :
  Inv σ → LInv σ → code_step (shared σ) t ch (pc σ t) = Ret (c', p') →
  waiter c' i = true → blocked c' i = false → ∃ u, will_notify i (<[t := p']> (pc σ) u) = true.
Proof.
  intros HI HL E Hw Hb. pose proof (waiter_step _ _ _ _ _ _ HI HL E Hw) as Hpk.
  pose proof (l_note _ HL i) as Hl. destruct (other_effects _ _ _ _ _ HI E) as (_ & _ & F3).
  pose proof (i_pc _ _ _ _ HI t) as Hp. revert Hw Hb Hpk.
  destruct (pc σ t) eqn:Ep; inv_code E; intros Hw Hb Hpk;
    try (destruct (Hl Hw Hb) as [u Hu]; eapply witness_frame; [exact Hu|rewrite Ep; by left]).
  all: cbn [waiter blocked set_waiter set_blocked set_lock] in Hw, Hb;
    try match goal with H : <[?j := _]> _ ?i' = _ |- _ =>
      destruct (decide (j = i')) as [Heq|Hne]; [rewrite Heq, fn_lookup_insert in H; try done|rewrite fn_lookup_insert_ne in H by done] end;
    try congruence;
    try (destruct (Hl Hw Hb) as [u Hu]; eapply witness_frame; [exact Hu|rewrite Ep; simpl;
      first [by left | left; by apply bool_decide_eq_false | right; by rewrite Ep in Hu
            | destruct (bool_decide _); [by right|by left]]]).
  exists t. rewrite fn_lookup_insert. by apply bool_decide_eq_true.
Qed.

(** Nobody falls asleep while a job is queued. *)
Lemma asleep_back σ t ch c' p' i :
  Inv σ → code_step (shared σ) t ch (pc σ t) = Ret (c', p') → jobs c' ≠ 0 →
  asleep (mkState c' (<[t := p']> (pc σ))) i = true → asleep σ i = true.
Proof.
  intros HI E Hj. destruct (other_effects _ _ _ _ _ HI E) as (_ & F2 & _). unfold asleep. simpl.
  destruct (decide (t = i)) as [->|Hne].
  - rewrite fn_lookup_insert. revert Hj. clear F2. pose proof (i_pc _ _ _ _ HI i) as Hp.
    destruct (pc σ i) eqn:Ep; inv_code E; try woke_case; try (by destruct ch as [[]|]); try done;
      intros Hj; cbn [blocked jobs set_blocked set_jobs] in *; rewrite ?orb_false_r, ?orb_true_r; try done.
    + by apply bool_decide_eq_true in Heqb.
    + destruct (decide (i0 = i)) as [->|]; [by rewrite fn_lookup_insert|by rewrite fn_lookup_insert_ne].
  - rewrite fn_lookup_insert_ne by done. specialize (F2 i ltac:(done)).
    intros [H|H]%orb_true_iff; [by rewrite F2|by rewrite H, orb_true_r].
Qed.

(** When every worker sleeps, all are counted and all bits are set. *)
Lemma all_asleep σ : Inv σ → (∀ i, (i < n)%nat → asleep σ i = true) →
  (∃ J, 0 ≤ J < 2 ^ 46 ∧ word (shared σ) = enc J (Z.of_nat n) (Z.of_nat n)) ∧
  ∀ i, (i < n)%nat → mask_bit (words (shared σ)) i = true.
Proof.
  intros HI Ha. assert (∀ i, (i < n)%nat → registered σ i = true ∧ mask_bit (words (shared σ)) i = true) as H.
  { intros i Hi. destruct (i_cell _ _ _ _ HI i) as [C1 C2 C3]. rewrite C3. unfold registered, reg_of, bit_of.
    specialize (Ha i Hi). unfold asleep in Ha. destruct (blocked (shared σ) i); [done|]. simpl in Ha.
    destruct (pc σ i); try done. by rewrite !orb_true_r. }
  split; [|intros i Hi; by apply H]. destruct (i_word _ _ _ _ HI) as (J & HJ & E). exists J. split; [done|].
  rewrite E. rewrite (count_all n (idle σ)), (count_all n (registered σ)); [done|..]; intros i Hi.
  - by apply H.
  - by apply (registered_idle n tun owner), H.
Qed.

(** Jobs only appear through an injection. *)
Lemma jobs_back σ t ch c' p' :
  code_step (shared σ) t ch (pc σ t) = Ret (c', p') → jobs c' ≠ 0 →
  jobs (shared σ) ≠ 0 ∨ ∃ k e, pc σ t = InjPush k e.
Proof.
  intros E Hj. revert Hj. destruct (pc σ t) eqn:Ep; inv_code E; intros Hj; eauto; left;
    by (apply bool_decide_eq_false in Heqb).
Qed.

(** The counters a poster observes make it wake a worker. *)
Lemma target_pos J k e tg :
  0 ≤ J < 2 ^ 46 → 1 ≤ k → new_jobs_target (enc J (Z.of_nat n) (Z.of_nat n)) k e = Ret tg → tg ≠ 0.
Proof.
  intros HJ Hk E. destruct (new_jobs_target_spec J (Z.of_nat n) (Z.of_nat n) k e) as (tg' & E' & H1 & H2);
    [unfold enc_ok; lia|lia|lia|]. rewrite E in E'. injection E' as <-. lia.
Qed.

(** A responsible thread stays responsible until it wakes a worker. *)
Lemma responsible_step σ t ch c' p' :
  Inv σ → code_step (shared σ) t ch (pc σ t) = Ret (c', p') → responsible (pc σ t) = true →
  (∀ i, (i < n)%nat → asleep σ i = true) →
  responsible p' = true ∨ ∃ i, (i < n)%nat ∧ asleep (mkState c' (<[t := p']> (pc σ))) i = false.
Proof.
  intros HI E Hr Ha. destruct (all_asleep _ HI Ha) as [(J & HJ & Ew) Hbits].
  pose proof (i_pc _ _ _ _ HI t) as Hp.
  assert (jobs_counter (word (shared σ)) = J ∧ incremented_jec (word (shared σ)) =
    enc ((J + 1) mod 2 ^ 46) (Z.of_nat n) (Z.of_nat n)) as [Ej Ei].
  { rewrite Ew. split; [apply enc_jec|apply enc_incremented]; unfold enc_ok; lia. }
  destruct (pc σ t) eqn:Ep; try done; simpl in Hr.
  - inv_code E; [by left| |by left]. exfalso. apply bool_decide_eq_true in Hr. rewrite Ew in *.
    match goal with H : new_jobs_target _ _ _ = _, H' : bool_decide (_ = 0) = true |- _ =>
      apply bool_decide_eq_true in H'; apply target_pos in H; done end.
  - inv_code E; [| by left| by left]. exfalso. apply bool_decide_eq_true in Hr.
    match goal with H : new_jobs_target _ _ _ = _, H' : bool_decide (_ = 0) = true, Hw : bool_decide (word _ = _) = true |- _ =>
      apply bool_decide_eq_true in H', Hw; subst old; rewrite Ei in H; apply target_pos in H; [done|apply Z.mod_pos_bound; lia|done] end.
  - apply bool_decide_eq_true in Hr as ->. specialize (Hbits 0%nat ltac:(lia)). unfold mask_bit in Hbits.
    change (0 / BITS_PER_WORD)%nat with 0%nat in Hbits.
    inv_code E.
    + left. simpl. apply bool_decide_eq_true. intros ->. by rewrite Z.bits_0 in Hbits.
    + done.
    + exfalso. apply bool_decide_eq_false in Heqb. apply Heqb. unfold div_ceil, BITS_PER_WORD.
      apply Nat.div_str_pos. lia.
  - apply andb_true_iff in Hr as [Hw Hb]. apply bool_decide_eq_true in Hw as ->.
    inv_code E; [|by left]. apply bool_decide_eq_true in Hb, Heqb. done.
  - inv_code E; by left.
  - inv_code E.
    + right. exists i. split; [by destruct Hp|]. unfold asleep. simpl. rewrite fn_lookup_insert. simpl.
      destruct (decide (t = i)) as [->|Hne]; [by rewrite fn_lookup_insert|]. rewrite fn_lookup_insert_ne by done.
      pose proof (held_not σ t i HI) as Hh. rewrite Ep in Hh. specialize (Hh eq_refl Hne).
      by destruct (pc σ i).
    + exfalso. destruct Hp as [Hi _]. specialize (Ha i Hi). unfold asleep in Ha. rewrite Heqb in Ha. simpl in Ha.
      destruct (decide (t = i)) as [->|Hne]; [by rewrite Ep in Ha|].
      pose proof (held_not σ t i HI) as Hh. rewrite Ep in Hh. specialize (Hh eq_refl Hne).
      by destruct (pc σ i).
Qed.

Lemma job_step σ t ch c' p' :
  Inv σ → LInv σ → code_step (shared σ) t ch (pc σ t) = Ret (c', p') → jobs c' ≠ 0 →
  (∀ i, (i < n)%nat → asleep (mkState c' (<[t := p']> (pc σ))) i = true) →
  ∃ u, responsible (<[t := p']> (pc σ) u) = true.
Proof.
  intros HI HL E Hj Ha'. assert (∀ i, (i < n)%nat → asleep σ i = true) as Ha.
  { intros i Hi. eapply asleep_back; [done|exact E|done|by apply Ha']. }
  destruct (responsible (pc σ t)) eqn:Er.
  - destruct (responsible_step _ _ _ _ _ HI E Er Ha) as [Hr|(i & Hi & Hr)].
    + exists t. by rewrite fn_lookup_insert.
    + rewrite Ha' in Hr; done.
  - destruct (jobs_back _ _ _ _ _ E Hj) as [Hj0|(k & e & Ep)].
    + destruct (l_job _ HL Hj0 Ha) as [u Hu]. eapply witness_frame; [done|by left].
    + pose proof (i_pc _ _ _ _ HI t) as Hp. rewrite Ep in E, Hp. inv_code E. simpl in Hp.
      exists t. rewrite fn_lookup_insert. simpl. apply bool_decide_eq_true. lia.
Qed.

Lemma live_step σ σ' : Inv σ → LInv σ → step n tun owner σ σ' → LInv σ'.
Proof.
  intros HI HL Hs. destruct Hs as [σ t ch c' p' Hch E]. split; simpl.
  - intros l. by eapply latch_step.
  - intros l. by eapply set_step.
  - intros i. by eapply waiter_step.
  - intros i. by eapply note_step.
  - by eapply job_step.
Qed.

Lemma live_init : LInv init.
Proof.
  split; simpl; try done. intros l. by left.
Qed.

Lemma live_reachable σ : reachable n tun owner σ → LInv σ.
Proof.
  intros Hr. enough (Inv σ ∧ LInv σ) by tauto. revert σ Hr.
  apply (rtc_ind_r (λ σ, Inv σ ∧ LInv σ) init).
  - split; [by apply sleep_inv_init|apply live_init].
  - intros σ1 σ2 _ Hs [HI HL]. split; [by eapply sleep_inv_step|by eapply live_step].
Qed.

(** ** A sleeping pool with a queued job can be woken *)

Lemma reach_step σ t ch c' p' :
  reachable n tun owner σ → choice_ok n owner t ch → code_step (shared σ) t ch (pc σ t) = Ret (c', p') →
  reachable n tun owner (mkState c' (<[t := p']> (pc σ))) ∧ step n tun owner σ (mkState c' (<[t := p']> (pc σ))).
Proof.
  intros Hr Hch E. assert (step n tun owner σ (mkState c' (<[t := p']> (pc σ)))) as Hs by (by econstructor).
  split; [|done]. unfold reachable. by eapply rtc_r.
Qed.

(** A step of the operations already running: no thread starts an operation,
    no worker finds a job in a deque, no wait wakes spuriously. *)
Inductive continue : State → State → Prop :=
  | continue_intro σ t c' p' :
      code_step (shared σ) t (Go false) (pc σ t) = Ret (c', p') →
      continue σ (mkState c' (<[t := p']> (pc σ))).

(** From [σ] the running operations alone can wake a worker. *)
Definition wakeable σ : Prop :=
  ∃ σ', rtc continue σ σ' ∧ ∃ i, (i < n)%nat ∧ asleep σ' i = false.

Lemma wakeable_step σ σ' : continue σ σ' → wakeable σ' → wakeable σ.
Proof. intros Hs (σ2 & H1 & H2). exists σ2. split; [by eapply rtc_l|done]. Qed.

(** One step of a responsible thread: it stays responsible or a worker is awake. *)
Lemma wakeable_now σ i : (i < n)%nat → asleep σ i = false → wakeable σ.
Proof. intros Hi Ha. exists σ. split; [done|by exists i]. Qed.

Lemma awake_or_all σ : (∃ i, (i < n)%nat ∧ asleep σ i = false) ∨ ∀ i, (i < n)%nat → asleep σ i = true.
Proof.
  destruct (decide (Exists (λ i, asleep σ i = false) (seq 0 n))) as [H|H].
  - apply Exists_exists in H as (i & Hi & Ha). apply elem_of_seq in Hi. left. exists i. split; [lia|done].
  - right. intros i Hi. destruct (asleep σ i) eqn:E; [done|]. destruct H. apply Exists_exists. exists i.
    split; [apply elem_of_seq; lia|done].
Qed.

(** [go_step σ t E]: let thread [t] take the step computed in [E]. *)
Ltac go_step E :=
  match type of E with Sleep.code_step _ _ _ _ ?t _ _ = _ =>
    eapply wakeable_step; [exact (continue_intro _ t _ _ E)|] end.

(** A waker at the mutex of a blocked worker, which is free. *)
Lemma wakeable_free σ t i k :
  Inv σ → pc σ t = WkLock i k → (i < n)%nat → t ≠ i → lock (shared σ) i = None →
  blocked (shared σ) i = true → wakeable σ.
Proof.
  intros HI Ep Hi Hne El Hb.
  assert (code_step (shared σ) t (Go false) (pc σ t) = Ret (set_lock (shared σ) i (Some t), WkCheck i k)) as E1.
  { rewrite Ep. simpl. rewrite bool_decide_eq_true_2 by done. simpl. by rewrite El. }
  go_step E1. set (σ1 := mkState _ _).
  assert (code_step (shared σ1) t (Go false) (pc σ1 t) = Ret (set_blocked (shared σ1) i false, WkClear i k)) as E2.
  { unfold σ1. simpl. rewrite fn_lookup_insert. simpl. by rewrite Hb. }
  go_step E2. apply (wakeable_now _ i Hi). unfold asleep. simpl. rewrite fn_lookup_insert. simpl.
  rewrite !fn_lookup_insert_ne by done.
  apply (c_blocked _ _ _ _ (i_cell _ _ _ _ HI i)) in Hb as [Hb _]. by destruct (pc σ i).
Qed.

(** The worker finishes going to sleep. *)
Lemma wakeable_park σ t i k l idl :
  Inv σ → pc σ t = WkLock i k → (i < n)%nat → pc σ i = WaitLoop l idl → blocked (shared σ) i = true →
  wakeable σ.
Proof.
  intros HI Ep Hi Ei Hb. assert (t ≠ i) as Hne by congruence.
  pose proof (i_pc _ _ _ _ HI i) as Hp. rewrite Ei in Hp. destruct Hp as (_ & _ & Hw & _).
  assert (code_step (shared σ) i (Go false) (pc σ i) =
    Ret (set_lock (set_waiter (shared σ) i true) i None, Parked l idl)) as E.
  { rewrite Ei. simpl. by rewrite Hw, Hb. }
  assert (Inv (mkState (set_lock (set_waiter (shared σ) i true) i None) (<[i := Parked l idl]> (pc σ)))) as HI'.
  { eapply (sleep_inv_step n tun owner Hn Htun); [done|]. exact (step_intro n tun owner σ i (Go false) _ _ I E). }
  go_step E. apply (wakeable_free _ t i k); simpl; try done.
  - by rewrite fn_lookup_insert_ne.
  - by rewrite fn_lookup_insert.
Qed.

Lemma wakeable_lock σ t i k :
  Inv σ → pc σ t = WkLock i k → (∀ i, (i < n)%nat → asleep σ i = true) → (i < n)%nat → wakeable σ.
Proof.
  intros HI Ep Ha Hi. pose proof (Ha i Hi) as Hai. unfold asleep in Hai.
  assert (t ≠ i) as Hne.
  { intros ->. rewrite Ep, orb_false_r in Hai.
    apply (c_blocked _ _ _ _ (i_cell _ _ _ _ HI i)) in Hai as [Hb _]. by rewrite Ep in Hb. }
  destruct (lock (shared σ) i) as [u|] eqn:El.
  2: { apply (wakeable_free σ t i k); try done. destruct (blocked (shared σ) i); [done|]. simpl in Hai.
       assert (hold_of i (pc σ i) = Some i) as Hh by (by destruct (pc σ i)).
       apply (i_lock _ _ _ _ HI) in Hh. congruence. }
  pose proof (proj1 (i_lock _ _ _ _ HI i u) El) as Hu. destruct (decide (u = i)) as [->|Hui].
  - pose proof (i_pc _ _ _ _ HI i) as Hp. destruct (blocked (shared σ) i) eqn:Hb.
    + pose proof (c_blocked _ _ _ _ (i_cell _ _ _ _ HI i) Hb) as [Hpk _].
      destruct (pc σ i) eqn:Ei; try done. by eapply wakeable_park.
    + simpl in Hai. destruct (pc σ i) as [| | | | | | | | | | | | | | | | | | | | |l idl| | | | | | | | | | | | | | | | | | | | | |] eqn:Ei; try done.
      destruct Hp as (_ & _ & Hw & _).
      assert (code_step (shared σ) i (Go false) (pc σ i) = Ret (set_blocked (shared σ) i true, WaitLoop l idl)) as E.
      { rewrite Ei. simpl. by rewrite Hw. }
      assert (Inv (mkState (set_blocked (shared σ) i true) (<[i := WaitLoop l idl]> (pc σ)))) as HI'.
      { eapply (sleep_inv_step n tun owner Hn Htun); [done|]. exact (step_intro n tun owner σ i (Go false) _ _ I E). }
      go_step E. eapply (wakeable_park _ t i); simpl; try done.
      * by rewrite fn_lookup_insert_ne.
      * by rewrite fn_lookup_insert.
      * by rewrite fn_lookup_insert.
  - assert (blocked (shared σ) i = true) as Hb.
    { destruct (blocked (shared σ) i); [done|]. simpl in Hai.
      assert (hold_of i (pc σ i) = Some i) as Hh by (by destruct (pc σ i)).
      apply (i_lock _ _ _ _ HI) in Hh. congruence. }
    pose proof (c_blocked _ _ _ _ (i_cell _ _ _ _ HI i) Hb) as [Hpk Hst].
    unfold stage_at in Hst. rewrite El in Hst.
    destruct (pc σ u) as [| | | | | | | | | | | | | | | | | | | | | | | | | | | | | | | | | | | | |j kk|j kk|j kk|j kk r| | |] eqn:Eu; simpl in Hu, Hst; simplify_eq.
    + assert (code_step (shared σ) u (Go false) (pc σ u) = Ret (set_blocked (shared σ) i false, WkClear i kk)) as E.
      { rewrite Eu. simpl. by rewrite Hb. }
      go_step E. apply (wakeable_now _ i Hi). unfold asleep. simpl. rewrite fn_lookup_insert. simpl.
      rewrite fn_lookup_insert_ne by done. by destruct (pc σ i).
    + destruct (all_step_ok n tun owner Hn Htun σ u (Go false) HI I) as (c' & p' & E & HI').
      assert (lock c' i = None ∧ blocked c' i = true) as [El' Hb'].
      { rewrite Eu in E. inv_code E; simpl; by rewrite fn_lookup_insert. }
      go_step E. apply (wakeable_free _ t i k); simpl; try done.
      assert (u ≠ t) by congruence. by rewrite fn_lookup_insert_ne.
Qed.

(** How far a responsible thread is from the mutex of a sleeper. *)
Definition distance (p : Pc) : nat :=
  match p with
  | NewJobs1 _ _ => 5 | NewJobs2 _ _ _ => 4 | ScanW _ _ _ => 3 | ScanB _ _ _ _ => 2 | _ => 1
  end.

Lemma wakeable_responsible d σ t :
  Inv σ → responsible (pc σ t) = true → (distance (pc σ t) ≤ d)%nat →
  (∀ k e old, pc σ t = NewJobs2 k e old → old = word (shared σ)) →
  (∀ i, (i < n)%nat → asleep σ i = true) → wakeable σ.
Proof.
  revert σ. induction d as [|d IH]; intros σ HI Hr Hd Hold Ha; [destruct (pc σ t); simpl in Hd; lia|].
  destruct (match pc σ t with WkLock _ _ => true | _ => false end) eqn:Hk.
  { pose proof (i_pc _ _ _ _ HI t) as Hp. destruct (pc σ t) eqn:Ep; try done.
    eapply wakeable_lock; [done|done|done|by destruct Hp]. }
  destruct (all_step_ok n tun owner Hn Htun σ t (Go false) HI I) as (c' & p' & E & HI').
  go_step E. destruct (awake_or_all (mkState c' (<[t := p']> (pc σ)))) as [(i & Hi & Hai)|Ha'].
  { by apply (wakeable_now _ i). }
  destruct (responsible_step _ _ _ _ _ HI E Hr Ha) as [Hr'|(i & Hi & Hai)]; [|by rewrite Ha' in Hai].
  apply (IH _ HI'); simpl; rewrite ?fn_lookup_insert; [done| | |done].
  - revert Hr'. destruct (pc σ t) eqn:Ep; try done; inv_code E; intros Hr'; simpl in *; try lia; try done.
    apply bool_decide_eq_false in Heqb. by specialize (Hold _ _ _ eq_refl).
  - revert Hr'. destruct (pc σ t) eqn:Ep; try done; inv_code E; intros Hr' k' e' old' [=]; by subst.
Qed.

Lemma wakeable_any σ t :
  Inv σ → responsible (pc σ t) = true → (∀ i, (i < n)%nat → asleep σ i = true) → wakeable σ.
Proof.
  intros HI Hr Ha. destruct (match pc σ t with NewJobs2 _ _ _ => true | _ => false end) eqn:Hk.
  - destruct (pc σ t) as [| | | | | | | | | | | | | | | | | | | | | | | | | | | | | | | |k e old| | | | | | | | | | |] eqn:Ep; try done.
    destruct (decide (word (shared σ) = old)) as [Ho|Ho].
    { apply (wakeable_responsible 5 σ t); try done; rewrite Ep; [done|simpl; lia|]. intros ? ? ? [=]. congruence. }
    assert (code_step (shared σ) t (Go false) (pc σ t) = Ret (shared σ, NewJobs1 k e)) as E.
    { rewrite Ep. simpl. by rewrite bool_decide_eq_false_2. }
    destruct (all_step_ok n tun owner Hn Htun σ t (Go false) HI I) as (c' & p' & E' & HI').
    rewrite E in E'. injection E' as <- <-. go_step E.
    apply (wakeable_responsible 5 _ t); simpl; rewrite ?fn_lookup_insert; try done.
    intros i Hi. specialize (Ha i Hi). unfold asleep in *. simpl.
    destruct (decide (t = i)) as [->|]; [|by rewrite fn_lookup_insert_ne]. by rewrite Ep in Ha; rewrite fn_lookup_insert.
  - apply (wakeable_responsible 5 σ t); try done; destruct (pc σ t); try done; simpl; lia.
Qed.

End live.

(** ** Executable schedules *)

#[export] Instance choice_ok_dec n owner t ch : Decision (choice_ok n owner t ch).
Proof. destruct ch as [[]|]; simpl; apply _. Defined.

Fixpoint run (n : nat) (tun : IdleTuning) (owner : nat → nat) (sched : list (nat * choice)) (σ : State) :
    outcome State :=
  match sched with
  | [] => mret σ
  | (t, ch) :: sched =>
      guard_panic (bool_decide (choice_ok n owner t ch));;
      '(c', p') ← code_step n tun owner (shared σ) t ch (pc σ t);
      run n tun owner sched (mkState c' (<[t := p']> (pc σ)))
  end.

Lemma run_reachable n tun owner sched σ σ' :
  reachable n tun owner σ → run n tun owner sched σ = Ret σ' → reachable n tun owner σ'.
Proof.
  revert σ. induction sched as [|[t ch] sched IH]; intros σ Hr E; simpl in E; [by injection E as <-|].
  case_bool_decide; [|done]. simpl in E. destruct_ret E. destruct v as [c' p']. eapply IH; [|exact E].
  by eapply reach_step.
Qed.

(** One worker, no spinning, latch [0]. *)
Definition one_tuning : IdleTuning := mkTuning 0 0.
Definition one_owner : nat → nat := λ _, 0%nat.

Definition state_of (sched : list (nat * choice)) : State :=
  match run 1 one_tuning one_owner sched init with Ret σ => σ | _ => init end.

Lemma state_of_reachable sched : reachable 1 one_tuning one_owner (state_of sched).
Proof.
  unfold state_of. destruct (run _ _ _ sched init) eqn:E; try (by apply rtc_refl).
  eapply run_reachable; [|exact E]. apply rtc_refl.
Qed.

Definition goes (t k : nat) : list (nat * choice) := replicate k (t, Go false).

(** Worker 0 goes to sleep. *)
Definition to_sleep : list (nat * choice) := (0%nat, Start (OpWait 0)) :: goes 0 30.
(** Thread 5 injects a job, up to its look at the counters. *)
Definition inject_5 : list (nat * choice) := to_sleep ++ (5%nat, Start (OpInject 1)) :: goes 5 2.
(** Thread 5 sets the latch the worker sleeps on, up to the mutex. *)
Definition set_5 : list (nat * choice) := to_sleep ++ (5%nat, Start (OpSet 0)) :: goes 5 1.
(** Threads 5 and 6 both find the worker's bit; 5 wakes it, 6 comes late. *)
Definition stale_6 : list (nat * choice) :=
  inject_5 ++ goes 5 4 ++ (6%nat, Start (OpInject 1)) :: goes 6 5 ++ goes 5 7 ++ goes 6 2.

Lemma one_tuning_ok : 0 ≤ spin one_tuning ∧ 0 ≤ yield_rounds one_tuning ∧ sleepy one_tuning + 1 < 2 ^ 32.
Proof. done. Qed.

(** The packed counters are exact.  In every reachable state the sleeping
    field counts the workers registered as sleeping and the inactive field the
    workers in an idle episode, whatever the interleaving; sleeping never
    exceeds inactive, nor inactive the number of workers, so no field ever
    carries into its neighbour. *)
Theorem sleep_counters_exact (n : nat) (tun : IdleTuning) (owner : nat → nat) (σ : State)
  (Hn : (1 ≤ n ≤ 511)%nat) (Htun : 0 ≤ spin tun ∧ 0 ≤ yield_rounds tun ∧ sleepy tun + 1 < 2 ^ 32)
  (Hr : reachable n tun owner σ) :
  sleeping_threads (word (shared σ)) = count n (registered σ) ∧
  inactive_threads (word (shared σ)) = count n (idle σ) ∧
  count n (registered σ) ≤ count n (idle σ) ≤ Z.of_nat n.
Proof.
  pose proof (inv_reachable n tun owner Hn Htun σ Hr) as HI.
  destruct (i_word _ _ _ _ HI) as (J & HJ & E). pose proof (enc_ok_inv n tun owner Hn σ J HI HJ) as Hen.
  rewrite E, enc_sleeping, enc_inactive by done. pose proof (counts_ok n tun owner Hn σ HI).
  pose proof (count_bounds n (idle σ)). split_and!; try done; lia.
Qed.

Lemma sleep_counters_exact_witness :
  sleeping_threads (word (shared (state_of to_sleep))) = 1 ∧
  sleeping_threads (word (shared (state_of to_sleep))) = count 1 (registered (state_of to_sleep)).
Proof.
  split; [vm_compute; reflexivity|].
  apply (sleep_counters_exact 1 one_tuning one_owner (state_of to_sleep) ltac:(lia) one_tuning_ok
    (state_of_reachable to_sleep)).
Defined.

(** No interleaving of waiting, waking, posting and latch setting panics:
    the debug assertion that the inactive count covers the sleeping count holds
    wherever it is evaluated, no counter or round arithmetic overflows, and the
    mask and the sleep states are only indexed by workers of the pool. *)
Theorem sleep_steps_safe (n : nat) (tun : IdleTuning) (owner : nat → nat) (σ : State) (t : nat) (ch : choice)
  (Hn : (1 ≤ n ≤ 511)%nat) (Htun : 0 ≤ spin tun ∧ 0 ≤ yield_rounds tun ∧ sleepy tun + 1 < 2 ^ 32)
  (Hr : reachable n tun owner σ) (Hch : choice_ok n owner t ch) :
  ∃ c' p', code_step n tun owner (shared σ) t ch (pc σ t) = Ret (c', p').
Proof.
  pose proof (inv_reachable n tun owner Hn Htun σ Hr) as HI.
  destruct (all_step_ok n tun owner Hn Htun σ t ch HI Hch) as (c' & p' & E & _). eauto.
Qed.

Lemma sleep_steps_safe_witness :
  ∃ c' p', code_step 1 one_tuning one_owner (shared (state_of inject_5)) 5 (Go false) (pc (state_of inject_5) 5)
           = Ret (c', p').
Proof.
  apply (sleep_steps_safe 1 one_tuning one_owner (state_of inject_5) 5 (Go false) ltac:(lia) one_tuning_ok
    (state_of_reachable inject_5) I).
Defined.

(** C16: an injected job is never stranded.  Whenever the injector holds a job,
    some worker is awake (and re-checks the injector before it can park), or a
    posting thread is still on its way to wake one. *)
Theorem injected_job_not_stranded (n : nat) (tun : IdleTuning) (owner : nat → nat) (σ : State)
  (Hn : (1 ≤ n ≤ 511)%nat) (Htun : 0 ≤ spin tun ∧ 0 ≤ yield_rounds tun ∧ sleepy tun + 1 < 2 ^ 32)
  (Hr : reachable n tun owner σ) (Hj : jobs (shared σ) ≠ 0) :
  (∃ i, (i < n)%nat ∧ asleep σ i = false) ∨ ∃ t, responsible (pc σ t) = true.
Proof.
  destruct (awake_or_all n Hn σ) as [Ha|Ha]; [by left|right].
  apply (l_job _ _ _ (live_reachable n tun owner Hn Htun σ Hr) Hj Ha).
Qed.

Lemma injected_job_not_stranded_witness :
  asleep (state_of inject_5) 0 = true ∧
  ((∃ i, (i < 1)%nat ∧ asleep (state_of inject_5) i = false) ∨
   ∃ t, responsible (pc (state_of inject_5) t) = true).
Proof.
  split; [vm_compute; reflexivity|].
  apply (injected_job_not_stranded 1 one_tuning one_owner (state_of inject_5) ltac:(lia) one_tuning_ok
    (state_of_reachable inject_5)). vm_compute. discriminate.
Defined.

(** C28: a pool that sleeps on a queued job is woken by what is already under
    way: from every reachable state with an injected job, the operations that
    are running have a continuation (no thread starts anything new, no worker
    finds a job in a deque, no condition variable wakes spuriously) to a state
    in which some worker is not blocked.  As every state on the way is again
    reachable and the job stays queued, the pool cannot get stuck on it. *)
Theorem queued_job_wakes_pool (n : nat) (tun : IdleTuning) (owner : nat → nat) (σ : State)
  (Hn : (1 ≤ n ≤ 511)%nat) (Htun : 0 ≤ spin tun ∧ 0 ≤ yield_rounds tun ∧ sleepy tun + 1 < 2 ^ 32)
  (Hr : reachable n tun owner σ) (Hj : jobs (shared σ) ≠ 0) :
  ∃ σ', rtc (continue n tun owner) σ σ' ∧ ∃ i, (i < n)%nat ∧ asleep σ' i = false.
Proof.
  destruct (awake_or_all n Hn σ) as [(i & Hi & Ha)|Ha]; [by apply (wakeable_now n tun owner σ i)|].
  destruct (l_job _ _ _ (live_reachable n tun owner Hn Htun σ Hr) Hj Ha) as [t Ht].
  apply (wakeable_any n tun owner Hn Htun σ t); [by apply inv_reachable|done|done].
Qed.

Lemma queued_job_wakes_pool_witness :
  asleep (state_of inject_5) 0 = true ∧
  ∃ σ', rtc (continue 1 one_tuning one_owner) (state_of inject_5) σ' ∧ ∃ i, (i < 1)%nat ∧ asleep σ' i = false.
Proof.
  split; [vm_compute; reflexivity|].
  apply (queued_job_wakes_pool 1 one_tuning one_owner (state_of inject_5) ltac:(lia) one_tuning_ok
    (state_of_reachable inject_5)). vm_compute. discriminate.
Defined.

(** The job is what does it: with every operation finished and no job queued,
    a sleeping worker stays asleep under every continuation. *)
Lemma no_job_no_wake σ' :
  rtc (continue 1 one_tuning one_owner) (state_of to_sleep) σ' → asleep σ' 0 = true.
Proof.
  assert (∃ idl, pc (state_of to_sleep) 0%nat = Parked 0 idl ∧ worker_index idl = 0%nat)
    as (idl & E0 & Hidx) by (eexists; split; vm_compute; reflexivity).
  assert (waiter (shared (state_of to_sleep)) 0%nat = true ∧ blocked (shared (state_of to_sleep)) 0%nat = true)
    as [Hw Hb] by (split; vm_compute; reflexivity).
  assert (∀ t, t ≠ 0%nat → pc (state_of to_sleep) t = Active) as Hidle.
  { intros [|t] Ht; [by destruct (Ht eq_refl)|]. vm_compute. reflexivity. }
  revert E0 Hw Hb Hidle. generalize (state_of to_sleep) as σ. intros σ E0 Hw Hb Hidle Hr.
  enough (shared σ' = shared σ ∧ ∀ t, pc σ' t = pc σ t) as [E1 E2].
  { unfold asleep. by rewrite E1, Hb. }
  revert σ' Hr. apply rtc_ind_r; [done|]. intros σ1 σ2 _ [σ3 t c' p' E] [E1 E2].
  rewrite E1, E2 in E. cbn [shared pc].
  assert (c' = shared σ ∧ p' = pc σ t) as [-> ->].
  { destruct (decide (t = 0%nat)) as [->|Ht].
    - rewrite E0 in *. simpl in E. rewrite Hidx, Hw in E. by injection E as <- <-.
    - rewrite Hidle in * by done. by injection E as <- <-. }
  split; [done|]. intros u. destruct (decide (t = u)) as [<-|]; [by rewrite fn_lookup_insert|].
  by rewrite fn_lookup_insert_ne.
Qed.

(** C27: setting a latch is never lost on its owner.  If a latch is set while its
    owner is blocked on it or bound to block on it, some thread is at the
    owner's mutex, about to unblock it. *)
Theorem latch_set_reaches_sleeper (n : nat) (tun : IdleTuning) (owner : nat → nat) (σ : State) (l : nat)
  (Hn : (1 ≤ n ≤ 511)%nat) (Htun : 0 ≤ spin tun ∧ 0 ≤ yield_rounds tun ∧ sleepy tun + 1 < 2 ^ 32)
  (Hr : reachable n tun owner σ) (Hset : latch (shared σ) l = SET)
  (Hb : will_block l (pc σ (owner l)) (blocked (shared σ) (owner l)) = true) :
  ∃ t, will_check (owner l) (pc σ t) = true.
Proof. apply (l_set _ _ _ (live_reachable n tun owner Hn Htun σ Hr) l Hset Hb). Qed.

Lemma latch_set_reaches_sleeper_witness :
  blocked (shared (state_of set_5)) 0 = true ∧ ∃ t, will_check 0 (pc (state_of set_5) t) = true.
Proof.
  split; [vm_compute; reflexivity|].
  apply (latch_set_reaches_sleeper 1 one_tuning one_owner (state_of set_5) 0 ltac:(lia) one_tuning_ok
    (state_of_reachable set_5)); vm_compute; reflexivity.
Defined.

(** An unblocked worker is notified.  The waker drops the mutex before it
    notifies; as long as an unblocked worker still waits on its condition
    variable, a thread that has yet to notify it exists. *)
Theorem unblocked_worker_is_notified (n : nat) (tun : IdleTuning) (owner : nat → nat) (σ : State) (i : nat)
  (Hn : (1 ≤ n ≤ 511)%nat) (Htun : 0 ≤ spin tun ∧ 0 ≤ yield_rounds tun ∧ sleepy tun + 1 < 2 ^ 32)
  (Hr : reachable n tun owner σ) (Hw : waiter (shared σ) i = true) (Hb : blocked (shared σ) i = false) :
  ∃ t, will_notify i (pc σ t) = true.
Proof. apply (l_note _ _ _ (live_reachable n tun owner Hn Htun σ Hr) i Hw Hb). Qed.

Lemma unblocked_worker_is_notified_witness :
  ∃ t, will_notify 0 (pc (state_of (set_5 ++ goes 5 5)) t) = true.
Proof.
  apply (unblocked_worker_is_notified 1 one_tuning one_owner (state_of (set_5 ++ goes 5 5)) 0 ltac:(lia)
    one_tuning_ok (state_of_reachable (set_5 ++ goes 5 5))); vm_compute; reflexivity.
Defined.

(** A stale bit does not persist.  When a scan finds that the worker it
    picked is not blocked, that worker's bit is already clear, so the restarted
    scan does not pick it again unless it falls asleep anew. *)
Theorem stale_bit_is_cleared (n : nat) (tun : IdleTuning) (owner : nat → nat) (σ : State) (t i : nat)
  (k : option Scan)
  (Hn : (1 ≤ n ≤ 511)%nat) (Htun : 0 ≤ spin tun ∧ 0 ≤ yield_rounds tun ∧ sleepy tun + 1 < 2 ^ 32)
  (Hr : reachable n tun owner σ) (Ep : pc σ t = WkUnlock i k false) (Hb : blocked (shared σ) i = false) :
  mask_bit (words (shared σ)) i = false.
Proof.
  pose proof (inv_reachable n tun owner Hn Htun σ Hr) as HI.
  destruct (wk_held n tun owner σ t i _ HI Ep eq_refl) as [El Es].
  rewrite (c_bit _ _ _ _ (i_cell _ _ _ _ HI i)), Hb, Es. unfold bit_of. simpl.
  destruct (decide (t = i)) as [->|Hne]; [by rewrite Ep|].
  assert (hold_of i (pc σ i) ≠ Some i) as Hh by (eapply held_not; [done|by rewrite Ep|done]).
  by destruct (pc σ i).
Qed.

Lemma stale_bit_is_cleared_witness :
  ∃ k, pc (state_of stale_6) 6 = WkUnlock 0 k false ∧ mask_bit (words (shared (state_of stale_6))) 0 = false.
Proof.
  eexists. split; [vm_compute; reflexivity|].
  eapply (stale_bit_is_cleared 1 one_tuning one_owner (state_of stale_6) 6 0 _ ltac:(lia) one_tuning_ok
    (state_of_reachable stale_6)); vm_compute; reflexivity.
Defined.
