(* ===== verification/Config.v ===== *)
(** * Config: the run configuration

    Model of [crates/youpipe/src/builder/config.rs]: [Workload],
    [FilterCollectMode], [PipelineConfig] with its default and its setters.
    [num_cpus] is the machine's core count, an argument.  The zero check shared
    by the count setters panics. *)

From S2P Require Import Prelude SleepCounters.
Local Open Scope Z_scope.

Inductive Workload : Type :=
  | Balanced
  | Unbalanced
  | Custom (factor : Z).

Inductive FilterCollectMode : Type := Auto | Merge | Ctp | Wtc.

(** The pool's thread indices are 9 bits wide. *)
Definition MAX_COMPUTE_WORKERS : Z := THREADS_MAX.

Record PipelineConfig : Type := mkConfig {
  compute_workers : Z;
  compute_workers_pinned : bool;
  async_workers : Z;
  buffer_size : Z;
  io_concurrency : Z;
  workload : Workload;
  filter_collect : FilterCollectMode;
}.

Definition default_config (num_cpus : Z) : PipelineConfig :=
  mkConfig num_cpus false num_cpus 256 128 Balanced Auto.

Definition require_nonzero (n : Z) : outcome Z := if bool_decide (n = 0) then Panic else mret n.

Definition set_compute_workers (c : PipelineConfig) (n : Z) : outcome PipelineConfig :=
  pinned ← require_nonzero n;
  mret (mkConfig (Z.min pinned MAX_COMPUTE_WORKERS) true (async_workers c) (buffer_size c)
          (io_concurrency c) (workload c) (filter_collect c)).

Definition with_compute_workers (c : PipelineConfig) (n : Z) : outcome PipelineConfig :=
  set_compute_workers c n.

Definition with_async_workers (c : PipelineConfig) (n : Z) : outcome PipelineConfig :=
  v ← require_nonzero n;
  mret (mkConfig (compute_workers c) (compute_workers_pinned c) v (buffer_size c)
          (io_concurrency c) (workload c) (filter_collect c)).

Definition with_buffer_size (c : PipelineConfig) (n : Z) : outcome PipelineConfig :=
  v ← require_nonzero n;
  mret (mkConfig (compute_workers c) (compute_workers_pinned c) (async_workers c) v
          (io_concurrency c) (workload c) (filter_collect c)).

Definition with_io_concurrency (c : PipelineConfig) (n : Z) : outcome PipelineConfig :=
  v ← require_nonzero n;
  mret (mkConfig (compute_workers c) (compute_workers_pinned c) (async_workers c) (buffer_size c)
          v (workload c) (filter_collect c)).

Definition with_workload (c : PipelineConfig) (w : Workload) : PipelineConfig :=
  mkConfig (compute_workers c) (compute_workers_pinned c) (async_workers c) (buffer_size c)
    (io_concurrency c) w (filter_collect c).

Definition with_filter_collect (c : PipelineConfig) (m : FilterCollectMode) : PipelineConfig :=
  mkConfig (compute_workers c) (compute_workers_pinned c) (async_workers c) (buffer_size c)
    (io_concurrency c) (workload c) m.

(** ** Chains of setters *)

Inductive setter : Type :=
  | SetCompute (n : Z) | SetAsync (n : Z) | SetBuffer (n : Z) | SetIo (n : Z)
  | SetWorkload (w : Workload) | SetFilter (m : FilterCollectMode).

Definition apply_setter (c : PipelineConfig) (s : setter) : outcome PipelineConfig :=
  match s with
  | SetCompute n => with_compute_workers c n
  | SetAsync n => with_async_workers c n
  | SetBuffer n => with_buffer_size c n
  | SetIo n => with_io_concurrency c n
  | SetWorkload w => mret (with_workload c w)
  | SetFilter m => mret (with_filter_collect c m)
  end.

Fixpoint apply_setters (c : PipelineConfig) (l : list setter) : outcome PipelineConfig :=
  match l with
  | [] => mret c
  | s :: l => c' ← apply_setter c s; apply_setters c' l
  end.

(** The argument of a setter is a [usize]. *)
Definition setter_ok (s : setter) : Prop :=
  match s with
  | SetCompute n | SetAsync n | SetBuffer n | SetIo n => is_word 64 n
  | SetWorkload _ | SetFilter _ => True
  end.

Definition zero_count (s : setter) : bool :=
  match s with
  | SetCompute n | SetAsync n | SetBuffer n | SetIo n => bool_decide (n = 0)
  | SetWorkload _ | SetFilter _ => false
  end.

(** What the engines rely on: every count is a positive word, and a pinned
    budget fits the pool's thread indices. *)
Record config_ok (c : PipelineConfig) : Prop := {
  ok_compute : 1 ≤ compute_workers c < 2 ^ 64;
  ok_pinned : compute_workers_pinned c = true → compute_workers c ≤ MAX_COMPUTE_WORKERS;
  ok_async : 1 ≤ async_workers c < 2 ^ 64;
  ok_buffer : 1 ≤ buffer_size c < 2 ^ 64;
  ok_io : 1 ≤ io_concurrency c < 2 ^ 64;
}.

Lemma default_config_ok n : 1 ≤ n < 2 ^ 64 → config_ok (default_config n).
Proof. intros Hn. split; simpl; done || lia. Qed.

Lemma require_nonzero_spec n :
  require_nonzero n = if bool_decide (n = 0) then Panic else Ret n.
Proof. done. Qed.

Lemma apply_setter_spec c s :
  config_ok c → setter_ok s →
  if zero_count s then apply_setter c s = Panic
  else ∃ c', apply_setter c s = Ret c' ∧ config_ok c'.
Proof.
  intros [H1 H2 H3 H4 H5] Hs.
  assert (0 < MAX_COMPUTE_WORKERS < 2 ^ 64) as HM by (vm_compute; done).
  destruct s as [n|n|n|n|w|m]; simpl in *;
    try (unfold with_compute_workers, set_compute_workers, with_async_workers, with_buffer_size,
           with_io_concurrency; rewrite require_nonzero_spec; unfold is_word in Hs;
         case_bool_decide; [done|]; eexists; (split; [reflexivity|]); split; simpl; done || lia).
  - eexists. split; [reflexivity|]. by split.
  - eexists. split; [reflexivity|]. by split.
Qed.

(** ** Theorems *)

(** C32: the builder methods establish and keep the configuration's invariant.
    Any chain of setters on the default configuration panics exactly when one
    of the counts is zero; otherwise it returns a configuration whose counts
    are all positive and whose pinned worker budget, however large the
    request, fits the pool's 9-bit thread indices. *)
Theorem config_builders_well_formed (num_cpus : Z) (l : list setter) :
  1 ≤ num_cpus < 2 ^ 64 → Forall setter_ok l →
  if existsb zero_count l then apply_setters (default_config num_cpus) l = Panic
  else ∃ c, apply_setters (default_config num_cpus) l = Ret c ∧ config_ok c.
Proof.
  intros Hn Hl. generalize (default_config_ok num_cpus Hn). generalize (default_config num_cpus) as c.
  induction Hl as [|s l Hs _ IH]; intros c Hc; simpl; [by exists c|].
  pose proof (apply_setter_spec c s Hc Hs) as H1. destruct (zero_count s); simpl.
  { by rewrite H1. }
  destruct H1 as (c' & -> & Hc'). by apply IH.
Qed.

Lemma config_builders_well_formed_witness :
  ∃ c, apply_setters (default_config 8) [SetCompute 10000; SetWorkload Unbalanced; SetBuffer 1] = Ret c ∧
    config_ok c.
Proof.
  apply (config_builders_well_formed 8 [SetCompute 10000; SetWorkload Unbalanced; SetBuffer 1]).
  - lia.
  - repeat constructor; vm_compute; congruence.
Defined.
