(* ===== verification/Admission.v ===== *)
(** * Admission: parking slots and the worker budget of a streaming run

    Model of the admission of a [stream()] run to the compute pool: the parking
    counter of [crates/youpipe/src/pool/registry.rs] ([try_reserve_parking],
    [release_parking]), and from [crates/youpipe/src/builder/typed/stream.rs]
    the lease ([ParkingLease]), the chain summary ([StageBudget]),
    [resolve_admission], the grants of the spawn walk ([stage_workers], the
    fence forwarders, the feeder of [feed_items]) and the channel capacities
    the feeder prediction depends on.

    A worker of a run parks inside channel operations and never returns to the
    pool's loop, so a run may put jobs on the pool only if all of them fit at
    once.  The theorems show that the lease a run takes covers every job its
    spawn walk submits, and that the leases of all the runs together never
    exceed the pool. *)

From S2P Require Import Prelude SleepCounters Config.
Local Open Scope Z_scope.

(** [usize::saturating_sub]. *)
Definition saturating_sub (a b : Z) : Z := Z.max 0 (a - b).

(** ** The parking counter *)

Module Parking.

(** One turn of the loop of [try_reserve_parking], with [used] as last read;
    [spurious] is a weak exchange that fails for no reason. *)
Inductive turn : Type :=
  | Decided (ok : bool)
  | Retry (used : Z).

Definition try_turn (cap slots used n : Z) (spurious : bool) : outcome (Z * turn) :=
  u ← checked_add 64 used n;
  if bool_decide (cap < u) then mret (slots, Decided false)
  else if bool_decide (slots = used) && negb spurious then mret (u, Decided true)
  else mret (slots, Retry slots).

(** [release_parking]: [fetch_sub] wraps. *)
Definition release_parking (slots n : Z) : Z :=
  if bool_decide (0 < n) then wrapping_sub 64 slots n else slots.

(** Concurrent runs: each is idle or inside [try_reserve_parking], and holds
    the slots it leased and has not returned. *)
Inductive run_pc : Type :=
  | RIdle
  | RTry (used n : Z).

Record run : Type := mkRun { pc : run_pc; held : Z }.
Record state : Type := mkState { slots : Z; runs : list run }.

Section machine.
Context (cap : Z).

Inductive step : state → state → Prop :=
  | step_load s t h n : runs s !! t = Some (mkRun RIdle h) → is_word 63 n →
      step s (mkState (slots s) (<[t := mkRun (RTry (slots s) n) h]> (runs s)))
  | step_decided s t h used n spurious slots' ok : runs s !! t = Some (mkRun (RTry used n) h) →
      try_turn cap (slots s) used n spurious = Ret (slots', Decided ok) →
      step s (mkState slots' (<[t := mkRun RIdle (if ok : bool then h + n else h)]> (runs s)))
  | step_retry s t h used n spurious slots' used' : runs s !! t = Some (mkRun (RTry used n) h) →
      try_turn cap (slots s) used n spurious = Ret (slots', Retry used') →
      step s (mkState slots' (<[t := mkRun (RTry used' n) h]> (runs s)))
  | step_release s t p h n : runs s !! t = Some (mkRun p h) → 0 ≤ n ≤ h →
      step s (mkState (release_parking (slots s) n) (<[t := mkRun p (h - n)]> (runs s))).

Definition init (k : nat) : state := mkState 0 (replicate k (mkRun RIdle 0)).

Fixpoint total_held (l : list run) : Z :=
  match l with [] => 0 | r :: l => held r + total_held l end.

Record Inv (s : state) : Prop := {
  inv_sum : slots s = total_held (runs s);
  inv_held : Forall (λ r, 0 ≤ held r) (runs s);
  inv_cap : slots s ≤ cap;
  inv_try : Forall (λ r, match pc r with RIdle => True | RTry used n => 0 ≤ used ≤ cap ∧ is_word 63 n end) (runs s);
}.

Lemma parking_insert l t p h p' h' :
  l !! t = Some (mkRun p h) → total_held (<[t := mkRun p' h']> l) = total_held l - h + h'.
Proof.
  revert t. induction l as [|r l IH]; intros [|t] Hl; simplify_eq/=; [lia|].
  rewrite (IH t Hl). lia.
Qed.

Lemma total_nonneg l : Forall (λ r, 0 ≤ held r) l → 0 ≤ total_held l.
Proof. induction 1 as [|r l Hr _ IH]; [done|]. simpl. lia. Qed.

Lemma parking_held_le l t r : Forall (λ r, 0 ≤ held r) l → l !! t = Some r → held r ≤ total_held l.
Proof.
  intros Hl. revert t. induction Hl as [|r0 l H0 Hl IH]; intros [|t] Ht; simplify_eq/=.
  - pose proof (total_nonneg l Hl). simpl. lia.
  - pose proof (IH t Ht). simpl. lia.
Qed.

Context (Hcap : 0 ≤ cap < 2 ^ 63).

Lemma parking_step_inv s s' : Inv s → step s s' → Inv s'.
Proof.
  intros [Hs Hh Hc Ht] Hstep. pose proof (total_nonneg _ Hh) as Hpos.
  destruct Hstep as [s t h n Hr Hn0|s t h used n sp slots' ok Hr E|s t h used n sp slots' used' Hr E|s t p h n Hr Hn];
    pose proof (Forall_lookup_1 _ _ _ _ Hh Hr) as Hh0; pose proof (Forall_lookup_1 _ _ _ _ Ht Hr) as Ht0;
    simpl in Hh0, Ht0; cbn [slots runs].
  - split; cbn [slots runs]; [rewrite (parking_insert _ _ _ _ _ _ Hr); simpl; lia| |done|].
    + by apply Forall_insert.
    + apply Forall_insert; [done|]. simpl. split; [lia|done].
  - destruct Ht0 as [Hu Hn]. unfold is_word in Hn. unfold try_turn, mret, outcome_mret in E.
    rewrite checked_add_ret, mbind_ret in E by lia.
    case_bool_decide as Hfit; [simplify_eq/=|].
    { split; cbn [slots runs]; [rewrite (parking_insert _ _ _ _ _ _ Hr); simpl; lia|by apply Forall_insert|done|].
      by apply Forall_insert. }
    destruct (bool_decide (slots s = used)) eqn:Eu; [|done]. apply bool_decide_eq_true in Eu.
    destruct sp; simplify_eq/=.
    split; cbn [slots runs]; [rewrite (parking_insert _ _ _ _ _ _ Hr); simpl; lia| |lia|by apply Forall_insert].
    apply Forall_insert; [done|]. simpl. lia.
  - destruct Ht0 as [Hu Hn]. unfold is_word in Hn. unfold try_turn, mret, outcome_mret in E.
    rewrite checked_add_ret, mbind_ret in E by lia.
    case_bool_decide; [done|]. destruct (_ && _); simplify_eq/=.
    split; cbn [slots runs]; [rewrite (parking_insert _ _ _ _ _ _ Hr); simpl; lia|by apply Forall_insert|done|].
    apply Forall_insert; [done|]. simpl. split; [lia|done].
  - pose proof (parking_held_le _ _ _ Hh Hr) as Hle. simpl in Hle.
    assert (release_parking (slots s) n = slots s - n) as ->.
    { unfold release_parking, wrapping_sub. case_bool_decide; [|lia]. apply wrap_small. split; lia. }
    split; cbn [slots runs]; [rewrite (parking_insert _ _ _ _ _ _ Hr); simpl; lia| |lia|].
    + apply Forall_insert; [done|]. simpl. lia.
    + by apply Forall_insert.
Qed.

Lemma parking_init_inv k : Inv (init k).
Proof.
  split; unfold init; cbn [slots runs].
  - induction k; [done|]. simpl. lia.
  - by apply Forall_replicate.
  - lia.
  - by apply Forall_replicate.
Qed.

Lemma parking_reachable_inv k s : rtc step (init k) s → Inv s.
Proof.
  apply (rtc_ind_r Inv); [apply parking_init_inv|]. intros s1 s2 _ Hst HI. by eapply parking_step_inv.
Qed.

(** A turn always decides or retries: the addition does not overflow. *)
Lemma try_turn_total s t h used n spurious :
  Inv s → runs s !! t = Some (mkRun (RTry used n) h) →
  ∃ slots' r, try_turn cap (slots s) used n spurious = Ret (slots', r).
Proof.
  intros [_ _ _ Ht] Hr. destruct (Forall_lookup_1 _ _ _ _ Ht Hr) as [Hu Hn]. simpl in Hu. unfold is_word in Hn.
  unfold try_turn. rewrite checked_add_ret, mbind_ret by lia. case_bool_decide; [by eexists _, _|].
  destruct (_ && _); by eexists _, _.
Qed.

End machine.
End Parking.

(** ** Chain summary *)

Record StageBudget : Type := mkBudget {
  stages : Z;
  fences : Z;
  explicit_stages : Z;
  explicit_workers : Z;
}.

(** A link of the chain: a sync or expand stage with its worker pin, a fence,
    or an async stage. *)
Inductive link : Type :=
  | SyncLink (workers : option Z)
  | FenceLink
  | AsyncLink.

(** [stage_budget] of one link on top of that of the links before it. *)
Definition add_link (b : StageBudget) (l : link) : outcome StageBudget :=
  match l with
  | SyncLink pin =>
      st ← checked_add 64 (stages b) 1;
      match pin with
      | Some w =>
          es ← checked_add 64 (explicit_stages b) 1;
          ew ← checked_add 64 (explicit_workers b) w;
          mret (mkBudget st (fences b) es ew)
      | None => mret (mkBudget st (fences b) (explicit_stages b) (explicit_workers b))
      end
  | FenceLink =>
      f ← checked_add 64 (fences b) 1;
      mret (mkBudget (stages b) f (explicit_stages b) (explicit_workers b))
  | AsyncLink => mret b
  end.

Fixpoint budget_from (b : StageBudget) (chain : list link) : outcome StageBudget :=
  match chain with
  | [] => mret b
  | l :: chain => b' ← add_link b l; budget_from b' chain
  end.

(** The chain is listed upstream first. *)
Definition stage_budget (chain : list link) : outcome StageBudget :=
  budget_from (mkBudget 0 0 0 0) chain.

Definition default_workers (b : StageBudget) (pool_workers : Z) : Z :=
  let unspecified := saturating_sub (stages b) (explicit_stages b) in
  if bool_decide (unspecified = 0) then 1
  else Z.max (saturating_sub pool_workers (explicit_workers b) / unspecified) 1.

(** ** Channel capacities *)

Definition floored_channel_capacity (buffer_size parallelism : Z) : outcome Z :=
  m ← checked_mul 64 parallelism 4;
  mret (Z.max buffer_size m).

Definition ASYNC_CHAIN_FLOOR_BYTES : Z := Z.shiftl 8 20.

(** [async_chain_floor]: [chain_floor] is the knob, [slot_size] the size of a
    channel slot in bytes. *)
Definition async_chain_floor (chain_floor : option Z) (has_async_stage : bool) (slot_size n buffer : Z) : Z :=
  match chain_floor with
  | None => buffer
  | Some floor =>
      if has_async_stage then
        let budget_slots := ASYNC_CHAIN_FLOOR_BYTES / Z.max slot_size 1 in
        Z.max buffer (Z.min (Z.min n floor) (Z.max budget_slots 1))
      else buffer
  end.

(** ** Admission *)

Record Admission : Type := mkAdmission {
  lease : option Z;
  dedicated_threads : bool;
  per_stage_parallelism : Z;
  worker_slots_left : Z;
  stages_left : Z;
}.

(** The pool as the run sees it: its size, whether the caller is one of its
    workers, the snapshot of [parking_used], and the answer of
    [try_reserve_parking]. *)
Record pool_view : Type := mkPool {
  pool_threads : Z;
  on_this_pool : bool;
  parking_used : Z;
  try_reserve_parking : Z → bool;
}.

Definition workers_budget (config : PipelineConfig) (threads : Z) : Z :=
  if compute_workers_pinned config then compute_workers config
  else Z.max (compute_workers config) threads.

Definition resolve_admission (b : StageBudget) (config : PipelineConfig) (pool : pool_view) (n : Z) :
    outcome Admission :=
  let budget := workers_budget config (pool_threads pool) in
  fcap ← floored_channel_capacity (buffer_size config) 1;
  let feeder_slot := if bool_decide (fcap < n) then 1 else 0 in
  let dedicated := mkAdmission None true (default_workers b budget) 0 0 in
  if on_this_pool pool then mret dedicated
  else
    u1 ← checked_add 64 (parking_used pool) feeder_slot;
    u2 ← checked_add 64 u1 (fences b);
    let live_slots := saturating_sub (pool_threads pool) u2 in
    let per_stage := default_workers b (Z.min budget live_slots) in
    let unpinned := saturating_sub (stages b) (explicit_stages b) in
    s1 ← checked_add 64 feeder_slot (fences b);
    s2 ← checked_add 64 s1 (explicit_workers b);
    m ← checked_mul 64 unpinned (Z.min per_stage n);
    need ← checked_add 64 s2 m;
    if bool_decide (need ≤ pool_threads pool) && try_reserve_parking pool need then
      w1 ← checked_sub need feeder_slot;
      worker_budget ← checked_sub w1 (fences b);
      mret (mkAdmission (Some need) false per_stage worker_budget (stages b))
    else mret dedicated.

(** ** The spawn walk *)

(** [stage_workers]: the grant of one sync or expand stage; the slots and
    stages left are the context's cells. *)
Definition stage_workers (adm : Admission) (n : Z) (pin : option Z) : outcome (Admission * Z) :=
  let requested := match pin with Some w => w | None => per_stage_parallelism adm end in
  let requested := Z.max (Z.min requested (Z.max n 1)) 1 in
  if dedicated_threads adm then mret (adm, requested)
  else
    let slots := worker_slots_left adm in
    after ← checked_sub (stages_left adm) 1;
    let granted := Z.max (Z.min requested (saturating_sub slots after)) 1 in
    _ ← guard_panic (bool_decide (granted ≤ slots));
    left ← checked_sub slots granted;
    mret (mkAdmission (lease adm) (dedicated_threads adm) (per_stage_parallelism adm) left after, granted).

(** The jobs each link submits through [spawn_stage_jobs]: a stage its
    workers, a fence its forwarder, an async stage none. *)
Fixpoint spawn_links (adm : Admission) (n : Z) (chain : list link) : outcome (Admission * list Z) :=
  match chain with
  | [] => mret (adm, [])
  | SyncLink pin :: chain =>
      '(adm1, w) ← stage_workers adm n pin;
      '(adm2, jobs) ← spawn_links adm1 n chain;
      mret (adm2, w :: jobs)
  | FenceLink :: chain => '(adm1, jobs) ← spawn_links adm n chain; mret (adm1, 1 :: jobs)
  | AsyncLink :: chain => '(adm1, jobs) ← spawn_links adm n chain; mret (adm1, 0 :: jobs)
  end.

(** [feed_items]: inline when everything fits the feeder ring, else one job. *)
Definition feeder_jobs (n buffer : Z) : Z := if bool_decide (n ≤ buffer) then 0 else 1.

(** [ParkingLease]: every job dispatched in pool mode is wrapped, which counts
    it; dropping the lease returns the rest. *)
Definition lease_drop (reserved spawned : Z) : outcome Z := checked_sub reserved spawned.

(** A run, from the chain to its jobs: the admission, the feeder's jobs, the
    jobs of each link, and the slots the lease's drop returns. *)
Definition stream_run (config : PipelineConfig) (pool : pool_view) (chain_floor : option Z)
    (slot_size n : Z) (chain : list link) : outcome (Admission * Z * list Z * Z) :=
  b ← stage_budget chain;
  adm ← resolve_admission b config pool n;
  buffer0 ← floored_channel_capacity (buffer_size config) (per_stage_parallelism adm);
  let has_async := existsb (λ l, match l with AsyncLink => true | _ => false end) chain in
  let buffer := async_chain_floor chain_floor has_async slot_size n buffer0 in
  let feeder := feeder_jobs n buffer in
  '(_, jobs) ← spawn_links adm n chain;
  returned ← (match lease adm with
              | Some reserved => lease_drop reserved (feeder + foldr Z.add 0 jobs)
              | None => mret 0
              end);
  mret (adm, feeder, jobs, returned).

(** ** Correctness *)

Fixpoint sync_links (chain : list link) : Z :=
  match chain with
  | [] => 0
  | SyncLink _ :: chain => 1 + sync_links chain
  | _ :: chain => sync_links chain
  end.

Fixpoint fence_links (chain : list link) : Z :=
  match chain with
  | [] => 0
  | FenceLink :: chain => 1 + fence_links chain
  | _ :: chain => fence_links chain
  end.

Fixpoint pinned_links (chain : list link) : Z :=
  match chain with
  | [] => 0
  | SyncLink (Some _) :: chain => 1 + pinned_links chain
  | _ :: chain => pinned_links chain
  end.

Fixpoint pinned_workers (chain : list link) : Z :=
  match chain with
  | [] => 0
  | SyncLink (Some w) :: chain => w + pinned_workers chain
  | _ :: chain => pinned_workers chain
  end.

(** Pins are [NonZeroUsize]. *)
Definition link_ok (l : link) : Prop := match l with SyncLink (Some w) => 1 ≤ w | _ => True end.

Lemma chain_counts chain : Forall link_ok chain →
  0 ≤ pinned_links chain ≤ sync_links chain ∧ 0 ≤ fence_links chain ∧
  pinned_links chain ≤ pinned_workers chain ∧
  sync_links chain + fence_links chain ≤ Z.of_nat (length chain).
Proof.
  induction 1 as [|l chain Hl _ IH]; cbn [sync_links fence_links pinned_links pinned_workers length]; [lia|].
  destruct l as [[w|]| |]; simpl in Hl; lia.
Qed.

Lemma budget_from_spec b chain :
  Forall link_ok chain → 0 ≤ stages b → 0 ≤ fences b → 0 ≤ explicit_stages b → 0 ≤ explicit_workers b →
  stages b + fences b + explicit_stages b + explicit_workers b + 2 * Z.of_nat (length chain) +
    pinned_workers chain < 2 ^ 64 →
  budget_from b chain = Ret (mkBudget (stages b + sync_links chain) (fences b + fence_links chain)
    (explicit_stages b + pinned_links chain) (explicit_workers b + pinned_workers chain)).
Proof.
  intros Hc. revert b. induction Hc as [|l chain Hl Hc IH]; intros b Hs Hf He Hw Hb.
  { simpl. rewrite !Z.add_0_r. by destruct b. }
  pose proof (chain_counts chain Hc) as Hcnt.
  destruct l as [[w|]| |]; cbn [budget_from add_link sync_links fence_links pinned_links pinned_workers length]
    in *; simpl in Hl.
  - oadd. rewrite IH; cbn [stages fences explicit_stages explicit_workers]; [do 2 f_equal; lia|lia..].
  - oadd. rewrite IH; cbn [stages fences explicit_stages explicit_workers]; [do 2 f_equal; lia|lia..].
  - oadd. rewrite IH; cbn [stages fences explicit_stages explicit_workers]; [do 2 f_equal; lia|lia..].
  - oadd. by rewrite IH by lia.
Qed.

Lemma default_workers_bounds b p : 0 ≤ explicit_workers b → 1 ≤ default_workers b p ≤ Z.max p 1.
Proof.
  intros He. unfold default_workers, saturating_sub. case_bool_decide as H0; [lia|]. split; [lia|].
  assert (Z.max 0 (p - explicit_workers b) / Z.max 0 (stages b - explicit_stages b) ≤ Z.max 0 (p - explicit_workers b)); [|lia].
  apply Z.div_le_upper_bound; nia.
Qed.

Lemma async_chain_floor_ge cf ha ss n buffer : buffer ≤ async_chain_floor cf ha ss n buffer.
Proof. unfold async_chain_floor. destruct cf; [destruct ha|]; lia. Qed.

(** The grants of the walk stay inside the slots it started with. *)
Lemma spawn_links_spec adm n chain :
  dedicated_threads adm = false → stages_left adm = sync_links chain → Forall link_ok chain →
  stages_left adm ≤ worker_slots_left adm →
  ∃ adm' jobs, spawn_links adm n chain = Ret (adm', jobs) ∧
    foldr Z.add 0 jobs ≤ worker_slots_left adm + fence_links chain ∧
    Forall2 (λ l w, match l with SyncLink _ => 1 ≤ w | FenceLink => w = 1 | AsyncLink => w = 0 end) chain jobs.
Proof.
  intros Hd Hs Hc. revert adm Hd Hs.
  induction Hc as [|l chain Hl Hc IH]; intros adm Hd Hs Hle; cbn [spawn_links].
  { exists adm, []. split_and!; [done|simpl in *; lia|constructor]. }
  pose proof (chain_counts chain Hc) as Hcnt.
  destruct l as [pin| |]; cbn [sync_links fence_links] in *.
  - unfold stage_workers. rewrite Hd.
    rewrite (checked_sub_ret (stages_left adm)) by lia. rewrite mbind_ret.
    set (req := Z.max (Z.min (match pin with Some w => w | None => per_stage_parallelism adm end) (Z.max n 1)) 1).
    set (g := Z.max (Z.min req (saturating_sub (worker_slots_left adm) (stages_left adm - 1))) 1).
    assert (1 ≤ g ∧ g + (stages_left adm - 1) ≤ worker_slots_left adm) as Hg
      by (unfold g, saturating_sub; lia).
    rewrite bool_decide_eq_true_2 by lia. cbn [guard_panic]. rewrite mbind_ret, checked_sub_ret, mbind_ret by lia.
    rewrite mbind_mret. cbv beta iota.
    destruct (IH (mkAdmission (lease adm) (dedicated_threads adm) (per_stage_parallelism adm)
      (worker_slots_left adm - g) (stages_left adm - 1))) as (adm' & jobs & E & Hsum & Hall);
      cbn [dedicated_threads stages_left worker_slots_left] in *; [done|lia|lia|].
    rewrite Hd in *. rewrite E, mbind_ret. eexists _, _. split; [done|]. split; [simpl in *; lia|].
    constructor; [lia|done].
  - destruct (IH adm Hd Hs Hle) as (adm' & jobs & -> & Hsum & Hall). rewrite mbind_ret.
    eexists _, _. split; [done|]. split; [simpl in *; lia|by constructor].
  - destruct (IH adm Hd Hs Hle) as (adm' & jobs & -> & Hsum & Hall). rewrite mbind_ret.
    eexists _, _. split; [done|]. split; [simpl in *; lia|by constructor].
Qed.

Lemma spawn_links_dedicated adm n chain :
  dedicated_threads adm = true →
  ∃ jobs, spawn_links adm n chain = Ret (adm, jobs) ∧
    Forall2 (λ l w, match l with SyncLink _ => 1 ≤ w | FenceLink => w = 1 | AsyncLink => w = 0 end) chain jobs.
Proof.
  intros Hd. induction chain as [|l chain (jobs & E & Hall)]; [by exists []|].
  destruct l as [pin| |]; cbn [spawn_links]; [unfold stage_workers; rewrite Hd, mbind_mret; cbv beta iota|..]; rewrite E, mbind_ret; eexists; (split; [done|]);
    constructor; done || lia.
Qed.

(** What [resolve_admission] guarantees in pool mode. *)
Record PoolRun (b : StageBudget) (pool : pool_view) (feeder : Z) (adm : Admission) (need : Z) : Prop := {
  ar_lease : lease adm = Some need;
  ar_pool : need ≤ pool_threads pool;
  ar_reserved : try_reserve_parking pool need = true;
  ar_slots : need = feeder + fences b + worker_slots_left adm;
  ar_stages : stages_left adm = stages b;
  ar_enough : stages b ≤ worker_slots_left adm;
}.

Lemma resolve_admission_spec b config pool n :
  0 ≤ fences b → 0 ≤ explicit_stages b ≤ stages b → explicit_stages b ≤ explicit_workers b →
  stages b < 2 ^ 24 → fences b < 2 ^ 24 → explicit_workers b < 2 ^ 62 →
  1 ≤ compute_workers config < 2 ^ 32 → 1 ≤ buffer_size config →
  1 ≤ pool_threads pool ≤ THREADS_MAX → 0 ≤ parking_used pool ≤ pool_threads pool → 1 ≤ n →
  ∃ adm, resolve_admission b config pool n = Ret adm ∧ 1 ≤ per_stage_parallelism adm < 2 ^ 32 ∧
    if dedicated_threads adm then lease adm = None
    else on_this_pool pool = false ∧ ∃ need, PoolRun b pool
      (if bool_decide (Z.max (buffer_size config) 4 < n) then 1 else 0) adm need.
Proof.
  change THREADS_MAX with 511. intros Hf He Hew Hs Hf2 Hw Hcw Hbuf Hpt Hu Hn.
  assert (1 ≤ workers_budget config (pool_threads pool) < 2 ^ 32) as Hwb
    by (unfold workers_budget; destruct (compute_workers_pinned config); lia).
  unfold resolve_admission, floored_channel_capacity. oadd. change (1 * 4) with 4.
  set (fs := if bool_decide (Z.max (buffer_size config) 4 < n) then 1 else 0).
  assert (0 ≤ fs ≤ 1) as Hfs by (unfold fs; case_bool_decide; lia).
  pose proof (default_workers_bounds b (workers_budget config (pool_threads pool))) as Hdw.
  destruct (on_this_pool pool) eqn:Eon.
  { eexists. split; [done|]. cbn [per_stage_parallelism dedicated_threads lease]. split; [lia|done]. }
  oadd. set (live := saturating_sub (pool_threads pool) (parking_used pool + fs + fences b)).
  assert (0 ≤ live ≤ 511) as Hlive by (unfold live, saturating_sub; lia).
  pose proof (default_workers_bounds b (Z.min (workers_budget config (pool_threads pool)) live)) as Hps.
  set (ps := default_workers b (Z.min (workers_budget config (pool_threads pool)) live)) in *.
  set (un := saturating_sub (stages b) (explicit_stages b)).
  assert (un = stages b - explicit_stages b) as Hun by (unfold un, saturating_sub; lia).
  assert (0 ≤ un * Z.min ps n ≤ 2 ^ 24 * 512) as Hm by nia.
  oadd. set (need := fs + fences b + explicit_workers b + un * Z.min ps n).
  case_bool_decide as Hfit; [destruct (try_reserve_parking pool need) eqn:Er|]; cbn [andb].
  - assert (fs + fences b ≤ need) by (unfold need; lia). oadd. eexists. split; [done|]. cbn [per_stage_parallelism dedicated_threads]. split; [lia|].
    split; [done|]. exists need. split; cbn [lease worker_slots_left stages_left]; try done.
    + lia.
    + unfold need. nia.
  - eexists. split; [done|]. cbn [per_stage_parallelism dedicated_threads lease]. split; [lia|done].
  - eexists. split; [done|]. cbn [per_stage_parallelism dedicated_threads lease]. split; [lia|done].
Qed.

(** ** Theorems *)

(** C17: a streaming run's lease covers its jobs.  For every chain of stages
    and fences with any worker pins, every configuration and pool state, the
    admission and the spawn walk return without overflow or failed assertion;
    every sync stage gets at least one worker and every fence its forwarder;
    and when the run goes to the pool, the feeder (when it is a job), the
    stage workers and the forwarders together never exceed the slots leased
    for the run, which never exceed the pool, so none of its parking jobs can
    be left queued behind them.  The lease's drop returns exactly the rest.
    Nested runs (on a worker of the same pool) never use the pool. *)
Theorem stream_run_lease_covers (config : PipelineConfig) (pool : pool_view) (chain_floor : option Z)
    (slot_size n : Z) (chain : list link) :
  Forall link_ok chain → Z.of_nat (length chain) < 2 ^ 23 → pinned_workers chain < 2 ^ 62 →
  1 ≤ compute_workers config < 2 ^ 32 → 1 ≤ buffer_size config →
  1 ≤ pool_threads pool ≤ THREADS_MAX → 0 ≤ parking_used pool ≤ pool_threads pool → 1 ≤ n →
  ∃ adm feeder jobs returned,
    stream_run config pool chain_floor slot_size n chain = Ret (adm, feeder, jobs, returned) ∧
    Forall2 (λ l w, match l with SyncLink _ => 1 ≤ w | FenceLink => w = 1 | AsyncLink => w = 0 end) chain jobs ∧
    if dedicated_threads adm then lease adm = None
    else on_this_pool pool = false ∧ ∃ reserved, lease adm = Some reserved ∧
      try_reserve_parking pool reserved = true ∧
      feeder + foldr Z.add 0 jobs ≤ reserved ≤ pool_threads pool ∧
      returned = reserved - (feeder + foldr Z.add 0 jobs).
Proof.
  intros Hc Hlen Hpw Hcw Hbuf Hpt Hu Hn. pose proof (chain_counts chain Hc) as Hcnt.
  unfold stream_run, stage_budget. rewrite budget_from_spec by (simpl; lia || done). rewrite mbind_ret.
  set (b := mkBudget _ _ _ _).
  destruct (resolve_admission_spec b config pool n) as (adm & -> & Hps & Hadm);
    [unfold b; simpl; lia..|lia|lia|done|done|done|]. rewrite mbind_ret.
  unfold floored_channel_capacity. rewrite checked_mul_ret by lia. rewrite !mbind_ret.
  pose proof (async_chain_floor_ge chain_floor
    (existsb (λ l, match l with AsyncLink => true | _ => false end) chain) slot_size n
    (Z.max (buffer_size config) (per_stage_parallelism adm * 4))) as Hfloor.
  set (buf := async_chain_floor _ _ _ _ _) in *.
  destruct (dedicated_threads adm) eqn:Ed.
  - destruct (spawn_links_dedicated adm n chain Ed) as (jobs & -> & Hall). rewrite mbind_ret, Hadm, mbind_ret.
    eexists _, _, _, _. split; [done|]. rewrite Ed. done.
  - destruct Hadm as (Hon & need & [Hl Hp Hr Hsl Hst Hen]).
    destruct (spawn_links_spec adm n chain Ed) as (adm' & jobs & -> & Hsum & Hall);
      [rewrite Hst; done|done|rewrite Hst; done|]. rewrite mbind_ret, Hl.
    assert (feeder_jobs n buf ≤ if bool_decide (Z.max (buffer_size config) 4 < n) then 1 else 0) as Hfj
      by (unfold feeder_jobs; do 2 case_bool_decide; lia).
    assert (feeder_jobs n buf + foldr Z.add 0 jobs ≤ need) as Hcov by (unfold b in Hsl; cbn [fences] in Hsl; lia).
    unfold lease_drop. rewrite checked_sub_ret, mbind_ret by done.
    eexists _, _, _, _. split; [done|]. split; [done|]. rewrite Ed. split; [done|].
    exists need. split_and!; done.
Qed.

(** Two stages around a fence, the first pinned to three workers, on an
    eight-thread pool of which two slots are leased already. *)
Definition busy_pool : pool_view := mkPool 8 false 2 (λ n, bool_decide (2 + n ≤ 8)).

Lemma stream_run_lease_covers_witness :
  ∃ adm feeder jobs returned,
    stream_run (default_config 4) busy_pool None 16 1000
      [SyncLink (Some 3); FenceLink; SyncLink None] = Ret (adm, feeder, jobs, returned) ∧
    Forall2 (λ l w, match l with SyncLink _ => 1 ≤ w | FenceLink => w = 1 | AsyncLink => w = 0 end)
      [SyncLink (Some 3); FenceLink; SyncLink None] jobs ∧
    if dedicated_threads adm then lease adm = None
    else on_this_pool busy_pool = false ∧ ∃ reserved, lease adm = Some reserved ∧
      try_reserve_parking busy_pool reserved = true ∧
      feeder + foldr Z.add 0 jobs ≤ reserved ≤ pool_threads busy_pool ∧
      returned = reserved - (feeder + foldr Z.add 0 jobs).
Proof.
  apply (stream_run_lease_covers (default_config 4) busy_pool None 16 1000
           [SyncLink (Some 3); FenceLink; SyncLink None]).
  - repeat constructor; simpl; lia.
  - simpl; lia.
  - simpl; lia.
  - simpl; lia.
  - simpl; lia.
  - vm_compute; split; congruence.
  - vm_compute; split; congruence.
  - lia.
Defined.

(** C31: the parking counter never oversubscribes the pool.  However many runs
    reserve and release concurrently, with stale reads and spurious failures
    of the exchange, the counter always equals the slots the runs hold, is at
    most the number of threads, and neither the addition nor the subtraction
    wraps; a reservation that fails has changed nothing. *)
Theorem parking_never_oversubscribed (cap : Z) (k : nat) (s : Parking.state) :
  0 ≤ cap < 2 ^ 63 → rtc (Parking.step cap) (Parking.init k) s →
  Parking.slots s = Parking.total_held (Parking.runs s) ∧ 0 ≤ Parking.slots s ≤ cap ∧
  ∀ t h used n spurious, Parking.runs s !! t = Some (Parking.mkRun (Parking.RTry used n) h) →
    ∃ slots' r, Parking.try_turn cap (Parking.slots s) used n spurious = Ret (slots', r) ∧
      (r ≠ Parking.Decided true → slots' = Parking.slots s).
Proof.
  intros Hcap Hr. pose proof (Parking.parking_reachable_inv cap Hcap k s Hr) as HI.
  pose proof (Parking.total_nonneg _ (Parking.inv_held _ _ HI)) as Hpos.
  pose proof (Parking.inv_sum _ _ HI) as Hsum. pose proof (Parking.inv_cap _ _ HI) as Hle.
  split; [done|]. split; [lia|]. intros t h used n sp Ht.
  destruct (Parking.try_turn_total cap Hcap s t h used n sp HI Ht) as (slots' & r & E).
  exists slots', r. split; [done|]. intros Hne. unfold Parking.try_turn in E.
  apply mbind_ret_inv in E as (u & _ & E). destruct (bool_decide (cap < u)); [by injection E|].
  destruct (_ && _); injection E; intros; by subst.
Qed.

(** Two runs race for a pool of three: both read 0, the first takes two slots,
    the second's exchange fails and it reads again. *)
Definition race : Parking.state :=
  Parking.mkState 2 [Parking.mkRun Parking.RIdle 2; Parking.mkRun (Parking.RTry 2 2) 0].

Lemma parking_never_oversubscribed_witness :
  rtc (Parking.step 3) (Parking.init 2) race ∧
  Parking.slots race = Parking.total_held (Parking.runs race) ∧ 0 ≤ Parking.slots race ≤ 3 ∧
  ∀ t h used n spurious, Parking.runs race !! t = Some (Parking.mkRun (Parking.RTry used n) h) →
    ∃ slots' r, Parking.try_turn 3 (Parking.slots race) used n spurious = Ret (slots', r) ∧
      (r ≠ Parking.Decided true → slots' = Parking.slots race).
Proof.
  assert (rtc (Parking.step 3) (Parking.init 2) race) as Hr.
  { eapply rtc_l; [apply (Parking.step_load _ _ 0 0 2); [reflexivity|vm_compute; split; congruence]|].
    eapply rtc_l; [apply (Parking.step_load _ _ 1 0 2); [reflexivity|vm_compute; split; congruence]|].
    eapply rtc_l; [apply (Parking.step_decided _ _ 0 0 0 2 false 2 true); reflexivity|].
    eapply rtc_l; [apply (Parking.step_retry _ _ 1 0 0 2 false 2 2); reflexivity|]. apply rtc_refl. }
  split; [exact Hr|]. apply (parking_never_oversubscribed 3 2 race); [lia|exact Hr].
Defined.
