(* ===== verification/GraphExec.v ===== *)
(** * GraphExec: running a graph

    Model of the run-time assembly of [crates/youpipe/src/graph/exec.rs]:
    [resolve_budget] (worker counts and pool admission), [run_graph] (the
    validation, the edge table with the resolved capacities, the reordering of
    the nodes into the topological order and the spawn walk).  How the caller
    then waits for the jobs is in [Completion].

    A spawn step and an edge connector are closures; the model records what
    they are called with.  The two endpoints of an edge's channel are named by
    the edge's index in the plan.  The async backend's construction, which can
    fail before anything is spawned, is an argument. *)

From stdpp Require Import strings.
From S2P Require Import Prelude GraphPlan SleepCounters Config Admission.
Local Open Scope Z_scope.

(** ** Worker counts and admission *)

Record RunPlan : Type := mkRunPlan {
  rp_dedicated : bool;
  rp_lease : option Z;
  rp_workers : list Z;
}.

Definition is_kind (k : NodeKind) (nd : NodePlan) : bool := bool_decide (kind nd = k).

(** Sync nodes whose worker count the budget divides. *)
Definition is_divided (nd : NodePlan) : bool :=
  match kind nd with Sync | Expand => true | _ => false end.

Definition count_nodes (p : NodePlan → bool) (l : list NodePlan) : Z :=
  Z.of_nat (length (filter (λ nd, p nd = true) l)).

(** [iter().sum()] of a [usize] sequence. *)
Fixpoint sum_pins (l : list NodePlan) : outcome Z :=
  match l with
  | [] => mret 0
  | nd :: l =>
      s ← sum_pins l;
      match opt_workers (opts nd) with
      | Some w => checked_add 64 w s
      | None => mret s
      end
  end.

Definition share_of (pinned unpinned budget : Z) : Z :=
  if bool_decide (unpinned = 0) then 1
  else Z.max (saturating_sub budget pinned / unpinned) 1.

(** The worker (or task) count of one node. *)
Definition node_workers (config : PipelineConfig) (share : Z) (nd : NodePlan) : Z :=
  match kind nd with
  | Source | SourceAsync | Sink => 1
  | Sync | Expand => default share (opt_workers (opts nd))
  | Async => default (io_concurrency config) (opt_io_concurrency (opts nd))
  end.

Definition has_pin (nd : NodePlan) : bool := bool_decide (is_Some (opt_workers (opts nd))).

Definition resolve_budget (plan : GraphPlan) (config : PipelineConfig) (pool : pool_view) :
    outcome RunPlan :=
  let budget := workers_budget config (pool_threads pool) in
  let feeders := count_nodes (is_kind Source) (nodes plan) in
  let sinks := count_nodes (is_kind Sink) (nodes plan) in
  let divided := filter (λ nd, is_divided nd = true) (nodes plan) in
  pinned ← sum_pins divided;
  unpinned ← checked_sub (Z.of_nat (length divided)) (count_nodes has_pin divided);
  '(lease, dedicated, share) ←
    (if on_this_pool pool then mret (None, true, share_of pinned unpinned budget)
     else
       u1 ← checked_add 64 (parking_used pool) feeders;
       u2 ← checked_add 64 u1 sinks;
       let live := saturating_sub (pool_threads pool) u2 in
       let share := share_of pinned unpinned (Z.min budget live) in
       s1 ← checked_add 64 feeders sinks;
       s2 ← checked_add 64 s1 pinned;
       m ← checked_mul 64 unpinned share;
       need ← checked_add 64 s2 m;
       if bool_decide (need ≤ pool_threads pool) && try_reserve_parking pool need
       then mret (Some need, false, share)
       else mret (None, true, share_of pinned unpinned budget));
  mret (mkRunPlan dedicated lease (node_workers config share <$> nodes plan)).

(** ** The spawn walk *)

Record OutEdge : Type := mkOutEdge { oe_down : nat; oe_buffer : Z; oe_edge : nat }.

(** What the walk does: create an edge's channel, run a node's spawn step. *)
Inductive walk_event : Type :=
  | Connect (edge : nat) (buffer : Z)
  | Spawn (node : nat) (workers : Z) (inputs outputs : list nat).

(** The capacity of an edge: the upstream node's pin, or the configured buffer
    floored at four slots per producer. *)
Definition edge_buffer (config : PipelineConfig) (pin : option Z) (producers : Z) : outcome Z :=
  match pin with
  | Some b => mret b
  | None => floored_channel_capacity (buffer_size config) producers
  end.

(** [for edge in plan.edges]: bundle every edge under its upstream node; [k]
    is the index of the first edge of the list. *)
Fixpoint bundle_edges (config : PipelineConfig) (pins : list (option Z)) (workers : list Z)
    (k : nat) (l : list EdgePlan) (t : list (list OutEdge)) : outcome (list (list OutEdge)) :=
  match l with
  | [] => mret t
  | e :: l =>
      producers ← vec_get workers (Z.of_nat (up e));
      pin ← vec_get pins (Z.of_nat (up e));
      buffer ← edge_buffer config pin producers;
      bucket ← vec_get t (Z.of_nat (up e));
      t' ← vec_set t (Z.of_nat (up e)) (bucket ++ [mkOutEdge (down e) buffer k]);
      bundle_edges config pins workers (S k) l t'
  end.

(** [for (idx, &u) in order.iter().enumerate() { pos[u] = idx }]. *)
Fixpoint set_positions (idx : nat) (order : list nat) (pos : list nat) : outcome (list nat) :=
  match order with
  | [] => mret pos
  | u :: order => pos' ← vec_set pos (Z.of_nat u) idx; set_positions (S idx) order pos'
  end.

(** [for (i, node) in nodes.enumerate() { slots[pos[i]] = Some((i, node)) }]. *)
Fixpoint place_nodes (i n : nat) (pos : list nat) (slots : list (option nat)) :
    outcome (list (option nat)) :=
  match n with
  | O => mret slots
  | S n =>
      p ← vec_get pos (Z.of_nat i);
      slots' ← vec_set slots (Z.of_nat p) (Some i);
      place_nodes (S i) n pos slots'
  end.

(** [slot.expect("topo order covers every node")]. *)
Fixpoint expect_all (slots : list (option nat)) : outcome (list nat) :=
  match slots with
  | [] => mret []
  | None :: _ => Panic
  | Some i :: slots => l ← expect_all slots; mret (i :: l)
  end.

(** The out-edges of one node: connect each, keep the sender, hand the receiver
    to the downstream node. *)
Fixpoint connect_edges (l : list OutEdge) (pending : list (list nat)) :
    outcome (list (list nat) * list walk_event * list nat) :=
  match l with
  | [] => mret (pending, [], [])
  | e :: l =>
      rx ← vec_get pending (Z.of_nat (oe_down e));
      pending1 ← vec_set pending (Z.of_nat (oe_down e)) (rx ++ [oe_edge e]);
      '(pending2, evs, outs) ← connect_edges l pending1;
      mret (pending2, Connect (oe_edge e) (oe_buffer e) :: evs, oe_edge e :: outs)
  end.

Fixpoint walk (workers : list Z) (order : list nat) (t : list (list OutEdge))
    (pending : list (list nat)) : outcome (list walk_event) :=
  match order with
  | [] => mret []
  | u :: order =>
      bucket ← vec_get t (Z.of_nat u);
      t' ← vec_set t (Z.of_nat u) [];
      '(pending1, evs, outs) ← connect_edges bucket pending;
      inputs ← vec_get pending1 (Z.of_nat u);
      pending2 ← vec_set pending1 (Z.of_nat u) [];
      w ← vec_get workers (Z.of_nat u);
      rest ← walk workers order t' pending2;
      mret (evs ++ Spawn u w inputs outs :: rest)
  end.

(** The result of [run_graph]: nothing to run, the async backend failed to
    build (before anything is spawned), or the walk with the initial value of
    the completion counter. *)
Inductive run_result : Type :=
  | RunEmpty
  | RunIoError
  | Ran (events : list walk_event) (plan : RunPlan) (total_workers : Z).

Fixpoint checked_sum (l : list Z) : outcome Z :=
  match l with
  | [] => mret 0
  | x :: l => s ← checked_sum l; checked_add 64 x s
  end.

(** [run_graph]; [uncollected] tells whether some collect sink's buffer was not
    extracted, [backend_ok] whether the async backend can be built.  A plan
    with errors, or an uncollected sink, panics. *)
Definition run_graph (plan : GraphPlan) (config : PipelineConfig) (pool : pool_view)
    (uncollected backend_ok : bool) : outcome run_result :=
  v ← validate_and_order plan;
  match v with
  | inl _ => Panic
  | inr order =>
      _ ← guard_panic (negb uncollected);
      if bool_decide (length (nodes plan) = 0%nat) then mret RunEmpty
      else
        run ← resolve_budget plan config pool;
        if existsb (λ nd, is_async (kind nd)) (nodes plan) && negb backend_ok then mret RunIoError
        else
          total ← checked_sum (rp_workers run);
          let n := length (nodes plan) in
          let pins := opt_buffer ∘ opts <$> nodes plan in
          t ← bundle_edges config pins (rp_workers run) 0 (edges plan) (replicate n []);
          pos ← set_positions 0 order (replicate n 0%nat);
          slots ← place_nodes 0 n pos (replicate n None);
          ordered ← expect_all slots;
          events ← walk (rp_workers run) ordered t (replicate n []);
          mret (Ran events run total)
  end.

(** ** Correctness of the budget *)

(** Jobs that park on a pool thread for the whole run. *)
Definition is_blocking (nd : NodePlan) : bool :=
  match kind nd with Source | Sync | Expand | Sink => true | _ => false end.

Definition parking_jobs (l : list NodePlan) (workers : list Z) : Z :=
  foldr Z.add 0 (zip_with (λ nd w, if is_blocking nd then w else 0) l workers).

Fixpoint pin_total (l : list NodePlan) : Z :=
  match l with
  | [] => 0
  | nd :: l => default 0 (opt_workers (opts nd)) + pin_total l
  end.

(** The pins are [NonZeroUsize]. *)
Definition node_opts_ok (nd : NodePlan) : Prop :=
  match opt_workers (opts nd) with Some w => 1 ≤ w | None => True end ∧
  match opt_io_concurrency (opts nd) with Some w => 1 ≤ w | None => True end ∧
  match opt_buffer (opts nd) with Some b => 1 ≤ b | None => True end.

Lemma pin_total_nonneg l : Forall node_opts_ok l → 0 ≤ pin_total l.
Proof.
  induction 1 as [|nd l (Hw & _) _ IH]; simpl; [lia|]. destruct (opt_workers (opts nd)); simpl; lia.
Qed.

Lemma sum_pins_spec l : Forall node_opts_ok l → pin_total l < 2 ^ 64 → sum_pins l = Ret (pin_total l).
Proof.
  induction 1 as [|nd l (Hw & _) Hl IH]; simpl; intros Hb; [done|].
  pose proof (pin_total_nonneg l Hl). destruct (opt_workers (opts nd)); simpl in *.
  - rewrite IH by lia. oadd. done.
  - rewrite IH by lia. done.
Qed.

Lemma count_cons p nd l : count_nodes p (nd :: l) = (if p nd then 1 else 0) + count_nodes p l.
Proof.
  unfold count_nodes. rewrite filter_cons. destruct (p nd); [rewrite decide_True by done; simpl; lia|].
  by rewrite decide_False by done.
Qed.

Lemma count_nonneg p l : 0 ≤ count_nodes p l.
Proof. unfold count_nodes. lia. Qed.

Lemma count_le_length p l : count_nodes p l ≤ Z.of_nat (length l).
Proof.
  induction l as [|nd l IH]; [unfold count_nodes; simpl; lia|]. rewrite count_cons. simpl. destruct (p nd); lia.
Qed.

Definition divided (l : list NodePlan) : list NodePlan := filter (λ nd, is_divided nd = true) l.

Lemma divided_cons nd l : divided (nd :: l) = if is_divided nd then nd :: divided l else divided l.
Proof.
  unfold divided. rewrite filter_cons. destruct (is_divided nd); [by rewrite decide_True|by rewrite decide_False].
Qed.

Lemma divided_ok l : Forall node_opts_ok l → Forall node_opts_ok (divided l).
Proof.
  rewrite !Forall_forall. intros Hl nd [_ Hnd]%list_elem_of_filter. by apply Hl.
Qed.

Lemma divided_length l : (length (divided l) ≤ length l)%nat.
Proof. apply length_filter. Qed.

(** The lease's arithmetic: feeders, sinks, pins and shares are exactly the
    blocking jobs. *)
Lemma parking_jobs_need config share l :
  parking_jobs l (node_workers config share <$> l) =
    count_nodes (is_kind Source) l + count_nodes (is_kind Sink) l + pin_total (divided l) +
    (Z.of_nat (length (divided l)) - count_nodes has_pin (divided l)) * share.
Proof.
  induction l as [|nd l IH]; [done|]. rewrite fmap_cons. unfold parking_jobs in *. cbn [zip_with foldr].
  rewrite IH, !count_cons, divided_cons.
  unfold is_kind, is_blocking, is_divided, node_workers.
  destruct (kind nd) eqn:Ek; cbn [length]; rewrite ?count_cons; unfold has_pin;
    rewrite ?(bool_decide_eq_true_2 (Source = Source)), ?(bool_decide_eq_true_2 (Sink = Sink)) by done;
    rewrite ?bool_decide_eq_false_2 by done; try lia;
    destruct (opt_workers (opts nd)) eqn:Ew; cbn [pin_total default]; rewrite Ew; simpl;
    rewrite ?(bool_decide_eq_true_2 (is_Some (Some _))) by (by eexists);
    rewrite ?(bool_decide_eq_false_2 (is_Some None)) by (by intros [? ?]); simpl; lia.
Qed.

Lemma share_bounds pinned unpinned budget :
  0 ≤ unpinned → 0 ≤ pinned →
  1 ≤ share_of pinned unpinned budget ≤ Z.max budget 1 ∧
  unpinned * share_of pinned unpinned budget ≤ Z.max unpinned (budget - pinned).
Proof.
  intros Hu Hp. unfold share_of, saturating_sub. case_bool_decide; [lia|].
  pose proof (Z.mul_div_le (Z.max 0 (budget - pinned)) unpinned).
  assert (Z.max 0 (budget - pinned) / unpinned ≤ Z.max 0 (budget - pinned)) by (apply Z.div_le_upper_bound; nia).
  split; [lia|]. destruct (Z.max_spec (Z.max 0 (budget - pinned) / unpinned) 1) as [[_ ->]|[_ ->]]; lia.
Qed.

(** The least the pool must host: one worker per unpinned node. *)
Definition least_need (l : list NodePlan) : Z :=
  count_nodes (is_kind Source) l + count_nodes (is_kind Sink) l + pin_total (divided l) +
  (Z.of_nat (length (divided l)) - count_nodes has_pin (divided l)).

Lemma node_workers_ok config share nd :
  node_opts_ok nd → 1 ≤ share → 1 ≤ io_concurrency config →
  1 ≤ node_workers config share nd ∧
  (is_divided nd = true → node_workers config share nd = default share (opt_workers (opts nd))).
Proof.
  intros (H1 & H2 & _) Hsh Hio. revert H1 H2. unfold node_workers, is_divided.
  destruct (kind nd), (opt_workers (opts nd)), (opt_io_concurrency (opts nd)); simpl;
    intros H1 H2; (split; [lia|done]).
Qed.

(** The bounds of a plan the arithmetic of a run relies on. *)
Record plan_bounds (plan : GraphPlan) (config : PipelineConfig) (pool : pool_view) : Prop := {
  pb_opts : Forall node_opts_ok (nodes plan);
  pb_nodes : Z.of_nat (length (nodes plan)) < 2 ^ 24;
  pb_pins : pin_total (divided (nodes plan)) < 2 ^ 61;
  pb_compute : 1 ≤ compute_workers config < 2 ^ 32;
  pb_io : 1 ≤ io_concurrency config < 2 ^ 32;
  pb_io_pins : Forall (λ nd, default 1 (opt_io_concurrency (opts nd)) < 2 ^ 32) (nodes plan);
  pb_pool : 1 ≤ pool_threads pool ≤ THREADS_MAX;
  pb_used : 0 ≤ parking_used pool ≤ pool_threads pool;
}.

Lemma resolve_budget_spec plan config pool :
  plan_bounds plan config pool →
  ∃ rp share, resolve_budget plan config pool = Ret rp ∧
    rp_workers rp = node_workers config share <$> nodes plan ∧ 1 ≤ share < 2 ^ 32 ∧
    if rp_dedicated rp then rp_lease rp = None ∧
      (on_this_pool pool = true ∨
       ∃ need, (pool_threads pool < need ∨ try_reserve_parking pool need = false) ∧
         (parking_used pool + least_need (nodes plan) ≤ pool_threads pool →
          parking_used pool + need ≤ pool_threads pool))
    else on_this_pool pool = false ∧
      ∃ need, rp_lease rp = Some need ∧ need = parking_jobs (nodes plan) (rp_workers rp) ∧
        least_need (nodes plan) ≤ need ≤ pool_threads pool ∧ try_reserve_parking pool need = true.
Proof.
  intros [Hok Hn Hp Hcw _ _ Hpt Hu]. change THREADS_MAX with 511 in Hpt. unfold resolve_budget.
  fold (divided (nodes plan)). set (l := nodes plan) in *.
  assert (1 ≤ workers_budget config (pool_threads pool) < 2 ^ 32) as Hwb
    by (unfold workers_budget; destruct (compute_workers_pinned config); lia).
  pose proof (pin_total_nonneg _ (divided_ok _ Hok)) as Hpn.
  pose proof (divided_length l) as Hdl.
  pose proof (count_le_length has_pin (divided l)) as Hcp. pose proof (count_nonneg has_pin (divided l)) as Hcp0.
  pose proof (count_nonneg (is_kind Source) l) as Hf0. pose proof (count_nonneg (is_kind Sink) l) as Hs0.
  pose proof (count_le_length (is_kind Source) l) as Hf. pose proof (count_le_length (is_kind Sink) l) as Hs.
  rewrite sum_pins_spec by (done || by apply divided_ok || lia). oadd.
  set (feeders := count_nodes (is_kind Source) l) in *. set (sinks := count_nodes (is_kind Sink) l) in *.
  set (pinned := pin_total (divided l)) in *.
  set (un := Z.of_nat (length (divided l)) - count_nodes has_pin (divided l)) in *.
  set (budget := workers_budget config (pool_threads pool)) in *.
  destruct (share_bounds pinned un budget) as [Hsh _]; [lia..|].
  destruct (on_this_pool pool) eqn:Eon.
  { rewrite mbind_mret. eexists _, (share_of pinned un budget). split; [reflexivity|]. cbn [rp_workers rp_dedicated rp_lease].
    split_and!; [done|lia|lia|done|by left]. }
  oadd. set (live := saturating_sub (pool_threads pool) (parking_used pool + feeders + sinks)).
  assert (0 ≤ live ≤ 511) as Hlive by (unfold live, saturating_sub; lia).
  destruct (share_bounds pinned un (Z.min budget live)) as [Hsh2 Hmul]; [lia..|].
  set (share := share_of pinned un (Z.min budget live)) in *.
  assert (0 ≤ un * share ≤ 2 ^ 24 * 2 ^ 32) as Hm by nia. oadd.
  set (need := feeders + sinks + pinned + un * share).
  assert (∀ sh, parking_jobs l (node_workers config sh <$> l) = feeders + sinks + pinned + un * sh) as Hneed
    by (intros sh; by rewrite parking_jobs_need).
  assert (least_need l = feeders + sinks + pinned + un) as Hleast by done.
  assert (parking_used pool + least_need l ≤ pool_threads pool → parking_used pool + need ≤ pool_threads pool)
    as Hadm by (rewrite Hleast; unfold need, live, saturating_sub in *; lia).
  case_bool_decide as Hfit; [destruct (try_reserve_parking pool need) eqn:Er|]; cbn [andb]; rewrite mbind_mret.
  - eexists _, share. split; [reflexivity|]. cbn [rp_workers rp_dedicated rp_lease].
    assert (un * 1 ≤ un * share) by (apply Z.mul_le_mono_nonneg_l; lia).
    split_and!; [done|lia|lia|done|]. exists need. split_and!; [done|by rewrite Hneed|unfold need; lia|lia|done].
  - eexists _, (share_of pinned un budget). split; [reflexivity|]. cbn [rp_workers rp_dedicated rp_lease].
    split_and!; [done|lia|lia|done|]. right. exists need. auto.
  - eexists _, (share_of pinned un budget). split; [reflexivity|]. cbn [rp_workers rp_dedicated rp_lease].
    split_and!; [done|lia|lia|done|]. right. exists need. split; [left; lia|done].
Qed.

(** ** Correctness of the walk *)

Section walk.
Context (config : PipelineConfig) (n : nat) (pin_at : nat → option Z) (w_at : nat → Z).
Context (w_bounds : ∀ u, (u < n)%nat → 0 ≤ w_at u < 2 ^ 62).

(** Edges with their indices. *)
Definition indexed (k : nat) (l : list EdgePlan) : list (nat * EdgePlan) := zip (seq k (length l)) l.

Definition edge_cap (e : EdgePlan) : Z :=
  match pin_at (up e) with
  | Some b => b
  | None => Z.max (buffer_size config) (w_at (up e) * 4)
  end.

Definition to_out (q : nat * EdgePlan) : OutEdge := mkOutEdge (down q.2) (edge_cap q.2) q.1.

Definition leaving (es : list (nat * EdgePlan)) (u : nat) : list (nat * EdgePlan) :=
  filter (λ q, up q.2 = u) es.
Definition entering (es : list (nat * EdgePlan)) (u : nat) : list (nat * EdgePlan) :=
  filter (λ q, down q.2 = u) es.

Lemma indexed_cons k e l : indexed k (e :: l) = (k, e) :: indexed (S k) l.
Proof. done. Qed.

Lemma indexed_nodup k l : NoDup (indexed k l).
Proof.
  assert (NoDup ((indexed k l).*1)) as H; [|by apply NoDup_fmap_1 in H].
  unfold indexed. rewrite fst_zip by (rewrite length_seq; lia). apply NoDup_seq.
Qed.

Lemma indexed_elem k l q : q ∈ indexed k l → q.2 ∈ l.
Proof.
  revert k. induction l as [|e l IH]; intros k Hq; [by apply not_elem_of_nil in Hq|].
  rewrite indexed_cons in Hq. apply elem_of_cons in Hq as [->|Hq]; [by left|]. right. by eapply IH.
Qed.

Lemma edge_buffer_spec e :
  (up e < n)%nat → edge_buffer config (pin_at (up e)) (w_at (up e)) = Ret (edge_cap e).
Proof.
  intros Hu. unfold edge_buffer, edge_cap, floored_channel_capacity. destruct (pin_at (up e)); [done|].
  pose proof (w_bounds _ Hu). oadd. done.
Qed.

Lemma bundle_edges_spec k l p :
  Forall (λ e, up e < n)%nat l →
  bundle_edges config (pin_at <$> seq 0 n) (w_at <$> seq 0 n) k l
    ((λ u, to_out <$> leaving p u) <$> seq 0 n) =
  Ret ((λ u, to_out <$> leaving (p ++ indexed k l) u) <$> seq 0 n).
Proof.
  intros Hl. revert k p. induction Hl as [|e l Hu _ IH]; intros k p; cbn [bundle_edges].
  { unfold indexed. simpl. by rewrite app_nil_r. }
  rewrite !vec_get_tab, !mbind_ret by done. rewrite edge_buffer_spec, !mbind_ret by done.
  assert ((to_out <$> leaving p (up e)) ++ [mkOutEdge (down e) (edge_cap e) k] =
    to_out <$> leaving (p ++ [(k, e)]) (up e)) as ->.
  { unfold leaving. rewrite filter_add_last, decide_True by done. by rewrite fmap_app. }
  rewrite (vec_set_tab _ (λ u, to_out <$> leaving (p ++ [(k, e)]) u)), mbind_ret; [|done|].
  2: { intros u Hne. unfold leaving. by rewrite filter_add_last, decide_False by (simpl; congruence). }
  rewrite IH, indexed_cons. by rewrite <- (assoc_L (++)).
Qed.

Lemma connect_edges_spec l (P : nat → list nat) :
  Forall (λ e, oe_down e < n)%nat l →
  connect_edges l (P <$> seq 0 n) =
    Ret ((λ u, P u ++ (oe_edge <$> filter (λ e, oe_down e = u) l)) <$> seq 0 n,
         (λ e, Connect (oe_edge e) (oe_buffer e)) <$> l, oe_edge <$> l).
Proof.
  intros Hl. revert P. induction Hl as [|e l Hd _ IH]; intros P; cbn [connect_edges].
  { do 3 f_equal. apply list_fmap_ext. intros i x _. by rewrite filter_nil, app_nil_r. }
  rewrite vec_get_tab, mbind_ret by done.
  set (P1 := λ u, P u ++ (if decide (oe_down e = u) then [oe_edge e] else [])).
  assert (P (oe_down e) ++ [oe_edge e] = P1 (oe_down e)) as ->.
  { unfold P1. by rewrite decide_True. }
  rewrite (vec_set_tab _ P1), mbind_ret; [|done|].
  2: { intros u Hne. unfold P1. by rewrite decide_False, app_nil_r. }
  rewrite IH, mbind_ret. do 3 f_equal. apply list_fmap_ext. intros i u _. unfold P1.
  rewrite filter_cons, <- (assoc_L (++)). by case_decide.
Qed.

Context (es : list (nat * EdgePlan)) (es_range : ∀ q, q ∈ es → (up q.2 < n ∧ down q.2 < n)%nat).

(** The in-edges of [u] whose upstream ends were walked, in walk order. *)
Definition arrived (don : list nat) (u : nat) : list nat :=
  fst <$> entering (don ≫= leaving es) u.

(** The events of walking [order] after [don]. *)
Fixpoint expected (don order : list nat) : list walk_event :=
  match order with
  | [] => []
  | u :: order =>
      ((λ e, Connect (oe_edge e) (oe_buffer e)) <$> (to_out <$> leaving es u)) ++
      Spawn u (w_at u) (arrived don u) (fst <$> leaving es u) :: expected (don ++ [u]) order
  end.

(** The ring ids of a bucket that lead to [u]. *)
Lemma bucket_to u (l : list (nat * EdgePlan)) :
  oe_edge <$> filter (λ e, oe_down e = u) (to_out <$> l) = fst <$> entering l u.
Proof.
  unfold entering. induction l as [|q l IH]; [done|]. rewrite fmap_cons, !filter_cons. simpl.
  case_decide; rewrite ?fmap_cons, IH; done.
Qed.

Lemma arrived_snoc don v u :
  arrived (don ++ [v]) u = arrived don u ++ (oe_edge <$> filter (λ e, oe_down e = u) (to_out <$> leaving es v)).
Proof.
  unfold arrived, entering. rewrite bind_app, filter_app, fmap_app. f_equal. simpl. rewrite app_nil_r.
  symmetry. apply bucket_to.
Qed.

(** No edge points back into what was walked, or at the node itself. *)
Definition forward (order : list nat) : Prop :=
  ∀ k u q, order !! k = Some u → q ∈ es → up q.2 = u → down q.2 ∈ drop (S k) order.

Lemma walk_spec don order (T : nat → list OutEdge) (P : nat → list nat) :
  NoDup order → Forall (λ u, u < n)%nat order → forward order →
  (∀ u, u ∈ order → T u = to_out <$> leaving es u) → (∀ u, u ∈ order → P u = arrived don u) →
  walk (w_at <$> seq 0 n) order (T <$> seq 0 n) (P <$> seq 0 n) = Ret (expected don order).
Proof.
  intros Hnd Hlt. revert don T P. induction Hlt as [|u order Hu Hlt IH]; intros don T P Hfw HT HP; [done|].
  apply NoDup_cons in Hnd as [Hnin Hnd]. cbn [walk expected].
  rewrite (vec_get_tab T), mbind_ret by done. rewrite (HT u) by left.
  rewrite (vec_set_ret _ _ []), mbind_ret by (rewrite length_fmap, length_seq; lia).
  assert (<[Z.to_nat (Z.of_nat u) := []]> (T <$> seq 0 n) =
    (λ v, if decide (v = u) then [] else T v) <$> seq 0 n) as ->.
  { rewrite Nat2Z.id. rewrite <- (insert_tab T (λ v, if decide (v = u) then [] else T v) n u); [|done|].
    - by rewrite decide_True.
    - intros v Hv. by rewrite decide_False. }
  rewrite connect_edges_spec.
  2: { apply Forall_fmap, Forall_forall. intros q [_ Hq]%list_elem_of_filter. by apply es_range. }
  rewrite mbind_ret. cbv beta iota. set (P1 := λ v, P v ++ _).
  rewrite (vec_get_tab P1), mbind_ret by done.
  assert (∀ q, q ∈ es → up q.2 = u → down q.2 ∈ order) as Hout.
  { intros q Hq He. specialize (Hfw 0%nat u q eq_refl Hq He). done. }
  assert (P1 u = arrived don u) as ->.
  { unfold P1. rewrite (HP u) by left.
    rewrite bucket_to. unfold entering. destruct (filter _ (leaving es u)) as [|q qs] eqn:E; [apply app_nil_r|].
    assert (q ∈ filter (λ q, down q.2 = u) (leaving es u)) as Hq by (rewrite E; left).
    apply list_elem_of_filter in Hq as [Hd [He Hq]%list_elem_of_filter].
    destruct Hnin. rewrite <- Hd. by apply Hout. }
  rewrite vec_set_ret, mbind_ret by (rewrite length_fmap, length_seq; lia).
  assert (<[Z.to_nat (Z.of_nat u) := []]> (P1 <$> seq 0 n) =
    (λ v, if decide (v = u) then [] else P1 v) <$> seq 0 n) as ->.
  { rewrite Nat2Z.id. rewrite <- (insert_tab P1 (λ v, if decide (v = u) then [] else P1 v) n u); [|done|].
    - by rewrite decide_True.
    - intros v Hv. by rewrite decide_False. }
  rewrite (vec_get_tab w_at), mbind_ret by done.
  rewrite (IH Hnd (don ++ [u])), mbind_ret.
  - by rewrite <- (list_fmap_compose to_out oe_edge).
  - intros k v q Hk Hq He. apply (Hfw (S k) v q Hk Hq He).
  - intros v Hv. rewrite decide_False by congruence. apply HT. by right.
  - intros v Hv. rewrite decide_False by congruence. unfold P1. rewrite (HP v) by (by right).
    by rewrite arrived_snoc.
Qed.

(** All the in-edges of a node have arrived when it is walked. *)
Lemma arrived_all don u :
  NoDup es → NoDup don → (∀ q, q ∈ es → down q.2 = u → up q.2 ∈ don) →
  arrived don u ≡ₚ fst <$> entering es u.
Proof.
  intros Hes Hdon Hup. unfold arrived. apply fmap_Permutation, NoDup_Permutation.
  - apply NoDup_filter, NoDup_bind; [| |done].
    + intros x1 x2 q _ _ [<- _]%list_elem_of_filter [<- _]%list_elem_of_filter. done.
    + intros x _. by apply NoDup_filter.
  - by apply NoDup_filter.
  - intros q. unfold entering. rewrite !list_elem_of_filter, list_elem_of_bind. split.
    + intros [Hd (v & [_ Hq]%list_elem_of_filter & _)]. done.
    + intros [Hd Hq]. split; [done|]. exists (up q.2). split; [|by apply Hup].
      apply list_elem_of_filter. done.
Qed.

End walk.

(** *** The reordering of the nodes *)

Section reorder.
Local Open Scope nat_scope.

Lemma set_positions_spec idx order pos :
  NoDup order → Forall (λ u, u < length pos) order →
  ∃ pos', set_positions idx order pos = Ret pos' ∧ length pos' = length pos ∧
    (∀ k u, order !! k = Some u → pos' !! u = Some (idx + k)) ∧
    (∀ u, u ∉ order → pos' !! u = pos !! u).
Proof.
  intros Hnd. revert idx pos. induction Hnd as [|u order Hnin _ IH]; intros idx pos Hlt; cbn [set_positions].
  { exists pos. done. }
  apply Forall_cons in Hlt as [Hu Hlt]. rewrite vec_set_ret, mbind_ret, Nat2Z.id by lia.
  destruct (IH (S idx) (<[u := idx]> pos)) as (pos' & -> & Hlen & Hin & Hout).
  { by rewrite length_insert. }
  exists pos'. rewrite length_insert in Hlen. split_and!; [done|done| |].
  - intros [|k] v Hk; simplify_eq/=.
    + rewrite Hout by done. rewrite list_lookup_insert_eq by done. f_equal. lia.
    + rewrite (Hin k v Hk). f_equal. lia.
  - intros v [Hne Hv]%not_elem_of_cons. rewrite Hout by done. by rewrite list_lookup_insert_ne by congruence.
Qed.

Lemma place_nodes_spec i n pos slots :
  (∀ j, i ≤ j < i + n → ∃ p, pos !! j = Some p ∧ p < length slots) →
  (∀ j j' p, i ≤ j < i + n → i ≤ j' < i + n → pos !! j = Some p → pos !! j' = Some p → j = j') →
  ∃ slots', place_nodes i n pos slots = Ret slots' ∧ length slots' = length slots ∧
    (∀ j p, i ≤ j < i + n → pos !! j = Some p → slots' !! p = Some (Some j)) ∧
    (∀ p, (∀ j, i ≤ j < i + n → pos !! j ≠ Some p) → slots' !! p = slots !! p).
Proof.
  revert i slots. induction n as [|n IH]; intros i slots Hr Hinj; cbn [place_nodes].
  { exists slots. split_and!; [done..| |done]. intros j p Hj. lia. }
  destruct (Hr i) as (p & Hp & Hlt); [lia|].
  rewrite (vec_get_ret _ _ p), mbind_ret by (rewrite ?Nat2Z.id; done || lia).
  rewrite vec_set_ret, mbind_ret, Nat2Z.id by lia.
  destruct (IH (S i) (<[p := Some i]> slots)) as (slots' & -> & Hlen & Hin & Hout).
  { intros j Hj. rewrite length_insert. apply Hr. lia. }
  { intros j j' q Hj Hj'. apply Hinj; lia. }
  exists slots'. rewrite length_insert in Hlen. split_and!; [done|done| |].
  - intros j q Hj Hq. destruct (decide (j = i)) as [->|Hne]; [|apply Hin; [lia|done]].
    assert (q = p) as -> by congruence. rewrite Hout; [by rewrite list_lookup_insert_eq|].
    intros j Hj' Hjp. assert (j = i); [|lia]. apply (Hinj j i p); [lia|lia|done|done].
  - intros q Hq. rewrite Hout by (intros j Hj; apply Hq; lia).
    rewrite list_lookup_insert_ne; [done|]. intros ->. by apply (Hq i); [lia|].
Qed.

Lemma expect_all_some l : expect_all (Some <$> l) = Ret l.
Proof. induction l as [|x l IH]; [done|]. rewrite fmap_cons. cbn [expect_all]. by rewrite IH. Qed.

(** Inverting the order and placing every node at its position gives the order
    back. *)
Lemma reorder_nodes n order :
  order ≡ₚ seq 0 n →
  (pos ← set_positions 0 order (replicate n 0);
   slots ← place_nodes 0 n pos (replicate n None);
   expect_all slots) = Ret order.
Proof.
  intros Hp. assert (NoDup order) as Hnd by (rewrite Hp; apply NoDup_seq).
  assert (length order = n) as Hlen by (rewrite Hp; apply length_seq).
  assert (∀ u, u ∈ order ↔ u < n) as Hin by (intros u; rewrite Hp, elem_of_seq; lia).
  destruct (set_positions_spec 0 order (replicate n 0) Hnd) as (pos & -> & Hpl & Hpos & _).
  { apply Forall_forall. intros u Hu%Hin. by rewrite length_replicate. }
  rewrite mbind_ret.
  assert (∀ j, j < n → ∃ k, order !! k = Some j ∧ pos !! j = Some k) as Hof.
  { intros j [k Hk]%Hin%list_elem_of_lookup. exists k. split; [done|]. by apply Hpos. }
  destruct (place_nodes_spec 0 n pos (replicate n None)) as (slots & -> & Hsl & Hplace & _).
  { intros j Hj. destruct (Hof j) as (k & Hk & Hjk); [lia|]. exists k. split; [done|].
    rewrite length_replicate. apply lookup_lt_Some in Hk. lia. }
  { intros j j' p Hj Hj' E E'. destruct (Hof j) as (k & Hk & Hjk); [lia|].
    destruct (Hof j') as (k' & Hk' & Hjk'); [lia|]. congruence. }
  rewrite mbind_ret. assert (slots = Some <$> order) as ->; [|apply expect_all_some].
  rewrite length_replicate in Hsl. apply list_eq_same_length with n; [by rewrite length_fmap|done|].
  intros k x y Hk Hx Hy. destruct (lookup_lt_is_Some_2 order k) as [u Hu]; [lia|].
  rewrite list_lookup_fmap, Hu in Hy. simpl in Hy. rewrite (Hplace u k) in Hx; [congruence| |].
  - assert (u < n); [|lia]. apply Hin. by eapply list_elem_of_lookup_2.
  - by apply Hpos.
Qed.

End reorder.

(** *** The run *)

Definition spawned_node (e : walk_event) : option nat :=
  match e with Spawn u _ _ _ => Some u | _ => None end.
(** The jobs (or tasks) a spawn step starts. *)
Definition spawned_jobs (e : walk_event) : option Z :=
  match e with Spawn _ w _ _ => Some w | Connect _ _ => None end.
Definition connected_edge (e : walk_event) : option (nat * Z) :=
  match e with Connect k b => Some (k, b) | _ => None end.

Lemma expected_spawned config pin_at w_at es don order :
  omap spawned_node (expected config pin_at w_at es don order) = order.
Proof.
  revert don. induction order as [|u order IH]; intros don; [done|]. cbn [expected].
  rewrite omap_app. simpl. rewrite IH.
  assert (∀ l : list OutEdge, omap spawned_node ((λ e, Connect (oe_edge e) (oe_buffer e)) <$> l) = []) as ->; [|done].
  intros l. by induction l.
Qed.

Lemma expected_jobs config pin_at w_at es don order :
  omap spawned_jobs (expected config pin_at w_at es don order) = w_at <$> order.
Proof.
  revert don. induction order as [|u order IH]; intros don; [done|]. cbn [expected].
  rewrite omap_app. simpl. rewrite IH.
  assert (∀ l : list OutEdge, omap spawned_jobs ((λ e, Connect (oe_edge e) (oe_buffer e)) <$> l) = []) as ->; [|done].
  intros l. by induction l.
Qed.

Lemma sum_permutation (l l' : list Z) : l ≡ₚ l' → foldr Z.add 0 l = foldr Z.add 0 l'.
Proof. induction 1; simpl; lia. Qed.

Lemma expected_connected config pin_at w_at es don order :
  omap connected_edge (expected config pin_at w_at es don order) =
    order ≫= (λ u, (λ q, (q.1, edge_cap config pin_at w_at q.2)) <$> leaving es u).
Proof.
  revert don. induction order as [|u order IH]; intros don; [done|]. cbn [expected].
  rewrite omap_app. simpl. rewrite IH. f_equal. generalize (leaving es u) as l.
  intros l. induction l as [|q l IHl]; [done|]. csimpl. by rewrite IHl.
Qed.

Lemma expected_node config pin_at w_at es don order k u :
  order !! k = Some u →
  Spawn u (w_at u) (arrived es (don ++ take k order) u) (fst <$> leaving es u)
    ∈ expected config pin_at w_at es don order.
Proof.
  revert don k. induction order as [|v order IH]; intros don [|k] Hk; simplify_eq/=.
  - rewrite app_nil_r. apply elem_of_app. right. left.
  - apply elem_of_app. right. right. specialize (IH (don ++ [v]) k Hk). by rewrite <- (assoc_L (++)) in IH.
Qed.

Lemma checked_sum_spec l : Forall (λ x, 0 ≤ x) l → foldr Z.add 0 l < 2 ^ 64 → checked_sum l = Ret (foldr Z.add 0 l).
Proof.
  induction 1 as [|x l Hx Hl IH]; intros Hb; [done|]. simpl in Hb.
  assert (0 ≤ foldr Z.add 0 l) by (clear -Hl; induction Hl; simpl; lia).
  cbn [checked_sum foldr]. rewrite IH by lia. by oadd.
Qed.

Definition node_pin (plan : GraphPlan) (u : nat) : option Z :=
  match nodes plan !! u with Some nd => opt_buffer (opts nd) | None => None end.
Definition worker_at (rp : RunPlan) (u : nat) : Z := default 0 (rp_workers rp !! u).

Lemma fmap_as_tab {A B} (f : A → B) (d : B) (l : list A) :
  f <$> l = (λ i, match l !! i with Some x => f x | None => d end) <$> seq 0 (length l).
Proof.
  apply list_eq_same_length with (length l); [by rewrite length_fmap, length_seq|by rewrite length_fmap|].
  intros i x y Hi Hx Hy. destruct (lookup_lt_is_Some_2 l i Hi) as [z Hz].
  rewrite lookup_tab in Hy by done. rewrite list_lookup_fmap, Hz in Hx. rewrite Hz in Hy. simpl in *. congruence.
Qed.

Lemma node_workers_bounds config share l :
  Forall node_opts_ok l → Forall (λ nd, default 1 (opt_io_concurrency (opts nd)) < 2 ^ 32) l →
  1 ≤ share < 2 ^ 32 → 1 ≤ io_concurrency config < 2 ^ 32 →
  Forall (λ w, 1 ≤ w ≤ pin_total (divided l) + 2 ^ 32) (node_workers config share <$> l) ∧
  foldr Z.add 0 (node_workers config share <$> l) ≤ pin_total (divided l) + Z.of_nat (length l) * 2 ^ 32.
Proof.
  intros Hl Hio Hs Hc. induction Hl as [|nd l (Hw & Hi & _) Hl IH]; [split; [constructor|simpl; lia]|].
  apply Forall_cons in Hio as [Hio0 Hio]. destruct (IH Hio) as [IHf IHs].
  pose proof (pin_total_nonneg _ (divided_ok _ Hl)) as Hp.
  rewrite fmap_cons, divided_cons. cbn [foldr length].
  assert (1 ≤ node_workers config share nd ∧
    node_workers config share nd + pin_total (divided l) ≤
      pin_total (if is_divided nd then nd :: divided l else divided l) + 2 ^ 32 ∧
    pin_total (divided l) ≤ pin_total (if is_divided nd then nd :: divided l else divided l)) as (H1 & H2 & H3).
  { unfold node_workers, is_divided.
    destruct (kind nd); cbn [pin_total]; try lia;
      destruct (opt_workers (opts nd)); destruct (opt_io_concurrency (opts nd)); simpl in *; lia. }
  split; [|lia]. constructor; [lia|]. eapply Forall_impl; [done|]. simpl. intros w Hw'. lia.
Qed.

(** A valid plan's order, as the walk needs it. *)
Lemma order_forward plan order :
  edges_in_range plan → order ≡ₚ seq 0 (length (nodes plan)) →
  (∀ k d u, order !! k = Some d → has_edge plan u d → ∃ j, (j < k)%nat ∧ order !! j = Some u) →
  forward (indexed 0 (edges plan)) order.
Proof.
  intros Hr Hp Ht k u q Hk Hq <-. apply indexed_elem in Hq.
  assert (NoDup order) as Hnd by (rewrite Hp; apply NoDup_seq).
  assert (down q.2 ∈ order) as [j Hj]%list_elem_of_lookup.
  { rewrite Hp, elem_of_seq. destruct (proj1 (Forall_forall _ _) Hr _ Hq). lia. }
  destruct (Ht j _ (up q.2) Hj) as (i & Hi & Hui); [unfold has_edge; by destruct q as [? []]|].
  assert (i = k) as -> by (by eapply NoDup_lookup).
  apply (list_elem_of_lookup_2 _ (j - S k)). rewrite lookup_drop. by replace (S k + (j - S k))%nat with j by lia.
Qed.

Lemma all_leaving (es : list (nat * EdgePlan)) order :
  NoDup es → NoDup order → (∀ q, q ∈ es → up q.2 ∈ order) → (order ≫= leaving es) ≡ₚ es.
Proof.
  intros Hes Hnd Hup. apply NoDup_Permutation; [|done|].
  - apply NoDup_bind; [| |done].
    + intros x1 x2 q _ _ [<- _]%list_elem_of_filter [<- _]%list_elem_of_filter. done.
    + intros x _. by apply NoDup_filter.
  - intros q. rewrite list_elem_of_bind. split; [by intros (v & [_ Hq]%list_elem_of_filter & _)|].
    intros Hq. exists (up q.2). split; [by apply list_elem_of_filter|auto].
Qed.

(** What a run that spawned everything did. *)
Record Wired (plan : GraphPlan) (config : PipelineConfig) (events : list walk_event) (rp : RunPlan)
    (total : Z) (order : list nat) : Prop := {
  wi_all : order ≡ₚ seq 0 (length (nodes plan));
  wi_topo : ∀ u d, has_edge plan u d → ∃ i j, (i < j)%nat ∧ order !! i = Some u ∧ order !! j = Some d;
  wi_spawned : omap spawned_node events = order;
  wi_node : ∀ u, (u < length (nodes plan))%nat → ∃ w inputs outputs,
    rp_workers rp !! u = Some w ∧ Spawn u w inputs outputs ∈ events ∧
    outputs = fst <$> leaving (indexed 0 (edges plan)) u ∧
    inputs ≡ₚ fst <$> entering (indexed 0 (edges plan)) u;
  wi_channels : omap connected_edge events ≡ₚ
    (λ q, (q.1, edge_cap config (node_pin plan) (worker_at rp) q.2)) <$> indexed 0 (edges plan);
  wi_total : total = foldr Z.add 0 (rp_workers rp);
  wi_jobs : foldr Z.add 0 (omap spawned_jobs events) = total;
}.

Lemma worker_table rp : rp_workers rp = worker_at rp <$> seq 0 (length (rp_workers rp)).
Proof.
  rewrite <- (list_fmap_id (rp_workers rp)) at 1. rewrite (fmap_as_tab id 0).
  apply list_fmap_ext. intros i x _. unfold worker_at. by destruct (rp_workers rp !! x).
Qed.

Lemma worker_at_lookup rp u :
  (u < length (rp_workers rp))%nat → rp_workers rp !! u = Some (worker_at rp u).
Proof. intros [w Hw]%lookup_lt_is_Some_2. unfold worker_at. by rewrite Hw. Qed.

Lemma indexed_in_range plan q :
  edges_in_range plan → q ∈ indexed 0 (edges plan) →
  (up q.2 < length (nodes plan) ∧ down q.2 < length (nodes plan))%nat.
Proof. intros Hr Hq%indexed_elem. by apply (proj1 (Forall_forall _ _) Hr). Qed.

(** The events of a walk along a topological order wire the plan. *)
Lemma expected_wired plan config rp order :
  edges_in_range plan → order ≡ₚ seq 0 (length (nodes plan)) →
  (∀ k d u, order !! k = Some d → has_edge plan u d → ∃ j, (j < k)%nat ∧ order !! j = Some u) →
  length (rp_workers rp) = length (nodes plan) →
  Wired plan config
    (expected config (node_pin plan) (worker_at rp) (indexed 0 (edges plan)) [] order)
    rp (foldr Z.add 0 (rp_workers rp)) order.
Proof.
  intros Hr Hp Ht Hl.
  assert (NoDup order) as Hnd by (rewrite Hp; apply NoDup_seq).
  assert (∀ u, u ∈ order ↔ (u < length (nodes plan))%nat) as Hin by (intros u; rewrite Hp, elem_of_seq; lia).
  split.
  - done.
  - intros u d He. assert (d ∈ order) as [j Hj]%list_elem_of_lookup.
    { apply Hin. by destruct (proj1 (Forall_forall _ _) Hr _ He). }
    destruct (Ht j d u Hj He) as (i & Hi & Hu). by exists i, j.
  - apply expected_spawned.
  - intros u Hu. assert (u ∈ order) as [k Hk]%list_elem_of_lookup by (by apply Hin).
    eexists _, _, _. split; [apply worker_at_lookup; lia|]. split; [by apply (expected_node _ _ _ _ [] order k u)|].
    split; [done|]. apply arrived_all.
    + apply indexed_nodup.
    + eapply sublist_NoDup; [exact Hnd|]. apply sublist_take.
    + intros q Hq Hd. destruct (Ht k u (up q.2) Hk) as (j & Hj & Hju).
      { unfold has_edge. apply indexed_elem in Hq. destruct q as [? []]. by simplify_eq/=. }
      apply (list_elem_of_lookup_2 _ j). rewrite app_nil_l. by rewrite lookup_take_lt.
  - rewrite expected_connected.
    transitivity ((λ q : nat * EdgePlan, (q.1, edge_cap config (node_pin plan) (worker_at rp) q.2)) <$>
                  (order ≫= leaving (indexed 0 (edges plan)))).
    + clear. induction order as [|u order IH]; [done|]. csimpl. by rewrite fmap_app, IH.
    + apply fmap_Permutation, all_leaving; [apply indexed_nodup|done|].
      intros q Hq. apply Hin. by apply (indexed_in_range plan q Hr).
  - done.
  - rewrite expected_jobs, (worker_table rp). rewrite Hl. apply sum_permutation, fmap_Permutation, Hp.
Qed.

Lemma run_graph_wired plan config pool order share rp :
  edges_in_range plan → plan_bounds plan config pool → order ≡ₚ seq 0 (length (nodes plan)) →
  (∀ k d u, order !! k = Some d → has_edge plan u d → ∃ j, (j < k)%nat ∧ order !! j = Some u) →
  rp_workers rp = node_workers config share <$> nodes plan → 1 ≤ share < 2 ^ 32 →
  ∃ t events total,
    checked_sum (rp_workers rp) = Ret total ∧
    bundle_edges config (opt_buffer ∘ opts <$> nodes plan) (rp_workers rp) 0 (edges plan)
      (replicate (length (nodes plan)) []) = Ret t ∧
    walk (rp_workers rp) order t (replicate (length (nodes plan)) []) = Ret events ∧
    Wired plan config events rp total order.
Proof.
  intros Hr Hpb Hp Ht Hw Hsh.
  assert (length (rp_workers rp) = length (nodes plan)) as Hl by (by rewrite Hw, length_fmap).
  pose proof (expected_wired plan config rp order Hr Hp Ht Hl) as Hwired.
  set (n := length (nodes plan)) in *. set (es := indexed 0 (edges plan)) in *.
  destruct (node_workers_bounds config share (nodes plan)) as [Hwb Hsum];
    [apply Hpb|apply Hpb|done|apply Hpb|]. rewrite <- Hw in Hwb, Hsum.
  pose proof (pb_pins _ _ _ Hpb) as Hpins. pose proof (pb_nodes _ _ _ Hpb) as Hnn.
  assert (∀ u, (u < n)%nat → 0 ≤ worker_at rp u < 2 ^ 62) as Hwat.
  { intros u Hu. rewrite <- Hl in Hu. apply worker_at_lookup, (Forall_lookup_1 _ _ _ _ Hwb) in Hu.
    simpl in *. lia. }
  assert (opt_buffer ∘ opts <$> nodes plan = node_pin plan <$> seq 0 n) as Hpin by (apply (fmap_as_tab _ None)).
  rewrite checked_sum_spec; [|by eapply Forall_impl; [done|]; simpl; lia|lia].
  rewrite Hpin, (worker_table rp), Hl.
  replace (replicate n (@nil OutEdge)) with
    ((λ u, to_out config (node_pin plan) (worker_at rp) <$> leaving [] u) <$> seq 0 n) by (symmetry; apply list_fmap_const_seq).
  rewrite bundle_edges_spec; [|done|by eapply Forall_impl; [exact Hr|]; simpl; intros e []].
  replace (replicate n (@nil nat)) with ((λ _ : nat, @nil nat) <$> seq 0 n) by (symmetry; apply list_fmap_const_seq).
  rewrite app_nil_l. fold es. eexists _, _, _. split; [done|]. split; [done|]. split.
  { apply (walk_spec config n (node_pin plan) (worker_at rp) es
      (λ q, indexed_in_range plan q Hr) [] order); try done.
    - rewrite Hp. apply NoDup_seq.
    - apply Forall_forall. intros u. rewrite Hp, elem_of_seq. lia.
    - by apply order_forward. }
  rewrite <- Hl, <- worker_table. done.
Qed.

(** ** Claims *)

(** C12: running a graph whose edges name its nodes: a plan that validation
    rejects panics before anything is spawned; a valid plan is walked with no
    panic, no overflow and no missing slot — every node spawns exactly once and
    after all its upstream nodes, with its resolved worker count, with exactly
    the senders of its out-edges in registration order and exactly the
    receivers of its in-edges; every edge gets exactly one channel, of the
    upstream node's pinned capacity or the configured one floored at four slots
    per producer; the completion counter starts at exactly the number of jobs and
    tasks the spawn steps start.  The run is one whose collect sinks are all
    collected and whose async backend, when it needs one, could be built
    ([run_graph ... false true]). *)
Theorem run_graph_wires plan config pool :
  edges_in_range plan → plan_bounds plan config pool → nodes plan ≠ [] →
  (Valid plan → ∃ events rp total order,
     run_graph plan config pool false true = Ret (Ran events rp total) ∧
     resolve_budget plan config pool = Ret rp ∧
     Wired plan config events rp total order) ∧
  (¬ Valid plan → ∀ uncollected backend_ok, run_graph plan config pool uncollected backend_ok = Panic).
Proof.
  intros Hr Hpb Hne. unfold run_graph. destruct (validate_returns plan Hr) as (v & -> & Hv).
  rewrite mbind_ret. destruct v as [er|order]; [by split|]. destruct Hv as (HV & Hp & Ht).
  split; [|done]. intros _. cbn [negb guard_panic]. rewrite mbind_ret.
  rewrite bool_decide_eq_false_2 by (by intros ?%nil_length_inv).
  destruct (resolve_budget_spec plan config pool Hpb) as (rp & share & -> & Hw & Hsh & _).
  rewrite mbind_ret. rewrite andb_false_r.
  destruct (run_graph_wired plan config pool order share rp Hr Hpb Hp Ht Hw Hsh)
    as (t & events & total & -> & Hb & Hwalk & Hwired).
  rewrite mbind_ret, Hb, mbind_ret.
  revert Hp. intros Hre%reorder_nodes. revert Hre.
  destruct (set_positions 0 order (replicate (length (nodes plan)) 0%nat)) as [pos| | |]; try done.
  rewrite !mbind_ret.
  destruct (place_nodes 0 (length (nodes plan)) pos (replicate (length (nodes plan)) None)) as [slots| | |]; try done.
  rewrite !mbind_ret. intros ->. rewrite mbind_ret, Hwalk, mbind_ret.
  by exists events, rp, total, order.
Qed.

(** The graph engine's admission: the arithmetic never overflows; worker
    counts are at least one, pins are used verbatim and all other sync nodes get
    the same share; in pool mode the lease is exactly the number of jobs that
    park on a pool thread (feeders, sync workers and sinks) and fits the pool,
    so that all of them are schedulable at once; and where the reservation
    answers by the observed use, the run is admitted to the pool exactly when it
    is not on one of the pool's workers and one worker per unpinned node fits. *)
Theorem graph_budget_covers plan config pool :
  plan_bounds plan config pool →
  ∃ rp share, resolve_budget plan config pool = Ret rp ∧ 1 ≤ share ∧
    Forall2 (λ nd w, 1 ≤ w ∧ (is_divided nd = true → w = default share (opt_workers (opts nd))))
      (nodes plan) (rp_workers rp) ∧
    (rp_dedicated rp = true → rp_lease rp = None) ∧
    (rp_dedicated rp = false →
       on_this_pool pool = false ∧
       ∃ need, rp_lease rp = Some need ∧ need = parking_jobs (nodes plan) (rp_workers rp) ∧
         need ≤ pool_threads pool ∧ try_reserve_parking pool need = true) ∧
    ((∀ need, try_reserve_parking pool need = bool_decide (parking_used pool + need ≤ pool_threads pool)) →
     (rp_dedicated rp = false ↔
      on_this_pool pool = false ∧ parking_used pool + least_need (nodes plan) ≤ pool_threads pool)).
Proof.
  intros Hpb. destruct (resolve_budget_spec plan config pool Hpb) as (rp & share & Hrun & Hw & Hsh & Hd).
  exists rp, share. pose proof (pb_used _ _ _ Hpb) as Hu. split_and!; [done|lia| | | |].
  - destruct Hpb as [Hok _ _ _ Hio _ _ _]. rewrite Hw. apply Forall2_fmap_r, Forall_Forall2_diag.
    apply (Forall_impl _ _ _ Hok). intros nd Hnd. apply node_workers_ok; [done|lia|lia].
  - intros E. rewrite E in Hd. by destruct Hd.
  - intros E. rewrite E in Hd. destruct Hd as (Hon & need & ? & ? & ? & ?). split; [done|]. exists need. auto with lia.
  - intros Hres. destruct (rp_dedicated rp).
    + split; [done|]. intros [Hon Hfit]. destruct Hd as (_ & [?|(need & Hno & Hadm)]); [congruence|].
      specialize (Hadm Hfit). rewrite Hres, bool_decide_eq_false in Hno. lia.
    + split; [|done]. intros _. destruct Hd as (Hon & need & _ & _ & Hle & Hyes).
      rewrite Hres, bool_decide_eq_true in Hyes. split; [done|lia].
Qed.

(** A source feeding a pinned node and an expansion that merge in a sink; the
    sink's second in-edge is registered first. *)
Definition merge_plan : GraphPlan :=
  mkPlan [mkNode "src" Source Broadcast default_opts;
          mkNode "a" Sync Move (mkOpts (Some 2) (Some 7) None);
          mkNode "b" Expand Move default_opts;
          mkNode "sink" Sink Move default_opts]
         [mkEdge 2 3; mkEdge 0 1; mkEdge 1 3; mkEdge 0 2].

Definition merge_pool : pool_view := mkPool 8 false 1 (λ need, bool_decide (1 + need ≤ 8)).

Lemma merge_bounds : plan_bounds merge_plan (default_config 4) merge_pool.
Proof.
  split.
  - repeat constructor; simpl; lia.
  - reflexivity.
  - reflexivity.
  - split; [done|reflexivity].
  - split; [done|reflexivity].
  - repeat constructor.
  - done.
  - done.
Qed.

(** The sink of [merge_plan] gets its receivers in the order its upstream nodes
    are walked, not in the order its in-edges were registered. *)
Lemma merge_inputs_walk_order :
  run_graph merge_plan (default_config 4) merge_pool false true =
    Ret (Ran [Connect 1 256; Connect 3 256; Spawn 0 1 [] [1; 3]%nat;
              Connect 2 7; Spawn 1 2 [1]%nat [2]%nat;
              Connect 0 256; Spawn 2 3 [3]%nat [0]%nat;
              Spawn 3 1 [2; 0]%nat []]
           (mkRunPlan false (Some 7) [1; 2; 3; 1]) 7) ∧
  fst <$> entering (indexed 0 (edges merge_plan)) 3 = [0; 2]%nat.
Proof. split; vm_compute; reflexivity. Qed.

Lemma merge_in_range : edges_in_range merge_plan.
Proof. unfold edges_in_range. repeat constructor; simpl; lia. Qed.

Lemma run_graph_wires_witness :
  ∃ events rp total order,
    run_graph merge_plan (default_config 4) merge_pool false true = Ret (Ran events rp total) ∧
    resolve_budget merge_plan (default_config 4) merge_pool = Ret rp ∧
    Wired merge_plan (default_config 4) events rp total order.
Proof.
  apply (run_graph_wires merge_plan (default_config 4) merge_pool merge_in_range merge_bounds); [done|].
  destruct (validate_returns merge_plan merge_in_range) as (v & Hv & H).
  assert (validate_and_order merge_plan = Ret (inr [0; 1; 2; 3]%nat)) as E by (vm_compute; reflexivity).
  rewrite E in Hv. injection Hv as <-. exact (proj1 H).
Defined.

Lemma graph_budget_covers_witness :
  ∃ rp share, resolve_budget merge_plan (default_config 4) merge_pool = Ret rp ∧ 1 ≤ share ∧
    rp_dedicated rp = false.
Proof.
  destruct (graph_budget_covers merge_plan (default_config 4) merge_pool merge_bounds)
    as (rp & share & Hrun & Hsh & _ & _ & _ & Hadm).
  exists rp, share. split; [exact Hrun|]. split; [exact Hsh|].
  apply Hadm; [done|]. split; [done|]. vm_compute. congruence.
Defined.
