(* ===== verification/Completion.v ===== *)
(** * Completion: waiting for a run and re-raising its first panic

    Model of the two ways a run's caller learns that all its threads are done:

    - [Done]: the graph engine's [DoneCounter], the job wrapper of
      [GraphCore::dispatch_jobs] and [spawn_task] / [CatchPanic]
      ([crates/youpipe/src/graph/exec.rs], [async_exec.rs]), and the end of
      [run_graph];
    - [Settle]: the streaming engine's [TaskSettleGate] with [CatchTaskPanic]
      and the end of [drain_terminal]
      ([crates/youpipe/src/builder/typed/stream.rs]);

    both with the shared first-wins slot ([record_panic],
    [resume_stored_panic]).  The machines step at every atomic access and every
    critical section; a condition variable may wake spuriously.  [panics] is a
    history variable: the payloads in the order they were recorded. *)

From S2P Require Import Prelude.
Local Open Scope Z_scope.

(** ** The panic slot *)

(** First writer wins. *)
Definition record_panic {P} (slot : option P) (payload : P) : option P :=
  match slot with
  | None => Some payload
  | Some q => Some q
  end.

(** [resume_stored_panic]: takes the payload; [Some] is re-raised. *)
Definition resume_stored_panic {P} (slot : option P) : option P * option P := (None, slot).

Lemma record_head {P} (l : list P) p : record_panic (head l) p = head (l ++ [p]).
Proof. by destruct l. Qed.

(** ** Counting threads *)

Definition count_if {A} (f : A → bool) (l : list A) : Z :=
  foldr (λ x n, (if f x then 1 else 0) + n) 0 l.

Lemma count_insert {A} (f : A → bool) l i x y :
  l !! i = Some x →
  count_if f (<[i := y]> l) = count_if f l + (if f y then 1 else 0) - (if f x then 1 else 0).
Proof.
  revert i. induction l as [|z l IH]; intros [|i] E; simplify_eq/=; [lia|]. rewrite (IH i E). lia.
Qed.

Lemma count_if_nonneg {A} (f : A → bool) l : 0 ≤ count_if f l.
Proof. induction l as [|x l IH]; simpl; [done|]. destruct (f x); lia. Qed.

Lemma count_pos {A} (f : A → bool) l : 0 < count_if f l ↔ ∃ i x, l !! i = Some x ∧ f x = true.
Proof.
  induction l as [|y l IH]; simpl; [split; [done|by intros (i & x & ? & _)]|].
  pose proof (count_if_nonneg f l). destruct (f y) eqn:E.
  - split; [|lia]. intros _. by exists 0%nat, y.
  - rewrite Z.add_0_l, IH. split.
    + intros (i & x & ? & ?). by exists (S i), x.
    + intros ([|i] & x & Hi & Hx); simplify_eq/=; [congruence|]. by exists i, x.
Qed.

Lemma count_zero {A} (f : A → bool) l : count_if f l = 0 ↔ ∀ i x, l !! i = Some x → f x = false.
Proof.
  pose proof (count_if_nonneg f l). pose proof (count_pos f l) as Hp. split.
  - intros E i x Hi. destruct (f x) eqn:Ef; [|done]. assert (0 < count_if f l) by (apply Hp; eauto). lia.
  - intros Hall. destruct (decide (0 < count_if f l)) as [Hpos|]; [|lia].
    apply Hp in Hpos as (i & x & Hi & Hx). rewrite (Hall i x Hi) in Hx. done.
Qed.

Lemma count_replicate {A} (f : A → bool) n x : count_if f (replicate n x) = if f x then Z.of_nat n else 0.
Proof. induction n as [|n IH]; simpl; [by destruct (f x)|]. rewrite IH. destruct (f x); lia. Qed.

(** ** The graph engine's completion counter *)

Module Done.

(** A dispatched job: running the body, recording its panic, cancelling, about
    to decrement, done. *)
Inductive job (P : Type) : Type :=
  | Running
  | Recording (payload : P)
  | Cancelling
  | Decrementing
  | Finished.
Arguments Running {P}.
Arguments Recording {P} payload.
Arguments Cancelling {P}.
Arguments Decrementing {P}.
Arguments Finished {P}.

(** The caller in [DoneCounter::wait], then in [resume_stored_panic]. *)
Inductive waiter (P : Type) : Type :=
  | Checking
  | Parked
  | Reading
  | Returned (raised : option P).
Arguments Checking {P}.
Arguments Parked {P}.
Arguments Reading {P}.
Arguments Returned {P} raised.

Record state (P : Type) : Type := mkState {
  remaining : Z;
  slot : option P;
  cancelled : bool;
  jobs : list (job P);
  main : waiter P;
  panics : list P;
}.
Arguments mkState {P}.
Arguments remaining {P} s.
Arguments slot {P} s.
Arguments cancelled {P} s.
Arguments jobs {P} s.
Arguments main {P} s.
Arguments panics {P} s.

Section machine.
Context {P : Type}.
Implicit Types (s : state P).

(** [DoneCounter::new]. *)
Definition init (total : nat) : state P := mkState (Z.of_nat total) None false (replicate total Running) Checking [].

Definition set_job s i j : state P :=
  mkState (remaining s) (slot s) (cancelled s) (<[i := j]> (jobs s)) (main s) (panics s).
Definition set_main s m : state P :=
  mkState (remaining s) (slot s) (cancelled s) (jobs s) m (panics s).

(** [DoneCounter::dec]: the critical section, with its [notify_all]. *)
Definition dec s i : state P :=
  let n := Z.max 0 (remaining s - 1) in
  mkState n (slot s) (cancelled s) (<[i := Finished]> (jobs s))
    (if bool_decide (n = 0) then match main s with Parked => Checking | m => m end else main s)
    (panics s).

(** One turn of [DoneCounter::wait]: the check and, under the same lock, the
    park. *)
Definition check s : state P :=
  set_main s (if bool_decide (0 < remaining s) then Parked else Reading).

Definition read s : state P :=
  let '(slot', r) := resume_stored_panic (slot s) in
  mkState (remaining s) slot' (cancelled s) (jobs s) (Returned r) (panics s).

(** [spurious]: whether the condition variable may wake without a notification. *)
Inductive step (spurious : bool) : state P → state P → Prop :=
  | step_return s i : jobs s !! i = Some Running → step spurious s (set_job s i Decrementing)
  | step_panic s i p : jobs s !! i = Some Running → step spurious s (set_job s i (Recording p))
  | step_record s i p : jobs s !! i = Some (Recording p) →
      step spurious s (mkState (remaining s) (record_panic (slot s) p) (cancelled s) (<[i := Cancelling]> (jobs s))
                (main s) (panics s ++ [p]))
  | step_cancel s i : jobs s !! i = Some Cancelling →
      step spurious s (mkState (remaining s) (slot s) true (<[i := Decrementing]> (jobs s)) (main s) (panics s))
  | step_dec s i : jobs s !! i = Some Decrementing → step spurious s (dec s i)
  | step_check s : main s = Checking → step spurious s (check s)
  | step_spurious s : spurious = true → main s = Parked → step spurious s (set_main s Checking)
  | step_read s : main s = Reading → step spurious s (read s).

Definition busy (j : job P) : bool := match j with Finished => false | _ => true end.
Definition past (m : waiter P) : Prop := match m with Reading | Returned _ => True | _ => False end.
Definition unread (m : waiter P) : Prop := match m with Returned _ => False | _ => True end.

Record Inv s : Prop := {
  inv_count : remaining s = count_if busy (jobs s);
  inv_parked : main s = Parked → 0 < remaining s;
  inv_past : past (main s) → remaining s = 0;
  inv_slot : unread (main s) → slot s = head (panics s);
  inv_returned : ∀ r, main s = Returned r → r = head (panics s);
}.

Lemma done_inv_init n : Inv (init n).
Proof. split; simpl; try done. by rewrite count_replicate. Qed.

Lemma done_inv_step b s s' : Inv s → step b s s' → Inv s'.
Proof.
  intros [Hc Hp Ha Hs Hr] Hst.
  assert (∀ i j j', jobs s !! i = Some j → busy j = true → busy j' = true →
    count_if busy (<[i := j']> (jobs s)) = remaining s) as Hkeep.
  { intros i j j' Hi Hj Hj'. rewrite (count_insert _ _ _ _ _ Hi), Hj, Hj', Hc. lia. }
  assert (∀ i j, jobs s !! i = Some j → busy j = true → ¬ past (main s)) as Hbusy.
  { intros i j Hi Hj Hpast. specialize (Ha Hpast). rewrite Hc, count_zero in Ha.
    specialize (Ha i j Hi). congruence. }
  destruct Hst as [s i Hi|s i p Hi|s i p Hi|s i Hi|s i Hi|s Hm|s _ Hm|s Hm]; simpl.
  - split; simpl; try done. by rewrite (Hkeep i Running).
  - split; simpl; try done. by rewrite (Hkeep i Running).
  - specialize (Hbusy i _ Hi eq_refl). split; simpl; try done; [by rewrite (Hkeep i (Recording p))| |].
    + intros Hu. rewrite (Hs Hu). apply record_head.
    + intros r Hr'. rewrite Hr' in Hbusy. by destruct Hbusy.
  - split; simpl; try done. by rewrite (Hkeep i Cancelling).
  - specialize (Hbusy i _ Hi eq_refl).
    assert (count_if busy (<[i := Finished]> (jobs s)) = remaining s - 1) as Hdec.
    { rewrite (count_insert _ _ _ _ _ Hi), Hc. simpl. lia. }
    pose proof (count_if_nonneg busy (<[i := Finished]> (jobs s))) as Hnn. rewrite Hdec in Hnn.
    unfold dec. rewrite Z.max_r by lia. split; simpl.
    + done.
    + case_bool_decide; destruct (main s); try done; lia.
    + case_bool_decide; destruct (main s); done.
    + case_bool_decide; destruct (main s); auto; by apply Hs.
    + case_bool_decide; destruct (main s); try done; by apply Hr.
  - unfold check. split; simpl; try done.
    + case_bool_decide; done.
    + case_bool_decide; [done|]. pose proof (count_if_nonneg busy (jobs s)). lia.
    + rewrite Hm in Hs. intros _. by apply Hs.
    + by case_bool_decide.
  - split; simpl; try done. rewrite Hm in Hs. intros _. by apply Hs.
  - rewrite Hm in Hs, Ha. split; simpl; [done|done|by intros _; apply Ha|done|]. intros r [= <-]. by apply Hs.
Qed.

Lemma done_inv_reachable b n s : rtc (step b) (init n) s → Inv s.
Proof. intros Hr. eapply (rtc_ind_r Inv); [apply done_inv_init|intros; by eapply done_inv_step|exact Hr]. Qed.

(** *** Progress *)

(** Steps left to a job. *)
Definition weight (j : job P) : nat :=
  match j with Running => 4 | Recording _ => 3 | Cancelling => 2 | Decrementing => 1 | Finished => 0 end.
Definition work s : nat := sum_list (weight <$> jobs s).

Lemma done_work_insert s i j j' :
  jobs s !! i = Some j → (weight j' < weight j)%nat →
  (sum_list (weight <$> <[i := j']> (jobs s)) < work s)%nat.
Proof.
  unfold work. generalize (jobs s) as l. intros l. revert i.
  induction l as [|x l IH]; intros [|i] E Hw; simplify_eq/=; [lia|]. specialize (IH i E Hw). lia.
Qed.

Lemma busy_steps s i j : jobs s !! i = Some j → busy j = true → ∃ s', step false s s' ∧ (work s' < work s)%nat.
Proof.
  intros Hi Hb. destruct j as [|p| | |]; simpl in Hb; try done;
    (eexists; split; [by econstructor|]); by eapply done_work_insert; [exact Hi|simpl; lia].
Qed.

(** All jobs can run to completion. *)
Lemma finish_jobs s : ∃ s', rtc (step false) s s' ∧ count_if busy (jobs s') = 0.
Proof.
  remember (work s) as w eqn:Hw. revert s Hw. induction (lt_wf w) as [w _ IH]. intros s ->.
  destruct (decide (count_if busy (jobs s) = 0)) as [E|E]; [by exists s|].
  pose proof (count_if_nonneg busy (jobs s)) as Hnn.
  assert (0 < count_if busy (jobs s)) as (i & j & Hi & Hj)%count_pos by lia.
  destruct (busy_steps s i j Hi Hj) as (s1 & Hs1 & Hlt).
  destruct (IH _ Hlt s1 eq_refl) as (s' & Hs' & E'). exists s'. split; [by eapply rtc_l|done].
Qed.

(** Once no job is busy the caller returns. *)
Lemma main_returns s : Inv s → count_if busy (jobs s) = 0 → ∃ s' r, rtc (step false) s s' ∧ main s' = Returned r.
Proof.
  intros [Hc Hp _ _ _] E.
  assert (∀ s1, main s1 = Reading → ∃ s' r, rtc (step false) s1 s' ∧ main s' = Returned r) as Hread.
  { intros s1 Hm. exists (read s1), (slot s1). split; [by apply rtc_once, step_read|done]. }
  destruct (main s) as [| | |r] eqn:Hm.
  - destruct (Hread (check s)) as (s' & r & Hs' & Hr).
    { unfold check. simpl. rewrite bool_decide_eq_false_2 by lia. done. }
    exists s', r. split; [|done]. eapply rtc_l; [by apply step_check|done].
  - specialize (Hp eq_refl). lia.
  - by apply Hread.
  - by exists s, r.
Qed.

End machine.
End Done.

(** ** The streaming engine's settle gate *)

Module Settle.

(** An async task under [CatchTaskPanic]: not yet polled, in its polls, its
    final poll over, unwound with its sender gone but the payload not yet
    caught, the last one to settle and about to notify, settled. *)
Inductive task (P : Type) : Type :=
  | Fresh
  | Polled
  | Ended
  | Unwound (payload : P)
  | Notifying
  | Settled.
Arguments Fresh {P}.
Arguments Polled {P}.
Arguments Ended {P}.
Arguments Unwound {P} payload.
Arguments Notifying {P}.
Arguments Settled {P}.

(** The terminal drain: waiting for end of stream, then in [wait_settled] (the
    load before the lock, wanting the lock, holding it before the check,
    holding it and about to park, parked), then reading the slot.  The
    argument of [Reading] is the answer of [wait_settled]. *)
Inductive drain (P : Type) : Type :=
  | Draining
  | FirstLoad
  | Locking
  | Holding
  | Parking
  | Parked
  | Reading (settled : bool)
  | Returned (settled : bool) (raised : option P).
Arguments Draining {P}.
Arguments FirstLoad {P}.
Arguments Locking {P}.
Arguments Holding {P}.
Arguments Parking {P}.
Arguments Parked {P}.
Arguments Reading {P} settled.
Arguments Returned {P} settled raised.

Record state (P : Type) : Type := mkState {
  outstanding : Z;
  slot : option P;
  tasks : list (task P);
  main : drain P;
  panics : list P;
}.
Arguments mkState {P}.
Arguments outstanding {P} s.
Arguments slot {P} s.
Arguments tasks {P} s.
Arguments main {P} s.
Arguments panics {P} s.

Section machine.
Context {P : Type}.
Implicit Types (s : state P).

Definition init (n : nat) : state P := mkState 0 None (replicate n Fresh) Draining [].

Definition set_task s i t : state P := mkState (outstanding s) (slot s) (<[i := t]> (tasks s)) (main s) (panics s).
Definition set_main s m : state P := mkState (outstanding s) (slot s) (tasks s) m (panics s).

(** The task's sender is alive until its final poll ends or unwinds. *)
Definition holds_sender (t : task P) : bool := match t with Fresh | Polled => true | _ => false end.

Definition holds_lock (m : drain P) : bool := match m with Holding | Parking => true | _ => false end.

(** [task_started]. *)
Definition task_started s i : state P :=
  mkState (wrapping_add 64 (outstanding s) 1) (slot s) (<[i := Polled]> (tasks s)) (main s) (panics s).

(** [task_settled], up to the lock. *)
Definition task_settled s i : state P :=
  mkState (wrapping_sub 64 (outstanding s) 1) (slot s)
    (<[i := if bool_decide (outstanding s = 1) then Notifying else Settled]> (tasks s)) (main s) (panics s).

Definition notify_all s i : state P :=
  mkState (outstanding s) (slot s) (<[i := Settled]> (tasks s))
    (match main s with Parked => Locking | m => m end) (panics s).

(** One load of [wait_settled]. *)
Definition load s (otherwise : drain P) : state P :=
  set_main s (if bool_decide (outstanding s = 0) then Reading true else otherwise).

Definition read s (settled : bool) : state P :=
  let '(slot', r) := resume_stored_panic (slot s) in
  mkState (outstanding s) slot' (tasks s) (Returned settled r) (panics s).

(** [ext]: whether the deadline may pass and the condition variable may wake
    without a notification. *)
Inductive step (ext : bool) : state P → state P → Prop :=
  | step_start s i : tasks s !! i = Some Fresh → step ext s (task_started s i)
  | step_finish s i : tasks s !! i = Some Polled → step ext s (set_task s i Ended)
  | step_unwind s i p : tasks s !! i = Some Polled → step ext s (set_task s i (Unwound p))
  | step_record s i p : tasks s !! i = Some (Unwound p) →
      step ext s (mkState (outstanding s) (record_panic (slot s) p) (<[i := Ended]> (tasks s))
                         (main s) (panics s ++ [p]))
  | step_settle s i : tasks s !! i = Some Ended → step ext s (task_settled s i)
  | step_notify s i : tasks s !! i = Some Notifying → holds_lock (main s) = false →
      step ext s (notify_all s i)
  | step_eof s : main s = Draining → count_if holds_sender (tasks s) = 0 → step ext s (set_main s FirstLoad)
  | step_first s : main s = FirstLoad → step ext s (load s Locking)
  | step_lock s : main s = Locking → step ext s (set_main s Holding)
  | step_check s : main s = Holding → step ext s (load s Parking)
  | step_deadline s : ext = true → main s = Parking → step ext s (set_main s (Reading false))
  | step_park s : main s = Parking → step ext s (set_main s Parked)
  | step_wake s : ext = true → main s = Parked → step ext s (set_main s Locking)
  | step_read s b : main s = Reading b → step ext s (read s b).

(** Tasks the gate counts. *)
Definition counted (t : task P) : bool := match t with Polled | Ended | Unwound _ => true | _ => false end.
Definition notifying (t : task P) : bool := match t with Notifying => true | _ => false end.
Definition at_eof (m : drain P) : Prop := match m with Draining => False | _ => True end.
Definition waited (m : drain P) : Prop := match m with Reading true | Returned true _ => True | _ => False end.
Definition unread (m : drain P) : Prop := match m with Returned _ _ => False | _ => True end.

Record Inv s : Prop := {
  inv_small : Z.of_nat (length (tasks s)) < 2 ^ 64;
  inv_count : outstanding s = count_if counted (tasks s);
  inv_eof : at_eof (main s) → count_if holds_sender (tasks s) = 0;
  inv_waited : waited (main s) → outstanding s = 0;
  inv_parked : main s = Parked ∨ main s = Parking → 0 < outstanding s ∨ 0 < count_if notifying (tasks s);
  inv_slot : unread (main s) → slot s = head (panics s);
  inv_returned : ∀ r, main s = Returned true r → r = head (panics s);
}.

Lemma count_if_le_length {A} (f : A → bool) l : count_if f l ≤ Z.of_nat (length l).
Proof. induction l as [|x l IH]; simpl; [done|]. destruct (f x); lia. Qed.

Lemma settle_inv_init n : Z.of_nat n < 2 ^ 64 → Inv (init n).
Proof.
  intros Hn. split; simpl; try done; [by rewrite length_replicate|by rewrite count_replicate|].
  by intros [?|?].
Qed.

(** A task's step changes the counts by its own two states. *)
Lemma count_step (f : task P → bool) s i t t' :
  tasks s !! i = Some t → f t = f t' → count_if f (<[i := t']> (tasks s)) = count_if f (tasks s).
Proof. intros Hi Hf. rewrite (count_insert _ _ _ _ _ Hi), Hf. lia. Qed.

Lemma eof_no_sender s i t : Inv s → at_eof (main s) → tasks s !! i = Some t → holds_sender t = false.
Proof. intros HI Hm Hi. apply (inv_eof _ HI) in Hm. by apply (proj1 (count_zero _ _) Hm i t). Qed.

Lemma waited_no_counted s i t : Inv s → waited (main s) → tasks s !! i = Some t → counted t = false.
Proof.
  intros HI Hm Hi. apply (inv_waited _ HI) in Hm. rewrite (inv_count _ HI) in Hm.
  by apply (proj1 (count_zero _ _) Hm i t).
Qed.

(** Steps of the tasks up to the settling decrement. *)
Lemma inv_task s i t t' (slot' : option P) (panics' : list P) (d : Z) :
  Inv s → tasks s !! i = Some t →
  outstanding s + d = count_if counted (<[i := t']> (tasks s)) →
  (holds_sender t = false → holds_sender t' = false) → (counted t = true ∨ holds_sender t = true) →
  (0 < outstanding s + d ∨ 0 < count_if notifying (<[i := t']> (tasks s))) →
  (slot s = head (panics s) → slot' = head panics') →
  Inv (mkState (outstanding s + d) slot' (<[i := t']> (tasks s)) (main s) panics').
Proof.
  intros HI Hi Hd Hs Ht Hw Hsl. split; simpl.
  - rewrite length_insert. apply HI.
  - done.
  - intros Hm. pose proof (eof_no_sender s i t HI Hm Hi) as Hh. specialize (Hs Hh).
    rewrite (count_insert _ _ _ _ _ Hi), Hh, Hs, (inv_eof _ HI Hm). done.
  - intros Hm. exfalso. pose proof (waited_no_counted s i t HI Hm Hi).
    destruct Ht as [?|Ht]; [congruence|]. assert (at_eof (main s)) as He by (by destruct (main s)).
    pose proof (eof_no_sender s i t HI He Hi). congruence.
  - done.
  - intros Hm. apply Hsl, HI, Hm.
  - intros r Hm. exfalso. assert (waited (main s)) as Hwt by (by rewrite Hm).
    pose proof (waited_no_counted s i t HI Hwt Hi). destruct Ht as [?|Ht]; [congruence|].
    assert (at_eof (main s)) as He by (by destruct (main s)).
    pose proof (eof_no_sender s i t HI He Hi). congruence.
Qed.

(** Steps of the drain. *)
Lemma inv_main s m :
  Inv s → (at_eof m → count_if holds_sender (tasks s) = 0) → (waited m → outstanding s = 0) →
  (m = Parked ∨ m = Parking → 0 < outstanding s ∨ 0 < count_if notifying (tasks s)) →
  unread m → unread (main s) → Inv (set_main s m).
Proof.
  intros HI He Hw Hp Hu Hu'. split; simpl; try done; [apply HI|apply HI|intros _; by apply HI|].
  intros r ->. done.
Qed.

Lemma outstanding_bounds s i t : Inv s → tasks s !! i = Some t →
  0 ≤ outstanding s ∧ (counted t = true → 0 < outstanding s) ∧ (counted t = false → outstanding s + 1 < 2 ^ 64).
Proof.
  intros HI Hi. rewrite (inv_count _ HI). split_and!; [apply count_if_nonneg|intros Hc; apply count_pos; eauto|].
  intros Hc. pose proof (inv_small _ HI) as Hl.
  pose proof (count_insert counted _ i t Polled Hi) as E. rewrite Hc in E. simpl in E.
  pose proof (count_if_le_length counted (<[i := Polled]> (tasks s))) as Hle. rewrite length_insert in Hle. lia.
Qed.

Lemma inv_step_task s i t t' slot' panics' :
  Inv s → tasks s !! i = Some t → counted t = true → counted t' = true → holds_sender t' = false →
  (slot s = head (panics s) → slot' = head panics') →
  Inv (mkState (outstanding s) slot' (<[i := t']> (tasks s)) (main s) panics').
Proof.
  intros HI Hi Ht Ht' Hh Hs. destruct (outstanding_bounds s i t HI Hi) as (_ & Hpos & _).
  specialize (Hpos Ht). rewrite <- (Z.add_0_r (outstanding s)).
  apply (inv_task s i t t' slot' panics' 0); auto with lia.
  rewrite (count_step counted s i t t' Hi) by congruence. rewrite (inv_count _ HI). lia.
Qed.

Lemma inv_settle s i : Inv s → tasks s !! i = Some Ended → Inv (task_settled s i).
Proof.
  intros HI Hi. destruct (outstanding_bounds s i _ HI Hi) as (H0 & Hpos & _). specialize (Hpos eq_refl).
  assert (outstanding s < 2 ^ 64) as Hlt.
  { rewrite (inv_count _ HI). pose proof (count_if_le_length counted (tasks s)). pose proof (inv_small _ HI). lia. }
  unfold task_settled, wrapping_sub. rewrite wrap_small by (split; lia).
  apply (inv_task s i Ended _ (slot s) (panics s) (-1)); auto; [| |].
  - rewrite (count_insert counted _ _ _ _ Hi), (inv_count _ HI). case_bool_decide; simpl; lia.
  - by case_bool_decide.
  - rewrite (count_insert notifying _ _ _ _ Hi). pose proof (count_if_nonneg notifying (tasks s)). case_bool_decide; simpl; lia.
Qed.

Lemma inv_notify s i :
  Inv s → tasks s !! i = Some Notifying → holds_lock (main s) = false → Inv (notify_all s i).
Proof.
  intros HI Hi Hl. unfold notify_all.
  assert (at_eof (match main s with Parked => Locking | m => m end) → at_eof (main s)) as He by (by destruct (main s)).
  assert (waited (match main s with Parked => Locking | m => m end) → waited (main s)) as Hw by (by destruct (main s)).
  split; simpl.
  - rewrite length_insert. apply HI.
  - by rewrite (count_step counted s i _ _ Hi), (inv_count _ HI).
  - intros Hm%He. by rewrite (count_step holds_sender s i _ _ Hi), (inv_eof _ HI Hm).
  - intros Hm%Hw. by apply HI.
  - destruct (main s); by intros [?|?].
  - intros Hm. apply HI. by destruct (main s).
  - intros r Hm. apply HI. by destruct (main s).
Qed.

Lemma settle_inv_step b s s' : Inv s → step b s s' → Inv s'.
Proof.
  intros HI Hst.
  destruct Hst as [s i Hi|s i Hi|s i p Hi|s i p Hi|s i Hi|s i Hi Hl|s Hm He|s Hm|s Hm|s Hm|s _ Hm|s Hm|s _ Hm|s r Hm].
  - destruct (outstanding_bounds s i _ HI Hi) as (H0 & _ & Hlt). specialize (Hlt eq_refl).
    unfold task_started, wrapping_add. rewrite wrap_small by (split; lia).
    apply (inv_task s i Fresh Polled (slot s) (panics s) 1); auto; [|left; lia].
    rewrite (count_insert counted _ _ _ _ Hi), (inv_count _ HI). simpl. lia.
  - by apply (inv_step_task s i Polled).
  - by apply (inv_step_task s i Polled).
  - apply (inv_step_task s i (Unwound p)); try done. intros ->. apply record_head.
  - by apply inv_settle.
  - by apply inv_notify.
  - apply inv_main; try done; [by intros [?|?]|by rewrite Hm].
  - unfold load. case_bool_decide; (apply inv_main; try done; [intros _; apply HI; by rewrite Hm|by intros [?|?]|by rewrite Hm]).
  - apply inv_main; try done; [intros _; apply HI; by rewrite Hm|by intros [?|?]|by rewrite Hm].
  - unfold load. case_bool_decide as E; apply inv_main; try done; try (by rewrite Hm);
      try (intros _; apply HI; by rewrite Hm); [by intros [?|?]|].
    intros _. left. rewrite (inv_count _ HI) in E |- *. pose proof (count_if_nonneg counted (tasks s)). lia.
  - apply inv_main; try done; [intros _; apply HI; by rewrite Hm|by intros [?|?]|by rewrite Hm].
  - apply inv_main; try done; [intros _; apply HI; by rewrite Hm|intros _; apply HI; by right|by rewrite Hm].
  - apply inv_main; try done; [intros _; apply HI; by rewrite Hm|by intros [?|?]|by rewrite Hm].
  - assert (slot s = head (panics s)) as Hs by (apply HI; by rewrite Hm).
    split; simpl; try apply HI; try done.
    + intros _. apply HI. by rewrite Hm.
    + intros Hw. apply HI. rewrite Hm. by destruct r.
    + by intros [?|?].
    + intros r' [= -> <-]. done.
Qed.

Lemma settle_inv_reachable b n s : Z.of_nat n < 2 ^ 64 → rtc (step b) (init n) s → Inv s.
Proof. intros Hn Hr. eapply (rtc_ind_r Inv); [by apply settle_inv_init|intros; by eapply settle_inv_step|exact Hr]. Qed.

(** *** Progress *)

Definition weight (t : task P) : nat :=
  match t with Fresh => 5 | Polled => 4 | Unwound _ => 3 | Ended => 2 | Notifying => 1 | Settled => 0 end.
Definition work s : nat := sum_list (weight <$> tasks s).

Lemma settle_work_insert s i t t' :
  tasks s !! i = Some t → (weight t' < weight t)%nat →
  (sum_list (weight <$> <[i := t']> (tasks s)) < work s)%nat.
Proof.
  unfold work. generalize (tasks s) as l. intros l. revert i.
  induction l as [|x l IH]; intros [|i] E Hw; simplify_eq/=; [lia|]. specialize (IH i E Hw). lia.
Qed.

(** Every task that is not settled can move, the notifier once the drain is off
    the lock. *)
Lemma task_steps s i t :
  tasks s !! i = Some t → t ≠ Settled → holds_lock (main s) = false →
  ∃ s', step false s s' ∧ (work s' < work s)%nat ∧ holds_lock (main s') = false.
Proof.
  intros Hi Ht Hl.
  assert (∀ t', (weight t' < weight t)%nat → (sum_list (weight <$> <[i := t']> (tasks s)) < work s)%nat) as Hw
    by (intros t'; by apply settle_work_insert).
  destruct t as [| | |p| |]; [| | | | |done].
  - eexists; split; [by apply step_start|]. split; [apply Hw; simpl; lia|done].
  - eexists; split; [by apply step_finish|]. split; [apply Hw; simpl; lia|done].
  - eexists; split; [by apply step_settle|]. split; [apply Hw; case_bool_decide; simpl; lia|done].
  - eexists; split; [by eapply step_record|]. split; [apply Hw; simpl; lia|done].
  - eexists; split; [by apply step_notify|]. split; [apply Hw; simpl; lia|]. simpl. by destruct (main s).
Qed.

Definition unsettled (t : task P) : bool := match t with Settled => false | _ => true end.

Lemma settle_all s :
  holds_lock (main s) = false →
  ∃ s', rtc (step false) s s' ∧ count_if unsettled (tasks s') = 0 ∧ holds_lock (main s') = false.
Proof.
  remember (work s) as w eqn:Hw. revert s Hw. induction (lt_wf w) as [w _ IH]. intros s -> Hl.
  destruct (decide (count_if unsettled (tasks s) = 0)) as [E|E]; [by exists s|].
  pose proof (count_if_nonneg unsettled (tasks s)) as Hnn.
  assert (0 < count_if unsettled (tasks s)) as (i & t & Hi & Ht)%count_pos by lia.
  destruct (task_steps s i t Hi) as (s1 & Hs1 & Hlt & Hl1); [by intros ->|done|].
  destruct (IH _ Hlt s1 eq_refl Hl1) as (s' & Hs' & E' & Hl'). exists s'. split; [by eapply rtc_l|done].
Qed.

(** The drain gets off the lock by itself. *)
Lemma leave_lock s : ∃ s', rtc (step false) s s' ∧ holds_lock (main s') = false.
Proof.
  assert (∀ s1, main s1 = Parking → ∃ s', rtc (step false) s1 s' ∧ holds_lock (main s') = false) as Hpark.
  { intros s1 Hm. exists (set_main s1 Parked). split; [by apply rtc_once, step_park|done]. }
  destruct (holds_lock (main s)) eqn:E; [|by exists s].
  destruct (main s) as [| | | | | | |] eqn:Hm; try done; [|by apply Hpark].
  destruct (decide (outstanding s = 0)) as [E0|E0].
  - exists (load s Parking). split; [by apply rtc_once, step_check|].
    unfold load. rewrite bool_decide_eq_true_2 by done. done.
  - destruct (Hpark (load s Parking)) as (s' & Hs' & Hl).
    { unfold load. by rewrite bool_decide_eq_false_2. }
    exists s'. split; [|done]. eapply rtc_l; [by apply step_check|done].
Qed.

Lemma drain_returns s :
  Inv s → count_if unsettled (tasks s) = 0 → holds_lock (main s) = false →
  ∃ s' b r, rtc (step false) s s' ∧ main s' = Returned b r.
Proof.
  intros HI E Hl. assert (∀ f : task P → bool, (∀ t, f t = true → unsettled t = true) → count_if f (tasks s) = 0) as Hz.
  { intros f Hf. apply count_zero. intros i t Hi. pose proof (proj1 (count_zero _ _) E i t Hi) as Hu.
    destruct (f t) eqn:Eq; [|done]. apply Hf in Eq. congruence. }
  assert (outstanding s = 0) as E0 by (rewrite (inv_count _ HI); apply Hz; by intros []).
  assert (∀ s1 b, main s1 = Reading b → ∃ s' b r, rtc (step false) s1 s' ∧ main s' = Returned b r) as Hread.
  { intros s1 b Hm. exists (read s1 b), b, (slot s1). split; [by apply rtc_once, step_read|done]. }
  assert (∀ m, main (load s m) = Reading true) as Hload
    by (intros m; unfold load; simpl; by rewrite bool_decide_eq_true_2).
  destruct (main s) as [| | | | | |b|b r] eqn:Hm; try done.
  - destruct (Hread (load (set_main s FirstLoad) Locking) true) as (s' & b & r & Hs' & Hr); [apply (Hload Locking)|].
    exists s', b, r. split; [|done]. eapply rtc_l; [apply step_eof; [done|apply Hz; by intros []]|].
    eapply rtc_l; [by apply step_first|done].
  - destruct (Hread (load s Locking) true) as (s' & b & r & Hs' & Hr); [apply Hload|].
    exists s', b, r. split; [|done]. eapply rtc_l; [by apply step_first|done].
  - destruct (Hread (load (set_main s Holding) Parking) true) as (s' & b & r & Hs' & Hr); [apply (Hload Parking)|].
    exists s', b, r. split; [|done]. eapply rtc_l; [by apply step_lock|]. eapply rtc_l; [by apply step_check|done].
  - destruct (inv_parked _ HI (or_introl Hm)) as [?|Hn]; [lia|]. rewrite Hz in Hn by (by intros []). lia.
  - by apply (Hread s b).
  - by exists s, b, r.
Qed.

(** Without a deadline [wait_settled] never gives up. *)
Lemma no_timeout s s' :
  rtc (step false) s s' → (∀ r, main s ≠ Reading false ∧ main s ≠ Returned false r) →
  ∀ r, main s' ≠ Reading false ∧ main s' ≠ Returned false r.
Proof.
  induction 1 as [s|s s1 s2 Hst _ IH]; [done|]. intros Hs. apply IH. clear IH s2. intros r. specialize (Hs r).
  destruct Hst as [s i Hi|s i Hi|s i p Hi|s i p Hi|s i Hi|s i Hi Hl|s Hm He|s Hm|s Hm|s Hm|s He Hm|s Hm|s He Hm|s b Hm];
    simpl; try done.
  - by destruct (main s).
  - by case_bool_decide.
  - by case_bool_decide.
  - destruct Hs as [Hs _]. destruct b; [done|]. by rewrite Hm in Hs.
Qed.

End machine.
End Settle.

(** ** Theorems *)

(** C22: the graph engine's caller.  However the jobs of a run return, panic and
    interleave, the caller of [DoneCounter::wait] gets through only when every
    job is finished — its panic recorded and the token cancelled — and then
    re-raises the first panic recorded, if any; while it is parked some job has
    yet to decrement the counter, so its wake-up is never lost; and from every
    reachable state the run can complete without a spurious wake-up. *)
Theorem done_counter_completes {P} (spurious : bool) (n : nat) (s : Done.state P) :
  rtc (Done.step spurious) (Done.init n) s →
  (∀ r, Done.main s = Done.Returned r →
     r = head (Done.panics s) ∧ ∀ i j, Done.jobs s !! i = Some j → j = Done.Finished) ∧
  (Done.main s = Done.Parked → ∃ i j, Done.jobs s !! i = Some j ∧ j ≠ Done.Finished) ∧
  ∃ s' r, rtc (Done.step false) s s' ∧ Done.main s' = Done.Returned r.
Proof.
  intros Hr. pose proof (Done.done_inv_reachable _ _ _ Hr) as HI. split_and!.
  - intros r Hm. split; [by apply HI|]. intros i j Hj.
    assert (Done.remaining s = 0) as E by (apply HI; by rewrite Hm).
    rewrite (Done.inv_count _ HI) in E. pose proof (proj1 (count_zero _ _) E i j Hj). by destruct j.
  - intros Hm. pose proof (Done.inv_parked _ HI Hm) as Hpos. rewrite (Done.inv_count _ HI) in Hpos.
    apply count_pos in Hpos as (i & j & Hi & Hj). exists i, j. split; [done|]. by intros ->.
  - destruct (Done.finish_jobs s) as (s1 & H1 & E1).
    destruct (Done.main_returns s1) as (s' & r & H2 & Hm); [|done|].
    + eapply (rtc_ind_r Done.Inv); [exact HI|intros; by eapply Done.done_inv_step|exact H1].
    + exists s', r. split; [by etrans|done].
Qed.

Lemma done_counter_completes_witness :
  ∃ s' r, rtc (Done.step false) (Done.set_job (Done.init 2) 0 (Done.Recording 7)) s' ∧
    Done.main s' = Done.Returned r.
Proof.
  apply (done_counter_completes false 2 (Done.set_job (Done.init 2) 0 (Done.Recording 7))).
  apply rtc_once. apply Done.step_panic. reflexivity.
Defined.

(** C23: the streaming engine's terminal drain.  A task's sender disappears
    before its panic is recorded, so end of stream alone does not order the
    drain after the record; but whenever [wait_settled] answers true, every task
    has settled, every panic is recorded, and what the drain re-raises is the
    first one.  A parked drain always has a task that will still settle or
    notify, and every reachable state leads on to the drain's return without a
    spurious wake-up; without the deadline the answer is always true. *)
Theorem settle_gate_orders_panics {P} (ext : bool) (n : nat) (s : Settle.state P) :
  Z.of_nat n < 2 ^ 64 → rtc (Settle.step ext) (Settle.init n) s →
  (∀ r, Settle.main s = Settle.Returned true r →
     r = head (Settle.panics s) ∧
     ∀ i t, Settle.tasks s !! i = Some t → t = Settle.Settled ∨ t = Settle.Notifying) ∧
  (Settle.main s = Settle.Parked → ∃ i t, Settle.tasks s !! i = Some t ∧ t ≠ Settle.Settled) ∧
  ∃ s' b r, rtc (Settle.step false) s s' ∧ Settle.main s' = Settle.Returned b r ∧
    (ext = false → b = true).
Proof.
  intros Hn Hr. pose proof (Settle.settle_inv_reachable _ _ _ Hn Hr) as HI. split_and!.
  - intros r Hm. split; [by apply HI|]. intros i t Hi.
    assert (Settle.waited (Settle.main s)) as Hw by (by rewrite Hm).
    assert (Settle.at_eof (Settle.main s)) as He by (by rewrite Hm).
    pose proof (Settle.waited_no_counted s i t HI Hw Hi). pose proof (Settle.eof_no_sender s i t HI He Hi).
    destruct t; auto; done.
  - intros Hm. destruct (Settle.inv_parked _ HI (or_introl Hm)) as [Hpos|Hpos].
    + rewrite (Settle.inv_count _ HI) in Hpos. apply count_pos in Hpos as (i & t & Hi & Ht).
      exists i, t. split; [done|]. by intros ->.
    + apply count_pos in Hpos as (i & t & Hi & Ht). exists i, t. split; [done|]. by intros ->.
  - destruct (Settle.leave_lock s) as (s1 & H1 & Hl1).
    destruct (Settle.settle_all s1 Hl1) as (s2 & H2 & E2 & Hl2).
    destruct (Settle.drain_returns s2) as (s' & b & r & H3 & Hm); [|done..|].
    { eapply (rtc_ind_r Settle.Inv); [exact HI|intros; by eapply Settle.settle_inv_step|by etrans]. }
    exists s', b, r. split_and!; [by etrans; [|etrans]|done|]. intros ->.
    destruct (Settle.no_timeout (Settle.init n) s') with (r := r) as [_ Hne]; [by repeat (etrans; [done|])|done|].
    destruct b; [done|]. congruence.
Qed.

Lemma settle_gate_orders_panics_witness :
  ∃ s' b r, rtc (Settle.step false) (Settle.task_started (Settle.init (P := nat) 2) 0) s' ∧
    Settle.main s' = Settle.Returned b r ∧ (false = false → b = true).
Proof.
  apply (settle_gate_orders_panics false 2 (Settle.task_started (Settle.init 2) 0)); [reflexivity|].
  apply rtc_once. apply Settle.step_start. reflexivity.
Defined.
