(* ===== verification/ForkJoin.v ===== *)
(** * Fork-join programs over shared slots, and the pool's [join]

    The fused engine ([src/crates/youpipe/src/builder/typed/fused.rs]) runs a
    batch as a tree of closures joined in pairs on the pool
    ([src/crates/youpipe/src/pool/join.rs]); the closures read, write and drop
    slots of shared buffers without synchronisation.  This file gives such code
    a meaning:

    - [prog A]: programs that move a value out of a slot ([Take], a
      [ptr::read]), write one ([Put]), drop one in place ([Kill]), replace its
      content by nothing ([Swap], a [ptr::replace]), perform an atomic
      operation on a shared object ([Emit]), let the scheduler decide
      ([Choose]) and run two programs in parallel ([Par]);
    - [step]: one step of one of the program's threads, the thread named by a
      path; a slot accessed in the wrong state is a fault ([Bad]);
    - [always]: total correctness under every interleaving - no schedule
      faults, none runs forever, and every result satisfies the postcondition;
      its rules (sequence, frame, disjoint parallel composition) are lemmas;
    - [join_on_captured], [join_on]: the pool's [join], with the scheduler's
      choice between a second closure that is stolen and one the joining worker
      pops and runs itself.

    Unwinding is a value: a closure that may panic is a [prog (res A)], whose
    [Unwind p] is an unwind with payload [p] leaving it. *)

From S2P Require Import Prelude.

(** ** Slots *)

(** The buffers of a fused run: the input slots, the output slots, the
    per-chunk cells of the reduce core. *)
Inductive buf : Type := BIn | BOut | BCell.

#[export] Instance buf_eq_dec : EqDecision buf.
Proof. solve_decision. Defined.
#[export] Instance buf_countable : Countable buf.
Proof.
  refine (inj_countable' (λ b, match b with BIn => 0%nat | BOut => 1%nat | BCell => 2%nat end)
    (λ n, match n with 0%nat => BIn | 1%nat => BOut | _ => BCell end) _).
  by intros [].
Defined.

Notation loc := (buf * nat)%type.

(** Memory: which slots exist, and what each holds ([None]: uninitialised or
    moved out). *)
Notation mem V := (gmap loc (option V)).

(** The result of a closure: a value, or an unwind that leaves it. *)
Inductive res (P A : Type) : Type :=
  | Val (a : A)
  | Unwind (p : P).
Arguments Val {P A} a.
Arguments Unwind {P A} p.

(** [Result] of Rust. *)
Inductive rresult (A E : Type) : Type :=
  | Ok (a : A)
  | Err (e : E).
Arguments Ok {A E} a.
Arguments Err {A E} e.

(** ** Programs *)

Inductive prog (V X : Type) (A : Type) : Type :=
  | Done (a : A)
  | Fault
  | Take (l : loc) (k : V → prog V X A)
  | Put (l : loc) (v : V) (k : prog V X A)
  | Kill (l : loc) (k : prog V X A)
  | Swap (l : loc) (k : option V → prog V X A)
  | Emit (x : X) (k : prog V X A)
  | Choose (k : bool → prog V X A)
  | Par (B C : Type) (p : prog V X B) (q : prog V X C) (xs : list X)
      (k : B → C → list X → prog V X A).
Arguments Done {V X A} a.
Arguments Fault {V X A}.
Arguments Take {V X A} l k.
Arguments Put {V X A} l v k.
Arguments Kill {V X A} l k.
Arguments Swap {V X A} l k.
Arguments Emit {V X A} x k.
Arguments Choose {V X A} k.
Arguments Par {V X A B C} p q xs k.

Fixpoint bind {V X A B} (p : prog V X A) (f : A → prog V X B) : prog V X B :=
  match p with
  | Done a => f a
  | Fault => Fault
  | Take l k => Take l (λ v, bind (k v) f)
  | Put l v k => Put l v (bind k f)
  | Kill l k => Kill l (bind k f)
  | Swap l k => Swap l (λ o, bind (k o) f)
  | Emit x k => Emit x (bind k f)
  | Choose k => Choose (λ b, bind (k b) f)
  | Par p q xs k => Par p q xs (λ b c es, bind (k b c es) f)
  end.

Declare Scope prog_scope.
Delimit Scope prog_scope with prog.
Notation "'plet' x := p 'in' q" := (bind p (λ x, q))
  (at level 200, x name, p at level 100, q at level 200,
   format "'[v' 'plet'  x  :=  p  'in' '/' q ']'") : prog_scope.
Notation "p ;; q" := (bind p (λ _, q))
  (at level 100, q at level 200, right associativity, format "'[v' p  ;; '/' q ']'") : prog_scope.
Local Open Scope prog_scope.

(** Sequencing of code that may unwind: an unwind skips the rest. *)
Definition bindr {V X P A B} (p : prog V X (res P A)) (f : A → prog V X (res P B)) :
    prog V X (res P B) :=
  plet r := p in match r with Val a => f a | Unwind e => Done (Unwind e) end.

(** Code outside the program (the caller's closures) returns a value or
    unwinds, without touching the slots. *)
Definition call {V X P A B} (r : res P A) (f : A → prog V X (res P B)) : prog V X (res P B) :=
  match r with Val a => f a | Unwind p => Done (Unwind p) end.

(** ** Steps *)

(** [Off]: the path names no thread that can step.  [Bad]: a fault, an access
    to a slot that does not exist or is in the wrong state. *)
Inductive sres (V X A : Type) : Type :=
  | Off
  | Bad
  | Go (p : prog V X A) (m : mem V) (xs : list X).
Arguments Off {V X A}.
Arguments Bad {V X A}.
Arguments Go {V X A} p m xs.

(** [steal b] tells whether the scheduler may answer [b] to a [Choose].  The
    path [d] names the thread: a direction per [Par], the answer at a
    [Choose].  A [Put] on a live slot would leak the old value; it counts as a
    fault too. *)
Fixpoint step {V X A} (steal : bool → bool) (d : list bool) (p : prog V X A) (m : mem V)
    {struct p} : sres V X A :=
  match p with
  | Done _ => Off
  | Fault => Bad
  | Take l k =>
      match m !! l with
      | Some (Some v) => Go (k v) (<[l := None]> m) []
      | _ => Bad
      end
  | Put l v k =>
      match m !! l with
      | Some None => Go k (<[l := Some v]> m) []
      | _ => Bad
      end
  | Kill l k =>
      match m !! l with
      | Some (Some _) => Go k (<[l := None]> m) []
      | _ => Bad
      end
  | Swap l k =>
      match m !! l with
      | Some o => Go (k o) (<[l := None]> m) []
      | None => Bad
      end
  | Emit x k => Go k m [x]
  | Choose k =>
      match d with
      | b :: _ => if steal b then Go (k b) m [] else Off
      | [] => Off
      end
  | Par p q xs k =>
      match p, q with
      | Done b, Done c => Go (k b c xs) m []
      | _, _ =>
          match d with
          | true :: d =>
              match step steal d p m with
              | Go p' m' es => Go (Par p' q (xs ++ es) k) m' es
              | Bad => Bad
              | Off => Off
              end
          | false :: d =>
              match step steal d q m with
              | Go q' m' es => Go (Par p q' (xs ++ es) k) m' es
              | Bad => Bad
              | Off => Off
              end
          | [] => Off
          end
      end
  end.

(** A run along a schedule: what it has reached and the operations emitted. *)
Fixpoint run {V X A} (steal : bool → bool) (ds : list (list bool)) (p : prog V X A) (m : mem V) :
    sres V X A :=
  match ds with
  | [] => Go p m []
  | d :: ds =>
      match step steal d p m with
      | Go p' m' es =>
          match run steal ds p' m' with
          | Go p'' m'' es' => Go p'' m'' (es ++ es')
          | r => r
          end
      | r => r
      end
  end.

(** Total correctness under every interleaving: the program is finished in a
    state that satisfies the postcondition, or some thread can step, no thread
    can fault, and whatever steps, the rest is correct. *)
Inductive always {V X A} (steal : bool → bool) :
    prog V X A → mem V → (A → mem V → list X → Prop) → Prop :=
  | always_done a m (Q : A → mem V → list X → Prop) :
      Q a m [] → always steal (Done a) m Q
  | always_step p m (Q : A → mem V → list X → Prop) :
      (∃ d p' m' es, step steal d p m = Go p' m' es) →
      (∀ d, step steal d p m ≠ Bad) →
      (∀ d p' m' es, step steal d p m = Go p' m' es →
        always steal p' m' (λ a m'' es', Q a m'' (es ++ es'))) →
      always steal p m Q.

(** ** The pool's [join] *)

(** [halt_unwinding]: an unwind becomes a value. *)
Definition halt_unwinding {V X P A} (p : prog V X (res P A)) : prog V X (res P (res P A)) :=
  plet r := p in Done (Val r).

Definition is_val {P A} (r : res P A) : bool := match r with Val _ => true | Unwind _ => false end.

(** [join_on_captured]: closure [b] is pushed on the worker's deque, then [a]
    runs inline with its unwind captured.  If [b] is stolen ([Choose] answers
    [true]) the thief runs it with its unwind captured, in parallel with [a]
    or after it, and the joining worker waits.  Otherwise the worker pops [b]
    after [a] and runs it itself: with its unwind captured when [a] unwound,
    bare when [a] returned - then an unwind of [b] leaves the join. *)
Definition join_on_captured {V X P A B} (a : prog V X (res P A)) (b : prog V X (res P B)) :
    prog V X (res P (res P A * res P B)) :=
  Choose (λ stolen,
    if stolen then Par a b [] (λ ra rb _, Done (Val (ra, rb)))
    else
      plet ra := a in
      if is_val ra then bindr b (λ vb, Done (Val (ra, Val vb)))
      else plet rb := b in Done (Val (ra, rb))).

(** [join_on]: both values, or the unwind of the first closure that panicked. *)
Definition join_on {V X P A B} (a : prog V X (res P A)) (b : prog V X (res P B)) :
    prog V X (res P (A * B)) :=
  bindr (join_on_captured a b) (λ rs,
    call rs.1 (λ va, call rs.2 (λ vb, Done (Val (va, vb))))).

(** ** Rules *)

Section rules.
Context {V X : Type} (steal : bool → bool).
Implicit Types m : mem V.

Lemma always_mono {A} (p : prog V X A) m (Q Q' : A → mem V → list X → Prop) :
  always steal p m Q → (∀ a m' es, Q a m' es → Q' a m' es) → always steal p m Q'.
Proof.
  intros Hp. revert Q'. induction Hp as [a m Q HQ|p m Q Hgo Hbad Hnext IH]; intros Q' HQQ.
  - constructor. by apply HQQ.
  - apply always_step; [done|done|]. intros d p' m' es Hs. eapply IH; [done|]. eauto.
Qed.

Lemma frame_insert l (o o' : option V) m mf :
  m ##ₘ mf → m !! l = Some o →
  (m ∪ mf) !! l = Some o ∧ <[l := o']> (m ∪ mf) = <[l := o']> m ∪ mf ∧ <[l := o']> m ##ₘ mf.
Proof.
  intros Hd E. split_and!; [by apply lookup_union_Some_l|by rewrite insert_union_l|].
  apply map_disjoint_insert_l; split; [|done].
  eapply map_disjoint_Some_r; [|done]. by symmetry.
Qed.

(** A step of a thread that owns [m] is the same step, whatever memory [mf]
    the others own. *)
Lemma step_frame {A} (p : prog V X A) : ∀ d m mf,
  m ##ₘ mf →
  match step steal d p m with
  | Go p' m' es => step steal d p (m ∪ mf) = Go p' (m' ∪ mf) es ∧ m' ##ₘ mf
  | Off => step steal d p (m ∪ mf) = Off
  | Bad => True
  end.
Proof.
  induction p as [A a|A|A l k IH|A l v k IH|A l k IH|A l k IH|A x k IH|A k IH|A B C p IHp q IHq xs k IH];
    intros d m mf Hd; cbn [step]; try done.
  - destruct (m !! l) as [[v|]|] eqn:E; try done.
    by destruct (frame_insert l _ None m mf Hd E) as (-> & -> & ?).
  - destruct (m !! l) as [[?|]|] eqn:E; try done.
    by destruct (frame_insert l _ (Some v) m mf Hd E) as (-> & -> & ?).
  - destruct (m !! l) as [[v|]|] eqn:E; try done.
    by destruct (frame_insert l _ None m mf Hd E) as (-> & -> & ?).
  - destruct (m !! l) as [o|] eqn:E; try done.
    by destruct (frame_insert l _ None m mf Hd E) as (-> & -> & ?).
  - destruct d as [|b d]; [done|]. by destruct (steal b).
  - destruct d as [|[] d].
    + by destruct p, q.
    + specialize (IHp d m mf Hd). destruct p, q; try done;
        by destruct (step steal d _ m) as [| |p' m' es]; first [done|rewrite IHp|destruct IHp as [-> ?]].
    + specialize (IHq d m mf Hd). destruct p, q; try done;
        by destruct (step steal d _ m) as [| |p' m' es]; first [done|rewrite IHq|destruct IHq as [-> ?]].
Qed.

(** Frame: memory the program does not own is left as it is. *)
Lemma always_frame {A} (p : prog V X A) m mf Q :
  always steal p m Q → m ##ₘ mf →
  always steal p (m ∪ mf) (λ a m' es, ∃ m0, m' = m0 ∪ mf ∧ m0 ##ₘ mf ∧ Q a m0 es).
Proof.
  intros Hp. induction Hp as [a m Q HQ|p m Q (d & p1 & m1 & es1 & Hgo) Hbad Hnext IH]; intros Hd.
  - constructor. eauto.
  - apply always_step.
    + pose proof (step_frame p d m mf Hd) as Hf. rewrite Hgo in Hf. naive_solver.
    + intros d'. pose proof (step_frame p d' m mf Hd) as Hf. specialize (Hbad d').
      destruct (step steal d' p m); [by rewrite Hf|done|by destruct Hf as [-> _]].
    + intros d' p' m' es Hs. pose proof (step_frame p d' m mf Hd) as Hf. specialize (Hbad d').
      destruct (step steal d' p m) as [| |p2 m2 es2] eqn:E; [congruence|done|].
      destruct Hf as [Hf Hd']. rewrite Hs in Hf. simplify_eq. by eapply IH.
Qed.

Lemma step_bind {A B} (p : prog V X A) (f : A → prog V X B) d m :
  (∀ a, p ≠ Done a) →
  step steal d (bind p f) m =
    match step steal d p m with
    | Go p' m' es => Go (bind p' f) m' es
    | Bad => Bad
    | Off => Off
    end.
Proof.
  destruct p as [a| |l k|l v k|l k|l k|x k|k|B' C p q xs k]; intros Hp; cbn [bind step]; try done.
  - by destruct (Hp a).
  - by destruct (m !! l) as [[]|].
  - by destruct (m !! l) as [[]|].
  - by destruct (m !! l) as [[]|].
  - by destruct (m !! l).
  - destruct d as [|b d]; [done|]. by destruct (steal b).
  - destruct p, q, d as [|[] d]; try done; by destruct (step _ _ _ _).
Qed.

Lemma always_bind {A B} (p : prog V X A) (f : A → prog V X B) m Q :
  always steal p m (λ a m' es, always steal (f a) m' (λ b m'' es', Q b m'' (es ++ es'))) →
  always steal (bind p f) m Q.
Proof.
  remember (λ a m' es, always steal (f a) m' (λ b m'' es', Q b m'' (es ++ es'))) as R eqn:HR.
  assert (∀ a m' es, R a m' es → always steal (f a) m' (λ b m'' es', Q b m'' (es ++ es'))) as HR'
    by (intros a m' es; by rewrite HR). clear HR.
  intros Hp. revert Q HR'.
  induction Hp as [a m R Ha|p m R (d & p1 & m1 & es1 & Hgo) Hbad Hnext IH]; intros Q HR.
  - by apply HR in Ha.
  - assert (∀ a, p ≠ Done a) as Hnd by (intros a ->; done).
    apply always_step.
    + exists d, (bind p1 f), m1, es1. by rewrite step_bind, Hgo.
    + intros d'. rewrite step_bind by done. specialize (Hbad d'). by destruct (step steal d' p m).
    + intros d' p' m' es. rewrite step_bind by done.
      destruct (step steal d' p m) as [| |p2 m2 es2] eqn:E; [done|done|]. intros [= <- <- <-].
      eapply IH; [done|]. intros a m'' es' Ha%HR.
      eapply always_mono; [done|]. intros b m3 es3. cbn. by rewrite <- app_assoc.
Qed.

(** A step of a [Par] with a thread left is a step of one side. *)
Lemma step_par {A B C} (p : prog V X B) (q : prog V X C) xs (k : B → C → list X → prog V X A) d m :
  ((∀ b, p ≠ Done b) ∨ (∀ c, q ≠ Done c)) →
  step steal d (Par p q xs k) m =
    match d with
    | true :: d =>
        match step steal d p m with
        | Go p' m' es => Go (Par p' q (xs ++ es) k) m' es
        | Bad => Bad
        | Off => Off
        end
    | false :: d =>
        match step steal d q m with
        | Go q' m' es => Go (Par p q' (xs ++ es) k) m' es
        | Bad => Bad
        | Off => Off
        end
    | [] => Off
    end.
Proof.
  intros Hnd. destruct p as [b| | | | | | | |], q as [c| | | | | | | |]; try done.
  exfalso. destruct Hnd as [H|H]; [by destruct (H b)|by destruct (H c)].
Qed.

(** One move of a parallel composition, from the moves of its sides on the
    memory each owns. *)
Lemma always_par_step {A B C} (p : prog V X B) (q : prog V X C) xs
    (k : B → C → list X → prog V X A) m1 m2 Q :
  m1 ##ₘ m2 →
  ((∀ b, p ≠ Done b) ∨ (∀ c, q ≠ Done c)) →
  ((∃ d p' m' es, step steal d p m1 = Go p' m' es) ∨
   (∃ d q' m' es, step steal d q m2 = Go q' m' es)) →
  (∀ d, step steal d p m1 ≠ Bad) → (∀ d, step steal d q m2 ≠ Bad) →
  (∀ d p' m' es, step steal d p m1 = Go p' m' es → m' ##ₘ m2 →
    always steal (Par p' q (xs ++ es) k) (m' ∪ m2) (λ a m'' es', Q a m'' (es ++ es'))) →
  (∀ d q' m' es, step steal d q m2 = Go q' m' es → m1 ##ₘ m' →
    always steal (Par p q' (xs ++ es) k) (m1 ∪ m') (λ a m'' es', Q a m'' (es ++ es'))) →
  always steal (Par p q xs k) (m1 ∪ m2) Q.
Proof.
  intros Hd Hnd Hgo Hb1 Hb2 H1 H2.
  assert (∀ d, match step steal d p m1 with
    | Go p' m' es => step steal d p (m1 ∪ m2) = Go p' (m' ∪ m2) es ∧ m' ##ₘ m2
    | Off => step steal d p (m1 ∪ m2) = Off | Bad => False end) as F1.
  { intros d. pose proof (step_frame p d m1 m2 Hd). specialize (Hb1 d).
    by destruct (step steal d p m1). }
  assert (∀ d, match step steal d q m2 with
    | Go q' m' es => step steal d q (m1 ∪ m2) = Go q' (m1 ∪ m') es ∧ m1 ##ₘ m'
    | Off => step steal d q (m1 ∪ m2) = Off | Bad => False end) as F2.
  { intros d. assert (m2 ##ₘ m1) as Hd' by done. pose proof (step_frame q d m2 m1 Hd').
    specialize (Hb2 d). rewrite (map_union_comm m1 m2) by done.
    destruct (step steal d q m2) as [| |q' m' es]; try done.
    destruct H as [-> ?]. by rewrite (map_union_comm m1 m'). }
  apply always_step.
  - destruct Hgo as [(d & p' & m' & es & E)|(d & q' & m' & es & E)].
    + exists (true :: d). rewrite step_par by done. specialize (F1 d). rewrite E in F1.
      destruct F1 as [-> _]. eauto.
    + exists (false :: d). rewrite step_par by done. specialize (F2 d). rewrite E in F2.
      destruct F2 as [-> _]. eauto.
  - intros d. rewrite step_par by done. destruct d as [|[] d]; [done|..].
    + specialize (F1 d). destruct (step steal d p m1); [by rewrite F1|done|by destruct F1 as [-> _]].
    + specialize (F2 d). destruct (step steal d q m2); [by rewrite F2|done|by destruct F2 as [-> _]].
  - intros d r m' es. rewrite step_par by done. destruct d as [|[] d]; [done|..].
    + specialize (F1 d). destruct (step steal d p m1) as [| |p' m0 es0] eqn:E; [by rewrite F1|done|].
      destruct F1 as [-> ?]. intros [= <- <- <-]. by eapply H1.
    + specialize (F2 d). destruct (step steal d q m2) as [| |q' m0 es0] eqn:E; [by rewrite F2|done|].
      destruct F2 as [-> ?]. intros [= <- <- <-]. by eapply H2.
Qed.

Lemma always_not_done {A} (p : prog V X A) m d p' m' es :
  step steal d p m = Go p' m' es → ∀ a, p ≠ Done a.
Proof. by intros E a ->. Qed.

(** Disjoint parallel composition: each side is correct on memory of its own,
    so every interleaving is, and the continuation starts from the two final
    memories with the operations of both sides in some order. *)
Lemma always_par {A B C} (p : prog V X B) (q : prog V X C) m1 m2 Q1 Q2 Q
    (k : B → C → list X → prog V X A) :
  always steal p m1 Q1 → always steal q m2 Q2 → m1 ##ₘ m2 →
  (∀ b c m1' m2' e1 e2 es, Q1 b m1' e1 → Q2 c m2' e2 → m1' ##ₘ m2' → es ≡ₚ e1 ++ e2 →
    always steal (k b c es) (m1' ∪ m2') (λ a m es', Q a m (es ++ es'))) →
  always steal (Par p q [] k) (m1 ∪ m2) Q.
Proof.
  intros Hp Hq Hd Hk.
  assert (∀ xs (Q : A → mem V → list X → Prop),
    (∀ b c m1' m2' e1 e2 es, Q1 b m1' e1 → Q2 c m2' e2 → m1' ##ₘ m2' → es ≡ₚ e1 ++ e2 →
    always steal (k b c (xs ++ es)) (m1' ∪ m2') (λ a m es', Q a m (es ++ es'))) →
    always steal (Par p q xs k) (m1 ∪ m2) Q) as HG; [|by apply HG]. clear Hk Q.
  revert C q m2 Q2 k Hq Hd.
  induction Hp as [b m1 Q1 HQ1|p m1 Q1 Hgo1 Hbad1 Hnext1 IH1]; intros C q m2 Q2 k Hq Hd.
  - induction Hq as [c m2 Q2 HQ2|q m2 Q2 Hgo2 Hbad2 Hnext2 IH2]; intros xs Q Hk.
    + apply always_step.
      * exists [], (k b c xs), (m1 ∪ m2), []. done.
      * intros d. done.
      * intros d p' m' es [= <- <- <-]. specialize (Hk b c m1 m2 [] [] [] HQ1 HQ2 Hd (Permutation_refl _)).
        by rewrite app_nil_r in Hk.
    + apply always_par_step; [done|right|by right|done|done|done|].
      { destruct Hgo2 as (d & q' & m' & es & E). by eapply always_not_done. }
      intros d q' m' es E Hd'. eapply IH2; [done|done|].
      intros b' c m1' m2' e1 e2 es' Hb Hc Hdd Hperm. rewrite <- app_assoc.
      eapply always_mono.
      * eapply (Hk b' c m1' m2' e1 (es ++ e2)); [done|done|done|].
        rewrite Hperm. rewrite !app_assoc. f_equiv. apply Permutation_app_comm.
      * intros a m0 e0 H0. by rewrite app_assoc.
  - assert (∀ b, p ≠ Done b) as Hnd.
    { destruct Hgo1 as (d & p' & m' & es & E). by eapply always_not_done. }
    assert (∀ q m2 Q2 (xs : list X) Q, always steal q m2 Q2 → m1 ##ₘ m2 →
      (∀ b c m1' m2' e1 e2 es, Q1 b m1' e1 → Q2 c m2' e2 → m1' ##ₘ m2' → es ≡ₚ e1 ++ e2 →
        always steal (k b c (xs ++ es)) (m1' ∪ m2') (λ a m es', Q a m (es ++ es'))) →
      ∀ d p' m' es, step steal d p m1 = Go p' m' es → m' ##ₘ m2 →
        always steal (Par p' q (xs ++ es) k) (m' ∪ m2) (λ a m'' es', Q a m'' (es ++ es'))) as Hleft.
    { clear q m2 Q2 Hq Hd. intros q m2 Q2 xs Q Hq Hd Hk d p' m' es E Hd'.
      eapply IH1; [done|done|done|].
      intros b c m1' m2' e1 e2 es' Hb Hc Hdd Hperm. rewrite <- app_assoc.
      eapply always_mono; [eapply (Hk b c m1' m2' (es ++ e1) e2); [done|done|done|]|].
      - by rewrite Hperm, app_assoc.
      - intros a m0 e0 H0. by rewrite app_assoc. }
    induction Hq as [c m2 Q2 HQ2|q m2 Q2 Hgo2 Hbad2 Hnext2 IH2]; intros xs Q Hk.
    + apply always_par_step; [done|by left|by left|done|done| |done].
      eapply Hleft; [by constructor|done|done].
    + apply always_par_step; [done|by left|by left|done|done| |].
      { eapply Hleft; [by apply always_step|done|done]. }
      intros d q' m' es E Hd'. eapply IH2; [done|done|].
      intros b' c m1' m2' e1 e2 es' Hb Hc Hdd Hperm. rewrite <- app_assoc.
      eapply always_mono.
      * eapply (Hk b' c m1' m2' e1 (es ++ e2)); [done|done|done|].
        rewrite Hperm. rewrite !app_assoc. f_equiv. apply Permutation_app_comm.
      * intros a m0 e0 H0. by rewrite app_assoc.
Qed.

(** Single actions. *)
Lemma always_one {A} (p p' : prog V X A) m m' es Q :
  (∀ d, step steal d p m = Go p' m' es) →
  always steal p' m' (λ a m'' es', Q a m'' (es ++ es')) → always steal p m Q.
Proof.
  intros Hs Hp. apply always_step.
  - exists [], p', m', es. apply Hs.
  - intros d. by rewrite Hs.
  - intros d p'' m'' es''. rewrite Hs. by intros [= <- <- <-].
Qed.

Lemma always_take {A} l v (k : V → prog V X A) m Q :
  m !! l = Some (Some v) → always steal (k v) (<[l := None]> m) Q →
  always steal (Take l k) m Q.
Proof. intros E Hk. eapply always_one; [intros d; cbn; by rewrite E|done]. Qed.

Lemma always_put {A} l v (k : prog V X A) m Q :
  m !! l = Some None → always steal k (<[l := Some v]> m) Q →
  always steal (Put l v k) m Q.
Proof. intros E Hk. eapply always_one; [intros d; cbn; by rewrite E|done]. Qed.

Lemma always_kill {A} l v (k : prog V X A) m Q :
  m !! l = Some (Some v) → always steal k (<[l := None]> m) Q →
  always steal (Kill l k) m Q.
Proof. intros E Hk. eapply always_one; [intros d; cbn; by rewrite E|done]. Qed.

Lemma always_swap {A} l o (k : option V → prog V X A) m Q :
  m !! l = Some o → always steal (k o) (<[l := None]> m) Q → always steal (Swap l k) m Q.
Proof. intros E Hk. eapply always_one; [intros d; cbn; by rewrite E|done]. Qed.

Lemma always_emit {A} x (k : prog V X A) m Q :
  always steal k m (λ a m' es, Q a m' (x :: es)) → always steal (Emit x k) m Q.
Proof. intros Hk. by eapply always_one. Qed.

Lemma always_choose {A} (k : bool → prog V X A) m Q :
  (∃ b, steal b = true) → (∀ b, steal b = true → always steal (k b) m Q) →
  always steal (Choose k) m Q.
Proof.
  intros [b0 Hb0] Hk. apply always_step.
  - exists [b0], (k b0), m, []. cbn. by rewrite Hb0.
  - intros [|b d]; cbn; [done|]. by destruct (steal b).
  - intros [|b d] p' m' es; cbn; [done|]. destruct (steal b) eqn:E; [|done].
    intros [= <- <- <-]. by apply Hk.
Qed.

(** Adequacy: no schedule of a correct program faults, and a run that finishes
    ends in a state that satisfies the postcondition. *)
Lemma always_run {A} (p : prog V X A) m Q ds :
  always steal p m Q →
  match run steal ds p m with
  | Bad => False
  | Off => True
  | Go p' m' es => always steal p' m' (λ a m'' es', Q a m'' (es ++ es'))
  end.
Proof.
  revert p m Q. induction ds as [|d ds IH]; intros p m Q Hp; cbn; [done|].
  destruct Hp as [a m Q HQ|p m Q Hgo Hbad Hnext]; [done|].
  specialize (Hbad d). destruct (step steal d p m) as [| |p' m' es] eqn:E; [done|done|].
  specialize (IH p' m' _ (Hnext _ _ _ _ E)).
  destruct (run steal ds p' m') as [| |p'' m'' es']; [done|done|].
  eapply always_mono; [done|]. intros a m3 es3. cbn. by rewrite app_assoc.
Qed.

Lemma always_done_inv {A} (a : A) m (Q : A → mem V → list X → Prop) :
  always steal (Done a) m Q → Q a m [].
Proof.
  remember (Done a) as p eqn:Ep. intros Hp.
  destruct Hp as [a' m Q HQ|p m Q (d & p' & m' & es & E) ? ?]; [by simplify_eq|by subst].
Qed.

(** The pool's [join]: the results of both closures, from the memory each
    owns.  A self-run second closure whose unwind leaves the join is the one
    extra case. *)
Lemma always_join_captured {P A B} (a : prog V X (res P A)) (b : prog V X (res P B)) m1 m2 Q1 Q2 Q :
  (∃ c, steal c = true) →
  always steal a m1 Q1 → always steal b m2 Q2 → m1 ##ₘ m2 →
  (∀ ra rb m1' m2' e1 e2 es,
    Q1 ra m1' e1 → Q2 rb m2' e2 → m1' ##ₘ m2' → es ≡ₚ e1 ++ e2 →
    Q (Val (ra, rb)) (m1' ∪ m2') es ∧
    (steal false = true → is_val ra = true → ∀ p, rb = Unwind p → Q (Unwind p) (m1' ∪ m2') es)) →
  always steal (join_on_captured a b) (m1 ∪ m2) Q.
Proof.
  intros Hc Ha Hb Hd HQ. apply always_choose; [done|]. intros [] Hs.
  - eapply always_par; [done|done|done|].
    intros ra rb m1' m2' e1 e2 es H1 H2 Hd' Hes. constructor. rewrite app_nil_r. by eapply HQ.
  - apply always_bind. eapply always_mono; [by eapply always_frame|].
    intros ra m' e1 (m1' & -> & Hd1 & H1).
    assert (always steal b (m1' ∪ m2) (λ rb m'' e2, ∃ m2', m'' = m1' ∪ m2' ∧ m1' ##ₘ m2' ∧ Q2 rb m2' e2))
      as Hb'.
    { rewrite (map_union_comm m1' m2) by done. eapply always_mono; [by eapply always_frame|].
      intros rb m'' e2 (m2' & -> & Hd2 & H2). exists m2'.
      rewrite (map_union_comm m1' m2') by done. done. }
    destruct (is_val ra) eqn:Hv; apply always_bind; eapply always_mono; try done;
      intros rb m'' e2 (m2' & -> & Hd2 & H2); cbn;
      destruct (HQ ra rb m1' m2' e1 e2 (e1 ++ e2) H1 H2 Hd2 (Permutation_refl _)) as [HV HU].
    + destruct rb as [vb|p]; constructor; rewrite app_nil_r; [done|by apply HU].
    + constructor. by rewrite app_nil_r.
Qed.

Lemma always_join {P A B} (a : prog V X (res P A)) (b : prog V X (res P B)) m1 m2 Q1 Q2 Q :
  (∃ c, steal c = true) →
  always steal a m1 Q1 → always steal b m2 Q2 → m1 ##ₘ m2 →
  (∀ ra rb m1' m2' e1 e2 es,
    Q1 ra m1' e1 → Q2 rb m2' e2 → m1' ##ₘ m2' → es ≡ₚ e1 ++ e2 →
    match ra, rb with
    | Val va, Val vb => Q (Val (va, vb)) (m1' ∪ m2') es
    | Unwind p, _ | Val _, Unwind p => Q (Unwind p) (m1' ∪ m2') es
    end) →
  always steal (join_on a b) (m1 ∪ m2) Q.
Proof.
  intros Hc Ha Hb Hd HQ. apply always_bind. eapply always_join_captured; [done|done|done|done|].
  intros ra rb m1' m2' e1 e2 es H1 H2 Hd' Hes.
  specialize (HQ ra rb m1' m2' e1 e2 es H1 H2 Hd' Hes). split.
  - destruct ra as [va|p], rb as [vb|p']; constructor; by rewrite app_nil_r.
  - intros _ Hv p ->. destruct ra as [va|]; [|done]. constructor. by rewrite app_nil_r.
Qed.
End rules.

(** ** Owned slots *)

(** [own D f]: exactly the slots [D], slot [l] holding [f l]. *)
Definition own {V : Type} (D : gset loc) (f : loc → option V) : mem V :=
  set_to_map (λ l, (l, f l)) D.

(** The slots [s, e) of a buffer. *)
Definition slots_of (b : buf) (s e : nat) : gset loc := list_to_set (pair b <$> seq s (e - s)).

Section owned.
Context {V : Type}.
Implicit Types (D : gset loc) (f g : loc → option V).

Lemma lookup_own D f l : own D f !! l = if decide (l ∈ D) then Some (f l) else None.
Proof.
  assert (∀ l1 l2, l1 ∈ D → l2 ∈ D → (l1, f l1).1 = (l2, f l2).1 → l1 = l2) as Hinj by done.
  unfold own. destruct (decide (l ∈ D)) as [Hl|Hl].
  - apply lookup_set_to_map; [naive_solver|]. by exists l.
  - apply eq_None_not_Some. intros [o Ho].
    apply lookup_set_to_map in Ho as (l' & Hl' & [= -> <-]); [done|naive_solver].
Qed.

Lemma own_in D f l : l ∈ D → own D f !! l = Some (f l).
Proof. intros. by rewrite lookup_own, decide_True. Qed.

Lemma own_ext D f g : (∀ l, l ∈ D → f l = g l) → own D f = own D g.
Proof.
  intros Hfg. apply map_eq. intros l. rewrite !lookup_own.
  destruct (decide (l ∈ D)); [|done]. by rewrite Hfg.
Qed.

Lemma own_insert D f l o : l ∈ D → <[l := o]> (own D f) = own D (λ l', if decide (l' = l) then o else f l').
Proof.
  intros Hl. apply map_eq. intros l'. destruct (decide (l' = l)) as [->|Hne].
  - rewrite lookup_insert_eq, own_in by done. by rewrite decide_True.
  - rewrite lookup_insert_ne by done. rewrite !lookup_own.
    destruct (decide (l' ∈ D)); [|done]. by rewrite decide_False.
Qed.

Lemma own_disjoint D1 D2 f g : D1 ## D2 → own D1 f ##ₘ own D2 g.
Proof.
  intros Hd. apply map_disjoint_spec. intros l o1 o2. rewrite !lookup_own.
  destruct (decide (l ∈ D1)), (decide (l ∈ D2)); try done. set_solver.
Qed.

Lemma own_union D1 D2 f : own D1 f ∪ own D2 f = own (D1 ∪ D2) f.
Proof.
  apply map_eq. intros l. rewrite lookup_union, !lookup_own.
  repeat case_decide; try set_solver; done.
Qed.

(** Two pieces described by the same function are one piece. *)
Lemma own_glue D1 D2 f g h :
  (∀ l, l ∈ D1 → f l = h l) → (∀ l, l ∈ D2 → g l = h l) → own D1 f ∪ own D2 g = own (D1 ∪ D2) h.
Proof. intros H1 H2. by rewrite (own_ext D1 f h), (own_ext D2 g h), own_union. Qed.

Lemma elem_of_slots b s e l : l ∈ slots_of b s e ↔ l.1 = b ∧ (s ≤ l.2 < e)%nat.
Proof.
  unfold slots_of. rewrite elem_of_list_to_set, list_elem_of_fmap. destruct l as [b' i]; cbn. split.
  - intros (j & [= -> ->] & Hj%elem_of_seq). split; [done|lia].
  - intros [-> Hi]. exists i. split; [done|]. apply elem_of_seq. lia.
Qed.
End owned.

#[export] Hint Rewrite @lookup_own : own.
