(* ===== verification/FusedTree.v ===== *)
(** * The fused engine: slots, leaves and the fork-join tree

    [src/crates/youpipe/src/builder/typed/slots.rs] and the first part of
    [fused.rs]: a batch lives in a [Slots] array, leaves process disjoint index
    ranges of it in a loop whose [LeafCleanup] guard drops the partial state
    when the operation panics or fails, and [par_tree_rec] splits a range in
    halves joined on the pool, dropping the ranges of completed siblings when
    the other half failed.

    The input slots are the buffer [BIn], the output slots [BOut]; a slot holds
    an item ([inl]) or an output ([inr]).  The user's operation is a function
    that returns or unwinds.  [tree_spec] is the contract of the recursion:
    whatever the schedule, a range that succeeds has every input slot consumed
    and every output slot initialised, a range that fails has no live slot
    left. *)

From S2P Require Import Prelude ForkJoin.
Local Open Scope prog_scope.

(** ** Slots *)

Section slots.
Context {T R X : Type}.
Notation prg := (prog (T + R) X).

(** [Slots::from_vec] and [Slots::uninit]: the arrays a run starts from. *)
Definition from_vec (items : list T) : mem (T + R) :=
  own (slots_of BIn 0 (length items)) (λ l, inl <$> items !! l.2).
Definition uninit (n : nat) : mem (T + R) := own (slots_of BOut 0 n) (λ _, None).

(** Drop the [n] slots from [i] on, in order. *)
Fixpoint drop_each (b : buf) (i n : nat) : prg unit :=
  match n with
  | O => Done tt
  | S n => Kill (b, i) (drop_each b (S i) n)
  end.

(** [Slots::drop_range]. *)
Definition drop_range (b : buf) (start end_ : nat) : prg unit := drop_each b start (end_ - start).

(** [ptr::read] of an input slot and [ptr::write] of an output slot. *)
Definition read_in (i : nat) : prg T :=
  Take (BIn, i) (λ v, match v with inl t => Done t | inr _ => Fault end).
Definition write_out {A} (i : nat) (r : R) (k : prg A) : prg A := Put (BOut, i) (inr r) k.

(** [Slots::into_vec]: the slots of a buffer that holds outputs, moved out in
    order. *)
Fixpoint into_vec (b : buf) (i n : nat) : prg (list R) :=
  match n with
  | O => Done []
  | S n =>
      Take (b, i) (λ v, match v with
        | inr r => plet rs := into_vec b (S i) n in Done (r :: rs)
        | inl _ => Fault
        end)
  end.

(** [LeafCleanup::cleanup] over the range that starts at [start]: the written
    outputs when [OUT], the unread inputs after the current one when [IN]. *)
Definition cleanup (OUT IN : bool) (start n written : nat) : prg unit :=
  (if OUT then drop_each BOut start written else Done tt) ;;
  (if IN then drop_each BIn (start + S written) (n - S written) else Done tt).

(** *** The leaf loop

    The loop every leaf runs: read item [written], apply the operation, store
    what it produced, count the iteration.  [read] is the access to the item
    (moved out of its slot, borrowed, or generated); [body] the operation on
    the item and the leaf's accumulator.  The guard runs on an unwind (its
    [Drop]) and on an error (the explicit [cleanup]). *)
Fixpoint leaf_loop {P S E} (OUT IN : bool) (read : nat → prg T)
    (body : T → S → res P (rresult (S * option R * option X) E))
    (start n todo written : nat) (acc : S) : prg (res P (rresult S E)) :=
  match todo with
  | O => Done (Val (Ok acc))
  | Datatypes.S todo =>
      plet item := read (start + written)%nat in
      match body item acc with
      | Val (Ok (acc', o, x)) =>
          let next := leaf_loop OUT IN read body start n todo (Datatypes.S written) acc' in
          let store := match o with Some r => write_out (start + written) r next | None => next end in
          match x with Some x => Emit x store | None => store end
      | Val (Err e) => cleanup OUT IN start n written ;; Done (Val (Err e))
      | Unwind p => cleanup OUT IN start n written ;; Done (Unwind p)
      end
  end.

(** [input.as_slice(start, end)] and a by-reference leaf: the item is borrowed
    from the caller's slice. *)
Definition read_ref (input : list T) (i : nat) : prg T :=
  match input !! i with Some t => Done t | None => Fault end.

(** A leaf over [start, end). *)
Definition leaf_over {P S E} (OUT IN : bool) (read : nat → prg T)
    (body : T → S → res P (rresult (S * option R * option X) E)) (acc : S)
    (start end_ : nat) : prg (res P (rresult S E)) :=
  leaf_loop OUT IN read body start (end_ - start) (end_ - start) 0 acc.
End slots.

(** ** The leaves *)

Section leaves.
Context {T R X P : Type}.
Notation prg := (prog (T + R) X).

(** [RangeOp::apply] into the output slot. *)
Definition apply_body {E} (op : T → res P R) (item : T) (_ : unit) :
    res P (rresult (unit * option R * option X) E) :=
  match op item with
  | Val out => Val (Ok (tt, Some out, None))
  | Unwind p => Unwind p
  end.

(** [par_index_leaf]; its unwind passes through the guard. *)
Definition par_index_leaf {E} (op : T → res P R) (start end_ : nat) : prg (res P (rresult unit E)) :=
  leaf_over true true read_in (apply_body op) tt start end_.

(** [par_index_leaf_by_ref]. *)
Definition par_index_leaf_by_ref {E} (input : list T) (op : T → res P R) (start end_ : nat) :
    prg (res P (rresult unit E)) :=
  leaf_over true false (read_ref input) (apply_body op) tt start end_.

(** [par_index_try_leaf]: the first [Err] stops the leaf. *)
Definition try_body {E} (op : T → res P (rresult R E)) (item : T) (_ : unit) :
    res P (rresult (unit * option R * option X) E) :=
  match op item with
  | Val (Ok out) => Val (Ok (tt, Some out, None))
  | Val (Err e) => Val (Err e)
  | Unwind p => Unwind p
  end.
Definition par_index_try_leaf {E} (op : T → res P (rresult R E)) (start end_ : nat) :
    prg (res P (rresult unit E)) :=
  leaf_over true true read_in (try_body op) tt start end_.

(** [par_for_each_leaf]: [consume] unwinds or performs the effect [x]. *)
Definition sink_body {E} (consume : T → res P X) (item : T) (_ : unit) :
    res P (rresult (unit * option R * option X) E) :=
  match consume item with
  | Val x => Val (Ok (tt, None, Some x))
  | Unwind p => Unwind p
  end.
Definition par_for_each_leaf {E} (consume : T → res P X) (start end_ : nat) :
    prg (res P (rresult unit E)) :=
  leaf_over false true read_in (sink_body consume) tt start end_.
End leaves.

(** [par_range_gen_leaf]: the item at index [i] of the range is [base + i]. *)
Definition par_range_gen_leaf {R X P E : Type} (base : nat) (op : nat → res P R) (start end_ : nat) :
    prog (nat + R) X (res P (rresult unit E)) :=
  leaf_over true false (λ i, Done (base + i)%nat) (apply_body op) tt start end_.

(** ** The tree *)

Section tree.
Context {V X P F : Type} (from_payload : P → F).
Context (leaf : nat → nat → prog V X (res P (rresult unit F))).
Context (drop_success_range : nat → nat → prog V X unit).

Definition is_ok (r : res P (rresult unit F)) : bool :=
  match r with Val (Ok _) => true | _ => false end.

(** The internal node after its join: both halves succeeded, or the completed
    siblings' ranges are dropped and a failure is reported - a captured panic
    first, the left failure before the right one. *)
Definition tree_node (start mid end_ : nat) (l r : res P (rresult unit F)) :
    prog V X (res P (rresult unit F)) :=
  if is_ok l && is_ok r then Done (Val (Ok tt))
  else
    (if is_ok l then drop_success_range start mid else Done tt) ;;
    (if is_ok r then drop_success_range mid end_ else Done tt) ;;
    match l, r with
    | Unwind p, _ => Done (Val (Err (from_payload p)))
    | _, Unwind p => Done (Val (Err (from_payload p)))
    | Val (Err e), _ => Done (Val (Err e))
    | Val (Ok _), Val (Err e) => Done (Val (Err e))
    | Val (Ok _), Val (Ok _) => Fault
    end.

(** [par_tree_rec].  An unwind that leaves the join passes through the
    [SiblingGuard], which drops the left range. *)
Fixpoint par_tree_rec (splits_left start end_ : nat) : prog V X (res P (rresult unit F)) :=
  match splits_left with
  | O => leaf start end_
  | S splits =>
      if bool_decide (end_ - start ≤ 1)%nat then leaf start end_
      else
        let mid := (start + (end_ - start) / 2)%nat in
        plet j := join_on_captured (par_tree_rec splits start mid) (par_tree_rec splits mid end_) in
        match j with
        | Val (l, r) => tree_node start mid end_ l r
        | Unwind p => drop_success_range start mid ;; Done (Unwind p)
        end
  end.
End tree.

(** ** Dropping and reclaiming slots *)

Section slot_rules.
Context {T R X : Type} (steal : bool → bool).
Implicit Types (D : gset loc) (f : loc → option (T + R)).

(** Dropping live slots leaves them dead and nothing else changed. *)
Lemma drop_each_spec b D n i f Q :
  (∀ j, (i ≤ j < i + n)%nat → (b, j) ∈ D ∧ is_Some (f (b, j))) →
  (∀ g, (∀ l, l.1 = b → (i ≤ l.2 < i + n)%nat → g l = None) →
        (∀ l, l.1 ≠ b ∨ ¬ (i ≤ l.2 < i + n)%nat → g l = f l) → Q tt (own D g) []) →
  always (X := X) steal (drop_each b i n) (own D f) Q.
Proof.
  revert i f. induction n as [|n IH]; intros i f Hlive HQ; cbn.
  - constructor. apply HQ; [intros; lia|done].
  - destruct (Hlive i) as [Hi [v Hv]]; [lia|].
    eapply always_kill; [rewrite own_in by done; by rewrite Hv|].
    rewrite own_insert by done. apply IH.
    + intros j Hj. rewrite decide_False by (intros [= ->]; lia). apply Hlive; lia.
    + intros g Hg1 Hg2. apply HQ.
      * intros [b' j] ? ?; cbn in *; subst. destruct (decide (j = i)) as [->|Hne].
        { rewrite Hg2 by (right; cbn; lia). by rewrite decide_True. }
        apply Hg1; cbn; [done|lia].
      * intros [b' j] Hl; cbn in *. rewrite Hg2.
        { rewrite decide_False; [done|]. intros [= -> ->]. destruct Hl; [done|lia]. }
        cbn. destruct Hl; [by left|right; lia].
Qed.

(** [into_vec] of initialised slots returns the outputs in order. *)
Lemma into_vec_spec b D (y : nat → R) n i f Q :
  (∀ j, (i ≤ j < i + n)%nat → (b, j) ∈ D ∧ f (b, j) = Some (inr (y j))) →
  (∀ g, (∀ l, l.1 = b → (i ≤ l.2 < i + n)%nat → g l = None) →
        (∀ l, l.1 ≠ b ∨ ¬ (i ≤ l.2 < i + n)%nat → g l = f l) →
        Q (y <$> seq i n) (own D g) []) →
  always (X := X) steal (into_vec b i n) (own D f) Q.
Proof.
  revert i f Q. induction n as [|n IH]; intros i f Q Hlive HQ; cbn.
  - constructor. apply HQ; [intros; lia|done].
  - destruct (Hlive i) as [Hi Hv]; [lia|].
    eapply always_take; [rewrite own_in by done; by rewrite Hv|].
    rewrite own_insert by done. apply always_bind. apply IH.
    + intros j Hj. rewrite decide_False by (intros [= ->]; lia). apply Hlive; lia.
    + intros g Hg1 Hg2. constructor. apply HQ.
      * intros [b' j] ? ?; cbn in *; subst. destruct (decide (j = i)) as [->|Hne].
        { rewrite Hg2 by (right; cbn; lia). by rewrite decide_True. }
        apply Hg1; cbn; [done|lia].
      * intros [b' j] Hl; cbn in *. rewrite Hg2.
        { rewrite decide_False; [done|]. intros [= -> ->]. destruct Hl; [done|lia]. }
        cbn. destruct Hl; [by left|right; lia].
Qed.
End slot_rules.

(** A constant branch, the flag kept elsewhere. *)
Lemma if_T {A} (b : bool) (p q : A) : b = true → (if b then p else q) = p.
Proof. by intros ->. Qed.
Lemma if_F {A} (b : bool) (p q : A) : b = false → (if b then p else q) = q.
Proof. by intros ->. Qed.
Ltac by_flag b H :=
  destruct (Bool.bool_dec b true) as [H|H%not_true_is_false];
  [rewrite ?(if_T b) by exact H|rewrite ?(if_F b) by exact H].

(** ** The slots of a leaf *)

Section leaf_slots.
Context (OUT IN : bool).
Implicit Types s m e i : nat.

(** The slots a leaf over [s, e) owns. *)
Definition leaf_slots (s e : nat) : gset loc :=
  (if IN then slots_of BIn s e else ∅) ∪ (if OUT then slots_of BOut s e else ∅).

Lemma leaf_slots_in s e i : IN = true → (s ≤ i < e)%nat → (BIn, i) ∈ leaf_slots s e.
Proof. intros HI ?. unfold leaf_slots. rewrite HI. apply elem_of_union_l, elem_of_slots. done. Qed.
Lemma leaf_slots_out s e i : OUT = true → (s ≤ i < e)%nat → (BOut, i) ∈ leaf_slots s e.
Proof. intros HO ?. unfold leaf_slots. rewrite HO. apply elem_of_union_r, elem_of_slots. done. Qed.
Lemma elem_of_leaf_slots s e l :
  l ∈ leaf_slots s e → (s ≤ l.2 < e)%nat ∧ (l.1 = BIn ∧ IN = true ∨ l.1 = BOut ∧ OUT = true).
Proof.
  unfold leaf_slots. rewrite elem_of_union. destruct IN, OUT; rewrite ?elem_of_slots; set_solver.
Qed.

Lemma leaf_slots_split s m e : (s ≤ m ≤ e)%nat →
  leaf_slots s e = leaf_slots s m ∪ leaf_slots m e.
Proof.
  intros Hm. apply set_eq. intros [b i]. unfold leaf_slots. rewrite !elem_of_union.
  destruct IN, OUT; rewrite ?elem_of_slots, ?elem_of_empty; cbn;
    destruct (decide (i < m)%nat); intuition lia.
Qed.

Lemma leaf_slots_disj s m e : (s ≤ m ≤ e)%nat → leaf_slots s m ## leaf_slots m e.
Proof.
  intros Hm l [? _]%elem_of_leaf_slots [? _]%elem_of_leaf_slots. lia.
Qed.
End leaf_slots.

(** ** What a leaf guarantees *)

Section leaf_rules.
Context {T R X P S E : Type} (steal : bool → bool).
Notation prg := (prog (T + R) X).
(** The items by index, the outputs of the successful ones, the access to an
    item and the operation. *)
Context (OUT IN : bool) (x : nat → T) (y : nat → R) (read : nat → prg T).
Context (body : T → S → res P (rresult (S * option R * option X) E)).
(** The number of items. *)
Context (N : nat).

(** The contents of the slots when the items below [w] are done. *)
Definition slots_at (w : nat) (l : loc) : option (T + R) :=
  match l.1 with
  | BIn => if bool_decide (l.2 < w)%nat then None else Some (inl (x l.2))
  | BOut => if bool_decide (l.2 < w)%nat then Some (inr (y l.2)) else None
  | BCell => None
  end.
Definition slots_dead (l : loc) : option (T + R) := None.

(** What the leaf computes: the sequential loop, with the effects performed. *)
Fixpoint leaf_result (i todo : nat) (acc : S) : res P (rresult S E) * list X :=
  match todo with
  | O => (Val (Ok acc), [])
  | Datatypes.S todo =>
      match body (x i) acc with
      | Val (Ok (acc', _, ev)) =>
          let r := leaf_result (Datatypes.S i) todo acc' in
          (r.1, match ev with Some e => e :: r.2 | None => r.2 end)
      | Val (Err e) => (Val (Err e), [])
      | Unwind p => (Unwind p, [])
      end
  end.

(** The memory while iteration [w] runs: its item moved out, not yet stored. *)
Definition slots_during (w : nat) (l : loc) : option (T + R) :=
  if decide (IN = true ∧ l = (BIn, w)) then None else slots_at w l.

Lemma slots_during_tail w j : (w < j)%nat → slots_during w (BIn, j) = Some (inl (x j)).
Proof.
  intros. unfold slots_during, slots_at. rewrite decide_False by (intros [_ [= ->]]; lia).
  cbn. by rewrite bool_decide_eq_false_2 by lia.
Qed.
Lemma slots_during_out w j : (j < w)%nat → slots_during w (BOut, j) = Some (inr (y j)).
Proof.
  intros. unfold slots_during, slots_at. rewrite decide_False by naive_solver.
  cbn. by rewrite bool_decide_eq_true_2 by lia.
Qed.
Lemma slots_during_none s e w l :
  l ∈ leaf_slots OUT IN s e → (l.1 = BIn → (l.2 ≤ w)%nat) → (l.1 = BOut → (w ≤ l.2)%nat) →
  slots_during w l = None.
Proof.
  intros [_ Hl]%elem_of_leaf_slots H1 H2. unfold slots_during, slots_at.
  case_decide as Hd; [done|]. destruct l as [b j]; cbn in *.
  destruct Hl as [[-> HI]|[-> HO]].
  - assert (j ≠ w) by (intros ->; naive_solver). specialize (H1 eq_refl).
    by rewrite bool_decide_eq_true_2 by lia.
  - specialize (H2 eq_refl). by rewrite bool_decide_eq_false_2 by lia.
Qed.

(** Storing the output of iteration [w] completes it. *)
Lemma slots_next s e w l :
  l ∈ leaf_slots OUT IN s e →
  (if decide (l = (BOut, w)) then Some (inr (y w)) else slots_during w l) = slots_at (Datatypes.S w) l.
Proof.
  intros [_ Hl]%elem_of_leaf_slots. unfold slots_during, slots_at. destruct l as [b j]; cbn in *.
  destruct Hl as [[-> HI]|[-> HO]].
  - rewrite decide_False by done. case_decide as Hd.
    + destruct Hd as [_ [= ->]]. by rewrite bool_decide_eq_true_2 by lia.
    + assert (j ≠ w) by (intros ->; naive_solver). by repeat case_bool_decide; try lia.
  - case_decide as Hd.
    + injection Hd as ->. by rewrite bool_decide_eq_true_2 by lia.
    + assert (j ≠ w) by congruence. rewrite decide_False by naive_solver.
      by repeat case_bool_decide; try lia.
Qed.

(** The input half of the guard: the unread tail is dropped. *)
Lemma cleanup_in_spec (s n w : nat) (f : loc → option (T + R)) (Q : unit → mem (T + R) → list X → Prop) :
  (∀ j, IN = true → (s + w < j < s + n)%nat → is_Some (f (BIn, j))) →
  (∀ l, l ∈ leaf_slots OUT IN s (s + n) → (l.1 = BIn → (l.2 ≤ s + w)%nat) → f l = None) →
  Q tt (own (leaf_slots OUT IN s (s + n)) slots_dead) [] →
  always steal (if IN then drop_each BIn (s + Datatypes.S w) (n - Datatypes.S w) else Done tt)
    (own (leaf_slots OUT IN s (s + n)) f) Q.
Proof.
  intros Hf1 Hf2 HQ. by_flag IN HI.
  - apply drop_each_spec.
    + intros j Hj. split; [apply leaf_slots_in; [done|lia]|]. apply Hf1; [done|lia].
    + intros g Hg1 Hg2. erewrite own_ext; [exact HQ|]. intros l Hl. cbn.
      destruct (decide (l.1 = BIn ∧ (s + Datatypes.S w ≤ l.2)%nat)) as [[Hb Hle]|Hno].
      * apply elem_of_leaf_slots in Hl as [Hr _]. apply Hg1; [done|lia].
      * rewrite Hg2; [|destruct (decide (l.1 = BIn)); [right; naive_solver lia|by left]].
        apply Hf2; [done|]. intros Hb. destruct (decide (l.2 ≤ s + w)%nat); [done|].
        exfalso. apply Hno. split; [done|lia].
  - constructor. erewrite own_ext; [exact HQ|]. intros l Hl. apply Hf2; [done|].
    apply elem_of_leaf_slots in Hl as [_ [[? ?]|[-> ?]]]; [congruence|done].
Qed.

(** The guard leaves no live slot in the leaf's range. *)
Lemma cleanup_spec (s n w : nat) (Q : unit → mem (T + R) → list X → Prop) :
  (w < n)%nat →
  Q tt (own (leaf_slots OUT IN s (s + n)) slots_dead) [] →
  always steal (cleanup OUT IN s n w) (own (leaf_slots OUT IN s (s + n)) (slots_during (s + w))) Q.
Proof.
  intros Hw HQ. apply always_bind. by_flag OUT HO.
  - apply drop_each_spec.
    + intros j Hj. split; [apply leaf_slots_out; [done|lia]|].
      rewrite slots_during_out by lia. done.
    + intros g Hg1 Hg2. apply cleanup_in_spec; [| |done].
      * intros j HI Hj. rewrite Hg2 by (by left). by rewrite slots_during_tail by lia.
      * intros l Hl Hb. destruct (decide (l.1 = BOut ∧ (l.2 < s + w)%nat)) as [[Hb' ?]|Hno].
        { apply elem_of_leaf_slots in Hl as [? _]. apply Hg1; [done|lia]. }
        rewrite Hg2 by (destruct (decide (l.1 = BOut)); [right; naive_solver lia|by left]).
        eapply slots_during_none; [done|done|]. intros ?.
        destruct (decide (s + w ≤ l.2)%nat); [done|]. destruct Hno. split; [done|lia].
  - constructor. apply cleanup_in_spec; [| |done].
    + intros j HI Hj. by rewrite slots_during_tail by lia.
    + intros l Hl Hb. eapply slots_during_none; [done|done|].
      apply elem_of_leaf_slots in Hl as [_ [[-> _]|[_ ?]]]; [done|congruence].
Qed.

(** Reading item [i] moves it out of its slot when the leaf owns the input. *)
Hypothesis read_spec : ∀ D f i Q, (i < N)%nat →
  (if IN then (BIn, i) ∈ D ∧ f (BIn, i) = Some (inl (x i)) else True) →
  Q (x i) (own D (λ l, if decide (IN = true ∧ l = (BIn, i)) then None else f l)) [] →
  always steal (read i) (own D f) Q.
(** An iteration that succeeds stores the item's output, when there is one. *)
Hypothesis body_out : ∀ i acc acc' o ev,
  body (x i) acc = Val (Ok (acc', o, ev)) → o = if OUT then Some (y i) else None.


(** The loop from iteration [w] on. *)
Lemma leaf_loop_spec (s n todo w : nat) (acc : S) Q :
  (w + todo = n)%nat → (s + n ≤ N)%nat →
  let r := leaf_result (s + w) todo acc in
  Q r.1 (own (leaf_slots OUT IN s (s + n))
          (match r.1 with Val (Ok _) => slots_at (s + n) | _ => slots_dead end)) r.2 →
  always steal (leaf_loop OUT IN read body s n todo w acc)
    (own (leaf_slots OUT IN s (s + n)) (slots_at (s + w))) Q.
Proof.
  revert w acc Q. induction todo as [|todo IH]; intros w acc Q Hn HN r HQ; subst r; cbn in *.
  { constructor. by replace w with n by lia. }
  apply always_bind. apply read_spec; [lia|..].
  { by_flag IN HI; [|done]. split; [apply leaf_slots_in; [done|lia]|].
    unfold slots_at. cbn. by rewrite bool_decide_eq_false_2 by lia. }
  fold (slots_during (s + w)).
  destruct (body (x (s + w)) acc) as [[[[acc' o] ev]|e]|p] eqn:Eb.
  - pose proof (body_out _ _ _ _ _ Eb) as ->.
    assert (∀ Q, (let r := leaf_result (s + Datatypes.S w) todo acc' in
      Q r.1 (own (leaf_slots OUT IN s (s + n))
          (match r.1 with Val (Ok _) => slots_at (s + n) | _ => slots_dead end)) r.2) →
      always steal (match (if OUT then Some (y (s + w)%nat) else None) with
        | Some r => write_out (s + w) r (leaf_loop OUT IN read body s n todo (Datatypes.S w) acc')
        | None => leaf_loop OUT IN read body s n todo (Datatypes.S w) acc' end)
        (own (leaf_slots OUT IN s (s + n)) (slots_during (s + w))) Q) as Hstore.
    { intros Q' HQ'. specialize (IH (Datatypes.S w) acc' Q' ltac:(lia) HN HQ').
      by_flag OUT HO.
      - eapply always_put; [rewrite own_in by (apply leaf_slots_out; [done|lia])|].
        + f_equal. eapply (slots_during_none s (s + n)); [apply leaf_slots_out; [done|lia]|done|cbn; lia].
        + rewrite own_insert by (apply leaf_slots_out; [done|lia]). erewrite own_ext; [exact IH|].
          intros l Hl. cbn. rewrite Nat.add_succ_r. by eapply slots_next.
      - erewrite own_ext; [exact IH|]. intros l Hl. rewrite Nat.add_succ_r.
        rewrite <- (slots_next _ _ _ _ Hl), decide_False; [done|].
        intros ->. apply elem_of_leaf_slots in Hl as [_ [[? _]|[_ ?]]]; [done|congruence]. }
    rewrite <- Nat.add_succ_r in HQ.
    destruct ev as [ev|]; [apply always_emit|]; by apply Hstore.
  - apply always_bind. apply cleanup_spec; [lia|]. by constructor.
  - apply always_bind. apply cleanup_spec; [lia|]. by constructor.
Qed.

(** All inputs consumed, all outputs initialised. *)
Definition slots_done (l : loc) : option (T + R) :=
  match l.1 with BOut => Some (inr (y l.2)) | _ => None end.

Lemma leaf_over_spec (s e : nat) (acc : S) Q :
  (s ≤ e ≤ N)%nat →
  let r := leaf_result s (e - s) acc in
  Q r.1 (own (leaf_slots OUT IN s e)
          (match r.1 with Val (Ok _) => slots_done | _ => slots_dead end)) r.2 →
  always steal (leaf_over OUT IN read body acc s e) (own (leaf_slots OUT IN s e) (slots_at 0)) Q.
Proof.
  intros Hse r HQ. subst r.
  pose proof (leaf_loop_spec s (e - s) (e - s) 0 acc Q ltac:(lia) ltac:(lia)) as Hloop.
  replace (s + (e - s))%nat with e in Hloop by lia. rewrite Nat.add_0_r in Hloop.
  unfold leaf_over. erewrite own_ext; [apply Hloop|].
  - erewrite own_ext; [exact HQ|]. intros l [Hr _]%elem_of_leaf_slots.
    destruct (leaf_result s (e - s) acc).1 as [[]|]; [|done|done].
    unfold slots_at, slots_done. destruct l.1; rewrite ?bool_decide_eq_true_2 by lia; done.
  - intros l [Hr _]%elem_of_leaf_slots.
    unfold slots_at. destruct l.1; [..|done]; by rewrite !bool_decide_eq_false_2 by lia.
Qed.
End leaf_rules.

(** ** What the tree guarantees *)

Section tree_rules.
Context {V X P F : Type} (steal : bool → bool) (from_payload : P → F).
Context (leaf : nat → nat → prog V X (res P (rresult unit F))).
Context (drop_success_range : nat → nat → prog V X unit).
(** The slots of a range, their contents before and after, the failure and the
    effect of each item. *)
Context (D : nat → nat → gset loc) (pre done dead : loc → option V).
Context (fail : nat → option (P + F)) (eff : nat → list X) (n : nat).
Implicit Types s e mid i j k : nat.

(** The failure of the first item of [s, s+k) that fails. *)
Fixpoint first_fail (s k : nat) : option (P + F) :=
  match k with
  | O => None
  | S k => match fail s with Some f => Some f | None => first_fail (S s) k end
  end.

Definition effects (s e : nat) : list X := concat (eff <$> seq s (e - s)).

(** A result of a range, with the memory and the effects it goes with.  A
    range fails exactly when one of its items does, with the failure of one of
    them, and with the first one's when none of them panics. *)
Definition failed_with (s e : nat) (f : F) : Prop :=
  ∃ i, (s ≤ i < e)%nat ∧
    (fail i = Some (inr f) ∨ ∃ p, fail i = Some (inl p) ∧ f = from_payload p).
Definition range_post (s e : nat) (r : res P (rresult unit F)) (m : mem V) (es : list X) : Prop :=
  match r with
  | Val (Ok _) =>
      first_fail s (e - s) = None ∧ m = own (D s e) done ∧ es ≡ₚ effects s e
  | Val (Err f) =>
      failed_with s e f ∧
      ((∀ i p, (s ≤ i < e)%nat → fail i ≠ Some (inl p)) → first_fail s (e - s) = Some (inr f)) ∧
      m = own (D s e) dead ∧ es ⊆+ effects s e
  | Unwind p =>
      (∃ i, (s ≤ i < e)%nat ∧ fail i = Some (inl p)) ∧
      m = own (D s e) dead ∧ es ⊆+ effects s e
  end.

Hypothesis leaf_spec : ∀ s e, (s ≤ e ≤ n)%nat →
  always steal (leaf s e) (own (D s e) pre) (range_post s e).
Hypothesis drop_spec : ∀ s e, (s ≤ e ≤ n)%nat →
  always steal (drop_success_range s e) (own (D s e) done)
    (λ _ m es, m = own (D s e) dead ∧ es = []).
Hypothesis D_split : ∀ s m e, (s ≤ m ≤ e)%nat → (e ≤ n)%nat → D s e = D s m ∪ D m e.
Hypothesis D_disj : ∀ s m e, (s ≤ m ≤ e)%nat → D s m ## D m e.
(** The scheduler steals, or no item panics after another one failed. *)
Hypothesis some_schedule : ∃ c, steal c = true.
Hypothesis no_late_panic : steal false = true →
  ∀ i j p, (i < j < n)%nat → fail i ≠ None → fail j ≠ Some (inl p).

Lemma first_fail_app s k1 k2 :
  first_fail s (k1 + k2) =
    match first_fail s k1 with Some f => Some f | None => first_fail (s + k1) k2 end.
Proof.
  revert s. induction k1 as [|k1 IH]; intros s; cbn; [by rewrite Nat.add_0_r|].
  destruct (fail s); [done|]. rewrite IH. by rewrite Nat.add_succ_r.
Qed.

Lemma first_fail_split s m e : (s ≤ m ≤ e)%nat →
  first_fail s (e - s) =
    match first_fail s (m - s) with Some f => Some f | None => first_fail m (e - m) end.
Proof.
  intros. replace (e - s)%nat with ((m - s) + (e - m))%nat by lia.
  rewrite first_fail_app. by replace (s + (m - s))%nat with m by lia.
Qed.

Lemma effects_split s m e : (s ≤ m ≤ e)%nat → effects s e = effects s m ++ effects m e.
Proof.
  intros. unfold effects. replace (e - s)%nat with ((m - s) + (e - m))%nat by lia.
  rewrite seq_app, fmap_app, concat_app. by replace (s + (m - s))%nat with m by lia.
Qed.

Lemma failed_with_l s m e f : (m ≤ e)%nat → failed_with s m f → failed_with s e f.
Proof. intros ? (i & Hi & Hf). exists i. split; [lia|done]. Qed.
Lemma failed_with_r s m e f : (s ≤ m)%nat → failed_with m e f → failed_with s e f.
Proof. intros ? (i & Hi & Hf). exists i. split; [lia|done]. Qed.

Definition after (r : res P (rresult unit F)) : loc → option V := if is_ok r then done else dead.

Lemma range_post_mem s e r m es :
  range_post s e r m es → m = own (D s e) (after r) ∧ es ⊆+ effects s e.
Proof.
  unfold after. destruct r as [[[]|f]|p]; cbn.
  - intros (_ & -> & ->). done.
  - by intros (_ & _ & -> & ?).
  - by intros (_ & -> & ?).
Qed.

(** Dropping the range of a completed half leaves it dead; a failed half
    already is. *)
Lemma drop_half (b : bool) s e (mf : mem V) :
  (s ≤ e ≤ n)%nat → (∀ f, own (D s e) f ##ₘ mf) →
  always steal (if b then drop_success_range s e else Done tt)
    (own (D s e) (if b then done else dead) ∪ mf)
    (λ _ m es, m = own (D s e) dead ∪ mf ∧ es = []).
Proof.
  intros Hse Hd. destruct b; [|by constructor].
  eapply always_mono; [apply always_frame; [by apply drop_spec|done]|].
  by intros _ m' es (m0 & -> & _ & -> & ->).
Qed.

(** The failure an internal node reports. *)
Lemma tree_node_failure s mid e l r m1 m2 (e1 e2 : list X) :
  (s ≤ mid ≤ e)%nat → is_ok l && is_ok r = false →
  range_post s mid l m1 e1 → range_post mid e r m2 e2 →
  ∃ f, match l, r with
    | Unwind p, _ => Done (Val (Err (from_payload p)))
    | _, Unwind p => Done (Val (Err (from_payload p)))
    | Val (Err e), _ => Done (Val (Err e))
    | Val (Ok _), Val (Err e) => Done (Val (Err e))
    | Val (Ok _), Val (Ok _) => Fault
    end = Done (V := V) (X := X) (Val (P := P) (Err (A := unit) f)) ∧
    failed_with s e f ∧
    ((∀ i p, (s ≤ i < e)%nat → fail i ≠ Some (inl p)) → first_fail s (e - s) = Some (inr f)).
Proof.
  intros Hr Hok Hl Hr'. rewrite (first_fail_split s mid e) by done.
  assert (∀ i p, (s ≤ i < e)%nat → fail i = Some (inl p) → failed_with s e (from_payload p)) as Hp.
  { intros i p Hi Hf. exists i. eauto. }
  destruct l as [[[]|el]|pl], r as [[[]|er]|pr]; cbn in *; try done; eexists; (split; [done|]).
  - destruct Hl as (-> & _ & _), Hr' as (? & Hf & _). split; [eapply (failed_with_r s mid); [lia|done]|].
    intros Hno. apply Hf. intros i p Hi. apply Hno. lia.
  - destruct Hr' as ((i & Hi & Hf) & _). split; [eapply (Hp i); [lia|done]|].
    intros Hno. destruct (Hno i pr); [lia|done].
  - destruct Hl as (? & Hf & _). split; [eapply (failed_with_l s mid); [lia|done]|].
    intros Hno. rewrite Hf; [done|]. intros i p Hi. apply Hno. lia.
  - destruct Hl as (? & Hf & _). split; [eapply (failed_with_l s mid); [lia|done]|].
    intros Hno. rewrite Hf; [done|]. intros i p Hi. apply Hno. lia.
  - destruct Hr' as ((i & Hi & Hf) & _). split; [eapply (Hp i); [lia|done]|].
    intros Hno. destruct (Hno i pr); [lia|done].
  - destruct Hl as ((i & Hi & Hf) & _). split; [eapply (Hp i); [lia|done]|].
    intros Hno. destruct (Hno i pl); [lia|done].
  - destruct Hl as ((i & Hi & Hf) & _). split; [eapply (Hp i); [lia|done]|].
    intros Hno. destruct (Hno i pl); [lia|done].
  - destruct Hl as ((i & Hi & Hf) & _). split; [eapply (Hp i); [lia|done]|].
    intros Hno. destruct (Hno i pl); [lia|done].
Qed.

Lemma tree_node_spec s mid e l r m1 m2 (e1 e2 es : list X) :
  (s ≤ mid ≤ e)%nat → (e ≤ n)%nat →
  range_post s mid l m1 e1 → range_post mid e r m2 e2 → es ≡ₚ e1 ++ e2 →
  always steal (tree_node from_payload drop_success_range s mid e l r) (m1 ∪ m2)
    (λ r m es', range_post s e r m (es ++ es')).
Proof.
  intros Hr Hn Hl Hr' Hes.
  destruct (range_post_mem _ _ _ _ _ Hl) as [Hm1 Hs1], (range_post_mem _ _ _ _ _ Hr') as [Hm2 Hs2].
  assert (es ⊆+ effects s e) as Hsub.
  { rewrite Hes, (effects_split s mid e) by done. by apply submseteq_app. }
  unfold tree_node. destruct (is_ok l && is_ok r) eqn:Hok.
  - apply andb_true_iff in Hok as [H1 H2].
    destruct l as [[[]|]|]; [|done|done]. destruct r as [[[]|]|]; [|done|done]. constructor.
    destruct Hl as (Hf1 & -> & He1), Hr' as (Hf2 & -> & He2). rewrite app_nil_r. split_and!.
    + by rewrite (first_fail_split s mid e), Hf1.
    + by rewrite own_union, <- D_split.
    + by rewrite Hes, He1, He2, (effects_split s mid e).
  - destruct (tree_node_failure s mid e l r m1 m2 e1 e2 Hr Hok Hl Hr') as (f & Hf & Hfw & Hff).
    rewrite Hf. subst m1 m2. apply always_bind.
    eapply always_mono; [apply drop_half; [lia|]|].
    { intros g. apply own_disjoint, D_disj. done. }
    intros [] m' es' [-> ->]. apply always_bind.
    rewrite map_union_comm by (apply own_disjoint, D_disj; done).
    eapply always_mono; [apply drop_half; [lia|]|].
    { intros g. symmetry. apply own_disjoint, D_disj. done. }
    intros [] m' es' [-> ->]. constructor. rewrite !app_nil_r. cbn. split_and!; [done|done| |done].
    rewrite own_union, (union_comm_L (D mid e)). by rewrite <- D_split.
Qed.

(** The contract of [par_tree_rec], for every split budget. *)
Lemma tree_spec splits s e :
  (s ≤ e ≤ n)%nat →
  always steal (par_tree_rec from_payload leaf drop_success_range splits s e)
    (own (D s e) pre) (range_post s e).
Proof.
  revert s e. induction splits as [|splits IH]; intros s e Hse; cbn [par_tree_rec]; [by apply leaf_spec|].
  case_bool_decide as Hlen; [by apply leaf_spec|].
  set (mid := (s + (e - s) / 2)%nat). cbv zeta.
  assert (s ≤ mid ≤ e)%nat as Hmid.
  { pose proof (Nat.Div0.div_le_upper_bound (e - s) 2 (e - s)). subst mid. lia. }
  rewrite (D_split s mid e), <- own_union by lia. apply always_bind.
  eapply always_join_captured; [done|apply IH; lia|apply IH; lia| |].
  { apply own_disjoint, D_disj. done. }
  intros l r m1 m2 e1 e2 es Hl Hr Hd Hes. split.
  - eapply always_mono; [eapply (tree_node_spec s mid e); [done|lia|done|done|done]|]. done.
  - intros Hself Hv p ->.
    destruct (range_post_mem _ _ _ _ _ Hl) as [-> Hs1], (range_post_mem _ _ _ _ _ Hr) as [-> Hs2].
    destruct Hr as ((j & Hj & Hfj) & _).
    assert (l = Val (Ok tt)) as ->.
    { destruct l as [[[]|f]|]; [done| |done]. destruct Hl as ((i & Hi & Hfi) & _).
      destruct (no_late_panic Hself i j p); [lia| |done].
      destruct Hfi as [->|(? & -> & _)]; done. }
    apply always_bind. cbn. eapply always_mono; [apply (drop_half true); [lia|]|].
    { intros g. apply own_disjoint, D_disj. done. }
    intros [] m' es' [-> ->]. constructor. rewrite !app_nil_r. cbn. split_and!.
    + exists j. split; [lia|done].
    + by rewrite own_union, <- D_split by lia.
    + rewrite Hes, (effects_split s mid e) by done. by apply submseteq_app.
Qed.
End tree_rules.

(** ** A leaf without accumulator meets the tree's contract *)

Section leaf_post.
Context {T R X P E F : Type} (steal : bool → bool) (from_payload : P → F) (of_error : E → F).
Context (OUT IN : bool) (x : nat → T) (y : nat → R) (read : nat → prog (T + R) X T).
Context (body : T → unit → res P (rresult (unit * option R * option X) E)) (N : nat).
Implicit Types s e i k : nat.

(** A leaf's result, its error converted ([map_err]). *)
Definition map_err (r : res P (rresult unit E)) : res P (rresult unit F) :=
  match r with
  | Val (Ok u) => Val (Ok u)
  | Val (Err e) => Val (Err (of_error e))
  | Unwind p => Unwind p
  end.

(** The failure and the effect of item [i]. *)
Definition item_fail (i : nat) : option (P + F) :=
  match body (x i) tt with
  | Val (Ok _) => None
  | Val (Err e) => Some (inr (of_error e))
  | Unwind p => Some (inl p)
  end.
Definition item_eff (i : nat) : list X :=
  match body (x i) tt with Val (Ok (_, _, Some ev)) => [ev] | _ => [] end.

Lemma leaf_result_fail s k :
  map_err (leaf_result x body s k tt).1 =
    match first_fail item_fail s k with
    | None => Val (Ok tt)
    | Some (inl p) => Unwind p
    | Some (inr f) => Val (Err f)
    end.
Proof.
  revert s. induction k as [|k IH]; intros s; cbn; [done|]. unfold item_fail at 1.
  destruct (body (x s) tt) as [[[[[] o] ev]|f]|p]; [|done|done]. apply IH.
Qed.

Lemma leaf_result_effects s k :
  (leaf_result x body s k tt).2 ⊆+ concat (item_eff <$> seq s k) ∧
  (first_fail item_fail s k = None → (leaf_result x body s k tt).2 = concat (item_eff <$> seq s k)).
Proof.
  revert s. induction k as [|k IH]; intros s; cbn; [done|]. unfold item_fail at 1, item_eff at 1 3.
  destruct (IH (S s)) as [IH1 IH2].
  destruct (body (x s) tt) as [[[[[] o] [ev|]]|f]|p]; cbn.
  - split; [by apply submseteq_skip|]. intros Hf. by rewrite IH2.
  - done.
  - split; [apply submseteq_nil_l|done].
  - split; [apply submseteq_nil_l|done].
Qed.

Lemma first_fail_some s k f :
  first_fail item_fail s k = Some f → ∃ i, (s ≤ i < s + k)%nat ∧ item_fail i = Some f.
Proof.
  revert s. induction k as [|k IH]; intros s; cbn; [done|].
  destruct (item_fail s) eqn:Ef; [intros [= ->]; exists s; split; [lia|done]|].
  intros (i & Hi & Hf)%IH. exists i. split; [lia|done].
Qed.

Hypothesis read_spec : ∀ D f i Q, (i < N)%nat →
  (if IN then (BIn, i) ∈ D ∧ f (BIn, i) = Some (inl (x i)) else True) →
  Q (x i) (own D (λ l, if decide (IN = true ∧ l = (BIn, i)) then None else f l)) [] →
  always steal (read i) (own D f) Q.
Hypothesis body_out : ∀ i acc acc' o ev,
  body (x i) acc = Val (Ok (acc', o, ev)) → o = if OUT then Some (y i) else None.

Lemma leaf_range_post s e :
  (s ≤ e ≤ N)%nat →
  always steal (leaf_over OUT IN read body tt s e)
    (own (leaf_slots OUT IN s e) (slots_at x y 0))
    (λ r, range_post from_payload (leaf_slots OUT IN) (slots_done y) slots_dead item_fail item_eff s e
            (map_err r)).
Proof.
  intros Hse. apply (leaf_over_spec steal OUT IN x y read body N read_spec body_out); [done|].
  destruct (leaf_result_effects s (e - s)) as [He1 He2].
  pose proof (leaf_result_fail s (e - s)) as Hr.
  assert (∀ r, match map_err r with Val (Ok _) => slots_done (T := T) y | _ => slots_dead end =
    match r with Val (Ok _) => slots_done y | _ => slots_dead end) as Hm by (by intros [[]|]).
  rewrite <- Hm, Hr. destruct (first_fail item_fail s (e - s)) as [[p|f]|] eqn:Ef; cbn.
  - apply first_fail_some in Ef as (i & Hi & Ef). split_and!; [|done|done].
    exists i. split; [lia|done].
  - split_and!; [|done|done|done]. apply first_fail_some in Ef as (i & Hi & Ef).
    exists i. split; [lia|by left].
  - split_and!; [done|done|]. by rewrite He2.
Qed.

(** Dropping the outputs of a completed range. *)
Lemma drop_range_done s e :
  OUT = true →
  always (X := X) steal (drop_range BOut s e) (own (leaf_slots OUT IN s e) (slots_done y))
    (λ _ m es, m = own (leaf_slots OUT IN s e) (slots_dead (T := T)) ∧ es = []).
Proof.
  intros HO. apply drop_each_spec.
  - intros j Hj. split; [apply leaf_slots_out; [done|lia]|done].
  - intros g Hg1 Hg2. split; [|done]. apply own_ext. intros l Hl.
    apply elem_of_leaf_slots in Hl as [Hr [[Hb _]|[Hb _]]].
    + rewrite Hg2 by (left; by rewrite Hb). unfold slots_done. by rewrite Hb.
    + rewrite Hg1; [done|done|lia].
Qed.

(** Without outputs there is nothing to drop. *)
Lemma no_out_done s e : OUT = false →
  own (leaf_slots OUT IN s e) (slots_done (T := T) y) = own (leaf_slots OUT IN s e) slots_dead.
Proof.
  intros HO. apply own_ext. intros l [_ [[Hb _]|[_ ?]]]%elem_of_leaf_slots; [|congruence].
  unfold slots_done. by rewrite Hb.
Qed.

End leaf_post.

(** The accesses to the items. *)
Lemma read_in_spec {T R X : Type} (steal : bool → bool) (x : nat → T) (D : gset loc) (f : loc → option (T + R)) (i : nat)
    (Q : T → mem (T + R) → list X → Prop) :
  (BIn, i) ∈ D ∧ f (BIn, i) = Some (inl (x i)) →
  Q (x i) (own D (λ l, if decide (true = true ∧ l = (BIn, i)) then None else f l)) [] →
  always steal (read_in i) (own D f) Q.
Proof.
  intros [Hi Hf] HQ. eapply always_take; [rewrite own_in by done; by rewrite Hf|].
  rewrite own_insert by done. constructor. erewrite own_ext; [exact HQ|].
  intros l _. cbn. by repeat case_decide; naive_solver.
Qed.

Lemma read_pure_spec {T R X : Type} (steal : bool → bool) (x : nat → T) (D : gset loc) (f : loc → option (T + R)) (i : nat)
    (Q : T → mem (T + R) → list X → Prop) :
  Q (x i) (own D (λ l, if decide (false = true ∧ l = (BIn, i)) then None else f l)) [] →
  always steal (Done (x i)) (own D f) Q.
Proof. intros HQ. constructor. erewrite own_ext; [exact HQ|]. intros l _. cbn. by rewrite decide_False by naive_solver. Qed.
