(* ===== verification/FusedPlan.v ===== *)
(** * The split plan of a fused terminal

    The sizing decisions of [src/crates/youpipe/src/builder/typed/fused.rs]:
    whether a batch runs serially ([prefers_serial]), how deep the fork-join
    tree splits ([split_depth]), how many extra top-level chunks an unbalanced
    workload gets ([unbalanced_chunk_slack]), and the plan that bundles them
    ([SplitPlan::new], [terminal_plan]).  [num_threads] is the pool's worker
    count; the two environment overrides ([YOUPIPE_OVERSPLIT],
    [YOUPIPE_CHUNK_SLACK]) are arguments.  Plain arithmetic on [usize] panics
    on overflow. *)

From S2P Require Import Prelude SleepCounters Config.
Local Open Scope Z_scope.

Definition LOW_OVERSPLIT_ITEMS_PER_THREAD : Z := 1024.
Definition BALANCED_OVERSPLIT : Z := 4.
Definition UNBALANCED_CHUNK_SLACK : Z := 8.
Definition UNBALANCED_CHUNK_SLACK_WIDE : Z := 16.
Definition UNBALANCED_SLACK_WIDE_MIN_PER_CHUNK : Z := 48.

Definition prefers_serial (n num_threads : Z) : bool :=
  bool_decide (n ≤ 1) || bool_decide (num_threads ≤ 1).

(** [x.next_power_of_two().trailing_zeros()].  Rounding up beyond [2 ^ 63]
    panics in a build with overflow checks, which is what is modelled; a
    release build returns [0]. *)
Definition next_power_log2 (x : Z) : outcome Z :=
  if bool_decide (x ≤ 2 ^ 63) then mret (Z.log2_up x) else Panic.

(** The multiplication is checked likewise; a release build wraps around. *)
Definition split_depth (n num_threads oversplit : Z) : outcome Z :=
  tasks ← checked_mul 64 num_threads oversplit;
  by_threads ← next_power_log2 (Z.max tasks 1);
  by_len ← next_power_log2 (Z.max n 1);
  mret (Z.max (Z.min by_threads by_len) 1).

Section env.
(** [YOUPIPE_OVERSPLIT] and [YOUPIPE_CHUNK_SLACK], parsed. *)
Context (oversplit_env slack_env : option Z).

Definition unbalanced_oversplit : Z := default 64 oversplit_env.

Definition workload_oversplit (n num_threads : Z) (w : Workload) : Z :=
  match w with
  | Balanced =>
      if bool_decide (n / Z.max num_threads 1 ≤ LOW_OVERSPLIT_ITEMS_PER_THREAD) then 1
      else BALANCED_OVERSPLIT
  | Unbalanced => unbalanced_oversplit
  | Custom factor => factor
  end.

Definition unbalanced_chunk_slack (n num_threads : Z) : Z :=
  match slack_env with
  | Some v => v
  | None =>
      let wide := Z.min (num_threads + UNBALANCED_CHUNK_SLACK_WIDE) (2 ^ 64 - 1) in
      if bool_decide (UNBALANCED_SLACK_WIDE_MIN_PER_CHUNK ≤ n / Z.max wide 1)
      then UNBALANCED_CHUNK_SLACK_WIDE else UNBALANCED_CHUNK_SLACK
  end.

(** [SplitPlan], its fields as the counts the dispatcher uses. *)
Record SplitPlan : Type := mkPlan { depth : nat; chunk_slack : nat }.

Definition split_plan_new (n num_threads : Z) (w : Workload) : outcome SplitPlan :=
  d ← split_depth n num_threads (workload_oversplit n num_threads w);
  mret (mkPlan (Z.to_nat d)
    (Z.to_nat (match w with Unbalanced => unbalanced_chunk_slack n num_threads | _ => 0 end))).

Inductive TerminalPlan : Type := Serial | Parallel (plan : SplitPlan).

Definition terminal_plan (n : Z) (w : Workload) (num_threads : Z) : outcome TerminalPlan :=
  if prefers_serial n num_threads then mret Serial
  else plan ← split_plan_new n num_threads w; mret (Parallel plan).

(** ** Bounds *)

Lemma next_power_log2_ret x : x ≤ 2 ^ 63 → next_power_log2 x = Ret (Z.log2_up x).
Proof. intros. unfold next_power_log2. by rewrite bool_decide_eq_true_2. Qed.

Lemma next_power_log2_panic x : 2 ^ 63 < x → next_power_log2 x = Panic.
Proof. intros. unfold next_power_log2. by rewrite bool_decide_eq_false_2 by lia. Qed.

Lemma log2_up_tight x : 1 < x → 2 ^ (Z.log2_up x - 1) < x.
Proof. intros Hx. pose proof (Z.log2_up_spec x Hx). lia. Qed.

(** The depth of a batch whose task count fits a word. *)
Lemma split_depth_spec n nt k :
  2 ≤ n ≤ 2 ^ 63 → 2 ≤ nt → 0 ≤ k → nt * k ≤ 2 ^ 63 →
  ∃ d, split_depth n nt k = Ret d ∧ 1 ≤ d ≤ 63 ∧ 2 ^ (d - 1) < n ∧ (d = 1 ∨ 2 ^ (d - 1) < nt * k).
Proof.
  intros Hn Hnt Hk Hm. unfold split_depth.
  rewrite checked_mul_ret by lia. rewrite mbind_ret.
  rewrite (next_power_log2_ret (Z.max (nt * k) 1)), (next_power_log2_ret (Z.max n 1)) by lia.
  rewrite !mbind_ret. eexists. split; [done|].
  assert (1 ≤ Z.log2_up (Z.max n 1) ≤ 63) as Hl.
  { rewrite Z.max_l by lia. split.
    - change 1 with (Z.log2_up 2). apply Z.log2_up_le_mono. lia.
    - change 63 with (Z.log2_up (2 ^ 63)). apply Z.log2_up_le_mono. lia. }
  pose proof (Z.log2_up_nonneg (Z.max (nt * k) 1)). split; [lia|].
  pose proof (log2_up_tight n ltac:(lia)) as Ht. rewrite (Z.max_l n 1) in * by lia. split.
  - eapply Z.le_lt_trans; [|exact Ht]. apply Z.pow_le_mono_r; lia.
  - destruct (decide (Z.log2_up (Z.max (nt * k) 1) ≤ 1)); [left; lia|right].
    assert (1 < nt * k) as Hlt.
    { destruct (decide (1 < nt * k)); [done|]. rewrite Z.max_r, Z.log2_up_1 in * by lia. lia. }
    rewrite (Z.max_l (nt * k) 1) in * by lia. pose proof (log2_up_tight (nt * k) Hlt).
    eapply Z.le_lt_trans; [|done]. apply Z.pow_le_mono_r; lia.
Qed.

(** The tasks a plan asks for. *)
Definition plan_tasks (n nt : Z) (w : Workload) : Z := nt * workload_oversplit n nt w.

End env.

(** C36: [terminal_plan] of a batch of up to 2^63 items is serial exactly when
    there is nothing to split (at most one item or one worker).  Otherwise it
    panics exactly when the worker count times the oversplit factor exceeds
    2^63 (an overflow of the multiplication or of the rounding), and the plan
    it returns splits at least once and at most 63 times, into fewer than
    twice as many leaves as there are items and, beyond the first split, as
    there are requested tasks; only an unbalanced workload gets extra
    chunks.  The panic is that of a build with overflow checks; a release
    build wraps instead. *)
Theorem terminal_plan_bounds (ov sl : option Z) (n nt : Z) (w : Workload)
    (Hn : 0 ≤ n ≤ 2 ^ 63) (Hnt : 0 ≤ nt) (Hf : 0 ≤ workload_oversplit ov n nt w) :
  match terminal_plan ov sl n w nt with
  | Ret Serial => n ≤ 1 ∨ nt ≤ 1
  | Ret (Parallel p) =>
      1 < n ∧ 1 < nt ∧ plan_tasks ov n nt w ≤ 2 ^ 63 ∧
      (1 ≤ depth p ≤ 63)%nat ∧ 2 ^ (Z.of_nat (depth p) - 1) < n ∧
      (depth p = 1%nat ∨ 2 ^ (Z.of_nat (depth p) - 1) < plan_tasks ov n nt w) ∧
      (w = Unbalanced ∨ chunk_slack p = 0%nat)
  | Panic => 1 < n ∧ 1 < nt ∧ 2 ^ 63 < plan_tasks ov n nt w
  | Undef | NoFuel => False
  end.
Proof.
  unfold terminal_plan, prefers_serial.
  destruct (bool_decide (n ≤ 1)) eqn:E1; [apply bool_decide_eq_true_1 in E1; cbn; lia|].
  destruct (bool_decide (nt ≤ 1)) eqn:E2; [apply bool_decide_eq_true_1 in E2; cbn; lia|].
  apply bool_decide_eq_false_1 in E1, E2. cbn [orb]. unfold plan_tasks, split_plan_new.
  destruct (decide (nt * workload_oversplit ov n nt w ≤ 2 ^ 63)) as [Hm|Hm].
  - destruct (split_depth_spec n nt _ ltac:(lia) ltac:(lia) Hf Hm) as (d & -> & Hd & Hdn & Hdt).
    cbn [mbind outcome_mbind depth chunk_slack mret outcome_mret]. rewrite Z2Nat.id by lia.
    split_and!; try lia. by destruct w; auto.
  - unfold split_depth, checked_mul. case_bool_decide; [|cbn; lia].
    rewrite mbind_ret, (next_power_log2_panic (Z.max (nt * workload_oversplit ov n nt w) 1)) by lia. cbn; lia.
Qed.

Lemma terminal_plan_bounds_witness :
  match terminal_plan None None 100000 Balanced 32 with
  | Ret (Parallel p) => depth p = 7%nat ∧ 2 ^ (Z.of_nat (depth p) - 1) < plan_tasks None 100000 32 Balanced
  | _ => False
  end.
Proof.
  pose proof (terminal_plan_bounds None None 100000 32 Balanced ltac:(lia) ltac:(lia)
    ltac:(vm_compute; discriminate)) as H.
  change (terminal_plan None None 100000 Balanced 32) with (Ret (Parallel (mkPlan 7 0))) in *.
  cbn beta iota in *. destruct H as (_ & _ & _ & _ & _ & [H|H] & _); [discriminate H|].
  split; [reflexivity|exact H].
Defined.
