(* ===== verification/HybridDispatch.v ===== *)
(** * Hybrid dispatch of a fused batch

    [hybrid_dispatch] of [src/crates/youpipe/src/builder/typed/fused.rs]: the
    batch [0, n) is cut into contiguous chunks, one job each; the calling
    thread runs the first chunk itself (small batches) and some withheld tail
    chunks, the pool's workers run the rest, every job catches its panic,
    records a failure in a shared slot and counts down a latch, and after the
    latch the caller drops what the successful chunks produced when another
    one failed.

    A terminal plugs in through the [HybridStrategy] interface (the trait of
    the same name); [StrategyLaws] states what its chunk runner, sequential
    runner and cleanup promise, and [dispatch_spec] is proved from these
    alone.  The strategies of [collect], [for_each], [try_collect] and
    [pipe_range] discharge the laws in [FusedCollect].

    Jobs run in parallel as [Par] threads.  The failure slot (a mutex) and the
    latch counter are shared objects: the jobs [Emit] the operations they
    perform on them and the caller, past the join, reads the state those
    operations led to, in the order they happened. *)

From S2P Require Import Prelude SleepCounters Config ForkJoin FusedTree FusedPlan.
Local Open Scope prog_scope.

(** ** Failures *)

(** [ErasedFailure]. *)
Inductive ErasedFailure (P E : Type) : Type :=
  | Op (e : E)
  | PanicF (p : P).
Arguments Op {P E} e.
Arguments PanicF {P E} p.

(** [ErasedFailure::record]: the first failure wins, but a panic displaces an
    operation's failure. *)
Definition record {P E} (slot : option (ErasedFailure P E)) (failure : ErasedFailure P E) :
    option (ErasedFailure P E) :=
  match slot, failure with
  | None, f => Some f
  | Some (Op _), PanicF p => Some (PanicF p)
  | Some _, _ => slot
  end.

(** [TryFailure] and [into_erased]. *)
Inductive TryFailure (P E : Type) : Type :=
  | TryError (e : E)
  | TryPanic (p : P).
Arguments TryError {P E} e.
Arguments TryPanic {P E} p.

Definition into_erased {P E} (f : TryFailure P E) : ErasedFailure P E :=
  match f with TryPanic p => PanicF p | TryError e => Op e end.

(** The operations on the shared objects of a dispatch, and the effects of the
    user's closures. *)
Inductive event (P E X : Type) : Type :=
  | Recorded (f : ErasedFailure P E)
  | LatchSet
  | Effect (x : X).
Arguments Recorded {P E X} f.
Arguments LatchSet {P E X}.
Arguments Effect {P E X} x.

Definition recorded {P E X} (es : list (event P E X)) : list (ErasedFailure P E) :=
  omap (λ e, match e with Recorded f => Some f | _ => None end) es.
Definition user_effects {P E X} (es : list (event P E X)) : list X :=
  omap (λ e, match e with Effect x => Some x | _ => None end) es.
Definition latch_sets {P E X} (es : list (event P E X)) : nat :=
  length (omap (λ e, match e with LatchSet => Some () | _ => None end) es).

(** ** The strategy interface *)

Record HybridStrategy (V X P F : Type) : Type := mkStrategy {
  run_chunk : nat → nat → nat → prog V X (res P (rresult unit F));
  run_sequential : nat → nat → prog V X (res P (rresult unit F));
  cleanup_success_chunk : nat → nat → prog V X unit;
}.
Arguments mkStrategy {V X P F} _ _ _.
Arguments run_chunk {V X P F} _ _ _ _.
Arguments run_sequential {V X P F} _ _ _.
Arguments cleanup_success_chunk {V X P F} _ _ _.

(** ** The dispatcher *)

(** The dispatch surface of on-pool callers ([OnpoolHybrid]). *)
Inductive OnpoolHybrid : Type := OnpoolOff | OnpoolInjector | OnpoolLocalDeque.

Definition ASSIST_RESERVE_CHUNKS : nat := 1.

Definition hybrid_num_chunks (n : nat) (plan : SplitPlan) (num_threads : nat) : nat :=
  Nat.max (Nat.min (num_threads + chunk_slack plan) n) 1.

(** The split budget left inside a chunk. *)
Definition chunk_splits (plan : SplitPlan) (num_chunks : nat) : nat :=
  depth plan -
    (if bool_decide (chunk_slack plan = 0)%nat then Nat.log2_up num_chunks else Nat.log2 num_chunks).

(** The jobs' ranges: chunks [i..num_chunks) from [start] on, the first [rem]
    chunks of the batch one item longer. *)
Fixpoint build_jobs (chunk rem i todo start : nat) : list (nat * nat) :=
  match todo with
  | O => []
  | S todo =>
      let end_ := (start + (chunk + (if bool_decide (i < rem)%nat then 1 else 0)))%nat in
      (start, end_) :: build_jobs chunk rem (S i) todo end_
  end.

Section dispatch.
Context {V X P E F : Type} (erase : F → ErasedFailure P E).
Notation prg := (prog V (event P E X)).
Context (strategy : HybridStrategy V (event P E X) P F).

(** [ChunkJob::execute]: the result is the job's [succeeded] flag. *)
Definition execute (splits : nat) (job : nat * nat) : prg bool :=
  plet r := run_chunk strategy job.1 job.2 splits in
  match r with
  | Val (Ok _) => Emit LatchSet (Done true)
  | Val (Err f) => Emit (Recorded (erase f)) (Emit LatchSet (Done false))
  | Unwind p => Emit (Recorded (PanicF p)) (Emit LatchSet (Done false))
  end.

(** The injected jobs, each run by some worker. *)
Fixpoint execute_all (splits : nat) (jobs : list (nat * nat)) : prg (list bool) :=
  match jobs with
  | [] => Done []
  | j :: js => Par (execute splits j) (execute_all splits js) [] (λ b bs _, Done (b :: bs))
  end.

(** The reserve chunks the caller runs from its wait loop, in order. *)
Fixpoint assist (splits : nat) (jobs : list (nat * nat)) : prg (list bool) :=
  match jobs with
  | [] => Done []
  | j :: js => plet b := execute splits j in plet bs := assist splits js in Done (b :: bs)
  end.

(** The caller's own chunk: its failure is recorded like a job's. *)
Definition drive (driver : option (nat * nat)) : prg bool :=
  match driver with
  | None => Done false
  | Some (s, e) =>
      plet r := run_sequential strategy s e in
      match r with
      | Val (Ok _) => Done true
      | Val (Err f) => Emit (Recorded (erase f)) (Done false)
      | Unwind p => Emit (Recorded (PanicF p)) (Done false)
      end
  end.

(** The teardown after a failure: every successful job's chunk, then the
    caller's. *)
Fixpoint cleanup_jobs (jobs : list ((nat * nat) * bool)) : prg unit :=
  match jobs with
  | [] => Done tt
  | (j, ok) :: js =>
      (if ok then cleanup_success_chunk strategy j.1 j.2 else Done tt) ;; cleanup_jobs js
  end.

(** The caller past the latch wait.  The wait returns when the counter, which
    started at the number of jobs, has been counted down to zero. *)
Definition finish (driver : option (nat * nat)) (injected reserve : list (nat * nat))
    (ran_injected : list bool) (ran_driver : bool * list bool) (es : list (event P E X)) :
    prg (res P (rresult unit (ErasedFailure P E))) :=
  if bool_decide (length injected + length reserve = latch_sets es)%nat then
    match foldl record None (recorded es) with
    | None => Done (Val (Ok tt))
    | Some f =>
        cleanup_jobs (zip (injected ++ reserve) (ran_injected ++ ran_driver.2)) ;;
        match driver with
        | Some (s, e) => if ran_driver.1 then cleanup_success_chunk strategy s e else Done tt
        | None => Done tt
        end ;;
        Done (Val (Err f))
    end
  else Fault.

(** [hybrid_dispatch].  [on_pool]: the caller is a worker of the pool (the
    owner of its latch).  The injector and the local deque hand the same jobs
    to the workers. *)
Definition hybrid_dispatch (on_pool : bool) (mode : OnpoolHybrid) (n : nat) (plan : SplitPlan)
    (num_threads : nat) : prg (res P (rresult unit (ErasedFailure P E))) :=
  let num_chunks := hybrid_num_chunks n plan num_threads in
  let splits := chunk_splits plan num_chunks in
  let chunk := (n / num_chunks)%nat in
  let rem := (n mod num_chunks)%nat in
  let driver_participates := bool_decide (splits = 0)%nat in
  if on_pool && (driver_participates || match mode with OnpoolOff => true | _ => false end) then
    plet r := run_chunk strategy 0 n (depth plan) in
    match r with
    | Val (Ok u) => Done (Val (Ok u))
    | Val (Err f) => Done (Val (Err (erase f)))
    | Unwind p => Done (Unwind p)
    end
  else
    let first_pool_chunk := if driver_participates then 1%nat else 0%nat in
    let pool_chunks := (num_chunks - first_pool_chunk)%nat in
    if bool_decide (pool_chunks = 0)%nat then Fault
    else
      let reserve := if driver_participates then Nat.min ASSIST_RESERVE_CHUNKS (pool_chunks - 1) else 0%nat in
      let driver_end :=
        if driver_participates then (chunk + (if bool_decide (0 < rem)%nat then 1 else 0))%nat else 0%nat in
      let driver := if driver_participates then Some (0%nat, driver_end) else None in
      let jobs := build_jobs chunk rem first_pool_chunk pool_chunks driver_end in
      let injected := take (pool_chunks - reserve) jobs in
      let withheld := drop (pool_chunks - reserve) jobs in
      Par (execute_all splits injected)
        (plet ok := drive driver in plet bs := assist splits withheld in Done (ok, bs)) []
        (finish driver injected withheld).
End dispatch.

(** ** The chunks *)

(** The ranges a dispatch runs, in order: one range for the single tree of an
    on-pool caller, else the driver's chunk and the jobs. *)
Definition dispatch_chunks (on_pool : bool) (mode : OnpoolHybrid) (n : nat) (plan : SplitPlan)
    (num_threads : nat) : list (nat * nat) :=
  let num_chunks := hybrid_num_chunks n plan num_threads in
  if on_pool && (bool_decide (chunk_splits plan num_chunks = 0)%nat ||
                 match mode with OnpoolOff => true | _ => false end) then [(0, n)]
  else build_jobs (n / num_chunks) (n mod num_chunks) 0 num_chunks 0.

(** Consecutive ranges from [s] to [e]. *)
Fixpoint covers (cs : list (nat * nat)) (s e : nat) : Prop :=
  match cs with
  | [] => s = e
  | c :: cs => c.1 = s ∧ (s ≤ c.2)%nat ∧ covers cs c.2 e
  end.

(** Where chunk [i] starts. *)
Definition chunk_start (chunk rem i : nat) : nat := (i * chunk + Nat.min i rem)%nat.

Lemma chunk_start_S chunk rem i :
  chunk_start chunk rem (S i) =
    (chunk_start chunk rem i + (chunk + if bool_decide (i < rem)%nat then 1 else 0))%nat.
Proof. unfold chunk_start. case_bool_decide; lia. Qed.

Lemma build_jobs_covers chunk rem i todo :
  covers (build_jobs chunk rem i todo (chunk_start chunk rem i))
    (chunk_start chunk rem i) (chunk_start chunk rem (i + todo)).
Proof.
  revert i. induction todo as [|todo IH]; intros i; cbn [build_jobs covers]; [by rewrite Nat.add_0_r|].
  rewrite <- chunk_start_S. cbn [fst snd]. split_and!; [done| |].
  - rewrite chunk_start_S. lia.
  - specialize (IH (S i)). by rewrite Nat.add_succ_comm in IH.
Qed.

Lemma build_jobs_length chunk rem i todo start : length (build_jobs chunk rem i todo start) = todo.
Proof. revert i start. induction todo as [|todo IH]; intros; cbn; [done|]. by rewrite IH. Qed.

Lemma build_jobs_lookup chunk rem i todo k : (k < todo)%nat →
  build_jobs chunk rem i todo (chunk_start chunk rem i) !! k =
    Some (chunk_start chunk rem (i + k), chunk_start chunk rem (S (i + k))).
Proof.
  revert i k. induction todo as [|todo IH]; intros i k Hk; [lia|]. cbn [build_jobs].
  rewrite <- chunk_start_S. destruct k as [|k]; cbn [lookup list_lookup].
  - by rewrite Nat.add_0_r.
  - rewrite IH by lia. by rewrite <- !Nat.add_succ_comm.
Qed.

Lemma chunk_start_end n c : (0 < c)%nat → chunk_start (n / c) (n mod c) c = n.
Proof.
  intros Hc. unfold chunk_start. pose proof (Nat.div_mod_eq n c).
  pose proof (Nat.mod_upper_bound n c). lia.
Qed.

Lemma hybrid_num_chunks_pos n plan nt : (0 < hybrid_num_chunks n plan nt)%nat.
Proof. unfold hybrid_num_chunks. lia. Qed.

(** The chunks partition the batch. *)
Lemma dispatch_chunks_cover on_pool mode n plan nt :
  covers (dispatch_chunks on_pool mode n plan nt) 0 n.
Proof.
  unfold dispatch_chunks. case_match; [cbn; lia|].
  pose proof (build_jobs_covers (n / hybrid_num_chunks n plan nt) (n mod hybrid_num_chunks n plan nt)
    0 (hybrid_num_chunks n plan nt)) as H1.
  cbn [Nat.add] in H1. by rewrite chunk_start_end in H1 by apply hybrid_num_chunks_pos.
Qed.

Lemma covers_le cs s e : covers cs s e → (s ≤ e)%nat.
Proof.
  revert s. induction cs as [|c cs IH]; intros s; cbn; [lia|].
  intros (<- & ? & Hc%IH). lia.
Qed.

Lemma covers_bounds cs s e c : covers cs s e → c ∈ cs → (s ≤ c.1 ≤ c.2)%nat ∧ (c.2 ≤ e)%nat.
Proof.
  revert s. induction cs as [|c' cs IH]; intros s; cbn; [by intros ? ?%not_elem_of_nil|].
  intros (<- & ? & Hc) [->|Hin]%elem_of_cons.
  - apply covers_le in Hc. lia.
  - destruct (IH c'.2 Hc Hin). lia.
Qed.

(** ** What a strategy promises *)

Section laws.
Context {V X P E F : Type} (steal : bool → bool) (erase : F → ErasedFailure P E).
Notation ev := (event P E X).

(** A range's slots, their contents before, after success and after failure,
    when it succeeds, what it may fail with, and its effects. *)
Record ChunkSpec : Type := mkChunkSpec {
  owned : nat → nat → gset loc;
  before : loc → option V;
  after_ok : nat → nat → loc → option V;
  succeeds : nat → nat → Prop;
  may_fail : nat → nat → ErasedFailure P E → Prop;
  effects_of : nat → nat → list X;
}.

Definition dead_slot (l : loc) : option V := None.

Definition chunk_post (S : ChunkSpec) (s e : nat) (r : res P (rresult unit F)) (m : mem V)
    (es : list ev) : Prop :=
  recorded es = [] ∧ latch_sets es = 0%nat ∧
  match r with
  | Val (Ok _) =>
      succeeds S s e ∧ m = own (owned S s e) (after_ok S s e) ∧ user_effects es ≡ₚ effects_of S s e
  | Val (Err f) =>
      may_fail S s e (erase f) ∧ m = own (owned S s e) dead_slot ∧ user_effects es ⊆+ effects_of S s e
  | Unwind p =>
      may_fail S s e (PanicF p) ∧ m = own (owned S s e) dead_slot ∧ user_effects es ⊆+ effects_of S s e
  end.

Class StrategyLaws (n : nat) (S : ChunkSpec) (strategy : HybridStrategy V ev P F) : Prop := {
  law_chunk s e k : (s ≤ e ≤ n)%nat →
    always steal (run_chunk strategy s e k) (own (owned S s e) (before S)) (chunk_post S s e);
  law_sequential s e : (s ≤ e ≤ n)%nat →
    always steal (run_sequential strategy s e) (own (owned S s e) (before S)) (chunk_post S s e);
  law_cleanup s e : (s ≤ e ≤ n)%nat →
    always steal (cleanup_success_chunk strategy s e) (own (owned S s e) (after_ok S s e))
      (λ _ m es, m = own (owned S s e) dead_slot ∧ es = []);
}.
End laws.
Arguments ChunkSpec V X P E : clear implicits.

(** ** The dispatcher meets its contract *)

Section events.
Context {P E X : Type}.
Implicit Types es : list (event P E X).

#[global] Instance recorded_perm : Proper ((≡ₚ) ==> (≡ₚ)) (@recorded P E X).
Proof. intros es es' H. unfold recorded. by rewrite H. Qed.
#[global] Instance user_effects_perm : Proper ((≡ₚ) ==> (≡ₚ)) (@user_effects P E X).
Proof. intros es es' H. unfold user_effects. by rewrite H. Qed.
#[global] Instance latch_sets_perm : Proper ((≡ₚ) ==> (=)) (@latch_sets P E X).
Proof. intros es es' H. unfold latch_sets. by rewrite H. Qed.

Lemma recorded_app es es' : recorded (es ++ es') = recorded es ++ recorded es'.
Proof. apply omap_app. Qed.
Lemma user_effects_app es es' : user_effects (es ++ es') = user_effects es ++ user_effects es'.
Proof. apply omap_app. Qed.
Lemma latch_sets_app es es' : latch_sets (es ++ es') = (latch_sets es + latch_sets es')%nat.
Proof. unfold latch_sets. by rewrite omap_app, length_app. Qed.

(** The slot after a history of records: empty exactly when nothing was
    recorded, else one of the records, and a panic if one was recorded. *)
Lemma record_keeps (fs : list (ErasedFailure P E)) f :
  ∃ f', foldl record (Some f) fs = Some f' ∧ f' ∈ f :: fs ∧
    ((∃ p, PanicF p ∈ f :: fs) → ∃ p, f' = PanicF p).
Proof.
  revert f. induction fs as [|g fs IH]; intros f; cbn [foldl].
  - exists f. split_and!; [done|set_solver|]. intros [p Hp%list_elem_of_singleton]. eauto.
  - assert (∃ f1, record (Some f) g = Some f1 ∧ f1 ∈ [f; g] ∧
      ((∃ p, PanicF p ∈ [f; g]) → ∃ p, f1 = PanicF p)) as (f1 & -> & Hf1 & Hp1).
    { destruct f as [e|p], g as [e'|p']; cbn; eexists; split_and!; try done; try set_solver. }
    destruct (IH f1) as (f' & -> & Hf' & Hp'). exists f'. split_and!; [done|set_solver|].
    intros [p Hp]. apply Hp'.
    assert (PanicF p ∈ [f; g] ∨ PanicF p ∈ fs) as [H|H] by set_solver.
    + destruct Hp1 as [p1 ->]; [eauto|]. exists p1. set_solver.
    + exists p. set_solver.
Qed.

End events.

Section contract.
Context {V X P E F : Type} (steal : bool → bool) (erase : F → ErasedFailure P E).
Notation ev := (event P E X).
Context (n : nat) (S : ChunkSpec V X P E) (strategy : HybridStrategy V ev P F).
Context `{!StrategyLaws steal erase n S strategy}.
Implicit Types (c : nat * nat) (cs : list (nat * nat)) (l : list ((nat * nat) * bool)).

Notation slots c := (owned S c.1 c.2).
Definition all_slots cs : gset loc := ⋃ ((λ c, slots c) <$> cs).
(** The chunks' slots are pairwise disjoint and lie in the batch. *)
Fixpoint apart cs : Prop :=
  match cs with
  | [] => True
  | c :: cs => slots c ## all_slots cs ∧ (c.1 ≤ c.2 ≤ n)%nat ∧ apart cs
  end.

(** The memory of chunks that ran: completed or dead. *)
Fixpoint ran_mem l : mem V :=
  match l with
  | [] => ∅
  | (c, ok) :: l => own (slots c) (if ok then after_ok S c.1 c.2 else dead_slot) ∪ ran_mem l
  end.

Definition ran_post l (latches : nat) (m : mem V) (es : list ev) : Prop :=
  m = ran_mem l ∧ latch_sets es = latches ∧
  (∀ c, (c, true) ∈ l → succeeds S c.1 c.2) ∧
  (recorded es = [] ↔ ∀ c b, (c, b) ∈ l → b = true) ∧
  (∀ f, f ∈ recorded es → ∃ c, (c, false) ∈ l ∧ may_fail S c.1 c.2 f) ∧
  user_effects es ⊆+ concat ((λ c, effects_of S c.1 c.2) <$> l.*1) ∧
  (recorded es = [] → user_effects es ≡ₚ concat ((λ c, effects_of S c.1 c.2) <$> l.*1)).

Lemma ran_mem_app l1 l2 : ran_mem (l1 ++ l2) = ran_mem l1 ∪ ran_mem l2.
Proof.
  induction l1 as [|[c b] l1 IH]; cbn; [by rewrite (left_id_L ∅ (∪))|].
  by rewrite IH, (assoc_L (∪)).
Qed.

Lemma ran_mem_disjoint D f l : D ## all_slots l.*1 → own D f ##ₘ ran_mem l.
Proof.
  induction l as [|[c b] l IH]; cbn; intros Hd; [apply map_disjoint_empty_r|].
  apply map_disjoint_union_r. split; [apply own_disjoint; set_solver|apply IH; set_solver].
Qed.

Lemma ran_post_nil : ran_post [] 0 ∅ [].
Proof. split_and!; try done; set_solver. Qed.

Lemma ran_post_app l1 l2 k1 k2 m1 m2 e1 e2 es :
  ran_post l1 k1 m1 e1 → ran_post l2 k2 m2 e2 → es ≡ₚ e1 ++ e2 →
  ran_post (l1 ++ l2) (k1 + k2) (m1 ∪ m2) es.
Proof.
  intros (-> & L1 & O1 & R1 & F1 & U1 & A1) (-> & L2 & O2 & R2 & F2 & U2 & A2) Hes.
  assert (recorded es ≡ₚ recorded e1 ++ recorded e2) as Hrec by (by rewrite Hes, recorded_app).
  assert (recorded es = [] ↔ recorded e1 = [] ∧ recorded e2 = []) as Hnil.
  { split.
    - intros H0. rewrite H0 in Hrec. apply Permutation_nil in Hrec. by apply app_nil in Hrec.
    - intros [H1 H2]. rewrite H1, H2 in Hrec. by apply Permutation_nil_r in Hrec. }
  unfold ran_post. rewrite !fmap_app, concat_app. split_and!.
  - by rewrite ran_mem_app.
  - by rewrite Hes, latch_sets_app, L1, L2.
  - intros c [?|?]%elem_of_app; eauto.
  - rewrite Hnil, R1, R2. split.
    + intros [H1 H2] c b [?|?]%elem_of_app; eauto.
    + intros H0. split; intros c b ?; apply (H0 c b); apply elem_of_app; auto.
  - intros f. rewrite Hrec, elem_of_app.
    intros [(c & ? & ?)%F1|(c & ? & ?)%F2]; exists c; rewrite elem_of_app; auto.
  - rewrite Hes, user_effects_app. by apply submseteq_app.
  - intros [H1 H2]%Hnil. rewrite Hes, user_effects_app. by rewrite A1, A2.
Qed.

(** One chunk that ran, as the flag of the run tells. *)
Lemma ran_one c r m es es' k :
  chunk_post erase S c.1 c.2 r m es →
  recorded es' = match r with Val (Ok _) => [] | Val (Err f) => [erase f] | Unwind p => [PanicF p] end →
  latch_sets es' = k → user_effects es' = [] →
  ran_post [(c, is_ok r)] k m (es ++ es').
Proof.
  intros (Hrec & Hl & Hr) Hrec' Hl' Hu'. unfold ran_post.
  rewrite recorded_app, latch_sets_app, user_effects_app, Hrec, Hl, Hrec', Hl', Hu', app_nil_r.
  cbn. rewrite !app_nil_r, (right_id_L ∅ (∪)).
  destruct r as [[[]|f]|p]; cbn; destruct Hr as (Ho & -> & Hu).
  - split_and!; [done|done| | |by intros ? ?%not_elem_of_nil|by rewrite Hu|done].
    + intros c' Hin. apply list_elem_of_singleton in Hin. by injection Hin as ->.
    + split; [intros _ c' b Hin|done]. apply list_elem_of_singleton in Hin. congruence.
  - split_and!; [done|done|set_solver| | |done|done].
    + split; [done|]. intros H0. by specialize (H0 c false ltac:(set_solver)).
    + intros f' Hf'. apply list_elem_of_singleton in Hf' as ->. exists c. split; [set_solver|done].
  - split_and!; [done|done|set_solver| | |done|done].
    + split; [done|]. intros H0. by specialize (H0 c false ltac:(set_solver)).
    + intros f' Hf'. apply list_elem_of_singleton in Hf' as ->. exists c. split; [set_solver|done].
Qed.

Lemma execute_spec c splits :
  (c.1 ≤ c.2 ≤ n)%nat →
  always steal (execute erase strategy splits c) (own (slots c) (before S))
    (λ b m es, ran_post [(c, b)] 1 m es).
Proof.
  intros Hc. apply always_bind. eapply always_mono; [by eapply law_chunk|].
  intros r m es Hr. pose proof (λ es', ran_one c r m es es' 1 Hr) as Hone.
  destruct r as [[[]|f]|p]; repeat apply always_emit; constructor; by apply Hone.
Qed.

Lemma drive_spec driver :
  match driver with Some c => (c.1 ≤ c.2 ≤ n)%nat | None => True end →
  always steal (drive erase strategy driver)
    (match driver with Some c => own (slots c) (before S) | None => ∅ end)
    (λ b m es, ran_post (match driver with Some c => [(c, b)] | None => [] end) 0 m es).
Proof.
  destruct driver as [c|]; intros Hc; [|constructor; apply ran_post_nil].
  destruct c as [s e]. apply always_bind. eapply always_mono; [by eapply law_sequential|].
  intros r m es Hr. pose proof (λ es', ran_one (s, e) r m es es' 0 Hr) as Hone.
  destruct r as [[[]|f]|p]; repeat apply always_emit; constructor; by apply Hone.
Qed.

Lemma own_empty (f : loc → option V) : own ∅ f = ∅.
Proof. apply map_eq. intros i. by rewrite lookup_own, decide_False, lookup_empty by set_solver. Qed.

Lemma all_slots_cons c cs (f : loc → option V) : own (all_slots (c :: cs)) f = own (slots c) f ∪ own (all_slots cs) f.
Proof. cbn. by rewrite own_union. Qed.

Lemma execute_all_spec splits cs :
  apart cs →
  always steal (execute_all erase strategy splits cs) (own (all_slots cs) (before S))
    (λ bs m es, length bs = length cs ∧ ran_post (zip cs bs) (length cs) m es).
Proof.
  induction cs as [|c cs IH]; cbn [apart execute_all].
  { intros _. constructor. split; [done|]. cbn. rewrite own_empty. apply ran_post_nil. }
  intros (Hd & Hc & Ha). rewrite all_slots_cons.
  eapply always_par; [by apply execute_spec|by apply IH|by apply own_disjoint|].
  intros b bs m1 m2 e1 e2 es H1 [Hlen H2] _ Hes. constructor. rewrite app_nil_r.
  split; [cbn; by rewrite Hlen|]. exact (ran_post_app [(c, b)] (zip cs bs) 1 (length cs) _ _ _ _ _ H1 H2 Hes).
Qed.

Lemma assist_spec splits cs :
  apart cs →
  always steal (assist erase strategy splits cs) (own (all_slots cs) (before S))
    (λ bs m es, length bs = length cs ∧ ran_post (zip cs bs) (length cs) m es).
Proof.
  induction cs as [|c cs IH]; cbn [apart assist].
  { intros _. constructor. split; [done|]. cbn. rewrite own_empty. apply ran_post_nil. }
  intros (Hd & Hc & Ha). rewrite all_slots_cons. apply always_bind.
  eapply always_mono; [apply always_frame; [by apply execute_spec|by apply own_disjoint]|].
  intros b m es1 (m1 & -> & Hd1 & H1). apply always_bind.
  rewrite map_union_comm by done.
  eapply always_mono; [apply always_frame; [by apply IH|done]|].
  intros bs m es2 (m2 & -> & Hd2 & Hlen & H2). constructor. rewrite app_nil_r.
  split; [cbn; by rewrite Hlen|]. rewrite map_union_comm by done.
  exact (ran_post_app [(c, b)] (zip cs bs) 1 (length cs) _ _ _ _ _ H1 H2 (Permutation_refl _)).
Qed.

(** The caller's thread: its own chunk, then the withheld ones. *)
Lemma driver_spec splits driver cs :
  apart (match driver with Some c => c :: cs | None => cs end) →
  always steal
    (plet ok := drive erase strategy driver in
     plet bs := assist erase strategy splits cs in Done (ok, bs))
    (own (all_slots (match driver with Some c => c :: cs | None => cs end)) (before S))
    (λ r m es, length r.2 = length cs ∧
       ran_post ((match driver with Some c => [(c, r.1)] | None => [] end) ++ zip cs r.2)
         (length cs) m es).
Proof.
  intros Ha. apply always_bind.
  assert (apart cs ∧ own (all_slots (match driver with Some c => c :: cs | None => cs end)) (before S)
    = (match driver with Some c => own (slots c) (before S) | None => ∅ end) ∪ own (all_slots cs) (before S)
    ∧ (match driver with Some c => own (slots c) (before S) | None => ∅ end) ##ₘ own (all_slots cs) (before S)
    ∧ match driver with Some c => (c.1 ≤ c.2 ≤ n)%nat | None => True end) as (Hcs & -> & Hd & Hb).
  { destruct driver as [c|]; cbn [apart] in Ha.
    - destruct Ha as (? & ? & ?). split_and!; [done|apply all_slots_cons|by apply own_disjoint|lia..].
    - split_and!; [done|by rewrite (left_id_L ∅ (∪))|apply map_disjoint_empty_l|done]. }
  eapply always_mono; [apply always_frame; [by apply drive_spec|done]|].
  intros b m es1 (m1 & -> & Hd1 & H1). apply always_bind. rewrite map_union_comm by done.
  eapply always_mono; [apply always_frame; [by apply assist_spec|done]|].
  intros bs m es2 (m2 & -> & Hd2 & Hlen & H2). constructor. rewrite app_nil_r. cbn [fst snd].
  split; [done|]. rewrite map_union_comm by done. by eapply (ran_post_app _ _ 0).
Qed.

(** The teardown leaves every chunk dead. *)
Lemma cleanup_jobs_spec l :
  apart l.*1 →
  always steal (cleanup_jobs strategy l) (ran_mem l)
    (λ _ m es, m = own (all_slots l.*1) dead_slot ∧ es = []).
Proof.
  induction l as [|[c b] l IH]; cbn [apart fmap list_fmap cleanup_jobs ran_mem fst].
  { intros _. constructor. cbn. by rewrite own_empty. }
  intros (Hd & Hc & Ha). apply always_bind.
  eapply (always_mono _ _ _ (λ _ m es, m = own (slots c) dead_slot ∪ ran_mem l ∧ es = [])).
  { destruct b; [|by constructor].
    eapply always_mono; [apply always_frame; [by eapply law_cleanup|by apply ran_mem_disjoint]|].
    by intros _ m es (m0 & -> & _ & -> & ->). }
  intros _ m es [-> ->]. rewrite map_union_comm by (by apply ran_mem_disjoint).
  eapply always_mono; [apply always_frame; [by apply IH|symmetry; by apply ran_mem_disjoint]|].
  intros _ m es (m0 & -> & _ & -> & ->). split; [|done].
  rewrite map_union_comm by (symmetry; by apply own_disjoint). by rewrite all_slots_cons.
Qed.

Lemma elem_of_all_slots cs x : x ∈ all_slots cs ↔ ∃ c, c ∈ cs ∧ x ∈ slots c.
Proof.
  unfold all_slots. rewrite elem_of_union_list. split.
  - intros (D & (c & -> & Hc)%list_elem_of_fmap & Hx). eauto.
  - intros (c & Hc & Hx). exists (slots c). split; [|done]. apply list_elem_of_fmap. eauto.
Qed.

Lemma all_slots_app cs1 cs2 : all_slots (cs1 ++ cs2) = all_slots cs1 ∪ all_slots cs2.
Proof.
  apply set_eq. intros x. rewrite elem_of_union, !elem_of_all_slots.
  setoid_rewrite elem_of_app. naive_solver.
Qed.

Lemma apart_app cs1 cs2 :
  apart (cs1 ++ cs2) ↔ apart cs1 ∧ apart cs2 ∧ all_slots cs1 ## all_slots cs2.
Proof.
  induction cs1 as [|c cs1 IH]; cbn [apart app].
  - split; [|naive_solver]. intros H. split_and!; [done|done|apply disjoint_empty_l].
  - rewrite IH, all_slots_app. change (all_slots (c :: cs1)) with (slots c ∪ all_slots cs1).
    rewrite disjoint_union_l, disjoint_union_r. naive_solver.
Qed.

Lemma ran_mem_disjoint2 l1 l2 :
  all_slots l1.*1 ## all_slots l2.*1 → ran_mem l1 ##ₘ ran_mem l2.
Proof.
  induction l1 as [|[c b] l1 IH]; cbn; intros Hd; [apply map_disjoint_empty_l|].
  apply map_disjoint_union_l. split; [apply ran_mem_disjoint|apply IH]; set_solver.
Qed.

(** All chunks completed: one piece of memory. *)
Lemma ran_mem_done l f :
  (∀ c b, (c, b) ∈ l → b = true) →
  (∀ c x, c ∈ l.*1 → x ∈ slots c → f x = after_ok S c.1 c.2 x) →
  ran_mem l = own (all_slots l.*1) f.
Proof.
  induction l as [|[c b] l IH]; intros Hb Hf; cbn [ran_mem].
  - cbn. by rewrite own_empty.
  - rewrite fmap_cons, all_slots_cons. cbn [fst]. rewrite (Hb c b) by set_solver.
    f_equal.
    + apply own_ext. intros x Hx. symmetry. apply Hf; [by left|done].
    + apply IH; [intros c' b' Hc'; apply (Hb c'); by right|]. intros c' x Hc'. apply Hf. by right.
Qed.

(** The contract of a dispatch over the chunks [cs]: it succeeds when every
    chunk did, with the results in place; else every slot is dead and the
    failure is what the slot holds after the chunks recorded theirs. *)
Definition dispatch_post cs (r : res P (rresult unit (ErasedFailure P E))) (m : mem V) (es : list ev) :
    Prop :=
  match r with
  | Val (Ok _) =>
      (∀ c, c ∈ cs → succeeds S c.1 c.2) ∧
      (∀ f, (∀ c x, c ∈ cs → x ∈ slots c → f x = after_ok S c.1 c.2 x) → m = own (all_slots cs) f) ∧
      user_effects es ≡ₚ concat ((λ c, effects_of S c.1 c.2) <$> cs)
  | Val (Err f) =>
      (∃ fs, foldl record None fs = Some f ∧
        ∀ g, g ∈ fs → ∃ c, c ∈ cs ∧ may_fail S c.1 c.2 g) ∧
      m = own (all_slots cs) dead_slot ∧
      user_effects es ⊆+ concat ((λ c, effects_of S c.1 c.2) <$> cs)
  | Unwind p =>
      (∃ c, c ∈ cs ∧ may_fail S c.1 c.2 (PanicF p)) ∧
      m = own (all_slots cs) dead_slot ∧
      user_effects es ⊆+ concat ((λ c, effects_of S c.1 c.2) <$> cs)
  end.

Lemma finish_cleanup (driver : option (nat * nat)) li lw (b : bool) (k : prog V ev (res P (rresult unit (ErasedFailure P E)))) Q :
  let ld := match driver with Some c => [(c, b)] | None => [] end in
  apart (li.*1 ++ ld.*1 ++ lw.*1) →
  always steal k (own (all_slots (li.*1 ++ ld.*1 ++ lw.*1)) dead_slot) Q →
  always steal
    (cleanup_jobs strategy (li ++ lw) ;;
     match driver with
     | Some (s, e) => if b then cleanup_success_chunk strategy s e else Done tt
     | None => Done tt
     end ;; k)
    (ran_mem (li ++ ld ++ lw)) Q.
Proof.
  intros ld Ha Hk. rewrite !apart_app, !all_slots_app in Ha.
  destruct Ha as (Hi & (Hld & Hw & Hdw) & Hd). apply always_bind.
  assert (all_slots (li ++ lw).*1 ## all_slots ld.*1) as Hdj
    by (rewrite fmap_app, all_slots_app; set_solver).
  assert (ran_mem (li ++ ld ++ lw) = ran_mem (li ++ lw) ∪ ran_mem ld) as ->.
  { rewrite !ran_mem_app, (map_union_comm (ran_mem ld)), (assoc_L (∪)); [done|].
    by apply ran_mem_disjoint2. }
  eapply always_mono; [apply always_frame; [apply cleanup_jobs_spec|by apply ran_mem_disjoint2]|].
  { rewrite fmap_app, apart_app. set_solver. }
  intros _ m es (m0 & -> & Hdm & -> & ->). rewrite map_union_comm by done.
  pose proof (cleanup_jobs_spec ld Hld) as Hcd.
  apply always_bind.
  eapply (always_mono _ _ _ (λ _ m es, m = own (all_slots ld.*1) dead_slot ∪
    own (all_slots (li ++ lw).*1) dead_slot ∧ es = [])).
  { subst ld. destruct driver as [[s e]|]; [|constructor; by rewrite own_empty].
    cbn [apart fmap list_fmap fst] in Hld. destruct Hld as (_ & Hb & _). cbn [ran_mem fst snd] in *.
    rewrite (right_id_L ∅ (∪)) in *. cbn [fmap list_fmap fst]. rewrite all_slots_cons, own_empty, (right_id_L ∅ (∪)).
    cbn [fst snd]. destruct b; [|by constructor].
    eapply always_mono; [apply always_frame; [by eapply law_cleanup|done]|].
    by intros _ m es (m1 & -> & _ & -> & ->). }
  intros _ m es [-> ->]. rewrite own_union, <- all_slots_app.
  replace (all_slots (ld.*1 ++ (li ++ lw).*1)) with (all_slots (li.*1 ++ ld.*1 ++ lw.*1)); [exact Hk|].
  rewrite fmap_app, !all_slots_app. set_solver.
Qed.

Lemma dispatch_post_perm cs cs' r m es :
  cs ≡ₚ cs' → dispatch_post cs r m es → dispatch_post cs' r m es.
Proof.
  intros Hp.
  assert (all_slots cs = all_slots cs') as Hs.
  { apply set_eq. intros x. rewrite !elem_of_all_slots. by setoid_rewrite Hp. }
  assert (concat ((λ c, effects_of S c.1 c.2) <$> cs) ≡ₚ concat ((λ c, effects_of S c.1 c.2) <$> cs')) as He.
  { rewrite <- !(flat_map_concat_map). by rewrite Hp. }
  assert (∀ c, c ∈ cs ↔ c ∈ cs') as Hin by (intros c; by rewrite Hp).
  destruct r as [[u|f]|p]; cbn; rewrite Hs, He; by setoid_rewrite Hin.
Qed.

Lemma finish_spec driver injected withheld bi bd bw m es :
  let ld := match driver with Some c => [(c, bd)] | None => [] end in
  apart (injected ++ ld.*1 ++ withheld) →
  length bi = length injected → length bw = length withheld →
  ran_post (zip injected bi ++ ld ++ zip withheld bw) (length injected + length withheld) m es →
  always steal (finish strategy driver injected withheld bi (bd, bw) es) m
    (λ r m es', dispatch_post (injected ++ ld.*1 ++ withheld) r m (es ++ es')).
Proof.
  intros ld Ha Hi Hw (-> & Hl & Hok & Hall & Hfail & Hu & Hup).
  assert ((zip injected bi ++ ld ++ zip withheld bw).*1 = injected ++ ld.*1 ++ withheld) as Hfst.
  { rewrite !fmap_app, !fst_zip by lia. done. }
  rewrite Hfst in Hu, Hup. unfold finish. rewrite bool_decide_eq_true_2 by done.
  destruct (recorded es) as [|f0 fs] eqn:Hrec; cbn [foldl].
  - constructor. rewrite app_nil_r. cbn. pose proof (proj1 Hall eq_refl) as Hflags. split_and!.
    + intros c Hc. apply Hok. rewrite <- Hfst in Hc. apply list_elem_of_fmap in Hc as ([c' b] & -> & Hin).
      by rewrite <- (Hflags _ _ Hin).
    + intros f Hf. rewrite <- Hfst. apply ran_mem_done; [done|]. by rewrite Hfst.
    + by apply Hup.
  - destruct (record_keeps fs f0) as (f & Hf & Hin & _). change (record None f0) with (Some f0).
    rewrite Hf. cbn [fst snd]. rewrite zip_with_app by done.
    apply (finish_cleanup driver (zip injected bi) (zip withheld bw) bd).
    + by rewrite !fst_zip by lia.
    + rewrite !fst_zip by lia. constructor. rewrite app_nil_r. cbn. split_and!; [|done|done].
      exists (f0 :: fs). split; [done|]. intros g (c & Hc & Hg)%Hfail.
      exists c. split; [|done]. rewrite <- Hfst. apply list_elem_of_fmap. by exists (c, false).
Qed.

Definition driver_list (driver : option (nat * nat)) : list (nat * nat) :=
  match driver with Some c => [c] | None => [] end.

(** The parallel phase and what follows it. *)
Lemma par_phase_spec splits driver jobs k :
  apart (driver_list driver ++ jobs) →
  always steal
    (Par (execute_all erase strategy splits (take k jobs))
       (plet ok := drive erase strategy driver in
        plet bs := assist erase strategy splits (drop k jobs) in Done (ok, bs)) []
       (finish strategy driver (take k jobs) (drop k jobs)))
    (own (all_slots (driver_list driver ++ jobs)) (before S))
    (dispatch_post (driver_list driver ++ jobs)).
Proof.
  set (ci := take k jobs). set (cw := drop k jobs).
  assert (driver_list driver ++ jobs ≡ₚ ci ++ driver_list driver ++ cw) as Hperm.
  { subst ci cw. rewrite <- (take_drop k jobs) at 1. by rewrite Permutation_app_swap_app. }
  assert (match driver with Some c => c :: cw | None => cw end = driver_list driver ++ cw) as Hdl
    by (by destruct driver).
  intros Ha.
  assert (apart (ci ++ driver_list driver ++ cw)) as Ha'.
  { rewrite <- (take_drop k jobs) in Ha. fold ci cw in Ha. rewrite !apart_app, !all_slots_app in *.
    set_solver. }
  assert (all_slots (driver_list driver ++ jobs) = all_slots ci ∪ all_slots (driver_list driver ++ cw)) as ->.
  { rewrite <- all_slots_app. apply set_eq. intros x. rewrite !elem_of_all_slots. by setoid_rewrite Hperm. }
  pose proof Ha' as (Hi & Hdw & Hdis)%apart_app. rewrite <- own_union.
  eapply always_par; [by apply execute_all_spec| |by apply own_disjoint|].
  { rewrite <- Hdl. apply driver_spec. by rewrite Hdl. }
  intros bi [bd bw] m1 m2 e1 e2 es [Hli H1] [Hlw H2] _ Hes. cbn [fst snd] in *.
  set (ld := match driver with Some c => [(c, bd)] | None => [] end) in *.
  assert (ld.*1 = driver_list driver) as Hld by (by subst ld; destruct driver).
  eapply always_mono.
  - eapply (finish_spec driver ci cw bi bd bw); fold ld; rewrite ?Hld; [done|done|done|].
    by eapply ran_post_app.
  - intros r m es' Hr. fold ld in Hr. rewrite Hld in Hr. eapply dispatch_post_perm; [|exact Hr]. done.
Qed.

Lemma all_slots_one c : all_slots [c] = slots c.
Proof. unfold all_slots. cbn. by rewrite (right_id_L ∅ (∪)). Qed.

(** The contract of [hybrid_dispatch], from the strategy's laws. *)
Lemma dispatch_spec on_pool mode plan nt :
  (2 ≤ n)%nat → (2 ≤ nt)%nat →
  let cs := dispatch_chunks on_pool mode n plan nt in
  apart cs →
  always steal (hybrid_dispatch erase strategy on_pool mode n plan nt)
    (own (all_slots cs) (before S)) (dispatch_post cs).
Proof.
  intros Hn Hnt cs Ha. subst cs. unfold hybrid_dispatch, dispatch_chunks in *.
  assert (2 ≤ hybrid_num_chunks n plan nt)%nat as Hnc by (unfold hybrid_num_chunks; lia).
  destruct (hybrid_num_chunks n plan nt) as [|nc]; [lia|].
  destruct (on_pool && _) eqn:Hon; cbv zeta.
  - apply always_bind. rewrite all_slots_one. eapply always_mono; [apply (law_chunk steal erase 0 n); lia|].
    intros r m es (Hr & _ & Hp).
    destruct r as [[u|f]|p]; constructor; rewrite app_nil_r; cbn [dispatch_post];
      rewrite all_slots_one; cbn [fmap list_fmap concat fst snd]; rewrite ?app_nil_r;
      destruct Hp as (Hp & Hm & Hu); split_and!; try done.
    + intros c Hc. by apply list_elem_of_singleton in Hc as ->.
    + intros f Hf. rewrite Hm. apply own_ext. intros x Hx. symmetry.
      by apply (Hf (0%nat, n)); [apply list_elem_of_singleton|].
    + exists [erase f]. split; [done|]. intros g Hg. apply list_elem_of_singleton in Hg as ->.
      exists (0%nat, n). split; [by apply list_elem_of_singleton|done].
    + exists (0%nat, n). split; [by apply list_elem_of_singleton|done].
  - destruct (bool_decide (chunk_splits plan (Datatypes.S nc) = 0)%nat).
    + rewrite bool_decide_eq_false_2 by lia. replace (Datatypes.S nc - 1)%nat with nc by lia.
      by apply (par_phase_spec _ (Some _)).
    + rewrite bool_decide_eq_false_2 by lia. by apply (par_phase_spec _ None).
Qed.
End contract.
