(* ===== verification/FusedCollect.v ===== *)
(** * The index terminals of the fused engine: collect, for_each, try_collect

    The strategies of [src/crates/youpipe/src/builder/typed/fused.rs] whose
    output positions are known ([CollectStrategy], [SinkStrategy],
    [RangeGenStrategy], [RangeGenSinkStrategy], [TryStrategy] and their
    by-reference twins) and the terminals that drive them
    ([par_index_collect], [par_for_each], [par_index_try_collect],
    [par_range_gen_collect], [par_range_gen_for_each], ...).

    Every strategy is the tree of [FusedTree] over its leaf, and discharges
    the [StrategyLaws] of [HybridDispatch] through [index_laws]. *)

From S2P Require Import Prelude SleepCounters Config ForkJoin FusedTree FusedPlan HybridDispatch.
Local Open Scope prog_scope.

(** ** Strategies *)

Section strategies.
Context {T R X P E : Type}.
Notation ev := (event P E X).

(** [CollectStrategy]. *)
Definition collect_strategy (op : T → res P R) : HybridStrategy (T + R) ev P P :=
  mkStrategy
    (λ s e splits, par_tree_rec (λ p, p) (par_index_leaf op) (drop_range BOut) splits s e)
    (par_index_leaf op)
    (drop_range BOut).

(** [CollectByRefStrategy]. *)
Definition collect_by_ref_strategy (input : list T) (op : T → res P R) :
    HybridStrategy (T + R) ev P P :=
  mkStrategy
    (λ s e splits, par_tree_rec (λ p, p) (par_index_leaf_by_ref input op) (drop_range BOut) splits s e)
    (par_index_leaf_by_ref input op)
    (drop_range BOut).

(** The effect of the user's closure. *)
Definition effect_of (consume : T → res P X) (item : T) : res P ev :=
  match consume item with Val x => Val (Effect x) | Unwind p => Unwind p end.

(** [SinkStrategy]: no output, nothing to drop. *)
Definition sink_strategy (consume : T → res P X) : HybridStrategy (T + R) ev P P :=
  mkStrategy
    (λ s e splits,
       par_tree_rec (λ p, p) (par_for_each_leaf (effect_of consume)) (λ _ _, Done tt) splits s e)
    (par_for_each_leaf (effect_of consume))
    (λ _ _, Done tt).

(** [par_for_each_leaf_by_ref] and [SinkByRefStrategy]. *)
Definition par_for_each_leaf_by_ref (input : list T) (consume : T → res P X) (s e : nat) :
    prog (T + R) ev (res P (rresult unit P)) :=
  leaf_over false false (read_ref input) (sink_body (effect_of consume)) tt s e.
Definition sink_by_ref_strategy (input : list T) (consume : T → res P X) : HybridStrategy (T + R) ev P P :=
  mkStrategy
    (λ s e splits,
       par_tree_rec (λ p, p) (par_for_each_leaf_by_ref input consume) (λ _ _, Done tt) splits s e)
    (par_for_each_leaf_by_ref input consume)
    (λ _ _, Done tt).

(** [TryStrategy]: the leaf's error becomes [TryFailure::Error]. *)
Definition try_leaf (op : T → res P (rresult R E)) (s e : nat) :
    prog (T + R) ev (res P (rresult unit (TryFailure P E))) :=
  plet r := par_index_try_leaf op s e in Done (map_err TryError r).
Definition try_strategy (op : T → res P (rresult R E)) :
    HybridStrategy (T + R) ev P (TryFailure P E) :=
  mkStrategy
    (λ s e splits, par_tree_rec TryPanic (try_leaf op) (drop_range BOut) splits s e)
    (try_leaf op)
    (drop_range BOut).

(** [par_index_try_leaf_by_ref] and [TryByRefStrategy]. *)
Definition par_index_try_leaf_by_ref (input : list T) (op : T → res P (rresult R E)) (s e : nat) :
    prog (T + R) ev (res P (rresult unit E)) :=
  leaf_over true false (read_ref input) (try_body op) tt s e.
Definition try_leaf_by_ref (input : list T) (op : T → res P (rresult R E)) (s e : nat) :
    prog (T + R) ev (res P (rresult unit (TryFailure P E))) :=
  plet r := par_index_try_leaf_by_ref input op s e in Done (map_err TryError r).
Definition try_by_ref_strategy (input : list T) (op : T → res P (rresult R E)) :
    HybridStrategy (T + R) ev P (TryFailure P E) :=
  mkStrategy
    (λ s e splits, par_tree_rec TryPanic (try_leaf_by_ref input op) (drop_range BOut) splits s e)
    (try_leaf_by_ref input op)
    (drop_range BOut).
End strategies.

(** [RangeGenStrategy] and [RangeGenSinkStrategy]: the item at index [i] is
    [base + i]. *)
Definition range_gen_strategy {R X P E : Type} (base : nat) (op : nat → res P R) :
    HybridStrategy (nat + R) (event P E X) P P :=
  mkStrategy
    (λ s e splits, par_tree_rec (λ p, p) (par_range_gen_leaf base op) (drop_range BOut) splits s e)
    (par_range_gen_leaf base op)
    (drop_range BOut).

Definition range_gen_sink_leaf {R X P E : Type} (base : nat) (consume : nat → res P X) (s e : nat) :
    prog (nat + R) (event P E X) (res P (rresult unit P)) :=
  leaf_over false false (λ i, Done (base + i)%nat) (sink_body (effect_of consume)) tt s e.
Definition range_gen_sink_strategy {R X P E : Type} (base : nat) (consume : nat → res P X) :
    HybridStrategy (nat + R) (event P E X) P P :=
  mkStrategy
    (λ s e splits,
       par_tree_rec (λ p, p) (range_gen_sink_leaf base consume) (λ _ _, Done tt) splits s e)
    (range_gen_sink_leaf base consume)
    (λ _ _, Done tt).

(** ** Terminals *)

Section terminals.
Context {T R X P E : Type}.
Notation prg := (prog (T + R) (event P E X)).
(** The caller's context and the pool: on one of its workers, the on-pool
    knob, its worker count. *)
Context (on_pool : bool) (mode : OnpoolHybrid) (num_threads : nat).

(** [resume_panic]: an infallible strategy records no operation failure. *)
Definition resume_panic {A} (f : ErasedFailure P E) : prg (res P A) :=
  match f with PanicF p => Done (Unwind p) | Op _ => Fault end.

(** [par_index_collect]: the dispatch, then the output slots as a vector; a
    failure is re-raised. *)
Definition par_index_collect (n : nat) (op : T → res P R) (plan : SplitPlan) : prg (res P (list R)) :=
  plet r := hybrid_dispatch PanicF (collect_strategy op) on_pool mode n plan num_threads in
  match r with
  | Unwind p => Done (Unwind p)
  | Val (Err f) => resume_panic f
  | Val (Ok _) => plet v := into_vec BOut 0 n in Done (Val v)
  end.

(** [par_index_collect_by_ref]. *)
Definition par_index_collect_by_ref (input : list T) (op : T → res P R) (plan : SplitPlan) :
    prg (res P (list R)) :=
  let n := length input in
  plet r := hybrid_dispatch PanicF (collect_by_ref_strategy input op) on_pool mode n plan num_threads in
  match r with
  | Unwind p => Done (Unwind p)
  | Val (Err f) => resume_panic f
  | Val (Ok _) => plet v := into_vec BOut 0 n in Done (Val v)
  end.

(** [par_for_each]. *)
Definition par_for_each (n : nat) (consume : T → res P X) (plan : SplitPlan) : prg (res P unit) :=
  plet r := hybrid_dispatch PanicF (sink_strategy consume) on_pool mode n plan num_threads in
  match r with
  | Unwind p => Done (Unwind p)
  | Val (Err f) => resume_panic f
  | Val (Ok _) => Done (Val tt)
  end.

(** [par_index_try_collect]: the first recorded error is returned, a panic
    resumed. *)
Definition par_index_try_collect (n : nat) (op : T → res P (rresult R E)) (plan : SplitPlan) :
    prg (res P (rresult (list R) E)) :=
  plet r := hybrid_dispatch into_erased (try_strategy op) on_pool mode n plan num_threads in
  match r with
  | Unwind p => Done (Unwind p)
  | Val (Err (PanicF p)) => Done (Unwind p)
  | Val (Err (Op e)) => Done (Val (Err e))
  | Val (Ok _) => plet v := into_vec BOut 0 n in Done (Val (Ok v))
  end.

(** [par_for_each_by_ref] and [par_index_try_collect_by_ref]. *)
Definition par_for_each_by_ref (input : list T) (consume : T → res P X) (plan : SplitPlan) : prg (res P unit) :=
  let n := length input in
  plet r := hybrid_dispatch PanicF (sink_by_ref_strategy input consume) on_pool mode n plan num_threads in
  match r with
  | Unwind p => Done (Unwind p)
  | Val (Err f) => resume_panic f
  | Val (Ok _) => Done (Val tt)
  end.
Definition par_index_try_collect_by_ref (input : list T) (op : T → res P (rresult R E)) (plan : SplitPlan) :
    prg (res P (rresult (list R) E)) :=
  let n := length input in
  plet r := hybrid_dispatch into_erased (try_by_ref_strategy input op) on_pool mode n plan num_threads in
  match r with
  | Unwind p => Done (Unwind p)
  | Val (Err (PanicF p)) => Done (Unwind p)
  | Val (Err (Op e)) => Done (Val (Err e))
  | Val (Ok _) => plet v := into_vec BOut 0 n in Done (Val (Ok v))
  end.
End terminals.

(** [par_range_gen_collect] and [par_range_gen_for_each] over [base, base+n). *)
Definition par_range_gen_collect {R X P E : Type} (on_pool : bool) (mode : OnpoolHybrid)
    (num_threads base n : nat) (op : nat → res P R) (plan : SplitPlan) :
    prog (nat + R) (event P E X) (res P (list R)) :=
  plet r := hybrid_dispatch PanicF (range_gen_strategy base op) on_pool mode n plan num_threads in
  match r with
  | Unwind p => Done (Unwind p)
  | Val (Err f) => resume_panic f
  | Val (Ok _) => plet v := into_vec BOut 0 n in Done (Val v)
  end.

Definition par_range_gen_for_each {R X P E : Type} (on_pool : bool) (mode : OnpoolHybrid)
    (num_threads base n : nat) (consume : nat → res P X) (plan : SplitPlan) :
    prog (nat + R) (event P E X) (res P unit) :=
  plet r := hybrid_dispatch PanicF (range_gen_sink_strategy base consume) on_pool mode n plan num_threads in
  match r with
  | Unwind p => Done (Unwind p)
  | Val (Err f) => resume_panic f
  | Val (Ok _) => Done (Val tt)
  end.

(** ** The laws of an index strategy *)

Section index.
Context {T R X P E F : Type} (steal : bool → bool).
Notation ev := (event P E X).
Context (from_payload : P → F) (erase : F → ErasedFailure P E).
Context (OUT IN : bool) (x : nat → T) (y : nat → R) (n : nat).
Context (fail : nat → option (P + F)) (eff : nat → list ev).
Context (leaf : nat → nat → prog (T + R) ev (res P (rresult unit F))).
Context (drop_success : nat → nat → prog (T + R) ev unit).

(** The failure item [i] is reported with. *)
Definition item_failure (i : nat) (f : ErasedFailure P E) : Prop :=
  match fail i with
  | None => False
  | Some (inl p) => f = PanicF p
  | Some (inr g) => f = erase g
  end.

Definition index_spec : ChunkSpec (T + R) X P E :=
  mkChunkSpec (leaf_slots OUT IN) (slots_at x y 0) (λ _ _, slots_done y)
    (λ s e, ∀ i, (s ≤ i < e)%nat → fail i = None)
    (λ s e f, (∃ i, (s ≤ i < e)%nat ∧ item_failure i f) ∧
       ((∀ i p, (s ≤ i < e)%nat → fail i ≠ Some (inl p)) →
        ∃ g, first_fail fail s (e - s) = Some (inr g) ∧ f = erase g))
    (λ s e, user_effects (effects eff s e)).

Definition tree_strategy : HybridStrategy (T + R) ev P F :=
  mkStrategy (λ s e splits, par_tree_rec from_payload leaf drop_success splits s e) leaf drop_success.

Hypothesis erase_panic : ∀ p, erase (from_payload p) = PanicF p.
Hypothesis some_schedule : ∃ c, steal c = true.
Hypothesis no_late_panic : steal false = true →
  ∀ i j p, (i < j < n)%nat → fail i ≠ None → fail j ≠ Some (inl p).
Hypothesis eff_user : ∀ i, recorded (eff i) = [] ∧ latch_sets (eff i) = 0%nat.
Hypothesis leaf_ok : ∀ s e, (s ≤ e ≤ n)%nat →
  always steal (leaf s e) (own (leaf_slots OUT IN s e) (slots_at x y 0))
    (range_post from_payload (leaf_slots OUT IN) (slots_done y) slots_dead fail eff s e).
Hypothesis drop_ok : ∀ s e, (s ≤ e ≤ n)%nat →
  always steal (drop_success s e) (own (leaf_slots OUT IN s e) (slots_done y))
    (λ _ m es, m = own (leaf_slots OUT IN s e) slots_dead ∧ es = []).

Lemma effects_user s e es : es ⊆+ effects eff s e → recorded es = [] ∧ latch_sets es = 0%nat.
Proof.
  assert (recorded (effects eff s e) = [] ∧ latch_sets (effects eff s e) = 0%nat) as [H1 H2].
  { unfold effects. generalize (seq s (e - s)). intros l. induction l as [|i l [IH1 IH2]]; [done|].
    cbn [fmap list_fmap concat]. rewrite recorded_app, latch_sets_app.
    destruct (eff_user i) as [-> ->]. by rewrite IH1, IH2. }
  intros (es' & Hes)%submseteq_Permutation.
  rewrite Hes, latch_sets_app in H2. pose proof (recorded_perm _ _ Hes) as Hp.
  rewrite H1, recorded_app in Hp. apply Permutation_nil, app_nil in Hp as [-> _]. split; [done|lia].
Qed.

Lemma effects_sub s e es : es ⊆+ effects eff s e → user_effects es ⊆+ user_effects (effects eff s e).
Proof.
  intros (es' & Hes)%submseteq_Permutation. rewrite Hes, user_effects_app.
  by apply submseteq_inserts_r.
Qed.

Lemma first_fail_none s k : first_fail fail s k = None ↔ ∀ i, (s ≤ i < s + k)%nat → fail i = None.
Proof.
  revert s. induction k as [|k IH]; intros s; cbn; [split; [intros; lia|done]|].
  destruct (fail s) as [f|] eqn:Ef.
  - split; [done|]. intros H. by rewrite H in Ef by lia.
  - rewrite IH. split; intros H i Hi; [|apply H; lia].
    destruct (decide (i = s)) as [->|]; [done|]. apply H. lia.
Qed.

(** What the tree guarantees of a range is what a chunk must. *)
Lemma range_chunk_post s e r m es :
  (s ≤ e)%nat →
  range_post from_payload (leaf_slots OUT IN) (slots_done y) slots_dead fail eff s e r m es →
  chunk_post erase index_spec s e r m es.
Proof.
  intros Hse Hr. pose proof (range_post_mem _ _ _ _ _ _ _ _ _ _ _ Hr) as [_ Hsub].
  destruct (effects_user _ _ _ Hsub) as [H1 H2]. split_and!; [done|done|].
  pose proof (effects_sub _ _ _ Hsub) as Hu. destruct r as [[u|f]|p]; cbn in *.
  - destruct Hr as (Hf & -> & Hes). split_and!; [|done|by rewrite Hes].
    intros i Hi. eapply (proj1 (first_fail_none s (e - s)) Hf). lia.
  - destruct Hr as ((i & Hi & Hf) & Hff & -> & _). split; [|by split].
    split; [|intros Hno; exists f; by rewrite Hff].
    exists i. split; [done|]. unfold item_failure.
    destruct Hf as [->|(p & -> & ->)]; [done|by rewrite erase_panic].
  - destruct Hr as ((i & Hi & Hf) & -> & _). split; [|by split]. split.
    + exists i. split; [done|]. unfold item_failure. by rewrite Hf.
    + intros Hno. by destruct (Hno i p Hi).
Qed.

#[local] Instance index_laws : StrategyLaws steal erase n index_spec tree_strategy.
Proof using All.
  split; intros s e; [intros k|..]; intros Hse; cbn.
  - eapply always_mono.
    + apply (tree_spec steal from_payload leaf drop_success (leaf_slots OUT IN) (slots_at x y 0)
        (slots_done y) slots_dead fail eff n); try done.
      * intros ? ? ? ? _. by apply leaf_slots_split.
      * intros ? ? ? ?. by apply leaf_slots_disj.
    + intros r m es Hr. apply range_chunk_post; [lia|done].
  - eapply always_mono; [by apply leaf_ok|]. intros r m es Hr. apply range_chunk_post; [lia|done].
  - by apply drop_ok.
Qed.

Lemma leaf_slots_nil s : leaf_slots OUT IN s s = ∅.
Proof.
  apply set_eq. intros l. split; [|set_solver]. intros [? _]%elem_of_leaf_slots. lia.
Qed.

(** Consecutive chunks own the slots of the whole range, each its own. *)
Lemma covers_slots cs s e : covers cs s e → all_slots index_spec cs = leaf_slots OUT IN s e.
Proof.
  revert s. induction cs as [|c cs IH]; intros s; cbn [covers].
  - intros ->. by rewrite leaf_slots_nil.
  - intros (<- & Hc & Hcs). pose proof (covers_le _ _ _ Hcs).
    change (all_slots index_spec (c :: cs)) with (leaf_slots OUT IN c.1 c.2 ∪ all_slots index_spec cs).
    rewrite (IH _ Hcs). symmetry. apply leaf_slots_split. lia.
Qed.

Lemma covers_apart cs s e : covers cs s e → (e ≤ n)%nat → apart n index_spec cs.
Proof.
  revert s. induction cs as [|c cs IH]; intros s; cbn [covers apart]; [done|].
  intros (<- & Hc & Hcs) He. pose proof (covers_le _ _ _ Hcs). split_and!; [|lia|lia|eauto].
  rewrite (covers_slots _ _ _ Hcs). apply leaf_slots_disj. lia.
Qed.

Lemma covers_effects cs s e : covers cs s e →
  concat ((λ c, effects_of index_spec c.1 c.2) <$> cs) = user_effects (effects eff s e).
Proof.
  revert s. induction cs as [|c cs IH]; intros s; cbn [covers].
  - intros ->. unfold effects. by rewrite Nat.sub_diag.
  - intros (<- & Hc & Hcs). pose proof (covers_le _ _ _ Hcs).
    specialize (IH _ Hcs). cbn [fmap list_fmap concat] in *. rewrite IH. cbn [effects_of index_spec].
    rewrite <- user_effects_app.
    by rewrite (effects_split eff c.1 c.2 e) by lia.
Qed.

Lemma covers_point cs s e i : covers cs s e → (s ≤ i < e)%nat → ∃ c, c ∈ cs ∧ (c.1 ≤ i < c.2)%nat.
Proof.
  revert s. induction cs as [|c cs IH]; intros s; cbn [covers]; [lia|].
  intros (<- & Hc & Hcs) Hi. destruct (decide (i < c.2)%nat).
  - exists c. split; [by left|lia].
  - destruct (IH _ Hcs) as (c' & ? & ?); [lia|]. exists c'. split; [by right|done].
Qed.

(** The whole batch: every item succeeded and its output is in place, or no
    slot is live and the failure is an item's - when no item panics, that of
    the first failing item of some chunk. *)
Definition index_post (cs : list (nat * nat)) (r : res P (rresult unit (ErasedFailure P E)))
    (m : mem (T + R)) (es : list ev) : Prop :=
  match r with
  | Val (Ok _) =>
      (∀ i, (i < n)%nat → fail i = None) ∧ m = own (leaf_slots OUT IN 0 n) (slots_done y) ∧
      user_effects es ≡ₚ user_effects (effects eff 0 n)
  | Val (Err f) =>
      (∃ i, (i < n)%nat ∧ item_failure i f) ∧
      ((∀ i p, (i < n)%nat → fail i ≠ Some (inl p)) →
       ∃ c g, c ∈ cs ∧ first_fail fail c.1 (c.2 - c.1) = Some (inr g) ∧ f = erase g) ∧
      m = own (leaf_slots OUT IN 0 n) slots_dead ∧ user_effects es ⊆+ user_effects (effects eff 0 n)
  | Unwind p =>
      (∃ i, (i < n)%nat ∧ item_failure i (PanicF p)) ∧
      m = own (leaf_slots OUT IN 0 n) slots_dead ∧ user_effects es ⊆+ user_effects (effects eff 0 n)
  end.

Lemma index_dispatch_spec on_pool mode plan nt :
  (2 ≤ n)%nat → (2 ≤ nt)%nat →
  always steal (hybrid_dispatch erase tree_strategy on_pool mode n plan nt)
    (own (leaf_slots OUT IN 0 n) (slots_at x y 0))
    (index_post (dispatch_chunks on_pool mode n plan nt)).
Proof using All.
  intros Hn Hnt. set (cs := dispatch_chunks on_pool mode n plan nt).
  assert (covers cs 0 n) as Hcov by apply dispatch_chunks_cover.
  pose proof (covers_slots _ _ _ Hcov) as Hsl. pose proof (covers_effects _ _ _ Hcov) as Hef.
  rewrite <- Hsl. eapply always_mono.
  { eapply (dispatch_spec steal erase n index_spec tree_strategy); [done|done|].
    eapply covers_apart; [done|lia]. }
  fold cs. intros r m es Hr. destruct r as [[u|f]|p]; cbn [dispatch_post] in Hr; cbn [index_post];
    rewrite Hsl, Hef in Hr.
  - destruct Hr as (Hok & Hm & Hu). split_and!; [|by apply Hm|done].
    intros i Hi. destruct (covers_point cs 0 n i) as (c & Hc & Hic); [done|lia|].
    by apply (Hok c Hc).
  - destruct Hr as ((fs & Hf & Hfs) & Hm & Hu). destruct fs as [|f0 fs]; [done|].
    cbn [foldl] in Hf. change (record None f0) with (Some f0) in Hf.
    destruct (record_keeps fs f0) as (f' & Hf' & Hin & _). rewrite Hf' in Hf. injection Hf as ->.
    destruct (Hfs f Hin) as (c & Hc & (i & Hi & Hif) & Hfirst).
    destruct (covers_bounds _ _ _ _ Hcov Hc) as [? ?]. split_and!; [|..|done|done].
    + exists i. split; [lia|done].
    + intros Hno. destruct Hfirst as (g & Hg & ->); [|eauto].
      intros j p Hj. apply Hno. lia.
  - destruct Hr as ((c & Hc & (i & Hi & Hif) & _) & Hm & Hu).
    destruct (covers_bounds _ _ _ _ Hcov Hc) as [? ?]. split_and!; [|done|done].
    exists i. split; [lia|done].
Qed.
End index.

(** ** The terminals' guarantees *)

Lemma map_err_id {P F} (r : res P (rresult unit F)) : map_err (λ f, f) r = r.
Proof. by destruct r as [[]|]. Qed.

(** A leaf whose operation is a function of the item alone meets the contract
    of an index strategy, the error converted by [of_error]. *)
Lemma leaf_ok_of {T R X P E F : Type} (steal : bool → bool) (from_payload : P → F) (of_error : E → F)
    (OUT IN : bool) (x : nat → T) (y : nat → R) (read : nat → prog (T + R) X T)
    (body : T → unit → res P (rresult (unit * option R * option X) E))
    (N : nat) (leaf : nat → nat → prog (T + R) X (res P (rresult unit F))) s e :
  (∀ D f i Q, (i < N)%nat →
    (if IN then (BIn, i) ∈ D ∧ f (BIn, i) = Some (inl (x i)) else True) →
    Q (x i) (own D (λ l, if decide (IN = true ∧ l = (BIn, i)) then None else f l)) [] →
    always steal (read i) (own D f) Q) →
  (∀ i acc acc' o ev, body (x i) acc = Val (Ok (acc', o, ev)) → o = if OUT then Some (y i) else None) →
  (s ≤ e ≤ N)%nat →
  bind (leaf_over OUT IN read body tt s e) (λ r, Done (map_err of_error r)) = leaf s e →
  always steal (leaf s e) (own (leaf_slots OUT IN s e) (slots_at x y 0))
    (range_post from_payload (leaf_slots OUT IN) (slots_done y) slots_dead
       (item_fail of_error x body) (item_eff x body) s e).
Proof.
  intros Hread Hbody Hse <-. apply always_bind.
  eapply always_mono; [by eapply (leaf_range_post steal from_payload of_error)|].
  intros r m es Hr. constructor. by rewrite app_nil_r.
Qed.

(** A leaf that cannot return an error needs no conversion. *)
Lemma leaf_ok_id {T R X P F : Type} (steal : bool → bool) (from_payload : P → F)
    (OUT IN : bool) (x : nat → T) (y : nat → R) (read : nat → prog (T + R) X T)
    (body : T → unit → res P (rresult (unit * option R * option X) F)) (N : nat) s e :
  (∀ D f i Q, (i < N)%nat →
    (if IN then (BIn, i) ∈ D ∧ f (BIn, i) = Some (inl (x i)) else True) →
    Q (x i) (own D (λ l, if decide (IN = true ∧ l = (BIn, i)) then None else f l)) [] →
    always steal (read i) (own D f) Q) →
  (∀ i acc acc' o ev, body (x i) acc = Val (Ok (acc', o, ev)) → o = if OUT then Some (y i) else None) →
  (s ≤ e ≤ N)%nat →
  always steal (leaf_over OUT IN read body tt s e) (own (leaf_slots OUT IN s e) (slots_at x y 0))
    (range_post from_payload (leaf_slots OUT IN) (slots_done y) slots_dead
       (item_fail (λ f, f) x body) (item_eff x body) s e).
Proof.
  intros Hread Hbody Hse.
  eapply always_mono; [by eapply (leaf_range_post steal from_payload (λ f, f))|].
  intros r m es Hr. cbv beta in Hr. by rewrite map_err_id in Hr.
Qed.

(** An access to the items [x] of a batch of [n]: moved out of their slots
    ([IN]), borrowed or generated. *)
Definition reads {T R X : Type} (steal : bool → bool) (n : nat) (IN : bool) (x : nat → T)
    (read : nat → prog (T + R) X T) : Prop :=
  ∀ D f i Q, (i < n)%nat →
    (if IN then (BIn, i) ∈ D ∧ f (BIn, i) = Some (inl (x i)) else True) →
    Q (x i) (own D (λ l, if decide (IN = true ∧ l = (BIn, i)) then None else f l)) [] →
    always steal (read i) (own D f) Q.

Lemma reads_owned {T R X : Type} (steal : bool → bool) n (x : nat → T) :
  reads (R := R) (X := X) steal n true x read_in.
Proof. intros D f i Q _. apply (read_in_spec steal x). Qed.

Lemma reads_ref {T R X : Type} `{!Inhabited T} (steal : bool → bool) (input : list T) :
  reads (R := R) (X := X) steal (length input) false (λ i, input !!! i) (read_ref input).
Proof.
  intros D f i Q Hi _. unfold read_ref. rewrite (list_lookup_lookup_total_lt input i) by done.
  apply (read_pure_spec steal (λ i, input !!! i)).
Qed.

Lemma reads_range {R X : Type} (steal : bool → bool) (base n : nat) :
  reads (R := R) (X := X) steal n false (λ i, seq base n !!! i) (λ i, Done (base + i)%nat).
Proof.
  intros D f i Q Hi _ HQ.
  assert (seq base n !!! i = (base + i)%nat) as Hx by (apply list_lookup_total_correct, lookup_seq; lia).
  rewrite Hx in HQ. by apply (read_pure_spec steal (λ i, (base + i)%nat)).
Qed.

(** No slot holds a value. *)
Definition no_live {V} (m : mem V) : Prop := ∀ l v, m !! l ≠ Some (Some v).

(** The same but for the cells. *)
Definition buffers_gone {V : Type} (m : mem V) : Prop := ∀ b i v, b ≠ BCell → m !! (b, i) ≠ Some (Some v).

Lemma buffers_gone_own {V : Type} (D : gset loc) (f : loc → option V) :
  (∀ l, l ∈ D → l.1 ≠ BCell → f l = None) → buffers_gone (own D f).
Proof.
  intros Hf b i v Hb. rewrite lookup_own. destruct (decide _) as [Hin|]; [|done]. by rewrite Hf.
Qed.

Lemma buffers_gone_union {V : Type} (m1 m2 : mem V) :
  buffers_gone m1 → buffers_gone m2 → buffers_gone (m1 ∪ m2).
Proof.
  intros H1 H2 b i v Hb [?|[_ ?]]%lookup_union_Some_raw; [by eapply H1|by eapply H2].
Qed.

Lemma buffers_gone_empty {V : Type} : buffers_gone (∅ : mem V).
Proof. intros b i v _. by rewrite lookup_empty. Qed.

Lemma no_live_dead {T R : Type} D : no_live (own D (slots_dead (T := T) (R := R))).
Proof. intros l v. rewrite lookup_own. by destruct (decide _). Qed.

(** The slots a run over owned items, and one over borrowed ones, starts from. *)
Lemma start_slots {T R : Type} `{!Inhabited T} (items : list T) (y : nat → R) :
  from_vec items ∪ uninit (length items) =
    own (leaf_slots true true 0 (length items)) (slots_at (λ i, items !!! i) y 0).
Proof.
  apply own_glue; intros [b i] [Hb Hi]%elem_of_slots; cbn in *; subst b; unfold slots_at; cbn.
  - destruct (lookup_lt_is_Some_2 items i) as [t Ht]; [lia|]. by rewrite Ht, (list_lookup_total_correct _ _ _ Ht).
  - done.
Qed.

Lemma start_slots_ref {T R : Type} (n : nat) (x : nat → T) (y : nat → R) :
  uninit n = own (leaf_slots true false 0 n) (slots_at x y 0).
Proof.
  unfold uninit, leaf_slots. rewrite (left_id_L ∅ (∪)). apply own_ext.
  intros [b i] [Hb Hi]%elem_of_slots; cbn in *; by subst b.
Qed.

(** Moving the outputs out leaves the slots empty. *)
Lemma into_vec_done {T R X : Type} (steal : bool → bool) (IN : bool) (y : nat → R) (n : nat)
    (Q : list R → mem (T + R) → list X → Prop) :
  Q (y <$> seq 0 n) (own (leaf_slots true IN 0 n) slots_dead) [] →
  always steal (into_vec BOut 0 n) (own (leaf_slots true IN 0 n) (slots_done y)) Q.
Proof.
  intros HQ. apply into_vec_spec with (y := y).
  - intros j Hj. split; [apply leaf_slots_out; [done|lia]|done].
  - intros g Hg1 Hg2. erewrite own_ext; [exact HQ|]. intros l [Hr [[Hb _]|[Hb _]]]%elem_of_leaf_slots.
    + rewrite Hg2 by (left; by rewrite Hb). unfold slots_done. by rewrite Hb.
    + apply Hg1; [done|lia].
Qed.

(** Pointwise facts over the indices are facts over the items. *)
Lemma index_forall2 {T R : Type} `{!Inhabited T} (items : list T) (y : nat → R) (Φ : T → R → Prop) :
  (∀ i, (i < length items)%nat → Φ (items !!! i) (y i)) →
  Forall2 Φ items (y <$> seq 0 (length items)).
Proof.
  intros H. apply Forall2_same_length_lookup_2; [by rewrite length_fmap, length_seq|].
  intros i t r Ht Hr. pose proof (lookup_lt_Some _ _ _ Ht).
  rewrite list_lookup_fmap, lookup_seq_lt in Hr by done. cbn in Hr. injection Hr as <-.
  rewrite <- (list_lookup_total_correct _ _ _ Ht). by apply H.
Qed.

Lemma index_item {T : Type} `{!Inhabited T} (items : list T) i :
  (i < length items)%nat → items !!! i ∈ items.
Proof. intros. by apply list_elem_of_lookup_total_2. Qed.

(** The operation's output on an item. *)
Definition out_of {T R P : Type} `{!Inhabited R} (op : T → res P R) (t : T) : R :=
  match op t with Val r => r | Unwind _ => inhabitant end.

Lemma apply_item_fail {T R X P : Type} (x : nat → T) (op : T → res P R) i :
  item_fail (X := X) (λ f : P, f) x (apply_body op) i =
    match op (x i) with Val _ => None | Unwind p => Some (inl p) end.
Proof. unfold item_fail, apply_body. by destruct (op (x i)). Qed.

(** The core of the collecting terminals, for any access to the items: moved
    out of their slots, borrowed or generated. *)
Section collect_core.
Context {T R X P E : Type} `{!Inhabited R} (steal : bool → bool).
Notation ev := (event P E X).
Context (on_pool : bool) (mode : OnpoolHybrid) (nt : nat) (plan : SplitPlan) (n : nat).
Context (IN : bool) (x : nat → T) (read : nat → prog (T + R) ev T) (op : T → res P R).
Hypothesis read_ok : reads steal n IN x read.
Hypothesis (Hn : (2 ≤ n)%nat) (Hnt : (2 ≤ nt)%nat) (Hs : ∃ c, steal c = true).
Hypothesis no_two_panics : steal false = true →
  ∀ i j p q, (i < j < n)%nat → op (x i) = Unwind p → op (x j) ≠ Unwind q.

Lemma collect_core (strategy : HybridStrategy (T + R) ev P P) :
  strategy = tree_strategy (λ p, p) (leaf_over true IN read (apply_body op) tt) (drop_range BOut) →
  always steal
    (plet r := hybrid_dispatch PanicF strategy on_pool mode n plan nt in
     match r with
     | Unwind p => Done (Unwind p)
     | Val (Err f) => resume_panic f
     | Val (Ok _) => plet v := into_vec BOut 0 n in Done (Val v)
     end)
    (own (leaf_slots true IN 0 n) (slots_at x (λ i, out_of op (x i)) 0))
    (λ r m es, no_live m ∧
       match r with
       | Val ys => ys = (λ i, out_of op (x i)) <$> seq 0 n ∧
           ∀ i, (i < n)%nat → op (x i) = Val (out_of op (x i))
       | Unwind p => ∃ i, (i < n)%nat ∧ op (x i) = Unwind p
       end).
Proof using All.
  intros ->. set (fail := item_fail (X := ev) (λ f : P, f) x (apply_body op)). apply always_bind.
  eapply always_mono.
  { eapply (index_dispatch_spec steal (λ p, p) PanicF true IN x (λ i, out_of op (x i)) n fail
      (item_eff x (apply_body op))); try done.
    - intros Hf i j p Hij Hi Hj. unfold fail in Hi, Hj. rewrite apply_item_fail in Hi, Hj.
      destruct (op (x i)) eqn:Ei; [done|]. destruct (op (x j)) eqn:Ej; [done|].
      by eapply (no_two_panics Hf i j).
    - intros i. unfold item_eff, apply_body. by destruct (op (x i)).
    - intros s e Hse. apply leaf_ok_id with (N := n); [done| |done].
      intros i acc acc' o ev. unfold apply_body, out_of. destruct (op (x i)); congruence.
    - intros s e Hse. by apply drop_range_done. }
  assert (∀ i f, item_failure (E := E) PanicF fail i f → ∃ p, f = PanicF p ∧ op (x i) = Unwind p) as Hif.
  { intros i f. unfold item_failure, fail. rewrite apply_item_fail. destruct (op (x i)); [done|eauto]. }
  intros r m es Hr. destruct r as [[u|f]|p]; cbn [index_post] in Hr.
  - destruct Hr as (Hok & -> & _). apply always_bind. apply into_vec_done. constructor.
    split_and!; [apply no_live_dead|done|]. intros i Hi. specialize (Hok i Hi).
    unfold fail in Hok. rewrite apply_item_fail in Hok. unfold out_of. by destruct (op (x i)).
  - destruct Hr as ((i & Hi & (p & -> & Hp)%Hif) & _ & -> & _). constructor.
    split; [apply no_live_dead|eauto].
  - destruct Hr as ((i & Hi & (p' & [= ->] & Hp)%Hif) & -> & _). constructor.
    split; [apply no_live_dead|eauto].
Qed.
End collect_core.

(** [par_index_collect] over any batch, split plan and pool, under every
    interleaving of the workers: the run terminates without touching a slot in
    the wrong state; it returns the operation's results in input order when no
    item panics and re-raises the panic of one of the items otherwise; and in
    both cases no item and no output is left behind in a slot, so each was
    handed over or dropped exactly once.  The scheduler may let the worker
    that joins a pair run the second half itself ([steal false]) as long as no
    item panics after another one has. *)
Theorem par_index_collect_correct {T R X P E : Type} `{!Inhabited T, !Inhabited R}
    (steal : bool → bool) (on_pool : bool) (mode : OnpoolHybrid) (nt : nat) (plan : SplitPlan)
    (items : list T) (op : T → res P R)
    (Hn : (2 ≤ length items)%nat) (Hnt : (2 ≤ nt)%nat) (Hs : ∃ c, steal c = true)
    (Hlate : steal false = true → ∀ i j xi xj p q, (i < j)%nat →
       items !! i = Some xi → items !! j = Some xj → op xi = Unwind p → op xj ≠ Unwind q) :
  always (X := event P E X) steal (par_index_collect on_pool mode nt (length items) op plan)
    (from_vec items ∪ uninit (length items))
    (λ r m es, no_live m ∧
       match r with
       | Val ys => Forall2 (λ x y, op x = Val y) items ys
       | Unwind p => ∃ x, x ∈ items ∧ op x = Unwind p
       end).
Proof.
  rewrite (start_slots items (λ i, out_of op (items !!! i))). eapply always_mono.
  - eapply (collect_core steal on_pool mode nt plan (length items) true (λ i, items !!! i) read_in op);
      [|done|done|done| |done].
    + apply reads_owned.
    + intros Hf i j p q Hij. eapply (Hlate Hf i j); [lia|apply list_lookup_lookup_total_lt; lia..].
  - intros r m es [Hm Hr]. split; [done|]. destruct r as [ys|p].
    + destruct Hr as [-> Hr]. by apply index_forall2.
    + destruct Hr as (i & Hi & Hp). exists (items !!! i). split; [by apply index_item|done].
Qed.

(** The first failing item of a range, when it fails with an error. *)
Lemma first_fail_first {P F : Type} (fail : nat → option (P + F)) s k f :
  first_fail fail s k = Some f →
  ∃ i, (s ≤ i < s + k)%nat ∧ fail i = Some f ∧ ∀ j, (s ≤ j < i)%nat → fail j = None.
Proof.
  revert s. induction k as [|k IH]; intros s; cbn; [done|].
  destruct (fail s) as [g|] eqn:Eg.
  - intros [= ->]. exists s. split_and!; [lia|lia|done|lia].
  - intros (i & Hi & Hf & Hno)%IH. exists i. split_and!; [lia|lia|done|].
    intros j Hj. destruct (decide (j = s)) as [->|]; [done|]. apply Hno. lia.
Qed.

(** The outcome of the operation on an item, as the strategy sees it. *)
Lemma try_item_fail {T R X P E : Type} (x : nat → T) (op : T → res P (rresult R E)) i :
  item_fail (X := X) (TryError (P := P)) x (try_body op) i =
    match op (x i) with
    | Val (Ok _) => None
    | Val (Err e) => Some (inr (TryError e))
    | Unwind p => Some (inl p)
    end.
Proof. unfold item_fail, try_body. by destruct (op (x i)) as [[]|]. Qed.

Definition try_out_at {T R P E : Type} `{!Inhabited T, !Inhabited R} (items : list T)
    (op : T → res P (rresult R E)) (i : nat) : R :=
  match op (items !!! i) with Val (Ok r) => r | _ => inhabitant end.

(** The fallible core, over owned or borrowed items. *)
Section try_core.
Context {T R X P E : Type} `{!Inhabited T, !Inhabited R} (steal : bool → bool).
Notation ev := (event P E X).
Context (on_pool : bool) (mode : OnpoolHybrid) (nt : nat) (plan : SplitPlan).
Context (items : list T) (op : T → res P (rresult R E)) (IN : bool) (read : nat → prog (T + R) ev T).
Notation x := (λ i, items !!! i).
Notation n := (length items).
Notation fail := (item_fail (X := ev) (TryError (P := P)) x (try_body op)).
Notation chunks := (dispatch_chunks on_pool mode n plan nt).
Hypothesis read_ok : reads steal n IN x read.
Hypothesis (Hn : (2 ≤ n)%nat) (Hnt : (2 ≤ nt)%nat) (Hs : ∃ c, steal c = true).
Hypothesis Hlate : steal false = true → ∀ i j xi xj p, (i < j)%nat →
  items !! i = Some xi → items !! j = Some xj → (∀ r, op xi ≠ Val (Ok r)) → op xj ≠ Unwind p.

Lemma try_dispatch_spec (strategy : HybridStrategy (T + R) ev P (TryFailure P E)) :
  strategy = tree_strategy TryPanic
    (λ s e, plet r := leaf_over true IN read (try_body op) tt s e in Done (map_err TryError r)) (drop_range BOut) →
  always steal (hybrid_dispatch into_erased strategy on_pool mode n plan nt)
    (own (leaf_slots true IN 0 n) (slots_at x (try_out_at items op) 0))
    (index_post into_erased true IN (try_out_at items op) n fail (item_eff x (try_body op)) chunks).
Proof using All.
  intros ->. eapply (index_dispatch_spec steal TryPanic into_erased true IN); try done.
  - intros Hf i j p Hij Hi Hj. rewrite try_item_fail in Hi, Hj.
    apply (Hlate Hf i j (x i) (x j) p); [lia|apply list_lookup_lookup_total_lt; lia..| |].
    + intros r Hr. by rewrite Hr in Hi.
    + by destruct (op (items !!! j)) as [[]|]; simplify_eq.
  - intros i. unfold item_eff, try_body. by destruct (op (items !!! i)) as [[]|].
  - intros s e Hse. apply (leaf_ok_of steal TryPanic TryError true IN x (try_out_at items op) read (try_body op) n
      (λ s e, plet r := leaf_over true IN read (try_body op) tt s e in Done (map_err TryError r)));
      [exact read_ok| |lia|done].
    intros i acc acc' o ev'. unfold try_body, try_out_at. destruct (op (items !!! i)) as [[]|]; congruence.
  - intros s e Hse. by apply drop_range_done.
Qed.

(** What a fallible collect may return: all results in order exactly when no
    item fails; the error of an item, when no item panics that of the first
    failing item of one of the dispatched chunks; or the panic of an item. *)
Definition try_collected (r : res P (rresult (list R) E)) : Prop :=
  match r with
  | Val (Ok ys) => Forall2 (λ x y, op x = Val (Ok y)) items ys
  | Val (Err e) =>
      (∃ x, x ∈ items ∧ op x = Val (Err e)) ∧
      ((∀ x p, x ∈ items → op x ≠ Unwind p) →
       ∃ c i x, c ∈ chunks ∧ (c.1 ≤ i < c.2)%nat ∧ items !! i = Some x ∧ op x = Val (Err e) ∧
         ∀ j x', (c.1 ≤ j < i)%nat → items !! j = Some x' → ∃ r, op x' = Val (Ok r))
  | Unwind p => ∃ x, x ∈ items ∧ op x = Unwind p
  end.

Lemma try_item_failure i f : (i < n)%nat → item_failure into_erased fail i f →
  match f with PanicF p => op (x i) = Unwind p | Op e => op (x i) = Val (Err e) end.
Proof.
  intros Hi. unfold item_failure. rewrite try_item_fail.
  destruct (op (items !!! i)) as [[r|e]|p]; [done|..]; by intros ->.
Qed.

(** The error a chunk reports is that of its first failing item. *)
Lemma try_first_error e :
  (∃ c g, c ∈ chunks ∧ first_fail fail c.1 (c.2 - c.1) = Some (inr g) ∧ Op e = into_erased g) →
  ∃ c i x, c ∈ chunks ∧ (c.1 ≤ i < c.2)%nat ∧ items !! i = Some x ∧ op x = Val (Err e) ∧
    ∀ j x', (c.1 ≤ j < i)%nat → items !! j = Some x' → ∃ r, op x' = Val (Ok r).
Proof.
  intros (c & g & Hc & Hg & Hge). apply first_fail_first in Hg as (j & Hj & Hfj & Hbefore).
  destruct (covers_bounds _ _ _ _ (dispatch_chunks_cover _ _ _ _ _) Hc) as [? ?].
  rewrite try_item_fail in Hfj. exists c, j, (x j).
  split_and!; [done|lia|lia|apply list_lookup_lookup_total_lt; lia| |].
  - destruct (op (items !!! j)) as [[]|]; try done. injection Hfj as <-. by injection Hge as ->.
  - intros k xk Hk Hxk. specialize (Hbefore k Hk).
    rewrite try_item_fail, (list_lookup_total_correct _ _ _ Hxk) in Hbefore.
    destruct (op xk) as [[r|]|]; [by exists r|done|done].
Qed.

Lemma try_core (strategy : HybridStrategy (T + R) ev P (TryFailure P E)) :
  strategy = tree_strategy TryPanic
    (λ s e, plet r := leaf_over true IN read (try_body op) tt s e in Done (map_err TryError r)) (drop_range BOut) →
  always steal
    (plet r := hybrid_dispatch into_erased strategy on_pool mode n plan nt in
     match r with
     | Unwind p => Done (Unwind p)
     | Val (Err (PanicF p)) => Done (Unwind p)
     | Val (Err (Op e)) => Done (Val (Err e))
     | Val (Ok _) => plet v := into_vec BOut 0 n in Done (Val (Ok v))
     end)
    (own (leaf_slots true IN 0 n) (slots_at x (try_out_at items op) 0))
    (λ r m es, no_live m ∧ try_collected r).
Proof using All.
  intros Hst. apply always_bind. eapply always_mono; [by apply try_dispatch_spec|].
  intros r m es Hr. destruct r as [[u|f]|p]; cbn [index_post] in Hr.
  - destruct Hr as (Hok & -> & _). apply always_bind. apply into_vec_done. constructor.
    split; [apply no_live_dead|]. apply index_forall2. intros i Hi. specialize (Hok i Hi).
    rewrite try_item_fail in Hok. unfold try_out_at. by destruct (op (items !!! i)) as [[]|].
  - destruct Hr as ((i & Hi & Hf%try_item_failure) & Hfirst & -> & _); [|done].
    destruct f as [e|p]; constructor; (split; [apply no_live_dead|]);
      [|exists (x i); split; [by apply index_item|done]].
    split; [exists (x i); split; [by apply index_item|done]|]. intros Hno. apply try_first_error, Hfirst.
    intros j p Hj. rewrite try_item_fail. specialize (Hno (items !!! j) p (index_item _ _ Hj)).
    destruct (op (items !!! j)) as [[]|]; congruence.
  - destruct Hr as ((i & Hi & Hf%try_item_failure) & -> & _); [|done]. constructor.
    split; [apply no_live_dead|]. exists (x i). split; [by apply index_item|done].
Qed.
End try_core.

(** [par_index_try_collect] and [par_index_try_collect_by_ref], under the same
    conditions: the run terminates without a fault and leaves no live slot;
    what it returns is described by [try_collected]. *)
Section try_terminals.
Context {T R X P E : Type} `{!Inhabited T, !Inhabited R} (steal : bool → bool).
Context (on_pool : bool) (mode : OnpoolHybrid) (nt : nat) (plan : SplitPlan).
Context (items : list T) (op : T → res P (rresult R E)).
Hypothesis (Hn : (2 ≤ length items)%nat) (Hnt : (2 ≤ nt)%nat) (Hs : ∃ c, steal c = true).
Hypothesis Hlate : steal false = true → ∀ i j xi xj p, (i < j)%nat →
  items !! i = Some xi → items !! j = Some xj → (∀ r, op xi ≠ Val (Ok r)) → op xj ≠ Unwind p.

Theorem par_index_try_collect_correct :
  always (X := event P E X) steal (par_index_try_collect on_pool mode nt (length items) op plan)
    (from_vec items ∪ uninit (length items))
    (λ r m es, no_live m ∧ try_collected on_pool mode nt plan items op r).
Proof using All.
  rewrite (start_slots items (try_out_at items op)).
  eapply (try_core steal on_pool mode nt plan items op true read_in); try done. apply reads_owned.
Qed.

Theorem par_index_try_collect_by_ref_correct :
  always (X := event P E X) steal (par_index_try_collect_by_ref on_pool mode nt items op plan)
    (uninit (length items))
    (λ r m es, no_live m ∧ try_collected on_pool mode nt plan items op r).
Proof using All.
  rewrite (start_slots_ref _ (λ i, items !!! i) (try_out_at items op)).
  eapply (try_core steal on_pool mode nt plan items op false (read_ref items)); try done. apply reads_ref.
Qed.
End try_terminals.

(** The effects of consuming a list of items. *)
Definition sink_effects {T X P : Type} (consume : T → res P X) (items : list T) : list X :=
  omap (λ x, match consume x with Val e => Some e | Unwind _ => None end) items.

Lemma lookup_total_seq {T : Type} `{!Inhabited T} (items : list T) :
  (λ i, items !!! i) <$> seq 0 (length items) = items.
Proof.
  apply list_eq_same_length with (length items); [done|by rewrite length_fmap, length_seq|].
  intros i a b Hi Ha Hb. rewrite list_lookup_fmap, lookup_seq_lt in Ha by done. cbn in Ha.
  rewrite (list_lookup_total_correct _ _ _ Hb) in Ha. congruence.
Qed.

Lemma sink_item_effects {T R X P E : Type} (x : nat → T) (consume : T → res P X) l :
  user_effects (concat (item_eff (R := R) (E := P) x (sink_body (effect_of (E := E) consume)) <$> l)) =
    sink_effects consume (x <$> l).
Proof.
  induction l as [|i l IH]; [done|]. cbn [fmap list_fmap concat]. rewrite user_effects_app, IH.
  unfold item_eff, sink_body, effect_of, sink_effects. cbn. by destruct (consume (x i)).
Qed.

Lemma sink_item_fail {T R X P E : Type} (x : nat → T) (consume : T → res P X) i :
  item_fail (R := R) (λ f : P, f) x (sink_body (effect_of (E := E) consume)) i =
    match consume (x i) with Val _ => None | Unwind p => Some (inl p) end.
Proof. unfold item_fail, sink_body, effect_of. by destruct (consume (x i)). Qed.

(** The sink core, over owned or borrowed items. *)
Section sink_core.
Context {T X P E : Type} `{!Inhabited T} (steal : bool → bool).
Notation ev := (event P E X).
Context (on_pool : bool) (mode : OnpoolHybrid) (nt : nat) (plan : SplitPlan).
Context (items : list T) (consume : T → res P X) (IN : bool) (read : nat → prog (T + unit) ev T).
Notation x := (λ i, items !!! i).
Notation n := (length items).
Notation body := (sink_body (R := unit) (E := P) (effect_of (E := E) consume)).
Notation fail := (item_fail (R := unit) (λ f : P, f) x body).
Notation eff := (item_eff (R := unit) x body).
Hypothesis read_ok : reads steal n IN x read.
Hypothesis (Hn : (2 ≤ n)%nat) (Hnt : (2 ≤ nt)%nat) (Hs : ∃ c, steal c = true).
Hypothesis Hlate : steal false = true → ∀ i j xi xj p q, (i < j)%nat →
  items !! i = Some xi → items !! j = Some xj → consume xi = Unwind p → consume xj ≠ Unwind q.

Lemma sink_dispatch_spec (strategy : HybridStrategy (T + unit) ev P P) :
  strategy = tree_strategy (λ p, p) (leaf_over false IN read body tt) (λ _ _, Done tt) →
  always steal (hybrid_dispatch PanicF strategy on_pool mode n plan nt)
    (own (leaf_slots false IN 0 n) (slots_at x (λ _, tt) 0))
    (index_post PanicF false IN (λ _, tt) n fail eff (dispatch_chunks on_pool mode n plan nt)).
Proof using All.
  intros ->. eapply (index_dispatch_spec steal (λ p, p) PanicF false IN x); try done.
  - intros Hf i j p Hij Hi Hj. rewrite sink_item_fail in Hi, Hj.
    destruct (consume (items !!! i)) as [?|q] eqn:Ei, (consume (items !!! j)) as [?|q'] eqn:Ej; try done.
    apply (Hlate Hf i j (x i) (x j) q q'); [lia| | |done|done]; apply list_lookup_lookup_total_lt; lia.
  - intros i. unfold item_eff, sink_body, effect_of. by destruct (consume (items !!! i)).
  - intros s e Hse. apply leaf_ok_id with (N := n); [exact read_ok| |lia].
    intros i acc acc' o ev'. unfold sink_body. by destruct (effect_of consume (items !!! i)); intros [= _ <- _].
  - intros s e Hse. constructor. by rewrite no_out_done.
Qed.

(** What a sink may do: it returns exactly when no item panics, every item's
    effect having happened once, in some order; otherwise it re-raises an
    item's panic, and the effects that happened are among those of the items,
    each at most once. *)
Definition consumed (r : res P unit) (es : list ev) : Prop :=
  match r with
  | Val _ => (∀ x, x ∈ items → ∃ e, consume x = Val e) ∧ user_effects es ≡ₚ sink_effects consume items
  | Unwind p => (∃ x, x ∈ items ∧ consume x = Unwind p) ∧ user_effects es ⊆+ sink_effects consume items
  end.

Lemma sink_core (strategy : HybridStrategy (T + unit) ev P P) :
  strategy = tree_strategy (λ p, p) (leaf_over false IN read body tt) (λ _ _, Done tt) →
  always steal
    (plet r := hybrid_dispatch PanicF strategy on_pool mode n plan nt in
     match r with
     | Unwind p => Done (Unwind p)
     | Val (Err f) => resume_panic f
     | Val (Ok _) => Done (Val tt)
     end)
    (own (leaf_slots false IN 0 n) (slots_at x (λ _, tt) 0)) (λ r m es, no_live m ∧ consumed r es).
Proof using All.
  intros Hst. apply always_bind.
  assert (user_effects (effects eff 0 n) = sink_effects consume items) as Heff.
  { unfold effects. rewrite Nat.sub_0_r, sink_item_effects. f_equal. apply lookup_total_seq. }
  eapply always_mono; [by apply sink_dispatch_spec|].
  assert (∀ i p, (i < n)%nat → item_failure (E := E) PanicF fail i (PanicF p) →
    ∃ x, x ∈ items ∧ consume x = Unwind p) as Hif.
  { intros i p Hi. unfold item_failure. rewrite sink_item_fail.
    destruct (consume (items !!! i)) as [|q] eqn:Ei; [done|]. intros [= ->].
    exists (x i). split; [by apply index_item|done]. }
  intros r m es Hr. destruct r as [[u|[e|p]]|p]; cbn [index_post] in Hr; rewrite Heff in Hr.
  - destruct Hr as (Hok & -> & Hu). constructor. rewrite no_out_done, app_nil_r by done.
    split; [apply no_live_dead|]. split; [|done]. intros t (i & Hi)%list_elem_of_lookup.
    specialize (Hok i (lookup_lt_Some _ _ _ Hi)). rewrite sink_item_fail in Hok.
    rewrite (list_lookup_total_correct _ _ _ Hi) in Hok. destruct (consume t) as [e|]; [by exists e|done].
  - destruct Hr as ((i & Hi & Hf) & _). unfold item_failure in Hf.
    rewrite sink_item_fail in Hf. by destruct (consume (items !!! i)).
  - destruct Hr as ((i & Hi & Hf) & _ & -> & Hu). constructor. rewrite app_nil_r.
    split; [apply no_live_dead|]. split; [by eapply Hif|done].
  - destruct Hr as ((i & Hi & Hf) & -> & Hu). constructor. rewrite app_nil_r.
    split; [apply no_live_dead|]. split; [by eapply Hif|done].
Qed.
End sink_core.

(** [par_for_each] and [par_for_each_by_ref], under the same conditions: the
    run terminates without a fault, leaves no live slot and does what
    [consumed] says. *)
Section sink_terminals.
Context {T X P E : Type} `{!Inhabited T} (steal : bool → bool).
Context (on_pool : bool) (mode : OnpoolHybrid) (nt : nat) (plan : SplitPlan).
Context (items : list T) (consume : T → res P X).
Hypothesis (Hn : (2 ≤ length items)%nat) (Hnt : (2 ≤ nt)%nat) (Hs : ∃ c, steal c = true).
Hypothesis Hlate : steal false = true → ∀ i j xi xj p q, (i < j)%nat →
  items !! i = Some xi → items !! j = Some xj → consume xi = Unwind p → consume xj ≠ Unwind q.

Theorem par_for_each_correct :
  always (X := event P E X) steal
    (par_for_each (R := unit) on_pool mode nt (length items) consume plan) (from_vec items)
    (λ r m es, no_live m ∧ consumed items consume r es).
Proof using All.
  assert (from_vec items = own (leaf_slots false true 0 (length items)) (slots_at (λ i, items !!! i) (λ _, tt) 0)) as ->.
  { unfold from_vec, leaf_slots. rewrite (right_id_L ∅ (∪)). apply own_ext.
    intros [b i] [Hb Hi]%elem_of_slots; cbn in *; subst b; unfold slots_at; cbn.
    destruct (lookup_lt_is_Some_2 items i) as [t Ht]; [lia|].
    by rewrite Ht, (list_lookup_total_correct _ _ _ Ht). }
  eapply (sink_core steal on_pool mode nt plan items consume true read_in); try done. apply reads_owned.
Qed.

Theorem par_for_each_by_ref_correct :
  always (X := event P E X) steal
    (par_for_each_by_ref (R := unit) on_pool mode nt items consume plan) ∅
    (λ r m es, no_live m ∧ consumed items consume r es).
Proof using All.
  assert (∅ = own (leaf_slots false false 0 (length items)) (slots_at (λ i, items !!! i) (λ _, tt) 0)) as ->.
  { apply map_eq. intros l. rewrite lookup_empty, lookup_own, decide_False; [done|].
    unfold leaf_slots. set_solver. }
  eapply (sink_core steal on_pool mode nt plan items consume false (read_ref items)); try done. apply reads_ref.
Qed.
End sink_terminals.

(** ** Borrowed and generated items *)

(** [par_index_collect_by_ref]: the items stay with the caller; every output
    is returned or dropped. *)
Theorem par_index_collect_by_ref_correct {T R X P E : Type} `{!Inhabited T, !Inhabited R}
    (steal : bool → bool) (on_pool : bool) (mode : OnpoolHybrid) (nt : nat) (plan : SplitPlan)
    (input : list T) (op : T → res P R) :
  (2 ≤ length input)%nat → (2 ≤ nt)%nat → (∃ c, steal c = true) →
  (steal false = true → ∀ i j xi xj p q, (i < j)%nat →
     input !! i = Some xi → input !! j = Some xj → op xi = Unwind p → op xj ≠ Unwind q) →
  always (X := event P E X) steal (par_index_collect_by_ref on_pool mode nt input op plan)
    (uninit (length input))
    (λ r m es, no_live m ∧
       match r with
       | Val ys => Forall2 (λ x y, op x = Val y) input ys
       | Unwind p => ∃ x, x ∈ input ∧ op x = Unwind p
       end).
Proof.
  intros Hn Hnt Hs Hlate. rewrite (start_slots_ref _ (λ i, input !!! i) (λ i, out_of op (input !!! i))).
  eapply always_mono.
  - eapply (collect_core steal on_pool mode nt plan (length input) false (λ i, input !!! i)
      (read_ref input) op); [|done|done|done| |done].
    + apply reads_ref.
    + intros Hf i j p q Hij. eapply (Hlate Hf i j); [lia|apply list_lookup_lookup_total_lt; lia..].
  - intros r m es [Hm Hr]. split; [done|]. destruct r as [ys|p].
    + destruct Hr as [-> Hr]. by apply index_forall2.
    + destruct Hr as (i & Hi & Hp). exists (input !!! i). split; [by apply index_item|done].
Qed.

(** [par_range_gen_collect]: the operation's results on base, base+1, ... *)
Theorem par_range_gen_collect_correct {R X P E : Type} `{!Inhabited R}
    (steal : bool → bool) (on_pool : bool) (mode : OnpoolHybrid) (nt : nat) (plan : SplitPlan)
    (base n : nat) (op : nat → res P R) :
  (2 ≤ n)%nat → (2 ≤ nt)%nat → (∃ c, steal c = true) →
  (steal false = true → ∀ i j p q, (base ≤ i < j)%nat → (j < base + n)%nat →
     op i = Unwind p → op j ≠ Unwind q) →
  always (X := event P E X) steal (par_range_gen_collect on_pool mode nt base n op plan) (uninit n)
    (λ r m es, no_live m ∧
       match r with
       | Val ys => Forall2 (λ x y, op x = Val y) (seq base n) ys
       | Unwind p => ∃ x, x ∈ seq base n ∧ op x = Unwind p
       end).
Proof.
  intros Hn Hnt Hs Hlate.
  rewrite (start_slots_ref n (λ i, (base + i)%nat) (λ i, out_of op (base + i)%nat)).
  eapply always_mono.
  - eapply (collect_core steal on_pool mode nt plan n false (λ i, (base + i)%nat)
      (λ i, Done (base + i)%nat) op); [|done|done|done| |done].
    + intros D f i Q Hi _. apply (read_pure_spec steal (λ i, (base + i)%nat)).
    + intros Hf i j p q Hij. apply (Hlate Hf); lia.
  - intros r m es [Hm Hr]. split; [done|]. destruct r as [ys|p].
    + destruct Hr as [-> Hr]. apply Forall2_same_length_lookup_2; [by rewrite length_fmap, !length_seq|].
      intros i a b Ha Hb. apply lookup_seq in Ha as [-> Hi].
      rewrite list_lookup_fmap, lookup_seq_lt in Hb by done. cbn in Hb. injection Hb as <-. by apply Hr.
    + destruct Hr as (i & Hi & Hp). exists (base + i)%nat. split; [apply elem_of_seq; lia|done].
Qed.

(** [par_range_gen_for_each], as [par_for_each]. *)
Theorem par_range_gen_for_each_correct {X P E : Type}
    (steal : bool → bool) (on_pool : bool) (mode : OnpoolHybrid) (nt : nat) (plan : SplitPlan)
    (base n : nat) (consume : nat → res P X) (items := seq base n) :
  (2 ≤ n)%nat → (2 ≤ nt)%nat → (∃ c, steal c = true) →
  (steal false = true → ∀ i j xi xj p q, (i < j)%nat →
     items !! i = Some xi → items !! j = Some xj → consume xi = Unwind p → consume xj ≠ Unwind q) →
  always (X := event P E X) steal
    (par_range_gen_for_each (R := unit) on_pool mode nt base n consume plan) ∅
    (λ r m es, no_live m ∧ consumed items consume r es).
Proof.
  intros Hn Hnt Hs Hlate. assert (length items = n) as Hlen by apply length_seq.
  assert (∅ = own (leaf_slots false false 0 n) (slots_at (λ i, items !!! i) (λ _, tt) 0)) as ->.
  { apply map_eq. intros l. rewrite lookup_empty, lookup_own, decide_False; [done|].
    unfold leaf_slots. set_solver. }
  pose proof (sink_core (E := E) steal on_pool mode nt plan items consume false (λ i, Done (base + i)%nat)) as Hc.
  rewrite Hlen in Hc. eapply Hc; try done. apply reads_range.
Qed.

(** ** Where the cleanup goes wrong *)

(** Four items of which the first and the last panic. *)
Definition panic_ends (x : nat) : res nat nat :=
  if bool_decide (x = 0%nat) || bool_decide (x = 3%nat) then Unwind x else Val (x + 10)%nat.

(** A pool worker collects four items of which the first and the last
    panic, with the plan the engine derives for a pool of four workers, and no
    half is stolen: the left half of the batch reports the first panic as a
    value, so the join takes it for a completed half and runs the right half
    bare; the unwind of the last item then passes the sibling guard, which
    goes on to drop the left half's output slots - slot 0, though it never
    held a value.  [join_on_captured] tests whether the first closure
    unwound, not whether it succeeded. *)
Theorem late_panic_drops_dead_slot :
  terminal_plan None None 4 Balanced 4 = Ret (Parallel (mkPlan 2 0)) ∧
  match run (λ _, true) (replicate 11 [false])
      (par_index_collect (X := unit) (E := nat) true OnpoolOff 4 4 panic_ends (mkPlan 2 0))
      (from_vec [0; 1; 2; 3]%nat ∪ uninit 4) with
  | Go (Kill l _) m _ => l = (BOut, 0%nat) ∧ m !! l = Some None
  | _ => False
  end ∧
  run (λ _, true) (replicate 12 [false])
    (par_index_collect (X := unit) (E := nat) true OnpoolOff 4 4 panic_ends (mkPlan 2 0))
    (from_vec [0; 1; 2; 3]%nat ∪ uninit 4) = Bad.
Proof. split_and!; vm_compute; done. Qed.

(** Four items: the first fails, the third panics. *)
Definition err_then_panic (x : nat) : res nat (rresult nat nat) :=
  if bool_decide (x = 0%nat) then Val (Err x)
  else if bool_decide (x = 2%nat) then Unwind x else Val (Ok (x + 10)%nat).

(** A pool worker try-collects four items of which the first returns an
    error and the third panics; no half is stolen.  The right half's panic
    comes up as a value, and the root keeps the left half's error: the caller
    gets the error and the panic is lost, though a panic is meant to outrank
    an operation's failure. *)
Theorem nested_panic_is_swallowed :
  match run (λ _, true) (replicate 11 [false])
      (par_index_try_collect (X := unit) true OnpoolOff 4 4 err_then_panic (mkPlan 2 0))
      (from_vec [0; 1; 2; 3]%nat ∪ uninit 4) with
  | Go (Done r) _ _ => r = Val (Err 0%nat)
  | _ => False
  end.
Proof. vm_compute. done. Qed.
