(* ===== verification/FusedStages.v ===== *)
(** * The stage chains of the fused pipeline

    [src/crates/youpipe/src/builder/typed/traits.rs]: the stages a builder
    chains at compile time ([Identity], [SyncMap], [Filter]; for fallible
    pipelines also [TryMap], [MapErr] and the [InfallibleChain] adapter), how
    they apply to an item with and without the [Option] wrapper, and the
    reducers.  The user's closures return or unwind.

    The engine takes the [apply_pure] path only for chains whose [MAY_FILTER]
    constant is false; its default body then reaches [unreachable_unchecked]
    unless the two paths agree, which is [pure_path_sound]. *)

From S2P Require Import Prelude ForkJoin.

Definition rbind {P A B} (r : res P A) (f : A → res P B) : res P B :=
  match r with Val a => f a | Unwind p => Unwind p end.

(** ** Infallible chains ([FusedStage]) *)

Inductive stage (P : Type) : Type → Type → Type :=
  | Identity (T : Type) : stage P T T
  | SyncMap (I M O : Type) (prev : stage P I M) (f : M → res P O) : stage P I O
  | Filter (I M : Type) (prev : stage P I M) (f : M → res P bool) : stage P I M.
Arguments Identity {P T}.
Arguments SyncMap {P I M O} prev f.
Arguments Filter {P I M} prev f.

Fixpoint MAY_FILTER {P I O} (s : stage P I O) : bool :=
  match s with
  | Identity => false
  | SyncMap prev _ => MAY_FILTER prev
  | Filter _ _ => true
  end.

Fixpoint apply {P I O} (s : stage P I O) : I → res P (option O) :=
  match s in stage _ I O return I → res P (option O) with
  | Identity => λ item, Val (Some item)
  | SyncMap prev f => λ item,
      rbind (apply prev item) (λ o,
        match o with
        | Some v => rbind (f v) (λ w, Val (Some w))
        | None => Val None
        end)
  | Filter prev f => λ item,
      rbind (apply prev item) (λ o,
        match o with
        | Some v => rbind (f v) (λ keep, Val (if keep : bool then Some v else None))
        | None => Val None
        end)
  end.

(** [apply_pure]; [None] is [unreachable_unchecked]. *)
Fixpoint apply_pure {P I O} (s : stage P I O) : I → option (res P O) :=
  match s in stage _ I O return I → option (res P O) with
  | Identity => λ item, Some (Val item)
  | SyncMap prev f => λ item,
      match apply_pure prev item with
      | None => None
      | Some r => Some (rbind r f)
      end
  | Filter prev f => λ item,
      match apply (Filter prev f) item with
      | Val (Some v) => Some (Val v)
      | Val None => None
      | Unwind p => Some (Unwind p)
      end
  end.

(** ** Fallible chains ([FusedTryStage]) *)

Inductive tstage (P : Type) : Type → Type → Type → Type :=
  | InfallibleChain (I O E : Type) (s : stage P I O) : tstage P I O E
  | TSyncMap (I M O E : Type) (prev : tstage P I M E) (f : M → res P O) : tstage P I O E
  | TFilter (I M E : Type) (prev : tstage P I M E) (f : M → res P bool) : tstage P I M E
  | TryMap (I M O E : Type) (prev : tstage P I M E) (f : M → res P (rresult O E)) : tstage P I O E
  | MapErr (I O E1 E2 : Type) (prev : tstage P I O E1) (f : E1 → res P E2) : tstage P I O E2.
Arguments InfallibleChain {P I O E} s.
Arguments TSyncMap {P I M O E} prev f.
Arguments TFilter {P I M E} prev f.
Arguments TryMap {P I M O E} prev f.
Arguments MapErr {P I O E1 E2} prev f.

Fixpoint T_MAY_FILTER {P I O E} (s : tstage P I O E) : bool :=
  match s with
  | InfallibleChain s => MAY_FILTER s
  | TSyncMap prev _ => T_MAY_FILTER prev
  | TFilter _ _ => true
  | TryMap prev _ => T_MAY_FILTER prev
  | MapErr prev _ => T_MAY_FILTER prev
  end.

(** [?] on a [Result]. *)
Definition qbind {P A B E} (r : res P (rresult A E)) (f : A → res P (rresult B E)) :
    res P (rresult B E) :=
  rbind r (λ x, match x with Ok a => f a | Err e => Val (Err e) end).

Fixpoint try_apply {P I O E} (s : tstage P I O E) : I → res P (rresult (option O) E) :=
  match s in tstage _ I O E return I → res P (rresult (option O) E) with
  | InfallibleChain s => λ item, rbind (apply s item) (λ o, Val (Ok o))
  | TSyncMap prev f => λ item,
      qbind (try_apply prev item) (λ o,
        match o with
        | Some v => rbind (f v) (λ w, Val (Ok (Some w)))
        | None => Val (Ok None)
        end)
  | TFilter prev f => λ item,
      qbind (try_apply prev item) (λ o,
        match o with
        | Some v => rbind (f v) (λ keep, Val (Ok (if keep : bool then Some v else None)))
        | None => Val (Ok None)
        end)
  | TryMap prev f => λ item,
      qbind (try_apply prev item) (λ o,
        match o with
        | Some v => qbind (f v) (λ w, Val (Ok (Some w)))
        | None => Val (Ok None)
        end)
  | MapErr prev f => λ item,
      rbind (try_apply prev item) (λ r,
        match r with
        | Ok v => Val (Ok v)
        | Err e => rbind (f e) (λ e', Val (Err e'))
        end)
  end.

(** [try_apply_pure]; [None] is [unreachable_unchecked]. *)
Fixpoint try_apply_pure {P I O E} (s : tstage P I O E) : I → option (res P (rresult O E)) :=
  match s in tstage _ I O E return I → option (res P (rresult O E)) with
  | InfallibleChain s => λ item,
      match apply_pure s item with
      | None => None
      | Some r => Some (rbind r (λ v, Val (Ok v)))
      end
  | TSyncMap prev f => λ item,
      match try_apply_pure prev item with
      | None => None
      | Some r => Some (qbind r (λ v, rbind (f v) (λ w, Val (Ok w))))
      end
  | TFilter prev f => λ item,
      match try_apply (TFilter prev f) item with
      | Val (Ok (Some v)) => Some (Val (Ok v))
      | Val (Ok None) => None
      | Val (Err e) => Some (Val (Err e))
      | Unwind p => Some (Unwind p)
      end
  | TryMap prev f => λ item,
      match try_apply_pure prev item with
      | None => None
      | Some r => Some (qbind r f)
      end
  | MapErr prev f => λ item,
      match try_apply_pure prev item with
      | None => None
      | Some r => Some (rbind r (λ x,
          match x with
          | Ok v => Val (Ok v)
          | Err e => rbind (f e) (λ e', Val (Err e'))
          end))
      end
  end.

(** ** The two paths agree *)

Lemma apply_pure_agrees {P I O} (s : stage P I O) item :
  MAY_FILTER s = false →
  ∃ r, apply_pure s item = Some r ∧ apply s item = rbind r (λ v, Val (Some v)).
Proof.
  induction s as [T|I M O s IH f|I M s IH f]; cbn; intros Hf; [eauto| |done].
  destruct (IH item Hf) as (r & -> & ->). eexists. split; [done|]. by destruct r.
Qed.

Lemma try_apply_pure_agrees {P I O E} (t : tstage P I O E) item :
  T_MAY_FILTER t = false →
  ∃ r, try_apply_pure t item = Some r ∧ try_apply t item = qbind r (λ v, Val (Ok (Some v))).
Proof.
  revert item. induction t as [I O E s|I M O E t IH f|I M E t IH f|I M O E t IH f|I O E1 E2 t IH f];
    cbn; intros item Ht.
  - destruct (apply_pure_agrees s item Ht) as (r & -> & ->). eexists. split; [done|]. by destruct r.
  - destruct (IH item Ht) as (r & -> & ->). eexists. split; [done|].
    destruct r as [[v|e]|p]; cbn; [|done|done]. by destruct (f v).
  - done.
  - destruct (IH item Ht) as (r & -> & ->). eexists. split; [done|].
    by destruct r as [[v|e]|p].
  - destruct (IH item Ht) as (r & -> & ->). eexists. split; [done|].
    destruct r as [[v|e]|p]; cbn; [done| |done]. by destruct (f e).
Qed.

(** For a chain without filters (MAY_FILTER is false) the paths without
    the [Option] wrapper never reach their [unreachable_unchecked] and compute
    what the general paths compute: [apply_pure] against [apply] for an
    infallible chain, [try_apply_pure] against [try_apply] for a fallible one,
    errors and panics included. *)
Theorem pure_path_sound {P I O E : Type} (s : stage P I O) (t : tstage P I O E) (item : I)
    (Hs : MAY_FILTER s = false) (Ht : T_MAY_FILTER t = false) :
  (∃ r, apply_pure s item = Some r ∧ apply s item = rbind r (λ v, Val (Some v))) ∧
  (∃ r, try_apply_pure t item = Some r ∧ try_apply t item = qbind r (λ v, Val (Ok (Some v)))).
Proof.
  split; [by apply apply_pure_agrees|by apply try_apply_pure_agrees].
Qed.

Lemma pure_path_sound_witness :
  (∃ r, apply_pure (SyncMap (@Identity nat nat) (λ x, Val (x + 1)%nat)) 4%nat = Some r ∧
     apply (SyncMap (@Identity nat nat) (λ x, Val (x + 1)%nat)) 4%nat = rbind r (λ v, Val (Some v))) ∧
  (∃ r, try_apply_pure (TryMap (InfallibleChain (@Identity nat nat)) (λ x, Val (Err (x, 1%nat)))) 4%nat = Some r ∧
     try_apply (TryMap (O := nat) (InfallibleChain (@Identity nat nat)) (λ x, Val (Err (x, 1%nat)))) 4%nat =
       qbind r (λ v, Val (Ok (Some v)))).
Proof.
  apply (pure_path_sound (SyncMap (@Identity nat nat) (λ x, Val (x + 1)%nat))
    (TryMap (InfallibleChain (@Identity nat nat)) (λ x, Val (Err (x, 1%nat)))) 4%nat); reflexivity.
Defined.

(** ** Reducers *)

Record Reducer (P O A : Type) : Type := mkReducer {
  identity : A;
  fold : A → O → res P A;
  combine : A → A → res P A;
}.
Arguments mkReducer {P O A} _ _ _.
Arguments identity {P O A} _.
Arguments fold {P O A} _ _ _.
Arguments combine {P O A} _ _ _.

(** [OptionReducer]: [None] until the first item. *)
Definition option_reducer {P O} (op : O → O → res P O) : Reducer P O (option O) :=
  mkReducer None
    (λ acc item,
       match acc with
       | Some a => rbind (op a item) (λ v, Val (Some v))
       | None => Val (Some item)
       end)
    (λ lhs rhs,
       match lhs, rhs with
       | Some a, Some b => rbind (op a b) (λ v, Val (Some v))
       | Some a, None | None, Some a => Val (Some a)
       | None, None => Val None
       end).

(** [FoldReducer]. *)
Definition fold_reducer {P O A} (init : A) (f : A → O → res P A) (c : A → A → res P A) :
    Reducer P O A := mkReducer init f c.

(** Fold in order, up to the first panic. *)
Fixpoint fold_seq {T A P} (f : A → T → res P A) (acc : A) (items : list T) : res P A :=
  match items with
  | [] => Val acc
  | t :: ts => rbind (f acc t) (λ a, fold_seq f a ts)
  end.

(** [SumReducer]: the [Sum] of a numeric type adds the items up from [zero],
    and fold and combine are sums of two. *)
Definition sum_reducer {P O} (zero : O) (plus : O → O → res P O) : Reducer P O O :=
  mkReducer zero (λ acc item, fold_seq plus zero [acc; item]) (λ lhs rhs, fold_seq plus zero [lhs; rhs]).

(** [CountReducer]; a count of items fits a word. *)
Definition count_reducer {P O} : Reducer P O nat :=
  mkReducer 0%nat (λ acc _, Val (acc + 1)%nat) (λ lhs rhs, Val (lhs + rhs)%nat).

(** ** The operations the engine drives *)

(** [unreachable_unchecked] is never reached on a chain without filters. *)
Lemma apply_pure_some {P I O} (s : stage P I O) item :
  MAY_FILTER s = false → apply_pure s item ≠ None.
Proof. intros Hs. by destruct (apply_pure_agrees s item Hs) as (r & -> & _). Qed.

Lemma try_apply_pure_some {P I O E} (t : tstage P I O E) item :
  T_MAY_FILTER t = false → try_apply_pure t item ≠ None.
Proof. intros Ht. by destruct (try_apply_pure_agrees t item Ht) as (r & -> & _). Qed.

Definition reached {A} (o : option A) : o ≠ None → A :=
  match o with Some a => λ _, a | None => λ H, match H eq_refl with end end.

Lemma reached_some {A} (o : option A) (H : o ≠ None) a : o = Some a → reached o H = a.
Proof. intros ->. done. Qed.

(** [FusedOp] and [FusedTryOp]: constructed only for chains without filters. *)
Definition FusedOp {P I O} (s : stage P I O) (H : MAY_FILTER s = false) (item : I) : res P O :=
  reached (apply_pure s item) (apply_pure_some s item H).
Definition FusedTryOp {P I O E} (t : tstage P I O E) (H : T_MAY_FILTER t = false) (item : I) :
    res P (rresult O E) :=
  reached (try_apply_pure t item) (try_apply_pure_some t item H).

Lemma FusedOp_apply {P I O} (s : stage P I O) H item :
  apply s item = rbind (FusedOp s H item) (λ v, Val (Some v)).
Proof.
  destruct (apply_pure_agrees s item H) as (r & Hr & ->). unfold FusedOp.
  by rewrite (reached_some _ _ _ Hr).
Qed.

Lemma FusedTryOp_apply {P I O E} (t : tstage P I O E) H item :
  try_apply t item = qbind (FusedTryOp t H item) (λ v, Val (Ok (Some v))).
Proof.
  destruct (try_apply_pure_agrees t item H) as (r & Hr & ->). unfold FusedTryOp.
  by rewrite (reached_some _ _ _ Hr).
Qed.

(** The branch on the constant [MAY_FILTER]. *)
Definition on_filter {A} (b : bool) (filter : A) (pure : b = false → A) : A :=
  (match b as b' return (b' = false → A) → A with
   | true => λ _, filter
   | false => λ k, k eq_refl
   end) pure.

Lemma on_filter_both {A} (b : bool) (filter : A) (pure : b = false → A) (Φ : A → Prop) :
  (b = true → Φ filter) → (∀ H, Φ (pure H)) → Φ (on_filter b filter pure).
Proof. destruct b; cbn; eauto. Qed.

(** [FusedSink]: the closure [f] on the surviving output; the effect is the
    call of the closure, if any. *)
Definition sink_consume {P I O Y} (s : stage P I O) (f : O → res P Y) (item : I) : res P (option Y) :=
  on_filter (MAY_FILTER s)
    (rbind (apply s item) (λ o,
       match o with Some o => rbind (f o) (λ y, Val (Some y)) | None => Val None end))
    (λ H, rbind (FusedOp s H item) (λ o, rbind (f o) (λ y, Val (Some y)))).

(** [FusedReduce::fold] and [FusedTryReduce::try_fold]. *)
Definition fused_fold {P I O A} (s : stage P I O) (r : Reducer P O A) (acc : A) (item : I) : res P A :=
  on_filter (MAY_FILTER s)
    (rbind (apply s item) (λ o, match o with Some o => fold r acc o | None => Val acc end))
    (λ H, rbind (FusedOp s H item) (fold r acc)).
Definition fused_try_fold {P I O E A} (t : tstage P I O E) (r : Reducer P O A) (acc : A) (item : I) :
    res P (rresult A E) :=
  qbind (try_apply t item) (λ o,
    match o with Some o => rbind (fold r acc o) (λ a, Val (Ok a)) | None => Val (Ok acc) end).

(** Both branches work on the surviving output of the chain. *)
Lemma sink_consume_apply {P I O Y} (s : stage P I O) (f : O → res P Y) item :
  sink_consume s f item =
    rbind (apply s item) (λ o,
      match o with Some o => rbind (f o) (λ y, Val (Some y)) | None => Val None end).
Proof.
  unfold sink_consume. apply on_filter_both; [done|]. intros H. rewrite (FusedOp_apply s H).
  by destruct (FusedOp s H item).
Qed.

Lemma fused_fold_apply {P I O A} (s : stage P I O) (r : Reducer P O A) acc item :
  fused_fold s r acc item =
    rbind (apply s item) (λ o, match o with Some o => fold r acc o | None => Val acc end).
Proof.
  unfold fused_fold. apply on_filter_both; [done|]. intros H. rewrite (FusedOp_apply s H).
  by destruct (FusedOp s H item).
Qed.

(** A reducer whose partials combine to the fold of the whole. *)
Class ReducerLaws {P O A} (r : Reducer P O A) : Prop := {
  combine_total a b : ∃ z, combine r a b = Val z;
  combine_seed a : combine r a (identity r) = Val a;
  combine_fold a b x :
    rbind (combine r a b) (λ c, fold r c x) = rbind (fold r b x) (λ c, combine r a c);
}.

(** [reduce(op)] for an associative [op] that does not panic, [sum] over a
    monoid, and [count]. *)
#[export] Instance option_reducer_laws {P O} (g : O → O → O) :
  Assoc (=) g → ReducerLaws (option_reducer (P := P) (λ a b, Val (g a b))).
Proof.
  intros Hg. split; cbn.
  - intros [a|] [b|]; cbn; eauto.
  - by intros [a|].
  - intros [a|] [b|] x; cbn; try done. by rewrite (assoc g).
Qed.
#[export] Instance sum_reducer_laws {P O} (zero : O) (g : O → O → O) :
  Assoc (=) g → LeftId (=) zero g → RightId (=) zero g →
  ReducerLaws (sum_reducer (P := P) zero (λ a b, Val (g a b))).
Proof.
  intros Hg Hl Hz. split; cbn; [eauto|intros a; by rewrite (left_id zero g), (right_id zero g)|].
  intros a b x. by rewrite !(left_id zero g), (assoc g).
Qed.
#[export] Instance count_reducer_laws {P O} : ReducerLaws (count_reducer (P := P) (O := O)).
Proof. split; cbn; [eauto|intros a; f_equal; lia|]. intros a b x. f_equal. lia. Qed.

Lemma chain_combine_fold {P I O A} (s : stage P I O) (r : Reducer P O A) `{!ReducerLaws r} a b t :
  rbind (combine r a b) (λ z, fused_fold s r z t) = rbind (fused_fold s r b t) (λ z, combine r a z).
Proof.
  destruct (combine_total a b) as [z Hz]. rewrite Hz. cbn. rewrite !fused_fold_apply.
  destruct (apply s t) as [[o|]|p]; cbn; [|done|done].
  rewrite <- (combine_fold a b o). by rewrite Hz.
Qed.
