(* ===== verification/FusedReduce.v ===== *)
(** * The value-carrying trees of the fused engine: filter-collect and reduce

    [src/crates/youpipe/src/builder/typed/fused.rs]: [filter_leaf],
    [par_filter_rec] and their fallible twins build a vector per leaf and
    concatenate up the tree; [reduce_leaf], [par_reduce_rec] and the fallible
    twins fold each leaf into a partial and combine up the tree.  There is no
    shared output: a failing half's partial is dropped with the unwind, and the
    only slots are the input's.  [ChunkSlots] holds one partial per top-level
    chunk of a dispatched reduce; [par_reduce] combines them in input order.

    The trees share one shape, [join_tree]; [join_tree_spec] shows that a
    property of ranges that composes over a split holds of the whole tree,
    under every schedule and whatever panics. *)

From S2P Require Import Prelude SleepCounters Config ForkJoin FusedTree FusedPlan HybridDispatch.
From S2P Require Import FusedCollect FusedStages.
Local Open Scope prog_scope.

(** ** Trees whose join returns values *)

Section join_tree.
Context {V X P A : Type}.
Context (leaf : nat → nat → prog V X (res P A)) (node : A → A → res P A).

(** [par_reduce_rec], [par_filter_rec] and their variants: a leaf, or the two
    halves joined on the pool and their values combined. *)
Fixpoint join_tree (splits_left start end_ : nat) : prog V X (res P A) :=
  match splits_left with
  | O => leaf start end_
  | S splits =>
      if bool_decide (end_ - start ≤ 1)%nat then leaf start end_
      else
        let mid := (start + (end_ - start) / 2)%nat in
        bindr (join_on (join_tree splits start mid) (join_tree splits mid end_))
          (λ lr, Done (node lr.1 lr.2))
  end.

Context (steal : bool → bool) (D : nat → nat → gset loc) (pre post : loc → option V) (n : nat).
Context (Φ : nat → nat → res P A → Prop).
Hypothesis leaf_spec : ∀ s e, (s ≤ e ≤ n)%nat →
  always steal (leaf s e) (own (D s e) pre) (λ r m es, m = own (D s e) post ∧ es = [] ∧ Φ s e r).
Hypothesis D_split : ∀ s m e, (s ≤ m ≤ e)%nat → D s e = D s m ∪ D m e.
Hypothesis D_disj : ∀ s m e, (s ≤ m ≤ e)%nat → D s m ## D m e.
Hypothesis node_ok : ∀ s m e l r, (s ≤ m ≤ e)%nat → (e ≤ n)%nat → Φ s m l → Φ m e r →
  Φ s e (rbind l (λ a, rbind r (λ b, node a b))).
Hypothesis some_schedule : ∃ c, steal c = true.

Lemma join_tree_spec splits s e :
  (s ≤ e ≤ n)%nat →
  always steal (join_tree splits s e) (own (D s e) pre)
    (λ r m es, m = own (D s e) post ∧ es = [] ∧ Φ s e r).
Proof.
  revert s e. induction splits as [|splits IH]; intros s e Hse; cbn [join_tree]; [by apply leaf_spec|].
  case_bool_decide as Hlen; [by apply leaf_spec|].
  set (mid := (s + (e - s) / 2)%nat). cbv zeta.
  assert (s ≤ mid ≤ e)%nat as Hmid.
  { pose proof (Nat.Div0.div_le_upper_bound (e - s) 2 (e - s)). subst mid. lia. }
  rewrite (D_split s mid e), <- !own_union by lia. apply always_bind.
  eapply always_join; [done|apply IH; lia|apply IH; lia|by apply own_disjoint, D_disj|].
  intros l r m1 m2 e1 e2 es (-> & -> & Hl) (-> & -> & Hr) _ Hes.
  apply Permutation_nil_r in Hes as ->.
  pose proof (node_ok s mid e l r Hmid ltac:(lia) Hl Hr) as Hn.
  destruct l as [a|p], r as [b|q]; constructor; by rewrite !own_union.
Qed.
End join_tree.

(** ** Filter collect *)

Section filter.
Context {T R X P : Type}.
Notation prg := (prog (T + R) X).

(** [filter_leaf]: the survivors, in a vector of the leaf's own. *)
Definition filter_body {E} (apply : T → res P (option R)) (item : T) (out : list R) :
    res P (rresult (list R * option R * option X) E) :=
  match apply item with
  | Val (Some o) => Val (Ok (out ++ [o], None, None))
  | Val None => Val (Ok (out, None, None))
  | Unwind p => Unwind p
  end.
Definition ok_of {A} (r : res P (rresult A Empty_set)) : res P A :=
  match r with
  | Val (Ok a) => Val a
  | Val (Err e) => match e with end
  | Unwind p => Unwind p
  end.
Definition filter_leaf (apply : T → res P (option R)) (s e : nat) : prg (res P (list R)) :=
  plet r := leaf_over false true read_in (filter_body apply) [] s e in Done (ok_of r).

(** [par_filter_rec] and [fused_filter_collect]. *)
Definition par_filter_rec (apply : T → res P (option R)) (splits s e : nat) : prg (res P (list R)) :=
  join_tree (filter_leaf apply) (λ l r, Val (l ++ r)) splits s e.
Definition fused_filter_collect (apply : T → res P (option R)) (n splits : nat) : prg (res P (list R)) :=
  par_filter_rec apply splits 0 n.

(** [filter_try_leaf], [par_filter_try_rec] and [fused_try_filter_collect]. *)
Definition filter_try_body {E} (try_apply : T → res P (rresult (option R) E)) (item : T) (out : list R) :
    res P (rresult (list R * option R * option X) E) :=
  match try_apply item with
  | Val (Ok (Some o)) => Val (Ok (out ++ [o], None, None))
  | Val (Ok None) => Val (Ok (out, None, None))
  | Val (Err e) => Val (Err e)
  | Unwind p => Unwind p
  end.
Definition filter_try_leaf {E} (try_apply : T → res P (rresult (option R) E)) (s e : nat) :
    prg (res P (rresult (list R) E)) :=
  leaf_over false true read_in (filter_try_body try_apply) [] s e.

(** Two fallible halves: the first error, else the combined values. *)
Definition both_ok {A E} (f : A → A → res P A) (l r : rresult A E) : res P (rresult A E) :=
  match l, r with
  | Ok l, Ok r => rbind (f l r) (λ a, Val (Ok a))
  | Err e, _ | _, Err e => Val (Err e)
  end.
Definition par_filter_try_rec {E} (try_apply : T → res P (rresult (option R) E)) (splits s e : nat) :
    prg (res P (rresult (list R) E)) :=
  join_tree (filter_try_leaf try_apply) (both_ok (λ l r, Val (l ++ r))) splits s e.
Definition fused_try_filter_collect {E} (try_apply : T → res P (rresult (option R) E)) (n splits : nat) :
    prg (res P (rresult (list R) E)) :=
  par_filter_try_rec try_apply splits 0 n.
End filter.

(** ** Reduce *)

Section reduce.
Context {T A X P : Type}.
Notation prg := (prog (T + A) X).
(** [ReduceOp]: the seed, the fold of an item, the combination of partials. *)
Context (seed : A) (op_fold : A → T → res P A) (op_combine : A → A → res P A).

Definition reduce_body {E} (item : T) (acc : A) : res P (rresult (A * option A * option X) E) :=
  match op_fold acc item with
  | Val a => Val (Ok (a, None, None))
  | Unwind p => Unwind p
  end.

(** [reduce_leaf] and [par_reduce_rec]. *)
Definition reduce_leaf (s e : nat) : prg (res P A) :=
  plet r := leaf_over false true read_in reduce_body seed s e in Done (ok_of r).
Definition par_reduce_rec (splits s e : nat) : prg (res P A) :=
  join_tree reduce_leaf op_combine splits s e.

(** [reduce_leaf_by_ref] and [par_reduce_rec_by_ref]. *)
Definition reduce_leaf_by_ref (input : list T) (s e : nat) : prg (res P A) :=
  plet r := leaf_over false false (read_ref input) reduce_body seed s e in Done (ok_of r).
Definition par_reduce_rec_by_ref (input : list T) (splits s e : nat) : prg (res P A) :=
  join_tree (reduce_leaf_by_ref input) op_combine splits s e.
End reduce.

Section try_reduce.
Context {T A E X P : Type}.
Notation prg := (prog (T + A) X).
(** [TryReduceOp]. *)
Context (seed : A) (try_fold : A → T → res P (rresult A E)) (op_combine : A → A → res P A).

Definition reduce_try_body (item : T) (acc : A) : res P (rresult (A * option A * option X) E) :=
  match try_fold acc item with
  | Val (Ok a) => Val (Ok (a, None, None))
  | Val (Err e) => Val (Err e)
  | Unwind p => Unwind p
  end.

(** [reduce_try_leaf] and [par_reduce_try_rec]. *)
Definition reduce_try_leaf (s e : nat) : prg (res P (rresult A E)) :=
  leaf_over false true read_in reduce_try_body seed s e.
Definition par_reduce_try_rec (splits s e : nat) : prg (res P (rresult A E)) :=
  join_tree reduce_try_leaf (both_ok op_combine) splits s e.

(** [reduce_try_leaf_by_ref] and [par_reduce_try_rec_by_ref]. *)
Definition reduce_try_leaf_by_ref (input : list T) (s e : nat) : prg (res P (rresult A E)) :=
  leaf_over false false (read_ref input) reduce_try_body seed s e.
Definition par_reduce_try_rec_by_ref (input : list T) (splits s e : nat) : prg (res P (rresult A E)) :=
  join_tree (reduce_try_leaf_by_ref input) (both_ok op_combine) splits s e.
End try_reduce.

(** ** The chunk cells of a dispatched reduce *)

(** [ChunkSlots]: one cell per chunk, and the dispatch's geometry. *)
Record ChunkSlots : Type := mkChunkSlots { cells : nat; chunk : nat; rem : nat }.

Definition chunk_slots_new (n num_chunks : nat) : ChunkSlots :=
  mkChunkSlots num_chunks (n / num_chunks) (n mod num_chunks).

(** [chunk_of]: the chunk that starts at an index. *)
Definition chunk_of (c : ChunkSlots) (start : nat) : nat :=
  let front := (rem c * (chunk c + 1))%nat in
  if bool_decide (start < front)%nat then (start / (chunk c + 1))%nat
  else (rem c + (start - front) / chunk c)%nat.

Section cells.
Context {T A X P : Type}.
Notation prg := (prog (T + A) X).

(** [publish], [drop_published] and [combine]. *)
Definition publish {B} (c : ChunkSlots) (start : nat) (acc : A) (k : prg B) : prg B :=
  Put (BCell, chunk_of c start) (inr acc) k.
Definition drop_published (c : ChunkSlots) (start : nat) : prg unit :=
  Swap (BCell, chunk_of c start) (λ _, Done tt).
Fixpoint combine_cells (f : A → A → res P A) (i todo : nat) (acc : option A) : prg (res P A) :=
  match todo with
  | O => match acc with Some a => Done (Val a) | None => Fault end
  | S todo =>
      Swap (BCell, i) (λ o,
        match o with
        | Some (inr a) =>
            match acc with
            | Some x => call (f x a) (λ y, combine_cells f (S i) todo (Some y))
            | None => combine_cells f (S i) todo (Some a)
            end
        | Some (inl _) => Fault
        | None => combine_cells f (S i) todo acc
        end)
  end.
Definition combine_all (c : ChunkSlots) (f : A → A → res P A) : prg (res P A) :=
  combine_cells f 0 (cells c) None.
End cells.

(** ** The reduce terminals *)

Section par_reduce.
Context {T A X P E : Type}.
Notation ev := (event P E X).
Notation prg := (prog (T + A) ev).
Context (on_pool : bool) (mode : OnpoolHybrid) (num_threads : nat).

Section infallible.
Context (seed : A) (op_fold : A → T → res P A) (op_combine : A → A → res P A).

(** [ReduceStrategy] and [ReduceByRefStrategy]: a chunk that succeeds
    publishes its partial. *)
Definition reduce_strategy (c : ChunkSlots) : HybridStrategy (T + A) ev P P :=
  mkStrategy
    (λ s e splits, bindr (par_reduce_rec seed op_fold op_combine splits s e)
       (λ acc, publish c s acc (Done (Val (Ok tt)))))
    (λ s e, bindr (reduce_leaf seed op_fold s e) (λ acc, publish c s acc (Done (Val (Ok tt)))))
    (λ s _, drop_published c s).
Definition reduce_by_ref_strategy (input : list T) (c : ChunkSlots) : HybridStrategy (T + A) ev P P :=
  mkStrategy
    (λ s e splits, bindr (par_reduce_rec_by_ref seed op_fold op_combine input splits s e)
       (λ acc, publish c s acc (Done (Val (Ok tt)))))
    (λ s e, bindr (reduce_leaf_by_ref seed op_fold input s e)
       (λ acc, publish c s acc (Done (Val (Ok tt)))))
    (λ s _, drop_published c s).

(** The end of [par_reduce] and [par_reduce_by_ref]. *)
Definition reduce_end (c : ChunkSlots) (r : res P (rresult unit (ErasedFailure P E))) : prg (res P A) :=
  match r with
  | Unwind p => Done (Unwind p)
  | Val (Err f) => resume_panic f
  | Val (Ok _) => combine_all c op_combine
  end.

(** [par_reduce] and [par_reduce_by_ref]. *)
Definition par_reduce (n : nat) (plan : SplitPlan) : prg (res P A) :=
  let c := chunk_slots_new n (hybrid_num_chunks n plan num_threads) in
  plet r := hybrid_dispatch PanicF (reduce_strategy c) on_pool mode n plan num_threads in
  reduce_end c r.
Definition par_reduce_by_ref (input : list T) (plan : SplitPlan) : prg (res P A) :=
  let n := length input in
  let c := chunk_slots_new n (hybrid_num_chunks n plan num_threads) in
  plet r := hybrid_dispatch PanicF (reduce_by_ref_strategy input c) on_pool mode n plan num_threads in
  reduce_end c r.
End infallible.

Section fallible.
Context (seed : A) (try_fold : A → T → res P (rresult A E)) (op_combine : A → A → res P A).

(** A chunk's partial is published after its tree returned [Ok]. *)
Definition publish_ok (c : ChunkSlots) (s : nat) (r : res P (rresult A E)) :
    prg (res P (rresult unit (TryFailure P E))) :=
  match r with
  | Val (Ok acc) => publish c s acc (Done (Val (Ok tt)))
  | Val (Err e) => Done (Val (Err (TryError e)))
  | Unwind p => Done (Unwind p)
  end.

(** [ReduceTryStrategy] and [ReduceTryByRefStrategy]. *)
Definition reduce_try_strategy (c : ChunkSlots) : HybridStrategy (T + A) ev P (TryFailure P E) :=
  mkStrategy
    (λ s e splits, plet r := par_reduce_try_rec seed try_fold op_combine splits s e in publish_ok c s r)
    (λ s e, plet r := reduce_try_leaf seed try_fold s e in publish_ok c s r)
    (λ s _, drop_published c s).
Definition reduce_try_by_ref_strategy (input : list T) (c : ChunkSlots) :
    HybridStrategy (T + A) ev P (TryFailure P E) :=
  mkStrategy
    (λ s e splits,
       plet r := par_reduce_try_rec_by_ref seed try_fold op_combine input splits s e in publish_ok c s r)
    (λ s e, plet r := reduce_try_leaf_by_ref seed try_fold input s e in publish_ok c s r)
    (λ s _, drop_published c s).

(** The end of [par_reduce_try] and [par_reduce_try_by_ref]. *)
Definition reduce_try_end (c : ChunkSlots) (r : res P (rresult unit (ErasedFailure P E))) :
    prg (res P (rresult A E)) :=
  match r with
  | Unwind p => Done (Unwind p)
  | Val (Err (Op e)) => Done (Val (Err e))
  | Val (Err (PanicF p)) => Done (Unwind p)
  | Val (Ok _) => bindr (combine_all c op_combine) (λ a, Done (Val (Ok a)))
  end.

(** [par_reduce_try] and [par_reduce_try_by_ref]. *)
Definition par_reduce_try (n : nat) (plan : SplitPlan) : prg (res P (rresult A E)) :=
  let c := chunk_slots_new n (hybrid_num_chunks n plan num_threads) in
  plet r := hybrid_dispatch into_erased (reduce_try_strategy c) on_pool mode n plan num_threads in
  reduce_try_end c r.
Definition par_reduce_try_by_ref (input : list T) (plan : SplitPlan) : prg (res P (rresult A E)) :=
  let n := length input in
  let c := chunk_slots_new n (hybrid_num_chunks n plan num_threads) in
  plet r := hybrid_dispatch into_erased (reduce_try_by_ref_strategy input c) on_pool mode n plan num_threads in
  reduce_try_end c r.
End fallible.
End par_reduce.

(** ** Sequential references *)

(** Filter-map in order, up to the first panic. *)
Fixpoint filter_map_seq {T R P} (apply : T → res P (option R)) (items : list T) : res P (list R) :=
  match items with
  | [] => Val []
  | t :: ts =>
      rbind (apply t) (λ o, rbind (filter_map_seq apply ts) (λ rs,
        Val (match o with Some r => r :: rs | None => rs end)))
  end.

(** The same with errors: up to the first failing item. *)
Fixpoint try_filter_map_seq {T R P E} (try_apply : T → res P (rresult (option R) E)) (items : list T) :
    res P (rresult (list R) E) :=
  match items with
  | [] => Val (Ok [])
  | t :: ts =>
      qbind (try_apply t) (λ o, qbind (try_filter_map_seq try_apply ts) (λ rs,
        Val (Ok (match o with Some r => r :: rs | None => rs end))))
  end.

Lemma rbind_assoc {P A B C} (r : res P A) (f : A → res P B) (g : B → res P C) :
  rbind (rbind r f) g = rbind r (λ a, rbind (f a) g).
Proof. by destruct r. Qed.

Lemma rbind_ext {P A B} (r : res P A) (f g : A → res P B) :
  (∀ a, f a = g a) → rbind r f = rbind r g.
Proof. intros H. destruct r; [apply H|done]. Qed.

Lemma filter_map_seq_app {T R P} (apply : T → res P (option R)) l1 l2 :
  filter_map_seq apply (l1 ++ l2) =
    rbind (filter_map_seq apply l1) (λ a, rbind (filter_map_seq apply l2) (λ b, Val (a ++ b))).
Proof.
  induction l1 as [|t l1 IH]; cbn; [by destruct (filter_map_seq apply l2)|].
  rewrite IH. destruct (apply t) as [o|p]; [|done]. cbn.
  destruct (filter_map_seq apply l1), (filter_map_seq apply l2); cbn; try done. by destruct o.
Qed.

Lemma fold_seq_app {T A P} (f : A → T → res P A) acc l1 l2 :
  fold_seq f acc (l1 ++ l2) = rbind (fold_seq f acc l1) (λ a, fold_seq f a l2).
Proof.
  revert acc. induction l1 as [|t l1 IH]; intros acc; cbn; [done|].
  rewrite rbind_assoc. by apply rbind_ext.
Qed.

(** Partials combine to the fold of the whole. *)
Lemma fold_seq_combine {T A P} (seed : A) (f : A → T → res P A) (c : A → A → res P A) l1 l2 :
  (∀ a, c a seed = Val a) →
  (∀ a b t, rbind (c a b) (λ x, f x t) = rbind (f b t) (λ x, c a x)) →
  fold_seq f seed (l1 ++ l2) =
    rbind (fold_seq f seed l1) (λ a, rbind (fold_seq f seed l2) (λ b, c a b)).
Proof.
  intros Hseed Hfold. rewrite fold_seq_app. apply rbind_ext. intros a.
  assert (∀ l b, rbind (fold_seq f b l) (λ x, c a x) = rbind (c a b) (λ x, fold_seq f x l)) as Hhom.
  { induction l as [|t l IH]; intros b; cbn; [by destruct (c a b)|].
    rewrite rbind_assoc. rewrite (rbind_ext _ _ (λ b', rbind (c a b') (λ x, fold_seq f x l))) by apply IH.
    rewrite <- (rbind_assoc (f b t)), <- (rbind_assoc (c a b) (λ x, f x t)). by rewrite Hfold. }
  rewrite Hhom, Hseed. done.
Qed.

(** The items of a range of the input. *)
Definition range_items {T : Type} (x : nat → T) (s e : nat) : list T := x <$> seq s (e - s).

Lemma range_items_split {T : Type} (x : nat → T) (s m e : nat) :
  (s ≤ m ≤ e)%nat → range_items x s e = range_items x s m ++ range_items x m e.
Proof.
  intros. unfold range_items. replace (e - s)%nat with ((m - s) + (e - m))%nat by lia.
  rewrite seq_app, fmap_app. by replace (s + (m - s))%nat with m by lia.
Qed.

(** ** The leaves compute the references *)

Lemma filter_leaf_result {T R X P} (apply : T → res P (option R)) (x : nat → T) s k (acc : list R) :
  ok_of (leaf_result (X := X) (R := R) x (filter_body apply) s k acc).1 =
    rbind (filter_map_seq apply (x <$> seq s k)) (λ l, Val (acc ++ l)) ∧
  (leaf_result (X := X) (R := R) x (filter_body (E := Empty_set) apply) s k acc).2 = [].
Proof.
  revert s acc. induction k as [|k IH]; intros s acc; cbn; [by rewrite app_nil_r|].
  destruct (filter_body (E := Empty_set) apply (x s) acc) as [[[[acc' o] ev]|[]]|p] eqn:Eb;
    unfold filter_body in Eb; destruct (apply (x s)) as [[r|]|q]; simplify_eq; cbn.
  - destruct (IH (S s) (acc ++ [r])) as [-> ->].
    destruct (filter_map_seq apply _); cbn; [|done]. by rewrite <- app_assoc.
  - destruct (IH (S s) acc') as [-> ->]. by destruct (filter_map_seq apply _).
  - done.
Qed.

Lemma reduce_leaf_result {T A X P} (f : A → T → res P A) (x : nat → T) s k acc :
  ok_of (leaf_result (X := X) (R := A) x (reduce_body f) s k acc).1 = fold_seq f acc (x <$> seq s k) ∧
  (leaf_result (X := X) (R := A) x (reduce_body (E := Empty_set) f) s k acc).2 = [].
Proof.
  revert s acc. induction k as [|k IH]; intros s acc; cbn; [done|].
  destruct (reduce_body (E := Empty_set) f (x s) acc) as [[[[acc' o] ev]|[]]|p] eqn:Eb;
    unfold reduce_body in Eb; destruct (f acc (x s)) as [a|q]; simplify_eq; cbn; [apply IH|done].
Qed.

(** ** What the value leaves guarantee *)

(** Inputs waiting in their slots. *)
Definition waiting {T R : Type} (x : nat → T) (l : loc) : option (T + R) :=
  match l.1 with BIn => Some (inl (x l.2)) | _ => None end.

Notation in_slots := (leaf_slots false true).

(** A leaf without output slots consumes or drops all its inputs, whatever
    happens. *)
Lemma value_leaf_spec {T R X P S E : Type} `{!Inhabited R} (steal : bool → bool) (IN : bool) (x : nat → T)
    (read : nat → prog (T + R) X T) (N : nat)
    (body : T → S → res P (rresult (S * option R * option X) E)) (acc : S) (s e : nat) Q :
  (∀ D f i (Q : T → mem (T + R) → list X → Prop), (i < N)%nat →
     (if IN then (BIn, i) ∈ D ∧ f (BIn, i) = Some (inl (x i)) else True) →
     Q (x i) (own D (λ l, if decide (IN = true ∧ l = (BIn, i)) then None else f l)) [] →
     always steal (read i) (own D f) Q) →
  (∀ i a a' o ev, body (x i) a = Val (Ok (a', o, ev)) → o = None) →
  (s ≤ e ≤ N)%nat →
  Q (leaf_result x body s (e - s) acc).1 (own (leaf_slots false IN s e) slots_dead)
    (leaf_result x body s (e - s) acc).2 →
  always steal (leaf_over false IN read body acc s e) (own (leaf_slots false IN s e) (waiting x)) Q.
Proof.
  intros Hread Hbody Hse HQ.
  erewrite own_ext; [eapply (leaf_over_spec steal false IN x (λ _, inhabitant : R) read body N)|].
  - exact Hread.
  - intros i a a' o ev Hb. by rewrite (Hbody _ _ _ _ _ Hb).
  - lia.
  - cbn. rewrite <- (own_ext _ slots_dead); [exact HQ|].
    intros l [_ [[Hb _]|[_ ?]]]%elem_of_leaf_slots; [|done].
    destruct (leaf_result x body s (e - s) acc).1 as [[]|]; unfold slots_done; by rewrite ?Hb.
  - intros l [_ [[Hb _]|[_ ?]]]%elem_of_leaf_slots; [|done]. unfold waiting, slots_at. by rewrite Hb.
Qed.

Lemma value_leaf_owned {T R X P S E : Type} `{!Inhabited R} (steal : bool → bool) (x : nat → T)
    (body : T → S → res P (rresult (S * option R * option X) E)) (acc : S) (s e : nat) Q :
  (∀ i a a' o ev, body (x i) a = Val (Ok (a', o, ev)) → o = None) →
  (s ≤ e)%nat →
  Q (leaf_result x body s (e - s) acc).1 (own (in_slots s e) slots_dead)
    (leaf_result x body s (e - s) acc).2 →
  always steal (leaf_over false true read_in body acc s e) (own (in_slots s e) (waiting x)) Q.
Proof.
  intros Hbody Hse HQ. apply (value_leaf_spec steal true x read_in e); [|done|lia|done].
  intros D f i Q' _. apply (read_in_spec steal x).
Qed.

Lemma value_leaf_ref {T R X P S E : Type} `{!Inhabited R, !Inhabited T} (steal : bool → bool) (input : list T)
    (body : T → S → res P (rresult (S * option R * option X) E)) (acc : S) (s e : nat) Q :
  let x := λ i, input !!! i in
  (∀ i a a' o ev, body (x i) a = Val (Ok (a', o, ev)) → o = None) →
  (s ≤ e ≤ length input)%nat →
  Q (leaf_result x body s (e - s) acc).1 (own (leaf_slots false false s e) slots_dead)
    (leaf_result x body s (e - s) acc).2 →
  always steal (leaf_over false false (read_ref input) body acc s e)
    (own (leaf_slots false false s e) (waiting x)) Q.
Proof.
  intros x Hbody Hse HQ. apply (value_leaf_spec steal false x (read_ref input) (length input)); [|done|lia|done].
  intros D f i Q' Hi _. unfold read_ref. rewrite (list_lookup_lookup_total_lt input i) by done.
  apply (read_pure_spec steal x).
Qed.

Lemma in_slots_start {T R : Type} `{!Inhabited T} (items : list T) :
  from_vec (R := R) items = own (in_slots 0 (length items)) (waiting (λ i, items !!! i)).
Proof.
  unfold from_vec, leaf_slots. rewrite (right_id_L ∅ (∪)). apply own_ext.
  intros [b i] [Hb Hi]%elem_of_slots; cbn in *; subst b; unfold waiting; cbn.
  destruct (lookup_lt_is_Some_2 items i) as [t Ht]; [lia|].
  by rewrite Ht, (list_lookup_total_correct _ _ _ Ht).
Qed.

Lemma range_items_all {T : Type} `{!Inhabited T} (items : list T) :
  range_items (λ i, items !!! i) 0 (length items) = items.
Proof. unfold range_items. rewrite Nat.sub_0_r. apply lookup_total_seq. Qed.

(** [fused_filter_collect] over any batch and split budget, under every
    interleaving: the run terminates without a fault, every item is consumed
    or dropped, and the result is exactly that of filtering and mapping the
    items one after the other - the survivors in input order, or the panic of
    the first item that panics, whichever halves panic and whoever runs
    them. *)
Theorem fused_filter_collect_correct {T R X P : Type} `{!Inhabited T, !Inhabited R}
    (steal : bool → bool) (apply : T → res P (option R)) (items : list T) (splits : nat)
    (Hs : ∃ c, steal c = true) :
  always (X := X) steal (fused_filter_collect apply (length items) splits) (from_vec items)
    (λ r m es, no_live m ∧ es = [] ∧ r = filter_map_seq apply items).
Proof.
  rewrite in_slots_start. set (x := λ i, items !!! i).
  eapply always_mono.
  - eapply (join_tree_spec (filter_leaf apply) (λ l r, Val (l ++ r)) steal in_slots (waiting x)
      slots_dead (length items) (λ s e r, r = filter_map_seq apply (range_items x s e))); try done.
    + intros s e Hse. apply always_bind. apply value_leaf_owned; [|lia|].
      * intros i a a' o ev. unfold filter_body. destruct (apply (x i)) as [[]|]; congruence.
      * destruct (filter_leaf_result (X := X) apply x s (e - s) []) as [-> ->]. constructor.
        split_and!; [done|done|]. unfold range_items. by destruct (filter_map_seq apply _).
    + intros s m e Hm. by apply leaf_slots_split.
    + intros s m e Hm. by apply leaf_slots_disj.
    + intros s m e l r Hm _ -> ->. by rewrite (range_items_split x s m e), filter_map_seq_app.
    + lia.
  - intros r m es (-> & -> & ->). split_and!; [apply no_live_dead|done|].
    unfold x. by rewrite range_items_all.
Qed.

(** ** Fallible filter collect *)

Lemma filter_map_seq_unwind {T R P} (f : T → res P (option R)) l p :
  filter_map_seq f l = Unwind p → ∃ t, t ∈ l ∧ f t = Unwind p.
Proof.
  induction l as [|t l IH]; cbn; [done|]. destruct (f t) as [o|q] eqn:Ef; cbn.
  - destruct (filter_map_seq f l) as [|q] eqn:El; cbn; [done|]. intros [= ->].
    destruct (IH eq_refl) as (t' & ? & ?). exists t'. split; [by right|done].
  - intros [= ->]. exists t. split; [by left|done].
Qed.

Lemma try_filter_map_seq_app {T R P E} (f : T → res P (rresult (option R) E)) l1 l2 :
  try_filter_map_seq f (l1 ++ l2) =
    qbind (try_filter_map_seq f l1) (λ a, qbind (try_filter_map_seq f l2) (λ b, Val (Ok (a ++ b)))).
Proof.
  induction l1 as [|t l1 IH]; cbn; [by destruct (try_filter_map_seq f l2) as [[]|]|].
  rewrite IH. destruct (f t) as [[o|e]|p]; [|done|done]. cbn.
  destruct (try_filter_map_seq f l1) as [[]|]; cbn; [|done|done].
  destruct (try_filter_map_seq f l2) as [[]|]; cbn; [by destruct o|done|done].
Qed.

Lemma try_filter_map_seq_unwind {T R P E} (f : T → res P (rresult (option R) E)) l p :
  try_filter_map_seq f l = Unwind p → ∃ t, t ∈ l ∧ f t = Unwind p.
Proof.
  induction l as [|t l IH]; cbn; [done|]. destruct (f t) as [[o|e]|q] eqn:Ef; cbn; [|done|].
  - destruct (try_filter_map_seq f l) as [[]|q] eqn:El; cbn; [done|done|]. intros [= ->].
    destruct (IH eq_refl) as (t' & ? & ?). exists t'. split; [by right|done].
  - intros [= ->]. exists t. split; [by left|done].
Qed.

Lemma filter_try_leaf_result {T R X P E} (f : T → res P (rresult (option R) E)) (x : nat → T) s k
    (acc : list R) :
  (leaf_result (X := X) (R := R) x (filter_try_body f) s k acc).1 =
    qbind (try_filter_map_seq f (x <$> seq s k)) (λ l, Val (Ok (acc ++ l))) ∧
  (leaf_result (X := X) (R := R) x (filter_try_body f) s k acc).2 = [].
Proof.
  revert s acc. induction k as [|k IH]; intros s acc; cbn; [by rewrite app_nil_r|].
  destruct (filter_try_body f (x s) acc) as [[[[acc' o] ev]|e]|p] eqn:Eb;
    unfold filter_try_body in Eb; destruct (f (x s)) as [[[r|]|e']|q]; simplify_eq; cbn; try done.
  - destruct (IH (S s) (acc ++ [r])) as [-> ->].
    destruct (try_filter_map_seq f _) as [[]|]; cbn; [|done|done]. by rewrite <- app_assoc.
  - destruct (IH (S s) acc') as [-> ->]. by destruct (try_filter_map_seq f _) as [[]|].
Qed.

(** What the fallible tree returns on a range: a value, survivors or error, is
    the sequential one; a panic is an item's. *)
Definition try_value {T R P E} (f : T → res P (rresult (option R) E)) (l : list T)
    (r : res P (rresult (list R) E)) : Prop :=
  match r with
  | Val v => try_filter_map_seq f l = Val v
  | Unwind p => ∃ t, t ∈ l ∧ f t = Unwind p
  end.

Lemma try_value_node {T R P E} (f : T → res P (rresult (option R) E)) l1 l2 r1 r2 :
  try_value f l1 r1 → try_value f l2 r2 →
  try_value f (l1 ++ l2) (rbind r1 (λ a, rbind r2 (λ b, both_ok (λ l r, Val (l ++ r)) a b))).
Proof.
  unfold try_value. destruct r1 as [[a|e]|p]; cbn.
  - intros H1. destruct r2 as [[b|e]|p]; cbn.
    + intros H2. by rewrite try_filter_map_seq_app, H1, H2.
    + intros H2. by rewrite try_filter_map_seq_app, H1, H2.
    + intros (t & ? & ?). exists t. split; [by apply elem_of_app; right|done].
  - intros H1. destruct r2 as [[b|e']|p]; cbn.
    + intros _. by rewrite try_filter_map_seq_app, H1.
    + intros _. by rewrite try_filter_map_seq_app, H1.
    + intros (t & ? & ?). exists t. split; [by apply elem_of_app; right|done].
  - intros (t & ? & ?) _. exists t. split; [by apply elem_of_app; left|done].
Qed.

(** [fused_try_filter_collect], under every interleaving and whatever
    fails: the run terminates without a fault, every item is consumed or
    dropped, and what it returns - the survivors in input order or an error -
    is what the sequential loop returns, in particular the error of the first
    failing item; a panic it raises is an item's. *)
Theorem fused_try_filter_collect_correct {T R X P E : Type} `{!Inhabited T, !Inhabited R}
    (steal : bool → bool) (f : T → res P (rresult (option R) E)) (items : list T) (splits : nat)
    (Hs : ∃ c, steal c = true) :
  always (X := X) steal (fused_try_filter_collect f (length items) splits) (from_vec items)
    (λ r m es, no_live m ∧ es = [] ∧
       match r with
       | Val v => try_filter_map_seq f items = Val v
       | Unwind p => ∃ t, t ∈ items ∧ f t = Unwind p
       end).
Proof.
  rewrite in_slots_start. set (x := λ i, items !!! i).
  eapply always_mono.
  - eapply (join_tree_spec (filter_try_leaf f) (both_ok (λ l r, Val (l ++ r))) steal in_slots (waiting x)
      slots_dead (length items) (λ s e r, try_value f (range_items x s e) r)); try done.
    + intros s e Hse. apply value_leaf_owned; [|lia|].
      * intros i a a' o ev. unfold filter_try_body. destruct (f (x i)) as [[[]|]|]; congruence.
      * destruct (filter_try_leaf_result (X := X) f x s (e - s) []) as [-> ->].
        split_and!; [done|done|]. unfold try_value, range_items.
        destruct (try_filter_map_seq f _) as [[]|p] eqn:Ef; cbn; [done|done|].
        by apply try_filter_map_seq_unwind.
    + intros s m e Hm. by apply leaf_slots_split.
    + intros s m e Hm. by apply leaf_slots_disj.
    + intros s m e l r Hm _ Hl Hr. rewrite (range_items_split x s m e) by done. by apply try_value_node.
    + lia.
  - intros r m es (-> & -> & Hr). split_and!; [apply no_live_dead|done|].
    unfold x in Hr. by rewrite range_items_all in Hr.
Qed.

Definition demo_try_filter (x : nat) : res nat (rresult (option nat) nat) :=
  if bool_decide (x = 4)%nat then Val (Err x) else Val (Ok (Some (x * 2)%nat)).

Lemma fused_try_filter_collect_correct_witness :
  always (X := unit) (λ _, true) (fused_try_filter_collect demo_try_filter 4 2)
    (from_vec [1; 4; 3; 4]%nat)
    (λ r m es, no_live m ∧ es = [] ∧
       match r with
       | Val v => try_filter_map_seq demo_try_filter [1; 4; 3; 4]%nat = Val v
       | Unwind p => ∃ t, t ∈ [1; 4; 3; 4]%nat ∧ demo_try_filter t = Unwind p
       end) ∧
  try_filter_map_seq demo_try_filter [1; 4; 3; 4]%nat = Val (Err 4%nat).
Proof.
  split; [|reflexivity].
  apply (fused_try_filter_collect_correct (λ _, true) demo_try_filter [1; 4; 3; 4]%nat 2). by exists true.
Defined.
