(* ===== verification/ReduceDispatch.v ===== *)
(** * Dispatching a reduce over chunk cells

    The part the four reduce terminals of
    [src/crates/youpipe/src/builder/typed/fused.rs] share ([par_reduce],
    [par_reduce_by_ref], [par_reduce_try], [par_reduce_try_by_ref]): every
    chunk folds its range into a partial and publishes it in the chunk's cell
    ([ChunkSlots]), and past the dispatch the caller combines the cells in
    input order.

    [chunk_of] inverts the dispatcher's chunk boundaries, so every chunk
    publishes into a cell of its own.  The section [core] is parameterised by
    what a range's partial is ([value]) and what may go wrong on it ([bad]);
    its last lemma, [reduce_dispatch], is the contract the terminals use. *)

From S2P Require Import Prelude SleepCounters Config ForkJoin FusedTree FusedPlan HybridDispatch.
From S2P Require Import FusedCollect FusedStages FusedReduce.
Local Open Scope prog_scope.

(** ** [chunk_of] inverts the chunk boundaries *)

Lemma chunk_of_start n nc i :
  (0 < nc ≤ n)%nat → (i < nc)%nat →
  chunk_of (chunk_slots_new n nc) (chunk_start (n / nc) (n mod nc) i) = i.
Proof.
  intros Hnc Hi. unfold chunk_of, chunk_start. cbn [chunk rem chunk_slots_new].
  set (c := (n / nc)%nat). set (r := (n mod nc)%nat).
  assert (1 ≤ c)%nat as Hc by (subst c; apply Nat.div_le_lower_bound; lia).
  case_bool_decide as Hf.
  - assert (i < r)%nat as Hir by nia. rewrite Nat.min_l by lia.
    replace (i * c + i)%nat with (i * (c + 1))%nat by lia. apply Nat.div_mul. lia.
  - assert (r ≤ i)%nat as Hri by nia. rewrite Nat.min_r by lia.
    replace (i * c + r - r * (c + 1))%nat with ((i - r) * c)%nat by nia.
    rewrite Nat.div_mul by lia. lia.
Qed.

Lemma chunk_start_mono c r i j : (i ≤ j)%nat → (chunk_start c r i ≤ chunk_start c r j)%nat.
Proof. intros. unfold chunk_start. nia. Qed.

(** The empty cells of a reduce about to be dispatched. *)
Definition empty_cells {T A : Type} (c : ChunkSlots) : mem (T + A) :=
  own (slots_of BCell 0 (cells c)) (λ _, None).

(** What the failure slot holds was recorded. *)
Lemma recorded_failure {P E : Type} (fs : list (ErasedFailure P E)) g :
  foldl record None fs = Some g → g ∈ fs.
Proof.
  destruct fs as [|h fs]; cbn [foldl]; [done|].
  change (record None h) with (Some h).
  destruct (record_keeps fs h) as (g' & -> & Hg & _). by intros [= <-].
Qed.

(** ** Chunks that publish *)

Section chunk.
Context {T A X P E F : Type} (steal : bool → bool) (erase : F → ErasedFailure P E).
Notation ev := (event P E X).
Context (IN : bool) (x : nat → T) (cs : ChunkSlots).
Context (value : nat → nat → option A) (bad : nat → nat → ErasedFailure P E → Prop).
Notation in_slots := (leaf_slots false IN).

Definition cell (s : nat) : loc := (BCell, chunk_of cs s).

Definition reduce_spec : ChunkSpec (T + A) X P E :=
  mkChunkSpec (λ s e, in_slots s e ∪ {[cell s]}) (waiting x)
    (λ s e l, match l.1 with BCell => inr <$> value s e | _ => None end)
    (λ s e, is_Some (value s e)) bad (λ _ _, []).

Lemma cell_not_in s e : in_slots s e ## {[cell s]}.
Proof.
  apply disjoint_singleton_r. intros [_ [[? _]|[? _]]]%elem_of_leaf_slots; done.
Qed.

(** A computation of the partial that consumes its range, then something that
    uses the chunk's cell. *)
Lemma computed_spec {B C : Type} (p : prog (T + A) ev B) (k : B → prog (T + A) ev C) s e Φ Q :
  always steal p (own (in_slots s e) (waiting x))
    (λ r m es, m = own (in_slots s e) slots_dead ∧ es = [] ∧ Φ r) →
  (∀ r, Φ r → always steal (k r) (own (owned reduce_spec s e) slots_dead) Q) →
  always steal (plet r := p in k r) (own (owned reduce_spec s e) (before reduce_spec)) Q.
Proof.
  intros Hp Hk. cbn [owned before reduce_spec]. rewrite <- own_union. apply always_bind.
  eapply always_mono; [apply always_frame; [exact Hp|apply own_disjoint, cell_not_in]|].
  intros r m es (m0 & -> & _ & -> & -> & HΦ).
  rewrite (own_glue (in_slots s e) {[cell s]} slots_dead (waiting x) slots_dead); [|done|].
  2: { intros l Hl%elem_of_singleton. by subst l. }
  by apply Hk.
Qed.

(** A value is published; a failure leaves the chunk without live slots. *)
Lemma published_post s e a :
  value s e = Some a →
  always steal (publish cs s a (Done (Val (Ok tt)))) (own (owned reduce_spec s e) slots_dead)
    (chunk_post erase reduce_spec s e).
Proof.
  intros Hv. cbn [owned reduce_spec]. eapply always_put; [by rewrite own_in by set_solver|].
  rewrite own_insert by set_solver. constructor. split; [done|]. split; [done|]. cbn.
  split; [by exists a|]. split; [|done]. apply own_ext. intros l Hl. rewrite Hv.
  apply elem_of_union in Hl as [Hl|Hl%elem_of_singleton].
  - rewrite decide_False by (intros ->; by apply (cell_not_in s e (cell s) Hl), elem_of_singleton).
    by apply elem_of_leaf_slots in Hl as [_ [[-> _]|[_ ?]]].
  - subst l. by rewrite decide_True.
Qed.

Lemma failed_post s e (r : res P (rresult unit F)) :
  match r with
  | Val (Ok _) => False
  | Val (Err f) => bad s e (erase f)
  | Unwind p => bad s e (PanicF p)
  end →
  always steal (Done r) (own (owned reduce_spec s e) slots_dead) (chunk_post erase reduce_spec s e).
Proof.
  intros Hr. constructor. split; [done|]. split; [done|]. by destruct r as [[]|].
Qed.

Lemma drop_cell_spec s e :
  always (X := ev) steal (drop_published cs s) (own (owned reduce_spec s e) (after_ok reduce_spec s e))
    (λ _ m es, m = own (owned reduce_spec s e) dead_slot ∧ es = []).
Proof.
  cbn [owned after_ok reduce_spec]. eapply always_swap; [by rewrite own_in by set_solver|].
  rewrite own_insert by set_solver. constructor. split; [|done]. apply own_ext.
  intros l Hl. case_decide; [done|]. apply elem_of_union in Hl as [Hl|Hl%elem_of_singleton]; [|done].
  by apply elem_of_leaf_slots in Hl as [_ [[-> _]|[_ ?]]].
Qed.
End chunk.

(** ** The chunks' cells are apart *)

Section geometry.
Context {T A X P E : Type} (IN : bool) (x : nat → T) (n nc : nat).
Context (value : nat → nat → option A) (bad : nat → nat → ErasedFailure P E → Prop).
Hypothesis Hnc : (0 < nc ≤ n)%nat.
Notation cs := (chunk_slots_new n nc).
Notation start := (chunk_start (n / nc) (n mod nc)).
Notation spec := (reduce_spec (X := X) IN x cs value bad).
Notation in_slots := (leaf_slots false IN).

Lemma start_le i : (i ≤ nc)%nat → (start i ≤ n)%nat.
Proof using Hnc.
  intros Hi. pose proof (chunk_start_end n nc ltac:(lia)) as He.
  pose proof (chunk_start_mono (n / nc) (n mod nc) i nc Hi). lia.
Qed.

(** The slots of the jobs from chunk [i] on. *)
Lemma jobs_slots i todo : (i + todo ≤ nc)%nat →
  all_slots spec (build_jobs (n / nc) (n mod nc) i todo (start i)) =
    in_slots (start i) (start (i + todo)) ∪ slots_of BCell i (i + todo).
Proof using Hnc.
  revert i. induction todo as [|todo IH]; intros i Hi; cbn [build_jobs].
  - change (all_slots spec []) with (∅ : gset loc). apply set_eq. intros l.
    rewrite Nat.add_0_r, elem_of_union, elem_of_slots. split; [by intros ?%elem_of_empty|].
    intros [[? _]%elem_of_leaf_slots|]; lia.
  - rewrite <- chunk_start_S. unfold all_slots. rewrite fmap_cons. cbn [union_list foldr].
    fold (all_slots spec (build_jobs (n / nc) (n mod nc) (S i) todo (start (S i)))).
    rewrite IH by lia. cbn [owned reduce_spec fst snd]. unfold cell. rewrite chunk_of_start by lia.
    replace (S i + todo)%nat with (i + S todo)%nat by lia.
    rewrite (leaf_slots_split false IN (start i) (start (S i)) (start (i + S todo)))
      by (split; apply chunk_start_mono; lia).
    apply set_eq. intros [b j]. rewrite !elem_of_union, elem_of_singleton, !elem_of_slots. cbn.
    destruct (decide (j = i)) as [->|]; naive_solver lia.
Qed.

Lemma jobs_apart i todo : (i + todo ≤ nc)%nat →
  apart n spec (build_jobs (n / nc) (n mod nc) i todo (start i)).
Proof using Hnc.
  revert i. induction todo as [|todo IH]; intros i Hi; cbn [build_jobs apart]; [done|].
  rewrite <- chunk_start_S. cbn [fst snd]. split_and!.
  - rewrite jobs_slots by lia. cbn [owned reduce_spec]. unfold cell. rewrite chunk_of_start by lia.
    intros l Hl1 Hl2. apply elem_of_union in Hl1 as [H1|H1], Hl2 as [H2|H2].
    + apply elem_of_leaf_slots in H1 as [? _], H2 as [? _]. lia.
    + apply elem_of_leaf_slots in H1 as [_ [[Hb _]|[_ ?]]]; [|done]. apply elem_of_slots in H2 as [H2 _]. congruence.
    + apply elem_of_singleton in H1 as ->. apply elem_of_leaf_slots in H2 as [_ [[? _]|[? _]]]; done.
    + apply elem_of_singleton in H1 as ->. apply elem_of_slots in H2. cbn in H2. lia.
  - apply chunk_start_mono. lia.
  - apply start_le. lia.
  - apply IH. lia.
Qed.
End geometry.

(** ** Dispatch, then combine *)

Section core.
Context {T A X P E F : Type} (steal : bool → bool) (erase : F → ErasedFailure P E).
Notation ev := (event P E X).
Context (IN : bool) (x : nat → T) (c : A → A → res P A).
Context (n : nat) (on_pool : bool) (mode : OnpoolHybrid) (plan : SplitPlan) (nt : nat).
Context (value : nat → nat → option A) (bad : nat → nat → ErasedFailure P E → Prop).
Notation nc := (hybrid_num_chunks n plan nt).
Notation cs := (chunk_slots_new n nc).
Notation spec := (reduce_spec (X := X) IN x cs value bad).
Notation in_slots := (leaf_slots false IN).
Context (strategy : HybridStrategy (T + A) ev P F) `{!StrategyLaws steal erase n spec strategy}.
(** Neighbouring partials combine to the partial of the union. *)
Hypothesis value_combine : ∀ s m e a b, (s ≤ m ≤ e)%nat → (e ≤ n)%nat →
  value s m = Some a → value m e = Some b →
  match c a b with Val z => value s e = Some z | Unwind p => bad s e (PanicF p) end.
Hypothesis bad_sub : ∀ s e f, (s ≤ e ≤ n)%nat → bad s e f → bad 0 n f.
Hypothesis Hn : (2 ≤ n)%nat.
Hypothesis Hnt : (2 ≤ nt)%nat.
Notation chunks := (dispatch_chunks on_pool mode n plan nt).
Notation slots := (in_slots 0 n ∪ slots_of BCell 0 nc).

Lemma num_chunks_bounds : (0 < nc ≤ n)%nat.
Proof using Hn Hnt. unfold hybrid_num_chunks. lia. Qed.

Lemma chunk_of_zero : chunk_of cs 0 = 0%nat.
Proof using Hn Hnt.
  pose proof num_chunks_bounds. pose proof (chunk_of_start n nc 0 ltac:(lia) ltac:(lia)) as H0.
  by unfold chunk_start in H0.
Qed.

Lemma chunks_lookup i ch : chunks !! i = Some ch → (i < nc)%nat ∧ chunk_of cs ch.1 = i.
Proof using Hn Hnt.
  pose proof num_chunks_bounds. unfold dispatch_chunks. case_match.
  - destruct i as [|i]; [|done]. intros [= <-]. split; [lia|]. apply chunk_of_zero.
  - intros Hi. assert (i < nc)%nat as Hlt.
    { apply lookup_lt_Some in Hi. by rewrite build_jobs_length in Hi. }
    split; [done|].
    pose proof (build_jobs_lookup (n / nc) (n mod nc) 0 nc i Hlt) as Hb.
    cbn [chunk_start Nat.mul Nat.add Nat.min] in Hb. rewrite Hi in Hb. injection Hb as ->.
    cbn [fst]. by apply chunk_of_start.
Qed.

Lemma chunk_slots_all :
  (length chunks ≤ nc)%nat ∧ apart n spec chunks ∧
  all_slots spec chunks = in_slots 0 n ∪ slots_of BCell 0 (length chunks).
Proof using Hn Hnt.
  pose proof num_chunks_bounds as Hb. unfold dispatch_chunks. case_match.
  - rewrite all_slots_one. cbn [owned reduce_spec fst snd apart length]. unfold cell.
    rewrite chunk_of_zero. split_and!; [lia| |lia|lia|done|].
    + intros l _ Hl. change (l ∈ (∅ : gset loc)) in Hl. by apply elem_of_empty in Hl.
    + done.
  - rewrite build_jobs_length.
    pose proof (jobs_slots (X := X) IN x n nc value bad Hb 0 nc) as Hj.
    pose proof (jobs_apart (X := X) IN x n nc value bad Hb 0 nc) as Ha.
    cbn [Nat.add] in Hj, Ha. rewrite chunk_start_end in Hj by lia.
    cbn [chunk_start Nat.mul Nat.add Nat.min] in Hj, Ha.
    split_and!; [lia|apply Ha; lia|apply Hj; lia].
Qed.

(** The cells no chunk uses stay empty. *)
Lemma slots_rest : slots = all_slots spec chunks ∪ slots_of BCell (length chunks) nc ∧
  all_slots spec chunks ## slots_of BCell (length chunks) nc.
Proof using Hn Hnt.
  destruct chunk_slots_all as (Hk & _ & ->). split.
  - rewrite <- (assoc_L (∪)). f_equal. apply set_eq. intros [b i].
    rewrite elem_of_union, !elem_of_slots. cbn [fst snd]. clear -Hk.
    destruct (decide (i < length chunks)%nat); naive_solver lia.
  - intros [b i] [H1|H1]%elem_of_union [H2 H2']%elem_of_slots; cbn [fst snd] in *; subst b.
    + by apply elem_of_leaf_slots in H1 as [_ [[? _]|[? _]]].
    + apply elem_of_slots in H1 as [_ H1]. cbn in H1, H2'. lia.
Qed.

(** The value a cell holds after a successful dispatch. *)
Definition cell_value (i : nat) : option A := chunks !! i ≫= λ ch, value ch.1 ch.2.
Definition published (l : loc) : option (T + A) :=
  match l.1 with BCell => inr <$> cell_value l.2 | _ => None end.

Lemma published_chunk ch l : ch ∈ chunks → l ∈ owned spec ch.1 ch.2 →
  published l = after_ok spec ch.1 ch.2 l.
Proof using Hn Hnt.
  intros [i Hi]%list_elem_of_lookup Hl. pose proof (chunks_lookup i ch Hi) as [_ Hof].
  cbn [owned reduce_spec after_ok] in *. unfold published.
  apply elem_of_union in Hl as [Hl|Hl%elem_of_singleton].
  - by apply elem_of_leaf_slots in Hl as [_ [[-> _]|[_ ?]]].
  - subst l. unfold cell. rewrite Hof. cbn. unfold cell_value. by rewrite Hi.
Qed.

(** The published partials are those of consecutive ranges from [s] to [e]. *)
Fixpoint parts_cover (vs : list (option A)) (s e : nat) : Prop :=
  match vs with
  | [] => s = e
  | None :: vs => parts_cover vs s e
  | Some a :: vs => ∃ m, (s ≤ m ≤ e)%nat ∧ value s m = Some a ∧ parts_cover vs m e
  end.

Lemma parts_cover_chunks s0 chs (v : nat → option A) i k :
  covers chs s0 n →
  (∀ j ch, chs !! j = Some ch → ∃ a, v (i + j)%nat = Some a ∧ value ch.1 ch.2 = Some a) →
  (∀ j, (i + length chs ≤ j)%nat → v j = None) → (length chs ≤ k)%nat →
  parts_cover (v <$> seq i k) s0 n.
Proof.
  revert s0 i k. induction chs as [|ch chs IH]; intros s0 i k Hc Hv Hnone Hk; cbn in Hc, Hk.
  - subst s0. clear Hv. revert i Hnone. induction k as [|k IHk]; intros i Hnone; cbn [seq]; [done|].
    rewrite fmap_cons. cbn [parts_cover]. rewrite Hnone by (cbn; lia). apply IHk; [cbn; lia|].
    intros j Hj. apply Hnone. cbn in *. lia.
  - destruct Hc as (<- & Hle & Hc). destruct k as [|k]; [lia|]. cbn [seq]. rewrite fmap_cons. cbn [parts_cover].
    destruct (Hv 0%nat ch eq_refl) as (a & Ha & Hval). rewrite Nat.add_0_r in Ha. rewrite Ha.
    exists ch.2. apply covers_le in Hc as Hle2. split_and!; [lia|lia|done|].
    apply IH; [done| | |lia].
    + intros j ch' Hj. rewrite Nat.add_succ_comm. by apply Hv.
    + intros j Hj. apply Hnone. cbn. lia.
Qed.

Lemma published_cover : (∀ ch, ch ∈ chunks → is_Some (value ch.1 ch.2)) →
  parts_cover (cell_value <$> seq 0 nc) 0 n.
Proof using Hn Hnt x IN X bad.
  intros Hok. apply (parts_cover_chunks 0 chunks); [apply dispatch_chunks_cover| | |].
  - intros j ch Hj. cbn [Nat.add]. unfold cell_value. rewrite Hj.
    destruct (Hok ch) as [a Ha]; [by apply list_elem_of_lookup_2 in Hj|]. exists a. done.
  - intros j Hj. cbn in Hj. unfold cell_value. by rewrite lookup_ge_None_2.
  - by destruct chunk_slots_all.
Qed.

(** Combining published partials of the whole batch. *)
Lemma combine_cells_spec (D : gset loc) (v : nat → option A) (todo i : nat) (acc : option A) (s : nat)
    (g : loc → option (T + A)) (Q : res P A → mem (T + A) → list ev → Prop) :
  (∀ j, (i ≤ j < i + todo)%nat → (BCell, j) ∈ D ∧ g (BCell, j) = inr <$> v j) →
  parts_cover (v <$> seq i todo) s n → (s ≤ n)%nat →
  match acc with Some a => value 0 s = Some a | None => s = 0%nat end →
  (∀ g' r, (∀ l, l.1 ≠ BCell → g' l = g l) →
     match r with Val a => value 0 n = Some a | Unwind p => bad 0 n (PanicF p) end → Q r (own D g') []) →
  always steal (combine_cells c i todo acc) (own D g) Q.
Proof using value_combine bad_sub Hn Hnt.
  revert i acc s g. induction todo as [|todo IH]; intros i acc s g Hg Hp Hs Hacc HQ; cbn [combine_cells].
  { cbn in Hp. subst s. destruct acc as [a|]; [|lia]. constructor. by apply HQ. }
  destruct (Hg i) as [Hin Hgi]; [lia|]. cbn [seq fmap list_fmap parts_cover] in Hp.
  eapply always_swap; [by rewrite own_in, Hgi|]. rewrite own_insert by done.
  set (g2 := λ l', if decide (l' = (BCell, i)) then None else g l').
  assert (∀ j, (S i ≤ j < S i + todo)%nat → (BCell, j) ∈ D ∧ g2 (BCell, j) = inr <$> v j) as Hg2.
  { intros j Hj. unfold g2. rewrite decide_False by (intros [= ->]; lia). apply Hg. lia. }
  assert (∀ g' r, (∀ l, l.1 ≠ BCell → g' l = g2 l) →
    match r with Val a => value 0 n = Some a | Unwind p => bad 0 n (PanicF p) end → Q r (own D g') []) as HQ2.
  { intros g' r Hg'. apply HQ. intros l Hl. rewrite Hg' by done. unfold g2.
    by rewrite decide_False by (by intros ->). }
  destruct (v i) as [a|]; cbn [fmap option_fmap option_map].
  - destruct Hp as (m & Hm & Hv & Hp). destruct acc as [y|].
    + pose proof (value_combine 0 s m y a ltac:(lia) ltac:(lia) Hacc Hv) as Hc.
      destruct (c y a) as [z|q]; cbn [call].
      * eapply (IH (S i) (Some z) m); [done|done|lia|done|done].
      * constructor. apply HQ2; [done|]. eapply bad_sub; [|exact Hc]. lia.
    + subst s. eapply (IH (S i) (Some a) m); [done|done|lia|done|done].
  - by eapply (IH (S i) acc s).
Qed.

(** The contract of a dispatched reduce: past a success the combination of the
    cells is the partial of the whole batch, else the failure is one of a
    chunk; no item is left in the input. *)
Lemma reduce_dispatch (Q : res P (rresult unit (ErasedFailure P E)) → mem (T + A) → list ev → Prop) :
  (∀ m es u, always (X := ev) steal (combine_all cs c) m (λ v m' es', buffers_gone m' ∧
      match v with Val a => value 0 n = Some a | Unwind p => bad 0 n (PanicF p) end) →
     Q (Val (Ok u)) m es) →
  (∀ m es g, buffers_gone m → bad 0 n g → Q (Val (Err g)) m es) →
  (∀ m es p, buffers_gone m → bad 0 n (PanicF p) → Q (Unwind p) m es) →
  always steal (hybrid_dispatch erase strategy on_pool mode n plan nt) (own slots (waiting x)) Q.
Proof using Type*.
  intros Hok Herr Hunw. destruct slots_rest as [-> Hd]. destruct chunk_slots_all as (Hk & Ha & Hall).
  rewrite <- own_union.
  eapply always_mono; [apply always_frame; [|by apply own_disjoint]|].
  { by eapply (dispatch_spec steal erase n spec strategy). }
  intros r m es (m0 & -> & _ & Hr).
  assert (∀ D, buffers_gone (V := T + A) (own D dead_slot ∪ own (slots_of BCell (length chunks) nc) (waiting x)))
    as Hdead.
  { intros D. rewrite (own_glue _ _ dead_slot (waiting x) dead_slot); [by apply buffers_gone_own|done|].
    intros [b i] [Hb _]%elem_of_slots. cbn in Hb. by subst b. }
  assert (∀ ch g, ch ∈ chunks → bad ch.1 ch.2 g → bad 0 n g) as Hsub.
  { intros ch g Hch. apply bad_sub.
    pose proof (covers_bounds _ _ _ _ (dispatch_chunks_cover on_pool mode n plan nt) Hch). lia. }
  destruct r as [[u|g]|p]; cbn [dispatch_post] in Hr.
  - destruct Hr as (Hch & Hm & _). rewrite (Hm published) by (intros; by apply published_chunk).
    rewrite (own_glue _ _ published (waiting x) published); [|done|].
    2: { intros [b i] [Hb Hi]%elem_of_slots. cbn [fst snd] in Hb, Hi. subst b.
         unfold published, cell_value, waiting. cbn [fst snd].
         by rewrite (lookup_ge_None_2 chunks i) by apply Hi. }
    apply Hok. eapply (combine_cells_spec _ cell_value nc 0 None 0 published); [| |lia|done|].
    + intros j Hj. split; [|done]. apply elem_of_union.
      destruct (decide (j < length chunks)%nat); [left; rewrite Hall; apply elem_of_union_r|right];
        apply elem_of_slots; cbn [fst snd]; (split; [done|lia]).
    + by apply published_cover.
    + intros g' r Hg' Hr. split; [|done]. apply buffers_gone_own. intros l _ Hl. rewrite Hg' by done.
      by destruct l as [[] ?].
  - destruct Hr as ((fs & Hf & Hfs) & -> & _). apply recorded_failure in Hf.
    destruct (Hfs g Hf) as (ch & Hch & Hb). apply Herr; [apply Hdead|by eapply Hsub].
  - destruct Hr as ((ch & Hch & Hb) & -> & _). apply Hunw; [apply Hdead|by eapply Hsub].
Qed.
End core.
