(* ===== verification/ParReduce.v ===== *)
(** * The reduce terminals of the fused engine

    [par_reduce], [par_reduce_by_ref], [par_reduce_try] and
    [par_reduce_try_by_ref] of [src/crates/youpipe/src/builder/typed/fused.rs]:
    their strategies meet the dispatcher's laws ([HybridDispatch]), and what
    they return is the sequential fold whenever folding and combining fit
    together.  The reducers of [traits.rs] fit ([FusedStages.ReducerLaws]). *)

From S2P Require Import Prelude SleepCounters Config ForkJoin FusedTree FusedPlan HybridDispatch.
From S2P Require Import FusedCollect FusedStages FusedReduce ReduceDispatch.
Local Open Scope prog_scope.

(** ** Infallible reduce *)

Lemma fold_seq_unwind {T A P : Type} (f : A → T → res P A) (acc : A) (l : list T) p :
  fold_seq f acc l = Unwind p → ∃ b t, t ∈ l ∧ f b t = Unwind p.
Proof.
  revert acc. induction l as [|t l IH]; intros acc; cbn; [done|].
  destruct (f acc t) as [a|q] eqn:Ef; cbn.
  - intros (b & t' & ? & ?)%IH. exists b, t'. split; [by right|done].
  - intros [= ->]. exists acc, t. split; [by left|done].
Qed.

(** A range is part of the batch. *)
Lemma range_items_sub {T : Type} (x : nat → T) s e n t :
  (s ≤ e ≤ n)%nat → t ∈ range_items x s e → t ∈ range_items x 0 n.
Proof.
  intros Hse Ht. rewrite (range_items_split x 0 s n), (range_items_split x s e n) by lia.
  apply elem_of_app. right. apply elem_of_app. by left.
Qed.

Section infallible.
Context {T A X P E : Type} `{!Inhabited A} (steal : bool → bool).
Notation ev := (event P E X).
Context (seed : A) (f : A → T → res P A) (c : A → A → res P A) (x : nat → T) (n : nat) (IN : bool).
Hypothesis c_seed : ∀ a, c a seed = Val a.
Hypothesis c_fold : ∀ a b t, rbind (c a b) (λ z, f z t) = rbind (f b t) (λ z, c a z).
Hypothesis some_schedule : ∃ b, steal b = true.
Notation in_slots := (leaf_slots false IN).

(** The fold of a range, its partial, and the panics its items can raise. *)
Definition value_of (s e : nat) : res P A := fold_seq f seed (range_items x s e).
Definition partial (s e : nat) : option A :=
  match value_of s e with Val a => Some a | Unwind _ => None end.
Definition panics (s e : nat) (g : ErasedFailure P E) : Prop :=
  ∃ p b t, g = PanicF p ∧ t ∈ range_items x s e ∧ f b t = Unwind p.

Lemma value_of_split s m e : (s ≤ m ≤ e)%nat →
  value_of s e = rbind (value_of s m) (λ a, rbind (value_of m e) (λ b, c a b)).
Proof using c_seed c_fold.
  intros Hm. unfold value_of. rewrite (range_items_split x s m e) by done. by apply fold_seq_combine.
Qed.

Lemma value_of_unwind s e p : value_of s e = Unwind p → panics s e (PanicF p).
Proof. intros (b & t & Ht & Hf)%fold_seq_unwind. by exists p, b, t. Qed.

Lemma partial_combine s m e a b : (s ≤ m ≤ e)%nat → (e ≤ n)%nat →
  partial s m = Some a → partial m e = Some b →
  match c a b with Val z => partial s e = Some z | Unwind p => panics s e (PanicF p) end.
Proof using c_seed c_fold.
  intros Hm _ Ha Hb. assert (value_of s e = c a b) as Hv.
  { unfold partial in Ha, Hb. rewrite (value_of_split s m e) by done.
    destruct (value_of s m), (value_of m e); simplify_eq. done. }
  destruct (c a b) eqn:Hc; [unfold partial; by rewrite Hv|by apply value_of_unwind].
Qed.

Lemma panics_sub s e g : (s ≤ e ≤ n)%nat → panics s e g → panics 0 n g.
Proof.
  intros Hse (p & b & t & -> & Ht & Hf). exists p, b, t. split_and!; [done| |done].
  by eapply range_items_sub.
Qed.

(** A leaf and a tree that compute [value_of]. *)
Definition computes (p : nat → nat → prog (T + A) ev (res P A)) : Prop := ∀ s e, (s ≤ e ≤ n)%nat →
  always steal (p s e) (own (in_slots s e) (waiting x))
    (λ r m es, m = own (in_slots s e) slots_dead ∧ es = [] ∧ r = value_of s e).

Lemma reduce_tree_computes leaf k : computes leaf → computes (join_tree leaf c k).
Proof using c_seed c_fold some_schedule.
  intros Hleaf s e. apply (join_tree_spec leaf c steal in_slots (waiting x) slots_dead n
    (λ s e r, r = value_of s e)); try done.
  - intros s' m e' Hm. by apply leaf_slots_split.
  - intros s' m e' Hm. by apply leaf_slots_disj.
  - intros s' m e' l r Hm _ -> ->. symmetry. by apply value_of_split.
Qed.

(** Chunks that publish what they compute meet the laws. *)
Lemma publishes cs p s e : computes p → (s ≤ e ≤ n)%nat →
  always steal (bindr (p s e) (λ acc, publish cs s acc (Done (Val (Ok tt)))))
    (own (owned (reduce_spec (X := X) IN x cs partial panics) s e) (waiting x))
    (chunk_post (λ g : P, PanicF g) (reduce_spec IN x cs partial panics) s e).
Proof.
  intros Hp Hse. apply (computed_spec steal IN x cs partial panics (p s e) _ s e
    (λ r, r = value_of s e)); [by apply Hp|].
  intros r ->. destruct (value_of s e) as [a|q] eqn:Ev.
  - apply published_post. unfold partial. by rewrite Ev.
  - apply failed_post. by apply value_of_unwind.
Qed.

Lemma reduce_laws cs leaf :
  computes leaf →
  StrategyLaws steal (λ g : P, PanicF g) n (reduce_spec (X := X) IN x cs partial panics)
    (mkStrategy
       (λ s e k, bindr (join_tree leaf c k s e) (λ acc, publish cs s acc (Done (Val (Ok tt)))))
       (λ s e, bindr (leaf s e) (λ acc, publish cs s acc (Done (Val (Ok tt)))))
       (λ s _, drop_published cs s)).
Proof using c_seed c_fold some_schedule.
  intros Hleaf. split; intros s e; [intros k|..]; intros Hse;
    cbn [run_chunk run_sequential cleanup_success_chunk].
  - by apply (publishes cs (join_tree leaf c k)), Hse; apply reduce_tree_computes.
  - by apply publishes.
  - apply drop_cell_spec.
Qed.

(** The terminals past their dispatch. *)
Lemma reduce_end_spec on_pool mode plan nt (strategy : HybridStrategy (T + A) ev P P) :
  let nc := hybrid_num_chunks n plan nt in
  let cs := chunk_slots_new n nc in
  StrategyLaws steal (λ g : P, PanicF g) n (reduce_spec (X := X) IN x cs partial panics) strategy →
  (2 ≤ n)%nat → (2 ≤ nt)%nat →
  always steal (plet r := hybrid_dispatch PanicF strategy on_pool mode n plan nt in reduce_end c cs r)
    (own (in_slots 0 n ∪ slots_of BCell 0 nc) (waiting x))
    (λ v m es, buffers_gone m ∧
       match v with
       | Val a => value_of 0 n = Val a
       | Unwind p => ∃ b t, t ∈ range_items x 0 n ∧ f b t = Unwind p
       end).
Proof using c_seed c_fold.
  intros nc cs Hlaws Hn Hnt. apply always_bind.
  eapply (reduce_dispatch steal PanicF IN x c n on_pool mode plan nt partial panics strategy);
    [exact partial_combine|exact panics_sub|done|done|..].
  - intros m es u Hc. eapply always_mono; [exact Hc|]. intros v m' es' [Hm Hv]. split; [done|].
    destruct v as [a|p].
    + unfold partial in Hv. destruct (value_of 0 n); by simplify_eq.
    + destruct Hv as (q & b & t & [= ->] & Ht & Hf). by exists b, t.
  - intros m es g Hm (q & b & t & -> & Ht & Hf). constructor. split; [done|]. by exists b, t.
  - intros m es p Hm (q & b & t & [= ->] & Ht & Hf). constructor. split; [done|]. by exists b, t.
Qed.
End infallible.

(** ** Fallible reduce *)

(** Fold in order, up to the first failing item. *)
Fixpoint try_fold_seq {T A P E : Type} (f : A → T → res P (rresult A E)) (acc : A) (items : list T) :
    res P (rresult A E) :=
  match items with
  | [] => Val (Ok acc)
  | t :: ts => qbind (f acc t) (λ a, try_fold_seq f a ts)
  end.

Lemma qbind_assoc {P A B C E : Type} (r : res P (rresult A E)) (f : A → res P (rresult B E))
    (g : B → res P (rresult C E)) : qbind (qbind r f) g = qbind r (λ a, qbind (f a) g).
Proof. by destruct r as [[]|]. Qed.

Lemma qbind_ext {P A B E : Type} (r : res P (rresult A E)) (f g : A → res P (rresult B E)) :
  (∀ a, f a = g a) → qbind r f = qbind r g.
Proof. intros H. destruct r as [[]|]; [apply H|done|done]. Qed.

Lemma try_fold_seq_app {T A P E : Type} (f : A → T → res P (rresult A E)) acc l1 l2 :
  try_fold_seq f acc (l1 ++ l2) = qbind (try_fold_seq f acc l1) (λ a, try_fold_seq f a l2).
Proof.
  revert acc. induction l1 as [|t l1 IH]; intros acc; cbn; [done|].
  rewrite qbind_assoc. by apply qbind_ext.
Qed.

Lemma try_fold_seq_combine {T A P E : Type} (seed : A) (f : A → T → res P (rresult A E))
    (c : A → A → res P A) l1 l2 :
  (∀ a, c a seed = Val a) →
  (∀ a b t, rbind (c a b) (λ z, f z t) = qbind (f b t) (λ z, rbind (c a z) (λ w, Val (Ok w)))) →
  try_fold_seq f seed (l1 ++ l2) =
    qbind (try_fold_seq f seed l1) (λ a, qbind (try_fold_seq f seed l2) (λ b, rbind (c a b) (λ z, Val (Ok z)))).
Proof.
  intros Hseed Hfold. rewrite try_fold_seq_app. apply qbind_ext. intros a.
  assert (∀ l b, qbind (try_fold_seq f b l) (λ z, rbind (c a z) (λ w, Val (Ok w))) =
    rbind (c a b) (λ z, try_fold_seq f z l)) as Hhom.
  { induction l as [|t l IH]; intros b; cbn; [by destruct (c a b)|].
    rewrite qbind_assoc, (qbind_ext _ _ (λ b', rbind (c a b') (λ z, try_fold_seq f z l))) by apply IH.
    specialize (Hfold a b t). destruct (c a b) as [z|q]; cbn in *.
    - rewrite Hfold, qbind_assoc. apply qbind_ext. intros w. by destruct (c a w).
    - destruct (f b t) as [[w|e]|q']; cbn in *; [|done|done]. by destruct (c a w). }
  rewrite Hhom, Hseed. done.
Qed.

(** Where a failure of the loop comes from. *)
Definition fails_on {T A P E : Type} (f : A → T → res P (rresult A E)) (items : list T)
    (g : ErasedFailure P E) : Prop :=
  ∃ b t, t ∈ items ∧ match g with Op e => f b t = Val (Err e) | PanicF p => f b t = Unwind p end.

Lemma try_fold_seq_fails {T A P E : Type} (f : A → T → res P (rresult A E)) acc l :
  match try_fold_seq f acc l with
  | Val (Ok _) => True
  | Val (Err e) => fails_on f l (Op e)
  | Unwind p => fails_on f l (PanicF p)
  end.
Proof.
  revert acc. induction l as [|t l IH]; intros acc; cbn; [done|].
  destruct (f acc t) as [[a|e]|q] eqn:Ef; cbn.
  - specialize (IH a). destruct (try_fold_seq f a l) as [[]|]; [done|..];
      destruct IH as (b & t' & Ht & Hb); exists b, t'; (split; [by right|done]).
  - exists acc, t. split; [by left|done].
  - exists acc, t. split; [by left|done].
Qed.

Section fallible.
Context {T A X P E : Type} `{!Inhabited A} (steal : bool → bool).
Notation ev := (event P E X).
Context (seed : A) (f : A → T → res P (rresult A E)) (c : A → A → res P A) (x : nat → T) (n : nat) (IN : bool).
Hypothesis c_seed : ∀ a, c a seed = Val a.
Hypothesis c_fold : ∀ a b t,
  rbind (c a b) (λ z, f z t) = qbind (f b t) (λ z, rbind (c a z) (λ w, Val (Ok w))).
Hypothesis some_schedule : ∃ b, steal b = true.
Notation in_slots := (leaf_slots false IN).

Definition try_value_of (s e : nat) : res P (rresult A E) := try_fold_seq f seed (range_items x s e).
Definition try_partial (s e : nat) : option A :=
  match try_value_of s e with Val (Ok a) => Some a | _ => None end.
Definition try_fails (s e : nat) (g : ErasedFailure P E) : Prop := fails_on f (range_items x s e) g.

(** A result of the tree on a range: a value is the sequential one, a panic an
    item's. *)
Definition try_result (s e : nat) (r : res P (rresult A E)) : Prop :=
  match r with Val v => try_value_of s e = Val v | Unwind p => try_fails s e (PanicF p) end.

Lemma try_value_split s m e : (s ≤ m ≤ e)%nat →
  try_value_of s e =
    qbind (try_value_of s m) (λ a, qbind (try_value_of m e) (λ b, rbind (c a b) (λ z, Val (Ok z)))).
Proof using c_seed c_fold.
  intros Hm. unfold try_value_of. rewrite (range_items_split x s m e) by done. by apply try_fold_seq_combine.
Qed.

Lemma try_value_fails s e :
  match try_value_of s e with
  | Val (Ok _) => True
  | Val (Err e') => try_fails s e (Op e')
  | Unwind p => try_fails s e (PanicF p)
  end.
Proof. apply try_fold_seq_fails. Qed.

Lemma try_fails_sub s e s' e' g :
  (s ≤ s' ≤ e')%nat → (e' ≤ e)%nat → try_fails s' e' g → try_fails s e g.
Proof.
  intros Hs He (b & t & Ht & Hb). exists b, t. split; [|done].
  rewrite (range_items_split x s s' e), (range_items_split x s' e' e) by lia.
  apply elem_of_app. right. apply elem_of_app. by left.
Qed.

Lemma try_result_node s m e l r : (s ≤ m ≤ e)%nat → try_result s m l → try_result m e r →
  try_result s e (rbind l (λ a, rbind r (λ b, both_ok c a b))).
Proof using c_seed c_fold.
  intros Hm Hl Hr. unfold try_result in *. pose proof (try_value_split s m e Hm) as Hv.
  destruct l as [[a|e1]|p]; cbn in *; [| |by eapply try_fails_sub; [..|exact Hl]; lia].
  - destruct r as [[b|e2]|p]; cbn in *; [| |by eapply try_fails_sub; [..|exact Hr]; lia].
    + rewrite Hl, Hr in Hv. cbn in Hv. pose proof (try_value_fails s e) as Hf. rewrite Hv in Hf.
      rewrite Hv. by destruct (c a b).
    + by rewrite Hv, Hl, Hr.
  - destruct r as [[b|e2]|p]; cbn in *; [by rewrite Hv, Hl..|].
    by eapply try_fails_sub; [..|exact Hr]; lia.
Qed.

Definition try_computes (p : nat → nat → prog (T + A) ev (res P (rresult A E))) : Prop :=
  ∀ s e, (s ≤ e ≤ n)%nat →
  always steal (p s e) (own (in_slots s e) (waiting x))
    (λ r m es, m = own (in_slots s e) slots_dead ∧ es = [] ∧ try_result s e r).

Lemma try_tree_computes leaf k : try_computes leaf → try_computes (join_tree leaf (both_ok c) k).
Proof using c_seed c_fold some_schedule.
  intros Hleaf s e. apply (join_tree_spec leaf (both_ok c) steal in_slots (waiting x) slots_dead n
    try_result); try done.
  - intros s' m e' Hm. by apply leaf_slots_split.
  - intros s' m e' Hm. by apply leaf_slots_disj.
  - intros s' m e' l r Hm _. by apply try_result_node.
Qed.

Lemma try_publishes cs p s e : try_computes p → (s ≤ e ≤ n)%nat →
  always steal (plet r := p s e in publish_ok cs s r)
    (own (owned (reduce_spec (X := X) IN x cs try_partial try_fails) s e) (waiting x))
    (chunk_post into_erased (reduce_spec IN x cs try_partial try_fails) s e).
Proof.
  intros Hp Hse. apply (computed_spec steal IN x cs try_partial try_fails (p s e) _ s e
    (try_result s e)); [by apply Hp|].
  intros [[a|e']|q] Hr; cbn [publish_ok] in *.
  - apply published_post. unfold try_partial. by rewrite Hr.
  - apply failed_post. cbn. pose proof (try_value_fails s e) as Hf. cbn in Hr. by rewrite Hr in Hf.
  - by apply failed_post.
Qed.

Lemma reduce_try_laws cs leaf :
  try_computes leaf →
  StrategyLaws steal into_erased n (reduce_spec (X := X) IN x cs try_partial try_fails)
    (mkStrategy
       (λ s e k, plet r := join_tree leaf (both_ok c) k s e in publish_ok cs s r)
       (λ s e, plet r := leaf s e in publish_ok cs s r)
       (λ s _, drop_published cs s)).
Proof using c_seed c_fold some_schedule.
  intros Hleaf. split; intros s e; [intros k|..]; intros Hse;
    cbn [run_chunk run_sequential cleanup_success_chunk].
  - by apply (try_publishes cs (join_tree leaf (both_ok c) k)), Hse; apply try_tree_computes.
  - by apply try_publishes.
  - apply drop_cell_spec.
Qed.

Lemma reduce_try_end_spec on_pool mode plan nt (strategy : HybridStrategy (T + A) ev P (TryFailure P E)) :
  let nc := hybrid_num_chunks n plan nt in
  let cs := chunk_slots_new n nc in
  StrategyLaws steal into_erased n (reduce_spec (X := X) IN x cs try_partial try_fails) strategy →
  (2 ≤ n)%nat → (2 ≤ nt)%nat →
  always steal (plet r := hybrid_dispatch into_erased strategy on_pool mode n plan nt in reduce_try_end c cs r)
    (own (in_slots 0 n ∪ slots_of BCell 0 nc) (waiting x))
    (λ v m es, buffers_gone m ∧
       match v with
       | Val (Ok a) => try_value_of 0 n = Val (Ok a)
       | Val (Err e) => try_fails 0 n (Op e)
       | Unwind p => try_fails 0 n (PanicF p)
       end).
Proof using c_seed c_fold.
  intros nc cs Hlaws Hn Hnt. apply always_bind.
  eapply (reduce_dispatch steal into_erased IN x c n on_pool mode plan nt try_partial try_fails strategy);
    [| |done|done|..].
  - intros s m e a b Hm _ Ha Hb. pose proof (try_value_split s m e Hm) as Hv.
    pose proof (try_value_fails s e) as Hf. unfold try_partial in *.
    destruct (try_value_of s m) as [[]|], (try_value_of m e) as [[]|]; simplify_eq.
    cbn in Hv. rewrite Hv in *. by destruct (c a b).
  - intros s e g Hse. apply try_fails_sub; lia.
  - intros m es u Hc. apply always_bind. eapply always_mono; [exact Hc|].
    intros v m' es' [Hm Hv]. destruct v as [a|p]; constructor; rewrite ?app_nil_r; (split; [done|]); [|done].
    unfold try_partial in Hv. destruct (try_value_of 0 n) as [[]|]; by simplify_eq.
  - intros m es [e|p] Hm Hg; constructor; by split.
  - intros m es p Hm Hg. constructor. by split.
Qed.
End fallible.

(** ** The terminals *)

Section starts.
Context {T A : Type} `{!Inhabited T}.

Lemma cells_waiting (x : nat → T) cs :
  empty_cells (T := T) (A := A) cs = own (slots_of BCell 0 (cells cs)) (waiting x).
Proof. apply own_ext. intros [b i] [Hb _]%elem_of_slots. cbn in Hb. by subst b. Qed.

(** The memory a reduce over an owned or a borrowed batch starts from. *)
Lemma owned_start (items : list T) (cs : ChunkSlots) :
  from_vec (R := A) items ∪ empty_cells cs =
    own (leaf_slots false true 0 (length items) ∪ slots_of BCell 0 (cells cs)) (waiting (λ i, items !!! i)).
Proof. by rewrite in_slots_start, (cells_waiting (λ i, items !!! i)), own_union. Qed.

Lemma borrowed_start (items : list T) (cs : ChunkSlots) :
  empty_cells (T := T) (A := A) cs =
    own (leaf_slots false false 0 (length items) ∪ slots_of BCell 0 (cells cs)) (waiting (λ i, items !!! i)).
Proof.
  rewrite (cells_waiting (λ i, items !!! i)). f_equal. unfold leaf_slots. by rewrite !(left_id_L ∅ (∪)).
Qed.
End starts.

Section leaves.
Context {T A X P E : Type} `{!Inhabited T, !Inhabited A} (steal : bool → bool).
Notation ev := (event P E X).
Context (seed : A).

Lemma reduce_leaf_computes (f : A → T → res P A) (x : nat → T) n :
  computes (X := X) (E := E) steal seed f x n true (reduce_leaf seed f).
Proof.
  intros s e Hse. apply always_bind. apply value_leaf_owned; [|lia|].
  - intros i a a' o ev. unfold reduce_body. destruct (f a (x i)); congruence.
  - destruct (reduce_leaf_result (X := ev) f x s (e - s) seed) as [-> ->]. by constructor.
Qed.

Lemma reduce_leaf_by_ref_computes (f : A → T → res P A) (input : list T) :
  computes (X := X) (E := E) steal seed f (λ i, input !!! i) (length input) false
    (reduce_leaf_by_ref seed f input).
Proof.
  intros s e Hse. apply always_bind. apply value_leaf_ref; [|lia|].
  - intros i a a' o ev. unfold reduce_body. destruct (f a (input !!! i)); congruence.
  - destruct (reduce_leaf_result (X := ev) f (λ i, input !!! i) s (e - s) seed) as [-> ->]. by constructor.
Qed.

Lemma reduce_try_result (f : A → T → res P (rresult A E)) (x : nat → T) s k acc :
  (leaf_result (X := ev) (R := A) x (reduce_try_body f) s k acc).1 = try_fold_seq f acc (x <$> seq s k) ∧
  (leaf_result (X := ev) (R := A) x (reduce_try_body f) s k acc).2 = [].
Proof.
  revert s acc. induction k as [|k IH]; intros s acc; cbn; [done|].
  destruct (reduce_try_body f (x s) acc) as [[[[acc' o] ev]|e]|p] eqn:Eb;
    unfold reduce_try_body in Eb; destruct (f acc (x s)) as [[a|e']|q]; simplify_eq; cbn; [apply IH|done|done].
Qed.

(** The sequential result is what the tree may return. *)
Lemma try_result_seq (f : A → T → res P (rresult A E)) (x : nat → T) s e :
  try_result seed f x s e (try_value_of seed f x s e).
Proof.
  unfold try_result. pose proof (try_value_fails seed f x s e) as Hf.
  by destruct (try_value_of seed f x s e) as [[]|].
Qed.

Lemma reduce_try_leaf_computes (f : A → T → res P (rresult A E)) (x : nat → T) n :
  try_computes (X := X) steal seed f x n true (reduce_try_leaf seed f).
Proof.
  intros s e Hse. apply value_leaf_owned; [|lia|].
  - intros i a a' o ev. unfold reduce_try_body. destruct (f a (x i)) as [[]|]; congruence.
  - destruct (reduce_try_result f x s (e - s) seed) as [-> ->]. split_and!; [done|done|]. apply try_result_seq.
Qed.

Lemma reduce_try_leaf_by_ref_computes (f : A → T → res P (rresult A E)) (input : list T) :
  try_computes (X := X) steal seed f (λ i, input !!! i) (length input) false
    (reduce_try_leaf_by_ref seed f input).
Proof.
  intros s e Hse. apply value_leaf_ref; [|lia|].
  - intros i a a' o ev. unfold reduce_try_body. destruct (f a (input !!! i)) as [[]|]; congruence.
  - destruct (reduce_try_result f (λ i, input !!! i) s (e - s) seed) as [-> ->].
    split_and!; [done|done|]. apply try_result_seq.
Qed.
End leaves.

Section terminals.
Context {T A X P E : Type} `{!Inhabited T, !Inhabited A} (steal : bool → bool).
Notation ev := (event P E X).
Context (on_pool : bool) (mode : OnpoolHybrid) (nt : nat) (plan : SplitPlan) (items : list T).
Context (seed : A) (c : A → A → res P A).
Hypothesis Hn : (2 ≤ length items)%nat.
Hypothesis Hnt : (2 ≤ nt)%nat.
Hypothesis some_schedule : ∃ b, steal b = true.
Hypothesis c_seed : ∀ a, c a seed = Val a.
Notation cs := (chunk_slots_new (length items) (hybrid_num_chunks (length items) plan nt)).

(** What [par_reduce] and [par_reduce_by_ref] return: the sequential fold, or a
    panic the fold raises on some item; no item is left in the input. *)
Definition reduced (f : A → T → res P A) (v : res P A) (m : mem (T + A)) (es : list ev) : Prop :=
  buffers_gone m ∧
  match v with
  | Val a => fold_seq f seed items = Val a
  | Unwind p => ∃ b t, t ∈ items ∧ f b t = Unwind p
  end.

Theorem par_reduce_correct (f : A → T → res P A) :
  (∀ a b t, rbind (c a b) (λ z, f z t) = rbind (f b t) (λ z, c a z)) →
  always steal (par_reduce on_pool mode nt seed f c (length items) plan)
    (from_vec items ∪ empty_cells cs) (reduced f).
Proof using Type*.
  intros c_fold. rewrite owned_start. eapply always_mono.
  - apply (reduce_end_spec steal seed f c (λ i, items !!! i) (length items) true); try done.
    apply reduce_laws; try done. apply reduce_leaf_computes.
  - intros v m es. unfold value_of. by rewrite range_items_all.
Qed.

Theorem par_reduce_by_ref_correct (f : A → T → res P A) :
  (∀ a b t, rbind (c a b) (λ z, f z t) = rbind (f b t) (λ z, c a z)) →
  always steal (par_reduce_by_ref on_pool mode nt seed f c items plan) (empty_cells cs) (reduced f).
Proof using Type*.
  intros c_fold. rewrite (borrowed_start items). eapply always_mono.
  - apply (reduce_end_spec steal seed f c (λ i, items !!! i) (length items) false); try done.
    apply reduce_laws; try done. apply reduce_leaf_by_ref_computes.
  - intros v m es. unfold value_of. by rewrite range_items_all.
Qed.

(** The fallible ones: the sequential fold when nothing fails, else an error
    or a panic the fold raises on some item. *)
Definition try_reduced (f : A → T → res P (rresult A E)) (v : res P (rresult A E)) (m : mem (T + A))
    (es : list ev) : Prop :=
  buffers_gone m ∧
  match v with
  | Val (Ok a) => try_fold_seq f seed items = Val (Ok a)
  | Val (Err e) => fails_on f items (Op e)
  | Unwind p => fails_on f items (PanicF p)
  end.

Theorem par_reduce_try_correct (f : A → T → res P (rresult A E)) :
  (∀ a b t, rbind (c a b) (λ z, f z t) = qbind (f b t) (λ z, rbind (c a z) (λ w, Val (Ok w)))) →
  always steal (par_reduce_try on_pool mode nt seed f c (length items) plan)
    (from_vec items ∪ empty_cells cs) (try_reduced f).
Proof using Type*.
  intros c_fold. rewrite owned_start. eapply always_mono.
  - apply (reduce_try_end_spec steal seed f c (λ i, items !!! i) (length items) true); try done.
    apply reduce_try_laws; try done. apply reduce_try_leaf_computes.
  - intros v m es. unfold try_value_of, try_fails. by rewrite range_items_all.
Qed.

Theorem par_reduce_try_by_ref_correct (f : A → T → res P (rresult A E)) :
  (∀ a b t, rbind (c a b) (λ z, f z t) = qbind (f b t) (λ z, rbind (c a z) (λ w, Val (Ok w)))) →
  always steal (par_reduce_try_by_ref on_pool mode nt seed f c items plan) (empty_cells cs) (try_reduced f).
Proof using Type*.
  intros c_fold. rewrite (borrowed_start items). eapply always_mono.
  - apply (reduce_try_end_spec steal seed f c (λ i, items !!! i) (length items) false); try done.
    apply reduce_try_laws; try done. apply reduce_try_leaf_by_ref_computes.
  - intros v m es. unfold try_value_of, try_fails. by rewrite range_items_all.
Qed.
End terminals.
