(* ===== verification/LeafTree.v ===== *)
(** * Trees that number their leaves, and allocation between phases

    The by-reference filter collects of
    [src/crates/youpipe/src/builder/typed/fused.rs] come in three variants.
    Two of them, count-then-place and write-then-compact, give every leaf of
    the split recursion an ordinal, threaded top-down with
    [split_leaf_count], and keep per-leaf data in a shared array.  This file
    holds what they share:

    - [phases]: a computation that allocates buffers whose size it has
      computed, as programs of [ForkJoin] run one after the other with fresh
      slots added in between;
    - [split_leaf_count] and [leaf_ranges], the leaves of the recursion in
      input order: the ordinals the code threads are the positions in that
      list ([leaf_tree_spec]);
    - [kept], the survivors of a list of items. *)

From S2P Require Import Prelude SleepCounters Config ForkJoin FusedTree FusedPlan HybridDispatch.
From S2P Require Import FusedCollect FusedStages FusedReduce.
Local Open Scope prog_scope.

(** ** Phases *)

(** [Phase p fresh k]: run [p], allocate the slots [fresh a] for its result
    [a], go on with [k a]. *)
Inductive phases (V X B : Type) : Type :=
  | Last (p : prog V X B)
  | Phase (A : Type) (p : prog V X A) (fresh : A → mem V) (k : A → phases V X B).
Arguments Last {V X B} p.
Arguments Phase {V X B A} p fresh k.

(** Allocate, then go on. *)
Definition alloc {V X B : Type} (m : mem V) (k : phases V X B) : phases V X B :=
  Phase (Done tt) (λ _, m) (λ _, k).

(** Total correctness under every interleaving, phase by phase; allocated
    slots are slots nobody holds. *)
Fixpoint always_phases {V X B : Type} (steal : bool → bool) (ph : phases V X B) (m : mem V)
    (Q : B → mem V → list X → Prop) : Prop :=
  match ph with
  | Last p => always steal p m Q
  | Phase p fresh k =>
      always steal p m (λ a m' es, fresh a ##ₘ m' ∧
        always_phases steal (k a) (fresh a ∪ m') (λ b m'' es', Q b m'' (es ++ es')))
  end.

Lemma always_phases_mono {V X B : Type} (steal : bool → bool) (ph : phases V X B) (m : mem V)
    (Q Q' : B → mem V → list X → Prop) :
  always_phases steal ph m Q → (∀ b m' es, Q b m' es → Q' b m' es) → always_phases steal ph m Q'.
Proof.
  revert m Q Q'. induction ph as [p|A p fresh k IH]; intros m Q Q' Hp HQ; cbn in *.
  - by eapply always_mono.
  - eapply always_mono; [exact Hp|]. intros a m' es [Hd Hk]. split; [done|].
    eapply IH; [exact Hk|]. intros b m'' es'. apply HQ.
Qed.

Lemma always_alloc {V X B : Type} (steal : bool → bool) (m0 : mem V) (k : phases V X B) (m : mem V) Q :
  m0 ##ₘ m → always_phases steal k (m0 ∪ m) Q → always_phases steal (alloc m0 k) m Q.
Proof. intros Hd Hk. constructor. split; [done|]. exact Hk. Qed.

(** ** Cells of plain data *)

Section cells.
Context {M R X : Type}.
Notation prg := (prog (M + R) X).

(** A store to and a load from a cell that holds plain data. *)
Definition store_cell {A : Type} (i : nat) (c : M) (k : prg A) : prg A :=
  Swap (BCell, i) (λ _, Put (BCell, i) (inl c) k).
Definition load_cell {A : Type} (i : nat) (k : M → prg A) : prg A :=
  Take (BCell, i) (λ v, match v with inl c => Put (BCell, i) (inl c) (k c) | inr _ => Fault end).

Context (steal : bool → bool).
Implicit Types (D : gset loc) (f : loc → option (M + R)).

Lemma store_cell_spec {A : Type} D f i c (k : prg A) Q :
  (BCell, i) ∈ D →
  always steal k (own D (λ l, if decide (l = (BCell, i)) then Some (inl c) else f l)) Q →
  always steal (store_cell i c k) (own D f) Q.
Proof.
  intros Hi Hk. eapply always_swap; [by rewrite own_in|]. rewrite own_insert by done.
  eapply always_put; [rewrite own_in by done; by rewrite decide_True|]. rewrite own_insert by done.
  erewrite own_ext; [exact Hk|]. intros l _. cbn. by case_decide.
Qed.

Lemma load_cell_spec {A : Type} D f i c (k : M → prg A) Q :
  (BCell, i) ∈ D → f (BCell, i) = Some (inl c) →
  always steal (k c) (own D f) Q → always steal (load_cell i k) (own D f) Q.
Proof.
  intros Hi Hf Hk. eapply always_take; [rewrite own_in by done; by rewrite Hf|]. rewrite own_insert by done.
  eapply always_put; [rewrite own_in by done; by rewrite decide_True|]. rewrite own_insert by done.
  erewrite own_ext; [exact Hk|]. intros l _. cbn. by case_decide as Hl; [rewrite Hl|].
Qed.

(** The cells [i, i + todo), read in order. *)
Fixpoint load_cells (i todo : nat) : prg (list M) :=
  match todo with
  | O => Done []
  | S todo => load_cell i (λ c, plet cs := load_cells (S i) todo in Done (c :: cs))
  end.

Lemma load_cells_spec D f (cs : list M) i Q :
  (∀ j c, cs !! j = Some c → (BCell, i + j)%nat ∈ D ∧ f (BCell, i + j)%nat = Some (inl c)) →
  Q cs (own D f) [] →
  always steal (load_cells i (length cs)) (own D f) Q.
Proof.
  revert i Q. induction cs as [|c cs IH]; intros i Q Hf HQ; cbn [length load_cells]; [by constructor|].
  destruct (Hf 0%nat c eq_refl) as [Hi Hc]. rewrite Nat.add_0_r in Hi, Hc.
  eapply load_cell_spec; [done|done|]. apply always_bind. apply IH.
  - intros j c' Hj. specialize (Hf (S j) c' Hj). by rewrite Nat.add_succ_r in Hf.
  - constructor. by rewrite app_nil_r.
Qed.

(** The items [input[start..end]]. *)
Definition with_slice {T A : Type} (input : list T) (start end_ : nat) (k : list T → prg A) : prg A :=
  if bool_decide (start ≤ end_ ≤ length input)%nat then k (take (end_ - start) (drop start input))
  else Fault.
End cells.

(** ** The leaves *)

(** [split_leaf_count]. *)
Fixpoint split_leaf_count (len splits : nat) : nat :=
  match splits with
  | O => 1
  | S k =>
      if bool_decide (len ≤ 1)%nat then 1
      else split_leaf_count (len - len / 2) k + split_leaf_count (len / 2) k
  end.

(** The leaf ranges of the recursion, in input order. *)
Fixpoint leaf_ranges (splits s e : nat) : list (nat * nat) :=
  match splits with
  | O => [(s, e)]
  | S k =>
      if bool_decide (e - s ≤ 1)%nat then [(s, e)]
      else let mid := (s + (e - s) / 2)%nat in leaf_ranges k s mid ++ leaf_ranges k mid e
  end.

Lemma mid_bounds s e : (s ≤ e)%nat → (s ≤ s + (e - s) / 2 ≤ e)%nat.
Proof. intros. pose proof (Nat.Div0.div_le_upper_bound (e - s) 2 (e - s)). lia. Qed.

Lemma length_leaf_ranges splits s e : length (leaf_ranges splits s e) = split_leaf_count (e - s) splits.
Proof.
  revert s e. induction splits as [|k IH]; intros s e; cbn [leaf_ranges split_leaf_count]; [done|].
  case_bool_decide; [done|]. cbv zeta.
  rewrite length_app, !IH. pose proof (mid_bounds s e ltac:(lia)).
  replace (s + (e - s) / 2 - s)%nat with ((e - s) / 2)%nat by lia.
  replace (e - (s + (e - s) / 2))%nat with ((e - s) - (e - s) / 2)%nat by lia. lia.
Qed.

Lemma covers_app l1 l2 s m e : covers l1 s m → covers l2 m e → covers (l1 ++ l2) s e.
Proof.
  revert s. induction l1 as [|c l1 IH]; intros s; cbn; [by intros ->|].
  intros (? & ? & Hc) H2. split_and!; [done|done|]. by apply IH.
Qed.

Lemma leaf_ranges_cover splits s e : (s ≤ e)%nat → covers (leaf_ranges splits s e) s e.
Proof.
  revert s e. induction splits as [|k IH]; intros s e Hse; cbn [leaf_ranges]; [done|].
  case_bool_decide; [done|].
  pose proof (mid_bounds s e Hse). eapply covers_app; apply IH; lia.
Qed.

(** ** The recursion *)

Section leaf_tree.
Context {V X P A : Type}.
Context (leaf : nat → nat → nat → prog V X (res P A)) (node : A → A → A).

(** [count_filter_rec] and [write_filter_rec]: a leaf with its ordinal, or the
    two halves joined on the pool, the right one's ordinals after the left
    one's. *)
Fixpoint leaf_tree (splits_left start end_ leaf_base : nat) : prog V X (res P A) :=
  match splits_left with
  | O => leaf start end_ leaf_base
  | S splits =>
      if bool_decide (end_ - start ≤ 1)%nat then leaf start end_ leaf_base
      else
        let mid := (start + (end_ - start) / 2)%nat in
        let left_leaves := split_leaf_count (mid - start) splits in
        bindr (join_on (leaf_tree splits start mid leaf_base)
                 (leaf_tree splits mid end_ (leaf_base + left_leaves)))
          (λ lr, Done (Val (node lr.1 lr.2)))
  end.

(** The slots of the leaves [lo, hi) of [L], their contents before and after,
    and what the recursion returns for them. *)
Context (steal : bool → bool) (L : list (nat * nat)) (D : nat → nat → gset loc) (pre post : loc → option V).
Context (Φ : nat → nat → res P A → Prop).
Hypothesis leaf_spec : ∀ i s e, L !! i = Some (s, e) →
  always steal (leaf s e i) (own (D i (S i)) pre)
    (λ r m es, m = own (D i (S i)) post ∧ es = [] ∧ Φ i (S i) r).
Hypothesis D_split : ∀ lo mid hi, (lo ≤ mid ≤ hi)%nat → D lo hi = D lo mid ∪ D mid hi.
Hypothesis D_disj : ∀ lo mid hi, (lo ≤ mid ≤ hi)%nat → D lo mid ## D mid hi.
Hypothesis node_ok : ∀ lo mid hi l r, (lo ≤ mid ≤ hi)%nat → Φ lo mid l → Φ mid hi r →
  Φ lo hi (rbind l (λ a, rbind r (λ b, Val (node a b)))).
Hypothesis some_schedule : ∃ c, steal c = true.

(** The leaves of the subtree over [s, e) are those of [L] from [base] on. *)
Definition leaves_at (splits s e base : nat) : Prop :=
  ∀ i c, leaf_ranges splits s e !! i = Some c → L !! (base + i)%nat = Some c.

Lemma leaves_at_leaf splits s e base :
  leaf_ranges splits s e = [(s, e)] → leaves_at splits s e base →
  L !! base = Some (s, e) ∧ split_leaf_count (e - s) splits = 1%nat.
Proof.
  intros Hl Hat. rewrite <- length_leaf_ranges, Hl. split; [|done].
  specialize (Hat 0%nat (s, e)). rewrite Hl, Nat.add_0_r in Hat. by apply Hat.
Qed.

Lemma leaves_at_node k s e base (mid := (s + (e - s) / 2)%nat) : (1 < e - s)%nat →
  leaves_at (S k) s e base →
  leaves_at k s mid base ∧ leaves_at k mid e (base + split_leaf_count (mid - s) k) ∧
  split_leaf_count (e - s) (S k) = (split_leaf_count (mid - s) k + split_leaf_count (e - mid) k)%nat.
Proof.
  intros Hlen Hat. rewrite <- !length_leaf_ranges.
  assert (leaf_ranges (S k) s e = leaf_ranges k s mid ++ leaf_ranges k mid e) as Hr.
  { cbn [leaf_ranges]. by rewrite bool_decide_eq_false_2 by lia. }
  unfold leaves_at in Hat. rewrite Hr in *. rewrite length_app. split_and!; [| |done].
  - intros i c Hi. apply Hat. by apply lookup_app_l_Some.
  - intros i c Hi. rewrite <- Nat.add_assoc. apply Hat. rewrite lookup_app_r by lia.
    replace (length (leaf_ranges k s mid) + i - length (leaf_ranges k s mid))%nat with i by lia. done.
Qed.

Lemma leaf_tree_spec splits s e base :
  leaves_at splits s e base →
  let hi := (base + split_leaf_count (e - s) splits)%nat in
  always steal (leaf_tree splits s e base) (own (D base hi) pre)
    (λ r m es, m = own (D base hi) post ∧ es = [] ∧ Φ base hi r).
Proof using All.
  cbv zeta. revert s e base. induction splits as [|k IH]; intros s e base Hat.
  { apply leaves_at_leaf in Hat as [Hl ->]; [|done]. rewrite Nat.add_1_r. by apply leaf_spec. }
  cbn [leaf_tree]. case_bool_decide as Hlen.
  { apply leaves_at_leaf in Hat as [Hl ->]; [|cbn; by rewrite bool_decide_eq_true_2].
    rewrite Nat.add_1_r. by apply leaf_spec. }
  apply leaves_at_node in Hat as (Hat1 & Hat2 & ->); [|lia]. set (mid := (s + (e - s) / 2)%nat) in *.
  set (b1 := (base + split_leaf_count (mid - s) k)%nat) in *.
  rewrite Nat.add_assoc. fold b1. set (hi := (b1 + split_leaf_count (e - mid) k)%nat).
  rewrite (D_split base b1 hi), <- !own_union by lia. apply always_bind.
  eapply always_join; [done|by apply IH|by apply IH|apply own_disjoint, D_disj; lia|].
  fold b1 hi. intros l r m1 m2 e1 e2 es (-> & -> & Hl) (-> & -> & Hr) _ Hes.
  apply Permutation_nil_r in Hes as ->.
  pose proof (node_ok base b1 hi l r ltac:(lia) Hl Hr) as Hn.
  destruct l as [a|p], r as [b|q]; constructor; by rewrite !own_union.
Qed.
End leaf_tree.

(** ** The items of the leaves *)

Section items.
Context {T : Type} (input : list T).

Definition items_of (c : nat * nat) : list T := take (c.2 - c.1) (drop c.1 input).

Lemma covers_items L s e : covers L s e → (e ≤ length input)%nat →
  concat (items_of <$> L) = take (e - s) (drop s input).
Proof.
  revert s. induction L as [|c L IH]; intros s; cbn; [intros ->; by rewrite Nat.sub_diag|].
  intros (<- & Hc & HL) He. rewrite (IH _ HL He). pose proof (covers_le _ _ _ HL).
  unfold items_of. replace (e - c.1)%nat with ((c.2 - c.1) + (e - c.2))%nat by lia.
  rewrite <- (take_take_drop (drop c.1 input)), drop_drop. repeat f_equal. lia.
Qed.

Lemma covers_all L : covers L 0 (length input) → concat (items_of <$> L) = input.
Proof. intros HL. rewrite (covers_items _ _ _ HL) by done. by rewrite Nat.sub_0_r, drop_0, firstn_all. Qed.

Lemma items_of_sub c x : x ∈ items_of c → x ∈ input.
Proof.
  unfold items_of. intros Hx. apply (subseteq_drop c.1). by apply (subseteq_take (c.2 - c.1)).
Qed.

Lemma with_slice_ok {M R X A : Type} s e (k : list T → prog (M + R) X A) :
  (s ≤ e ≤ length input)%nat → with_slice input s e k = k (items_of (s, e)).
Proof. intros H. unfold with_slice. by rewrite bool_decide_eq_true_2. Qed.
End items.

(** The elements [lo, hi) of a list. *)
Definition seg {A : Type} (lo hi : nat) (l : list A) : list A := take (hi - lo) (drop lo l).

Lemma seg_split {A : Type} (l : list A) lo mid hi : (lo ≤ mid ≤ hi)%nat →
  seg lo hi l = seg lo mid l ++ seg mid hi l.
Proof.
  intros Hm. unfold seg. replace (hi - lo)%nat with ((mid - lo) + (hi - mid))%nat by lia.
  rewrite <- take_take_drop, drop_drop. repeat f_equal. lia.
Qed.

Lemma seg_one {A : Type} (l : list A) i a : l !! i = Some a → seg i (S i) l = [a].
Proof. intros Hi. unfold seg. rewrite (drop_S _ _ _ Hi). by replace (S i - i)%nat with 1%nat by lia. Qed.

Lemma seg_all {A : Type} (l : list A) : seg 0 (length l) l = l.
Proof. unfold seg. by rewrite Nat.sub_0_r, drop_0, firstn_all. Qed.

(** Where leaf [i] starts; [n] past the last one. *)
Definition leaf_start (L : list (nat * nat)) (n i : nat) : nat :=
  match L !! i with Some c => c.1 | None => n end.

Lemma leaf_start_succ L s n i c : covers L s n → L !! i = Some c → leaf_start L n (S i) = c.2.
Proof.
  revert s i. induction L as [|c' L IH]; intros s i HL Hi; [done|].
  destruct HL as (<- & Hc & HL). destruct i as [|i]; cbn in Hi.
  - injection Hi as ->. destruct L as [|c' L]; [done|]. by destruct HL as (? & _).
  - by apply (IH _ i HL).
Qed.

Lemma leaf_start_mono L s n i j : covers L s n → (i ≤ j)%nat → (leaf_start L n i ≤ leaf_start L n j)%nat.
Proof.
  intros HL. revert i. induction j as [|j IH]; intros i Hij; [by replace i with 0%nat by lia|].
  destruct (decide (i = S j)) as [->|]; [done|]. etrans; [apply (IH i); lia|].
  destruct (L !! j) as [c|] eqn:Hj.
  - rewrite (leaf_start_succ _ _ _ _ _ HL Hj). unfold leaf_start. rewrite Hj.
    apply list_elem_of_lookup_2 in Hj. pose proof (covers_bounds _ _ _ _ HL Hj). lia.
  - unfold leaf_start. rewrite Hj. apply lookup_ge_None_1 in Hj. by rewrite lookup_ge_None_2 by lia.
Qed.

(** ** Survivors *)

Section kept.
Context {T R P : Type} (apply : T → res P (option R)).

Definition survives (x : T) : bool := match apply x with Val (Some _) => true | _ => false end.
Definition kept (items : list T) : nat := length (base.filter (λ x, survives x = true) items).

Lemma kept_cons x items : kept (x :: items) = ((if survives x then 1 else 0) + kept items)%nat.
Proof. unfold kept. rewrite filter_cons. destruct (survives x) eqn:E; by case_decide. Qed.

Lemma filter_map_kept items ys : filter_map_seq apply items = Val ys → length ys = kept items.
Proof.
  revert ys. induction items as [|x xs IH]; intros ys; cbn [filter_map_seq]; [by intros [= <-]|].
  rewrite kept_cons. unfold survives at 1. destruct (apply x) as [o|p]; cbn; [|done].
  destruct (filter_map_seq apply xs) as [zs|p]; cbn; [|done]. intros [= <-].
  specialize (IH _ eq_refl). destruct o; cbn; lia.
Qed.

Lemma filter_map_val items ys : filter_map_seq apply items = Val ys → ∀ x, x ∈ items → ∃ o, apply x = Val o.
Proof.
  revert ys. induction items as [|t ts IH]; intros ys; cbn; [by intros _ x ?%not_elem_of_nil|].
  destruct (apply t) as [o|p] eqn:E; cbn; [|done]. destruct (filter_map_seq apply ts); cbn; [|done].
  intros _ x [->|Hx]%elem_of_cons; [by exists o|by eapply IH].
Qed.

(** The outputs of the leaves, when all succeed. *)
Lemma filter_map_concat (ls : list (list T)) ys :
  filter_map_seq apply (concat ls) = Val ys →
  ∃ outs, Forall2 (λ l o, filter_map_seq apply l = Val o) ls outs ∧ ys = concat outs.
Proof.
  revert ys. induction ls as [|l ls IH]; intros ys; cbn.
  - intros [= <-]. by exists [].
  - rewrite filter_map_seq_app. destruct (filter_map_seq apply l) as [o|p] eqn:El; cbn; [|done].
    destruct (filter_map_seq apply (concat ls)) as [zs|p]; cbn; [|done]. intros [= <-].
    destruct (IH _ eq_refl) as (outs & H2 & ->). exists (o :: outs). split; [by constructor|done].
Qed.
End kept.

(** The outputs of a leaf that succeeds. *)
Definition leaf_out {T R P : Type} (input : list T) (apply : T → res P (option R)) (c : nat * nat) : list R :=
  match filter_map_seq apply (items_of input c) with Val ys => ys | Unwind _ => [] end.

Lemma kept_le {T R P : Type} (apply : T → res P (option R)) items : (kept apply items ≤ length items)%nat.
Proof. unfold kept. apply length_filter. Qed.

Lemma leaf_out_le {T R P : Type} (input : list T) (apply : T → res P (option R)) c :
  (length (leaf_out input apply c) ≤ c.2 - c.1)%nat.
Proof.
  unfold leaf_out. destruct (filter_map_seq _ _) as [ys|] eqn:E; [|cbn; lia].
  rewrite (filter_map_kept _ _ _ E). pose proof (kept_le apply (items_of input c)).
  unfold items_of in *. rewrite length_take in *. lia.
Qed.

Lemma kept_differ {T R P : Type} (f g : T → res P (option R)) items :
  kept f items ≠ kept g items → ∃ x, x ∈ items ∧ survives f x ≠ survives g x.
Proof.
  induction items as [|x xs IH]; intros Hne; [done|]. rewrite !kept_cons in Hne.
  destruct (decide (survives f x = survives g x)) as [E|E].
  - rewrite E in Hne. destruct IH as (y & ? & ?); [lia|]. exists y. split; [by right|done].
  - exists x. split; [by left|done].
Qed.

(** ** Slots that hold a list *)

(** The buffer holds [ws] from slot [off] on. *)
Definition holds {M R : Type} (off : nat) (ws : list R) (l : loc) : option (M + R) :=
  inr <$> ws !! (l.2 - off)%nat.

Lemma holds_snoc {M R : Type} (off : nat) (ws : list R) (w : R) (D : gset loc) :
  (∀ l, l ∈ D → l.1 = BOut ∧ (off ≤ l.2)%nat) →
  own D (λ l, if decide (l = (BOut, off + length ws)%nat) then Some (inr w) else holds (M := M) off ws l) =
    own D (holds off (ws ++ [w])).
Proof.
  intros HD. apply own_ext. intros [b j] [Hb Hj]%HD. cbn in *. subst b. unfold holds. cbn [snd].
  case_decide as Hl.
  - injection Hl as ->. replace (off + length ws - off)%nat with (length ws) by lia.
    by rewrite lookup_app_r, Nat.sub_diag by lia.
  - assert (j - off ≠ length ws)%nat by (intros ?; apply Hl; f_equal; lia).
    destruct (decide (j - off < length ws)%nat).
    + by rewrite lookup_app_l.
    + rewrite (lookup_ge_None_2 ws), lookup_ge_None_2; [done| |lia]. rewrite length_app. cbn. lia.
Qed.

(** The outputs a leaf wrote, dropped. *)
Lemma drop_held {M R X : Type} (steal : bool → bool) (off : nat) (ws : list R) (e : nat) Q :
  (off + length ws ≤ e)%nat →
  Q tt (own (slots_of BOut off e) (λ _, None)) [] →
  always (X := X) steal (drop_each BOut off (length ws)) (own (slots_of BOut off e) (holds (M := M) off ws)) Q.
Proof.
  intros He HQ. apply drop_each_spec.
  - intros j Hj. split; [apply elem_of_slots; cbn; (split; [done|lia])|]. unfold holds. cbn [snd].
    destruct (lookup_lt_is_Some_2 ws (j - off)) as [w ->]; [lia|]. by eexists.
  - intros g Hg1 Hg2. erewrite own_ext; [exact HQ|]. intros [b j] [Hb Hj]%elem_of_slots. cbn in Hb, Hj. subst b.
    destruct (decide (j < off + length ws)%nat); [rewrite Hg1; [done|done|cbn; lia]|].
    rewrite Hg2 by (right; cbn; lia). unfold holds. cbn [snd]. by rewrite lookup_ge_None_2 by lia.
Qed.
