(* ===== verification/FilterPlace.v ===== *)
(** * Count-then-place filter collect

    [fused_filter_collect_by_ref_ctp] of
    [src/crates/youpipe/src/builder/typed/fused.rs]: a first pass over the
    borrowed input counts the survivors of every leaf, a scan turns the counts
    into output offsets, and a second pass re-runs the chain and writes every
    survivor to its final slot of one exactly-sized buffer.

    The chain is a pair of functions, what it does in the first and in the
    second pass: closures with interior state may answer differently.
    [ctp_correct] shows that whatever the two passes answer no slot is
    accessed in the wrong state and none stays live, that a disagreement can
    only surface as one of the two assertions, and that a chain that answers
    the same in both passes gives the sequential result. *)

From S2P Require Import Prelude SleepCounters Config ForkJoin FusedTree FusedPlan HybridDispatch.
From S2P Require Import FusedCollect FusedStages FusedReduce LeafTree.
Local Open Scope prog_scope.

Section ctp.
Context {T R X P : Type}.
Notation prg := (prog (nat + R) X).
(** The payloads of the assertions on a pass that keeps more, or fewer, items
    than the first one counted. *)
Context (more fewer : P).
Context (input : list T) (apply1 apply2 : T → res P (option R)).

(** *** Pass 1 *)

Fixpoint count_loop (c : nat) (items : list T) : res P nat :=
  match items with
  | [] => Val c
  | t :: ts => rbind (apply1 t) (λ o, count_loop (match o with Some _ => c + 1 | None => c end)%nat ts)
  end.

Definition count_leaf (start end_ leaf_base : nat) : prg (res P nat) :=
  with_slice input start end_ (λ items,
    call (count_loop 0 items) (λ c, store_cell leaf_base c (Done (Val c)))).

(** [count_filter_rec]. *)
Definition count_filter_rec (splits start end_ leaf_base : nat) : prg (res P nat) :=
  leaf_tree count_leaf (λ l r, l + r)%nat splits start end_ leaf_base.

(** The scan over the counts. *)
Fixpoint scan_bounds (i todo total : nat) (bounds : list nat) : prg (list nat * nat) :=
  match todo with
  | O => Done (bounds ++ [total], total)
  | S todo => load_cell i (λ c, scan_bounds (S i) todo (total + c)%nat (bounds ++ [total]))
  end.

(** *** Pass 2 *)

(** [FilterPlaceCtx]: the scan's result. *)
Record FilterPlaceCtx : Type := mkCtx { bounds : list nat; counts : list nat }.

(** The loop of a leaf whose slice of the output is [off, off + cnt). *)
Fixpoint place_loop (off cnt n written : nat) (items : list T) : prg (res P unit) :=
  match items with
  | [] =>
      if bool_decide (written = cnt)%nat then Done (Val tt)
      else cleanup true false off n written ;; Done (Unwind fewer)
  | t :: ts =>
      match apply2 t with
      | Unwind p => cleanup true false off n written ;; Done (Unwind p)
      | Val None => place_loop off cnt n written ts
      | Val (Some o) =>
          if bool_decide (written < cnt)%nat
          then write_out (off + written) o (place_loop off cnt n (S written) ts)
          else cleanup true false off n written ;; Done (Unwind more)
      end
  end.

Definition place_leaf (ctx : FilterPlaceCtx) (start end_ leaf_base : nat) : prg (res P unit) :=
  match bounds ctx !! leaf_base, counts ctx !! leaf_base with
  | Some off, Some cnt => with_slice input start end_ (place_loop off cnt (end_ - start) 0)
  | _, _ => Fault
  end.

(** [drop_leaf_range]: the outputs of the leaves [lo, hi). *)
Definition drop_leaf_range (ctx : FilterPlaceCtx) (lo hi : nat) : prg unit :=
  match bounds ctx !! lo, bounds ctx !! hi with
  | Some s, Some e => drop_range BOut s e
  | _, _ => Fault
  end.

(** [place_filter_rec]; an unwind that leaves the join passes through the
    [SiblingGuard], which drops the left leaf range. *)
Fixpoint place_filter_rec (ctx : FilterPlaceCtx) (splits_left start end_ leaf_base : nat) :
    prg (res P unit) :=
  match splits_left with
  | O => place_leaf ctx start end_ leaf_base
  | S splits =>
      if bool_decide (end_ - start ≤ 1)%nat then place_leaf ctx start end_ leaf_base
      else
        let mid := (start + (end_ - start) / 2)%nat in
        let left_leaves := split_leaf_count (mid - start) splits in
        let leaves := (left_leaves + split_leaf_count (end_ - mid) splits)%nat in
        plet j := join_on_captured (place_filter_rec ctx splits start mid leaf_base)
                    (place_filter_rec ctx splits mid end_ (leaf_base + left_leaves)) in
        match j with
        | Unwind p => drop_leaf_range ctx leaf_base (leaf_base + left_leaves) ;; Done (Unwind p)
        | Val (Val _, Val _) => Done (Val tt)
        | Val (Unwind p, Unwind _) => Done (Unwind p)
        | Val (Unwind p, Val _) =>
            drop_leaf_range ctx (leaf_base + left_leaves) (leaf_base + leaves) ;; Done (Unwind p)
        | Val (Val _, Unwind p) =>
            drop_leaf_range ctx leaf_base (leaf_base + left_leaves) ;; Done (Unwind p)
        end
  end.

(** [fused_filter_collect_by_ref_ctp]: the counters are allocated zeroed, the
    output with as many slots as the scan found survivors. *)
Definition zero_counts (leaves : nat) : mem (nat + R) :=
  own (slots_of BCell 0 leaves) (λ _, Some (inl 0%nat)).
Definition fused_filter_collect_by_ref_ctp (depth : nat) : phases (nat + R) X (res P (list R)) :=
  let n := length input in
  let leaves := split_leaf_count n depth in
  alloc (zero_counts leaves)
    (Phase
       (bindr (count_filter_rec depth 0 n 0) (λ _,
          plet bt := scan_bounds 0 leaves 0 [] in
          plet cs := load_cells 0 leaves in
          Done (Val (mkCtx bt.1 cs, bt.2))))
       (λ r, match r with Val (_, total) => uninit total | Unwind _ => ∅ end)
       (λ r, Last (call r (λ ct,
          bindr (place_filter_rec ct.1 depth 0 n 0) (λ _,
            plet v := into_vec BOut 0 ct.2 in Done (Val v)))))).
End ctp.

(** ** Prefix sums *)

Fixpoint prefix_sums (total : nat) (cs : list nat) : list nat :=
  match cs with
  | [] => [total]
  | c :: cs => total :: prefix_sums (total + c)%nat cs
  end.

Lemma prefix_sums_lookup total cs i : (i ≤ length cs)%nat →
  prefix_sums total cs !! i = Some (total + sum_list (take i cs))%nat.
Proof.
  revert total i. induction cs as [|c cs IH]; intros total i Hi; cbn in Hi.
  - replace i with 0%nat by lia. cbn. f_equal. lia.
  - destruct i as [|i]; cbn; [f_equal; lia|]. rewrite IH by lia. f_equal. lia.
Qed.

Lemma sum_list_take_S cs i c : cs !! i = Some c →
  sum_list (take (S i) cs) = (sum_list (take i cs) + c)%nat.
Proof. intros Hi. rewrite (take_S_r _ _ _ Hi), sum_list_with_app. cbn. lia. Qed.

Lemma sum_list_take_mono cs i j : (i ≤ j)%nat → (sum_list (take i cs) ≤ sum_list (take j cs))%nat.
Proof.
  intros Hij. replace j with (i + (j - i))%nat by lia. rewrite <- take_take_drop, sum_list_with_app. lia.
Qed.

(** ** Pass 1 *)

Section pass1.
Context {T R X P : Type} (steal : bool → bool) (input : list T) (apply1 : T → res P (option R)).
Hypothesis some_schedule : ∃ c, steal c = true.
Notation n := (length input).

Lemma count_loop_val c items :
  count_loop apply1 c items = rbind (filter_map_seq apply1 items) (λ ys, Val (c + length ys)%nat).
Proof.
  revert c. induction items as [|t ts IH]; intros c; cbn; [f_equal; lia|].
  destruct (apply1 t) as [o|p]; cbn; [|done]. rewrite IH.
  destruct (filter_map_seq apply1 ts) as [ys|p]; cbn; [|done]. f_equal. destruct o; cbn; lia.
Qed.

Definition leaf_count (c : nat * nat) : nat :=
  match filter_map_seq apply1 (items_of input c) with Val ys => length ys | Unwind _ => 0 end.

(** The counters after the pass. *)
Definition counted (L : list (nat * nat)) (l : loc) : option (nat + R) :=
  Some (inl (from_option leaf_count 0%nat (L !! l.2))).

Lemma count_spec depth (L := leaf_ranges depth 0 n) :
  always (X := X) steal (count_filter_rec input apply1 depth 0 n 0)
    (zero_counts (split_leaf_count n depth))
    (λ r m es, m = own (slots_of BCell 0 (length L)) (counted L) ∧ es = [] ∧
       r = rbind (filter_map_seq apply1 input) (λ ys, Val (length ys))).
Proof using some_schedule.
  assert (covers L 0 n) as HL by (apply leaf_ranges_cover; lia).
  assert (length L = split_leaf_count n depth) as Hlen.
  { subst L. rewrite length_leaf_ranges. f_equal. lia. }
  eapply always_mono.
  { replace (split_leaf_count n depth) with (0 + split_leaf_count (n - 0) depth)%nat by (by rewrite Nat.sub_0_r).
    apply (leaf_tree_spec _ (λ l r, l + r)%nat steal L (slots_of BCell) _ (counted L)
      (λ lo hi r, r = rbind (filter_map_seq apply1 (concat (items_of input <$> seg lo hi L)))
         (λ ys, Val (length ys)))); [| | | |done|].
    - intros i s e Hi. pose proof (covers_bounds _ _ _ _ HL (list_elem_of_lookup_2 _ _ _ Hi)) as Hb.
      unfold count_leaf. rewrite with_slice_ok by (cbn in Hb; lia). rewrite count_loop_val.
      rewrite (seg_one _ _ _ Hi). cbn [fmap list_fmap concat]. rewrite app_nil_r.
      assert (counted L (BCell, i) = Some (inl (leaf_count (s, e)))) as Hc by (unfold counted; cbn; by rewrite Hi).
      unfold leaf_count in Hc. destruct (filter_map_seq apply1 (items_of input (s, e))) as [ys|p]; cbn [rbind call].
      + apply store_cell_spec; [apply elem_of_slots; cbn; (split; [done|lia])|]. constructor.
        split_and!; [|done|done]. apply own_ext. intros [b j] [Hb' Hj]%elem_of_slots. cbn in Hb', Hj. subst b.
        replace j with i by lia. by rewrite decide_True, Hc.
      + constructor. split_and!; [|done|done]. apply own_ext.
        intros [b j] [Hb' Hj]%elem_of_slots. cbn in Hb', Hj. subst b. by replace j with i by lia.
    - intros lo mid hi Hm. apply set_eq. intros [b i]. rewrite elem_of_union, !elem_of_slots. cbn.
      destruct (decide (i < mid)%nat); naive_solver lia.
    - intros lo mid hi Hm [b i] H1%elem_of_slots H2%elem_of_slots. cbn in *. lia.
    - intros lo mid hi l r Hm -> ->. rewrite (seg_split L lo mid hi), fmap_app, concat_app, filter_map_seq_app by done.
      destruct (filter_map_seq apply1 _) as [ys|]; cbn; [|done].
      destruct (filter_map_seq apply1 _) as [zs|]; cbn; [|done]. by rewrite length_app.
    - by intros i c. }
  intros r m es (-> & -> & ->). rewrite Nat.sub_0_r. cbn [Nat.add]. rewrite <- Hlen, seg_all.
  by rewrite (covers_all _ _ HL).
Qed.

Lemma scan_bounds_spec D (f : loc → option (nat + R)) cs i total bs Q :
  (∀ j c, cs !! j = Some c → (BCell, i + j)%nat ∈ D ∧ f (BCell, i + j)%nat = Some (inl c)) →
  Q (bs ++ prefix_sums total cs, total + sum_list cs)%nat (own D f) [] →
  always (X := X) steal (scan_bounds i (length cs) total bs) (own D f) Q.
Proof.
  revert i total bs. induction cs as [|c cs IH]; intros i total bs Hf HQ; cbn [length scan_bounds].
  - constructor. cbn in HQ. by rewrite Nat.add_0_r in HQ.
  - destruct (Hf 0%nat c eq_refl) as [Hi Hc]. rewrite Nat.add_0_r in Hi, Hc.
    eapply load_cell_spec; [done|done|]. apply IH.
    + intros j c' Hj. specialize (Hf (S j) c' Hj). by rewrite Nat.add_succ_r in Hf.
    + cbn [prefix_sums sum_list sum_list_with foldr id] in HQ. rewrite <- app_assoc.
      by replace (total + c + sum_list cs)%nat with (total + (c + sum_list cs))%nat by lia.
Qed.

End pass1.

(** ** Pass 2 *)

Section pass2.
Context {T R X P : Type} `{!Inhabited R} (steal : bool → bool) (more fewer : P) (input : list T).
Context (apply1 apply2 : T → res P (option R)).
Hypothesis some_schedule : ∃ c, steal c = true.
Notation n := (length input).

(** What an unwind of the pass comes from. *)
Definition place_bad (items : list T) (p : P) : Prop :=
  (∃ x, x ∈ items ∧ apply2 x = Unwind p) ∨
  ((p = more ∨ p = fewer) ∧ ∃ x, x ∈ items ∧ survives apply1 x ≠ survives apply2 x).

Lemma place_loop_spec off cnt k items (ws : list R) Q :
  (length ws ≤ cnt)%nat →
  (∀ ys, filter_map_seq apply2 items = Val ys → length (ws ++ ys) = cnt →
     Q (Val tt) (own (slots_of BOut off (off + cnt)) (holds off (ws ++ ys))) []) →
  (∀ p, (∃ x, x ∈ items ∧ apply2 x = Unwind p) ∨
     ((p = more ∨ p = fewer) ∧ cnt ≠ (length ws + kept apply2 items)%nat) →
     Q (Unwind p) (own (slots_of BOut off (off + cnt)) (λ _, None)) []) →
  always (X := X) steal (place_loop more fewer apply2 off cnt k (length ws) items)
    (own (slots_of BOut off (off + cnt)) (holds off ws)) Q.
Proof.
  revert ws Q. induction items as [|t ts IH]; intros ws Q Hws Hok Hbad; cbn [place_loop].
  - case_bool_decide as Hc.
    + constructor. specialize (Hok [] eq_refl). rewrite app_nil_r in Hok. by apply Hok.
    + apply always_bind, always_bind, drop_held; [lia|]. do 2 constructor.
      apply Hbad. right. split; [by right|]. unfold kept. cbn. lia.
  - rewrite kept_cons in Hbad. unfold survives in Hbad at 1. cbn [filter_map_seq] in Hok.
    destruct (apply2 t) as [[o|]|p] eqn:Et.
    + case_bool_decide as Hc.
      * eapply always_put; [rewrite own_in; [|apply elem_of_slots; cbn; (split; [done|lia])]|].
        { unfold holds. cbn [snd]. by rewrite lookup_ge_None_2 by lia. }
        rewrite own_insert, holds_snoc; [|intros l [? ?]%elem_of_slots; (split; [done|lia])
          |apply elem_of_slots; cbn; (split; [done|lia])].
        replace (S (length ws)) with (length (ws ++ [o])) by (rewrite length_app; cbn; lia).
        apply IH.
        { rewrite length_app. cbn. lia. }
        { intros ys Hys Hlen. rewrite <- app_assoc in *. apply Hok; [|done]. cbn. by rewrite Hys. }
        intros p Hp. apply Hbad. destruct Hp as [(x & Hx & Hp)|[Hp Hne]].
        { left. exists x. split; [by right|done]. }
        right. split; [done|]. rewrite length_app in Hne. cbn in Hne. lia.
      * apply always_bind, always_bind, drop_held; [lia|]. do 2 constructor.
        apply Hbad. right. split; [by left|]. lia.
    + apply IH; [done| |].
      { intros ys Hys Hlen. apply Hok; [|done]. cbn. by rewrite Hys. }
      intros p Hp. apply Hbad. destruct Hp as [(x & Hx & Hp)|Hp]; [|by right].
      left. exists x. split; [by right|done].
    + apply always_bind, always_bind, drop_held; [lia|]. do 2 constructor.
      apply Hbad. left. exists t. split; [by left|done].
Qed.

Section tree.
Context (L : list (nat * nat)).
Hypothesis L_covers : covers L 0 n.
Notation count := (λ c, kept apply1 (items_of input c)).
Notation cs := (count <$> L).
Notation ctx := (mkCtx (prefix_sums 0 cs) cs).
Notation bound i := (sum_list (take i cs)).
Notation D lo hi := (slots_of BOut (bound lo) (bound hi)).

(** What output slot [j] is to hold: an output of the leaf it belongs to. *)
Fixpoint place_in (L : list (nat * nat)) (j : nat) : option R :=
  match L with
  | [] => None
  | c :: L => if bool_decide (j < count c)%nat then leaf_out input apply2 c !! j else place_in L (j - count c)
  end.
Definition placed (l : loc) : option (nat + R) := Some (inr (default inhabitant (place_in L l.2))).

(** A leaf that kept as many items as counted. *)
Definition leaf_ok (c : nat * nat) : Prop :=
  ∃ ys, filter_map_seq apply2 (items_of input c) = Val ys ∧ length ys = count c.

Lemma place_in_at i c j : L !! i = Some c → (j < count c)%nat →
  place_in L (bound i + j) = leaf_out input apply2 c !! j.
Proof.
  clear L_covers. revert i. induction L as [|c' L' IH]; intros i Hi Hj; [done|].
  destruct i as [|i]; cbn in Hi |- *.
  - injection Hi as ->. by rewrite bool_decide_eq_true_2.
  - rewrite bool_decide_eq_false_2 by lia.
    replace (count c' + sum_list (take i (count <$> L')) + j - count c')%nat
      with (sum_list (take i (count <$> L')) + j)%nat by lia.
    by apply IH.
Qed.

(** The contract of the recursion over the leaves [lo, hi): all slots written,
    or none live. *)
Definition place_post (lo hi : nat) (r : res P unit) (m : mem (nat + R)) (es : list X) : Prop :=
  es = [] ∧
  match r with
  | Val _ => m = own (D lo hi) placed ∧ ∀ i c, (lo ≤ i < hi)%nat → L !! i = Some c → leaf_ok c
  | Unwind p => m = own (D lo hi) (λ _, None) ∧ place_bad input p
  end.

Lemma place_leaf_spec i s e : L !! i = Some (s, e) →
  always steal (place_leaf more fewer input apply2 ctx s e i) (own (D i (S i)) (λ _, None))
    (place_post i (S i)).
Proof using L_covers.
  intros Hi. pose proof (lookup_lt_Some _ _ _ Hi) as Hlt.
  pose proof (covers_bounds _ _ _ _ L_covers (list_elem_of_lookup_2 _ _ _ Hi)) as Hb.
  assert (cs !! i = Some (count (s, e))) as Hc by (by rewrite list_lookup_fmap, Hi).
  unfold place_leaf. cbn [bounds counts]. rewrite prefix_sums_lookup by (rewrite length_fmap; lia).
  rewrite Hc, with_slice_ok by (cbn in Hb; lia). cbn [Nat.add].
  rewrite (sum_list_take_S _ _ _ Hc).
  rewrite (own_ext _ (λ _, None) (holds (bound i) [])) by (intros l _; unfold holds; by rewrite lookup_nil).
  apply (place_loop_spec (bound i) (count (s, e)) (e - s) (items_of input (s, e)) []); [cbn; lia| |].
  - intros ys Hys Hlen. cbn [app] in Hlen. split; [done|]. rewrite (sum_list_take_S _ _ _ Hc). split.
    + cbn [app]. apply own_ext. intros [b j] [Hb' Hj]%elem_of_slots. cbn [fst snd] in *. subst b.
      unfold placed, holds. cbn [snd]. replace j with (bound i + (j - bound i))%nat at 2 by lia.
      rewrite (place_in_at i (s, e)) by (done || lia). unfold leaf_out. rewrite Hys.
      destruct (lookup_lt_is_Some_2 ys (j - bound i)) as [y ->]; [cbv beta in *; lia|]. done.
    + intros i' c' Hi' Hc'. replace i' with i in Hc' by lia. rewrite Hi in Hc'. injection Hc' as <-. by exists ys.
  - intros p Hp. split; [done|]. rewrite (sum_list_take_S _ _ _ Hc). split; [done|].
    destruct Hp as [(x & Hx & Hp)|[Hp Hne]].
    + left. exists x. split; [by eapply items_of_sub|done].
    + right. split; [done|]. destruct (kept_differ apply1 apply2 (items_of input (s, e))) as (x & Hx & Hd); [cbn [length Nat.add] in Hne; cbv beta in *; lia|].
      exists x. split; [by eapply items_of_sub|done].
Qed.

Lemma drop_leaf_range_spec (lo hi : nat) (mf : mem (nat + R)) Q :
  (lo ≤ hi ≤ length L)%nat → (∀ f, own (D lo hi) f ##ₘ mf) →
  Q tt (own (D lo hi) (λ _, None) ∪ mf) [] →
  always (X := X) steal (drop_leaf_range ctx lo hi) (own (D lo hi) placed ∪ mf) Q.
Proof.
  intros Hl Hd HQ. unfold drop_leaf_range. cbn [bounds].
  rewrite !prefix_sums_lookup by (rewrite length_fmap; lia). cbn [Nat.add].
  eapply always_mono.
  - apply always_frame; [|done]. apply (drop_each_spec _ _ _ _ _ _ (λ _ m es, m = own (D lo hi) (λ _, None) ∧ es = [])).
    + intros j Hj. split; [apply elem_of_slots; cbn [fst snd]; (split; [done|lia])|]. by eexists.
    + intros g Hg1 _. split; [|done]. apply own_ext. intros [b j] [Hb Hj]%elem_of_slots. cbn [fst snd] in *.
      apply Hg1; cbn [fst snd]; [done|lia].
  - by intros [] m' es (m0 & -> & _ & -> & ->).
Qed.

Lemma place_range_split (lo mid hi : nat) : (lo ≤ mid ≤ hi)%nat →
  D lo hi = D lo mid ∪ D mid hi ∧ D lo mid ## D mid hi.
Proof.
  intros Hm. pose proof (sum_list_take_mono cs lo mid ltac:(lia)).
  pose proof (sum_list_take_mono cs mid hi ltac:(lia)). split.
  - apply set_eq. intros [b i]. rewrite elem_of_union, !elem_of_slots. cbn [fst snd].
    destruct (decide (i < bound mid)%nat); naive_solver lia.
  - intros [b i] H1%elem_of_slots H2%elem_of_slots. cbn [fst snd] in *. lia.
Qed.

(** An internal node past its join. *)
Lemma place_node_spec (lo mid hi : nat) (l r : res P unit) m1 m2 :
  (lo ≤ mid ≤ hi)%nat → (hi ≤ length L)%nat → place_post lo mid l m1 [] → place_post mid hi r m2 [] →
  always steal
    match l, r with
    | Val _, Val _ => Done (Val tt)
    | Unwind p, Unwind _ => Done (Unwind p)
    | Unwind p, Val _ => drop_leaf_range ctx mid hi ;; Done (Unwind p)
    | Val _, Unwind p => drop_leaf_range ctx lo mid ;; Done (Unwind p)
    end (m1 ∪ m2) (place_post lo hi).
Proof.
  intros Hm Hhi [_ Hl] [_ Hr]. destruct (place_range_split lo mid hi Hm) as [HD Hdj].
  assert (∀ f g : loc → option (nat + R), own (D lo mid) f ##ₘ own (D mid hi) g) as Hd
    by (intros; by apply own_disjoint).
  destruct l as [[]|p], r as [[]|q].
  - destruct Hl as [-> Hl], Hr as [-> Hr]. constructor. split; [done|]. rewrite own_union, <- HD.
    split; [done|]. intros i c Hi Hc. destruct (decide (i < mid)%nat); [apply (Hl i)|apply (Hr i)]; (done || lia).
  - destruct Hl as [-> Hl], Hr as [-> Hr]. apply always_bind.
    apply drop_leaf_range_spec; [lia|by intros; apply Hd|]. constructor. split; [done|].
    by rewrite own_union, <- HD.
  - destruct Hl as [-> Hl], Hr as [-> Hr]. apply always_bind. rewrite map_union_comm by apply Hd.
    apply drop_leaf_range_spec; [lia|by intros f; symmetry; apply Hd|]. constructor. split; [done|].
    by rewrite own_union, (union_comm_L (D mid hi)), <- HD.
  - destruct Hl as [-> Hl], Hr as [-> Hr]. constructor. split; [done|]. by rewrite own_union, <- HD.
Qed.

Lemma place_spec splits s e base :
  leaves_at L splits s e base →
  let hi := (base + split_leaf_count (e - s) splits)%nat in
  (hi ≤ length L)%nat →
  always steal (place_filter_rec more fewer input apply2 ctx splits s e base)
    (own (D base hi) (λ _, None)) (place_post base hi).
Proof using L_covers some_schedule.
  cbv zeta. revert s e base. induction splits as [|k IH]; intros s e base Hat Hhi.
  { apply leaves_at_leaf in Hat as [Hl Hc]; [|done]. rewrite Hc, Nat.add_1_r. by apply place_leaf_spec. }
  cbn [place_filter_rec]. case_bool_decide as Hlen.
  { apply leaves_at_leaf in Hat as [Hl Hc]; [|cbn; by rewrite bool_decide_eq_true_2].
    rewrite Hc, Nat.add_1_r. by apply place_leaf_spec. }
  apply leaves_at_node in Hat as (Hat1 & Hat2 & Hc); [|lia]. rewrite Hc in *.
  set (mid := (s + (e - s) / 2)%nat) in *.
  set (b1 := (base + split_leaf_count (mid - s) k)%nat) in *. rewrite Nat.add_assoc in *. fold b1 in Hhi |- *.
  set (hi := (b1 + split_leaf_count (e - mid) k)%nat) in *.
  destruct (place_range_split base b1 hi) as [HD Hdj]; [lia|]. rewrite HD, <- own_union. apply always_bind.
  eapply always_join_captured; [done|apply IH; [done|lia]|apply IH; [done|lia]|by apply own_disjoint|].
  fold b1 hi. intros l r m1 m2 e1 e2 es Hl Hr Hd Hes. pose proof (proj1 Hl) as ->. pose proof (proj1 Hr) as ->.
  apply Permutation_nil_r in Hes as ->.
  pose proof (place_node_spec base b1 hi l r m1 m2 ltac:(lia) Hhi Hl Hr) as Hn. split.
  - destruct l, r; eapply always_mono; try exact Hn; done.
  - intros _ Hv p ->. destruct l as [u|]; [|done]. eapply always_mono; [exact Hn|]. done.
Qed.

(** All leaves succeeded: the slots hold the sequential result. *)
Lemma placed_all : (∀ c, c ∈ L → leaf_ok c) →
  ∃ ys, filter_map_seq apply2 (concat (items_of input <$> L)) = Val ys ∧ length ys = sum_list cs ∧
    ∀ j, (j < length ys)%nat → place_in L j = ys !! j.
Proof.
  clear L_covers. induction L as [|c L' IH]; intros Hok; [by exists []|].
  destruct (Hok c) as (ys & Hys & Hlen); [by left|].
  destruct IH as (zs & Hzs & Hlen' & Hin); [intros; apply Hok; by right|].
  exists (ys ++ zs). cbn [fmap list_fmap concat]. rewrite filter_map_seq_app. split_and!.
  - rewrite Hys. cbn. by rewrite Hzs.
  - rewrite length_app. cbn. cbv beta in Hlen. lia.
  - intros j Hj. cbn [place_in]. rewrite length_app in Hj. cbv beta in *. case_bool_decide.
    + unfold leaf_out. rewrite Hys. by rewrite lookup_app_l by lia.
    + rewrite lookup_app_r, Hin by lia. f_equal. lia.
Qed.
End tree.
End pass2.

(** ** Both passes *)

Section both.
Context {T R X P : Type} `{!Inhabited R} (steal : bool → bool) (more fewer : P) (input : list T).
Context (apply1 apply2 : T → res P (option R)).
Hypothesis some_schedule : ∃ c, steal c = true.
Notation n := (length input).

(** Pass 2 over the slots it allocates, beside the counters. *)
Lemma place_all_spec depth (L := leaf_ranges depth 0 n) (cs := (λ c, kept apply1 (items_of input c)) <$> L)
    (mf : mem (nat + R)) Q :
  (∀ D f, (∀ l, l ∈ D → l.1 = BOut) → own D f ##ₘ mf) → buffers_gone mf →
  (∀ r m, buffers_gone m →
     match r with
     | Val ys => filter_map_seq apply2 input = Val ys
     | Unwind p => place_bad more fewer apply1 apply2 input p
     end → Q r m []) →
  always (X := X) steal
    (bindr (place_filter_rec more fewer input apply2 (mkCtx (prefix_sums 0 cs) cs) depth 0 n 0) (λ _,
       plet v := into_vec BOut 0 (sum_list cs) in Done (Val v)))
    (uninit (sum_list cs) ∪ mf) Q.
Proof using Type*.
  intros Hmf Hgone HQ. assert (covers L 0 n) as HL by (apply leaf_ranges_cover; lia).
  assert (split_leaf_count (n - 0) depth = length L) as Hlen by (subst L; by rewrite length_leaf_ranges).
  assert (sum_list (take (length L) cs) = sum_list cs) as Htot.
  { f_equal. apply take_ge. subst cs. by rewrite length_fmap. }
  assert (∀ l, l ∈ slots_of BOut 0 (sum_list cs) → l.1 = BOut) as Hout by (by intros l [? _]%elem_of_slots).
  apply always_bind. eapply always_mono.
  { apply always_frame; [|by apply Hmf].
    pose proof (place_spec (X := X) steal more fewer input apply1 apply2 some_schedule L HL depth 0 n 0) as Hp.
    cbv zeta in Hp. rewrite Hlen in Hp. cbn [Nat.add] in Hp. fold cs in Hp. rewrite Htot in Hp.
    apply Hp; [by intros i c|lia]. }
  intros r m es (m0 & -> & _ & -> & Hr). fold cs in Hr. rewrite Htot in Hr.
  change (sum_list (take 0 cs)) with 0%nat in Hr. destruct r as [[]|p]; destruct Hr as [-> Hr].
  - destruct (placed_all input apply1 apply2 L) as (ys & Hys & Hl & Hin).
    { intros c [i Hi]%list_elem_of_lookup. apply (Hr i); [|done]. apply lookup_lt_Some in Hi. lia. }
    rewrite (covers_all _ _ HL) in Hys. fold cs in Hl. apply always_bind. eapply always_mono.
    { apply always_frame; [|by apply Hmf].
      apply (into_vec_spec _ _ _ (λ j, default inhabitant (place_in input apply1 apply2 L j)) _ _ _
        (λ v m es, v = ys ∧ buffers_gone m ∧ es = [])).
      - intros j Hj. split; [apply elem_of_slots; cbn [fst snd]; (split; [done|lia])|done].
      - intros g Hg _. split_and!; [|apply buffers_gone_own; intros l [? ?]%elem_of_slots _; apply Hg; [done|lia]|done].
        apply list_eq. intros j. rewrite list_lookup_fmap. destruct (decide (j < sum_list cs)%nat).
        + rewrite lookup_seq_lt by done. cbn. rewrite Hin by lia.
          by destruct (lookup_lt_is_Some_2 ys j) as [y ->]; [lia|].
        + by rewrite (lookup_ge_None_2 ys), lookup_ge_None_2 by (rewrite ?length_seq; lia). }
    intros v m es (m1 & -> & _ & -> & Hg & ->). constructor. rewrite !app_nil_r.
    apply HQ; [by apply buffers_gone_union|done].
  - constructor. rewrite !app_nil_r. apply HQ; [|done]. apply buffers_gone_union; [|done].
    by apply buffers_gone_own.
Qed.

(** [fused_filter_collect_by_ref_ctp] for every batch, split budget and pair
    of passes, under every interleaving. *)
Theorem ctp_correct depth :
  always_phases (X := X) steal (fused_filter_collect_by_ref_ctp more fewer input apply1 apply2 depth) ∅
    (λ r m es, buffers_gone m ∧ es = [] ∧
       match r with
       | Val ys => filter_map_seq apply2 input = Val ys
       | Unwind p => filter_map_seq apply1 input = Unwind p ∨
           (∃ ys, filter_map_seq apply1 input = Val ys) ∧ place_bad more fewer apply1 apply2 input p
       end).
Proof using Type*.
  set (L := leaf_ranges depth 0 n). set (cs := (λ c, kept apply1 (items_of input c)) <$> L).
  assert (covers L 0 n) as HL by (apply leaf_ranges_cover; lia).
  assert (split_leaf_count n depth = length cs) as Hlen.
  { subst cs L. by rewrite length_fmap, length_leaf_ranges, Nat.sub_0_r. }
  apply always_alloc; [apply map_disjoint_empty_r|]. rewrite (right_id_L ∅ (∪)). cbn [always_phases].
  apply always_bind. eapply always_mono; [by apply count_spec|]. fold L. intros r m es (-> & -> & ->).
  set (DC := slots_of BCell 0 (length L)).
  destruct (filter_map_seq apply1 input) as [ys|p] eqn:H1; cbn [rbind].
  - assert (∀ j c, cs !! j = Some c → (BCell, 0 + j)%nat ∈ DC ∧
      counted input apply1 L (BCell, 0 + j)%nat = Some (inl c)) as Hcells.
    { intros j c Hj. cbn [Nat.add]. subst cs. rewrite list_lookup_fmap in Hj.
      destruct (L !! j) as [c'|] eqn:Hj'; [|done]. injection Hj as <-. split.
      - apply elem_of_slots. cbn. apply lookup_lt_Some in Hj'. split; [done|lia].
      - unfold counted. cbn [snd]. rewrite Hj'. cbn. unfold leaf_count.
        rewrite <- (covers_all _ _ HL) in H1. apply filter_map_concat in H1 as (outs & H2 & _).
        apply Forall2_fmap_l in H2. destruct (Forall2_lookup_l _ _ _ _ _ H2 Hj') as (o & _ & Ho).
        rewrite Ho. by rewrite (filter_map_kept _ _ _ Ho). }
    apply always_bind. rewrite Hlen. apply scan_bounds_spec; [done|]. apply always_bind.
    apply load_cells_spec; [done|]. constructor. cbn [fst snd app Nat.add].
    assert (∀ D f, (∀ l, l ∈ D → l.1 = BOut) → own D f ##ₘ own DC (counted (R := R) input apply1 L)) as Hd.
    { intros D f HD. apply own_disjoint. intros l Hl%HD [Hc _]%elem_of_slots. congruence. }
    split; [by apply Hd; intros l [? _]%elem_of_slots|]. cbn [always_phases call].
    apply place_all_spec; [done| |].
    { apply buffers_gone_own. by intros l [? _]%elem_of_slots ?. }
    intros r m Hm Hr. split_and!; [done|done|]. destruct r as [|p]; [done|]. right. split; [by exists ys|done].
  - constructor. split; [apply map_disjoint_empty_l|]. cbn [always_phases call]. rewrite (left_id_L ∅ (∪)).
    constructor. split_and!; [|done|by left]. apply buffers_gone_own. by intros l [? _]%elem_of_slots ?.
Qed.
End both.

(** A chain that answers the same in both passes: the sequential result. *)
Theorem ctp_sequential {T R X P : Type} `{!Inhabited R} (steal : bool → bool) (more fewer : P)
    (input : list T) (apply : T → res P (option R)) depth :
  (∃ c, steal c = true) →
  always_phases (X := X) steal (fused_filter_collect_by_ref_ctp more fewer input apply apply depth) ∅
    (λ r m es, buffers_gone m ∧ es = [] ∧ r = filter_map_seq apply input).
Proof.
  intros Hs. eapply always_phases_mono; [by apply ctp_correct|]. intros r m es (Hm & -> & Hr).
  split_and!; [done|done|]. destruct r as [ys|p]; [done|]. destruct Hr as [?|[[ys Hys] Hbad]]; [done|].
  destruct Hbad as [(x & Hx & Hp)|[_ (x & _ & Hd)]]; [|done].
  destruct (filter_map_val _ _ _ Hys x Hx) as [o Ho]. congruence.
Qed.
