(* ===== verification/FilterCompact.v ===== *)
(** * Write-then-compact filter collect

    [fused_filter_collect_by_ref_wtc] of
    [src/crates/youpipe/src/builder/typed/fused.rs]: every leaf runs the chain
    once over its range [start, end) of the borrowed input, writes its
    survivors to the low end of its slice of one buffer with a slot per item,
    and records where they are and how many.  A compaction then moves the
    segments together: in place and in order on the calling thread, or, for
    large payloads, in parallel into a second buffer of the exact size.

    [wtc_correct]: the result is the sequential one, whatever panics and
    however the tree is scheduled; the in-place sweep never overwrites a
    survivor it has not moved, and no output is lost or left behind. *)

From S2P Require Import Prelude SleepCounters Config ForkJoin FusedTree FusedPlan HybridDispatch.
From S2P Require Import FusedCollect FusedStages FusedReduce LeafTree.
Local Open Scope prog_scope.

(** The items are borrowed, so the input buffer is free to be the destination
    of the parallel compaction. *)
Notation BDest := BIn (only parsing).

(** [WtcLeafMeta] and [WtcSeg]. *)
Record WtcLeafMeta : Type := mkMeta { meta_start : nat; meta_kept : nat }.
Record WtcSeg : Type := mkSeg { src : nat; dst : nat; len : nat }.

Section wtc.
Context {T R X P : Type}.
Notation prg := (prog (WtcLeafMeta + R) X).
Context (input : list T) (apply : T → res P (option R)).

(** *** The stage pass *)

(** The loop of a leaf; [WtcLeafGuard] drops the written prefix on unwind. *)
Fixpoint write_loop (start written : nat) (items : list T) : prg (res P nat) :=
  match items with
  | [] => Done (Val written)
  | t :: ts =>
      match apply t with
      | Unwind p => drop_each BOut start written ;; Done (Unwind p)
      | Val None => write_loop start written ts
      | Val (Some o) => write_out (start + written) o (write_loop start (S written) ts)
      end
  end.

Definition write_leaf (start end_ leaf : nat) : prg (res P unit) :=
  with_slice input start end_ (λ items,
    bindr (write_loop start 0 items) (λ kept, store_cell leaf (mkMeta start kept) (Done (Val tt)))).

(** [write_filter_rec]; [leaf] is where the subtree's part of the metadata
    starts. *)
Definition write_filter_rec (splits start end_ leaf : nat) : prg (res P unit) :=
  leaf_tree write_leaf (λ _ _, tt) splits start end_ leaf.

(** The walk over the metadata that drops what the completed leaves wrote. *)
Fixpoint drop_metas (i todo : nat) : prg unit :=
  match todo with
  | O => Done tt
  | S todo => load_cell i (λ m,
      drop_range BOut (meta_start m) (meta_start m + meta_kept m) ;; drop_metas (S i) todo)
  end.

(** *** The compaction *)

(** The segments and the number of survivors. *)
Fixpoint make_segs (total : nat) (meta : list WtcLeafMeta) : list WtcSeg * nat :=
  match meta with
  | [] => ([], total)
  | m :: meta =>
      let st := make_segs (total + meta_kept m) meta in
      (mkSeg (meta_start m) total (meta_kept m) :: st.1, st.2)
  end.

(** [ptr::copy] of values that are not used at the source any more: all are
    read, then all are written. *)
Fixpoint put_block {A} (b : buf) (i : nat) (vs : list R) (k : prg A) : prg A :=
  match vs with
  | [] => k
  | v :: vs => Put (b, i) (inr v) (put_block b (S i) vs k)
  end.
Definition move_block {A} (b : buf) (s : nat) (b' : buf) (d n : nat) (k : prg A) : prg A :=
  plet vs := into_vec b s n in put_block b' d vs k.

(** The sequential sweep in place. *)
Fixpoint sweep (segs : list WtcSeg) : prg unit :=
  match segs with
  | [] => Done tt
  | s :: segs =>
      if bool_decide (0 < len s)%nat && bool_decide (dst s ≠ src s)
      then move_block BOut (src s) BOut (dst s) (len s) (sweep segs)
      else sweep segs
  end.

(** [compact_filter_rec]. *)
Fixpoint compact_loop (segs : list WtcSeg) : prg (res P unit) :=
  match segs with
  | [] => Done (Val tt)
  | s :: segs =>
      if bool_decide (0 < len s)%nat
      then move_block BOut (src s) BDest (dst s) (len s) (compact_loop segs)
      else compact_loop segs
  end.
Definition compact_filter_rec (segs : list WtcSeg) (splits start end_ : nat) : prg (res P unit) :=
  join_tree (λ s e, with_slice segs s e compact_loop) (λ _ _, Val tt) splits start end_.

(** Payloads of this size are moved in parallel; [size] is the size of an
    output in bytes. *)
Definition WTC_PARALLEL_COMPACT_MIN_BYTES : Z := 256 * 2 ^ 10.
Definition parallel_compact (size : Z) (total : nat) : bool :=
  bool_decide (WTC_PARALLEL_COMPACT_MIN_BYTES ≤ Z.min (Z.of_nat total * size) (2 ^ 64 - 1))%Z.

(** [fused_filter_collect_by_ref_wtc]. *)
Definition zero_metas (leaves : nat) : mem (WtcLeafMeta + R) :=
  own (slots_of BCell 0 leaves) (λ _, Some (inl (mkMeta 0 0))).
Definition fused_filter_collect_by_ref_wtc (size : Z) (depth : nat) :
    phases (WtcLeafMeta + R) X (res P (list R)) :=
  let n := length input in
  let leaves := split_leaf_count n depth in
  alloc (uninit n ∪ zero_metas leaves)
    (Phase
       (plet r := write_filter_rec depth 0 n 0 in
        match r with
        | Unwind p => drop_metas 0 leaves ;; Done (Unwind p)
        | Val _ => plet meta := load_cells 0 leaves in Done (Val (make_segs 0 meta))
        end)
       (λ r, match r with
         | Val (_, total) =>
             if parallel_compact size total then own (slots_of BDest 0 total) (λ _, None) else ∅
         | Unwind _ => ∅
         end)
       (λ r, Last (call r (λ st,
          if parallel_compact size st.2 then
            bindr (compact_filter_rec st.1 depth 0 (length st.1)) (λ _,
              plet v := into_vec BDest 0 st.2 in Done (Val v))
          else
            sweep st.1 ;;
            plet v := into_vec BOut 0 st.2 in Done (Val v))))).
End wtc.

(** ** The stage pass *)

Section write.
Context {T R X P : Type} (steal : bool → bool) (input : list T) (apply : T → res P (option R)).
Hypothesis some_schedule : ∃ c, steal c = true.
Notation n := (length input).

Lemma write_loop_spec s e items (ws : list R) Q :
  (s + length ws + length items ≤ e)%nat →
  (∀ ys, filter_map_seq apply items = Val ys →
     Q (Val (length (ws ++ ys))) (own (slots_of BOut s e) (holds s (ws ++ ys))) []) →
  (∀ p, filter_map_seq apply items = Unwind p → Q (Unwind p) (own (slots_of BOut s e) (λ _, None)) []) →
  always (X := X) steal (write_loop apply s (length ws) items) (own (slots_of BOut s e) (holds s ws)) Q.
Proof.
  revert ws Q. induction items as [|t ts IH]; intros ws Q He Hok Hbad; cbn [write_loop].
  - constructor. specialize (Hok [] eq_refl). by rewrite app_nil_r in Hok.
  - cbn [filter_map_seq length] in Hok, Hbad, He. destruct (apply t) as [[o|]|p] eqn:Et; cbn in Hok, Hbad.
    + eapply always_put; [rewrite own_in; [|apply elem_of_slots; cbn; (split; [done|lia])]|].
      { unfold holds. cbn [snd]. by rewrite lookup_ge_None_2 by lia. }
      rewrite own_insert, holds_snoc; [|intros l [? ?]%elem_of_slots; (split; [done|lia])
        |apply elem_of_slots; cbn; (split; [done|lia])].
      replace (S (length ws)) with (length (ws ++ [o])) by (rewrite length_app; cbn; lia).
      apply IH.
      { rewrite length_app. cbn. lia. }
      { intros ys Hys. rewrite <- app_assoc. apply Hok. cbn. by rewrite Hys. }
      intros p Hp. apply Hbad. by rewrite Hp.
    + apply IH; [lia| |].
      { intros ys Hys. apply Hok. by rewrite Hys. }
      intros p Hp. apply Hbad. by rewrite Hp.
    + apply always_bind, drop_held; [lia|]. constructor. by apply Hbad.
Qed.

(** What slot [j] holds after the pass, and the metadata of a leaf. *)
Fixpoint slot_in (L : list (nat * nat)) (j : nat) : option R :=
  match L with
  | [] => None
  | c :: L => if bool_decide (j < c.2)%nat then leaf_out input apply c !! (j - c.1)%nat else slot_in L j
  end.
Definition meta_of (c : nat * nat) : WtcLeafMeta :=
  match filter_map_seq apply (items_of input c) with
  | Val ys => mkMeta c.1 (length ys)
  | Unwind _ => mkMeta 0 0
  end.
Definition wrote (L : list (nat * nat)) (l : loc) : option (WtcLeafMeta + R) :=
  match l.1 with
  | BOut => inr <$> slot_in L l.2
  | BCell => Some (inl (from_option meta_of (mkMeta 0 0) (L !! l.2)))
  | BIn => None
  end.
Definition fresh (l : loc) : option (WtcLeafMeta + R) :=
  match l.1 with BCell => Some (inl (mkMeta 0 0)) | _ => None end.

Lemma slot_in_at L s m i c j : covers L s m → L !! i = Some c → (c.1 ≤ j < c.2)%nat →
  slot_in L j = leaf_out input apply c !! (j - c.1)%nat.
Proof.
  revert s i. induction L as [|c' L IH]; intros s i HL Hi Hj; [done|].
  destruct HL as (<- & Hc & HL). destruct i as [|i]; cbn in Hi |- *.
  - injection Hi as ->. by rewrite bool_decide_eq_true_2 by lia.
  - pose proof (covers_bounds _ _ _ _ HL (list_elem_of_lookup_2 _ _ _ Hi)).
    rewrite bool_decide_eq_false_2 by lia. by apply (IH _ i HL).
Qed.

Section pass.
Context (L : list (nat * nat)).
Hypothesis L_covers : covers L 0 n.
Notation start i := (leaf_start L n i).
Notation D lo hi := (slots_of BOut (start lo) (start hi) ∪ slots_of BCell lo hi).

Lemma range_split (lo mid hi : nat) : (lo ≤ mid ≤ hi)%nat →
  D lo hi = D lo mid ∪ D mid hi ∧ D lo mid ## D mid hi.
Proof using L_covers.
  clear some_schedule. intros Hm. pose proof (leaf_start_mono L 0 n lo mid L_covers ltac:(lia)).
  pose proof (leaf_start_mono L 0 n mid hi L_covers ltac:(lia)). split.
  - apply set_eq. intros [b i]. rewrite !elem_of_union, !elem_of_slots. cbn [fst snd].
    destruct (decide (i < start mid)%nat), (decide (i < mid)%nat); naive_solver lia.
  - intros [b i] H1 H2. rewrite !elem_of_union, !elem_of_slots in H1, H2. cbn [fst snd] in *.
    destruct b; naive_solver lia.
Qed.

Lemma write_leaf_spec i s e : L !! i = Some (s, e) →
  always (X := X) steal (write_leaf input apply s e i) (own (D i (S i)) fresh)
    (λ r m es, m = own (D i (S i)) (wrote L) ∧ es = [] ∧
       r = rbind (filter_map_seq apply (items_of input (s, e))) (λ _, Val tt)).
Proof using L_covers.
  intros Hi. pose proof (covers_bounds _ _ _ _ L_covers (list_elem_of_lookup_2 _ _ _ Hi)) as Hb. cbn in Hb.
  pose proof (leaf_start_succ _ _ _ _ _ L_covers Hi) as He. cbn in He.
  assert (start i = s) as Hs by (unfold leaf_start; by rewrite Hi).
  rewrite Hs, He. set (C := slots_of BCell i (S i)). set (O := slots_of BOut s e).
  assert (∀ j, (s ≤ j < e)%nat → slot_in L j = leaf_out input apply (s, e) !! (j - s)%nat) as Hslot
    by (intros j Hj; by apply (slot_in_at L 0 n i (s, e))).
  assert (wrote L (BCell, i) = Some (inl (meta_of (s, e)))) as Hmeta by (unfold wrote; cbn; by rewrite Hi).
  assert (∀ f g : loc → option (WtcLeafMeta + R), own O f ##ₘ own C g) as Hd.
  { intros. apply own_disjoint. intros l [H1 _]%elem_of_slots [H2 _]%elem_of_slots. congruence. }
  unfold write_leaf. rewrite with_slice_ok by lia. apply always_bind. rewrite <- own_union.
  rewrite (own_ext O fresh (holds s [])) by (intros [b j] [Hb' _]%elem_of_slots; cbn in Hb'; by subst b).
  eapply always_mono.
  { apply always_frame; [|apply Hd]. apply (write_loop_spec s e (items_of input (s, e)) []
      (λ r m es, es = [] ∧ r = rbind (filter_map_seq apply (items_of input (s, e))) (λ ys, Val (length ys)) ∧
         m = own O (holds s (leaf_out input apply (s, e))))).
    - unfold items_of. cbn. rewrite length_take. lia.
    - intros ys Hys. unfold leaf_out. rewrite Hys. done.
    - intros p Hp. unfold leaf_out. rewrite Hp. split_and!; [done|done|].
      apply own_ext. intros l _. unfold holds. by rewrite lookup_nil. }
  intros r m es (m0 & -> & _ & -> & -> & ->).
  assert (∀ l, l ∈ O → holds s (leaf_out input apply (s, e)) l = wrote L l) as HO.
  { intros [b j] [Hb' Hj]%elem_of_slots. cbn in Hb', Hj. subst b. unfold wrote, holds. cbn [fst snd]. by rewrite Hslot. }
  rewrite (own_glue O C _ fresh (λ l, match l.1 with BCell => fresh l | _ => wrote L l end)).
  2: { intros l Hl. rewrite HO by done. apply elem_of_slots in Hl as [Hb' _]. by rewrite Hb'. }
  2: { intros l [Hb' _]%elem_of_slots. by rewrite Hb'. }
  unfold meta_of in Hmeta. destruct (filter_map_seq apply (items_of input (s, e))) as [ys|p]; cbn [rbind].
  - apply store_cell_spec; [apply elem_of_union_r, elem_of_slots; cbn; (split; [done|lia])|]. constructor.
    split_and!; [|done|done]. apply own_ext. intros l Hl. case_decide as Hc; [by rewrite Hc, Hmeta|].
    apply elem_of_union in Hl as [[-> _]%elem_of_slots|[Hb' Hj]%elem_of_slots]; [done|].
    destruct l as [b j]; cbn [fst snd] in *. subst b. by replace j with i in Hc by lia.
  - constructor. split_and!; [|done|done]. apply own_ext. intros l Hl.
    apply elem_of_union in Hl as [[-> _]%elem_of_slots|[Hb' Hj]%elem_of_slots]; [done|].
    destruct l as [b j]; cbn [fst snd] in *. subst b. replace j with i by lia. by rewrite Hmeta.
Qed.

Lemma write_spec depth : L = leaf_ranges depth 0 n →
  always (X := X) steal (write_filter_rec input apply depth 0 n 0) (own (D 0 (length L)) fresh)
    (λ r m es, m = own (D 0 (length L)) (wrote L) ∧ es = [] ∧
       r = rbind (filter_map_seq apply input) (λ _, Val tt)).
Proof using L_covers some_schedule.
  intros HL. assert (length L = 0 + split_leaf_count (n - 0) depth)%nat as -> by (by rewrite HL, length_leaf_ranges).
  eapply always_mono.
  { apply (leaf_tree_spec _ (λ _ _, tt) steal L (λ lo hi, D lo hi) _ (wrote L)
      (λ lo hi r, r = rbind (filter_map_seq apply (concat (items_of input <$> seg lo hi L))) (λ _, Val tt)));
      [| | | |done|].
    - intros i s e Hi. eapply always_mono; [by apply write_leaf_spec|].
      intros r m es (-> & -> & ->). rewrite (seg_one _ _ _ Hi). cbn [fmap list_fmap concat]. by rewrite app_nil_r.
    - intros lo mid hi Hm. by apply range_split.
    - intros lo mid hi Hm. by apply range_split.
    - intros lo mid hi l r Hm -> ->. rewrite (seg_split L lo mid hi), fmap_app, concat_app, filter_map_seq_app by done.
      destruct (filter_map_seq apply _) as [ys|]; cbn; [|done]. by destruct (filter_map_seq apply _).
    - rewrite HL. by intros i c. }
  intros r m es (-> & -> & ->). split_and!; [done|done|].
  rewrite HL, <- length_leaf_ranges. cbn [Nat.add]. rewrite seg_all, covers_all; [done|by rewrite <- HL].
Qed.

(** The walk over the metadata: the leaves below [i] hold nothing any more. *)
Definition walked (i : nat) (l : loc) : option (WtcLeafMeta + R) :=
  match l.1 with BOut => if bool_decide (l.2 < start i)%nat then None else wrote L l | _ => wrote L l end.

(** The outputs of leaf [i] are live in the first slots of its range, and no
    other slot of the range is. *)
Lemma leaf_slots_live i c j : L !! i = Some c → (c.1 ≤ j < c.2)%nat →
  (j < c.1 + length (leaf_out input apply c))%nat ∧ is_Some (wrote L (BOut, j)) ∨
  (c.1 + length (leaf_out input apply c) ≤ j)%nat ∧ wrote L (BOut, j) = None.
Proof using L_covers.
  intros Hi Hj. unfold wrote. cbn [fst snd]. rewrite (slot_in_at L 0 n i c j L_covers Hi Hj).
  destruct (decide (j < c.1 + length (leaf_out input apply c))%nat); [left|right].
  - split; [done|]. destruct (lookup_lt_is_Some_2 (leaf_out input apply c) (j - c.1)) as [y ->]; [lia|]. by eexists.
  - split; [lia|]. by rewrite lookup_ge_None_2 by lia.
Qed.

Lemma drop_metas_spec i todo Q : (i + todo = length L)%nat →
  Q tt (own (D 0 (length L)) (walked (length L))) [] →
  always (X := X) steal (drop_metas i todo) (own (D 0 (length L)) (walked i)) Q.
Proof using L_covers.
  revert i. induction todo as [|todo IH]; intros i Hi HQ; cbn [drop_metas].
  { constructor. by replace i with (length L) by lia. }
  destruct (lookup_lt_is_Some_2 L i) as [c Hc]; [lia|].
  assert (start i = c.1) as Hs by (unfold leaf_start; by rewrite Hc).
  pose proof (leaf_start_succ _ _ _ _ _ L_covers Hc) as He.
  pose proof (covers_bounds _ _ _ _ L_covers (list_elem_of_lookup_2 _ _ _ Hc)) as Hb.
  pose proof (leaf_out_le input apply c) as Hle.
  pose proof (leaf_start_mono L 0 n (S i) (length L) L_covers ltac:(lia)) as Hlast.
  apply (load_cell_spec _ _ _ _ (meta_of c)).
  { apply elem_of_union_r, elem_of_slots. cbn. split; [done|lia]. }
  { unfold walked, wrote. cbn. by rewrite Hc. }
  apply always_bind. unfold drop_range.
  assert (∃ st, drop_each (T := WtcLeafMeta) (R := R) (X := X) BOut (meta_start (meta_of c))
      (meta_start (meta_of c) + meta_kept (meta_of c) - meta_start (meta_of c)) =
      drop_each BOut st (length (leaf_out input apply c)) ∧ (0 < length (leaf_out input apply c) → st = c.1)%nat)
    as (st & -> & Hst).
  { unfold meta_of, leaf_out. destruct (filter_map_seq _ _) as [ys|p]; cbn [meta_start meta_kept].
    - exists c.1. split; [f_equal; lia|done].
    - exists 0%nat. cbn. split; [done|lia]. }
  apply drop_each_spec.
  - intros j Hj. rewrite Hst in Hj by lia. split.
    { apply elem_of_union_l, elem_of_slots. cbn [fst snd]. split; [done|].
      change (start 0) with (leaf_start L n 0). pose proof (leaf_start_mono L 0 n 0 i L_covers ltac:(lia)). lia. }
    unfold walked. cbn [fst snd]. rewrite bool_decide_eq_false_2 by lia.
    destruct (leaf_slots_live i c j Hc) as [[_ ?]|[? _]]; [lia|done|lia].
  - intros g Hg1 Hg2. cbn [app]. erewrite own_ext; [apply (IH (S i)); [lia|exact HQ]|].
    intros [b j] Hl. destruct (decide (b = BOut)) as [->|Hne].
    2: { rewrite Hg2 by (by left). unfold walked. by destruct b. }
    unfold walked. cbn [fst snd]. rewrite He.
    destruct (decide (st ≤ j < st + length (leaf_out input apply c))%nat) as [Hin|Hout].
    { rewrite Hg1 by done. rewrite Hst in Hin by lia. by rewrite bool_decide_eq_true_2 by lia. }
    rewrite Hg2 by (by right). unfold walked. cbn [fst snd]. rewrite Hs.
    destruct (decide (j < c.1)%nat); [by rewrite !bool_decide_eq_true_2 by lia|].
    rewrite (bool_decide_eq_false_2 (j < c.1)%nat) by lia.
    case_bool_decide; [|done]. destruct (leaf_slots_live i c j Hc) as [[? _]|[_ ?]]; [lia| |done].
    rewrite Hst in Hout by lia. lia.
Qed.

Lemma walked_start : own (D 0 (length L)) (walked 0) = own (D 0 (length L)) (wrote L).
Proof using L_covers.
  apply own_ext. intros [b j] Hl. unfold walked. cbn [fst snd]. destruct b; [done| |done].
  rewrite bool_decide_eq_false_2; [done|]. apply elem_of_union in Hl as [[_ Hj]%elem_of_slots|[? _]%elem_of_slots]; [|done].
  cbn [snd] in Hj. lia.
Qed.

Lemma walked_end : buffers_gone (own (D 0 (length L)) (walked (length L))).
Proof.
  apply buffers_gone_own. intros [b j] Hl Hb. cbn in Hb. unfold walked. cbn [fst snd]. destruct b; [done| |done].
  apply elem_of_union in Hl as [[_ Hj]%elem_of_slots|[? _]%elem_of_slots]; [|done].
  by rewrite bool_decide_eq_true_2 by apply Hj.
Qed.
End pass.
End write.

(** ** Moving blocks *)

Section blocks.
Context {R X : Type} (steal : bool → bool).
Implicit Types (D : gset loc) (f g : loc → option (WtcLeafMeta + R)).

Lemma put_block_spec {A : Type} b D f i (vs : list R) (k : prog (WtcLeafMeta + R) X A) Q :
  (∀ j, (i ≤ j < i + length vs)%nat → (b, j) ∈ D ∧ f (b, j) = None) →
  (∀ g, (∀ j, (i ≤ j < i + length vs)%nat → g (b, j) = inr <$> vs !! (j - i)%nat) →
        (∀ l, l.1 ≠ b ∨ ¬ (i ≤ l.2 < i + length vs)%nat → g l = f l) → always steal k (own D g) Q) →
  always steal (put_block b i vs k) (own D f) Q.
Proof.
  revert i f. induction vs as [|v vs IH]; intros i f Hf HQ; cbn [put_block].
  { apply HQ; [cbn; intros; lia|done]. }
  cbn [length] in *. destruct (Hf i) as [Hi Hfi]; [lia|].
  eapply always_put; [rewrite own_in by done; by rewrite Hfi|]. rewrite own_insert by done. apply IH.
  - intros j Hj. rewrite decide_False by (intros [= ->]; lia). apply Hf. lia.
  - intros g Hg1 Hg2. apply HQ.
    + intros j Hj. destruct (decide (j = i)) as [->|].
      * rewrite Hg2 by (right; cbn; lia). rewrite decide_True by done. by rewrite Nat.sub_diag.
      * rewrite Hg1 by lia. replace (j - i)%nat with (S (j - S i)) by lia. done.
    + intros [b' j] Hl. cbn [fst snd] in *. rewrite Hg2 by (cbn; destruct Hl; [by left|right; lia]).
      rewrite decide_False; [done|]. intros [= -> ->]. destruct Hl; [done|lia].
Qed.

(** A block of live slots moved to dead ones: the destination holds it, the
    rest of the source is dead. *)
Lemma move_block_spec {A : Type} b s b' d (vs : list R) D f (k : prog (WtcLeafMeta + R) X A) Q :
  (∀ j, (j < length vs)%nat → (b, s + j)%nat ∈ D ∧ f (b, s + j)%nat = inr <$> vs !! j) →
  (∀ j, (j < length vs)%nat → (b', d + j)%nat ∈ D ∧
     (f (b', d + j)%nat = None ∨ b = b' ∧ (s ≤ d + j < s + length vs)%nat)) →
  (∀ g, (∀ j, (j < length vs)%nat → g (b', d + j)%nat = inr <$> vs !! j) →
        (∀ l, l.1 = b → (s ≤ l.2 < s + length vs)%nat → (b = b' → ¬ (d ≤ l.2 < d + length vs)%nat) → g l = None) →
        (∀ l, (l.1 ≠ b ∨ ¬ (s ≤ l.2 < s + length vs)%nat) → (l.1 ≠ b' ∨ ¬ (d ≤ l.2 < d + length vs)%nat) →
           g l = f l) → always steal k (own D g) Q) →
  always steal (move_block b s b' d (length vs) k) (own D f) Q.
Proof.
  intros Hsrc Hdst HQ. destruct vs as [|v0 vs0] eqn:Evs.
  { apply (HQ f); [intros; cbn in *; lia|intros; cbn in *; lia|done]. }
  rewrite <- Evs in *. clear Evs vs0. assert (Inhabited R) as HR by exact (populate v0).
  apply always_bind. apply (into_vec_spec steal b D (λ j, vs !!! (j - s)%nat)).
  - intros j Hj. destruct (Hsrc (j - s)%nat) as [Hin Hf]; [lia|].
    replace (s + (j - s))%nat with j in Hin, Hf by lia. split; [done|]. rewrite Hf.
    by rewrite (list_lookup_lookup_total_lt vs) by lia.
  - intros g1 Hg1 Hg1'. cbn [app].
    assert ((λ j, vs !!! (j - s)%nat) <$> seq s (length vs) = vs) as ->.
    { apply list_eq. intros j. rewrite list_lookup_fmap. destruct (decide (j < length vs)%nat).
      - rewrite lookup_seq_lt by done. cbn. replace (s + j - s)%nat with j by lia.
        by rewrite (list_lookup_lookup_total_lt vs) by lia.
      - by rewrite (lookup_ge_None_2 vs), lookup_ge_None_2 by (rewrite ?length_seq; lia). }
    apply put_block_spec.
    + intros j Hj. destruct (Hdst (j - d)%nat) as [Hin Hf]; [lia|].
      replace (d + (j - d))%nat with j in Hin, Hf by lia. split; [done|].
      destruct (decide (b' = b ∧ (s ≤ j < s + length vs)%nat)) as [[-> Hr]|Hr]; [by apply Hg1|].
      rewrite Hg1' by (cbn; destruct (decide (b' = b)); [right|left]; naive_solver). naive_solver.
    + intros g Hg Hg'. apply HQ.
      * intros j Hj. rewrite Hg by lia. f_equal. f_equal. lia.
      * intros l Hb Hl Hout. rewrite Hg'; [by apply Hg1|].
        destruct (decide (l.1 = b')) as [Hb'|]; [right|by left]. apply Hout. congruence.
      * intros l H1 H2. by rewrite Hg', Hg1'.
Qed.
End blocks.

(** ** The compaction *)

Section compact.
Context {T R X P : Type} (steal : bool → bool) (input : list T) (apply : T → res P (option R)).
Hypothesis some_schedule : ∃ c, steal c = true.
Notation out := (leaf_out input apply).
Notation outs L := (concat (out <$> L)).
(** The metadata of leaves that all succeeded. *)
Notation metas L := ((λ c, mkMeta c.1 (length (out c))) <$> L).

Lemma make_segs_total L d : (make_segs d (metas L)).2 = (d + length (outs L))%nat.
Proof.
  revert d. induction L as [|c L IH]; intros d; cbn; [lia|]. rewrite IH, length_app. lia.
Qed.

(** The sweep over the segments from slot [s] on: the slots hold [done], then
    nothing up to [s], then what the stage pass wrote. *)
Definition swept (L : list (nat * nat)) (done : list R) (s : nat) (l : loc) : option (WtcLeafMeta + R) :=
  match l.1 with
  | BOut =>
      if bool_decide (l.2 < length done)%nat then inr <$> done !! l.2
      else if bool_decide (l.2 < s)%nat then None else inr <$> slot_in input apply L l.2
  | _ => wrote input apply [] l
  end.

Lemma swept_stays c L (done : list R) j :
  (length done ≤ c.1 ≤ c.2)%nat → (length (out c) = 0 ∨ length done = c.1)%nat →
  swept (c :: L) done c.1 (BOut, j) = swept L (done ++ out c) c.2 (BOut, j).
Proof.
  intros Hd Hc. unfold swept. cbn [fst snd slot_in]. rewrite length_app.
  pose proof (leaf_out_le input apply c) as Hle.
  destruct (decide (j < length done)%nat).
  { rewrite !bool_decide_eq_true_2 by lia. by rewrite lookup_app_l. }
  rewrite (bool_decide_eq_false_2 (j < length done)%nat) by lia.
  destruct (decide (j < length done + length (out c))%nat).
  { rewrite (bool_decide_eq_true_2 (j < length done + _)%nat), (bool_decide_eq_false_2 (j < c.1)%nat) by lia.
    rewrite bool_decide_eq_true_2, lookup_app_r by lia. do 2 f_equal. lia. }
  rewrite (bool_decide_eq_false_2 (j < length done + _)%nat) by lia.
  destruct (decide (j < c.1)%nat); [by rewrite !bool_decide_eq_true_2 by lia|].
  rewrite (bool_decide_eq_false_2 (j < c.1)%nat) by lia.
  case_bool_decide; [|done]. by rewrite lookup_ge_None_2 by lia.
Qed.

Lemma sweep_spec (D : gset loc) n L (done : list R) s f Q :
  covers L s n → (length done ≤ s)%nat → (∀ j, (j < n)%nat → (BOut, j) ∈ D) →
  (∀ j, (j < n)%nat → f (BOut, j) = swept L done s (BOut, j)) →
  (∀ g, (∀ l, l.1 ≠ BOut → g l = f l) →
        (∀ j, (j < n)%nat → g (BOut, j) = inr <$> (done ++ outs L) !! j) → Q tt (own D g) []) →
  always (X := X) steal (sweep (make_segs (length done) (metas L)).1) (own D f) Q.
Proof.
  revert done s f. induction L as [|c L IH]; intros done s f HL Hd HD Hf HQ; cbn [fmap list_fmap make_segs sweep fst].
  { constructor. cbn in HL. subst s. apply HQ; [done|]. intros j Hj. rewrite Hf by done. unfold swept. cbn.
    rewrite app_nil_r. case_bool_decide; [done|]. rewrite bool_decide_eq_true_2 by done.
    by rewrite lookup_ge_None_2 by lia. }
  destruct HL as (<- & Hc & HL). cbn [meta_start meta_kept src dst len].
  pose proof (leaf_out_le input apply c) as Hle. pose proof (covers_le _ _ _ HL) as Hn.
  assert (∀ g, (∀ l, l.1 ≠ BOut → g l = f l) →
    (∀ j, (j < n)%nat → g (BOut, j) = swept L (done ++ out c) c.2 (BOut, j)) →
    always (X := X) steal (sweep (make_segs (length done + length (out c)) (metas L)).1) (own D g) Q) as Hnext.
  { intros g Hg1 Hg2. rewrite <- length_app. apply (IH _ c.2); [done|rewrite length_app; lia|done|done|].
    intros g' Hg1' Hg2'. apply HQ; [intros l Hl; by rewrite Hg1', Hg1|].
    intros j Hj. rewrite Hg2' by done. by rewrite <- app_assoc. }
  case_bool_decide as Hlen; cbn [andb].
  2: { apply Hnext; [done|]. intros j Hj. rewrite Hf by done. apply swept_stays; [lia|left; lia]. }
  case_bool_decide as Hne.
  2: { apply Hnext; [done|]. intros j Hj. rewrite Hf by done. apply swept_stays; [lia|right].
       by destruct (decide (length done = c.1)). }
  apply move_block_spec.
  - intros j Hj. split; [apply HD; lia|]. rewrite Hf by lia. unfold swept. cbn [fst snd slot_in].
    rewrite !bool_decide_eq_false_2, bool_decide_eq_true_2 by lia. do 2 f_equal. lia.
  - intros j Hj. split; [apply HD; lia|]. destruct (decide (length done + j < c.1)%nat); [left|right; split; [done|lia]].
    rewrite Hf by lia. unfold swept. cbn [fst snd]. by rewrite bool_decide_eq_false_2, bool_decide_eq_true_2 by lia.
  - intros g Hg1 Hg2 Hg3. apply Hnext.
    + intros l Hl. apply Hg3; by left.
    + intros j Hj. unfold swept. cbn [fst snd]. rewrite length_app.
      destruct (decide (length done ≤ j < length done + length (out c))%nat) as [Hin|Hout].
      { rewrite bool_decide_eq_true_2, lookup_app_r by lia.
        specialize (Hg1 (j - length done)%nat ltac:(lia)).
        by replace (length done + (j - length done))%nat with j in Hg1 by lia. }
      destruct (decide (c.1 ≤ j < c.1 + length (out c))%nat) as [Hsrc|Hnsrc].
      { rewrite bool_decide_eq_false_2, bool_decide_eq_true_2 by lia. by apply Hg2. }
      rewrite Hg3 by (right; cbn; lia). rewrite Hf by done. unfold swept. cbn [fst snd slot_in].
      destruct (decide (j < length done)%nat).
      { rewrite !bool_decide_eq_true_2 by lia. by rewrite lookup_app_l. }
      rewrite (bool_decide_eq_false_2 (j < length done + length (out c))%nat),
        (bool_decide_eq_false_2 (j < length done)%nat) by lia.
      destruct (decide (j < c.1)%nat); [by rewrite !bool_decide_eq_true_2 by lia|].
      rewrite (bool_decide_eq_false_2 (j < c.1)%nat) by lia.
      case_bool_decide; [|done]. by rewrite lookup_ge_None_2 by lia.
Qed.

Section parallel.
Context (L : list (nat * nat)) (n : nat).
Hypothesis L_covers : covers L 0 n.
Notation start i := (leaf_start L n i).
Notation dest i := (length (outs (take i L))).
Notation D lo hi := (slots_of BOut (start lo) (start hi) ∪ slots_of BDest (dest lo) (dest hi)).
Notation segs := (make_segs 0 (metas L)).1.

Definition before (l : loc) : option (WtcLeafMeta + R) :=
  match l.1 with BOut => inr <$> slot_in input apply L l.2 | _ => None end.
Definition moved (l : loc) : option (WtcLeafMeta + R) :=
  match l.1 with BDest => inr <$> outs L !! l.2 | _ => None end.

Lemma make_segs_lookup (L' : list (nat * nat)) d i c : L' !! i = Some c →
  (make_segs d (metas L')).1 !! i = Some (mkSeg c.1 (d + length (outs (take i L'))) (length (out c))).
Proof.
  revert d i. induction L' as [|c' L' IH]; intros d i Hi; [done|]. destruct i as [|i]; cbn in Hi |- *.
  - injection Hi as ->. by rewrite Nat.add_0_r.
  - rewrite (IH _ i Hi). do 2 f_equal. rewrite length_app. lia.
Qed.

Lemma length_make_segs (L' : list (nat * nat)) d : length (make_segs d (metas L')).1 = length L'.
Proof. revert d. induction L' as [|c L' IH]; intros d; cbn; [done|]. by rewrite IH. Qed.

Lemma dest_succ i c : L !! i = Some c → dest (S i) = (dest i + length (out c))%nat.
Proof. intros Hi. rewrite (take_S_r _ _ _ Hi), fmap_app, concat_app, length_app. cbn. by rewrite app_nil_r. Qed.

Lemma dest_mono i j : (i ≤ j)%nat → (dest i ≤ dest j)%nat.
Proof.
  intros Hij. replace j with (i + (j - i))%nat by lia.
  rewrite <- take_take_drop, fmap_app, concat_app, length_app. lia.
Qed.

(** The outputs of leaf [i] are those from [dest i] on. *)
Lemma outs_at i c j : L !! i = Some c → (j < length (out c))%nat → outs L !! (dest i + j)%nat = out c !! j.
Proof.
  intros Hi Hj. assert (outs L = outs (take i L) ++ out c ++ outs (drop (S i) L)) as ->.
  { rewrite <- (take_drop_middle L i c Hi) at 1. by rewrite fmap_app, concat_app. }
  rewrite lookup_app_r by lia. replace (dest i + j - dest i)%nat with j by lia. by rewrite lookup_app_l.
Qed.

Lemma compact_range_split (lo mid hi : nat) : (lo ≤ mid ≤ hi)%nat →
  D lo hi = D lo mid ∪ D mid hi ∧ D lo mid ## D mid hi.
Proof using L_covers.
  clear some_schedule. intros Hm. pose proof (leaf_start_mono L 0 n lo mid L_covers ltac:(lia)).
  pose proof (leaf_start_mono L 0 n mid hi L_covers ltac:(lia)).
  pose proof (dest_mono lo mid ltac:(lia)). pose proof (dest_mono mid hi ltac:(lia)). split.
  - apply set_eq. intros [b i]. rewrite !elem_of_union, !elem_of_slots. cbn [fst snd].
    destruct (decide (i < start mid)%nat), (decide (i < dest mid)%nat); naive_solver lia.
  - intros [b i] Ha Hb. rewrite !elem_of_union, !elem_of_slots in Ha, Hb. cbn [fst snd] in *.
    destruct b; naive_solver lia.
Qed.

(** The segments below [i] have been moved. *)
Definition half (i : nat) (l : loc) : option (WtcLeafMeta + R) :=
  match l.1 with
  | BOut => if bool_decide (l.2 < start i)%nat then None else before l
  | BDest => if bool_decide (l.2 < dest i)%nat then moved l else None
  | BCell => None
  end.

Lemma half_step i c g : L !! i = Some c →
  (∀ j, (j < length (out c))%nat → g (BDest, dest i + j)%nat = inr <$> out c !! j) →
  (∀ j, (c.1 ≤ j < c.1 + length (out c))%nat → g (BOut, j) = None) →
  (∀ l, l.1 ≠ BOut ∨ ¬ (c.1 ≤ l.2 < c.1 + length (out c))%nat →
        l.1 ≠ BDest ∨ ¬ (dest i ≤ l.2 < dest i + length (out c))%nat → g l = half i l) →
  ∀ l, g l = half (S i) l.
Proof using L_covers.
  intros Hi Hg1 Hg2 Hg3 [b j]. pose proof (leaf_out_le input apply c) as Hle.
  pose proof (covers_bounds _ _ _ _ L_covers (list_elem_of_lookup_2 _ _ _ Hi)) as Hb.
  unfold half. cbn [fst snd]. rewrite (leaf_start_succ _ _ _ _ _ L_covers Hi), (dest_succ i c Hi).
  assert (start i = c.1) as Hs by (unfold leaf_start; by rewrite Hi). destruct b.
  - destruct (decide (dest i ≤ j < dest i + length (out c))%nat).
    + specialize (Hg1 (j - dest i)%nat ltac:(lia)). pose proof (outs_at i c (j - dest i) Hi ltac:(lia)) as Ho.
      replace (dest i + (j - dest i))%nat with j in Hg1, Ho by lia.
      rewrite bool_decide_eq_true_2 by lia. unfold moved. cbn [fst snd]. by rewrite Ho.
    + rewrite Hg3; [|by left|by right]. unfold half. cbn [fst snd].
      by do 2 case_bool_decide; try lia.
  - destruct (decide (c.1 ≤ j < c.1 + length (out c))%nat).
    + rewrite bool_decide_eq_true_2 by lia. by apply Hg2.
    + rewrite Hg3; [|by right|by left]. unfold half. cbn [fst snd]. rewrite Hs.
      case_bool_decide; [by rewrite bool_decide_eq_true_2 by lia|]. case_bool_decide; [|done].
      unfold before. cbn [fst snd]. rewrite (slot_in_at input apply L 0 n i c j L_covers Hi) by lia.
      by rewrite lookup_ge_None_2 by lia.
  - apply Hg3; by left.
Qed.

Lemma compact_loop_spec (lo hi i : nat) Q :
  (lo ≤ i ≤ hi)%nat → (hi ≤ length L)%nat → Q (Val tt) (own (D lo hi) (half hi)) [] →
  always (X := X) steal (compact_loop (P := P) (seg i hi segs)) (own (D lo hi) (half i)) Q.
Proof using L_covers.
  intros Hi Hhi HQ. remember (hi - i)%nat as k eqn:Hk. revert i Hi Hk.
  induction k as [|k IH]; intros i Hi Hk.
  { assert (i = hi) as -> by lia. unfold seg. rewrite <- Hk. by constructor. }
  destruct (lookup_lt_is_Some_2 L i) as [c Hc]; [lia|].
  pose proof (leaf_out_le input apply c) as Hle. pose proof (dest_succ i c Hc) as Hds.
  pose proof (leaf_start_succ _ _ _ _ _ L_covers Hc) as He.
  assert (start i = c.1) as Hs by (unfold leaf_start; by rewrite Hc).
  pose proof (leaf_start_mono L 0 n lo i L_covers ltac:(lia)).
  pose proof (leaf_start_mono L 0 n (S i) hi L_covers ltac:(lia)).
  pose proof (dest_mono lo i ltac:(lia)). pose proof (dest_mono (S i) hi ltac:(lia)).
  pose proof (covers_bounds _ _ _ _ L_covers (list_elem_of_lookup_2 _ _ _ Hc)) as Hb.
  rewrite (seg_split _ i (S i) hi), (seg_one _ i _ (make_segs_lookup L 0 i c Hc)) by lia.
  cbn [app compact_loop len src dst Nat.add].
  assert (∀ g, (∀ l, g l = half (S i) l) →
    always (X := X) steal (compact_loop (P := P) (seg (S i) hi segs)) (own (D lo hi) g) Q) as Hnext.
  { intros g Hg. rewrite (own_ext _ g (half (S i))) by done. apply IH; lia. }
  case_bool_decide as Hlen.
  2: { apply Hnext, (half_step i c); [done|intros; lia|intros; lia|done]. }
  apply move_block_spec.
  - intros j Hj. split; [apply elem_of_union_l, elem_of_slots; cbn [fst snd]; (split; [done|lia])|].
    unfold half, before. cbn [fst snd]. rewrite bool_decide_eq_false_2 by lia.
    rewrite (slot_in_at input apply L 0 n i c _ L_covers Hc) by lia. do 2 f_equal. lia.
  - intros j Hj. split; [apply elem_of_union_r, elem_of_slots; cbn [fst snd]; (split; [done|lia])|]. left.
    unfold half. cbn [fst snd]. by rewrite bool_decide_eq_false_2 by lia.
  - intros g Hg1 Hg2 Hg3. apply Hnext, (half_step i c); [done|done| |done].
    intros j Hj. by apply Hg2.
Qed.

(** [compact_filter_rec] moves every survivor to its place. *)
Lemma compact_wave_spec depth :
  always (X := X) steal (compact_filter_rec (P := P) segs depth 0 (length segs))
    (own (D 0 (length L)) before)
    (λ r m es, r = Val tt ∧ m = own (D 0 (length L)) moved ∧ es = []).
Proof using L_covers some_schedule.
  rewrite length_make_segs. eapply always_mono.
  { apply (join_tree_spec _ (λ _ _, Val tt) steal (λ lo hi, D lo hi) before moved (length L) (λ _ _ r, r = Val tt));
      [|by intros; apply compact_range_split|by intros; apply compact_range_split|by intros ? ? ? ? ? ? ? -> ->|done|lia].
    intros lo hi Hse. rewrite with_slice_ok by (rewrite length_make_segs; lia).
    assert (∀ l, l ∈ D lo hi → (l.1 = BOut ∧ (start lo ≤ l.2 < start hi) ∨ l.1 = BDest ∧ (dest lo ≤ l.2 < dest hi))%nat) as Hin.
    { intros l [?%elem_of_slots|?%elem_of_slots]%elem_of_union; [by left|by right]. }
    rewrite (own_ext _ before (half lo)).
    2: { intros [b j] Hl%Hin. cbn [fst snd] in Hl. unfold half. cbn [fst snd].
         destruct Hl as [[-> Hj]|[-> Hj]]; by rewrite bool_decide_eq_false_2 by lia. }
    apply compact_loop_spec; [lia|lia|]. split_and!; [|done|done]. apply own_ext.
    intros [b j] Hl%Hin. cbn [fst snd] in Hl. unfold half. cbn [fst snd].
    destruct Hl as [[-> Hj]|[-> Hj]]; by rewrite bool_decide_eq_true_2 by lia. }
  by intros r m es (-> & -> & ->).
Qed.
End parallel.
End compact.

(** ** The whole collect *)

Section wtc_correct.
Context {T R X P : Type} `{!Inhabited R} (steal : bool → bool) (input : list T) (apply : T → res P (option R)).
Hypothesis some_schedule : ∃ c, steal c = true.
Context (depth : nat).
Notation n := (length input).
Notation L := (leaf_ranges depth 0 n).
Notation out := (leaf_out input apply).
Notation DO := (slots_of BOut 0 n).
Notation DC := (slots_of BCell 0 (length L)).
Notation ev_none := (λ r m es, buffers_gone m ∧ es = [] ∧ r = filter_map_seq apply input).

Lemma ranges_cover : covers L 0 n.
Proof. apply leaf_ranges_cover. lia. Qed.

Lemma ranges_ends : leaf_start L n 0 = 0%nat ∧ leaf_start L n (length L) = n.
Proof.
  unfold leaf_start. rewrite (lookup_ge_None_2 L (length L)) by done. split; [|done].
  pose proof ranges_cover as HL. destruct L as [|c L'] eqn:E; cbn in HL |- *; [lia|by destruct HL].
Qed.

(** When the chain panics on no item, every leaf recorded its survivors. *)
Lemma metas_ok ys : filter_map_seq apply input = Val ys →
  meta_of input apply <$> L = (λ c, mkMeta c.1 (length (out c))) <$> L ∧ concat (out <$> L) = ys.
Proof.
  rewrite <- (covers_all _ _ ranges_cover) at 1. intros (os & H2 & ->)%filter_map_concat.
  apply Forall2_fmap_l in H2. split.
  - apply list_fmap_ext. intros i c Hi. destruct (Forall2_lookup_l _ _ _ _ _ H2 Hi) as (o & _ & Ho).
    unfold meta_of, leaf_out. by rewrite Ho.
  - f_equal. apply list_eq_Forall2, Forall2_fmap_l. eapply Forall2_impl; [exact H2|].
    intros c o Ho. change (out c = o). unfold leaf_out. by rewrite Ho.
Qed.

(** Reading the result out of a buffer that holds it. *)
Lemma into_vec_result (b : buf) (D : gset loc) (f : loc → option (WtcLeafMeta + R)) (ys : list R) (mf : mem (WtcLeafMeta + R)) Q :
  (∀ j, (j < length ys)%nat → (b, j) ∈ D ∧ f (b, j) = inr <$> ys !! j) →
  (∀ l, l ∈ D → l.1 ≠ BCell → l.1 ≠ b ∨ (length ys ≤ l.2)%nat → f l = None) →
  (∀ g, own D g ##ₘ mf) → buffers_gone mf →
  (∀ m, buffers_gone m → Q (Val ys) m []) →
  always (X := X) steal (plet v := into_vec b 0 (length ys) in Done (Val (P := P) v)) (own D f ∪ mf) Q.
Proof.
  intros Hf Hdead Hd Hgone HQ. apply always_bind. eapply always_mono.
  { apply always_frame; [|apply Hd]. apply (into_vec_spec _ _ _ (λ j, ys !!! j) _ _ _
      (λ v m es, v = ys ∧ buffers_gone m ∧ es = [])).
    - intros j Hj. destruct (Hf j) as [Hin ->]; [lia|]. split; [done|].
      by rewrite (list_lookup_lookup_total_lt ys) by lia.
    - intros g Hg1 Hg2. split_and!; [apply lookup_total_seq| |done]. apply buffers_gone_own. intros l Hl Hb.
      destruct (decide (l.1 = b ∧ (l.2 < length ys)%nat)) as [[? ?]|Hn]; [apply Hg1; [done|lia]|].
      assert (l.1 ≠ b ∨ (length ys ≤ l.2)%nat) as Ho.
      { destruct (decide (l.1 = b)); [right|by left]. destruct (decide (l.2 < length ys)%nat); [by destruct Hn|lia]. }
      rewrite Hg2; [by apply Hdead|]. destruct Ho; [by left|right; lia]. }
  intros v m es (m0 & -> & _ & -> & Hg & ->). constructor. rewrite !app_nil_r. apply HQ. by apply buffers_gone_union.
Qed.

Lemma cells_apart (D : gset loc) (f g : loc → option (WtcLeafMeta + R)) :
  (∀ l, l ∈ D → l.1 ≠ BCell) → own D f ##ₘ own DC g.
Proof. intros HD. apply own_disjoint. intros l Hl%HD [Hc _]%elem_of_slots. done. Qed.

Lemma cells_gone (g : loc → option (WtcLeafMeta + R)) : buffers_gone (own DC g).
Proof. apply buffers_gone_own. by intros l [? _]%elem_of_slots ?. Qed.

(** The sequential compaction. *)
Lemma sweep_result ys : filter_map_seq apply input = Val ys →
  always (X := X) steal
    (sweep (make_segs 0 (meta_of input apply <$> L)).1 ;;
     plet v := into_vec BOut 0 (length ys) in Done (Val (P := P) v))
    (own (DO ∪ DC) (wrote input apply L)) ev_none.
Proof.
  intros Hys. destruct (metas_ok ys Hys) as [-> Hout]. apply always_bind.
  assert (length ys ≤ n)%nat as Hlen.
  { rewrite (filter_map_kept _ _ _ Hys). apply kept_le. }
  apply (sweep_spec steal input apply (DO ∪ DC) n L [] 0); [apply ranges_cover|cbn; lia| | |].
  - intros j Hj. apply elem_of_union_l, elem_of_slots. cbn [fst snd]. split; [done|lia].
  - intros j Hj. done.
  - intros g Hg1 Hg2. cbn [app] in Hg2. rewrite Hout in Hg2.
    replace (own (DO ∪ DC) g) with (own (DO ∪ DC) g ∪ ∅) by apply (right_id_L ∅ (∪)).
    apply into_vec_result.
    + intros j Hj. split; [apply elem_of_union_l, elem_of_slots; cbn [fst snd]; (split; [done|lia])|apply Hg2; lia].
    + intros [b j] Hl Hb Hj. cbn [fst snd] in *.
      apply elem_of_union in Hl as [[? Hl]%elem_of_slots|[? _]%elem_of_slots]; [|done]. cbn [fst snd] in *. subst b.
      destruct Hj; [done|]. rewrite Hg2 by lia. by rewrite lookup_ge_None_2 by lia.
    + intros g'. apply map_disjoint_empty_r.
    + intros b i v _. by rewrite lookup_empty.
    + intros m Hm. by rewrite Hys.
Qed.

(** The parallel compaction into a buffer of its own. *)
Lemma compact_result ys : filter_map_seq apply input = Val ys →
  let segs := (make_segs 0 (meta_of input apply <$> L)).1 in
  always (X := X) steal
    (bindr (compact_filter_rec segs depth 0 (length segs)) (λ _,
       plet v := into_vec BDest 0 (length ys) in Done (Val (P := P) v)))
    (own (slots_of BDest 0 (length ys)) (λ _, None) ∪ own (DO ∪ DC) (wrote input apply L)) ev_none.
Proof using Type*.
  intros Hys. cbv zeta. destruct (metas_ok ys Hys) as [-> Hout].
  set (DD := slots_of BDest 0 (length ys)).
  assert (own DD (λ _, None) ∪ own (DO ∪ DC) (wrote input apply L) =
    own (DO ∪ DD) (before input apply L) ∪ own DC (wrote input apply L)) as ->.
  { rewrite <- !own_union, (assoc_L (∪)). f_equal. rewrite map_union_comm.
    2: { apply own_disjoint. intros l [? _]%elem_of_slots [? _]%elem_of_slots. congruence. }
    f_equal; apply own_ext; intros [b j] [Hb _]%elem_of_slots; cbn in Hb; by subst b. }
  assert (∀ l, l ∈ DO ∪ DD → l.1 ≠ BCell) as Hnc.
  { intros l [[? _]%elem_of_slots|[? _]%elem_of_slots]%elem_of_union; congruence. }
  apply always_bind. eapply always_mono.
  { apply always_frame; [|by apply cells_apart].
    pose proof (compact_wave_spec (X := X) (P := P) steal input apply some_schedule L n ranges_cover depth) as Hc.
    destruct ranges_ends as [E1 E2]. rewrite E1, E2 in Hc.
    change (length (concat (out <$> take 0 L))) with 0%nat in Hc. rewrite firstn_all, Hout in Hc. exact Hc. }
  intros r m es (m0 & -> & _ & -> & -> & ->). cbn [app]. apply into_vec_result.
  - intros j Hj. split; [apply elem_of_union_r, elem_of_slots; cbn [fst snd]; (split; [done|lia])|].
    unfold moved. cbn [fst snd]. by rewrite Hout.
  - intros [b j] Hl Hb Hj. unfold moved. cbn [fst snd] in *. destruct b; [|done|done].
    destruct Hj; [done|]. rewrite Hout. by rewrite lookup_ge_None_2 by lia.
  - intros g. by apply cells_apart.
  - apply cells_gone.
  - intros m Hm. by rewrite Hys.
Qed.

(** [fused_filter_collect_by_ref_wtc] for every batch, split budget and output
    size, under every interleaving: the sequential result, exactly, and no
    output left in a buffer. *)
Theorem wtc_correct size :
  always_phases (X := X) steal (fused_filter_collect_by_ref_wtc input apply size depth) ∅ ev_none.
Proof using Type*.
  destruct ranges_ends as [E1 E2]. pose proof ranges_cover as HL.
  assert (split_leaf_count n depth = length L) as Hlen by (by rewrite length_leaf_ranges, Nat.sub_0_r).
  apply always_alloc; [apply map_disjoint_empty_r|]. rewrite (right_id_L ∅ (∪)), Hlen. cbn [always_phases].
  assert (uninit n ∪ zero_metas (length L) = own (DO ∪ DC) (fresh (R := R))) as ->.
  { rewrite <- own_union. f_equal; apply own_ext; intros [b j] [Hb _]%elem_of_slots; cbn in Hb; by subst b. }
  apply always_bind. eapply always_mono.
  { pose proof (write_spec (X := X) steal input apply some_schedule L HL depth eq_refl) as Hw.
    rewrite E1, E2 in Hw. exact Hw. }
  intros r m es (-> & -> & ->). destruct (filter_map_seq apply input) as [ys|p] eqn:Hys; cbn [rbind].
  - apply always_bind. replace (length L) with (length (meta_of input apply <$> L)) at 1 by (by rewrite length_fmap).
    apply load_cells_spec.
    { intros j c Hj. rewrite list_lookup_fmap in Hj. destruct (L !! j) as [c'|] eqn:Hc; [|done]. injection Hj as <-.
      cbn [Nat.add]. split; [|unfold wrote; cbn; by rewrite Hc].
      apply elem_of_union_r, elem_of_slots. apply lookup_lt_Some in Hc. cbn [fst snd]. split; [done|lia]. }
    constructor. cbn [call always_phases]. destruct (make_segs 0 (meta_of input apply <$> L)) as [segs total] eqn:Es.
    assert (total = length ys) as ->.
    { destruct (metas_ok ys Hys) as [Hm Ho]. rewrite Hm in Es.
      pose proof (make_segs_total input apply L 0) as Ht. rewrite Es, Ho in Ht. exact Ht. }
    cbn [fst snd]. destruct (parallel_compact size (length ys)).
    + split.
      { apply own_disjoint. intros l [? _]%elem_of_slots [[? _]%elem_of_slots|[? _]%elem_of_slots]%elem_of_union; congruence. }
      pose proof (compact_result ys Hys) as Hc. rewrite Es, Hys in Hc. exact Hc.
    + split; [apply map_disjoint_empty_l|]. rewrite (left_id_L ∅ (∪)).
      pose proof (sweep_result ys Hys) as Hsw. rewrite Es, Hys in Hsw. exact Hsw.
  - pose proof (walked_start input apply L HL) as Hws. rewrite E1, E2 in Hws. rewrite <- Hws.
    apply always_bind. pose proof (drop_metas_spec (X := X) steal input apply L HL 0 (length L)) as Hdm.
    rewrite E1, E2 in Hdm. apply Hdm; [done|]. constructor. cbn [call always_phases].
    split; [apply map_disjoint_empty_l|]. rewrite (left_id_L ∅ (∪)). constructor. split_and!; [|done|done].
    pose proof (walked_end (R := R) input apply L) as Hend. rewrite E1, E2 in Hend. exact Hend.
Qed.
End wtc_correct.
