(* ===== verification/FusedPipe.v ===== *)
(** * The front end of the fused pipelines

    The terminals of [Pipe], [TryPipe] and [RangePipe]
    ([src/crates/youpipe/src/builder/typed/fused.rs]): the options a builder
    carries and the pool they resolve to, the serial fallbacks
    ([serial_stage_collect] and its siblings), and the terminals themselves -
    [collect], [for_each], [reduce], [fold], [sum], [count], [try_collect],
    [try_reduce], [try_fold] -
    each of which asks [terminal_plan] whether to run serially or hand the
    batch to a parallel core.

    A terminal is a program and the slots it starts from ([terminal_run]): a
    serial run uses none, a parallel one the input and output buffers it
    allocates.  The theorems of this file compose the split plan, the serial loops, the
    fork-join trees, the dispatcher and the chunk cells: every terminal
    computes what a sequential loop over the batch computes. *)

From S2P Require Import Prelude SleepCounters Config ForkJoin FusedTree FusedPlan HybridDispatch.
From S2P Require Import FusedCollect FusedStages FusedReduce ReduceDispatch ParReduce.
Local Open Scope prog_scope.

(** ** Execution options *)

(** [ComputePool::new] and [ComputePool::global], as worker counts
    ([Registry::new] clamps). *)
Definition pool_new (num_workers : Z) : Z := Z.min (Z.max num_workers 1) THREADS_MAX.

Inductive ExecPool : Type := Ref (num_workers : Z) | Owned (num_workers : Z).
Definition as_pool (p : ExecPool) : Z := match p with Ref w | Owned w => w end.

(** [resolve_exec_pool]; [num_cpus] is the machine's core count. *)
Definition resolve_exec_pool (num_cpus : Z) (compute_pool oversubscribe : option Z)
    (compute_workers : Z) : ExecPool :=
  match compute_pool, oversubscribe with
  | Some p, _ => Ref p
  | None, Some factor => Owned (pool_new (Z.min (compute_workers * factor) (2 ^ 64 - 1)))
  | None, None =>
      if bool_decide (compute_workers ≠ num_cpus) then Owned (pool_new compute_workers)
      else Ref (pool_new num_cpus)
  end.

(** [ExecOptions] and the setters every builder has. *)
Record ExecOptions : Type := mkExec {
  config : PipelineConfig;
  compute_pool : option Z;
  oversubscribe : option Z;
}.
Definition resolve (num_cpus : Z) (x : ExecOptions) : ExecPool :=
  resolve_exec_pool num_cpus (compute_pool x) (oversubscribe x) (compute_workers (config x)).

Definition exec_with_config (x : ExecOptions) (c : PipelineConfig) : ExecOptions :=
  mkExec c (compute_pool x) (oversubscribe x).
Definition exec_with_workload (x : ExecOptions) (w : Workload) : ExecOptions :=
  mkExec (with_workload (config x) w) (compute_pool x) (oversubscribe x).
Definition exec_with_compute_workers (x : ExecOptions) (n : Z) : outcome ExecOptions :=
  c ← set_compute_workers (config x) n; mret (mkExec c (compute_pool x) (oversubscribe x)).
Definition exec_with_compute_pool (x : ExecOptions) (pool : Z) : ExecOptions :=
  mkExec (config x) (Some pool) (oversubscribe x).
Definition exec_with_oversubscribe (x : ExecOptions) (factor : Z) : outcome ExecOptions :=
  f ← require_nonzero factor; mret (mkExec (config x) (compute_pool x) (Some f)).

(** ** The builders *)

Record Pipe (P I O : Type) : Type := mkPipe {
  pipe_items : list I;
  pipe_stages : stage P I O;
  pipe_exec : ExecOptions;
}.
Arguments mkPipe {P I O} _ _ _.
Arguments pipe_items {P I O} _.
Arguments pipe_stages {P I O} _.
Arguments pipe_exec {P I O} _.

Record TryPipe (P I O E : Type) : Type := mkTryPipe {
  try_items : list I;
  try_stages : tstage P I O E;
  try_exec : ExecOptions;
}.
Arguments mkTryPipe {P I O E} _ _ _.
Arguments try_items {P I O E} _.
Arguments try_stages {P I O E} _.
Arguments try_exec {P I O E} _.

Record RangePipe (P O : Type) : Type := mkRangePipe {
  range_start : nat;
  range_end : nat;
  range_stages : stage P nat O;
  range_exec : ExecOptions;
}.
Arguments mkRangePipe {P O} _ _ _ _.
Arguments range_start {P O} _.
Arguments range_end {P O} _.
Arguments range_stages {P O} _.
Arguments range_exec {P O} _.

Definition pipe {P I} (num_cpus : Z) (items : list I) : Pipe P I I :=
  mkPipe items Identity (mkExec (default_config num_cpus) None None).
Definition pipe_map {P I O N} (b : Pipe P I O) (f : O → res P N) : Pipe P I N :=
  mkPipe (pipe_items b) (SyncMap (pipe_stages b) f) (pipe_exec b).
Definition pipe_filter {P I O} (b : Pipe P I O) (f : O → res P bool) : Pipe P I O :=
  mkPipe (pipe_items b) (Filter (pipe_stages b) f) (pipe_exec b).
Definition pipe_try_map {P I O N E} (b : Pipe P I O) (f : O → res P (rresult N E)) : TryPipe P I N E :=
  mkTryPipe (pipe_items b) (TryMap (InfallibleChain (pipe_stages b)) f) (pipe_exec b).

Definition try_pipe_map {P I O N E} (b : TryPipe P I O E) (f : O → res P N) : TryPipe P I N E :=
  mkTryPipe (try_items b) (TSyncMap (try_stages b) f) (try_exec b).
Definition try_pipe_filter {P I O E} (b : TryPipe P I O E) (f : O → res P bool) : TryPipe P I O E :=
  mkTryPipe (try_items b) (TFilter (try_stages b) f) (try_exec b).
Definition try_pipe_try_map {P I O N E} (b : TryPipe P I O E) (f : O → res P (rresult N E)) :
    TryPipe P I N E :=
  mkTryPipe (try_items b) (TryMap (try_stages b) f) (try_exec b).
Definition try_pipe_map_err {P I O E E2} (b : TryPipe P I O E) (f : E → res P E2) : TryPipe P I O E2 :=
  mkTryPipe (try_items b) (MapErr (try_stages b) f) (try_exec b).

Definition pipe_range {P} (num_cpus : Z) (start end_ : nat) : RangePipe P nat :=
  mkRangePipe start end_ Identity (mkExec (default_config num_cpus) None None).
Definition range_map {P O N} (b : RangePipe P O) (f : O → res P N) : RangePipe P N :=
  mkRangePipe (range_start b) (range_end b) (SyncMap (range_stages b) f) (range_exec b).
Definition range_filter {P O} (b : RangePipe P O) (f : O → res P bool) : RangePipe P O :=
  mkRangePipe (range_start b) (range_end b) (Filter (range_stages b) f) (range_exec b).
Definition range_try_map {P O N E} (b : RangePipe P O) (f : O → res P (rresult N E)) : TryPipe P nat N E :=
  mkTryPipe (seq (range_start b) (range_end b - range_start b))
    (TryMap (InfallibleChain (range_stages b)) f) (range_exec b).

(** ** Serial loops *)

(** [Iterator::map(f).collect()]. *)
Fixpoint map_collect {T R P} (f : T → res P R) (items : list T) : res P (list R) :=
  match items with
  | [] => Val []
  | t :: ts => rbind (f t) (λ r, rbind (map_collect f ts) (λ rs, Val (r :: rs)))
  end.

Definition serial_stage_collect {P I O} (s : stage P I O) (items : list I) : res P (list O) :=
  on_filter (MAY_FILTER s) (filter_map_seq (apply s) items) (λ H, map_collect (FusedOp s H) items).

(** [serial_stage_for_each]: the closure runs on each surviving output. *)
Fixpoint serial_loop {V X P E T : Type} (consume : T → res P (option X)) (items : list T) :
    prog V (event P E (option X)) (res P unit) :=
  match items with
  | [] => Done (Val tt)
  | t :: ts => call (consume t) (λ x, Emit (Effect x) (serial_loop consume ts))
  end.
Definition serial_stage_for_each {V X P E I O : Type} (s : stage P I O) (f : O → res P X) (items : list I) :
    prog V (event P E (option X)) (res P unit) :=
  on_filter (MAY_FILTER s)
    (serial_loop (λ item, rbind (apply s item) (λ o,
       match o with Some o => rbind (f o) (λ y, Val (Some y)) | None => Val None end)) items)
    (λ H, serial_loop (λ item, rbind (FusedOp s H item) (λ o, rbind (f o) (λ y, Val (Some y)))) items).

(** [serial_stage_try_collect]: push until the first error. *)
Fixpoint try_push_loop {T R P E} (try_apply : T → res P (rresult (option R) E)) (out : list R)
    (items : list T) : res P (rresult (list R) E) :=
  match items with
  | [] => Val (Ok out)
  | t :: ts => qbind (try_apply t) (λ o,
      try_push_loop try_apply (match o with Some r => out ++ [r] | None => out end) ts)
  end.
Definition serial_stage_try_collect {P I O E} (t : tstage P I O E) (items : list I) :
    res P (rresult (list O) E) :=
  on_filter (T_MAY_FILTER t) (try_push_loop (try_apply t) [] items)
    (λ H, try_push_loop (λ item, qbind (FusedTryOp t H item) (λ v, Val (Ok (Some v)))) [] items).

(** Iterators over the chain's output, an option per item ([filter_map] and
    [map] feed the same adaptors). *)
Definition outputs {P I O} (s : stage P I O) (item : I) : res P (option O) :=
  on_filter (MAY_FILTER s) (apply s item) (λ H, rbind (FusedOp s H item) (λ v, Val (Some v))).

(** [Iterator::fold], [Iterator::reduce] and [Iterator::count] over them. *)
Fixpoint iter_fold {T O A P} (next : T → res P (option O)) (f : A → O → res P A) (acc : A)
    (items : list T) : res P A :=
  match items with
  | [] => Val acc
  | t :: ts => rbind (next t) (λ o,
      match o with
      | Some v => rbind (f acc v) (λ a, iter_fold next f a ts)
      | None => iter_fold next f acc ts
      end)
  end.
Fixpoint iter_reduce {T O P} (next : T → res P (option O)) (f : O → O → res P O) (items : list T) :
    res P (option O) :=
  match items with
  | [] => Val None
  | t :: ts => rbind (next t) (λ o,
      match o with
      | Some first => rbind (iter_fold next f first ts) (λ a, Val (Some a))
      | None => iter_reduce next f ts
      end)
  end.
Definition iter_count {T O P} (next : T → res P (option O)) (items : list T) : res P nat :=
  iter_fold next (λ c _, Val (c + 1)%nat) 0%nat items.

(** ** The terminals *)

(** A program and the slots it starts from. *)
Record terminal_run (V X A : Type) : Type := mkRun { heap : mem V; body : prog V X A }.
Arguments mkRun {V X A} _ _.
Arguments heap {V X A} _.
Arguments body {V X A} _.

Section terminals.
Context {P E X : Type}.
(** The payload of an arithmetic overflow's panic, the machine's cores, the
    environment overrides of the plan, the dispatch surface of on-pool callers
    and whether the caller is a worker of the resolved pool. *)
Context (overflow : P) (num_cpus : Z) (oversplit_env slack_env : option Z).
Context (on_pool : bool) (mode : OnpoolHybrid).
Notation ev := (event P E X).

Definition plan_of (n : nat) (x : ExecOptions) : outcome TerminalPlan :=
  terminal_plan oversplit_env slack_env (Z.of_nat n) (workload (config x)) (as_pool (resolve num_cpus x)).
Definition threads_of (x : ExecOptions) : nat := Z.to_nat (as_pool (resolve num_cpus x)).

(** The shape all terminals share. *)
Definition terminal {V A} (n : nat) (x : ExecOptions) (serial : terminal_run V ev (res P A))
    (parallel : SplitPlan → terminal_run V ev (res P A)) : terminal_run V ev (res P A) :=
  match plan_of n x with
  | Ret Serial => serial
  | Ret (Parallel plan) => parallel plan
  | _ => mkRun ∅ (Done (Unwind overflow))
  end.
Definition inline {V A} (r : A) : terminal_run V ev A := mkRun ∅ (Done r).

(** [Pipe::collect]. *)
Definition collect {I O} (b : Pipe P I O) : terminal_run (I + O) ev (res P (list O)) :=
  let items := pipe_items b in
  let s := pipe_stages b in
  let n := length items in
  if bool_decide (n = 0)%nat then inline (Val [])
  else terminal n (pipe_exec b) (inline (serial_stage_collect s items)) (λ plan,
    on_filter (MAY_FILTER s)
      (mkRun (from_vec items) (fused_filter_collect (apply s) n (depth plan)))
      (λ H, mkRun (from_vec items ∪ uninit n)
         (par_index_collect on_pool mode (threads_of (pipe_exec b)) n (FusedOp s H) plan))).

(** [TryPipe::try_collect]. *)
Definition try_collect {I O} (b : TryPipe P I O E) : terminal_run (I + O) ev (res P (rresult (list O) E)) :=
  let items := try_items b in
  let t := try_stages b in
  let n := length items in
  if bool_decide (n = 0)%nat then inline (Val (Ok []))
  else terminal n (try_exec b) (inline (serial_stage_try_collect t items)) (λ plan,
    on_filter (T_MAY_FILTER t)
      (mkRun (from_vec items) (fused_try_filter_collect (try_apply t) n (depth plan)))
      (λ H, mkRun (from_vec items ∪ uninit n)
         (par_index_try_collect on_pool mode (threads_of (try_exec b)) n (FusedTryOp t H) plan))).

(** The parallel arm of the aggregations. *)
Definition reduce_run {I O A} (b : Pipe P I O) (r : Reducer P O A) (plan : SplitPlan) :
    terminal_run (I + A) ev (res P A) :=
  let n := length (pipe_items b) in
  let nt := threads_of (pipe_exec b) in
  mkRun (from_vec (pipe_items b) ∪ empty_cells (chunk_slots_new n (hybrid_num_chunks n plan nt)))
    (par_reduce on_pool mode nt (identity r) (fused_fold (pipe_stages b) r) (combine r) n plan).

(** [Pipe::reduce], [Pipe::fold], [Pipe::sum] and [Pipe::count]. *)
Definition reduce {I O} (b : Pipe P I O) (op : O → O → res P O) : terminal_run (I + option O) ev (res P (option O)) :=
  let n := length (pipe_items b) in
  if bool_decide (n = 0)%nat then inline (Val None)
  else terminal n (pipe_exec b) (inline (iter_reduce (outputs (pipe_stages b)) op (pipe_items b)))
    (reduce_run b (option_reducer op)).
Definition fold {I O A} (b : Pipe P I O) (init : A) (f : A → O → res P A) (c : A → A → res P A) :
    terminal_run (I + A) ev (res P A) :=
  terminal (length (pipe_items b)) (pipe_exec b)
    (inline (iter_fold (outputs (pipe_stages b)) f init (pipe_items b)))
    (reduce_run b (fold_reducer init f c)).
Definition sum {I O} (b : Pipe P I O) (zero : O) (plus : O → O → res P O) : terminal_run (I + O) ev (res P O) :=
  terminal (length (pipe_items b)) (pipe_exec b)
    (inline (iter_fold (outputs (pipe_stages b)) plus zero (pipe_items b)))
    (reduce_run b (sum_reducer zero plus)).
Definition count {I O} (b : Pipe P I O) : terminal_run (I + nat) ev (res P nat) :=
  let n := length (pipe_items b) in
  if bool_decide (n = 0)%nat then inline (Val 0%nat)
  else terminal n (pipe_exec b) (inline (iter_count (outputs (pipe_stages b)) (pipe_items b)))
    (reduce_run b count_reducer).

(** [Ord::min], [Ord::max] for the strict order [lt], and [Pipe::min],
    [Pipe::max]. *)
Definition ord_min {O} (lt : O → O → bool) (a b : O) : O := if lt b a then b else a.
Definition ord_max {O} (lt : O → O → bool) (a b : O) : O := if lt b a then a else b.
Definition pipe_min {I O} (b : Pipe P I O) (lt : O → O → bool) : terminal_run (I + option O) ev (res P (option O)) :=
  reduce b (λ x y, Val (ord_min lt x y)).
Definition pipe_max {I O} (b : Pipe P I O) (lt : O → O → bool) : terminal_run (I + option O) ev (res P (option O)) :=
  reduce b (λ x y, Val (ord_max lt x y)).

(** [TryPipe::try_reduce] and [TryPipe::try_fold], with their serial loops. *)
Fixpoint try_reduce_loop {T O} (try_apply : T → res P (rresult (option O) E)) (op : O → O → res P O)
    (acc : option O) (items : list T) : res P (rresult (option O) E) :=
  match items with
  | [] => Val (Ok acc)
  | t :: ts => qbind (try_apply t) (λ o,
      match o with
      | Some o => rbind (match acc with Some a => op a o | None => Val o end)
          (λ a, try_reduce_loop try_apply op (Some a) ts)
      | None => try_reduce_loop try_apply op acc ts
      end)
  end.
Fixpoint try_fold_loop {T O A} (try_apply : T → res P (rresult (option O) E)) (f : A → O → res P A)
    (acc : A) (items : list T) : res P (rresult A E) :=
  match items with
  | [] => Val (Ok acc)
  | t :: ts => qbind (try_apply t) (λ o,
      match o with
      | Some o => rbind (f acc o) (λ a, try_fold_loop try_apply f a ts)
      | None => try_fold_loop try_apply f acc ts
      end)
  end.
Definition try_reduce_run {I O A} (b : TryPipe P I O E) (r : Reducer P O A) (plan : SplitPlan) :
    terminal_run (I + A) ev (res P (rresult A E)) :=
  let n := length (try_items b) in
  let nt := threads_of (try_exec b) in
  mkRun (from_vec (try_items b) ∪ empty_cells (chunk_slots_new n (hybrid_num_chunks n plan nt)))
    (par_reduce_try on_pool mode nt (identity r) (fused_try_fold (try_stages b) r) (combine r) n plan).
Definition try_reduce {I O} (b : TryPipe P I O E) (op : O → O → res P O) :
    terminal_run (I + option O) ev (res P (rresult (option O) E)) :=
  let n := length (try_items b) in
  if bool_decide (n = 0)%nat then inline (Val (Ok None))
  else terminal n (try_exec b) (inline (try_reduce_loop (try_apply (try_stages b)) op None (try_items b)))
    (try_reduce_run b (option_reducer op)).
Definition try_fold {I O A} (b : TryPipe P I O E) (init : A) (f : A → O → res P A) (c : A → A → res P A) :
    terminal_run (I + A) ev (res P (rresult A E)) :=
  terminal (length (try_items b)) (try_exec b)
    (inline (try_fold_loop (try_apply (try_stages b)) f init (try_items b)))
    (try_reduce_run b (fold_reducer init f c)).

(** [RangePipe::collect]. *)
Definition range_collect {O} (b : RangePipe P O) : terminal_run (nat + O) ev (res P (list O)) :=
  let n := (range_end b - range_start b)%nat in
  let items := seq (range_start b) n in
  let s := range_stages b in
  if bool_decide (n = 0)%nat then inline (Val [])
  else terminal n (range_exec b) (inline (serial_stage_collect s items)) (λ plan,
    on_filter (MAY_FILTER s)
      (mkRun (from_vec items) (fused_filter_collect (apply s) n (depth plan)))
      (λ H, mkRun (uninit n)
         (par_range_gen_collect on_pool mode (threads_of (range_exec b)) (range_start b) n (FusedOp s H) plan))).
End terminals.

Section for_each.
Context {P E X : Type} (overflow : P) (num_cpus : Z) (oversplit_env slack_env : option Z).
Context (on_pool : bool) (mode : OnpoolHybrid).
Notation ev := (event P E (option X)).

(** [Pipe::for_each]. *)
Definition for_each {I O} (b : Pipe P I O) (f : O → res P X) : terminal_run (I + unit) ev (res P unit) :=
  let items := pipe_items b in
  let n := length items in
  if bool_decide (n = 0)%nat then inline (Val tt)
  else terminal overflow num_cpus oversplit_env slack_env n (pipe_exec b)
    (mkRun ∅ (serial_stage_for_each (pipe_stages b) f items))
    (λ plan, mkRun (from_vec items)
       (par_for_each on_pool mode (threads_of num_cpus (pipe_exec b)) n (sink_consume (pipe_stages b) f) plan)).

(** [RangePipe::for_each]. *)
Definition range_for_each {O} (b : RangePipe P O) (f : O → res P X) : terminal_run (nat + unit) ev (res P unit) :=
  let n := (range_end b - range_start b)%nat in
  let items := seq (range_start b) n in
  let s := range_stages b in
  let nt := threads_of num_cpus (range_exec b) in
  if bool_decide (n = 0)%nat then inline (Val tt)
  else terminal overflow num_cpus oversplit_env slack_env n (range_exec b)
    (mkRun ∅ (serial_stage_for_each s f items))
    (λ plan, on_filter (MAY_FILTER s)
       (mkRun (from_vec items) (par_for_each on_pool mode nt n (sink_consume s f) plan))
       (λ _, mkRun ∅ (par_range_gen_for_each on_pool mode nt (range_start b) n (sink_consume s f) plan))).
End for_each.

(** ** Every terminal follows its plan *)

Lemma terminal_plan_cases ov sl (n : nat) w nt :
  match terminal_plan ov sl (Z.of_nat n) w nt with
  | Ret Serial | Panic => True
  | Ret (Parallel _) => (2 ≤ n)%nat ∧ (2 ≤ Z.to_nat nt)%nat
  | _ => False
  end.
Proof.
  unfold terminal_plan, prefers_serial. do 2 (case_bool_decide; [done|]). cbn [orb].
  unfold split_plan_new, split_depth, checked_mul, next_power_log2.
  destruct (bool_decide (nt * _ < _)%Z); [cbn [mbind outcome_mbind]|exact I].
  destruct (bool_decide (Z.max (nt * _) 1 ≤ _)%Z); [cbn [mbind outcome_mbind mret outcome_mret]|exact I].
  destruct (bool_decide (Z.max (Z.of_nat n) 1 ≤ _)%Z); [|exact I].
  cbn [mbind outcome_mbind mret outcome_mret]. lia.
Qed.

Section plan.
Context {P E X : Type} (steal : bool → bool).
Context (overflow : P) (num_cpus : Z) (ov sl : option Z).

Lemma terminal_spec {V A} n x (serial : terminal_run V (event P E X) (res P A)) parallel Q :
  always steal (body serial) (heap serial) Q →
  (∀ plan, (2 ≤ n)%nat → (2 ≤ threads_of num_cpus x)%nat →
     always steal (body (parallel plan)) (heap (parallel plan)) Q) →
  (plan_of num_cpus ov sl n x = Panic → Q (Unwind overflow) ∅ []) →
  let r := terminal overflow num_cpus ov sl n x serial parallel in
  always steal (body r) (heap r) Q.
Proof.
  intros Hs Hp Ho. cbv zeta. unfold terminal.
  pose proof (terminal_plan_cases ov sl n (workload (config x)) (as_pool (resolve num_cpus x))) as Hc.
  unfold plan_of in *. case_match; try done; [case_match; [done|]|].
  - apply Hp; apply Hc.
  - constructor. by apply Ho.
Qed.
End plan.

Lemma no_live_empty {V : Type} : no_live (∅ : mem V).
Proof. intros l v. by rewrite lookup_empty. Qed.

(** ** Collecting *)

Lemma map_collect_pure {P I O} (s : stage P I O) H items :
  map_collect (FusedOp s H) items = filter_map_seq (apply s) items.
Proof.
  induction items as [|t ts IH]; cbn; [done|]. rewrite (FusedOp_apply s H), IH.
  by destruct (FusedOp s H t).
Qed.

Lemma serial_collect_seq {P I O} (s : stage P I O) items :
  serial_stage_collect s items = filter_map_seq (apply s) items.
Proof. unfold serial_stage_collect. apply on_filter_both; [done|]. intros H. apply map_collect_pure. Qed.

Lemma pure_forall2 {P I O} (s : stage P I O) H items ys :
  Forall2 (λ x y, FusedOp s H x = Val y) items ys → filter_map_seq (apply s) items = Val ys.
Proof.
  induction 1 as [|t y ts ys Ht _ IH]; cbn; [done|]. by rewrite (FusedOp_apply s H), Ht, IH.
Qed.

Lemma pure_unwind {P I O} (s : stage P I O) H t p : FusedOp s H t = Unwind p ↔ apply s t = Unwind p.
Proof. rewrite (FusedOp_apply s H). destruct (FusedOp s H t); cbn; split; congruence. Qed.

(** What a collect may return: the survivors in input order, or a panic of an
    item, or of the plan's arithmetic. *)
Definition collect_post {P I O : Type} (overflow : P) (panics : Prop) (s : stage P I O) (items : list I)
    (r : res P (list O)) : Prop :=
  match r with
  | Val out => filter_map_seq (apply s) items = Val out
  | Unwind p => (∃ x, x ∈ items ∧ apply s x = Unwind p) ∨ (p = overflow ∧ panics)
  end.

Lemma collect_post_seq {P I O : Type} overflow panics (s : stage P I O) items :
  collect_post (P := P) overflow panics s items (filter_map_seq (apply s) items).
Proof.
  unfold collect_post. destruct (filter_map_seq (apply s) items) as [|p] eqn:Hf; [done|].
  left. by apply filter_map_seq_unwind.
Qed.

(** No item of a chain without filters panics after another one, unless the
    scheduler never lets a worker run the second half of its own join. *)
Definition no_second_panic {P I O : Type} (steal : bool → bool) (s : stage P I O) (items : list I) : Prop :=
  MAY_FILTER s = false → steal false = true → ∀ i j xi xj p q, (i < j)%nat →
    items !! i = Some xi → items !! j = Some xj → apply s xi = Unwind p → apply s xj ≠ Unwind q.

(** C1: [Pipe::collect] end to end - the split plan, the serial fallback, the
    filter tree and the indexed core with its dispatcher - for every batch, the
    empty one included, every chain of maps and filters, all options and every
    caller, under every interleaving of the workers: the call terminates
    without touching a slot in the wrong state, leaves no item and no output
    in a slot, and returns the surviving outputs in input order, exactly what
    filtering and mapping the items one after the other returns; a panic it
    raises is an item's, or the overflow of the plan's task count.  The side
    condition [no_second_panic]: when the chain has no filter and a worker may
    run the second half of its own join, no item panics after another one
    does; [late_panic_drops_dead_slot] shows that the guarantee fails there. *)
Theorem collect_correct {P E X I O : Type} `{!Inhabited I, !Inhabited O} (steal : bool → bool)
    (overflow : P) (num_cpus : Z) (ov sl : option Z) (on_pool : bool) (mode : OnpoolHybrid)
    (b : Pipe P I O)
    (Hs : ∃ c, steal c = true) (Hlate : no_second_panic steal (pipe_stages b) (pipe_items b)) :
  let r := collect (E := E) (X := X) overflow num_cpus ov sl on_pool mode b in
  always steal (body r) (heap r) (λ v m es, no_live m ∧
    collect_post overflow (plan_of num_cpus ov sl (length (pipe_items b)) (pipe_exec b) = Panic)
      (pipe_stages b) (pipe_items b) v).
Proof.
  destruct b as [items s x]. cbv zeta. unfold collect. cbn [pipe_items pipe_stages pipe_exec] in *.
  case_bool_decide as Hn.
  { apply nil_length_inv in Hn as ->. constructor. split; [apply no_live_empty|done]. }
  apply terminal_spec.
  - constructor. split; [apply no_live_empty|]. rewrite serial_collect_seq. apply collect_post_seq.
  - intros plan Hn2 Hnt.
    apply (on_filter_both _ _ _ (λ r : terminal_run (I + O) (event P E X) _, always steal (body r) (heap r) _)).
    + intros _. eapply always_mono; [by apply fused_filter_collect_correct|].
      intros r m es (Hm & _ & ->). split; [done|apply collect_post_seq].
    + intros H. eapply always_mono; [apply par_index_collect_correct; try done|].
      * intros Hf i j xi xj p q Hij Hi Hj. rewrite !pure_unwind. by apply (Hlate H Hf i j).
      * intros r m es [Hm Hr]. split; [done|]. destruct r as [ys|p]; [by apply (pure_forall2 s H)|].
        destruct Hr as (t & Ht & Hp%pure_unwind). left. by exists t.
  - intros Ho. split; [apply no_live_empty|]. by right.
Qed.

Definition demo_exec : ExecOptions := mkExec (default_config 4) None None.

Lemma collect_correct_witness :
  let b := mkPipe [1; 2; 3; 4; 5]%nat
    (Filter (SyncMap (@Identity nat nat) (λ x, Val (x * 2)%nat)) (λ x, Val (negb (x =? 4)%nat)))
    demo_exec in
  let r := collect (E := nat) (X := nat) 0%nat 4 None None false OnpoolOff b in
  always (λ _, true) (body r) (heap r) (λ v m es, no_live m ∧
    collect_post 0%nat (plan_of 4 None None 5 demo_exec = Panic) (pipe_stages b) (pipe_items b) v) ∧
  plan_of 4 None None 5 demo_exec = Ret (Parallel (mkPlan 2 0)).
Proof.
  intros b. split; [|reflexivity].
  apply (collect_correct (λ _, true) 0%nat 4 None None false OnpoolOff b); [by exists true|].
  intros H. discriminate H.
Defined.

(** ** Collecting with errors *)

Lemma try_push_loop_seq {T R P E} (f : T → res P (rresult (option R) E)) out items :
  try_push_loop f out items = qbind (try_filter_map_seq f items) (λ rs, Val (Ok (out ++ rs))).
Proof.
  revert out. induction items as [|t ts IH]; intros out; cbn; [by rewrite app_nil_r|].
  destruct (f t) as [[o|e]|p]; cbn; [|done|done]. rewrite IH.
  destruct (try_filter_map_seq f ts) as [[rs|e]|p]; cbn; [|done|done].
  destruct o; [by rewrite <- app_assoc|done].
Qed.

Lemma try_filter_map_ext {T R P E} (f g : T → res P (rresult (option R) E)) items :
  (∀ t, f t = g t) → try_filter_map_seq f items = try_filter_map_seq g items.
Proof. intros Hfg. induction items as [|t ts IH]; cbn; [done|]. by rewrite Hfg, IH. Qed.

Lemma serial_try_collect_seq {P I O E} (t : tstage P I O E) items :
  serial_stage_try_collect t items = try_filter_map_seq (try_apply t) items.
Proof.
  assert (∀ r : res P (rresult (list O) E), qbind r (λ rs, Val (Ok ([] ++ rs))) = r) as Hid
    by (intros [[]|]; done).
  unfold serial_stage_try_collect. apply on_filter_both; [|intros H]; rewrite try_push_loop_seq, Hid; [done|].
  apply try_filter_map_ext. intros item. by rewrite (FusedTryOp_apply t H).
Qed.

Lemma try_pure_forall2 {P I O E} (t : tstage P I O E) H items ys :
  Forall2 (λ x y, FusedTryOp t H x = Val (Ok y)) items ys →
  try_filter_map_seq (try_apply t) items = Val (Ok ys).
Proof.
  induction 1 as [|x y xs ys Hx _ IH]; cbn; [done|]. by rewrite (FusedTryOp_apply t H), Hx, IH.
Qed.

Lemma try_pure_cases {P I O E} (t : tstage P I O E) H x :
  (∀ p, FusedTryOp t H x = Unwind p ↔ try_apply t x = Unwind p) ∧
  (∀ e, FusedTryOp t H x = Val (Err e) ↔ try_apply t x = Val (Err e)) ∧
  ((∃ y, FusedTryOp t H x = Val (Ok y)) ↔ ∃ o, try_apply t x = Val (Ok o)).
Proof.
  rewrite (FusedTryOp_apply t H).
  destruct (FusedTryOp t H x) as [[y|e]|p]; cbn; split_and!; intros; split; intros; simplify_eq;
    try done; eauto; naive_solver.
Qed.

Lemma try_seq_error {T R P E} (f : T → res P (rresult (option R) E)) l e :
  try_filter_map_seq f l = Val (Err e) → ∃ t, t ∈ l ∧ f t = Val (Err e).
Proof.
  induction l as [|t l IH]; cbn; [done|]. destruct (f t) as [[o|e']|q] eqn:Ef; cbn; [| |done].
  - destruct (try_filter_map_seq f l) as [[]|q] eqn:El; cbn; [done| |done]. intros [= ->].
    destruct (IH eq_refl) as (t' & ? & ?). exists t'. split; [by right|done].
  - intros [= ->]. exists t. split; [by left|done].
Qed.

(** What a fallible collect may return; a chain with a filter, and a serial
    run, return exactly the sequential result. *)
Definition try_collect_post {P I O E : Type} (overflow : P) (panics exact : Prop) (t : tstage P I O E)
    (items : list I) (r : res P (rresult (list O) E)) : Prop :=
  match r with
  | Val (Ok out) => try_filter_map_seq (try_apply t) items = Val (Ok out)
  | Val (Err e) =>
      (∃ x, x ∈ items ∧ try_apply t x = Val (Err e)) ∧
      (exact → try_filter_map_seq (try_apply t) items = Val (Err e))
  | Unwind p => (∃ x, x ∈ items ∧ try_apply t x = Unwind p) ∨ (p = overflow ∧ panics)
  end.

Lemma try_collect_post_seq {P I O E : Type} overflow panics exact (t : tstage P I O E) items :
  try_collect_post (P := P) overflow panics exact t items (try_filter_map_seq (try_apply t) items).
Proof.
  unfold try_collect_post. destruct (try_filter_map_seq (try_apply t) items) as [[]|p] eqn:Hf; [done| |].
  - split; [by eapply try_seq_error|done].
  - left. by apply try_filter_map_seq_unwind in Hf.
Qed.

(** No item of a fallible chain without filters panics after another failed,
    unless the scheduler never lets a worker run the second half of its own
    join. *)
Definition no_panic_after_failure {P I O E : Type} (steal : bool → bool) (t : tstage P I O E)
    (items : list I) : Prop :=
  T_MAY_FILTER t = false → steal false = true → ∀ i j xi xj p, (i < j)%nat →
    items !! i = Some xi → items !! j = Some xj → (∀ o, try_apply t xi ≠ Val (Ok o)) →
    try_apply t xj ≠ Unwind p.

(** C10: [TryPipe::try_collect] end to end, for every batch, fallible chain,
    options and caller, under every interleaving: the call terminates without
    a fault and leaves no live slot; it returns the surviving outputs in input
    order when no item fails; an error it returns is an item's, and of the
    first failing item when the chain can filter or the batch runs serially;
    a panic is an item's or the overflow of the plan's task count.  The side
    condition [no_panic_after_failure]: when the chain has no filter and a
    worker may run the second half of its own join, no item panics after
    another one failed or panicked. *)
Theorem try_collect_correct {P E X I O : Type} `{!Inhabited I, !Inhabited O} (steal : bool → bool)
    (overflow : P) (num_cpus : Z) (ov sl : option Z) (on_pool : bool) (mode : OnpoolHybrid)
    (b : TryPipe P I O E)
    (Hs : ∃ c, steal c = true) (Hlate : no_panic_after_failure steal (try_stages b) (try_items b)) :
  let r := try_collect (X := X) overflow num_cpus ov sl on_pool mode b in
  let plan := plan_of num_cpus ov sl (length (try_items b)) (try_exec b) in
  always steal (body r) (heap r) (λ v m es, no_live m ∧
    try_collect_post overflow (plan = Panic) (T_MAY_FILTER (try_stages b) = true ∨ plan = Ret Serial)
      (try_stages b) (try_items b) v).
Proof.
  destruct b as [items t x]. cbv zeta. unfold try_collect.
  cbn [try_items try_stages try_exec] in *. case_bool_decide as Hn.
  { apply nil_length_inv in Hn as ->. constructor. split; [apply no_live_empty|done]. }
  unfold terminal. pose proof (terminal_plan_cases ov sl (length items) (workload (config x))
    (as_pool (resolve num_cpus x))) as Hc. fold (plan_of num_cpus ov sl (length items) x) in Hc.
  destruct (plan_of num_cpus ov sl (length items) x) as [[|plan]|  | |] eqn:Hplan; try done.
  - constructor. split; [apply no_live_empty|]. rewrite serial_try_collect_seq. apply try_collect_post_seq.
  - apply (on_filter_both _ _ _ (λ r : terminal_run (I + O) (event P E X) _, always steal (body r) (heap r) _)).
    + intros _. eapply always_mono; [by apply fused_try_filter_collect_correct|].
      intros r m es (Hm & _ & Hr). split; [done|]. destruct r as [v|p]; [|by left].
      rewrite <- (Hr : _ = Val v). apply try_collect_post_seq.
    + intros H. eapply always_mono; [apply par_index_try_collect_correct; try apply Hc; try done|].
      * intros Hf i j xi xj p Hij Hi Hj Hfail. rewrite (proj1 (try_pure_cases t H xj)).
        apply (Hlate H Hf i j xi xj); [done..|]. intros o Ho.
        destruct (proj2 (proj2 (proj2 (try_pure_cases t H xi)))) as [y Hy]; [by exists o|]. by apply (Hfail y).
      * intros r m es [Hm Hr]. split; [done|]. destruct r as [[ys|e]|p].
        -- by apply (try_pure_forall2 t H).
        -- destruct Hr as [(y & Hy & He%try_pure_cases) _]. split; [by exists y|].
           intros [Hf|Hp]; [congruence|done].
        -- destruct Hr as (y & Hy & Hp%try_pure_cases). left. by exists y.
  - constructor. split; [apply no_live_empty|]. by right.
Qed.

Lemma try_collect_correct_witness :
  let b := mkTryPipe [1; 4; 3; 4]%nat
    (TryMap (InfallibleChain (@Identity nat nat))
       (λ x, Val (if bool_decide (x = 4)%nat then Err x else Ok (x * 2)%nat))) demo_exec in
  let r := try_collect (X := nat) 0%nat 4 None None false OnpoolOff b in
  always (λ _, true) (body r) (heap r) (λ v m es, no_live m ∧
    try_collect_post 0%nat (plan_of 4 None None 4 demo_exec = Panic)
      (T_MAY_FILTER (try_stages b) = true ∨ plan_of 4 None None 4 demo_exec = Ret Serial)
      (try_stages b) (try_items b) v).
Proof.
  intros b. apply (try_collect_correct (λ _, true) 0%nat 4 None None false OnpoolOff b); [by exists true|].
  intros _ _ i j xi xj p _ _ _ _. cbn. by case_bool_decide.
Defined.

(** ** For each *)

(** The calls of the closure: one per surviving output. *)
Definition closure_calls {P I O X : Type} (s : stage P I O) (f : O → res P X) (items : list I) : list X :=
  omap (λ o, o) (sink_effects (sink_consume s f) items).

Lemma sink_effects_cons {T X P : Type} (consume : T → res P X) t ts x :
  consume t = Val x → sink_effects consume (t :: ts) = x :: sink_effects consume ts.
Proof. intros Ht. unfold sink_effects. cbn. by rewrite Ht. Qed.

Lemma sink_effects_ext {T X P : Type} (f g : T → res P X) items :
  (∀ t, f t = g t) → sink_effects f items = sink_effects g items.
Proof. intros Hfg. unfold sink_effects. induction items as [|t ts IH]; cbn; [done|]. by rewrite Hfg, IH. Qed.

Lemma serial_loop_spec {V T X P E : Type} (steal : bool → bool) (consume : T → res P (option X))
    (items : list T) (m : mem V) (Q : res P unit → mem V → list (event P E (option X)) → Prop) :
  (∀ es, user_effects es = sink_effects consume items → (∀ t, t ∈ items → ∃ x, consume t = Val x) →
     Q (Val tt) m es) →
  (∀ es t p, t ∈ items → consume t = Unwind p → user_effects es ⊆+ sink_effects consume items →
     Q (Unwind p) m es) →
  always steal (serial_loop consume items) m Q.
Proof.
  revert Q. induction items as [|t ts IH]; intros Q Hok Hbad; cbn [serial_loop].
  { constructor. apply Hok; [done|]. by intros t ?%not_elem_of_nil. }
  destruct (consume t) as [x|p] eqn:Et; cbn [call].
  - apply always_emit. apply IH.
    + intros es Hes Hall. apply Hok.
      * rewrite (sink_effects_cons _ _ _ _ Et), <- Hes. done.
      * intros t' [->|Hin]%elem_of_cons; [by exists x|by apply Hall].
    + intros es t' p Hin Hp Hes. eapply (Hbad _ t'); [by right|done|].
      rewrite (sink_effects_cons _ _ _ _ Et). by apply (submseteq_skip _ (user_effects es)).
  - constructor. apply (Hbad [] t p); [by left|done|]. apply submseteq_nil_l.
Qed.

Lemma serial_for_each_spec {V P E X I O : Type} (steal : bool → bool) (s : stage P I O) (f : O → res P X)
    (items : list I) (m : mem V) (Q : res P unit → mem V → list (event P E (option X)) → Prop) :
  (∀ es, user_effects es = sink_effects (sink_consume s f) items →
     (∀ t, t ∈ items → ∃ x, sink_consume s f t = Val x) → Q (Val tt) m es) →
  (∀ es t p, t ∈ items → sink_consume s f t = Unwind p →
     user_effects es ⊆+ sink_effects (sink_consume s f) items → Q (Unwind p) m es) →
  always steal (serial_stage_for_each s f items) m Q.
Proof.
  intros Hok Hbad.
  assert (∀ consume, (∀ t, consume t = sink_consume s f t) →
    always steal (serial_loop consume items) m Q) as Hloop.
  { intros consume Hc. apply serial_loop_spec.
    - intros es. rewrite (sink_effects_ext _ _ _ Hc). intros Hes Hall. apply Hok; [done|].
      intros t Ht. rewrite <- Hc. by apply Hall.
    - intros es t p Ht. rewrite Hc, (sink_effects_ext _ _ _ Hc). by apply Hbad. }
  unfold serial_stage_for_each.
  apply (on_filter_both _ _ _ (λ p, always steal p m Q)); [intros _|intros H]; apply Hloop; intros t;
    rewrite sink_consume_apply; [done|]. rewrite (FusedOp_apply s H). by destruct (FusedOp s H t).
Qed.

Lemma omap_submseteq {A B : Type} (f : A → option B) l l' : l ⊆+ l' → omap f l ⊆+ omap f l'.
Proof.
  intros [k ->]%submseteq_Permutation. rewrite omap_app. by apply submseteq_inserts_r.
Qed.

(** C34: [Pipe::for_each] end to end, for every batch, chain, options and
    caller, under every interleaving: the call terminates without a fault and
    leaves no item in a slot; when it returns, every item ran without a panic
    and the closure was called exactly once on each surviving output and on
    nothing else; when it raises a panic, that of an item or the overflow of
    the plan's task count, no output was passed to the closure twice.  The side
    condition [Hlate]: when a worker may run the second half of its own join,
    no item's chain or closure panics after another's does. *)
Theorem for_each_correct {P E X I O : Type} `{!Inhabited I} (steal : bool → bool)
    (overflow : P) (num_cpus : Z) (ov sl : option Z) (on_pool : bool) (mode : OnpoolHybrid)
    (b : Pipe P I O) (f : O → res P X) (Hs : ∃ c, steal c = true)
    (Hlate : steal false = true → ∀ i j xi xj p q, (i < j)%nat →
       pipe_items b !! i = Some xi → pipe_items b !! j = Some xj →
       sink_consume (pipe_stages b) f xi = Unwind p → sink_consume (pipe_stages b) f xj ≠ Unwind q) :
  let r := for_each (E := E) overflow num_cpus ov sl on_pool mode b f in
  let calls := closure_calls (pipe_stages b) f (pipe_items b) in
  always steal (body r) (heap r) (λ v m es, no_live m ∧
    match v with
    | Val _ => omap (λ o, o) (user_effects es) ≡ₚ calls ∧
        ∀ x, x ∈ pipe_items b → ∃ o, sink_consume (pipe_stages b) f x = Val o
    | Unwind p => omap (λ o, o) (user_effects es) ⊆+ calls ∧
        ((∃ x, x ∈ pipe_items b ∧ sink_consume (pipe_stages b) f x = Unwind p) ∨
         (p = overflow ∧ plan_of num_cpus ov sl (length (pipe_items b)) (pipe_exec b) = Panic))
    end).
Proof.
  destruct b as [items s x]. cbv zeta. unfold for_each, closure_calls.
  cbn [pipe_items pipe_stages pipe_exec] in *. case_bool_decide as Hn.
  { apply nil_length_inv in Hn as ->. constructor. split; [apply no_live_empty|]. split; [done|].
    by intros ? ?%not_elem_of_nil. }
  apply terminal_spec; cbn [body heap].
  - apply serial_for_each_spec.
    + intros es Hes Hall. split; [apply no_live_empty|]. by rewrite Hes.
    + intros es t p Ht Hp Hes. split; [apply no_live_empty|]. split; [by apply omap_submseteq|left; by exists t].
  - intros plan Hn2 Hnt. eapply always_mono; [by apply par_for_each_correct|].
    intros r m es [Hm Hr]. split; [done|]. destruct r as [u|p]; destruct Hr as [H1 H2].
    + split; [by rewrite H2|done].
    + split; [by apply omap_submseteq|by left].
  - intros Ho. split; [apply no_live_empty|]. split; [apply submseteq_nil_l|by right].
Qed.

Lemma for_each_correct_witness :
  let b := mkPipe [1; 2; 3; 4; 5]%nat
    (Filter (SyncMap (@Identity nat nat) (λ x, Val (x * 2)%nat)) (λ x, Val (negb (x =? 4)%nat)))
    demo_exec in
  let r := for_each (E := nat) 0%nat 4 None None false OnpoolOff b (λ x, Val (x + 1)%nat) in
  closure_calls (pipe_stages b) (λ x, Val (x + 1)%nat) (pipe_items b) = [3; 7; 9; 11]%nat ∧
  always (λ _, true) (body r) (heap r) (λ v m es, no_live m ∧
    match v with
    | Val _ => omap (λ o, o) (user_effects es) ≡ₚ
          closure_calls (pipe_stages b) (λ x, Val (x + 1)%nat) (pipe_items b) ∧
        ∀ x, x ∈ pipe_items b → ∃ o, sink_consume (pipe_stages b) (λ x, Val (x + 1)%nat) x = Val o
    | Unwind p => omap (λ o, o) (user_effects es) ⊆+
          closure_calls (pipe_stages b) (λ x, Val (x + 1)%nat) (pipe_items b) ∧
        ((∃ x, x ∈ pipe_items b ∧ sink_consume (pipe_stages b) (λ x, Val (x + 1)%nat) x = Unwind p) ∨
         (p = 0%nat ∧ plan_of 4 None None 5 demo_exec = Panic))
    end).
Proof.
  intros b. split; [reflexivity|].
  apply (for_each_correct (λ _, true) 0%nat 4 None None false OnpoolOff b (λ x, Val (x + 1)%nat));
    [by exists true|].
  intros _ i j xi xj p q _ _ _ Hi. rewrite sink_consume_apply in Hi. cbn in Hi.
  destruct (negb _); discriminate Hi.
Defined.

(** ** Aggregating *)

Lemma outputs_apply {P I O} (s : stage P I O) item : outputs s item = apply s item.
Proof. unfold outputs. apply on_filter_both; [done|]. intros H. by rewrite (FusedOp_apply s H). Qed.

(** The serial loops fold the surviving outputs, as the parallel core does. *)
Lemma iter_fold_fused {P I O A} (s : stage P I O) (r : Reducer P O A) (f : A → O → res P A) acc items :
  (∀ a v, f a v = FusedStages.fold r a v) →
  iter_fold (outputs s) f acc items = fold_seq (fused_fold s r) acc items.
Proof.
  intros Hf. revert acc. induction items as [|t ts IH]; intros acc; cbn; [done|].
  rewrite fused_fold_apply, outputs_apply. destruct (apply s t) as [[v|]|p]; cbn; [|apply IH|done].
  rewrite Hf. apply rbind_ext. intros a. apply IH.
Qed.

Lemma iter_reduce_fused {P I O} (s : stage P I O) (op : O → O → res P O) items :
  iter_reduce (outputs s) op items = fold_seq (fused_fold s (option_reducer op)) None items.
Proof.
  assert (∀ ts a, rbind (iter_fold (outputs s) op a ts) (λ a, Val (Some a)) =
    fold_seq (fused_fold s (option_reducer op)) (Some a) ts) as Hsome.
  { induction ts as [|t ts IH]; intros a; cbn; [done|].
    rewrite fused_fold_apply, outputs_apply. destruct (apply s t) as [[v|]|p]; cbn; [|apply IH|done].
    rewrite !rbind_assoc. apply rbind_ext. intros b. apply IH. }
  induction items as [|t ts IH]; cbn; [done|]. rewrite fused_fold_apply, outputs_apply.
  destruct (apply s t) as [[v|]|p]; cbn; [apply Hsome|apply IH|done].
Qed.

(** What an aggregation may return: the fold of the surviving outputs in input
    order, or a panic raised by an item's chain or the reducer on some item,
    or the plan's. *)
Definition fold_post {P I O A : Type} (overflow : P) (panics : Prop) (s : stage P I O) (r : Reducer P O A)
    (items : list I) (v : res P A) : Prop :=
  match v with
  | Val a => fold_seq (fused_fold s r) (identity r) items = Val a
  | Unwind p => (∃ a x, x ∈ items ∧ fused_fold s r a x = Unwind p) ∨ (p = overflow ∧ panics)
  end.

Lemma fold_post_seq {P I O A : Type} overflow panics (s : stage P I O) (r : Reducer P O A) items :
  fold_post (P := P) overflow panics s r items (fold_seq (fused_fold s r) (identity r) items).
Proof.
  unfold fold_post. destruct (fold_seq _ _ _) as [|p] eqn:Hf; [done|]. left. by eapply fold_seq_unwind.
Qed.

Section aggregate.
Context {P E X I O A : Type} `{!Inhabited I, !Inhabited A} (steal : bool → bool).
Context (overflow : P) (num_cpus : Z) (ov sl : option Z) (on_pool : bool) (mode : OnpoolHybrid).
Context (b : Pipe P I O) (r : Reducer P O A) `{!ReducerLaws r}.
Hypothesis some_schedule : ∃ c, steal c = true.
Notation n := (length (pipe_items b)).
Notation post := (fold_post overflow (plan_of num_cpus ov sl n (pipe_exec b) = Panic) (pipe_stages b) r
  (pipe_items b)).

(** A serial result that folds the items, and the parallel core. *)
Lemma aggregate_spec (serial : res P A) :
  serial = fold_seq (fused_fold (pipe_stages b) r) (identity r) (pipe_items b) →
  let t := terminal (E := E) (X := X) overflow num_cpus ov sl n (pipe_exec b) (inline serial)
    (reduce_run num_cpus on_pool mode b r) in
  always steal (body t) (heap t) (λ v m es, buffers_gone m ∧ post v).
Proof using Type*.
  intros ->. apply terminal_spec.
  - constructor. split; [apply buffers_gone_empty|apply fold_post_seq].
  - intros plan Hn Hnt. eapply always_mono.
    { apply par_reduce_correct; [done..|apply combine_seed|]. by apply chain_combine_fold. }
    intros v m es [Hm Hv]. split; [done|]. destruct v as [a|p]; [done|by left].
  - intros Ho. split; [apply buffers_gone_empty|by right].
Qed.
End aggregate.

(** C9: the aggregating terminals [Pipe::fold] (for fold and combine functions
    that fit together), [Pipe::reduce] (for an associative operation),
    [Pipe::sum] (over a monoid) and [Pipe::count], end to end, for every batch,
    the empty one included, chain, options and caller, under every
    interleaving: each terminates without a fault, leaves no item in the input
    buffer, and returns what folding the surviving outputs one after the other
    returns, however the batch is split and whichever worker folds what; a
    panic it raises is one of the chain or the reducer on an item, or the
    overflow of the plan's task count. *)
Theorem aggregates_correct {P E X I O A : Type} `{!Inhabited I, !Inhabited O, !Inhabited A}
    (steal : bool → bool) (overflow : P) (num_cpus : Z) (ov sl : option Z) (on_pool : bool)
    (mode : OnpoolHybrid) (b : Pipe P I O) (init : A) (f : A → O → res P A) (c : A → A → res P A)
    (zero : O) (plus op : O → O → O)
    (Hs : ∃ c, steal c = true) (Hf : ReducerLaws (fold_reducer init f c)) (Hop : Assoc (=) op)
    (Hplus : Assoc (=) plus) (Hleft : LeftId (=) zero plus) (Hright : RightId (=) zero plus) :
  let panics := plan_of num_cpus ov sl (length (pipe_items b)) (pipe_exec b) = Panic in
  let spec A (r : terminal_run (I + A) (event P E X) (res P A)) (red : Reducer P O A) :=
    always steal (body r) (heap r) (λ v m es, buffers_gone m ∧
      fold_post overflow panics (pipe_stages b) red (pipe_items b) v) in
  spec _ (fold overflow num_cpus ov sl on_pool mode b init f c) (fold_reducer init f c) ∧
  spec _ (reduce overflow num_cpus ov sl on_pool mode b (λ x y, Val (op x y)))
    (option_reducer (λ x y, Val (op x y))) ∧
  spec _ (sum overflow num_cpus ov sl on_pool mode b zero (λ x y, Val (plus x y)))
    (sum_reducer zero (λ x y, Val (plus x y))) ∧
  spec _ (count overflow num_cpus ov sl on_pool mode b) count_reducer.
Proof.
  intros panics spec. subst panics spec. cbv beta. split_and!.
  - apply aggregate_spec; try done. by apply iter_fold_fused.
  - unfold reduce. case_bool_decide as Hn.
    + constructor. split; [apply buffers_gone_empty|]. by apply nil_length_inv in Hn as ->.
    + apply aggregate_spec; try done; [apply _|]. apply iter_reduce_fused.
  - apply aggregate_spec; try done; [apply _|]. apply iter_fold_fused. intros a v. cbn.
    by rewrite (left_id zero plus).
  - unfold count. case_bool_decide as Hn.
    + constructor. split; [apply buffers_gone_empty|]. by apply nil_length_inv in Hn as ->.
    + apply aggregate_spec; try done; [apply _|]. by apply iter_fold_fused.
Qed.

Lemma aggregates_correct_witness :
  let b := mkPipe [1; 2; 3; 4; 5]%nat
    (Filter (SyncMap (@Identity nat nat) (λ x, Val (x * 2)%nat)) (λ x, Val (negb (x =? 4)%nat)))
    demo_exec in
  let panics := plan_of 4 None None 5 demo_exec = Panic in
  let spec A (r : terminal_run (nat + A) (event nat nat nat) (res nat A)) (red : Reducer nat nat A) :=
    always (λ _, true) (body r) (heap r) (λ v m es, buffers_gone m ∧
      fold_post 0%nat panics (pipe_stages b) red (pipe_items b) v) in
  spec _ (count 0%nat 4 None None false OnpoolOff b) count_reducer ∧
  spec _ (sum 0%nat 4 None None false OnpoolOff b 0%nat (λ x y, Val (x + y)%nat))
    (sum_reducer 0%nat (λ x y, Val (x + y)%nat)) ∧
  fold_seq (fused_fold (pipe_stages b) (sum_reducer 0%nat (λ x y, Val (x + y)%nat))) 0%nat
    (pipe_items b) = Val 26%nat.
Proof.
  intros b panics spec.
  pose proof (aggregates_correct (E := nat) (X := nat) (A := nat) (λ _, true) 0%nat 4 None None false
    OnpoolOff b 0%nat (λ a _, Val (a + 1)%nat) (λ a c, Val (a + c)%nat) 0%nat Nat.add Nat.add
    ltac:(by exists true) ltac:(exact (count_reducer_laws (P := nat) (O := nat))) _ _ _ _)
    as (_ & _ & Hsum & Hcount).
  split; [exact Hcount|]. split; [exact Hsum|reflexivity].
Defined.

(** ** Aggregating with errors *)

Lemma try_chain_combine_fold {P I O E A} (t : tstage P I O E) (r : Reducer P O A) `{!ReducerLaws r} a b x :
  rbind (combine r a b) (λ z, fused_try_fold t r z x) =
    qbind (fused_try_fold t r b x) (λ z, rbind (combine r a z) (λ w, Val (Ok w))).
Proof.
  destruct (combine_total a b) as [z Hz]. rewrite Hz. cbn. unfold fused_try_fold.
  destruct (try_apply t x) as [[[o|]|e]|p]; cbn; [|by rewrite Hz|done|done].
  pose proof (combine_fold a b o) as Hc. rewrite Hz in Hc. cbn in Hc. rewrite Hc.
  destruct (FusedStages.fold r b o); cbn; done.
Qed.

(** The serial loops fold as the parallel core does. *)
Lemma try_fold_loop_fused {P I O E A} (t : tstage P I O E) (r : Reducer P O A) acc items :
  try_fold_loop (try_apply t) (FusedStages.fold r) acc items = try_fold_seq (fused_try_fold t r) acc items.
Proof.
  revert acc. induction items as [|x xs IH]; intros acc; cbn; [done|]. unfold fused_try_fold at 1.
  destruct (try_apply t x) as [[[o|]|e]|p]; cbn; [|apply IH|done|done].
  destruct (FusedStages.fold r acc o); cbn; [apply IH|done].
Qed.

Lemma try_reduce_loop_fused {P I O E} (t : tstage P I O E) (op : O → O → res P O) acc items :
  try_reduce_loop (try_apply t) op acc items = try_fold_seq (fused_try_fold t (option_reducer op)) acc items.
Proof.
  revert acc. induction items as [|x xs IH]; intros acc; cbn; [done|]. unfold fused_try_fold at 1.
  destruct (try_apply t x) as [[[o|]|e]|p]; cbn; [|apply IH|done|done].
  destruct acc as [a|]; cbn; [destruct (op a o); cbn; [apply IH|done]|apply IH].
Qed.

(** What a fallible aggregation may return. *)
Definition try_fold_post {P I O E A : Type} (overflow : P) (panics serial : Prop) (t : tstage P I O E)
    (r : Reducer P O A) (items : list I) (v : res P (rresult A E)) : Prop :=
  match v with
  | Val (Ok a) => try_fold_seq (fused_try_fold t r) (identity r) items = Val (Ok a)
  | Val (Err e) =>
      (∃ x, x ∈ items ∧ try_apply t x = Val (Err e)) ∧
      (serial → try_fold_seq (fused_try_fold t r) (identity r) items = Val (Err e))
  | Unwind p => (∃ a x, x ∈ items ∧ fused_try_fold t r a x = Unwind p) ∨ (p = overflow ∧ panics)
  end.

(** An error of the fold is one of the chain. *)
Lemma fused_try_fold_err {P I O E A} (t : tstage P I O E) (r : Reducer P O A) a x e :
  fused_try_fold t r a x = Val (Err e) → try_apply t x = Val (Err e).
Proof.
  unfold fused_try_fold. destruct (try_apply t x) as [[[o|]|e']|p]; cbn; [|done|congruence|done].
  by destruct (FusedStages.fold r a o).
Qed.

Lemma fails_on_err {P I O E A} (t : tstage P I O E) (r : Reducer P O A) items e :
  fails_on (fused_try_fold t r) items (Op e) → ∃ x, x ∈ items ∧ try_apply t x = Val (Err e).
Proof. intros (a & x & Hx & He%fused_try_fold_err). by exists x. Qed.

Lemma try_fold_post_seq {P I O E A : Type} overflow panics serial (t : tstage P I O E)
    (r : Reducer P O A) items :
  try_fold_post (P := P) overflow panics serial t r items
    (try_fold_seq (fused_try_fold t r) (identity r) items).
Proof.
  unfold try_fold_post. pose proof (try_fold_seq_fails (fused_try_fold t r) (identity r) items) as Hf.
  destruct (try_fold_seq _ _ _) as [[]|]; [done|split; [by eapply fails_on_err|done]|by left].
Qed.

Section try_aggregate.
Context {P E X I O A : Type} `{!Inhabited I, !Inhabited A} (steal : bool → bool).
Context (overflow : P) (num_cpus : Z) (ov sl : option Z) (on_pool : bool) (mode : OnpoolHybrid).
Context (b : TryPipe P I O E) (r : Reducer P O A) `{!ReducerLaws r}.
Hypothesis some_schedule : ∃ c, steal c = true.
Notation n := (length (try_items b)).
Notation plan := (plan_of num_cpus ov sl n (try_exec b)).

Lemma try_aggregate_spec (serial : res P (rresult A E)) :
  serial = try_fold_seq (fused_try_fold (try_stages b) r) (identity r) (try_items b) →
  let t := terminal (X := X) overflow num_cpus ov sl n (try_exec b) (inline serial)
    (try_reduce_run num_cpus on_pool mode b r) in
  always steal (body t) (heap t) (λ v m es, buffers_gone m ∧
    try_fold_post overflow (plan = Panic) (plan = Ret Serial) (try_stages b) r (try_items b) v).
Proof using Type*.
  intros ->. unfold terminal. pose proof (terminal_plan_cases ov sl n (workload (config (try_exec b)))
    (as_pool (resolve num_cpus (try_exec b)))) as Hc. fold plan in Hc.
  destruct plan as [[|p]| | |] eqn:Hp; try done.
  - constructor. split; [apply buffers_gone_empty|apply try_fold_post_seq].
  - eapply always_mono.
    { apply par_reduce_try_correct; try apply Hc; [done|apply combine_seed|]. by apply try_chain_combine_fold. }
    intros v m es [Hm Hv]. split; [done|]. destruct v as [[a|e]|q]; [done| |by left].
    split; [by eapply fails_on_err|done].
  - constructor. split; [apply buffers_gone_empty|by right].
Qed.
End try_aggregate.

(** C35: the fallible aggregations [TryPipe::try_fold] (for fold and combine
    functions that fit together) and [TryPipe::try_reduce] (for an associative
    operation), end to end, for every batch, the empty one included, fallible
    chain, options and caller, under every interleaving: each terminates
    without a fault and leaves no item in the input buffer; [Ok] carries the
    fold of the surviving outputs in input order, no item having failed; an
    error is that of the chain on an item, of the first failing one when the batch runs serially; a panic is raised by the chain or the
    reducer on an item, or is the overflow of the plan's task count. *)
Theorem try_aggregates_correct {P E X I O A : Type} `{!Inhabited I, !Inhabited O, !Inhabited A}
    (steal : bool → bool) (overflow : P) (num_cpus : Z) (ov sl : option Z) (on_pool : bool)
    (mode : OnpoolHybrid) (b : TryPipe P I O E) (init : A) (f : A → O → res P A) (c : A → A → res P A)
    (op : O → O → O)
    (Hs : ∃ c, steal c = true) (Hf : ReducerLaws (fold_reducer init f c)) (Hop : Assoc (=) op) :
  let plan := plan_of num_cpus ov sl (length (try_items b)) (try_exec b) in
  let spec A (r : terminal_run (I + A) (event P E X) (res P (rresult A E))) (red : Reducer P O A) :=
    always steal (body r) (heap r) (λ v m es, buffers_gone m ∧
      try_fold_post overflow (plan = Panic) (plan = Ret Serial) (try_stages b) red (try_items b) v) in
  spec _ (try_fold overflow num_cpus ov sl on_pool mode b init f c) (fold_reducer init f c) ∧
  spec _ (try_reduce overflow num_cpus ov sl on_pool mode b (λ x y, Val (op x y)))
    (option_reducer (λ x y, Val (op x y))).
Proof.
  intros plan spec. subst plan spec. cbv beta. split.
  - apply try_aggregate_spec; try done. apply (try_fold_loop_fused _ (fold_reducer init f c)).
  - unfold try_reduce. case_bool_decide as Hn.
    + constructor. split; [apply buffers_gone_empty|]. by apply nil_length_inv in Hn as ->.
    + apply try_aggregate_spec; try done; [apply _|]. apply try_reduce_loop_fused.
Qed.

Lemma try_aggregates_correct_witness :
  let b := mkTryPipe [1; 2; 3; 4]%nat
    (TryMap (InfallibleChain (@Identity nat nat))
       (λ x, Val (if bool_decide (x = 9)%nat then Err x else Ok (x * 2)%nat))) demo_exec in
  let r := try_reduce (X := nat) 0%nat 4 None None false OnpoolOff b (λ x y, Val (x + y)%nat) in
  let red := option_reducer (λ x y, Val (x + y)%nat) in
  always (λ _, true) (body r) (heap r) (λ v m es, buffers_gone m ∧
    try_fold_post 0%nat (plan_of 4 None None 4 demo_exec = Panic)
      (plan_of 4 None None 4 demo_exec = Ret Serial) (try_stages b) red (try_items b) v) ∧
  try_fold_seq (fused_try_fold (try_stages b) red) None (try_items b) = Val (Ok (Some 20%nat)) ∧
  plan_of 4 None None 4 demo_exec = Ret (Parallel (mkPlan 2 0)).
Proof.
  intros b r red.
  pose proof (try_aggregates_correct (X := nat) (A := nat) (λ _, true) 0%nat 4 None None false
    OnpoolOff b 0%nat (λ a _, Val (a + 1)%nat) (λ a c, Val (a + c)%nat) Nat.add
    ltac:(by exists true) ltac:(exact (count_reducer_laws (P := nat) (O := nat))) _) as [_ Hr].
  split; [exact Hr|]. split; reflexivity.
Defined.

(** ** Generated ranges *)

(** [RangePipe::collect] computes what [Pipe::collect] over the materialized
    indices computes; without a filter it never allocates an input buffer. *)
Theorem range_collect_correct {P E X O : Type} `{!Inhabited O} (steal : bool → bool)
    (overflow : P) (num_cpus : Z) (ov sl : option Z) (on_pool : bool) (mode : OnpoolHybrid)
    (b : RangePipe P O) (n := (range_end b - range_start b)%nat) (items := seq (range_start b) n) :
  (∃ c, steal c = true) → no_second_panic steal (range_stages b) items →
  let r := range_collect (E := E) (X := X) overflow num_cpus ov sl on_pool mode b in
  always steal (body r) (heap r) (λ v m es, no_live m ∧
    collect_post overflow (plan_of num_cpus ov sl n (range_exec b) = Panic) (range_stages b) items v).
Proof.
  intros Hs Hlate. subst items. destruct b as [st en s x]. cbv zeta. unfold range_collect.
  cbn [range_start range_end range_stages range_exec] in *. fold n. clearbody n. case_bool_decide as Hn.
  { rewrite Hn in *. constructor. split; [apply no_live_empty|done]. }
  apply terminal_spec.
  - constructor. split; [apply no_live_empty|]. rewrite serial_collect_seq. apply collect_post_seq.
  - intros plan Hn2 Hnt.
    apply (on_filter_both _ _ _ (λ r : terminal_run (nat + O) (event P E X) _, always steal (body r) (heap r) _)).
    + intros _. eapply always_mono.
      { cbn [body heap]. rewrite <- (length_seq n st) at 1. by apply fused_filter_collect_correct. }
      intros r m es (Hm & _ & ->). split; [done|apply collect_post_seq].
    + intros H. eapply always_mono; [apply par_range_gen_collect_correct; try done|].
      * intros Hf i j p q Hij Hj. rewrite !pure_unwind.
        apply (Hlate H Hf (i - st)%nat (j - st)%nat i j); [lia|apply lookup_seq; lia..].
      * intros r m es [Hm Hr]. split; [done|]. destruct r as [ys|p]; [by apply (pure_forall2 s H)|].
        destruct Hr as (t & Ht & Hp%pure_unwind). left. by exists t.
  - intros Ho. split; [apply no_live_empty|]. by right.
Qed.

(** [RangePipe::for_each], as [Pipe::for_each]. *)
Theorem range_for_each_correct {P E X O : Type} (steal : bool → bool)
    (overflow : P) (num_cpus : Z) (ov sl : option Z) (on_pool : bool) (mode : OnpoolHybrid)
    (b : RangePipe P O) (f : O → res P X) (n := (range_end b - range_start b)%nat)
    (items := seq (range_start b) n) (consume := sink_consume (range_stages b) f) :
  (∃ c, steal c = true) →
  (steal false = true → ∀ i j xi xj p q, (i < j)%nat →
     items !! i = Some xi → items !! j = Some xj → consume xi = Unwind p → consume xj ≠ Unwind q) →
  let r := range_for_each (E := E) overflow num_cpus ov sl on_pool mode b f in
  let calls := closure_calls (range_stages b) f items in
  always steal (body r) (heap r) (λ v m es, no_live m ∧
    match v with
    | Val _ => omap (λ o, o) (user_effects es) ≡ₚ calls ∧ ∀ x, x ∈ items → ∃ o, consume x = Val o
    | Unwind p => omap (λ o, o) (user_effects es) ⊆+ calls ∧
        ((∃ x, x ∈ items ∧ consume x = Unwind p) ∨
         (p = overflow ∧ plan_of num_cpus ov sl n (range_exec b) = Panic))
    end).
Proof.
  intros Hs Hlate. cbv zeta. unfold range_for_each, closure_calls. fold n items consume.
  assert (length items = n) as Hlen by apply length_seq.
  assert (∀ r es (m : mem (nat + unit)), no_live m ∧ consumed (E := E) items consume r es → no_live m ∧
    match r with
    | Val _ => omap (λ o, o) (user_effects es) ≡ₚ omap (λ o, o) (sink_effects consume items) ∧
        ∀ x, x ∈ items → ∃ o, consume x = Val o
    | Unwind p => omap (λ o, o) (user_effects es) ⊆+ omap (λ o, o) (sink_effects consume items) ∧
        ((∃ x, x ∈ items ∧ consume x = Unwind p) ∨ (p = overflow ∧ plan_of num_cpus ov sl n (range_exec b) = Panic))
    end) as Hpost.
  { intros r es m [Hm Hr]. split; [done|]. destruct r as [u|p]; destruct Hr as [H1 H2].
    - split; [by rewrite H2|done].
    - split; [by apply omap_submseteq|by left]. }
  case_bool_decide as Hn.
  { assert (items = []) as -> by (apply nil_length_inv; congruence). constructor.
    split; [apply no_live_empty|]. split; [done|]. by intros ? ?%not_elem_of_nil. }
  apply terminal_spec; cbn [body heap].
  - apply serial_for_each_spec.
    + intros es Hes Hall. split; [apply no_live_empty|]. by rewrite Hes.
    + intros es t p Ht Hp Hes. split; [apply no_live_empty|]. split; [by apply omap_submseteq|left; by exists t].
  - intros plan Hn2 Hnt.
    apply (on_filter_both _ _ _ (λ r : terminal_run (nat + unit) (event P E (option X)) _, always steal (body r) (heap r) _)).
    + intros _. cbn [body heap]. rewrite <- Hlen at 1.
      eapply always_mono; [apply par_for_each_correct; [by rewrite Hlen|done..]|]. intros r m es. apply Hpost.
    + intros _. cbn [body heap]. eapply always_mono; [by apply par_range_gen_for_each_correct|].
      intros r m es. apply Hpost.
  - intros Ho. split; [apply no_live_empty|]. split; [apply submseteq_nil_l|by right].
Qed.

(** ** The pool a terminal runs on *)

Definition exec_ok (x : ExecOptions) : Prop :=
  match compute_pool x with Some w => (1 ≤ w ≤ THREADS_MAX)%Z | None => True end.

(** The resolved pool has between one and [THREADS_MAX] workers; a pool the
    user attached wins over an oversubscription factor, which wins over the
    configured worker count. *)
Theorem resolve_bounds num_cpus (x : ExecOptions) :
  exec_ok x →
  (1 ≤ as_pool (resolve num_cpus x) ≤ THREADS_MAX)%Z ∧
  match compute_pool x, oversubscribe x with
  | Some w, _ => resolve num_cpus x = Ref w
  | None, Some k => as_pool (resolve num_cpus x) =
      pool_new (Z.min (compute_workers (config x) * k) (2 ^ 64 - 1))
  | None, None => as_pool (resolve num_cpus x) = pool_new (compute_workers (config x))
  end.
Proof.
  assert (∀ w, 1 ≤ pool_new w ≤ THREADS_MAX)%Z as Hnew.
  { intros w. unfold pool_new. change THREADS_MAX with 511%Z. lia. }
  unfold exec_ok, resolve, resolve_exec_pool. intros Hx.
  destruct (compute_pool x) as [w|]; [done|]. destruct (oversubscribe x) as [k|]; [split; [apply Hnew|done]|].
  case_bool_decide as Hw; cbn [as_pool]; (split; [apply Hnew|]); [done|].
  destruct (decide (compute_workers (config x) = num_cpus)) as [->|]; [done|by destruct Hw].
Qed.
