(* ===== verification/PassThrough.v ===== *)
(** * PassThrough: streams that run on the fused core

    A streaming pipeline of unpinned map stages without a cancellation token is
    not run on channels at all: [run_stream_pass] and [reduce_stream_pass] of
    [crates/youpipe/src/builder/typed/stream.rs] compose its stages into one
    operation ([fuse_exec], [FuseCompose]) and hand the batch to the fused core
    ([fused_pass_collect] and [fused_pass_reduce] of [fused.rs]).  A chain that
    is not eligible gives its items back, for the streaming engine of
    [StreamRun].

    The stages are those of [StreamRun.StreamChain], whose functions return.
    The theorems say that which of the two engines runs cannot be observed. *)

From S2P Require Import Prelude StreamRun Config ForkJoin FusedTree FusedPlan HybridDispatch.
From S2P Require Import FusedCollect FusedStages FusedReduce ReduceDispatch ParReduce FusedPipe.
Local Open Scope prog_scope.

(** [FuseCompose]: a stage's function, then what was composed below it. *)
Definition FuseCompose {P X M O : Type} (f : X → M) (next : M → res P O) (item : X) : res P O :=
  next (f item).

(** The fields of the builder the passes read: the items, the stages, the
    configuration, the cancellation token and the pool. *)
Record StreamPipe (I O : Type) : Type := mkStreamPipe {
  sp_items : list I;
  sp_stages : StreamChain I O;
  sp_config : PipelineConfig;
  sp_cancel : option bool;
  sp_pool : option Z;
}.
Arguments mkStreamPipe {I O} _ _ _ _ _.
Arguments sp_items {I O} _.
Arguments sp_stages {I O} _.
Arguments sp_config {I O} _.
Arguments sp_cancel {I O} _.
Arguments sp_pool {I O} _.

Section pass.
Context {P E X : Type}.
Context (overflow : P) (num_cpus : Z) (oversplit_env slack_env : option Z).
Context (on_pool : bool) (mode : OnpoolHybrid).
Notation ev := (event P E X).

Definition pass_plan (n : nat) (w : Workload) (pool : Z) : outcome TerminalPlan :=
  terminal_plan oversplit_env slack_env (Z.of_nat n) w pool.

(** [fused_pass_collect]. *)
Definition fused_pass_collect {T R} (items : list T) (op : T → res P R) (w : Workload) (pool : Z) :
    terminal_run (T + R) ev (res P (list R)) :=
  let n := length items in
  match pass_plan n w pool with
  | Ret Serial => inline (map_collect op items)
  | Ret (Parallel plan) =>
      mkRun (from_vec items ∪ uninit n) (par_index_collect on_pool mode (Z.to_nat pool) n op plan)
  | _ => mkRun ∅ (Done (Unwind overflow))
  end.

(** [RangeReduce::fold], and [fused_pass_reduce]. *)
Definition range_reduce_fold {T O A} (op : T → res P O) (r : Reducer P O A) (acc : A) (item : T) : res P A :=
  rbind (op item) (FusedStages.fold r acc).

Definition fused_pass_reduce {T O A} (items : list T) (op : T → res P O) (r : Reducer P O A) (w : Workload)
    (pool : Z) : terminal_run (T + A) ev (res P A) :=
  let n := length items in
  let nt := Z.to_nat pool in
  match pass_plan n w pool with
  | Ret Serial => inline (fold_seq (range_reduce_fold op r) (identity r) items)
  | Ret (Parallel plan) =>
      mkRun (from_vec items ∪ empty_cells (chunk_slots_new n (hybrid_num_chunks n plan nt)))
        (par_reduce on_pool mode nt (identity r) (range_reduce_fold op r) (combine r) n plan)
  | _ => mkRun ∅ (Done (Unwind overflow))
  end.

(** [fuse_exec]: a stage composes its function and asks the stages before it; a
    pinned stage and a stage of another kind give the items back. *)
Fixpoint fuse_exec {I M} (chain : StreamChain I M) :
    ∀ {O}, (M → res P O) → list I → Workload → Z → terminal_run (I + O) ev (res P (list O)) + list I :=
  match chain with
  | StreamStart => λ O downstream items w pool, inl (fused_pass_collect items downstream w pool)
  | SyncStage prev opts f => λ O downstream items w pool,
      match workers opts, buffer opts with
      | None, None => fuse_exec prev (FuseCompose f downstream) items w pool
      | _, _ => inr items
      end
  | FenceStage _ _ => λ O downstream items w pool, inr items
  end.

(** [fuse_exec_reduce]. *)
Fixpoint fuse_exec_reduce {I M} (chain : StreamChain I M) :
    ∀ {O A}, (M → res P O) → Reducer P O A → list I → Workload → Z → terminal_run (I + A) ev (res P A) + list I :=
  match chain with
  | StreamStart => λ O A downstream r items w pool, inl (fused_pass_reduce items downstream r w pool)
  | SyncStage prev opts f => λ O A downstream r items w pool,
      match workers opts, buffer opts with
      | None, None => fuse_exec_reduce prev (FuseCompose f downstream) r items w pool
      | _, _ => inr items
      end
  | FenceStage _ _ => λ O A downstream r items w pool, inr items
  end.

(** The pool a pass runs on: the builder's, or the global one. *)
Definition pass_pool (pool : option Z) : Z :=
  match pool with Some p => p | None => pool_new num_cpus end.

(** [run_stream_pass] and [reduce_stream_pass], up to the call of
    [exec_stream]: a run on the fused core, or the items left for the stream. *)
Definition run_stream_pass {I O} (b : StreamPipe I O) : terminal_run (I + O) ev (res P (list O)) + list I :=
  if bool_decide (sp_cancel b = None) && negb (compute_workers_pinned (sp_config b)) then
    fuse_exec (sp_stages b) (FusedOp (@Identity P O) eq_refl) (sp_items b) (workload (sp_config b))
      (pass_pool (sp_pool b))
  else inr (sp_items b).

Definition reduce_stream_pass {I O A} (b : StreamPipe I O) (r : Reducer P O A) :
    terminal_run (I + A) ev (res P A) + list I :=
  if bool_decide (sp_cancel b = None) && negb (compute_workers_pinned (sp_config b)) then
    fuse_exec_reduce (sp_stages b) (FusedOp (@Identity P O) eq_refl) r (sp_items b) (workload (sp_config b))
      (pass_pool (sp_pool b))
  else inr (sp_items b).
End pass.

(** ** Which chains are eligible *)

Fixpoint unpinned_maps {I O} (chain : StreamChain I O) : bool :=
  match chain with
  | StreamStart => true
  | SyncStage prev opts _ =>
      bool_decide (workers opts = None) && bool_decide (buffer opts = None) && unpinned_maps prev
  | FenceStage _ _ => false
  end.

Definition eligible {I O} (b : StreamPipe I O) : bool :=
  bool_decide (sp_cancel b = None) && negb (compute_workers_pinned (sp_config b)) && unpinned_maps (sp_stages b).

Section spec.
Context {P E X : Type}.
Context (overflow : P) (num_cpus : Z) (ov sl : option Z) (on_pool : bool) (mode : OnpoolHybrid).

(** Composing the stages from the last to the first is the chain's function. *)
Lemma fuse_exec_composes {I M} (chain : StreamChain I M) O (downstream : M → res P O) items w pool :
  fuse_exec (E := E) (X := X) overflow ov sl on_pool mode chain downstream items w pool =
  if unpinned_maps chain
  then inl (fused_pass_collect overflow ov sl on_pool mode items (λ x, downstream (chain_fun chain x)) w pool)
  else inr items.
Proof.
  revert O downstream. induction chain as [I|I M N prev IH opts f|I M prev IH fm]; intros O downstream; cbn;
    [done| |done].
  destruct (workers opts), (buffer opts); cbn; [done..|]. apply IH.
Qed.

Lemma fuse_exec_reduce_composes {I M} (chain : StreamChain I M) O A (downstream : M → res P O)
    (r : Reducer P O A) items w pool :
  fuse_exec_reduce (E := E) (X := X) overflow ov sl on_pool mode chain downstream r items w pool =
  if unpinned_maps chain
  then inl (fused_pass_reduce overflow ov sl on_pool mode items (λ x, downstream (chain_fun chain x)) r w pool)
  else inr items.
Proof.
  revert O A downstream r. induction chain as [I|I M N prev IH opts f|I M prev IH fm]; intros O A downstream r;
    cbn; [done| |done].
  destruct (workers opts), (buffer opts); cbn; [done..|]. apply IH.
Qed.

Lemma map_collect_total {T R} (g : T → R) (items : list T) :
  map_collect (P := P) (λ x, Val (g x)) items = Val (g <$> items).
Proof. induction items as [|x items IH]; cbn; [done|]. by rewrite IH. Qed.

Lemma total_forall2 {T R} (g : T → R) (items : list T) ys :
  Forall2 (λ x y, Val (P := P) (g x) = Val y) items ys → ys = g <$> items.
Proof. induction 1 as [|x y xs ys Hxy _ ->]; [done|]. by injection Hxy as <-. Qed.

Context (steal : bool → bool) (some_schedule : ∃ c, steal c = true).

(** The collecting pass of a function that returns. *)
Lemma fused_pass_collect_spec {T R} `{!Inhabited T, !Inhabited R} (g : T → R) (items : list T) w pool :
  let run := fused_pass_collect (E := E) (X := X) overflow ov sl on_pool mode items (λ x, Val (g x)) w pool in
  always steal (body run) (heap run) (λ v m es, no_live m ∧
    (v = Val (g <$> items) ∨ v = Unwind overflow ∧ pass_plan ov sl (length items) w pool = Panic)).
Proof using some_schedule.
  cbv zeta. unfold fused_pass_collect. pose proof (terminal_plan_cases ov sl (length items) w pool) as Hc.
  unfold pass_plan in *. case_match; try done; [case_match|].
  - constructor. split; [apply no_live_empty|]. left. apply map_collect_total.
  - eapply always_mono; [apply par_index_collect_correct; try apply Hc; try done|].
    intros [ys|p] m es [Hm Hr]; (split; [done|]).
    + left. f_equal. by apply total_forall2.
    + by destruct Hr as (x & _ & ?).
  - constructor. split; [apply no_live_empty|]. by right.
Qed.

(** The folding pass of a function that returns. *)
Lemma fused_pass_reduce_spec {T O A} `{!Inhabited T, !Inhabited A} (g : T → O) (r : Reducer P O A)
    `{!ReducerLaws r} (items : list T) w pool :
  let run := fused_pass_reduce (E := E) (X := X) overflow ov sl on_pool mode items (λ x, Val (g x)) r w pool in
  always steal (body run) (heap run) (λ v m es, buffers_gone m ∧
    match v with
    | Val a => fold_seq (FusedStages.fold r) (identity r) (g <$> items) = Val a
    | Unwind p => (∃ a x, x ∈ items ∧ FusedStages.fold r a (g x) = Unwind p) ∨
        (p = overflow ∧ pass_plan ov sl (length items) w pool = Panic)
    end).
Proof using some_schedule.
  assert (∀ a, fold_seq (FusedStages.fold r) a (g <$> items) = fold_seq (range_reduce_fold (λ x, Val (g x)) r) a items)
    as Hseq.
  { induction items as [|x xs IH]; intros a; cbn; [done|]. apply rbind_ext. intros b. apply IH. }
  cbv zeta. unfold fused_pass_reduce. pose proof (terminal_plan_cases ov sl (length items) w pool) as Hc.
  unfold pass_plan in *. case_match; try done; [case_match|].
  - constructor. split; [apply buffers_gone_empty|]. destruct (fold_seq _ _ items) as [z|p] eqn:Hf; [by rewrite Hseq|].
    left. apply fold_seq_unwind in Hf as (a' & x & Hx & Hp). by exists a', x.
  - eapply always_mono.
    { apply par_reduce_correct; try apply Hc; try done; [apply combine_seed|].
      intros z y t. apply combine_fold. }
    intros [z|p] m es [Hm Hr]; (split; [done|]); [by rewrite Hseq|].
    destruct Hr as (a' & x & Hx & Hp). left. by exists a', x.
  - constructor. split; [apply buffers_gone_empty|]. by right.
Qed.
End spec.

(** ** Theorems *)

(** C39: which engine runs a stream cannot be observed.  A collecting terminal
    hands the batch to the fused core exactly when no token is attached, the
    worker budget is not pinned and all stages are unpinned map stages;
    otherwise it leaves every item to the streaming engine.  On the fused core
    it terminates, under every interleaving, without touching a slot in the
    wrong state and without leaving a live one, and returns the composed stage
    functions applied to the items in input order - what [stream_run_is_map]
    says of the run on channels - unless the plan's task count overflows.
    The stage functions are taken to return. *)
Theorem collect_pass_is_chain {P E X I O : Type} `{!Inhabited I, !Inhabited O} (steal : bool → bool)
    (overflow : P) (num_cpus : Z) (ov sl : option Z) (on_pool : bool) (mode : OnpoolHybrid)
    (b : StreamPipe I O) (Hs : ∃ c, steal c = true) :
  match run_stream_pass (E := E) (X := X) overflow num_cpus ov sl on_pool mode b with
  | inl run => eligible b = true ∧
      always steal (body run) (heap run) (λ v m es, no_live m ∧
        (v = Val (chain_fun (sp_stages b) <$> sp_items b) ∨
         v = Unwind overflow ∧ pass_plan ov sl (length (sp_items b)) (workload (sp_config b))
                                 (pass_pool num_cpus (sp_pool b)) = Panic))
  | inr items => eligible b = false ∧ items = sp_items b
  end.
Proof.
  unfold run_stream_pass, eligible. destruct (bool_decide _ && negb _); cbn [andb]; [|done].
  rewrite fuse_exec_composes. destruct (unpinned_maps (sp_stages b)); [|done].
  split; [done|]. by apply (fused_pass_collect_spec overflow ov sl on_pool mode steal Hs (chain_fun (sp_stages b))).
Qed.

Definition demo_stream : StreamPipe Z bool :=
  mkStreamPipe [1; 2; 3; 4; 5]%Z (SyncStage (SyncStage StreamStart no_options (λ x, x * 3)%Z) no_options Z.even)
    (default_config 4) None None.

Lemma collect_pass_is_chain_witness :
  match run_stream_pass (E := nat) (X := nat) 0%nat 4 None None false OnpoolOff demo_stream with
  | inl run => eligible demo_stream = true ∧
      always (λ _, true) (body run) (heap run) (λ v m es, no_live m ∧
        (v = Val [false; true; false; true; false] ∨
         v = Unwind 0%nat ∧ pass_plan None None 5 Balanced (pass_pool 4 None) = Panic))
  | inr items => False
  end.
Proof.
  exact (collect_pass_is_chain (E := nat) (X := nat) (λ _, true) 0%nat 4 None None false OnpoolOff demo_stream
    ltac:(by exists true)).
Defined.

(** C40: the same for the folding terminals, for a reducer whose partial results
    combine ([ReducerLaws]: an associative operation, a monoid, or a count):
    the pass runs on the fused core exactly for the eligible pipelines and
    gives every item back otherwise; on the core it terminates under every
    interleaving without a fault, leaves no item in the input buffer, and
    returns the sequential fold of the mapped items in input order, or raises a
    panic of the reducer on one of them, or the plan's overflow. *)
Theorem reduce_pass_is_chain {P E X I O A : Type} `{!Inhabited I, !Inhabited A} (steal : bool → bool)
    (overflow : P) (num_cpus : Z) (ov sl : option Z) (on_pool : bool) (mode : OnpoolHybrid)
    (b : StreamPipe I O) (r : Reducer P O A) (Hr : ReducerLaws r) (Hs : ∃ c, steal c = true) :
  match reduce_stream_pass (E := E) (X := X) overflow num_cpus ov sl on_pool mode b r with
  | inl run => eligible b = true ∧
      always steal (body run) (heap run) (λ v m es, buffers_gone m ∧
        match v with
        | Val a => fold_seq (FusedStages.fold r) (identity r) (chain_fun (sp_stages b) <$> sp_items b) = Val a
        | Unwind p => (∃ a x, x ∈ sp_items b ∧ FusedStages.fold r a (chain_fun (sp_stages b) x) = Unwind p) ∨
            (p = overflow ∧ pass_plan ov sl (length (sp_items b)) (workload (sp_config b))
                              (pass_pool num_cpus (sp_pool b)) = Panic)
        end)
  | inr items => eligible b = false ∧ items = sp_items b
  end.
Proof.
  unfold reduce_stream_pass, eligible. destruct (bool_decide _ && negb _); cbn [andb]; [|done].
  rewrite fuse_exec_reduce_composes. destruct (unpinned_maps (sp_stages b)); [|done].
  split; [done|].
  by apply (fused_pass_reduce_spec overflow ov sl on_pool mode steal Hs (chain_fun (sp_stages b)) r).
Qed.

Lemma reduce_pass_is_chain_witness :
  match reduce_stream_pass (E := nat) (X := nat) 0%nat 4 None None false OnpoolOff demo_stream count_reducer with
  | inl run => eligible demo_stream = true ∧
      always (λ _, true) (body run) (heap run) (λ v m es, buffers_gone m ∧
        match v with
        | Val a => Val 5%nat = Val (P := nat) a
        | Unwind p => (∃ a x, x ∈ [1; 2; 3; 4; 5]%Z ∧
              FusedStages.fold count_reducer a (chain_fun (sp_stages demo_stream) x) = Unwind p) ∨
            (p = 0%nat ∧ pass_plan None None 5 Balanced (pass_pool 4 None) = Panic)
        end)
  | inr items => False
  end.
Proof.
  exact (reduce_pass_is_chain (P := nat) (E := nat) (X := nat) (A := nat) (λ _, true) 0%nat 4 None None false
    OnpoolOff demo_stream count_reducer _ ltac:(by exists true)).
Defined.
