(* ===== verification/FusedByRef.v ===== *)
(** * Pipelines over borrowed slices

    [PipeRef] and [TryPipeRef] of
    [src/crates/youpipe/src/builder/typed/borrowed.rs] and the by-reference
    entry points of [fused.rs] they call.  The items stay with the caller: a
    terminal owns its output buffers only.

    [collect] on a chain that may filter picks one of three implementations -
    the merge tree, count-then-place ([FilterPlace]), write-then-compact
    ([FilterCompact]) - from the builder's mode, an environment variable and
    the length.  The theorems show that the choice cannot be observed: all
    compute what a sequential loop over the slice computes. *)

From stdpp Require Import strings.
From S2P Require Import Prelude SleepCounters Config ForkJoin FusedTree FusedPlan HybridDispatch.
From S2P Require Import FusedCollect FusedStages FusedReduce ReduceDispatch ParReduce.
From S2P Require Import LeafTree FilterPlace FilterCompact FusedPipe.
Local Open Scope prog_scope.

(** ** Runs that choose what their slots hold *)

(** The implementations of a terminal keep different data in their cells. *)
Inductive by_ref_run (X B : Type) : Type := Run (V : Type) (ph : phases V X B).
Arguments Run {X B V} ph.

(** The run, from no slots, under every interleaving: correct, and no output
    left in a buffer. *)
Definition always_by_ref {X B : Type} (steal : bool → bool) (r : by_ref_run X B)
    (Q : B → list X → Prop) : Prop :=
  match r with Run ph => always_phases steal ph ∅ (λ b m es, buffers_gone m ∧ Q b es) end.

Definition immediate {X B : Type} (b : B) : by_ref_run X B := Run (V := unit) (Last (Done b)).

Lemma immediate_spec {X B : Type} (steal : bool → bool) (b : B) (Q : B → list X → Prop) :
  Q b [] → always_by_ref steal (immediate b) Q.
Proof. intros HQ. constructor. split; [apply buffers_gone_empty|done]. Qed.

(** A run of one program over slots allocated for it. *)
Definition over {V X B : Type} (m : mem V) (p : prog V X B) : by_ref_run X B := Run (alloc m (Last p)).

Lemma over_spec {V X B : Type} (steal : bool → bool) (m : mem V) (p : prog V X B) (Q : B → list X → Prop) :
  always steal p m (λ b m es, buffers_gone m ∧ Q b es) → always_by_ref steal (over m p) Q.
Proof.
  intros Hp. apply always_alloc; [apply map_disjoint_empty_r|]. by rewrite (right_id_L ∅ (∪)).
Qed.

Lemma no_live_outputs {V : Type} (m : mem V) : no_live m → buffers_gone m.
Proof. intros Hm b i v _. apply Hm. Qed.

(** ** The merge tree *)

Section merge.
Context {T R X P E : Type} (input : list T).

Fixpoint push_loop (apply : T → res P (option R)) (out : list R) (items : list T) : res P (list R) :=
  match items with
  | [] => Val out
  | t :: ts => rbind (apply t) (λ o, push_loop apply (match o with Some r => out ++ [r] | None => out end) ts)
  end.

(** [join_fused_collect_by_ref] and [join_fused_try_collect_by_ref]. *)
Definition join_fused_collect_by_ref (apply : T → res P (option R)) (splits start end_ : nat) :
    prog (T + R) X (res P (list R)) :=
  join_tree (λ s e, with_slice input s e (λ items, Done (push_loop apply [] items)))
    (λ l r, Val (l ++ r)) splits start end_.
Definition join_fused_try_collect_by_ref (try_apply : T → res P (rresult (option R) E))
    (splits start end_ : nat) : prog (T + R) X (res P (rresult (list R) E)) :=
  join_tree (λ s e, with_slice input s e (λ items, Done (try_push_loop try_apply [] items)))
    (both_ok (λ l r, Val (l ++ r))) splits start end_.

Lemma push_loop_seq apply out items :
  push_loop apply out items = rbind (filter_map_seq apply items) (λ rs, Val (out ++ rs)).
Proof.
  revert out. induction items as [|t ts IH]; intros out; cbn; [by rewrite app_nil_r|].
  destruct (apply t) as [o|p]; cbn; [|done]. rewrite IH.
  destruct (filter_map_seq apply ts) as [rs|p]; cbn; [|done]. destruct o; [by rewrite <- app_assoc|done].
Qed.

(** A tree of leaves that only compute. *)
Lemma pure_tree_spec {A : Type} (steal : bool → bool) (leaf : list T → res P A) (node : A → A → res P A)
    (Φ : list T → res P A → Prop) depth :
  (∃ c, steal c = true) →
  (∀ items, Φ items (leaf items)) →
  (∀ l1 l2 a b, Φ l1 a → Φ l2 b → Φ (l1 ++ l2) (rbind a (λ x, rbind b (λ y, node x y)))) →
  always (V := T + R) (X := X) steal
    (join_tree (λ s e, with_slice input s e (λ items, Done (leaf items))) node depth 0 (length input)) ∅
    (λ r m es, buffers_gone m ∧ es = [] ∧ Φ input r).
Proof.
  intros Hs Hleaf Hnode.
  assert (∅ = own (∅ : gset loc) (λ _ : loc, None : option (T + R))) as ->.
  { apply map_eq. intros l. by rewrite lookup_empty, lookup_own, decide_False by set_solver. }
  eapply always_mono.
  { apply (join_tree_spec _ node steal (λ _ _, ∅) _ (λ _, None) (length input)
      (λ s e r, Φ (items_of input (s, e)) r)); [|set_solver|set_solver| |done|lia].
    - intros s e Hse. rewrite with_slice_ok by lia. by constructor.
    - intros s m e l r Hm He Hl Hr.
      assert (items_of input (s, e) = items_of input (s, m) ++ items_of input (m, e)) as ->; [|by apply Hnode].
      pose proof (covers_items input [(s, m); (m, e)] s e) as Hc. cbn in Hc. rewrite app_nil_r in Hc.
      unfold items_of at 1. cbn [fst snd]. symmetry. apply Hc; [lia|lia]. }
  intros r m es (-> & -> & Hr). split_and!; [by apply buffers_gone_own|done|].
  unfold items_of in Hr. cbn [fst snd] in Hr. by rewrite Nat.sub_0_r, drop_0, firstn_all in Hr.
Qed.

Lemma merge_correct (steal : bool → bool) (apply : T → res P (option R)) depth :
  (∃ c, steal c = true) →
  always steal (join_fused_collect_by_ref apply depth 0 (length input)) ∅
    (λ r m es, buffers_gone m ∧ es = [] ∧ r = filter_map_seq apply input).
Proof.
  intros Hs. apply (pure_tree_spec steal (push_loop apply []) _ (λ items r, r = filter_map_seq apply items)); [done| |].
  - intros items. rewrite push_loop_seq. by destruct (filter_map_seq apply items).
  - intros l1 l2 a b -> ->. by rewrite filter_map_seq_app.
Qed.
End merge.

(** ** Choosing the filter collect *)

Inductive FilterCollectVariant : Type := VMerge | VCtp | VWtc.

(** [env_filter_collect_override] for the value of the variable, if set. *)
Definition env_filter_collect_override (env : option string) : outcome (option FilterCollectVariant) :=
  match env with
  | None => mret None
  | Some v =>
      if bool_decide (v = "merge"%string) then mret (Some VMerge)
      else if bool_decide (v = "ctp"%string) then mret (Some VCtp)
      else if bool_decide (v = "wtc"%string) then mret (Some VWtc)
      else Panic
  end.

Definition FILTER_COLLECT_AUTO_WTC_MIN_N : Z := 100000.
Definition auto_filter_collect_variant (n : nat) : FilterCollectVariant :=
  if bool_decide (FILTER_COLLECT_AUTO_WTC_MIN_N ≤ Z.of_nat n)%Z then VWtc else VMerge.

Definition resolve_filter_collect_variant (env : option string) (mode : FilterCollectMode) (n : nat) :
    outcome FilterCollectVariant :=
  match mode with
  | Merge => mret VMerge
  | Ctp => mret VCtp
  | Wtc => mret VWtc
  | Auto => v ← env_filter_collect_override env; mret (default (auto_filter_collect_variant n) v)
  end.

(** ** The entry points *)

(** The payloads of the panics the code raises itself: an overflow, an invalid
    environment variable, the two assertions of the count-then-place pass. *)
Record Payloads (P : Type) : Type := mkPayloads {
  overflow : P;
  invalid_env : P;
  kept_more : P;
  kept_fewer : P;
}.
Arguments mkPayloads {P} _ _ _ _.
Arguments overflow {P} _.
Arguments invalid_env {P} _.
Arguments kept_more {P} _.
Arguments kept_fewer {P} _.

Section entries.
Context {P E X : Type} (pay : Payloads P).
(** The environment: the knobs of the plan, the filter variant, the dispatch
    surface; whether the caller is a worker of the pool; the size of an output
    in bytes. *)
Context (oversplit_env slack_env : option Z) (env : option string) (on_pool : bool) (onpool : OnpoolHybrid).
Context (size : Z).
Notation ev := (event P E X).

Definition by_ref_terminal {A} (n : nat) (w : Workload) (num_workers : Z) (serial : by_ref_run ev (res P A))
    (parallel : SplitPlan → by_ref_run ev (res P A)) : by_ref_run ev (res P A) :=
  match terminal_plan oversplit_env slack_env (Z.of_nat n) w num_workers with
  | Ret Serial => serial
  | Ret (Parallel plan) => parallel plan
  | _ => immediate (Unwind (overflow pay))
  end.

(** The three filter collects. *)
Definition filter_collect_by_ref {T O} (v : FilterCollectVariant) (input : list T)
    (apply : T → res P (option O)) (depth : nat) : by_ref_run ev (res P (list O)) :=
  match v with
  | VMerge => over ∅ (join_fused_collect_by_ref input apply depth 0 (length input))
  | VCtp => Run (fused_filter_collect_by_ref_ctp (kept_more pay) (kept_fewer pay) input apply apply depth)
  | VWtc => Run (fused_filter_collect_by_ref_wtc input apply size depth)
  end.

(** [fused_collect_by_ref]. *)
Definition fused_collect_by_ref {T O} (input : list T) (s : stage P T O) (w : Workload)
    (mode : FilterCollectMode) (num_workers : Z) : by_ref_run ev (res P (list O)) :=
  let n := length input in
  if bool_decide (n = 0)%nat then immediate (Val [])
  else by_ref_terminal n w num_workers (immediate (serial_stage_collect s input)) (λ plan,
    on_filter (MAY_FILTER s)
      match resolve_filter_collect_variant env mode n with
      | Ret v => filter_collect_by_ref v input (apply s) (depth plan)
      | _ => immediate (Unwind (invalid_env pay))
      end
      (λ H, over (uninit n)
         (par_index_collect_by_ref on_pool onpool (Z.to_nat num_workers) input (FusedOp s H) plan))).

(** [fused_try_collect_by_ref]. *)
Definition fused_try_collect_by_ref {T O} (input : list T) (t : tstage P T O E) (w : Workload)
    (num_workers : Z) : by_ref_run ev (res P (rresult (list O) E)) :=
  let n := length input in
  if bool_decide (n = 0)%nat then immediate (Val (Ok []))
  else by_ref_terminal n w num_workers (immediate (serial_stage_try_collect t input)) (λ plan,
    on_filter (T_MAY_FILTER t)
      (over ∅ (join_fused_try_collect_by_ref input (try_apply t) (depth plan) 0 n))
      (λ H, over (uninit n)
         (par_index_try_collect_by_ref on_pool onpool (Z.to_nat num_workers) input (FusedTryOp t H) plan))).

(** [fused_reduce_by_ref] and [fused_try_reduce_by_ref]. *)
Definition fused_reduce_by_ref {T O A} (input : list T) (s : stage P T O) (r : Reducer P O A) (w : Workload)
    (num_workers : Z) : by_ref_run ev (res P A) :=
  let n := length input in
  let nt := Z.to_nat num_workers in
  if bool_decide (n = 0)%nat then immediate (Val (identity r))
  else by_ref_terminal n w num_workers
    (immediate (iter_fold (outputs s) (FusedStages.fold r) (identity r) input)) (λ plan,
    over (empty_cells (chunk_slots_new n (hybrid_num_chunks n plan nt)))
      (par_reduce_by_ref on_pool onpool nt (identity r) (fused_fold s r) (combine r) input plan)).
Definition fused_try_reduce_by_ref {T O A} (input : list T) (t : tstage P T O E) (r : Reducer P O A)
    (w : Workload) (num_workers : Z) : by_ref_run ev (res P (rresult A E)) :=
  let n := length input in
  let nt := Z.to_nat num_workers in
  if bool_decide (n = 0)%nat then immediate (Val (Ok (identity r)))
  else by_ref_terminal n w num_workers
    (immediate (try_fold_loop (try_apply t) (FusedStages.fold r) (identity r) input)) (λ plan,
    over (empty_cells (chunk_slots_new n (hybrid_num_chunks n plan nt)))
      (par_reduce_try_by_ref on_pool onpool nt (identity r) (fused_try_fold t r) (combine r) input plan)).
End entries.

(** [fused_for_each_by_ref]. *)
Definition fused_for_each_by_ref {P E X T O : Type} (pay : Payloads P) (ov sl : option Z) (on_pool : bool)
    (onpool : OnpoolHybrid) (input : list T) (s : stage P T O) (f : O → res P X) (w : Workload)
    (num_workers : Z) : by_ref_run (event P E (option X)) (res P unit) :=
  let n := length input in
  if bool_decide (n = 0)%nat then immediate (Val tt)
  else by_ref_terminal pay ov sl n w num_workers
    (over (∅ : mem (T + unit)) (serial_stage_for_each s f input))
    (λ plan, over ∅ (par_for_each_by_ref (R := unit) on_pool onpool (Z.to_nat num_workers) input
       (sink_consume s f) plan)).

(** ** The builders *)

Record PipeRef (P T O : Type) : Type := mkPipeRef {
  ref_items : list T;
  ref_stages : stage P T O;
  ref_exec : ExecOptions;
}.
Arguments mkPipeRef {P T O} _ _ _.
Arguments ref_items {P T O} _.
Arguments ref_stages {P T O} _.
Arguments ref_exec {P T O} _.

Record TryPipeRef (P T O E : Type) : Type := mkTryPipeRef {
  try_ref_items : list T;
  try_ref_stages : tstage P T O E;
  try_ref_exec : ExecOptions;
}.
Arguments mkTryPipeRef {P T O E} _ _ _.
Arguments try_ref_items {P T O E} _.
Arguments try_ref_stages {P T O E} _.
Arguments try_ref_exec {P T O E} _.

Definition pipe_ref {P T} (num_cpus : Z) (items : list T) : PipeRef P T T :=
  mkPipeRef items Identity (mkExec (default_config num_cpus) None None).
Definition ref_with_filter_collect {P T O} (b : PipeRef P T O) (m : FilterCollectMode) : PipeRef P T O :=
  let x := ref_exec b in
  mkPipeRef (ref_items b) (ref_stages b)
    (mkExec (with_filter_collect (config x) m) (compute_pool x) (oversubscribe x)).
Definition ref_map {P T O N} (b : PipeRef P T O) (f : O → res P N) : PipeRef P T N :=
  mkPipeRef (ref_items b) (SyncMap (ref_stages b) f) (ref_exec b).
Definition ref_filter {P T O} (b : PipeRef P T O) (f : O → res P bool) : PipeRef P T O :=
  mkPipeRef (ref_items b) (Filter (ref_stages b) f) (ref_exec b).
Definition ref_try_map {P T O N E} (b : PipeRef P T O) (f : O → res P (rresult N E)) : TryPipeRef P T N E :=
  mkTryPipeRef (ref_items b) (TryMap (InfallibleChain (ref_stages b)) f) (ref_exec b).
Definition try_ref_map {P T O N E} (b : TryPipeRef P T O E) (f : O → res P N) : TryPipeRef P T N E :=
  mkTryPipeRef (try_ref_items b) (TSyncMap (try_ref_stages b) f) (try_ref_exec b).
Definition try_ref_filter {P T O E} (b : TryPipeRef P T O E) (f : O → res P bool) : TryPipeRef P T O E :=
  mkTryPipeRef (try_ref_items b) (TFilter (try_ref_stages b) f) (try_ref_exec b).
Definition try_ref_try_map {P T O N E} (b : TryPipeRef P T O E) (f : O → res P (rresult N E)) :
    TryPipeRef P T N E :=
  mkTryPipeRef (try_ref_items b) (TryMap (try_ref_stages b) f) (try_ref_exec b).
Definition try_ref_map_err {P T O E E2} (b : TryPipeRef P T O E) (f : E → res P E2) : TryPipeRef P T O E2 :=
  mkTryPipeRef (try_ref_items b) (MapErr (try_ref_stages b) f) (try_ref_exec b).

Section ref_terminals.
Context {P E X : Type} (pay : Payloads P) (num_cpus : Z).
Context (ov sl : option Z) (env : option string) (on_pool : bool) (onpool : OnpoolHybrid) (size : Z).
Notation ev := (event P E X).
Notation pool x := (as_pool (resolve num_cpus x)).

(** [PipeRef::collect], [reduce], [fold], [sum], [count], [min] and
    [max]. *)
Definition ref_collect {T O} (b : PipeRef P T O) : by_ref_run ev (res P (list O)) :=
  fused_collect_by_ref pay ov sl env on_pool onpool size (ref_items b) (ref_stages b)
    (workload (config (ref_exec b))) (filter_collect (config (ref_exec b))) (pool (ref_exec b)).
Definition ref_reduce_with {T O A} (b : PipeRef P T O) (r : Reducer P O A) : by_ref_run ev (res P A) :=
  fused_reduce_by_ref pay ov sl on_pool onpool (ref_items b) (ref_stages b) r
    (workload (config (ref_exec b))) (pool (ref_exec b)).
Definition ref_reduce {T O} (b : PipeRef P T O) (op : O → O → res P O) : by_ref_run ev (res P (option O)) :=
  ref_reduce_with b (option_reducer op).
Definition ref_fold {T O A} (b : PipeRef P T O) (init : A) (f : A → O → res P A) (c : A → A → res P A) :
    by_ref_run ev (res P A) :=
  ref_reduce_with b (fold_reducer init f c).
Definition ref_sum {T O} (b : PipeRef P T O) (zero : O) (plus : O → O → res P O) : by_ref_run ev (res P O) :=
  ref_reduce_with b (sum_reducer zero plus).
Definition ref_count {T O} (b : PipeRef P T O) : by_ref_run ev (res P nat) := ref_reduce_with b count_reducer.
Definition ref_min {T O} (b : PipeRef P T O) (lt : O → O → bool) : by_ref_run ev (res P (option O)) :=
  ref_reduce b (λ x y, Val (ord_min lt x y)).
Definition ref_max {T O} (b : PipeRef P T O) (lt : O → O → bool) : by_ref_run ev (res P (option O)) :=
  ref_reduce b (λ x y, Val (ord_max lt x y)).

(** [TryPipeRef::try_collect], [try_reduce] and [try_fold]. *)
Definition ref_try_collect {T O} (b : TryPipeRef P T O E) : by_ref_run ev (res P (rresult (list O) E)) :=
  fused_try_collect_by_ref pay ov sl on_pool onpool (try_ref_items b) (try_ref_stages b)
    (workload (config (try_ref_exec b))) (pool (try_ref_exec b)).
Definition ref_try_reduce_with {T O A} (b : TryPipeRef P T O E) (r : Reducer P O A) :
    by_ref_run ev (res P (rresult A E)) :=
  fused_try_reduce_by_ref pay ov sl on_pool onpool (try_ref_items b) (try_ref_stages b) r
    (workload (config (try_ref_exec b))) (pool (try_ref_exec b)).
Definition ref_try_reduce {T O} (b : TryPipeRef P T O E) (op : O → O → res P O) :
    by_ref_run ev (res P (rresult (option O) E)) :=
  ref_try_reduce_with b (option_reducer op).
Definition ref_try_fold {T O A} (b : TryPipeRef P T O E) (init : A) (f : A → O → res P A) (c : A → A → res P A) :
    by_ref_run ev (res P (rresult A E)) :=
  ref_try_reduce_with b (fold_reducer init f c).
End ref_terminals.

Definition ref_for_each {P E X T O : Type} (pay : Payloads P) (num_cpus : Z) (ov sl : option Z)
    (on_pool : bool) (onpool : OnpoolHybrid) (b : PipeRef P T O) (f : O → res P X) :
    by_ref_run (event P E (option X)) (res P unit) :=
  fused_for_each_by_ref pay ov sl on_pool onpool (ref_items b) (ref_stages b) f
    (workload (config (ref_exec b))) (as_pool (resolve num_cpus (ref_exec b))).

(** ** Correctness *)

Section correct.
Context {P E X : Type} (steal : bool → bool) (pay : Payloads P) (num_cpus : Z).
Context (ov sl : option Z) (env : option string) (on_pool : bool) (onpool : OnpoolHybrid) (size : Z).
Hypothesis some_schedule : ∃ c, steal c = true.
Notation ev := (event P E X).

Lemma by_ref_terminal_spec {A} n w nw (serial : by_ref_run ev (res P A)) parallel Q :
  always_by_ref steal serial Q →
  (∀ plan, (2 ≤ n)%nat → (2 ≤ Z.to_nat nw)%nat → always_by_ref steal (parallel plan) Q) →
  (terminal_plan ov sl (Z.of_nat n) w nw = Panic → Q (Unwind (overflow pay)) []) →
  always_by_ref steal (by_ref_terminal pay ov sl n w nw serial parallel) Q.
Proof.
  intros Hs Hp Ho. unfold by_ref_terminal. pose proof (terminal_plan_cases ov sl n w nw) as Hc.
  case_match; try done; [case_match; [done|]|].
  - apply Hp; apply Hc.
  - apply immediate_spec. by apply Ho.
Qed.

(** Whatever the variant, the sequential result. *)
Lemma filter_variants_agree {T O} `{!Inhabited O} v (input : list T) (f : T → res P (option O)) depth
    (Q : res P (list O) → list ev → Prop) :
  Q (filter_map_seq f input) [] → always_by_ref steal (filter_collect_by_ref pay size v input f depth) Q.
Proof using some_schedule.
  intros HQ. destruct v; cbn [filter_collect_by_ref].
  - apply over_spec. eapply always_mono; [by apply merge_correct|]. by intros r m es (Hm & -> & ->).
  - eapply always_phases_mono; [by apply ctp_sequential|]. by intros r m es (Hm & -> & ->).
  - eapply always_phases_mono; [by apply wtc_correct|]. by intros r m es (Hm & -> & ->).
Qed.
End correct.

(** An invalid value of the environment variable is only read by filtering
    chains whose builder leaves the choice to it. *)
Definition bad_env {P T O : Type} (env : option string) (mode : FilterCollectMode) (s : stage P T O) : Prop :=
  MAY_FILTER s = true ∧ mode = Auto ∧ env_filter_collect_override env = Panic.

Lemma variant_cases env mode n :
  (∃ v, resolve_filter_collect_variant env mode n = Ret v) ∨
  resolve_filter_collect_variant env mode n = Panic ∧ mode = Auto ∧ env_filter_collect_override env = Panic.
Proof.
  destruct mode; cbn; [|by left; eexists..].
  unfold env_filter_collect_override. destruct env as [v|]; [|by left; eexists].
  repeat case_bool_decide; [by left; eexists..|]. by right.
Qed.

(** C11: [PipeRef::collect] end to end over a borrowed slice: for every slice,
    chain, options, filter mode, environment and caller, and under every
    interleaving, the call terminates without touching a slot in the wrong
    state, leaves no output in a buffer, and returns the surviving outputs in
    input order; which of the merge tree, count-then-place and
    write-then-compact runs cannot be observed.  A panic is an item's, the
    overflow of the plan's task count, or the rejection of an invalid
    environment variable by a filtering chain in automatic mode.  The side
    condition [no_second_panic]: when the chain has no filter and a worker may
    run the second half of its own join, no item panics after another one
    does. *)
Theorem ref_collect_correct {P E X T O : Type} `{!Inhabited T, !Inhabited O} (steal : bool → bool)
    (pay : Payloads P) (num_cpus : Z) (ov sl : option Z) (env : option string) (on_pool : bool)
    (onpool : OnpoolHybrid) (size : Z) (b : PipeRef P T O)
    (Hs : ∃ c, steal c = true) (Hlate : no_second_panic steal (ref_stages b) (ref_items b)) :
  always_by_ref steal (ref_collect (E := E) (X := X) pay num_cpus ov sl env on_pool onpool size b) (λ r es,
    match r with
    | Val out => filter_map_seq (apply (ref_stages b)) (ref_items b) = Val out
    | Unwind p =>
        (∃ x, x ∈ ref_items b ∧ apply (ref_stages b) x = Unwind p) ∨
        (p = overflow pay ∧ plan_of num_cpus ov sl (length (ref_items b)) (ref_exec b) = Panic) ∨
        (p = invalid_env pay ∧ bad_env env (filter_collect (config (ref_exec b))) (ref_stages b))
    end).
Proof.
  destruct b as [items s x]. unfold ref_collect, fused_collect_by_ref.
  cbn [ref_items ref_stages ref_exec] in *. case_bool_decide as Hn.
  { apply nil_length_inv in Hn as ->. by apply immediate_spec. }
  assert (∀ r, r = filter_map_seq (apply s) items → match r with
    | Val out => filter_map_seq (apply s) items = Val out
    | Unwind p => ∃ y, y ∈ items ∧ apply s y = Unwind p end) as Hseq.
  { intros r ->. destruct (filter_map_seq (apply s) items) as [|p] eqn:Hf; [done|]. by apply filter_map_seq_unwind. }
  apply by_ref_terminal_spec.
  - apply immediate_spec. specialize (Hseq _ (serial_collect_seq s items)).
    destruct (serial_stage_collect s items); [done|by left].
  - intros plan Hn2 Hnt.
    apply (on_filter_both _ _ _ (λ r : by_ref_run (event P E X) _, always_by_ref steal r _)).
    + intros Hm. destruct (variant_cases env (filter_collect (config x)) (length items)) as [[v ->]|(-> & Ha & Hp)].
      * apply filter_variants_agree; [done..|]. specialize (Hseq _ eq_refl). destruct (filter_map_seq (apply s) items); [done|by left].
      * apply immediate_spec. right; right. by split.
    + intros H. apply over_spec. eapply always_mono; [apply par_index_collect_by_ref_correct; try done|].
      * intros Hf i j xi xj p q Hij Hi Hj. rewrite !pure_unwind. by apply (Hlate H Hf i j).
      * intros r m es [Hm Hr]. split; [by apply no_live_outputs|].
        destruct r as [ys|p]; [by apply (pure_forall2 s H)|].
        destruct Hr as (t & Ht & Hp%pure_unwind). left. by exists t.
  - intros Ho. right; left. by split.
Qed.

Lemma ref_collect_correct_witness :
  let pay := mkPayloads 0%nat 1%nat 2%nat 3%nat in
  let b := ref_with_filter_collect
    (ref_filter (ref_map (pipe_ref 4 [1; 2; 3; 4; 5]%nat) (λ x, Val (x * 2)%nat)) (λ x, Val (negb (x =? 4)%nat))) Ctp in
  always_by_ref (λ _, true)
    (ref_collect (E := nat) (X := nat) pay 4 None None (Some "wtc"%string) false OnpoolOff 8 b) (λ r es,
    match r with
    | Val out => filter_map_seq (apply (ref_stages b)) (ref_items b) = Val out
    | Unwind p =>
        (∃ x, x ∈ ref_items b ∧ apply (ref_stages b) x = Unwind p) ∨
        (p = overflow pay ∧ plan_of 4 None None (length (ref_items b)) (ref_exec b) = Panic) ∨
        (p = invalid_env pay ∧ bad_env (Some "wtc"%string) (filter_collect (config (ref_exec b))) (ref_stages b))
    end) ∧
  filter_map_seq (apply (ref_stages b)) (ref_items b) = Val [2; 6; 8; 10]%nat.
Proof.
  intros pay b. split; [|reflexivity].
  apply (ref_collect_correct (λ _, true) pay 4 None None (Some "wtc"%string) false OnpoolOff 8 b); [by exists true|].
  intros H. discriminate H.
Defined.

(** [TryPipeRef::try_collect]: as [TryPipe::try_collect], over a borrowed
    slice. *)
Theorem ref_try_collect_correct {P E X T O : Type} `{!Inhabited T, !Inhabited O} (steal : bool → bool)
    (pay : Payloads P) (num_cpus : Z) (ov sl : option Z) (on_pool : bool) (onpool : OnpoolHybrid)
    (b : TryPipeRef P T O E) :
  (∃ c, steal c = true) → no_panic_after_failure steal (try_ref_stages b) (try_ref_items b) →
  let plan := plan_of num_cpus ov sl (length (try_ref_items b)) (try_ref_exec b) in
  always_by_ref steal (ref_try_collect (X := X) pay num_cpus ov sl on_pool onpool b) (λ r es,
    try_collect_post (overflow pay) (plan = Panic) (T_MAY_FILTER (try_ref_stages b) = true ∨ plan = Ret Serial)
      (try_ref_stages b) (try_ref_items b) r).
Proof.
  intros Hs Hlate. destruct b as [items t x]. cbv zeta. unfold ref_try_collect, fused_try_collect_by_ref.
  cbn [try_ref_items try_ref_stages try_ref_exec] in *. case_bool_decide as Hn.
  { apply nil_length_inv in Hn as ->. by apply immediate_spec. }
  unfold by_ref_terminal. pose proof (terminal_plan_cases ov sl (length items) (workload (config x))
    (as_pool (resolve num_cpus x))) as Hc. fold (plan_of num_cpus ov sl (length items) x) in Hc |- *.
  destruct (plan_of num_cpus ov sl (length items) x) as [[|plan]|  | |] eqn:Hplan; try done.
  - apply immediate_spec. rewrite serial_try_collect_seq. apply try_collect_post_seq.
  - apply (on_filter_both _ _ _ (λ r : by_ref_run (event P E X) _, always_by_ref steal r _)).
    + intros _. apply over_spec. eapply always_mono.
      { apply (pure_tree_spec items steal (try_push_loop (try_apply t) []) _ (try_value (try_apply t))); [done| |].
        - intros l. rewrite try_push_loop_seq. unfold try_value.
          destruct (try_filter_map_seq (try_apply t) l) as [[]|p] eqn:Hf; cbn; [done|done|].
          by apply try_filter_map_seq_unwind.
        - intros l1 l2 a c. apply try_value_node. }
      intros r m es (Hm & _ & Hr). split; [done|]. destruct r as [v|p]; [|by left].
      rewrite <- (Hr : _ = Val v). apply try_collect_post_seq.
    + intros H. apply over_spec. eapply always_mono; [apply par_index_try_collect_by_ref_correct; try apply Hc; try done|].
      * intros Hf i j xi xj p Hij Hi Hj Hfail. rewrite (proj1 (try_pure_cases t H xj)).
        apply (Hlate H Hf i j xi xj); [done..|]. intros o Ho.
        destruct (proj2 (proj2 (proj2 (try_pure_cases t H xi)))) as [y Hy]; [by exists o|]. by apply (Hfail y).
      * intros r m es [Hm Hr]. split; [by apply no_live_outputs|]. destruct r as [[ys|e]|p].
        -- by apply (try_pure_forall2 t H).
        -- destruct Hr as [(y & Hy & He%try_pure_cases) _]. split; [by exists y|].
           intros [Hf|Hp]; [congruence|done].
        -- destruct Hr as (y & Hy & Hp%try_pure_cases). left. by exists y.
  - apply immediate_spec. by right.
Qed.

(** [PipeRef]'s and [TryPipeRef]'s aggregations, for a reducer whose partials
    combine: the sequential fold. *)
Theorem ref_reduce_correct {P E X T O A : Type} `{!Inhabited T, !Inhabited A} (steal : bool → bool)
    (pay : Payloads P) (num_cpus : Z) (ov sl : option Z) (on_pool : bool) (onpool : OnpoolHybrid)
    (b : PipeRef P T O) (r : Reducer P O A) `{!ReducerLaws r} :
  (∃ c, steal c = true) →
  always_by_ref steal (ref_reduce_with (E := E) (X := X) pay num_cpus ov sl on_pool onpool b r) (λ v es,
    fold_post (overflow pay) (plan_of num_cpus ov sl (length (ref_items b)) (ref_exec b) = Panic)
      (ref_stages b) r (ref_items b) v).
Proof.
  intros Hs. destruct b as [items s x]. unfold ref_reduce_with, fused_reduce_by_ref.
  cbn [ref_items ref_stages ref_exec]. case_bool_decide as Hn.
  { apply nil_length_inv in Hn as ->. by apply immediate_spec. }
  apply by_ref_terminal_spec.
  - apply immediate_spec. rewrite (iter_fold_fused s r) by done. apply fold_post_seq.
  - intros plan Hn2 Hnt. apply over_spec. eapply always_mono.
    { apply par_reduce_by_ref_correct; [done..|apply combine_seed|]. by apply chain_combine_fold. }
    intros v m es [Hm Hv]. split; [done|]. destruct v as [a|p]; [done|by left].
  - intros Ho. by right.
Qed.

Theorem ref_try_reduce_correct {P E X T O A : Type} `{!Inhabited T, !Inhabited A} (steal : bool → bool)
    (pay : Payloads P) (num_cpus : Z) (ov sl : option Z) (on_pool : bool) (onpool : OnpoolHybrid)
    (b : TryPipeRef P T O E) (r : Reducer P O A) `{!ReducerLaws r} :
  (∃ c, steal c = true) →
  let plan := plan_of num_cpus ov sl (length (try_ref_items b)) (try_ref_exec b) in
  always_by_ref steal (ref_try_reduce_with (X := X) pay num_cpus ov sl on_pool onpool b r) (λ v es,
    try_fold_post (overflow pay) (plan = Panic) (plan = Ret Serial) (try_ref_stages b) r (try_ref_items b) v).
Proof.
  intros Hs. destruct b as [items t x]. cbv zeta. unfold ref_try_reduce_with, fused_try_reduce_by_ref.
  cbn [try_ref_items try_ref_stages try_ref_exec]. case_bool_decide as Hn.
  { apply nil_length_inv in Hn as ->. by apply immediate_spec. }
  unfold by_ref_terminal. pose proof (terminal_plan_cases ov sl (length items) (workload (config x))
    (as_pool (resolve num_cpus x))) as Hc. fold (plan_of num_cpus ov sl (length items) x) in Hc |- *.
  destruct (plan_of num_cpus ov sl (length items) x) as [[|plan]|  | |] eqn:Hplan; try done.
  - apply immediate_spec. rewrite (try_fold_loop_fused t r). apply try_fold_post_seq.
  - apply over_spec. eapply always_mono.
    { apply par_reduce_try_by_ref_correct; try apply Hc; [done|apply combine_seed|]. by apply try_chain_combine_fold. }
    intros v m es [Hm Hv]. split; [done|]. destruct v as [[a|e]|q]; [done| |by left].
    split; [by eapply fails_on_err|done].
  - apply immediate_spec. by right.
Qed.

(** [PipeRef::for_each]: as [Pipe::for_each]. *)
Theorem ref_for_each_correct {P E X T O : Type} `{!Inhabited T} (steal : bool → bool)
    (pay : Payloads P) (num_cpus : Z) (ov sl : option Z) (on_pool : bool) (onpool : OnpoolHybrid)
    (b : PipeRef P T O) (f : O → res P X) (items := ref_items b) (s := ref_stages b) :
  (∃ c, steal c = true) →
  (steal false = true → ∀ i j xi xj p q, (i < j)%nat → items !! i = Some xi → items !! j = Some xj →
     sink_consume s f xi = Unwind p → sink_consume s f xj ≠ Unwind q) →
  always_by_ref steal (ref_for_each (E := E) pay num_cpus ov sl on_pool onpool b f) (λ v es,
    match v with
    | Val _ => omap (λ o, o) (user_effects es) ≡ₚ closure_calls s f items ∧
        ∀ x, x ∈ items → ∃ o, sink_consume s f x = Val o
    | Unwind p => omap (λ o, o) (user_effects es) ⊆+ closure_calls s f items ∧
        ((∃ x, x ∈ items ∧ sink_consume s f x = Unwind p) ∨
         (p = overflow pay ∧ plan_of num_cpus ov sl (length items) (ref_exec b) = Panic))
    end).
Proof.
  intros Hs Hlate. unfold ref_for_each, fused_for_each_by_ref, closure_calls. fold items s.
  case_bool_decide as Hn.
  { rewrite (nil_length_inv _ Hn). apply immediate_spec. split; [done|]. by intros ? ?%not_elem_of_nil. }
  apply by_ref_terminal_spec.
  - apply over_spec, serial_for_each_spec.
    + intros es Hes Hall. split; [apply buffers_gone_empty|]. by rewrite Hes.
    + intros es t p Ht Hp Hes. split; [apply buffers_gone_empty|]. split; [by apply omap_submseteq|left; by exists t].
  - intros plan Hn2 Hnt. apply over_spec. eapply always_mono; [by apply par_for_each_by_ref_correct|].
    intros r m es [Hm Hr]. split; [by apply no_live_outputs|]. destruct r as [u|p]; destruct Hr as [H1 H2].
    + split; [by rewrite H2|done].
    + split; [by apply omap_submseteq|by left].
  - intros Ho. split; [apply submseteq_nil_l|by right].
Qed.
