(* ===== verification/Scope.v ===== *)
(** * Scoped pipelines

    [src/crates/youpipe/src/scope/pipeline_scope.rs]: [ScopedPipe] and
    [ScopedTryPipe], builders whose closures may borrow from the enclosing
    [scope] block, and the [fused_*_scoped] entry points of
    [builder/typed/fused.rs] they call.  The entry points repeat the dispatch
    of the terminals of [Pipe] and [TryPipe] with a workload and a pool in
    place of a builder; [scoped_runs_as_pipe] shows that every scoped terminal
    is the same run as its [Pipe] counterpart, so the theorems of [FusedPipe]
    hold for scoped pipelines too. *)

From S2P Require Import Prelude SleepCounters Config ForkJoin FusedTree FusedPlan HybridDispatch.
From S2P Require Import FusedCollect FusedStages FusedReduce ReduceDispatch ParReduce FusedPipe.
Local Open Scope prog_scope.

Section entries.
Context {P E X : Type} (overflow : P) (ov sl : option Z) (on_pool : bool) (mode : OnpoolHybrid).
Notation ev := (event P E X).

Definition scoped_terminal {V A} (n : nat) (w : Workload) (num_workers : Z)
    (serial : terminal_run V ev (res P A)) (parallel : SplitPlan → terminal_run V ev (res P A)) :
    terminal_run V ev (res P A) :=
  match terminal_plan ov sl (Z.of_nat n) w num_workers with
  | Ret Serial => serial
  | Ret (Parallel plan) => parallel plan
  | _ => mkRun ∅ (Done (Unwind overflow))
  end.

Definition fused_collect_scoped {I O} (items : list I) (s : stage P I O) (w : Workload) (nw : Z) :
    terminal_run (I + O) ev (res P (list O)) :=
  let n := length items in
  if bool_decide (n = 0)%nat then inline (Val [])
  else scoped_terminal n w nw (inline (serial_stage_collect s items)) (λ plan,
    on_filter (MAY_FILTER s)
      (mkRun (from_vec items) (fused_filter_collect (apply s) n (depth plan)))
      (λ H, mkRun (from_vec items ∪ uninit n)
         (par_index_collect on_pool mode (Z.to_nat nw) n (FusedOp s H) plan))).

Definition fused_try_collect_scoped {I O} (items : list I) (t : tstage P I O E) (w : Workload) (nw : Z) :
    terminal_run (I + O) ev (res P (rresult (list O) E)) :=
  let n := length items in
  if bool_decide (n = 0)%nat then inline (Val (Ok []))
  else scoped_terminal n w nw (inline (serial_stage_try_collect t items)) (λ plan,
    on_filter (T_MAY_FILTER t)
      (mkRun (from_vec items) (fused_try_filter_collect (try_apply t) n (depth plan)))
      (λ H, mkRun (from_vec items ∪ uninit n)
         (par_index_try_collect on_pool mode (Z.to_nat nw) n (FusedTryOp t H) plan))).

Definition scoped_par_reduce {I O A} (items : list I) (s : stage P I O) (r : Reducer P O A) (nw : Z)
    (plan : SplitPlan) : terminal_run (I + A) ev (res P A) :=
  let n := length items in
  let nt := Z.to_nat nw in
  mkRun (from_vec items ∪ empty_cells (chunk_slots_new n (hybrid_num_chunks n plan nt)))
    (par_reduce on_pool mode nt (identity r) (fused_fold s r) (combine r) n plan).

Definition fused_reduce_scoped {I O A} (items : list I) (s : stage P I O) (r : Reducer P O A)
    (w : Workload) (nw : Z) : terminal_run (I + A) ev (res P A) :=
  let n := length items in
  if bool_decide (n = 0)%nat then inline (Val (identity r))
  else scoped_terminal n w nw
    (inline (iter_fold (outputs s) (FusedStages.fold r) (identity r) items))
    (scoped_par_reduce items s r nw).

(** The serial loop calls [apply] whether or not the chain can filter. *)
Definition fused_fold_scoped {I O A} (items : list I) (s : stage P I O) (init : A) (f : A → O → res P A)
    (c : A → A → res P A) (w : Workload) (nw : Z) : terminal_run (I + A) ev (res P A) :=
  scoped_terminal (length items) w nw (inline (iter_fold (apply s) f init items))
    (scoped_par_reduce items s (fold_reducer init f c) nw).

Definition scoped_par_reduce_try {I O A} (items : list I) (t : tstage P I O E) (r : Reducer P O A) (nw : Z)
    (plan : SplitPlan) : terminal_run (I + A) ev (res P (rresult A E)) :=
  let n := length items in
  let nt := Z.to_nat nw in
  mkRun (from_vec items ∪ empty_cells (chunk_slots_new n (hybrid_num_chunks n plan nt)))
    (par_reduce_try on_pool mode nt (identity r) (fused_try_fold t r) (combine r) n plan).

Definition fused_try_reduce_scoped {I O} (items : list I) (t : tstage P I O E) (op : O → O → res P O)
    (w : Workload) (nw : Z) : terminal_run (I + option O) ev (res P (rresult (option O) E)) :=
  let n := length items in
  if bool_decide (n = 0)%nat then inline (Val (Ok None))
  else scoped_terminal n w nw (inline (try_reduce_loop (try_apply t) op None items))
    (scoped_par_reduce_try items t (option_reducer op) nw).

Definition fused_try_fold_scoped {I O A} (items : list I) (t : tstage P I O E) (init : A)
    (f : A → O → res P A) (c : A → A → res P A) (w : Workload) (nw : Z) :
    terminal_run (I + A) ev (res P (rresult A E)) :=
  scoped_terminal (length items) w nw (inline (try_fold_loop (try_apply t) f init items))
    (scoped_par_reduce_try items t (fold_reducer init f c) nw).
End entries.

Definition fused_for_each_scoped {P E X I O : Type} (overflow : P) (ov sl : option Z) (on_pool : bool)
    (mode : OnpoolHybrid) (items : list I) (s : stage P I O) (f : O → res P X) (w : Workload) (nw : Z) :
    terminal_run (I + unit) (event P E (option X)) (res P unit) :=
  let n := length items in
  if bool_decide (n = 0)%nat then inline (Val tt)
  else scoped_terminal overflow ov sl n w nw (mkRun ∅ (serial_stage_for_each s f items))
    (λ plan, mkRun (from_vec items) (par_for_each on_pool mode (Z.to_nat nw) n (sink_consume s f) plan)).

(** ** The builders *)

Record ScopedPipe (P I O : Type) : Type := mkScoped {
  scoped_items : list I;
  scoped_stages : stage P I O;
  scoped_exec : ExecOptions;
}.
Arguments mkScoped {P I O} _ _ _.
Arguments scoped_items {P I O} _.
Arguments scoped_stages {P I O} _.
Arguments scoped_exec {P I O} _.

Record ScopedTryPipe (P I O E : Type) : Type := mkScopedTry {
  scoped_try_items : list I;
  scoped_try_stages : tstage P I O E;
  scoped_try_exec : ExecOptions;
}.
Arguments mkScopedTry {P I O E} _ _ _.
Arguments scoped_try_items {P I O E} _.
Arguments scoped_try_stages {P I O E} _.
Arguments scoped_try_exec {P I O E} _.

Definition scope_pipe {P I} (num_cpus : Z) (items : list I) : ScopedPipe P I I :=
  mkScoped items Identity (mkExec (default_config num_cpus) None None).
Definition scoped_map {P I O N} (b : ScopedPipe P I O) (f : O → res P N) : ScopedPipe P I N :=
  mkScoped (scoped_items b) (SyncMap (scoped_stages b) f) (scoped_exec b).
Definition scoped_filter {P I O} (b : ScopedPipe P I O) (f : O → res P bool) : ScopedPipe P I O :=
  mkScoped (scoped_items b) (Filter (scoped_stages b) f) (scoped_exec b).
Definition scoped_try_map {P I O N E} (b : ScopedPipe P I O) (f : O → res P (rresult N E)) :
    ScopedTryPipe P I N E :=
  mkScopedTry (scoped_items b) (TryMap (InfallibleChain (scoped_stages b)) f) (scoped_exec b).
Definition scoped_try_pipe_map {P I O N E} (b : ScopedTryPipe P I O E) (f : O → res P N) :
    ScopedTryPipe P I N E :=
  mkScopedTry (scoped_try_items b) (TSyncMap (scoped_try_stages b) f) (scoped_try_exec b).
Definition scoped_try_pipe_filter {P I O E} (b : ScopedTryPipe P I O E) (f : O → res P bool) :
    ScopedTryPipe P I O E :=
  mkScopedTry (scoped_try_items b) (TFilter (scoped_try_stages b) f) (scoped_try_exec b).
Definition scoped_try_pipe_try_map {P I O N E} (b : ScopedTryPipe P I O E) (f : O → res P (rresult N E)) :
    ScopedTryPipe P I N E :=
  mkScopedTry (scoped_try_items b) (TryMap (scoped_try_stages b) f) (scoped_try_exec b).
Definition scoped_try_pipe_map_err {P I O E E2} (b : ScopedTryPipe P I O E) (f : E → res P E2) :
    ScopedTryPipe P I O E2 :=
  mkScopedTry (scoped_try_items b) (MapErr (scoped_try_stages b) f) (scoped_try_exec b).

Section terminals.
Context {P E X : Type} (overflow : P) (num_cpus : Z) (ov sl : option Z) (on_pool : bool) (mode : OnpoolHybrid).
Notation ev := (event P E X).
Notation pool x := (as_pool (resolve num_cpus x)).
Notation load x := (workload (config x)).

Definition scoped_collect {I O} (b : ScopedPipe P I O) : terminal_run (I + O) ev (res P (list O)) :=
  fused_collect_scoped overflow ov sl on_pool mode (scoped_items b) (scoped_stages b)
    (load (scoped_exec b)) (pool (scoped_exec b)).
Definition scoped_reduce_with {I O A} (b : ScopedPipe P I O) (r : Reducer P O A) :
    terminal_run (I + A) ev (res P A) :=
  fused_reduce_scoped overflow ov sl on_pool mode (scoped_items b) (scoped_stages b) r
    (load (scoped_exec b)) (pool (scoped_exec b)).
Definition scoped_reduce {I O} (b : ScopedPipe P I O) (op : O → O → res P O) :
    terminal_run (I + option O) ev (res P (option O)) :=
  scoped_reduce_with b (option_reducer op).
Definition scoped_sum {I O} (b : ScopedPipe P I O) (zero : O) (plus : O → O → res P O) :
    terminal_run (I + O) ev (res P O) :=
  scoped_reduce_with b (sum_reducer zero plus).
Definition scoped_count {I O} (b : ScopedPipe P I O) : terminal_run (I + nat) ev (res P nat) :=
  scoped_reduce_with b count_reducer.
Definition scoped_min {I O} (b : ScopedPipe P I O) (lt : O → O → bool) :
    terminal_run (I + option O) ev (res P (option O)) :=
  scoped_reduce b (λ x y, Val (ord_min lt x y)).
Definition scoped_max {I O} (b : ScopedPipe P I O) (lt : O → O → bool) :
    terminal_run (I + option O) ev (res P (option O)) :=
  scoped_reduce b (λ x y, Val (ord_max lt x y)).
Definition scoped_fold {I O A} (b : ScopedPipe P I O) (init : A) (f : A → O → res P A) (c : A → A → res P A) :
    terminal_run (I + A) ev (res P A) :=
  fused_fold_scoped overflow ov sl on_pool mode (scoped_items b) (scoped_stages b) init f c
    (load (scoped_exec b)) (pool (scoped_exec b)).
Definition scoped_try_collect {I O} (b : ScopedTryPipe P I O E) :
    terminal_run (I + O) ev (res P (rresult (list O) E)) :=
  fused_try_collect_scoped overflow ov sl on_pool mode (scoped_try_items b) (scoped_try_stages b)
    (load (scoped_try_exec b)) (pool (scoped_try_exec b)).
Definition scoped_try_reduce {I O} (b : ScopedTryPipe P I O E) (op : O → O → res P O) :
    terminal_run (I + option O) ev (res P (rresult (option O) E)) :=
  fused_try_reduce_scoped overflow ov sl on_pool mode (scoped_try_items b) (scoped_try_stages b) op
    (load (scoped_try_exec b)) (pool (scoped_try_exec b)).
Definition scoped_try_fold {I O A} (b : ScopedTryPipe P I O E) (init : A) (f : A → O → res P A)
    (c : A → A → res P A) : terminal_run (I + A) ev (res P (rresult A E)) :=
  fused_try_fold_scoped overflow ov sl on_pool mode (scoped_try_items b) (scoped_try_stages b) init f c
    (load (scoped_try_exec b)) (pool (scoped_try_exec b)).
End terminals.

Definition scoped_for_each {P E X I O : Type} (overflow : P) (num_cpus : Z) (ov sl : option Z)
    (on_pool : bool) (mode : OnpoolHybrid) (b : ScopedPipe P I O) (f : O → res P X) :
    terminal_run (I + unit) (event P E (option X)) (res P unit) :=
  fused_for_each_scoped overflow ov sl on_pool mode (scoped_items b) (scoped_stages b) f
    (workload (config (scoped_exec b))) (as_pool (resolve num_cpus (scoped_exec b))).

(** ** Scoped pipelines are pipelines *)

Definition as_pipe {P I O} (b : ScopedPipe P I O) : Pipe P I O :=
  mkPipe (scoped_items b) (scoped_stages b) (scoped_exec b).
Definition as_try_pipe {P I O E} (b : ScopedTryPipe P I O E) : TryPipe P I O E :=
  mkTryPipe (scoped_try_items b) (scoped_try_stages b) (scoped_try_exec b).

Lemma iter_fold_ext {T O A P} (next next' : T → res P (option O)) (f : A → O → res P A) acc items :
  (∀ t, next t = next' t) → iter_fold next f acc items = iter_fold next' f acc items.
Proof.
  intros Hn. revert acc. induction items as [|t ts IH]; intros acc; cbn; [done|]. rewrite Hn.
  apply rbind_ext. intros [v|]; [|apply IH]. apply rbind_ext. intros a. apply IH.
Qed.

Section same.
Context {P E X I O : Type} (overflow : P) (num_cpus : Z) (ov sl : option Z) (on_pool : bool) (mode : OnpoolHybrid).
Context (b : ScopedPipe P I O) (tb : ScopedTryPipe P I O E).

(** The aggregations return early on an empty batch, where the serial arm
    returns the same. *)
Lemma terminal_nil {V A} x (r : res P A) (serial : terminal_run V (event P E X) (res P A)) parallel :
  serial = inline r →
  inline (V := V) (E := E) (X := X) r = terminal overflow num_cpus ov sl 0 x serial parallel.
Proof. intros ->. done. Qed.

Lemma scoped_reduce_same {A} (r : Reducer P O A) (serial : res P A) :
  serial = fold_seq (fused_fold (scoped_stages b) r) (identity r) (scoped_items b) →
  scoped_reduce_with (E := E) (X := X) overflow num_cpus ov sl on_pool mode b r =
    (if bool_decide (length (scoped_items b) = 0)%nat then inline (Val (identity r))
     else terminal overflow num_cpus ov sl (length (scoped_items b)) (scoped_exec b) (inline serial)
       (reduce_run num_cpus on_pool mode (as_pipe b) r)).
Proof.
  intros ->. unfold scoped_reduce_with, fused_reduce_scoped.
  by rewrite (iter_fold_fused (scoped_stages b) r) by done.
Qed.
End same.

(** C38: scoped pipelines compute what ordinary ones compute: every terminal of
    [ScopedPipe] and [ScopedTryPipe] is, for every batch, chain, options,
    reducer and caller, the very run of the corresponding terminal of [Pipe]
    and [TryPipe] ([sum] for a zero that is neutral on the left), although the
    entry points repeat the dispatch and loop differently in their serial
    arms. *)
Theorem scoped_runs_as_pipe {P E X Y I O A : Type} (overflow : P) (num_cpus : Z) (ov sl : option Z)
    (on_pool : bool) (mode : OnpoolHybrid) (b : ScopedPipe P I O) (tb : ScopedTryPipe P I O E)
    (init : A) (f : A → O → res P A) (c : A → A → res P A) (op : O → O → res P O) (g : O → res P Y)
    (lt : O → O → bool) (zero : O) (plus : O → O → O) (Hzero : LeftId (=) zero plus) :
  let sum' x y := Val (plus x y) in
  scoped_collect (E := E) (X := X) overflow num_cpus ov sl on_pool mode b =
    collect overflow num_cpus ov sl on_pool mode (as_pipe b) ∧
  scoped_for_each (E := E) overflow num_cpus ov sl on_pool mode b g =
    for_each overflow num_cpus ov sl on_pool mode (as_pipe b) g ∧
  scoped_reduce (E := E) (X := X) overflow num_cpus ov sl on_pool mode b op =
    reduce overflow num_cpus ov sl on_pool mode (as_pipe b) op ∧
  scoped_min (E := E) (X := X) overflow num_cpus ov sl on_pool mode b lt =
    pipe_min overflow num_cpus ov sl on_pool mode (as_pipe b) lt ∧
  scoped_max (E := E) (X := X) overflow num_cpus ov sl on_pool mode b lt =
    pipe_max overflow num_cpus ov sl on_pool mode (as_pipe b) lt ∧
  scoped_sum (E := E) (X := X) overflow num_cpus ov sl on_pool mode b zero sum' =
    sum overflow num_cpus ov sl on_pool mode (as_pipe b) zero sum' ∧
  scoped_count (E := E) (X := X) overflow num_cpus ov sl on_pool mode b =
    count overflow num_cpus ov sl on_pool mode (as_pipe b) ∧
  scoped_fold (E := E) (X := X) overflow num_cpus ov sl on_pool mode b init f c =
    fold overflow num_cpus ov sl on_pool mode (as_pipe b) init f c ∧
  scoped_try_collect (X := X) overflow num_cpus ov sl on_pool mode tb =
    try_collect overflow num_cpus ov sl on_pool mode (as_try_pipe tb) ∧
  scoped_try_reduce (X := X) overflow num_cpus ov sl on_pool mode tb op =
    try_reduce overflow num_cpus ov sl on_pool mode (as_try_pipe tb) op ∧
  scoped_try_fold (X := X) overflow num_cpus ov sl on_pool mode tb init f c =
    try_fold overflow num_cpus ov sl on_pool mode (as_try_pipe tb) init f c.
Proof.
  assert (Hreduce : ∀ op', scoped_reduce (E := E) (X := X) overflow num_cpus ov sl on_pool mode b op' =
    reduce overflow num_cpus ov sl on_pool mode (as_pipe b) op').
  { intros op'. unfold scoped_reduce. rewrite (scoped_reduce_same _ _ _ _ _ _ b _ _ eq_refl).
    unfold reduce. by rewrite iter_reduce_fused. }
  cbv zeta. split_and!; [done|done|apply Hreduce|apply Hreduce|apply Hreduce| | | |done|done|done].
  - unfold scoped_sum. rewrite (scoped_reduce_same _ _ _ _ _ _ b _ _ eq_refl). unfold sum.
    rewrite (iter_fold_fused (pipe_stages (as_pipe b)) (sum_reducer zero (λ x y, Val (plus x y)))).
    + case_bool_decide as Hn; [|done]. cbn [as_pipe pipe_items]. rewrite Hn.
      apply (terminal_nil _ _ _ _ (scoped_exec b) (Val zero)). by rewrite (nil_length_inv _ Hn).
    + intros a v. cbn. by rewrite (left_id zero plus).
  - unfold scoped_count. rewrite (scoped_reduce_same _ _ _ _ _ _ b _ _ eq_refl). unfold count, iter_count.
    by rewrite (iter_fold_fused (pipe_stages (as_pipe b)) count_reducer).
  - unfold scoped_fold, fused_fold_scoped, fold.
    rewrite (iter_fold_ext (apply (scoped_stages b)) (outputs (scoped_stages b))); [done|].
    intros t. by rewrite outputs_apply.
Qed.

Lemma scoped_runs_as_pipe_witness :
  let b : ScopedPipe nat nat nat :=
    scoped_filter (scoped_map (scope_pipe 4 [1; 2; 3; 4; 5]%nat) (λ x, Val (x * 2)%nat))
      (λ x, Val (negb (x =? 4)%nat)) in
  scoped_collect (E := nat) (X := nat) 0%nat 4 None None false OnpoolOff b =
    collect 0%nat 4 None None false OnpoolOff (as_pipe b) ∧
  scoped_sum (E := nat) (X := nat) 0%nat 4 None None false OnpoolOff b 0%nat (λ x y, Val (x + y)%nat) =
    sum 0%nat 4 None None false OnpoolOff (as_pipe b) 0%nat (λ x y, Val (x + y)%nat).
Proof.
  intros b.
  destruct (scoped_runs_as_pipe (E := nat) (X := nat) 0%nat 4 None None false OnpoolOff b
    (scoped_try_map b (λ x, Val (Ok x))) 0%nat (λ a _, Val a) (λ a _, Val a) (λ x _, Val x) (λ x, Val x)
    (λ x y, x <? y)%nat 0%nat Nat.add ltac:(intros x; reflexivity)) as (Hc & _ & _ & _ & _ & Hs & _).
  split; [exact Hc|exact Hs].
Defined.
