(* ===== verification/PoolCache.v ===== *)
(** * The recycling cache of compute pools

    [src/crates/youpipe/src/executor/compute/pool_cache.rs] with the handle
    counting of [ComputePool] ([worker.rs]): a process-wide least-recently-used
    cache of pools keyed by worker count.  [acquire] looks the size up under
    the mutex, on a miss builds a pool outside it, then looks again and inserts
    under the mutex; whatever fell out is dropped outside.  Dropping the last
    handle of a pool joins its workers.

    The mutex-protected sections are atomic steps of the threads ([task_step]);
    builds and drops are steps of their own, so any number of [acquire]s,
    [clear]s and user drops interleave.  Using a handle of a joined pool and
    the failure of the insertion's debug assertion are errors of the model. *)

From S2P Require Import Prelude SleepCounters Config.

(** A handle of a pool: the registry behind it and its worker count. *)
Record pool : Type := mkPool { pool_id : nat; num_workers : Z }.
#[export] Instance pool_eq_dec : EqDecision pool.
Proof. solve_decision. Defined.

Definition CACHE_CAPACITY : nat := 4.

(** ** [PoolCache] *)

(** [slots]: pairs of a worker count and a pool, the most recent first. *)
Notation slots := (list (Z * pool)).

Definition cache_get (c : slots) (workers : Z) : slots * option pool :=
  match list_find (λ e, e.1 = workers) c with
  | None => (c, None)
  | Some (idx, entry) => (entry :: delete idx c, Some entry.2)
  end.

Definition cache_insert (c : slots) (workers : Z) (p : pool) : outcome (slots * list pool) :=
  if bool_decide (workers ∈ c.*1) then Panic
  else
    let c' := (workers, p) :: c in
    let at_ := Nat.min CACHE_CAPACITY (length c') in
    mret (take at_ c', (drop at_ c').*2).

Definition cache_clear (c : slots) : slots * list pool := ([], c.*2).

(** ** Threads *)

(** What a thread does next, with the handles it holds. *)
Inductive pc : Type :=
  | Lookup (key : Z)
  | Build (key : Z)
  | Publish (key : Z) (fresh : pool)
  | Release (key : Z) (stale : list pool) (out : pool)
  | Holding (key : Z) (out : pool)
  | ClearCache
  | Releasing (stale : list pool) (n : nat)
  | Finished.

(** Live handles per pool, the next pool's identity, the cache, and the sizes
    used since the last clear (most recent first). *)
Record Shared : Type := mkShared {
  handles_of : nat → nat;
  next_id : nat;
  cache : slots;
  uses : list Z;
}.

(** [Clone] and [Drop] of a handle; a joined pool has no handle left. *)
Definition clone (rc : nat → nat) (p : pool) : outcome (nat → nat) :=
  if bool_decide (rc (pool_id p) = 0)%nat then Undef
  else mret (λ i, if decide (i = pool_id p) then S (rc i) else rc i).
Definition release (rc : nat → nat) (p : pool) : outcome (nat → nat) :=
  if bool_decide (rc (pool_id p) = 0)%nat then Undef
  else mret (λ i, if decide (i = pool_id p) then Nat.pred (rc i) else rc i).

(** The worker count of a request: [Ord::clamp]. *)
Definition clamp (workers : Z) : Z := Z.max 1 (Z.min workers MAX_COMPUTE_WORKERS).

(** One step of [acquire] (and of the drop of what it returned), or of
    [clear]. *)
Definition task_step (s : Shared) (p : pc) : outcome (Shared * pc) :=
  match p with
  | Lookup key =>
      match cache_get (cache s) key with
      | (c, Some hit) =>
          rc ← clone (handles_of s) hit;
          mret (mkShared rc (next_id s) c (key :: uses s), Holding key hit)
      | (c, None) => mret (mkShared (handles_of s) (next_id s) c (uses s), Build key)
      end
  | Build key =>
      let fresh := mkPool (next_id s) key in
      mret (mkShared (λ i, if decide (i = next_id s) then 1%nat else handles_of s i)
              (S (next_id s)) (cache s) (uses s), Publish key fresh)
  | Publish key fresh =>
      match cache_get (cache s) key with
      | (c, Some hit) =>
          rc ← clone (handles_of s) hit;
          mret (mkShared rc (next_id s) c (key :: uses s), Release key [fresh] hit)
      | (c, None) =>
          rc ← clone (handles_of s) fresh;
          '(c', stale) ← cache_insert c key fresh;
          mret (mkShared rc (next_id s) c' (key :: uses s), Release key stale fresh)
      end
  | Release key [] out => mret (s, Holding key out)
  | Release key (x :: stale) out =>
      rc ← release (handles_of s) x;
      mret (mkShared rc (next_id s) (cache s) (uses s), Release key stale out)
  | Holding key out =>
      rc ← release (handles_of s) out;
      mret (mkShared rc (next_id s) (cache s) (uses s), Finished)
  | ClearCache =>
      let '(c, stale) := cache_clear (cache s) in
      mret (mkShared (handles_of s) (next_id s) c [], Releasing stale (length stale))
  | Releasing [] n => mret (s, Finished)
  | Releasing (x :: stale) n =>
      rc ← release (handles_of s) x;
      mret (mkShared rc (next_id s) (cache s) (uses s), Releasing stale n)
  | Finished => NoFuel
  end.

Record State : Type := mkState { shared : Shared; tasks : list pc }.

Inductive step : State → State → Prop :=
  | step_task s ts t p s' p' :
      ts !! t = Some p → task_step s p = Ret (s', p') →
      step (mkState s ts) (mkState s' (<[t := p']> ts)).

(** Requests of the process: acquisitions of some size, and clears. *)
Definition request (r : option Z) : pc :=
  match r with Some workers => Lookup (clamp workers) | None => ClearCache end.
Definition init (rs : list (option Z)) : State :=
  mkState (mkShared (λ _, 0%nat) 0 [] []) (request <$> rs).
Definition reachable (rs : list (option Z)) (s : State) : Prop := rtc step (init rs) s.

(** ** The abstract cache: the most recently used sizes *)

(** The distinct sizes of a history, the most recent first. *)
Fixpoint recency (h : list Z) : list Z :=
  match h with
  | [] => []
  | k :: h => k :: filter (λ x, x ≠ k) (recency h)
  end.

Lemma recency_nodup h : NoDup (recency h).
Proof.
  induction h as [|k h IH]; cbn; constructor.
  - intros [Hk _]%list_elem_of_filter. done.
  - by apply NoDup_filter.
Qed.

Lemma filter_absent k (l : list Z) : k ∉ l → filter (λ x, x ≠ k) l = l.
Proof.
  induction l as [|x l IH]; [done|]. intros [Hx Hl]%not_elem_of_cons.
  rewrite filter_cons_True by congruence. by rewrite IH.
Qed.

(** Forgetting all but the most recent sizes does not change which sizes are
    the most recent after the next use. *)
Lemma take_filter_take n k (l : list Z) :
  NoDup l → take n (filter (λ x, x ≠ k) (take (S n) l)) = take n (filter (λ x, x ≠ k) l).
Proof.
  revert n. induction l as [|x l IH]; intros n Hl; [by rewrite take_nil|].
  apply NoDup_cons in Hl as [Hx Hl]. cbn [take]. rewrite !filter_cons.
  destruct (decide (x ≠ k)) as [Hne|Heq].
  - destruct n as [|n]; [done|]. cbn [take]. f_equal. by apply IH.
  - assert (x = k) as -> by (destruct (decide (x = k)); naive_solver).
    rewrite !filter_absent; [by rewrite take_take, Nat.min_id|done|].
    intros Hk%subseteq_take. done.
Qed.

Lemma recency_use k h c :
  c = take CACHE_CAPACITY (recency h) →
  take CACHE_CAPACITY (k :: filter (λ x, x ≠ k) c) = take CACHE_CAPACITY (recency (k :: h)).
Proof.
  intros ->. cbn [recency]. change CACHE_CAPACITY with (S 3). cbn [take]. f_equal.
  apply take_filter_take, recency_nodup.
Qed.

(** ** The cache operations *)

Lemma find_spec (c : slots) k :
  match list_find (λ e, e.1 = k) c with
  | None => k ∉ c.*1
  | Some (i, e) => e.1 = k ∧ c ≡ₚ e :: delete i c ∧
      (NoDup c.*1 → (delete i c).*1 = filter (λ x, x ≠ k) c.*1)
  end.
Proof.
  induction c as [|e c IH]; [by apply not_elem_of_nil|]. cbn [list_find].
  destruct (decide (e.1 = k)) as [He|He].
  - split_and!; [done|done|]. cbn [delete list_delete]. rewrite fmap_cons.
    intros [Hn _]%NoDup_cons. rewrite filter_cons_False by naive_solver.
    symmetry. apply filter_absent. by rewrite <- He.
  - destruct (list_find _ c) as [[i e']|]; cbn [fmap option_fmap option_map prod_map fst snd].
    + destruct IH as (Hk & Hp & Hf). change (delete (S i) (e :: c)) with (e :: delete i c).
      rewrite !fmap_cons. split_and!; [done| |].
      * rewrite Hp at 1. apply Permutation_swap.
      * intros [_ Hn]%NoDup_cons. rewrite filter_cons_True by done. by rewrite Hf.
    + intros [?|?]%elem_of_cons; naive_solver.
Qed.

(** [get] misses, or moves the entry of the size to the front. *)
Lemma cache_get_spec (c : slots) k : NoDup c.*1 →
  (k ∉ c.*1 ∧ cache_get c k = (c, None)) ∨
  ∃ p c', cache_get c k = ((k, p) :: c', Some p) ∧ c ≡ₚ (k, p) :: c' ∧
    ((k, p) :: c').*1 = k :: filter (λ x, x ≠ k) c.*1.
Proof.
  intros Hn. unfold cache_get. pose proof (find_spec c k) as Hf.
  destruct (list_find _ c) as [[i [k' p]]|]; [|by left].
  destruct Hf as (Hk & Hp & Hd). cbn in Hk. subst k'. right. exists p, (delete i c).
  split_and!; [done|done|]. cbn [fmap list_fmap fst]. f_equal. by apply Hd.
Qed.

(** [insert] keeps the front of the cache and returns what fell out. *)
Lemma cache_insert_spec (c : slots) k p : k ∉ c.*1 →
  ∃ c' stale, cache_insert c k p = Ret (c', stale) ∧ c'.*2 ++ stale = p :: c.*2 ∧
    c' = take CACHE_CAPACITY ((k, p) :: c) ∧ length stale = (S (length c) - CACHE_CAPACITY)%nat.
Proof.
  intros Hk. unfold cache_insert. rewrite bool_decide_eq_false_2 by done. cbv zeta.
  assert (take (Nat.min CACHE_CAPACITY (length ((k, p) :: c))) ((k, p) :: c) =
    take CACHE_CAPACITY ((k, p) :: c)) as Ht by (by rewrite <- take_take, firstn_all).
  eexists _, _. split; [done|]. split_and!.
  - rewrite <- fmap_app, take_drop. done.
  - done.
  - rewrite length_fmap, length_drop. cbn [length]. lia.
Qed.

(** ** Handle counts *)

Definition held_of (i : nat) (l : list pool) : nat := length (filter (λ p, pool_id p = i) l).
(** Every live handle is counted, and nothing else. *)
Definition counted (rc : nat → nat) (l : list pool) : Prop := ∀ i, rc i = held_of i l.

#[export] Instance held_of_perm i : Proper ((≡ₚ) ==> (=)) (held_of i).
Proof. intros l l' H. unfold held_of. by rewrite H. Qed.
#[export] Instance counted_perm rc : Proper ((≡ₚ) ==> iff) (counted rc).
Proof. intros l l' H. unfold counted. by setoid_rewrite H. Qed.

Lemma held_of_cons i p l :
  held_of i (p :: l) = if decide (i = pool_id p) then S (held_of i l) else held_of i l.
Proof.
  unfold held_of. rewrite filter_cons. destruct (decide (pool_id p = i)), (decide (i = pool_id p)); cbn; congruence.
Qed.

Lemma held_of_pos p l : p ∈ l → held_of (pool_id p) l ≠ 0%nat.
Proof.
  intros Hp. apply list_elem_of_split in Hp as (l1 & l2 & ->).
  rewrite <- Permutation_middle, held_of_cons, decide_True by done. done.
Qed.

Lemma held_of_fresh n l : Forall (λ x, pool_id x < n)%nat l → held_of n l = 0%nat.
Proof.
  induction 1 as [|x l Hx _ IH]; [done|]. rewrite held_of_cons, decide_False by lia. done.
Qed.

Lemma clone_ok rc p l : counted rc l → p ∈ l → ∃ rc', clone rc p = Ret rc' ∧ counted rc' (p :: l).
Proof.
  intros Hc Hp. unfold clone. rewrite bool_decide_eq_false_2 by (rewrite Hc; by apply held_of_pos).
  eexists. split; [done|]. intros i. rewrite held_of_cons, <- (Hc i). done.
Qed.

Lemma release_counted rc p l : counted rc (p :: l) → ∃ rc', release rc p = Ret rc' ∧ counted rc' l.
Proof.
  intros Hc. assert (rc (pool_id p) = S (held_of (pool_id p) l)) as Hp
    by (by rewrite Hc, held_of_cons, decide_True).
  unfold release. rewrite bool_decide_eq_false_2 by lia. eexists. split; [done|].
  intros i. specialize (Hc i). rewrite held_of_cons in Hc.
  destruct (decide (i = pool_id p)) as [->|]; [lia|done].
Qed.

(** ** The invariant *)

(** The handles a thread holds, and that it holds a pool of the size it asked
    for. *)
Definition held (p : pc) : list pool :=
  match p with
  | Publish _ fresh => [fresh]
  | Release _ stale out => out :: stale
  | Holding _ out => [out]
  | Releasing stale _ => stale
  | _ => []
  end.
Definition sized (p : pc) : Prop :=
  match p with
  | Publish key x | Release key _ x | Holding key x => num_workers x = key
  | _ => True
  end.

(** The state, seen by a thread at [p] when the other threads hold [rest]. *)
Record Local (s : Shared) (p : pc) (rest : list pool) : Prop := {
  local_keys : (cache s).*1 = take CACHE_CAPACITY (recency (uses s));
  local_sizes : Forall (λ e, num_workers e.2 = e.1) (cache s);
  local_sized : sized p;
  local_counted : counted (handles_of s) ((cache s).*2 ++ held p ++ rest);
  local_fresh : Forall (λ x, pool_id x < next_id s)%nat ((cache s).*2 ++ held p ++ rest);
}.

(** Steps left to a thread. *)
Definition weight (p : pc) : nat :=
  match p with
  | Lookup _ => 6
  | Build _ => 5
  | Publish _ _ => 4
  | Release _ stale _ => 2 + length stale
  | Holding _ _ => 1
  | ClearCache => 6
  | Releasing stale _ => 1 + length stale
  | Finished => 0
  end.

Lemma local_nodup s p rest : Local s p rest → NoDup (cache s).*1.
Proof.
  intros []. rewrite local_keys0. eapply sublist_NoDup; [apply recency_nodup|apply sublist_take].
Qed.

Lemma local_small s p rest : Local s p rest → (length (cache s) ≤ CACHE_CAPACITY)%nat.
Proof. intros []. rewrite <- (length_fmap fst), local_keys0, length_take. lia. Qed.

(** What a step has to establish. *)
Definition step_good (s : Shared) (p : pc) (rest : list pool) : Prop :=
  ∃ s' p', task_step s p = Ret (s', p') ∧ Local s' p' rest ∧ (weight p' < weight p)%nat.

(** A hit: the entry moves to the front and a handle is cloned out. *)
Lemma use_hit s p rest k q c' :
  Local s p rest → cache s ≡ₚ (k, q) :: c' → ((k, q) :: c').*1 = k :: filter (λ x, x ≠ k) (cache s).*1 →
  num_workers q = k ∧
  ∃ rc', clone (handles_of s) q = Ret rc' ∧ ∀ p', sized p' → held p' ≡ₚ q :: held p →
    Local (mkShared rc' (next_id s) ((k, q) :: c') (k :: uses s)) p' rest.
Proof.
  intros HL Hp Hk. pose proof (local_small _ _ _ HL) as Hlen. destruct HL as [Hkeys Hsz _ Hrc Hid].
  assert ((cache s).*2 ≡ₚ ((k, q) :: c').*2) as Hp2 by (by rewrite Hp).
  rewrite Hp in Hsz. split; [by apply Forall_cons in Hsz as [? _]|].
  rewrite Hp2 in Hrc, Hid. destruct (clone_ok _ q _ Hrc) as (rc' & -> & Hrc').
  { apply elem_of_app. left. rewrite fmap_cons. by left. }
  exists rc'. split; [done|]. intros p' Hs' Hh.
  assert (((k, q) :: c').*2 ++ held p' ++ rest ≡ₚ q :: ((k, q) :: c').*2 ++ held p ++ rest) as Hall.
  { rewrite Hh. cbn [app]. by rewrite <- Permutation_middle. }
  split; cbn [cache uses handles_of next_id]; [|done|done|by rewrite Hall|].
  - rewrite <- (recency_use k (uses s) (cache s).*1 Hkeys), <- Hk. rewrite take_ge; [done|].
    rewrite length_fmap. by rewrite <- (Permutation_length Hp).
  - rewrite Hall. apply Forall_cons. split; [|done]. rewrite fmap_cons in Hid. by apply Forall_cons in Hid as [? _].
Qed.

(** A miss at publication: the fresh pool enters at the front. *)
Lemma use_miss s rest k fresh :
  Local s (Publish k fresh) rest → k ∉ (cache s).*1 →
  ∃ rc' c' stale, clone (handles_of s) fresh = Ret rc' ∧ cache_insert (cache s) k fresh = Ret (c', stale) ∧
    Local (mkShared rc' (next_id s) c' (k :: uses s)) (Release k stale fresh) rest ∧ (length stale ≤ 1)%nat.
Proof.
  intros HL Hk. pose proof (local_small _ _ _ HL) as Hlen. destruct HL as [Hkeys Hsz Hf Hrc Hid].
  destruct (clone_ok _ fresh _ Hrc) as (rc' & -> & Hrc').
  { cbn [held]. set_solver. }
  destruct (cache_insert_spec (cache s) k fresh Hk) as (c' & stale & -> & Hparts & Hc' & Hst).
  exists rc', c', stale. split; [done|]. split; [done|]. split; [|lia].
  assert (c'.*2 ++ held (Release k stale fresh) ++ rest ≡ₚ
    fresh :: (cache s).*2 ++ held (Publish k fresh) ++ rest) as Hall.
  { cbn [held app]. rewrite <- !Permutation_middle, (assoc_L (++)), Hparts. done. }
  split; cbn [cache uses handles_of next_id]; [| |done|by rewrite Hall|].
  - rewrite <- (recency_use k (uses s) (cache s).*1 Hkeys), filter_absent by done.
    by rewrite Hc', fmap_take, fmap_cons.
  - rewrite Hc'. apply Forall_take, Forall_cons. done.
  - rewrite Hall. apply Forall_cons. split; [|done]. cbn [held] in Hid.
    rewrite Forall_forall in Hid. apply (Hid fresh). set_solver.
Qed.

(** Dropping the handle a thread is done with. *)
Lemma use_release s p p' x rest :
  Local s p rest → held p ≡ₚ x :: held p' → sized p' →
  ∃ rc', release (handles_of s) x = Ret rc' ∧
    Local (mkShared rc' (next_id s) (cache s) (uses s)) p' rest.
Proof.
  intros [Hkeys Hsz Hf Hrc Hid] Hh Hs'.
  assert ((cache s).*2 ++ held p ++ rest ≡ₚ x :: (cache s).*2 ++ held p' ++ rest) as Hall.
  { rewrite Hh. cbn [app]. by rewrite <- Permutation_middle. }
  rewrite Hall in Hrc, Hid. destruct (release_counted _ _ _ Hrc) as (rc' & -> & Hrc').
  exists rc'. split; [done|]. apply Forall_cons in Hid as [_ Hid]. by split.
Qed.

Lemma local_same s p p' rest :
  Local s p rest → held p' = held p → sized p' → Local s p' rest.
Proof. intros [] Hh Hs. split; rewrite ?Hh; done. Qed.

Lemma task_step_good s p rest : Local s p rest → p ≠ Finished → step_good s p rest.
Proof.
  intros HL Hp. pose proof (local_nodup _ _ _ HL) as Hn. pose proof (local_small _ _ _ HL) as Hlen.
  unfold step_good. destruct p as [k|k|k fresh|k [|x stale] out|k out| |[|x stale] n|]; cbn [task_step]; [..|done].
  - destruct (cache_get_spec (cache s) k Hn) as [[Hk ->]|(q & c' & -> & Hpm & Hk)].
    + eexists _, _. split; [done|]. split; [|cbn; lia]. destruct s. by eapply local_same.
    + destruct (use_hit _ _ _ _ _ _ HL Hpm Hk) as (Hq & rc' & -> & HL').
      eexists _, _. split; [done|]. split; [by apply HL'|cbn; lia].
  - eexists _, _. split; [done|]. split; [|cbn; lia]. destruct HL as [Hkeys Hsz _ Hrc Hid].
    assert ((cache s).*2 ++ held (Publish k (mkPool (next_id s) k)) ++ rest ≡ₚ
      mkPool (next_id s) k :: (cache s).*2 ++ held (Build k) ++ rest) as Hall.
    { cbn [held app]. by rewrite <- Permutation_middle. }
    split; cbn [cache uses handles_of next_id]; [done|done|done|rewrite Hall|rewrite Hall].
    + intros i. rewrite held_of_cons, <- (Hrc i). cbn [pool_id].
      destruct (decide (i = next_id s)) as [->|]; [|done]. f_equal. rewrite Hrc.
      symmetry. by apply held_of_fresh.
    + apply Forall_cons. split; [cbn; lia|]. eapply Forall_impl; [exact Hid|]. cbn. lia.
  - destruct (cache_get_spec (cache s) k Hn) as [[Hk ->]|(q & c' & -> & Hpm & Hk)].
    + destruct (use_miss _ _ _ _ HL Hk) as (rc' & c' & stale & -> & Hi & HL' & Hst).
      cbn [mbind outcome_mbind]. rewrite Hi. eexists _, _. split; [done|]. split; [done|cbn; lia].
    + destruct (use_hit _ _ _ _ _ _ HL Hpm Hk) as (Hq & rc' & -> & HL').
      eexists _, _. split; [done|]. split; [by apply HL'|cbn; lia].
  - eexists _, _. split; [done|]. split; [|cbn; lia]. eapply local_same; [done..|]. apply HL.
  - destruct (use_release _ _ (Release k stale out) x _ HL) as (rc' & -> & HL'); [apply Permutation_swap|apply HL|].
    eexists _, _. split; [done|]. split; [done|cbn; lia].
  - destruct (use_release _ _ Finished out _ HL) as (rc' & -> & HL'); [done|done|].
    eexists _, _. split; [done|]. split; [done|cbn; lia].
  - eexists _, _. split; [done|]. split; [|cbn; rewrite length_fmap; unfold CACHE_CAPACITY in Hlen; lia].
    destruct HL as [Hkeys Hsz _ Hrc Hid]. split; cbn [cache uses handles_of next_id held app] in *; done.
  - eexists _, _. split; [done|]. split; [by eapply local_same|cbn; lia].
  - destruct (use_release _ _ (Releasing stale n) x _ HL) as (rc' & -> & HL'); [done|done|].
    eexists _, _. split; [done|]. split; [done|cbn; lia].
Qed.

Definition held_by (ts : list pc) : list pool := ts ≫= held.

Record Inv (st : State) : Prop := {
  inv_keys : (cache (shared st)).*1 = take CACHE_CAPACITY (recency (uses (shared st)));
  inv_sizes : Forall (λ e, num_workers e.2 = e.1) (cache (shared st));
  inv_sized : Forall sized (tasks st);
  inv_counted : counted (handles_of (shared st)) ((cache (shared st)).*2 ++ held_by (tasks st));
  inv_fresh : Forall (λ x, pool_id x < next_id (shared st))%nat
    ((cache (shared st)).*2 ++ held_by (tasks st));
}.

Lemma held_by_focus ts t p : ts !! t = Some p → held_by ts ≡ₚ held p ++ held_by (delete t ts).
Proof.
  intros Ht. unfold held_by. rewrite (delete_Permutation _ _ _ Ht) at 1. by rewrite bind_cons.
Qed.

Lemma delete_insert_same (ts : list pc) t p : delete t (<[t := p]> ts) = delete t ts.
Proof. revert t. induction ts as [|q ts IH]; intros [|t]; cbn; [done..|]. by rewrite IH. Qed.

Lemma held_by_update ts t p p' :
  ts !! t = Some p → held_by (<[t := p']> ts) ≡ₚ held p' ++ held_by (delete t ts).
Proof.
  intros Ht. rewrite (held_by_focus _ t p') by (apply list_lookup_insert_eq; by eapply lookup_lt_Some).
  by rewrite delete_insert_same.
Qed.

Lemma inv_local st t p : Inv st → tasks st !! t = Some p →
  Local (shared st) p (held_by (delete t (tasks st))).
Proof.
  intros [Hk Hs Hz Hc Hf] Ht. rewrite (held_by_focus _ _ _ Ht) in Hc, Hf. split; try done.
  rewrite Forall_forall in Hz. apply Hz. by eapply list_elem_of_lookup_2.
Qed.

Lemma cache_inv_step st st' : Inv st → step st st' → Inv st'.
Proof.
  intros HI Hst. destruct Hst as [s ts t p s' p' Ht Hgo].
  pose proof (inv_local _ _ _ HI Ht) as HL. cbn in HL.
  assert (p ≠ Finished) as Hp by (intros ->; discriminate Hgo).
  destruct (task_step_good _ _ _ HL Hp) as (s2 & p2 & Hgo2 & [Hk Hs Hz Hc Hf] & _).
  rewrite Hgo in Hgo2. injection Hgo2 as <- <-.
  split; cbn [shared tasks]; rewrite ?(held_by_update _ _ _ _ Ht); [done|done| |done|done].
  apply Forall_insert; [apply HI|done].
Qed.

Lemma cache_inv_reachable rs st : reachable rs st → Inv st.
Proof.
  intros Hr. assert (Inv (init rs)) as H0.
  { assert (held_by (request <$> rs) = []) as Hh by (clear Hr; induction rs as [|[] rs IH]; [done|exact IH..]).
    split; cbn [shared tasks init cache uses]; rewrite ?Hh; try done.
    apply Forall_fmap, Forall_true. by intros []. }
  induction Hr as [|st1 st2 st3 Hst _ IH]; [done|]. apply IH. by eapply cache_inv_step.
Qed.

(** Steps left to all threads. *)
Definition work_left (st : State) : nat := sum_list (weight <$> tasks st).

Lemma work_left_update (ts : list pc) t p p' :
  ts !! t = Some p → (weight p' < weight p)%nat →
  (sum_list (weight <$> <[t := p']> ts) < sum_list (weight <$> ts))%nat.
Proof.
  revert t. induction ts as [|q ts IH]; intros [|t] Ht Hw; [done|done| |].
  - injection Ht as ->. change (weight p' + sum_list (weight <$> ts) < weight p + sum_list (weight <$> ts))%nat.
    lia.
  - specialize (IH t Ht Hw).
    change (weight q + sum_list (weight <$> <[t := p']> ts) < weight q + sum_list (weight <$> ts))%nat. lia.
Qed.

(** C37: the pool cache under any number of threads that acquire pools of any
    size, drop them and clear the cache, interleaved at every mutex section,
    build and drop.  In every reachable state: the cache holds the
    CACHE_CAPACITY most recently used distinct sizes since the last clear, in
    that order, and nothing else; every unfinished thread can go on - the
    insertion's assertion holds, no handle of a joined pool is ever cloned or
    dropped - and each step brings all threads closer to the end, so no
    schedule runs forever; a returned pool has exactly the number of workers
    that was asked for, clamped to 1..511, and is still alive; and when all threads are
    done the only pools left are those in the cache, one handle each. *)
Theorem pool_cache_correct (rs : list (option Z)) (st : State) (Hr : reachable rs st) :
  (cache (shared st)).*1 = take CACHE_CAPACITY (recency (uses (shared st))) ∧
  (∀ t p, tasks st !! t = Some p → p ≠ Finished →
     ∃ s' p', task_step (shared st) p = Ret (s', p') ∧
       (work_left (mkState s' (<[t := p']> (tasks st))) < work_left st)%nat) ∧
  (∀ t key out, tasks st !! t = Some (Holding key out) →
     num_workers out = key ∧ handles_of (shared st) (pool_id out) ≠ 0%nat) ∧
  (Forall (λ p, p = Finished) (tasks st) →
     ∀ i, handles_of (shared st) i = held_of i (cache (shared st)).*2).
Proof.
  pose proof (cache_inv_reachable _ _ Hr) as HI. split_and!.
  - apply HI.
  - intros t p Ht Hp. destruct (task_step_good _ _ _ (inv_local _ _ _ HI Ht) Hp) as (s' & p' & Hgo & _ & Hw).
    exists s', p'. split; [done|]. by eapply work_left_update.
  - intros t key out Ht. pose proof (inv_local _ _ _ HI Ht) as [_ _ Hsz Hc _]. split; [done|].
    rewrite Hc. apply held_of_pos. cbn [held]. set_solver.
  - intros Hall i. rewrite (inv_counted _ HI i). f_equal.
    assert (held_by (tasks st) = []) as ->; [|by rewrite app_nil_r].
    induction Hall as [|p ts -> _ IH]; done.
Qed.

(** Two threads race to build a pool of five workers: the loser joins its own
    and shares the winner's. *)
Definition race : list nat := [0; 1; 0; 1; 0; 1; 1; 1; 0; 1]%nat.
Fixpoint play (sched : list nat) (st : State) : option State :=
  match sched with
  | [] => Some st
  | t :: sched =>
      p ← tasks st !! t;
      match task_step (shared st) p with
      | Ret (s', p') => play sched (mkState s' (<[t := p']> (tasks st)))
      | _ => None
      end
  end.

Lemma play_steps sched st st' : play sched st = Some st' → rtc step st st'.
Proof.
  revert st. induction sched as [|t sched IH]; intros [s ts]; cbn [play tasks shared].
  { intros [= ->]. constructor. }
  destruct (ts !! t) as [p|] eqn:Ht; cbn [mbind option_bind]; [|done].
  destruct (task_step s p) as [[s' p']| | |] eqn:Hgo; try done.
  intros H%IH. eapply rtc_l; [by econstructor|done].
Qed.

Definition race_end : State := default (init []) (play race (init [Some 5; Some 5]%Z)).

Lemma pool_cache_correct_witness :
  tasks race_end = [Holding 5 (mkPool 0 5); Finished] ∧
  (cache (shared race_end)).*1 = take CACHE_CAPACITY (recency (uses (shared race_end))) ∧
  handles_of (shared race_end) 0 = 2%nat ∧ handles_of (shared race_end) 1 = 0%nat.
Proof.
  assert (play race (init [Some 5; Some 5]%Z) = Some race_end) as Hp by reflexivity.
  pose proof (pool_cache_correct _ race_end (play_steps _ _ _ Hp)) as [Hk _].
  split; [reflexivity|]. split; [exact Hk|]. split; reflexivity.
Defined.
