(* ===== verification/RingPos.v ===== *)
(** * RingPos: positions of the stamped rings

    The array queues of [crates/youpipe-crossfire/src/crossbeam] count their
    head and tail in stamps: a word whose low bits are an index below the
    capacity and whose high bits count laps, a lap being the smallest power of
    two above the capacity.  This file relates a stamp to the position it
    stands for, a plain count of the items that went through the ring, and
    proves the arithmetic the queues do on stamps correct on positions. *)

From S2P Require Import Prelude.
Local Open Scope Z_scope.

(** [!x] on a [w]-bit word. *)
Definition not_word (w x : Z) : Z := 2 ^ w - 1 - x.

(** [index = pos & (one_lap - 1)]. *)
Definition index_of (one_lap pos : Z) : Z := Z.land pos (one_lap - 1).

(** The advance by one slot (the [advance] of the batch walks, and the same
    rule in the single-item operations): the next index in the same lap, or
    index zero of the next lap.  The index is a [usize]. *)
Definition advance (w one_lap cap pos : Z) : outcome Z :=
  let index := index_of one_lap pos in
  next ← checked_add 64 index 1;
  if bool_decide (next < cap) then checked_add w pos 1
  else mret (wrapping_add w (Z.land pos (not_word w (one_lap - 1))) one_lap).

(** The number of items between two stamps at most a lap apart, as [len] and
    [drop] compute it. *)
Definition stamp_len (one_lap cap head tail : Z) : outcome Z :=
  let hix := index_of one_lap head in
  let tix := index_of one_lap tail in
  if bool_decide (hix < tix) then checked_sub tix hix
  else if bool_decide (tix < hix) then d ← checked_sub cap hix; mret (d + tix)
  else if bool_decide (tail = head) then mret 0
  else mret cap.

(** Two 32-bit cursors in one word: [((hi as u64) << 32) | lo], [v as u32] and
    [(v >> 32) as u32]. *)
Definition pack32 (hi lo : Z) : Z := Z.lor (Z.shiftl hi 32) lo.
Definition lo32 (v : Z) : Z := wrap 32 v.
Definition hi32 (v : Z) : Z := wrap 32 (Z.shiftr v 32).

(** ** Positions *)

Section pos.
Context (cap one_lap : Z).
Hypothesis Hcap : 0 < cap.
Hypothesis Hlap : pow2 one_lap.
Hypothesis Hroom : cap < one_lap.

(** The stamp of position [k]. *)
Definition enc (k : Z) : Z := (k / cap) * one_lap + k mod cap.

Lemma enc_mod k : enc k mod one_lap = k mod cap.
Proof.
  unfold enc. pose proof (Z.mod_pos_bound k cap Hcap).
  rewrite Z.add_comm, Z_mod_plus_full. apply Z.mod_small. lia.
Qed.

Lemma enc_index k : index_of one_lap (enc k) = k mod cap.
Proof. unfold index_of. rewrite land_mask by done. apply enc_mod. Qed.

Lemma enc_div k : enc k / one_lap = k / cap.
Proof.
  unfold enc. pose proof (Z.mod_pos_bound k cap Hcap).
  rewrite Z.add_comm, Z_div_plus_full by lia. rewrite (Z.div_small (k mod cap)) by lia. lia.
Qed.

Lemma enc_pos_inj k j : enc k = enc j → k = j.
Proof.
  intros H. rewrite (Z_div_mod_eq_full k cap), (Z_div_mod_eq_full j cap).
  by rewrite <- !enc_div, <- !enc_mod, H.
Qed.

Lemma enc_eq k j : enc k = enc j ↔ k = j.
Proof. split; [apply enc_pos_inj|by intros ->]. Qed.

Lemma enc_lap k : enc k + one_lap = enc (k + cap).
Proof.
  unfold enc. replace (k + cap) with (k + 1 * cap) by lia. rewrite Z_div_plus_full, Z_mod_plus_full by lia. lia.
Qed.

(** A stamp plus one is never the stamp of a position of the same slot. *)
Lemma enc_succ_ne k j : k mod cap = j mod cap → enc k + 1 ≠ enc j.
Proof.
  intros Hm H. pose proof (Z.mod_pos_bound k cap Hcap). pose proof (f_equal (λ z, z mod one_lap) H) as H1.
  cbn in H1. rewrite enc_mod in H1. unfold enc in H1.
  rewrite <- Z.add_assoc, Z.add_comm, Z_mod_plus_full, Z.mod_small in H1 by lia. lia.
Qed.

Lemma enc_nonneg k : 0 ≤ k → 0 ≤ enc k.
Proof.
  intros. unfold enc. pose proof (Z.mod_pos_bound k cap Hcap).
  assert (0 ≤ k / cap) by (apply Z.div_pos; lia). pose proof (pow2_pos _ Hlap). nia.
Qed.

Lemma enc_small k : 0 ≤ k < cap → enc k = k.
Proof. intros. unfold enc. rewrite Z.div_small, Z.mod_small by lia. lia. Qed.

Lemma enc_step k :
  enc (k + 1) = if decide (k mod cap + 1 < cap) then enc k + 1 else (k / cap) * one_lap + one_lap.
Proof.
  pose proof (Z_div_mod_eq_full k cap) as Hk. pose proof (Z.mod_pos_bound k cap Hcap).
  unfold enc. case_decide.
  - rewrite <- (Z.div_unique (k + 1) cap (k / cap) (k mod cap + 1)) by lia.
    rewrite <- (Z.mod_unique (k + 1) cap (k / cap) (k mod cap + 1)) by lia. lia.
  - assert (k mod cap = cap - 1) by lia.
    rewrite <- (Z.div_unique (k + 1) cap (k / cap + 1) 0) by lia.
    rewrite <- (Z.mod_unique (k + 1) cap (k / cap + 1) 0) by lia. lia.
Qed.

Lemma enc_mono k j : k ≤ j → enc k ≤ enc j.
Proof.
  intros H. unfold enc. pose proof (Z.mod_pos_bound k cap Hcap). pose proof (Z.mod_pos_bound j cap Hcap).
  pose proof (Z.div_le_mono k j cap Hcap H). destruct (decide (k / cap = j / cap)) as [He|Hne].
  - rewrite (Z_div_mod_eq_full k cap), (Z_div_mod_eq_full j cap) in H. rewrite He in *. lia.
  - assert (k / cap + 1 ≤ j / cap) by lia. nia.
Qed.

(** Two positions of the same slot less than a lap apart are equal. *)
Lemma same_slot k j : k mod cap = j mod cap → - cap < k - j < cap → k = j.
Proof.
  intros Hm Hd. pose proof (Z_div_mod_eq_full k cap). pose proof (Z_div_mod_eq_full j cap).
  assert (k - j = cap * (k / cap - j / cap)) by lia.
  assert (k / cap - j / cap = 0) by nia. lia.
Qed.

(** The position of slot [i] in a window of [cap] positions. *)
Lemma window_pos lo i : ∃ k, lo ≤ k < lo + cap ∧ k mod cap = i mod cap.
Proof.
  exists (lo + (i - lo) mod cap). pose proof (Z.mod_pos_bound (i - lo) cap Hcap). split; [lia|].
  rewrite Zplus_mod_idemp_r. f_equal. lia.
Qed.

Lemma stamp_len_enc j k : 0 ≤ k - j ≤ cap → stamp_len one_lap cap (enc j) (enc k) = Ret (k - j).
Proof.
  intros Hd. unfold stamp_len. rewrite !enc_index.
  pose proof (Z.mod_pos_bound k cap Hcap). pose proof (Z.mod_pos_bound j cap Hcap).
  pose proof (Z_div_mod_eq_full k cap). pose proof (Z_div_mod_eq_full j cap).
  assert (k - j = cap * (k / cap - j / cap) + (k mod cap - j mod cap)) by lia.
  case_bool_decide; [|case_bool_decide].
  - rewrite checked_sub_ret by lia. f_equal. assert (k / cap - j / cap = 0) by nia. nia.
  - rewrite checked_sub_ret by lia. cbn. f_equal. assert (k / cap - j / cap = 1) by nia. nia.
  - assert (k mod cap = j mod cap) as Hm by lia. case_bool_decide as He; cbn; f_equal.
    + apply enc_pos_inj in He. lia.
    + assert (k ≠ j) by (intros ->; done). assert (k / cap - j / cap = 1) by nia. nia.
Qed.

(** ** Stamps of a [w]-bit word that has not wrapped *)

Context (w : Z).
Hypothesis Hw : 0 < w ≤ 64.

Definition fits (k : Z) : Prop := 0 ≤ k ∧ enc (k + cap) < 2 ^ w.

Lemma fits_le k j : 0 ≤ k ≤ j → fits j → fits k.
Proof. intros ? [? Hj]. split; [lia|]. pose proof (enc_mono (k + cap) (j + cap)). lia. Qed.

Lemma fits_enc k : fits k → 0 ≤ enc k ∧ enc k + one_lap < 2 ^ w ∧ enc k + 1 < 2 ^ w.
Proof.
  intros [Hk Hb]. rewrite <- enc_lap in Hb. pose proof (enc_nonneg _ Hk). lia.
Qed.

Lemma enc_add_lap k : fits k → wrapping_add w (enc k) one_lap = enc (k + cap).
Proof.
  intros Hf. destruct (fits_enc _ Hf). unfold wrapping_add. rewrite wrap_small; [apply enc_lap|].
  pose proof (pow2_pos _ Hlap). unfold is_word. lia.
Qed.

Lemma enc_add_one k : fits k → wrapping_add w (enc k) 1 = enc k + 1.
Proof. intros Hf. destruct (fits_enc _ Hf). apply wrap_small. unfold is_word. lia. Qed.

Lemma enc_checked_one k : fits k → checked_add w (enc k) 1 = Ret (enc k + 1).
Proof. intros Hf. destruct (fits_enc _ Hf). apply checked_add_ret. lia. Qed.

Lemma land_not_word z : 0 ≤ z < 2 ^ w → one_lap ≤ 2 ^ w → Z.land z (not_word w (one_lap - 1)) = z / one_lap * one_lap.
Proof.
  intros Hz Hle. destruct Hlap as (e & He & ->).
  assert (e ≤ w) by (apply (Z.pow_le_mono_r_iff 2); lia).
  unfold not_word. rewrite <- Z.shiftr_div_pow2, <- Z.shiftl_mul_pow2 by done.
  apply Z.bits_inj'. intros i Hi. rewrite Z.land_spec, Z.shiftl_spec by done.
  replace (2 ^ w - 1 - (2 ^ e - 1)) with ((2 ^ (w - e) - 1) * 2 ^ e).
  2:{ rewrite Z.mul_sub_distr_r, <- Z.pow_add_r by lia. replace (w - e + e) with w by lia. lia. }
  rewrite <- Z.shiftl_mul_pow2, Z.shiftl_spec by done.
  destruct (decide (i < e)).
  { rewrite !(Z.testbit_neg_r _ (i - e)) by lia. by rewrite andb_false_r. }
  rewrite Z.shiftr_spec by lia. replace (i - e + e) with i by lia.
  replace (2 ^ (w - e) - 1) with (Z.ones (w - e)) by (rewrite Z.ones_equiv; lia).
  destruct (decide (i < w)).
  - rewrite Z.ones_spec_low by lia. by rewrite andb_true_r.
  - rewrite (Z.bits_above_log2 z i); [done|lia|]. destruct (decide (z = 0)) as [->|]; [cbn; lia|].
    apply Z.log2_lt_pow2; [lia|]. pose proof (Z.pow_le_mono_r 2 w i). lia.
Qed.

Lemma advance_enc k : fits k → advance w one_lap cap (enc k) = Ret (enc (k + 1)).
Proof.
  intros Hf. destruct (fits_enc _ Hf) as (H0 & H1 & H2). unfold advance. rewrite enc_index.
  pose proof (Z.mod_pos_bound k cap Hcap). pose proof (pow2_pos _ Hlap).
  pose proof (Z.pow_le_mono_r 2 w 64 ltac:(lia) ltac:(lia)).
  rewrite (checked_add_ret 64 (k mod cap)) by lia. rewrite mbind_ret, enc_step. case_decide.
  - rewrite bool_decide_eq_true_2 by done. by apply enc_checked_one.
  - rewrite bool_decide_eq_false_2 by done. cbn. f_equal.
    rewrite land_not_word, enc_div by lia. apply wrap_small. unfold is_word.
    assert (0 ≤ k / cap) by (apply Z.div_pos; [destruct Hf; lia|lia]). unfold enc in H1. nia.
Qed.

End pos.

(** The lap the constructors choose: a power of two above the capacity, less
    than four times it. *)
Lemma lap_spec (cap : Z) :
  0 < cap ≤ 2 ^ 58 → let L := next_power_of_two 64 (cap + 1) in pow2 L ∧ cap < L ≤ 4 * cap.
Proof.
  intros Hc. destruct (next_power_of_two_spec 64 (cap + 1)) as (Hp & Hle & _); [lia..|]. cbn zeta.
  split; [done|]. split; [lia|].
  unfold next_power_of_two. pose proof (Z.log2_up_spec (cap + 1) ltac:(lia)) as [Hlo _].
  pose proof (Z.log2_up_nonneg (cap + 1)). assert (0 < Z.log2_up (cap + 1)) by (apply Z.log2_up_pos; lia).
  assert (2 ^ Z.log2_up (cap + 1) = 2 * 2 ^ Z.pred (Z.log2_up (cap + 1))) as He.
  { rewrite <- Z.pow_succ_r by lia. f_equal. lia. }
  pose proof (Z.pow_pos_nonneg 2 (Z.log2_up (cap + 1))). rewrite wrap_small by (unfold is_word; lia). lia.
Qed.
