(* ===== verification/BoundedQueue.v ===== *)
(** * BoundedQueue: what a bounded queue promises

    The operations of the array queues of
    [crates/youpipe-crossfire/src/crossbeam] as their flavours expose them
    (push, one-shot push, batched push, pop, cached pop, batched pop, the
    queries), and the specification they are proved against: a bounded FIFO
    object whose operations are atomic ([astep]).  A query or a refusal has to
    be true of the contents at some moment during the call. *)

From stdpp Require Import functions.
From S2P Require Import Prelude.
Local Open Scope Z_scope.

(** ** Operations, results, events *)

Inductive op (A : Type) : Type :=
  | OpPush (x : A)
  | OpPushOneshot (x : A)
  | OpPushBatch (values : list A)
  | OpPop
  | OpPopCached
  | OpPopBatch (len : nat)
  | OpIsEmpty
  | OpIsFull
  | OpLen.
Arguments OpPush {A} x.
Arguments OpPushOneshot {A} x.
Arguments OpPushBatch {A} values.
Arguments OpPop {A}.
Arguments OpPopCached {A}.
Arguments OpPopBatch {A} len.
Arguments OpIsEmpty {A}.
Arguments OpIsFull {A}.
Arguments OpLen {A}.

Inductive result (A : Type) : Type :=
  | RPush (pushed : bool)
  | ROneshot (r : option bool)
  | RPushBatch (n : nat)
  | RPop (r : option A)
  | RPopBatch (out : list A)
  | RBool (b : bool)
  | RLen (n : Z).
Arguments RPush {A} pushed.
Arguments ROneshot {A} r.
Arguments RPushBatch {A} n.
Arguments RPop {A} r.
Arguments RPopBatch {A} out.
Arguments RBool {A} b.
Arguments RLen {A} n.

(** What a step shows: calls, returns, and the moves of the tail and the
    head, at which pushes and pops take effect. *)
Inductive event (A : Type) : Type :=
  | Tau
  | Call (t : nat) (o : op A)
  | Enq (t : nat) (xs : list A)
  | Deq (t : nat) (n : nat)
  | Return (t : nat) (r : result A).
Arguments Tau {A}.
Arguments Call {A} t o.
Arguments Enq {A} t xs.
Arguments Deq {A} t n.
Arguments Return {A} t r.

(** The items that entered the ring along a run. *)
Definition enqueued {A} (es : list (event A)) : list A :=
  es ≫= (λ e, match e with Enq _ xs => xs | _ => [] end).

(** ** The specification *)

(** A thread's operation: called, with the contents the queue has had since,
    or decided. *)
Inductive astatus (A : Type) : Type :=
  | AIdle
  | ACalled (o : op A) (seen : list (list A))
  | ADecided (r : result A).
Arguments AIdle {A}.
Arguments ACalled {A} o seen.
Arguments ADecided {A} r.

Record Bounded (A : Type) : Type := mkBounded { items : list A; status : nat → astatus A }.
Arguments mkBounded {A} _ _.
Arguments items {A} _.
Arguments status {A} _ _.

Definition empty_bounded {A} : Bounded A := mkBounded [] (λ _, AIdle).

Section spec.
Context {A : Type} (cap : Z).

Definition see (l : list A) (s : astatus A) : astatus A :=
  match s with ACalled o seen => ACalled o (seen ++ [l]) | _ => s end.

(** Operation [o] may append [xs] and return [r]. *)
Definition enq_ok (o : op A) (xs : list A) (r : result A) : Prop :=
  match o with
  | OpPush x => xs = [x] ∧ r = RPush true
  | OpPushOneshot x => xs = [x] ∧ r = ROneshot (Some true)
  | OpPushBatch vs => xs ≠ [] ∧ xs `prefix_of` vs ∧ r = RPushBatch (length xs)
  | _ => False
  end.

(** Operation [o] may remove [xs] from the front and return [r]. *)
Definition deq_ok (o : op A) (xs : list A) (r : result A) : Prop :=
  match o with
  | OpPop | OpPopCached => ∃ x, xs = [x] ∧ r = RPop (Some x)
  | OpPopBatch m => xs ≠ [] ∧ (length xs ≤ m)%nat ∧ r = RPopBatch xs
  | _ => False
  end.

(** Operation [o] may return [r] without an effect when the queue holds [l].
    Single pushes and pops refuse only a full or an empty queue; the one-shot
    and the batched ones, and the pop that trusts its cache, may give up. *)
Definition answer_ok (o : op A) (r : result A) (l : list A) : Prop :=
  match o, r with
  | OpPush _, RPush false => Z.of_nat (length l) = cap
  | OpPushOneshot _, ROneshot (Some false) => Z.of_nat (length l) = cap
  | OpPushOneshot _, ROneshot None => True
  | OpPushBatch _, RPushBatch n => n = 0%nat
  | OpPop, RPop None => l = []
  | OpPopCached, RPop None => True
  | OpPopBatch _, RPopBatch out => out = []
  | OpIsEmpty, RBool b => b = true ↔ l = []
  | OpIsFull, RBool b => b = true ↔ Z.of_nat (length l) = cap
  | OpLen, RLen n => n = Z.of_nat (length l)
  | _, _ => False
  end.

Definition answered (s : astatus A) (r : result A) : Prop :=
  ∃ o seen l, s = ACalled o seen ∧ l ∈ seen ∧ answer_ok o r l.

Inductive astep : Bounded A → event A → Bounded A → Prop :=
  | a_tau a a' :
      items a' = items a → (∀ t, status a' t = status a t) → astep a Tau a'
  | a_call a t o a' :
      status a t = AIdle → items a' = items a →
      (∀ u, status a' u = <[t := ACalled o [items a]]> (status a) u) → astep a (Call t o) a'
  | a_enq a t o seen xs r a' :
      status a t = ACalled o seen → enq_ok o xs r → Z.of_nat (length (items a ++ xs)) ≤ cap →
      items a' = items a ++ xs →
      (∀ u, status a' u = <[t := ADecided r]> (λ u, see (items a') (status a u)) u) → astep a (Enq t xs) a'
  | a_deq a t o seen xs r a' :
      status a t = ACalled o seen → deq_ok o xs r → items a = xs ++ items a' →
      (∀ u, status a' u = <[t := ADecided r]> (λ u, see (items a') (status a u)) u) →
      astep a (Deq t (length xs)) a'
  | a_return a t r a' :
      status a t = ADecided r ∨ answered (status a t) r → items a' = items a →
      (∀ u, status a' u = <[t := AIdle]> (status a) u) → astep a (Return t r) a'.

Inductive asteps : Bounded A → list (event A) → Bounded A → Prop :=
  | asteps_nil a : asteps a [] a
  | asteps_snoc a es a1 e a2 : asteps a es a1 → astep a1 e a2 → asteps a (es ++ [e]) a2.
End spec.

(** ** Running operations

    What the proofs of the queues say about the status of a thread: the
    operation it runs, and the contents it has seen, which only grow. *)

Section running.
Context {A : Type} (cap : Z).
Implicit Types s : astatus A.

Definition called s (o : op A) : Prop := ∃ seen, s = ACalled o seen.
Definition pop_call s : Prop := called s OpPop ∨ called s OpPopCached.
Definition seen_some s (P : list A → Prop) : Prop := ∃ o seen l, s = ACalled o seen ∧ l ∈ seen ∧ P l.

Definition grows s s' : Prop :=
  match s with ACalled o seen => ∃ seen', s' = ACalled o seen' ∧ seen ⊆ seen' | _ => s' = s end.

Lemma grows_called s s' o : grows s s' → called s o → called s' o.
Proof. intros Hg [seen ->]. destruct Hg as (seen' & -> & _). by exists seen'. Qed.

Lemma grows_pop_call s s' : grows s s' → pop_call s → pop_call s'.
Proof. intros Hg [H|H]; [left|right]; by eapply grows_called. Qed.

Lemma grows_seen s s' P : grows s s' → seen_some s P → seen_some s' P.
Proof.
  intros Hg (o & seen & l & -> & Hl & HP). destruct Hg as (seen' & -> & Hs). exists o, seen', l. auto.
Qed.

Lemma grows_answered s s' r : grows s s' → answered cap s r → answered cap s' r.
Proof.
  intros Hg (o & seen & l & -> & Hl & HP). destruct Hg as (seen' & -> & Hs). exists o, seen', l. auto.
Qed.

Lemma grows_decided s s' r : grows s s' → s = ADecided r → s' = ADecided r.
Proof. by intros Hg ->. Qed.

Lemma answer_seen s o r P :
  called s o → seen_some s P → (∀ l, P l → answer_ok cap o r l) → answered cap s r.
Proof. intros [seen ->] (o' & seen' & l & [= <- <-] & Hl & HP) Ha. exists o, seen, l. auto. Qed.

Lemma grows_refl s : grows s s.
Proof. destruct s; cbn; try done. eauto. Qed.

Lemma grows_see s l : grows s (see l s).
Proof. destruct s as [|o seen|]; cbn; try done. exists (seen ++ [l]). split; [done|]. intros x Hx. set_solver. Qed.
End running.
