(* ===== verification/RingGhost.v ===== *)
(** * RingGhost: the history of a ring

    The proofs of the array queues keep a ghost history: every item that
    entered the ring has a position, the number of items that entered before
    it, and every position is in a phase: claimed by a producer, written,
    ready, taken by a consumer, emptied, or done. *)

From stdpp Require Import functions.
From S2P Require Import Prelude BoundedQueue.
Local Open Scope Z_scope.

Inductive phase : Type :=
  | Claimed (t : nat) | Written (t : nat) | Ready | Taken (t : nat) | Emptied (t : nat) | Done.

Definition owner (p : phase) : option nat :=
  match p with Claimed t | Written t | Taken t | Emptied t => Some t | _ => None end.
Definition queued (p : phase) : Prop := match p with Claimed _ | Written _ | Ready => True | _ => False end.
Definition gone (p : phase) : Prop := match p with Taken _ | Emptied _ | Done => True | _ => False end.

(** The position of the head, the items by position, and each position's
    phase. *)
Record Ghost (A : Type) : Type := mkGhost { gH : Z; glog : list A; gst : Z → phase }.
Arguments mkGhost {A} _ _ _.
Arguments gH {A} _.
Arguments glog {A} _.
Arguments gst {A} _ _.

Section history.
Context {A : Type}.
Implicit Types g : Ghost A.

Definition gT g : Z := Z.of_nat (length (glog g)).
Definition contents g : list A := drop (Z.to_nat (gH g)) (glog g).
Definition logged g (k : Z) : option A := glog g !! Z.to_nat k.

Definition mine g (p : phase) (k : Z) (xs : list A) : Prop :=
  0 ≤ k ∧ k + Z.of_nat (length xs) ≤ gT g ∧
  ∀ j x, xs !! j = Some x → gst g (k + Z.of_nat j) = p ∧ logged g (k + Z.of_nat j) = Some x.

Definition set_phase g (k : Z) (p : phase) : Ghost A := mkGhost (gH g) (glog g) (<[k := p]> (gst g)).
Definition claim g (t : nat) (xs : list A) : Ghost A :=
  mkGhost (gH g) (glog g ++ xs)
    (λ k, if decide (gT g ≤ k < gT g + Z.of_nat (length xs)) then Claimed t else gst g k).
Lemma T_app g h xs st : gT (mkGhost h (glog g ++ xs) st) = gT g + Z.of_nat (length xs).
Proof. unfold gT. cbn. rewrite length_app. lia. Qed.

Lemma mine_phase g ph k xs j p : j < k → mine g ph k xs → mine (set_phase g j p) ph k xs.
Proof.
  intros Hj (H0 & Hb & Hm). split_and!; [done..|]. intros i x Hx. cbn.
  rewrite fn_lookup_insert_ne by lia. by apply Hm.
Qed.

Lemma mine_cons g ph k x xs :
  mine g ph k (x :: xs) → gst g k = ph ∧ logged g k = Some x ∧ 0 ≤ k < gT g ∧ mine g ph (k + 1) xs.
Proof.
  intros (H0 & Hb & Hm). destruct (Hm 0%nat x eq_refl) as [Hp Hl]. rewrite Z.add_0_r in Hp, Hl.
  rewrite length_cons in Hb. split_and!; [done|done|lia|lia|]. split_and!; [lia|lia|]. intros j y Hy. destruct (Hm (S j) y Hy) as [Hp' Hl'].
  replace (k + 1 + Z.of_nat j) with (k + Z.of_nat (S j)) by lia. done.
Qed.
End history.

(** ** Moves of the cursors

    What a step of thread [t] that shows [e] does to the history and to the
    status of [t]: an enqueue appends to the history, a dequeue moves the
    head. *)

Section moves.
Context {A : Type} (cap : Z).
Implicit Types (g : Ghost A) (s : astatus A).

Definition Moved t g s (e : event A) g' s' : Prop :=
  match e with
  | Tau => gH g' = gH g ∧ glog g' = glog g ∧ s' = s
  | Enq u xs =>
      u = t ∧ gH g' = gH g ∧ glog g' = glog g ++ xs ∧ Z.of_nat (length (contents g ++ xs)) ≤ cap ∧
      ∃ o seen r, s = ACalled o seen ∧ enq_ok o xs r ∧ s' = ADecided r ∧ xs ≠ []
  | Deq u n =>
      u = t ∧ gH g' = gH g + Z.of_nat n ∧ glog g' = glog g ∧ (0 < n ≤ length (contents g))%nat ∧
      ∃ o seen r, s = ACalled o seen ∧ deq_ok o (take n (contents g)) r ∧ s' = ADecided r
  | _ => False
  end.

(** A running operation has seen the present contents. *)
Definition SI g s : Prop := match s with ACalled _ seen => contents g ∈ seen | _ => True end.
Definition seen_by (e : event A) g' s : astatus A :=
  match e with Enq _ _ | Deq _ _ => see (contents g') s | _ => s end.

Lemma moved_contents t g s e g' s' :
  0 ≤ gH g ≤ gT g → Moved t g s e g' s' →
  match e with
  | Enq _ xs => contents g' = contents g ++ xs
  | Deq _ n => contents g = take n (contents g) ++ contents g'
  | _ => contents g' = contents g
  end.
Proof.
  intros Hle. destruct e; cbn; try done; unfold contents.
  - by intros (-> & -> & _).
  - intros (_ & -> & -> & _). rewrite drop_app_le; [done|]. unfold gT in *. lia.
  - intros (_ & -> & -> & _). rewrite Z2Nat.inj_add, Nat2Z.id, <- drop_drop by lia. by rewrite take_drop.
Qed.

Lemma moved_mono t g s e g' s' : Moved t g s e g' s' → gH g ≤ gH g' ∧ glog g `prefix_of` glog g'.
Proof.
  destruct e; cbn; try done.
  - intros (-> & -> & _). by split; [lia|].
  - intros (_ & -> & -> & _). split; [lia|by apply prefix_app_r].
  - intros (_ & -> & -> & _). split; [lia|done].
Qed.

Lemma moved_count t g s e g' s' : Moved t g s e g' s' → length (glog g') = (length (glog g) + length (enqueued [e]))%nat.
Proof.
  destruct e; cbn; try done; rewrite ?app_nil_r.
  - intros (_ & -> & _). lia.
  - intros (_ & _ & -> & _). by rewrite length_app.
  - intros (_ & _ & -> & _). lia.
Qed.

Lemma moved_SI t g s e g' s' u : 0 ≤ gH g ≤ gT g → Moved t g s e g' s' → SI g u → SI g' (seen_by e g' u).
Proof.
  intros Hle He HS. pose proof (moved_contents _ _ _ _ _ _ Hle He) as Hc. destruct e; cbn in He; try done; cbn.
  - destruct u; cbn in *; try done. by rewrite Hc.
  - destruct u; cbn in *; try done. set_solver.
  - destruct u; cbn in *; try done. set_solver.
Qed.

Lemma moved_self t g s e g' s' : Moved t g s e g' s' → SI g s → SI g' s'.
Proof.
  intros He HS. destruct e; cbn in He; try done.
  - destruct He as (HH & HLg & ->). destruct s; cbn in *; try done. unfold contents in *. by rewrite HH, HLg.
  - by destruct He as (_ & _ & _ & _ & ? & ? & ? & _ & _ & -> & _).
  - by destruct He as (_ & _ & _ & _ & ? & ? & ? & _ & _ & ->).
Qed.

Lemma moved_grows e g' s : grows s (seen_by e g' s).
Proof. destruct e; cbn; [apply grows_refl..|apply grows_see|apply grows_see|apply grows_refl]. Qed.

(** Another thread's running operation has seen room before an enqueue and an
    item before a dequeue. *)
Lemma moved_room t g s e g' s' su o :
  Moved t g s e g' s' → SI g su → gT g < gT g' → called su o →
  seen_some (seen_by e g' su) (λ l, Z.of_nat (length l) < cap).
Proof.
  intros He HS HT [seen ->]. destruct e; cbn in He; try done; unfold gT in HT.
  - destruct He as (_ & Hlog & _). rewrite Hlog in HT. lia.
  - destruct He as (_ & _ & _ & Hb & _ & _ & _ & _ & _ & _ & Hx). cbn in *. exists o, (seen ++ [contents g']), (contents g).
    rewrite length_app in Hb. destruct xs; [done|]. cbn in Hb. split_and!; [done|set_solver|lia].
  - destruct He as (_ & _ & Hlog & _). rewrite Hlog in HT. lia.
Qed.

Lemma moved_some t g s e g' s' su o :
  Moved t g s e g' s' → SI g su → gH g < gH g' → called su o → seen_some (seen_by e g' su) (λ l, l ≠ []).
Proof.
  intros He HS HT [seen ->]. destruct e; cbn in He; try done; [lia|destruct He as (_ & He & _); lia|].
  destruct He as (_ & _ & _ & Hn & _). cbn in *. exists o, (seen ++ [contents g']), (contents g).
  split_and!; [done|set_solver|]. intros H0. rewrite H0 in Hn. cbn in Hn. lia.
Qed.

(** The step of the specification that matches a move. *)
Lemma moved_step a t g e g' s' :
  0 ≤ gH g ≤ gT g → items a = contents g → Moved t g (status a t) e g' s' →
  astep cap a e (mkBounded (contents g') (<[t := s']> (λ u, seen_by e g' (status a u)))).
Proof.
  intros Hle Hi He. pose proof (moved_contents _ _ _ _ _ _ Hle He) as Hc. destruct e as [|u o|u xs|u n|u r]; cbn in He; try done.
  - destruct He as (_ & _ & ->). apply a_tau; cbn; [by rewrite Hi, Hc|]. intros u.
    destruct (decide (u = t)) as [->|]; [by rewrite fn_lookup_insert|by rewrite fn_lookup_insert_ne].
  - destruct He as (-> & _ & _ & Hb & o & seen & r & Hs & Ho & -> & _).
    apply (a_enq _ _ _ o seen _ r); cbn; rewrite ?Hi; try done.
  - destruct He as (-> & _ & _ & Hn & o & seen & r & Hs & Ho & ->).
    replace n with (length (take n (contents g))) at 1 by (rewrite length_take; lia).
    by apply (a_deq _ _ _ o seen _ r); cbn; rewrite ?Hi.
Qed.
End moves.

Lemma enqueued_app {A} (es es' : list (event A)) : enqueued (es ++ es') = enqueued es ++ enqueued es'.
Proof. unfold enqueued. by rewrite bind_app. Qed.
