(* ===== verification/ArrayQueue.v ===== *)
(** * ArrayQueue: the bounded ring behind the channels

    Model of [crates/youpipe-crossfire/src/crossbeam/array_queue.rs], the
    lock-free multi-producer multi-consumer ring every bounded channel of the
    engines is built on: single and batched pushes and pops, the one-shot
    push, the queries and the destructor, interleaved access by access.
    [Slot] and [Queue] are the ring, [code_step] is one access to shared
    memory of one thread, and [step] the threads' interleaving with calls and
    returns as events.

    A push takes effect when it moves the tail, a pop when it moves the head.
    Stamps are 64-bit words; the theorems are about runs in which they do not
    wrap around. *)

From stdpp Require Import functions.
From S2P Require Import Prelude RingPos BoundedQueue.
Local Open Scope Z_scope.

Notation USIZE := 64.

Record Slot (A : Type) : Type := mkSlot { stamp : Z; value : option A }.
Arguments mkSlot {A} _ _.
Arguments stamp {A} _.
Arguments value {A} _.

Record Queue (A : Type) : Type := mkQueue { head : Z; tail : Z; buffer : list (Slot A); one_lap : Z }.
Arguments mkQueue {A} _ _ _ _.
Arguments head {A} _.
Arguments tail {A} _.
Arguments buffer {A} _.
Arguments one_lap {A} _.

(** [ArrayQueue::new]: slot [i] starts with stamp [i]. *)
Definition new {A} (cap : Z) : outcome (Queue A) :=
  guard_panic (bool_decide (0 < cap));;
  c ← checked_add USIZE cap 1;
  mret (mkQueue 0 0 ((λ i, mkSlot (Z.of_nat i) None) <$> seq 0 (Z.to_nat cap)) (next_power_of_two USIZE c)).

Definition capacity {A} (q : Queue A) : Z := Z.of_nat (length (buffer q)).
Definition set_head {A} (q : Queue A) (h : Z) : Queue A := mkQueue h (tail q) (buffer q) (one_lap q).
Definition set_tail {A} (q : Queue A) (t : Z) : Queue A := mkQueue (head q) t (buffer q) (one_lap q).

(** [buffer.get_unchecked(index)], after the debug assertion on the index. *)
Definition slot_at {A} (q : Queue A) (index : Z) : outcome (Slot A) :=
  guard_panic (bool_decide (index < capacity q));;
  match buffer q !! Z.to_nat index with Some s => mret s | None => Undef end.
Definition set_slot {A} (q : Queue A) (index : Z) (s : Slot A) : Queue A :=
  mkQueue (head q) (tail q) (<[Z.to_nat index := s]> (buffer q)) (one_lap q).

(** ** Program points *)

(** Which push or pop a thread is in: [push_with_ptr], [try_push_oneshot] or
    [try_push_batch] (with the number of slots claimed), [pop] or
    [pop_batch]. *)
Inductive pusher : Type := KPush | KOneshot | KBatch (n : nat).
Inductive popper : Type := KPop | KPopBatch.

(** A program point is the local state before the next access to shared
    memory. *)
Inductive Pc (A : Type) : Type :=
  | Idle
  | Returning (r : result A)
  | PushLoad (k : pusher) (x : A)
  | OneHead (x : A) (tail : Z)
  | PushStamp (k : pusher) (x : A) (tail : Z)
  | PushCas (k : pusher) (x : A) (tail : Z)
  | PushFull (x : A) (tail : Z)
  | BPushLoad (values : list A)
  | BPushWalk (values : list A) (attempt : nat) (tail : Z) (n : nat) (pos : Z)
  | BPushCas (values : list A) (attempt : nat) (tail : Z) (n : nat) (pos : Z)
  | Write (k : pusher) (p : Z) (values : list A)
  | Publish (k : pusher) (p : Z) (values : list A)
  | PopLoad
  | PopStamp (head : Z)
  | PopCas (head : Z)
  | PopTail (head : Z)
  | BPopLoad (len : nat)
  | BPopWalk (len attempt : nat) (head : Z) (n : nat) (pos : Z)
  | BPopCas (len attempt : nat) (head : Z) (n : nat) (pos : Z)
  | Read (k : popper) (p : Z) (todo : nat) (out : list A)
  | Free (k : popper) (p : Z) (todo : nat) (out : list A)
  | Empty1
  | Empty2 (head : Z)
  | Full1
  | Full2 (tail : Z)
  | Len1
  | Len2 (tail : Z)
  | Len3 (tail head : Z).
Arguments Idle {A}.
Arguments Returning {A} r.
Arguments PushLoad {A} k x.
Arguments OneHead {A} x tail.
Arguments PushStamp {A} k x tail.
Arguments PushCas {A} k x tail.
Arguments PushFull {A} x tail.
Arguments BPushLoad {A} values.
Arguments BPushWalk {A} values attempt tail n pos.
Arguments BPushCas {A} values attempt tail n pos.
Arguments Write {A} k p values.
Arguments Publish {A} k p values.
Arguments PopLoad {A}.
Arguments PopStamp {A} head.
Arguments PopCas {A} head.
Arguments PopTail {A} head.
Arguments BPopLoad {A} len.
Arguments BPopWalk {A} len attempt head n pos.
Arguments BPopCas {A} len attempt head n pos.
Arguments Read {A} k p todo out.
Arguments Free {A} k p todo out.
Arguments Empty1 {A}.
Arguments Empty2 {A} head.
Arguments Full1 {A}.
Arguments Full2 {A} tail.
Arguments Len1 {A}.
Arguments Len2 {A} tail.
Arguments Len3 {A} tail head.

Definition entry {A} (o : op A) : Pc A :=
  match o with
  | OpPush x => PushLoad KPush x
  | OpPushOneshot x => PushLoad KOneshot x
  | OpPushBatch vs => BPushLoad vs
  | OpPop | OpPopCached => PopLoad
  | OpPopBatch n => BPopLoad n
  | OpIsEmpty => Empty1
  | OpIsFull => Full1
  | OpLen => Len1
  end.

(** ** The code, access by access *)

Section steps.
Context {A : Type} (MP MC : bool).
Implicit Types (q : Queue A) (t : nat).

Notation outc := (outcome (Queue A * Pc A * event A)).

(** [push_with_ptr] after an attempt that found the slot taken. *)
Definition push_retry (x : A) (tl : Z) : Pc A := if MP then PushLoad KPush x else PushStamp KPush x tl.

(** [_try_push] with its two callers, up to the move of the tail. *)
Definition push_step q t (spurious : bool) (p : Pc A) : outc :=
  match p with
  | PushLoad k x =>
      mret (q, match k with KOneshot => OneHead x (tail q) | _ => PushStamp k x (tail q) end, Tau)
  | OneHead x tl =>
      if bool_decide (wrapping_add USIZE (head q) (one_lap q) = tl)
      then mret (q, Returning (ROneshot (Some false)), Tau)
      else mret (q, PushStamp KOneshot x tl, Tau)
  | PushStamp k x tl =>
      s ← slot_at q (index_of (one_lap q) tl);
      if bool_decide (tl = stamp s) then mret (q, PushCas k x tl, Tau)
      else match k with
        | KPush =>
            t1 ← checked_add USIZE tl 1;
            if bool_decide (wrapping_add USIZE (stamp s) (one_lap q) = t1) then mret (q, PushFull x tl, Tau)
            else mret (q, push_retry x tl, Tau)
        | _ => mret (q, Returning (ROneshot None), Tau)
        end
  | PushCas k x tl =>
      new_tail ← advance USIZE (one_lap q) (capacity q) tl;
      if negb MP || (bool_decide (tail q = tl) && negb spurious)
      then mret (set_tail q new_tail, Write k tl [x], Enq t [x])
      else match k with
        | KPush => mret (q, PushStamp KPush x (tail q), Tau)
        | _ => mret (q, Returning (ROneshot None), Tau)
        end
  | PushFull x tl =>
      if bool_decide (wrapping_add USIZE (head q) (one_lap q) = tl)
      then mret (q, Returning (RPush false), Tau)
      else mret (q, push_retry x tl, Tau)
  | _ => mret (q, p, Tau)
  end.

(** [try_push_batch] up to the claim: the walk over the free slots, then the
    move of the tail; at most four attempts. *)
Definition push_claim (vs : list A) (attempt : nat) (tl : Z) (n : nat) (pos : Z) : Pc A :=
  if bool_decide (n = 0)%nat then Returning (RPushBatch 0) else BPushCas vs attempt tl n pos.
Definition push_walk (vs : list A) (attempt : nat) (tl : Z) (n : nat) (pos : Z) : Pc A :=
  if bool_decide (n < length vs)%nat then BPushWalk vs attempt tl n pos else push_claim vs attempt tl n pos.

Definition push_batch_step q t (p : Pc A) : outc :=
  match p with
  | BPushLoad vs => mret (q, push_walk vs 0 (tail q) 0 (tail q), Tau)
  | BPushWalk vs attempt tl n pos =>
      s ← slot_at q (index_of (one_lap q) pos);
      if bool_decide (stamp s = pos)
      then pos' ← advance USIZE (one_lap q) (capacity q) pos;
           mret (q, push_walk vs attempt tl (S n) pos', Tau)
      else mret (q, push_claim vs attempt tl n pos, Tau)
  | BPushCas vs attempt tl n pos =>
      if negb MP || bool_decide (tail q = tl)
      then mret (set_tail q pos, Write (KBatch n) tl (take n vs), Enq t (take n vs))
      else if bool_decide (S attempt < 4)%nat then mret (q, push_walk vs (S attempt) (tail q) 0 (tail q), Tau)
      else mret (q, Returning (RPushBatch 0), Tau)
  | _ => mret (q, p, Tau)
  end.

(** Writing the claimed slots: the value, then the stamp ([_try_push] and
    [write_claimed]). *)
Definition pushed (k : pusher) : result A :=
  match k with KPush => RPush true | KOneshot => ROneshot (Some true) | KBatch n => RPushBatch n end.

Definition write_step q (p : Pc A) : outc :=
  match p with
  | Write k p (x :: vs) =>
      let i := index_of (one_lap q) p in
      s ← slot_at q i;
      mret (set_slot q i (mkSlot (stamp s) (Some x)), Publish k p vs, Tau)
  | Publish k p vs =>
      let i := index_of (one_lap q) p in
      s ← slot_at q i;
      match k with
      | KBatch _ =>
          p' ← advance USIZE (one_lap q) (capacity q) p;
          mret (set_slot q i (mkSlot (wrapping_add USIZE p 1) (value s)),
                match vs with [] => Returning (pushed k) | _ => Write k p' vs end, Tau)
      | _ =>
          p1 ← checked_add USIZE p 1;
          mret (set_slot q i (mkSlot p1 (value s)), Returning (pushed k), Tau)
      end
  | _ => mret (q, p, Tau)
  end.

(** [_start_read]. *)
Definition pop_retry (hd : Z) : Pc A := if MC then PopLoad else PopStamp hd.

Definition pop_step q t (spurious : bool) (p : Pc A) : outc :=
  match p with
  | PopLoad => mret (q, PopStamp (head q), Tau)
  | PopStamp hd =>
      s ← slot_at q (index_of (one_lap q) hd);
      h1 ← checked_add USIZE hd 1;
      if bool_decide (h1 = stamp s) then mret (q, PopCas hd, Tau)
      else if bool_decide (stamp s = hd) then mret (q, PopTail hd, Tau)
      else mret (q, pop_retry hd, Tau)
  | PopCas hd =>
      new_head ← advance USIZE (one_lap q) (capacity q) hd;
      if negb MC || (bool_decide (head q = hd) && negb spurious)
      then mret (set_head q new_head, Read KPop hd 1 [], Deq t 1)
      else mret (q, PopStamp (head q), Tau)
  | PopTail hd =>
      if bool_decide (tail q = hd) then mret (q, Returning (RPop None), Tau)
      else mret (q, pop_retry hd, Tau)
  | _ => mret (q, p, Tau)
  end.

(** [pop_batch] up to the claim. *)
Definition pop_claim (len attempt : nat) (hd : Z) (n : nat) (pos : Z) : Pc A :=
  if bool_decide (n = 0)%nat then Returning (RPopBatch []) else BPopCas len attempt hd n pos.
Definition pop_walk (len attempt : nat) (hd : Z) (n : nat) (pos : Z) : Pc A :=
  if bool_decide (n < len)%nat then BPopWalk len attempt hd n pos else pop_claim len attempt hd n pos.

Definition pop_batch_step q t (p : Pc A) : outc :=
  match p with
  | BPopLoad len => mret (q, pop_walk len 0 (head q) 0 (head q), Tau)
  | BPopWalk len attempt hd n pos =>
      s ← slot_at q (index_of (one_lap q) pos);
      if bool_decide (stamp s = wrapping_add USIZE pos 1)
      then pos' ← advance USIZE (one_lap q) (capacity q) pos;
           mret (q, pop_walk len attempt hd (S n) pos', Tau)
      else mret (q, pop_claim len attempt hd n pos, Tau)
  | BPopCas len attempt hd n pos =>
      if bool_decide (head q = hd)
      then mret (set_head q pos, Read KPopBatch hd n [], Deq t n)
      else if bool_decide (S attempt < 4)%nat then mret (q, pop_walk len (S attempt) (head q) 0 (head q), Tau)
      else mret (q, Returning (RPopBatch []), Tau)
  | _ => mret (q, p, Tau)
  end.

(** Emptying the claimed slots: the value, then the stamp of the next lap
    ([pop], [read] with its token, [pop_batch]). *)
Definition popped (k : popper) (out : list A) : result A :=
  match k with KPop => RPop (hd_error out) | KPopBatch => RPopBatch out end.

Definition read_step q (p : Pc A) : outc :=
  match p with
  | Read k p (S todo) out =>
      let i := index_of (one_lap q) p in
      s ← slot_at q i;
      x ← assume_init (value s);
      mret (set_slot q i (mkSlot (stamp s) None), Free k p todo (out ++ [x]), Tau)
  | Free k p todo out =>
      let i := index_of (one_lap q) p in
      s ← slot_at q i;
      let q' := set_slot q i (mkSlot (wrapping_add USIZE p (one_lap q)) (value s)) in
      match k with
      | KPop => mret (q', Returning (popped k out), Tau)
      | KPopBatch =>
          p' ← advance USIZE (one_lap q) (capacity q) p;
          mret (q', match todo with O => Returning (popped k out) | _ => Read k p' todo out end, Tau)
      end
  | _ => mret (q, p, Tau)
  end.

(** [is_empty], [is_full] and [len]. *)
Definition query_step q (p : Pc A) : outc :=
  match p with
  | Empty1 => mret (q, Empty2 (head q), Tau)
  | Empty2 hd => mret (q, Returning (RBool (bool_decide (tail q = hd))), Tau)
  | Full1 => mret (q, Full2 (tail q), Tau)
  | Full2 tl =>
      mret (q, Returning (RBool (bool_decide (wrapping_add USIZE (head q) (one_lap q) = tl))), Tau)
  | Len1 => mret (q, Len2 (tail q), Tau)
  | Len2 tl => mret (q, Len3 tl (head q), Tau)
  | Len3 tl hd =>
      if bool_decide (tail q = tl)
      then n ← stamp_len (one_lap q) (capacity q) hd tl; mret (q, Returning (RLen n), Tau)
      else mret (q, Len1, Tau)
  | _ => mret (q, p, Tau)
  end.

Definition code_step q t (spurious : bool) (p : Pc A) : outc :=
  match p with
  | PushLoad _ _ | OneHead _ _ | PushStamp _ _ _ | PushCas _ _ _ | PushFull _ _ => push_step q t spurious p
  | BPushLoad _ | BPushWalk _ _ _ _ _ | BPushCas _ _ _ _ _ => push_batch_step q t p
  | Write _ _ _ | Publish _ _ _ => write_step q p
  | PopLoad | PopStamp _ | PopCas _ | PopTail _ => pop_step q t spurious p
  | BPopLoad _ | BPopWalk _ _ _ _ _ | BPopCas _ _ _ _ _ => pop_batch_step q t p
  | Read _ _ _ _ | Free _ _ _ _ => read_step q p
  | Empty1 | Empty2 _ | Full1 | Full2 _ | Len1 | Len2 _ | Len3 _ _ => query_step q p
  | Idle | Returning _ => mret (q, p, Tau)
  end.

(** ** The interleaving *)

Definition pushing (p : Pc A) : bool :=
  match p with
  | PushLoad _ _ | OneHead _ _ | PushStamp _ _ _ | PushCas _ _ _ | PushFull _ _
  | BPushLoad _ | BPushWalk _ _ _ _ _ | BPushCas _ _ _ _ _ | Write _ _ _ | Publish _ _ _ => true
  | _ => false
  end.
Definition popping (p : Pc A) : bool :=
  match p with
  | PopLoad | PopStamp _ | PopCas _ | PopTail _ | BPopLoad _ | BPopWalk _ _ _ _ _
  | BPopCas _ _ _ _ _ | Read _ _ _ _ | Free _ _ _ _ => true
  | _ => false
  end.
End steps.

Record State (A : Type) : Type := mkState { queue : Queue A; thread : nat → Pc A }.
Arguments mkState {A} _ _.
Arguments queue {A} _.
Arguments thread {A} _ _.

Definition init {A} (q : Queue A) : State A := mkState q (λ _, Idle).

(** A ring with a single producer ([MP] false) is pushed to by one thread at a
    time, and likewise on the other side. *)
Definition call_ok {A} (MP MC : bool) (σ : State A) (o : op A) : Prop :=
  (MP = false → pushing (entry o) = true → ∀ t, pushing (thread σ t) = false) ∧
  (MC = false → popping (entry o) = true → ∀ t, popping (thread σ t) = false).

Inductive step {A} (MP MC : bool) : State A → event A → State A → Prop :=
  | step_call σ t o :
      thread σ t = Idle → call_ok MP MC σ o →
      step MP MC σ (Call t o) (mkState (queue σ) (<[t := entry o]> (thread σ)))
  | step_code σ t spurious q' p' e :
      code_step MP MC (queue σ) t spurious (thread σ t) = Ret (q', p', e) →
      step MP MC σ e (mkState q' (<[t := p']> (thread σ)))
  | step_return σ t r :
      thread σ t = Returning r →
      step MP MC σ (Return t r) (mkState (queue σ) (<[t := Idle]> (thread σ))).

Inductive steps {A} (MP MC : bool) : State A → list (event A) → State A → Prop :=
  | steps_nil σ : steps MP MC σ [] σ
  | steps_snoc σ es σ1 e σ2 : steps MP MC σ es σ1 → step MP MC σ1 e σ2 → steps MP MC σ (es ++ [e]) σ2.

(** [Drop]: the values between the head and the tail, in order. *)
Fixpoint drop_loop {A} (q : Queue A) (hix : Z) (i todo : nat) : outcome (list A) :=
  match todo with
  | O => mret []
  | S n =>
      let at_ := hix + Z.of_nat i in
      index ← (if bool_decide (at_ < capacity q) then mret at_ else checked_sub at_ (capacity q));
      s ← slot_at q index;
      x ← assume_init (value s);
      rest ← drop_loop q hix (S i) n;
      mret (x :: rest)
  end.
Definition drop_queue {A} (q : Queue A) : outcome (list A) :=
  len ← stamp_len (one_lap q) (capacity q) (head q) (tail q);
  drop_loop q (index_of (one_lap q) (head q)) 0 (Z.to_nat len).

(** ** Concrete runs

    A schedule names threads and what they do: start an operation, perform one
    access (no weak exchange fails), or return. *)
Inductive choice (A : Type) : Type := Start (o : op A) | Go | End.
Arguments Start {A} o.
Arguments Go {A}.
Arguments End {A}.

Fixpoint run {A} (MP MC : bool) (sched : list (nat * choice A)) (σ : State A) (es : list (event A)) :
    option (State A * list (event A)) :=
  match sched with
  | [] => Some (σ, es)
  | (t, c) :: sched =>
      match c, thread σ t with
      | Start o, Idle => run MP MC sched (mkState (queue σ) (<[t := entry o]> (thread σ))) (es ++ [Call t o])
      | Go, p =>
          match code_step MP MC (queue σ) t false p with
          | Ret (q', p', e) => run MP MC sched (mkState q' (<[t := p']> (thread σ))) (es ++ [e])
          | _ => None
          end
      | End, Returning r => run MP MC sched (mkState (queue σ) (<[t := Idle]> (thread σ))) (es ++ [Return t r])
      | _, _ => None
      end
  end.

Lemma aq_run_steps {A} sched (σ0 σ σ' : State A) es es' :
  steps true true σ0 es σ → run true true sched σ es = Some (σ', es') → steps true true σ0 es' σ'.
Proof.
  revert σ es. induction sched as [|[t c] sched IH]; intros σ es Hs Hr; cbn in Hr; [by injection Hr as <- <-|].
  destruct c.
  - destruct (thread σ t) eqn:Ht; try done. eapply IH; [|exact Hr]. econstructor; [done|].
    apply step_call; [done|]. split; intros; done.
  - destruct (code_step true true (queue σ) t false (thread σ t)) as [[[q' p'] e]| | |] eqn:Hc; try done.
    eapply IH; [|exact Hr]. econstructor; [done|]. by eapply step_code.
  - destruct (thread σ t) eqn:Ht; try done. eapply IH; [|exact Hr]. econstructor; [done|]. by apply step_return.
Qed.
