(* ===== verification/ArrayQueueSpec.v ===== *)
(** * ArrayQueueSpec: the ring is an atomic bounded FIFO

    The proof that every interleaving of the code of [ArrayQueue] refines the
    specification of [BoundedQueue].

    The proof keeps a ghost history: every item that entered the ring has a
    position, the number of items that entered before it.  A position is
    claimed by a producer, written, ready, taken by a consumer, emptied and
    done; the slot of a position holds exactly what that phase says.  What a
    thread remembers of the cursors are positions at or below them. *)

From stdpp Require Import functions.
From S2P Require Import Prelude RingPos RingGhost BoundedQueue ArrayQueue.
Local Open Scope Z_scope.

Section inv.
Context {A : Type} (MP MC : bool) (cap L : Z).
Hypothesis Hcap : 0 < cap.
Hypothesis HL : pow2 L.
Hypothesis Hroom : cap < L.
Implicit Types (q : Queue A) (g : Ghost A) (t : nat) (s : astatus A).

Notation enc := (enc cap L).
Notation fits := (fits cap L USIZE).

(** What the slot of position [k] holds. *)
Definition cell g (k : Z) : Slot A :=
  match gst g k with
  | Claimed _ => mkSlot (enc k) None
  | Written _ => mkSlot (enc k) (logged g k)
  | Ready | Taken _ => mkSlot (enc k + 1) (logged g k)
  | Emptied _ => mkSlot (enc k + 1) None
  | Done => mkSlot (enc (k + cap)) None
  end.

Record QInv q g : Prop := {
  qi_cap : capacity q = cap;
  qi_lap : one_lap q = L;
  qi_head : head q = enc (gH g);
  qi_tail : tail q = enc (gT g);
  qi_le : 0 ≤ gH g ≤ gT g;
  qi_full : gT g ≤ gH g + cap;
  qi_fits : fits (gT g + cap);
  qi_buf k : gT g - cap ≤ k < gT g → buffer q !! Z.to_nat (k mod cap) = Some (cell g k);
  qi_queued k : gH g ≤ k < gT g → queued (gst g k);
  qi_gone k : k < gH g → gone (gst g k);
  qi_old k : k < gT g - cap ∨ k < 0 → gst g k = Done;
}.

(** *** The claims of a thread, and what it remembers of the cursors *)

Definition old_tail g (k : Z) : Prop := 0 ≤ k ≤ gT g ∧ (MP = false → k = gT g).
Definition old_head g (k : Z) : Prop := 0 ≤ k ≤ gH g ∧ (MC = false → k = gH g).
Definition free_run g (k : Z) (n : nat) : Prop :=
  k + Z.of_nat n ≤ gT g + cap ∧
  (k = gT g → ∀ j, 0 ≤ j < Z.of_nat n → gst g (k + j - cap) = Done).
Definition ready_run g (k : Z) (n : nat) : Prop :=
  k + Z.of_nat n ≤ gT g ∧ (k = gH g → ∀ j, 0 ≤ j < Z.of_nat n → gst g (k + j) = Ready).
Definition push_of (k : pusher) (x : A) : op A :=
  match k with KPush => OpPush x | KOneshot => OpPushOneshot x | KBatch _ => OpPushBatch [x] end.
Definition single (k : pusher) : bool := match k with KBatch _ => false | _ => true end.
Definition TI g t (p : Pc A) s : Prop :=
  match p with
  | Idle => s = AIdle
  | Returning r => s = ADecided r ∨ answered cap s r
  | PushLoad kd x => single kd = true ∧ called s (push_of kd x)
  | OneHead x tl => called s (OpPushOneshot x) ∧ ∃ k, tl = enc k ∧ old_tail g k
  | PushStamp kd x tl => single kd = true ∧ called s (push_of kd x) ∧ ∃ k, tl = enc k ∧ old_tail g k
  | PushCas kd x tl =>
      single kd = true ∧ called s (push_of kd x) ∧ ∃ k, tl = enc k ∧ old_tail g k ∧ free_run g k 1
  | PushFull x tl => called s (OpPush x) ∧ ∃ k, tl = enc k ∧ old_tail g k
  | BPushLoad vs => called s (OpPushBatch vs)
  | BPushWalk vs attempt tl n pos =>
      called s (OpPushBatch vs) ∧ (n < length vs)%nat ∧
      ∃ k, tl = enc k ∧ pos = enc (k + Z.of_nat n) ∧ old_tail g k ∧ free_run g k n
  | BPushCas vs attempt tl n pos =>
      called s (OpPushBatch vs) ∧ (0 < n ≤ length vs)%nat ∧
      ∃ k, tl = enc k ∧ pos = enc (k + Z.of_nat n) ∧ old_tail g k ∧ free_run g k n
  | Write kd p vs =>
      s = ADecided (pushed kd) ∧ vs ≠ [] ∧ (single kd = true → length vs = 1%nat) ∧
      ∃ k, p = enc k ∧ mine g (Claimed t) k vs
  | Publish kd p vs =>
      s = ADecided (pushed kd) ∧ (single kd = true → vs = []) ∧
      ∃ k, p = enc k ∧ 0 ≤ k < gT g ∧ gst g k = Written t ∧ mine g (Claimed t) (k + 1) vs
  | PopLoad => pop_call s
  | PopStamp hd => pop_call s ∧ ∃ k, hd = enc k ∧ old_head g k
  | PopCas hd => pop_call s ∧ ∃ k, hd = enc k ∧ old_head g k ∧ ready_run g k 1
  | PopTail hd => pop_call s ∧ ∃ k, hd = enc k ∧ old_head g k
  | BPopLoad len => called s (OpPopBatch len)
  | BPopWalk len attempt hd n pos =>
      called s (OpPopBatch len) ∧ (n < len)%nat ∧
      ∃ k, hd = enc k ∧ pos = enc (k + Z.of_nat n) ∧ old_head g k ∧ ready_run g k n
  | BPopCas len attempt hd n pos =>
      called s (OpPopBatch len) ∧ (0 < n ≤ len)%nat ∧
      ∃ k, hd = enc k ∧ pos = enc (k + Z.of_nat n) ∧ old_head g k ∧ ready_run g k n
  | Read kd p todo out =>
      todo ≠ 0%nat ∧ (kd = KPop → todo = 1%nat ∧ out = []) ∧
      ∃ k xs, p = enc k ∧ length xs = todo ∧ s = ADecided (popped kd (out ++ xs)) ∧ mine g (Taken t) k xs
  | Free kd p todo out =>
      (kd = KPop → todo = 0%nat) ∧
      ∃ k xs, p = enc k ∧ length xs = todo ∧ s = ADecided (popped kd (out ++ xs)) ∧
        0 ≤ k < gT g ∧ gst g k = Emptied t ∧ mine g (Taken t) (k + 1) xs
  | Empty1 => called s OpIsEmpty
  | Empty2 hd =>
      called s OpIsEmpty ∧ ∃ k, hd = enc k ∧ 0 ≤ k ≤ gH g ∧ (k < gH g → seen_some s (λ l, l ≠ []))
  | Full1 => called s OpIsFull
  | Full2 tl =>
      called s OpIsFull ∧ ∃ k, tl = enc k ∧ 0 ≤ k ≤ gT g ∧
      (k < gT g → seen_some s (λ l, Z.of_nat (length l) < cap))
  | Len1 => called s OpLen
  | Len2 tl => called s OpLen ∧ ∃ k, tl = enc k ∧ 0 ≤ k ≤ gT g
  | Len3 tl hd =>
      called s OpLen ∧ ∃ k j, tl = enc k ∧ hd = enc j ∧ 0 ≤ k ≤ gT g ∧
      (k = gT g → 0 ≤ k - j ≤ cap ∧ seen_some s (λ l, Z.of_nat (length l) = k - j))
  end.

(** The present contents are among those a running operation has seen. *)

(** *** What the steps of other threads preserve *)

Record env t (p : Pc A) g s g' s' : Prop := {
  e_H : gH g ≤ gH g';
  e_log : glog g `prefix_of` glog g';
  e_own k : k < gT g → owner (gst g k) = Some t → gst g' k = gst g k;
  e_done k : k < gT g → gst g k = Done → gst g' k = Done;
  e_ready k : k < gT g → gst g k = Ready → gst g' k = Ready ∨ k < gH g';
  e_mp : MP = false → pushing p = true → gT g' = gT g;
  e_mc : MC = false → popping p = true → gH g' = gH g;
  e_grows : grows s s';
  e_room o : gT g < gT g' → called s o → seen_some s' (λ l, Z.of_nat (length l) < cap);
  e_some o : gH g < gH g' → called s o → seen_some s' (λ l, l ≠ []);
}.

Lemma env_T t p g s g' s' : env t p g s g' s' → gT g ≤ gT g'.
Proof. intros [_ Hl _ _ _ _ _ _ _ _]. apply prefix_length in Hl. unfold gT. lia. Qed.

Lemma env_logged t p g s g' s' k x : env t p g s g' s' → logged g k = Some x → logged g' k = Some x.
Proof. intros He H. destruct (e_log _ _ _ _ _ _ He) as [r Hr]. unfold logged. rewrite Hr. by apply lookup_app_l_Some. Qed.

Lemma env_old_tail t p g s g' s' k : env t p g s g' s' → pushing p = true → old_tail g k → old_tail g' k.
Proof.
  intros He Hp [Hk Hm]. pose proof (env_T _ _ _ _ _ _ He). split; [lia|]. intros H0.
  rewrite (e_mp _ _ _ _ _ _ He) by done. auto.
Qed.

Lemma env_old_head t p g s g' s' k : env t p g s g' s' → popping p = true → old_head g k → old_head g' k.
Proof.
  intros He Hp [Hk Hm]. pose proof (e_H _ _ _ _ _ _ He). split; [lia|]. intros H0.
  rewrite (e_mc _ _ _ _ _ _ He) by done. auto.
Qed.

Lemma env_free_run t p g s g' s' k n :
  env t p g s g' s' → old_tail g k → free_run g k n → free_run g' k n.
Proof.
  intros He [Hk _] [Hb Hr]. pose proof (env_T _ _ _ _ _ _ He). split; [lia|]. intros Hk' j Hj.
  apply (e_done _ _ _ _ _ _ He); [lia|]. apply Hr; lia.
Qed.

Lemma env_ready_run t p g s g' s' k n :
  env t p g s g' s' → old_head g k → ready_run g k n → ready_run g' k n.
Proof.
  intros He [Hk _] [Hb Hr]. pose proof (env_T _ _ _ _ _ _ He). pose proof (e_H _ _ _ _ _ _ He).
  split; [lia|]. intros Hk' j Hj. destruct (e_ready _ _ _ _ _ _ He (k + j)) as [|Hlt]; [lia|apply Hr; lia|done|lia].
Qed.

Lemma env_mine t p g s g' s' ph k xs :
  env t p g s g' s' → owner ph = Some t → mine g ph k xs → mine g' ph k xs.
Proof.
  intros He Ho (H0 & Hb & Hm). pose proof (env_T _ _ _ _ _ _ He). split_and!; [done|lia|].
  intros j x Hx. destruct (Hm j x Hx) as [Hp Hl]. apply lookup_lt_Some in Hx.
  split; [|by eapply env_logged]. rewrite <- Hp. apply (e_own _ _ _ _ _ _ He); [lia|by rewrite Hp].
Qed.

Lemma env_owned t p g s g' s' ph k :
  env t p g s g' s' → owner ph = Some t → k < gT g → gst g k = ph → gst g' k = ph.
Proof. intros He Ho Hk Hp. rewrite <- Hp. apply (e_own _ _ _ _ _ _ He); [done|by rewrite Hp]. Qed.

#[local] Hint Resolve grows_called grows_pop_call grows_seen grows_answered grows_decided env_old_tail env_old_head
  env_free_run env_ready_run : aq.

Lemma aq_TI_env t p g s g' s' : env t p g s g' s' → TI g t p s → TI g' t p s'.
Proof.
  intros He. pose proof (env_T _ _ _ _ _ _ He) as HT. pose proof (e_H _ _ _ _ _ _ He) as HH.
  pose proof (e_grows _ _ _ _ _ _ He) as Hg. destruct p; cbn [TI]; try (by eauto with aq).
  - by intros ->.
  - intros [->|Ha]; [by left|right; by eapply grows_answered].
  - naive_solver eauto with aq.
  - intros [Hc (i & -> & Hi)]. split; [by eauto with aq|]. exists i. by eauto 8 with aq.
  - intros (? & Hc & i & -> & Hi). split_and!; [done|by eauto with aq|]. exists i. by eauto 8 with aq.
  - intros (? & Hc & i & -> & Hi & Hr). split_and!; [done|by eauto with aq|]. exists i. by eauto 8 with aq.
  - intros [Hc (i & -> & Hi)]. split; [by eauto with aq|]. exists i. by eauto 8 with aq.
  - intros (Hc & Hn & i & -> & -> & Hi & Hr). split_and!; [by eauto with aq|done|]. exists i. by eauto 8 with aq.
  - intros (Hc & Hn & i & -> & -> & Hi & Hr). split_and!; [by eauto with aq|lia|lia|]. exists i. by eauto 8 with aq.
  - intros (Hc & Hn & ? & i & -> & Hm). split_and!; [by eauto with aq|done|done|]. exists i.
    split; [done|]. by eapply env_mine.
  - intros (Hc & Hn & i & -> & Hi & Hp & Hm). split_and!; [by eauto with aq|done|]. exists i.
    split_and!; [done|lia|lia|eapply env_owned; [done|done|lia|done]|by eapply env_mine].
  - intros [Hc (i & -> & Hi)]. split; [by eauto with aq|]. exists i. by eauto 8 with aq.
  - intros (Hc & i & -> & Hi & Hr). split_and!; [by eauto with aq|]. exists i. by eauto 8 with aq.
  - intros [Hc (i & -> & Hi)]. split; [by eauto with aq|]. exists i. by eauto 8 with aq.
  - intros (Hc & Hn & i & -> & -> & Hi & Hr). split_and!; [by eauto with aq|done|]. exists i. by eauto 8 with aq.
  - intros (Hc & Hn & i & -> & -> & Hi & Hr). split_and!; [by eauto with aq|lia|lia|]. exists i. by eauto 8 with aq.
  - intros (? & ? & i & xs & -> & ? & Hc & Hm). split_and!; [done..|]. exists i, xs.
    split_and!; [done..|by eauto with aq|by eapply env_mine].
  - intros (? & i & xs & -> & ? & Hc & Hi & Hp & Hm). split_and!; [done..|]. exists i, xs.
    split_and!; [done..|by eauto with aq|lia|lia|eapply env_owned; [done|done|lia|done]|by eapply env_mine].
  - intros (Hc & i & -> & Hi & Hs). split; [by eauto with aq|]. exists i. split_and!; [done|lia..|].
    intros Hlt. destruct (decide (i < gH g)); [by eauto with aq|]. eapply (e_some _ _ _ _ _ _ He); [lia|done].
  - intros (Hc & i & -> & Hi & Hs). split; [by eauto with aq|]. exists i. split_and!; [done|lia..|].
    intros Hlt. destruct (decide (i < gT g)); [by eauto with aq|]. eapply (e_room _ _ _ _ _ _ He); [lia|done].
  - intros (Hc & i & -> & Hi). split; [by eauto with aq|]. exists i. split; [done|lia].
  - intros (Hc & i & j & -> & -> & Hi & Hs). split; [by eauto with aq|]. exists i, j. split_and!; [done..|lia|lia|].
    intros Hi'. destruct Hs as [? Hs]; [lia|]. split; [done|by eauto with aq].
Qed.

(** *** Slots *)

Lemma slot_ok q g k :
  QInv q g → gT g - cap ≤ k < gT g → slot_at q (index_of (one_lap q) (enc k)) = Ret (cell g k).
Proof.
  intros Hq Hk. rewrite (qi_lap _ _ Hq), enc_index by done. unfold slot_at.
  rewrite (qi_cap _ _ Hq). pose proof (Z.mod_pos_bound k cap Hcap).
  rewrite bool_decide_eq_true_2 by lia. cbn. by rewrite (qi_buf _ _ Hq).
Qed.

(** The slot of any position holds the cell of a position of the window. *)
Lemma slot_any q g k :
  QInv q g → ∃ w, gT g - cap ≤ w < gT g ∧ w mod cap = k mod cap ∧
  slot_at q (index_of (one_lap q) (enc k)) = Ret (cell g w).
Proof.
  intros Hq. destruct (window_pos cap Hcap (gT g - cap) k) as (w & Hw & Hm). exists w.
  split_and!; [lia|lia|done|]. rewrite <- (slot_ok q g w Hq) by lia. f_equal.
  rewrite (qi_lap _ _ Hq), !enc_index by done. done.
Qed.

(** What a stamp says about the position that is looked for. *)
Lemma stamp_free g w k :
  w mod cap = k mod cap → stamp (cell g w) = enc k → (w + cap = k ∧ gst g w = Done) ∨ w = k.
Proof.
  intros Hm. unfold cell. destruct (gst g w) eqn:Hp; cbn; intros H;
    try (by destruct (enc_succ_ne cap L Hcap Hroom w k Hm)).
  all: apply (enc_pos_inj cap L Hcap Hroom) in H; auto.
Qed.

Lemma stamp_ready g w k :
  w mod cap = k mod cap → stamp (cell g w) = enc k + 1 →
  w = k ∧ (gst g k = Ready ∨ ∃ t, gst g k = Taken t ∨ gst g k = Emptied t).
Proof.
  intros Hm. unfold cell. destruct (gst g w) as [t|t| |t|t|] eqn:Hp; cbn; intros H; symmetry in H.
  - by destruct (enc_succ_ne cap L Hcap Hroom k w).
  - by destruct (enc_succ_ne cap L Hcap Hroom k w).
  - assert (k = w) as -> by (apply (enc_pos_inj cap L Hcap Hroom); lia). auto.
  - assert (k = w) as -> by (apply (enc_pos_inj cap L Hcap Hroom); lia). eauto.
  - assert (k = w) as -> by (apply (enc_pos_inj cap L Hcap Hroom); lia). eauto.
  - destruct (enc_succ_ne cap L Hcap Hroom k (w + cap)); [|done].
    rewrite <- Hm. replace (w + cap) with (w + 1 * cap) by lia. by rewrite Z_mod_plus_full.
Qed.

(** *** Moves of the ghost history *)

Definition take_run g (t n : nat) : Ghost A :=
  mkGhost (gH g + Z.of_nat n) (glog g) (λ k, if decide (gH g ≤ k < gH g + Z.of_nat n) then Taken t else gst g k).

Lemma q_slot q g k p :
  QInv q g → gT g - cap ≤ k < gT g → 0 ≤ k → queued (gst g k) ∧ queued p ∨ gone (gst g k) ∧ gone p →
  QInv (set_slot q (index_of (one_lap q) (enc k)) (cell (set_phase g k p) k)) (set_phase g k p).
Proof.
  intros Hq Hk Hk0 Hp. pose proof Hq as []. rewrite qi_lap0, enc_index by done.
  pose proof (Z.mod_pos_bound k cap Hcap) as Hb.
  split; cbn [set_slot set_phase capacity one_lap head tail buffer gH glog gst]; try done.
  - unfold capacity in *. cbn. by rewrite length_insert.
  - intros j Hj. change (gT (set_phase g k p)) with (gT g) in Hj. destruct (decide (j = k)) as [->|Hne].
    + apply list_lookup_insert_eq. unfold capacity in *. lia.
    + pose proof (Z.mod_pos_bound j cap Hcap). rewrite list_lookup_insert_ne.
      * rewrite qi_buf0 by done. f_equal. unfold cell. cbn. by rewrite fn_lookup_insert_ne.
      * intros He. assert (k mod cap = j mod cap) by lia.
        assert (k = j) by (apply (same_slot cap Hcap); [done|lia]). done.
  - intros j Hj. destruct (decide (j = k)) as [->|Hne]; [rewrite fn_lookup_insert|rewrite fn_lookup_insert_ne by done; auto].
    specialize (qi_queued0 k Hj). destruct Hp as [[]|[]]; [done|]. by destruct (gst g k).
  - intros j Hj. destruct (decide (j = k)) as [->|Hne]; [rewrite fn_lookup_insert|rewrite fn_lookup_insert_ne by done; auto].
    specialize (qi_gone0 k Hj). destruct Hp as [[]|[]]; [|done]. by destruct (gst g k).
  - intros j Hj. change (gT (set_phase g k p)) with (gT g) in Hj. rewrite fn_lookup_insert_ne by lia. auto.
Qed.

Lemma q_claim q g t xs :
  QInv q g → Z.of_nat (length xs) ≤ cap → fits (gT g + Z.of_nat (length xs) + cap) →
  (∀ j, 0 ≤ j < Z.of_nat (length xs) → gst g (gT g + j - cap) = Done) →
  QInv (set_tail q (enc (gT g + Z.of_nat (length xs)))) (claim g t xs).
Proof.
  intros Hq Hn Hf Hd. pose proof Hq as []. set (n := Z.of_nat (length xs)) in *.
  assert (gT (claim g t xs) = gT g + n) as HT by apply T_app.
  split; rewrite ?HT; try done; cbn [set_tail claim capacity one_lap head tail buffer gH glog gst].
  - lia.
  - destruct (decide (n = 0)); [lia|]. specialize (Hd (n - 1) ltac:(lia)).
    destruct (decide (gH g ≤ gT g + (n - 1) - cap)); [|lia].
    assert (queued (gst g (gT g + (n - 1) - cap))) as Hq' by (apply qi_queued0; lia). by rewrite Hd in Hq'.
  - intros k Hk. unfold cell. cbn. case_decide.
    + specialize (qi_buf0 (k - cap) ltac:(lia)). unfold cell in qi_buf0.
      replace (k - cap) with (gT g + (k - gT g) - cap) in qi_buf0 at 2 by lia. rewrite Hd in qi_buf0 by lia.
      replace (k - cap + cap) with k in qi_buf0 by lia. rewrite <- qi_buf0. f_equal. f_equal.
      rewrite <- (Z_mod_plus_full (k - cap) 1 cap). f_equal. lia.
    + rewrite qi_buf0 by lia. f_equal. unfold cell, logged. cbn. destruct (decide (k < 0)).
      { by rewrite qi_old0 by lia. }
      rewrite lookup_app_l; [done|]. unfold gT in *. lia.
  - intros k Hk. case_decide; [done|]. apply qi_queued0. lia.
  - intros k Hk. rewrite decide_False by lia. by apply qi_gone0.
  - intros k Hk. case_decide; [lia|]. destruct (decide (k < gT g - cap ∨ k < 0)); [by apply qi_old0|].
    replace k with (gT g + (k - gT g + cap) - cap) by lia. apply Hd. lia.
Qed.

Lemma q_take q g t n :
  QInv q g → gH g + Z.of_nat n ≤ gT g → (∀ j, 0 ≤ j < Z.of_nat n → gst g (gH g + j) = Ready) →
  QInv (set_head q (enc (gH g + Z.of_nat n))) (take_run g t n).
Proof.
  intros Hq Hn Hr. pose proof Hq as []. change (gT (take_run g t n)) with (gT g).
  split; cbn [set_head take_run capacity one_lap head tail buffer gH glog gst]; try done.
  - unfold gT in *. cbn. lia.
  - unfold gT in *. cbn. lia.
  - intros k Hk. rewrite qi_buf0 by done. f_equal. unfold cell. cbn. case_decide; [|done].
    replace k with (gH g + (k - gH g)) at 1 by lia. by rewrite Hr by lia.
  - intros k Hk. rewrite decide_False by lia. apply qi_queued0. unfold gT in *. cbn in Hk. lia.
  - intros k Hk. case_decide; [done|]. apply qi_gone0. lia.
  - intros k Hk. rewrite decide_False; [by apply qi_old0|]. unfold gT in *. cbn in Hk. lia.
Qed.

(** *** One step of one thread *)

Definition Effect t (p : Pc A) g s (e : event A) g' s' : Prop :=
  match e with
  | Tau => gH g' = gH g ∧ glog g' = glog g ∧ s' = s
  | Enq u xs =>
      u = t ∧ pushing p = true ∧ gH g' = gH g ∧ glog g' = glog g ++ xs ∧
      Z.of_nat (length (contents g ++ xs)) ≤ cap ∧
      ∃ o seen r, s = ACalled o seen ∧ enq_ok o xs r ∧ s' = ADecided r ∧ xs ≠ []
  | Deq u n =>
      u = t ∧ popping p = true ∧ gH g' = gH g + Z.of_nat n ∧ glog g' = glog g ∧
      (0 < n ≤ length (contents g))%nat ∧
      ∃ o seen r, s = ACalled o seen ∧ deq_ok o (take n (contents g)) r ∧ s' = ADecided r
  | _ => False
  end.
Definition frame t g g' : Prop :=
  ∀ k, k < gT g → gst g' k = gst g k ∨ owner (gst g k) = Some t ∨ gst g k = Ready ∧ k < gH g'.

(** The positions a program point owns; [owned] lists all of them. *)
Definition covers (p : Pc A) (k : Z) : Prop :=
  match p with
  | Write _ e vs => ∃ j, e = enc j ∧ j ≤ k < j + Z.of_nat (length vs)
  | Publish _ e vs => ∃ j, e = enc j ∧ j ≤ k < j + 1 + Z.of_nat (length vs)
  | Read _ e todo _ => ∃ j, e = enc j ∧ j ≤ k < j + Z.of_nat todo
  | Free _ e todo _ => ∃ j, e = enc j ∧ j ≤ k < j + 1 + Z.of_nat todo
  | _ => False
  end.
Definition claiming (p : Pc A) : bool :=
  match p with Write _ _ _ | Publish _ _ _ | Read _ _ _ _ | Free _ _ _ _ => true | _ => false end.
Lemma not_claiming p k : claiming p = false → ¬ covers p k.
Proof. intros H Hc. by destruct p. Qed.
Definition owned g t (p : Pc A) : Prop := ∀ k, k < gT g → owner (gst g k) = Some t → covers p k.
Definition owners t g g' (p' : Pc A) : Prop :=
  ∀ k u, k < gT g' → owner (gst g' k) = Some u →
  (u = t ∧ covers p' k) ∨ (u ≠ t ∧ k < gT g ∧ owner (gst g k) = Some u).

Definition StepOK q g t (spurious : bool) (p : Pc A) s : Prop :=
  ∃ q' p' e, code_step MP MC q t spurious p = Ret (q', p', e) ∧
    (fits (gT g + Z.of_nat (length (enqueued [e])) + cap) →
     ∃ g' s', QInv q' g' ∧ TI g' t p' s' ∧ Effect t p g s e g' s' ∧ frame t g g' ∧
       (owned g t p → owners t g g' p')).

Lemma aq_step_local q g t sp p s p' :
  claiming p = false → QInv q g → code_step MP MC q t sp p = Ret (q, p', Tau) → TI g t p' s → StepOK q g t sp p s.
Proof.
  intros Hcl Hq Hc Ht. exists q, p', Tau. split; [done|]. intros _. exists g, s.
  split_and!; try done; [by left|]. intros Ho k u Hk Hu. destruct (decide (u = t)) as [->|]; [|by auto].
  by destruct (not_claiming p k Hcl); apply Ho.
Qed.

Lemma step_phase q g t sp p s p' k ph :
  QInv q g → 0 ≤ k < gT g → gst g k ≠ Done → owner (gst g k) = Some t →
  queued (gst g k) ∧ queued ph ∨ gone (gst g k) ∧ gone ph →
  code_step MP MC q t sp p =
    Ret (set_slot q (index_of (one_lap q) (enc k)) (cell (set_phase g k ph) k), p', Tau) →
  TI (set_phase g k ph) t p' s →
  (owner ph = None ∨ owner ph = Some t ∧ covers p' k) → (∀ j, j ≠ k → covers p j → covers p' j) →
  StepOK q g t sp p s.
Proof.
  intros Hq Hk Hd Ho Hp Hc Ht Hph Hcov. eexists _, p', Tau. split; [exact Hc|]. intros _. exists (set_phase g k ph), s.
  assert (gT g - cap ≤ k). { destruct (decide (k < gT g - cap)); [|lia]. by destruct Hd; apply (qi_old _ _ Hq); left. }
  split_and!; try done; [by apply q_slot; auto with lia|..].
  - intros j Hj. cbn. destruct (decide (j = k)) as [->|]; [by auto|]. rewrite fn_lookup_insert_ne by done. auto.
  - intros Hown j u Hj. cbn. destruct (decide (j = k)) as [->|].
    + rewrite fn_lookup_insert. destruct Hph as [->|[-> ?]]; [done|]. intros [= <-]. by left.
    + rewrite fn_lookup_insert_ne by done. intros Hu. destruct (decide (u = t)) as [->|]; auto.
Qed.

Lemma fits_pos q g k : QInv q g → 0 ≤ k ≤ gT g + cap → fits k.
Proof. intros Hq Hk. eapply fits_le; [done..| |exact (qi_fits _ _ Hq)]. lia. Qed.

Lemma advance_ok q g k :
  QInv q g → 0 ≤ k ≤ gT g + cap → advance USIZE (one_lap q) (capacity q) (enc k) = Ret (enc (k + 1)).
Proof.
  intros Hq Hk. rewrite (qi_lap _ _ Hq), (qi_cap _ _ Hq).
  apply (advance_enc cap L Hcap HL Hroom USIZE); [lia|]. by eapply fits_pos.
Qed.

Lemma full_iff q g k :
  QInv q g → 0 ≤ k → bool_decide (wrapping_add USIZE (head q) (one_lap q) = enc k) = bool_decide (k = gH g + cap).
Proof.
  intros Hq Hk. pose proof Hq as []. rewrite qi_head0, qi_lap0.
  rewrite (enc_add_lap cap L Hcap HL Hroom USIZE) by first [lia|eapply fits_pos; [done|lia]].
  apply bool_decide_ext. rewrite enc_eq by done. lia.
Qed.

Lemma length_contents q g : QInv q g → Z.of_nat (length (contents g)) = gT g - gH g.
Proof. intros Hq. pose proof (qi_le _ _ Hq). unfold contents, gT in *. rewrite length_drop. lia. Qed.

Lemma contents_nil q g : QInv q g → contents g = [] ↔ gT g = gH g.
Proof. intros Hq. pose proof (length_contents _ _ Hq). rewrite <- length_zero_iff_nil. lia. Qed.

Lemma answer_now g s o r : SI g s → called s o → answer_ok cap o r (contents g) → answered cap s r.
Proof. intros Hs [seen ->] Ha. exists o, seen, (contents g). done. Qed.

Lemma seen_now g s o P : SI g s → called s o → P (contents g) → seen_some s P.
Proof. intros Hs [seen ->] Ha. exists o, seen, (contents g). done. Qed.

Lemma tail_now q g : QInv q g → tail q = enc (gT g) ∧ old_tail g (gT g).
Proof. intros Hq. pose proof Hq as []. split; [done|]. split; [lia|done]. Qed.

Lemma head_now q g : QInv q g → head q = enc (gH g) ∧ old_head g (gH g).
Proof. intros Hq. pose proof Hq as []. split; [done|]. split; [lia|done]. Qed.

(** A producer that finds its stamp in the slot may claim it. *)
Lemma free_found g w k n :
  gT g - cap ≤ w < gT g → w mod cap = (k + Z.of_nat n) mod cap → stamp (cell g w) = enc (k + Z.of_nat n) →
  free_run g k n → free_run g k (S n).
Proof.
  intros Hw Hm Hs [Hb Hr]. destruct (stamp_free _ _ _ Hm Hs) as [[He Hd]|He].
  - split; [lia|]. intros Hk j Hj. destruct (decide (j = Z.of_nat n)) as [->|]; [|apply Hr; lia].
    by replace (k + Z.of_nat n - cap) with w by lia.
  - split; [lia|]. intros Hk. lia.
Qed.

(** A consumer that finds its stamp in the slot may take it. *)
Lemma ready_found q g w k n :
  QInv q g → 0 ≤ k → gT g - cap ≤ w < gT g → w mod cap = (k + Z.of_nat n) mod cap →
  stamp (cell g w) = enc (k + Z.of_nat n) + 1 → ready_run g k n → ready_run g k (S n).
Proof.
  intros Hq H0 Hw Hm Hs [Hb Hr]. destruct (stamp_ready _ _ _ Hm Hs) as [-> Hp].
  split; [lia|]. intros Hk j Hj. destruct (decide (j = Z.of_nat n)) as [->|]; [|apply Hr; lia].
  destruct Hp as [|(u & [Hp|Hp])]; [done|..];
    pose proof (qi_queued _ _ Hq (k + Z.of_nat n) ltac:(lia)) as Hu; by rewrite Hp in Hu.
Qed.

Lemma run_nil g k : 0 ≤ k ≤ gT g → free_run g k 0.
Proof. intros. split; [lia|]. intros. lia. Qed.
Lemma run_nil' g k : 0 ≤ k ≤ gT g → ready_run g k 0.
Proof. intros. split; [lia|]. intros. lia. Qed.

Lemma enc_0 k : enc (k + Z.of_nat 0) = enc k.
Proof. f_equal. lia. Qed.

(** *** Moving the cursors *)

Lemma step_claim q g t sp p s kd xs o :
  QInv q g → pushing p = true → claiming p = false → called s o → enq_ok o xs (pushed kd) → xs ≠ [] →
  (single kd = true → length xs = 1%nat) → free_run g (gT g) (length xs) →
  code_step MP MC q t sp p =
    Ret (set_tail q (enc (gT g + Z.of_nat (length xs))), Write kd (enc (gT g)) xs, Enq t xs) →
  StepOK q g t sp p s.
Proof.
  intros Hq Hp Hncov [seen ->] Ho Hx Hk [Hb Hr] Hc. eexists _, _, _. split; [exact Hc|]. intros Hf.
  cbn in Hf. rewrite app_nil_r in Hf. exists (claim g t xs), (ADecided (pushed kd)).
  pose proof (length_contents _ _ Hq) as Hl. specialize (Hr eq_refl).
  assert (QInv (set_tail q (enc (gT g + Z.of_nat (length xs)))) (claim g t xs)) as Hq'
    by (apply q_claim; auto with lia).
  assert (gT (claim g t xs) = gT g + Z.of_nat (length xs)) as HT by apply T_app.
  split_and!; [done|..].
  - split_and!; [done..|]. exists (gT g). split; [done|]. split_and!; [unfold gT; lia|lia|].
    intros j x Hj. pose proof (lookup_lt_Some _ _ _ Hj). cbn. rewrite decide_True by lia. split; [done|].
    unfold logged. cbn. rewrite lookup_app_r by (unfold gT; lia). rewrite <- Hj. f_equal. unfold gT. lia.
  - cbn. split_and!; try done; [|by exists o, seen, (pushed kd)].
    rewrite length_app. pose proof (qi_full _ _ Hq'). cbn in *. lia.
  - intros k Hk'. cbn. rewrite decide_False by lia. by left.
  - intros Hown k u Hk'. cbn. case_decide; [intros [= <-]; left; split; [done|]; by exists (gT g)|].
    intros Hu. assert (k < gT g). { rewrite HT in Hk'. destruct (decide (gT g ≤ k)); lia. }
    destruct (decide (u = t)) as [->|]; [|by auto]. by destruct (not_claiming p k Hncov); apply Hown.
Qed.

Lemma take_contents q g n :
  QInv q g → Z.of_nat n ≤ gT g - gH g → length (take n (contents g)) = n ∧
  ∀ j x, take n (contents g) !! j = Some x → (j < n)%nat ∧ logged g (gH g + Z.of_nat j) = Some x.
Proof.
  intros Hq Hn. pose proof (length_contents _ _ Hq). pose proof (qi_le _ _ Hq). split; [rewrite length_take; lia|].
  intros j x Hj. apply lookup_take_Some in Hj as [Hj Hlt]. split; [done|].
  unfold logged. rewrite <- Hj. unfold contents. rewrite lookup_drop. f_equal. lia.
Qed.

Lemma step_take q g t sp p s kd n o :
  QInv q g → popping p = true → claiming p = false → called s o → deq_ok o (take n (contents g)) (popped kd (take n (contents g))) →
  (0 < n)%nat → (kd = KPop → n = 1%nat) → ready_run g (gH g) n →
  code_step MP MC q t sp p =
    Ret (set_head q (enc (gH g + Z.of_nat n)), Read kd (enc (gH g)) n [], Deq t n) →
  StepOK q g t sp p s.
Proof.
  intros Hq Hp Hncov [seen ->] Ho Hn Hk [Hb Hr] Hc. eexists _, _, _. split; [exact Hc|]. intros _.
  exists (take_run g t n), (ADecided (popped kd (take n (contents g)))).
  specialize (Hr eq_refl). destruct (take_contents q g n Hq ltac:(lia)) as [Hlen Htk].
  pose proof (length_contents _ _ Hq) as Hl. pose proof (qi_le _ _ Hq). split_and!; [by apply q_take|..].
  - cbn [TI]. split_and!; [lia|by auto|]. exists (gH g), (take n (contents g)).
    split_and!; [done..|]. split_and!; [lia|change (gT (take_run g t n)) with (gT g); lia|].
    intros j x Hj. destruct (Htk j x Hj) as [Hlt Hx]. cbn. rewrite decide_True by lia. done.
  - cbn. split_and!; try done; [lia|]. by exists o, seen, (popped kd (take n (contents g))).
  - intros k Hk'. cbn. case_decide; [|by left]. right; right.
    split; [|lia]. replace k with (gH g + (k - gH g)) by lia. apply Hr. lia.
  - intros Hown k u Hk'. change (gT (take_run g t n)) with (gT g) in Hk'. cbn.
    case_decide; [intros [= <-]; left; split; [done|]; by exists (gH g)|].
    intros Hu. destruct (decide (u = t)) as [->|]; [|by auto]. by destruct (not_claiming p k Hncov); apply Hown.
Qed.

(** *** Pushes *)

Ltac code := cbn [code_step push_step push_batch_step write_step pop_step pop_batch_step read_step query_step].

Lemma retry_ok g t s x k :
  called s (OpPush x) → old_tail g k → TI g t (push_retry MP x (enc k)) s.
Proof. intros Hs Hk. unfold push_retry. destruct MP; cbn [TI]; [done|]. split_and!; [done|done|by exists k]. Qed.

Lemma push_full_ok q g t sp s x k :
  QInv q g → SI g s → called s (OpPush x) → old_tail g k → StepOK q g t sp (PushFull x (enc k)) s.
Proof.
  intros Hq HS Hs Hk. destruct (decide (k = gH g + cap)) as [He|Hne].
  - eapply aq_step_local; [done|done|code; rewrite (full_iff q g k) by (done || apply Hk);
      by rewrite bool_decide_eq_true_2|]. right. eapply answer_now; [done..|]. cbn.
    rewrite (length_contents _ _ Hq). pose proof (qi_full _ _ Hq). destruct Hk. lia.
  - eapply aq_step_local; [done|done|code; rewrite (full_iff q g k) by (done || apply Hk);
      by rewrite bool_decide_eq_false_2|]. by apply retry_ok.
Qed.

Lemma one_head_ok q g t sp s x k :
  QInv q g → SI g s → called s (OpPushOneshot x) → old_tail g k → StepOK q g t sp (OneHead x (enc k)) s.
Proof.
  intros Hq HS Hs Hk. destruct (decide (k = gH g + cap)) as [He|Hne].
  - eapply aq_step_local; [done|done|code; rewrite (full_iff q g k) by (done || apply Hk);
      by rewrite bool_decide_eq_true_2|]. right. eapply answer_now; [done..|]. cbn.
    rewrite (length_contents _ _ Hq). pose proof (qi_full _ _ Hq). destruct Hk. lia.
  - eapply aq_step_local; [done|done|code; rewrite (full_iff q g k) by (done || apply Hk);
      by rewrite bool_decide_eq_false_2|]. split_and!; [done..|]. by exists k.
Qed.

Lemma push_stamp_ok q g t sp s kd x k :
  QInv q g → SI g s → single kd = true → called s (push_of kd x) → old_tail g k →
  StepOK q g t sp (PushStamp kd x (enc k)) s.
Proof.
  intros Hq HS Hkd Hs Hk. destruct (slot_any q g k Hq) as (w & Hw & Hm & Hslot).
  destruct (decide (enc k = stamp (cell g w))) as [He|Hne].
  - eapply aq_step_local; [done|done|code; rewrite Hslot; cbn [mbind outcome_mbind];
      by rewrite bool_decide_eq_true_2|]. split_and!; [done..|]. exists k. split_and!; [done..|].
    apply (free_found g w k 0); [done| | |apply run_nil; apply Hk]; rewrite ?enc_0; [|done].
    rewrite Hm. f_equal. lia.
  - destruct kd; [|eapply aq_step_local; [done|done|code; rewrite Hslot; cbn [mbind outcome_mbind];
      by rewrite bool_decide_eq_false_2|]; right; by eapply answer_now|done].
    assert (checked_add USIZE (enc k) 1 = Ret (enc k + 1)) as Hadd.
    { apply (enc_checked_one cap L Hcap HL Hroom); [lia|]. eapply fits_pos; [done|]. destruct Hk. lia. }
    destruct (decide (wrapping_add USIZE (stamp (cell g w)) (one_lap q) = enc k + 1)) as [Hf|Hf].
    + eapply aq_step_local; [done|done|code; rewrite Hslot; cbn [mbind outcome_mbind];
        rewrite bool_decide_eq_false_2, Hadd by done; cbn [mbind outcome_mbind];
        by rewrite bool_decide_eq_true_2|]. split; [done|by exists k].
    + eapply aq_step_local; [done|done|code; rewrite Hslot; cbn [mbind outcome_mbind];
        rewrite bool_decide_eq_false_2, Hadd by done; cbn [mbind outcome_mbind];
        by rewrite bool_decide_eq_false_2|]. by apply retry_ok.
Qed.

Lemma push_cas_ok q g t sp s kd x k :
  QInv q g → SI g s → single kd = true → called s (push_of kd x) → old_tail g k → free_run g k 1 →
  StepOK q g t sp (PushCas kd x (enc k)) s.
Proof.
  intros Hq HS Hkd Hs Hk Hr. destruct (tail_now _ _ Hq) as [HT HT'].
  assert (advance USIZE (one_lap q) (capacity q) (enc k) = Ret (enc (k + 1))) as Ha.
  { eapply advance_ok; [done|]. destruct Hk. lia. }
  destruct (negb MP || (bool_decide (tail q = enc k) && negb sp)) eqn:Hc.
  - assert (k = gT g) as ->.
    { destruct MP eqn:HMP; [|by apply Hk]. cbn in Hc. apply andb_true_iff in Hc as [Hc _].
      apply bool_decide_eq_true in Hc. rewrite HT in Hc. by apply enc_pos_inj in Hc. }
    eapply (step_claim _ _ _ _ _ _ kd [x]); try done.
    + destruct kd; done.
    + code. rewrite Ha. cbn [mbind outcome_mbind]. by rewrite Hc.
  - destruct kd; [| |done]; (eapply aq_step_local; [done|done|code; rewrite Ha; cbn [mbind outcome_mbind]; by rewrite Hc|]).
    + split_and!; [done..|]. exists (gT g). done.
    + right. by eapply answer_now.
Qed.

Lemma aq_push_ok q g t sp p s :
  QInv q g → SI g s → TI g t p s →
  match p with PushLoad _ _ | OneHead _ _ | PushStamp _ _ _ | PushCas _ _ _ | PushFull _ _ => True | _ => False end →
  StepOK q g t sp p s.
Proof.
  intros Hq HS HT Hp. destruct p; try done; clear Hp; cbn [TI] in HT.
  - destruct HT as [Hk Hs]. destruct (tail_now _ _ Hq) as [Ht Ht'].
    destruct k; [| |done]; (eapply aq_step_local; [done|done|done|]).
    + split_and!; [done..|]. by exists (gT g).
    + split; [done|]. by exists (gT g).
  - destruct HT as (Hs & k & -> & Hk). by apply one_head_ok.
  - destruct HT as (Hkd & Hs & i & -> & Hk). by apply push_stamp_ok.
  - destruct HT as (Hkd & Hs & i & -> & Hk & Hr). by apply push_cas_ok.
  - destruct HT as (Hs & k & -> & Hk). by apply push_full_ok.
Qed.

Lemma push_claim_ok g t s vs attempt k n :
  SI g s → called s (OpPushBatch vs) → (n ≤ length vs)%nat → old_tail g k → free_run g k n →
  TI g t (push_claim vs attempt (enc k) n (enc (k + Z.of_nat n))) s.
Proof.
  intros HS Hs Hn Hk Hr. unfold push_claim. case_bool_decide as H0.
  - right. by eapply answer_now.
  - split_and!; [done|lia|done|]. by exists k.
Qed.

Lemma push_walk_ok g t s vs attempt k n :
  SI g s → called s (OpPushBatch vs) → (n ≤ length vs)%nat → old_tail g k → free_run g k n →
  TI g t (push_walk vs attempt (enc k) n (enc (k + Z.of_nat n))) s.
Proof.
  intros HS Hs Hn Hk Hr. unfold push_walk. case_bool_decide as H0.
  - split_and!; [done|lia|]. by exists k.
  - by apply push_claim_ok.
Qed.

Lemma push_walk_now q g t s vs attempt :
  QInv q g → SI g s → called s (OpPushBatch vs) → TI g t (push_walk vs attempt (tail q) 0 (tail q)) s.
Proof.
  intros Hq HS Hs. destruct (tail_now _ _ Hq) as [-> HT].
  rewrite <- (enc_0 (gT g)) at 2. apply push_walk_ok; [done..|lia|done|]. apply run_nil, HT.
Qed.

Lemma push_batch_ok q g t sp p s :
  QInv q g → SI g s → TI g t p s →
  match p with BPushLoad _ | BPushWalk _ _ _ _ _ | BPushCas _ _ _ _ _ => True | _ => False end →
  StepOK q g t sp p s.
Proof.
  intros Hq HS HT Hp. destruct p; try done; clear Hp; cbn [TI] in HT.
  - eapply aq_step_local; [done|done|done|]. by apply push_walk_now.
  - destruct HT as (Hs & Hn & k & -> & -> & Hk & Hr).
    destruct (slot_any q g (k + Z.of_nat n) Hq) as (w & Hw & Hm & Hslot).
    destruct (decide (stamp (cell g w) = enc (k + Z.of_nat n))) as [He|Hne].
    + assert (free_run g k (S n)) as Hr' by by eapply free_found.
      eapply aq_step_local; [done|done|code; rewrite Hslot; cbn [mbind outcome_mbind]; rewrite bool_decide_eq_true_2 by done;
        rewrite (advance_ok q g) by (done || destruct Hk, Hr'; lia); done|].
      replace (k + Z.of_nat n + 1) with (k + Z.of_nat (S n)) by lia. apply push_walk_ok; [done..|lia|done|done].
    + eapply aq_step_local; [done|done|code; rewrite Hslot; cbn [mbind outcome_mbind]; by rewrite bool_decide_eq_false_2 by done|].
      apply push_claim_ok; [done..|lia|done|done].
  - destruct HT as (Hs & Hn & k & -> & -> & Hk & Hr). destruct (tail_now _ _ Hq) as [HT HT'].
    destruct (negb MP || bool_decide (tail q = enc k)) eqn:Hc.
    + assert (k = gT g) as ->.
      { destruct MP eqn:HMP; [|by apply Hk]. cbn in Hc. apply bool_decide_eq_true in Hc.
        rewrite HT in Hc. by apply enc_pos_inj in Hc. }
      assert (length (take n values) = n) as Hlen by (rewrite length_take; lia).
      eapply (step_claim _ _ _ _ _ _ (KBatch n) (take n values)); try done.
      * cbn. rewrite Hlen. split_and!; [intros H0; rewrite H0 in Hlen; cbn in Hlen; lia|apply prefix_take|done].
      * intros H0; rewrite H0 in Hlen; cbn in Hlen; lia.
      * by rewrite Hlen.
      * code. by rewrite Hc, Hlen.
    + destruct (decide (S attempt < 4)%nat) as [Ha|Ha];
        (eapply aq_step_local; [done|done|code; rewrite Hc; by first [rewrite bool_decide_eq_true_2 by done|rewrite bool_decide_eq_false_2 by done]|]).
      * by apply push_walk_now.
      * right. by eapply answer_now.
Qed.

Lemma window_owned q g k : QInv q g → gst g k ≠ Done → gT g - cap ≤ k.
Proof.
  intros Hq Hd. destruct (decide (k < gT g - cap)); [|lia]. destruct Hd. apply (qi_old _ _ Hq). by left.
Qed.

Lemma write_ok q g t sp p s :
  QInv q g → TI g t p s → match p with Write _ _ _ | Publish _ _ _ => True | _ => False end →
  StepOK q g t sp p s.
Proof.
  intros Hq HT Hp. destruct p as [| | | | | | | | | |kd p vs|kd p vs| | | | | | | | | | | | | | | |];
    try done; clear Hp; cbn [TI] in HT.
  - destruct HT as (Hs & Hne & Hk1 & k & -> & Hm). destruct vs as [|x vs]; [done|].
    apply mine_cons in Hm as (Hp & Hx & Hk & Hm).
    assert (gT g - cap ≤ k) as Hw by (eapply window_owned; [done|by rewrite Hp]).
    apply (step_phase q g t sp _ s (Publish kd (enc k) vs) k (Written t)); rewrite ?Hp; try done; [by left|..].
    + code. rewrite (slot_ok q g k) by (done || lia). cbn [mbind outcome_mbind mret outcome_mret]. unfold cell. cbn.
      by rewrite Hp, fn_lookup_insert, <- Hx.
    + split_and!; [done|intros Hkd; specialize (Hk1 Hkd); by destruct vs|]. exists k. split; [done|]. split; [exact Hk|]. split.
      * cbn. by rewrite fn_lookup_insert.
      * apply mine_phase; [lia|done].
    + right. split; [done|]. exists k. split; [done|lia].
    + intros j Hj (i & Hi%(enc_pos_inj cap L Hcap Hroom) & Hb). subst i. exists k. rewrite length_cons in Hb. split; [done|lia].
  - destruct HT as (Hs & Hk1 & k & -> & Hk & Hp & Hm).
    assert (gT g - cap ≤ k) as Hw by (eapply window_owned; [done|by rewrite Hp]).
    assert (fits k) as Hf by (eapply fits_pos; [done|lia]).
    apply (step_phase q g t sp _ s
      (match vs with [] => Returning (pushed kd) | _ => Write kd (enc (k + 1)) vs end) k Ready);
      rewrite ?Hp; try done; [by left| | |by left|].
    + code. rewrite (slot_ok q g k) by (done || lia). cbn [mbind outcome_mbind mret outcome_mret].
      destruct kd; [specialize (Hk1 eq_refl) as ->..|].
      1,2: rewrite (enc_checked_one cap L Hcap HL Hroom) by (done || lia).
      3: rewrite (advance_ok q g) by (done || lia); cbn [mbind outcome_mbind];
         rewrite (enc_add_one cap L Hcap HL Hroom) by (done || lia).
      all: unfold cell; cbn; by rewrite Hp, fn_lookup_insert.
    + destruct vs as [|x vs]; [by left|]. split_and!; [done|done|intros Hkd; by specialize (Hk1 Hkd)|].
      exists (k + 1). split; [done|]. apply mine_phase; [lia|done].
    + intros j Hj (i & Hi%(enc_pos_inj cap L Hcap Hroom) & Hb). subst i.
      destruct vs; [cbn in Hb; lia|]. exists (k + 1). split; [done|lia].
Qed.

(** *** Pops *)

Lemma pop_retry_ok g t s k : pop_call s → old_head g k → TI g t (pop_retry MC (enc k)) s.
Proof. intros Hs Hk. unfold pop_retry. destruct MC; cbn [TI]; [done|]. split_and!; [done|by exists k]. Qed.

Lemma pop_stamp_ok q g t sp s k :
  QInv q g → pop_call s → old_head g k → StepOK q g t sp (PopStamp (enc k)) s.
Proof.
  intros Hq Hs Hk. destruct (slot_any q g k Hq) as (w & Hw & Hm & Hslot). pose proof (qi_le _ _ Hq) as Hle.
  assert (checked_add USIZE (enc k) 1 = Ret (enc k + 1)) as Hadd.
  { apply (enc_checked_one cap L Hcap HL Hroom); [lia|]. eapply fits_pos; [done|]. destruct Hk. lia. }
  destruct (decide (enc k + 1 = stamp (cell g w))) as [He|Hne];
    [|destruct (decide (stamp (cell g w) = enc k)) as [He|Hne']].
  - eapply aq_step_local; [done|done|code; rewrite Hslot; cbn [mbind outcome_mbind]; rewrite Hadd; cbn [mbind outcome_mbind];
      by rewrite bool_decide_eq_true_2|]. split; [done|]. exists k. split_and!; [done..|].
    apply (ready_found q g w k 0); [done|apply Hk|done| | |apply run_nil'; destruct Hk; lia]; rewrite ?enc_0; [|done].
    rewrite Hm. f_equal. lia.
  - eapply aq_step_local; [done|done|code; rewrite Hslot; cbn [mbind outcome_mbind]; rewrite Hadd; cbn [mbind outcome_mbind];
      rewrite bool_decide_eq_false_2 by done; by rewrite bool_decide_eq_true_2|]. split; [done|by exists k].
  - eapply aq_step_local; [done|done|code; rewrite Hslot; cbn [mbind outcome_mbind]; rewrite Hadd; cbn [mbind outcome_mbind];
      rewrite bool_decide_eq_false_2 by done; by rewrite bool_decide_eq_false_2|]. by apply pop_retry_ok.
Qed.

Lemma pop_cas_ok q g t sp s k :
  QInv q g → pop_call s → old_head g k → ready_run g k 1 → StepOK q g t sp (PopCas (enc k)) s.
Proof.
  intros Hq Hs Hk Hr. destruct (head_now _ _ Hq) as [HH HH']. pose proof (qi_le _ _ Hq) as Hle.
  assert (advance USIZE (one_lap q) (capacity q) (enc k) = Ret (enc (k + 1))) as Ha.
  { eapply advance_ok; [done|]. destruct Hk. lia. }
  destruct (negb MC || (bool_decide (head q = enc k) && negb sp)) eqn:Hc.
  - assert (k = gH g) as ->.
    { destruct MC eqn:HMC; [|by apply Hk]. cbn in Hc. apply andb_true_iff in Hc as [Hc _].
      apply bool_decide_eq_true in Hc. rewrite HH in Hc. by apply enc_pos_inj in Hc. }
    pose proof (length_contents _ _ Hq) as Hl. destruct Hr as [Hb Hr].
    destruct Hs as [Hs|Hs]; (eapply (step_take _ _ _ _ _ _ KPop 1); try done; [| |code; rewrite Ha; cbn [mbind outcome_mbind]; by rewrite Hc]);
      try lia; (destruct (contents g) as [|x l]; [cbn in Hl; lia|]; cbn; by exists x).
  - eapply aq_step_local; [done|done|code; rewrite Ha; cbn [mbind outcome_mbind]; by rewrite Hc|].
    split; [done|by exists (gH g)].
Qed.

Lemma aq_pop_ok q g t sp p s :
  QInv q g → SI g s → TI g t p s →
  match p with PopLoad | PopStamp _ | PopCas _ | PopTail _ => True | _ => False end → StepOK q g t sp p s.
Proof.
  intros Hq HS HT Hp. destruct p; try done; clear Hp; cbn [TI] in HT.
  - destruct (head_now _ _ Hq) as [Hh Hh']. eapply aq_step_local; [done|done|done|]. split; [done|by exists (gH g)].
  - destruct HT as (Hs & k & -> & Hk). by apply pop_stamp_ok.
  - destruct HT as (Hs & k & -> & Hk & Hr). by apply pop_cas_ok.
  - destruct HT as (Hs & k & -> & Hk). pose proof Hq as []. destruct (decide (gT g = k)) as [He|Hne].
    + eapply aq_step_local; [done|done|code; rewrite qi_tail0, He; by rewrite bool_decide_eq_true_2|].
      right. destruct Hs as [Hs|Hs]; (eapply answer_now; [done..|]); cbn; [|done].
      apply (contents_nil q); [done|]. destruct Hk. lia.
    + eapply aq_step_local; [done|done|code; rewrite qi_tail0, bool_decide_eq_false_2; [done|by rewrite enc_eq]|].
      by apply pop_retry_ok.
Qed.

Lemma pop_claim_ok g t s len attempt k n :
  SI g s → called s (OpPopBatch len) → (n ≤ len)%nat → old_head g k → ready_run g k n →
  TI g t (pop_claim len attempt (enc k) n (enc (k + Z.of_nat n))) s.
Proof.
  intros HS Hs Hn Hk Hr. unfold pop_claim. case_bool_decide as H0.
  - right. by eapply answer_now.
  - split_and!; [done|lia|done|]. by exists k.
Qed.

Lemma pop_walk_ok g t s len attempt k n :
  SI g s → called s (OpPopBatch len) → (n ≤ len)%nat → old_head g k → ready_run g k n →
  TI g t (pop_walk len attempt (enc k) n (enc (k + Z.of_nat n))) s.
Proof.
  intros HS Hs Hn Hk Hr. unfold pop_walk. case_bool_decide as H0.
  - split_and!; [done|lia|]. by exists k.
  - by apply pop_claim_ok.
Qed.

Lemma pop_walk_now q g t s len attempt :
  QInv q g → SI g s → called s (OpPopBatch len) → TI g t (pop_walk len attempt (head q) 0 (head q)) s.
Proof.
  intros Hq HS Hs. destruct (head_now _ _ Hq) as [-> HH]. pose proof (qi_le _ _ Hq).
  rewrite <- (enc_0 (gH g)) at 2. apply pop_walk_ok; [done..|lia|done|]. apply run_nil'. lia.
Qed.

Lemma pop_batch_ok q g t sp p s :
  QInv q g → SI g s → TI g t p s →
  match p with BPopLoad _ | BPopWalk _ _ _ _ _ | BPopCas _ _ _ _ _ => True | _ => False end →
  StepOK q g t sp p s.
Proof.
  intros Hq HS HT Hp. pose proof (qi_le _ _ Hq) as Hle. destruct p; try done; clear Hp; cbn [TI] in HT.
  - eapply aq_step_local; [done|done|done|]. by apply pop_walk_now.
  - destruct HT as (Hs & Hn & k & -> & -> & Hk & Hr).
    destruct (slot_any q g (k + Z.of_nat n) Hq) as (w & Hw & Hm & Hslot).
    assert (wrapping_add USIZE (enc (k + Z.of_nat n)) 1 = enc (k + Z.of_nat n) + 1) as Hadd.
    { apply (enc_add_one cap L Hcap HL Hroom); [lia|]. eapply fits_pos; [done|]. destruct Hk, Hr. lia. }
    destruct (decide (stamp (cell g w) = enc (k + Z.of_nat n) + 1)) as [He|Hne].
    + assert (ready_run g k (S n)) as Hr' by (eapply ready_found; [done|apply Hk|done..]).
      eapply aq_step_local; [done|done|code; rewrite Hslot, Hadd; cbn [mbind outcome_mbind]; rewrite bool_decide_eq_true_2 by done;
        rewrite (advance_ok q g) by (done || destruct Hk, Hr'; lia); done|].
      replace (k + Z.of_nat n + 1) with (k + Z.of_nat (S n)) by lia. apply pop_walk_ok; [done..|lia|done|done].
    + eapply aq_step_local; [done|done|code; rewrite Hslot, Hadd; cbn [mbind outcome_mbind]; by rewrite bool_decide_eq_false_2 by done|].
      apply pop_claim_ok; [done..|lia|done|done].
  - destruct HT as (Hs & Hn & k & -> & -> & Hk & Hr). destruct (head_now _ _ Hq) as [HH HH'].
    destruct (decide (gH g = k)) as [<-|Hne].
    + destruct (take_contents q g n Hq) as [Hlen _]; [destruct Hr; lia|].
      eapply (step_take _ _ _ _ _ _ KPopBatch n); try done; [|lia|code; rewrite HH; by rewrite bool_decide_eq_true_2].
      cbn. rewrite Hlen. split_and!; [intros H0; rewrite H0 in Hlen; cbn in Hlen; lia|lia|done].
    + assert (bool_decide (head q = enc k) = false) as Hc.
      { apply bool_decide_eq_false. rewrite HH. by rewrite enc_eq. }
      destruct (decide (S attempt < 4)%nat) as [Ha|Ha];
        (eapply aq_step_local; [done|done|code; rewrite Hc;
          by first [rewrite bool_decide_eq_true_2 by done|rewrite bool_decide_eq_false_2 by done]|]).
      * by apply pop_walk_now.
      * right. by eapply answer_now.
Qed.

Lemma read_ok q g t sp p s :
  QInv q g → TI g t p s → match p with Read _ _ _ _ | Free _ _ _ _ => True | _ => False end →
  StepOK q g t sp p s.
Proof.
  intros Hq HT Hp. destruct p as [| | | | | | | | | | | | | | | | | | |kd p todo out|kd p todo out| | | | | | |];
    try done; clear Hp; cbn [TI] in HT.
  - destruct HT as (Hne & Hk1 & k & xs & -> & Hlen & Hs & Hm). destruct xs as [|x xs]; [done|].
    apply mine_cons in Hm as (Hp & Hx & Hk & Hm). destruct todo as [|todo]; [done|].
    assert (gT g - cap ≤ k) as Hw by (eapply window_owned; [done|by rewrite Hp]).
    apply (step_phase q g t sp _ s (Free kd (enc k) todo (out ++ [x])) k (Emptied t)); rewrite ?Hp; try done; [by right|..].
    + code. rewrite (slot_ok q g k) by (done || lia). cbn [mbind outcome_mbind mret outcome_mret]. unfold cell. cbn.
      by rewrite Hp, fn_lookup_insert, Hx.
    + split; [intros Hkd; destruct (Hk1 Hkd); lia|]. exists k, xs. cbn in Hlen.
      split_and!; [done|lia|by rewrite <- app_assoc|lia|apply Hk|by cbn; rewrite fn_lookup_insert|].
      apply mine_phase; [lia|done].
    + right. split; [done|]. exists k. split; [done|lia].
    + intros j Hj (i & Hi%(enc_pos_inj cap L Hcap Hroom) & Hb). subst i. exists k. split; [done|lia].
  - destruct HT as (Hk1 & k & xs & -> & Hlen & Hs & Hk & Hp & Hm).
    assert (gT g - cap ≤ k) as Hw by (eapply window_owned; [done|by rewrite Hp]).
    assert (fits k) as Hf by (eapply fits_pos; [done|lia]).
    apply (step_phase q g t sp _ s
      (match todo with O => Returning (popped kd out) | _ => Read kd (enc (k + 1)) todo out end) k Done);
      rewrite ?Hp; try done; [by right| | |by left|].
    + code. rewrite (slot_ok q g k) by (done || lia). cbn [mbind outcome_mbind mret outcome_mret].
      assert (wrapping_add USIZE (enc k) (one_lap q) = enc (k + cap)) as ->
        by (rewrite (qi_lap _ _ Hq); apply (enc_add_lap cap L Hcap HL Hroom); (done || lia)).
      destruct kd; [rewrite (Hk1 eq_refl)|rewrite (advance_ok q g) by (done || lia)].
      all: unfold cell; cbn; by rewrite Hp, fn_lookup_insert.
    + destruct todo as [|todo].
      { left. destruct xs; [|done]. by rewrite app_nil_r in Hs. }
      split_and!; [done|intros Hkd; by specialize (Hk1 Hkd)|].
      exists (k + 1), xs. split_and!; [done..|]. apply mine_phase; [lia|done].
    + intros j Hj (i & Hi%(enc_pos_inj cap L Hcap Hroom) & Hb). subst i.
      destruct todo; [lia|]. exists (k + 1). split; [done|lia].
Qed.

(** *** Queries *)

Lemma query_ok q g t sp p s :
  QInv q g → SI g s → TI g t p s →
  match p with Empty1 | Empty2 _ | Full1 | Full2 _ | Len1 | Len2 _ | Len3 _ _ => True | _ => False end →
  StepOK q g t sp p s.
Proof.
  intros Hq HS HT Hp. pose proof (length_contents _ _ Hq) as Hl. pose proof (contents_nil _ _ Hq) as Hnil.
  pose proof Hq as []. destruct p; try done; clear Hp; cbn [TI] in HT.
  - eapply aq_step_local; [done|done|done|]. split; [done|]. exists (gH g). split_and!; [done|lia..].
  - destruct HT as (Hs & k & -> & Hk & Hseen). eapply aq_step_local; [done|done|done|]. right. rewrite qi_tail0.
    case_bool_decide as He; [apply enc_pos_inj in He; [|done..]|rewrite enc_eq in He by done].
    + eapply answer_now; [done..|]. cbn. rewrite Hnil. split; [lia|done].
    + destruct (decide (k < gH g)).
      * eapply answer_seen; [done|by apply Hseen|]. cbn. intros l' Hne. by split.
      * eapply answer_now; [done..|]. cbn. rewrite Hnil. split; [done|lia].
  - eapply aq_step_local; [done|done|done|]. split; [done|]. exists (gT g). split_and!; [done|lia..].
  - destruct HT as (Hs & k & -> & Hk & Hseen). eapply aq_step_local; [done|done|done|]. right.
    rewrite (full_iff q g k) by (done || lia). case_bool_decide as He.
    + eapply answer_now; [done..|]. cbn. split; [lia|done].
    + destruct (decide (k < gT g)).
      * eapply answer_seen; [done|by apply Hseen|]. cbn. intros l' Hne. split; [done|lia].
      * eapply answer_now; [done..|]. cbn. split; [done|lia].
  - eapply aq_step_local; [done|done|done|]. split; [done|]. exists (gT g). split_and!; [done|lia..].
  - destruct HT as (Hs & k & -> & Hk). eapply aq_step_local; [done|done|done|]. split; [done|].
    exists k, (gH g). split_and!; [done..|lia|lia|]. intros ->. split; [lia|]. by eapply seen_now.
  - destruct HT as (Hs & k & j & -> & -> & Hk & Hseen). destruct (decide (gT g = k)) as [He|Hne].
    + destruct (Hseen (eq_sym He)) as [Hkj Hlen]. eapply aq_step_local; [done|done|code;
        rewrite qi_tail0, He, bool_decide_eq_true_2, qi_lap0, qi_cap0, (stamp_len_enc cap L Hcap HL Hroom) by (done || lia);
        done|]. right. eapply answer_seen; [done|done|]. by intros l' <-.
    + eapply aq_step_local; [done|done|code; rewrite qi_tail0, bool_decide_eq_false_2; [done|by rewrite enc_eq]|done].
Qed.

Lemma code_ok q g t sp p s : QInv q g → SI g s → TI g t p s → StepOK q g t sp p s.
Proof.
  intros Hq HS HT. destruct p;
    first [by apply aq_push_ok|by apply push_batch_ok|by apply write_ok|by apply aq_pop_ok|by apply pop_batch_ok
          |by apply read_ok|by apply query_ok|by eapply aq_step_local].
Qed.

(** *** The whole system *)

Lemma effect_moved t p g s e g' s' : Effect t p g s e g' s' → Moved cap t g s e g' s'.
Proof. destruct e; cbn; naive_solver. Qed.

Lemma env_other q t u p pu g s su e g' s' :
  QInv q g → u ≠ t → Effect t p g s e g' s' → frame t g g' → SI g su →
  (MP = false → pushing p = true → pushing pu = false) →
  (MC = false → popping p = true → popping pu = false) →
  env u pu g su g' (seen_by e g' su).
Proof.
  intros Hq Hne He Hf HS Hmp Hmc. pose proof (length_contents _ _ Hq) as Hl. pose proof (qi_le _ _ Hq) as Hle.
  pose proof (effect_moved _ _ _ _ _ _ _ He) as Hmv. destruct (moved_mono _ _ _ _ _ _ _ Hmv) as [HH HL'].
  split; [done|done|..].
  - intros k Hk Ho. destruct (Hf k Hk) as [?|[Ho'|[Hr _]]]; [done|congruence|by rewrite Hr in Ho].
  - intros k Hk Hd. destruct (Hf k Hk) as [->|[Ho'|[Hr _]]]; [done|by rewrite Hd in Ho'|congruence].
  - intros k Hk Hr. destruct (Hf k Hk) as [->|[Ho'|[_ ?]]]; [by left|by rewrite Hr in Ho'|by right].
  - intros Hm Hp. unfold gT. destruct e; cbn in He; try done; [by destruct He as (_ & -> & _)| |by destruct He as (_ & _ & _ & -> & _)].
    destruct He as (_ & Hpp & _). rewrite Hmp in Hp; done.
  - intros Hm Hp. destruct e; cbn in He; try done; [by destruct He as (-> & _)|by destruct He as (_ & _ & -> & _)|].
    destruct He as (_ & Hpp & _). rewrite Hmc in Hp; done.
  - apply moved_grows.
  - intros o. by eapply moved_room.
  - intros o. by eapply moved_some.
Qed.

Definition one_each (th : nat → Pc A) : Prop :=
  (MP = false → ∀ t u, pushing (th t) = true → pushing (th u) = true → t = u) ∧
  (MC = false → ∀ t u, popping (th t) = true → popping (th u) = true → t = u).

Record InvG (n : nat) (σ : State A) (a : Bounded A) g : Prop := {
  inv_queue : QInv (queue σ) g;
  inv_count : length (glog g) = n;
  inv_items : items a = contents g;
  inv_thread t : TI g t (thread σ t) (status a t);
  inv_seen t : SI g (status a t);
  inv_one : one_each (thread σ);
  inv_owned t : owned g t (thread σ t);
}.
Definition Inv (n : nat) (σ : State A) (a : Bounded A) : Prop := ∃ g, InvG n σ a g.

Lemma one_each_insert th t p :
  one_each th → (pushing p = true → pushing (th t) = true ∨ (MP = false → ∀ u, pushing (th u) = false)) →
  (popping p = true → popping (th t) = true ∨ (MC = false → ∀ u, popping (th u) = false)) →
  one_each (<[t := p]> th).
Proof.
  intros [H1 H2] Hp Hq. split; intros Hm u v.
  - specialize (H1 Hm). destruct (decide (u = t)) as [->|Hu], (decide (v = t)) as [->|Hv];
      rewrite ?fn_lookup_insert, ?fn_lookup_insert_ne by done; [done|..]; [intros H3 H4|intros H4 H3|by apply H1].
    all: destruct (Hp H3) as [Ht|Hn]; [by apply H1|by rewrite Hn in H4].
  - specialize (H2 Hm). destruct (decide (u = t)) as [->|Hu], (decide (v = t)) as [->|Hv];
      rewrite ?fn_lookup_insert, ?fn_lookup_insert_ne by done; [done|..]; [intros H3 H4|intros H4 H3|by apply H2].
    all: destruct (Hq H3) as [Ht|Hn]; [by apply H2|by rewrite Hn in H4].
Qed.

Lemma pushing_back q t sp p q' p' e :
  code_step MP MC q t sp p = Ret (q', p', e) →
  (pushing p' = true → pushing p = true) ∧ (popping p' = true → popping p = true).
Proof.
  intros H. destruct p; cbn in H |- *; try done.
  all: repeat (first
    [ progress (injection H as <- <- <-)
    | match type of H with
      | mbind _ _ = Ret _ => apply mbind_ret_inv in H as (? & ? & H)
      | context [match ?x with _ => _ end] => destruct x; try discriminate H
      end ]);
    cbn; unfold push_retry, pop_retry, push_walk, push_claim, pop_walk, pop_claim;
    repeat match goal with |- context [match ?x with _ => _ end] => destruct x end; done.
Qed.

Lemma inv_code n σ a t sp q' p' e :
  Inv n σ a → code_step MP MC (queue σ) t sp (thread σ t) = Ret (q', p', e) →
  fits (Z.of_nat n + Z.of_nat (length (enqueued [e])) + cap) →
  ∃ a', astep cap a e a' ∧ Inv (n + length (enqueued [e])) (mkState q' (<[t := p']> (thread σ))) a'.
Proof.
  intros (g & [Hq Hcount Hi Ht Hseen Hone Hown]) Hc Hf.
  destruct (code_ok (queue σ) g t sp (thread σ t) (status a t)) as (q1 & p1 & e1 & Hc' & Hk); [done..|].
  rewrite Hc in Hc'. injection Hc' as <- <- <-. destruct Hk as (g' & s' & Hq' & HT & He & Hfr & Howned).
  { unfold gT. by rewrite Hcount. }
  pose proof (qi_le _ _ Hq) as Hle. pose proof (pushing_back _ _ _ _ _ _ _ Hc) as [Hb1 Hb2].
  pose proof (effect_moved _ _ _ _ _ _ _ He) as Hmv.
  eexists. split; [by eapply moved_step|]. exists g'. split; cbn; try done.
  - rewrite <- Hcount. by eapply moved_count.
  - intros u. destruct (decide (u = t)) as [->|Hne]; [by rewrite !fn_lookup_insert|].
    rewrite !fn_lookup_insert_ne by done. eapply aq_TI_env; [|apply Ht].
    eapply (env_other (queue σ) t u (thread σ t)); [done..|apply Hseen| |].
    + intros Hm Hp. destruct (pushing (thread σ u)) eqn:Hpu; [|done]. by destruct Hne; apply (proj1 Hone Hm).
    + intros Hm Hp. destruct (popping (thread σ u)) eqn:Hpu; [|done]. by destruct Hne; apply (proj2 Hone Hm).
  - intros u. destruct (decide (u = t)) as [->|Hne].
    + rewrite fn_lookup_insert. by eapply moved_self.
    + rewrite fn_lookup_insert_ne by done. eapply moved_SI; [done..|apply Hseen].
  - apply one_each_insert; [done|by auto..].
  - intros u k Hk Hu. destruct (Howned (Hown t) k u Hk Hu) as [[-> ?]|(Hne & Hk' & Hu')]; [by rewrite fn_lookup_insert|].
    rewrite fn_lookup_insert_ne by done. by apply Hown.
Qed.

Lemma TI_status g t p s s' : TI g t p s → s' = s → TI g t p s'.
Proof. by intros ? ->. Qed.

Lemma aq_inv_step n σ a e σ' :
  Inv n σ a → step MP MC σ e σ' → fits (Z.of_nat n + Z.of_nat (length (enqueued [e])) + cap) →
  ∃ a', astep cap a e a' ∧ Inv (n + length (enqueued [e])) σ' a'.
Proof.
  intros HI Hst Hf. destruct Hst as [σ t o Hidle Hok|σ t sp q' p' e Hc|σ t r Hret]; [|by eapply inv_code|].
  - destruct HI as (g & [Hq Hcount Hi Ht Hseen Hone Hown]). rewrite Nat.add_0_r.
    exists (mkBounded (items a) (<[t := ACalled o [items a]]> (status a))). pose proof (Ht t) as Hti. rewrite Hidle in Hti.
    split; [by apply a_call|]. exists g. split; cbn; try done.
    + intros u. destruct (decide (u = t)) as [->|Hne]; [|by rewrite !fn_lookup_insert_ne].
      rewrite !fn_lookup_insert. destruct o; cbn; try (split; [done|]); try (eexists; done);
        [left|right]; eexists; done.
    + intros u. destruct (decide (u = t)) as [->|Hne]; [|by rewrite !fn_lookup_insert_ne].
      rewrite fn_lookup_insert, Hi. cbn. set_solver.
    + destruct Hok as [H1 H2]. apply one_each_insert; [done|..]; intros Hp; right; intros Hm; [by apply H1|by apply H2].
    + intros u k Hk Hu. specialize (Hown u k Hk Hu). destruct (decide (u = t)) as [->|]; [by rewrite Hidle in Hown|].
      by rewrite fn_lookup_insert_ne.
  - destruct HI as (g & [Hq Hcount Hi Ht Hseen Hone Hown]). rewrite Nat.add_0_r.
    exists (mkBounded (items a) (<[t := AIdle]> (status a))). pose proof (Ht t) as Hti. rewrite Hret in Hti.
    split; [by apply a_return|]. exists g. split; cbn; try done.
    + intros u. destruct (decide (u = t)) as [->|Hne]; [by rewrite !fn_lookup_insert|by rewrite !fn_lookup_insert_ne].
    + intros u. destruct (decide (u = t)) as [->|Hne]; [by rewrite !fn_lookup_insert|by rewrite !fn_lookup_insert_ne].
    + by apply one_each_insert.
    + intros u k Hk Hu. specialize (Hown u k Hk Hu). destruct (decide (u = t)) as [->|]; [by rewrite Hret in Hown|].
      by rewrite fn_lookup_insert_ne.
Qed.

Lemma aq_inv_steps n σ a es σ' :
  Inv n σ a → steps MP MC σ es σ' → fits (Z.of_nat n + Z.of_nat (length (enqueued es)) + cap) →
  ∃ a', asteps cap a es a' ∧ Inv (n + length (enqueued es)) σ' a'.
Proof.
  intros HI Hs. induction Hs as [σ|σ es σ1 e σ2 _ IH Hst]; intros Hf.
  { rewrite Nat.add_0_r. exists a. split; [constructor|done]. }
  rewrite enqueued_app, length_app in *. destruct (IH HI) as (a1 & Ha1 & HI1).
  { eapply fits_le; [done..| |exact Hf]. lia. }
  destruct (aq_inv_step _ _ _ _ _ HI1 Hst) as (a2 & Ha2 & HI2).
  { eapply fits_le; [done..| |exact Hf]. lia. }
  exists a2. split; [by econstructor|]. by rewrite Nat.add_assoc.
Qed.

(** *** The destructor *)

Lemma all_ready n σ a g :
  InvG n σ a g → (∀ t, claiming (thread σ t) = false) → ∀ k, gH g ≤ k < gT g → gst g k = Ready.
Proof.
  intros HI Hc k Hk. pose proof (qi_queued _ _ (inv_queue _ _ _ _ HI) k Hk) as Hq.
  destruct (gst g k) as [t|t| | | |] eqn:Hp; try done;
    (destruct (not_claiming (thread σ t) k (Hc t)); apply (inv_owned _ _ _ _ HI t k); [lia|by rewrite Hp]).
Qed.

Lemma aq_drop_loop_spec q g :
  QInv q g → (∀ k, gH g ≤ k < gT g → gst g k = Ready) →
  ∀ n i, Z.of_nat (i + n) = gT g - gH g → drop_loop q (gH g mod cap) i n = Ret (drop i (contents g)).
Proof.
  intros Hq Hr. pose proof (length_contents _ _ Hq) as Hl. pose proof Hq as [].
  pose proof (Z.mod_pos_bound (gH g) cap Hcap) as Hm. pose proof (Z_div_mod_eq_full (gH g) cap) as Hdm.
  induction n as [|n IH]; intros i Hi; cbn [drop_loop].
  { by rewrite drop_ge by lia. }
  rewrite qi_cap0.
  assert ((if bool_decide (gH g mod cap + Z.of_nat i < cap) then mret (gH g mod cap + Z.of_nat i)
    else checked_sub (gH g mod cap + Z.of_nat i) cap) = Ret ((gH g + Z.of_nat i) mod cap)) as ->.
  { case_bool_decide.
    - cbn. f_equal. apply (Z.mod_unique _ _ (gH g / cap)); lia.
    - rewrite checked_sub_ret by lia. f_equal. apply (Z.mod_unique _ _ (gH g / cap + 1)); lia. }
  pose proof (slot_ok q g (gH g + Z.of_nat i) Hq ltac:(lia)) as Hs.
  rewrite qi_lap0, (enc_index cap L Hcap HL Hroom) in Hs. cbn [mbind outcome_mbind]. rewrite Hs.
  cbn [mbind outcome_mbind]. unfold cell. rewrite Hr by lia. cbn [value].
  destruct (lookup_lt_is_Some_2 (contents g) i) as [x Hx]; [lia|].
  assert (logged g (gH g + Z.of_nat i) = Some x) as ->.
  { unfold logged. rewrite <- Hx. unfold contents. rewrite lookup_drop. f_equal. lia. }
  cbn [assume_init mbind outcome_mbind]. rewrite IH by lia. cbn. by rewrite (drop_S _ x i).
Qed.

Lemma inv_drop n σ a :
  Inv n σ a → (∀ t, claiming (thread σ t) = false) → drop_queue (queue σ) = Ret (items a).
Proof.
  intros (g & HI) Hc. pose proof (all_ready _ _ _ _ HI Hc) as Hr. destruct HI as [Hq _ Hi _ _ _ _].
  pose proof Hq as []. unfold drop_queue. rewrite qi_head0, qi_tail0, qi_lap0, qi_cap0.
  rewrite (stamp_len_enc cap L Hcap HL Hroom) by lia. cbn [mbind outcome_mbind].
  rewrite (enc_index cap L Hcap HL Hroom), (aq_drop_loop_spec _ g) by (done || lia). by rewrite Hi.
Qed.
End inv.

(** One lap is at most four times the capacity, so [2 ^ 60] items never wrap
    the stamps around. *)
Lemma fits_items {A} (cap : Z) (q : Queue A) (n : nat) :
  0 < cap ≤ 2 ^ 58 → new cap = Ret q → Z.of_nat n ≤ 2 ^ 60 → fits cap (one_lap q) USIZE (Z.of_nat n + cap).
Proof.
  intros Hc Hq Hn. unfold new in Hq. rewrite bool_decide_eq_true_2 in Hq by lia. cbn [guard_panic mbind outcome_mbind] in Hq.
  rewrite checked_add_ret in Hq by lia. cbn [mbind outcome_mbind] in Hq. injection Hq as <-. cbn [one_lap].
  destruct (lap_spec cap Hc) as [Hp [Hle Hup]].
  set (L := next_power_of_two USIZE (cap + 1)) in *. split; [lia|]. unfold enc.
  pose proof (Z.mod_pos_bound (Z.of_nat n + cap + cap) cap ltac:(lia)).
  pose proof (Z_div_mod_eq_full (Z.of_nat n + cap + cap) cap).
  assert (0 ≤ (Z.of_nat n + cap + cap) / cap) by (apply Z.div_pos; lia).
  assert ((Z.of_nat n + cap + cap) / cap * L ≤ (Z.of_nat n + cap + cap) / cap * (4 * cap)) by nia. lia.
Qed.

Lemma aq_new_spec {A} (cap : Z) : 0 < cap < 2 ^ 62 →
  ∃ q, new (A := A) cap = Ret q ∧ pow2 (one_lap q) ∧ cap < one_lap q ∧
  (fits cap (one_lap q) USIZE cap → ∀ MP MC, Inv MP MC cap (one_lap q) 0 (init q) empty_bounded).
Proof.
  intros Hc. unfold new. rewrite bool_decide_eq_true_2 by lia. cbn [mbind outcome_mbind].
  cbn [guard_panic mbind outcome_mbind]. rewrite checked_add_ret by lia. cbn [mbind outcome_mbind].
  destruct (next_power_of_two_spec USIZE (cap + 1)) as (Hp & Hle & _); [lia..|].
  eexists. split; [done|]. cbn [one_lap]. split_and!; [done|lia|]. intros Hf MP MC.
  exists (mkGhost 0 [] (λ _, Done)). split; cbn; try done.
  set (L := next_power_of_two USIZE (cap + 1)) in *.
  split; cbn; try done.
  - unfold capacity. cbn. rewrite length_fmap, length_seq. lia.
  - unfold gT. cbn. lia.
  - intros k Hk. unfold gT in Hk. cbn in Hk. pose proof (Z.mod_pos_bound k cap ltac:(lia)).
    rewrite list_lookup_fmap, lookup_seq_lt by lia. cbn. do 2 f_equal.
    assert (k mod cap = k + cap) as Hm by (symmetry; apply (Z.mod_unique k cap (-1)); lia).
    rewrite Hm, enc_small by lia. lia.
  - intros k Hk. unfold gT in Hk. cbn in Hk. lia.
Qed.

(** Every reachable state is related to a state of the specification. *)
Lemma reachable_inv {A} (MP MC : bool) (cap : Z) (q : Queue A) es σ :
  0 < cap ≤ 2 ^ 58 → new cap = Ret q → steps MP MC (init q) es σ → Z.of_nat (length (enqueued es)) ≤ 2 ^ 60 →
  pow2 (one_lap q) ∧ cap < one_lap q ∧ ∃ a, asteps cap empty_bounded es a ∧
  Inv MP MC cap (one_lap q) (length (enqueued es)) σ a.
Proof.
  intros Hc Hq Hs Hn. destruct (aq_new_spec (A := A) cap ltac:(lia)) as (q' & Hq' & Hp & Hl & HI).
  rewrite Hq in Hq'. injection Hq' as <-. split_and!; [done..|].
  apply (aq_inv_steps MP MC cap (one_lap q) ltac:(lia) Hp Hl 0 (init q)); [|done|].
  - apply HI. pose proof (fits_items cap q 0 Hc Hq ltac:(lia)). done.
  - by apply fits_items.
Qed.

(** C6: the bounded ring is linearizable.  For every capacity up to [2 ^ 58],
    with or without several producers and consumers, every interleaving of
    pushes, one-shot and batched pushes, pops, batched pops and queries (up to
    [2 ^ 60] items) is an execution of an atomic bounded FIFO object: items
    leave in the order they entered, none is lost or duplicated, at most the
    capacity is held, a push or pop is refused only when the queue is full or
    empty at a moment during the call, and the queries report the contents of
    such a moment.  No access is out of bounds or to a slot in the wrong
    state, nothing overflows, and the destructor drops exactly the items
    left. *)
Theorem array_queue_linearizable {A} (MP MC : bool) (cap : Z) (q : Queue A) (es : list (event A)) (σ : State A)
    (Hcap : 0 < cap ≤ 2 ^ 58) (Hnew : new cap = Ret q) (Hrun : steps MP MC (init q) es σ)
    (Hitems : Z.of_nat (length (enqueued es)) ≤ 2 ^ 60) :
  ∃ a, asteps cap empty_bounded es a ∧
    (∀ t spurious, ∃ r, code_step MP MC (queue σ) t spurious (thread σ t) = Ret r) ∧
    ((∀ t, claiming (thread σ t) = false) → drop_queue (queue σ) = Ret (items a)).
Proof.
  destruct (reachable_inv MP MC cap q es σ Hcap Hnew Hrun Hitems) as (Hp & Hl & a & Ha & HI).
  exists a. split_and!; [done| |by apply (inv_drop MP MC cap (one_lap q) ltac:(lia) Hp Hl _ _ _ HI)].
  intros t sp. destruct HI as (g & HI).
  destruct (code_ok MP MC cap (one_lap q) ltac:(lia) Hp Hl (queue σ) g t sp (thread σ t) (status a t))
    as (q' & p' & e & Hc & _); [apply HI..|]. by eexists.
Qed.

(** Two threads on a ring of two slots: thread 0 pushes 1, offers the batch
    [2; 3], of which one item fits, and is refused a third item; thread 1 pops
    1 and takes a batch. *)
Definition aq_ring : Queue nat := mkQueue 0 0 [mkSlot 0 None; mkSlot 1 None] 4.
Definition aq_sched : list (nat * choice nat) :=
  (0%nat, Start (OpPush 1%nat)) :: replicate 5 (0%nat, Go) ++ [(0%nat, End)] ++
  (0%nat, Start (OpPushBatch [2; 3]%nat)) :: replicate 6 (0%nat, Go) ++ [(0%nat, End)] ++
  (0%nat, Start (OpPush 4%nat)) :: (1%nat, Start OpPop) :: replicate 3 (0%nat, Go) ++
  replicate 5 (1%nat, Go) ++ [(0%nat, End); (1%nat, End)] ++
  (1%nat, Start (OpPopBatch 8)) :: replicate 6 (1%nat, Go) ++ [(1%nat, End)].
Definition aq_final : State nat * list (event nat) := default (init aq_ring, []) (run true true aq_sched (init aq_ring) []).

Lemma aq_run : steps true true (init aq_ring) aq_final.2 aq_final.1.
Proof.
  unfold aq_final. destruct (run true true aq_sched (init aq_ring) []) as [[σ es]|] eqn:Hr; [|by constructor].
  by eapply aq_run_steps; [constructor|].
Qed.

Lemma array_queue_linearizable_witness :
  omap (λ e, match e with Return t r => Some (t, r) | _ => None end) aq_final.2 =
    [(0, RPush true); (0, RPushBatch 1); (0, RPush false); (1, RPop (Some 1)); (1, RPopBatch [2])]%nat ∧
  ∃ a, asteps 2 empty_bounded aq_final.2 a ∧
    (∀ t spurious, ∃ r, code_step true true (queue aq_final.1) t spurious (thread aq_final.1 t) = Ret r) ∧
    ((∀ t, claiming (thread aq_final.1 t) = false) → drop_queue (queue aq_final.1) = Ret (items a)).
Proof.
  split; [vm_compute; reflexivity|].
  apply (array_queue_linearizable true true 2 aq_ring aq_final.2 aq_final.1).
  - lia.
  - reflexivity.
  - exact aq_run.
  - vm_compute. discriminate.
Defined.
