(* ===== verification/MpscQueue.v ===== *)
(** * MpscQueue: the multi-producer single-consumer ring

    Model of [crates/youpipe-crossfire/src/crossbeam/array_queue_mpsc.rs], the
    ring of the terminal channels.  Two 64-bit words hold two 32-bit cursors
    each: [sender] the tail and the producers' cached copy of the head, [recv]
    the head and the consumer's cached copy of the tail.  Producers claim
    slots by a compare-exchange on [sender]; the consumer reads the slot whose
    stamp says it is written and then publishes the new head by a store. *)

From stdpp Require Import functions.
From S2P Require Import Prelude RingPos BoundedQueue.
Local Open Scope Z_scope.

Record Slot (A : Type) : Type := mkSlot { stamp : Z; value : option A }.
Arguments mkSlot {A} _ _.
Arguments stamp {A} _.
Arguments value {A} _.

Record Queue (A : Type) : Type := mkQueue { sender : Z; recv : Z; buffer : list (Slot A); one_lap : Z }.
Arguments mkQueue {A} _ _ _ _.
Arguments sender {A} _.
Arguments recv {A} _.
Arguments buffer {A} _.
Arguments one_lap {A} _.

(** [ArrayQueueMpsc::new]. *)
Definition new {A} (cap : Z) : outcome (Queue A) :=
  guard_panic (bool_decide (0 < cap));;
  guard_panic (bool_decide (cap < 2 ^ 31));;
  c ← checked_add 64 cap 1;
  mret (mkQueue (pack32 0 0) (pack32 0 0) ((λ i, mkSlot (Z.of_nat i) None) <$> seq 0 (Z.to_nat cap))
          (wrap 32 (next_power_of_two 64 c))).

Definition capacity {A} (q : Queue A) : Z := Z.of_nat (length (buffer q)).
Definition set_sender {A} (q : Queue A) (v : Z) : Queue A := mkQueue v (recv q) (buffer q) (one_lap q).
Definition set_recv {A} (q : Queue A) (v : Z) : Queue A := mkQueue (sender q) v (buffer q) (one_lap q).

Definition slot_at {A} (q : Queue A) (index : Z) : outcome (Slot A) :=
  guard_panic (bool_decide (index < capacity q));;
  match buffer q !! Z.to_nat index with Some s => mret s | None => Undef end.
Definition set_slot {A} (q : Queue A) (index : Z) (s : Slot A) : Queue A :=
  mkQueue (sender q) (recv q) (<[Z.to_nat index := s]> (buffer q)) (one_lap q).

(** ** Program points *)

Inductive pusher : Type := KPush | KOneshot | KBatch (n : nat).

Inductive Pc (A : Type) : Type :=
  | Idle
  | Returning (r : result A)
  | PushLoad (k : pusher) (x : A)
  | PushFull (k : pusher) (x : A) (sender_val : Z)
  | PushCas (k : pusher) (x : A) (sender_val head_cached : Z)
  | BPushLoad (values : list A)
  | BPushFull (values : list A) (attempt : nat) (sender_val : Z)
  | BPushCas (values : list A) (attempt : nat) (sender_val head_cached : Z) (n : nat)
  | Write (k : pusher) (pos : Z) (values : list A)
  | Publish (k : pusher) (pos : Z) (values : list A)
  | PopLoad (cached : bool)
  | PopTail (head : Z)
  | PopSpin (head tail_cached : Z)
  | PopRead (head tail_cached : Z)
  | PopStore (head tail_cached : Z) (x : A)
  | BPopLoad (len : nat)
  | BPopTail (len : nat) (head : Z)
  | BPopWalk (len : nat) (tail_cached head : Z) (out : list A)
  | BPopRead (len : nat) (tail_cached head : Z) (out : list A)
  | BPopStore (tail_cached head : Z) (out : list A)
  | Empty1
  | Empty2 (head : Z)
  | Full1
  | Full2 (tail : Z)
  | Len1
  | Len2 (tail : Z)
  | Len3 (tail head : Z).
Arguments Idle {A}.
Arguments Returning {A} r.
Arguments PushLoad {A} k x.
Arguments PushFull {A} k x sender_val.
Arguments PushCas {A} k x sender_val head_cached.
Arguments BPushLoad {A} values.
Arguments BPushFull {A} values attempt sender_val.
Arguments BPushCas {A} values attempt sender_val head_cached n.
Arguments Write {A} k pos values.
Arguments Publish {A} k pos values.
Arguments PopLoad {A} cached.
Arguments PopTail {A} head.
Arguments PopSpin {A} head tail_cached.
Arguments PopRead {A} head tail_cached.
Arguments PopStore {A} head tail_cached x.
Arguments BPopLoad {A} len.
Arguments BPopTail {A} len head.
Arguments BPopWalk {A} len tail_cached head out.
Arguments BPopRead {A} len tail_cached head out.
Arguments BPopStore {A} tail_cached head out.
Arguments Empty1 {A}.
Arguments Empty2 {A} head.
Arguments Full1 {A}.
Arguments Full2 {A} tail.
Arguments Len1 {A}.
Arguments Len2 {A} tail.
Arguments Len3 {A} tail head.

Definition entry {A} (o : op A) : Pc A :=
  match o with
  | OpPush x => PushLoad KPush x
  | OpPushOneshot x => PushLoad KOneshot x
  | OpPushBatch vs => BPushLoad vs
  | OpPop => PopLoad false
  | OpPopCached => PopLoad true
  | OpPopBatch n => BPopLoad n
  | OpIsEmpty => Empty1
  | OpIsFull => Full1
  | OpLen => Len1
  end.

(** ** The code, access by access *)

(** [advance]: wrapping, unlike the single-item paths. *)
Definition advance_wrapping (one_lap cap pos : Z) : Z :=
  let index := index_of one_lap pos in
  if bool_decide (index + 1 < cap) then wrapping_add 32 pos 1
  else wrapping_add 32 (Z.land pos (not_word 32 (one_lap - 1))) one_lap.

(** [real_positions]: the slots between two stamps at most a lap apart. *)
Definition seg_real (cap a b : Z) : Z := Z.max 0 (Z.min b cap - Z.min a cap).
Definition real_positions (one_lap cap from to : Z) : outcome Z :=
  if bool_decide (to = from) then mret 0
  else
    let idx_from := index_of one_lap from in
    let idx_to := index_of one_lap to in
    if bool_decide (wrapping_sub 32 to from = one_lap) || bool_decide (idx_to ≤ idx_from)
    then checked_add 32 (seg_real cap idx_from one_lap) (seg_real cap 0 idx_to)
    else mret (seg_real cap idx_from idx_to).

(** [len]'s formula. *)
Definition len_of (one_lap cap head tail : Z) : outcome Z :=
  let hix := index_of one_lap head in
  let tix := index_of one_lap tail in
  if bool_decide (hix < tix) then checked_sub tix hix
  else if bool_decide (tix < hix) then d ← checked_sub hix tix; checked_sub cap d
  else if bool_decide (tail = head) then mret 0
  else mret cap.

Section steps.
Context {A : Type}.
Implicit Types (q : Queue A) (t : nat).

Notation outc := (outcome (Queue A * Pc A * event A)).

(** The cached head says the ring is full. *)
Definition full_hint q (sender_val : Z) : bool :=
  bool_decide (wrapping_add 32 (hi32 sender_val) (one_lap q) = lo32 sender_val).

Definition refused (k : pusher) : result A :=
  match k with KPush => RPush false | KOneshot => ROneshot (Some false) | KBatch _ => RPushBatch 0 end.
Definition pushed (k : pusher) : result A :=
  match k with KPush => RPush true | KOneshot => ROneshot (Some true) | KBatch n => RPushBatch n end.

(** [push_with_ptr], [try_push_oneshot] and their [_try_push], up to the
    claim. *)
Definition push_check q (k : pusher) (x : A) (sender_val : Z) : Pc A :=
  if full_hint q sender_val then PushFull k x sender_val else PushCas k x sender_val (hi32 sender_val).

Definition push_step q t (spurious : bool) (p : Pc A) : outc :=
  match p with
  | PushLoad k x => mret (q, push_check q k x (sender q), Tau)
  | PushFull k x sv =>
      let head := lo32 (recv q) in
      if bool_decide (head = hi32 sv) then mret (q, Returning (refused k), Tau)
      else mret (q, PushCas k x sv head, Tau)
  | PushCas k x sv hc =>
      let tail := lo32 sv in
      new_tail ← advance 32 (one_lap q) (capacity q) tail;
      if bool_decide (sender q = sv) && negb spurious
      then mret (set_sender q (pack32 hc new_tail), Write k tail [x], Enq t [x])
      else match k with
        | KPush => mret (q, push_check q k x (sender q), Tau)
        | _ => mret (q, Returning (ROneshot None), Tau)
        end
  | _ => mret (q, p, Tau)
  end.

(** [try_push_batch] up to the claim. *)
Definition batch_claim q (vs : list A) (attempt : nat) (sv hc : Z) : outcome (Pc A) :=
  free ← real_positions (one_lap q) (capacity q) (lo32 sv) (wrapping_add 32 hc (one_lap q));
  let n := Nat.min (length vs) (Z.to_nat free) in
  guard_panic (bool_decide (0 < n)%nat);;
  mret (BPushCas vs attempt sv hc n).
Definition batch_check q (vs : list A) (attempt : nat) (sv : Z) : outcome (Pc A) :=
  if full_hint q sv then mret (BPushFull vs attempt sv) else batch_claim q vs attempt sv (hi32 sv).

Definition push_batch_step q t (p : Pc A) : outc :=
  match p with
  | BPushLoad vs => p' ← batch_check q vs 0 (sender q); mret (q, p', Tau)
  | BPushFull vs attempt sv =>
      let head := lo32 (recv q) in
      if bool_decide (head = hi32 sv) then mret (q, Returning (RPushBatch 0), Tau)
      else p' ← batch_claim q vs attempt sv head; mret (q, p', Tau)
  | BPushCas vs attempt sv hc n =>
      let tail := lo32 sv in
      let new_tail := Nat.iter n (advance_wrapping (one_lap q) (capacity q)) tail in
      if bool_decide (sender q = sv)
      then mret (set_sender q (pack32 hc new_tail), Write (KBatch n) tail (take n vs), Enq t (take n vs))
      else if bool_decide (S attempt < 4)%nat
      then p' ← batch_check q vs (S attempt) (sender q); mret (q, p', Tau)
      else mret (q, Returning (RPushBatch 0), Tau)
  | _ => mret (q, p, Tau)
  end.

(** Writing the claimed slots. *)
Definition write_step q (p : Pc A) : outc :=
  match p with
  | Write k p (x :: vs) =>
      let i := index_of (one_lap q) p in
      s ← slot_at q i;
      mret (set_slot q i (mkSlot (stamp s) (Some x)), Publish k p vs, Tau)
  | Publish k p vs =>
      let i := index_of (one_lap q) p in
      s ← slot_at q i;
      mret (set_slot q i (mkSlot (wrapping_add 64 p 1) (value s)),
            match vs with
            | [] => Returning (pushed k)
            | _ => Write k (advance_wrapping (one_lap q) (capacity q) p) vs
            end, Tau)
  | _ => mret (q, p, Tau)
  end.

(** [pop] and [pop_cached]: [_start_read], [_read], the value, the store. *)
Definition pop_step q t (p : Pc A) : outc :=
  match p with
  | PopLoad cached =>
      let head := lo32 (recv q) in
      let tail_cached := hi32 (recv q) in
      if bool_decide (tail_cached = head)
      then mret (q, if cached then Returning (RPop None) else PopTail head, Tau)
      else mret (q, PopSpin head tail_cached, Tau)
  | PopTail head =>
      let tail := lo32 (sender q) in
      if bool_decide (head = tail) then mret (q, Returning (RPop None), Tau)
      else mret (q, PopSpin head tail, Tau)
  | PopSpin head tc =>
      s ← slot_at q (index_of (one_lap q) head);
      if bool_decide (stamp s = wrapping_add 64 head 1) then mret (q, PopRead head tc, Tau)
      else mret (q, PopSpin head tc, Tau)
  | PopRead head tc =>
      let i := index_of (one_lap q) head in
      s ← slot_at q i;
      x ← assume_init (value s);
      mret (set_slot q i (mkSlot (stamp s) None), PopStore head tc x, Tau)
  | PopStore head tc x =>
      new_head ← advance 32 (one_lap q) (capacity q) head;
      mret (set_recv q (pack32 tc new_head), Returning (RPop (Some x)), Deq t 1)
  | _ => mret (q, p, Tau)
  end.

(** [pop_batch]: the walk is bounded by the stamps, not by the cached tail;
    the stored hint is clamped up to the new head. *)
Definition pop_end (tc head : Z) (out : list A) : Pc A :=
  match out with [] => Returning (RPopBatch []) | _ => BPopStore tc head out end.
Definition pop_walk (len : nat) (tc head : Z) (out : list A) : Pc A :=
  if bool_decide (length out < len)%nat then BPopWalk len tc head out else pop_end tc head out.

Definition pop_batch_step q t (p : Pc A) : outc :=
  match p with
  | BPopLoad len =>
      let head := lo32 (recv q) in
      let tail_cached := hi32 (recv q) in
      if bool_decide (tail_cached = head) then mret (q, BPopTail len head, Tau)
      else mret (q, pop_walk len tail_cached head [], Tau)
  | BPopTail len head =>
      let tail := lo32 (sender q) in
      if bool_decide (tail = head) then mret (q, Returning (RPopBatch []), Tau)
      else mret (q, pop_walk len tail head [], Tau)
  | BPopWalk len tc head out =>
      s ← slot_at q (index_of (one_lap q) head);
      if bool_decide (stamp s = wrapping_add 64 head 1) then mret (q, BPopRead len tc head out, Tau)
      else mret (q, pop_end tc head out, Tau)
  | BPopRead len tc head out =>
      let i := index_of (one_lap q) head in
      s ← slot_at q i;
      x ← assume_init (value s);
      head' ← advance 32 (one_lap q) (capacity q) head;
      mret (set_slot q i (mkSlot (stamp s) None), pop_walk len tc head' (out ++ [x]), Tau)
  | BPopStore tc head out =>
      let hint := Z.max tc head in
      mret (set_recv q (pack32 hint head), Returning (RPopBatch out), Deq t (length out))
  | _ => mret (q, p, Tau)
  end.

(** [is_empty], [is_full] and [len]. *)
Definition query_step q (p : Pc A) : outc :=
  match p with
  | Empty1 => mret (q, Empty2 (lo32 (recv q)), Tau)
  | Empty2 hd => mret (q, Returning (RBool (bool_decide (lo32 (sender q) = hd))), Tau)
  | Full1 => mret (q, Full2 (lo32 (sender q)), Tau)
  | Full2 tl =>
      mret (q, Returning (RBool (bool_decide (wrapping_add 32 (lo32 (recv q)) (one_lap q) = tl))), Tau)
  | Len1 => mret (q, Len2 (lo32 (sender q)), Tau)
  | Len2 tl => mret (q, Len3 tl (lo32 (recv q)), Tau)
  | Len3 tl hd =>
      if bool_decide (lo32 (sender q) = tl)
      then n ← len_of (one_lap q) (capacity q) hd tl; mret (q, Returning (RLen n), Tau)
      else mret (q, Len1, Tau)
  | _ => mret (q, p, Tau)
  end.

Definition code_step q t (spurious : bool) (p : Pc A) : outc :=
  match p with
  | PushLoad _ _ | PushFull _ _ _ | PushCas _ _ _ _ => push_step q t spurious p
  | BPushLoad _ | BPushFull _ _ _ | BPushCas _ _ _ _ _ => push_batch_step q t p
  | Write _ _ _ | Publish _ _ _ => write_step q p
  | PopLoad _ | PopTail _ | PopSpin _ _ | PopRead _ _ | PopStore _ _ _ => pop_step q t p
  | BPopLoad _ | BPopTail _ _ | BPopWalk _ _ _ _ | BPopRead _ _ _ _ | BPopStore _ _ _ => pop_batch_step q t p
  | Empty1 | Empty2 _ | Full1 | Full2 _ | Len1 | Len2 _ | Len3 _ _ => query_step q p
  | Idle | Returning _ => mret (q, p, Tau)
  end.

Definition popping (p : Pc A) : bool :=
  match p with
  | PopLoad _ | PopTail _ | PopSpin _ _ | PopRead _ _ | PopStore _ _ _ | BPopLoad _ | BPopTail _ _
  | BPopWalk _ _ _ _ | BPopRead _ _ _ _ | BPopStore _ _ _ => true
  | _ => false
  end.
End steps.

(** ** The interleaving *)

Record State (A : Type) : Type := mkState { queue : Queue A; thread : nat → Pc A }.
Arguments mkState {A} _ _.
Arguments queue {A} _.
Arguments thread {A} _ _.

Definition init {A} (q : Queue A) : State A := mkState q (λ _, Idle).

(** There is one consumer, and batches to push are not empty (the debug
    assertion of [try_push_batch]). *)
Definition call_ok {A} (σ : State A) (o : op A) : Prop :=
  (popping (entry o) = true → ∀ t, popping (thread σ t) = false) ∧
  match o with OpPushBatch vs => vs ≠ [] | _ => True end.

Inductive step {A} : State A → event A → State A → Prop :=
  | step_call σ t o :
      thread σ t = Idle → call_ok σ o →
      step σ (Call t o) (mkState (queue σ) (<[t := entry o]> (thread σ)))
  | step_code σ t spurious q' p' e :
      code_step (queue σ) t spurious (thread σ t) = Ret (q', p', e) →
      step σ e (mkState q' (<[t := p']> (thread σ)))
  | step_return σ t r :
      thread σ t = Returning r →
      step σ (Return t r) (mkState (queue σ) (<[t := Idle]> (thread σ))).

Inductive steps {A} : State A → list (event A) → State A → Prop :=
  | steps_nil σ : steps σ [] σ
  | steps_snoc σ es σ1 e σ2 : steps σ es σ1 → step σ1 e σ2 → steps σ (es ++ [e]) σ2.

(** [Drop]. *)
Fixpoint drop_loop {A} (q : Queue A) (hix : Z) (i todo : nat) : outcome (list A) :=
  match todo with
  | O => mret []
  | S n =>
      let at_ := hix + Z.of_nat i in
      index ← (if bool_decide (at_ < capacity q) then mret at_ else checked_sub at_ (capacity q));
      s ← slot_at q index;
      x ← assume_init (value s);
      rest ← drop_loop q hix (S i) n;
      mret (x :: rest)
  end.
Definition drop_queue {A} (q : Queue A) : outcome (list A) :=
  let head := lo32 (recv q) in
  let tail := lo32 (sender q) in
  len ← stamp_len (one_lap q) (wrap 32 (capacity q)) head tail;
  drop_loop q (index_of (one_lap q) head) 0 (Z.to_nat len).

(** ** Concrete runs *)

Inductive choice (A : Type) : Type := Start (o : op A) | Go | End.
Arguments Start {A} o.
Arguments Go {A}.
Arguments End {A}.

Definition sched_step {A} (t : nat) (c : choice A) (σ : State A) : option (State A * event A) :=
  match c, thread σ t with
  | Start o, Idle => Some (mkState (queue σ) (<[t := entry o]> (thread σ)), Call t o)
  | Go, p =>
      match code_step (queue σ) t false p with
      | Ret (q', p', e) => Some (mkState q' (<[t := p']> (thread σ)), e)
      | _ => None
      end
  | End, Returning r => Some (mkState (queue σ) (<[t := Idle]> (thread σ)), Return t r)
  | _, _ => None
  end.

Fixpoint run {A} (sched : list (nat * choice A)) (σ : State A) (es : list (event A)) :
    option (State A * list (event A)) :=
  match sched with
  | [] => Some (σ, es)
  | (t, c) :: sched =>
      match sched_step t c σ with
      | Some (σ', e) => run sched σ' (es ++ [e])
      | None => None
      end
  end.
