(* ===== verification/MpscQueueSpec.v ===== *)
(** * MpscQueueSpec: the multi-producer ring is an atomic bounded FIFO

    The proof that every interleaving of the code of [MpscQueue] refines the
    specification of [BoundedQueue], as long as the 32-bit stamps do not wrap
    around, and what happens when they do ([mpsc_hint_wraps]).

    A push takes effect when it moves the tail, a pop when it stores the new
    head.  The two cached cursors are positions too: the producers' copy of
    the head is at or below the head, the consumer's copy of the tail between
    the head and the tail. *)

From stdpp Require Import functions.
From S2P Require Import Prelude St3Ring RingPos RingGhost BoundedQueue MpscQueue.
Local Open Scope Z_scope.

Notation U32 := 32.

(** ** Packed words *)

Lemma lo32_pack a b : is_word U32 a → is_word U32 b → lo32 (pack32 a b) = b.
Proof. intros Ha Hb. exact (f_equal snd (unpack_pack a b Ha Hb)). Qed.

Lemma hi32_pack a b : is_word U32 a → is_word U32 b → hi32 (pack32 a b) = a.
Proof. intros Ha Hb. exact (f_equal fst (unpack_pack a b Ha Hb)). Qed.

Lemma pack32_inj a b c d :
  is_word U32 a → is_word U32 b → is_word U32 c → is_word U32 d → pack32 a b = pack32 c d → a = c ∧ b = d.
Proof.
  intros Ha Hb Hc Hd H. pose proof (f_equal hi32 H) as H1. pose proof (f_equal lo32 H) as H2.
  by rewrite !hi32_pack in H1; rewrite !lo32_pack in H2.
Qed.

Section arith.
Context (cap L : Z).
Hypothesis Hcap : 0 < cap.
Hypothesis HL : pow2 L.
Hypothesis Hroom : cap < L.

Notation enc := (enc cap L).
Notation fits := (fits cap L U32).

Lemma fits_word k : fits k → is_word U32 (enc k).
Proof. intros Hf. destruct (fits_enc cap L Hcap HL Hroom U32 ltac:(lia) k Hf) as (? & ? & _). pose proof (pow2_pos _ HL). unfold is_word. lia. Qed.

Lemma advance_wrapping_enc k : fits k → advance_wrapping L cap (enc k) = enc (k + 1).
Proof.
  intros Hf. pose proof (advance_enc cap L Hcap HL Hroom U32 ltac:(lia) k Hf) as Ha.
  destruct (fits_enc cap L Hcap HL Hroom U32 ltac:(lia) k Hf) as (H0 & H1 & H2).
  unfold advance in Ha. unfold advance_wrapping. rewrite (enc_index cap L Hcap HL Hroom) in *.
  pose proof (Z.mod_pos_bound k cap Hcap). pose proof (pow2_pos _ HL).
  rewrite (checked_add_ret 64) in Ha by lia. rewrite mbind_ret in Ha. case_bool_decide.
  - rewrite checked_add_ret in Ha by lia. unfold wrapping_add. rewrite wrap_small by (unfold is_word; lia). congruence.
  - unfold mret, outcome_mret in Ha. by injection Ha.
Qed.

Lemma iter_advance n k :
  fits (k + Z.of_nat n) → 0 ≤ k → Nat.iter n (advance_wrapping L cap) (enc k) = enc (k + Z.of_nat n).
Proof.
  intros Hf Hk. induction n as [|n IH]; [cbn; f_equal; lia|].
  change (advance_wrapping L cap (Nat.iter n (advance_wrapping L cap) (enc k)) = enc (k + Z.of_nat (S n))).
  rewrite IH by (eapply (fits_le cap L Hcap Hroom U32 ltac:(lia)); [|exact Hf]; lia).
  rewrite advance_wrapping_enc by (eapply (fits_le cap L Hcap Hroom U32 ltac:(lia)); [|exact Hf]; lia). f_equal. lia.
Qed.

Lemma real_positions_enc k j :
  0 ≤ k ≤ j → j ≤ k + cap → is_word U32 (enc k) → is_word U32 (enc j) → L < 2 ^ U32 →
  real_positions L cap (enc k) (enc j) = Ret (j - k).
Proof.
  intros Hk Hj [? ?] [? ?] HL32.
  unfold real_positions. rewrite !(enc_index cap L Hcap HL Hroom).
  case_bool_decide as He; [apply (enc_pos_inj cap L Hcap Hroom) in He; cbn; f_equal; lia|].
  assert (j ≠ k) by (intros ->; done). pose proof (enc_mono cap L Hcap Hroom k j ltac:(lia)).
  unfold wrapping_sub. rewrite wrap_small by (unfold is_word; lia).
  pose proof (Z.mod_pos_bound k cap Hcap). pose proof (Z.mod_pos_bound j cap Hcap).
  pose proof (Z_div_mod_eq_full k cap). pose proof (Z_div_mod_eq_full j cap).
  assert (k / cap ≤ j / cap) by (apply Z.div_le_mono; lia).
  assert (j / cap ≤ k / cap + 1) by nia. unfold seg_real.
  destruct (decide (j / cap = k / cap)) as [Hd|Hd].
  - rewrite Hd in *. rewrite bool_decide_eq_false_2 by (unfold enc, RingPos.enc; rewrite Hd; lia).
    rewrite bool_decide_eq_false_2 by lia. cbn. f_equal. lia.
  - assert (j / cap = k / cap + 1) as Hd' by lia. rewrite Hd' in *.
    assert (j mod cap ≤ k mod cap) by lia. rewrite (bool_decide_eq_true_2 (j mod cap ≤ _)), orb_true_r by done.
    rewrite checked_add_ret by lia. f_equal. lia.
Qed.

(** Also for stamps further apart, the count is positive. *)
Lemma real_positions_pos k j :
  enc k ≠ enc j → 2 * L ≤ 2 ^ U32 → ∃ n, real_positions L cap (enc k) (enc j) = Ret n ∧ 0 < n.
Proof.
  intros Hne HL32. unfold real_positions. rewrite !(enc_index cap L Hcap HL Hroom), bool_decide_eq_false_2 by congruence.
  pose proof (Z.mod_pos_bound k cap Hcap). pose proof (Z.mod_pos_bound j cap Hcap). unfold seg_real.
  destruct (bool_decide (wrapping_sub 32 (enc j) (enc k) = L)) eqn:Hw; cbn [orb].
  - rewrite checked_add_ret by lia. eexists. split; [done|]. lia.
  - clear Hw. case_bool_decide; [rewrite checked_add_ret by lia|]; (eexists; split; [reflexivity|]); lia.
Qed.

Lemma len_of_enc j k : 0 ≤ k - j ≤ cap → len_of L cap (enc j) (enc k) = Ret (k - j).
Proof.
  intros Hd. rewrite <- (stamp_len_enc cap L Hcap HL Hroom j k Hd). unfold len_of, stamp_len.
  rewrite !(enc_index cap L Hcap HL Hroom). pose proof (Z.mod_pos_bound k cap Hcap). pose proof (Z.mod_pos_bound j cap Hcap).
  case_bool_decide; [done|]. case_bool_decide; [|done]. rewrite !checked_sub_ret by lia. cbn.
  rewrite checked_sub_ret by lia. f_equal. lia.
Qed.
End arith.

(** ** Invariant *)

(** The phases of the positions between the head and the tail. *)
Definition live (p : phase) : Prop := match p with Done | Taken _ => False | _ => True end.

Section inv.
Context {A : Type} (cap L : Z).
Hypothesis Hcap : 0 < cap.
Hypothesis HL : pow2 L.
Hypothesis Hroom : cap < L.
Implicit Types (q : Queue A) (g : Ghost A) (t : nat) (s : astatus A).

Notation enc := (enc cap L).
Notation fits := (fits cap L U32).

(** The stamp position [k] leaves behind, and what the slot of [k] holds. *)
Definition left_stamp (k : Z) : Z := if decide (k < 0) then enc (k + cap) else enc k + 1.
Definition cell g (k : Z) : Slot A :=
  match gst g k with
  | Claimed _ => mkSlot (left_stamp (k - cap)) None
  | Written _ => mkSlot (left_stamp (k - cap)) (logged g k)
  | Ready | Taken _ => mkSlot (enc k + 1) (logged g k)
  | Emptied _ => mkSlot (enc k + 1) None
  | Done => mkSlot (left_stamp k) None
  end.

Record QInv q g : Prop := {
  qi_cap : capacity q = cap;
  qi_lap : one_lap q = L;
  qi_le : 0 ≤ gH g ≤ gT g;
  qi_send : ∃ S, sender q = pack32 (enc S) (enc (gT g)) ∧ 0 ≤ S ≤ gH g ∧ gT g ≤ S + cap;
  qi_recv : ∃ N, recv q = pack32 (enc N) (enc (gH g)) ∧ gH g ≤ N ≤ gT g;
  qi_fits : fits (gT g);
  qi_buf k : gT g - cap ≤ k < gT g → buffer q !! Z.to_nat (k mod cap) = Some (cell g k);
  qi_live k : gH g ≤ k < gT g → live (gst g k);
  qi_done k : k < gH g → gst g k = Done;
}.

(** What a producer remembers: a sender word whose tail is at most the
    present one, and a head that was reached, less than a lap behind it if the
    tail has not moved. *)
Definition old_sender g (sv kt kh : Z) : Prop :=
  sv = pack32 (enc kh) (enc kt) ∧ 0 ≤ kh ≤ gH g ∧ 0 ≤ kt ≤ gT g ∧ kh ≤ kt ≤ kh + cap.
Definition may_claim g (sv hc : Z) (n : nat) : Prop :=
  ∃ kt kh h, old_sender g sv kt kh ∧ hc = enc h ∧ 0 ≤ h ≤ gH g ∧ (kt = gT g → kt + Z.of_nat n ≤ h + cap).
Definition looks_full g (sv : Z) : Prop := ∃ kt kh, old_sender g sv kt kh ∧ kt = kh + cap.

Definition push_of (k : pusher) (x : A) : op A :=
  match k with KPush => OpPush x | KOneshot => OpPushOneshot x | KBatch _ => OpPushBatch [x] end.
Definition single (k : pusher) : bool := match k with KBatch _ => false | _ => true end.
Definition pop_of (cached : bool) : op A := if cached then OpPopCached else OpPop.

(** The consumer's hint of the tail, and the items it has taken out. *)
Definition hint g (tc : Z) : Prop := ∃ N, tc = enc N ∧ gH g ≤ N ≤ gT g.
Definition more g (tc : Z) : Prop := ∃ N, tc = enc N ∧ gH g < N ≤ gT g.
Definition walked g t (hd : Z) (out : list A) : Prop :=
  hd = enc (gH g + Z.of_nat (length out)) ∧ mine g (Emptied t) (gH g) out.

Definition TI g t (p : Pc A) s : Prop :=
  match p with
  | Idle => s = AIdle
  | Returning r => s = ADecided r ∨ answered cap s r
  | PushLoad kd x => single kd = true ∧ called s (push_of kd x)
  | PushFull kd x sv => single kd = true ∧ called s (push_of kd x) ∧ looks_full g sv
  | PushCas kd x sv hc => single kd = true ∧ called s (push_of kd x) ∧ may_claim g sv hc 1
  | BPushLoad vs => vs ≠ [] ∧ called s (OpPushBatch vs)
  | BPushFull vs attempt sv => vs ≠ [] ∧ called s (OpPushBatch vs) ∧ looks_full g sv
  | BPushCas vs attempt sv hc n =>
      vs ≠ [] ∧ called s (OpPushBatch vs) ∧ (0 < n ≤ length vs)%nat ∧ may_claim g sv hc n
  | Write kd p vs =>
      s = ADecided (pushed kd) ∧ vs ≠ [] ∧ ∃ k, p = enc k ∧ mine g (Claimed t) k vs
  | Publish kd p vs =>
      s = ADecided (pushed kd) ∧
      ∃ k, p = enc k ∧ 0 ≤ k < gT g ∧ gst g k = Written t ∧ mine g (Claimed t) (k + 1) vs
  | PopLoad cached => called s (pop_of cached)
  | PopTail hd => called s OpPop ∧ hd = enc (gH g)
  | PopSpin hd tc => (called s OpPop ∨ called s OpPopCached) ∧ hd = enc (gH g) ∧ more g tc
  | PopRead hd tc =>
      (called s OpPop ∨ called s OpPopCached) ∧ hd = enc (gH g) ∧ more g tc ∧ gst g (gH g) = Ready
  | PopStore hd tc x =>
      (called s OpPop ∨ called s OpPopCached) ∧ hd = enc (gH g) ∧ more g tc ∧ mine g (Emptied t) (gH g) [x]
  | BPopLoad len => called s (OpPopBatch len)
  | BPopTail len hd => called s (OpPopBatch len) ∧ hd = enc (gH g)
  | BPopWalk len tc hd out =>
      called s (OpPopBatch len) ∧ (length out < len)%nat ∧ hint g tc ∧ walked g t hd out
  | BPopRead len tc hd out =>
      called s (OpPopBatch len) ∧ (length out < len)%nat ∧ hint g tc ∧ walked g t hd out ∧
      gH g + Z.of_nat (length out) < gT g ∧ gst g (gH g + Z.of_nat (length out)) = Ready
  | BPopStore tc hd out =>
      (∃ len, called s (OpPopBatch len) ∧ (length out ≤ len)%nat) ∧ out ≠ [] ∧ hint g tc ∧ walked g t hd out
  | Empty1 => called s OpIsEmpty
  | Empty2 hd =>
      called s OpIsEmpty ∧ ∃ k, hd = enc k ∧ 0 ≤ k ≤ gH g ∧ (k < gH g → seen_some s (λ l, l ≠ []))
  | Full1 => called s OpIsFull
  | Full2 tl =>
      called s OpIsFull ∧ ∃ k, tl = enc k ∧ 0 ≤ k ≤ gT g ∧
      (k < gT g → seen_some s (λ l, Z.of_nat (length l) < cap))
  | Len1 => called s OpLen
  | Len2 tl => called s OpLen ∧ ∃ k, tl = enc k ∧ 0 ≤ k ≤ gT g
  | Len3 tl hd =>
      called s OpLen ∧ ∃ k j, tl = enc k ∧ hd = enc j ∧ 0 ≤ k ≤ gT g ∧
      (k = gT g → 0 ≤ k - j ≤ cap ∧ seen_some s (λ l, Z.of_nat (length l) = k - j))
  end.


(** *** What the steps of other threads preserve *)

Record env t (p : Pc A) g s g' s' : Prop := {
  e_H : gH g ≤ gH g';
  e_log : glog g `prefix_of` glog g';
  e_own k : k < gT g → owner (gst g k) = Some t → gst g' k = gst g k;
  e_ready k : popping p = true → k < gT g → gst g k = Ready → gst g' k = Ready;
  e_pop : popping p = true → gH g' = gH g;
  e_grows : grows s s';
  e_room o : gT g < gT g' → called s o → seen_some s' (λ l, Z.of_nat (length l) < cap);
  e_some o : gH g < gH g' → called s o → seen_some s' (λ l, l ≠ []);
}.

Lemma mp_env_T t p g s g' s' : env t p g s g' s' → gT g ≤ gT g'.
Proof. intros He. pose proof (e_log _ _ _ _ _ _ He) as Hl. apply prefix_length in Hl. unfold gT. lia. Qed.

Lemma mp_env_mine t p g s g' s' ph k xs :
  env t p g s g' s' → owner ph = Some t → mine g ph k xs → mine g' ph k xs.
Proof.
  intros He Ho (H0 & Hb & Hm). pose proof (mp_env_T _ _ _ _ _ _ He). split_and!; [done|lia|].
  intros j x Hx. destruct (Hm j x Hx) as [Hp Hl]. apply lookup_lt_Some in Hx. split.
  - rewrite <- Hp. apply (e_own _ _ _ _ _ _ He); [lia|by rewrite Hp].
  - destruct (e_log _ _ _ _ _ _ He) as [r Hr]. unfold logged. rewrite Hr. by apply lookup_app_l_Some.
Qed.

Lemma mp_env_claim t p g s g' s' sv hc n : env t p g s g' s' → may_claim g sv hc n → may_claim g' sv hc n.
Proof.
  intros He (kt & kh & h & (-> & ? & ? & ?) & -> & ? & Hn). pose proof (mp_env_T _ _ _ _ _ _ He).
  pose proof (e_H _ _ _ _ _ _ He). exists kt, kh, h. split; [split_and!; try done; lia|].
  split_and!; [done|lia|lia|]. intros ->. apply Hn. lia.
Qed.

Lemma mp_env_full t p g s g' s' sv : env t p g s g' s' → looks_full g sv → looks_full g' sv.
Proof.
  intros He (kt & kh & (-> & ? & ? & ?) & ->). pose proof (mp_env_T _ _ _ _ _ _ He).
  pose proof (e_H _ _ _ _ _ _ He). exists (kh + cap), kh. split_and!; try done. split_and!; try done; lia.
Qed.

Lemma mp_env_hint t p g s g' s' tc : env t p g s g' s' → popping p = true → hint g tc → hint g' tc.
Proof.
  intros He Hp (N & -> & ?). pose proof (mp_env_T _ _ _ _ _ _ He). exists N.
  rewrite (e_pop _ _ _ _ _ _ He) by done. split; [done|lia].
Qed.

Lemma mp_env_more t p g s g' s' tc : env t p g s g' s' → popping p = true → more g tc → more g' tc.
Proof.
  intros He Hp (N & -> & ?). pose proof (mp_env_T _ _ _ _ _ _ He). exists N.
  rewrite (e_pop _ _ _ _ _ _ He) by done. split; [done|lia].
Qed.

Lemma mp_env_walked t p g s g' s' hd out :
  env t p g s g' s' → popping p = true → walked g t hd out → walked g' t hd out.
Proof.
  intros He Hp [-> Hm]. split; rewrite (e_pop _ _ _ _ _ _ He) by done; [done|]. by eapply mp_env_mine.
Qed.

#[local] Hint Resolve grows_called grows_seen grows_answered grows_decided mp_env_claim mp_env_full
  mp_env_hint mp_env_more mp_env_walked : mq.

Lemma mp_TI_env t p g s g' s' : env t p g s g' s' → TI g t p s → TI g' t p s'.
Proof.
  intros He. pose proof (mp_env_T _ _ _ _ _ _ He) as HT. pose proof (e_H _ _ _ _ _ _ He) as HH.
  pose proof (e_grows _ _ _ _ _ _ He) as Hg.
  assert (called s OpPop ∨ called s OpPopCached → called s' OpPop ∨ called s' OpPopCached) as Hpc.
  { intros [?|?]; [left|right]; by eauto with mq. }
  destruct p; cbn [TI]; try (by eauto with mq).
  - by intros ->.
  - intros [->|Ha]; [by left|right; by eapply grows_answered].
  - naive_solver eauto with mq.
  - intros (? & Hc & Hi). split_and!; by eauto with mq.
  - intros (? & Hc & Hi). split; [done|]. split; by eauto with mq.
  - naive_solver eauto with mq.
  - intros (? & Hc & Hi). split_and!; by eauto with mq.
  - intros (? & Hc & ? & Hi). split; [done|]. split; [by eauto with mq|]. split; [done|]. by eauto with mq.
  - intros (Hc & Hn & i & -> & Hm). split; [by eauto with mq|]. split; [done|]. exists i.
    split; [done|]. by eapply mp_env_mine.
  - intros (Hc & i & -> & Hk & Hp & Hm). split; [by eauto with mq|]. exists i. split; [done|]. split; [lia|].
    split; [|by eapply mp_env_mine]. rewrite <- Hp. apply (e_own _ _ _ _ _ _ He); [lia|by rewrite Hp].
  - intros (Hc & ->). rewrite (e_pop _ _ _ _ _ _ He) by done. split; by eauto with mq.
  - intros (Hc & -> & Hm). split; [by auto|]. split; [by rewrite (e_pop _ _ _ _ _ _ He)|]. by eauto with mq.
  - intros (Hc & -> & Hm & Hr). split; [by auto|]. split; [by rewrite (e_pop _ _ _ _ _ _ He)|].
    split; [by eauto with mq|]. rewrite (e_pop _ _ _ _ _ _ He) by done.
    apply (e_ready _ _ _ _ _ _ He); [done| |done]. destruct Hm as (N & _ & ?). lia.
  - intros (Hc & -> & Hm & Hr). split; [by auto|]. split; [by rewrite (e_pop _ _ _ _ _ _ He)|].
    split; [by eauto with mq|]. rewrite (e_pop _ _ _ _ _ _ He) by done. by eapply mp_env_mine.
  - intros (Hc & ->). rewrite (e_pop _ _ _ _ _ _ He) by done. split; by eauto with mq.
  - intros (Hc & ? & Hh & Hw). split; [by eauto with mq|]. split; [done|]. split; by eauto with mq.
  - intros (Hc & ? & Hh & Hw & Hlt & Hr). rewrite (e_pop _ _ _ _ _ _ He) by done.
    split; [by eauto with mq|]. split; [done|]. split; [by eauto with mq|]. split; [by eauto with mq|].
    split; [lia|]. by apply (e_ready _ _ _ _ _ _ He).
  - intros ((len & Hc & ?) & ? & Hh & Hw). split; [exists len; split; by eauto with mq|]. split; [done|]. split; by eauto with mq.
  - intros (Hc & i & -> & Hk & Hs). split; [by eauto with mq|]. exists i. split_and!; [done|lia..|].
    intros Hlt. destruct (decide (i < gH g)); [by eauto with mq|]. eapply (e_some _ _ _ _ _ _ He); [lia|done].
  - intros (Hc & i & -> & Hk & Hs). split; [by eauto with mq|]. exists i. split_and!; [done|lia..|].
    intros Hlt. destruct (decide (i < gT g)); [by eauto with mq|]. eapply (e_room _ _ _ _ _ _ He); [lia|done].
  - intros (Hc & i & -> & Hk). split; [by eauto with mq|]. exists i. split; [done|lia].
  - intros (Hc & i & j & -> & -> & Hk & Hs). split; [by eauto with mq|]. exists i, j. split_and!; [done..|lia|lia|].
    intros Hk'. destruct Hs as [? Hs]; [lia|]. split; [done|by eauto with mq].
Qed.

(** *** Slots and cursors *)

Lemma mp_fits q g k : QInv q g → 0 ≤ k ≤ gT g → fits k.
Proof. intros Hq Hk. eapply (fits_le cap L Hcap Hroom U32 ltac:(lia)); [|exact (qi_fits _ _ Hq)]. lia. Qed.

Lemma mp_word q g k : QInv q g → 0 ≤ k ≤ gT g → is_word U32 (enc k).
Proof. intros Hq Hk. apply (fits_word cap L Hcap HL Hroom). by eapply mp_fits. Qed.

Lemma mp_full q g : QInv q g → gT g ≤ gH g + cap.
Proof. intros Hq. destruct (qi_send _ _ Hq) as (S & _ & ? & ?). lia. Qed.

Lemma sender_words q g :
  QInv q g → ∃ S, sender q = pack32 (enc S) (enc (gT g)) ∧ 0 ≤ S ≤ gH g ∧ gT g ≤ S + cap ∧
  lo32 (sender q) = enc (gT g) ∧ hi32 (sender q) = enc S.
Proof.
  intros Hq. destruct (qi_send _ _ Hq) as (S & -> & ? & ?). pose proof (qi_le _ _ Hq). exists S.
  rewrite lo32_pack, hi32_pack by (eapply mp_word; [done|lia]). done.
Qed.

Lemma recv_words q g :
  QInv q g → ∃ N, recv q = pack32 (enc N) (enc (gH g)) ∧ gH g ≤ N ≤ gT g ∧
  lo32 (recv q) = enc (gH g) ∧ hi32 (recv q) = enc N.
Proof.
  intros Hq. destruct (qi_recv _ _ Hq) as (N & -> & ?). pose proof (qi_le _ _ Hq). exists N.
  rewrite lo32_pack, hi32_pack by (eapply mp_word; [done|lia]). done.
Qed.

Lemma old_words q g sv kt kh : QInv q g → old_sender g sv kt kh → lo32 sv = enc kt ∧ hi32 sv = enc kh.
Proof.
  intros Hq (-> & ? & ? & ?). pose proof (qi_le _ _ Hq).
  rewrite lo32_pack, hi32_pack by (eapply mp_word; [done|lia]). done.
Qed.

Lemma mp_slot q g k :
  QInv q g → gH g ≤ k < gT g → slot_at q (index_of (one_lap q) (enc k)) = Ret (cell g k).
Proof.
  intros Hq Hk. pose proof (mp_full _ _ Hq). rewrite (qi_lap _ _ Hq), (enc_index cap L Hcap HL Hroom).
  unfold slot_at. rewrite (qi_cap _ _ Hq). pose proof (Z.mod_pos_bound k cap Hcap).
  rewrite bool_decide_eq_true_2 by lia. cbn. by rewrite (qi_buf _ _ Hq) by lia.
Qed.

(** The consumer's test: its stamp is there exactly when the position is
    written. *)
Lemma mp_stamp q g k :
  QInv q g → gH g ≤ k ≤ gT g →
  ∃ sl, slot_at q (index_of (one_lap q) (enc k)) = Ret sl ∧
  (stamp sl = enc k + 1 → k < gT g ∧ (gst g k = Ready ∨ ∃ t, gst g k = Emptied t)).
Proof.
  intros Hq Hk. pose proof (mp_full _ _ Hq) as Hfull. pose proof (qi_le _ _ Hq) as Hle.
  assert (∀ j, enc (j - cap) + 1 ≠ enc j + 1) as Hlap.
  { intros j He. assert (j - cap = j) by (apply (enc_pos_inj cap L Hcap Hroom); lia). lia. }
  assert (∀ j, left_stamp (j - cap) ≠ enc j + 1) as Hleft.
  { intros j. unfold left_stamp. case_decide; [|apply Hlap]. replace (j - cap + cap) with j by lia. lia. }
  destruct (decide (k = gT g)) as [->|Hne].
  - exists (cell g (gT g - cap)). split.
    + rewrite (qi_lap _ _ Hq), (enc_index cap L Hcap HL Hroom). unfold slot_at. rewrite (qi_cap _ _ Hq).
      pose proof (Z.mod_pos_bound (gT g) cap Hcap). rewrite bool_decide_eq_true_2 by lia. cbn.
      replace (gT g mod cap) with ((gT g - cap) mod cap).
      * by rewrite (qi_buf _ _ Hq) by lia.
      * rewrite <- (Z_mod_plus_full (gT g - cap) 1 cap). f_equal. lia.
    + destruct (decide (gT g - cap < gH g)) as [Hlt|Hge].
      * unfold cell. rewrite (qi_done _ _ Hq) by done. intros He. by destruct (Hleft (gT g)).
      * assert (gT g - cap = gH g) by lia. pose proof (qi_live _ _ Hq (gT g - cap) ltac:(lia)) as Hl.
        unfold cell. destruct (gst g (gT g - cap)); try done; cbn; intros He; exfalso;
          try (by eapply Hlap); revert He; unfold left_stamp; case_decide; intros He.
        -- assert (gT g - cap = gT g); [|lia]. replace (gT g - cap - cap + cap) with (gT g - cap) in He by lia.
           by destruct (enc_succ_ne cap L Hcap Hroom (gT g) (gT g - cap));
             [rewrite <- (Z_mod_plus_full (gT g - cap) 1 cap); f_equal; lia|].
        -- assert (gT g - cap - cap = gT g) by (apply (enc_pos_inj cap L Hcap Hroom); lia). lia.
        -- replace (gT g - cap - cap + cap) with (gT g - cap) in He by lia.
           by destruct (enc_succ_ne cap L Hcap Hroom (gT g) (gT g - cap));
             [rewrite <- (Z_mod_plus_full (gT g - cap) 1 cap); f_equal; lia|].
        -- assert (gT g - cap - cap = gT g) by (apply (enc_pos_inj cap L Hcap Hroom); lia). lia.
  - exists (cell g k). split; [by apply mp_slot; [|lia]|]. pose proof (qi_live _ _ Hq k ltac:(lia)) as Hl.
    intros He. split; [lia|]. unfold cell in He. destruct (gst g k); try done; cbn in He; [by destruct (Hleft k)..|by left|].
    right. by eexists.
Qed.

(** *** Moves *)

Lemma mq_slot q g k p :
  QInv q g → gH g ≤ k < gT g → live p →
  QInv (set_slot q (index_of (one_lap q) (enc k)) (cell (set_phase g k p) k)) (set_phase g k p).
Proof.
  intros Hq Hk Hp. pose proof Hq as []. pose proof (mp_full _ _ Hq). rewrite qi_lap0, (enc_index cap L Hcap HL Hroom).
  pose proof (Z.mod_pos_bound k cap Hcap) as Hb.
  split; cbn [set_slot set_phase capacity one_lap sender recv buffer gH glog gst]; try done.
  - unfold capacity in *. cbn. by rewrite length_insert.
  - intros j Hj. change (gT (set_phase g k p)) with (gT g) in Hj. destruct (decide (j = k)) as [->|Hne].
    + apply list_lookup_insert_eq. unfold capacity in *. lia.
    + pose proof (Z.mod_pos_bound j cap Hcap). rewrite list_lookup_insert_ne.
      * rewrite qi_buf0 by done. f_equal. unfold cell. cbn. by rewrite fn_lookup_insert_ne.
      * intros He. assert (k = j) by (apply (same_slot cap Hcap); lia). done.
  - intros j Hj. destruct (decide (j = k)) as [->|Hne]; [by rewrite fn_lookup_insert|rewrite fn_lookup_insert_ne by done; auto].
  - intros j Hj. rewrite fn_lookup_insert_ne by lia. auto.
Qed.

Lemma mq_claim q g t xs h :
  QInv q g → 0 ≤ h ≤ gH g → gT g + Z.of_nat (length xs) ≤ h + cap → fits (gT g + Z.of_nat (length xs)) →
  QInv (set_sender q (pack32 (enc h) (enc (gT g + Z.of_nat (length xs))))) (claim g t xs).
Proof.
  intros Hq Hh Hn Hf. pose proof Hq as []. set (n := Z.of_nat (length xs)) in *.
  assert (gT (claim g t xs) = gT g + n) as HT by apply T_app.
  split; rewrite ?HT; try done; cbn [set_sender claim capacity one_lap sender recv buffer gH glog gst].
  - lia.
  - exists h. split_and!; [done|lia..].
  - destruct qi_recv0 as (N & -> & ?). exists N. split; [done|lia].
  - intros k Hk. unfold cell. cbn. case_decide.
    + specialize (qi_buf0 (k - cap) ltac:(lia)). unfold cell in qi_buf0. rewrite qi_done0 in qi_buf0 by lia.
      rewrite <- qi_buf0. f_equal. f_equal. rewrite <- (Z_mod_plus_full (k - cap) 1 cap). f_equal. lia.
    + rewrite qi_buf0 by lia. f_equal. unfold cell, logged. cbn. destruct (decide (k < 0)).
      { by rewrite qi_done0 by lia. }
      rewrite lookup_app_l; [done|]. unfold gT in *. lia.
  - intros k Hk. case_decide; [done|]. apply qi_live0. lia.
  - intros k Hk. rewrite decide_False by lia. by apply qi_done0.
Qed.

Definition retire g (n : nat) : Ghost A :=
  mkGhost (gH g + Z.of_nat n) (glog g) (λ k, if decide (gH g ≤ k < gH g + Z.of_nat n) then Done else gst g k).

Lemma mq_retire q g t n N :
  QInv q g → gH g + Z.of_nat n ≤ N ≤ gT g → (∀ j, 0 ≤ j < Z.of_nat n → gst g (gH g + j) = Emptied t) →
  QInv (set_recv q (pack32 (enc N) (enc (gH g + Z.of_nat n)))) (retire g n).
Proof.
  intros Hq HN Hr. pose proof Hq as []. change (gT (retire g n)) with (gT g).
  split; cbn [set_recv retire capacity one_lap sender recv buffer gH glog gst]; try done;
    change (gT (retire g n)) with (gT g).
  - unfold gT in *. cbn. lia.
  - destruct qi_send0 as (S & -> & ? & ?). exists S. split_and!; [done|lia..].
  - exists N. split; [done|lia].
  - intros k Hk. rewrite qi_buf0 by done. f_equal. unfold cell. cbn. case_decide; [|done].
    replace k with (gH g + (k - gH g)) at 1 by lia. rewrite Hr by lia. unfold left_stamp.
    by rewrite decide_False by lia.
  - intros k Hk. rewrite decide_False by lia. apply qi_live0. lia.
  - intros k Hk. case_decide; [done|]. apply qi_done0. lia.
Qed.

(** *** One step of one thread *)

Definition Effect t (p : Pc A) g s (e : event A) g' s' : Prop :=
  match e with
  | Tau => gH g' = gH g ∧ glog g' = glog g ∧ s' = s
  | Enq u xs =>
      u = t ∧ gH g' = gH g ∧ glog g' = glog g ++ xs ∧ Z.of_nat (length (contents g ++ xs)) ≤ cap ∧
      ∃ o seen r, s = ACalled o seen ∧ enq_ok o xs r ∧ s' = ADecided r ∧ xs ≠ []
  | Deq u n =>
      u = t ∧ popping p = true ∧ gH g' = gH g + Z.of_nat n ∧ glog g' = glog g ∧
      (0 < n ≤ length (contents g))%nat ∧
      ∃ o seen r, s = ACalled o seen ∧ deq_ok o (take n (contents g)) r ∧ s' = ADecided r
  | _ => False
  end.
Definition frame t (p : Pc A) g g' : Prop :=
  ∀ k, k < gT g → gst g' k = gst g k ∨ owner (gst g k) = Some t ∨ popping p = true ∧ gst g k = Ready.

Definition covers (p : Pc A) (k : Z) : Prop :=
  match p with
  | Write _ e vs => ∃ j, e = enc j ∧ j ≤ k < j + Z.of_nat (length vs)
  | Publish _ e vs => ∃ j, e = enc j ∧ j ≤ k < j + 1 + Z.of_nat (length vs)
  | PopStore e _ _ => e = enc k
  | BPopWalk _ _ e out | BPopRead _ _ e out | BPopStore _ e out =>
      ∃ j, e = enc j ∧ j - Z.of_nat (length out) ≤ k < j
  | _ => False
  end.
Definition owned g t (p : Pc A) : Prop := ∀ k, k < gT g → owner (gst g k) = Some t → covers p k.
Definition owners t g g' (p' : Pc A) : Prop :=
  ∀ k u, k < gT g' → owner (gst g' k) = Some u →
  (u = t ∧ covers p' k) ∨ (u ≠ t ∧ k < gT g ∧ owner (gst g k) = Some u).
(** The consumer owns every emptied position. *)
Definition emptied_ok g (p : Pc A) : Prop :=
  popping p = true → ∀ k u, k < gT g → gst g k = Emptied u → covers p k.

Definition StepOK q g t (spurious : bool) (p : Pc A) s : Prop :=
  ∃ q' p' e, code_step q t spurious p = Ret (q', p', e) ∧
    (fits (gT g + Z.of_nat (length (enqueued [e]))) →
     ∃ g' s', QInv q' g' ∧ TI g' t p' s' ∧ Effect t p g s e g' s' ∧ frame t p g g' ∧
       (owned g t p → owners t g g' p')).

Lemma mp_local q g t sp p s p' :
  QInv q g → code_step q t sp p = Ret (q, p', Tau) → TI g t p' s → (∀ k, covers p k → covers p' k) →
  StepOK q g t sp p s.
Proof.
  intros Hq Hc Ht Hcov. exists q, p', Tau. split; [done|]. intros _. exists g, s.
  split_and!; try done; [by left|]. intros Ho k u Hk Hu. destruct (decide (u = t)) as [->|]; auto.
Qed.

Lemma mp_phase q g t sp p s p' k ph :
  QInv q g → gH g ≤ k < gT g → owner (gst g k) = Some t ∨ popping p = true ∧ gst g k = Ready → live ph →
  code_step q t sp p = Ret (set_slot q (index_of (one_lap q) (enc k)) (cell (set_phase g k ph) k), p', Tau) →
  TI (set_phase g k ph) t p' s →
  (owner ph = None ∨ owner ph = Some t ∧ covers p' k) → (∀ j, j ≠ k → covers p j → covers p' j) →
  StepOK q g t sp p s.
Proof.
  intros Hq Hk Ho Hp Hc Ht Hph Hcov. eexists _, p', Tau. split; [exact Hc|]. intros _. exists (set_phase g k ph), s.
  split_and!; try done; [by apply mq_slot|..].
  - intros j Hj. cbn. destruct (decide (j = k)) as [->|]; [by auto|]. rewrite fn_lookup_insert_ne by done. auto.
  - intros Hown j u Hj. cbn. destruct (decide (j = k)) as [->|].
    + rewrite fn_lookup_insert. destruct Hph as [->|[-> ?]]; [done|]. intros [= <-]. by left.
    + rewrite fn_lookup_insert_ne by done. intros Hu. destruct (decide (u = t)) as [->|]; auto.
Qed.

Lemma mp_length q g : QInv q g → Z.of_nat (length (contents g)) = gT g - gH g.
Proof. intros Hq. pose proof (qi_le _ _ Hq). unfold contents, gT in *. rewrite length_drop. lia. Qed.

Lemma mp_nil q g : QInv q g → contents g = [] ↔ gT g = gH g.
Proof. intros Hq. pose proof (mp_length _ _ Hq). rewrite <- length_zero_iff_nil. lia. Qed.

Lemma mp_answer_now g s o r : SI g s → called s o → answer_ok cap o r (contents g) → answered cap s r.
Proof. intros Hs [seen ->] Ha. exists o, seen, (contents g). done. Qed.

Lemma mp_seen_now g s o P : SI g s → called s o → P (contents g) → seen_some s P.
Proof. intros Hs [seen ->] Ha. exists o, seen, (contents g). done. Qed.

Lemma mp_claim_step q g t sp p s kd xs o h :
  QInv q g → (∀ k, ¬ covers p k) → called s o → enq_ok o xs (pushed kd) → xs ≠ [] →
  0 ≤ h ≤ gH g → gT g + Z.of_nat (length xs) ≤ h + cap →
  (fits (gT g + Z.of_nat (length xs)) →
   code_step q t sp p = Ret (set_sender q (pack32 (enc h) (enc (gT g + Z.of_nat (length xs)))),
                             Write kd (enc (gT g)) xs, Enq t xs)) →
  (∃ q' p', code_step q t sp p = Ret (q', p', Enq t xs)) →
  StepOK q g t sp p s.
Proof.
  intros Hq Hncov [seen ->] Ho Hx Hh Hb Hc (q' & p' & Hc'). eexists q', p', _. split; [exact Hc'|]. intros Hf.
  cbn in Hf. rewrite app_nil_r in Hf. rewrite (Hc Hf) in Hc'. injection Hc' as <- <-.
  exists (claim g t xs), (ADecided (pushed kd)).
  pose proof (mp_length _ _ Hq) as Hl. pose proof (mq_claim q g t xs h Hq Hh Hb Hf) as Hq'.
  assert (gT (claim g t xs) = gT g + Z.of_nat (length xs)) as HT by apply T_app.
  split_and!; [done|..].
  - split_and!; [done..|]. exists (gT g). split; [done|]. split_and!; [unfold gT; lia|lia|].
    intros j x Hj. pose proof (lookup_lt_Some _ _ _ Hj). cbn. rewrite decide_True by lia. split; [done|].
    unfold logged. cbn. rewrite lookup_app_r by (unfold gT; lia). rewrite <- Hj. f_equal. unfold gT. lia.
  - cbn. split_and!; try done; [|by exists o, seen, (pushed kd)].
    rewrite length_app. lia.
  - intros k Hk'. cbn. rewrite decide_False by lia. by left.
  - intros Hown k u Hk'. cbn. case_decide; [intros [= <-]; left; split; [done|]; by exists (gT g)|].
    intros Hu. assert (k < gT g). { rewrite HT in Hk'. destruct (decide (gT g ≤ k)); lia. }
    destruct (decide (u = t)) as [->|]; [|by auto]. by destruct (Hncov k); apply Hown.
Qed.

(** Publishing the new head after [out] was taken out. *)
Lemma mp_retire_step q g t sp p s r out o N :
  QInv q g → popping p = true → (∀ k, covers p k → k < gH g + Z.of_nat (length out)) →
  called s o → deq_ok o out r → out ≠ [] →
  mine g (Emptied t) (gH g) out → gH g + Z.of_nat (length out) ≤ N ≤ gT g →
  code_step q t sp p =
    Ret (set_recv q (pack32 (enc N) (enc (gH g + Z.of_nat (length out)))), Returning r, Deq t (length out)) →
  StepOK q g t sp p s.
Proof.
  intros Hq Hp Hcov [seen ->] Ho Hx (H0 & Hb & Hm) HN Hc. eexists _, _, _. split; [exact Hc|]. intros _.
  exists (retire g (length out)), (ADecided r). pose proof (mp_length _ _ Hq) as Hl.
  assert (∀ j, 0 ≤ j < Z.of_nat (length out) → gst g (gH g + j) = Emptied t) as Hst.
  { intros j Hj. destruct (lookup_lt_is_Some_2 out (Z.to_nat j)) as [x Hx']; [lia|].
    destruct (Hm _ _ Hx') as [He _]. by replace (Z.of_nat (Z.to_nat j)) with j in He by lia. }
  assert (take (length out) (contents g) = out) as Htk.
  { apply list_eq_same_length with (length out); [done|rewrite length_take; lia|].
    intros i x y Hi Hx1 Hx2. apply lookup_take_Some in Hx1 as [Hx1 _]. destruct (Hm i y Hx2) as [_ Hy].
    unfold logged, contents in *. rewrite lookup_drop in Hx1. replace (Z.to_nat (gH g + Z.of_nat i)) with (Z.to_nat (gH g) + i)%nat in Hy by lia.
    congruence. }
  split_and!; [by eapply mq_retire|by left| | |].
  - cbn. split_and!; try done; [destruct out; cbn in *; [done|lia]|lia|]. exists o, seen, r. by rewrite Htk.
  - intros k Hk. cbn. case_decide; [|by left]. right; left.
    replace k with (gH g + (k - gH g)) by lia. by rewrite Hst by lia.
  - intros Hown k u Hk. change (gT (retire g (length out))) with (gT g) in Hk. cbn. case_decide; [done|].
    intros Hu. destruct (decide (u = t)) as [->|]; [|by auto]. exfalso.
    pose proof (Hcov k (Hown k Hk Hu)). assert (k < gH g) by lia. by rewrite (qi_done _ _ Hq) in Hu.
Qed.

(** *** Pushes *)

Ltac code := cbn [code_step push_step push_batch_step write_step pop_step pop_batch_step query_step].

Lemma mp_lap32 q g : QInv q g → L < 2 ^ U32.
Proof.
  intros Hq. destruct (fits_enc cap L Hcap HL Hroom U32 ltac:(lia) _ (mp_fits q g 0 Hq ltac:(pose proof (qi_le _ _ Hq); lia))) as (? & ? & _).
  lia.
Qed.

Lemma mp_advance q g k :
  QInv q g → 0 ≤ k ≤ gT g → advance U32 (one_lap q) (capacity q) (enc k) = Ret (enc (k + 1)).
Proof.
  intros Hq Hk. rewrite (qi_lap _ _ Hq), (qi_cap _ _ Hq).
  apply (advance_enc cap L Hcap HL Hroom U32); [lia|]. by eapply mp_fits.
Qed.

Lemma mp_add_lap q g k : QInv q g → 0 ≤ k ≤ gT g → wrapping_add U32 (enc k) (one_lap q) = enc (k + cap).
Proof.
  intros Hq Hk. rewrite (qi_lap _ _ Hq). apply (enc_add_lap cap L Hcap HL Hroom U32); [lia|]. by eapply mp_fits.
Qed.

Lemma mp_sender_now q g : QInv q g → ∃ S, old_sender g (sender q) (gT g) S ∧ gT g ≤ S + cap ∧
  full_hint q (sender q) = bool_decide (gT g = S + cap) ∧ hi32 (sender q) = enc S.
Proof.
  intros Hq. destruct (sender_words q g Hq) as (S & Hs & HS & HT & Hlo & Hhi). pose proof (qi_le _ _ Hq).
  exists S. split; [split_and!; (done || lia)|]. split; [done|]. split; [|done].
  unfold full_hint. rewrite Hlo, Hhi, (mp_add_lap q g) by (done || lia).
  apply bool_decide_ext. rewrite enc_eq by done. lia.
Qed.

Lemma push_check_ok q g t s kd x :
  QInv q g → single kd = true → called s (push_of kd x) → TI g t (push_check q kd x (sender q)) s.
Proof.
  intros Hq Hk Hs. destruct (mp_sender_now q g Hq) as (S & Ho & HT & Hf & Hhi). unfold push_check.
  rewrite Hf, Hhi. case_bool_decide.
  - split; [done|]. split; [done|]. by exists (gT g), S.
  - split; [done|]. split; [done|]. exists (gT g), S, S. split; [done|]. destruct Ho as (_ & ? & _).
    split_and!; [done|lia..].
Qed.

Lemma mp_push_full_ok q g t sp s kd x sv :
  QInv q g → SI g s → single kd = true → called s (push_of kd x) → looks_full g sv →
  StepOK q g t sp (PushFull kd x sv) s.
Proof.
  intros Hq HS Hk Hs (kt & kh & Ho & He). pose proof Ho as (_ & ? & ? & _).
  destruct (recv_words q g Hq) as (N & _ & _ & Hlo & _). destruct (old_words _ _ _ _ _ Hq Ho) as [_ Hhi].
  pose proof (mp_full _ _ Hq) as Hfull. pose proof (mp_length _ _ Hq) as Hl.
  destruct (decide (gH g = kh)) as [Hh|Hh].
  - eapply mp_local; [done|code; rewrite Hlo, Hhi, Hh; by rewrite bool_decide_eq_true_2| |done]. right.
    eapply mp_answer_now; [done..|]. destruct kd; cbn; lia || done.
  - eapply mp_local; [done|code; rewrite Hlo, Hhi, bool_decide_eq_false_2; [done|by rewrite enc_eq]| |done].
    split; [done|]. split; [done|]. exists kt, kh, (gH g). split; [done|].
    pose proof (qi_le _ _ Hq). split_and!; [done|lia..].
Qed.

Lemma mp_push_cas_ok q g t sp s kd x sv hc :
  QInv q g → SI g s → single kd = true → called s (push_of kd x) → may_claim g sv hc 1 →
  StepOK q g t sp (PushCas kd x sv hc) s.
Proof.
  intros Hq HS Hk Hs (kt & kh & h & Ho & -> & Hh & Hroom'). pose proof Ho as (Hsv & ? & ? & _).
  destruct (old_words _ _ _ _ _ Hq Ho) as [Hlo _]. destruct (sender_words q g Hq) as (S & Hsend & ? & ? & _).
  destruct (bool_decide (sender q = sv) && negb sp) eqn:Hc.
  - assert (kt = gT g) as ->.
    { apply andb_true_iff in Hc as [Hc _]. apply bool_decide_eq_true in Hc. rewrite Hsend, Hsv in Hc.
      pose proof (qi_le _ _ Hq). apply pack32_inj in Hc as [_ Hc]; try (eapply mp_word; [done|lia]).
      symmetry. by apply (enc_pos_inj cap L Hcap Hroom). }
    eapply (mp_claim_step _ _ _ _ _ _ kd [x] _ h); try done; [by intros ? ?|by destruct kd|by apply Hroom'|..].
    + intros _. code. rewrite Hlo, (mp_advance q g) by (done || lia). cbn [mbind outcome_mbind]. by rewrite Hc.
    + eexists _, _. code. rewrite Hlo, (mp_advance q g) by (done || lia). cbn [mbind outcome_mbind]. by rewrite Hc.
  - assert (code_step q t sp (PushCas kd x sv (enc h)) =
      Ret (q, match kd with KPush => push_check q kd x (sender q) | _ => Returning (ROneshot None) end, Tau)) as Hcode.
    { code. rewrite Hlo, (mp_advance q g) by (done || lia). cbn [mbind outcome_mbind]. rewrite Hc. by destruct kd. }
    eapply mp_local; [done|exact Hcode| |by intros ? []]. destruct kd; [by apply push_check_ok| |done].
    right. by eapply mp_answer_now.
Qed.

Lemma mp_push_ok q g t sp p s :
  QInv q g → SI g s → TI g t p s →
  match p with PushLoad _ _ | PushFull _ _ _ | PushCas _ _ _ _ => True | _ => False end → StepOK q g t sp p s.
Proof.
  intros Hq HS HT Hp. destruct p; try done; clear Hp; cbn [TI] in HT.
  - destruct HT as [Hk Hs]. eapply mp_local; [done|reflexivity| |by intros ? []]. by apply push_check_ok.
  - destruct HT as (Hk & Hs & Hf). by apply mp_push_full_ok.
  - destruct HT as (Hk & Hs & Hf). by apply mp_push_cas_ok.
Qed.

(** *** Batched pushes *)

Lemma mp_lap31 q g : QInv q g → 2 * L ≤ 2 ^ U32.
Proof.
  intros Hq. pose proof (mp_lap32 q g Hq) as H. destruct HL as (n & Hn & ->).
  assert (n < 32) by (apply (Z.pow_lt_mono_r_iff 2); lia).
  rewrite <- Z.pow_succ_r by done. apply Z.pow_le_mono_r; lia.
Qed.

Lemma batch_free q g kt h :
  QInv q g → 0 ≤ h ≤ gH g → 0 ≤ kt ≤ gT g → kt ≠ h + cap → (kt = gT g → gT g ≤ h + cap) →
  ∃ n, real_positions L cap (enc kt) (enc (h + cap)) = Ret n ∧ 0 < n ∧ (kt = gT g → kt + n ≤ h + cap).
Proof.
  intros Hq Hh Hk Hne Hr. pose proof (qi_le _ _ Hq). pose proof (mp_full _ _ Hq).
  destruct (decide (kt = gT g)) as [->|Hold].
  - assert (is_word U32 (enc (h + cap))) as Hw.
    { destruct (fits_enc cap L Hcap HL Hroom U32 ltac:(lia) h (mp_fits q g h Hq ltac:(lia))) as (? & Hb & _).
      rewrite <- (enc_lap cap L Hcap). pose proof (pow2_pos _ HL). unfold is_word. lia. }
    exists (h + cap - gT g). split; [|lia].
    apply (real_positions_enc cap L Hcap HL Hroom); try lia; [|done|by eapply mp_lap32].
    eapply mp_word; [done|lia].
  - destruct (real_positions_pos cap L Hcap HL Hroom kt (h + cap)) as (n & Hp & Hn);
      [by rewrite enc_eq|by eapply mp_lap31|]. exists n. by split_and!.
Qed.

Lemma batch_claim_ok q g t s vs attempt sv kt kh h :
  QInv q g → vs ≠ [] → called s (OpPushBatch vs) → old_sender g sv kt kh → 0 ≤ h ≤ gH g → kt ≠ h + cap →
  (kt = gT g → gT g ≤ h + cap) →
  ∃ p', batch_claim q vs attempt sv (enc h) = Ret p' ∧ TI g t p' s.
Proof.
  intros Hq Hne Hs Ho Hh Hroom' Hr. destruct (old_words _ _ _ _ _ Hq Ho) as [Hlo _]. pose proof Ho as (_ & ? & ? & _).
  pose proof (qi_le _ _ Hq). unfold batch_claim. rewrite Hlo, (mp_add_lap q g) by (done || lia).
  rewrite (qi_lap _ _ Hq), (qi_cap _ _ Hq).
  destruct (batch_free q g kt h) as (n & -> & Hn & Hn'); [done..|]. cbn [mbind outcome_mbind].
  assert (0 < length vs)%nat by (destruct vs; cbn; [done|lia]).
  rewrite bool_decide_eq_true_2 by lia. cbn [guard_panic mbind outcome_mbind]. eexists. split; [done|].
  split; [done|]. split; [done|]. split; [lia|]. exists kt, kh, h. split; [done|].
  split_and!; [done|lia|lia|]. intros Hk. specialize (Hn' Hk). lia.
Qed.

Lemma batch_check_ok q g t s vs attempt :
  QInv q g → vs ≠ [] → called s (OpPushBatch vs) →
  ∃ p', batch_check q vs attempt (sender q) = Ret p' ∧ TI g t p' s.
Proof.
  intros Hq Hne Hs. destruct (mp_sender_now q g Hq) as (S & Ho & HT & Hf & Hhi). unfold batch_check.
  rewrite Hf, Hhi. case_bool_decide.
  - eexists. split; [done|]. split; [done|]. split; [done|]. by exists (gT g), S.
  - pose proof Ho as (_ & ? & _). eapply batch_claim_ok; done.
Qed.

Lemma mp_push_batch_ok q g t sp p s :
  QInv q g → SI g s → TI g t p s →
  match p with BPushLoad _ | BPushFull _ _ _ | BPushCas _ _ _ _ _ => True | _ => False end → StepOK q g t sp p s.
Proof.
  intros Hq HS HT Hp. destruct p as [| | | | |vs|vs attempt sv|vs attempt sv hc n| | | | | | | | | | | | | | | | | | |];
    try done; clear Hp; cbn [TI] in HT.
  - destruct HT as [Hne Hs]. destruct (batch_check_ok q g t s vs 0) as (p' & Hc & Ht); [done..|].
    eapply mp_local; [done|code; by rewrite Hc|done|by intros ? []].
  - destruct HT as (Hne & Hs & kt & kh & Ho & He). pose proof Ho as (_ & ? & ? & _).
    destruct (recv_words q g Hq) as (N & _ & _ & Hlo & _). destruct (old_words _ _ _ _ _ Hq Ho) as [_ Hhi].
    destruct (decide (gH g = kh)) as [Hh|Hh].
    + eapply mp_local; [done|code; rewrite Hlo, Hhi, Hh; by rewrite bool_decide_eq_true_2| |by intros ? []]. right.
      by eapply mp_answer_now.
    + pose proof (mp_full _ _ Hq). destruct (batch_claim_ok q g t s vs attempt sv kt kh (gH g)) as (p' & Hc & Ht);
        try done; [lia..|].
      eapply mp_local; [done|code; rewrite Hlo, Hhi, bool_decide_eq_false_2; [by rewrite Hc|by rewrite enc_eq]|done|by intros ? []].
  - destruct HT as (Hne & Hs & Hn & kt & kh & h & Ho & -> & Hh & Hroom'). pose proof Ho as (Hsv & ? & ? & _).
    destruct (old_words _ _ _ _ _ Hq Ho) as [Hlo _]. destruct (sender_words q g Hq) as (S' & Hsend & ? & ? & _).
    assert (length (take n vs) = n) as Hlen by (rewrite length_take; lia).
    destruct (decide (sender q = sv)) as [Hc|Hc].
    + assert (kt = gT g) as ->.
      { rewrite Hsend, Hsv in Hc. pose proof (qi_le _ _ Hq).
        apply pack32_inj in Hc as [_ Hc]; try (eapply mp_word; [done|lia]). symmetry. by apply (enc_pos_inj cap L Hcap Hroom). }
      eapply (mp_claim_step _ _ _ _ _ _ (KBatch n) (take n vs) _ h); try done; rewrite ?Hlen; [by intros ? ?|..|by apply Hroom'| |].
      * cbn. rewrite Hlen. split_and!; [intros Hnil; rewrite Hnil in Hlen; cbn in Hlen; lia|apply prefix_take|done].
      * intros Hnil. rewrite Hnil in Hlen. cbn in Hlen. lia.
      * intros Hf. code. rewrite Hlo, bool_decide_eq_true_2 by done. pose proof (qi_le _ _ Hq).
        rewrite (qi_lap _ _ Hq), (qi_cap _ _ Hq), (iter_advance cap L Hcap HL Hroom) by (done || lia). done.
      * eexists _, _. code. by rewrite bool_decide_eq_true_2.
    + destruct (batch_check_ok q g t s vs (S attempt)) as (p' & Hb & Ht); [done..|].
      destruct (decide (S attempt < 4)%nat) as [Ha|Ha];
        (eapply mp_local; [done|code; rewrite (bool_decide_eq_false_2 (sender q = sv)) by done;
          first [rewrite bool_decide_eq_true_2 by done; by rewrite Hb|by rewrite bool_decide_eq_false_2 by done]| |by intros ? []]); [done|].
      right. by eapply mp_answer_now.
Qed.

(** *** Writing the claimed slots *)

Lemma mp_add_one q g k : QInv q g → 0 ≤ k ≤ gT g → wrapping_add 64 (enc k) 1 = enc k + 1.
Proof.
  intros Hq Hk. pose proof (mp_word q g k Hq Hk) as [? ?]. unfold wrapping_add. apply wrap_small. unfold is_word. lia.
Qed.

Lemma mp_ge q g k : QInv q g → gst g k ≠ Done → gH g ≤ k.
Proof. intros Hq Hd. destruct (decide (k < gH g)); [|lia]. destruct Hd. by apply (qi_done _ _ Hq). Qed.

Lemma mp_write_ok q g t sp p s :
  QInv q g → TI g t p s → match p with Write _ _ _ | Publish _ _ _ => True | _ => False end →
  StepOK q g t sp p s.
Proof.
  intros Hq HT Hp. destruct p as [| | | | | | | |kd p vs|kd p vs| | | | | | | | | | | | | | | | |];
    try done; clear Hp; cbn [TI] in HT.
  - destruct HT as (Hs & Hne & k & -> & Hm). destruct vs as [|x vs]; [done|].
    apply mine_cons in Hm as (Hp & Hx & Hk & Hm).
    assert (gH g ≤ k) as Hw by (eapply mp_ge; [done|by rewrite Hp]).
    apply (mp_phase q g t sp _ s (Publish kd (enc k) vs) k (Written t)); rewrite ?Hp; try done; [lia|by left|..].
    + code. rewrite (mp_slot q g k) by (done || lia). cbn [mbind outcome_mbind mret outcome_mret]. unfold cell. cbn.
      by rewrite Hp, fn_lookup_insert, <- Hx.
    + split; [done|]. exists k. split; [done|]. split; [exact Hk|]. split; [cbn; by rewrite fn_lookup_insert|].
      apply mine_phase; [lia|done].
    + right. split; [done|]. exists k. split; [done|lia].
    + intros j Hj (i & Hi%(enc_pos_inj cap L Hcap Hroom) & Hb). subst i. exists k. rewrite length_cons in Hb. split; [done|lia].
  - destruct HT as (Hs & k & -> & Hk & Hp & Hm).
    assert (gH g ≤ k) as Hw by (eapply mp_ge; [done|by rewrite Hp]).
    apply (mp_phase q g t sp _ s
      (match vs with [] => Returning (pushed kd) | _ => Write kd (enc (k + 1)) vs end) k Ready);
      rewrite ?Hp; try done; [lia|by left| | |by left|].
    + code. rewrite (mp_slot q g k), (mp_add_one q g) by (done || lia). cbn [mbind outcome_mbind mret outcome_mret].
      rewrite (qi_lap _ _ Hq), (qi_cap _ _ Hq), (advance_wrapping_enc cap L Hcap HL Hroom) by (eapply mp_fits; [done|lia]).
      unfold cell. cbn. by rewrite Hp, fn_lookup_insert.
    + destruct vs as [|x vs]; [by left|]. split; [done|]. split; [done|].
      exists (k + 1). split; [done|]. apply mine_phase; [lia|done].
    + intros j Hj (i & Hi%(enc_pos_inj cap L Hcap Hroom) & Hb). subst i.
      destruct vs; [cbn in Hb; lia|]. exists (k + 1). split; [done|lia].
Qed.

(** *** Pops *)

(** The consumer's view of the position after the ones it emptied. *)
Lemma mp_stamp_ready q g p k :
  QInv q g → popping p = true → emptied_ok g p → ¬ covers p k → gH g ≤ k ≤ gT g →
  ∃ sl, slot_at q (index_of (one_lap q) (enc k)) = Ret sl ∧
  (stamp sl = wrapping_add 64 (enc k) 1 → k < gT g ∧ gst g k = Ready).
Proof.
  intros Hq Hp He Hn Hk. pose proof (qi_le _ _ Hq). destruct (mp_stamp q g k Hq Hk) as (sl & Hs & Hst).
  exists sl. split; [done|]. rewrite (mp_add_one q g) by (done || lia). intros Heq.
  destruct (Hst Heq) as [Hlt [?|[u Hu]]]; [done|]. destruct Hn. by eapply He.
Qed.

(** Taking the item out of a ready position. *)
Lemma mp_take q g t sp p k :
  QInv q g → gH g ≤ k < gT g → gst g k = Ready → popping p = true →
  ∃ x, slot_at q (index_of (one_lap q) (enc k)) = Ret (mkSlot (enc k + 1) (Some x)) ∧ logged g k = Some x ∧
  ∀ s p', code_step q t sp p = Ret (set_slot q (index_of (one_lap q) (enc k)) (mkSlot (enc k + 1) None), p', Tau) →
    TI (set_phase g k (Emptied t)) t p' s → covers p' k → (∀ j, j ≠ k → covers p j → covers p' j) →
    StepOK q g t sp p s.
Proof.
  intros Hq Hk Hr Hp. pose proof (qi_le _ _ Hq).
  destruct (lookup_lt_is_Some_2 (glog g) (Z.to_nat k)) as [x Hx]; [unfold gT in *; lia|].
  exists x. split; [rewrite (mp_slot q g k) by done; unfold cell, logged; by rewrite Hr, Hx|]. split; [done|].
  intros s p' Hc Ht Hcov Hother. apply (mp_phase q g t sp p s p' k (Emptied t)); try done; [by right| |by right].
  rewrite Hc. unfold cell. cbn. by rewrite fn_lookup_insert.
Qed.

Lemma mine_empty g ph k : 0 ≤ k ≤ gT g → mine g ph k [].
Proof. intros Hk. split_and!; [lia|cbn; lia|]. intros j x Hx. by rewrite lookup_nil in Hx. Qed.

Lemma mine_snoc g ph k xs x :
  mine g ph k xs → k + Z.of_nat (length xs) < gT g → logged g (k + Z.of_nat (length xs)) = Some x →
  mine (set_phase g (k + Z.of_nat (length xs)) ph) ph k (xs ++ [x]).
Proof.
  intros (H0 & Hb & Hm) Hlt Hx. split; [done|]. split; [rewrite length_app; cbn; unfold gT in *; cbn; lia|].
  intros j y Hj. cbn. destruct (decide (j = length xs)) as [->|Hne].
  - rewrite lookup_app_r, Nat.sub_diag in Hj by lia. injection Hj as <-. by rewrite fn_lookup_insert.
  - pose proof (lookup_lt_Some _ _ _ Hj) as Hl. rewrite length_app in Hl. cbn in Hl.
    rewrite lookup_app_l in Hj by lia. rewrite fn_lookup_insert_ne by lia. by apply Hm.
Qed.

Lemma mp_pop_ok q g t sp p s :
  QInv q g → SI g s → TI g t p s → emptied_ok g p →
  match p with PopLoad _ | PopTail _ | PopSpin _ _ | PopRead _ _ | PopStore _ _ _ => True | _ => False end →
  StepOK q g t sp p s.
Proof.
  intros Hq HS HT He Hp. pose proof (qi_le _ _ Hq) as Hle. destruct (recv_words q g Hq) as (N & _ & HN & Hlo & Hhi).
  destruct p as [| | | | | | | | | |cached|hd|hd tc|hd tc|hd tc x| | | | | | | | | | | |]; try done; clear Hp; cbn [TI] in HT.
  - destruct (decide (N = gH g)) as [->|Hne].
    + eapply mp_local; [done|code; rewrite Hlo, Hhi; by rewrite bool_decide_eq_true_2| |by intros ? []].
      destruct cached; [right; by eapply mp_answer_now|by split].
    + eapply mp_local; [done|code; rewrite Hlo, Hhi, bool_decide_eq_false_2; [done|by rewrite enc_eq]| |by intros ? []].
      split; [destruct cached; [by right|by left]|]. split; [done|]. exists N. split; [done|lia].
  - destruct HT as (Hs & ->). destruct (sender_words q g Hq) as (S & _ & _ & _ & Htl & _).
    destruct (decide (gH g = gT g)) as [Heq|Hne].
    + eapply mp_local; [done|code; rewrite Htl, Heq; by rewrite bool_decide_eq_true_2| |by intros ? []].
      right. eapply mp_answer_now; [done..|]. cbn. rewrite (mp_nil q) by done. lia.
    + eapply mp_local; [done|code; rewrite Htl, bool_decide_eq_false_2; [done|by rewrite enc_eq]| |by intros ? []].
      split; [by left|]. split; [done|]. exists (gT g). split; [done|lia].
  - destruct HT as (Hs & -> & Hm). pose proof Hm as (M & _ & HM).
    destruct (mp_stamp_ready q g (PopSpin (enc (gH g)) tc) (gH g)) as (sl & Hsl & Hst); [done..|by intros []|lia|].
    destruct (decide (stamp sl = wrapping_add 64 (enc (gH g)) 1)) as [Heq|Hne].
    + eapply mp_local; [done|code; rewrite Hsl; cbn [mbind outcome_mbind]; by rewrite bool_decide_eq_true_2| |by intros ? []].
      split; [done|]. split; [done|]. split; [done|]. by apply Hst.
    + eapply mp_local; [done|code; rewrite Hsl; cbn [mbind outcome_mbind]; by rewrite bool_decide_eq_false_2| |by intros ? []].
      split; [done|]. by split.
  - destruct HT as (Hs & -> & Hm & Hr). pose proof Hm as (M & _ & HM).
    destruct (mp_take q g t sp (PopRead (enc (gH g)) tc) (gH g)) as (x & Hsl & Hx & Hk); [done|lia|done..|].
    apply (Hk s (PopStore (enc (gH g)) tc x)); [|..|done|by intros ? ? []].
    + code. rewrite Hsl. done.
    + split; [done|]. split; [done|]. split; [done|].
      pose proof (mine_snoc g (Emptied t) (gH g) [] x) as Hsn. cbn in Hsn. rewrite Z.add_0_r in Hsn.
      apply Hsn; [apply mine_empty; lia|lia|done].
  - destruct HT as (Hs & -> & (M & -> & HM) & Hm).
    assert (code_step q t sp (PopStore (enc (gH g)) (enc M) x) =
      Ret (set_recv q (pack32 (enc M) (enc (gH g + 1))), Returning (RPop (Some x)), Deq t 1)) as Hc.
    { code. rewrite (mp_advance q g) by (done || lia). done. }
    destruct Hs as [Hs|Hs]; (eapply (mp_retire_step q g t sp _ s _ [x] _ M); [done|done| |done|by exists x|done|done|cbn; lia|done]);
      intros k Hk%(enc_pos_inj cap L Hcap Hroom); cbn; lia.
Qed.

(** *** Batched pops *)

Lemma covers_end (tc j k : Z) (out : list A) : j - Z.of_nat (length out) ≤ k < j → covers (pop_end tc (enc j) out) k.
Proof. intros Hk. destruct out; [cbn in Hk; lia|]. by exists j. Qed.

Lemma covers_walk (len : nat) (tc j k : Z) (out : list A) :
  j - Z.of_nat (length out) ≤ k < j → covers (pop_walk len tc (enc j) out) k.
Proof. intros Hk. unfold pop_walk. case_bool_decide; [by exists j|by apply covers_end]. Qed.

Lemma mp_pop_end g t s len tc hd out :
  SI g s → called s (OpPopBatch len) → (length out ≤ len)%nat → hint g tc → walked g t hd out →
  TI g t (pop_end tc hd out) s.
Proof.
  intros HS Hs Hl Hh Hw. destruct out as [|x out]; [right; by eapply mp_answer_now|]. split; [by exists len|]. by split.
Qed.

Lemma mp_pop_walk g t s len tc hd out :
  SI g s → called s (OpPopBatch len) → (length out ≤ len)%nat → hint g tc → walked g t hd out →
  TI g t (pop_walk len tc hd out) s.
Proof.
  intros HS Hs Hl Hh Hw. unfold pop_walk. case_bool_decide as Hb; [|by eapply mp_pop_end].
  split; [done|]. split; [done|]. by split.
Qed.

Lemma walked_nil q g t : QInv q g → walked g t (enc (gH g)) [].
Proof.
  intros Hq. pose proof (qi_le _ _ Hq). split; [cbn; f_equal; lia|]. apply mine_empty. lia.
Qed.

Lemma mp_bpop_walk_ok q g t sp s len tc hd out :
  QInv q g → SI g s → emptied_ok g (BPopWalk len tc hd out) → TI g t (BPopWalk len tc hd out) s →
  StepOK q g t sp (BPopWalk len tc hd out) s.
Proof.
  intros Hq HS He (Hs & Hlen & Hh & Hw). pose proof (qi_le _ _ Hq) as Hle. pose proof Hw as (-> & _ & Hb & _).
  destruct (mp_stamp_ready q g (BPopWalk len tc (enc (gH g + Z.of_nat (length out))) out) (gH g + Z.of_nat (length out)))
    as (sl & Hsl & Hst); [done..| |lia|].
  { intros (j & Hj%(enc_pos_inj cap L Hcap Hroom) & ?). lia. }
  destruct (decide (stamp sl = wrapping_add 64 (enc (gH g + Z.of_nat (length out))) 1)) as [Heq|Hne].
  - eapply mp_local; [done|code; rewrite Hsl; cbn [mbind outcome_mbind]; by rewrite bool_decide_eq_true_2| |done].
    split; [done|]. split; [done|]. split; [done|]. split; [done|]. by apply Hst.
  - eapply mp_local; [done|code; rewrite Hsl; cbn [mbind outcome_mbind]; by rewrite bool_decide_eq_false_2| |].
    + eapply mp_pop_end; [done..|lia|done|done].
    + intros k (j & Hj%(enc_pos_inj cap L Hcap Hroom) & Hk). subst j. by apply covers_end.
Qed.

Lemma mp_bpop_read_ok q g t sp s len tc hd out :
  QInv q g → SI g s → TI g t (BPopRead len tc hd out) s → StepOK q g t sp (BPopRead len tc hd out) s.
Proof.
  intros Hq HS (Hs & Hlen & Hh & Hw & Hlt & Hr). pose proof (qi_le _ _ Hq) as Hle. pose proof Hw as (-> & Hm).
  set (k := gH g + Z.of_nat (length out)) in *.
  destruct (mp_take q g t sp (BPopRead len tc (enc k) out) k) as (x & Hsl & Hx & Hk); [done|lia|done..|].
  apply (Hk s (pop_walk len tc (enc (k + 1)) (out ++ [x]))).
  - code. rewrite Hsl. cbn [mbind outcome_mbind value assume_init mret outcome_mret]. by rewrite (mp_advance q g) by (done || lia).
  - apply mp_pop_walk; [done..|rewrite length_app; cbn; lia|done|]. split; [|by apply mine_snoc].
    rewrite length_app. cbn. f_equal. lia.
  - apply covers_walk. rewrite length_app. cbn. lia.
  - intros i Hi (j & Hj%(enc_pos_inj cap L Hcap Hroom) & Hb). subst j. apply covers_walk. rewrite length_app. cbn. lia.
Qed.

Lemma mp_bpop_store_ok q g t sp s tc hd out :
  QInv q g → TI g t (BPopStore tc hd out) s → StepOK q g t sp (BPopStore tc hd out) s.
Proof.
  intros Hq ((len & Hs & Hlen) & Hne & (N & -> & HN) & -> & Hm). pose proof (qi_le _ _ Hq) as Hle. pose proof Hm as (_ & Hb & _).
  set (k := gH g + Z.of_nat (length out)) in *.
  assert (Z.max (enc N) (enc k) = enc (Z.max N k)) as Hmax.
  { destruct (decide (N < k)).
    - pose proof (enc_mono cap L Hcap Hroom N k ltac:(lia)). by rewrite !Z.max_r by lia.
    - destruct (decide (N = k)) as [->|]; [by rewrite !Z.max_id|].
      pose proof (enc_mono cap L Hcap Hroom k N ltac:(lia)). by rewrite !Z.max_l by lia. }
  eapply (mp_retire_step q g t sp _ s (RPopBatch out) out _ (Z.max N k)); try done; [|lia|code; by rewrite Hmax].
  intros i (j & Hj%(enc_pos_inj cap L Hcap Hroom) & ?). subst j. lia.
Qed.

Lemma mp_pop_batch_ok q g t sp p s :
  QInv q g → SI g s → TI g t p s → emptied_ok g p →
  match p with BPopLoad _ | BPopTail _ _ | BPopWalk _ _ _ _ | BPopRead _ _ _ _ | BPopStore _ _ _ => True | _ => False end →
  StepOK q g t sp p s.
Proof.
  intros Hq HS HT He Hp. pose proof (qi_le _ _ Hq) as Hle. destruct (recv_words q g Hq) as (N & _ & HN & Hlo & Hhi).
  destruct p as [| | | | | | | | | | | | | | |len|len hd|len tc hd out|len tc hd out|tc hd out| | | | | | |];
    try done; clear Hp; [|..|by apply mp_bpop_walk_ok|by apply mp_bpop_read_ok|by apply mp_bpop_store_ok]; cbn [TI] in HT.
  - destruct (decide (N = gH g)) as [->|Hne].
    + eapply mp_local; [done|code; rewrite Hlo, Hhi; by rewrite bool_decide_eq_true_2| |by intros ? []]. by split.
    + eapply mp_local; [done|code; rewrite Hlo, Hhi, bool_decide_eq_false_2; [done|by rewrite enc_eq]| |by intros ? []].
      eapply mp_pop_walk; [done..|cbn; lia|by exists N|by eapply walked_nil].
  - destruct HT as (Hs & ->). destruct (sender_words q g Hq) as (S & _ & _ & _ & Htl & _).
    destruct (decide (gT g = gH g)) as [Heq|Hne].
    + eapply mp_local; [done|code; rewrite Htl, Heq; by rewrite bool_decide_eq_true_2| |by intros ? []].
      right. by eapply mp_answer_now.
    + eapply mp_local; [done|code; rewrite Htl, bool_decide_eq_false_2; [done|by rewrite enc_eq]| |by intros ? []].
      eapply mp_pop_walk; [done..|cbn; lia|exists (gT g); split; [done|lia]|by eapply walked_nil].
Qed.

(** *** Queries *)

Lemma mp_query_ok q g t sp p s :
  QInv q g → SI g s → TI g t p s →
  match p with Empty1 | Empty2 _ | Full1 | Full2 _ | Len1 | Len2 _ | Len3 _ _ => True | _ => False end →
  StepOK q g t sp p s.
Proof.
  intros Hq HS HT Hp. pose proof (mp_length _ _ Hq) as Hl. pose proof (mp_nil _ _ Hq) as Hnil.
  pose proof (qi_le _ _ Hq) as Hle. pose proof (mp_full _ _ Hq) as Hfull.
  destruct (recv_words q g Hq) as (N & _ & _ & Hhd & _). destruct (sender_words q g Hq) as (S & _ & _ & _ & Htl & _).
  destruct p; try done; clear Hp; cbn [TI] in HT.
  - eapply mp_local; [done|done| |by intros ? []]. rewrite Hhd. split; [done|]. exists (gH g). split_and!; [done|lia..].
  - destruct HT as (Hs & k & -> & Hk & Hseen). eapply mp_local; [done|done| |by intros ? []]. right. rewrite Htl.
    case_bool_decide as He; [apply enc_pos_inj in He; [|done..]|rewrite enc_eq in He by done].
    + eapply mp_answer_now; [done..|]. cbn. rewrite Hnil. split; [lia|done].
    + destruct (decide (k < gH g)).
      * eapply answer_seen; [done|by apply Hseen|]. cbn. intros l' Hne. by split.
      * eapply mp_answer_now; [done..|]. cbn. rewrite Hnil. split; [done|lia].
  - eapply mp_local; [done|done| |by intros ? []]. rewrite Htl. split; [done|]. exists (gT g). split_and!; [done|lia..].
  - destruct HT as (Hs & k & -> & Hk & Hseen). eapply mp_local; [done|done| |by intros ? []]. right.
    rewrite Hhd, (mp_add_lap q g) by (done || lia). case_bool_decide as He; [apply enc_pos_inj in He; [|done..]|rewrite enc_eq in He by done].
    + eapply mp_answer_now; [done..|]. cbn. split; [lia|done].
    + destruct (decide (k < gT g)).
      * eapply answer_seen; [done|by apply Hseen|]. cbn. intros l' Hne. split; [done|lia].
      * eapply mp_answer_now; [done..|]. cbn. split; [done|lia].
  - eapply mp_local; [done|done| |by intros ? []]. rewrite Htl. split; [done|]. exists (gT g). split_and!; [done|lia..].
  - destruct HT as (Hs & k & -> & Hk). eapply mp_local; [done|done| |by intros ? []]. rewrite Hhd. split; [done|].
    exists k, (gH g). split_and!; [done..|lia|lia|]. intros ->. split; [lia|]. by eapply mp_seen_now.
  - destruct HT as (Hs & k & j & -> & -> & Hk & Hseen). destruct (decide (gT g = k)) as [He|Hne].
    + destruct (Hseen (eq_sym He)) as [Hkj Hlen]. eapply mp_local; [done|code;
        rewrite Htl, He, bool_decide_eq_true_2, (qi_lap _ _ Hq), (qi_cap _ _ Hq), (len_of_enc cap L Hcap HL Hroom) by (done || lia);
        done| |by intros ? []]. right. eapply answer_seen; [done|done|]. by intros l' <-.
    + eapply mp_local; [done|code; rewrite Htl, bool_decide_eq_false_2; [done|by rewrite enc_eq]|done|by intros ? []].
Qed.

Lemma mp_code_ok q g t sp p s : QInv q g → SI g s → TI g t p s → emptied_ok g p → StepOK q g t sp p s.
Proof.
  intros Hq HS HT He. destruct p;
    first [by apply mp_push_ok|by apply mp_push_batch_ok|by apply mp_write_ok|by apply mp_pop_ok|by apply mp_pop_batch_ok
          |by apply mp_query_ok|by eapply mp_local].
Qed.

(** *** The whole system *)

Lemma mp_moved t p g s e g' s' : Effect t p g s e g' s' → Moved cap t g s e g' s'.
Proof. destruct e; cbn; naive_solver. Qed.

Lemma mp_env_other q t u p pu g s su e g' s' :
  QInv q g → u ≠ t → Effect t p g s e g' s' → frame t p g g' → SI g su →
  (popping p = true → popping pu = false) → env u pu g su g' (seen_by e g' su).
Proof.
  intros Hq Hne He Hf HS Hone. pose proof (mp_moved _ _ _ _ _ _ _ He) as Hmv.
  destruct (moved_mono _ _ _ _ _ _ _ Hmv) as [HH HL']. split; [done|done|..].
  - intros k Hk Ho. destruct (Hf k Hk) as [?|[Ho'|[_ Hr]]]; [done|congruence|by rewrite Hr in Ho].
  - intros k Hp Hk Hr. destruct (Hf k Hk) as [->|[Ho'|[Hp' _]]]; [done|by rewrite Hr in Ho'|]. by rewrite Hone in Hp.
  - intros Hp. destruct e; cbn in He; try done; [by destruct He as (-> & _)|by destruct He as (_ & -> & _)|].
    destruct He as (_ & Hpp & _). by rewrite Hone in Hp.
  - apply moved_grows.
  - intros o. by eapply moved_room.
  - intros o. by eapply moved_some.
Qed.

Definition one_consumer (th : nat → Pc A) : Prop :=
  ∀ t u, popping (th t) = true → popping (th u) = true → t = u.

Record InvG (n : nat) (σ : State A) (a : Bounded A) g : Prop := {
  inv_queue : QInv (queue σ) g;
  inv_count : length (glog g) = n;
  inv_items : items a = contents g;
  inv_thread t : TI g t (thread σ t) (status a t);
  inv_seen t : SI g (status a t);
  inv_one : one_consumer (thread σ);
  inv_owned t : owned g t (thread σ t);
}.
Definition Inv (n : nat) (σ : State A) (a : Bounded A) : Prop := ∃ g, InvG n σ a g.

Lemma one_consumer_insert th t p :
  one_consumer th → (popping p = true → popping (th t) = true ∨ ∀ u, popping (th u) = false) →
  one_consumer (<[t := p]> th).
Proof.
  intros H1 Hp u v. destruct (decide (u = t)) as [->|Hu], (decide (v = t)) as [->|Hv];
    rewrite ?fn_lookup_insert, ?fn_lookup_insert_ne by done; [done|..]; [intros H3 H4|intros H4 H3|by apply H1].
  all: destruct (Hp H3) as [Ht|Hn]; [by apply H1|by rewrite Hn in H4].
Qed.

Lemma batch_claim_pc q vs attempt sv hc p' : batch_claim q vs attempt sv hc = Ret p' → popping p' = false.
Proof.
  unfold batch_claim. intros (n & _ & H)%mbind_ret_inv. apply mbind_ret_inv in H as (? & _ & [= <-]). done.
Qed.

Lemma batch_check_pc q vs attempt sv p' : batch_check q vs attempt sv = Ret p' → popping p' = false.
Proof. unfold batch_check. destruct (full_hint q sv); [by intros [= <-]|apply batch_claim_pc]. Qed.

(** No step starts a pop. *)
Lemma popping_back q t sp p q' p' e :
  code_step q t sp p = Ret (q', p', e) → popping p' = true → popping p = true.
Proof.
  intros H. destruct p; cbn in H |- *; try done.
  all: repeat (first
    [ progress (injection H as <- <- <-)
    | match type of H with
      | mbind _ _ = Ret _ => apply mbind_ret_inv in H as (? & ? & H)
      | context [match ?x with _ => _ end] => destruct x; try discriminate H
      end ]);
    cbn; unfold push_check;
    repeat match goal with |- context [match ?x with _ => _ end] => destruct x end; try done.
  all: intros Hp; match goal with
    | H : batch_check _ _ _ _ = Ret _ |- _ => by rewrite (batch_check_pc _ _ _ _ _ H) in Hp
    | H : batch_claim _ _ _ _ _ = Ret _ |- _ => by rewrite (batch_claim_pc _ _ _ _ _ _ H) in Hp
    end.
Qed.

(** A position a program point covers is emptied only if it is the consumer's. *)
Lemma covers_emptied g t p s k u : TI g t p s → covers p k → gst g k = Emptied u → popping p = true.
Proof.
  intros HT Hc Hu. destruct p; try done; exfalso; cbn [TI] in HT.
  - destruct HT as (_ & _ & i & -> & _ & _ & Hm), Hc as (j & Hj%(enc_pos_inj cap L Hcap Hroom) & Hk). subst j.
    destruct (lookup_lt_is_Some_2 values (Z.to_nat (k - i))) as [x Hx]; [lia|]. destruct (Hm _ _ Hx) as [Hp _].
    replace (i + Z.of_nat (Z.to_nat (k - i))) with k in Hp by lia. congruence.
  - destruct HT as (_ & i & -> & _ & Hw & _ & _ & Hm), Hc as (j & Hj%(enc_pos_inj cap L Hcap Hroom) & Hk). subst j.
    destruct (decide (k = i)) as [->|]; [congruence|].
    destruct (lookup_lt_is_Some_2 values (Z.to_nat (k - (i + 1)))) as [x Hx]; [lia|]. destruct (Hm _ _ Hx) as [Hp _].
    replace (i + 1 + Z.of_nat (Z.to_nat (k - (i + 1)))) with k in Hp by lia. congruence.
Qed.

Lemma inv_emptied n σ a g t : InvG n σ a g → emptied_ok g (thread σ t).
Proof.
  intros [] Hp k u Hk Hu. assert (covers (thread σ u) k) as Hc by (apply inv_owned0; [done|by rewrite Hu]).
  assert (u = t) as ->; [|done]. apply inv_one0; [|done]. by eapply covers_emptied.
Qed.

Lemma mp_inv_code n σ a t sp q' p' e :
  Inv n σ a → code_step (queue σ) t sp (thread σ t) = Ret (q', p', e) →
  fits (Z.of_nat n + Z.of_nat (length (enqueued [e]))) →
  ∃ a', astep cap a e a' ∧ Inv (n + length (enqueued [e])) (mkState q' (<[t := p']> (thread σ))) a'.
Proof.
  intros (g & HI) Hc Hf. pose proof (inv_emptied _ _ _ _ t HI) as Hem. destruct HI as [Hq Hcount Hi Ht Hseen Hone Hown].
  destruct (mp_code_ok (queue σ) g t sp (thread σ t) (status a t)) as (q1 & p1 & e1 & Hc' & Hk); [done..|].
  rewrite Hc in Hc'. injection Hc' as <- <- <-. destruct Hk as (g' & s' & Hq' & HT & He & Hfr & Howned).
  { unfold gT. by rewrite Hcount. }
  pose proof (qi_le _ _ Hq) as Hle. pose proof (mp_moved _ _ _ _ _ _ _ He) as Hmv.
  eexists. split; [by eapply moved_step|]. exists g'. split; cbn; try done.
  - rewrite <- Hcount. by eapply moved_count.
  - intros u. destruct (decide (u = t)) as [->|Hne]; [by rewrite !fn_lookup_insert|].
    rewrite !fn_lookup_insert_ne by done. eapply mp_TI_env; [|apply Ht].
    eapply (mp_env_other (queue σ) t u (thread σ t)); [done..|apply Hseen|].
    intros Hp. destruct (popping (thread σ u)) eqn:Hpu; [|done]. by destruct Hne; apply Hone.
  - intros u. destruct (decide (u = t)) as [->|Hne].
    + rewrite fn_lookup_insert. by eapply moved_self.
    + rewrite fn_lookup_insert_ne by done. eapply moved_SI; [done..|apply Hseen].
  - apply one_consumer_insert; [done|]. intros Hp. left. by eapply popping_back.
  - intros u k Hk Hu. destruct (Howned (Hown t) k u Hk Hu) as [[-> ?]|(Hne & Hk' & Hu')]; [by rewrite fn_lookup_insert|].
    rewrite fn_lookup_insert_ne by done. by apply Hown.
Qed.

Lemma mp_inv_step n σ a e σ' :
  Inv n σ a → step σ e σ' → fits (Z.of_nat n + Z.of_nat (length (enqueued [e]))) →
  ∃ a', astep cap a e a' ∧ Inv (n + length (enqueued [e])) σ' a'.
Proof.
  intros HI Hst Hf. destruct Hst as [σ t o Hidle Hok|σ t sp q' p' e Hc|σ t r Hret]; [|by eapply mp_inv_code|].
  - destruct HI as (g & [Hq Hcount Hi Ht Hseen Hone Hown]). rewrite Nat.add_0_r.
    exists (mkBounded (items a) (<[t := ACalled o [items a]]> (status a))). pose proof (Ht t) as Hti. rewrite Hidle in Hti.
    split; [by apply a_call|]. exists g. split; cbn; try done.
    + intros u. destruct (decide (u = t)) as [->|Hne]; [|by rewrite !fn_lookup_insert_ne].
      rewrite !fn_lookup_insert. destruct o; cbn; try (split; [by destruct Hok|]); try (eexists; done).
    + intros u. destruct (decide (u = t)) as [->|Hne]; [|by rewrite !fn_lookup_insert_ne].
      rewrite fn_lookup_insert, Hi. cbn. set_solver.
    + apply one_consumer_insert; [done|]. intros Hp. right. by apply Hok.
    + intros u k Hk Hu. specialize (Hown u k Hk Hu). destruct (decide (u = t)) as [->|]; [by rewrite Hidle in Hown|].
      by rewrite fn_lookup_insert_ne.
  - destruct HI as (g & [Hq Hcount Hi Ht Hseen Hone Hown]). rewrite Nat.add_0_r.
    exists (mkBounded (items a) (<[t := AIdle]> (status a))). pose proof (Ht t) as Hti. rewrite Hret in Hti.
    split; [by apply a_return|]. exists g. split; cbn; try done.
    + intros u. destruct (decide (u = t)) as [->|Hne]; [by rewrite !fn_lookup_insert|by rewrite !fn_lookup_insert_ne].
    + intros u. destruct (decide (u = t)) as [->|Hne]; [by rewrite !fn_lookup_insert|by rewrite !fn_lookup_insert_ne].
    + by apply one_consumer_insert.
    + intros u k Hk Hu. specialize (Hown u k Hk Hu). destruct (decide (u = t)) as [->|]; [by rewrite Hret in Hown|].
      by rewrite fn_lookup_insert_ne.
Qed.

Lemma mp_inv_steps n σ a es σ' :
  Inv n σ a → steps σ es σ' → fits (Z.of_nat n + Z.of_nat (length (enqueued es))) →
  ∃ a', asteps cap a es a' ∧ Inv (n + length (enqueued es)) σ' a'.
Proof.
  intros HI Hs. induction Hs as [σ|σ es σ1 e σ2 _ IH Hst]; intros Hf.
  { rewrite Nat.add_0_r. exists a. split; [constructor|done]. }
  rewrite enqueued_app, length_app in *. destruct (IH HI) as (a1 & Ha1 & HI1).
  { eapply fits_le; [done..|lia| |exact Hf]. lia. }
  destruct (mp_inv_step _ _ _ _ _ HI1 Hst) as (a2 & Ha2 & HI2).
  { eapply fits_le; [done..|lia| |exact Hf]. lia. }
  exists a2. split; [by econstructor|]. by rewrite Nat.add_assoc.
Qed.

(** *** The destructor *)

(** The program points that own a slot. *)
Definition claiming (p : Pc A) : bool :=
  match p with
  | Write _ _ _ | Publish _ _ _ | PopStore _ _ _ | BPopWalk _ _ _ _ | BPopRead _ _ _ _ | BPopStore _ _ _ => true
  | _ => false
  end.
Lemma mp_not_claiming p k : claiming p = false → ¬ covers p k.
Proof. intros H Hc. by destruct p. Qed.

Lemma mp_all_ready n σ a g :
  InvG n σ a g → (∀ t, claiming (thread σ t) = false) → ∀ k, gH g ≤ k < gT g → gst g k = Ready.
Proof.
  intros HI Hc k Hk. pose proof (qi_live _ _ (inv_queue _ _ _ _ HI) k Hk) as Hq.
  destruct (gst g k) as [t|t| |t|t|] eqn:Hp; try done;
    (destruct (mp_not_claiming (thread σ t) k (Hc t)); apply (inv_owned _ _ _ _ HI t k); [lia|by rewrite Hp]).
Qed.

Lemma mp_drop_loop q g :
  QInv q g → (∀ k, gH g ≤ k < gT g → gst g k = Ready) →
  ∀ n i, Z.of_nat (i + n) = gT g - gH g → drop_loop q (gH g mod cap) i n = Ret (drop i (contents g)).
Proof.
  intros Hq Hr. pose proof (mp_length _ _ Hq) as Hl. pose proof (mp_full _ _ Hq). pose proof (qi_le _ _ Hq).
  pose proof (Z.mod_pos_bound (gH g) cap Hcap) as Hm. pose proof (Z_div_mod_eq_full (gH g) cap) as Hdm.
  induction n as [|n IH]; intros i Hi; cbn [drop_loop].
  { by rewrite drop_ge by lia. }
  rewrite (qi_cap _ _ Hq).
  assert ((if bool_decide (gH g mod cap + Z.of_nat i < cap) then mret (gH g mod cap + Z.of_nat i)
    else checked_sub (gH g mod cap + Z.of_nat i) cap) = Ret ((gH g + Z.of_nat i) mod cap)) as ->.
  { case_bool_decide.
    - cbn. f_equal. apply (Z.mod_unique _ _ (gH g / cap)); lia.
    - rewrite checked_sub_ret by lia. f_equal. apply (Z.mod_unique _ _ (gH g / cap + 1)); lia. }
  pose proof (mp_slot q g (gH g + Z.of_nat i) Hq ltac:(lia)) as Hs.
  rewrite (qi_lap _ _ Hq), (enc_index cap L Hcap HL Hroom) in Hs. cbn [mbind outcome_mbind]. rewrite Hs.
  cbn [mbind outcome_mbind]. unfold cell. rewrite Hr by lia. cbn [value].
  destruct (lookup_lt_is_Some_2 (contents g) i) as [x Hx]; [lia|].
  assert (logged g (gH g + Z.of_nat i) = Some x) as ->.
  { unfold logged. rewrite <- Hx. unfold contents. rewrite lookup_drop. f_equal. lia. }
  cbn [assume_init mbind outcome_mbind]. rewrite IH by lia. cbn. by rewrite (drop_S _ x i).
Qed.

Lemma mp_inv_drop n σ a :
  Inv n σ a → (∀ t, claiming (thread σ t) = false) → drop_queue (queue σ) = Ret (items a).
Proof.
  intros (g & HI) Hc. pose proof (mp_all_ready _ _ _ _ HI Hc) as Hr. destruct HI as [Hq _ Hi _ _ _ _].
  destruct (recv_words _ _ Hq) as (N & _ & _ & Hhd & _). destruct (sender_words _ _ Hq) as (S & _ & _ & _ & Htl & _).
  pose proof (mp_full _ _ Hq). pose proof (qi_le _ _ Hq). pose proof (mp_lap32 _ _ Hq).
  unfold drop_queue. rewrite Hhd, Htl, (qi_lap _ _ Hq), (qi_cap _ _ Hq), wrap_small by (unfold is_word; lia).
  rewrite (stamp_len_enc cap L Hcap HL Hroom) by lia. cbn [mbind outcome_mbind].
  rewrite (enc_index cap L Hcap HL Hroom), (mp_drop_loop _ g) by (done || lia). by rewrite Hi.
Qed.
End inv.

(** ** The theorem *)

Lemma mp_lap_small (cap : Z) :
  0 < cap ≤ 2 ^ 28 → let L := wrap 32 (next_power_of_two 64 (cap + 1)) in pow2 L ∧ cap < L ≤ 4 * cap.
Proof.
  intros Hc. destruct (lap_spec cap ltac:(lia)) as [Hp HL]. cbn zeta.
  rewrite wrap_small by (unfold is_word; lia). done.
Qed.

(** Below [2 ^ 29] items the stamps stay below [2 ^ 32]. *)
Lemma mp_fits_items (cap L : Z) (n : nat) :
  0 < cap ≤ 2 ^ 28 → cap < L ≤ 4 * cap → Z.of_nat n ≤ 2 ^ 29 → fits cap L U32 (Z.of_nat n).
Proof.
  intros Hc HL Hn. split; [lia|]. unfold enc.
  pose proof (Z.mod_pos_bound (Z.of_nat n + cap) cap ltac:(lia)). pose proof (Z_div_mod_eq_full (Z.of_nat n + cap) cap).
  assert (0 ≤ (Z.of_nat n + cap) / cap) by (apply Z.div_pos; lia).
  assert ((Z.of_nat n + cap) / cap * L ≤ (Z.of_nat n + cap) / cap * (4 * cap)) by nia. lia.
Qed.

Lemma mp_new_spec {A} (cap : Z) :
  0 < cap ≤ 2 ^ 28 → let L := wrap 32 (next_power_of_two 64 (cap + 1)) in
  ∃ q, new (A := A) cap = Ret q ∧ Inv cap L 0 (init q) empty_bounded.
Proof.
  intros Hc L. destruct (mp_lap_small cap Hc) as [Hp HL]. fold L in Hp, HL. unfold new.
  rewrite !bool_decide_eq_true_2 by lia. cbn [guard_panic mbind outcome_mbind]. rewrite checked_add_ret by lia.
  cbn [mbind outcome_mbind]. eexists. split; [done|]. fold L.
  exists (mkGhost 0 [] (λ _, Done)). split; cbn; try done.
  assert (enc cap L 0 = 0) as He0 by (unfold enc; by rewrite Zdiv_0_l, Zmod_0_l).
  split; cbn; try done.
  - unfold capacity. cbn. rewrite length_fmap, length_seq. lia.
  - exists 0. unfold gT. cbn. rewrite He0. split; [done|lia].
  - exists 0. unfold gT. cbn. by rewrite He0.
  - apply (mp_fits_items cap L 0 Hc HL). lia.
  - intros k Hk. unfold gT in Hk. cbn in Hk. pose proof (Z.mod_pos_bound k cap ltac:(lia)).
    rewrite list_lookup_fmap, lookup_seq_lt by lia. cbn. do 2 f_equal. unfold left_stamp. rewrite decide_True by lia.
    assert (k mod cap = k + cap) as Hm by (symmetry; apply (Z.mod_unique k cap (-1)); lia).
    rewrite Hm, enc_small by lia. lia.
  - intros k Hk. unfold gT in Hk. cbn in Hk. lia.
Qed.

(** C7: the multi-producer ring of the terminal channels is linearizable.
    For every capacity up to [2 ^ 28] and as long as at most [2 ^ 29] items
    are pushed in total - before the 32-bit stamps wrap around, where the claim
    fails ([MpscWrap.mpsc_hint_wraps]) - every interleaving of any number of producers with one consumer is an execution
    of an atomic bounded FIFO object, although producers and consumer decide on
    cached copies of each other's cursor: no slot is overwritten before it is
    read or read before it is written, items leave in the order of their
    claims, a push is refused only when the ring is full and a pop only when it
    is empty at a moment during the call.  Nothing overflows, and the
    destructor drops exactly the items left. *)
Theorem mpsc_queue_linearizable {A} (cap : Z) (q : Queue A) (es : list (event A)) (σ : State A)
    (Hcap : 0 < cap ≤ 2 ^ 28) (Hnew : new cap = Ret q) (Hrun : steps (init q) es σ)
    (Hitems : Z.of_nat (length (enqueued es)) ≤ 2 ^ 29) :
  ∃ a, asteps cap empty_bounded es a ∧
    (∀ t spurious, ∃ r, code_step (queue σ) t spurious (thread σ t) = Ret r) ∧
    ((∀ t, claiming (thread σ t) = false) → drop_queue (queue σ) = Ret (items a)).
Proof.
  destruct (mp_lap_small cap Hcap) as [Hp HL]. destruct (mp_new_spec (A := A) cap Hcap) as (q' & Hq' & HI0).
  rewrite Hnew in Hq'. injection Hq' as <-. set (L := wrap 32 _) in *.
  destruct (mp_inv_steps cap L ltac:(lia) Hp ltac:(lia) 0 (init q) empty_bounded es σ HI0 Hrun) as (a & Ha & HI).
  { by apply mp_fits_items. }
  exists a. split_and!; [done| |by apply (mp_inv_drop cap L ltac:(lia) Hp ltac:(lia) _ _ _ HI)].
  intros t sp. destruct HI as (g & HI). pose proof (inv_emptied cap L ltac:(lia) ltac:(lia) _ _ _ _ t HI).
  destruct (mp_code_ok cap L ltac:(lia) Hp ltac:(lia) (queue σ) g t sp (thread σ t) (status a t))
    as (q' & p' & e & Hc & _); [apply HI..|done|]. by eexists.
Qed.

(** ** Concrete runs *)

(** A schedule whose pops are all of thread [c]. *)
Definition sched_ok {A} (c : nat) (sched : list (nat * choice A)) : bool :=
  forallb (λ tc : nat * choice A, match tc.2 with
    | Start o => (negb (popping (entry o)) || bool_decide (tc.1 = c)) &&
                 match o with OpPushBatch [] => false | _ => true end
    | _ => true end) sched.

Lemma mp_sched_step {A} (c t : nat) (ch : choice A) σ σ' e :
  sched_ok c [(t, ch)] = true → (∀ u, u ≠ c → popping (thread σ u) = false) → sched_step t ch σ = Some (σ', e) →
  step σ e σ' ∧ ∀ u, u ≠ c → popping (thread σ' u) = false.
Proof.
  intros Hok Hc Hs. destruct ch as [o| |]; cbn in Hok, Hs.
  - destruct (thread σ t) eqn:Ht; try done. injection Hs as <- <-. rewrite andb_true_r in Hok.
    apply andb_true_iff in Hok as [Hp Hb]. split.
    + apply step_call; [done|]. split; [|by destruct o as [| |[]| | | | | |]]. intros Hpop. rewrite Hpop in Hp. cbn in Hp.
      apply bool_decide_eq_true in Hp as ->. intros u. destruct (decide (u = c)) as [->|]; [by rewrite Ht|by apply Hc].
    + intros u Hu. cbn. destruct (decide (u = t)) as [->|]; [|rewrite fn_lookup_insert_ne by done; by apply Hc].
      rewrite fn_lookup_insert. by destruct (popping (entry o)); [cbn in Hp; apply bool_decide_eq_true in Hp|].
  - destruct (code_step (queue σ) t false (thread σ t)) as [[[q' p'] e']| | |] eqn:Hcode; try done. injection Hs as <- <-.
    split; [by eapply step_code|]. intros u Hu. cbn.
    destruct (decide (u = t)) as [->|]; [|rewrite fn_lookup_insert_ne by done; by apply Hc]. rewrite fn_lookup_insert.
    destruct (popping p') eqn:Hp'; [|done]. by rewrite <- (popping_back _ _ _ _ _ _ _ Hcode Hp'), Hc.
  - destruct (thread σ t) eqn:Ht; try done. injection Hs as <- <-. split; [by apply step_return|].
    intros u Hu. cbn. destruct (decide (u = t)) as [->|]; [by rewrite fn_lookup_insert|].
    rewrite fn_lookup_insert_ne by done. by apply Hc.
Qed.

Lemma mp_run_steps {A} (c : nat) sched (σ0 σ σ' : State A) es es' :
  sched_ok c sched = true → (∀ u, u ≠ c → popping (thread σ u) = false) →
  steps σ0 es σ → run sched σ es = Some (σ', es') → steps σ0 es' σ'.
Proof.
  revert σ es. induction sched as [|[t ch] sched IH]; intros σ es Hok Hc Hs Hr; cbn [run] in Hr; [by injection Hr as <- <-|].
  cbn in Hok. apply andb_true_iff in Hok as [Hok1 Hok2].
  destruct (sched_step t ch σ) as [[σ1 e]|] eqn:Hst; [|done].
  destruct (mp_sched_step c t ch σ σ1 e) as [Hstep Hc']; [cbn; by rewrite Hok1|done..|].
  eapply (IH σ1 (es ++ [e])); [done..| |done]. by econstructor.
Qed.

(** Two producers and a consumer on a ring of two slots: thread 0 pushes 1,
    thread 2 offers the batch [2; 3], of which one item fits; both are then
    refused; thread 1 pops 1 and takes a batch. *)
Definition mp_ring : Queue nat := mkQueue 0 0 [mkSlot 0 None; mkSlot 1 None] 4.
Definition mp_sched : list (nat * choice nat) :=
  (0%nat, Start (OpPush 1%nat)) :: (2%nat, Start (OpPushBatch [2; 3]%nat)) :: (2%nat, Go) ::
  replicate 3 (0%nat, Go) ++ replicate 8 (2%nat, Go) ++ [(0%nat, Go); (0%nat, End); (2%nat, End)] ++
  (0%nat, Start (OpPush 4%nat)) :: (1%nat, Start OpPop) :: replicate 2 (0%nat, Go) ++
  replicate 5 (1%nat, Go) ++ [(0%nat, End); (1%nat, End)] ++
  (1%nat, Start (OpPopBatch 8)) :: replicate 6 (1%nat, Go) ++ [(1%nat, End)].
Definition mp_final : State nat * list (event nat) := default (init mp_ring, []) (run mp_sched (init mp_ring) []).

Lemma mp_run : steps (init mp_ring) mp_final.2 mp_final.1.
Proof.
  unfold mp_final. destruct (run mp_sched (init mp_ring) []) as [[σ es]|] eqn:Hr; [|by constructor].
  by apply (mp_run_steps 1 mp_sched _ (init mp_ring) _ []); [vm_compute; reflexivity| |constructor|].
Qed.

Lemma mpsc_queue_linearizable_witness :
  omap (λ e, match e with Return t r => Some (t, r) | _ => None end) mp_final.2 =
    [(0, RPush true); (2, RPushBatch 1); (0, RPush false); (1, RPop (Some 1)); (1, RPopBatch [2])]%nat ∧
  ∃ a, asteps 2 empty_bounded mp_final.2 a ∧
    (∀ t spurious, ∃ r, code_step (queue mp_final.1) t spurious (thread mp_final.1 t) = Ret r) ∧
    ((∀ t, claiming (thread mp_final.1 t) = false) → drop_queue (queue mp_final.1) = Ret (items a)).
Proof.
  split; [vm_compute; reflexivity|].
  apply (mpsc_queue_linearizable 2 mp_ring mp_final.2 mp_final.1).
  - lia.
  - reflexivity.
  - exact mp_run.
  - vm_compute. discriminate.
Defined.
