(* ===== verification/MpscWrap.v ===== *)
(** * MpscWrap: the consumer's hint after the stamps wrap around

    The stamps of the multi-producer ring are 32 bits and wrap around after
    [2 ^ 32 / one_lap] laps, which every other computation on them allows for.
    The last step of [pop_batch] stores the larger of the cached tail and the
    new head; when the head has wrapped around and the cached tail has not,
    that is the stale tail.  The word then says that the ring holds items when
    it is empty, and the next [pop] waits for a stamp nobody will write. *)

From stdpp Require Import functions.
From S2P Require Import Prelude St3Ring RingPos BoundedQueue MpscQueue MpscQueueSpec.
Local Open Scope Z_scope.

(** ** A thread that runs alone *)

Section solo.
Context {A : Type}.
Implicit Types (q : Queue A) (σ : State A).

Fixpoint solo (n : nat) (q : Queue A) (t : nat) (p : Pc A) : outcome (Queue A * Pc A) :=
  match n with
  | O => mret (q, p)
  | S n => '(q', p', _) ← code_step q t false p; solo n q' t p'
  end.

(** The states a run from [σ0] reaches. *)
Definition reach σ0 σ : Prop := ∃ es, steps σ0 es σ.
Definition at_rest σ : Prop := ∀ t, thread σ t = Idle.

Lemma solo_reach σ0 n : ∀ σ t q' p',
  reach σ0 σ → solo n (queue σ) t (thread σ t) = Ret (q', p') →
  ∃ σ', reach σ0 σ' ∧ queue σ' = q' ∧ thread σ' t = p' ∧ ∀ u, u ≠ t → thread σ' u = thread σ u.
Proof.
  induction n as [|n IH]; intros σ t q' p' Hr Hs; cbn in Hs.
  { injection Hs as <- <-. by exists σ. }
  apply mbind_ret_inv in Hs as ([[q1 p1] e] & Hc & Hs). destruct Hr as [es Hes].
  destruct (IH (mkState q1 (<[t := p1]> (thread σ))) t q' p') as (σ' & Hr' & Hq' & Hp' & Ho).
  - exists (es ++ [e]). econstructor; [done|]. by eapply step_code.
  - cbn. by rewrite fn_lookup_insert.
  - exists σ'. split_and!; [done..|]. intros u Hu. rewrite Ho by done. cbn. by rewrite fn_lookup_insert_ne.
Qed.

(** A whole call by a thread that runs alone. *)
Lemma call_reach σ0 σ t o n q' p' :
  reach σ0 σ → at_rest σ → match o with OpPushBatch vs => vs ≠ [] | _ => True end →
  solo n (queue σ) t (entry o) = Ret (q', p') →
  ∃ σ', reach σ0 σ' ∧ queue σ' = q' ∧ thread σ' t = p' ∧ ∀ u, u ≠ t → thread σ' u = Idle.
Proof.
  intros [es Hes] Hi Ho Hs.
  destruct (solo_reach σ0 n (mkState (queue σ) (<[t := entry o]> (thread σ))) t q' p') as (σ' & Hr & Hq & Hp & Hu).
  - exists (es ++ [Call t o]). econstructor; [done|]. apply step_call; [by apply Hi|]. split; [|done].
    intros _ u. by rewrite Hi.
  - cbn. by rewrite fn_lookup_insert.
  - exists σ'. split_and!; [done..|]. intros u Hne. rewrite Hu by done. cbn. by rewrite fn_lookup_insert_ne.
Qed.

Lemma op_reach σ0 σ t o n q' r :
  reach σ0 σ → at_rest σ → match o with OpPushBatch vs => vs ≠ [] | _ => True end →
  solo n (queue σ) t (entry o) = Ret (q', Returning r) → ∃ σ', reach σ0 σ' ∧ at_rest σ' ∧ queue σ' = q'.
Proof.
  intros Hr Hi Ho Hs. destruct (call_reach σ0 σ t o n q' _ Hr Hi Ho Hs) as (σ' & [es Hes] & Hq & Hp & Hu).
  exists (mkState (queue σ') (<[t := Idle]> (thread σ'))). split_and!; [|..|done].
  - exists (es ++ [Return t r]). econstructor; [done|]. by apply step_return.
  - intros u. cbn. destruct (decide (u = t)) as [->|]; [by rewrite fn_lookup_insert|].
    rewrite fn_lookup_insert_ne by done. by apply Hu.
Qed.
End solo.

(** ** A ring of two slots over its lifetime *)

Notation enc := (enc 2 4).
Notation fits := (fits 2 4 32).

Lemma pow2_4 : pow2 4.
Proof. by exists 2. Qed.

(** Empty at position [k], the producers' cached head at [s]. *)
Definition ring_at (s k : Z) (b : list (Slot nat)) : Queue nat := mkQueue (pack32 (enc s) (enc k)) (pack32 (enc k) (enc k)) b 4.

Lemma two_word k : fits k → is_word 32 (enc k).
Proof. apply (fits_word 2 4); [lia|exact pow2_4|lia]. Qed.

Lemma two_index k : index_of 4 (enc k) = k mod 2.
Proof. apply (enc_index 2 4); [lia|exact pow2_4|lia]. Qed.

Lemma two_advance k : fits k → advance 32 4 2 (enc k) = Ret (enc (k + 1)).
Proof. apply (advance_enc 2 4); [lia|exact pow2_4|lia|lia]. Qed.

Lemma two_lap k : fits k → wrapping_add 32 (enc k) 4 = enc (k + 2).
Proof. apply (enc_add_lap 2 4); [lia|exact pow2_4|lia|lia]. Qed.

Lemma two_eq k j : bool_decide (enc k = enc j) = bool_decide (k = j).
Proof. apply bool_decide_ext. apply enc_eq; lia. Qed.

Lemma two_one k : fits k → wrapping_add 64 (enc k) 1 = enc k + 1.
Proof. intros Hf. pose proof (two_word k Hf) as [? ?]. unfold wrapping_add. apply wrap_small. unfold is_word. lia. Qed.

Lemma two_slot (s r : Z) (b : list (Slot nat)) (k : Z) :
  length b = 2%nat → ∃ sl, b !! Z.to_nat (k mod 2) = Some sl ∧ slot_at (mkQueue s r b 4) (k mod 2) = Ret sl.
Proof.
  intros Hb. pose proof (Z.mod_pos_bound k 2 ltac:(lia)).
  destruct (lookup_lt_is_Some_2 b (Z.to_nat (k mod 2))) as [sl Hsl]; [lia|]. exists sl. split; [done|].
  unfold slot_at, capacity. cbn. rewrite Hb, bool_decide_eq_true_2 by lia. cbn. by rewrite Hsl.
Qed.

Lemma solo_next {A} (n : nat) (q q' : Queue A) t p p' e r :
  code_step q t false p = Ret (q', p', e) → solo n q' t p' = r → solo (S n) q t p = r.
Proof. intros Hc <-. cbn. by rewrite Hc. Qed.

Lemma solo_idle {A} (n : nat) (q : Queue A) t r : solo n q t (Returning r) = Ret (q, Returning r).
Proof. induction n as [|n IH]; [done|]. eapply solo_next; [reflexivity|exact IH]. Qed.

Ltac two := repeat first
  [ rewrite lo32_pack by done | rewrite hi32_pack by done | rewrite two_index | rewrite two_advance by done
  | rewrite two_lap by done | rewrite two_eq | rewrite two_one by done ].

(** Writing position [k]. *)
Lemma write_alone (n : nat) (k : Z) (s r : Z) (b : list (Slot nat)) (x : nat) :
  fits k → length b = 2%nat →
  solo (S (S n)) (mkQueue s r b 4) 0 (Write KPush (enc k) [x]) =
  Ret (mkQueue s r (<[Z.to_nat (k mod 2) := mkSlot (enc k + 1) (Some x)]> b) 4, Returning (RPush true)).
Proof.
  intros Hf Hb. destruct (two_slot s r b k Hb) as (sl & Hsl & Hs).
  eapply solo_next; [cbn [code_step write_step one_lap]; two; rewrite Hs; reflexivity|].
  assert (length (<[Z.to_nat (k mod 2) := mkSlot (stamp sl) (Some x)]> b) = 2%nat) as Hb' by (by rewrite length_insert).
  destruct (two_slot s r _ k Hb') as (sl' & Hsl' & Hs'). unfold set_slot. cbn [sender recv buffer one_lap].
  eapply solo_next; [cbn [code_step write_step one_lap]; two; rewrite Hs'; reflexivity|].
  rewrite solo_idle. rewrite list_lookup_insert_eq in Hsl' by (apply lookup_lt_Some in Hsl; done). injection Hsl' as <-.
  unfold set_slot. cbn. by rewrite list_insert_insert_eq.
Qed.

Lemma push_alone (s k : Z) (b : list (Slot nat)) (x : nat) :
  0 ≤ s ≤ k → k ≤ s + 2 → fits (k + 1) → length b = 2%nat →
  solo 6 (ring_at s k b) 0 (PushLoad KPush x) =
  Ret (mkQueue (pack32 (enc (if bool_decide (k = s + 2) then k else s)) (enc (k + 1))) (pack32 (enc k) (enc k))
         (<[Z.to_nat (k mod 2) := mkSlot (enc k + 1) (Some x)]> b) 4, Returning (RPush true)).
Proof.
  intros Hs Hk Hf1 Hb.
  assert (∀ j, 0 ≤ j ≤ k + 1 → fits j) as Hfit.
  { intros j Hj. eapply (fits_le 2 4 ltac:(lia) ltac:(lia) 32 ltac:(lia)); [|exact Hf1]. lia. }
  pose proof (Hfit s ltac:(lia)). pose proof (Hfit k ltac:(lia)).
  pose proof (two_word s ltac:(done)). pose proof (two_word k ltac:(done)). pose proof (two_word _ Hf1).
  assert (full_hint (ring_at s k b) (sender (ring_at s k b)) = bool_decide (k = s + 2)) as Hfull.
  { unfold full_hint. cbn [ring_at sender one_lap]. two. apply bool_decide_ext. lia. }
  eapply solo_next; [cbn [code_step push_step]; unfold push_check; rewrite Hfull; reflexivity|].
  assert (∀ n hc, solo (S (S (S n))) (ring_at s k b) 0 (PushCas KPush x (pack32 (enc s) (enc k)) hc) =
    solo (S (S n)) (mkQueue (pack32 hc (enc (k + 1))) (pack32 (enc k) (enc k)) b 4) 0 (Write KPush (enc k) [x])) as Hcas.
  { intros n hc. eapply solo_next; [|reflexivity]. cbn [code_step push_step]. unfold capacity, ring_at.
    cbn [buffer sender one_lap]. rewrite Hb. two. change (Z.of_nat 2) with 2. two. cbn [mbind outcome_mbind].
    by rewrite bool_decide_eq_true_2. }
  case_bool_decide as He.
  - eapply solo_next.
    + cbn [code_step push_step ring_at sender recv]. two. rewrite bool_decide_eq_false_2 by lia. reflexivity.
    + fold (ring_at s k b). by rewrite Hcas, write_alone.
  - cbn [ring_at sender]. two. fold (ring_at s k b). by rewrite Hcas, write_alone.
Qed.

Lemma pop_alone (s k : Z) (b : list (Slot nat)) (x : nat) :
  0 ≤ s ≤ k → fits (k + 1) → length b = 2%nat → b !! Z.to_nat (k mod 2) = Some (mkSlot (enc k + 1) (Some x)) →
  solo 5 (mkQueue (pack32 (enc s) (enc (k + 1))) (pack32 (enc k) (enc k)) b 4) 0 (PopLoad false) =
  Ret (ring_at s (k + 1) (<[Z.to_nat (k mod 2) := mkSlot (enc k + 1) None]> b), Returning (RPop (Some x))).
Proof.
  intros Hs Hf1 Hb Hx.
  assert (∀ j, 0 ≤ j ≤ k + 1 → fits j) as Hfit.
  { intros j Hj. eapply (fits_le 2 4 ltac:(lia) ltac:(lia) 32 ltac:(lia)); [|exact Hf1]. lia. }
  pose proof (Hfit s ltac:(lia)). pose proof (Hfit k ltac:(lia)).
  pose proof (two_word s ltac:(done)). pose proof (two_word k ltac:(done)). pose proof (two_word _ Hf1).
  eapply solo_next; [cbn [code_step pop_step recv]; two; rewrite bool_decide_eq_true_2 by done; reflexivity|].
  eapply solo_next; [cbn [code_step pop_step sender]; two; rewrite bool_decide_eq_false_2 by lia; reflexivity|].
  destruct (two_slot (pack32 (enc s) (enc (k + 1))) (pack32 (enc k) (enc k)) b k Hb) as (sl & Hsl & Hsa).
  rewrite Hx in Hsl. injection Hsl as <-.
  eapply solo_next; [cbn [code_step pop_step one_lap]; two; rewrite Hsa; cbn [mbind outcome_mbind stamp];
    rewrite bool_decide_eq_true_2 by done; reflexivity|].
  eapply solo_next; [cbn [code_step pop_step one_lap]; two; rewrite Hsa; reflexivity|].
  eapply solo_next; [|apply solo_idle]. cbn [code_step pop_step]. unfold capacity, set_slot.
  cbn [buffer one_lap]. rewrite length_insert, Hb. change (Z.of_nat 2) with 2. two. reflexivity.
Qed.

(** A push and a pop move the empty ring on by one position. *)
Lemma cycle_reach σ0 σ s k b :
  reach σ0 σ → at_rest σ → queue σ = ring_at s k b → 0 ≤ s ≤ k → k ≤ s + 2 → fits (k + 1) → length b = 2%nat →
  ∃ σ' b', reach σ0 σ' ∧ at_rest σ' ∧ queue σ' = ring_at (if bool_decide (k = s + 2) then k else s) (k + 1) b' ∧
    length b' = 2%nat.
Proof.
  intros Hr Hi Hq Hs Hk Hf Hb. pose proof (push_alone s k b 0%nat Hs Hk Hf Hb) as Hpush. rewrite <- Hq in Hpush.
  destruct (op_reach σ0 σ 0 (OpPush 0%nat) 6 _ _ Hr Hi I Hpush) as (σ1 & Hr1 & Hi1 & Hq1).
  set (s' := if bool_decide (k = s + 2) then k else s) in *.
  set (b1 := <[Z.to_nat (k mod 2) := mkSlot (enc k + 1) (Some 0%nat)]> b) in *.
  assert (length b1 = 2%nat) as Hb1 by (unfold b1; by rewrite length_insert).
  assert (0 ≤ s' ≤ k) as Hs' by (unfold s'; case_bool_decide; lia).
  assert (b1 !! Z.to_nat (k mod 2) = Some (mkSlot (enc k + 1) (Some 0%nat))) as Hx.
  { apply list_lookup_insert_eq. pose proof (Z.mod_pos_bound k 2 ltac:(lia)). lia. }
  pose proof (pop_alone s' k b1 0%nat Hs' Hf Hb1 Hx) as Hpop. rewrite <- Hq1 in Hpop.
  destruct (op_reach σ0 σ1 0 OpPop 5 _ _ Hr1 Hi1 I Hpop) as (σ2 & Hr2 & Hi2 & Hq2).
  exists σ2. eexists. split_and!; [done|done|exact Hq2|]. by rewrite length_insert.
Qed.

(** Every odd position is reached, the producers' copy of the head one behind. *)
Lemma late_reach (m : nat) :
  2 * Z.of_nat m + 1 < 2 ^ 31 - 2 →
  ∃ σ b, reach (init mp_ring) σ ∧ at_rest σ ∧
    queue σ = ring_at (2 * Z.of_nat m) (2 * Z.of_nat m + 1) b ∧ length b = 2%nat.
Proof.
  assert (∀ k, 0 ≤ k → k + 3 < 2 ^ 31 → fits (k + 1)) as Hfits.
  { intros k H0 H1. split; [lia|]. unfold RingPos.enc. pose proof (Z_div_mod_eq_full (k + 1 + 2) 2).
    pose proof (Z.mod_pos_bound (k + 1 + 2) 2 ltac:(lia)). lia. }
  induction m as [|m IH]; intros Hm.
  - destruct (cycle_reach (init mp_ring) (init mp_ring) 0 0 (buffer mp_ring)) as (σ & b & Hr & Hi & Hq & Hb);
      [by exists []; constructor|done|reflexivity|lia|lia|apply Hfits; lia|done|].
    exists σ, b. split_and!; done.
  - destruct IH as (σ & b & Hr & Hi & Hq & Hb); [lia|].
    destruct (cycle_reach _ _ _ _ _ Hr Hi Hq) as (σ1 & b1 & Hr1 & Hi1 & Hq1 & Hb1); [lia|lia|apply Hfits; lia|done|].
    rewrite bool_decide_eq_false_2 in Hq1 by lia.
    destruct (cycle_reach _ _ _ _ _ Hr1 Hi1 Hq1) as (σ2 & b2 & Hr2 & Hi2 & Hq2 & Hb2); [lia|lia|apply Hfits; lia|done|].
    rewrite bool_decide_eq_true_2 in Hq2 by lia. exists σ2, b2. split_and!; [done..| |done].
    rewrite Hq2. f_equal; lia.
Qed.

(** Calls of one thread, one after the other. *)
Fixpoint calls {A} (os : list (op A)) (q : Queue A) : outcome (Queue A * list (result A)) :=
  match os with
  | [] => mret (q, [])
  | o :: os =>
      '(q', p) ← solo 9 q 0 (entry o);
      match p with
      | Returning r => '(q'', rs) ← calls os q'; mret (q'', r :: rs)
      | _ => Undef
      end
  end.

Lemma calls_reach {A} (σ0 : State A) os : ∀ σ q' rs,
  reach σ0 σ → at_rest σ → Forall (λ o, match o with OpPushBatch vs => vs ≠ [] | _ => True end) os →
  calls os (queue σ) = Ret (q', rs) → ∃ σ', reach σ0 σ' ∧ at_rest σ' ∧ queue σ' = q'.
Proof.
  induction os as [|o os IH]; intros σ q' rs Hr Hi Ho Hc; cbn [calls] in Hc.
  { injection Hc as <- <-. by exists σ. }
  apply Forall_cons_1 in Ho as [Ho Hos]. apply mbind_ret_inv in Hc as ([q1 p] & Hs & Hc). destruct p; try done.
  apply mbind_ret_inv in Hc as ([q2 rs'] & Hc & [= <- <-]).
  destruct (op_reach σ0 σ 0 o 9 _ _ Hr Hi Ho Hs) as (σ1 & Hr1 & Hi1 & Hq1). rewrite <- Hq1 in Hc. by eapply IH.
Qed.

(** What the consumer then finds: the ring is empty, the head has wrapped
    around to 0, and the cached tail has not. *)
Definition late_ring : Queue nat :=
  mkQueue (pack32 (2 ^ 32 - 4) 0) (pack32 (2 ^ 32 - 3) 0) [mkSlot (2 ^ 32 - 3) None; mkSlot (2 ^ 32 - 2) None] 4.

(** At position [2 ^ 31 - 3]: two pushes, a pop, a push and a batched pop. *)
Lemma late_calls (s0 s1 : Slot nat) :
  calls [OpPush 1; OpPush 2; OpPop; OpPush 3; OpPopBatch 8]%nat (ring_at (2 ^ 31 - 4) (2 ^ 31 - 3) [s0; s1]) =
  Ret (late_ring, [RPush true; RPush true; RPop (Some 1); RPush true; RPopBatch [2; 3]]%nat).
Proof. vm_compute. reflexivity. Qed.

(** C26: after the stamps wrap around, [pop] may block on an empty ring.  On a
    ring of two slots, after about [2 ^ 31] items, a batched pop whose items
    straddle the point where the 32-bit head wraps around leaves the stale
    cached tail in the word (the clamp compares the stamps as numbers).  The
    next [pop] finds the ring empty, no other operation is running, and every
    step it can take leaves it where it is, waiting for a stamp: it does not
    return that the ring is empty, until another thread pushes. *)
Theorem mpsc_hint_wraps :
  ∃ (q : Queue nat) es σ, new 2 = Ret q ∧ steps (init q) es σ ∧
    lo32 (recv (queue σ)) = lo32 (sender (queue σ)) ∧
    (∃ head tail_cached, thread σ 0%nat = PopSpin head tail_cached) ∧
    (∀ t, t ≠ 0%nat → thread σ t = Idle) ∧
    ∀ e σ', step σ e σ' →
      (∃ t o, t ≠ 0%nat ∧ e = Call t o) ∨ (e = Tau ∧ queue σ' = queue σ ∧ ∀ t, thread σ' t = thread σ t).
Proof.
  destruct (late_reach (Z.to_nat (2 ^ 30 - 2))) as (σ & b & Hr & Hi & Hq & Hb); [lia|].
  destruct b as [|s0 [|s1 []]]; try done. rewrite Z2Nat.id in Hq by lia.
  change (queue σ = ring_at (2 ^ 31 - 4) (2 ^ 31 - 3) [s0; s1]) in Hq. pose proof (late_calls s0 s1) as Hc.
  rewrite <- Hq in Hc. eapply calls_reach in Hc as (σ1 & Hr1 & Hi1 & Hq1); [|exact Hr|done|by repeat constructor].
  assert (solo 1 (queue σ1) 0 (entry OpPop) = Ret (queue σ1, PopSpin 0 (2 ^ 32 - 3))) as Hpop.
  { rewrite Hq1. vm_compute. reflexivity. }
  destruct (call_reach _ _ 0 OpPop 1 _ _ Hr1 Hi1 I Hpop) as (σ2 & [es Hes] & Hq2 & Hp2 & Ho2). rewrite Hq1 in Hq2.
  exists mp_ring, es, σ2. split; [reflexivity|]. split; [done|]. split; [by rewrite Hq2; vm_compute|].
  split; [by eexists _, _|]. split; [done|]. intros e σ' Hst.
  destruct Hst as [σ2 t o Hidle _|σ2 t sp q' p' e Hcode|σ2 t r Hret].
  - left. exists t, o. split; [|done]. intros ->. by rewrite Hp2 in Hidle.
  - right. assert (∃ p, code_step (queue σ2) t sp (thread σ2 t) = Ret (queue σ2, p, Tau) ∧ p = thread σ2 t) as (p & Hs & ->).
    { exists (thread σ2 t). split; [|done]. destruct (decide (t = 0%nat)) as [->|Hne]; [|by rewrite (Ho2 t Hne)].
      rewrite Hp2, Hq2. vm_compute. reflexivity. }
    rewrite Hcode in Hs. injection Hs as -> -> ->. split; [done|]. split; [done|]. intros u. cbn.
    destruct (decide (u = t)) as [->|]; [by rewrite fn_lookup_insert|by rewrite fn_lookup_insert_ne].
  - destruct (decide (t = 0%nat)) as [->|Hne]; [by rewrite Hp2 in Hret|by rewrite (Ho2 t Hne) in Hret].
Qed.
