(* ===== verification/UnboundedFifo.v ===== *)
(** * UnboundedFifo: what the injector queue promises

    The operations of the unbounded queue of
    [crates/youpipe-concurrent-queue/src/unbounded.rs], the pool's injector,
    and the specification they are proved against: an unbounded FIFO object
    with a closing flag whose operations are atomic ([astep]).  A batch is a
    sequence of atomic segments.  A query or a refusal has to be true of the
    contents at some moment during the call. *)

From stdpp Require Import functions.
From S2P Require Import Prelude.
Local Open Scope Z_scope.

(** ** Operations, results, events *)

(** [PopError], and [PushError], whose variant [Full] no unbounded queue
    returns. *)
Inductive pop_error : Type := Empty | Closed.
Inductive push_error (A : Type) : Type := PushClosed (value : A) | PushFull (value : A).
Arguments PushClosed {A} value.
Arguments PushFull {A} value.

(** A batch is an iterator: the length it reports and the items it yields. *)
Inductive op (A : Type) : Type :=
  | OpPush (value : A)
  | OpPushN (len : nat) (values : list A)
  | OpPop
  | OpLen
  | OpIsEmpty
  | OpIsFull
  | OpClose
  | OpIsClosed.
Arguments OpPush {A} value.
Arguments OpPushN {A} len values.
Arguments OpPop {A}.
Arguments OpLen {A}.
Arguments OpIsEmpty {A}.
Arguments OpIsFull {A}.
Arguments OpClose {A}.
Arguments OpIsClosed {A}.

Inductive result (A : Type) : Type :=
  | RPush (r : option (push_error A))
  | RPushN (written : nat)
  | RPop (r : A + pop_error)
  | RLen (n : Z)
  | RBool (b : bool).
Arguments RPush {A} r.
Arguments RPushN {A} written.
Arguments RPop {A} r.
Arguments RLen {A} n.
Arguments RBool {A} b.

(** What a step shows: calls, returns, the moves of the tail and the head and
    the closing, at which the operations take effect. *)
Inductive event (A : Type) : Type :=
  | Tau
  | Call (t : nat) (o : op A)
  | Enq (t : nat) (xs : list A)
  | Deq (t : nat)
  | Shut (t : nat)
  | Return (t : nat) (r : result A).
Arguments Tau {A}.
Arguments Call {A} t o.
Arguments Enq {A} t xs.
Arguments Deq {A} t.
Arguments Shut {A} t.
Arguments Return {A} t r.

(** The items that entered the queue along a run. *)
Definition enqueued {A} (es : list (event A)) : list A :=
  es ≫= (λ e, match e with Enq _ xs => xs | _ => [] end).

Lemma enqueued_snoc {A} (es : list (event A)) e : enqueued (es ++ [e]) = enqueued es ++ enqueued [e].
Proof. unfold enqueued. by rewrite bind_app. Qed.

(** ** The specification *)

(** What the object holds at a moment: how many items have left it, those it
    holds, and whether it is closed. *)
Record View (A : Type) : Type := mkView { gone : Z; items : list A; closed : bool }.
Arguments mkView {A} _ _ _.
Arguments gone {A} _.
Arguments items {A} _.
Arguments closed {A} _.

(** A thread's operation: called, with the number of its items that have
    entered and the views of the object since, or decided. *)
Inductive astatus (A : Type) : Type :=
  | AIdle
  | ACalled (o : op A) (done : nat) (seen : list (View A))
  | ADecided (r : result A).
Arguments AIdle {A}.
Arguments ACalled {A} o done seen.
Arguments ADecided {A} r.

Record Fifo (A : Type) : Type := mkFifo { view : View A; status : nat → astatus A }.
Arguments mkFifo {A} _ _.
Arguments view {A} _.
Arguments status {A} _ _.

Definition empty_fifo {A} : Fifo A := mkFifo (mkView 0 [] false) (λ _, AIdle).

Section spec.
Context {A : Type} (BLOCK : Z).
Implicit Types (v : View A) (s : astatus A).

Definition see v s : astatus A :=
  match s with ACalled o n seen => ACalled o n (seen ++ [v]) | _ => s end.

(** An operation of which [n] items have entered may append [xs]; what is
    left of it. *)
Definition enq_ok (o : op A) (n : nat) (xs : list A) (seen : list (View A)) s : Prop :=
  match o with
  | OpPush x => xs = [x] ∧ s = ADecided (RPush None)
  | OpPushN len vs =>
      xs ≠ [] ∧ xs `prefix_of` drop n (take len vs) ∧ s = ACalled o (n + length xs) seen
  | _ => False
  end.

(** An operation of which [n] items have entered may return [r] without a
    further effect when the object is [v].  A push is refused and a batch cut
    short only by closing; a pop fails only on an empty queue, and tells
    whether it is closed.  [is_empty] is never wrongly true; it may still be
    false for the empty queue just after the last item of a block left. *)
Definition answer_ok (o : op A) (n : nat) (r : result A) v : Prop :=
  match o, r with
  | OpPush x, RPush (Some (PushClosed y)) => y = x ∧ closed v = true
  | OpPushN len vs, RPushN m => m = n ∧ (n = length (take len vs) ∨ closed v = true)
  | OpPop, RPop (inr Empty) => items v = [] ∧ closed v = false
  | OpPop, RPop (inr Closed) => items v = [] ∧ closed v = true
  | OpLen, RLen m => m = Z.of_nat (length (items v))
  | OpIsEmpty, RBool true => items v = []
  | OpIsEmpty, RBool false => items v ≠ [] ∨ 0 < gone v ∧ gone v mod BLOCK = 0
  | OpIsFull, RBool b => b = false
  | OpIsClosed, RBool b => b = closed v
  | _, _ => False
  end.

Definition answered s (r : result A) : Prop :=
  ∃ o n seen v, s = ACalled o n seen ∧ v ∈ seen ∧ answer_ok o n r v.

Inductive astep : Fifo A → event A → Fifo A → Prop :=
  | a_tau a a' : view a' = view a → (∀ t, status a' t = status a t) → astep a Tau a'
  | a_call a t o a' :
      status a t = AIdle → view a' = view a →
      (∀ u, status a' u = <[t := ACalled o 0 [view a]]> (status a) u) → astep a (Call t o) a'
  | a_enq a t o n seen xs s a' :
      status a t = ACalled o n seen → enq_ok o n xs seen s → closed (view a) = false →
      view a' = mkView (gone (view a)) (items (view a) ++ xs) false →
      (∀ u, status a' u = see (view a') (<[t := s]> (status a) u)) → astep a (Enq t xs) a'
  | a_deq a t n seen x a' :
      status a t = ACalled OpPop n seen → items (view a) = x :: items (view a') →
      gone (view a') = gone (view a) + 1 → closed (view a') = closed (view a) →
      (∀ u, status a' u = see (view a') (<[t := ADecided (RPop (inl x))]> (status a) u)) → astep a (Deq t) a'
  | a_shut a t n seen a' :
      status a t = ACalled OpClose n seen → view a' = mkView (gone (view a)) (items (view a)) true →
      (∀ u, status a' u = see (view a') (<[t := ADecided (RBool (negb (closed (view a))))]> (status a) u)) →
      astep a (Shut t) a'
  | a_return a t r a' :
      status a t = ADecided r ∨ answered (status a t) r → view a' = view a →
      (∀ u, status a' u = <[t := AIdle]> (status a) u) → astep a (Return t r) a'.

Inductive asteps : Fifo A → list (event A) → Fifo A → Prop :=
  | asteps_nil a : asteps a [] a
  | asteps_snoc a es a1 e a2 : asteps a es a1 → astep a1 e a2 → asteps a (es ++ [e]) a2.

(** ** Running operations *)

Definition called s (o : op A) (n : nat) : Prop := ∃ seen, s = ACalled o n seen.
Definition seen_some s (P : View A → Prop) : Prop := ∃ o n seen v, s = ACalled o n seen ∧ v ∈ seen ∧ P v.
Definition sees v s : Prop := match s with ACalled _ _ seen => v ∈ seen | _ => True end.

(** The status of an operation that saw some more views. *)
Definition grows s s' : Prop :=
  match s with ACalled o n seen => ∃ seen', s' = ACalled o n seen' ∧ seen ⊆ seen' | _ => s' = s end.

Lemma fifo_grows_called s s' o n : grows s s' → called s o n → called s' o n.
Proof. intros Hg [seen ->]. destruct Hg as (seen' & -> & _). by exists seen'. Qed.
Lemma fifo_grows_seen s s' P : grows s s' → seen_some s P → seen_some s' P.
Proof. intros Hg (o & n & seen & v & -> & Hv & HP). destruct Hg as (seen' & -> & Hs). exists o, n, seen', v. auto. Qed.
Lemma fifo_grows_answered s s' r : grows s s' → answered s r → answered s' r.
Proof. intros Hg (o & n & seen & v & -> & Hv & HP). destruct Hg as (seen' & -> & Hs). exists o, n, seen', v. auto. Qed.
Lemma fifo_grows_decided s s' r : grows s s' → s = ADecided r → s' = ADecided r.
Proof. by intros Hg ->. Qed.
Lemma fifo_grows_refl s : grows s s.
Proof. destruct s; cbn; eauto. Qed.
Lemma fifo_grows_see s v : grows s (see v s).
Proof. destruct s as [|o n seen|]; cbn; try done. exists (seen ++ [v]). split; [done|]. set_solver. Qed.
Lemma sees_see s v : sees v (see v s).
Proof. destruct s; cbn; try done. set_solver. Qed.

Lemma fifo_answer_seen s o n r P :
  called s o n → seen_some s P → (∀ v, P v → answer_ok o n r v) → answered s r.
Proof. intros [seen ->] (o' & n' & seen' & v & [= <- <- <-] & Hv & HP) Ha. exists o, n, seen, v. auto. Qed.
Lemma fifo_answer_now s o n r v : sees v s → called s o n → answer_ok o n r v → answered s r.
Proof. intros Hs [seen ->] Ha. exists o, n, seen, v. done. Qed.
Lemma fifo_seen_now s o n v (P : View A → Prop) : sees v s → called s o n → P v → seen_some s P.
Proof. intros Hs [seen ->] HP. exists o, n, seen, v. done. Qed.
End spec.
