(* ===== verification/Unbounded.v ===== *)
(** * Unbounded: the pool's injector queue

    Model of [crates/youpipe-concurrent-queue/src/unbounded.rs], the lock-free
    multi-producer multi-consumer queue the pool registry injects jobs
    through: a linked list of blocks of 31 slots, pushes and pops of one item,
    batched pushes, closing, the queries, the hand-over by which the last
    consumer of a block frees it, and the destructor, interleaved access by
    access.

    [Slot], [Block] and [Queue] are the memory: [heap] lists every block ever
    installed, [None] once freed, so that an access to a freed block is
    undefined.  A block that was allocated in advance and not yet installed is
    reachable only by its thread, which remembers whether it has one ([nb]);
    it gets its address when it is installed.  [code_step] is one access to
    shared memory of one thread, and [step] the threads' interleaving with
    calls and returns as events.

    A push takes effect when it moves the tail, a pop when it moves the head,
    a close when it marks the tail. *)

From stdpp Require Import functions.
From S2P Require Import Prelude RingPos UnboundedFifo.
Local Open Scope Z_scope.

Notation USIZE := 64.

(** Bits of a slot's state. *)
Notation WRITE := 1.
Notation READ := 2.
Notation DESTROY := 4.

Notation LAP := 32.
Notation BLOCK_CAP := 31.
Notation SHIFT := 1.
Notation MARK_BIT := 1.
(** [1 << SHIFT], the distance of two indices. *)
Notation ONE := 2.

Record Slot (A : Type) : Type := mkSlot { value : option A; state : Z }.
Arguments mkSlot {A} _ _.
Arguments value {A} _.
Arguments state {A} _.

Record Block (A : Type) : Type := mkBlock { next : option Z; slots : list (Slot A) }.
Arguments mkBlock {A} _ _.
Arguments next {A} _.
Arguments slots {A} _.

(** [Block::new]: all-zero bytes. *)
Definition new_block {A} : Block A := mkBlock None (replicate 31 (mkSlot None 0)).

Record Queue (A : Type) : Type := mkQueue {
  head_index : Z; head_block : option Z; tail_index : Z; tail_block : option Z; heap : list (option (Block A)) }.
Arguments mkQueue {A} _ _ _ _ _.
Arguments head_index {A} _.
Arguments head_block {A} _.
Arguments tail_index {A} _.
Arguments tail_block {A} _.
Arguments heap {A} _.

Definition new {A} : Queue A := mkQueue 0 None 0 None [].

(** ** Memory *)

Section memory.
Context {A : Type}.
Implicit Types (q : Queue A) (b : Z).

Definition set_head_index q h : Queue A := mkQueue h (head_block q) (tail_index q) (tail_block q) (heap q).
Definition set_head_block q p : Queue A := mkQueue (head_index q) p (tail_index q) (tail_block q) (heap q).
Definition set_tail_index q t : Queue A := mkQueue (head_index q) (head_block q) t (tail_block q) (heap q).
Definition set_tail_block q p : Queue A := mkQueue (head_index q) (head_block q) (tail_index q) p (heap q).
Definition set_heap q h : Queue A := mkQueue (head_index q) (head_block q) (tail_index q) (tail_block q) h.

(** [Box::into_raw]: the address of a block that is about to be shared. *)
Definition address q : Z := Z.of_nat (length (heap q)).
Definition share q : Queue A := set_heap q (heap q ++ [Some new_block]).

Definition deref q b : outcome (Block A) :=
  match heap q !! Z.to_nat b with Some (Some blk) => mret blk | _ => Undef end.
Definition store q b (blk : Block A) : Queue A := set_heap q (<[Z.to_nat b := Some blk]> (heap q)).
(** [drop(Box::from_raw(this))]. *)
Definition free q b : outcome (Queue A) :=
  deref q b;; mret (set_heap q (<[Z.to_nat b := None]> (heap q))).

(** [slots.get_unchecked(i)]. *)
Definition slot_at q b (i : Z) : outcome (Slot A) :=
  blk ← deref q b; match slots blk !! Z.to_nat i with Some s => mret s | None => Undef end.
Definition set_slot q b (i : Z) (s : Slot A) : outcome (Queue A) :=
  blk ← deref q b; mret (store q b (mkBlock (next blk) (<[Z.to_nat i := s]> (slots blk)))).
End memory.

Definition offset_of (index : Z) : Z := Z.shiftr index SHIFT mod LAP.
Definition lap_of (index : Z) : Z := Z.shiftr index SHIFT / LAP.
Definition marked (index : Z) : bool := negb (bool_decide (Z.land index MARK_BIT = 0)).
(** [state & bit != 0]. *)
Definition has (bit st : Z) : bool := negb (bool_decide (Z.land st bit = 0)).

(** ** Program points *)

(** What a thread pushes: one item, an item of a batch whose items are too
    wide to stage ([push_n]'s fallback to [push], with the number of
    iterations left), or a staged batch. *)
Inductive job (A : Type) : Type :=
  | JOne (value : A)
  | JWide (todo : nat) (iter : list A) (written : nat) (value : A)
  | JMany (len : nat) (iter stage : list A) (written : nat).
Arguments JOne {A} value.
Arguments JWide {A} todo iter written value.
Arguments JMany {A} len iter stage written.

(** A program point is the local state before the next access to shared
    memory.  [nb] says whether the thread holds a block allocated in
    advance. *)
Inductive Pc (A : Type) : Type :=
  | Idle
  | Returning (r : result A)
  | PushIndex (j : job A) (nb : bool)
  | PushBlock (j : job A) (nb : bool) (tail : Z)
  | FirstCas (j : job A) (nb : bool) (tail : Z)
  | FirstHead (j : job A) (nb : bool) (tail : Z) (b : Z)
  | PushCas (j : job A) (nb : bool) (tail : Z) (b : Z)
  | SetTailBlock (j : job A) (nb : bool) (tail : Z) (b : Z)
  | BumpTail (j : job A) (tail : Z) (b : Z) (nx : Z)
  | LinkNext (j : job A) (tail : Z) (b : Z) (nx : Z)
  | Write (j : job A) (nb : bool) (tail : Z) (b : Z) (i : nat)
  | Flag (j : job A) (nb : bool) (tail : Z) (b : Z) (i : nat)
  | PopIndex
  | PopBlock (head : Z)
  | PopTail (head : Z) (block : option Z)
  | PopCas (head new_head : Z) (b : Z)
  | WaitNext (b : Z) (new_head : Z)
  | NextNext (b : Z) (new_head : Z) (nx : Z)
  | SetHeadBlock (b : Z) (nx : Z) (next_index : Z)
  | SetHeadIndex (b : Z) (next_index : Z)
  | WaitWrite (b : Z) (offset : Z)
  | ReadValue (b : Z) (offset : Z)
  | MarkRead (b : Z) (offset : Z) (x : A)
  | DestroyLoad (b : Z) (i : Z) (x : A)
  | DestroyOr (b : Z) (i : Z) (x : A)
  | DestroyFree (b : Z) (x : A)
  | Len1
  | Len2 (tail : Z)
  | Len3 (tail head : Z)
  | Empty1
  | Empty2 (head : Z)
  | CloseTail
  | LoadClosed.
Arguments Idle {A}.
Arguments Returning {A} r.
Arguments PushIndex {A} j nb.
Arguments PushBlock {A} j nb tail.
Arguments FirstCas {A} j nb tail.
Arguments FirstHead {A} j nb tail b.
Arguments PushCas {A} j nb tail b.
Arguments SetTailBlock {A} j nb tail b.
Arguments BumpTail {A} j tail b nx.
Arguments LinkNext {A} j tail b nx.
Arguments Write {A} j nb tail b i.
Arguments Flag {A} j nb tail b i.
Arguments PopIndex {A}.
Arguments PopBlock {A} head.
Arguments PopTail {A} head block.
Arguments PopCas {A} head new_head b.
Arguments WaitNext {A} b new_head.
Arguments NextNext {A} b new_head nx.
Arguments SetHeadBlock {A} b nx next_index.
Arguments SetHeadIndex {A} b next_index.
Arguments WaitWrite {A} b offset.
Arguments ReadValue {A} b offset.
Arguments MarkRead {A} b offset x.
Arguments DestroyLoad {A} b i x.
Arguments DestroyOr {A} b i x.
Arguments DestroyFree {A} b x.
Arguments Len1 {A}.
Arguments Len2 {A} tail.
Arguments Len3 {A} tail head.
Arguments Empty1 {A}.
Arguments Empty2 {A} head.
Arguments CloseTail {A}.
Arguments LoadClosed {A}.

(** ** The code, access by access *)

Section steps.
Context {A : Type} (wide : bool).
Implicit Types (q : Queue A) (t : nat) (j : job A).

Notation outc := (outcome (Queue A * Pc A * event A)).

(** The loop of [push_n] over items too wide to stage. *)
Definition wide_next (todo : nat) (iter : list A) (written : nat) : Pc A :=
  match todo, iter with
  | S todo, x :: iter => PushIndex (JWide todo iter written x) false
  | _, _ => Returning (RPushN written)
  end.

Definition entry (o : op A) : Pc A :=
  match o with
  | OpPush x => PushIndex (JOne x) false
  | OpPushN len values =>
      if bool_decide (len = 0)%nat then Returning (RPushN 0)
      else if wide then wide_next len values 0
      else PushIndex (JMany len values [] 0) false
  | OpPop => PopIndex
  | OpLen => Len1
  | OpIsEmpty => Empty1
  | OpIsFull => Returning (RBool false)
  | OpClose => CloseTail
  | OpIsClosed => LoadClosed
  end.

(** The queue is closed. *)
Definition push_closed j : result A :=
  match j with
  | JOne x => RPush (Some (PushClosed x))
  | JWide _ _ written _ | JMany _ _ _ written => RPushN written
  end.

(** (Re)filling the stage of a batch: nothing is left when the answer is
    [None]. *)
Definition refill j (offset : Z) : option (job A) :=
  match j with
  | JMany len iter [] written =>
      let cap := (Z.to_nat (BLOCK_CAP - offset) `min` (len - written))%nat in
      match take cap iter with
      | [] => None
      | stage => Some (JMany len (drop cap iter) stage written)
      end
  | _ => Some j
  end.

(** The items the next move of the tail reserves slots for. *)
Definition segment j (offset : Z) : list A :=
  match j with
  | JOne x | JWide _ _ _ x => [x]
  | JMany _ _ stage _ => take (Z.to_nat (BLOCK_CAP - offset)) stage
  end.
Definition seg_len j (tail : Z) : Z := Z.of_nat (length (segment j (offset_of tail))).
(** [offset + n == BLOCK_CAP]. *)
Definition fills j (tail : Z) : bool := bool_decide (offset_of tail + seg_len j tail = BLOCK_CAP).

(** The head of the loop, with the index and the block at hand. *)
Definition push_top j (nb : bool) (tail : Z) (block : option Z) : Pc A :=
  if marked tail then Returning (push_closed j)
  else
    let offset := offset_of tail in
    if bool_decide (offset = BLOCK_CAP) then PushIndex j nb
    else match refill j offset with
      | None => Returning (push_closed j)
      | Some j =>
          let nb := nb || fills j tail in
          match block with None => FirstCas j nb tail | Some b => PushCas j nb tail b end
      end.

(** After a segment of a batch: [tail] and [b] are where the next one goes. *)
Definition batch_next j (n : nat) (nb : bool) (tail : Z) (b : Z) : Pc A :=
  match j with
  | JMany len iter stage written =>
      if bool_decide (drop n stage = []) && bool_decide (written + n = len)%nat
      then Returning (RPushN (written + n))
      else push_top (JMany len iter (drop n stage) (written + n)) nb tail (Some b)
  | _ => Returning (push_closed j)
  end.

(** After the slots of a segment are written. *)
Definition written_all j (nb : bool) (tail : Z) (b : Z) : Pc A :=
  match j with
  | JOne _ => Returning (RPush None)
  | JWide todo iter written _ => wide_next todo iter (written + 1)
  | JMany _ _ _ _ =>
      if fills j tail then SetTailBlock j nb tail b
      else batch_next j (length (segment j (offset_of tail))) nb (tail + Z.shiftl (seg_len j tail) SHIFT) b
  end.

(** After the move of the tail: a single push installs the next block before
    it writes its item, a batch after it wrote them. *)
Definition reserved j (nb : bool) (tail : Z) (b : Z) : Pc A :=
  match j with
  | JMany _ _ _ _ => Write j nb tail b 0
  | _ => if fills j tail then SetTailBlock j nb tail b else Write j nb tail b 0
  end.
Definition linked j (tail : Z) (b nx : Z) : outcome (Pc A) :=
  match j with
  | JMany _ _ _ _ =>
      tail' ← checked_add USIZE (tail + Z.shiftl (seg_len j tail) SHIFT) ONE;
      mret (batch_next j (length (segment j (offset_of tail))) false tail' nx)
  | _ => mret (Write j false tail b 0)
  end.

Definition push_step q t (spurious : bool) (p : Pc A) : outc :=
  match p with
  | PushIndex j nb => mret (q, PushBlock j nb (tail_index q), Tau)
  | PushBlock j nb tail => mret (q, push_top j nb tail (tail_block q), Tau)
  | FirstCas j nb tail =>
      match tail_block q with
      | None =>
          let new := address q in
          mret (set_tail_block (share q) (Some new), FirstHead j nb tail new, Tau)
      | Some _ => mret (q, PushIndex j true, Tau)
      end
  | FirstHead j nb tail b => mret (set_head_block q (Some b), PushCas j nb tail b, Tau)
  | PushCas j nb tail b =>
      new_tail ← checked_add USIZE tail (Z.shiftl (seg_len j tail) SHIFT);
      if bool_decide (tail_index q = tail) && negb spurious
      then mret (set_tail_index q new_tail, reserved j nb tail b, Enq t (segment j (offset_of tail)))
      else mret (q, PushBlock j nb (tail_index q), Tau)
  | SetTailBlock j nb tail b =>
      guard_panic nb;;
      let nx := address q in
      mret (set_tail_block (share q) (Some nx), BumpTail j tail b nx, Tau)
  | BumpTail j tail b nx =>
      mret (set_tail_index q (wrapping_add USIZE (tail_index q) ONE), LinkNext j tail b nx, Tau)
  | LinkNext j tail b nx =>
      blk ← deref q b;
      p' ← linked j tail b nx;
      mret (store q b (mkBlock (Some nx) (slots blk)), p', Tau)
  | Write j nb tail b i =>
      let at_ := offset_of tail + Z.of_nat i in
      x ← assume_init (segment j (offset_of tail) !! i);
      s ← slot_at q b at_;
      q' ← set_slot q b at_ (mkSlot (Some x) (state s));
      mret (q', Flag j nb tail b i, Tau)
  | Flag j nb tail b i =>
      let at_ := offset_of tail + Z.of_nat i in
      s ← slot_at q b at_;
      q' ← set_slot q b at_ (mkSlot (value s) (Z.lor (state s) WRITE));
      mret (q', if bool_decide (Z.of_nat (S i) < seg_len j tail) then Write j nb tail b (S i)
                else written_all j nb tail b, Tau)
  | _ => mret (q, p, Tau)
  end.

(** [pop] up to the move of the head. *)
Definition pop_go (head new_head : Z) (block : option Z) : Pc A :=
  match block with None => PopIndex | Some b => PopCas head new_head b end.
Definition pop_top (head : Z) (block : option Z) : outcome (Pc A) :=
  if bool_decide (offset_of head = BLOCK_CAP) then mret PopIndex
  else
    new_head ← checked_add USIZE head ONE;
    if marked new_head then mret (pop_go head new_head block) else mret (PopTail head block).

(** [Block::destroy] from slot [i], on behalf of a pop that returns [x]. *)
Definition destroy (b i : Z) (x : A) : Pc A :=
  if bool_decide (i < BLOCK_CAP - 1) then DestroyLoad b i x else DestroyFree b x.

Definition pop_step q t (spurious : bool) (p : Pc A) : outc :=
  match p with
  | PopIndex => mret (q, PopBlock (head_index q), Tau)
  | PopBlock head => p' ← pop_top head (head_block q); mret (q, p', Tau)
  | PopTail head block =>
      new_head ← checked_add USIZE head ONE;
      let tail := tail_index q in
      if bool_decide (Z.shiftr head SHIFT = Z.shiftr tail SHIFT)
      then mret (q, Returning (RPop (inr (if marked tail then Closed else Empty))), Tau)
      else
        let new_head := if bool_decide (lap_of head = lap_of tail) then new_head else Z.lor new_head MARK_BIT in
        mret (q, pop_go head new_head block, Tau)
  | PopCas head new_head b =>
      if bool_decide (head_index q = head) && negb spurious
      then mret (set_head_index q new_head,
                 if bool_decide (offset_of head + 1 = BLOCK_CAP) then WaitNext b new_head
                 else WaitWrite b (offset_of head), Deq t)
      else mret (q, PopBlock (head_index q), Tau)
  | WaitNext b new_head =>
      blk ← deref q b;
      mret (q, match next blk with Some nx => NextNext b new_head nx | None => WaitNext b new_head end, Tau)
  | NextNext b new_head nx =>
      let next_index := wrapping_add USIZE (Z.land new_head (not_word USIZE MARK_BIT)) ONE in
      blk ← deref q nx;
      mret (q, SetHeadBlock b nx (match next blk with Some _ => Z.lor next_index MARK_BIT | None => next_index end), Tau)
  | SetHeadBlock b nx next_index => mret (set_head_block q (Some nx), SetHeadIndex b next_index, Tau)
  | SetHeadIndex b next_index => mret (set_head_index q next_index, WaitWrite b (BLOCK_CAP - 1), Tau)
  | _ => mret (q, p, Tau)
  end.

(** Reading the slot that was taken, then handing over or freeing its
    block. *)
Definition read_step q (p : Pc A) : outc :=
  match p with
  | WaitWrite b off =>
      s ← slot_at q b off;
      mret (q, if has WRITE (state s) then ReadValue b off else WaitWrite b off, Tau)
  | ReadValue b off =>
      s ← slot_at q b off;
      x ← assume_init (value s);
      q' ← set_slot q b off (mkSlot None (state s));
      mret (q', if bool_decide (off + 1 = BLOCK_CAP) then destroy b 0 x else MarkRead b off x, Tau)
  | MarkRead b off x =>
      s ← slot_at q b off;
      q' ← set_slot q b off (mkSlot (value s) (Z.lor (state s) READ));
      mret (q', if has DESTROY (state s) then destroy b (off + 1) x else Returning (RPop (inl x)), Tau)
  | DestroyLoad b i x =>
      s ← slot_at q b i;
      mret (q, if has READ (state s) then destroy b (i + 1) x else DestroyOr b i x, Tau)
  | DestroyOr b i x =>
      s ← slot_at q b i;
      q' ← set_slot q b i (mkSlot (value s) (Z.lor (state s) DESTROY));
      mret (q', if has READ (state s) then destroy b (i + 1) x else Returning (RPop (inl x)), Tau)
  | DestroyFree b x => q' ← free q b; mret (q', Returning (RPop (inl x)), Tau)
  | _ => mret (q, p, Tau)
  end.

(** [len] on a consistent pair of indices. *)
Definition len_of (tail head : Z) : outcome Z :=
  let tail := Z.land tail (not_word USIZE 1) in
  let head := Z.land head (not_word USIZE 1) in
  let fix_up i := if bool_decide (Z.land (Z.shiftr i SHIFT) (LAP - 1) = LAP - 1) then wrapping_add USIZE i ONE else i in
  let tail := fix_up tail in
  let head := fix_up head in
  laps ← checked_mul USIZE (lap_of head) LAP;
  let back := wrap USIZE (Z.shiftl laps SHIFT) in
  let tail := Z.shiftr (wrapping_sub USIZE tail back) SHIFT in
  let head := Z.shiftr (wrapping_sub USIZE head back) SHIFT in
  d ← checked_sub tail head;
  checked_sub d (tail / LAP).

(** [len], [is_empty], [close] and [is_closed]. *)
Definition query_step q t (p : Pc A) : outc :=
  match p with
  | Len1 => mret (q, Len2 (tail_index q), Tau)
  | Len2 tail => mret (q, Len3 tail (head_index q), Tau)
  | Len3 tail head =>
      if bool_decide (tail_index q = tail)
      then n ← len_of tail head; mret (q, Returning (RLen n), Tau)
      else mret (q, Len1, Tau)
  | Empty1 => mret (q, Empty2 (head_index q), Tau)
  | Empty2 head =>
      mret (q, Returning (RBool (bool_decide (Z.shiftr head SHIFT = Z.shiftr (tail_index q) SHIFT))), Tau)
  | CloseTail =>
      mret (set_tail_index q (Z.lor (tail_index q) MARK_BIT), Returning (RBool (negb (marked (tail_index q)))), Shut t)
  | LoadClosed => mret (q, Returning (RBool (marked (tail_index q))), Tau)
  | _ => mret (q, p, Tau)
  end.

Definition code_step q t (spurious : bool) (p : Pc A) : outc :=
  match p with
  | PushIndex _ _ | PushBlock _ _ _ | FirstCas _ _ _ | FirstHead _ _ _ _ | PushCas _ _ _ _
  | SetTailBlock _ _ _ _ | BumpTail _ _ _ _ | LinkNext _ _ _ _ | Write _ _ _ _ _ | Flag _ _ _ _ _ =>
      push_step q t spurious p
  | PopIndex | PopBlock _ | PopTail _ _ | PopCas _ _ _ | WaitNext _ _ | NextNext _ _ _
  | SetHeadBlock _ _ _ | SetHeadIndex _ _ => pop_step q t spurious p
  | WaitWrite _ _ | ReadValue _ _ | MarkRead _ _ _ | DestroyLoad _ _ _ | DestroyOr _ _ _ | DestroyFree _ _ =>
      read_step q p
  | Len1 | Len2 _ | Len3 _ _ | Empty1 | Empty2 _ | CloseTail | LoadClosed => query_step q t p
  | Idle | Returning _ => mret (q, p, Tau)
  end.
End steps.

(** ** The interleaving *)

Record State (A : Type) : Type := mkState { queue : Queue A; thread : nat → Pc A }.
Arguments mkState {A} _ _.
Arguments queue {A} _.
Arguments thread {A} _ _.

Definition init {A} : State A := mkState new (λ _, Idle).

Inductive step {A} (wide : bool) : State A → event A → State A → Prop :=
  | step_call σ t o :
      thread σ t = Idle → step wide σ (Call t o) (mkState (queue σ) (<[t := entry wide o]> (thread σ)))
  | step_code σ t spurious q' p' e :
      code_step (queue σ) t spurious (thread σ t) = Ret (q', p', e) →
      step wide σ e (mkState q' (<[t := p']> (thread σ)))
  | step_return σ t r :
      thread σ t = Returning r →
      step wide σ (Return t r) (mkState (queue σ) (<[t := Idle]> (thread σ))).

Inductive steps {A} (wide : bool) : State A → list (event A) → State A → Prop :=
  | steps_nil σ : steps wide σ [] σ
  | steps_snoc σ es σ1 e σ2 : steps wide σ es σ1 → step wide σ1 e σ2 → steps wide σ (es ++ [e]) σ2.

(** [Drop]: the values between the head and the tail, in order, and the
    blocks that are still allocated. *)
Fixpoint drop_loop {A} (fuel : nat) (q : Queue A) (head tail : Z) (block : option Z) :
    outcome (list A * option Z * Queue A) :=
  match fuel with
  | O => NoFuel
  | S fuel =>
      if bool_decide (head = tail) then mret ([], block, q)
      else
        let offset := offset_of head in
        let head' := wrapping_add USIZE head ONE in
        match block with
        | None => Undef
        | Some b =>
            if bool_decide (offset < BLOCK_CAP)
            then
              s ← slot_at q b offset;
              x ← assume_init (value s);
              '(xs, block, q) ← drop_loop fuel q head' tail block;
              mret (x :: xs, block, q)
            else
              blk ← deref q b;
              q ← free q b;
              drop_loop fuel q head' tail (next blk)
        end
  end.
Definition drop_queue {A} (q : Queue A) : outcome (list A * Queue A) :=
  let head := Z.land (head_index q) (not_word USIZE 1) in
  let tail := Z.land (tail_index q) (not_word USIZE 1) in
  '(xs, block, q) ← drop_loop (S (Z.to_nat (wrapping_sub USIZE tail head))) q head tail (head_block q);
  match block with
  | None => mret (xs, q)
  | Some b => q ← free q b; mret (xs, q)
  end.

(** ** Concrete runs

    A schedule names threads and what they do: start an operation, perform one
    access (no weak exchange fails), or return. *)
Inductive choice (A : Type) : Type := Start (o : op A) | Go | End.
Arguments Start {A} o.
Arguments Go {A}.
Arguments End {A}.

Fixpoint run {A} (wide : bool) (sched : list (nat * choice A)) (σ : State A) (es : list (event A)) :
    option (State A * list (event A)) :=
  match sched with
  | [] => Some (σ, es)
  | (t, c) :: sched =>
      match c, thread σ t with
      | Start o, Idle =>
          run wide sched (mkState (queue σ) (<[t := entry wide o]> (thread σ))) (es ++ [Call t o])
      | Go, p =>
          match code_step (queue σ) t false p with
          | Ret (q', p', e) => run wide sched (mkState q' (<[t := p']> (thread σ))) (es ++ [e])
          | _ => None
          end
      | End, Returning r => run wide sched (mkState (queue σ) (<[t := Idle]> (thread σ))) (es ++ [Return t r])
      | _, _ => None
      end
  end.

Lemma unb_run_steps {A} wide sched (σ0 σ σ' : State A) es es' :
  steps wide σ0 es σ → run wide sched σ es = Some (σ', es') → steps wide σ0 es' σ'.
Proof.
  revert σ es. induction sched as [|[t c] sched IH]; intros σ es Hs Hr; cbn in Hr; [by injection Hr as <- <-|].
  destruct c.
  - destruct (thread σ t) eqn:Ht; try done. eapply IH; [|exact Hr]. econstructor; [done|]. by apply step_call.
  - destruct (code_step (queue σ) t false (thread σ t)) as [[[q' p'] e]| | |] eqn:Hc; try done.
    eapply IH; [|exact Hr]. econstructor; [done|]. by eapply step_code.
  - destruct (thread σ t) eqn:Ht; try done. eapply IH; [|exact Hr]. econstructor; [done|]. by apply step_return.
Qed.
