(* ===== verification/UnboundedGhost.v ===== *)
(** * UnboundedGhost: the history of the injector queue

    The ghost history the proof of [Unbounded] keeps.  Every item that
    entered the queue has a position, the number of items that entered before
    it; position [31 * b + i] lives in slot [i] of block [b].  A position has
    a producer side (claimed, written, flagged) and a consumer side (free,
    taken, read out, done).  A full block goes through the installation of its
    successor, the head through the move to the next block, and a consumed
    block through the hand-over that ends in its being freed.  Whoever has to
    make the next move of one of these is its holder.  [GInv] is the invariant
    of the history, [QInv] says what the memory holds in terms of it. *)

From stdpp Require Import functions.
From S2P Require Import Prelude RingPos UnboundedFifo Unbounded.
Local Open Scope Z_scope.

#[export] Ltac Zify.zify_post_hook ::= Z.div_mod_to_equations.

Notation enc := (RingPos.enc 31 32).

(** ** Phases *)

Inductive pphase : Type := PNone | PClaimed (t : nat) | PWritten (t : nat) | PFlagged.
(** The consumer of the last slot of a block moves the head on first. *)
Inductive cphase : Type := CFree | CMoving (t : nat) | CTaken (t : nat) | CGot (t : nat) | CDone.
(** The successor of a block: not due yet, due, installed as the tail's block,
    the tail moved to it, linked. *)
Inductive lphase : Type := LOpen | LFull (t : nat) | LStored (t : nat) | LBumped (t : nat) | LLinked.
(** Who destroys a block: nobody yet, a thread about to look at slot [i], the
    consumer of slot [i] once it is done, or it is freed. *)
Inductive bphase : Type := BNone | BWalk (i : Z) (t : nat) | BParked (i : Z) | BFreed.
(** The first block: absent, the tail's, also the head's. *)
Inductive fphase : Type := FNone | FHead (t : nat) | FDone.
(** The head at the end of block [b]: nothing pending, to be given the next
    block, to be given its index. *)
Inductive hphase : Type := HNone | HWait (t : nat) (b : Z) | HStored (t : nat) (b : Z).

Record Ghost (A : Type) : Type := mkGhost {
  gH : Z; glog : list A; gclosed : bool; gprod : Z → pphase; gcons : Z → cphase; gd : Z → bool;
  glk : Z → lphase; gbat : Z → bphase; gfst : fphase; ghp : hphase; ghm : bool }.
Arguments mkGhost {A} _ _ _ _ _ _ _ _ _ _ _.
Arguments gH {A} _.
Arguments glog {A} _.
Arguments gclosed {A} _.
Arguments gprod {A} _ _.
Arguments gcons {A} _ _.
Arguments gd {A} _ _.
Arguments glk {A} _ _.
Arguments gbat {A} _ _.
Arguments gfst {A} _.
Arguments ghp {A} _.
Arguments ghm {A} _.

#[export] Instance lphase_eq_dec : EqDecision lphase.
Proof. solve_decision. Defined.
#[export] Instance bphase_eq_dec : EqDecision bphase.
Proof. solve_decision. Defined.

Lemma fn_get {B} (k j : Z) (v : B) (f : Z → B) : <[k := v]> f j = if decide (k = j) then v else f j.
Proof. reflexivity. Qed.

(** ** Words *)

Lemma offset_div i : offset_of i = (i / 2) mod 32.
Proof. unfold offset_of. by rewrite Z.shiftr_div_pow2. Qed.
Lemma lap_div i : lap_of i = i / 64.
Proof. unfold lap_of. rewrite Z.shiftr_div_pow2 by lia. lia. Qed.
Lemma marked_odd i : marked i = bool_decide (i mod 2 = 1).
Proof.
  unfold marked. assert (Z.land i 1 = i mod 2) as -> by exact (Z.land_ones i 1 ltac:(lia)).
  do 2 case_bool_decide; try done; lia.
Qed.
Lemma mark_or i : 0 ≤ i → Z.lor i 1 = i - i mod 2 + 1.
Proof.
  intros Hi. assert (∀ m, 0 ≤ m → Z.lor (2 * m) 1 = 2 * m + 1 ∧ Z.lor (2 * m + 1) 1 = 2 * m + 1) as Hm.
  { intros [|p|p] Hp; [done|done|lia]. }
  destruct (Hm (i / 2)) as [H0 H1]; [lia|].
  assert (i = 2 * (i / 2) ∨ i = 2 * (i / 2) + 1) as [He|He] by lia; rewrite He at 1; [rewrite H0|rewrite H1]; lia.
Qed.
Lemma unmark i : 0 ≤ i < 2 ^ 64 → Z.land i (not_word 64 1) = i - i mod 2.
Proof.
  intros Hi. pose proof (land_not_word 1 2 ltac:(by exists 1) ltac:(lia) 64 ltac:(lia) i Hi ltac:(lia)) as H.
  change (2 - 1) with 1 in H. lia.
Qed.
Lemma half i : Z.shiftr i 1 = i / 2.
Proof. by rewrite Z.shiftr_div_pow2. Qed.
Lemma twice i : Z.shiftl i 1 = 2 * i.
Proof. rewrite Z.shiftl_mul_pow2 by lia. lia. Qed.

(** The state of a slot, bit by bit. *)
Definition word3 (w r d : bool) : Z := Z.b2z w + 2 * Z.b2z r + 4 * Z.b2z d.
Lemma word3_has w r d : has 1 (word3 w r d) = w ∧ has 2 (word3 w r d) = r ∧ has 4 (word3 w r d) = d.
Proof. by destruct w, r, d. Qed.
Lemma word3_or w r d :
  Z.lor (word3 w r d) 1 = word3 true r d ∧ Z.lor (word3 w r d) 2 = word3 w true d ∧
  Z.lor (word3 w r d) 4 = word3 w r true.
Proof. by destruct w, r, d. Qed.

(** ** The invariant of the history *)

Section ghost.
Context {A : Type}.
Implicit Types (g : Ghost A) (q : Queue A) (b k i : Z).

Definition gT g : Z := Z.of_nat (length (glog g)).
Definition logged g k : option A := glog g !! Z.to_nat k.
Definition gview g : View A := mkView (gH g) (drop (Z.to_nat (gH g)) (glog g)) (gclosed g).

Definition is_done (c : cphase) : bool := match c with CDone => true | _ => false end.
Definition is_flagged (p : pphase) : bool := match p with PFlagged => true | _ => false end.

(** Is the tail's index at the end of a block, is the head's? *)
Definition tpend g : bool := match glk g (gT g / 31 - 1) with LFull _ | LStored _ => true | _ => false end.
Definition hpend g : bool := match ghp g with HNone => false | _ => true end.
Definition tail_lap g : Z := match glk g (gT g / 31 - 1) with LFull _ => gT g / 31 - 1 | _ => gT g / 31 end.
Definition head_lap g : Z := match ghp g with HWait _ b => b | _ => gH g / 31 end.

Definition tail_raw g : Z := 2 * (enc (gT g) - Z.b2z (tpend g)) + Z.b2z (gclosed g).
Definition head_raw g : Z := 2 * (enc (gH g) - Z.b2z (hpend g)) + Z.b2z (ghm g).
Definition tail_blk g : option Z := match gfst g with FNone => None | _ => Some (tail_lap g) end.
Definition head_blk g : option Z := match gfst g with FDone => Some (head_lap g) | _ => None end.
Definition nblk g : Z := match gfst g with FNone => 0 | _ => tail_lap g + 1 end.

Definition got (c : cphase) : Prop := match c with CGot _ | CDone => True | _ => False end.
Definition walk_ok g b : Prop :=
  match gbat g b with
  | BNone => True
  | BWalk i _ => 0 ≤ i ≤ 30 ∧ ∀ j, 0 ≤ j < i → gcons g (31 * b + j) = CDone
  | BParked i =>
      0 ≤ i < 30 ∧ (∀ j, 0 ≤ j < i → gcons g (31 * b + j) = CDone) ∧
      gd g (31 * b + i) = true ∧ gcons g (31 * b + i) ≠ CDone
  | BFreed => ∀ j, 0 ≤ j < 31 → gcons g (31 * b + j) = CDone
  end.

Record GInv g : Prop := {
  gi_le : 0 ≤ gH g ≤ gT g;
  gi_prod k : gprod g k = PNone ↔ ¬ 0 ≤ k < gT g;
  gi_cons k : gcons g k = CFree ↔ ¬ 0 ≤ k < gH g;
  gi_got k : got (gcons g k) → gprod g k = PFlagged;
  gi_lk b : glk g b = LOpen ↔ ¬ (0 ≤ b ∧ 31 * (b + 1) ≤ gT g);
  gi_pend b t : glk g b = LFull t ∨ glk g b = LStored t → gT g = 31 * (b + 1);
  gi_first : gfst g = FNone → gT g = 0;
  gi_first_head : gfst g ≠ FDone → gH g = 0;
  gi_hp t b : ghp g = HWait t b ∨ ghp g = HStored t b →
    0 ≤ b ∧ gH g = 31 * (b + 1) ∧ gcons g (31 * b + 30) = CMoving t;
  gi_moving k t : gcons g k = CMoving t → ∃ b, k = 31 * b + 30 ∧ (ghp g = HWait t b ∨ ghp g = HStored t b);
  gi_link b : 0 ≤ b → 31 * (b + 1) ≤ gH g → glk g b = LLinked ∨ ∃ t, ghp g = HWait t b;
  gi_mark : ghm g = true → 31 * ((enc (gH g) - Z.b2z (hpend g)) / 32 + 1) ≤ gT g;
  gi_bat b : gbat g b = BNone ↔ gcons g (31 * b + 30) ≠ CDone;
  gi_walk b : walk_ok g b;
  gi_gd b i : 0 ≤ i < 31 → gd g (31 * b + i) = true → gcons g (31 * b + i) ≠ CDone → gbat g b = BParked i;
}.

(** ** Moves of the history *)

Definition set_closed g : Ghost A :=
  mkGhost (gH g) (glog g) true (gprod g) (gcons g) (gd g) (glk g) (gbat g) (gfst g) (ghp g) (ghm g).
Definition set_fst g f : Ghost A :=
  mkGhost (gH g) (glog g) (gclosed g) (gprod g) (gcons g) (gd g) (glk g) (gbat g) f (ghp g) (ghm g).
Definition set_prod g k p : Ghost A :=
  mkGhost (gH g) (glog g) (gclosed g) (<[k := p]> (gprod g)) (gcons g) (gd g) (glk g) (gbat g) (gfst g) (ghp g) (ghm g).
Definition set_cons g k c : Ghost A :=
  mkGhost (gH g) (glog g) (gclosed g) (gprod g) (<[k := c]> (gcons g)) (gd g) (glk g) (gbat g) (gfst g) (ghp g) (ghm g).
Definition set_lk g b l : Ghost A :=
  mkGhost (gH g) (glog g) (gclosed g) (gprod g) (gcons g) (gd g) (<[b := l]> (glk g)) (gbat g) (gfst g) (ghp g) (ghm g).
Definition set_hp g h m : Ghost A :=
  mkGhost (gH g) (glog g) (gclosed g) (gprod g) (gcons g) (gd g) (glk g) (gbat g) (gfst g) h m.

(** A consumer's move: the phase and the [DESTROY] bit of slot [i] of block
    [b], and who destroys the block. *)
Definition set_cell g b i c (d : bool) x : Ghost A :=
  mkGhost (gH g) (glog g) (gclosed g) (gprod g) (<[31 * b + i := c]> (gcons g)) (<[31 * b + i := d]> (gd g))
    (glk g) (<[b := x]> (gbat g)) (gfst g) (ghp g) (ghm g).

(** Thread [t] moves the tail over [xs]. *)
Definition claim g (t : nat) (xs : list A) : Ghost A :=
  let n := Z.of_nat (length xs) in
  mkGhost (gH g) (glog g ++ xs) (gclosed g)
    (λ k, if decide (gT g ≤ k < gT g + n) then PClaimed t else gprod g k) (gcons g) (gd g)
    (λ b, if decide (31 * (b + 1) = gT g + n) then LFull t else glk g b) (gbat g) (gfst g) (ghp g) (ghm g).
(** Thread [t] moves the head over one item. *)
Definition take1 g (t : nat) (m : bool) : Ghost A :=
  let last := bool_decide (gH g mod 31 = 30) in
  mkGhost (gH g + 1) (glog g) (gclosed g) (gprod g)
    (<[gH g := if last then CMoving t else CTaken t]> (gcons g)) (gd g) (glk g) (gbat g) (gfst g)
    (if last then HWait t (gH g / 31) else HNone) m.

Lemma claim_T g t xs : gT (claim g t xs) = gT g + Z.of_nat (length xs).
Proof. unfold gT. cbn. rewrite length_app. lia. Qed.

Lemma g_closed g : GInv g → GInv (set_closed g).
Proof. by intros []. Qed.

Lemma g_first g f : GInv g → gfst g ≠ FDone → f ≠ FNone → GInv (set_fst g f).
Proof. intros [] H1 H2. split; try done. by intros _; apply gi_first_head0. Qed.

Lemma g_prod g k p :
  GInv g → gprod g k ≠ PNone → gprod g k ≠ PFlagged → p ≠ PNone → GInv (set_prod g k p).
Proof.
  intros [] H1 H2 H3. split; try done; cbn.
  - intros j. rewrite fn_get. case_decide; [subst j|apply gi_prod0]. split; [done|]. intros. by destruct H1; apply gi_prod0.
  - intros j. rewrite fn_get. case_decide; [subst j|apply gi_got0]. intros. by destruct H2; apply gi_got0.
Qed.

Lemma g_lk g b l t :
  GInv g →
  glk g b = LFull t ∧ l = LStored t ∨ glk g b = LStored t ∧ l = LBumped t ∨ glk g b = LBumped t ∧ l = LLinked →
  GInv (set_lk g b l).
Proof.
  intros [] Hl. split; try done; cbn.
  - intros c. rewrite fn_get. case_decide; [subst c|apply gi_lk0]. rewrite <- gi_lk0.
    destruct Hl as [[-> ->]|[[-> ->]|[-> ->]]]; done.
  - intros c u. rewrite fn_get. case_decide; [subst c|apply gi_pend0]. intros Hu. apply (gi_pend0 b t).
    destruct Hl as [[? ->]|[[? ->]|[? ->]]]; [by left|by right|by destruct Hu].
  - intros c H1 H2. rewrite fn_get. case_decide; [subst c|by apply gi_link0].
    destruct (gi_link0 b) as [|]; [done..| |by right].
    destruct Hl as [[? ->]|[[? ->]|[? ->]]]; [congruence..|by left].
Qed.

Lemma g_claim g t xs :
  GInv g → xs ≠ [] → gT g mod 31 + Z.of_nat (length xs) ≤ 31 → gfst g ≠ FNone → tpend g = false → GInv (claim g t xs).
Proof.
  intros HG Hx Hn Hf Hp. pose proof HG as []. pose proof (claim_T g t xs) as HT.
  assert (0 < Z.of_nat (length xs)) as Hx0 by (destruct xs; [done|cbn; lia]).
  split; rewrite ?HT; cbn; try done.
  - lia.
  - intros k. case_decide; [split; [done|lia]|]. rewrite gi_prod0. lia.
  - intros k Hk. specialize (gi_got0 k Hk). case_decide; [|done].
    assert (gprod g k = PNone) by (apply gi_prod0; lia). congruence.
  - intros b. case_decide; [split; [done|lia]|]. rewrite gi_lk0. lia.
  - intros b u. case_decide; [lia|]. intros Hb. pose proof (gi_pend0 b u Hb). unfold tpend in Hp.
    replace (gT g / 31 - 1) with b in Hp by lia. destruct Hb as [Hb|Hb]; by rewrite Hb in Hp.
  - intros b Hb Hle. case_decide; [lia|]. by apply gi_link0.
  - intros Hm. specialize (gi_mark0 Hm). unfold hpend in *. cbn. lia.
Qed.

Lemma g_take g t m :
  GInv g → ghp g = HNone → gfst g = FDone → gH g < gT g → (m = true → 31 * (gH g / 31 + 1) ≤ gT g) →
  GInv (take1 g t m).
Proof.
  intros HG Hh Hf Hlt Hm. pose proof HG as [].
  assert (gcons g (gH g) = CFree) as Hfree by (apply gi_cons0; lia).
  assert (∀ k, k = gH g → gcons g k = CDone → False) as Hnd by (intros ? ->; congruence).
  split; try done; unfold take1; cbn; try (by rewrite Hf).
  - unfold gT in *. cbn. lia.
  - intros k. rewrite fn_get. case_decide; [subst k|rewrite gi_cons0; lia]. case_bool_decide; split; (done || lia).
  - intros k. rewrite fn_get. case_decide; [by case_bool_decide|apply gi_got0].
  - intros u b. case_bool_decide; [|by intros [?|?]]. intros [[= <- <-]|?]; [|done].
    rewrite fn_get, decide_True by lia. split_and!; [lia|lia|done].
  - intros k u. rewrite fn_get. case_decide.
    + subst k. case_bool_decide; [|done]. intros [= ->]. exists (gH g / 31). split; [lia|by left].
    + intros Hk. destruct (gi_moving0 k u Hk) as (b & ? & Hb). rewrite Hh in Hb. by destruct Hb.
  - intros b Hb Hle. case_bool_decide.
    + destruct (decide (31 * (b + 1) ≤ gH g)) as [Hle'|].
      * destruct (gi_link0 b Hb Hle') as [|[u Hu]]; [by left|by rewrite Hh in Hu].
      * right. exists t. f_equal. lia.
    + destruct (gi_link0 b Hb ltac:(lia)) as [|[u Hu]]; [by left|by rewrite Hh in Hu].
  - intros Hm'. specialize (Hm Hm'). unfold hpend, gT in *. cbn. unfold RingPos.enc. case_bool_decide; cbn; lia.
  - intros b. rewrite fn_get. case_decide; [|apply gi_bat0]. rewrite gi_bat0.
    split; intros _; [by case_bool_decide|]. intros ?. by apply (Hnd (31 * b + 30)).
  - intros b. specialize (gi_walk0 b). unfold walk_ok in *. cbn. destruct (gbat g b); try done.
    + destruct gi_walk0 as [Hi Hj]. split; [done|]. intros j Hj'. rewrite fn_get. case_decide; [|by auto].
      destruct (Hnd (31 * b + j)); auto.
    + destruct gi_walk0 as (Hi & Hj & ? & Hc). split_and!; [lia|lia| |done|].
      * intros j Hj'. rewrite fn_get. case_decide; [|by auto]. destruct (Hnd (31 * b + j)); auto.
      * rewrite fn_get. case_decide; [by case_bool_decide|done].
    + intros j Hj'. rewrite fn_get. case_decide; [|by auto]. destruct (Hnd (31 * b + j)); auto.
  - intros b i Hi Hd. rewrite fn_get. case_decide; [|by apply gi_gd0]. intros _. apply gi_gd0; [done..|].
    intros ?. by apply (Hnd (31 * b + i)).
Qed.

Lemma g_stored g t b : GInv g → ghp g = HWait t b → glk g b = LLinked → GInv (set_hp g (HStored t b) (ghm g)).
Proof.
  intros HG Hh Hl. pose proof HG as []. split; try done; cbn.
  - intros u c [?|[= -> ->]]; [done|]. apply gi_hp0. by left.
  - intros k u Hk. destruct (gi_moving0 k u Hk) as (c & ? & Hb). rewrite Hh in Hb. exists c. split; [done|].
    right. by destruct Hb as [[= -> ->]|].
  - intros c Hc Hle. destruct (gi_link0 c Hc Hle) as [|[u Hu]]; [by left|]. rewrite Hh in Hu. injection Hu as -> ->. by left.
  - unfold hpend in *. cbn. rewrite Hh in gi_mark0. done.
Qed.

Lemma g_moved g t b m :
  GInv g → ghp g = HStored t b → (m = true → 31 * (b + 2) ≤ gT g) →
  GInv (set_cons (set_hp g HNone m) (31 * b + 30) (CTaken t)).
Proof.
  intros HG Hh Hm. pose proof HG as []. destruct (gi_hp0 t b) as (Hb & HH & Hc); [by right|].
  split; try done; cbn.
  - intros k. rewrite fn_get. case_decide; [subst k|by apply gi_cons0]. rewrite <- gi_cons0. by rewrite Hc.
  - intros k. rewrite fn_get. case_decide; [done|by apply gi_got0].
  - by intros u c [?|?].
  - intros k u. rewrite fn_get. case_decide; [done|]. intros Hk. destruct (gi_moving0 k u Hk) as (c & -> & Hb').
    rewrite Hh in Hb'. destruct Hb' as [?|[= -> ->]]; done.
  - intros c Hc' Hle. destruct (gi_link0 c Hc' Hle) as [|[u Hu]]; [by left|congruence].
  - intros Hm'. specialize (Hm Hm'). rewrite HH. unfold hpend, RingPos.enc, gT in *. cbn. lia.
  - intros c. rewrite fn_get. case_decide; [|by apply gi_bat0]. rewrite gi_bat0. assert (c = b) as -> by lia. by rewrite Hc.
  - intros c. specialize (gi_walk0 c). unfold walk_ok in *. cbn. destruct (gbat g c); try done.
    + destruct gi_walk0 as [Hi Hj]. split; [done|]. intros j Hj'. rewrite fn_get. case_decide; [lia|by auto].
    + destruct gi_walk0 as (Hi & Hj & ? & Hc'). split_and!; [lia|lia| |done|].
      * intros j Hj'. rewrite fn_get. case_decide; [lia|by auto].
      * rewrite fn_get. case_decide; [done|done].
    + intros j Hj'. rewrite fn_get. case_decide as Hd; [|by auto]. rewrite Hd, gi_walk0 in Hc by done. congruence.
  - intros c i Hi Hd. rewrite fn_get. case_decide as He; [|by apply gi_gd0]. intros _. apply gi_gd0; [done..|]. rewrite <- He, Hc. done.
Qed.

(** *** Consumers of a block *)

Lemma g_cell g b i c d x :
  GInv g → 0 ≤ i < 31 → gcons g (31 * b + i) ≠ CFree → c ≠ CFree →
  (∀ t, gcons g (31 * b + i) ≠ CMoving t ∧ c ≠ CMoving t) → (got c → gprod g (31 * b + i) = PFlagged) →
  (x = BNone ↔ gcons (set_cell g b i c d x) (31 * b + 30) ≠ CDone) → walk_ok (set_cell g b i c d x) b →
  (∀ j, 0 ≤ j < 31 → gd (set_cell g b i c d x) (31 * b + j) = true →
    gcons (set_cell g b i c d x) (31 * b + j) ≠ CDone → x = BParked j) →
  GInv (set_cell g b i c d x).
Proof.
  intros HG Hi H1 H2 H3 H4 H5 H6 H7. pose proof HG as [].
  assert (∀ b' j, b' ≠ b → 0 ≤ j < 31 → gcons (set_cell g b i c d x) (31 * b' + j) = gcons g (31 * b' + j) ∧
    gd (set_cell g b i c d x) (31 * b' + j) = gd g (31 * b' + j)) as Hn.
  { intros b' j Hb Hj. cbn. rewrite !fn_get. split; case_decide; (done || lia). }
  assert (∀ b', b' ≠ b → gbat (set_cell g b i c d x) b' = gbat g b') as Hb.
  { intros b' Hb. cbn. rewrite fn_get. by rewrite decide_False by congruence. }
  split; try done; cbn [set_cell gcons gprod gH ghp].
  - intros k. rewrite fn_get. case_decide; [subst k|by apply gi_cons0]. rewrite <- gi_cons0. done.
  - intros k. rewrite fn_get. case_decide; [by subst k|by apply gi_got0].
  - intros t b' Ht. rewrite fn_get. destruct (gi_hp0 t b' Ht) as (? & ? & Hc). split_and!; [done..|].
    case_decide as He; [|done]. rewrite <- He in Hc. by destruct (H3 t).
  - intros k t. rewrite fn_get. case_decide; [|by apply gi_moving0]. intros ?. by destruct (H3 t).
  - intros b'. destruct (decide (b' = b)) as [->|Hne].
    + rewrite <- H5. cbn. by rewrite fn_get, decide_True.
    + rewrite Hb by done. destruct (Hn b' 30 Hne ltac:(lia)) as [Hc _]. cbn [set_cell gcons] in Hc. rewrite Hc. apply gi_bat0.
  - intros b'. destruct (decide (b' = b)) as [->|Hne]; [done|]. specialize (gi_walk0 b'). unfold walk_ok in *.
    rewrite Hb by done. destruct (gbat g b'); try done.
    + destruct gi_walk0 as [? Hj]. split; [done|]. intros j Hj'. destruct (Hn b' j Hne ltac:(lia)) as [-> _]. auto.
    + destruct gi_walk0 as (? & Hj & Hd & Hc). destruct (Hn b' i0 Hne ltac:(lia)) as [-> ->].
      split_and!; [lia|lia| |done|done]. intros j Hj'. destruct (Hn b' j Hne ltac:(lia)) as [-> _]. auto.
    + intros j Hj'. destruct (Hn b' j Hne ltac:(lia)) as [-> _]. auto.
  - intros b' j Hj. destruct (decide (b' = b)) as [->|Hne].
    + intros Hd Hc. cbn. rewrite fn_get, decide_True by done. by apply H7.
    + destruct (Hn b' j Hne Hj) as [Hc Hd]. cbn [set_cell gcons] in Hc. rewrite Hc, Hd, Hb by done. by apply gi_gd0.
Qed.

Lemma not_moving g b i t : GInv g → 0 ≤ i < 30 → gcons g (31 * b + i) ≠ CMoving t.
Proof. intros HG Hi Hc. destruct (gi_moving _ HG _ _ Hc) as (b' & ? & _). lia. Qed.

Lemma begun_last g b : GInv g → gbat g b ≠ BNone → gcons g (31 * b + 30) = CDone.
Proof.
  intros HG Hb. destruct (gcons g (31 * b + 30)) eqn:Hx; try done; destruct Hb; apply (gi_bat _ HG); by rewrite Hx.
Qed.

(** Reading the value out of a slot that is not the last. *)
Lemma g_got g b i t :
  GInv g → 0 ≤ i < 30 → gcons g (31 * b + i) = CTaken t → gprod g (31 * b + i) = PFlagged →
  GInv (set_cell g b i (CGot t) (gd g (31 * b + i)) (gbat g b)).
Proof.
  intros HG Hi Hc Hp. pose proof HG as []. apply g_cell; try done; [lia|by rewrite Hc|by rewrite Hc|..]; cbn.
  - rewrite fn_get, decide_False by lia. apply gi_bat0.
  - specialize (gi_walk0 b). unfold walk_ok in *. cbn. rewrite fn_get, decide_True by done.
    assert (∀ j, gcons g (31 * b + j) = CDone → <[31 * b + i := CGot t]> (gcons g) (31 * b + j) = CDone) as Hd.
    { intros j Hj. rewrite fn_get. case_decide as He; [|done]. rewrite He in Hc. congruence. }
    destruct (gbat g b); try done; [naive_solver| |naive_solver]. destruct gi_walk0 as (? & ? & ? & ?).
    split_and!; [lia|lia|by auto|..]; rewrite fn_get; case_decide as He; try done. by rewrite He.
  - intros j Hj. rewrite !fn_get. case_decide as He; [|by apply gi_gd0]. intros Hd _. rewrite He in Hd, Hc.
    apply gi_gd0; [done..|]. by rewrite Hc.
Qed.

(** Reading the value out of the last slot starts the destruction. *)
Lemma g_last g b t :
  GInv g → gcons g (31 * b + 30) = CTaken t → gprod g (31 * b + 30) = PFlagged →
  GInv (set_cell g b 30 CDone (gd g (31 * b + 30)) (BWalk 0 t)).
Proof.
  intros HG Hc Hp. pose proof HG as []. apply g_cell; try done; [by rewrite Hc|by rewrite Hc|..]; cbn.
  - rewrite fn_get, decide_True by done. naive_solver.
  - unfold walk_ok. cbn. rewrite fn_get, decide_True by done. split; [lia|]. lia.
  - intros j Hj. rewrite !fn_get. case_decide as He; [done|]. intros Hd Hc'. pose proof (gi_gd0 b j Hj Hd Hc') as Hb.
    assert (gbat g b = BNone) by (apply gi_bat0; by rewrite Hc). congruence.
Qed.

(** Setting [READ]: the block is not waiting for this slot, or it is. *)
Lemma g_read g b i t :
  GInv g → 0 ≤ i < 30 → gcons g (31 * b + i) = CGot t → gd g (31 * b + i) = false →
  GInv (set_cell g b i CDone (gd g (31 * b + i)) (gbat g b)).
Proof.
  intros HG Hi Hc Hd. pose proof HG as []. assert (gprod g (31 * b + i) = PFlagged) as Hp by (apply gi_got0; by rewrite Hc).
  apply g_cell; try done; [lia|by rewrite Hc|by rewrite Hc|..]; cbn.
  - rewrite fn_get, decide_False by lia. apply gi_bat0.
  - specialize (gi_walk0 b). unfold walk_ok in *. cbn. rewrite fn_get, decide_True by done.
    assert (∀ j, gcons g (31 * b + j) = CDone → <[31 * b + i := CDone]> (gcons g) (31 * b + j) = CDone) as Hd'.
    { intros j Hj. rewrite fn_get. by case_decide. }
    destruct (gbat g b) as [| |i'|]; try done; [naive_solver| |naive_solver]. destruct gi_walk0 as (? & ? & ? & ?).
    split_and!; [lia|lia|by auto|..]; rewrite fn_get; case_decide as He; try done; rewrite He in Hd; congruence.
  - intros j Hj. rewrite !fn_get. case_decide as He; [done|by apply gi_gd0].
Qed.

Lemma g_resume g b i t :
  GInv g → 0 ≤ i < 30 → gcons g (31 * b + i) = CGot t → gd g (31 * b + i) = true →
  GInv (set_cell g b i CDone (gd g (31 * b + i)) (BWalk (i + 1) t)).
Proof.
  intros HG Hi Hc Hd. pose proof HG as []. assert (gprod g (31 * b + i) = PFlagged) as Hp by (apply gi_got0; by rewrite Hc).
  assert (gbat g b = BParked i) as Hb by (apply gi_gd0; [lia|done|by rewrite Hc]).
  assert (gcons g (31 * b + 30) = CDone) as Hl by (apply begun_last; [done|by rewrite Hb]).
  specialize (gi_walk0 b) as Hw. unfold walk_ok in Hw. rewrite Hb in Hw. destruct Hw as (_ & Hj & _).
  apply g_cell; try done; [lia|by rewrite Hc|by rewrite Hc|..]; cbn.
  - rewrite fn_get, decide_False by lia. naive_solver.
  - unfold walk_ok. cbn. rewrite fn_get, decide_True by done. split; [lia|]. intros j Hj'. rewrite fn_get.
    case_decide; [done|]. apply Hj. lia.
  - intros j Hj'. rewrite !fn_get. case_decide as He; [done|]. intros Hd' Hc'. pose proof (gi_gd0 b j Hj' Hd' Hc').
    assert (i = j) by congruence. subst. done.
Qed.

(** Passing a slot that is done. *)
Lemma g_pass g b i t d :
  GInv g → 0 ≤ i < 30 → gbat g b = BWalk i t → gcons g (31 * b + i) = CDone →
  GInv (set_cell g b i CDone d (BWalk (i + 1) t)).
Proof.
  intros HG Hi Hb Hc. pose proof HG as [].
  assert (gcons g (31 * b + 30) = CDone) as Hl by (apply begun_last; [done|by rewrite Hb]).
  specialize (gi_walk0 b) as Hw. unfold walk_ok in Hw. rewrite Hb in Hw. destruct Hw as (_ & Hj).
  apply g_cell; try done; [lia|by rewrite Hc|by rewrite Hc|..]; cbn.
  - intros _. apply gi_got0. by rewrite Hc.
  - rewrite fn_get, decide_False by lia. naive_solver.
  - unfold walk_ok. cbn. rewrite fn_get, decide_True by done. split; [lia|]. intros j Hj'. rewrite fn_get.
    case_decide; [done|]. apply Hj. lia.
  - intros j Hj'. rewrite !fn_get. case_decide as He; [done|]. intros Hd' Hc'. pose proof (gi_gd0 b j Hj' Hd' Hc'). congruence.
Qed.

(** Leaving the block to the consumer of slot [i]. *)
Lemma g_park g b i t :
  GInv g → 0 ≤ i < 30 → gbat g b = BWalk i t → gcons g (31 * b + i) ≠ CDone → gcons g (31 * b + i) ≠ CFree →
  GInv (set_cell g b i (gcons g (31 * b + i)) true (BParked i)).
Proof.
  intros HG Hi Hb Hc Hf. pose proof HG as [].
  assert (gcons g (31 * b + 30) = CDone) as Hl by (apply begun_last; [done|by rewrite Hb]).
  specialize (gi_walk0 b) as Hw. unfold walk_ok in Hw. rewrite Hb in Hw. destruct Hw as (_ & Hj).
  apply g_cell; try done; [lia|intros u; split; by apply not_moving|by apply gi_got0|..]; cbn.
  - rewrite fn_get, decide_False by lia. naive_solver.
  - unfold walk_ok. cbn. rewrite fn_get, decide_True by done. split_and!; [lia|lia|..].
    + intros j Hj'. rewrite fn_get. case_decide; [lia|]. by apply Hj.
    + by rewrite fn_get, decide_True.
    + by rewrite fn_get, decide_True.
  - intros j Hj'. rewrite !fn_get. case_decide as He; [intros; f_equal; lia|].
    intros Hd' Hc'. pose proof (gi_gd0 b j Hj' Hd' Hc'). congruence.
Qed.

Lemma g_free g b t :
  GInv g → gbat g b = BWalk 30 t → GInv (set_cell g b 30 CDone (gd g (31 * b + 30)) BFreed).
Proof.
  intros HG Hb. pose proof HG as [].
  assert (gcons g (31 * b + 30) = CDone) as Hl by (apply begun_last; [done|by rewrite Hb]).
  specialize (gi_walk0 b) as Hw. unfold walk_ok in Hw. rewrite Hb in Hw. destruct Hw as (_ & Hj).
  apply g_cell; try done; [by rewrite Hl|by rewrite Hl|..]; cbn.
  - intros _. apply gi_got0. by rewrite Hl.
  - rewrite fn_get, decide_True by lia. naive_solver.
  - unfold walk_ok. cbn. rewrite fn_get, decide_True by done. intros j Hj'. rewrite fn_get. case_decide; [done|]. apply Hj. lia.
  - intros j Hj'. rewrite !fn_get. case_decide as He; [done|]. intros Hd' Hc'. pose proof (gi_gd0 b j Hj' Hd' Hc'). congruence.
Qed.

(** ** What the memory holds *)

(** The slot of position [k] and block [b]. *)
Definition cell g k : Slot A :=
  mkSlot
    (match gcons g k with
     | CFree | CMoving _ | CTaken _ => match gprod g k with PWritten _ | PFlagged => logged g k | _ => None end
     | _ => None
     end)
    (word3 (is_flagged (gprod g k)) (is_done (gcons g k) && negb (bool_decide (k mod 31 = 30))) (gd g k)).
Definition blk g b : Block A :=
  mkBlock (match glk g b with LLinked => Some (b + 1) | _ => None end) ((λ i, cell g (31 * b + i)) <$> seqZ 0 31).
Definition hcell g b : option (Block A) := match gbat g b with BFreed => None | _ => Some (blk g b) end.

Record QInv q g : Prop := {
  qi_g : GInv g;
  qi_hi : head_index q = head_raw g;
  qi_hb : head_block q = head_blk g;
  qi_ti : tail_index q = tail_raw g;
  qi_tb : tail_block q = tail_blk g;
  qi_len : Z.of_nat (length (heap q)) = nblk g;
  qi_heap b : 0 ≤ b < nblk g → heap q !! Z.to_nat b = Some (hcell g b);
  qi_max : gT g ≤ 2 ^ 60;
}.

Lemma hcell_ext g g' b :
  (gbat g' b = BFreed ↔ gbat g b = BFreed) → (glk g' b = LLinked ↔ glk g b = LLinked) →
  (∀ i, 0 ≤ i < 31 → cell g' (31 * b + i) = cell g (31 * b + i)) → hcell g' b = hcell g b.
Proof.
  intros Hb Hl Hc. assert (blk g' b = blk g b) as He.
  { unfold blk. f_equal.
    - destruct (decide (glk g b = LLinked)) as [Hx|Hx]; [by rewrite Hx, (proj2 Hl Hx)|].
      destruct (glk g' b) eqn:Hy, (glk g b); try done; by destruct Hx; apply Hl.
    - apply list_fmap_ext. intros j x Hx. apply lookup_seqZ in Hx as [-> Hj]. apply Hc. lia. }
  unfold hcell. rewrite He. destruct (decide (gbat g b = BFreed)) as [Hx|Hx]; [by rewrite Hx, (proj2 Hb Hx)|].
  destruct (gbat g' b) eqn:Hy, (gbat g b); try done; by destruct Hx; apply Hb.
Qed.

Lemma hcell_live g b : gbat g b ≠ BFreed → hcell g b = Some (blk g b).
Proof. unfold hcell. by destruct (gbat g b). Qed.

Lemma in_heap g b i : GInv g → 0 ≤ i < 31 → 0 ≤ 31 * b + i < gT g → 0 ≤ b < nblk g.
Proof.
  intros HG Hi Hk. unfold nblk. destruct (gfst g) eqn:Hf; [pose proof (gi_first _ HG Hf); lia|..]; unfold tail_lap;
    destruct (glk g (gT g / 31 - 1)) eqn:Hl; try lia; pose proof (gi_pend _ HG _ _ (or_introl Hl)); lia.
Qed.

Lemma not_freed g b i : GInv g → 0 ≤ i < 31 → gcons g (31 * b + i) ≠ CDone → gbat g b ≠ BFreed.
Proof. intros HG Hi Hc Hb. pose proof (gi_walk _ HG b) as Hw. unfold walk_ok in Hw. rewrite Hb in Hw. auto. Qed.

Lemma deref_ok q g b : QInv q g → 0 ≤ b < nblk g → gbat g b ≠ BFreed → deref q b = Ret (blk g b).
Proof. intros Hq Hb Hf. unfold deref. by rewrite (qi_heap _ _ Hq), hcell_live. Qed.

Lemma slots_lookup g b i : 0 ≤ i < 31 → slots (blk g b) !! Z.to_nat i = Some (cell g (31 * b + i)).
Proof. intros Hi. cbn [slots blk]. rewrite list_lookup_fmap, lookup_seqZ_lt by lia. cbn. do 2 f_equal. lia. Qed.

Lemma unb_slot_ok q g b i :
  QInv q g → 0 ≤ b < nblk g → gbat g b ≠ BFreed → 0 ≤ i < 31 → slot_at q b i = Ret (cell g (31 * b + i)).
Proof. intros Hq Hb Hf Hi. unfold slot_at. rewrite (deref_ok q g) by done. cbn [mbind outcome_mbind]. by rewrite slots_lookup. Qed.

(** A step that changes one slot of one block. *)
Lemma slots_insert g g' b i :
  0 ≤ i < 31 → (∀ j, 0 ≤ j < 31 → j ≠ i → cell g' (31 * b + j) = cell g (31 * b + j)) →
  <[Z.to_nat i := cell g' (31 * b + i)]> (slots (blk g b)) = slots (blk g' b).
Proof.
  intros Hi Hc. apply list_eq. intros n. destruct (decide (n = Z.to_nat i)) as [->|Hn].
  - rewrite slots_lookup by done. apply list_lookup_insert_eq. cbn. rewrite length_fmap, length_seqZ. lia.
  - rewrite list_lookup_insert_ne by done. destruct (decide (n < 31)%nat).
    + rewrite <- (Nat2Z.id n), !slots_lookup by lia. f_equal. symmetry. apply Hc; lia.
    + rewrite !lookup_ge_None_2; [done|..]; cbn; rewrite length_fmap, length_seqZ; lia.
Qed.

Lemma unb_q_slot q g g' b i :
  QInv q g → GInv g' → 0 ≤ b < nblk g → 0 ≤ i < 31 → gbat g b ≠ BFreed →
  gH g' = gH g → glog g' = glog g → gclosed g' = gclosed g → glk g' = glk g → gfst g' = gfst g → ghp g' = ghp g → ghm g' = ghm g →
  (∀ b', gbat g' b' = BFreed ↔ gbat g b' = BFreed) →
  (∀ k, k ≠ 31 * b + i → cell g' k = cell g k) →
  ∃ q', set_slot q b i (cell g' (31 * b + i)) = Ret q' ∧ QInv q' g'.
Proof.
  intros Hq HG Hb Hi Hf E1 E2 E3 E4 E5 E6 E7 Hbat Hc. unfold set_slot. rewrite (deref_ok q g) by done. cbn [mbind outcome_mbind].
  eexists. split; [done|]. pose proof Hq as [].
  assert (gT g' = gT g) as ET by (unfold gT; by rewrite E2).
  assert (nblk g' = nblk g) as En by (unfold nblk, tail_lap; by rewrite E4, E5, ET).
  split; cbn; rewrite ?En; try done.
  - rewrite qi_hi0. unfold head_raw, hpend. by rewrite E1, E6, E7.
  - rewrite qi_hb0. unfold head_blk, head_lap. by rewrite E1, E5, E6.
  - rewrite qi_ti0. unfold tail_raw, tpend. by rewrite E3, E4, ET.
  - rewrite qi_tb0. unfold tail_blk, tail_lap. by rewrite E4, E5, ET.
  - by rewrite length_insert.
  - intros b' Hb'. destruct (decide (b' = b)) as [->|Hne].
    + rewrite list_lookup_insert_eq by lia. rewrite hcell_live by (by rewrite Hbat). do 2 f_equal.
      transitivity (mkBlock (next (blk g b)) (slots (blk g' b))); [f_equal|by unfold blk; rewrite E4].
      apply slots_insert; [done|]. intros j Hj Hne. apply Hc. lia.
    + rewrite list_lookup_insert_ne by lia. rewrite qi_heap0 by done. f_equal. symmetry.
      apply hcell_ext; [done|by rewrite E4|]. intros j Hj. apply Hc. lia.
  - by rewrite ET.
Qed.

Lemma cell_ext g g' k :
  gprod g' k = gprod g k → gcons g' k = gcons g k → gd g' k = gd g k → logged g' k = logged g k → cell g' k = cell g k.
Proof. intros E1 E2 E3 E4. unfold cell. by rewrite E1, E2, E3, E4. Qed.

Lemma q_cell q g b i c d x :
  QInv q g → GInv (set_cell g b i c d x) → 0 ≤ b < nblk g → 0 ≤ i < 31 → gbat g b ≠ BFreed → x ≠ BFreed →
  ∃ q', set_slot q b i (cell (set_cell g b i c d x) (31 * b + i)) = Ret q' ∧ QInv q' (set_cell g b i c d x).
Proof.
  intros Hq HG Hb Hi Hf Hx. apply (unb_q_slot q g); try done.
  - intros b'. cbn. rewrite fn_get. case_decide; [by subst|done].
  - intros k Hk. apply cell_ext; cbn; rewrite ?fn_get, ?decide_False by done; done.
Qed.

Lemma q_prod q g b i p :
  QInv q g → GInv (set_prod g (31 * b + i) p) → 0 ≤ b < nblk g → 0 ≤ i < 31 → gbat g b ≠ BFreed →
  ∃ q', set_slot q b i (cell (set_prod g (31 * b + i) p) (31 * b + i)) = Ret q' ∧ QInv q' (set_prod g (31 * b + i) p).
Proof.
  intros Hq HG Hb Hi Hf. apply (unb_q_slot q g); try done.
  intros k Hk. apply cell_ext; cbn; rewrite ?fn_get, ?decide_False by done; done.
Qed.

(** A step that changes registers only. *)
Lemma q_regs q g q' g' :
  QInv q g → GInv g' → heap q' = heap q → head_index q' = head_raw g' → head_block q' = head_blk g' →
  tail_index q' = tail_raw g' → tail_block q' = tail_blk g' → nblk g' = nblk g → gT g' ≤ 2 ^ 60 →
  (∀ b, 0 ≤ b < nblk g → hcell g' b = hcell g b) → QInv q' g'.
Proof.
  intros [] HG Eh H1 H2 H3 H4 En Hm Hc. split; rewrite ?Eh, ?En; try done.
  intros b Hb. rewrite qi_heap0 by done. by rewrite Hc.
Qed.

(** ** The indices *)

Lemma tpend_full g : GInv g → tpend g = true → gT g mod 31 = 0 ∧ 0 < gT g.
Proof.
  intros HG Hp. unfold tpend in Hp. destruct (glk g (gT g / 31 - 1)) eqn:Hl; try done.
  - pose proof (gi_pend _ HG _ _ (or_introl Hl)). destruct (decide (gT g = 0)) as [H0|]; [|pose proof (gi_le _ HG); lia].
    assert (glk g (gT g / 31 - 1) = LOpen) by (apply (gi_lk _ HG); lia). congruence.
  - pose proof (gi_pend _ HG _ _ (or_intror Hl)). destruct (decide (gT g = 0)) as [H0|]; [|pose proof (gi_le _ HG); lia].
    assert (glk g (gT g / 31 - 1) = LOpen) by (apply (gi_lk _ HG); lia). congruence.
Qed.

Lemma hpend_full g : GInv g → hpend g = true → gH g mod 31 = 0 ∧ 0 < gH g.
Proof.
  intros HG Hp. unfold hpend in Hp. destruct (ghp g) as [|t b|t b] eqn:Hh; [done|..];
    (destruct (gi_hp _ HG t b) as (? & ? & _); [by auto|lia]).
Qed.

Lemma index_spec n (p m : bool) :
  0 ≤ n → (p = true → n mod 31 = 0 ∧ 0 < n) →
  let i := 2 * (enc n - Z.b2z p) + Z.b2z m in
  0 ≤ i ∧ offset_of i = (if p then 31 else n mod 31) ∧ lap_of i = (if p then n / 31 - 1 else n / 31) ∧ marked i = m ∧
  i / 2 = enc n - Z.b2z p ∧ i mod 2 = Z.b2z m.
Proof.
  intros Hn Hp i. rewrite offset_div, lap_div, marked_odd. subst i. unfold RingPos.enc.
  destruct p; cbn [Z.b2z]; [destruct (Hp eq_refl)|]; destruct m; cbn [Z.b2z]; split_and!; try lia; case_bool_decide; try done; lia.
Qed.

Lemma tail_spec g :
  GInv g → 0 ≤ tail_raw g ∧ offset_of (tail_raw g) = (if tpend g then 31 else gT g mod 31) ∧
  lap_of (tail_raw g) = (if tpend g then gT g / 31 - 1 else gT g / 31) ∧ marked (tail_raw g) = gclosed g ∧
  tail_raw g / 2 = enc (gT g) - Z.b2z (tpend g) ∧ tail_raw g mod 2 = Z.b2z (gclosed g).
Proof. intros HG. apply index_spec; [pose proof (gi_le _ HG); lia|by apply tpend_full]. Qed.

Lemma head_spec g :
  GInv g → 0 ≤ head_raw g ∧ offset_of (head_raw g) = (if hpend g then 31 else gH g mod 31) ∧
  lap_of (head_raw g) = (if hpend g then gH g / 31 - 1 else gH g / 31) ∧ marked (head_raw g) = ghm g ∧
  head_raw g / 2 = enc (gH g) - Z.b2z (hpend g) ∧ head_raw g mod 2 = Z.b2z (ghm g).
Proof. intros HG. apply index_spec; [pose proof (gi_le _ HG); lia|by apply hpend_full]. Qed.

Lemma raw_bound n (p m : bool) : 0 ≤ n ≤ 2 ^ 60 → 2 * (enc n - Z.b2z p) + Z.b2z m < 2 ^ 63.
Proof. intros Hn. unfold RingPos.enc. destruct p, m; cbn [Z.b2z]; lia. Qed.

(** A head at the end of a block that is also the last waits there. *)
Lemma both_pend g : GInv g → gH g = gT g → tpend g = true → hpend g = true.
Proof.
  intros HG He Hp. destruct (tpend_full g HG Hp) as [Hm H0]. unfold tpend in Hp.
  destruct (gi_link _ HG (gT g / 31 - 1)) as [Hl|[t Hh]]; [lia|lia|by rewrite Hl in Hp|]. unfold hpend. by rewrite Hh.
Qed.

Lemma index_le g : GInv g → enc (gH g) - Z.b2z (hpend g) ≤ enc (gT g) - Z.b2z (tpend g).
Proof.
  intros HG. pose proof (gi_le _ HG). pose proof (tpend_full g HG) as Ht. pose proof (both_pend g HG) as Hb.
  destruct (decide (gH g = gT g)) as [He|].
  - rewrite He. destruct (tpend g), (hpend g); cbn; lia.
  - assert (enc (gH g) < enc (gT g)).
    { pose proof (enc_mono 31 32 ltac:(lia) ltac:(lia) (gH g) (gT g) ltac:(lia)).
      pose proof (enc_eq 31 32 ltac:(lia) ltac:(lia) (gH g) (gT g)). lia. }
    destruct (tpend g), (hpend g); cbn; lia.
Qed.

Lemma index_eq g : GInv g → enc (gH g) - Z.b2z (hpend g) = enc (gT g) - Z.b2z (tpend g) → gH g = gT g.
Proof.
  intros HG. pose proof (gi_le _ HG). pose proof (tpend_full g HG) as Ht. pose proof (hpend_full g HG) as Hh.
  unfold RingPos.enc. destruct (tpend g), (hpend g); cbn [Z.b2z]; lia.
Qed.

Lemma items_length g : GInv g → Z.of_nat (length (items (gview g))) = gT g - gH g.
Proof. intros HG. pose proof (gi_le _ HG). cbn. rewrite length_drop. unfold gT in *. lia. Qed.
Lemma items_nil g : GInv g → items (gview g) = [] ↔ gH g = gT g.
Proof. intros HG. pose proof (items_length g HG). rewrite <- length_zero_iff_nil. lia. Qed.

Lemma len_ok g : GInv g → gT g ≤ 2 ^ 60 → len_of (tail_raw g) (head_raw g) = Ret (gT g - gH g).
Proof.
  intros HG Hm. pose proof (gi_le _ HG) as Hle.
  assert (∀ n (p m : bool), 0 ≤ n ≤ 2 ^ 60 → (p = true → n mod 31 = 0 ∧ 0 < n) →
    let i := Z.land (2 * (enc n - Z.b2z p) + Z.b2z m) (not_word 64 1) in
    (if bool_decide (Z.land (Z.shiftr i 1) (32 - 1) = 32 - 1) then wrapping_add 64 i 2 else i) = 2 * enc n) as Hfix.
  { intros n p m Hn Hp. cbv zeta. pose proof (raw_bound n p m Hn).
    destruct (index_spec n p m ltac:(lia) Hp) as (? & Ho & _ & _ & _ & Hodd).
    rewrite unmark by lia. rewrite Hodd, land_mask by (by exists 5).
    replace (2 * (enc n - Z.b2z p) + Z.b2z m - Z.b2z m) with (2 * (enc n - Z.b2z p)) by lia.
    rewrite half. replace (2 * (enc n - Z.b2z p) / 2) with (enc n - Z.b2z p) by lia. unfold RingPos.enc in *.
    destruct p; cbn [Z.b2z] in *.
    - destruct (Hp eq_refl). rewrite bool_decide_eq_true_2 by lia. unfold wrapping_add. rewrite wrap_small; [lia|].
      unfold is_word. lia.
    - rewrite bool_decide_eq_false_2 by lia. lia. }
  unfold len_of. cbv zeta. unfold tail_raw, head_raw. rewrite !Hfix; [|lia|by apply hpend_full|lia|by apply tpend_full].
  pose proof (raw_bound (gH g) false false ltac:(lia)). pose proof (raw_bound (gT g) false false ltac:(lia)).
  cbn [Z.b2z] in *. rewrite lap_div. rewrite checked_mul_ret by lia. cbn [mbind outcome_mbind]. rewrite twice.
  unfold RingPos.enc in *. unfold wrapping_sub.
  assert (∀ z, 0 ≤ z < 2 ^ 64 → wrap 64 z = z) as Hw by (intros; by apply wrap_small).
  rewrite (Hw (2 * _)) by lia. rewrite !Hw by lia. rewrite !half.
  rewrite checked_sub_ret by lia. cbn [mbind outcome_mbind]. rewrite checked_sub_ret by lia. f_equal. lia.
Qed.
End ghost.
