(* ===== verification/UnboundedSteps.v ===== *)
(** * UnboundedSteps: the steps of the injector queue

    Every step of the code of [Unbounded] is possible and keeps the history of
    [UnboundedGhost] ([unb_code_ok]).  [TI] is what a thread knows at each
    program point; [Frame] is what a step of one thread leaves to the others;
    [covers] lists what a program point holds. *)

From stdpp Require Import functions.
From S2P Require Import Prelude RingPos UnboundedFifo Unbounded UnboundedGhost.
Local Open Scope Z_scope.

(** What a thread can hold: a position on either side, the successor of a
    block, the destruction of a block, the first block, the head. *)
Inductive res : Type := RProd (k : Z) | RCons (k : Z) | RLink (b : Z) | RBat (b : Z) | RFirst | RHead.

#[local] Instance res_eq_dec : EqDecision res.
Proof. solve_decision. Defined.

Section inv.
Context {A : Type}.
Implicit Types (g : Ghost A) (q : Queue A) (s : astatus A) (j : job A) (t u : nat) (b k i : Z).

(** ** Holders *)

Definition pown (p : pphase) : option nat := match p with PClaimed t | PWritten t => Some t | _ => None end.
Definition cown (c : cphase) : option nat := match c with CMoving t | CTaken t | CGot t => Some t | _ => None end.
Definition lown (l : lphase) : option nat := match l with LFull t | LStored t | LBumped t => Some t | _ => None end.
Definition bown (x : bphase) : option nat := match x with BWalk _ t => Some t | _ => None end.
Definition fown (f : fphase) : option nat := match f with FHead t => Some t | _ => None end.
Definition hown (h : hphase) : option nat := match h with HWait t _ | HStored t _ => Some t | HNone => None end.

Definition holder g (r : res) : option nat :=
  match r with
  | RProd k => pown (gprod g k)
  | RCons k => cown (gcons g k)
  | RLink b => lown (glk g b)
  | RBat b => bown (gbat g b)
  | RFirst => fown (gfst g)
  | RHead => hown (ghp g)
  end.
Definition same g g' (r : res) : Prop :=
  match r with
  | RProd k => gprod g' k = gprod g k
  | RCons k => gcons g' k = gcons g k
  | RLink b => glk g' b = glk g b
  | RBat b => gbat g' b = gbat g b
  | RFirst => gfst g' = gfst g
  | RHead => ghp g' = ghp g
  end.

(** A step of thread [t]. *)
Record Frame t g g' : Prop := {
  f_same r u : u ≠ t → holder g r = Some u → same g g' r;
  f_own r u : u ≠ t → holder g' r = Some u → holder g r = Some u;
  f_flag k : gprod g k = PFlagged → gprod g' k = PFlagged;
  f_linked b : glk g b = LLinked → glk g' b = LLinked;
  f_tail : tail_raw g ≤ tail_raw g';
  f_tail_blk : tail_raw g = tail_raw g' → offset_of (tail_raw g) ≠ 31 → tail_blk g = None ∨ tail_blk g' = tail_blk g;
  f_head : head_raw g ≤ head_raw g';
  f_head_blk : head_raw g = head_raw g' → offset_of (head_raw g) ≠ 31 → head_blk g = None ∨ head_blk g' = head_blk g;
}.

Lemma frame_refl t g : Frame t g g.
Proof. split; auto; [by intros []|lia|lia]. Qed.

Lemma frame_prod t g k p : pown (gprod g k) = Some t → (pown p = None ∨ pown p = Some t) → Frame t g (set_prod g k p).
Proof.
  intros Hk Hp. split; try (by auto); try done.
  - intros [] u Hu; cbn; try done. rewrite fn_get. case_decide; [subst|done]. congruence.
  - intros [] u Hu; cbn; try done. rewrite fn_get. case_decide; [subst|done]. destruct Hp as [-> | ->]; congruence.
  - intros j Hj. cbn. rewrite fn_get. case_decide; [subst|done]. by rewrite Hj in Hk.
Qed.

Lemma frame_cell t g b i c d x :
  (c = gcons g (31 * b + i) ∨ cown (gcons g (31 * b + i)) = Some t ∧ (cown c = None ∨ cown c = Some t)) →
  (x = gbat g b ∨ (bown (gbat g b) = None ∨ bown (gbat g b) = Some t) ∧ (bown x = None ∨ bown x = Some t)) →
  Frame t g (set_cell g b i c d x).
Proof.
  intros Hc Hx. split; try (by auto); try done.
  - intros [] u Hu; cbn; try done; rewrite fn_get; case_decide; try done; subst.
    + destruct Hc as [->|[Hc _]]; [done|congruence].
    + destruct Hx as [->|[[Hx|Hx] _]]; [done|congruence..].
  - intros [] u Hu; cbn; try done; rewrite fn_get; case_decide; try done; subst.
    + destruct Hc as [->|[_ [-> | ->]]]; [done|congruence..].
    + destruct Hx as [->|[_ [-> | ->]]]; [done|congruence..].
Qed.

(** ** What a thread knows *)

Definition many j : bool := match j with JMany _ _ _ _ => true | _ => false end.

(** The operation behind a job, before its next segment and after it. *)
Definition JS j s : Prop :=
  match j with
  | JOne x => called s (OpPush x) 0
  | JWide todo iter w x =>
      ∃ len vs, called s (OpPushN len vs) w ∧ drop w (take len vs) = x :: take todo iter ∧
        (w ≤ length (take len vs))%nat
  | JMany len iter stage w =>
      ∃ vs, called s (OpPushN len vs) w ∧ drop w (take len vs) = stage ++ take (len - w - length stage) iter ∧
        (w ≤ length (take len vs))%nat ∧ (w + length stage ≤ len)%nat
  end.
Definition JD j (tl : Z) s : Prop :=
  match j with
  | JOne _ => s = ADecided (RPush None)
  | JWide todo iter w _ =>
      ∃ len vs, called s (OpPushN len vs) (w + 1) ∧ drop (w + 1) (take len vs) = take todo iter ∧
        (w + 1 ≤ length (take len vs))%nat
  | JMany len iter stage w =>
      let n := length (segment j (offset_of tl)) in JS (JMany len iter (drop n stage) (w + n)) s
  end.

Definition old_tail g (tl : Z) : Prop := 0 ≤ tl ≤ tail_raw g ∧ (marked tl = true → gclosed g = true).
Definition Ready j (nb : bool) (tl : Z) : Prop :=
  marked tl = false ∧ offset_of tl < 31 ∧ segment j (offset_of tl) ≠ [] ∧ (fills j tl = true → nb = true).
Definition cont g (tl : Z) b : Prop :=
  0 ≤ tl ≤ tail_raw g ∧ marked tl = false ∧ (tl = tail_raw g → offset_of tl ≠ 31 → tail_blk g = Some b).
Definition at_seg g j (tl : Z) b : Prop :=
  0 ≤ b ∧ 0 ≤ offset_of tl ∧ tl = 64 * b + 2 * offset_of tl ∧ offset_of tl + seg_len j tl ≤ 31 ∧
  31 * b + offset_of tl + seg_len j tl ≤ gT g.
Definition claimed g t j (tl : Z) b (m : nat) : Prop :=
  ∀ n x, (m ≤ n)%nat → segment j (offset_of tl) !! n = Some x →
    gprod g (31 * b + (offset_of tl + Z.of_nat n)) = PClaimed t ∧ logged g (31 * b + (offset_of tl + Z.of_nat n)) = Some x.
Definition tail_part g t j (nb : bool) (tl : Z) b : Prop :=
  many j = true → if fills j tl then nb = true ∧ glk g b = LFull t else cont g (tl + Z.shiftl (seg_len j tl) 1) b.

Definition old_head g (hd : Z) : Prop :=
  0 ≤ hd ≤ head_raw g ∧ (marked hd = true → 31 * (lap_of hd + 1) ≤ gT g).
Definition hcont g (hd : Z) (p : option Z) : Prop :=
  hd = head_raw g → offset_of hd ≠ 31 → p = None ∨ head_blk g = p.
Definition popped s (x : A) : Prop := s = ADecided (RPop (inl x)).
Definition has_taken g (c : cphase) b (off : Z) s : Prop :=
  0 ≤ b ∧ 0 ≤ off < 31 ∧ gcons g (31 * b + off) = c ∧ ∃ x, logged g (31 * b + off) = Some x ∧ popped s x.
Definition next_ok g b (ni : Z) : Prop := ∃ m, ni = 64 * (b + 1) + Z.b2z m ∧ (m = true → 31 * (b + 2) ≤ gT g).

Definition TI g t (p : Pc A) s : Prop :=
  match p with
  | Idle => s = AIdle
  | Returning r => s = ADecided r ∨ answered 31 s r
  | PushIndex j nb => JS j s
  | PushBlock j nb tl => JS j s ∧ old_tail g tl
  | FirstCas j nb tl => JS j s ∧ old_tail g tl ∧ Ready j nb tl
  | FirstHead j nb tl b => JS j s ∧ old_tail g tl ∧ Ready j nb tl ∧ b = 0 ∧ tl = 0 ∧ gfst g = FHead t
  | PushCas j nb tl b => JS j s ∧ Ready j nb tl ∧ cont g tl b
  | SetTailBlock j nb tl b =>
      JD j tl s ∧ at_seg g j tl b ∧ fills j tl = true ∧ nb = true ∧ glk g b = LFull t ∧
      (many j = false → claimed g t j tl b 0)
  | BumpTail j tl b nx =>
      JD j tl s ∧ at_seg g j tl b ∧ fills j tl = true ∧ glk g b = LStored t ∧ nx = b + 1 ∧
      (many j = false → claimed g t j tl b 0)
  | LinkNext j tl b nx =>
      JD j tl s ∧ at_seg g j tl b ∧ fills j tl = true ∧ glk g b = LBumped t ∧ nx = b + 1 ∧
      (many j = false → claimed g t j tl b 0) ∧ cont g (64 * (b + 1)) nx
  | Write j nb tl b m =>
      JD j tl s ∧ at_seg g j tl b ∧ Z.of_nat m < seg_len j tl ∧ claimed g t j tl b m ∧ tail_part g t j nb tl b
  | Flag j nb tl b m =>
      JD j tl s ∧ at_seg g j tl b ∧ Z.of_nat m < seg_len j tl ∧
      gprod g (31 * b + (offset_of tl + Z.of_nat m)) = PWritten t ∧ claimed g t j tl b (S m) ∧ tail_part g t j nb tl b
  | PopIndex => called s OpPop 0
  | PopBlock hd => called s OpPop 0 ∧ old_head g hd
  | PopTail hd p => called s OpPop 0 ∧ old_head g hd ∧ offset_of hd < 31 ∧ marked hd = false ∧ hcont g hd p
  | PopCas hd nh b =>
      called s OpPop 0 ∧ old_head g hd ∧ offset_of hd < 31 ∧ hcont g hd (Some b) ∧
      31 * lap_of hd + offset_of hd < gT g ∧
      ∃ m, nh = hd - hd mod 2 + 2 + Z.b2z m ∧ (m = true → 31 * (lap_of hd + 1) ≤ gT g)
  | WaitNext b nh => has_taken g (CMoving t) b 30 s ∧ ghp g = HWait t b ∧ ∃ m, nh = 64 * b + 62 + Z.b2z m
  | NextNext b nh nx =>
      has_taken g (CMoving t) b 30 s ∧ ghp g = HWait t b ∧ (∃ m, nh = 64 * b + 62 + Z.b2z m) ∧
      glk g b = LLinked ∧ nx = b + 1
  | SetHeadBlock b nx ni =>
      has_taken g (CMoving t) b 30 s ∧ ghp g = HWait t b ∧ glk g b = LLinked ∧ nx = b + 1 ∧ next_ok g b ni
  | SetHeadIndex b ni => has_taken g (CMoving t) b 30 s ∧ ghp g = HStored t b ∧ next_ok g b ni
  | WaitWrite b off => has_taken g (CTaken t) b off s
  | ReadValue b off => has_taken g (CTaken t) b off s ∧ gprod g (31 * b + off) = PFlagged
  | MarkRead b off x => has_taken g (CGot t) b off s ∧ off < 30 ∧ popped s x
  | DestroyLoad b i x | DestroyOr b i x => 0 ≤ b ∧ 0 ≤ i < 30 ∧ gbat g b = BWalk i t ∧ popped s x
  | DestroyFree b x => 0 ≤ b ∧ gbat g b = BWalk 30 t ∧ popped s x
  | Len1 => called s OpLen 0
  | Len2 tl => called s OpLen 0 ∧ tl ≤ tail_raw g
  | Len3 tl hd =>
      called s OpLen 0 ∧ tl ≤ tail_raw g ∧
      (tl = tail_raw g → seen_some s (λ v, len_of tl hd = Ret (Z.of_nat (length (items v)))))
  | Empty1 => called s OpIsEmpty 0
  | Empty2 hd =>
      called s OpIsEmpty 0 ∧ ∃ k p m, hd = 2 * (enc k - Z.b2z p) + Z.b2z m ∧ 0 ≤ k ≤ gH g ∧
      (p = true → 0 < k ∧ k mod 31 = 0) ∧ (k < gH g → seen_some s (λ v, items v ≠ [])) ∧ hd ≤ head_raw g
  | CloseTail => called s OpClose 0
  | LoadClosed => called s OpIsClosed 0
  end.

(** ** Stability *)

Record env u g s g' s' : Prop := {
  e_H : gH g ≤ gH g';
  e_log : glog g `prefix_of` glog g';
  e_closed : gclosed g = true → gclosed g' = true;
  e_frame : ∃ t, u ≠ t ∧ Frame t g g';
  e_grows : grows s s';
  e_some o n : gH g < gH g' → called s o n → seen_some s' (λ v, items v ≠ []);
}.

Section stable.
Context u g s g' s' (He : env u g s g' s').

Lemma unb_env_T : gT g ≤ gT g'.
Proof. pose proof (prefix_length _ _ (e_log _ _ _ _ _ He)). unfold gT. lia. Qed.

Lemma unb_env_logged k x : logged g k = Some x → logged g' k = Some x.
Proof. intros H. destruct (e_log _ _ _ _ _ He) as [r Hr]. unfold logged. rewrite Hr. by apply lookup_app_l_Some. Qed.

Lemma env_same r : holder g r = Some u → same g g' r.
Proof. intros H. destruct (e_frame _ _ _ _ _ He) as (t & Hne & HF). by eapply f_same. Qed.

Lemma env_prod k p : pown p = Some u → gprod g k = p → gprod g' k = p.
Proof. intros H <-. by apply (env_same (RProd k)). Qed.
Lemma env_cons k c : cown c = Some u → gcons g k = c → gcons g' k = c.
Proof. intros H <-. by apply (env_same (RCons k)). Qed.
Lemma env_lk b l : lown l = Some u → glk g b = l → glk g' b = l.
Proof. intros H <-. by apply (env_same (RLink b)). Qed.
Lemma env_bat b x : bown x = Some u → gbat g b = x → gbat g' b = x.
Proof. intros H <-. by apply (env_same (RBat b)). Qed.
Lemma env_fst f : fown f = Some u → gfst g = f → gfst g' = f.
Proof. intros H <-. by apply (env_same RFirst). Qed.
Lemma env_hp h : hown h = Some u → ghp g = h → ghp g' = h.
Proof. intros H <-. by apply (env_same RHead). Qed.
Lemma env_flag k : gprod g k = PFlagged → gprod g' k = PFlagged.
Proof. destruct (e_frame _ _ _ _ _ He) as (t & Hne & HF). eapply f_flag, HF. Qed.
Lemma env_linked b : glk g b = LLinked → glk g' b = LLinked.
Proof. destruct (e_frame _ _ _ _ _ He) as (t & Hne & HF). eapply f_linked, HF. Qed.
Lemma env_tail : tail_raw g ≤ tail_raw g'.
Proof. destruct (e_frame _ _ _ _ _ He) as (t & Hne & HF). eapply f_tail, HF. Qed.
Lemma env_head : head_raw g ≤ head_raw g'.
Proof. destruct (e_frame _ _ _ _ _ He) as (t & Hne & HF). eapply f_head, HF. Qed.

Lemma env_JS j : JS j s → JS j s'.
Proof.
  pose proof (e_grows _ _ _ _ _ He) as Hg. destruct j; cbn.
  - by apply fifo_grows_called.
  - intros (len & vs & Hc & H). exists len, vs. split; [by eapply fifo_grows_called|done].
  - intros (vs & Hc & H). exists vs. split; [by eapply fifo_grows_called|done].
Qed.

Lemma env_JD j tl : JD j tl s → JD j tl s'.
Proof.
  pose proof (e_grows _ _ _ _ _ He) as Hg. destruct j; cbn.
  - by apply fifo_grows_decided.
  - intros (len & vs & Hc & H). exists len, vs. split; [by eapply fifo_grows_called|done].
  - intros (vs & Hc & H). exists vs. split; [by eapply fifo_grows_called|done].
Qed.

Lemma env_called o n : called s o n → called s' o n.
Proof. apply fifo_grows_called, (e_grows _ _ _ _ _ He). Qed.
Lemma env_seen P : seen_some s P → seen_some s' P.
Proof. apply fifo_grows_seen, (e_grows _ _ _ _ _ He). Qed.
Lemma env_popped x : popped s x → popped s' x.
Proof. apply fifo_grows_decided, (e_grows _ _ _ _ _ He). Qed.

Lemma unb_env_old_tail tl : old_tail g tl → old_tail g' tl.
Proof. intros [? ?]. pose proof env_tail. pose proof (e_closed _ _ _ _ _ He). split; [lia|auto]. Qed.
Lemma unb_env_old_head hd : old_head g hd → old_head g' hd.
Proof. intros [? Hm]. pose proof env_head. pose proof unb_env_T. split; [lia|]. intros Hx. specialize (Hm Hx). lia. Qed.

Lemma env_cont tl b : cont g tl b → cont g' tl b.
Proof.
  intros (H1 & H2 & H3). pose proof env_tail. split_and!; [lia|lia|done|]. intros Ht Ho.
  destruct (e_frame _ _ _ _ _ He) as (t & Hne & HF). assert (tl = tail_raw g) as -> by lia.
  specialize (H3 eq_refl Ho). destruct (f_tail_blk _ _ _ HF) as [Hx|Hx]; [done..|congruence|congruence].
Qed.

Lemma env_hcont hd p : old_head g hd → hcont g hd p → hcont g' hd p.
Proof.
  intros [Ho _] H Hd Hoff. pose proof env_head. destruct (e_frame _ _ _ _ _ He) as (t & Hne & HF).
  assert (hd = head_raw g) as -> by lia. destruct (H eq_refl Hoff) as [->|<-]; [by left|].
  destruct (f_head_blk _ _ _ HF) as [->| ->]; [done|done|by left|by right].
Qed.

Lemma env_at_seg j tl b : at_seg g j tl b → at_seg g' j tl b.
Proof. intros (? & ? & ? & ? & ?). pose proof unb_env_T. unfold at_seg. lia. Qed.

Lemma env_claimed j tl b m : claimed g u j tl b m → claimed g' u j tl b m.
Proof. intros H n x Hn Hx. destruct (H n x Hn Hx). split; [by apply env_prod|by apply unb_env_logged]. Qed.

Lemma env_tail_part j nb tl b : tail_part g u j nb tl b → tail_part g' u j nb tl b.
Proof.
  intros H Hm. specialize (H Hm). destruct (fills j tl); [|by apply env_cont]. destruct H. split; [done|by apply env_lk].
Qed.

Lemma env_taken c b off : cown c = Some u → has_taken g c b off s → has_taken g' c b off s'.
Proof.
  intros Hc (? & ? & ? & x & Hx & Hp). split_and!; [lia|lia|lia|by apply env_cons|]. exists x.
  split; [by apply unb_env_logged|by apply env_popped].
Qed.

Lemma env_next_ok b ni : next_ok g b ni → next_ok g' b ni.
Proof. intros (m & ? & H). pose proof unb_env_T. exists m. split; [done|]. intros Hm. specialize (H Hm). lia. Qed.
End stable.

#[local] Hint Resolve env_JS env_JD env_called env_seen env_popped unb_env_old_tail unb_env_old_head env_cont env_at_seg
  env_claimed env_tail_part env_next_ok env_flag env_linked : unb.

Lemma unb_TI_env u g s g' s' p : env u g s g' s' → TI g u p s → TI g' u p s'.
Proof.
  intros He. pose proof (unb_env_T _ _ _ _ _ He) as HT. pose proof (e_H _ _ _ _ _ He) as HH.
  pose proof (e_grows _ _ _ _ _ He) as Hg. pose proof (env_tail _ _ _ _ _ He). pose proof (env_head _ _ _ _ _ He).
  destruct p; cbn [TI]; try (by eauto with unb).
  - by intros ->.
  - intros [->|Ha]; [by left|right; by eapply fifo_grows_answered].
  - intros []; eauto with unb.
  - intros (? & ? & ?); eauto with unb.
  - intros (? & ? & ? & ? & ? & ?). split_and!; eauto with unb. by eapply env_fst.
  - intros (? & ? & ?); eauto with unb.
  - intros (? & ? & ? & ? & ? & Hc). split_and!; eauto with unb. by eapply env_lk.
  - intros (? & ? & ? & ? & ? & Hc). split_and!; eauto with unb. by eapply env_lk.
  - intros (? & ? & ? & ? & ? & Hc & ?). split_and!; eauto with unb. by eapply env_lk.
  - intros (? & ? & ? & ? & ?). split_and!; eauto with unb.
  - intros (? & ? & ? & ? & ? & ?). split_and!; eauto with unb. by eapply env_prod.
  - intros []; eauto with unb.
  - intros (? & ? & ? & ? & ?). split_and!; eauto with unb. by eapply env_hcont.
  - intros (? & ? & ? & ? & ? & m & ? & Hm). split_and!; eauto with unb; [by eapply env_hcont|lia|].
    exists m. split; [done|]. intros Hm'. specialize (Hm Hm'). lia.
  - intros (? & ? & ?). split_and!; [by eapply env_taken|by eapply env_hp|done].
  - intros (? & ? & ? & ? & ?). split_and!; [by eapply env_taken|by eapply env_hp|done|by eauto with unb|done].
  - intros (? & ? & ? & ? & ?). split_and!; [by eapply env_taken|by eapply env_hp|by eauto with unb|done|by eauto with unb].
  - intros (? & ? & ?). split_and!; [by eapply env_taken|by eapply env_hp|by eauto with unb].
  - intros ?. by eapply env_taken.
  - intros (? & ?). split; [by eapply env_taken|by eauto with unb].
  - intros (? & ? & ?). split_and!; [by eapply env_taken|done|by eauto with unb].
  - intros (? & ? & ? & ?). split_and!; [lia..|by eapply env_bat|by eauto with unb].
  - intros (? & ? & ? & ?). split_and!; [lia..|by eapply env_bat|by eauto with unb].
  - intros (? & ? & ?). split_and!; [lia..|by eapply env_bat|by eauto with unb].
  - intros (? & ?). split; [by eauto with unb|lia].
  - intros (? & ? & Hs). split_and!; [by eauto with unb|lia|]. intros Ht. eapply env_seen; [done|]. apply Hs. lia.
  - intros (Hc & k & p & m & ? & ? & ? & Hs & ?). split; [by eauto with unb|]. exists k, p, m. split_and!; [done|lia|lia|done| |lia].
    intros Hlt. destruct (decide (k < gH g)); [by eauto with unb|]. eapply (e_some _ _ _ _ _ He); [lia|done].
Qed.

(** ** One step of one thread *)

Definition Moved t g s (e : event A) g' s' : Prop :=
  match e with
  | Tau => gH g' = gH g ∧ glog g' = glog g ∧ gclosed g' = gclosed g ∧ s' = s
  | Enq u xs =>
      u = t ∧ gH g' = gH g ∧ glog g' = glog g ++ xs ∧ gclosed g = false ∧ gclosed g' = false ∧
      ∃ o n seen s1, s = ACalled o n seen ∧ enq_ok o n xs seen s1 ∧ s' = see (gview g') s1
  | Deq u =>
      u = t ∧ gH g' = gH g + 1 ∧ glog g' = glog g ∧ gclosed g' = gclosed g ∧
      ∃ n seen x, s = ACalled OpPop n seen ∧ logged g (gH g) = Some x ∧ popped s' x
  | Shut u =>
      u = t ∧ gH g' = gH g ∧ glog g' = glog g ∧ gclosed g' = true ∧
      ∃ n seen, s = ACalled OpClose n seen ∧ s' = ADecided (RBool (negb (gclosed g)))
  | _ => False
  end.

(** What a program point holds. *)
Definition covers (p : Pc A) (r : res) : Prop :=
  match p with
  | FirstHead _ _ _ _ => r = RFirst
  | SetTailBlock j _ tl b | BumpTail j tl b _ | LinkNext j tl b _ =>
      match r with
      | RLink b' => b' = b
      | RProd k => many j = false ∧ 31 * b + offset_of tl ≤ k < 31 * b + offset_of tl + seg_len j tl
      | _ => False
      end
  | Write j _ tl b m | Flag j _ tl b m =>
      match r with
      | RLink b' => many j = true ∧ fills j tl = true ∧ b' = b
      | RProd k => 31 * b + (offset_of tl + Z.of_nat m) ≤ k < 31 * b + offset_of tl + seg_len j tl
      | _ => False
      end
  | WaitNext b _ | NextNext b _ _ | SetHeadBlock b _ _ | SetHeadIndex b _ =>
      match r with RHead => True | RCons k => k = 31 * b + 30 | _ => False end
  | WaitWrite b off | ReadValue b off | MarkRead b off _ => match r with RCons k => k = 31 * b + off | _ => False end
  | DestroyLoad b _ _ | DestroyOr b _ _ | DestroyFree b _ => match r with RBat b' => b' = b | _ => False end
  | _ => False
  end.
Definition owned g t (p : Pc A) : Prop := ∀ r, holder g r = Some t → covers p r.

Definition StepOK q g t (spurious : bool) (p : Pc A) s : Prop :=
  ∃ q' p' e, code_step q t spurious p = Ret (q', p', e) ∧
    (gT g + Z.of_nat (length (enqueued [e])) ≤ 2 ^ 60 →
     ∃ g' s', QInv q' g' ∧ TI g' t p' s' ∧ Moved t g s e g' s' ∧ Frame t g g' ∧ (owned g t p → owned g' t p')).

Lemma unb_step_local q g t sp p s p' :
  QInv q g → code_step q t sp p = Ret (q, p', Tau) → TI g t p' s → (∀ r, covers p r → covers p' r) → StepOK q g t sp p s.
Proof.
  intros Hq Hc Ht Hcov. exists q, p', Tau. split; [done|]. intros _. exists g, s.
  split_and!; [done|done|done|apply frame_refl|]. intros Ho r Hr. auto.
Qed.

(** A step that is not seen and does not move an index. *)
Lemma unb_step_tau q g t sp p s q' p' g' :
  code_step q t sp p = Ret (q', p', Tau) → QInv q' g' → TI g' t p' s →
  gH g' = gH g → glog g' = glog g → gclosed g' = gclosed g → Frame t g g' → (owned g t p → owned g' t p') →
  StepOK q g t sp p s.
Proof. intros Hc Hq Ht ? ? ? HF Ho. exists q', p', Tau. split; [done|]. intros _. by exists g', s. Qed.

Ltac code := cbn [code_step push_step pop_step read_step query_step].

(** *** Pushes *)

Lemma take_split {B} (l : list B) n m : (n ≤ m)%nat → take m l = take n l ++ take (m - n) (drop n l).
Proof.
  intros Hn. rewrite <- (take_drop n (take m l)) at 1. rewrite take_take, Nat.min_l by lia. f_equal. apply skipn_firstn_comm.
Qed.

Lemma refill_ok j off s :
  0 ≤ off < 31 → JS j s →
  match refill j off with Some j' => JS j' s ∧ segment j' off ≠ [] | None =>
    ∃ len vs w, called s (OpPushN len vs) w ∧ w = length (take len vs) ∧ push_closed j = RPushN w end.
Proof.
  intros Hoff Hj. destruct j as [x|todo iter w x|len iter stage w]; cbn; [by split|by split|].
  destruct stage as [|x stage]; cbn.
  - destruct Hj as (vs & Hc & Hd & Hw & _). cbn in Hd. rewrite Nat.sub_0_r in Hd.
    set (cap := (Z.to_nat (31 - off) `min` (len - w))%nat).
    assert (cap ≤ len - w)%nat as Hcl by (unfold cap; lia). assert (len - w ≠ 0 → cap ≠ 0)%nat as Hc0 by (unfold cap; lia).
    clearbody cap.
    destruct (take cap iter) as [|x stage] eqn:Ht.
    + exists len, vs, w. split_and!; [done| |done]. assert (take (len - w) iter = []) as Hn.
      { destruct iter; [by rewrite take_nil|]. destruct (len - w)%nat eqn:Hl; [done|].
        destruct cap eqn:Hcap; [lia|]. by cbn in Ht. }
      rewrite Hn in Hd. apply (f_equal length) in Hd. rewrite length_drop in Hd. cbn in Hd. lia.
    + assert (length (x :: stage) ≤ cap)%nat as Hl by (rewrite <- Ht, length_take; lia). split.
      * exists vs. split_and!; [done| |done|rewrite length_take in Hw; cbn in *; lia]. rewrite Hd, <- Ht.
        rewrite (take_split _ cap) by lia. f_equal. rewrite length_take. destruct (decide (cap ≤ length iter)%nat).
        -- by rewrite Nat.min_l by lia.
        -- by rewrite (drop_ge iter cap), !take_nil by lia.
      * cbn [segment]. destruct (Z.to_nat (31 - off)) eqn:H31; [lia|done].
  - split; [done|]. cbn [segment]. destruct (Z.to_nat (31 - off)) eqn:H31; [lia|done].
Qed.

Lemma push_top_ok g t s j nb tl p :
  GInv g → sees (gview g) s → JS j s → old_tail g tl → (∀ b, p = Some b → tl = tail_raw g → offset_of tl ≠ 31 → tail_blk g = Some b) →
  TI g t (push_top j nb tl p) s.
Proof.
  intros HG HS Hj Ht Hp. unfold push_top. destruct (marked tl) eqn:Hm.
  { destruct Ht as [_ Hc]. specialize (Hc Hm). right. destruct j; cbn in *.
    - eapply fifo_answer_now; [done..|]. done.
    - destruct Hj as (len & vs & Hca & _). eapply fifo_answer_now; [done..|]. split; [done|by right].
    - destruct Hj as (vs & Hca & _). eapply fifo_answer_now; [done..|]. split; [done|by right]. }
  case_bool_decide as Ho; [done|].
  assert (0 ≤ offset_of tl < 31) as Hoff by (rewrite offset_div in *; lia).
  pose proof (refill_ok j (offset_of tl) s Hoff Hj) as Hr. destruct (refill j (offset_of tl)) as [j'|].
  - destruct Hr as [Hj' Hs]. assert (Ready j' (nb || fills j' tl) tl) as HR.
    { split_and!; [done|lia|done|]. intros ->. by rewrite orb_true_r. }
    destruct p as [b|]; cbn; split_and!; try done. split; [apply Ht|split; [done|by apply Hp]].
  - destruct Hr as (len & vs & w & Hc & Hw & ->). right. eapply fifo_answer_now; [done..|]. split; [done|by left].
Qed.

Lemma unb_tail_now g : GInv g → old_tail g (tail_raw g).
Proof. intros HG. destruct (tail_spec g HG) as (? & _ & _ & Hm & _). split; [lia|by rewrite Hm]. Qed.

Lemma push_index_ok q g t sp s j nb : QInv q g → JS j s → StepOK q g t sp (PushIndex j nb) s.
Proof.
  intros Hq Hj. eapply unb_step_local; [done|code; done| |done]. split; [done|]. rewrite (qi_ti _ _ Hq). apply unb_tail_now, Hq.
Qed.

Lemma push_block_ok q g t sp s j nb tl :
  QInv q g → sees (gview g) s → JS j s → old_tail g tl → StepOK q g t sp (PushBlock j nb tl) s.
Proof.
  intros Hq HS Hj Ht. eapply unb_step_local; [done|code; done| |done]. rewrite (qi_tb _ _ Hq).
  apply push_top_ok; [apply Hq|done..].
Qed.

(** A block none of whose positions was reserved is as allocated. *)
Lemma fresh_block g b : GInv g → 0 ≤ b → gT g ≤ 31 * b → hcell g b = Some new_block.
Proof.
  intros HG Hb Hle. pose proof (gi_le _ HG).
  assert (∀ i, 0 ≤ i < 31 → gcons g (31 * b + i) = CFree) as Hc by (intros; apply (gi_cons _ HG); lia).
  assert (gbat g b = BNone) as HB by (apply (gi_bat _ HG); by rewrite Hc by lia).
  unfold hcell, blk, new_block. rewrite HB. do 2 f_equal.
  - assert (glk g b = LOpen) as -> by (apply (gi_lk _ HG); lia). done.
  - apply (list_eq_same_length _ _ 31); [by rewrite length_replicate|by rewrite length_fmap, length_seqZ|].
    intros n x y Hn Hx Hy. apply lookup_replicate in Hy as [-> _]. rewrite list_lookup_fmap, lookup_seqZ_lt in Hx by lia.
    injection Hx as <-. unfold cell. rewrite Hc by lia.
    assert (gprod g (31 * b + (0 + Z.of_nat n)) = PNone) as -> by (apply (gi_prod _ HG); lia). cbn.
    destruct (gd g (31 * b + (0 + Z.of_nat n))) eqn:Hd; [|done].
    pose proof (gi_gd _ HG b (0 + Z.of_nat n) ltac:(lia) Hd) as Hw. rewrite Hc, HB in Hw by lia. by specialize (Hw ltac:(done)).
Qed.

Lemma q_share q g q' g' :
  QInv q g → GInv g' → heap q' = heap q ++ [Some new_block] → head_index q' = head_raw g' → head_block q' = head_blk g' →
  tail_index q' = tail_raw g' → tail_block q' = tail_blk g' → nblk g' = nblk g + 1 → gT g' ≤ 31 * nblk g → gT g' ≤ 2 ^ 60 →
  (∀ b, 0 ≤ b < nblk g → hcell g' b = hcell g b) → QInv q' g'.
Proof.
  intros Hq HG Eh H1 H2 H3 H4 En HT Hm Hc. pose proof Hq as []. split; rewrite ?Eh, ?En; try done.
  - rewrite length_app. cbn. lia.
  - intros b Hb. destruct (decide (b = nblk g)) as [->|].
    + rewrite lookup_app_r by lia. replace (Z.to_nat (nblk g) - length (heap q))%nat with 0%nat by lia.
      cbn. f_equal. symmetry. apply fresh_block; [done|lia|done].
    + rewrite lookup_app_l by lia. rewrite qi_heap by lia. by rewrite Hc by lia.
Qed.

Lemma first_cas_ok q g t sp s j nb tl :
  QInv q g → JS j s → old_tail g tl → Ready j nb tl → StepOK q g t sp (FirstCas j nb tl) s.
Proof.
  intros Hq Hj Ht HR. pose proof Hq as []. destruct (tail_block q) as [b|] eqn:Hb.
  { eapply unb_step_local; [done|code; by rewrite Hb|done|done]. }
  assert (gfst g = FNone) as Hf by (unfold tail_blk in qi_tb; by destruct (gfst g)).
  pose proof (gi_first _ qi_g Hf) as HT0.
  assert (tail_lap g = 0) as Hl.
  { unfold tail_lap. assert (glk g (gT g / 31 - 1) = LOpen) as -> by (apply (gi_lk _ qi_g); rewrite HT0; cbn; lia). by rewrite HT0. }
  assert (nblk g = 0) as Hn by (unfold nblk; by rewrite Hf). assert (address q = 0) as Had by (unfold address; lia).
  eapply (unb_step_tau _ _ _ _ _ _ _ _ (set_fst g (FHead t))); [code; by rewrite Hb, Had| |..]; try done.
  - eapply (q_share q g); try done; cbn; try done.
    + by apply g_first; [|rewrite Hf|].
    + rewrite qi_hb. unfold head_blk. by rewrite Hf.
    + unfold tail_blk, set_fst. cbn. f_equal. symmetry. apply Hl.
    + rewrite Hn. unfold nblk. cbn. change (tail_lap g + 1 = 1). lia.
    + unfold gT in *. cbn in *. lia.
  - assert (tl = 0) as ->.
    { destruct HR as (HR & _), Ht as [Ht _]. destruct (tail_spec g qi_g) as (_ & _ & _ & _ & Hh & _).
      rewrite marked_odd in HR. apply bool_decide_eq_false in HR. rewrite HT0 in Hh.
      assert (tpend g = false) as Hp by (destruct (tpend g) eqn:Hp; [apply tpend_full in Hp; [lia|done]|done]).
      rewrite Hp in Hh. unfold RingPos.enc in Hh. cbn in Hh. lia. }
    done.
  - split; try done; try lia; try (by auto).
    + intros [] u Hu; cbn; try done. by rewrite Hf.
    + intros [] u Hu; cbn; try done. intros [= ->]. done.
    + intros _ _. left. unfold head_blk. by rewrite Hf.
  - intros Ho r Hr. destruct r; cbn in Hr; try (by destruct (Ho (RProd k) Hr)); try (by destruct (Ho (RCons k) Hr));
      try (by destruct (Ho (RLink b) Hr)); try (by destruct (Ho (RBat b) Hr)); try (by destruct (Ho RHead Hr)). done.
Qed.

Lemma first_head_ok q g t sp s j nb tl b :
  QInv q g → JS j s → old_tail g tl → Ready j nb tl → b = 0 → tl = 0 → gfst g = FHead t →
  StepOK q g t sp (FirstHead j nb tl b) s.
Proof.
  intros Hq Hj Ht HR -> -> Hf. pose proof Hq as [].
  assert (gH g = 0) as HH by (apply (gi_first_head _ qi_g); by rewrite Hf).
  assert (ghp g = HNone) as Hh.
  { destruct (ghp g) as [|u b|u b] eqn:Hh; [done|..]; (destruct (gi_hp _ qi_g u b) as (? & ? & _); [by auto|lia]). }
  eapply (unb_step_tau _ _ _ _ _ _ _ _ (set_fst g FDone)); [code; done| |..]; try done.
  - eapply (q_regs q g); try done; cbn; try done.
    + by apply g_first; [|rewrite Hf|].
    + unfold head_blk, head_lap, set_fst. cbn. by rewrite Hh, HH.
    + rewrite qi_tb. unfold tail_blk. rewrite Hf. done.
    + unfold nblk. rewrite Hf. done.
  - cbn. split_and!; [done|done|]. destruct (tail_spec g qi_g) as (? & _ & _ & _ & Hd & _).
    pose proof (tpend_full g qi_g) as Htp. pose proof (gi_le _ qi_g).
    split; [|split; [done|]]; change (tail_raw (set_fst g FDone)) with (tail_raw g); [lia|].
    intros Hz _. rewrite <- Hz in Hd. unfold tail_blk. cbn. f_equal. change (tail_lap g = 0).
    assert (gT g = 0) as HT0. { unfold RingPos.enc in Hd. destruct (tpend g); cbn in Hd; lia. }
    unfold tail_lap. assert (glk g (gT g / 31 - 1) = LOpen) as -> by (apply (gi_lk _ qi_g); rewrite HT0; cbn; lia). by rewrite HT0.
  - split; try done; try lia; try (by auto).
    + intros [] u Hu; cbn; try done. rewrite Hf. cbn. congruence.
    + intros [] u Hu; cbn; try done.
    + intros _ _. right. unfold tail_blk. rewrite Hf. done.
    + intros _ _. left. unfold head_blk. by rewrite Hf.
  - intros Ho r Hr. assert (holder g r = Some t) as Hr' by (destruct r; try done). specialize (Ho r Hr'). cbn in Ho. subst r. done.
Qed.

Lemma seg_bound j tl : 0 ≤ offset_of tl < 31 → segment j (offset_of tl) ≠ [] → 0 < seg_len j tl ∧ offset_of tl + seg_len j tl ≤ 31.
Proof.
  intros Ho Hs. unfold seg_len. split; [destruct (segment j (offset_of tl)); [done|cbn; lia]|].
  destruct j; cbn; try lia. rewrite length_take. lia.
Qed.

(** A segment enters the queue. *)
Lemma job_enq j tl s :
  JS j s → segment j (offset_of tl) ≠ [] →
  ∃ o n seen s1, s = ACalled o n seen ∧ enq_ok o n (segment j (offset_of tl)) seen s1 ∧ ∀ v, JD j tl (see v s1).
Proof.
  intros Hj Hs. destruct j as [x|todo iter w x|len iter stage w]; cbn in Hj.
  - destruct Hj as [seen ->]. eexists _, _, seen, _. split; [done|]. cbn. split; [by split|done].
  - destruct Hj as (len & vs & [seen ->] & Hd & Hw). eexists _, _, seen, _. split; [done|]. cbn. split.
    { split_and!; [done| |done]. rewrite Hd. by exists (take todo iter). }
    intros v. exists len, vs. split_and!; [by eexists|..].
    + rewrite <- drop_drop, Hd. done.
    + apply (f_equal length) in Hd. rewrite length_drop in Hd. cbn in Hd. lia.
  - destruct Hj as (vs & [seen ->] & Hd & Hw & Hl). eexists _, _, seen, _. split; [done|]. cbn [enq_ok]. split.
    { split_and!; [done| |done]. rewrite Hd. cbn. apply prefix_app_r. apply prefix_take. }
    intros v. cbn [JD segment] in *. set (n := length (take (Z.to_nat (31 - offset_of tl)) stage)) in *.
    assert (n ≤ length stage)%nat as Hn by (unfold n; rewrite length_take; lia). exists vs. split_and!; [by eexists|..].
    + rewrite <- drop_drop, Hd, drop_app_le by done. f_equal. f_equal. rewrite length_drop. lia.
    + apply (f_equal length) in Hd. rewrite length_drop, length_app in Hd. lia.
    + rewrite length_drop. lia.
Qed.

Lemma tpend_claim g t xs :
  GInv g → tpend g = false → xs ≠ [] → gT g mod 31 + Z.of_nat (length xs) ≤ 31 →
  tpend (claim g t xs) = bool_decide (gT g mod 31 + Z.of_nat (length xs) = 31) ∧ tail_lap (claim g t xs) = gT g / 31 ∧
  tail_lap g = gT g / 31 ∧ tail_raw (claim g t xs) = tail_raw g + 2 * Z.of_nat (length xs).
Proof.
  intros HG Hp Hx Hn. pose proof (gi_le _ HG). assert (0 < Z.of_nat (length xs)) as H0 by (destruct xs; [done|cbn; lia]).
  assert (tpend (claim g t xs) = bool_decide (gT g mod 31 + Z.of_nat (length xs) = 31) ∧ tail_lap (claim g t xs) = gT g / 31) as [H1 H2].
  { unfold tpend, tail_lap in *. rewrite claim_T. cbn. case_bool_decide.
    - rewrite decide_True by lia. split; [done|lia].
    - rewrite decide_False by lia. replace ((gT g + Z.of_nat (length xs)) / 31) with (gT g / 31) by lia.
      split; [done|]. by destruct (glk g (gT g / 31 - 1)). }
  split_and!; [done|done|unfold tail_lap, tpend in *; by destruct (glk g (gT g / 31 - 1))|].
  unfold tail_raw. rewrite H1, Hp, claim_T. cbn [claim gclosed]. unfold RingPos.enc. case_bool_decide; cbn [Z.b2z]; lia.
Qed.

Lemma frame_claim g t xs :
  GInv g → tpend g = false → xs ≠ [] → gT g mod 31 + Z.of_nat (length xs) ≤ 31 → Frame t g (claim g t xs).
Proof.
  intros HG Hp Hx Hn. destruct (tpend_claim g t xs HG Hp Hx Hn) as (_ & _ & _ & Hr).
  assert (0 < Z.of_nat (length xs)) as H0 by (destruct xs; [done|cbn; lia]).
  assert (∀ k, gT g ≤ k → gprod g k = PNone) as Hk by (intros; apply (gi_prod _ HG); lia).
  assert (∀ b, 31 * (b + 1) = gT g + Z.of_nat (length xs) → glk g b = LOpen) as Hb by (intros; apply (gi_lk _ HG); lia).
  split; cbn; try done; try lia.
  - intros [] u Hu; cbn; try done; case_decide; try done; [rewrite Hk by lia|rewrite Hb by lia]; done.
  - intros [] u Hu; cbn; try done; case_decide; try done; intros [= ->]; done.
  - intros k. case_decide; [by rewrite Hk by lia|done].
  - intros b. case_decide; [by rewrite Hb by lia|done].
  - intros _ _. by right.
Qed.

Lemma hcell_claim g t xs b : GInv g → xs ≠ [] → 0 ≤ b → hcell (claim g t xs) b = hcell g b.
Proof.
  intros HG Hx Hb. pose proof (gi_le _ HG). apply hcell_ext; cbn; [done|..].
  - case_decide; [|done]. destruct xs as [|x xs]; [done|]. cbn in *.
    assert (glk g b = LOpen) as -> by (apply (gi_lk _ HG); lia). done.
  - intros i Hi. unfold cell, logged. cbn. case_decide.
    + assert (gprod g (31 * b + i) = PNone) as -> by (apply (gi_prod _ HG); lia). done.
    + destruct (decide (31 * b + i < gT g)).
      * rewrite lookup_app_l; [done|]. unfold gT in *. lia.
      * assert (gprod g (31 * b + i) = PNone) as -> by (apply (gi_prod _ HG); lia). done.
Qed.

Lemma even_index tl : 0 ≤ tl → marked tl = false → tl = 64 * lap_of tl + 2 * offset_of tl ∧ 0 ≤ offset_of tl ∧ 0 ≤ lap_of tl.
Proof. intros H0 Hm. rewrite marked_odd in Hm. apply bool_decide_eq_false in Hm. rewrite offset_div, lap_div. lia. Qed.

(** What holds when the tail is where the thread last saw it. *)
Lemma tail_here g tl b :
  GInv g → cont g tl b → offset_of tl < 31 → tail_raw g = tl →
  tpend g = false ∧ gclosed g = false ∧ gfst g ≠ FNone ∧ gT g mod 31 = offset_of tl ∧ gT g / 31 = b ∧ 0 ≤ b ∧ lap_of tl = b.
Proof.
  intros HG (_ & Hm & Hb) Ho Ht. destruct (tail_spec g HG) as (_ & Hoff & Hlap & Hmk & _). rewrite Ht in *.
  specialize (Hb eq_refl ltac:(lia)). pose proof (gi_le _ HG).
  assert (tpend g = false) as Hp by (destruct (tpend g); [lia|done]). rewrite Hp in Hoff, Hlap. cbn in Hoff, Hlap.
  assert (gfst g ≠ FNone ∧ gT g / 31 = b) as [Hf Hd].
  { unfold tail_blk, tail_lap, tpend in *. destruct (gfst g); try done; destruct (glk g (gT g / 31 - 1)); by injection Hb. }
  split_and!; try done; [congruence|lia|lia].
Qed.

Lemma index_fits q g tl : QInv q g → tl ≤ tail_raw g → tl < 2 ^ 63.
Proof.
  intros Hq Ht. pose proof (raw_bound (gT g) (tpend g) (gclosed g)) as Hr. pose proof (gi_le _ (qi_g _ _ Hq)).
  pose proof (qi_max _ _ Hq). unfold tail_raw in Ht. lia.
Qed.

Lemma unb_push_cas_ok q g t sp s j nb tl b :
  QInv q g → JS j s → Ready j nb tl → cont g tl b → StepOK q g t sp (PushCas j nb tl b) s.
Proof.
  intros Hq Hj HR Hc. pose proof HR as (Hmk & Ho & Hs & Hnb). pose proof Hc as (Ht & _ & _).
  destruct (even_index tl ltac:(lia) Hmk) as (He & Ho0 & _). destruct (seg_bound j tl ltac:(lia) Hs) as [Hn0 Hn].
  pose proof (index_fits q g tl Hq ltac:(lia)) as Hf. pose proof (qi_g _ _ Hq) as HG.
  assert (checked_add 64 tl (Z.shiftl (seg_len j tl) 1) = Ret (tl + 2 * seg_len j tl)) as Hadd.
  { rewrite twice. apply checked_add_ret. lia. }
  destruct (bool_decide (tail_index q = tl) && negb sp) eqn:Hcas; cycle 1.
  { eapply unb_step_local; [done|code; rewrite Hadd; cbn [mbind outcome_mbind]; by rewrite Hcas| |done].
    split; [done|]. rewrite (qi_ti _ _ Hq). by apply unb_tail_now. }
  apply andb_true_iff in Hcas as Hcas'. destruct Hcas' as [Htl _]. apply bool_decide_eq_true in Htl. rewrite (qi_ti _ _ Hq) in Htl.
  destruct (tail_here g tl b HG Hc Ho Htl) as (Hp & Hcl & Hfst & Hmod & Hdiv & Hb & Hlap).
  set (xs := segment j (offset_of tl)) in *. assert (seg_len j tl = Z.of_nat (length xs)) as Hsl by done.
  destruct (job_enq j tl s Hj Hs) as (o & n & seen & s1 & Hs1 & Henq & HJD). fold xs in Henq.
  destruct (tpend_claim g t xs HG Hp Hs ltac:(lia)) as (Hp' & Hl' & Hl & Hraw).
  exists (set_tail_index q (tl + 2 * seg_len j tl)), (reserved j nb tl b), (Enq t xs).
  split; [code; rewrite Hadd; cbn [mbind outcome_mbind]; by rewrite Hcas|]. intros Hmax. cbn in Hmax. rewrite app_nil_r in Hmax.
  assert (GInv (claim g t xs)) as HG' by (apply g_claim; (done || lia)).
  exists (claim g t xs), (see (gview (claim g t xs)) s1). pose proof (claim_T g t xs) as HT.
  assert (at_seg (claim g t xs) j tl b) as Hseg by (unfold at_seg; rewrite HT; lia).
  assert (claimed (claim g t xs) t j tl b 0) as Hcl'.
  { intros m x _ Hx. fold xs in Hx. pose proof (lookup_lt_Some _ _ _ Hx). cbn. rewrite decide_True by lia. split; [done|].
    unfold logged. cbn. rewrite lookup_app_r by (unfold gT in *; lia). rewrite <- Hx. f_equal. unfold gT in *. lia. }
  assert (fills j tl = true → glk (claim g t xs) b = LFull t) as Hfull.
  { intros Hfl. apply bool_decide_eq_true in Hfl. cbn. by rewrite decide_True by lia. }
  split_and!.
  - eapply (q_regs q g); try done; cbn [set_tail_index heap head_index head_block tail_index tail_block].
    + apply (qi_hi _ _ Hq).
    + apply (qi_hb _ _ Hq).
    + lia.
    + rewrite (qi_tb _ _ Hq). unfold tail_blk. rewrite Hl, Hl'. done.
    + unfold nblk. by rewrite Hl, Hl'.
    + lia.
    + intros c Hc'. apply hcell_claim; [done|done|lia].
  - assert (many j = true → tail_part (claim g t xs) t j nb tl b) as Htp.
    { intros _ _. destruct (fills j tl) eqn:Hfl; [by auto|]. rewrite twice.
      assert (offset_of tl + seg_len j tl ≠ 31) by (by apply bool_decide_eq_false in Hfl).
      split_and!; [lia|lia|rewrite marked_odd, bool_decide_eq_false_2 by lia; done|]. intros _ _.
      unfold tail_blk. cbn. destruct (gfst g); [done|..]; by rewrite Hl', Hdiv. }
    unfold reserved. destruct j; cbn [TI]; [destruct (fills _ tl) eqn:Hfl; cbn [TI]..|]; split_and!; try done; auto; lia.
  - cbn. split_and!; try done. by exists o, n, seen, s1.
  - apply frame_claim; (done || lia).
  - intros Hown r Hr. assert (∀ r, holder g r = Some t → False) as Hno by (intros r' Hr'; by destruct (Hown r')).
    destruct r as [k|k|c|c| |]; cbn in Hr; try (by destruct (Hno (RCons k))); try (by destruct (Hno (RBat c)));
      try (by destruct (Hno RFirst)); try (by destruct (Hno RHead)).
    + case_decide; [|by destruct (Hno (RProd k))]. unfold reserved. destruct j; try destruct (fills _ tl); cbn; lia.
    + case_decide; [|by destruct (Hno (RLink c))].
      assert (c = b) as -> by lia. assert (fills j tl = true) as Hfl by (apply bool_decide_eq_true; lia).
      unfold reserved. destruct j; rewrite ?Hfl; done.
Qed.

(** *** Installing the next block *)

Lemma link_live g b t :
  GInv g → lown (glk g b) = Some t → 0 ≤ b ∧ 31 * (b + 1) ≤ gT g ∧ gbat g b = BNone ∧ gfst g ≠ FNone ∧ 0 ≤ b < nblk g.
Proof.
  intros HG Hl. assert (0 ≤ b ∧ 31 * (b + 1) ≤ gT g) as [Hb HT].
  { destruct (decide (0 ≤ b ∧ 31 * (b + 1) ≤ gT g)) as [|Hn]; [done|]. apply (gi_lk _ HG) in Hn. by rewrite Hn in Hl. }
  split_and!; try done.
  - apply (gi_bat _ HG). intros Hd. pose proof (gi_cons _ HG (31 * b + 30)) as Hc. rewrite Hd in Hc.
    assert (31 * (b + 1) ≤ gH g) as HH. { destruct (decide (0 ≤ 31 * b + 30 < gH g)) as [|Hn]; [lia|]. by apply Hc in Hn. }
    destruct (gi_link _ HG b Hb HH) as [Hx|[u Hx]]; [by rewrite Hx in Hl|].
    destruct (gi_hp _ HG u b (or_introl Hx)) as (_ & _ & Hx'). congruence.
  - intros Hf. pose proof (gi_first _ HG Hf). lia.
  - apply (in_heap g b 0); (done || lia).
Qed.

Lemma frame_lk t g b l :
  lown (glk g b) = Some t → (lown l = None ∨ lown l = Some t) → tail_raw g ≤ tail_raw (set_lk g b l) →
  (tail_raw g = tail_raw (set_lk g b l) → offset_of (tail_raw g) ≠ 31 → tail_blk (set_lk g b l) = tail_blk g) →
  Frame t g (set_lk g b l).
Proof.
  intros Hk Hl H1 H2. split; try done.
  - intros [] u Hu; cbn; try done. rewrite fn_get. case_decide; [subst|done]. congruence.
  - intros [] u Hu; cbn; try done. rewrite fn_get. case_decide; [subst|done]. destruct Hl as [-> | ->]; congruence.
  - intros c Hc. cbn. rewrite fn_get. case_decide; [subst|done]. by rewrite Hc in Hk.
  - intros He Ho. right. by apply H2.
  - intros _ _. by right.
Qed.

Lemma owned_lk g t b l p p' :
  (∀ r, covers p r → r ≠ RLink b → covers p' r) → (lown l = Some t → covers p' (RLink b)) →
  owned g t p → owned (set_lk g b l) t p'.
Proof.
  intros H1 H2 Ho r Hr. destruct (decide (r = RLink b)) as [->|Hne]; [|].
  - apply H2. cbn in Hr. by rewrite fn_get, decide_True in Hr.
  - apply H1; [|done]. apply Ho. destruct r; try done. cbn in Hr. rewrite fn_get in Hr. case_decide; [congruence|done].
Qed.

Lemma hcell_lk g b l c : glk g b ≠ LLinked → l ≠ LLinked → hcell (set_lk g b l) c = hcell g c.
Proof. intros H1 H2. apply hcell_ext; cbn; [done| |done]. rewrite fn_get. case_decide; [by subst|done]. Qed.

Lemma set_tail_ok q g t sp s j nb tl b :
  QInv q g → JD j tl s → at_seg g j tl b → fills j tl = true → nb = true → glk g b = LFull t →
  (many j = false → claimed g t j tl b 0) → StepOK q g t sp (SetTailBlock j nb tl b) s.
Proof.
  intros Hq HJ Hseg Hfl -> Hl Hcl. pose proof Hq as []. pose proof (gi_pend _ qi_g b t (or_introl Hl)) as HT.
  destruct (link_live g b t qi_g) as (Hb & _ & _ & Hf & _); [by rewrite Hl|].
  assert (gT g / 31 - 1 = b) as HTb by lia.
  assert (nblk g = b + 1) as Hn by (unfold nblk, tail_lap; rewrite HTb, Hl; by destruct (gfst g)).
  assert (address q = b + 1) as Had by (unfold address; lia).
  set (g' := set_lk g b (LStored t)). assert (gT g' = gT g) as HT' by done.
  assert (glk g' b = LStored t) as Hl' by (cbn; by rewrite fn_get, decide_True).
  assert (tail_raw g' = tail_raw g) as Hraw by (unfold tail_raw, tpend; rewrite HT', HTb, Hl', Hl; done).
  assert (GInv g') as HG' by (eapply g_lk; [done|by left]).
  eapply (unb_step_tau _ _ _ _ _ _ _ _ g'); [code; by rewrite Had| |..]; try done.
  - eapply (q_share q g); try done; cbn; try done.
    + congruence.
    + unfold tail_blk, tail_lap. rewrite HT', HTb, Hl'. cbn. destruct (gfst g); [done|..]; f_equal; lia.
    + rewrite Hn. unfold nblk, tail_lap. rewrite HT', HTb, Hl'. cbn. destruct (gfst g); [done|..]; lia.
    + rewrite Hn. lia.
    + intros c _. apply hcell_lk; [by rewrite Hl|done].
  - destruct (tail_spec g qi_g) as (_ & Hoff & _). apply frame_lk; [by rewrite Hl|by right|fold g'; lia|].
    intros _ Ho. destruct Ho. rewrite Hoff. unfold tpend. by rewrite HTb, Hl.
  - apply owned_lk; [|done]. by intros [].
Qed.

Lemma bump_ok q g t sp s j tl b nx :
  QInv q g → JD j tl s → at_seg g j tl b → fills j tl = true → glk g b = LStored t → nx = b + 1 →
  (many j = false → claimed g t j tl b 0) → StepOK q g t sp (BumpTail j tl b nx) s.
Proof.
  intros Hq HJ Hseg Hfl Hl -> Hcl. pose proof Hq as []. pose proof (gi_pend _ qi_g b t (or_intror Hl)) as HT.
  destruct (link_live g b t qi_g) as (Hb & _ & _ & Hf & _); [by rewrite Hl|].
  assert (gT g / 31 - 1 = b) as HTb by lia.
  set (g' := set_lk g b (LBumped t)). assert (gT g' = gT g) as HT' by done.
  assert (glk g' b = LBumped t) as Hl' by (cbn; by rewrite fn_get, decide_True).
  assert (tail_raw g = 64 * (b + 1) - 2 + Z.b2z (gclosed g) ∧ tail_raw g' = 64 * (b + 1) + Z.b2z (gclosed g)) as [Hr Hr'].
  { unfold tail_raw, tpend. rewrite HT', HTb, Hl', Hl, HT. cbn [Z.b2z set_lk gclosed g']. unfold RingPos.enc. lia. }
  assert (GInv g') as HG' by (eapply g_lk; [done|right; by left]).
  assert (tail_blk g = Some (b + 1) ∧ tail_blk g' = Some (b + 1) ∧ nblk g' = nblk g) as (Htb & Htb' & Hn).
  { unfold tail_blk, nblk, tail_lap. rewrite HT', HTb, Hl', Hl. cbn.
    destruct (gfst g); [done|..]; split_and!; (done || f_equal; lia). }
  pose proof (raw_bound (gT g) false (gclosed g) ltac:(pose proof (gi_le _ qi_g); lia)) as Hbd.
  rewrite HT in Hbd. unfold RingPos.enc in Hbd.
  eapply (unb_step_tau _ _ _ _ _ _ _ _ g'); [code; done| |..]; try done.
  - eapply (q_regs q g); try done; cbn; try done.
    + rewrite qi_ti, Hr, Hr'. unfold wrapping_add. rewrite wrap_small; [lia|]. unfold is_word.
      destruct (gclosed g); cbn [Z.b2z] in *; lia.
    + congruence.
    + intros c _. apply hcell_lk; [by rewrite Hl|done].
  - cbn [TI]. split_and!; try done. split_and!; [lia|destruct (gclosed g); cbn [Z.b2z] in *; lia| |done].
    rewrite marked_odd. apply bool_decide_eq_false. lia.
  - apply frame_lk; [by rewrite Hl|by right|fold g'; lia|]. fold g'. congruence.
  - apply owned_lk; [|done]. by intros [].
Qed.

(** After a segment of a batch. *)
Lemma batch_next_ok g t s j nb tl tl' b :
  GInv g → sees (gview g) s → many j = true → JD j tl s → cont g tl' b →
  TI g t (batch_next j (length (segment j (offset_of tl))) nb tl' b) s.
Proof.
  intros HG HS Hm HJ Hc. destruct j as [|?|len iter stage w]; try done. cbn [batch_next JD] in *.
  set (n := length (segment _ _)) in *. destruct (bool_decide (drop n stage = []) && _) eqn:Hend.
  - apply andb_true_iff in Hend as [He1 He2]. apply bool_decide_eq_true in He1, He2.
    destruct HJ as (vs & Hca & Hd & Hw & _). right. eapply fifo_answer_now; [done..|]. split; [done|]. left.
    rewrite length_take in *. lia.
  - apply push_top_ok; try done.
    + destruct Hc as (? & Hmk & _). split; [done|]. by rewrite Hmk.
    + intros b' [= <-]. apply Hc.
Qed.

Lemma link_ok q g t sp s j tl b nx :
  QInv q g → sees (gview g) s → JD j tl s → at_seg g j tl b → fills j tl = true → glk g b = LBumped t → nx = b + 1 →
  (many j = false → claimed g t j tl b 0) → cont g (64 * (b + 1)) nx → StepOK q g t sp (LinkNext j tl b nx) s.
Proof.
  intros Hq HS HJ Hseg Hfl Hl -> Hcl Hc. pose proof Hq as [].
  destruct (link_live g b t qi_g) as (Hb & HT & Hbat & Hf & Hin); [by rewrite Hl|].
  set (g' := set_lk g b LLinked). assert (gT g' = gT g) as HT' by done.
  assert (GInv g') as HG' by (eapply g_lk; [done|right; by right]).
  assert (tail_raw g' = tail_raw g ∧ tail_lap g' = tail_lap g) as [Hraw Hlap].
  { unfold tail_raw, tail_lap, tpend. rewrite HT'. cbn. rewrite fn_get. case_decide as He; [|done]. rewrite <- He, Hl. done. }
  assert (tail_blk g' = tail_blk g) as Htb by (unfold tail_blk; cbn; by rewrite Hlap).
  assert (nblk g' = nblk g) as Hn by (unfold nblk; cbn; by rewrite Hlap).
  assert (offset_of tl + seg_len j tl = 31) as Hfl' by (by apply bool_decide_eq_true in Hfl).
  pose proof Hseg as (_ & _ & Htl & _). pose proof (index_fits q g (64 * (b + 1)) Hq ltac:(destruct Hc; lia)) as Hfit.
  assert (∃ p', linked j tl b (b + 1) = Ret p' ∧ TI g' t p' s ∧ (∀ r, covers (LinkNext j tl b (b + 1)) r → r ≠ RLink b → covers p' r))
    as (p' & Hp' & Hti & Hcov).
  { unfold linked. destruct (many j) eqn:Hm.
    - destruct j; try done. rewrite twice, checked_add_ret by lia. cbn [mbind outcome_mbind]. eexists. split; [done|]. split.
      + apply batch_next_ok; try done. replace (tl + 2 * seg_len _ tl + 2) with (64 * (b + 1)) by lia.
        split_and!; [destruct Hc; lia|rewrite Hraw; destruct Hc; lia|apply Hc|]. intros H1 H2. rewrite Htb. apply Hc; [congruence|done].
      + intros [k|k|c|c| |] H1 H2; try done; cbn in H1; [by destruct H1|congruence].
    - exists (Write j false tl b 0). split; [by destruct j|]. split.
      + cbn [TI]. split_and!; try done; [|by apply Hcl|congruence]. destruct Hseg as (_ & ? & _). destruct j; cbn; done || lia.
      + intros [k|k|c|c| |] H1 H2; try done; cbn in *; [lia|congruence]. }
  eapply (unb_step_tau _ _ _ _ _ _ _ _ g').
  - code. rewrite (deref_ok q g) by (done || by rewrite Hbat). cbn [mbind outcome_mbind]. rewrite Hp'. done.
  - split; cbn; rewrite ?Hn; try done; [congruence|by rewrite Htb|by rewrite length_insert|].
    intros c Hc'. destruct (decide (c = b)) as [->|Hne].
    + rewrite list_lookup_insert_eq by lia. rewrite hcell_live by (cbn; by rewrite Hbat). unfold blk, g'. cbn.
      rewrite fn_get, decide_True by done. done.
    + rewrite list_lookup_insert_ne by lia. rewrite qi_heap by done. f_equal. symmetry. apply hcell_ext; cbn; [done| |done].
      by rewrite fn_get, decide_False.
  - done.
  - done.
  - done.
  - done.
  - apply frame_lk; [by rewrite Hl|by left|fold g'; lia|done].
  - apply owned_lk; done.
Qed.

(** *** Writing the slots *)

Lemma slot_mine q g b i :
  QInv q g → 0 ≤ i < 31 → 0 ≤ 31 * b + i < gT g → gcons g (31 * b + i) ≠ CDone →
  0 ≤ b < nblk g ∧ gbat g b ≠ BFreed ∧ slot_at q b i = Ret (cell g (31 * b + i)).
Proof.
  intros Hq Hi Hk Hc. pose proof (qi_g _ _ Hq) as HG. pose proof (in_heap g b i HG Hi Hk).
  pose proof (not_freed g b i HG Hi Hc). split_and!; try lia; try done. by apply unb_slot_ok.
Qed.

Lemma prod_not_got g k : GInv g → gprod g k ≠ PFlagged → gcons g k = CFree ∨ (∃ t, gcons g k = CMoving t ∨ gcons g k = CTaken t).
Proof.
  intros HG Hp. pose proof (gi_got _ HG k) as Hg. destruct (gcons g k); try (by destruct Hp; apply Hg); eauto.
Qed.

Lemma claimed_prod g t j tl b k m p : k < 31 * b + (offset_of tl + Z.of_nat m) → claimed g t j tl b m → claimed (set_prod g k p) t j tl b m.
Proof.
  intros Hk Hc n x Hn Hx. destruct (Hc n x Hn Hx). cbn. rewrite fn_get, decide_False by lia. done.
Qed.

Lemma unb_write_ok q g t sp s j nb tl b m :
  QInv q g → JD j tl s → at_seg g j tl b → Z.of_nat m < seg_len j tl → claimed g t j tl b m → tail_part g t j nb tl b →
  StepOK q g t sp (Write j nb tl b m) s.
Proof.
  intros Hq HJ Hseg Hm Hcl Htp. pose proof (qi_g _ _ Hq) as HG. pose proof Hseg as (Hb & Ho & _ & Hn & HT).
  destruct (lookup_lt_is_Some_2 (segment j (offset_of tl)) m) as [x Hx]; [unfold seg_len in Hm; lia|].
  destruct (Hcl m x (Nat.le_refl _) Hx) as [Hp Hlog]. set (i := offset_of tl + Z.of_nat m) in *.
  pose proof (prod_not_got g (31 * b + i) HG ltac:(by rewrite Hp)) as Hcon.
  destruct (slot_mine q g b i Hq) as (Hin & Hfr & Hs); [lia|lia|destruct Hcon as [-> |(? & [-> | ->])]; done|].
  assert (GInv (set_prod g (31 * b + i) (PWritten t))) as HG' by (apply g_prod; rewrite ?Hp; done).
  destruct (q_prod q g b i (PWritten t) Hq HG' Hin ltac:(lia) Hfr) as (q' & Hq' & HQ).
  eapply (unb_step_tau _ _ _ _ _ _ _ _ (set_prod g (31 * b + i) (PWritten t))); [|done|..]; try done.
  - code. rewrite Hx. cbn [assume_init mbind outcome_mbind]. fold i. rewrite Hs. cbn [mbind outcome_mbind].
    assert (mkSlot (Some x) (state (cell g (31 * b + i))) = cell (set_prod g (31 * b + i) (PWritten t)) (31 * b + i)) as ->.
    { unfold cell. cbn. rewrite !fn_get, decide_True by done. f_equal; [|by rewrite Hp].
      rewrite <- Hlog. by destruct Hcon as [-> |(? & [-> | ->])]. }
    rewrite Hq'. done.
  - cbn [TI]. split_and!; try done.
    + cbn. by rewrite fn_get, decide_True.
    + apply claimed_prod; [lia|]. intros n y Hn' Hy. apply Hcl; [lia|done].
  - apply frame_prod; [by rewrite Hp|by right].
  - intros Hown r Hr. change (covers (Write j nb tl b m) r). destruct (decide (r = RProd (31 * b + i))) as [->|Hne].
    + cbn. lia.
    + apply Hown. destruct r; try done. cbn in Hr. rewrite fn_get in Hr. case_decide; [congruence|done].
Qed.

Lemma wide_next_ok g t s todo iter w len vs :
  sees (gview g) s → called s (OpPushN len vs) w → drop w (take len vs) = take todo iter → (w ≤ length (take len vs))%nat →
  TI g t (wide_next todo iter w) s.
Proof.
  intros HS Hc Hd Hw. unfold wide_next. destruct todo as [|todo], iter as [|x iter]; cbn [take] in Hd; cbn [TI].
  1-3: right; (eapply fifo_answer_now; [done..|]); split; [done|]; left;
    apply (f_equal length) in Hd; rewrite length_drop in Hd; cbn in Hd; lia.
  by exists len, vs.
Qed.

Lemma written_all_ok g t s j nb tl b :
  GInv g → sees (gview g) s → JD j tl s → at_seg g j tl b → tail_part g t j nb tl b → TI g t (written_all j nb tl b) s.
Proof.
  intros HG HS HJ Hseg Htp. destruct j as [x|todo iter w x|len iter stage w].
  - by left.
  - destruct HJ as (len & vs & Hc & Hd & Hw). cbn. by eapply wide_next_ok.
  - cbn [written_all]. specialize (Htp eq_refl). destruct (fills _ tl) eqn:Hfl; [|by apply batch_next_ok].
    destruct Htp. cbn [TI]. split_and!; done.
Qed.

Lemma flag_ok q g t sp s j nb tl b m :
  QInv q g → sees (gview g) s → JD j tl s → at_seg g j tl b → Z.of_nat m < seg_len j tl →
  gprod g (31 * b + (offset_of tl + Z.of_nat m)) = PWritten t → claimed g t j tl b (S m) → tail_part g t j nb tl b →
  StepOK q g t sp (Flag j nb tl b m) s.
Proof.
  intros Hq HS HJ Hseg Hm Hp Hcl Htp. pose proof (qi_g _ _ Hq) as HG. pose proof Hseg as (Hb & Ho & _ & Hn & HT).
  set (i := offset_of tl + Z.of_nat m) in *. pose proof (prod_not_got g (31 * b + i) HG ltac:(by rewrite Hp)) as Hcon.
  destruct (slot_mine q g b i Hq) as (Hin & Hfr & Hs); [lia|lia|destruct Hcon as [-> |(? & [-> | ->])]; done|].
  set (g' := set_prod g (31 * b + i) PFlagged).
  assert (GInv g') as HG' by (apply g_prod; rewrite ?Hp; done).
  destruct (q_prod q g b i PFlagged Hq HG' Hin ltac:(lia) Hfr) as (q' & Hq' & HQ).
  eapply (unb_step_tau _ _ _ _ _ _ _ _ g'); [|done|..]; try done.
  - code. fold i. rewrite Hs. cbn [mbind outcome_mbind].
    assert (mkSlot (value (cell g (31 * b + i))) (Z.lor (state (cell g (31 * b + i))) 1) = cell g' (31 * b + i)) as ->.
    { unfold cell. cbn. rewrite !fn_get, decide_True by done. rewrite Hp. cbn. rewrite (proj1 (word3_or _ _ _)).
      by destruct Hcon as [-> |(? & [-> | ->])]. }
    unfold g'. rewrite Hq'. done.
  - case_bool_decide as Hmore; [|by apply written_all_ok]. cbn [TI]. split_and!; try done. apply claimed_prod; [lia|done].
  - apply frame_prod; [by rewrite Hp|by left].
  - intros Hown r Hr. assert (covers (Flag j nb tl b m) r ∧ r ≠ RProd (31 * b + i)) as [Hcov Hne].
    { destruct (decide (r = RProd (31 * b + i))) as [->|Hne].
      - cbn in Hr. by rewrite fn_get, decide_True in Hr.
      - split; [|done]. apply Hown. destruct r; try done. cbn in Hr. rewrite fn_get in Hr. case_decide; [congruence|done]. }
    destruct r as [k|k|c|c| |]; try done; cbn in Hcov.
    + assert (k ≠ 31 * b + i) by congruence. rewrite bool_decide_eq_true_2 by lia. cbn. lia.
    + destruct Hcov as (Hmy & Hfl & ->). case_bool_decide; [done|]. destruct j; try done. cbn [written_all]. rewrite Hfl. done.
Qed.

(** *** Pops *)

Lemma unb_head_now g : GInv g → old_head g (head_raw g).
Proof.
  intros HG. destruct (head_spec g HG) as (? & _ & _ & Hm & Hd & _). split; [lia|]. rewrite Hm. intros Hmk.
  pose proof (gi_mark _ HG Hmk). rewrite lap_div. lia.
Qed.

Lemma head_fits q g hd : QInv q g → hd ≤ head_raw g → hd < 2 ^ 63.
Proof.
  intros Hq Ht. pose proof (raw_bound (gH g) (hpend g) (ghm g)) as Hr. pose proof (gi_le _ (qi_g _ _ Hq)).
  pose proof (qi_max _ _ Hq). unfold head_raw in Ht. lia.
Qed.

Lemma pop_index_ok q g t sp s : QInv q g → called s OpPop 0 → StepOK q g t sp PopIndex s.
Proof.
  intros Hq Hc. eapply unb_step_local; [done|code; done| |done]. split; [done|]. rewrite (qi_hi _ _ Hq). apply unb_head_now, Hq.
Qed.

Lemma pop_go_ok g t s hd nh p m :
  called s OpPop 0 → old_head g hd → offset_of hd < 31 → hcont g hd p → 31 * lap_of hd + offset_of hd < gT g →
  nh = hd - hd mod 2 + 2 + Z.b2z m → (m = true → 31 * (lap_of hd + 1) ≤ gT g) → TI g t (pop_go hd nh p) s.
Proof. intros. destruct p as [b|]; [|done]. cbn [pop_go TI]. split_and!; try done. by exists m. Qed.

Lemma pop_block_ok q g t sp s hd :
  QInv q g → called s OpPop 0 → old_head g hd → StepOK q g t sp (PopBlock hd) s.
Proof.
  intros Hq Hc Ho. pose proof Ho as [Hle Hmk]. pose proof (head_fits q g hd Hq ltac:(lia)) as Hf.
  assert (∃ p', pop_top hd (head_block q) = Ret p' ∧ TI g t p' s) as (p' & Hp & Ht).
  { unfold pop_top. case_bool_decide as H31; [by exists PopIndex|]. rewrite checked_add_ret by lia. cbn [mbind outcome_mbind].
    assert (offset_of hd < 31) as Hoff by (rewrite offset_div in *; lia).
    assert (marked (hd + 2) = marked hd) as -> by (rewrite !marked_odd; apply bool_decide_ext; lia).
    assert (hcont g hd (head_block q)) as Hh by (intros _ _; right; symmetry; apply (qi_hb _ _ Hq)).
    destruct (marked hd) eqn:Hm; eexists; (split; [done|]).
    - specialize (Hmk eq_refl). eapply (pop_go_ok _ _ _ _ _ _ true); try done; [lia|].
      rewrite marked_odd in Hm. apply bool_decide_eq_true in Hm. cbn. lia.
    - cbn [TI]. done. }
  eapply unb_step_local; [done|code; by rewrite Hp|done|done].
Qed.

Lemma pop_tail_ok q g t sp s hd p :
  QInv q g → sees (gview g) s → called s OpPop 0 → old_head g hd → offset_of hd < 31 → marked hd = false → hcont g hd p →
  StepOK q g t sp (PopTail hd p) s.
Proof.
  intros Hq HS Hc Ho Hoff Hm Hh. pose proof Ho as [Hle _]. pose proof (qi_g _ _ Hq) as HG.
  destruct (even_index hd ltac:(lia) Hm) as (He & Ho0 & Hl0).
  pose proof (head_fits q g hd Hq ltac:(lia)) as Hf. pose proof (index_le g HG) as Hix. pose proof (gi_le _ HG) as HHT.
  destruct (head_spec g HG) as (_ & _ & _ & _ & Hhd & _). destruct (tail_spec g HG) as (Ht0 & _ & Hlap & Hmk & Htl & _).
  assert (hd / 2 ≤ head_raw g / 2) by lia.
  destruct (decide (hd / 2 = tail_raw g / 2)) as [Heq|Hne].
  - eapply unb_step_local; [done|code; rewrite checked_add_ret by lia; cbn [mbind outcome_mbind];
      rewrite (qi_ti _ _ Hq), !half, bool_decide_eq_true_2 by done; done| |done].
    assert (gH g = gT g) as HH by (apply index_eq; [done|lia]). apply items_nil in HH; [|done].
    right. eapply fifo_answer_now; [done..|]. rewrite Hmk. by destruct (gclosed g) eqn:Hcl.
  - assert (31 * lap_of hd + offset_of hd < gT g) as Hpos.
    { unfold RingPos.enc in *. pose proof (tpend_full g HG). destruct (tpend g); cbn [Z.b2z] in *; lia. }
    eapply unb_step_local; [done|code; rewrite checked_add_ret by lia; cbn [mbind outcome_mbind];
      rewrite (qi_ti _ _ Hq), !half, bool_decide_eq_false_2 by done; done| |done].
    eapply (pop_go_ok _ _ _ _ _ _ (negb (bool_decide (lap_of hd = lap_of (tail_raw g))))); try done.
    + case_bool_decide; cbn; [|rewrite mark_or by lia]; lia.
    + case_bool_decide as Hl; [done|]. intros _. unfold RingPos.enc in *. pose proof (tpend_full g HG).
      destruct (tpend g); cbn [Z.b2z] in *; lia.
Qed.

Lemma hcell_taken g g' b :
  gprod g' = gprod g → glog g' = glog g → gd g' = gd g → glk g' = glk g → gbat g' = gbat g →
  (∀ k, gcons g' k = gcons g k ∨ ¬ got (gcons g k) ∧ ¬ got (gcons g' k)) → hcell g' b = hcell g b.
Proof.
  intros E1 E2 E3 E4 E5 Hc. apply hcell_ext; [by rewrite E5|by rewrite E4|]. intros i Hi.
  unfold cell, logged. rewrite E1, E2, E3. destruct (Hc (31 * b + i)) as [->|[H1 H2]]; [done|].
  destruct (gcons g (31 * b + i)); try (by destruct H1); destruct (gcons g' (31 * b + i)); first [done|by destruct H2].
Qed.

Lemma unb_pop_cas_ok q g t sp s hd nh b :
  QInv q g → called s OpPop 0 → old_head g hd → offset_of hd < 31 → hcont g hd (Some b) →
  31 * lap_of hd + offset_of hd < gT g →
  (∃ m, nh = hd - hd mod 2 + 2 + Z.b2z m ∧ (m = true → 31 * (lap_of hd + 1) ≤ gT g)) → StepOK q g t sp (PopCas hd nh b) s.
Proof.
  intros Hq Hc Ho Hoff Hh Hpos (m & Hnh & Hm). pose proof (qi_g _ _ Hq) as HG.
  destruct (bool_decide (head_index q = hd) && negb sp) eqn:Hcas; cycle 1.
  { eapply unb_step_local; [done|code; by rewrite Hcas| |done]. split; [done|]. rewrite (qi_hi _ _ Hq). by apply unb_head_now. }
  apply andb_true_iff in Hcas as Hcas'. destruct Hcas' as [Hhd _]. apply bool_decide_eq_true in Hhd. rewrite (qi_hi _ _ Hq) in Hhd.
  destruct (head_spec g HG) as (_ & Hof & Hlap & _ & Hhalf & Hpar). rewrite Hhd in *. pose proof (gi_le _ HG) as HHT.
  assert (hpend g = false) as Hp by (destruct (hpend g); [lia|done]). rewrite Hp in Hof, Hlap, Hhalf. cbn [Z.b2z] in Hhalf.
  assert (ghp g = HNone) as Hhp by (unfold hpend in Hp; by destruct (ghp g)).
  destruct (Hh ltac:(done) ltac:(lia)) as [|Hb]; [done|].
  assert (gfst g = FDone ∧ gH g / 31 = b) as [Hf Hdiv].
  { unfold head_blk, head_lap in Hb. rewrite Hhp in Hb. destruct (gfst g); try done; by injection Hb. }
  assert (gH g < gT g) as Hlt by lia. set (g' := take1 g t m).
  assert (GInv g') as HG' by (apply g_take; try done; intros; specialize (Hm ltac:(done)); lia).
  assert (∃ x, logged g (gH g) = Some x) as [x Hx] by (apply lookup_lt_is_Some_2; unfold gT in *; lia).
  assert (head_raw g' = nh) as Hraw.
  { unfold head_raw, hpend, g', take1. cbn [gH ghp ghm]. unfold RingPos.enc in *. clear Hcas. case_bool_decide; cbn [Z.b2z]; lia. }
  assert (head_blk g' = head_blk g) as Hblk.
  { unfold head_blk, head_lap, g', take1. cbn. rewrite Hhp. destruct (gfst g); try done.
    clear Hcas. case_bool_decide; [done|]. f_equal. lia. }
  assert (gcons g (gH g) = CFree) as Hfree by (apply (gi_cons _ HG); lia).
  eexists _, _, _. split; [code; by rewrite Hcas|]. clear Hcas. intros _. exists g', (ADecided (RPop (inl x))).
  assert (gcons g' (gH g) = if bool_decide (gH g mod 31 = 30) then CMoving t else CTaken t) as Hc'.
  { cbn. by rewrite fn_get, decide_True. }
  split_and!.
  - eapply (q_regs q g); try done; cbn [set_head_index heap head_index head_block tail_index tail_block].
    + rewrite Hblk. apply (qi_hb _ _ Hq).
    + apply (qi_ti _ _ Hq).
    + apply (qi_tb _ _ Hq).
    + apply (qi_max _ _ Hq).
    + intros c _. apply hcell_taken; try done. intros k. destruct (decide (gH g = k)) as [<-|].
      * right. rewrite Hfree, Hc'. split; [tauto|]. case_bool_decide; cbn; tauto.
      * left. cbn. by rewrite fn_get, decide_False.
  - destruct (decide (gH g mod 31 = 30)) as [Hm30|Hm30].
    + rewrite bool_decide_eq_true_2 by lia. cbn [TI]. split_and!.
      * unfold has_taken. split_and!; [lia..| |exists x]; replace (31 * b + 30) with (gH g) by lia; [|done]. by rewrite Hc', bool_decide_eq_true_2.
      * cbn. by rewrite bool_decide_eq_true_2, Hdiv.
      * exists m. unfold RingPos.enc in Hhalf. lia.
    + rewrite bool_decide_eq_false_2 by lia. cbn [TI]. unfold has_taken.
      split_and!; [lia..| |exists x]; replace (31 * b + offset_of hd) with (gH g) by lia; [|done]. by rewrite Hc', bool_decide_eq_false_2.
  - destruct Hc as [seen ->]. cbn. split_and!; try done. by exists 0%nat, seen, x.
  - split; try done.
    + intros [] u Hu; cbn; try done; [|by rewrite Hhp]. rewrite fn_get. destruct (decide (gH g = k)) as [<-|]; [by rewrite Hfree|done].
    + clear Hc'. intros [] u Hu; cbn; try done; [rewrite fn_get; destruct (decide (gH g = k)); [|done]|];
        case_bool_decide; cbn; congruence.
    + intros _ _. by right.
    + rewrite Hraw. assert (0 ≤ Z.b2z m) by (by destruct m). lia.
    + intros _ _. by right.
  - intros Hown r Hr. assert (∀ r, holder g r = Some t → False) as Hno by (intros r' Hr'; by destruct (Hown r')).
    destruct r as [k|k|c|c| |]; try (by destruct (Hno (RProd k))); try (by destruct (Hno (RLink c)));
      try (by destruct (Hno (RBat c))); try (by destruct (Hno RFirst)).
    + cbn in Hr. rewrite fn_get in Hr. destruct (decide (gH g = k)); [|by destruct (Hno (RCons k))]. clear Hc' Hr. case_bool_decide; cbn; lia.
    + cbn in Hr. clear Hc'. case_bool_decide; [|done]. rewrite bool_decide_eq_true_2 by lia. done.
Qed.

(** *** Moving the head to the next block *)

Lemma taken_pos g c b off s : GInv g → has_taken g c b off s → c ≠ CFree → 0 ≤ 31 * b + off < gT g.
Proof.
  intros HG (Hb & Ho & Hc & _) Hf. pose proof (gi_le _ HG). destruct (decide (0 ≤ 31 * b + off < gH g)) as [|Hn]; [lia|].
  apply (gi_cons _ HG) in Hn. congruence.
Qed.

Lemma wait_next_ok q g t sp s b nh :
  QInv q g → has_taken g (CMoving t) b 30 s → ghp g = HWait t b → (∃ m, nh = 64 * b + 62 + Z.b2z m) →
  StepOK q g t sp (WaitNext b nh) s.
Proof.
  intros Hq Ht Hh Hnh. pose proof (taken_pos _ _ _ _ _ (qi_g _ _ Hq) Ht ltac:(done)) as Hk.
  destruct (slot_mine q g b 30 Hq) as (Hin & Hfr & _); [lia|done|by destruct Ht as (_ & _ & -> & _)|].
  eapply unb_step_local; [done|code; rewrite (deref_ok q g) by done; cbn [mbind outcome_mbind]; done|..].
  - unfold blk. cbn [next]. destruct (glk g b) eqn:Hl; cbn [TI]; done.
  - unfold blk. cbn [next]. by destruct (glk g b).
Qed.

Lemma next_next_ok q g t sp s b nh nx :
  QInv q g → has_taken g (CMoving t) b 30 s → ghp g = HWait t b → (∃ m, nh = 64 * b + 62 + Z.b2z m) →
  glk g b = LLinked → nx = b + 1 → StepOK q g t sp (NextNext b nh nx) s.
Proof.
  intros Hq Ht Hh (m & Hnh) Hl ->. pose proof (qi_g _ _ Hq) as HG.
  destruct (gi_hp _ HG t b (or_introl Hh)) as (Hb & HH & _). pose proof (gi_le _ HG) as Hle. pose proof (qi_max _ _ Hq).
  assert (b + 1 < nblk g) as Hin.
  { unfold nblk, tail_lap. destruct (gfst g) eqn:Hf; [pose proof (gi_first _ HG Hf); lia|..];
      (destruct (glk g (gT g / 31 - 1)) eqn:Hx; try lia; destruct (decide (gT g / 31 - 1 = b)); [congruence|lia]). }
  assert (gbat g (b + 1) = BNone) as Hbat.
  { apply (gi_bat _ HG). assert (gcons g (31 * (b + 1) + 30) = CFree) as -> by (apply (gi_cons _ HG); lia). done. }
  assert (wrapping_add 64 (Z.land nh (not_word 64 1)) 2 = 64 * (b + 1)) as Hni.
  { rewrite unmark by (destruct m; cbn [Z.b2z] in *; lia). unfold wrapping_add.
    rewrite wrap_small; unfold is_word; destruct m; cbn [Z.b2z] in *; lia. }
  eapply unb_step_local; [done|code; rewrite (deref_ok q g) by (lia || by rewrite Hbat || done); cbn [mbind outcome_mbind];
    rewrite Hni; done|..]; [|by intros []].
  cbn [TI]. split_and!; try done. unfold blk. cbn [next]. destruct (decide (glk g (b + 1) = LLinked)) as [Hx|Hx].
  - rewrite Hx. exists true. rewrite mark_or by lia. cbn [Z.b2z]. split; [lia|]. intros _.
    destruct (decide (0 ≤ b + 1 ∧ 31 * (b + 1 + 1) ≤ gT g)) as [|Hn]; [lia|]. apply (gi_lk _ HG) in Hn. congruence.
  - exists false. split; [|done]. cbn [Z.b2z]. destruct (glk g (b + 1)); (done || lia).
Qed.

Lemma set_head_block_ok q g t sp s b nx ni :
  QInv q g → has_taken g (CMoving t) b 30 s → ghp g = HWait t b → glk g b = LLinked → nx = b + 1 → next_ok g b ni →
  StepOK q g t sp (SetHeadBlock b nx ni) s.
Proof.
  intros Hq Ht Hh Hl -> Hni. pose proof Hq as []. destruct (gi_hp _ qi_g t b (or_introl Hh)) as (Hb & HH & _).
  assert (gfst g = FDone) as Hf.
  { destruct (gfst g) eqn:Hf; [..|done]; (pose proof (gi_first_head _ qi_g ltac:(by rewrite Hf)); lia). }
  assert (GInv (set_hp g (HStored t b) (ghm g))) as HG' by (by apply g_stored).
  assert (head_raw (set_hp g (HStored t b) (ghm g)) = head_raw g) as Hr by (unfold head_raw, hpend; cbn [ghp set_hp]; by rewrite Hh).
  eapply (unb_step_tau _ _ _ _ _ _ _ _ (set_hp g (HStored t b) (ghm g))); [code; done| |..]; try done.
  - eapply (q_regs q g); try done; cbn [set_head_block heap head_index head_block tail_index tail_block]; try done.
    + congruence.
    + unfold head_blk, head_lap. cbn [set_hp gfst ghp gH]. rewrite Hf. f_equal. lia.
  - split; try done.
    + intros [] u Hu; cbn; try done. rewrite Hh. cbn. congruence.
    + intros [] u Hu; cbn; try done. rewrite Hh. done.
    + intros _ _. by right.
    + lia.
    + intros _ Ho. destruct Ho. destruct (head_spec g qi_g) as (_ & -> & _). unfold hpend. by rewrite Hh.
  - intros Ho r Hr'. change (covers (SetHeadBlock b (b + 1) ni) r). apply Ho. destruct r; try done. cbn in *. by rewrite Hh.
Qed.

Lemma set_head_index_ok q g t sp s b ni :
  QInv q g → has_taken g (CMoving t) b 30 s → ghp g = HStored t b → next_ok g b ni → StepOK q g t sp (SetHeadIndex b ni) s.
Proof.
  intros Hq Ht Hh (m & Hni & Hm). pose proof Hq as []. destruct (gi_hp _ qi_g t b (or_intror Hh)) as (Hb & HH & Hc).
  set (g' := set_cons (set_hp g HNone m) (31 * b + 30) (CTaken t)).
  assert (GInv g') as HG' by (by apply g_moved).
  assert (head_raw g' = ni) as Hr.
  { unfold head_raw, hpend, g'. cbn [set_cons set_hp gH ghp ghm Z.b2z]. rewrite HH. unfold RingPos.enc. lia. }
  eapply (unb_step_tau _ _ _ _ _ _ _ _ g'); [code; done| |..]; try done.
  - eapply (q_regs q g); try done; cbn [set_head_index heap head_index head_block tail_index tail_block]; try done.
    + rewrite qi_hb. unfold head_blk, head_lap, g'. cbn. by rewrite Hh.
    + intros c _. apply hcell_taken; try done. intros k. destruct (decide (31 * b + 30 = k)) as [<-|].
      * right. rewrite Hc. unfold g'. cbn. rewrite fn_get, decide_True by done. cbn. tauto.
      * left. unfold g'. cbn. by rewrite fn_get, decide_False.
  - cbn [TI]. destruct Ht as (_ & _ & _ & Hx). split_and!; [lia..| |done]. unfold g'. cbn. by rewrite fn_get, decide_True.
  - split; try done; unfold g'.
    + intros [] u Hu; cbn; try done; [rewrite fn_get; destruct (decide (31 * b + 30 = k)) as [<-|]; [|done]|];
        rewrite ?Hc, ?Hh; cbn; congruence.
    + intros [] u Hu; cbn; try done. rewrite fn_get. destruct (decide (31 * b + 30 = k)) as [<-|]; [|done]. cbn. congruence.
    + intros _ _. by right.
    + fold g'. destruct (head_spec g qi_g) as (_ & _ & _ & _ & Hd & Hp). unfold hpend in Hd. rewrite Hh, HH in Hd.
      unfold RingPos.enc in Hd. cbn [Z.b2z] in Hd. assert (0 ≤ Z.b2z m) by (by destruct m). lia.
    + intros _ _. right. unfold head_blk, head_lap. cbn. by rewrite Hh.
  - intros Ho r Hr'. assert (covers (SetHeadIndex b ni) r) as Hcov.
    { apply Ho. destruct r; try done. unfold g' in Hr'. cbn in *. rewrite fn_get in Hr'.
      destruct (decide (31 * b + 30 = k)) as [<-|]; [by rewrite Hc|done]. }
    destruct r; try done; cbn in *; lia.
Qed.

(** *** Reading the slot, and destroying the block *)

Lemma wait_write_ok q g t sp s b off : QInv q g → has_taken g (CTaken t) b off s → StepOK q g t sp (WaitWrite b off) s.
Proof.
  intros Hq Ht. pose proof (taken_pos _ _ _ _ _ (qi_g _ _ Hq) Ht ltac:(done)) as Hk.
  pose proof Ht as (_ & Ho & Hc & _). destruct (slot_mine q g b off Hq) as (Hin & Hfr & Hs); [lia|done|by rewrite Hc|].
  eapply unb_step_local; [done|code; rewrite Hs; cbn [mbind outcome_mbind]; done|..].
  - unfold cell. cbn [state]. rewrite (proj1 (word3_has _ _ _)). destruct (gprod g (31 * b + off)) eqn:Hp; cbn [is_flagged TI]; done.
  - by destruct (has 1 _).
Qed.

(** Moves of a consumer: what they leave to the others. *)
Lemma unb_step_cell q g t sp p s b i c d x p' :
  QInv q g → GInv (set_cell g b i c d x) → 0 ≤ i < 31 → 0 ≤ b < nblk g → gbat g b ≠ BFreed → x ≠ BFreed →
  (∀ q', set_slot q b i (cell (set_cell g b i c d x) (31 * b + i)) = Ret q' → code_step q t sp p = Ret (q', p', Tau)) →
  (c = gcons g (31 * b + i) ∨ cown (gcons g (31 * b + i)) = Some t ∧ (cown c = None ∨ cown c = Some t)) →
  (x = gbat g b ∨ (bown (gbat g b) = None ∨ bown (gbat g b) = Some t) ∧ (bown x = None ∨ bown x = Some t)) →
  TI (set_cell g b i c d x) t p' s →
  (∀ r, covers p r → r ≠ RCons (31 * b + i) → r ≠ RBat b → covers p' r) →
  (cown c = Some t → covers p (RCons (31 * b + i)) → covers p' (RCons (31 * b + i))) →
  (bown x = Some t → x ≠ gbat g b ∨ covers p (RBat b) → covers p' (RBat b)) →
  StepOK q g t sp p s.
Proof.
  intros Hq HG Hi Hb Hf Hx Hcode Hc Hbat Ht H1 H2 H3.
  destruct (q_cell q g b i c d x Hq HG Hb Hi Hf Hx) as (q' & Hs & HQ).
  eapply (unb_step_tau _ _ _ _ _ _ _ _ (set_cell g b i c d x)); [by apply Hcode|done|done|done|done|done|by apply frame_cell|].
  intros Ho r Hr. destruct (decide (r = RCons (31 * b + i))) as [->|Hn1].
  { cbn in Hr. rewrite fn_get, decide_True in Hr by done. apply H2; [done|]. apply Ho. cbn.
    destruct Hc as [<-|[? _]]; done. }
  destruct (decide (r = RBat b)) as [->|Hn2].
  { cbn in Hr. rewrite fn_get, decide_True in Hr by done. apply H3; [done|].
    destruct (decide (x = gbat g b)) as [->|]; [right; by apply Ho|by left]. }
  apply H1; [|done..]. apply Ho. destruct r; try done; cbn in *; rewrite fn_get in Hr; case_decide; congruence.
Qed.

Lemma destroy_ok g t s b i x : 0 ≤ b → 0 ≤ i ≤ 30 → gbat g b = BWalk i t → popped s x → TI g t (destroy b i x) s.
Proof.
  intros Hb Hi Hw Hp. unfold destroy. case_bool_decide; cbn [TI]; [split_and!; (done || lia)|].
  replace i with 30 in Hw by lia. done.
Qed.
Lemma destroy_covers b i x : covers (destroy b i x) (RBat b).
Proof. unfold destroy. by case_bool_decide. Qed.

Lemma read_value_ok q g t sp s b off :
  QInv q g → has_taken g (CTaken t) b off s → gprod g (31 * b + off) = PFlagged → StepOK q g t sp (ReadValue b off) s.
Proof.
  intros Hq Ht Hp. pose proof (qi_g _ _ Hq) as HG. pose proof (taken_pos _ _ _ _ _ HG Ht ltac:(done)) as Hk.
  pose proof Ht as (Hb & Ho & Hc & x & Hx & Hpop).
  destruct (slot_mine q g b off Hq) as (Hin & Hfr & Hs); [lia|done|by rewrite Hc|].
  assert (value (cell g (31 * b + off)) = Some x) as Hv by (unfold cell; cbn; by rewrite Hc, Hp).
  destruct (decide (off = 30)) as [->|Hne].
  - assert (gbat g b = BNone) as Hbn by (apply (gi_bat _ HG); by rewrite Hc).
    set (g' := set_cell g b 30 CDone (gd g (31 * b + 30)) (BWalk 0 t)).
    eapply (unb_step_cell _ _ _ _ _ _ b 30 CDone (gd g (31 * b + 30)) (BWalk 0 t) (destroy b 0 x)); try done.
    + by eapply g_last.
    + intros q' Hq'. code. rewrite Hs. cbn [mbind outcome_mbind]. rewrite Hv. cbn [assume_init mbind outcome_mbind].
      match goal with |- context [set_slot q b _ ?sl] => assert (sl = cell g' (31 * b + 30)) as -> end; [|unfold g'; by rewrite Hq'].
      unfold g', cell. cbn. rewrite !fn_get, !decide_True by done. rewrite Hc. cbn.
      do 2 f_equal. rewrite bool_decide_eq_true_2 by lia. done.
    + right. rewrite Hc. cbn. auto.
    + right. rewrite Hbn. cbn. auto.
    + apply destroy_ok; try done. cbn. by rewrite fn_get, decide_True.
    + intros [] H1 H2; try done. cbn in H1. congruence.
  - set (g' := set_cell g b off (CGot t) (gd g (31 * b + off)) (gbat g b)).
    eapply (unb_step_cell _ _ _ _ _ _ b off (CGot t) (gd g (31 * b + off)) (gbat g b) (MarkRead b off x)); try done.
    + eapply g_got; (done || lia).
    + intros q' Hq'. code. rewrite Hs. cbn [mbind outcome_mbind]. rewrite Hv. cbn [assume_init mbind outcome_mbind].
      rewrite bool_decide_eq_false_2 by lia.
      match goal with |- context [set_slot q b _ ?sl] => assert (sl = cell g' (31 * b + off)) as -> end; [|unfold g'; by rewrite Hq'].
      unfold g', cell. cbn. rewrite !fn_get, !decide_True by done. rewrite Hc. done.
    + right. rewrite Hc. cbn. auto.
    + by left.
    + cbn [TI]. split_and!; [|lia|done]. split_and!; [lia..| |by exists x]. cbn. by rewrite fn_get, decide_True.
    + intros _ [|Hcov]; done.
Qed.

Lemma cell_read g b i : 0 ≤ i < 30 → has 2 (state (cell g (31 * b + i))) = is_done (gcons g (31 * b + i)).
Proof.
  intros Hi. unfold cell. cbn [state]. rewrite (proj1 (proj2 (word3_has _ _ _))).
  rewrite bool_decide_eq_false_2 by lia. cbn. apply andb_true_r.
Qed.

Lemma mark_read_ok q g t sp s b off x :
  QInv q g → has_taken g (CGot t) b off s → off < 30 → popped s x → StepOK q g t sp (MarkRead b off x) s.
Proof.
  intros Hq Ht Hoff Hpop. pose proof (qi_g _ _ Hq) as HG. pose proof (taken_pos _ _ _ _ _ HG Ht ltac:(done)) as Hk.
  pose proof Ht as (Hb & Ho & Hc & _). destruct (slot_mine q g b off Hq) as (Hin & Hfr & Hs); [lia|done|by rewrite Hc|].
  assert (∀ y, mkSlot (value (cell g (31 * b + off))) (Z.lor (state (cell g (31 * b + off))) 2) =
    cell (set_cell g b off CDone (gd g (31 * b + off)) y) (31 * b + off)) as Hcell.
  { intros y. unfold cell. cbn. rewrite !fn_get, !decide_True by done. rewrite Hc. cbn.
    rewrite (proj1 (proj2 (word3_or _ _ _))), bool_decide_eq_false_2 by lia. done. }
  assert (has 4 (state (cell g (31 * b + off))) = gd g (31 * b + off)) as Hd4 by apply word3_has.
  destruct (gd g (31 * b + off)) eqn:Hd.
  - assert (gbat g b = BParked off) as Hbat by (apply (gi_gd _ HG); [lia|done|by rewrite Hc]).
    eapply (unb_step_cell _ _ _ _ _ _ b off CDone (gd g (31 * b + off)) (BWalk (off + 1) t) (destroy b (off + 1) x)); try done.
    + eapply g_resume; (done || lia).
    + intros q' Hq'. code. rewrite Hs. cbn [mbind outcome_mbind]. rewrite <- Hd in Hcell. rewrite (Hcell (BWalk (off + 1) t)), Hq'.
      cbn [mbind outcome_mbind]. by rewrite Hd4.
    + right. rewrite Hc. cbn. auto.
    + right. rewrite Hbat. cbn. auto.
    + apply destroy_ok; try done; [lia|]. cbn. by rewrite fn_get, decide_True.
    + intros [] H1 H2; try done. cbn in H1. congruence.
    + intros _ _. apply destroy_covers.
  - eapply (unb_step_cell _ _ _ _ _ _ b off CDone (gd g (31 * b + off)) (gbat g b) (Returning (RPop (inl x)))); try done.
    + eapply g_read; (done || lia).
    + intros q' Hq'. code. rewrite Hs. cbn [mbind outcome_mbind]. rewrite <- Hd in Hcell. rewrite (Hcell (gbat g b)), Hq'.
      cbn [mbind outcome_mbind]. by rewrite Hd4.
    + right. rewrite Hc. cbn. auto.
    + by left.
    + by left.
    + intros [] H1 H2; try done. cbn in H1. congruence.
    + by intros _ [?|?].
Qed.

(** A block under destruction. *)
Lemma walk_live q g b i t :
  QInv q g → 0 ≤ b → gbat g b = BWalk i t → 0 ≤ b < nblk g ∧ gbat g b ≠ BFreed ∧ 31 * b + 30 < gH g.
Proof.
  intros Hq Hb Hw. pose proof (qi_g _ _ Hq) as HG. pose proof (gi_le _ HG).
  pose proof (begun_last g b HG ltac:(by rewrite Hw)) as Hd.
  assert (31 * b + 30 < gH g) as Hlt.
  { destruct (decide (0 ≤ 31 * b + 30 < gH g)) as [|Hn]; [lia|]. apply (gi_cons _ HG) in Hn. congruence. }
  pose proof (in_heap g b 30 HG ltac:(lia) ltac:(lia)). split_and!; try lia. by rewrite Hw.
Qed.

Lemma destroy_load_ok q g t sp s b i x :
  QInv q g → 0 ≤ b → 0 ≤ i < 30 → gbat g b = BWalk i t → popped s x → StepOK q g t sp (DestroyLoad b i x) s.
Proof.
  intros Hq Hb Hi Hw Hp. pose proof Hq as []. destruct (walk_live q g b i t Hq Hb Hw) as (Hin & Hfr & HH).
  pose proof (unb_slot_ok q g b i Hq Hin Hfr ltac:(lia)) as Hs. pose proof (cell_read g b i Hi) as Hrd.
  destruct (is_done (gcons g (31 * b + i))) eqn:Hdone; cycle 1.
  { eapply unb_step_local; [done|code; rewrite Hs; cbn [mbind outcome_mbind]; by rewrite Hrd|done|done]. }
  assert (gcons g (31 * b + i) = CDone) as Hc by (by destruct (gcons g (31 * b + i))).
  assert (GInv (set_cell g b i CDone (gd g (31 * b + i)) (BWalk (i + 1) t))) as HG' by (by apply g_pass).
  eapply (unb_step_tau _ _ _ _ _ _ _ _ (set_cell g b i CDone (gd g (31 * b + i)) (BWalk (i + 1) t)));
    [code; rewrite Hs; cbn [mbind outcome_mbind]; by rewrite Hrd| |..]; try done.
  - eapply (q_regs q g); try done. intros c _. apply hcell_ext; cbn; [|done|].
    + rewrite fn_get. case_decide; [subst; by rewrite Hw|done].
    + intros k Hk. apply cell_ext; cbn; try done; rewrite fn_get; case_decide as He; (by rewrite <- ?He, ?Hc || done).
  - apply destroy_ok; try done; [lia|]. cbn. by rewrite fn_get, decide_True.
  - apply frame_cell; [left; by rewrite Hc|]. right. rewrite Hw. cbn. auto.
  - intros Ho r Hr. destruct (decide (r = RBat b)) as [->|Hne]; [apply destroy_covers|].
    assert (holder g r = Some t) as Hr'.
    { destruct r; try done; cbn in *; rewrite fn_get in Hr; case_decide; (done || congruence). }
    specialize (Ho r Hr'). destruct r; try done. cbn in Ho. congruence.
Qed.

Lemma destroy_or_ok q g t sp s b i x :
  QInv q g → 0 ≤ b → 0 ≤ i < 30 → gbat g b = BWalk i t → popped s x → StepOK q g t sp (DestroyOr b i x) s.
Proof.
  intros Hq Hb Hi Hw Hp. pose proof (qi_g _ _ Hq) as HG. destruct (walk_live q g b i t Hq Hb Hw) as (Hin & Hfr & HH).
  pose proof (unb_slot_ok q g b i Hq Hin Hfr ltac:(lia)) as Hs. pose proof (cell_read g b i Hi) as Hrd.
  assert (∀ y, mkSlot (value (cell g (31 * b + i))) (Z.lor (state (cell g (31 * b + i))) 4) =
    cell (set_cell g b i (gcons g (31 * b + i)) true y) (31 * b + i)) as Hcell.
  { intros y. unfold cell. cbn. rewrite !fn_get, !decide_True by done. by rewrite (proj2 (proj2 (word3_or _ _ _))). }
  assert (gcons g (31 * b + i) ≠ CFree) as Hf by (intros Hf; apply (gi_cons _ HG) in Hf; lia).
  destruct (is_done (gcons g (31 * b + i))) eqn:Hdone.
  - assert (gcons g (31 * b + i) = CDone) as Hc by (by destruct (gcons g (31 * b + i))). rewrite Hc in Hcell.
    eapply (unb_step_cell _ _ _ _ _ _ b i CDone true (BWalk (i + 1) t) (destroy b (i + 1) x)); try done; [by apply g_pass|lia|..].
    + intros q' Hq'. code. rewrite Hs. cbn [mbind outcome_mbind]. rewrite (Hcell (BWalk (i + 1) t)), Hq'.
      cbn [mbind outcome_mbind]. by rewrite Hrd.
    + left. by rewrite Hc.
    + right. rewrite Hw. cbn. auto.
    + apply destroy_ok; try done; [lia|]. cbn. by rewrite fn_get, decide_True.
    + intros [] H1 H2 H3; try done. cbn in H1. congruence.
    + intros _ _. apply destroy_covers.
  - assert (gcons g (31 * b + i) ≠ CDone) as Hc by (intros Hc; by rewrite Hc in Hdone).
    eapply (unb_step_cell _ _ _ _ _ _ b i (gcons g (31 * b + i)) true (BParked i) (Returning (RPop (inl x)))); try done; [by eapply g_park|lia|..].
    + intros q' Hq'. code. rewrite Hs. cbn [mbind outcome_mbind]. rewrite (Hcell (BParked i)), Hq'.
      cbn [mbind outcome_mbind]. by rewrite Hrd.
    + by left.
    + right. rewrite Hw. cbn. auto.
    + by left.
    + intros [] H1 H2 H3; try done. cbn in H1. congruence.
Qed.

Lemma destroy_free_ok q g t sp s b x :
  QInv q g → 0 ≤ b → gbat g b = BWalk 30 t → popped s x → StepOK q g t sp (DestroyFree b x) s.
Proof.
  intros Hq Hb Hw Hp. pose proof Hq as []. destruct (walk_live q g b 30 t Hq Hb Hw) as (Hin & Hfr & HH).
  assert (gcons g (31 * b + 30) = CDone) as Hc by (apply begun_last; [done|by rewrite Hw]).
  set (g' := set_cell g b 30 CDone (gd g (31 * b + 30)) BFreed). assert (GInv g') as HG' by (by eapply g_free).
  eapply (unb_step_tau _ _ _ _ _ _ _ _ g'); try done.
  - code. unfold free. rewrite (deref_ok q g) by done. cbn [mbind outcome_mbind]. done.
  - split; cbn; try done; [by rewrite length_insert|]. intros c Hc'. destruct (decide (c = b)) as [->|Hne].
    + rewrite list_lookup_insert_eq by lia. unfold hcell, g'. cbn. by rewrite fn_get, decide_True.
    + rewrite list_lookup_insert_ne by lia. rewrite qi_heap by done. f_equal. symmetry. apply hcell_ext; cbn; [|done|].
      * rewrite fn_get, decide_False by done. done.
      * intros k Hk. apply cell_ext; cbn; try done; rewrite fn_get, decide_False by lia; done.
  - by left.
  - apply frame_cell; [left; by rewrite Hc|]. right. rewrite Hw. cbn. auto.
  - intros Ho r Hr. destruct (decide (r = RBat b)) as [->|Hne]; [unfold g' in Hr; cbn in Hr; by rewrite fn_get, decide_True in Hr|].
    assert (holder g r = Some t) as Hr'.
    { unfold g' in Hr. destruct r; try done; cbn in *; rewrite fn_get in Hr; case_decide; (done || congruence). }
    specialize (Ho r Hr'). destruct r; try done. cbn in Ho. congruence.
Qed.

(** *** Queries and closing *)

Lemma len2_ok q g t sp s tl :
  QInv q g → sees (gview g) s → called s OpLen 0 → tl ≤ tail_raw g → StepOK q g t sp (Len2 tl) s.
Proof.
  intros Hq HS Hc Ht. pose proof (qi_g _ _ Hq) as HG. eapply unb_step_local; [done|code; done| |done]. cbn [TI].
  split_and!; [done|done|]. intros ->. eapply fifo_seen_now; [done..|]. rewrite (qi_hi _ _ Hq), items_length by done.
  apply len_ok; [done|apply Hq].
Qed.

Lemma len3_ok q g t sp s tl hd :
  QInv q g → called s OpLen 0 → tl ≤ tail_raw g →
  (tl = tail_raw g → seen_some s (λ v, len_of tl hd = Ret (Z.of_nat (length (items v))))) → StepOK q g t sp (Len3 tl hd) s.
Proof.
  intros Hq Hc Ht Hs. destruct (decide (tail_index q = tl)) as [He|Hne].
  - rewrite (qi_ti _ _ Hq) in He. specialize (Hs (eq_sym He)). pose proof Hs as (_ & _ & _ & v0 & _ & _ & Hn).
    eapply unb_step_local; [done|code; rewrite (qi_ti _ _ Hq), bool_decide_eq_true_2 by done; rewrite Hn; done| |done].
    right. eapply fifo_answer_seen; [done|exact Hs|]. intros v Hv. cbn in *. congruence.
  - eapply unb_step_local; [done|code; rewrite bool_decide_eq_false_2 by done; done|done|done].
Qed.

Lemma empty1_ok q g t sp s : QInv q g → called s OpIsEmpty 0 → StepOK q g t sp Empty1 s.
Proof.
  intros Hq Hc. pose proof (qi_g _ _ Hq) as HG. eapply unb_step_local; [done|code; done| |done]. cbn [TI]. split; [done|].
  rewrite (qi_hi _ _ Hq). exists (gH g), (hpend g), (ghm g). pose proof (gi_le _ HG). pose proof (hpend_full g HG) as Hp.
  split_and!; [done|lia|lia|intros Hx; specialize (Hp Hx); lia|lia|lia].
Qed.

Lemma empty2_ok q g t sp s hd :
  QInv q g → sees (gview g) s → called s OpIsEmpty 0 →
  (∃ k p m, hd = 2 * (enc k - Z.b2z p) + Z.b2z m ∧ 0 ≤ k ≤ gH g ∧ (p = true → 0 < k ∧ k mod 31 = 0) ∧
    (k < gH g → seen_some s (λ v, items v ≠ [])) ∧ hd ≤ head_raw g) → StepOK q g t sp (Empty2 hd) s.
Proof.
  intros Hq HS Hc (k & p & m & -> & Hk & Hp & Hs & Hle). pose proof (qi_g _ _ Hq) as HG.
  destruct (index_spec k p m ltac:(lia) ltac:(intros Hx; specialize (Hp Hx); lia)) as (_ & _ & _ & _ & Hh & _).
  destruct (tail_spec g HG) as (_ & _ & _ & _ & Htl & _). destruct (head_spec g HG) as (_ & _ & _ & _ & Hhd & _).
  pose proof (index_le g HG) as Hix. set (hd := 2 * (enc k - Z.b2z p) + Z.b2z m) in *.
  eapply unb_step_local; [done|code; done| |done]. rewrite (qi_ti _ _ Hq), !half. right. case_bool_decide as He.
  - eapply fifo_answer_now; [done..|]. apply items_nil; [done|]. apply index_eq; [done|]. lia.
  - destruct (decide (gH g = gT g)) as [Hn|Hn].
    + destruct (decide (k < gH g)) as [Hlt|].
      { eapply fifo_answer_seen; [done|by apply Hs|]. intros v Hv. by left. }
      eapply fifo_answer_now; [done..|]. right. cbn. assert (k = gH g) as -> by lia. destruct p; [apply Hp; done|].
      rewrite Hn in *. pose proof (tpend_full g HG) as Hf. destruct (tpend g); [specialize (Hf eq_refl); lia|]. cbn in *. lia.
    + eapply fifo_answer_now; [done..|]. left. intros H0. apply items_nil in H0; done.
Qed.

Lemma unb_close_ok q g t sp s : QInv q g → called s OpClose 0 → StepOK q g t sp CloseTail s.
Proof.
  intros Hq Hc. pose proof (qi_g _ _ Hq) as HG. destruct (tail_spec g HG) as (Ht0 & _ & _ & Hm & Hh & Hp).
  eexists _, _, _. split; [code; done|]. intros _. exists (set_closed g), (ADecided (RBool (negb (gclosed g)))).
  assert (tail_raw (set_closed g) = tail_raw g - tail_raw g mod 2 + 1) as Hr.
  { rewrite Hp. unfold tail_raw. change (tpend (set_closed g)) with (tpend g). change (gT (set_closed g)) with (gT g). cbn [set_closed gclosed Z.b2z]. lia. }
  split_and!.
  - eapply (q_regs q g); try done; cbn [set_tail_index heap head_index head_block tail_index tail_block]; try apply Hq.
    + by apply g_closed.
    + rewrite (qi_ti _ _ Hq), mark_or by done. done.
  - left. by rewrite (qi_ti _ _ Hq), Hm.
  - destruct Hc as [seen ->]. cbn. split_and!; try done. by exists 0%nat, seen.
  - split; try done; [by intros []|lia|..]; intros _ _; by right.
  - intros Ho r Hr'. by destruct (Ho r Hr').
Qed.

Lemma unb_code_ok q g t sp p s : QInv q g → TI g t p s → sees (gview g) s → StepOK q g t sp p s.
Proof.
  intros Hq Ht HS. destruct p; cbn [TI] in Ht.
  - by eapply unb_step_local.
  - by eapply unb_step_local.
  - by apply push_index_ok.
  - destruct Ht. by apply push_block_ok.
  - destruct Ht as (? & ? & ?). by apply first_cas_ok.
  - destruct Ht as (? & ? & ? & ? & ? & ?). by apply first_head_ok.
  - destruct Ht as (? & ? & ?). by apply unb_push_cas_ok.
  - destruct Ht as (? & ? & ? & ? & ? & ?). by apply set_tail_ok.
  - destruct Ht as (? & ? & ? & ? & ? & ?). by apply bump_ok.
  - destruct Ht as (? & ? & ? & ? & ? & ? & ?). by apply link_ok.
  - destruct Ht as (? & ? & ? & ? & ?). by apply unb_write_ok.
  - destruct Ht as (? & ? & ? & ? & ? & ?). by apply flag_ok.
  - by apply pop_index_ok.
  - destruct Ht. by apply pop_block_ok.
  - destruct Ht as (? & ? & ? & ? & ?). by apply pop_tail_ok.
  - destruct Ht as (? & ? & ? & ? & ? & ?). by apply unb_pop_cas_ok.
  - destruct Ht as (? & ? & ?). by apply wait_next_ok.
  - destruct Ht as (? & ? & ? & ? & ?). by apply next_next_ok.
  - destruct Ht as (? & ? & ? & ? & ?). by apply set_head_block_ok.
  - destruct Ht as (? & ? & ?). by apply set_head_index_ok.
  - by apply wait_write_ok.
  - destruct Ht as (? & ?). by apply read_value_ok.
  - destruct Ht as (? & ? & ?). by apply mark_read_ok.
  - destruct Ht as (? & ? & ? & ?). by apply destroy_load_ok.
  - destruct Ht as (? & ? & ? & ?). by apply destroy_or_ok.
  - destruct Ht as (? & ? & ?). by apply destroy_free_ok.
  - eapply unb_step_local; [done|code; done| |done]. split; [done|]. rewrite (qi_ti _ _ Hq). lia.
  - destruct Ht as (? & ?). by apply len2_ok.
  - destruct Ht as (? & ? & ?). by apply len3_ok.
  - by apply empty1_ok.
  - destruct Ht as (? & ?). by apply empty2_ok.
  - by apply unb_close_ok.
  - eapply unb_step_local; [done|code; done| |done]. right. eapply fifo_answer_now; [done..|].
    rewrite (qi_ti _ _ Hq). destruct (tail_spec g (qi_g _ _ Hq)) as (_ & _ & _ & -> & _). done.
Qed.
End inv.
