(* ===== verification/UnboundedSpec.v ===== *)
(** * UnboundedSpec: the injector queue is an atomic FIFO

    The proof that every interleaving of the code of [Unbounded] refines the
    specification of [UnboundedFifo], from the steps of [UnboundedSteps], and
    that its destructor drops what is left and frees every block. *)

From stdpp Require Import functions.
From S2P Require Import Prelude RingPos UnboundedFifo Unbounded UnboundedGhost UnboundedSteps.
Local Open Scope Z_scope.

Section inv.
Context {A : Type}.
Implicit Types (g : Ghost A) (q : Queue A) (s : astatus A) (t u : nat) (b k i : Z).

(** ** The simulation *)

Definition seen_by (e : event A) g' s : astatus A :=
  match e with Enq _ _ | Deq _ | Shut _ => see (gview g') s | _ => s end.

Lemma unb_moved_step a t g e g' s' :
  GInv g → view a = gview g → Moved t g (status a t) e g' s' →
  astep 31 a e (mkFifo (gview g') (<[t := s']> (λ u, seen_by e g' (status a u)))).
Proof.
  intros HG Hv He. pose proof (gi_le _ HG) as Hle. destruct e as [|u o|u xs|u|u|u r]; cbn in He; try done.
  - destruct He as (H1 & H2 & H3 & ->). apply a_tau; cbn.
    + rewrite Hv. unfold gview. by rewrite H1, H2, H3.
    + intros u. unfold insert, fn_insert. by case_decide; subst.
  - destruct He as (-> & H1 & H2 & H3 & H4 & o & n & seen & s1 & Hs & Ho & ->).
    eapply (a_enq _ _ _ o n seen _ s1); cbn; try done.
    + by rewrite Hv.
    + rewrite Hv. unfold gview. rewrite H1, H2, H4. cbn. by rewrite drop_app_le by (unfold gT in *; lia).
    + intros u. unfold insert, fn_insert. by case_decide.
  - destruct He as (-> & H1 & H2 & H3 & n & seen & x & Hs & Hx & ->).
    eapply (a_deq _ _ _ n seen x); cbn; try done; rewrite ?Hv; try done.
    + cbn. rewrite H1, H2, Z2Nat.inj_add, Nat.add_1_r by lia. by apply drop_S.
    + intros u. unfold insert, fn_insert. by case_decide.
  - destruct He as (-> & H1 & H2 & H3 & n & seen & Hs & ->).
    eapply (a_shut _ _ _ n seen); cbn; try done; rewrite ?Hv.
    + unfold gview. by rewrite H1, H2, H3.
    + intros u. unfold insert, fn_insert. by case_decide.
Qed.

Lemma unb_moved_env t u g s e g' s' su :
  GInv g → u ≠ t → Moved t g s e g' s' → Frame t g g' → sees (gview g) su → env u g su g' (seen_by e g' su).
Proof.
  intros HG Hne He HF HS. pose proof (gi_le _ HG).
  assert (gH g ≤ gH g' ∧ glog g `prefix_of` glog g' ∧ (gclosed g = true → gclosed g' = true)) as (H1 & H2 & H3).
  { destruct e; cbn in He; try done.
    - destruct He as (-> & -> & -> & _). split_and!; (done || lia).
    - destruct He as (_ & -> & -> & Hc & -> & _). split_and!; [lia|by apply prefix_app_r|congruence].
    - destruct He as (_ & -> & -> & -> & _). split_and!; (done || lia).
    - destruct He as (_ & -> & -> & -> & _). split_and!; (done || lia). }
  split; try done.
  - by exists t.
  - destruct e; cbn; try apply fifo_grows_refl; apply fifo_grows_see.
  - intros o n Hlt Hc. destruct e; cbn in He; try done; try (destruct He as (? & ? & _); lia).
    eapply fifo_grows_seen; [apply fifo_grows_see|]. eapply fifo_seen_now; [done..|].
    destruct He as (_ & _ & _ & _ & ? & ? & x & _ & Hx & _). intros H0. apply items_nil in H0; [|done].
    apply lookup_lt_Some in Hx. unfold gT in *. lia.
Qed.

Lemma unb_moved_sees t g s e g' s' u su :
  Moved t g s e g' s' → sees (gview g) su → sees (gview g) s → sees (gview g') (if decide (u = t) then s' else seen_by e g' su).
Proof.
  intros He HS Hs. destruct e; cbn in He; try done.
  - destruct He as (H1 & H2 & H3 & ->). unfold gview. rewrite H1, H2, H3. by case_decide.
  - destruct He as (_ & _ & _ & _ & _ & ? & ? & ? & s1 & _ & _ & ->). case_decide; apply sees_see.
  - destruct He as (_ & _ & _ & _ & ? & ? & ? & _ & _ & ->). case_decide; [done|apply sees_see].
  - destruct He as (_ & _ & _ & _ & ? & ? & _ & ->). case_decide; [done|apply sees_see].
Qed.

Record InvG (n : nat) (σ : State A) (a : Fifo A) g : Prop := {
  inv_queue : QInv (queue σ) g;
  inv_count : length (glog g) = n;
  inv_view : view a = gview g;
  inv_thread t : TI g t (thread σ t) (status a t);
  inv_sees t : sees (gview g) (status a t);
  inv_owned t : owned g t (thread σ t);
}.
Definition Inv (n : nat) (σ : State A) (a : Fifo A) : Prop := ∃ g, InvG n σ a g.

Lemma unb_inv_code n σ a t sp q' p' e :
  Inv n σ a → code_step (queue σ) t sp (thread σ t) = Ret (q', p', e) →
  Z.of_nat n + Z.of_nat (length (enqueued [e])) ≤ 2 ^ 60 →
  ∃ a', astep 31 a e a' ∧ Inv (n + length (enqueued [e])) (mkState q' (<[t := p']> (thread σ))) a'.
Proof.
  intros (g & [Hq Hn Hv Ht HS Ho]) Hc Hf.
  destruct (unb_code_ok (queue σ) g t sp (thread σ t) (status a t)) as (q1 & p1 & e1 & Hc' & Hk); [done..|].
  rewrite Hc in Hc'. injection Hc' as <- <- <-. destruct Hk as (g' & s' & Hq' & HT & Hm & HF & Howned).
  { unfold gT. by rewrite Hn. }
  pose proof (qi_g _ _ Hq) as HG. eexists. split; [by eapply unb_moved_step|]. exists g'. split; cbn.
  - done.
  - rewrite <- Hn. destruct e; cbn in Hm; try done; cbn; rewrite ?app_nil_r.
    + destruct Hm as (_ & -> & _). lia.
    + destruct Hm as (_ & _ & -> & _). by rewrite length_app.
    + destruct Hm as (_ & _ & -> & _). lia.
    + destruct Hm as (_ & _ & -> & _). lia.
  - done.
  - intros u. destruct (decide (u = t)) as [->|Hne]; [by rewrite !fn_lookup_insert|]. rewrite !fn_lookup_insert_ne by done.
    eapply unb_TI_env; [|apply Ht]. by eapply unb_moved_env.
  - intros u. pose proof (unb_moved_sees t g (status a t) e g' s' u (status a u) Hm (HS u) (HS t)) as Hs.
    destruct (decide (u = t)) as [->|]; [by rewrite fn_lookup_insert|by rewrite fn_lookup_insert_ne].
  - intros u. destruct (decide (u = t)) as [->|Hne]; [rewrite fn_lookup_insert; by apply Howned|].
    rewrite fn_lookup_insert_ne by done. intros r Hr. apply Ho. by eapply f_own.
Qed.

Lemma unb_entry_ok wide g t o v : TI g t (entry wide o) (ACalled o 0 [v]).
Proof.
  destruct o; cbn; try (by eexists).
  - case_bool_decide as H0.
    { right. eexists _, _, _, v. split; [done|]. split; [set_solver|]. cbn. subst. split; [done|by left]. }
    destruct wide.
    + unfold wide_next. destruct len as [|len], values as [|x values]; try done; cbn.
      * right. eexists _, _, _, v. split; [done|]. split; [set_solver|]. cbn. split; [done|by left].
      * exists (S len), (x :: values). split_and!; [by eexists|done|lia].
    + cbn. exists values. split_and!; [by eexists| |lia|lia]. by rewrite !Nat.sub_0_r.
  - right. eexists _, _, _, v. split; [done|]. split; [set_solver|done].
Qed.
Lemma entry_covers wide (o : op A) r : ¬ covers (entry wide o) r.
Proof.
  destruct o; cbn; try tauto. case_bool_decide; [tauto|]. destruct wide; cbn; [|tauto].
  unfold wide_next. destruct len, values; cbn; tauto.
Qed.

Lemma unb_inv_step wide n σ a e σ' :
  Inv n σ a → step wide σ e σ' → Z.of_nat n + Z.of_nat (length (enqueued [e])) ≤ 2 ^ 60 →
  ∃ a', astep 31 a e a' ∧ Inv (n + length (enqueued [e])) σ' a'.
Proof.
  intros HI Hst Hf. destruct Hst as [σ t o Hidle|σ t sp q' p' e Hc|σ t r Hret]; [|by eapply unb_inv_code|].
  - destruct HI as (g & [Hq Hn Hv Ht HS Ho]). rewrite Nat.add_0_r.
    exists (mkFifo (view a) (<[t := ACalled o 0 [view a]]> (status a))). pose proof (Ht t) as Hti. rewrite Hidle in Hti.
    split; [by apply a_call|]. exists g. split; cbn; try done.
    + intros u. destruct (decide (u = t)) as [->|Hne]; [|by rewrite !fn_lookup_insert_ne].
      rewrite !fn_lookup_insert. apply unb_entry_ok.
    + intros u. destruct (decide (u = t)) as [->|Hne]; [|by rewrite fn_lookup_insert_ne].
      rewrite fn_lookup_insert, Hv. cbn. set_solver.
    + intros u r Hr. specialize (Ho u r Hr). destruct (decide (u = t)) as [->|]; [by rewrite Hidle in Ho|].
      by rewrite fn_lookup_insert_ne.
  - destruct HI as (g & [Hq Hn Hv Ht HS Ho]). rewrite Nat.add_0_r.
    exists (mkFifo (view a) (<[t := AIdle]> (status a))). pose proof (Ht t) as Hti. rewrite Hret in Hti.
    split; [by apply a_return|]. exists g. split; cbn; try done.
    + intros u. destruct (decide (u = t)) as [->|Hne]; [by rewrite !fn_lookup_insert|by rewrite !fn_lookup_insert_ne].
    + intros u. destruct (decide (u = t)) as [->|Hne]; [by rewrite fn_lookup_insert|by rewrite fn_lookup_insert_ne].
    + intros u r' Hr. specialize (Ho u r' Hr). destruct (decide (u = t)) as [->|]; [by rewrite Hret in Ho|].
      by rewrite fn_lookup_insert_ne.
Qed.

Lemma unb_inv_steps wide n σ a es σ' :
  Inv n σ a → steps wide σ es σ' → Z.of_nat n + Z.of_nat (length (enqueued es)) ≤ 2 ^ 60 →
  ∃ a', asteps 31 a es a' ∧ Inv (n + length (enqueued es)) σ' a'.
Proof.
  intros HI Hs. induction Hs as [σ|σ es σ1 e σ2 _ IH Hst]; intros Hf.
  { rewrite Nat.add_0_r. exists a. split; [constructor|done]. }
  rewrite enqueued_snoc, length_app in *. destruct (IH HI) as (a1 & Ha1 & HI1); [lia|].
  destruct (unb_inv_step _ _ _ _ _ _ HI1 Hst) as (a2 & Ha2 & HI2); [lia|].
  exists a2. split; [by econstructor|]. by rewrite Nat.add_assoc.
Qed.

Definition ghost0 : Ghost A :=
  mkGhost 0 [] false (λ _, PNone) (λ _, CFree) (λ _, false) (λ _, LOpen) (λ _, BNone) FNone HNone false.

Lemma unb_init_inv : Inv 0 init empty_fifo.
Proof.
  exists ghost0. split; cbn; try done; [|by intros t []].
  assert (gT ghost0 = 0) as HT by done.
  split; cbn; try done; try lia. split; rewrite ?HT; cbn; try done; try lia; try (by intros ? ? [?|?]).
  - intros k. split; [lia|done].
  - intros k. split; [lia|done].
  - intros b. split; [lia|done].
Qed.

(** ** The destructor *)

(** A history nobody holds anything of. *)
Record Quiet g : Prop := {
  qu_hp : ghp g = HNone;
  qu_fst : gfst g = FDone ∨ gfst g = FNone;
  qu_prod k : 0 ≤ k < gT g → gprod g k = PFlagged;
  qu_lk b : 0 ≤ b → 31 * (b + 1) ≤ gT g → glk g b = LLinked;
  qu_bat b : 0 ≤ b → gbat g b = if decide (31 * (b + 1) ≤ gH g) then BFreed else BNone;
}.

Lemma quiet g : GInv g → (∀ r, holder g r = None) → Quiet g.
Proof.
  intros HG Hr. split.
  - specialize (Hr RHead). cbn in Hr. by destruct (ghp g).
  - specialize (Hr RFirst). cbn in Hr. destruct (gfst g); auto; done.
  - intros k Hk. specialize (Hr (RProd k)). cbn in Hr. destruct (gprod g k) eqn:Hp; try done. by apply (gi_prod _ HG) in Hp.
  - intros b Hb HT. specialize (Hr (RLink b)). cbn in Hr. destruct (glk g b) eqn:Hl; try done. apply (gi_lk _ HG) in Hl. lia.
  - intros b Hb. pose proof (Hr (RBat b)) as Hw. cbn in Hw.
    assert (∀ i, 0 ≤ i < 31 → 31 * b + i < gH g → gcons g (31 * b + i) = CDone) as Hd.
    { intros i Hi Hlt. specialize (Hr (RCons (31 * b + i))). cbn in Hr. destruct (gcons g (31 * b + i)) eqn:Hc; try done.
      apply (gi_cons _ HG) in Hc. lia. }
    case_decide.
    + pose proof (gi_walk _ HG b) as Hwk. unfold walk_ok in Hwk. destruct (gbat g b) as [|i t|i|] eqn:Hbat; try done.
      * apply (gi_bat _ HG) in Hbat. destruct Hbat. apply Hd; lia.
      * destruct Hwk as (? & _ & _ & Hn). destruct Hn. apply Hd; lia.
    + apply (gi_bat _ HG). assert (gcons g (31 * b + 30) = CFree) as -> by (apply (gi_cons _ HG); lia). done.
Qed.

(** The heap while the destructor is at block [b]. *)
Definition freed_below q g b : Prop :=
  Z.of_nat (length (heap q)) = nblk g ∧
  ∀ c, 0 ≤ c < nblk g → heap q !! Z.to_nat c = Some (if decide (c < b) then None else Some (blk g c)).

Lemma quiet_blocks g : GInv g → Quiet g → gfst g = FDone → tail_lap g = gT g / 31 ∧ nblk g = gT g / 31 + 1 ∧ tpend g = false.
Proof.
  intros HG Hu Hf. pose proof (gi_le _ HG). assert (glk g (gT g / 31 - 1) = LLinked ∨ glk g (gT g / 31 - 1) = LOpen) as Hl.
  { destruct (decide (0 ≤ gT g / 31 - 1)); [left; apply (qu_lk _ Hu); lia|right; apply (gi_lk _ HG); lia]. }
  unfold nblk, tail_lap, tpend. rewrite Hf. by destruct Hl as [-> | ->].
Qed.

Lemma free_ok q g b :
  freed_below q g b → 0 ≤ b < nblk g → ∃ q', free q b = Ret q' ∧ deref q b = Ret (blk g b) ∧ freed_below q' g (b + 1).
Proof.
  intros [Hlen Hh] Hb. unfold free, deref. rewrite Hh, decide_False by lia. cbn [mbind outcome_mbind]. eexists. split_and!; [done..|].
  split; cbn; [by rewrite length_insert|]. intros c Hc. destruct (decide (c = b)) as [->|].
  - rewrite list_lookup_insert_eq by lia. by rewrite decide_True by lia.
  - rewrite list_lookup_insert_ne by lia. rewrite Hh by done. f_equal. repeat case_decide; (done || lia).
Qed.

Lemma unb_drop_loop g :
  GInv g → Quiet g → gfst g = FDone → gT g ≤ 2 ^ 60 →
  ∀ n fuel q e, enc (gH g) ≤ e → e + Z.of_nat n = enc (gT g) → (n < fuel)%nat → freed_below q g (e / 32) →
  ∃ q', drop_loop fuel q (2 * e) (2 * enc (gT g)) (Some (e / 32)) =
      Ret (drop (Z.to_nat (31 * (e / 32) + e mod 32)) (glog g), Some (gT g / 31), q') ∧ freed_below q' g (gT g / 31).
Proof.
  intros HG Hu Hf Hmax. pose proof (gi_le _ HG) as Hle. destruct (quiet_blocks g HG Hu Hf) as (_ & Hnb & _).
  pose proof (raw_bound (gT g) false false ltac:(lia)) as Hbd. cbn [Z.b2z] in Hbd.
  induction n as [|n IH]; intros fuel q e He Hn Hfu Hq; (destruct fuel as [|fuel]; [lia|]); cbn [drop_loop].
  { assert (e = enc (gT g)) as -> by lia. rewrite bool_decide_eq_true_2 by done. exists q. unfold RingPos.enc in *.
    replace ((gT g / 31 * 32 + gT g mod 31) / 32) with (gT g / 31) in * by lia. split; [|done].
    rewrite drop_ge; [done|]. unfold gT in *. lia. }
  rewrite bool_decide_eq_false_2 by lia. rewrite offset_div. replace (2 * e / 2) with e by lia. assert (0 ≤ enc (gH g)) by (unfold RingPos.enc; lia).
  assert (wrapping_add 64 (2 * e) 2 = 2 * (e + 1)) as -> by (unfold wrapping_add; rewrite wrap_small; unfold is_word; lia).
  unfold RingPos.enc in He, Hn. case_bool_decide as Hoff.
  - assert (0 ≤ e / 32 < nblk g) as Hin by lia. destruct (free_ok q g (e / 32) Hq Hin) as (_ & _ & Hde & _).
    unfold slot_at. rewrite Hde. cbn [mbind outcome_mbind]. rewrite slots_lookup by lia. rewrite mbind_mret.
    destruct (lookup_lt_is_Some_2 (glog g) (Z.to_nat (31 * (e / 32) + e mod 32))) as [x Hx]; [unfold gT in *; lia|].
    assert (value (cell g (31 * (e / 32) + e mod 32)) = Some x) as ->.
    { unfold cell. cbn. assert (gcons g (31 * (e / 32) + e mod 32) = CFree) as -> by (apply (gi_cons _ HG); lia).
      rewrite (qu_prod _ Hu) by lia. done. }
    cbn [assume_init mbind outcome_mbind].
    destruct (IH fuel q (e + 1)) as (q' & Hd & Hq'); [unfold RingPos.enc; lia|unfold RingPos.enc; lia|lia| |].
    { replace ((e + 1) / 32) with (e / 32) by lia. done. }
    exists q'. split; [|done]. replace ((e + 1) / 32) with (e / 32) in Hd by lia. rewrite Hd. cbn [mbind outcome_mbind].
    rewrite (drop_S _ _ _ Hx). replace (Z.to_nat (31 * (e / 32) + (e + 1) mod 32)) with (S (Z.to_nat (31 * (e / 32) + e mod 32))) by lia. done.
  - assert (0 ≤ e / 32 < nblk g) as Hin by lia. destruct (free_ok q g (e / 32) Hq Hin) as (q1 & Hfr & Hde & Hq1).
    rewrite Hde. cbn [mbind outcome_mbind]. rewrite Hfr. cbn [mbind outcome_mbind blk next]. rewrite (qu_lk _ Hu) by lia.
    destruct (IH fuel q1 (e + 1)) as (q' & Hd & Hq'); [unfold RingPos.enc; lia|unfold RingPos.enc; lia|lia| |].
    { replace ((e + 1) / 32) with (e / 32 + 1) by lia. done. }
    replace (e / 32 + 1) with ((e + 1) / 32) by lia. exists q'. split; [|done]. rewrite Hd. do 4 f_equal. lia.
Qed.

Lemma unb_drop q g :
  QInv q g → (∀ r, holder g r = None) → ∃ q', drop_queue q = Ret (items (gview g), q') ∧ Forall (.= None) (heap q').
Proof.
  intros Hq Hr. pose proof Hq as []. pose proof (quiet g qi_g Hr) as Hu. pose proof (gi_le _ qi_g) as Hle.
  assert (hpend g = false) as Hhp by (unfold hpend; by rewrite (qu_hp _ Hu)).
  destruct (head_spec g qi_g) as (Hh0 & _ & _ & _ & Hh & _). destruct (tail_spec g qi_g) as (Ht0 & _ & _ & _ & Ht & _).
  pose proof (raw_bound (gH g) (hpend g) (ghm g) ltac:(lia)). pose proof (raw_bound (gT g) (tpend g) (gclosed g) ltac:(lia)).
  unfold drop_queue. rewrite qi_hi, qi_ti, qi_hb, !unmark by (unfold head_raw, tail_raw in *; lia).
  rewrite Hhp in Hh. cbn [Z.b2z] in Hh. replace (head_raw g - head_raw g mod 2) with (2 * enc (gH g)) by lia.
  destruct (qu_fst _ Hu) as [Hf|Hf].
  - destruct (quiet_blocks g qi_g Hu Hf) as (_ & Hnb & Htp). rewrite Htp in Ht. cbn [Z.b2z] in Ht.
    replace (tail_raw g - tail_raw g mod 2) with (2 * enc (gT g)) by lia.
    pose proof (enc_mono 31 32 ltac:(lia) ltac:(lia) (gH g) (gT g) ltac:(lia)) as Hmono.
    assert (head_blk g = Some (enc (gH g) / 32)) as ->.
    { unfold head_blk, head_lap. rewrite Hf, (qu_hp _ Hu). f_equal. unfold RingPos.enc. lia. }
    destruct (unb_drop_loop g qi_g Hu Hf qi_max (Z.to_nat (enc (gT g) - enc (gH g)))
      (S (Z.to_nat (wrapping_sub 64 (2 * enc (gT g)) (2 * enc (gH g))))) q (enc (gH g))) as (q1 & Hd & Hq1).
    { lia. }
    { lia. }
    { unfold wrapping_sub. rewrite wrap_small; [lia|]. unfold is_word. unfold tail_raw, head_raw in *. rewrite Htp in *. cbn [Z.b2z] in *. lia. }
    { split; [done|]. intros c Hc. rewrite qi_heap by done. f_equal. unfold hcell. rewrite (qu_bat _ Hu) by lia.
      replace (enc (gH g) / 32) with (gH g / 31) by (unfold RingPos.enc; lia). repeat case_decide; (done || lia). }
    rewrite Hd. cbn [mbind outcome_mbind]. destruct (free_ok q1 g (gT g / 31) Hq1) as (q2 & Hfr & _ & Hlen & Hq2); [lia|].
    rewrite Hfr. cbn [mbind outcome_mbind]. exists q2. split.
    + do 3 f_equal. unfold RingPos.enc. cbn. f_equal. lia.
    + apply Forall_lookup_2. intros c o Hc. pose proof (lookup_lt_Some _ _ _ Hc) as Hlt.
      specialize (Hq2 (Z.of_nat c) ltac:(lia)). rewrite Nat2Z.id, Hc, decide_True in Hq2 by lia. congruence.
  - pose proof (gi_first _ qi_g Hf) as HT. assert (gH g = 0) as HH by lia.
    assert (tpend g = false) as Htp by (destruct (tpend g) eqn:Hx; [apply tpend_full in Hx; [lia|done]|done]).
    rewrite Htp, HT in Ht. cbn [Z.b2z] in Ht. replace (tail_raw g - tail_raw g mod 2) with 0 by (unfold RingPos.enc in Ht; lia).
    rewrite HH. change (2 * enc 0) with 0. unfold head_blk. rewrite Hf. cbn. exists q. split.
    + do 2 f_equal. rewrite HH. cbn. unfold gT in HT. by destruct (glog g).
    + assert (heap q = []) as ->; [|done]. apply length_zero_iff_nil. unfold nblk in qi_len. rewrite Hf in qi_len. lia.
Qed.
End inv.

(** C8: the pool's injector queue is linearizable.  Every interleaving of
    pushes, batched pushes (of items narrow or too wide to stage, from
    iterators whose reported length may be wrong), pops, closes and queries on
    the unbounded queue, up to [2 ^ 60] items, is an execution of an atomic
    FIFO object with a closing flag: items leave in the order they entered,
    none is lost or duplicated, a batch enters as consecutive segments and is
    cut short only by closing, a push is refused only by a closed queue, a pop
    fails only on an empty one and says whether it is closed, [len] is exact at
    a moment of the call, and [is_empty] never misses an item.  No access is to
    a freed block, out of bounds or to a slot in the wrong state, nothing
    panics, and when no operation is running the destructor drops exactly the
    items left and leaves no block allocated. *)
Theorem unbounded_linearizable {A} (wide : bool) (es : list (event A)) (σ : State A)
    (Hrun : steps wide init es σ) (Hitems : Z.of_nat (length (enqueued es)) ≤ 2 ^ 60) :
  ∃ a, asteps 31 empty_fifo es a ∧
    (∀ t spurious, ∃ r, code_step (queue σ) t spurious (thread σ t) = Ret r) ∧
    ((∀ t, thread σ t = Idle) →
     ∃ q', drop_queue (queue σ) = Ret (items (view a), q') ∧ Forall (.= None) (heap q')).
Proof.
  destruct (unb_inv_steps wide 0 init empty_fifo es σ unb_init_inv Hrun) as (a & Ha & g & HI); [lia|].
  exists a. split_and!; [done|..].
  - intros t sp. destruct (unb_code_ok (queue σ) g t sp (thread σ t) (status a t)) as (q' & p' & e & Hc & _); [apply HI..|].
    by eexists.
  - intros Hidle. rewrite (inv_view _ _ _ _ HI). apply unb_drop; [apply HI|]. intros r.
    destruct (holder g r) as [t|] eqn:Hr; [|done]. pose proof (inv_owned _ _ _ _ HI t r Hr) as Hc. by rewrite Hidle in Hc.
Qed.

(** Two threads: thread 0 pushes 1, then the batch [2 .. 35] of an iterator
    that reports forty items, which fills a block; thread 1 pops two items
    while thread 0 closes the queue, and the next push is refused. *)
Definition unb_sched : list (nat * choice nat) :=
  (0%nat, Start (OpPush 1%nat)) :: replicate 7 (0%nat, Go) ++ [(0%nat, End)] ++
  (1%nat, Start OpPop) :: (0%nat, Start (OpPushN 40 (seq 2 34))) :: replicate 75 (0%nat, Go) ++
  [(1%nat, Go); (0%nat, End); (0%nat, Start OpClose); (0%nat, Go)] ++ replicate 6 (1%nat, Go) ++
  [(0%nat, End); (1%nat, End); (0%nat, Start OpLen); (1%nat, Start OpPop)] ++ replicate 3 (0%nat, Go) ++ replicate 6 (1%nat, Go) ++
  [(0%nat, End); (0%nat, Start (OpPush 9%nat)); (0%nat, Go); (0%nat, Go); (1%nat, End); (0%nat, End)].
Definition unb_final : State nat * list (event nat) := default (init, []) (run false unb_sched init []).
Definition returns {A} (es : list (event A)) : list (nat * result A) :=
  omap (λ e, match e with Return t r => Some (t, r) | _ => None end) es.

Lemma unb_run_of (sched : list (nat * choice nat)) :
  steps false init (default (init, []) (run false sched init [])).2 (default (init, []) (run false sched init [])).1.
Proof.
  destruct (run false sched init []) as [[σ es]|] eqn:Hr; [|by constructor]. by eapply unb_run_steps; [constructor|].
Qed.

Lemma unbounded_linearizable_witness :
  returns unb_final.2 =
    [(0, RPush None); (0, RPushN 34); (0, RBool true); (1, RPop (inl 1)); (0, RLen 34); (1, RPop (inl 2));
     (0, RPush (Some (PushClosed 9)))]%nat ∧
  ∃ a, asteps 31 empty_fifo unb_final.2 a ∧
    (∀ t spurious, ∃ r, code_step (queue unb_final.1) t spurious (thread unb_final.1 t) = Ret r) ∧
    ((∀ t, thread unb_final.1 t = Idle) →
     ∃ q', drop_queue (queue unb_final.1) = Ret (items (view a), q') ∧ Forall (.= None) (heap q')).
Proof.
  split; [vm_compute; reflexivity|].
  apply (unbounded_linearizable false unb_final.2 unb_final.1).
  - exact (unb_run_of unb_sched).
  - vm_compute. discriminate.
Defined.

(** The allowance for [is_empty] in the specification is needed: while the pop
    of the last item of a block has moved the head to the end of that block
    and not yet to the next one, [len] answers zero and [is_empty], called
    after it, answers false.  Thread 0 pushes a block of 31 items, thread 1
    takes thirty of them, thread 2 starts to take the last. *)
Definition lag_sched : list (nat * choice nat) :=
  (0%nat, Start (OpPushN 31 (seq 0 31))) :: replicate 70 (0%nat, Go) ++ [(0%nat, End)] ++
  concat (replicate 30 ((1%nat, Start OpPop) :: replicate 7 (1%nat, Go) ++ [(1%nat, End)])) ++
  (2%nat, Start OpPop) :: replicate 3 (2%nat, Go) ++
  (0%nat, Start OpLen) :: replicate 3 (0%nat, Go) ++ [(0%nat, End)] ++
  (0%nat, Start OpIsEmpty) :: replicate 2 (0%nat, Go) ++ [(0%nat, End)].
Definition lag_final : State nat * list (event nat) := default (init, []) (run false lag_sched init []).

Lemma is_empty_lags :
  steps false init lag_final.2 lag_final.1 ∧ drop 31 (returns lag_final.2) = [(0, RLen 0); (0, RBool false)]%nat.
Proof. split; [exact (unb_run_of lag_sched)|vm_compute; reflexivity]. Qed.
