(* ===== verification/Latches.v ===== *)
(** * Latches: the counting latch of an off-pool driver

    Model of the blocking half of [crates/youpipe/src/pool/latch.rs]:
    [LockLatch] (a flag under a mutex with a condition variable) and
    [CountLatch] over it, as the hybrid dispatcher uses them.  A driver outside
    the pool builds a latch that counts the chunks of a batch on its own
    stack, hands the chunks to workers, each of which calls [set] once, and
    waits, running a few reserved chunks itself while it spins
    ([wait_spin_assist]).  When the wait returns the latch is gone, so a
    worker must not be inside [set] any more.

    One step is one access to shared memory: the counter, the mutex, the flag
    under it, the condition variable. *)

From S2P Require Import Prelude.
Local Open Scope Z_scope.

(** [OFF_POOL_SPIN_ITERS]. *)
Definition OFF_POOL_SPIN_ITERS : nat := 4096.

(** [LockLatch]: who holds the mutex, the flag, and whether the waiter is
    parked on the condition variable. *)
Record LockLatch : Type := mkLock { holder : option nat; flag : bool; parked : bool }.
Record CountLatch : Type := mkCount { counter : Z; lock : LockLatch }.

Definition lock_new : LockLatch := mkLock None false false.
Definition with_count (count : Z) : CountLatch := mkCount count lock_new.

Definition put_lock (l : CountLatch) (k : LockLatch) : CountLatch := mkCount (counter l) k.
Definition set_holder (k : LockLatch) (h : option nat) : LockLatch := mkLock h (flag k) (parked k).

(** ** Setting *)

(** [CountLatch::set]: the decrement, and for the last one [LockLatch::set]:
    lock, store, notify, unlock. *)
Inductive SetPc : Type := SDec | SLock | SStore | SNotify | SUnlock | SDone.
#[global] Instance SetPc_eq_dec : EqDecision SetPc.
Proof. solve_decision. Defined.

Definition lock_set_step (t : nat) (k : LockLatch) (p : SetPc) : LockLatch * SetPc :=
  match p with
  | SLock => match holder k with None => (set_holder k (Some t), SStore) | Some _ => (k, SLock) end
  | SStore => (mkLock (holder k) true (parked k), SNotify)
  | SNotify => (mkLock (holder k) (flag k) false, SUnlock)
  | SUnlock => (set_holder k None, SDone)
  | _ => (k, p)
  end.

Definition set_step (t : nat) (l : CountLatch) (p : SetPc) : CountLatch * SetPc :=
  match p with
  | SDec => (mkCount (wrapping_sub 64 (counter l) 1) (lock l), if bool_decide (counter l = 1) then SLock else SDone)
  | _ => let '(k, p') := lock_set_step t (lock l) p in (put_lock l k, p')
  end.

(** ** Waiting *)

(** The driver: in the spin of [wait_spin], in the assisting loop, inside
    [set] for a chunk it ran itself, or in [LockLatch::wait]. *)
Inductive WaitPc : Type :=
  | WSpin (n : nat)
  | AWork (n : nat)
  | ASet (p : SetPc)
  | ALoadDone
  | ALoad (n : nat)
  | WLock
  | WTest
  | WParked
  | WUnlock
  | WDone.

(** [for _ in 0..n]: no iterations n goes on to the mutex. *)
Definition spin (n : nat) : WaitPc := match n with O => WLock | _ => WSpin n end.

Definition latch_wait_step (spurious : bool) (l : CountLatch) (reserve : nat) (p : WaitPc) : CountLatch * nat * WaitPc :=
  match p with
  | WSpin n => (l, reserve, if bool_decide (counter l = 0) then WLock else spin (pred n))
  | AWork n => match reserve with S r => (l, r, ASet SDec) | O => (l, reserve, ALoad n) end
  | ASet q =>
      let '(l', q') := set_step 0 l q in
      (l', reserve, match q' with SDone => ALoadDone | _ => ASet q' end)
  | ALoadDone => (l, reserve, if bool_decide (counter l = 0) then WLock else AWork OFF_POOL_SPIN_ITERS)
  | ALoad n =>
      (l, reserve,
       if bool_decide (counter l = 0) then WLock
       else match n with O => WLock | S n => AWork n end)
  | WLock =>
      match holder (lock l) with
      | None => (put_lock l (set_holder (lock l) (Some 0%nat)), reserve, WTest)
      | Some _ => (l, reserve, WLock)
      end
  | WTest =>
      if flag (lock l) then (l, reserve, WUnlock)
      else (put_lock l (mkLock None false true), reserve, WParked)
  | WParked =>
      if parked (lock l) && negb spurious then (l, reserve, WParked)
      else (put_lock l (mkLock (holder (lock l)) (flag (lock l)) false), reserve, WLock)
  | WUnlock => (put_lock l (set_holder (lock l) None), reserve, WDone)
  | WDone => (l, reserve, WDone)
  end.

(** ** The interleaving *)

(** The memory of the latch is gone once the wait has returned; the chunks
    that workers run are the list [setters], the ones left to the driver are
    [reserve]. *)
Record State : Type := mkState { latch : CountLatch; driver : WaitPc; reserve : nat; setters : list SetPc }.

(** The next step of a thread that is not done reads or writes the latch. *)
Definition uses_latch (p : SetPc) : bool := match p with SDone => false | _ => true end.

Definition driver_step (spurious : bool) (σ : State) : State :=
  let '(l, r, p) := latch_wait_step spurious (latch σ) (reserve σ) (driver σ) in mkState l p r (setters σ).
Definition setter_step (i : nat) (p : SetPc) (σ : State) : State :=
  let '(l, p') := set_step (S i) (latch σ) p in mkState l (driver σ) (reserve σ) (<[i := p']> (setters σ)).

Inductive step : State → State → Prop :=
  | step_driver spurious σ : step σ (driver_step spurious σ)
  | step_setter i p σ : setters σ !! i = Some p → step σ (setter_step i p σ).

(** A batch of [n] chunks for the workers and [r] for the driver, which waits
    by [wait_spin] or [wait_spin_assist]. *)
Definition start (assist : bool) (n r : nat) : State :=
  mkState (with_count (Z.of_nat (n + r))) (if assist then AWork OFF_POOL_SPIN_ITERS else spin OFF_POOL_SPIN_ITERS)
    r (replicate n SDec).

(** ** Invariant *)

(** The calls of [set]: the driver's first, then the workers'. *)
Definition own (p : WaitPc) : SetPc := match p with ASet q => q | _ => SDone end.
Definition all (σ : State) : list SetPc := own (driver σ) :: setters σ.
Definition decs (l : list SetPc) : nat := length (filter (λ p, p = SDec) l).

Definition late (p : SetPc) : bool := match p with SDec | SDone => false | _ => true end.
Definition crit (p : SetPc) : bool := match p with SStore | SNotify | SUnlock => true | _ => false end.
Definition stored (p : SetPc) : bool := match p with SNotify | SUnlock => true | _ => false end.
Definition in_wait (p : WaitPc) : bool := match p with WTest | WUnlock => true | _ => false end.
Definition idle (p : WaitPc) : bool := match p with AWork _ | ASet _ | ALoadDone => false | _ => true end.

(** Before the last decrement, in [LockLatch::set] of the last setter, or
    after it. *)
Inductive stage : Type := Before | Last (t : nat) (p : SetPc) | After.

Definition holds (st : stage) : option nat :=
  match st with Last t p => if crit p then Some t else None | _ => None end.
Definition unnotified (st : stage) : Prop :=
  match st with Before => True | Last _ p => p ≠ SUnlock | After => False end.

Definition stage_ok (k : LockLatch) (pending : nat) (ps : list SetPc) (st : stage) : Prop :=
  match st with
  | Before => (0 < pending)%nat ∧ flag k = false ∧ ∀ i p, ps !! i = Some p → p = SDec ∨ p = SDone
  | Last t p =>
      pending = 0%nat ∧ late p = true ∧ ps !! t = Some p ∧ flag k = stored p ∧
      ∀ i q, ps !! i = Some q → i ≠ t → q = SDone
  | After => pending = 0%nat ∧ flag k = true ∧ ∀ i q, ps !! i = Some q → q = SDone
  end.

(** What [set] is about: the counter, the mutex, and the stage. *)
Record Core (w : bool) (l : CountLatch) (r : nat) (ps : list SetPc) (st : stage) : Prop := {
  core_count : counter l = Z.of_nat (decs ps + r);
  core_word : Z.of_nat (decs ps + r) < 2 ^ 64;
  core_stage : stage_ok (lock l) (decs ps + r) ps st;
  core_holder : holder (lock l) = if w then Some 0%nat else holds st;
  core_free : w = true → holds st = None;
  core_parked : parked (lock l) = true → unnotified st;
}.

Record InvS (σ : State) (st : stage) : Prop := {
  inv_core : Core (in_wait (driver σ)) (latch σ) (reserve σ) (all σ) st;
  inv_after : driver σ = WUnlock ∨ driver σ = WDone → st = After;
  inv_parked : parked (lock (latch σ)) = true → driver σ = WParked;
  inv_reserve : idle (driver σ) = true → reserve σ = 0%nat;
  inv_own : driver σ ≠ ASet SDone;
}.
Definition Inv (σ : State) : Prop := ∃ st, InvS σ st.

Lemma decs_insert ps i p p' :
  ps !! i = Some p →
  (decs (<[i := p']> ps) + (if decide (p = SDec) then 1 else 0) =
   decs ps + (if decide (p' = SDec) then 1 else 0))%nat.
Proof.
  revert i. induction ps as [|q ps IH]; intros [|i] Hi; try done.
  - injection Hi as ->. change (<[0%nat := p']> (p :: ps)) with (p' :: ps). unfold decs. rewrite !filter_cons.
    repeat case_decide; cbn [length]; lia.
  - specialize (IH i Hi). change (<[S i := p']> (q :: ps)) with (q :: <[i := p']> ps). unfold decs in *.
    rewrite !filter_cons. repeat case_decide; cbn [length]; lia.
Qed.

Lemma decs_zero ps i : decs ps = 0%nat → ps !! i ≠ Some SDec.
Proof.
  intros H Hi. pose proof (decs_insert ps i SDec SDone Hi) as Hd. rewrite decide_True, decide_False in Hd by done. lia.
Qed.

(** ** [set] *)

Lemma set_not_before w l r ps st t p :
  Core w l r ps st → ps !! t = Some p → late p = true → st = Last t p.
Proof.
  intros [] Ht Hl. destruct st as [|u q|]; cbn in core_stage0.
  - destruct core_stage0 as (_ & _ & H). by destruct (H _ _ Ht) as [->| ->].
  - destruct core_stage0 as (_ & Hq & Hu & _ & H). destruct (decide (t = u)) as [->|Hne]; [congruence|].
    by rewrite (H _ _ Ht Hne) in Hl.
  - destruct core_stage0 as (_ & _ & H). by rewrite (H _ _ Ht) in Hl.
Qed.

Lemma decs_same ps t p p' : ps !! t = Some p → p ≠ SDec → p' ≠ SDec → decs (<[t := p']> ps) = decs ps.
Proof. intros Ht Hp Hp'. pose proof (decs_insert ps t p p' Ht) as H. rewrite !decide_False in H by done. lia. Qed.

(** The last setter moves on. *)
Lemma core_last (w : bool) l k r ps t p p' :
  Core w l r ps (Last t p) → ps !! t = Some p → late p' = true → flag k = stored p' →
  holder k = (if w then Some 0%nat else holds (Last t p')) → (w = true → holds (Last t p') = None) →
  (parked k = true → p' ≠ SUnlock) → Core w (put_lock l k) r (<[t := p']> ps) (Last t p').
Proof.
  intros [] Ht Hl Hf Hh Hw Hp. destruct core_stage0 as (H0 & Hlp & _ & _ & Ho).
  assert (decs (<[t := p']> ps) = decs ps) as Hd by (apply (decs_same _ _ p); [done|by destruct p|by destruct p']).
  split; rewrite ?Hd; try done. split_and!; [done|done| |done|].
  - apply list_lookup_insert_eq. by eapply lookup_lt_Some.
  - intros i q Hi Hne. rewrite list_lookup_insert_ne in Hi by done. by eapply Ho.
Qed.

Lemma core_dec w l r ps st t :
  Core w l r ps st → ps !! t = Some SDec →
  ∃ st', Core w (mkCount (wrapping_sub 64 (counter l) 1) (lock l)) r
    (<[t := if bool_decide (counter l = 1) then SLock else SDone]> ps) st' ∧ holds st' = None ∧ st ≠ After.
Proof.
  intros [] Ht. pose proof (decs_insert ps t SDec (if bool_decide (counter l = 1) then SLock else SDone) Ht) as Hd.
  rewrite decide_True, decide_False in Hd by (done || by case_bool_decide).
  assert (st = Before) as ->.
  { destruct st as [|u q|]; [done|..]; cbn in core_stage0.
    - destruct core_stage0 as (H0 & _). by destruct (decs_zero ps t); [lia|].
    - destruct core_stage0 as (H0 & _). by destruct (decs_zero ps t); [lia|]. }
  destruct core_stage0 as (Hpos & Hflag & Hall). cbn [holds] in *.
  assert (wrapping_sub 64 (counter l) 1 = Z.of_nat (decs ps + r) - 1) as Hw.
  { unfold wrapping_sub. rewrite core_count0. apply wrap_small. unfold is_word. lia. }
  assert (t < length ps)%nat as Hlen by (by eapply lookup_lt_Some).
  case_bool_decide as H1.
  - exists (Last t SLock). split; [|done]. split; cbn [counter lock holds crit]; rewrite ?Hw; try done; [lia..|].
    assert (decs (<[t := SLock]> ps) = 0)%nat as H0 by lia.
    split_and!; [lia|done|by apply list_lookup_insert_eq|done|].
    intros i q Hi Hne. pose proof (decs_zero _ i H0) as Hn. rewrite list_lookup_insert_ne in Hi, Hn by done.
    destruct (Hall i q Hi) as [->|]; [|done]. by destruct Hn.
  - exists Before. split; [|done]. split; cbn [counter lock holds]; rewrite ?Hw; try done; [lia..|].
    split_and!; [lia|done|]. intros i p Hi. destruct (decide (i = t)) as [->|Hne].
    + rewrite list_lookup_insert_eq in Hi by done. injection Hi as <-. by right.
    + rewrite list_lookup_insert_ne in Hi by done. by eapply Hall.
Qed.

Lemma set_core w l r ps st t p l' p' :
  Core w l r ps st → ps !! t = Some p → p ≠ SDone → set_step t l p = (l', p') →
  (∃ st', Core w l' r (<[t := p']> ps) st') ∧ st ≠ After ∧
  (parked (lock l') = true → parked (lock l) = true).
Proof.
  intros Hc Ht Hne Hs. destruct (decide (p = SDec)) as [->|Hdec].
  { cbn in Hs. injection Hs as <- <-. destruct (core_dec _ _ _ _ _ _ Hc Ht) as (st' & Hc' & _ & Ha). eauto. }
  assert (late p = true) as Hlate by (by destruct p). pose proof (set_not_before _ _ _ _ _ _ _ Hc Ht Hlate) as ->.
  pose proof Hc as []. destruct core_stage0 as (H0 & _ & _ & Hf & Ho).
  split; [|split; [done|]]; destruct p; try done; cbn in Hs, Hf; cbn [holds crit] in *.
  - destruct (holder (lock l)) eqn:Hh; injection Hs as <- <-.
    + exists (Last t SLock). rewrite list_insert_id by done. by destruct l.
    + exists (Last t SStore). destruct w; [done|]. by apply (core_last _ _ _ _ _ _ SLock).
  - destruct w; [by specialize (core_free0 eq_refl)|]. injection Hs as <- <-. exists (Last t SNotify).
    by apply (core_last _ _ _ _ _ _ SStore).
  - destruct w; [by specialize (core_free0 eq_refl)|]. injection Hs as <- <-. exists (Last t SUnlock).
    by apply (core_last _ _ _ _ _ _ SNotify).
  - destruct w; [by specialize (core_free0 eq_refl)|]. injection Hs as <- <-. exists After.
    pose proof (decs_same ps t SUnlock SDone Ht ltac:(done) ltac:(done)) as Hd.
    split; rewrite ?Hd; try done.
    + split_and!; [done|done|]. intros i q Hi. destruct (decide (i = t)) as [->|Hit].
      * rewrite list_lookup_insert_eq in Hi by (by eapply lookup_lt_Some). by injection Hi.
      * rewrite list_lookup_insert_ne in Hi by done. by eapply Ho.
    + cbn. intros Hp. by destruct (core_parked0 Hp).
  - destruct (holder (lock l)); injection Hs as <- <-; done.
  - by injection Hs as <- <-.
  - by injection Hs as <- <-.
  - by injection Hs as <- <-.
Qed.

(** ** The invariant is kept *)

Lemma inv_setter σ i p : Inv σ → setters σ !! i = Some p → Inv (setter_step i p σ).
Proof.
  intros (st & [Hc Ha Hp Hr Ho]) Hi. unfold setter_step. destruct (set_step (S i) (latch σ) p) as [l' p'] eqn:Hs.
  destruct (decide (p = SDone)) as [->|Hne].
  { cbn in Hs. injection Hs as <- <-. exists st. rewrite list_insert_id by done. by destruct σ as [[] ? ? ?]. }
  destruct (set_core _ _ _ _ _ (S i) p l' p' Hc Hi Hne Hs) as ((st' & Hc') & Hna & Hpk).
  exists st'. split; cbn; try done; [|by auto]. intros Hd. by destruct Hna; apply Ha.
Qed.

Lemma core_work l r ps st : Core false l (S r) (SDone :: ps) st → Core false l r (SDec :: ps) st.
Proof.
  intros []. assert (decs (SDec :: ps) + r = decs (SDone :: ps) + S r)%nat as Hd.
  { unfold decs. rewrite !filter_cons. rewrite decide_True, decide_False by done. cbn [length]. lia. }
  split; rewrite ?Hd; try done. destruct st as [|t p|]; cbn in core_stage0 |- *.
  - destruct core_stage0 as (? & ? & H). split_and!; [done..|]. intros [|i] p Hi; [injection Hi as <-; by left|].
    by apply (H (S i)).
  - destruct core_stage0 as (? & _). lia.
  - destruct core_stage0 as (? & _). lia.
Qed.

(** Taking and releasing the mutex, parking. *)
Lemma core_lock (w w' : bool) l r ps st k :
  Core w l r ps st → flag k = flag (lock l) → holder k = (if w' then Some 0%nat else holds st) →
  (w' = true → holds st = None) → (parked k = true → unnotified st) → Core w' (put_lock l k) r ps st.
Proof.
  intros [] Hf Hh Hw Hp. split; try done. destruct st; cbn in *; by rewrite Hf.
Qed.

Lemma flag_after w l r ps st : Core w l r ps st → w = true → flag (lock l) = true → st = After.
Proof.
  intros [] -> Hf. specialize (core_free0 eq_refl). destruct st as [|t p|]; cbn in *; [|..|done].
  - destruct core_stage0 as (_ & H & _). congruence.
  - destruct core_stage0 as (_ & _ & _ & H & _). rewrite Hf in H. by destruct p.
Qed.

Lemma flag_unnotified w l r ps st : Core w l r ps st → flag (lock l) = false → unnotified st.
Proof.
  intros [] Hf. destruct st as [|t p|]; cbn in *; [done|..].
  - destruct core_stage0 as (_ & _ & _ & H & _). rewrite Hf in H. by destruct p.
  - destruct core_stage0 as (_ & H & _). congruence.
Qed.

Ltac inv_parts Hp Hr :=
  split; cbn; try done; try (by intros [|]); try (intros Hk; by specialize (Hp Hk)); try (by intros _; apply Hr).

Lemma inv_driver sp σ : Inv σ → Inv (driver_step sp σ).
Proof.
  intros (st & [Hc Ha Hp Hr Ho]). unfold driver_step. destruct σ as [l p r ps]; unfold all in *; cbn in *.
  destruct p as [n|n|q| |n| | | | |]; cbn [latch_wait_step in_wait own idle] in *.
  - exists st. destruct (bool_decide (counter l = 0)); [inv_parts Hp Hr|]. destruct n as [|[|n]]; inv_parts Hp Hr.
  - destruct r as [|r]; exists st; [inv_parts Hp Hr|]. inv_parts Hp Hr. by apply core_work.
  - destruct (set_step 0 l q) as [l' q'] eqn:Hs.
    destruct (set_core _ _ _ _ _ 0 q l' q' Hc eq_refl) as ((st' & Hc') & Hna & Hpk); [congruence|done|].
    exists st'. destruct q'; inv_parts Hp Hr; intros Hk; by specialize (Hp (Hpk Hk)).
  - exists st. case_bool_decide as H0; inv_parts Hp Hr. intros _. destruct Hc. lia.
  - exists st. destruct (bool_decide (counter l = 0)); [|destruct n]; inv_parts Hp Hr.
  - destruct (holder (lock l)) eqn:Hh; exists st; [inv_parts Hp Hr|]. pose proof (core_holder _ _ _ _ _ Hc) as Hh'.
    rewrite Hh in Hh'. inv_parts Hp Hr. apply (core_lock false); try done. intros Hk. by specialize (Hp Hk).
  - destruct (flag (lock l)) eqn:Hf; exists st.
    + pose proof (flag_after _ _ _ _ _ Hc eq_refl Hf) as ->. inv_parts Hp Hr.
    + inv_parts Hp Hr. pose proof (core_free _ _ _ _ _ Hc eq_refl) as Hfree.
      apply (core_lock true); try done. intros _. by eapply flag_unnotified.
  - destruct (parked (lock l) && negb sp); exists st; inv_parts Hp Hr.
    apply (core_lock false); try done. by apply (core_holder _ _ _ _ _ Hc).
  - exists st. pose proof (Ha (or_introl eq_refl)) as ->. inv_parts Hp Hr.
    apply (core_lock true); try done. intros Hk. by specialize (Hp Hk).
  - by exists st.
Qed.

Lemma inv_start assist n r :
  (0 < n + r)%nat → Z.of_nat (n + r) < 2 ^ 64 → (assist = false → r = 0%nat) → Inv (start assist n r).
Proof.
  intros Hpos Hw Hr. exists Before.
  assert (∀ p, own p = SDone → decs (own p :: replicate n SDec) = n) as Hd.
  { intros p ->. unfold decs. rewrite filter_cons, decide_False by done. clear. induction n as [|n IH]; [done|].
    cbn [replicate]. rewrite filter_cons, decide_True by done. cbn [length]. by rewrite IH. }
  assert (own (driver (start assist n r)) = SDone) as Hown by (by destruct assist).
  assert (in_wait (driver (start assist n r)) = false) as Hin by (by destruct assist).
  split.
  - unfold all. rewrite Hin. split; rewrite ?Hd by done; try done. cbn [start setters lock latch with_count reserve].
    split_and!; [done|done|]. intros [|i] p Hi.
    + change (Some (own (driver (start assist n r))) = Some p) in Hi. rewrite Hown in Hi. injection Hi as <-. by right.
    + cbn in Hi. apply lookup_replicate in Hi as [-> _]. by left.
  - by destruct assist; intros [|].
  - done.
  - destruct assist; [done|]. intros _. by apply Hr.
  - by destruct assist.
Qed.

Lemma inv_steps_latch σ σ' : rtc step σ σ' → Inv σ → Inv σ'.
Proof.
  induction 1 as [|σ σ1 σ2 Hst _ IH]; [done|]. intros HI. apply IH.
  destruct Hst as [sp σ|i p σ Hi]; [by apply inv_driver|by apply inv_setter].
Qed.

(** ** The wait returns *)

(** Steps without spurious wake-ups. *)
Inductive quiet : State → State → Prop :=
  | quiet_driver σ : quiet σ (driver_step false σ)
  | quiet_setter i p σ : setters σ !! i = Some p → quiet σ (setter_step i p σ).

Lemma quiet_inv σ σ' : rtc quiet σ σ' → Inv σ → Inv σ'.
Proof.
  intros H. apply inv_steps_latch. eapply rtc_subrel; [|exact H]. intros ? ? []; by constructor.
Qed.

(** How far a call of [set] is from its end. *)
Definition left_of (p : SetPc) : nat :=
  match p with SDec => 5 | SLock => 4 | SStore => 3 | SNotify => 2 | SUnlock => 1 | SDone => 0 end.

(** No call of [set] waits, unless the driver is testing the flag. *)
Lemma set_moves l r ps st t p l' p' :
  Core false l r ps st → ps !! t = Some p → p ≠ SDone → set_step t l p = (l', p') → (left_of p' < left_of p)%nat.
Proof.
  intros Hc Ht Hne Hs. destruct p; try done; cbn in Hs; try (injection Hs as <- <-; cbn; lia).
  - case_bool_decide; injection Hs as <- <-; cbn; lia.
  - pose proof (set_not_before _ _ _ _ _ _ _ Hc Ht eq_refl) as ->. pose proof (core_holder _ _ _ _ _ Hc) as Hh.
    cbn in Hh. rewrite Hh in Hs. injection Hs as <- <-. cbn. lia.
Qed.

(** The driver gets out of a chunk of its own and out of the mutex. *)
Lemma driver_leaves σ :
  Inv σ → ∃ σ', rtc quiet σ σ' ∧ in_wait (driver σ') = false ∧ own (driver σ') = SDone.
Proof.
  remember (left_of (own (driver σ))) as n eqn:Hn. revert σ Hn. induction (lt_wf n) as [n _ IH]. intros σ Hn HI.
  destruct (driver σ) as [| |q| | | | | | |] eqn:Hd; try (by exists σ; rewrite Hd).
  - pose proof (inv_driver false σ HI) as HI'. destruct HI as (st & [Hc _ _ _ Ho]). unfold all in Hc. rewrite Hd in Hc, Ho.
    destruct (set_step 0 (latch σ) q) as [l' q'] eqn:Hs.
    assert (driver (driver_step false σ) = match q' with SDone => ALoadDone | _ => ASet q' end) as Hd'.
    { unfold driver_step. rewrite Hd. cbn [latch_wait_step]. by rewrite Hs. }
    pose proof (set_moves _ _ _ _ 0 q l' q' Hc eq_refl ltac:(congruence) Hs) as Hlt.
    edestruct (IH (left_of q')) as (σ' & Hr & Hw); [cbn in Hn; lia| |exact HI'|].
    { rewrite Hd'. by destruct q'. }
    exists σ'. split; [|done]. eapply rtc_l; [apply quiet_driver|done].
  - assert (∃ l, driver_step false σ = mkState l (if flag (lock (latch σ)) then WUnlock else WParked) (reserve σ) (setters σ))
      as (l & Hl). { unfold driver_step. rewrite Hd. cbn [latch_wait_step]. destruct (flag (lock (latch σ))); by eexists. }
    pose proof (quiet_driver σ) as Hq. rewrite Hl in Hq. destruct (flag (lock (latch σ))).
    + eexists. split; [eapply rtc_l; [exact Hq|]; eapply rtc_once, quiet_driver|done].
    + eexists. split; [eapply rtc_once, Hq|done].
  - exists (driver_step false σ). split; [eapply rtc_once, quiet_driver|]. unfold driver_step. by rewrite Hd.
Qed.

(** Then the workers finish. *)
Definition work_left (ps : list SetPc) : nat := sum_list (left_of <$> ps).

Lemma work_insert ps i p p' :
  ps !! i = Some p → (left_of p' < left_of p)%nat → (work_left (<[i := p']> ps) < work_left ps)%nat.
Proof.
  intros Hi Hlt. unfold work_left. revert i Hi. induction ps as [|q ps IH]; intros [|i] Hi; try done.
  - injection Hi as ->. cbn. lia.
  - specialize (IH i Hi). change (<[S i := p']> (q :: ps)) with (q :: <[i := p']> ps). rewrite !fmap_cons. cbn. lia.
Qed.

Lemma setters_finish σ :
  Inv σ → in_wait (driver σ) = false → own (driver σ) = SDone →
  ∃ σ', rtc quiet σ σ' ∧ driver σ' = driver σ ∧ Forall (λ p, p = SDone) (setters σ').
Proof.
  remember (work_left (setters σ)) as n eqn:Hn. revert σ Hn. induction (lt_wf n) as [n _ IH]. intros σ Hn HI Hw Ho.
  destruct (decide (Forall (λ p, p = SDone) (setters σ))) as [Hall|Hnot]; [by exists σ|].
  apply not_Forall_Exists, Exists_exists in Hnot as (p & Hin & Hp); [|solve_decision].
  apply list_elem_of_lookup in Hin as [i Hi]. pose proof (inv_setter σ i p HI Hi) as HI'.
  destruct HI as (st & [Hc _ _ _ _]). rewrite Hw in Hc. destruct (set_step (S i) (latch σ) p) as [l' p'] eqn:Hs.
  assert (setter_step i p σ = mkState l' (driver σ) (reserve σ) (<[i := p']> (setters σ))) as He.
  { unfold setter_step. by rewrite Hs. }
  pose proof (set_moves _ _ _ _ (S i) p l' p' Hc Hi Hp Hs) as Hlt. pose proof (work_insert _ _ _ _ Hi Hlt) as Hw'.
  rewrite He in HI'. edestruct (IH (work_left (<[i := p']> (setters σ)))) as (σ' & Hr & Hd & Hall); [lia|..|exact HI'|done|done|]; [done|].
  exists σ'. split; [|done]. eapply rtc_l; [by eapply quiet_setter|]. by rewrite He.
Qed.

(** Then the driver returns. *)
#[local] Opaque OFF_POOL_SPIN_ITERS.

Definition wait_left (p : WaitPc) (r : nat) : nat :=
  let I := OFF_POOL_SPIN_ITERS in
  match p with
  | WDone => 0 | WUnlock => 1 | WTest => 2 | WLock => 3 | WParked => 4
  | WSpin n => 4 + n
  | ALoad n => r * (2 * I + 20) + 2 * n + 5
  | AWork n => r * (2 * I + 20) + 2 * n + 6
  | ALoadDone => r * (2 * I + 20) + 2 * I + 7
  | ASet q => r * (2 * I + 20) + 2 * I + 8 + left_of q
  end.

(** With every worker done, an idle driver finds the latch set. *)
Lemma all_after σ st :
  InvS σ st → Forall (λ p, p = SDone) (setters σ) → own (driver σ) = SDone → reserve σ = 0%nat → st = After.
Proof.
  intros [[] _ _ _ _] Hall Ho Hr. assert (∀ i p, all σ !! i = Some p → p = SDone) as Hdone.
  { intros [|i] p Hi; unfold all in Hi; cbn in Hi; [congruence|]. by eapply (Forall_lookup_1 _ _ _ _ Hall). }
  destruct st as [|t p|]; unfold stage_ok in core_stage0; [|..|done].
  - destruct core_stage0 as (Hpos & _). rewrite Hr, Nat.add_0_r in Hpos.
    unfold decs in Hpos. destruct (filter _ (all σ)) as [|p ps] eqn:Hf; [cbn in Hpos; lia|].
    assert (p ∈ filter (λ p, p = SDec) (all σ)) as [-> Hin]%list_elem_of_filter by (rewrite Hf; by left).
    apply list_elem_of_lookup in Hin as [i Hi]. by specialize (Hdone i _ Hi).
  - destruct core_stage0 as (_ & Hl & Ht & _). by rewrite (Hdone t p Ht) in Hl.
Qed.

Lemma driver_moves σ :
  Inv σ → Forall (λ p, p = SDone) (setters σ) → driver σ ≠ WDone →
  (wait_left (driver (driver_step false σ)) (reserve (driver_step false σ)) < wait_left (driver σ) (reserve σ))%nat ∧
  setters (driver_step false σ) = setters σ.
Proof.
  intros (st & HI) Hall Hd. pose proof (all_after σ st HI Hall) as Haft. destruct HI as [Hc Ha Hp Hr Ho].
  unfold driver_step, all in *. destruct σ as [l p r ps]. cbn [driver latch reserve setters] in *.
  destruct p as [n|n|q| |n| | | | |]; cbn [latch_wait_step own idle in_wait] in *; (split; [|repeat case_match; done]).
  - destruct (bool_decide (counter l = 0)); [cbn; lia|]. destruct n as [|[|n]]; cbn; lia.
  - destruct r; cbn; lia.
  - destruct (set_step 0 l q) as [l' q'] eqn:Hs.
    pose proof (set_moves _ _ _ _ 0 q l' q' Hc eq_refl ltac:(congruence) Hs). destruct q'; cbn in *; lia.
  - destruct (bool_decide (counter l = 0)); cbn; lia.
  - destruct (bool_decide (counter l = 0)); [cbn; lia|]. destruct n; cbn; lia.
  - specialize (Haft eq_refl (Hr eq_refl)) as ->. pose proof (core_holder _ _ _ _ _ Hc) as Hh. cbn in Hh. rewrite Hh. cbn. lia.
  - specialize (Haft eq_refl (Hr eq_refl)) as ->. destruct (core_stage _ _ _ _ _ Hc) as (_ & Hf & _). rewrite Hf. cbn. lia.
  - specialize (Haft eq_refl (Hr eq_refl)) as ->. pose proof (core_parked _ _ _ _ _ Hc) as Hpk.
    destruct (parked (lock l)); [by destruct Hpk|]. cbn. lia.
  - cbn. lia.
  - done.
Qed.

Lemma driver_returns σ :
  Inv σ → Forall (λ p, p = SDone) (setters σ) → ∃ σ', rtc quiet σ σ' ∧ driver σ' = WDone.
Proof.
  remember (wait_left (driver σ) (reserve σ)) as n eqn:Hn. revert σ Hn. induction (lt_wf n) as [n _ IH].
  intros σ -> HI Hall. destruct (decide (wait_left (driver σ) (reserve σ) = 0%nat)) as [H0|H0].
  { exists σ. split; [done|]. destruct (driver σ); cbn in H0; lia || done. }
  destruct (driver_moves σ HI Hall) as [Hlt Hs]; [by intros H; rewrite H in H0|].
  edestruct IH as (σ' & Hr & Hd); [exact Hlt|done|by apply inv_driver|by rewrite Hs|].
  exists σ'. split; [|done]. eapply rtc_l; [apply quiet_driver|done].
Qed.

(** C24: the off-pool wait is sound and returns.  A driver builds a counting
    latch for [n] chunks of the workers and [r] of its own and waits by
    [wait_spin] or [wait_spin_assist].  In every interleaving, when the wait
    has returned, and the latch with the driver's stack frame is gone, every
    chunk has completed its call of [set], so that no worker still touches the
    latch.  And from every state of every interleaving the wait can return,
    also when the driver went to sleep on the condition variable: no wake-up
    is lost, and no wake-up but the setter's is needed. *)
Theorem count_latch_correct (assist : bool) (n r : nat) (σ : State)
    (Hpos : (0 < n + r)%nat) (Hword : Z.of_nat (n + r) < 2 ^ 64) (Hr : assist = false → r = 0%nat)
    (Hrun : rtc step (start assist n r) σ) :
  (driver σ = WDone → counter (latch σ) = 0 ∧ reserve σ = 0%nat ∧ Forall (λ p, uses_latch p = false) (setters σ)) ∧
  ∃ σ', rtc quiet σ σ' ∧ driver σ' = WDone.
Proof.
  pose proof (inv_steps_latch _ _ Hrun (inv_start assist n r Hpos Hword Hr)) as HI. split.
  - intros Hd. destruct HI as (st & [Hc Ha _ _ _]). pose proof (Ha (or_intror Hd)) as ->. destruct Hc as [Hcount _ Hst _ _ _].
    destruct Hst as (H0 & _ & Hall). split_and!; [lia|lia|]. apply Forall_lookup. intros i p Hi.
    by rewrite (Hall (S i) p Hi).
  - destruct (driver_leaves σ HI) as (σ1 & Hr1 & Hw & Ho). pose proof (quiet_inv _ _ Hr1 HI) as HI1.
    destruct (setters_finish σ1 HI1 Hw Ho) as (σ2 & Hr2 & _ & Hall). pose proof (quiet_inv _ _ Hr2 HI1) as HI2.
    destruct (driver_returns σ2 HI2 Hall) as (σ3 & Hr3 & Hd). exists σ3. split; [|done].
    by etrans; [exact Hr1|etrans; [exact Hr2|]].
Qed.

(** One chunk of a worker and one of the driver's: the worker has decremented
    the counter, the driver runs the other chunk. *)
Definition latch_mid : State := driver_step false (setter_step 0 SDec (start true 1 1)).

Lemma count_latch_correct_witness :
  driver latch_mid = ASet SDec ∧ counter (latch latch_mid) = 1 ∧
  ∃ σ', rtc quiet latch_mid σ' ∧ driver σ' = WDone.
Proof.
  split; [vm_compute; reflexivity|]. split; [vm_compute; reflexivity|].
  refine (proj2 (count_latch_correct true 1 1 latch_mid _ _ _ _)).
  - lia.
  - lia.
  - discriminate.
  - eapply rtc_l; [apply (step_setter 0 SDec); reflexivity|]. eapply rtc_l; [apply (step_driver false)|]. apply rtc_refl.
Defined.
