(* ===== verification/Sharded.v ===== *)
(** * Sharded: the per-worker sharded terminal

    Model of [crates/youpipe/src/handoff/sharded.rs] and of the drains over it
    in [crates/youpipe/src/state/stream.rs]: [ShardSet] with its burst passes
    ([drain_pass], [drain_pass_batched]), the anchor, the constructor's
    sizing, and [drain_unordered_sharded] and [drain_ordered_sharded].  A shard
    is a receiver of [Channel]; the asynchronous flavours run the same code
    with an awaited anchor. *)

From S2P Require Import Prelude Reorder Channel Stream.

Definition MIN_SHARD_BUFFER : nat := 4.

Record ShardSet (C : Type) : Type := mkShards { rxs : list C; closed : list bool; cursor : nat; opened : nat }.
Arguments mkShards {C} _ _ _ _.
Arguments rxs {C} _.
Arguments closed {C} _.
Arguments cursor {C} _.
Arguments opened {C} _.

(** [sharded_mpsc_channel]: the capacity of each shard, and the receiver's
    side; [mk] makes a channel of a capacity. *)
Definition shard_capacity (shards total_capacity : nat) : outcome nat :=
  guard_panic (bool_decide (0 < shards));;
  mret ((total_capacity / shards) `max` MIN_SHARD_BUFFER).
Definition sharded_channel {C} (mk : nat → C) (shards total_capacity : nat) : outcome (ShardSet C) :=
  per ← shard_capacity shards total_capacity;
  mret (mkShards (replicate shards (mk per)) (replicate shards false) 0 shards).


Section sharded.
Context {C T St : Type} `{RecvItem C T}.
Context (ins : St → T → outcome St).
Implicit Types s : ShardSet C.







(** ** Every arrival is inserted once *)

Context (arrivals : C → list T → Prop) `{!RecvLaws C T arrivals}.





















End sharded.

(** ** The drains *)

Section drains.
Context {C A : Type} `{RecvItem C (Z * A)}.
Implicit Types s : ShardSet C.




Context (arrivals : C → list (Z * A) → Prop) `{!RecvLaws C (Z * A) arrivals}.


End drains.



